(* ===== verification/_CoqProject ===== *)
-Q . S2P
Prelude.v
Strings.v
FileScope.v
LineEdit.v
Worklist.v
Json.v
Numbers.v
ToolErrors.v
Patch.v
PatchFormat.v
Template.v
Expression.v
ExpressionFacts.v
ExpressionGrammar.v
Conditions.v
ConditionFacts.v
ConditionCheck.v
GraphTypes.v
ErrorBranch.v
Graph.v
GraphAnalysis.v
CheckpointGraph.v
CleanupPolicy.v
DeltaChain.v
GitStore.v
GitTrees.v
GitWalks.v
FileManager.v
Approval.v
ConflictMarkers.v
GitFacts.v
FileManagerFacts.v
ApprovalFacts.v
FileHistory.v
RetryBudget.v
RetryPolicy.v
CoreState.v
Hierarchy.v
LoopState.v
VariableMapping.v
MessageContext.v
TokenTracker.v
Compaction.v
CompactionFacts.v
Session.v
SessionFacts.v
CompactionDriver.v
CompressionService.v
ForkRegistry.v
ForkGraph.v
Validation.v
ValidationFacts.v
Entity.v
SnapshotFields.v
DeltaWorkflow.v
DeltaAgent.v
AgentErrors.v
AgentState.v
ExecutionBudgets.v
Coordinator.v
AgentLoop.v
ForkJoin.v
JoinNode.v
CoordExample.v
CoordFrame.v
Navigation.v
BranchScope.v
NodeRuns.v
