(* ===== verification/Prelude.v ===== *)
(** * A verification library for wf-agent

    wf-agent runs workflow graphs and agents: a graph of nodes is validated and
    scheduled, nodes run with retries and shared budgets, loops and error
    branches steer the walk, and checkpoints (full snapshots and chains of
    deltas) make an execution resumable until retention deletes them; the files
    it edits have their own history, a commit graph with reviews and merges.
    The paths below are relative to src/crates/.

    ** Parts and files

    Foundations
    - [Prelude]: Rust's [Result], machine integers (wrapping and saturating
      arithmetic on [Z]), lemmas on lists, maps and sets, tactics, hints.
    - [Strings], [Json]: the string operations and the [serde_json::Value]
      accessors the sources call; [Serde] is the interface of serialisable
      fields, [SerdeLaws] holds of the types whose every value round trips.
    - [Numbers]: parsing and printing of numbers and binary64 arithmetic bit by
      bit, on Stdlib's [spec_float].
    - [Worklist]: breadth-first search with fuel, and its correctness; used by
      every closure of the sources.

    Graphs (engine/wf-workflow/src)
    - [GraphTypes]: nodes, edges, error routes (wf-types/src/workflow_execution/
      graph_structure.rs, workflow/edge.rs, workflow/error_branch.rs).
    - [ErrorBranch]: error_branch.rs.  [build] compiles the routing table,
      [resolve] answers a terminal failure, [worst_chain_len] estimates a
      branch's steps.
    - [Graph]: graph.rs.  [new] is [GraphTraversal::new]; [find_ready_nodes] is
      the scheduling query.  It calls [ErrorBranch.build].
    - [GraphAnalysis]: analysis.rs: [detect_cycles], [topological_sort],
      [analyze_reachability], [analyze_graph].
    - [LoopState]: loop_state.rs, handler/loop_handler.rs, the input mapping of
      handler/variable_mapping.rs and the guarded variable write of
      wf-execution-shared/src/context.rs.  The store is threaded by a
      state-and-error monad in which a failing operation keeps its writes.

    Values, expressions and conditions
    - [Template]: wf-common/src/template.rs and wf-types/src/template.rs, the
      span scanners, rendering and dotted paths.
    - [Expression]: wf-workflow/src/variable.rs, the resolver and the one-pass
      expression evaluator.  [ExpressionFacts] proves that it ends;
      [ExpressionGrammar] specifies it by the syntax trees of the language.
    - [Conditions]: wf-core/src/condition.rs, the static check and the
      evaluator.  [ConditionFacts] and [ConditionCheck] hold its theorems.
    - [VariableMapping]: handler/variable_mapping.rs, the mappings between
      scopes and the dotted path writer.
    - [MessageContext]: message_context.rs with wf-types/src/llm/ledger.rs.
    - [FileScope]: wf-types/src/config/file_scope.rs, the scopes that confine
      the file tools of an execution, and what their paths mean.

    Text edits (engine/wf-tools/src)
    - [LineEdit]: sequence_matcher.rs and the edit kernel of
      filesystem/edit_diff.rs; splicing at positions, shared with [Patch].
    - [ToolErrors]: error.rs.
    - [Patch]: patch.rs and patch/v4a.rs, the parser of patches and their
      application; [PatchFormat] prints documents and parses them back.

    Executions of a workflow (engine/wf-workflow/src)
    - [Entity]: entity.rs, state.rs, error.rs, error_analysis.rs and the
      interruption state of wf-core/src/interruption.rs.
    - [Coordinator]: coordinator/workflow.rs and its parts: the execution loop
      with navigation, routing, error branches, injections and signals, over
      the interface [Environment] of conditions, node handlers and texts.
      [CoordExample] runs it on a graph, [CoordFrame] holds the frame
      conditions of its steps; [Navigation], [BranchScope] and [NodeRuns] hold
      the theorems on its budget, on error branches and on what it runs.
    - [ForkRegistry]: wf-execution-shared/src/fork.rs, the table of branches and
      the wait on it as a step relation.
    - [ForkGraph]: handler/fork_join/graph.rs.
    - [ForkJoin]: barrier.rs, handler/fork_join/branch.rs and fork.rs;
      [run_parallel] is a machine over the events of its tasks.
    - [JoinNode]: handler/fork_join/merge.rs and join.rs.
    - [Validation]: validation.rs and validation/, the static rules of a graph,
      each a list of findings; [ValidationFacts] joins them to [Graph],
      [GraphAnalysis] and [ForkGraph], which run what was validated.
    - [ExecutionBudgets]: execution_budgets.rs, the wall-clock budget of a run
      across suspensions (coordinator/lifecycle/resume.rs) and approval waits.

    Agents (engine/wf-agent/src)
    - [AgentErrors]: error.rs and error_analysis.rs, with the error records of
      wf-common/src/error_chain.rs and the retry budget of
      wf-core/src/failure_policy.rs.
    - [AgentState]: state.rs, every method of [AgentLoopState], its status
      machine and its snapshots.
    - [AgentLoop]: entity.rs, coordinator/iteration.rs, execution.rs,
      state_transitor.rs and the run of lifecycle/run.rs.  Model, tools and
      clock enter as one [Attempt] per call, the other tasks as [Event]s.

    Conversations and their compaction
    - [TokenTracker]: wf-execution-shared/src/token_tracker.rs: the usage of
      requests, the calibration of estimates, warnings and flights.
    - [Compaction]: wf-types/src/message/message_view.rs and
      compaction_state.rs, wf-execution-shared/src/compaction.rs: projections
      of a history, the block table, thresholds, decisions and plans.
      [CompactionFacts] holds the theorems on plans.
    - [Session]: conversation_session.rs, every operation of a session over
      history, view, blocks, ledger and tracker.  [SessionFacts] proves the
      invariants of sequences of operations and of whole lives ([lives]), in
      which sessions are also reset, restored and branched.
    - [CompactionDriver]: the loop side (wf-agent/src/coordinator/iteration/
      compression.rs) and the consumer (conversation_compression.rs) with the
      guards of context_store.rs, as one protocol in which settlements,
      dispatches, results, failures and other writers interleave.
    - [CompressionService]: wf-runtime/src/trigger_listener/compression/
      pipeline.rs with write_back.rs: claims, the input of summary runs, the
      runs with their shared retries, write-back and the degraded window.

    Checkpoints (infra/checkpoint/checkpoint-base/src)
    - [CheckpointGraph]: checkpoint_graph.rs, the links between the rows of a
      store and the protected sets.
    - [CleanupPolicy]: clock.rs and cleanup_policy.rs, the four strategies and
      the protection of [evaluate_protected_with_result].
    - [DeltaChain]: delta/restorer.rs and delta/diff.rs.  The trait
      [DiffCalculator] is a class, [LawfulDiff] states what a restore needs of
      it; the restorer's theorems are proved against that interface.
    - [SnapshotFields]: the derived encodings of the fields of a workflow
      snapshot that a delta reads back (wf-types/src/checkpoint/workflow/
      snapshot.rs, execution/hierarchy.rs, workflow/error_branch.rs).
    - [DeltaWorkflow]: delta/calculator/workflow.rs; its instance
      [workflow_lawful] discharges the interface for workflow snapshots.
    - [DeltaAgent]: delta/calculator/agent.rs, with the instance [agent_lawful].

    The history of the workspace's files (infra/checkpoint/checkpoint-file/src)
    - [GitStore]: git_store.rs and git_store/: objects under their hashes, trees
      built from a parent and changes, commits, the walks of the graph, refs
      with their compare-and-swap, the merge of files.  [GitTrees] proves what
      a tree holds, [GitWalks] what the walks visit.
    - [FileManager]: file/git_write.rs, actor.rs, session.rs, redo_store.rs,
      git_merge.rs, merge.rs, approval/conflict.rs and branch/: the operations
      of the manager over the refs and its tables.
    - [GitFacts] holds the invariant of a store, the preorder [advances] that a
      step and the other writers keep, and what a commit on a ref does;
      [FileManagerFacts] a small program logic for the operations ([runs],
      [safe]).
    - [Approval]: approval.rs and file/approval/ (approve.rs, reject.rs, list.rs,
      merge.rs, policy.rs).  [ApprovalFacts]: what an approval of some files and a
      rejection change, and sequences of all operations ([perform]);
      [ConflictMarkers]: conflict markers read back.
    - [FileHistory]: the theorems on the whole, and runs on a concrete store.

    Retries (foundation/wf-common/src/retry)
    - [RetryBudget]: budget.rs.  [consume_retry] is a check and a commit under
      two acquisitions of the lock: a sequential run composes them, [par_step]
      interleaves the callers between them.
    - [RetryPolicy]: policy.rs, the retry loop over a stream of results.

    Executions (foundation/wf-core/src)
    - [CoreState]: state.rs.  Both state machines log their transitions through
      one function over the interface [Machine].
    - [Hierarchy]: hierarchy.rs with wf-types/src/execution/hierarchy.rs, the
      path encoding and the lineage manager.

    ** What the theorems show

    - Checkpoints: a restore returns the state that was saved
      ([restore_full_state_correct], [workflow_delta_roundtrip]); a chain is
      built exactly when it exists and each failure names its cause; retention
      deletes exactly what each strategy promises, never an ancestor of a
      surviving delta ([evaluate_protected_correct]), and so never breaks a
      restore ([cleanup_preserves_restore]).
    - Graphs: the validation gate, cycle detection, the topological sort and
      the reachability report are exact and terminate; scheduling makes
      progress; error routing equals a scan of the graph; a validated graph is
      accepted, has no cycle and its forks and joins find each other.
    - Loops: an execution keeps every active loop within its bounds, and a loop
      runs exactly once per item and cleans up after itself.
    - Retries: the budget holds for sequential callers, reserves what it
      allocates to a branch, and can be overshot by parallel callers, by a
      bound that is reached.
    - Executions: the logs are the histories, terminal states absorb, the
      lineage fields never disagree, and storing them loses nothing.
    - Expressions: evaluation ends on every input and agrees with the grammar
      ([evaluate_refines]); a checked condition without quotes and references
      is safe ([checked_condition_safe]); the gaps of the check are exhibited.
    - Coordination: outside loops every run ends, visits are bounded, a node
      runs once, what happens in an error branch stays there until it is merged.
    - Fork and join: every branch ends with one result and a settlement, a JOIN
      reads what the fork wrote (through the registry and through the recorded
      output), a wait loses no wake-up, merging is key by key, message history
      is never lost and the ledger counts it exactly.
    - Agents: a run ends within its iterations and twelve retries, however
      model and tools behave, unless a pause that nobody ends holds it at a
      boundary it comes to ([arrives]); it settles, with four exceptions that are named; the state keeps its invariant and loses
      nothing it recorded ([agent_state_consistent], [agent_progress_kept]).
    - Conversations: a session keeps its coordinates through its whole life,
      shows what is appended and branches at any number ([session_coordinates],
      [append_shows_message], [branch_keeps_coordinates]); the estimate that
      triggers compression follows what the view shows since it was last
      estimated as a whole ([incremental_estimate_exact]); plans partition what they cover within
      their limits; a result lands only on the history it was made for and a
      version is signalled once ([result_applies_to_signalled_history],
      [one_signal_per_version]); a batch of summaries ends and says truly why
      ([summary_chain_correct]); the calibration converges.
    - File history: a commit on a ref is a chain of attempts that loses nothing,
      whoever writes meanwhile ([commits], [commit_on_ref_loses_nothing]); building a tree applies the changes and
      reads back ([build_tree_correct]); ancestry and merge bases are decided
      ([ancestors_decided]); main only moves forward under all operations
      ([main_only_moves_forward]), a merge is the three-way merge of its sides
      ([clean_merge_is_three_way]), a revert and an undo are undone
      ([revert_restores_main], [undo_then_redo]).
    - Budgets: the wall clock of a run counts its active time across
      suspensions ([budget_carried_over]).
    - Files: containment of scope paths is the prefix order on names, a checked
      scope stays within its workspace and its parent; an edit or a patch
      changes the text it names and nothing else, and the patch format parses
      back what it prints.
    - Some theorems state where the code falls short of its comments; they say
      so in their text ([latest_delta_loses_base],
      [node_execution_records_lost], [workflow_apply_limits],
      [parallel_overshoot_reachable], [derive_child_reuses_ancestor],
      [linked_id_unchecked], [started_loop_passes_through],
      [oversized_max_iterations_accepted], [static_check_gaps],
      [visits_bounded], [settlement_final], [set_variable_path_correct],
      [extract_branch_subgraph_correct]), as do the examples
      [finished_branch_reported_cancelled], [panicked_branch_never_settles],
      [joined_fork_waits_for_deadline], [null_progress_lost],
      [timed_out_branch_category], [reordered_join_rejected],
      [lone_branch_has_no_join], those at the end of [AgentLoop]
      ([pause_in_last_iteration], [refused_scope_left_running] and the others), of [ExecutionBudgets]
      ([approval_wait_refuses_resume]), of [DeltaAgent] ([edited_message_lost]),
      of [FileScope] ([read_prefix_grants_write]), of [LineEdit], of
      [PatchFormat] ([end_of_file_chunk_panics]), of [TokenTracker], of
      [SessionFacts] ([second_compaction_finds_nothing],
      [short_history_keeps_blocks]), of
      [CompactionDriver] ([completion_before_record_blocks_next]), of
      [CompressionService] ([served_slices_lose_messages]) and of [FileHistory]
      ([resolved_conflict_recurs], [withheld_change_lost]).

    ** Conventions

    - An integer is a [Z] with its width written out where it matters; a Rust
      [HashMap] is a [gmap], and where the code's result could depend on the
      iteration order the order is an argument of the definition; errors are
      values of an inductive type that carries the data of the message.
    - Fuel: [Worklist.bfs], the depth-first search, Kahn's queue and the
      branch estimate are bounded by the size of the graph, and the theorems
      prove that the bound suffices; the chain walk of [DeltaChain] is bounded
      by the code's own limit of 10,000 links; [run_loop] needs one unit per
      iteration and its theorem holds for any larger amount.  An expression
      needs one more than its length, a condition the length of its interpolated
      text, the walks of [ForkGraph] one more than the number of edges; the
      retries of an iteration one more than the limit of the policy, the parser
      of a patch one per line; the slices of a plan one per message, a summary
      item its largest number of attempts; the theorems prove that this is enough.
    - The recursion into trees is bounded by the number of objects or by the
      longest path, a history walk by the parents there are; the run of a group by
      the number of objects, more than a line without a cycle has commits.  A
      commit is retried as often as the code does.
    - In [GitStore] an identifier is the hash of its object; the theorems ask
      that the hash is injective, and [hash_of] is one.  Other writers are a
      function of the store, applied between a read of a ref and its swap.
    - [None] stands for a panic in [LineEdit] and [Patch], for a run that waits
      for ever in [AgentLoop].
    - Clocks, timers, loaders, codecs and the expression resolver are
      arguments.  What is asked of them is a named hypothesis with an instance
      at which it holds.

    ** Not modelled

    The executor that wraps the coordinator in tasks, SYNC nodes, triggers and
    hooks are planned.  Of the agent engine the tool coordinator, the request
    assembly, the handoff documents, streaming, the registry and the checkpoint
    integration are left out; of the text tools the display diffs, the
    search/replace blocks and the file operations.  Of the modelled parts the configuration and
    protocol checks of static validation (one argument of [validate]), the
    condition cache, the waits of SYNC nodes, the wait for a compression to
    settle, the compression of workflow contexts and all events, metrics and degradation reports are
    left out.  Messages and token estimates are a submodule without sources here.
    Of the file checkpoints the list of pending approvals, baselines and the sync
    with an external repository, provenance, scans, writes and restores of the worktree,
    the poll for human edits and garbage collection are left out, with failures
    of the metadata tables; Gitoxide's encoder and text merge are arguments.
    Other storage backends, remote clients, sandboxing, configuration loading and the
    applications are input and output around the parts above and are left
    out. *)

From stdpp Require Export base tactics option list list_numbers strings gmap sets fin_sets fin_maps relations sorting.
From Stdlib Require Export ZArith Lia.

#[export] Set Default Goal Selector "!".

(** * Results: Rust's [Result<T, E>] *)

Inductive result (E A : Type) : Type :=
| Ok (a : A)
| Err (e : E).
Arguments Ok {E A} a.
Arguments Err {E A} e.

#[export] Instance result_eq_dec `{EqDecision E, EqDecision A} : EqDecision (result E A).
Proof. solve_decision. Defined.

#[export] Instance result_ret E : MRet (result E) := λ A a, Ok a.
#[export] Instance result_bind E : MBind (result E) := λ A B f r,
  match r with Ok a => f a | Err e => Err e end.
#[export] Instance result_fmap E : FMap (result E) := λ A B f r,
  match r with Ok a => Ok (f a) | Err e => Err e end.

(** [Option::ok_or_else] *)
Definition ok_or {E A} (e : E) (o : option A) : result E A :=
  match o with Some a => Ok a | None => Err e end.

(** [Result::is_ok] *)
Definition is_ok {E A} (r : result E A) : bool :=
  match r with Ok _ => true | Err _ => false end.

(** * State and errors

    An operation on a shared mutable state: one that fails keeps the changes it
    made before. *)

Definition SE (S E A : Type) : Type := S → S * result E A.

#[export] Instance M_ret {S E} : MRet (SE S E) := λ A a s, (s, Ok a).
#[export] Instance M_bind {S E} : MBind (SE S E) := λ A B f m s,
  match m s with
  | (s', Ok a) => f a s'
  | (s', Err e) => (s', Err e)
  end.
Definition get_state {S E} : SE S E S := λ s, (s, Ok s).
Definition put_state {S E} (s : S) : SE S E () := λ _, (s, Ok tt).
Definition throw {S E A} (e : E) : SE S E A := λ s, (s, Err e).
Definition lift {S E A} (r : result E A) : SE S E A := λ s, (s, r).
Definition modify {S E} (f : S → S) : SE S E () := λ s, (f s, Ok tt).

Lemma bind_Ok {S E A B} (m : SE S E A) (f : A → SE S E B) s s' a :
  m s = (s', Ok a) → (m ≫= f) s = f a s'.
Proof. intros H. unfold mbind, M_bind. by rewrite H. Qed.
Lemma bind_Err {S E A B} (m : SE S E A) (f : A → SE S E B) s s' e :
  m s = (s', Err e) → (m ≫= f) s = (s', Err e).
Proof. intros H. unfold mbind, M_bind. by rewrite H. Qed.

(** [hoare F P m Q]: from a state that satisfies [P], [m] ends in [Q], or fails
    in a state that satisfies [F]. *)
Definition hoare {S E A} (F P : S → Prop) (m : SE S E A) (Q : A → S → Prop) : Prop :=
  ∀ s, P s → match m s with (s', Ok a) => Q a s' | (s', Err _) => F s' end.

Section hoare.
  Context {S E : Type} {F : S → Prop}.

Lemma hoare_ret {A} (P : S → Prop) (a : A) (Q : A → S → Prop) :
  (∀ s, P s → Q a s) → hoare F P (mret (M := SE S E) a) Q.
Proof. intros HQ s Hs. by apply HQ. Qed.

Lemma hoare_bind {A B} P (m : SE S E A) R (f : A → SE S E B) Q :
  hoare F P m R → (∀ a, hoare F (R a) (f a) Q) → hoare F P (m ≫= f) Q.
Proof.
  intros Hm Hf s Hs. unfold mbind, M_bind. specialize (Hm s Hs).
  destruct (m s) as [s' [a|e]]; [|done]. by apply Hf.
Qed.

(** A pure consequence of the precondition is available to the proof. *)
Lemma hoare_pure {A} (P : S → Prop) (φ : Prop) (m : SE S E A) (Q : A → S → Prop) :
  (∀ s, P s → φ) → (φ → hoare F P m Q) → hoare F P m Q.
Proof. intros HP Hm s Hs. by apply (Hm (HP s Hs)). Qed.

Lemma hoare_weaken {A} (P P' : S → Prop) (m : SE S E A) (Q Q' : A → S → Prop) :
  hoare F P' m Q' → (∀ s, P s → P' s) → (∀ a s, Q' a s → Q a s) → hoare F P m Q.
Proof.
  intros Hm HP HQ s Hs. specialize (Hm s (HP s Hs)). destruct (m s) as [s' [a|e]]; auto.
Qed.

Lemma hoare_lift {A} (P : S → Prop) (r : result E A) (Q : A → S → Prop) :
  (∀ s, P s → F s) → (∀ a s, r = Ok a → P s → Q a s) → hoare F P (lift r) Q.
Proof. intros HP HQ s Hs. unfold lift. destruct r as [a|e]; auto. Qed.

Lemma hoare_throw {A} (P : S → Prop) (e : E) (Q : A → S → Prop) :
  (∀ s, P s → F s) → hoare F P (throw e) Q.
Proof. intros HP s Hs. by apply HP. Qed.

Lemma hoare_get (P : S → Prop) : hoare F P (get_state (E := E)) (λ _, P).
Proof. by intros s Hs. Qed.

Lemma hoare_modify (P : S → Prop) (f : S → S) (Q : S → Prop) :
  (∀ s, P s → Q (f s)) → hoare F P (modify (E := E) f) (λ _, Q).
Proof. intros HQ s Hs. by apply HQ. Qed.

Lemma hoare_state {A} (P : S → Prop) (m : SE S E A) (Q : A → S → Prop) :
  hoare F P m Q → (∀ a s, Q a s → F s) → ∀ s, P s → F (m s).1.
Proof.
  intros Hm HQ s Hs. specialize (Hm s Hs). destruct (m s) as [s' [a|e]]; [|done]. by eapply HQ.
Qed.
End hoare.

(** [stable P m]: [P] survives [m], whether it succeeds or fails. *)
Definition stable {S E A} (P : S → Prop) (m : SE S E A) : Prop := ∀ s, P s → P (m s).1.

Create HintDb stable.
Section stable.
  Context {S E : Type} {P : S → Prop}.

Lemma stable_ret {A} (a : A) : stable P (mret (M := SE S E) a).
Proof. by intros s. Qed.
Lemma stable_get : stable P (get_state (E := E)).
Proof. by intros s. Qed.
Lemma stable_throw {A} (e : E) : stable P (throw (A := A) e).
Proof. by intros s. Qed.
Lemma stable_lift {A} (r : result E A) : stable P (lift r).
Proof. by intros s. Qed.
Lemma stable_modify (f : S → S) : (∀ s, P s → P (f s)) → stable P (modify (E := E) f).
Proof. intros Hf s. apply Hf. Qed.
Lemma stable_bind {A B} (m : SE S E A) (f : A → SE S E B) :
  stable P m → (∀ a, stable P (f a)) → stable P (m ≫= f).
Proof.
  intros Hm Hf s Hs. unfold mbind, M_bind. specialize (Hm s Hs).
  destruct (m s) as [s' [a|e]]; [by apply Hf|done].
Qed.

(** What is read from the state still holds of it. *)
Lemma stable_get_bind {B} (f : S → SE S E B) :
  (∀ s, P s → P (f s s).1) → stable P (get_state ≫= f).
Proof. intros Hf s Hs. by apply Hf. Qed.
End stable.
Lemma hoare_stable {S E A} (F P : S → Prop) (m : SE S E A) :
  stable P m → (∀ s, P s → F s) → hoare F P m (λ _, P).
Proof. intros Hm HF s Hs. specialize (Hm s Hs). destruct (m s) as [s' [a|e]]; auto. Qed.
#[export] Hint Resolve stable_ret stable_get stable_throw stable_lift stable_modify stable_bind : stable.

(** Goes through the operation, one call at a time. *)
Ltac solve_stable := repeat first
  [ progress intros
  | match goal with
    | |- stable _ (mbind _ _) => apply stable_bind
    | |- stable _ (mret _) => apply stable_ret
    | |- stable _ get_state => apply stable_get
    | |- stable _ (throw _) => apply stable_throw
    | |- stable _ (lift _) => apply stable_lift
    | |- stable _ (modify _) => apply stable_modify
    | |- stable _ (let _ := _ in _) => cbv zeta
    end
  | case_match | case_decide | solve [eauto with stable] ].

(** * Machine integers

    An integer of the source is a [Z] in the range of its type.  The wrapping
    operations write the wrap-around out; the saturating ones clamp. *)

Declare Scope wf_scope.
Delimit Scope wf_scope with wf.

Definition u32_max : Z := 4294967295.
Definition u64_max : Z := 18446744073709551615.
Definition i64_max : Z := 9223372036854775807.
Definition i64_min : Z := -9223372036854775808.

Definition u32 (z : Z) : Prop := (0 <= z <= u32_max)%Z.
Definition u64 (z : Z) : Prop := (0 <= z <= u64_max)%Z.

Definition wrap32 (z : Z) : Z := (z mod 4294967296)%Z.
Definition wrap64 (z : Z) : Z := (z mod 18446744073709551616)%Z.

(** [as i64], and the wrap-around of [i64] arithmetic. *)
Definition wrap_i64 (z : Z) : Z := ((z + 9223372036854775808) mod 18446744073709551616 - 9223372036854775808)%Z.
Definition i64 (z : Z) : Prop := (i64_min <= z <= i64_max)%Z.

(** [saturating_sub] of the unsigned types. *)
Definition sat_sub (a b : Z) : Z := Z.max 0 (a - b).
(** [saturating_add] of a type with largest value [m]. *)
Definition sat_add (m a b : Z) : Z := Z.min m (a + b).

Notation "a -ˢ b" := (sat_sub a b) (at level 50, left associativity) : wf_scope.

(** [let mut v: Vec<String> = set.into_iter().collect(); v.sort()]: Rust
    compares strings bytewise, as [String.le] does. *)
Definition sorted_ids (s : gset string) : list string := merge_sort String.le (elements s).

(** [map.entry(key(a)).or_default().push(f(a))] *)
Definition push_group `{Countable K} {A B} (key : A → K) (f : A → B) (acc : gmap K (list B)) (a : A) :
    gmap K (list B) :=
  <[key a := default [] (acc !! key a) ++ [f a]]> acc.

(** A change through [last_mut]. *)
Definition on_last {A} (f : A → A) (l : list A) : list A := match last l with Some x => removelast l ++ [f x] | None => l end.

(** [sort_by_key], which is stable. *)
Fixpoint insert_by_key {A} (key : A → Z) (x : A) (l : list A) : list A :=
  match l with
  | [] => [x]
  | y :: l' => if decide (key x ≤ key y)%Z then x :: y :: l' else y :: insert_by_key key x l'
  end.
Definition sort_by_key {A} (key : A → Z) (l : list A) : list A := foldr (insert_by_key key) [] l.

(** * Tactics *)

(** Unfold the machine-integer vocabulary and call [lia]. *)
Ltac mlia := unfold u32, u64, i64, sat_sub, sat_add, u32_max, u64_max, i64_max, i64_min in *; lia.

(** Split the conjunctions and existentials of the context. *)
Ltac split_hyps :=
  repeat match goal with
  | H : _ ∧ _ |- _ => destruct H
  | H : ∃ _, _ |- _ => destruct H
  end.

(** Case analysis on every match of the goal, closing the easy branches. *)
Ltac crush_match := repeat (case_match; simplify_eq/=; try done).

(** The same on a hypothesis [H]. *)
Ltac crush_match_in H :=
  repeat (let E := fresh "E" in
          match type of H with
          | context [match ?x with _ => _ end] => destruct x eqn:E
          end; simplify_eq/=; try done).

(** * Shared lemmas *)

Create HintDb wf.

Lemma wrap32_small z : u32 z → wrap32 z = z.
Proof. unfold u32, wrap32, u32_max. intros. apply Z.mod_small. lia. Qed.

Lemma wrap64_small z : u64 z → wrap64 z = z.
Proof. unfold u64, wrap64, u64_max. intros. apply Z.mod_small. lia. Qed.

Lemma wrap_i64_small z : i64 z → wrap_i64 z = z.
Proof. unfold i64, wrap_i64, i64_min, i64_max. intros. rewrite Z.mod_small; lia. Qed.

Lemma wrap32_u32 z : u32 (wrap32 z).
Proof. unfold u32, wrap32, u32_max. pose proof (Z.mod_pos_bound z 4294967296). lia. Qed.

Lemma wrap64_u64 z : u64 (wrap64 z).
Proof.
  unfold u64, wrap64, u64_max. pose proof (Z.mod_pos_bound z 18446744073709551616). lia.
Qed.

Lemma sat_sub_u64 a b : u64 a → (0 <= b)%Z → u64 (sat_sub a b).
Proof. mlia. Qed.

#[export] Hint Resolve wrap32_u32 wrap64_u64 sat_sub_u64 : wf.

Lemma ok_or_Ok {E A} (e : E) (o : option A) a : ok_or e o = Ok a ↔ o = Some a.
Proof. destruct o; simpl; naive_solver. Qed.

Lemma result_bind_Ok {E A B} (r : result E A) (f : A → result E B) b :
  r ≫= f = Ok b ↔ ∃ a, r = Ok a ∧ f a = Ok b.
Proof. destruct r; simpl; naive_solver. Qed.

(** Searching a mapped, filtered list is searching the list itself. *)
Lemma list_find_fmap_filter {A B} (f : A → B) (P : B → Prop) (Q : A → Prop) (R : A → Prop)
    `{!∀ b, Decision (P b), !∀ a, Decision (Q a), !∀ a, Decision (R a)} (l : list A) :
  (∀ a, R a ↔ Q a ∧ P (f a)) →
  snd <$> list_find P (f <$> filter Q l) = f <$> (snd <$> list_find R l).
Proof.
  intros HR. induction l as [|a l IH]; [done|].
  rewrite filter_cons. destruct (decide (Q a)) as [HQ|HQ]; csimpl.
  - rewrite (decide_ext (P (f a)) (R a)) by naive_solver.
    destruct (decide (R a)); [done|].
    rewrite <-!option_fmap_compose in *. simpl in *.
    by destruct (list_find P _), (list_find R l).
  - rewrite decide_False by naive_solver. rewrite IH.
    by destruct (list_find R l).
Qed.

(** Cardinality bounds used to choose fuel. *)
Lemma size_list_to_set_le `{Countable A} (l : list A) :
  size (list_to_set l : gset A) ≤ length l.
Proof.
  induction l as [|x l IH]; [done|]. cbn [length].
  rewrite list_to_set_cons, size_union_alt, size_singleton.
  assert (size (list_to_set l ∖ {[x]} : gset A) ≤ size (list_to_set l : gset A)); [|lia].
  apply subseteq_size. set_solver.
Qed.

Lemma size_union_le `{Countable A} (X Y : gset A) : size (X ∪ Y) ≤ size X + size Y.
Proof.
  rewrite size_union_alt. assert (size (Y ∖ X) ≤ size Y); [|lia].
  apply subseteq_size. set_solver.
Qed.

Lemma map_size_1_inv `{Countable K} {A} (m : gmap K A) : size m = 1 → ∃ k v, m = {[ k := v ]}.
Proof.
  rewrite <-length_map_to_list. destruct (map_to_list m) as [|[k v] [|]] eqn:Hl; [done| |done].
  intros _. exists k, v. rewrite <-(list_to_map_to_list m), Hl. done.
Qed.

(** The early-return loop [for x in l { f(x)? }]. *)
Fixpoint for_each {E A} (f : A → result E ()) (l : list A) : result E () :=
  match l with
  | [] => Ok tt
  | x :: l' => f x ≫= λ _, for_each f l'
  end.

Lemma for_each_Ok {E A} (f : A → result E ()) l :
  for_each f l = Ok tt ↔ ∀ x, x ∈ l → f x = Ok tt.
Proof.
  induction l as [|x l IH]; simpl; [set_solver|].
  rewrite result_bind_Ok. setoid_rewrite IH. setoid_rewrite elem_of_cons. split.
  - intros ([] & ? & ?) y [->|]; auto.
  - intros Hall. exists tt. auto.
Qed.

Lemma for_each_Err {E A} (f : A → result E ()) l e :
  for_each f l = Err e → ∃ x, x ∈ l ∧ f x = Err e.
Proof.
  induction l as [|x l IH]; simpl; [done|].
  destruct (f x) as [[]|e'] eqn:Hf; simpl.
  - intros (y & ? & ?)%IH. exists y. by split; [right|].
  - intros [= ->]. exists x. by split; [left|].
Qed.

(** A finite non-empty set in which everything has a predecessor has a cycle. *)
Lemma no_source_cycle `{Countable A} (R : relation A) (X : gset A) :
  X ≠ ∅ → (∀ x, x ∈ X → ∃ y, y ∈ X ∧ R y x) → ∃ x, x ∈ X ∧ tc R x x.
Proof.
  intros (x & Hx)%set_choose_L Hpred.
  assert (Hgen : ∀ k (seen : gset A) x, size (X ∖ seen) ≤ k → x ∈ X →
    (∀ y, y ∈ seen → y ∈ X ∧ rtc R x y) → ∃ x, x ∈ X ∧ tc R x x).
  { clear x Hx. induction k as [|k IH]; intros seen x Hsz Hx Hseen;
      destruct (Hpred x Hx) as (y & Hy & Hyx);
      (destruct (decide (y ∈ seen)) as [Hys|Hys];
       [exists y; split; [done|]; destruct (Hseen y Hys) as [_ Hr];
        apply tc_rtc_l with y; [done|]; by eapply tc_rtc_r; [apply tc_once|]|]).
    - apply Nat.le_0_r, size_empty_inv in Hsz. set_solver.
    - apply (IH ({[y]} ∪ seen) y); [|done|].
      + assert (size (X ∖ ({[y]} ∪ seen)) < size (X ∖ seen)); [|lia].
        apply subset_size. set_solver.
      + intros z [->%elem_of_singleton|Hz]%elem_of_union; [done|].
        destruct (Hseen z Hz). split; [done|]. by eapply rtc_l. }
  by apply (Hgen (size (X ∖ ∅)) ∅ x).
Qed.

Lemma sorted_ids_perm s : sorted_ids s ≡ₚ elements s.
Proof. apply merge_sort_Permutation. Qed.

Lemma elem_of_sorted_ids s x : x ∈ sorted_ids s ↔ x ∈ s.
Proof. by rewrite sorted_ids_perm, elem_of_elements. Qed.

Lemma sorted_ids_NoDup s : NoDup (sorted_ids s).
Proof. rewrite sorted_ids_perm. apply NoDup_elements. Qed.

Lemma sorted_ids_Sorted s : Sorted String.le (sorted_ids s).
Proof. apply Sorted_merge_sort. apply _. Qed.

#[export] Hint Resolve sorted_ids_NoDup sorted_ids_Sorted : wf.

(** Grouping a list by key: the group of [k] is the elements with key [k], in
    order, and a key without elements has no group. *)
Lemma lookup_push_group `{Countable K} {A B} (key : A → K) (f : A → B) l (m : gmap K (list B)) k :
  foldl (push_group key f) m l !! k =
  match filter (λ a, key a = k) l with
  | [] => m !! k
  | l' => Some (default [] (m !! k) ++ (f <$> l'))
  end.
Proof.
  revert m. induction l as [|a l IH]; intros m; [done|]. cbn [foldl]. rewrite IH, filter_cons.
  unfold push_group. destruct (decide (key a = k)) as [<-|Hk].
  - rewrite lookup_insert_eq. destruct (filter _ l); simpl; [done|]. by rewrite <-app_assoc.
  - by rewrite lookup_insert_ne.
Qed.

Lemma default_push_group `{Countable K} {A B} (key : A → K) (f : A → B) l k :
  default [] (foldl (push_group key f) (∅ : gmap K (list B)) l !! k) = f <$> filter (λ a, key a = k) l.
Proof. rewrite lookup_push_group, lookup_empty. by destruct (filter _ l). Qed.

(** Counting by filters. *)
Lemma length_filter_split {A} (P Q : A → Prop) `{!∀ a, Decision (P a), !∀ a, Decision (Q a)}
    (l : list A) :
  length (filter P l) =
  length (filter (λ a, P a ∧ Q a) l) + length (filter (λ a, P a ∧ ¬ Q a) l).
Proof.
  induction l as [|a l IH]; [done|]. rewrite !filter_cons.
  destruct (decide (P a)), (decide (Q a)); repeat (case_decide; try tauto); simpl; lia.
Qed.

Lemma length_filter_0 {A} (P : A → Prop) `{!∀ a, Decision (P a)} (l : list A) :
  length (filter P l) = 0 ↔ ∀ a, a ∈ l → ¬ P a.
Proof.
  rewrite length_zero_iff_nil. split.
  - intros Hf a Ha HP. apply (not_elem_of_nil a). rewrite <-Hf. by apply list_elem_of_filter.
  - intros Hall. apply elem_of_nil_inv. intros a [HP Ha]%list_elem_of_filter. by apply (Hall a).
Qed.

Lemma length_filter_ext {A} (P Q : A → Prop) `{!∀ a, Decision (P a), !∀ a, Decision (Q a)}
    (l : list A) :
  (∀ a, a ∈ l → P a ↔ Q a) → length (filter P l) = length (filter Q l).
Proof.
  induction l as [|a l IH]; intros HPQ; [done|]. rewrite !filter_cons.
  assert (P a ↔ Q a) by (apply HPQ; left).
  specialize (IH ltac:(intros; apply HPQ; by right)).
  repeat case_decide; simpl; first [tauto|lia].
Qed.

Lemma length_filter_fmap {A B} (f : A → B) (P : B → Prop) `{!∀ b, Decision (P b)} (l : list A) :
  length (filter P (f <$> l)) = length (filter (λ a, P (f a)) l).
Proof.
  induction l as [|a l IH]; [done|]. rewrite fmap_cons, !filter_cons.
  case_decide; simpl; lia.
Qed.

Lemma NoDup_fmap_filter {A B} (f : A → B) (P : A → Prop) `{!∀ a, Decision (P a)} (l : list A) :
  NoDup (f <$> l) → NoDup (f <$> filter P l).
Proof.
  induction l as [|a l IH]; [done|]. rewrite fmap_cons, NoDup_cons, filter_cons.
  intros [Ha Hl]. case_decide; [|by apply IH]. rewrite fmap_cons, NoDup_cons.
  split; [|by apply IH]. intros (b & Hab & [_ Hb]%list_elem_of_filter)%list_elem_of_fmap.
  apply Ha. rewrite Hab. by apply list_elem_of_fmap_2.
Qed.

Lemma exists_elem_of_snoc {A} (P : A → Prop) (l : list A) (a : A) :
  (∃ x, x ∈ l ++ [a] ∧ P x) ↔ (∃ x, x ∈ l ∧ P x) ∨ P a.
Proof.
  setoid_rewrite elem_of_app. setoid_rewrite list_elem_of_singleton. split.
  - intros (x & [?| ->] & ?); eauto.
  - intros [(x & ? & ?)|?]; eauto.
Qed.

(** Folding a union over a list. *)
Lemma elem_of_foldl_union `{Countable K} {A} (f : A → gset K) l acc x :
  x ∈ foldl (λ acc a, acc ∪ f a) acc l ↔ x ∈ acc ∨ ∃ a, a ∈ l ∧ x ∈ f a.
Proof.
  revert acc. induction l as [|a l IH]; intros acc; cbn [foldl].
  - setoid_rewrite elem_of_nil. naive_solver.
  - rewrite IH, elem_of_union. setoid_rewrite elem_of_cons. naive_solver.
Qed.

Lemma length_filter_complement {A} (P : A → Prop) `{!∀ a, Decision (P a)} (l : list A) :
  length (filter P l) + length (filter (λ a, ¬ P a) l) = length l.
Proof.
  induction l as [|a l IH]; [done|]. rewrite !filter_cons. cbn [length].
  repeat case_decide; simpl; first [tauto|lia].
Qed.

Lemma foldl_reverse {A B} (f : A → B → A) (a : A) (l : list B) :
  foldl f a (reverse l) = foldr (λ b acc, f acc b) a l.
Proof. induction l as [|b l IH]; [done|]. by rewrite reverse_cons, foldl_snoc, IH. Qed.

(** Sorting an ascending list in descending order reverses it. *)
Lemma sort_descending (l : list nat) : StronglySorted lt l → merge_sort (flip le) l = reverse l.
Proof.
  assert (Htr : Transitive (flip le)) by (intros x y z; simpl; lia).
  assert (Hto : Total (flip le)) by (intros x y; simpl; lia).
  intros Hl. apply (StronglySorted_unique_strong (flip le)).
  - simpl. lia.
  - by apply (StronglySorted_merge_sort (flip le)).
  - induction Hl as [|x l _ IH Hx]; [constructor|]. rewrite reverse_cons.
    apply StronglySorted_app. split_and!; [|done|repeat constructor].
    intros y z Hy ->%list_elem_of_singleton. rewrite elem_of_reverse in Hy.
    rewrite Forall_forall in Hx. specialize (Hx y Hy). simpl. lia.
  - by rewrite merge_sort_Permutation, reverse_Permutation.
Qed.

Lemma list_filter_all {A} (P : A → Prop) `{!∀ a, Decision (P a)} (l : list A) :
  (∀ a, a ∈ l → P a) → filter P l = l.
Proof.
  induction l as [|a l IH]; intros Hl; [done|]. rewrite filter_cons_True by (apply Hl; left).
  f_equal. apply IH. intros. apply Hl. by right.
Qed.

Lemma list_filter_none {A} (P : A → Prop) `{!∀ a, Decision (P a)} (l : list A) :
  (∀ a, a ∈ l → ¬ P a) → filter P l = [].
Proof. intros Hl. apply length_zero_iff_nil. by apply length_filter_0. Qed.

(** * Lists updated at their end, and sorted by a key *)

Lemma on_last_cases {A} (f : A → A) l : (l = [] ∧ on_last f l = []) ∨ ∃ k x, l = k ++ [x] ∧ on_last f l = k ++ [f x].
Proof.
  unfold on_last. destruct l as [|x l _] using rev_ind; [by left|]. right. exists l, x. rewrite last_snoc. by rewrite removelast_last.
Qed.

Lemma insert_by_key_Permutation {A} (key : A → Z) x l : insert_by_key key x l ≡ₚ x :: l.
Proof. induction l as [|y l IH]; [done|]. cbn [insert_by_key]. case_decide; [done|]. rewrite IH. apply Permutation_swap. Qed.
Lemma sort_by_key_Permutation {A} (key : A → Z) l : sort_by_key key l ≡ₚ l.
Proof. induction l as [|x l IH]; [done|]. cbn [sort_by_key foldr]. rewrite insert_by_key_Permutation. by f_equiv. Qed.
Lemma sort_by_key_sorted {A} (key : A → Z) l : Sorted (λ x y, key x ≤ key y)%Z l → sort_by_key key l = l.
Proof.
  induction 1 as [|x l _ IH Hx]; [done|]. cbn [sort_by_key foldr]. change (foldr (insert_by_key key) [] l) with (sort_by_key key l).
  rewrite IH. destruct Hx as [|y l Hxy]; [done|]. cbn [insert_by_key]. by rewrite decide_True.
Qed.
