(* ===== verification/Strings.v ===== *)
(** The string operations of the standard library the sources use.

    A string is its sequence of UTF-8 bytes; the delimiters the sources split
    at are ASCII, so splitting bytes is splitting characters. *)

From S2P Require Import Prelude.
From Stdlib Require Export Ascii.

(** The double quote. *)
Definition double_quote : ascii := ascii_of_nat 34.

(** [str::contains] with a character. *)
Fixpoint contains (c : ascii) (s : string) : bool :=
  match s with EmptyString => false | String a s' => bool_decide (a = c) || contains c s' end.

(** [str::split] with a character. *)
Fixpoint split (c : ascii) (s : string) : list string :=
  match s with
  | EmptyString => [""]
  | String a s' =>
      match split c s' with
      | [] => []
      | w :: ws => if decide (a = c) then "" :: w :: ws else String a w :: ws
      end
  end.

(** [str::starts_with], [str::strip_prefix] *)
Fixpoint strip_prefix (p s : string) : option string :=
  match p, s with
  | EmptyString, _ => Some s
  | String a p', String b s' => if decide (a = b) then strip_prefix p' s' else None
  | String _ _, EmptyString => None
  end.
Definition starts_with (p s : string) : bool := bool_decide (is_Some (strip_prefix p s)).

(** [str::chars]: every byte but a continuation byte (0x80 to 0xBF) starts a
    character. *)
Definition is_continuation (a : ascii) : bool :=
  let n := nat_of_ascii a in bool_decide (128 ≤ n ∧ n < 192).
Fixpoint chars (s : string) : list string :=
  match s with
  | EmptyString => []
  | String a s' =>
      match chars s', s' with
      | w :: ws, String b _ => if is_continuation b then String a w :: ws else String a "" :: w :: ws
      | ws, _ => String a "" :: ws
      end
  end.

(** [str::ends_with] *)
Definition ends_with (p s : string) : bool :=
  let n := String.length s - String.length p in
  bool_decide (String.length p ≤ String.length s ∧ String.substring n (String.length p) s = p).

(** [str::split_once] with a character. *)
Fixpoint split_once (c : ascii) (s : string) : option (string * string) :=
  match s with
  | EmptyString => None
  | String a s' =>
      if decide (a = c) then Some ("", s') else (λ p, (String a p.1, p.2)) <$> split_once c s'
  end.

(** [char::is_whitespace], on the UTF-8 bytes of a character. *)
Definition is_whitespace (c : string) : bool :=
  match nat_of_ascii <$> String.list_ascii_of_string c with
  | [n] => bool_decide (9 ≤ n ∧ n ≤ 13 ∨ n = 32)
  | [194; n] => bool_decide (n = 133 ∨ n = 160)
  | [225; n; m] => bool_decide (n = 154 ∧ m = 128)
  | [226; 128; n] => bool_decide (128 ≤ n ∧ n ≤ 138 ∨ n = 168 ∨ n = 169 ∨ n = 175)
  | [226; 129; n] => bool_decide (n = 159)
  | [227; n; m] => bool_decide (n = 128 ∧ m = 128)
  | _ => false
  end.
Fixpoint drop_while {A} (f : A → bool) (l : list A) : list A :=
  match l with [] => [] | x :: l' => if f x then drop_while f l' else l end.
(** [str::trim] *)
Definition trim (s : string) : string :=
  String.concat "" (reverse (drop_while is_whitespace (reverse (drop_while is_whitespace (chars s))))).

(** Slices [&s[n..]] and [&s[i..j]]. *)
Fixpoint drop_str (n : nat) (s : string) : string :=
  match n, s with S n', String _ s' => drop_str n' s' | _, _ => s end.
Fixpoint take_str (n : nat) (s : string) : string :=
  match n, s with S n', String c s' => String c (take_str n' s') | _, _ => "" end.
Definition slice (i j : nat) (s : string) : string := take_str (j - i) (drop_str i s).

(** [str::find] with a string, and [str::contains]. *)
Fixpoint find_str (p s : string) : option nat :=
  if starts_with p s then Some 0
  else match s with EmptyString => None | String _ s' => S <$> find_str p s' end.
Definition contains_str (p s : string) : bool := bool_decide (is_Some (find_str p s)).

(** [str::replace]: the occurrences of [p], from the left and apart from each
    other; [skip] characters of the last one are still to be passed over. *)
Fixpoint replace_from (skip : nat) (p r s : string) : string :=
  match s with
  | EmptyString => ""
  | String c s' =>
      match skip with
      | S skip' => replace_from skip' p r s'
      | 0 => if starts_with p s then r +:+ replace_from (String.length p - 1) p r s'
             else String c (replace_from 0 p r s')
      end
  end.
Definition replace_str (p r s : string) : string := replace_from 0 p r s.
(** [str::rfind] with a character. *)
Fixpoint rfind (c : ascii) (s : string) : option nat :=
  match s with
  | EmptyString => None
  | String a s' =>
      match rfind c s' with Some n => Some (S n) | None => if decide (a = c) then Some 0 else None end
  end.
(** [str::strip_suffix] with a character. *)
Definition strip_last (c : ascii) (s : string) : option string :=
  let n := String.length s - 1 in
  if ends_with (String c "") s then Some (take_str n s) else None.

(** * Lemmas *)

Lemma append_cons c (s t : string) : String c s +:+ t = String c (s +:+ t).
Proof. done. Qed.
Lemma length_append (s t : string) : String.length (s +:+ t) = String.length s + String.length t.
Proof. induction s as [|c s IH]; [done|]. rewrite append_cons. simpl. by f_equal. Qed.
Lemma append_nil_r (s : string) : s +:+ "" = s.
Proof. induction s as [|a s IH]; [done|]. change (String a (s +:+ "") = String a s). by rewrite IH. Qed.
Lemma take_drop_str n s : take_str n s +:+ drop_str n s = s.
Proof.
  revert s. induction n as [|n IH]; intros [|c s]; cbn [take_str drop_str]; try done.
  by rewrite append_cons, IH.
Qed.
Lemma length_drop_str n s : String.length (drop_str n s) = String.length s - n.
Proof. revert s. induction n as [|n IH]; intros [|c s]; cbn; done. Qed.
Lemma length_take_str n s : String.length (take_str n s) = n `min` String.length s.
Proof. revert s. induction n as [|n IH]; intros [|c s]; cbn; try done. by rewrite IH. Qed.
Lemma drop_drop_str n m s : drop_str n (drop_str m s) = drop_str (m + n) s.
Proof. revert s. induction m as [|m IH]; intros [|c s]; cbn; [done..|by destruct n|apply IH]. Qed.
Lemma take_str_app s t : take_str (String.length s) (s +:+ t) = s.
Proof. induction s as [|c s IH]; [by destruct t|]. rewrite append_cons. cbn. by rewrite IH. Qed.
Lemma drop_str_app s t : drop_str (String.length s) (s +:+ t) = t.
Proof. induction s as [|c s IH]; [by destruct t|]. rewrite append_cons. apply IH. Qed.

Lemma strip_prefix_Some p s t : strip_prefix p s = Some t ↔ s = p +:+ t.
Proof.
  revert s. induction p as [|a p IH]; intros s; cbn [strip_prefix].
  { change ("" +:+ t) with t. naive_solver. }
  destruct s as [|b s]; [done|]. rewrite append_cons. case_decide as Hab.
  - subst b. rewrite IH. naive_solver.
  - naive_solver.
Qed.
Lemma starts_with_true p s : starts_with p s = true ↔ ∃ t, s = p +:+ t.
Proof.
  unfold starts_with. rewrite bool_decide_eq_true. split.
  - intros [t Ht%strip_prefix_Some]. eauto.
  - intros [t ->]. exists t. by apply strip_prefix_Some.
Qed.

Lemma drop_str_0 s : drop_str 0 s = s.
Proof. by destruct s. Qed.
Lemma substring_take_drop n m s : String.substring n m s = take_str m (drop_str n s).
Proof.
  revert n m. induction s as [|c s IH]; intros [|n] [|m]; cbn; rewrite ?IH; try done;
    by rewrite ?drop_str_0.
Qed.
Lemma ends_with_true p s : ends_with p s = true ↔ ∃ t, s = t +:+ p.
Proof.
  unfold ends_with. rewrite bool_decide_eq_true, substring_take_drop. split.
  - intros [Hl Hs]. exists (take_str (String.length s - String.length p) s). rewrite <-Hs at 2.
    assert (take_str (String.length p) (drop_str (String.length s - String.length p) s)
      = drop_str (String.length s - String.length p) s) as ->; [|by rewrite take_drop_str].
    assert (∀ n u, String.length u ≤ n → take_str n u = u) as H.
    { induction n as [|n IH]; intros [|c u] Hu; cbn in *; try done; try lia. rewrite IH; [done|lia]. }
    apply H. rewrite length_drop_str. lia.
  - intros [t ->]. rewrite length_append. replace (String.length t + String.length p - String.length p) with (String.length t) by lia.
    rewrite drop_str_app. split; [lia|]. rewrite <-(append_nil_r p) at 2. apply take_str_app.
Qed.

(** [find_str] gives the first occurrence. *)
Lemma find_str_Some p s n :
  find_str p s = Some n → ∃ t u, s = t +:+ p +:+ u ∧ String.length t = n.
Proof.
  revert n. induction s as [|c s IH]; intros n; cbn [find_str].
  - destruct (starts_with p "") eqn:Hp; [|done]. intros [= <-].
    apply starts_with_true in Hp as [u Hu]. by exists "", u.
  - destruct (starts_with p (String c s)) eqn:Hp.
    + intros [= <-]. apply starts_with_true in Hp as [u Hu]. by exists "", u.
    + intros (m & Hm & ->)%fmap_Some. destruct (IH m Hm) as (t & u & -> & <-).
      by exists (String c t), u.
Qed.
Lemma find_str_first p s n i : find_str p s = Some n → i < n → starts_with p (drop_str i s) = false.
Proof.
  revert n i. induction s as [|c s IH]; intros n i; cbn [find_str].
  - destruct (starts_with p ""); [|done]. intros [= <-]. lia.
  - destruct (starts_with p (String c s)) eqn:Hp; [intros [= <-]; lia|].
    intros (m & Hm & ->)%fmap_Some Hi. destruct i as [|i]; [done|]. cbn [drop_str]. apply (IH m); [done|lia].
Qed.
Lemma find_str_None p s i : find_str p s = None → starts_with p (drop_str i s) = false.
Proof.
  revert i. induction s as [|c s IH]; intros i; cbn [find_str].
  - destruct (starts_with p "") eqn:Hp; [done|]. by destruct i.
  - destruct (starts_with p (String c s)) eqn:Hp; [done|].
    intros Hs%fmap_None. destruct i as [|i]; [done|]. by apply IH.
Qed.

Lemma append_assoc (a b c : string) : (a +:+ b) +:+ c = a +:+ (b +:+ c).
Proof.
  induction a as [|x a IH]; [done|].
  change (String x ((a +:+ b) +:+ c) = String x (a +:+ (b +:+ c))). by rewrite IH.
Qed.

Lemma split_cons c s : ∃ w ws, split c s = w :: ws.
Proof.
  induction s as [|a s (w & ws & IH)]; cbn [split]; [eauto|]. rewrite IH. case_decide; eauto.
Qed.

Lemma split_delim c s : split c (String c s) = "" :: split c s.
Proof.
  destruct (split_cons c s) as (w & ws & Hs). cbn [split]. rewrite Hs. by rewrite decide_True.
Qed.

Lemma split_app c w s : contains c w = false → split c (w +:+ String c s) = w :: split c s.
Proof.
  induction w as [|a w IH]; intros Hw; [apply split_delim|]. cbn [contains] in Hw.
  apply orb_false_iff in Hw as [Ha Hw]. apply bool_decide_eq_false in Ha.
  change (String a w +:+ String c s) with (String a (w +:+ String c s)). cbn [split].
  rewrite IH by done. by rewrite decide_False.
Qed.

Lemma split_no_delim c s : Forall (λ w, contains c w = false) (split c s).
Proof.
  induction s as [|a s IH]; cbn [split]; [by repeat constructor|].
  destruct (split_cons c s) as (w & ws & Hs). rewrite Hs in IH |- *. apply Forall_cons in IH as [Hw Hws].
  case_decide as Ha; repeat constructor; try done. cbn [contains]. by rewrite bool_decide_eq_false_2.
Qed.
Lemma split_append c s t : split c (s +:+ String c t) = split c s ++ split c t.
Proof.
  induction s as [|a s IH]; [apply split_delim|]. change (String a s +:+ String c t) with (String a (s +:+ String c t)).
  cbn [split]. rewrite IH. destruct (split_cons c s) as (w & ws & ->). simpl. by case_decide.
Qed.
Lemma split_single c w : contains c w = false → split c w = [w].
Proof.
  induction w as [|a w IH]; [done|]. cbn [contains split]. intros [Ha%bool_decide_eq_false Hw]%orb_false_iff.
  rewrite IH by done. by rewrite decide_False.
Qed.

(** Joining with a separator, and splitting what was joined. *)
Lemma concat_cons c x y l : String.concat (String c "") (x :: y :: l) = x +:+ String c (String.concat (String c "") (y :: l)).
Proof. done. Qed.
Lemma concat_app c ns ms :
  ns ≠ [] → ms ≠ [] →
  String.concat (String c "") (ns ++ ms) = String.concat (String c "") ns +:+ String c (String.concat (String c "") ms).
Proof.
  induction ns as [|x ns IH]; [done|]. intros _ Hms. destruct ns as [|y ns]; [destruct ms; [done|]; by rewrite <-concat_cons|].
  change ((x :: y :: ns) ++ ms) with (x :: y :: (ns ++ ms)). rewrite !concat_cons.
  change (y :: (ns ++ ms)) with ((y :: ns) ++ ms). rewrite IH by done. by rewrite append_assoc.
Qed.
Lemma split_concat_lines c ns :
  ns ≠ [] → Forall (λ w, contains c w = false) ns → split c (String.concat (String c "") ns) = ns.
Proof.
  induction ns as [|x ns IH]; [done|]. intros _ [Hx Hns]%Forall_cons. destruct ns as [|y ns]; [by apply split_single|].
  rewrite concat_cons, split_app by done. f_equal. by apply IH.
Qed.
Lemma concat_split c s : String.concat (String c "") (split c s) = s.
Proof.
  induction s as [|a s IH]; [done|]. cbn [split]. destruct (split_cons c s) as (w & ws & Hs). rewrite Hs in IH |- *.
  case_decide as Ha.
  - subst a. rewrite concat_cons, IH. done.
  - rewrite <-IH. by destruct ws.
Qed.
Lemma joined_cons w ws : String.concat "" (w :: ws) = w +:+ String.concat "" ws.
Proof. destruct ws; [by rewrite append_nil_r|done]. Qed.
Lemma joined_app ws ws' : String.concat "" (ws ++ ws') = String.concat "" ws +:+ String.concat "" ws'.
Proof.
  induction ws as [|w ws IH]; [done|]. rewrite <-app_comm_cons, !joined_cons, IH. by rewrite append_assoc.
Qed.
Lemma split_not_nil c s : split c s ≠ [].
Proof. destruct (split_cons c s) as (w & ws & ->). done. Qed.

(** * Characters and blanks *)

Lemma concat_chars s : String.concat "" (chars s) = s.
Proof.
  induction s as [|c s IH]; [done|]. cbn [chars]. destruct (chars s) as [|w ws] eqn:Hc.
  - cbn in IH. by subst s.
  - destruct s as [|b s]; [done|]. destruct (is_continuation b).
    + rewrite joined_cons in IH |- *. by rewrite append_cons, IH.
    + by rewrite joined_cons, IH.
Qed.
Lemma chars_head c s : ∃ w ws, chars (String c s) = String c w :: ws.
Proof.
  cbn [chars]. destruct (chars s) as [|w ws]; [eauto|]. destruct s as [|b s]; [eauto|].
  destruct (is_continuation b); eauto.
Qed.
Lemma chars_snoc s c : is_continuation c = false → chars (s +:+ String c "") = chars s ++ [String c ""].
Proof.
  intros Hc. induction s as [|a s IH]; [done|]. rewrite append_cons. cbn [chars]. rewrite IH.
  destruct s as [|b s]; [change ("" +:+ String c "") with (String c ""); cbn [chars app]; by rewrite Hc|].
  destruct (chars_head b s) as (w & ws & ->). rewrite append_cons. cbn [app]. by destruct (is_continuation b).
Qed.
(** A text that begins and ends with other characters has nothing to trim. *)
Lemma trim_ends a m z :
  (∀ w, is_whitespace (String a w) = false) → is_continuation z = false → is_whitespace (String z "") = false →
  trim (String a (m +:+ String z "")) = String a (m +:+ String z "").
Proof.
  intros Ha Hz Hz'. unfold trim. set (s := String a (m +:+ String z "")).
  assert (drop_while is_whitespace (chars s) = chars s) as ->.
  { subst s. destruct (chars_head a (m +:+ String z "")) as (w & ws & ->). cbn [drop_while]. by rewrite Ha. }
  assert (chars s = chars (String a m) ++ [String z ""]) as Hs by (subst s; rewrite <-append_cons; by apply chars_snoc).
  assert (drop_while is_whitespace (reverse (chars s)) = reverse (chars s)) as ->.
  { rewrite Hs, reverse_app. change (reverse [String z ""]) with [String z ""]. cbn [app drop_while]. by rewrite Hz'. }
  by rewrite reverse_involutive, concat_chars.
Qed.
(** A text with a character that stays is not blank. *)
Lemma drop_while_snoc {A} (f : A → bool) l x : f x = false → drop_while f (l ++ [x]) = drop_while f l ++ [x].
Proof. intros Hx. induction l as [|y l IH]; cbn [drop_while app]; [by rewrite Hx|]. by destruct (f y). Qed.
Lemma trim_not_blank a s : (∀ w, is_whitespace (String a w) = false) → trim (String a s) ≠ "".
Proof.
  intros Ha. unfold trim. destruct (chars_head a s) as (w & ws & ->). cbn [drop_while]. rewrite Ha, reverse_cons.
  rewrite drop_while_snoc by done. rewrite reverse_snoc. by destruct (reverse _).
Qed.
