(* ===== verification/FileScope.v ===== *)
(** Execution file scopes: wf-types/src/config/file_scope.rs.

    Paths are compared lexically.  [lexical] reads a path as its kind (absolute
    or relative) and the names that remain when dots are resolved; the string
    code is proved equal to the prefix order on these. *)

From S2P Require Import Prelude Strings.

Definition MAX_SCOPE_PATH_LEN : nat := 1024.
Definition slash : ascii := "/".
Definition nul : ascii := "000".

(** [ExecutionFileScope] and [ResolvedFileScope] *)
Record ExecutionFileScope : Type := {
  enabled : option bool;
  read_prefixes : option (list string);
  write_prefixes : option (list string);
  checkpoint_prefixes : option (list string);
  workdir : option string;
}.
Record ResolvedFileScope : Type := {
  r_enabled : bool;
  r_read_prefixes : list string;
  r_write_prefixes : list string;
  r_checkpoint_prefixes : list string;
  r_workdir : option string;
}.
Definition default_scope : ExecutionFileScope :=
  {| enabled := None; read_prefixes := None; write_prefixes := None; checkpoint_prefixes := None; workdir := None |}.

(** * Paths *)

(** [normalize_scope_path] *)
Definition push_component (parts : list string) (component : string) : list string :=
  if decide (component = "" ∨ component = ".") then parts
  else if decide (component = "..") then removelast parts
  else parts ++ [component].
Definition scope_parts (path : string) : list string := foldl push_component [] (split slash path).
Definition is_absolute (path : string) : bool := starts_with "/" path.
Definition normalize_scope_path (path : string) : string :=
  let absolute := is_absolute path in
  let out := String.concat "/" (scope_parts path) in
  let out := if absolute then "/" +:+ out else out in
  if decide (out = "") then (if absolute then "/" else ".") else out.

(** [is_relative_contained]; the depth is at most the length of the path. *)
Fixpoint contained_from (depth : nat) (components : list string) : bool :=
  match components with
  | [] => true
  | component :: rest =>
      if decide (component = "" ∨ component = ".") then contained_from depth rest
      else if decide (component = "..") then match depth with 0 => false | S d => contained_from d rest end
      else contained_from (S depth) rest
  end.
Definition is_relative_contained (path : string) : bool := contained_from 0 (split slash path).

(** [validate_scope_path] *)
Definition validate_scope_path (path field : string) : result string unit :=
  if decide (trim path = "") then Err (field +:+ " must not be empty")
  else if contains nul path then Err (field +:+ " must not contain NUL")
  else if decide (MAX_SCOPE_PATH_LEN < String.length path) then Err (field +:+ " must be at most 1024 characters")
  else if negb (is_absolute path) && negb (is_relative_contained path) then
    Err (field +:+ " must be absolute or relative to the workspace, got '" +:+ path +:+ "'")
  else Ok ().

(** [scope_path_contains] and [is_scope_subset] *)
Definition scope_path_contains (prefix path : string) : bool :=
  let parent := normalize_scope_path prefix in
  let candidate := normalize_scope_path path in
  if decide (parent = "/") then starts_with "/" candidate
  else bool_decide (candidate = parent) || starts_with (parent +:+ "/") candidate.
Definition within (bounds : list string) (path : string) : bool := existsb (λ bound, scope_path_contains bound path) bounds.
Definition is_scope_subset (inner outer : list string) : bool := forallb (within outer) inner.

(** * Layers *)

(** [merge_file_scope] and [merge_file_scope_chain] *)
Definition or_else {A} (a b : option A) : option A := match a with Some x => Some x | None => b end.
Definition merge_file_scope (base upper : ExecutionFileScope) : ExecutionFileScope :=
  {| enabled := or_else (enabled upper) (enabled base);
     read_prefixes := or_else (read_prefixes upper) (read_prefixes base);
     write_prefixes := or_else (write_prefixes upper) (write_prefixes base);
     checkpoint_prefixes := or_else (checkpoint_prefixes upper) (checkpoint_prefixes base);
     workdir := or_else (workdir upper) (workdir base) |}.
Definition merge_file_scope_chain (layers : list ExecutionFileScope) : ExecutionFileScope :=
  foldl merge_file_scope default_scope layers.

(** [for x in list { f(x)? }] *)
Fixpoint try_each {A E} (f : A → result E unit) (l : list A) : result E unit :=
  match l with [] => Ok () | x :: l' => f x ≫= λ _, try_each f l' end.
Definition ensure (b : bool) (e : string) : result string unit := if b then Ok () else Err e.
Definition validate_path_list (entries : list string) (field : string) : result string unit :=
  try_each (λ e, validate_scope_path e field) entries.
Definition check_checkpoint_subset (checkpoint write : list string) : result string unit :=
  try_each (λ p, ensure (within write p) ("scope.checkpoint_prefixes entry '" +:+ p +:+ "' is outside scope.write_prefixes")) checkpoint.
Definition check_workdir_within_bounds (workdir : string) (read write : list string) : result string unit :=
  ensure (within read workdir || within write workdir)
    ("scope.workdir '" +:+ workdir +:+ "' is outside scope.read_prefixes and scope.write_prefixes").
Definition when_some {A} (o : option A) (f : A → result string unit) : result string unit :=
  match o with Some a => f a | None => Ok () end.

(** [validate_file_scope] *)
Definition validate_file_scope (s : ExecutionFileScope) : result string unit :=
  _ ← when_some (read_prefixes s) (λ l, validate_path_list l "scope.read_prefixes");
  _ ← when_some (write_prefixes s) (λ l, validate_path_list l "scope.write_prefixes");
  _ ← when_some (checkpoint_prefixes s) (λ l, validate_path_list l "scope.checkpoint_prefixes");
  _ ← when_some (workdir s) (λ w, validate_scope_path w "scope.workdir");
  _ ← match checkpoint_prefixes s, write_prefixes s with
      | Some c, Some w => check_checkpoint_subset c w
      | _, _ => Ok ()
      end;
  match read_prefixes s, write_prefixes s, workdir s with
  | Some r, Some w, Some d => check_workdir_within_bounds d r w
  | _, _, _ => Ok ()
  end.

(** [absolutize_prefix] and [expand_file_scope] *)
Definition absolutize_prefix (root : option string) (prefix : string) : string :=
  if is_absolute prefix then normalize_scope_path prefix
  else match root with
       | Some root =>
           if is_absolute root && negb (bool_decide (trim root = "")) then
             normalize_scope_path (normalize_scope_path root +:+ "/" +:+ prefix)
           else normalize_scope_path prefix
       | None => normalize_scope_path prefix
       end.
Definition expand_file_scope (s : ExecutionFileScope) (global : option ExecutionFileScope) (root : option string) :
    ResolvedFileScope :=
  let resolve {A} (f : ExecutionFileScope → option A) := or_else (f s) (global ≫= f) in
  let absolutize := fmap (absolutize_prefix root) in
  let write := absolutize (default [] (resolve write_prefixes)) in
  {| r_enabled := default true (resolve enabled);
     r_read_prefixes := absolutize (default [] (resolve read_prefixes));
     r_write_prefixes := write;
     r_checkpoint_prefixes := absolutize (default write (resolve checkpoint_prefixes));
     r_workdir := absolutize_prefix root <$> resolve workdir |}.

(** [check_within_workspace] *)
Definition outside_workspace (root prefix : string) : string :=
  "scope entry '" +:+ prefix +:+ "' is outside workspace root '" +:+ root +:+ "'".
Definition check_within_workspace (prefixes : list string) (workspace_root : string) : result string unit :=
  let root := normalize_scope_path workspace_root in
  try_each (λ p, ensure (if decide (root = ".") then negb (is_absolute p) else scope_path_contains root p) (outside_workspace root p)) prefixes.

(** [validate_resolved_file_scope] *)
Definition validate_resolved_file_scope (s : ResolvedFileScope) : result string unit :=
  _ ← validate_path_list (r_read_prefixes s) "scope.read_prefixes";
  _ ← validate_path_list (r_write_prefixes s) "scope.write_prefixes";
  _ ← validate_path_list (r_checkpoint_prefixes s) "scope.checkpoint_prefixes";
  _ ← when_some (r_workdir s) (λ w, validate_scope_path w "scope.workdir");
  _ ← check_checkpoint_subset (r_checkpoint_prefixes s) (r_write_prefixes s);
  when_some (r_workdir s) (λ w, check_workdir_within_bounds w (r_read_prefixes s) (r_write_prefixes s)).

(** [check_child_scope_subset] *)
Definition all_prefixes (s : ResolvedFileScope) : list string := r_read_prefixes s ++ r_write_prefixes s ++ r_checkpoint_prefixes s.
Definition check_child_scope_subset (child parent : ResolvedFileScope) : result string unit :=
  _ ← try_each (λ p, ensure (within (r_read_prefixes parent) p || within (r_write_prefixes parent) p)
        ("child scope entry '" +:+ p +:+ "' is outside parent read and write prefixes")) (all_prefixes child);
  _ ← try_each (λ p, ensure (within (r_write_prefixes child) p)
        ("checkpoint prefix '" +:+ p +:+ "' is outside child write prefixes")) (r_checkpoint_prefixes child);
  when_some (r_workdir child) (λ w, ensure (within (r_read_prefixes child) w || within (r_write_prefixes child) w)
    ("workdir '" +:+ w +:+ "' is outside child read and write prefixes")).
(** [is_file_channel_closed] *)
Definition is_file_channel_closed (s : option ResolvedFileScope) : bool :=
  match s with Some s => negb (r_enabled s) | None => false end.

(** [resolve_execution_scope] *)
Definition resolve_execution_scope (global parent node call : option ExecutionFileScope) (root : option string) : ResolvedFileScope :=
  let merged := merge_file_scope_chain (omap id [global; parent; node; call]) in
  let merged := merge_file_scope (default default_scope global) merged in
  expand_file_scope merged global root.
(** [resolve_execution_scope_checked] *)
Definition as_layer (p : ResolvedFileScope) : ExecutionFileScope :=
  {| enabled := Some (r_enabled p); read_prefixes := Some (r_read_prefixes p); write_prefixes := Some (r_write_prefixes p);
     checkpoint_prefixes := Some (r_checkpoint_prefixes p); workdir := r_workdir p |}.
Definition resolve_execution_scope_checked (global : option ExecutionFileScope) (parent : option ResolvedFileScope)
    (node call : option ExecutionFileScope) (root : option string) : result string ResolvedFileScope :=
  let s := resolve_execution_scope global (as_layer <$> parent) node call root in
  _ ← validate_path_list (all_prefixes s) "scope.prefix";
  _ ← when_some (r_workdir s) (λ w, validate_scope_path w "scope.workdir");
  _ ← try_each (λ p, ensure (within (r_write_prefixes s) p) ("checkpoint prefix '" +:+ p +:+ "' is outside write prefixes"))
        (r_checkpoint_prefixes s);
  _ ← when_some (r_workdir s) (λ w, ensure (within (r_read_prefixes s ++ r_write_prefixes s) w)
        ("workdir '" +:+ w +:+ "' is outside read and write prefixes"));
  _ ← when_some root (λ root,
        _ ← check_within_workspace (all_prefixes s) root;
        when_some (r_workdir s) (λ w, check_within_workspace [w] root));
  _ ← when_some parent (check_child_scope_subset s);
  Ok s.

(** * The lexical meaning of a path *)

Definition lexical (path : string) : bool * list string := (is_absolute path, scope_parts path).
Definition print_path (l : bool * list string) : string :=
  let out := (if l.1 then "/" else "") +:+ String.concat "/" l.2 in
  if decide (out = "") then "." else out.
(** A name that stands for itself. *)
Definition plain_name (c : string) : Prop := c ≠ "" ∧ c ≠ "." ∧ c ≠ ".." ∧ contains slash c = false.

Lemma normalize_print path : normalize_scope_path path = print_path (lexical path).
Proof. unfold normalize_scope_path, print_path, lexical. cbn [fst snd]. by destruct (is_absolute path). Qed.

Lemma split_concat ns : ns ≠ [] → Forall plain_name ns → split slash (String.concat "/" ns) = ns.
Proof. intros Hne Hns. apply split_concat_lines; [done|]. apply (Forall_impl plain_name); [done|]. by intros x (_ & _ & _ & ?). Qed.
Lemma push_plain acc ns : Forall plain_name ns → foldl push_component acc ns = acc ++ ns.
Proof.
  revert acc. induction ns as [|x ns IH]; intros acc Hns; [by rewrite app_nil_r|]. apply Forall_cons in Hns as [(H1 & H2 & H3 & _) Hns].
  cbn [foldl]. unfold push_component at 2. rewrite decide_False by naive_solver. rewrite decide_False by done.
  rewrite IH by done. by rewrite <-app_assoc.
Qed.
Lemma Forall_removelast {A} (P : A → Prop) l : Forall P l → Forall P (removelast l).
Proof.
  induction l as [|x l IH]; [done|]. intros [Hx Hl]%Forall_cons. destruct l as [|y l]; [constructor|].
  change (removelast (x :: y :: l)) with (x :: removelast (y :: l)). constructor; auto.
Qed.
Lemma scope_parts_plain path : Forall plain_name (scope_parts path).
Proof.
  unfold scope_parts. pose proof (split_no_delim slash path) as Hs. revert Hs.
  assert (Hgen : ∀ l acc, Forall plain_name acc → Forall (λ w, contains slash w = false) l → Forall plain_name (foldl push_component acc l)).
  { induction l as [|x l IH]; [done|]. intros acc Hacc [Hx Hl]%Forall_cons. cbn [foldl]. apply IH; [|done].
    unfold push_component. repeat case_decide; [done|by apply Forall_removelast|].
    apply Forall_app. split; [done|]. constructor; [|done]. repeat split; naive_solver. }
  apply Hgen. constructor.
Qed.
Lemma starts_slash s : starts_with "/" s = true ↔ ∃ t, s = String slash t.
Proof. apply starts_with_true. Qed.
Lemma concat_relative ns : Forall plain_name ns → is_absolute (String.concat "/" ns) = false.
Proof.
  intros Hns. apply not_true_is_false. intros (t & Ht)%starts_slash. destruct ns as [|x ns]; [done|].
  apply Forall_cons in Hns as [(Hx & _ & _ & Hs) _]. destruct x as [|a x]; [done|]. cbn [contains] in Hs.
  apply orb_false_iff in Hs as [Ha _]. apply bool_decide_eq_false in Ha. destruct ns; injection Ht as -> _; done.
Qed.
Lemma split_print b ns :
  Forall plain_name ns →
  split slash (print_path (b, ns)) = (if b then [""] else []) ++ match ns with [] => [if b then "" else "."] | _ => ns end.
Proof.
  intros Hns. unfold print_path. cbn [fst snd]. destruct b.
  - rewrite decide_False by done. change ("/" +:+ String.concat "/" ns) with ("" +:+ String slash (String.concat "/" ns)).
    rewrite split_append. destruct ns as [|x ns]; [done|]. by rewrite split_concat.
  - change ("" +:+ String.concat "/" ns) with (String.concat "/" ns). destruct ns as [|x ns]; [done|].
    rewrite decide_False; [by rewrite split_concat|]. apply Forall_cons in Hns as [(Hx & _) _].
    destruct ns; [done|]. rewrite (concat_cons slash). by destruct x.
Qed.
Lemma lexical_print b ns : Forall plain_name ns → lexical (print_path (b, ns)) = (b, ns).
Proof.
  intros Hns. unfold lexical, scope_parts. rewrite split_print by done. f_equal.
  - destruct b.
    + unfold print_path. cbn [fst snd]. by rewrite decide_False.
    + unfold print_path. cbn [fst snd]. change ("" +:+ String.concat "/" ns) with (String.concat "/" ns).
      case_decide; [done|]. by apply concat_relative.
  - destruct b; cbn [app foldl]; (destruct ns as [|x ns]; [done|]); by rewrite push_plain.
Qed.
Lemma lexical_normalize path : lexical (normalize_scope_path path) = lexical path.
Proof. rewrite normalize_print. apply lexical_print, scope_parts_plain. Qed.
Lemma normalize_idempotent path : normalize_scope_path (normalize_scope_path path) = normalize_scope_path path.
Proof. by rewrite (normalize_print (normalize_scope_path path)), lexical_normalize, <-normalize_print. Qed.

(** * Containment *)

(** [path] lies below [prefix]: the same kind, and the names of the prefix come
    first.  The relative path [.] contains itself only. *)
Definition below (prefix path : string) : Prop :=
  is_absolute prefix = is_absolute path ∧ scope_parts prefix `prefix_of` scope_parts path ∧
  (is_absolute prefix = false → scope_parts prefix = [] → scope_parts path = []).

Lemma concat_slash ns ms : ns ≠ [] → ms ≠ [] → String.concat "/" (ns ++ ms) = String.concat "/" ns +:+ String slash (String.concat "/" ms).
Proof. apply (concat_app slash). Qed.
Lemma print_path_eq b ns b' ns' :
  Forall plain_name ns → Forall plain_name ns' → print_path (b, ns) = print_path (b', ns') ↔ b = b' ∧ ns = ns'.
Proof.
  intros H H'. split; [|by intros [-> ->]]. intros Heq. apply (f_equal lexical) in Heq.
  rewrite !lexical_print in Heq by done. by injection Heq.
Qed.
Lemma head_plain (ns : list string) (l : list string) x : Forall plain_name ns → ns = x :: l → x ≠ "" ∧ x ≠ ".".
Proof. intros Hns ->. apply Forall_cons in Hns as [(? & ? & _) _]. done. Qed.
(** A path that continues another past a separator. *)
Lemma print_path_extends b ns b' ns' :
  Forall plain_name ns → Forall plain_name ns' → (b, ns) ≠ (true, []) →
  starts_with (print_path (b, ns) +:+ "/") (print_path (b', ns')) = true ↔
  b = b' ∧ ns ≠ [] ∧ ∃ ms, ms ≠ [] ∧ ns' = ns ++ ms.
Proof.
  intros Hns Hns' Hroot. rewrite starts_with_true. split.
  - intros [t Ht]. rewrite append_assoc in Ht. change ("/" +:+ t) with (String slash t) in Ht. apply (f_equal (split slash)) in Ht.
    rewrite split_append, !split_print in Ht by done. destruct (split_cons slash t) as (w & ws & Hw). rewrite Hw in Ht.
    destruct b, b'; cbn [app] in Ht.
    + split; [done|]. destruct ns as [|x ns]; [done|]. split; [done|]. exists (w :: ws). split; [done|].
      destruct ns' as [|x' ns']; [|congruence]. exfalso. injection Ht as _ Ht. by destruct ns.
    + exfalso. destruct ns' as [|x' ns']; [by injection Ht|]. injection Ht as -> _. by apply Forall_cons in Hns' as [(? & _) _].
    + exfalso. destruct ns as [|x ns]; [done|]. injection Ht as <- _. by apply Forall_cons in Hns as [(? & _) _].
    + split; [done|]. destruct ns as [|x ns].
      * exfalso. destruct ns' as [|x' ns']; [done|]. injection Ht as -> _. apply Forall_cons in Hns' as [(_ & ? & _) _]. done.
      * split; [done|]. exists (w :: ws). split; [done|]. destruct ns' as [|x' ns']; [|done]. exfalso.
        injection Ht as <- _. apply Forall_cons in Hns as [(_ & ? & _) _]. done.
  - intros (<- & Hne & ms & Hms & ->). exists (String.concat "/" ms). unfold print_path. cbn [fst snd].
    rewrite concat_slash by done.
    assert (Hcat : String.concat "/" ns ≠ "").
    { destruct ns as [|x ns]; [done|]. apply Forall_cons in Hns as [(Hx & _) _]. destruct x; [done|]. by destruct ns. }
    rewrite !decide_False; [by rewrite !append_assoc| |].
    + destruct b; [done|]. by destruct (String.concat "/" ns).
    + destruct b; [done|]. by destruct (String.concat "/" ns).
Qed.
Lemma print_root b ns : Forall plain_name ns → print_path (b, ns) = "/" ↔ b = true ∧ ns = [].
Proof. intros Hns. change "/" with (print_path (true, [])). apply print_path_eq; [done|constructor]. Qed.
Lemma print_absolute b ns : Forall plain_name ns → is_absolute (print_path (b, ns)) = b.
Proof. intros Hns. by apply (lexical_print b) in Hns as [= -> _]. Qed.

Lemma scope_path_contains_below prefix path : scope_path_contains prefix path = true ↔ below prefix path.
Proof.
  unfold scope_path_contains, below. rewrite !normalize_print. unfold lexical.
  pose proof (scope_parts_plain prefix) as Hp. pose proof (scope_parts_plain path) as Hq.
  set (b := is_absolute prefix). set (b' := is_absolute path). set (ns := scope_parts prefix) in *. set (ns' := scope_parts path) in *.
  case_decide as Hroot; rewrite print_root in Hroot by done.
  - destruct Hroot as [-> ->]. change (starts_with "/" (print_path (b', ns'))) with (is_absolute (print_path (b', ns'))).
    rewrite print_absolute by done. split; [intros ->; split; [done|]; split; [apply prefix_nil|done]|by intros [<- _]].
  - rewrite orb_true_iff, bool_decide_eq_true, print_path_eq by done. rewrite print_path_extends by (done || naive_solver). split.
    + intros [[-> ->]|(-> & Hne & ms & _ & ->)]; [done|]. split; [done|]. split; [by apply prefix_app_r|done].
    + intros (-> & [ms Hms] & Hdot). destruct ms as [|m ms]; [left; rewrite app_nil_r in Hms; done|]. right. split; [done|].
      split; [|by exists (m :: ms)]. intros Hn. destruct b'; [by apply Hroot|]. rewrite Hn, (Hdot eq_refl Hn) in Hms. done.
Qed.

#[export] Instance below_preorder : PreOrder below.
Proof.
  split.
  - intros p. done.
  - intros p q r (Hk1 & Hp1 & Hd1) (Hk2 & Hp2 & Hd2). split; [congruence|]. split; [by etrans|]. naive_solver congruence.
Qed.
Lemma below_normalize_l p q : below (normalize_scope_path p) q ↔ below p q.
Proof. unfold below. by pose proof (lexical_normalize p) as [= -> ->]. Qed.
Lemma below_normalize_r p q : below p (normalize_scope_path q) ↔ below p q.
Proof. unfold below. by pose proof (lexical_normalize q) as [= -> ->]. Qed.
Lemma within_below bounds path : within bounds path = true ↔ ∃ b, b ∈ bounds ∧ below b path.
Proof. unfold within. rewrite existsb_exists. setoid_rewrite scope_path_contains_below. setoid_rewrite <-list_elem_of_In. done. Qed.
Lemma within_trans bounds p q : within bounds p = true → below p q → within bounds q = true.
Proof. rewrite !within_below. intros (b & Hb & Hbp) Hpq. exists b. split; [done|]. by etrans. Qed.
Lemma is_scope_subset_spec inner outer :
  is_scope_subset inner outer = true ↔ ∀ path, within inner path = true → within outer path = true.
Proof.
  unfold is_scope_subset. rewrite forallb_forall. setoid_rewrite <-list_elem_of_In. split.
  - intros Hall path (b & Hb & Hbp)%within_below. by apply within_trans with b; [apply Hall|].
  - intros Hsub p Hp. apply Hsub, within_below. exists p. done.
Qed.

(** Containment of paths is the prefix order on their names: one scope path contains another
    exactly if both are absolute or both relative and the names of the first, dots resolved, begin the
    names of the second; only the empty relative path contains nothing but itself.  A prefix list is a
    subset of another exactly if every path it admits is admitted by the other. *)
Theorem scope_containment_exact :
  (∀ prefix path, scope_path_contains prefix path = true ↔
     is_absolute prefix = is_absolute path ∧ scope_parts prefix `prefix_of` scope_parts path ∧
     (is_absolute prefix = false → scope_parts prefix = [] → scope_parts path = [])) ∧
  (∀ path, lexical (normalize_scope_path path) = lexical path) ∧
  (∀ inner outer, is_scope_subset inner outer = true ↔ ∀ path, within inner path = true → within outer path = true).
Proof. split; [apply scope_path_contains_below|]. split; [apply lexical_normalize|apply is_scope_subset_spec]. Qed.

(** * Resolved scopes *)

Lemma try_each_Ok {A E} (f : A → result E unit) l : try_each f l = Ok () ↔ ∀ x, x ∈ l → f x = Ok ().
Proof.
  induction l as [|x l IH]; [set_solver|]. cbn [try_each]. split.
  - intros ([] & Hx & Hl)%result_bind_Ok y [->|Hy]%elem_of_cons; [done|]. by apply IH.
  - intros Hall. rewrite (Hall x) by (by left). apply IH. intros y Hy. apply Hall. by right.
Qed.
Lemma ensure_Ok b e : ensure b e = Ok () ↔ b = true.
Proof. by destruct b. Qed.
Lemma within_app l k p : within (l ++ k) p = within l p || within k p.
Proof. apply existsb_app. Qed.
Lemma check_within_workspace_Ok l root :
  normalize_scope_path root ≠ "." → check_within_workspace l root = Ok () → ∀ p, within l p = true → below root p.
Proof.
  unfold check_within_workspace. intros Hroot Hl p (b & Hb & Hbp)%within_below. rewrite try_each_Ok in Hl. specialize (Hl b Hb).
  rewrite ensure_Ok, decide_False in Hl by done. rewrite scope_path_contains_below, below_normalize_l in Hl. by etrans.
Qed.

(** C39: what a checked scope admits stays inside its workspace root and inside what the parent
    execution may read or write; its checkpoint paths are writable, and its working directory
    readable or writable. *)
Theorem resolved_scope_confined (global : option ExecutionFileScope) (parent : option ResolvedFileScope)
    (node call : option ExecutionFileScope) (root : option string) (s : ResolvedFileScope)
    (Hok : resolve_execution_scope_checked global parent node call root = Ok s) :
  (∀ p, within (r_checkpoint_prefixes s) p = true → within (r_write_prefixes s) p = true) ∧
  (∀ w, r_workdir s = Some w → within (r_read_prefixes s ++ r_write_prefixes s) w = true) ∧
  (∀ r, root = Some r → normalize_scope_path r ≠ "." → ∀ p, within (all_prefixes s) p = true → scope_path_contains r p = true) ∧
  (∀ q, parent = Some q → ∀ p, within (all_prefixes s) p = true → within (r_read_prefixes q ++ r_write_prefixes q) p = true).
Proof.
  unfold resolve_execution_scope_checked in Hok.
  apply result_bind_Ok in Hok as ([] & _ & Hok). apply result_bind_Ok in Hok as ([] & _ & Hok).
  apply result_bind_Ok in Hok as ([] & Hcp & Hok). apply result_bind_Ok in Hok as ([] & Hwd & Hok).
  apply result_bind_Ok in Hok as ([] & Hroot & Hok). apply result_bind_Ok in Hok as ([] & Hpar & [= <-]).
  set (s := resolve_execution_scope _ _ _ _ _) in *. split; [|split; [|split]].
  - intros p (b & Hb & Hbp)%within_below. rewrite try_each_Ok in Hcp. specialize (Hcp b Hb). rewrite ensure_Ok in Hcp.
    by apply within_trans with b.
  - intros w Hw. rewrite Hw in Hwd. by apply ensure_Ok in Hwd.
  - intros r -> Hr p Hp. apply result_bind_Ok in Hroot as ([] & Hroot & _). apply scope_path_contains_below.
    by apply (check_within_workspace_Ok (all_prefixes s)).
  - intros q -> p (b & Hb & Hbp)%within_below. apply result_bind_Ok in Hpar as ([] & Hpar & _). rewrite try_each_Ok in Hpar.
    specialize (Hpar b Hb). rewrite ensure_Ok, <-within_app in Hpar. by apply within_trans with b.
Qed.

(** Which layer decides a list: the call, the node, the parent, the global
    default, in this order; nothing declared admits nothing. *)
Definition decisive {A} (f : ExecutionFileScope → option A) (layers : list (option ExecutionFileScope)) : option A :=
  foldr (λ (l : option ExecutionFileScope) o, or_else (l ≫= f) o) None layers.
Lemma resolve_layers global parent node call root (s := resolve_execution_scope global parent node call root) :
  r_read_prefixes s = absolutize_prefix root <$> default [] (decisive read_prefixes [call; node; parent; global]) ∧
  r_write_prefixes s = absolutize_prefix root <$> default [] (decisive write_prefixes [call; node; parent; global]).
Proof.
  unfold s, resolve_execution_scope, merge_file_scope_chain, expand_file_scope. cbn [r_read_prefixes r_write_prefixes].
  destruct global as [[? gr gw ? ?]|], parent as [[? pr pw ? ?]|], node as [[? nr nw ? ?]|], call as [[? cr cw ? ?]|]; cbn;
    split; f_equal; unfold or_else; repeat case_match; congruence.
Qed.
(** A relative prefix that does not climb stays inside the root it is joined to. *)
Lemma contained_parts base depth l :
  depth ≤ List.length base → contained_from depth l = true →
  take (List.length base - depth) base `prefix_of` foldl push_component base l.
Proof.
  revert base depth. induction l as [|x l IH]; intros base depth Hd Hc; cbn [foldl contained_from] in *; [apply prefix_take|].
  unfold push_component at 2. case_decide as H1; [by apply IH|]. case_decide as H2.
  - destruct depth as [|d]; [done|]. destruct base as [|b base' _] using rev_ind; [simpl in Hd; lia|].
    rewrite removelast_last. rewrite length_app in *. simpl in *.
    rewrite take_app_le by lia. replace (length base' + 1 - S d) with (length base' - d) by lia. apply IH; [lia|done].
  - specialize (IH (base ++ [x]) (S depth)). rewrite length_app in IH. simpl in IH. rewrite take_app_le in IH by lia.
    replace (length base + 1 - S depth) with (length base - depth) in IH by lia. apply IH; [lia|done].
Qed.
Lemma joined_inside root prefix :
  is_absolute root = true → is_relative_contained prefix = true → below root (root +:+ "/" +:+ prefix).
Proof.
  intros Hroot Hc. unfold below, scope_parts. change ("/" +:+ prefix) with (String slash prefix). rewrite split_append, foldl_app.
  split; [|split; [|congruence]].
  - rewrite Hroot. unfold is_absolute in *. rewrite starts_with_true in Hroot. destruct Hroot as [t ->]. done.
  - pose proof (contained_parts (foldl push_component [] (split slash root)) 0 (split slash prefix) ltac:(lia) Hc) as Hp.
    by rewrite Nat.sub_0_r, take_ge in Hp.
Qed.
(** A validated prefix resolves into an absolute workspace root. *)
Lemma absolutized_inside root prefix field :
  is_absolute root = true → trim root ≠ "" → is_absolute prefix = false → validate_scope_path prefix field = Ok () →
  below root (absolutize_prefix (Some root) prefix).
Proof.
  intros Hroot Htrim Hrel Hv. unfold absolutize_prefix. rewrite Hrel, Hroot, bool_decide_eq_false_2 by done. simpl.
  rewrite below_normalize_r. rewrite <-below_normalize_l. apply joined_inside.
  - rewrite normalize_print. unfold lexical. rewrite print_absolute; [done|apply scope_parts_plain].
  - unfold validate_scope_path in Hv. rewrite Hrel in Hv. repeat (case_match; try done).
    by destruct (is_relative_contained prefix).
Qed.

(** * Witness and examples *)

Definition scope_of (read write : list string) : ExecutionFileScope :=
  {| enabled := None; read_prefixes := Some read; write_prefixes := Some write; checkpoint_prefixes := None; workdir := None |}.
Definition parent_scope : ResolvedFileScope :=
  {| r_enabled := true; r_read_prefixes := ["/repo"]; r_write_prefixes := ["/repo/out"]; r_checkpoint_prefixes := ["/repo/out"];
     r_workdir := None |}.
Definition child_scope (write : string) : result string ResolvedFileScope :=
  resolve_execution_scope_checked None (Some parent_scope) None
    (Some {| enabled := None; read_prefixes := None; write_prefixes := Some [write]; checkpoint_prefixes := Some [write]; workdir := None |})
    (Some "/repo").
Definition resolved_child (write : string) : ResolvedFileScope :=
  {| r_enabled := true; r_read_prefixes := ["/repo"]; r_write_prefixes := [write]; r_checkpoint_prefixes := [write]; r_workdir := None |}.

Lemma resolved_scope_confined_witness :
  child_scope "/repo/out/x" = Ok (resolved_child "/repo/out/x") ∧
  ∀ p, within (all_prefixes (resolved_child "/repo/out/x")) p = true → scope_path_contains "/repo" p = true.
Proof.
  assert (H : child_scope "/repo/out/x" = Ok (resolved_child "/repo/out/x")) by (vm_compute; reflexivity). split; [exact H|].
  apply (resolved_scope_confined _ _ _ _ _ _ H); [reflexivity|]. apply (bool_decide_eq_true_1 _). vm_compute. reflexivity.
Defined.

(** The subset check compares every prefix of the child with what the parent may
    read or write: a child may write where its parent may only read. *)
Example read_prefix_grants_write :
  child_scope "/repo" = Ok (resolved_child "/repo") ∧
  within (r_write_prefixes (resolved_child "/repo")) "/repo/main.rs" = true ∧
  within (r_write_prefixes parent_scope) "/repo/main.rs" = false.
Proof. vm_compute. done. Qed.
(** A candidate is normalised before it is compared, so a relative path that
    leaves its base counts as the path that remains. *)
Example climbing_path_contained : scope_path_contains "data" "../data/x" = true ∧ is_relative_contained "../data/x" = false.
Proof. vm_compute. done. Qed.
(** The prefix [.] is valid and admits nothing but itself. *)
Example dot_prefix_admits_nothing : validate_scope_path "." "p" = Ok () ∧ scope_path_contains "." "src/main.rs" = false.
Proof. vm_compute. done. Qed.
