(* ===== verification/LineEdit.v ===== *)
(** Text edits: wf-tools/src/sequence_matcher.rs and the application of edits in
    wf-tools/src/filesystem/edit_diff.rs.

    Strings are their UTF-8 bytes.  Compatibility normalisation (NFKC) is a
    third-party crate and enters as an argument.  [woven] is the specification
    both edit formats share: pieces of the old text, in order and apart, give
    way to new ones and nothing else changes. *)

From S2P Require Import Prelude Strings.

Definition newline : ascii := "010".
Definition lines_of (s : string) : list string := split newline s.
Definition join_lines (l : list string) : string := String.concat (String newline "") l.

(** * Replacing ranges *)

(** [Vec::splice] and [String::replace_range] with a range [start..start + len];
    [None] is the panic of a range past the end. *)
Definition splice {A} (start len : nat) (new l : list A) : option (list A) :=
  if decide (start + len ≤ List.length l) then Some (take start l ++ new ++ drop (start + len) l) else None.
Record Replacement (A : Type) : Type := { rep_start : nat; rep_len : nat; rep_new : list A }.
Arguments rep_start {A} _.
Arguments rep_len {A} _.
Arguments rep_new {A} _.
(** The loop over the sorted replacements, from the last to the first. *)
Definition splice_all {A} (reps : list (Replacement A)) (l : list A) : option (list A) :=
  foldr (λ r acc, acc ≫= splice (rep_start r) (rep_len r) (rep_new r)) (Some l) reps.

(** [old] pieces give way to [new] ones, in order; [fits] relates an edit to
    the piece it replaces and to what it puts there. *)
Inductive woven {A E} (fits : E → list A → list A → Prop) : list E → list A → list A → Prop :=
| woven_nil l : woven fits [] l l
| woven_cons e es gap old new l l' :
    fits e old new → woven fits es l l' → woven fits (e :: es) (gap ++ old ++ l) (gap ++ new ++ l').

(** Ranges in order and apart, from a position on. *)
Fixpoint apart_from {A} (pos : nat) (reps : list (Replacement A)) : Prop :=
  match reps with [] => True | r :: reps' => pos ≤ rep_start r ∧ apart_from (rep_start r + rep_len r) reps' end.
Definition inside {A} (n : nat) (r : Replacement A) : Prop := rep_start r + rep_len r ≤ n.
Definition replaced {A} (l : list A) (r : Replacement A) : list A := take (rep_len r) (drop (rep_start r) l).

(** Splicing from the back, past a prefix that is not touched. *)
Lemma splice_all_spec {A} (l : list A) pos reps :
  pos ≤ List.length l → apart_from pos reps → Forall (inside (List.length l)) reps →
  ∃ m, splice_all reps l = Some (take pos l ++ m) ∧ woven (λ r old new, old = replaced l r ∧ new = rep_new r) reps (drop pos l) m.
Proof.
  revert pos. induction reps as [|r reps IH]; intros pos Hpos Hap Hin.
  { exists (drop pos l). cbn. rewrite take_drop. split; [done|constructor]. }
  destruct Hap as [Hs Hap]. apply Forall_cons in Hin as [Hr Hin]. unfold inside in Hr.
  destruct (IH (rep_start r + rep_len r) Hr Hap Hin) as (m & Hm & Hw). cbn [splice_all foldr].
  change (foldr _ (Some l) reps) with (splice_all reps l). rewrite Hm. cbn [mbind option_bind]. unfold splice.
  rewrite length_app, length_take. rewrite decide_True by lia.
  set (gap := take (rep_start r - pos) (drop pos l)). exists (gap ++ rep_new r ++ m).
  assert (Hgap : take (rep_start r) l = take pos l ++ gap).
  { unfold gap. rewrite <-(take_drop pos (take (rep_start r) l)), take_take, Nat.min_l by lia. f_equal.
    by rewrite skipn_firstn_comm. }
  split.
  - f_equal. rewrite take_app_le by (rewrite length_take; lia). rewrite take_take, Nat.min_l by lia.
    rewrite drop_app_length' by (rewrite length_take; lia). by rewrite Hgap, <-!app_assoc.
  - assert (Hl : drop pos l = gap ++ replaced l r ++ drop (rep_start r + rep_len r) l).
    { unfold gap, replaced. rewrite <-drop_drop, take_drop.
      replace (drop (rep_start r) l) with (drop (rep_start r - pos) (drop pos l)) by (rewrite drop_drop; f_equal; lia).
      by rewrite take_drop. }
    rewrite Hl. by constructor.
Qed.
Lemma splice_all_woven {A} (l : list A) reps :
  apart_from 0 reps → Forall (inside (List.length l)) reps →
  ∃ m, splice_all reps l = Some m ∧ woven (λ r old new, old = replaced l r ∧ new = rep_new r) reps l m.
Proof. intros Hap Hin. destruct (splice_all_spec l 0 reps ltac:(lia) Hap Hin) as (m & Hm & Hw). exists m. done. Qed.
Lemma woven_impl {A E F} (fits : E → list A → list A → Prop) (fits' : F → list A → list A → Prop) (es : list E) (fs : list F) l m :
  Forall2 (λ e f, ∀ old new, fits e old new → fits' f old new) es fs → woven fits es l m → woven fits' fs l m.
Proof.
  intros Hall Hw. revert fs Hall. induction Hw as [l|e es gap old new l l' He Hw IH]; intros fs Hall.
  - apply Forall2_nil_inv_l in Hall as ->. constructor.
  - apply Forall2_cons_inv_l in Hall as (f & fs' & Hf & Hfs & ->). constructor; auto.
Qed.

(** * sequence_matcher.rs *)

(** [str::trim_end] *)
Definition trim_end (s : string) : string := String.concat "" (reverse (drop_while is_whitespace (reverse (chars s)))).
(** [normalize_char], on the UTF-8 bytes of a character. *)
Definition normalize_char (c : string) : string :=
  match nat_of_ascii <$> String.list_ascii_of_string c with
  | [226; 128; n] =>
      if decide (144 ≤ n ≤ 149) then "-" else if decide (152 ≤ n ≤ 155) then "'"
      else if decide (156 ≤ n ≤ 159) then String double_quote ""
      else if decide (130 ≤ n ≤ 138 ∨ n = 175) then " " else c
  | [226; 136; 146] => "-"
  | [194; 160] | [226; 129; 159] | [227; 128; 128] => " "
  | _ => c
  end.

Fixpoint match_at (same : string → string → bool) (lines pattern : list string) (i : nat) : bool :=
  match pattern with
  | [] => true
  | p :: rest => match lines !! i with Some l => same l p | None => false end && match_at same lines rest (S i)
  end.
(** [(from..=to).find(f)] *)
Definition find_in (f : nat → bool) (from to : nat) : option nat := snd <$> list_find (λ i, f i = true) (seq from (S to - from)).

Section matching.
  (** Unicode compatibility normalisation *)
  Context (nfkc : string → string).

Definition normalize_unicode (s : string) : string := String.concat "" (normalize_char <$> chars (trim (nfkc s))).
(** [exact_match], [trim_end_match], [trim_match], [normalized_match] *)
Definition same_by (f : string → string) (l p : string) : bool := bool_decide (f l = f p).
Definition tolerances : list (string → string → bool) :=
  [same_by id; same_by trim_end; same_by trim; same_by normalize_unicode].

(** [seek_sequence] *)
Fixpoint first_match (sames : list (string → string → bool)) (lines pattern : list string) (from to : nat) : option nat :=
  match sames with
  | [] => None
  | same :: rest =>
      match find_in (match_at same lines pattern) from to with
      | Some i => Some i
      | None => first_match rest lines pattern from to
      end
  end.
Definition seek_sequence (lines pattern : list string) (start : nat) (eof : bool) : option nat :=
  match pattern with
  | [] => Some start
  | _ =>
      if decide (List.length lines < List.length pattern) then None
      else
        let max_start := List.length lines - List.length pattern in
        let search_start := if eof then max_start else start in
        if decide (max_start < search_start) then None else first_match tolerances lines pattern search_start max_start
  end.

(** [matched] are lines that one of the tolerances takes for [pattern]. *)
Definition tolerated (pattern matched : list string) : Prop :=
  ∃ same, same ∈ tolerances ∧ Forall2 (λ p l, same l p = true) pattern matched.

Lemma first_index_Some f a b i : find_in f a b = Some i → a ≤ i ≤ b ∧ f i = true ∧ ∀ j, a ≤ j < i → f j = false.
Proof.
  unfold find_in. intros ([k x] & Hk & ->)%fmap_Some. apply list_find_Some in Hk as (Hx & Hf & Hfirst).
  apply lookup_seq in Hx as [-> Hlt]. split; [simpl; lia|]. split; [done|]. intros j Hj. apply not_true_is_false.
  apply (Hfirst (j - a) j); [|simpl in *; lia]. apply lookup_seq. simpl in *. lia.
Qed.
Lemma first_index_None f a b j : find_in f a b = None → a ≤ j ≤ b → f j = false.
Proof.
  unfold find_in. intros Hn%fmap_None Hj. apply list_find_None in Hn. rewrite Forall_forall in Hn. apply not_true_is_false, Hn.
  apply elem_of_seq. lia.
Qed.
Lemma match_at_spec same lines pattern i :
  match_at same lines pattern i = true →
  i + List.length pattern ≤ List.length lines ∨ pattern = [] .
Proof.
  revert i. induction pattern as [|p pattern IH]; intros i; [by right|]. cbn [match_at]. intros [Hl Hm]%andb_true_iff. left.
  destruct (lines !! i) as [l|] eqn:Hi; [|done]. apply lookup_lt_Some in Hi. destruct (IH _ Hm) as [Hle| ->]; simpl; lia.
Qed.
Lemma match_at_lines same lines pattern i :
  match_at same lines pattern i = true → Forall2 (λ p l, same l p = true) pattern (take (List.length pattern) (drop i lines)).
Proof.
  revert i. induction pattern as [|p pattern IH]; intros i; [constructor|]. cbn [match_at]. intros [Hl Hm]%andb_true_iff.
  destruct (lines !! i) as [l|] eqn:Hi; [|done]. rewrite (drop_S _ _ _ Hi). constructor; auto.
Qed.
Lemma first_match_Some sames lines pattern a b i :
  first_match sames lines pattern a b = Some i → a ≤ i ≤ b ∧ ∃ same, same ∈ sames ∧ match_at same lines pattern i = true.
Proof.
  induction sames as [|same sames IH]; [done|]. cbn [first_match]. destruct (find_in _ _ _) as [k|] eqn:Hk.
  - intros [= ->]. apply first_index_Some in Hk as (? & ? & _). split; [done|]. exists same. split; [by left|done].
  - intros (? & same' & ? & ?)%IH. split; [done|]. exists same'. split; [by right|done].
Qed.
Lemma seek_sequence_Some lines pattern start i :
  pattern ≠ [] → seek_sequence lines pattern start false = Some i →
  start ≤ i ∧ i + List.length pattern ≤ List.length lines ∧ tolerated pattern (take (List.length pattern) (drop i lines)).
Proof.
  unfold seek_sequence. destruct pattern as [|p pattern]; [done|]. intros _. case_decide; [done|]. cbv zeta. case_decide; [done|].
  intros (Hi & same & Hs & Hm)%first_match_Some. split; [lia|]. split; [simpl in *; lia|]. exists same. split; [done|].
  by apply match_at_lines.
Qed.
Lemma seek_sequence_bound lines pattern start eof i :
  pattern ≠ [] → seek_sequence lines pattern start eof = Some i → i + List.length pattern ≤ List.length lines.
Proof.
  unfold seek_sequence. destruct pattern as [|p pattern]; [done|]. intros _. case_decide; [done|]. cbv zeta. case_decide; [done|].
  intros (Hi & _)%first_match_Some. simpl in *. lia.
Qed.

(** * edit_diff.rs *)

Inductive SpanError : Type := SEmpty | SDuplicate (count : nat) | SNotFound.
Record EditSpan : Type := { span_start : nat; span_len : nat }.
Record EditPair : Type := { old_text : string; new_text : string }.
Inductive EditApplyError : Type :=
| EEmpty (index : nat)
| EDuplicate (index count : nat)
| ENotFound (index : nat)
| EOverlap (first second : nat).

(** [count_line_matches]; every step moves on, so fuel for the lines is enough. *)
Fixpoint count_from (fuel : nat) (content old : list string) (start : nat) : nat :=
  match fuel with
  | 0 => 0
  | S fuel' =>
      if decide (start + List.length old ≤ List.length content) then
        match seek_sequence content old start false with
        | Some index => S (count_from fuel' content old (S index))
        | None => 0
        end
      else 0
  end.
Definition count_line_matches (content old : list string) : nat :=
  match old with [] => 0 | _ => count_from (S (List.length content)) content old 0 end.
(** [locate_unique_match] *)
Definition locate_unique_match (content old : list string) : result SpanError nat :=
  let count := count_line_matches content old in
  if decide (count = 0) then Err SNotFound
  else if decide (1 < count) then Err (SDuplicate count)
  else match seek_sequence content old 0 false with Some i => Ok i | None => Err SNotFound end.
(** [line_range_to_span] *)
Fixpoint line_starts_from (offset : nat) (s : string) : list nat :=
  match s with
  | EmptyString => []
  | String a s' => if decide (a = newline) then S offset :: line_starts_from (S offset) s' else line_starts_from (S offset) s'
  end.
Definition line_starts (s : string) : list nat := 0 :: line_starts_from 0 s.
Definition line_range_to_span (content : string) (start_line line_count : nat) : EditSpan :=
  let starts := line_starts content in
  let start := default (String.length content) (starts !! start_line) in
  let stop := match starts !! (start_line + line_count) with Some next => next - 1 | None => String.length content end in
  {| span_start := start; span_len := stop - start |}.
(** [content.matches(old).count()]: occurrences apart from each other. *)
Fixpoint count_matches_from (skip : nat) (p s : string) : nat :=
  match s with
  | EmptyString => 0
  | String _ s' =>
      match skip with
      | S skip' => count_matches_from skip' p s'
      | 0 => if starts_with p s then S (count_matches_from (String.length p - 1) p s') else count_matches_from 0 p s'
      end
  end.
Definition count_matches (p s : string) : nat := count_matches_from 0 p s.
(** [resolve_edit_span] *)
Definition resolve_edit_span (content old_text : string) : result SpanError EditSpan :=
  if decide (old_text = "") then Err SEmpty
  else
    let count := count_matches old_text content in
    if decide (1 < count) then Err (SDuplicate count)
    else if decide (count = 1) then
      match find_str old_text content with
      | Some start => Ok {| span_start := start; span_len := String.length old_text |}
      | None => Err SNotFound
      end
    else
      start_line ← locate_unique_match (lines_of content) (lines_of old_text);
      Ok (line_range_to_span content start_line (List.length (lines_of old_text))).

(** [apply_edits_to_content]; [None] is a panic. *)
Definition edit_error (index : nat) (e : SpanError) : EditApplyError :=
  match e with SEmpty => EEmpty index | SDuplicate count => EDuplicate index count | SNotFound => ENotFound index end.
Fixpoint resolve_all (content : string) (index : nat) (edits : list EditPair) :
    result EditApplyError (list (nat * EditSpan * EditPair)) :=
  match edits with
  | [] => Ok []
  | edit :: rest =>
      match resolve_edit_span content (old_text edit) with
      | Err e => Err (edit_error index e)
      | Ok span => tail ← resolve_all content (S index) rest; Ok ((index, span, edit) :: tail)
      end
  end.
Definition span_of (x : nat * EditSpan * EditPair) : EditSpan := x.1.2.
(** [spans.windows(2)] *)
Fixpoint check_overlaps (spans : list (nat * EditSpan * EditPair)) : result EditApplyError unit :=
  match spans with
  | x :: ((y :: _) as rest) =>
      if decide (span_start (span_of y) < span_start (span_of x) + span_len (span_of x)) then Err (EOverlap x.1.1 y.1.1)
      else check_overlaps rest
  | _ => Ok ()
  end.
Definition replacement_of (x : nat * EditSpan * EditPair) : Replacement ascii :=
  {| rep_start := span_start (span_of x); rep_len := span_len (span_of x);
     rep_new := String.list_ascii_of_string (new_text x.2) |}.
Definition apply_edits_to_content (content : string) (edits : list EditPair) : option (result EditApplyError string) :=
  match resolve_all content 0 edits with
  | Err e => Some (Err e)
  | Ok spans =>
      let spans := sort_by_key (λ x, Z.of_nat (span_start (span_of x))) spans in
      match check_overlaps spans with
      | Err e => Some (Err e)
      | Ok _ => Ok ∘ String.string_of_list_ascii <$> splice_all (replacement_of <$> spans) (String.list_ascii_of_string content)
      end
  end.

(** * Spans *)

Notation bytes := String.list_ascii_of_string.
Lemma bytes_app s t : bytes (s +:+ t) = bytes s ++ bytes t.
Proof. induction s as [|a s IH]; [done|]. change (String a s +:+ t) with (String a (s +:+ t)). simpl. by rewrite IH. Qed.
Lemma length_bytes s : List.length (bytes s) = String.length s.
Proof. induction s as [|a s IH]; [done|]. simpl. by rewrite IH. Qed.

(** Where the lines of a text start. *)
Fixpoint offset_of (ls : list string) : nat := match ls with [] => 0 | l :: ls' => S (String.length l) + offset_of ls' end.
Lemma line_starts_app w s off :
  contains newline w = false →
  line_starts_from off (w +:+ String newline s) = S (off + String.length w) :: line_starts_from (S (off + String.length w)) s.
Proof.
  revert off. induction w as [|a w IH]; intros off Hw.
  - change ("" +:+ String newline s) with (String newline s). cbn [line_starts_from]. rewrite decide_True by done. simpl. by rewrite Nat.add_0_r.
  - change (String a w +:+ String newline s) with (String a (w +:+ String newline s)). cbn [contains] in Hw.
    apply orb_false_iff in Hw as [Ha Hw]. apply bool_decide_eq_false in Ha. cbn [line_starts_from]. rewrite decide_False by done.
    rewrite IH by done. simpl. by rewrite <-plus_n_Sm.
Qed.
Lemma line_starts_single w off : contains newline w = false → line_starts_from off w = [].
Proof.
  revert off. induction w as [|a w IH]; intros off; [done|]. cbn [contains line_starts_from].
  intros [Ha%bool_decide_eq_false Hw]%orb_false_iff. rewrite decide_False by done. by apply IH.
Qed.
Lemma line_starts_lookup ls off k :
  ls ≠ [] → Forall (λ w, contains newline w = false) ls →
  (off :: line_starts_from off (join_lines ls)) !! k = (if decide (k < List.length ls) then Some (off + offset_of (take k ls)) else None).
Proof.
  revert off k. induction ls as [|l ls IH]; intros off k; [done|]. intros _ [Hl Hls]%Forall_cons. unfold join_lines in *.
  destruct ls as [|l' ls].
  - cbn [String.concat]. rewrite line_starts_single by done. destruct k as [|k]; [simpl; by rewrite Nat.add_0_r|done].
  - rewrite concat_cons, line_starts_app by done. destruct k as [|k]; [simpl; by rewrite Nat.add_0_r|].
    specialize (IH (S (off + String.length l)) k ltac:(done) Hls). etrans; [exact IH|]. cbn [take offset_of List.length].
    destruct (decide (k < S (List.length ls))); [rewrite decide_True by lia; f_equal; lia|by rewrite decide_False by lia].
Qed.
Lemma length_join ls : ls ≠ [] → S (String.length (join_lines ls)) = offset_of ls.
Proof.
  unfold join_lines. induction ls as [|l ls IH]; [done|]. intros _. destruct ls as [|l' ls]; [simpl; lia|].
  rewrite concat_cons, length_append. cbn [String.length]. specialize (IH ltac:(done)). cbn [offset_of] in IH |- *. simpl in *. lia.
Qed.
(** The span of a line range is those lines, joined. *)
Lemma line_span_piece ls1 mid ls2 (content := join_lines (ls1 ++ mid ++ ls2))
    (span := line_range_to_span content (List.length ls1) (List.length mid)) :
  mid ≠ [] → Forall (λ w, contains newline w = false) (ls1 ++ mid ++ ls2) →
  span_start span + span_len span ≤ String.length content ∧
  take (span_len span) (drop (span_start span) (bytes content)) = bytes (join_lines mid).
Proof.
  intros Hmid Hall. assert (Hne : ls1 ++ mid ++ ls2 ≠ []) by (destruct ls1, mid; done).
  assert (Hsplit : ∃ pre post, bytes content = pre ++ bytes (join_lines mid) ++ post ∧
    List.length pre = offset_of ls1 ∧ List.length post = match ls2 with [] => 0 | _ => offset_of ls2 end).
  { exists (match ls1 with [] => [] | _ => bytes (join_lines ls1) ++ [newline] end),
      (match ls2 with [] => [] | _ => newline :: bytes (join_lines ls2) end). split; [|split].
    - unfold content, join_lines. destruct ls1 as [|l1 ls1]; [|rewrite (concat_app newline (l1 :: ls1)) by (destruct mid; done); rewrite bytes_app].
      + cbn [app]. destruct ls2 as [|l2 ls2]; [by rewrite !app_nil_r|]. by rewrite concat_app, bytes_app.
      + destruct ls2 as [|l2 ls2]; [rewrite !app_nil_r, <-app_assoc; done|]. rewrite concat_app by done. rewrite <-app_assoc. f_equal.
        change (newline :: bytes (String.concat (String newline "") mid +:+ String newline (String.concat (String newline "") (l2 :: ls2))) =
          newline :: bytes (String.concat (String newline "") mid) ++ newline :: bytes (String.concat (String newline "") (l2 :: ls2))).
        by rewrite bytes_app.
    - destruct ls1 as [|l1 ls1]; [done|]. rewrite length_app, length_bytes, <-length_join by done. simpl. lia.
    - destruct ls2 as [|l2 ls2]; [done|]. rewrite <-length_join by done. simpl. by rewrite length_bytes. }
  destruct Hsplit as (pre & post & Hb & Hpre & Hpost).
  assert (Hlen : String.length content = offset_of ls1 + String.length (join_lines mid) + List.length post).
  { rewrite <-length_bytes, Hb, !length_app, length_bytes. lia. }
  pose proof (length_join mid Hmid) as Hm.
  assert (Hoff : ∀ l k, offset_of (l ++ k) = offset_of l + offset_of k).
  { induction l as [|x l IHl]; intros k; [done|]. simpl. rewrite IHl. lia. }
  assert (Hstart : line_starts content !! List.length ls1 = Some (offset_of ls1)).
  { unfold line_starts, content. rewrite line_starts_lookup by done. rewrite !length_app. destruct mid as [|m mid]; [done|].
    rewrite decide_True by (simpl; lia). simpl. by rewrite take_app_length. }
  assert (Hspan : span_start span = offset_of ls1 ∧ span_len span = String.length (join_lines mid)).
  { unfold span, line_range_to_span. rewrite Hstart. cbn [default from_option id span_start span_len]. split; [done|].
    unfold line_starts, content at 1. rewrite line_starts_lookup by done. rewrite !length_app.
    case_decide as Hlt.
    - rewrite app_assoc, take_app_length' by (rewrite length_app; lia). rewrite Hoff. lia.
    - destruct ls2; [|simpl in Hlt; lia]. simpl in Hpost. rewrite Hlen. lia. }
  destruct Hspan as [-> ->]. split; [lia|]. rewrite Hb, drop_app_length' by done. by rewrite take_app_length' by (by rewrite length_bytes).
Qed.

(** * Edits *)

(** What an edit takes away: its old text, or whole lines that one of the
    tolerances takes for the lines of its old text. *)
Definition edit_takes (e : EditPair) (old : list ascii) : Prop :=
  old = bytes (old_text e) ∨
  ∃ matched, old = bytes (join_lines matched) ∧ tolerated (lines_of (old_text e)) matched.
Definition edit_fits (e : EditPair) (old new : list ascii) : Prop := edit_takes e old ∧ new = bytes (new_text e).

Lemma locate_unique_match_spec content old i :
  old ≠ [] → locate_unique_match content old = Ok i →
  i + List.length old ≤ List.length content ∧ tolerated old (take (List.length old) (drop i content)).
Proof.
  unfold locate_unique_match. intros Hold. case_decide; [done|]. case_decide; [done|].
  destruct (seek_sequence content old 0 false) as [k|] eqn:Hk; [|done]. intros [= <-].
  destruct (seek_sequence_Some _ _ _ _ Hold Hk) as (_ & ? & ?). done.
Qed.
Lemma resolve_edit_span_spec content e span :
  resolve_edit_span content (old_text e) = Ok span →
  span_start span + span_len span ≤ String.length content ∧
  edit_takes e (take (span_len span) (drop (span_start span) (bytes content))).
Proof.
  unfold resolve_edit_span. case_decide as Hold; [done|]. cbv zeta. case_decide; [done|]. case_decide.
  - destruct (find_str (old_text e) content) as [start|] eqn:Hf; [|done]. intros [= <-]. cbn [span_start span_len].
    destruct (find_str_Some _ _ _ Hf) as (t & u & -> & <-). rewrite !length_append. split; [lia|]. left.
    rewrite !bytes_app, drop_app_length' by (by rewrite length_bytes). apply take_app_length'. by rewrite length_bytes.
  - intros (i & Hi & [= <-])%result_bind_Ok. apply locate_unique_match_spec in Hi as [Hle Htol]; [|apply split_not_nil].
    set (ls := lines_of content) in *. set (n := List.length (lines_of (old_text e))) in *.
    assert (Hls : ls = take i ls ++ take n (drop i ls) ++ drop (i + n) ls) by (by rewrite <-drop_drop, !take_drop).
    assert (Hn : n ≠ 0) by (subst n; intros ?%length_zero_iff_nil; by apply (split_not_nil newline (old_text e))).
    assert (Hcontent : content = join_lines ls) by (symmetry; apply concat_split).
    destruct (line_span_piece (take i ls) (take n (drop i ls)) (drop (i + n) ls)) as [Hb Hpiece].
    + intros Hnil. apply (f_equal List.length) in Hnil. rewrite length_take, length_drop in Hnil. simpl in Hnil. lia.
    + rewrite <-Hls. apply split_no_delim.
    + rewrite <-Hls, <-Hcontent in Hb, Hpiece. rewrite !length_take, length_drop, (Nat.min_l i), (Nat.min_l n) in Hb, Hpiece by lia.
      split; [done|]. right. by exists (take n (drop i ls)).
Qed.
Lemma resolve_all_spec content k edits spans :
  resolve_all content k edits = Ok spans →
  snd <$> spans = edits ∧ Forall (λ x, resolve_edit_span content (old_text x.2) = Ok (span_of x)) spans.
Proof.
  revert k spans. induction edits as [|e edits IH]; intros k spans; cbn [resolve_all]; [by intros [= <-]|].
  destruct (resolve_edit_span content (old_text e)) as [span|] eqn:Hs; [|done].
  intros (tail & Ht & [= <-])%result_bind_Ok. destruct (IH _ _ Ht) as [<- ?]. split; [done|]. by constructor.
Qed.
Lemma check_overlaps_apart spans :
  check_overlaps spans = Ok () → ∀ pos, (∀ x, head spans = Some x → pos ≤ span_start (span_of x)) → apart_from pos (replacement_of <$> spans).
Proof.
  induction spans as [|x spans IH]; [done|]. intros Hc pos Hpos. split; [by apply Hpos|]. destruct spans as [|y spans]; [done|].
  cbn [check_overlaps] in Hc. case_decide; [done|]. apply IH; [done|]. intros z [= <-]. simpl. lia.
Qed.

(** C38: applying a batch of edits never panics.  When it succeeds, the new content is the old one with
    one piece replaced per edit, in order and apart from each other, and nothing else changed; each
    piece is the old text of its edit, or whole lines taken for it by one of the tolerances. *)
Theorem edits_applied_exactly (content : string) (edits : list EditPair) :
  (∃ r, apply_edits_to_content content edits = Some r) ∧
  (∀ out, apply_edits_to_content content edits = Some (Ok out) →
     ∃ es, es ≡ₚ edits ∧ woven edit_fits es (bytes content) (bytes out)).
Proof.
  unfold apply_edits_to_content. destruct (resolve_all content 0 edits) as [spans|e] eqn:Hr; [|split; [by eexists|done]].
  apply resolve_all_spec in Hr as [Hedits Hspans]. cbv zeta. set (sorted := sort_by_key _ spans).
  assert (Hperm : sorted ≡ₚ spans) by apply sort_by_key_Permutation. rewrite <-Hperm in Hspans.
  destruct (check_overlaps sorted) as [[]|e] eqn:Hc; [|split; [by eexists|done]].
  destruct (splice_all_woven (bytes content) (replacement_of <$> sorted)) as (m & Hm & Hw).
  - apply check_overlaps_apart; [done|]. intros; lia.
  - apply Forall_fmap, (Forall_impl _ _ _ Hspans). intros x Hx. apply resolve_edit_span_spec in Hx as [Hx _].
    unfold inside. simpl. by rewrite length_bytes.
  - rewrite Hm. split; [by eexists|]. intros out [= <-]. exists (snd <$> sorted). split; [by rewrite Hperm, Hedits|].
    rewrite String.list_ascii_of_string_of_list_ascii. refine (woven_impl _ _ _ _ _ _ _ Hw).
    apply Forall2_fmap, Forall_Forall2_diag, (Forall_impl _ _ _ Hspans). intros x Hx old new [-> ->].
    split; [|done]. by apply resolve_edit_span_spec in Hx as [_ Hx].
Qed.
End matching.

(** * Witness and example *)

(** Occurrences are counted apart from each other, so an old text that overlaps
    itself counts once, and the edit takes the first place. *)
Example overlapping_text_is_unique :
  count_matches "aa" "aaa" = 1 ∧
  apply_edits_to_content id "aaa" [{| old_text := "aa"; new_text := "b" |}] = Some (Ok "ba").
Proof. vm_compute. done. Qed.
Example tolerant_edit :
  apply_edits_to_content id (join_lines ["fn f() {"; "  x  "; "}"]) [{| old_text := join_lines ["x "; "}"]; new_text := join_lines ["  y"; "}"] |}; {| old_text := "fn f"; new_text := "fn g" |}]
  = Some (Ok (join_lines ["fn g() {"; "  y"; "}"])).
Proof. vm_compute. done. Qed.
Lemma edits_applied_exactly_witness :
  let content := join_lines ["fn f() {"; "  x  "; "}"] in
  let edits := [{| old_text := join_lines ["x "; "}"]; new_text := join_lines ["  y"; "}"] |}; {| old_text := "fn f"; new_text := "fn g" |}] in
  ∃ es, es ≡ₚ edits ∧ woven (edit_fits id) es (String.list_ascii_of_string content)
    (String.list_ascii_of_string (join_lines ["fn g() {"; "  y"; "}"])).
Proof.
  cbv zeta. apply (edits_applied_exactly id (join_lines ["fn f() {"; "  x  "; "}"])
    [{| old_text := join_lines ["x "; "}"]; new_text := join_lines ["  y"; "}"] |}; {| old_text := "fn f"; new_text := "fn g" |}]).
  vm_compute. reflexivity.
Defined.
