(* ===== verification/Worklist.v ===== *)
(** Breadth-first worklists.

    Four places of the source run the same loop: [reachable_from]
    (wf-workflow/src/graph.rs), [get_reachable_nodes] and
    [get_nodes_reaching_to] (wf-workflow/src/analysis.rs) and the migration
    search of checkpoint-base/src/version_manager.rs.  Each pops the front of
    a [VecDeque], scans the successors of the popped element in order, and
    pushes those whose [HashSet::insert] reports them as new.  This file has
    the loop over an arbitrary successor function, with the two facts every
    client needs: enough fuel gives a result, and the result is exactly the
    reflexive transitive closure of the successor relation. *)

From S2P Require Import Prelude.

Section worklist.
  Context `{Countable A}.
  Variable succ : A → list A.

(** One iteration of the inner loop: [if visited.insert(next) { queue.push_back(next) }]. *)
Definition visit (st : list A * gset A) (next : A) : list A * gset A :=
  let '(queue, visited) := st in
  if decide (next ∈ visited) then (queue, visited)
  else (queue ++ [next], {[next]} ∪ visited).

(** The outer loop: [while let Some(current) = queue.pop_front()].  [None]
    means the fuel ran out. *)
Fixpoint bfs (fuel : nat) (queue : list A) (visited : gset A) : option (gset A) :=
  match queue, fuel with
  | [], _ => Some visited
  | _ :: _, 0 => None
  | current :: queue', S fuel' =>
      let '(queue'', visited') := foldl visit (queue', visited) (succ current) in
      bfs fuel' queue'' visited'
  end.

(** The edge relation the loop follows. *)
Definition step (x y : A) : Prop := y ∈ succ x.

(** What one scan of a successor list does to queue and visited set. *)
Lemma visit_all_spec l q v q' v' :
  foldl visit (q, v) l = (q', v') →
  v' = v ∪ list_to_set l ∧
  (∃ new, q' = q ++ new ∧ list_to_set new = v' ∖ v ∧ NoDup new).
Proof.
  revert q v. induction l as [|x l IH]; intros q v; simpl.
  - intros [= <- <-]. split; [set_solver|].
    exists []. split; [by rewrite app_nil_r|]. split; [set_solver|constructor].
  - case_decide as Hx.
    + intros Hf. apply IH in Hf as (-> & new & -> & Hnew & Hnd).
      split; [set_solver|]. exists new. split; [done|]. split; [set_solver|done].
    + intros Hf. apply IH in Hf as (-> & new & -> & Hnew & Hnd).
      split; [set_solver|]. exists (x :: new).
      rewrite <-app_assoc. split; [done|]. split.
      * simpl. rewrite Hnew. apply set_eq. intros y.
        destruct (decide (y = x)); set_solver.
      * constructor; [|done]. rewrite <-(elem_of_list_to_set (C:=gset A)), Hnew. set_solver.
Qed.

(** The loop invariant: everything queued is visited, and every visited
    element no longer queued has all its successors visited. *)
Definition wl_inv (q : list A) (v : gset A) : Prop :=
  (∀ x, x ∈ q → x ∈ v) ∧ (∀ x y, x ∈ v → x ∉ q → step x y → y ∈ v).

Lemma wl_inv_step x q v q' v' :
  wl_inv (x :: q) v → foldl visit (q, v) (succ x) = (q', v') → wl_inv q' v'.
Proof.
  intros [Hq Hcl] (-> & new & -> & Hnew & _)%visit_all_spec. split.
  - intros y [Hy|Hy]%elem_of_app; [set_solver|].
    rewrite <-(elem_of_list_to_set (C:=gset A)), Hnew in Hy. set_solver.
  - intros y z Hy Hyq Hz. apply not_elem_of_app in Hyq as [Hyq Hyn].
    rewrite <-(elem_of_list_to_set (C:=gset A)), Hnew in Hyn.
    assert (Hyv : y ∈ v) by (clear -Hy Hyn; set_solver).
    destruct (decide (y = x)) as [->|Hne].
    + apply elem_of_union_r, elem_of_list_to_set, Hz.
    + apply elem_of_union_l, (Hcl y); [done| |done]. by apply not_elem_of_cons.
Qed.

(** The result contains the start set, is closed under [step] and holds
    nothing unreachable from the start set. *)
Lemma bfs_closure fuel q v r :
  wl_inv q v → bfs fuel q v = Some r →
  v ⊆ r ∧ (∀ x y, x ∈ r → step x y → y ∈ r) ∧ (∀ y, y ∈ r → ∃ x, x ∈ v ∧ rtc step x y).
Proof.
  revert q v. induction fuel as [|fuel IH]; intros [|x q] v Hinv Hb; simplify_eq/=.
  1,2: split; [done|]; split; [|eauto using rtc_refl];
    intros a b Ha Hs; eapply (proj2 Hinv); eauto using not_elem_of_nil.
  destruct (foldl visit (q, v) (succ x)) as [q' v'] eqn:Hf.
  destruct (IH _ _ (wl_inv_step _ _ _ _ _ Hinv Hf) Hb) as (Hsub & Hcl & Hre).
  apply visit_all_spec in Hf as (-> & _).
  split; [set_solver|]. split; [done|].
  intros y (z & [Hz|Hz]%elem_of_union & Hzy)%Hre; [eauto|].
  exists x. split; [by apply Hinv; left|].
  eapply rtc_l; [|done]. by apply elem_of_list_to_set in Hz.
Qed.

(** Fuel: each iteration pops one element, and each element of a finite
    closed universe [U] is pushed at most once. *)
Lemma bfs_enough_fuel fuel q v (U : gset A) :
  wl_inv q v → v ⊆ U → (∀ x y, x ∈ U → step x y → y ∈ U) →
  length q + size (U ∖ v) ≤ fuel → is_Some (bfs fuel q v).
Proof.
  revert q v. induction fuel as [|fuel IH]; intros [|x q] v Hinv HvU HU Hle; simpl in *;
    try (by eexists); [lia|].
  destruct (foldl visit (q, v) (succ x)) as [q' v'] eqn:Hf.
  assert (HxU : x ∈ U) by (apply HvU, Hinv; left).
  pose proof (wl_inv_step _ _ _ _ _ Hinv Hf) as Hinv'.
  apply visit_all_spec in Hf as (Hv' & new & -> & Hnew & Hnd).
  assert (Hv'U : v' ⊆ U).
  { rewrite Hv'. apply union_least; [done|].
    intros y Hy%elem_of_list_to_set. by apply (HU x). }
  apply IH; [done..|]. rewrite length_app.
  assert (length new = size (v' ∖ v)) as ->.
  { rewrite <-Hnew. symmetry. by apply size_list_to_set. }
  assert (U ∖ v = (v' ∖ v) ∪ (U ∖ v')) as Hsplit.
  { apply set_eq. intros y. destruct (decide (y ∈ v')); set_solver. }
  rewrite Hsplit, size_union in Hle by set_solver. lia.
Qed.

(** The usual call: one start element, itself the only visited one. *)
Lemma bfs_from_spec fuel s r :
  bfs fuel [s] {[s]} = Some r → ∀ y, y ∈ r ↔ rtc step s y.
Proof.
  intros Hb.
  assert (Hinv : wl_inv [s] {[s]}) by (split; set_solver).
  destruct (bfs_closure _ _ _ _ Hinv Hb) as (Hsub & Hcl & Hre). intros y. split.
  - intros (x & Hx & Hxy)%Hre. by apply elem_of_singleton in Hx as ->.
  - intros Hr. assert (Hs : s ∈ r) by set_solver.
    clear -Hr Hs Hcl. induction Hr; eauto.
Qed.

Lemma bfs_from_total fuel s (U : gset A) :
  s ∈ U → (∀ x y, x ∈ U → step x y → y ∈ U) → size U ≤ fuel →
  is_Some (bfs fuel [s] {[s]}).
Proof.
  intros Hs HU Hf. apply (bfs_enough_fuel _ _ _ U); [split; set_solver|set_solver|done|].
  rewrite size_difference by set_solver. rewrite size_singleton. simpl.
  assert (1 ≤ size U); [|lia].
  rewrite <-(size_singleton (C:=gset A) s). apply subseteq_size. set_solver.
Qed.

End worklist.

#[export] Hint Resolve wl_inv_step : wf.
