(* ===== verification/Json.v ===== *)
(** JSON values as the source consumes them.

    The source matches on the public constructors of [serde_json::Value] and
    calls its documented accessors.  The workspace does not enable
    [preserve_order], so an object is iterated in the order of its keys; an
    object is an association list that the model keeps sorted by key. *)

From S2P Require Import Prelude.

(** A JSON number is a non-negative integer, a negative integer or a float
    (kept as its bit pattern: nothing in the model computes with it). *)
Inductive number : Type :=
| PosInt (z : Z)
| NegInt (z : Z)
| Float (bits : Z).

Inductive value : Type :=
| VNull
| VBool (b : bool)
| VNumber (n : number)
| VString (s : string)
| VArray (items : list value)
| VObject (map : list (string * value)).

(** [Value::get] with a string index: a member of an object, [None] on any
    other shape. *)
Definition get (v : value) (key : string) : option value :=
  match v with
  | VObject m => (λ r, r.2.2) <$> list_find (λ kv, kv.1 = key) m
  | _ => None
  end.

(** [as_bool], [as_u64], [as_str], [as_array], [is_null] *)
Definition as_bool (v : value) : option bool :=
  match v with VBool b => Some b | _ => None end.
Definition as_u64 (v : value) : option Z :=
  match v with VNumber (PosInt z) => Some z | _ => None end.
Definition as_i64 (v : value) : option Z :=
  match v with
  | VNumber (PosInt z) => if decide (z ≤ i64_max)%Z then Some z else None
  | VNumber (NegInt z) => Some z
  | _ => None
  end.
Definition as_str (v : value) : option string :=
  match v with VString s => Some s | _ => None end.
Definition as_array (v : value) : option (list value) :=
  match v with VArray l => Some l | _ => None end.
Definition is_null (v : value) : bool :=
  match v with VNull => true | _ => false end.


(** * Equality

    [PartialEq] of [serde_json::Value]; objects are compared as the sorted
    association lists they are. *)

#[export] Instance number_eq_dec : EqDecision number.
Proof. solve_decision. Defined.

Fixpoint value_eqb (v w : value) : bool :=
  let fix items_eqb (l k : list value) : bool :=
    match l, k with
    | [], [] => true
    | x :: l', y :: k' => value_eqb x y && items_eqb l' k'
    | _, _ => false
    end in
  let fix map_eqb (l k : list (string * value)) : bool :=
    match l, k with
    | [], [] => true
    | (a, x) :: l', (b, y) :: k' => bool_decide (a = b) && value_eqb x y && map_eqb l' k'
    | _, _ => false
    end in
  match v, w with
  | VNull, VNull => true
  | VBool b, VBool c => Bool.eqb b c
  | VNumber n, VNumber m => bool_decide (n = m)
  | VString s, VString t => bool_decide (s = t)
  | VArray l, VArray k => items_eqb l k
  | VObject l, VObject k => map_eqb l k
  | _, _ => false
  end.

Lemma value_eqb_eq : ∀ v w, value_eqb v w = true ↔ v = w.
Proof.
  fix IH 1. intros v w. destruct v as [|b|n|s|l|l], w as [|c|m|t|k|k]; simpl;
    try (by split); try (rewrite bool_decide_eq_true; split; congruence).
  - rewrite Bool.eqb_true_iff. split; congruence.
  - revert k. induction l as [|x l IHl]; intros [|y k]; try (by split).
    rewrite andb_true_iff, IH, IHl. split; [intros [-> [= ->]]; done|intros [= -> ->]; done].
  - revert k. induction l as [|[a x] l IHl]; intros [|[b y] k]; try (by split).
    rewrite !andb_true_iff, bool_decide_eq_true, IH, IHl.
    split; [intros [[-> ->] [= ->]]; done|intros [= -> -> ->]; done].
Qed.

#[export] Instance value_eq_dec : EqDecision value.
Proof.
  intros v w. refine (cast_if (decide (value_eqb v w = true))); by rewrite <-value_eqb_eq.
Defined.

(** An object built from a hash map, and read back into one. *)
Definition entry_le (a b : string * value) : Prop := String.le a.1 b.1.
#[export] Instance entry_le_dec : RelDecision entry_le.
Proof. unfold entry_le. intros a b. apply _. Defined.

Definition object_of (m : gmap string value) : value := VObject (merge_sort entry_le (map_to_list m)).

(** [serde_json::from_value::<HashMap<String, Value>>] *)
Definition as_map (v : value) : option (gmap string value) :=
  match v with VObject l => Some (list_to_map l) | _ => None end.

Lemma as_map_object_of m : as_map (object_of m) = Some m.
Proof.
  unfold as_map, object_of. f_equal. rewrite <-(list_to_map_to_list m) at 2.
  apply list_to_map_proper.
  - rewrite (merge_sort_Permutation entry_le). apply NoDup_fst_map_to_list.
  - apply merge_sort_Permutation.
Qed.

(** * Serialisation *)

(** [Serialize] and [DeserializeOwned] of a field type. *)
Class Serde (A : Type) : Type := {
  to_value : A → value;
  from_value : value → option A;
}.
(** [i64] and [u64] as they are written. *)
Definition i64_to_value (z : Z) : value := VNumber (if decide (z < 0)%Z then NegInt z else PosInt z).
Definition u64_to_value (z : Z) : value := VNumber (PosInt z).
Lemma as_i64_to_value z : (i64_min ≤ z ≤ i64_max)%Z → as_i64 (i64_to_value z) = Some z.
Proof. intros Hz. unfold i64_to_value. case_decide; [done|]. simpl. by rewrite decide_True by lia. Qed.
(** An optional field: left out when [None] ([skip_serializing_if]), read from a
    member that is missing or [null] as [None]. *)
Definition optional_entry {A} (key : string) (f : A → value) (o : option A) : list (string * value) :=
  match o with Some a => [(key, f a)] | None => [] end.
Definition optional_member {A} (v : value) (key : string) (f : value → option A) : option (option A) :=
  match get v key with None | Some VNull => Some None | Some w => Some <$> f w end.

Lemma get_member k v m key : get (VObject ((k, v) :: m)) key = if String.eqb k key then Some v else get (VObject m) key.
Proof.
  unfold get. cbn. destruct (String.eqb_spec k key); [by rewrite decide_True|rewrite decide_False by done]. by destruct (list_find _ m) as [[]|].
Qed.
Lemma get_optional {A} k (f : A → value) o m key :
  get (VObject (optional_entry k f o ++ m)) key =
    if String.eqb k key then match o with Some a => Some (f a) | None => get (VObject m) key end else get (VObject m) key.
Proof. destruct o; cbn [optional_entry app]; [apply get_member|by destruct (String.eqb k key)]. Qed.

(** A type whose derived implementations round trip on every value, none written as
    [null].  A struct of strings, integers, enums and options of them is such a
    type; one with an [Option] of a JSON value is not, because [Some(Null)] is
    read back as [None]. *)
Class SerdeLaws (A : Type) `{Serde A} : Prop := {
  from_to_value : ∀ a, from_value (to_value a) = Some a;
  to_value_not_null : ∀ a, is_null (to_value a) = false;
}.

(** [Option<T>] is [null] or the value; [Vec<T>] is an array. *)
Definition option_to_value {A} (f : A → value) (o : option A) : value :=
  match o with Some a => f a | None => VNull end.
Definition vec_to_value {A} (f : A → value) (l : list A) : value := VArray (f <$> l).
Definition vec_from_value {A} (f : value → option A) (v : value) : option (list A) :=
  match v with VArray l => mapM f l | _ => None end.

Lemma vec_roundtrip {A} `{Serde A} (l : list A) :
  (∀ a, from_value (to_value a) = Some a) →
  vec_from_value from_value (vec_to_value to_value l) = Some l.
Proof. intros Ha. simpl. by apply mapM_fmap_Some. Qed.
