(* ===== verification/Numbers.v ===== *)
(** Machine numbers of the evaluators: parsing of integers and of decimal
    floats, the numbers of [serde_json] and the 64-bit IEEE arithmetic on them.

    The floats are those of the Standard Library's [SpecFloat], which computes
    with exact integers; a JSON float is kept as the 64 bits of its encoding. *)

From S2P Require Import Prelude Strings Json.
From Stdlib Require Export SpecFloat.

(** * Integers *)

Definition is_ascii_digit (c : ascii) : bool :=
  let n := nat_of_ascii c in bool_decide (48 ≤ n ∧ n ≤ 57).
Definition is_ascii_alphabetic (c : ascii) : bool :=
  let n := nat_of_ascii c in bool_decide (65 ≤ n ∧ n ≤ 90 ∨ 97 ≤ n ∧ n ≤ 122).
Definition is_ascii_alphanumeric (c : ascii) : bool := is_ascii_alphabetic c || is_ascii_digit c.

Definition digit_value (c : ascii) : Z := Z.of_nat (nat_of_ascii c) - 48.
(** The value of a string of digits. *)
Fixpoint digits_value (acc : Z) (s : string) : option Z :=
  match s with
  | EmptyString => Some acc
  | String c s' => if is_ascii_digit c then digits_value (10 * acc + digit_value c) s' else None
  end.
Definition parse_digits (s : string) : option Z :=
  match s with EmptyString => None | _ => digits_value 0 s end.

(** [str::parse::<usize>] and [str::parse::<i64>]: one optional sign, at least
    one digit, and a value in range. *)
Definition parse_usize (s : string) : option Z :=
  n ← parse_digits (match s with String "+" s' => s' | _ => s end);
  if decide (n <= u64_max)%Z then Some n else None.
Definition parse_i64 (s : string) : option Z :=
  n ← match s with
      | String "+" s' => parse_digits s'
      | String "-" s' => Z.opp <$> parse_digits s'
      | _ => parse_digits s
      end;
  if decide (i64_min <= n <= i64_max)%Z then Some n else None.

(** The decimal text of an integer. *)
Fixpoint decimal (fuel : nat) (z : Z) (acc : string) : string :=
  match fuel with
  | 0 => acc
  | S fuel' =>
      let acc' := String (ascii_of_nat (48 + Z.to_nat (z mod 10))) acc in
      if decide (z < 10)%Z then acc' else decimal fuel' (z / 10) acc'
  end.
Definition show_nat (z : Z) : string := decimal (S (Z.to_nat (Z.log2_up (z + 1)))) z "".
Definition show_int (z : Z) : string := if decide (z < 0)%Z then String "-" (show_nat (- z)) else show_nat z.

(** * Floats *)

Notation f64 := spec_float.
Definition f64_of_Z (z : Z) : f64 := binary_normalize 53 1024 z 0 false.
Definition f64_add := SFadd 53 1024.
Definition f64_sub := SFsub 53 1024.
Definition f64_mul := SFmul 53 1024.
Definition f64_div := SFdiv 53 1024.
(** The remainder of [%] on floats, which is exact and has the sign of the
    dividend. *)
Definition f64_rem (x y : f64) : f64 :=
  match x, y with
  | S754_nan, _ | _, S754_nan | S754_infinity _, _ | _, S754_zero _ => S754_nan
  | S754_zero _, _ | _, S754_infinity _ => x
  | S754_finite sx mx ex, S754_finite _ my ey =>
      let e := Z.min ex ey in
      let r := ((Z.pos mx * 2 ^ (ex - e)) mod (Z.pos my * 2 ^ (ey - e)))%Z in
      binary_normalize 53 1024 (cond_Zopp sx r) e sx
  end.
Definition f64_compare : f64 → f64 → option comparison := SFcompare.
Definition f64_eq (x y : f64) : bool := bool_decide (f64_compare x y = Some Eq).
Definition f64_is_zero (x : f64) : bool := f64_eq x (S754_zero false).
Definition f64_opp : f64 → f64 := SFopp.

(** [f64::to_bits] and [f64::from_bits] *)
Definition f64_to_bits (x : f64) : Z :=
  let sign (s : bool) := (if s then 2 ^ 63 else 0)%Z in
  match x with
  | S754_zero s => sign s
  | S754_infinity s => sign s + 2047 * 2 ^ 52
  | S754_nan => 2047 * 2 ^ 52 + 2 ^ 51
  | S754_finite s m e =>
      if decide (Z.pos m < 2 ^ 52) then sign s + Z.pos m
      else sign s + (e + 1075) * 2 ^ 52 + (Z.pos m - 2 ^ 52)
  end%Z.
Definition f64_from_bits (b : Z) : f64 :=
  let s := Z.testbit b 63 in
  let e := Z.land (Z.shiftr b 52) 2047 in
  let m := Z.land b (2 ^ 52 - 1) in
  if decide (e = 2047%Z) then (if decide (m = 0%Z) then S754_infinity s else S754_nan)
  else
    let (m', e') := (if decide (e = 0%Z) then (m, -1074) else (m + 2 ^ 52, e - 1075))%Z in
    match m' with Z.pos p => S754_finite s p e' | _ => S754_zero s end.

(** * Numbers of [serde_json] *)

(** [Number::from(i64)], [Number::from_f64], [Number::as_f64] *)
Definition number_of_i64 (z : Z) : number := if decide (z < 0)%Z then NegInt z else PosInt z.
Definition number_of_f64 (x : f64) : option number :=
  match x with S754_nan | S754_infinity _ => None | _ => Some (Float (f64_to_bits x)) end.
Definition number_f64 (n : number) : f64 :=
  match n with PosInt z | NegInt z => f64_of_Z z | Float b => f64_from_bits b end.
Definition as_f64 (v : value) : option f64 :=
  match v with VNumber n => Some (number_f64 n) | _ => None end.

(** [PartialEq] of values, on which the two zeros are the same. *)
Fixpoint same_zero (v : value) : value :=
  match v with
  | VNumber (Float b) => VNumber (Float (if f64_is_zero (f64_from_bits b) then 0 else b))
  | VArray l => VArray (same_zero <$> l)
  | VObject m => VObject (prod_map id same_zero <$> m)
  | other => other
  end.
Definition value_eq (a b : value) : bool := bool_decide (same_zero a = same_zero b).

(** * Decimal floats

    [str::parse::<f64>]: an optional sign, then one of the names of the special
    values in any case, or digits with an optional point and an optional
    exponent; the result is the nearest float. *)
Definition to_ascii_lowercase_char (c : ascii) : ascii :=
  let n := nat_of_ascii c in if decide (65 ≤ n ∧ n ≤ 90) then ascii_of_nat (n + 32) else c.
Fixpoint to_ascii_lowercase (s : string) : string :=
  match s with EmptyString => "" | String c s' => String (to_ascii_lowercase_char c) (to_ascii_lowercase s') end.

Definition round_decimal (s : bool) (m e : Z) : f64 :=
  match m with
  | Z.pos p =>
      if decide (0 <= e)%Z then binary_normalize 53 1024 (cond_Zopp s (m * 10 ^ e)) 0 s
      else match (10 ^ (- e))%Z with
           | Z.pos q => SFdiv 53 1024 (S754_finite s p 0) (S754_finite false q 0)
           | _ => S754_zero s
           end
  | _ => S754_zero s
  end.
(** The digits at the front of a string: their value, their number, the rest. *)
Fixpoint take_digits (acc : Z) (n : nat) (s : string) : Z * nat * string :=
  match s with
  | String c s' => if is_ascii_digit c then take_digits (10 * acc + digit_value c) (S n) s' else (acc, n, s)
  | EmptyString => (acc, n, "")
  end.
Definition parse_exponent (s : string) : option Z :=
  match s with
  | EmptyString => Some 0%Z
  | String c s' =>
      if decide (c = "e"%char ∨ c = "E"%char) then
        match s' with
        | String "-" t => Z.opp <$> parse_digits t
        | String "+" t => parse_digits t
        | t => parse_digits t
        end
      else None
  end.
Definition parse_unsigned_f64 (sign : bool) (s : string) : option f64 :=
  let name := to_ascii_lowercase s in
  if decide (name = "nan") then Some S754_nan
  else if decide (name = "inf" ∨ name = "infinity") then Some (S754_infinity sign)
  else
    let '(m, n, rest) := take_digits 0 0 s in
    let '(m', k, rest') :=
      match rest with
      | String "." t => let '(m', n', rest') := take_digits m n t in (m', n', rest')
      | _ => (m, n, rest)
      end in
    if decide (k = 0) then None
    else e ← parse_exponent rest'; Some (round_decimal sign m' (e - Z.of_nat (k - n))).
Definition parse_f64 (s : string) : option f64 :=
  match s with
  | String "-" t => parse_unsigned_f64 true t
  | String "+" t => parse_unsigned_f64 false t
  | _ => parse_unsigned_f64 false s
  end.

Example parse_f64_examples :
  (f64_to_bits <$> parse_f64 "0.1" = Some 0x3FB999999999999A)%Z ∧
  (f64_to_bits <$> parse_f64 "-2.5e3" = Some 0xC0A3880000000000)%Z ∧
  (f64_to_bits <$> parse_f64 "5e-324" = Some 1)%Z ∧
  (f64_to_bits <$> parse_f64 "1.7976931348623157e308" = Some 0x7FEFFFFFFFFFFFFF)%Z ∧
  (f64_to_bits <$> parse_f64 "9007199254740993" = Some 0x4340000000000000)%Z ∧
  parse_f64 "." = None ∧ parse_f64 "1.2.3" = None ∧ parse_f64 "1e" = None.
Proof. by vm_compute. Qed.

(** * Lemmas *)

Lemma digits_value_app acc s t :
  digits_value acc (s +:+ t) = digits_value acc s ≫= λ a, digits_value a t.
Proof.
  revert acc. induction s as [|c s IH]; intros acc; [done|].
  change (String c s +:+ t) with (String c (s +:+ t)). cbn [digits_value].
  destruct (is_ascii_digit c); [apply IH|done].
Qed.
Lemma digit_char_value d : (0 <= d < 10)%Z → digit_value (ascii_of_nat (48 + Z.to_nat d)) = d.
Proof. intros H. unfold digit_value. rewrite nat_ascii_embedding by lia. lia. Qed.
Lemma digit_char_digit d : (0 <= d < 10)%Z → is_ascii_digit (ascii_of_nat (48 + Z.to_nat d)) = true.
Proof. intros H. unfold is_ascii_digit. rewrite nat_ascii_embedding by lia. apply bool_decide_eq_true_2. lia. Qed.

(** The decimal text of a natural number: digits that read back as the number. *)
Fixpoint all_digits (s : string) : bool :=
  match s with EmptyString => true | String c s' => is_ascii_digit c && all_digits s' end.
Lemma decimal_spec fuel z acc :
  (0 <= z < 2 ^ Z.of_nat fuel)%Z → fuel ≠ 0 →
  ∃ c d, decimal fuel z acc = String c d +:+ acc ∧ all_digits (String c d) = true ∧
         digits_value 0 (String c d) = Some z.
Proof.
  revert z acc. induction fuel as [|fuel IH]; intros z acc Hz Hf; [done|]. cbn [decimal].
  case_decide as Hlt.
  - exists (ascii_of_nat (48 + Z.to_nat (z mod 10))), "". rewrite Z.mod_small by lia.
    cbn [all_digits digits_value]. rewrite !digit_char_digit, digit_char_value by lia. done.
  - assert (0 <= z / 10 < 2 ^ Z.of_nat fuel)%Z as Hz'.
    { split; [apply Z.div_pos; lia|]. apply Z.div_lt_upper_bound; [lia|].
      rewrite Nat2Z.inj_succ, Z.pow_succ_r in Hz by lia. lia. }
    destruct (IH (z / 10)%Z (String (ascii_of_nat (48 + Z.to_nat (z mod 10))) acc) Hz') as (c & d & -> & Hd & Hv).
    { intros ->. cbn in Hz'. lia. }
    pose proof (Z.mod_pos_bound z 10 ltac:(lia)) as Hm.
    exists c, (d +:+ String (ascii_of_nat (48 + Z.to_nat (z mod 10))) ""). split.
    { rewrite <-append_cons, append_assoc. done. }
    split.
    + assert (∀ s t, all_digits (s +:+ t) = all_digits s && all_digits t) as Happ.
      { intros s t. induction s as [|a s IHs]; [done|]. rewrite append_cons. cbn [all_digits].
        by rewrite IHs, andb_assoc. }
      rewrite <-append_cons, Happ, Hd. cbn [all_digits]. by rewrite digit_char_digit.
    + rewrite <-append_cons, digits_value_app, Hv. cbn [mbind option_bind digits_value].
      rewrite digit_char_digit, digit_char_value by lia. f_equal.
      pose proof (Z.div_mod z 10 ltac:(lia)). lia.
Qed.
Lemma show_nat_spec z :
  (0 <= z)%Z → ∃ c d, show_nat z = String c d ∧ all_digits (String c d) = true ∧
    digits_value 0 (String c d) = Some z.
Proof.
  intros Hz. unfold show_nat.
  destruct (decimal_spec (S (Z.to_nat (Z.log2_up (z + 1)))) z "") as (c & d & -> & Hd); [|done|].
  - split; [done|]. rewrite Nat2Z.inj_succ, Z2Nat.id by apply Z.log2_up_nonneg.
    rewrite Z.pow_succ_r by apply Z.log2_up_nonneg.
    destruct (decide (z = 0%Z)) as [->|]; [done|].
    pose proof (Z.log2_up_spec (z + 1) ltac:(lia)). lia.
  - exists c, d. by rewrite append_nil_r.
Qed.
(** [parse] reads back what [to_string] prints. *)
Lemma parse_show_nat z : (0 <= z <= i64_max)%Z → parse_i64 (show_nat z) = Some z.
Proof.
  intros Hz. destruct (show_nat_spec z) as (c & d & -> & Hd & Hv); [lia|].
  cbn [all_digits] in Hd. apply andb_true_iff in Hd as [Hc _].
  assert (parse_digits (String c d) = Some z) as Hp by done.
  unfold parse_i64.
  assert (match String c d with String "+" s' => parse_digits s' | String "-" s' => Z.opp <$> parse_digits s'
          | _ => parse_digits (String c d) end = Some z) as ->.
  { destruct c as [[] [] [] [] [] [] [] []]; first [exact Hp|discriminate Hc]. }
  cbn [mbind option_bind]. apply decide_True. unfold i64_min, i64_max in *. lia.
Qed.
