(* ===== verification/ToolErrors.v ===== *)
(** The errors of tools: wf-tools/src/error.rs.  [patch.rs] refuses with two of
    them; the agent engine classifies them all. *)

From S2P Require Import Prelude Strings Numbers.

(** Errors of other crates are the texts they display; an HTTP error keeps the
    status it may carry. *)
Inductive ToolError : Type :=
| NotFound (tool : string)
| ExecutionFailed (tool_id reason : string)
| ValidationFailed (message : string)
| ToolTimeout (tool_id : string) (timeout_ms : Z)
| ToolCancelled (tool_id : string)
| RetryExhausted (tool_id : string) (retries : Z)
| McpError (message : string)
| TransportError (message : string)
| ConnectionFailed (server reason : string)
| RestError (url : string) (http_status : Z)
| ToolHttpError (http_status : option Z) (message : string)
| Serialization (message : string)
| Io (message : string)
| CallbackNotRegistered (name : string)
| ToolInternal (message : string)
| ExecutionError (message : string)
| ScopeViolation (tool_id detail : string).

(** [Display] *)
Definition display_tool_error (e : ToolError) : string :=
  match e with
  | NotFound t => "Tool not found: " +:+ t
  | ExecutionFailed id reason => "Tool execution failed: " +:+ id +:+ " - " +:+ reason
  | ValidationFailed m => "Tool validation failed: " +:+ m
  | ToolTimeout id ms => "Tool timeout: " +:+ id +:+ " after " +:+ show_nat ms +:+ "ms"
  | ToolCancelled id => "Tool cancelled: " +:+ id
  | RetryExhausted id n => "Tool retry exhausted: " +:+ id +:+ " after " +:+ show_nat n +:+ " retries"
  | McpError m => "MCP error: " +:+ m
  | TransportError m => "MCP transport error: " +:+ m
  | ConnectionFailed server reason => "MCP connection failed: " +:+ server +:+ " - " +:+ reason
  | RestError url s => "REST tool error: " +:+ url +:+ " - " +:+ show_nat s
  | ToolHttpError _ m => "HTTP error: " +:+ m
  | Serialization m => "Serialization error: " +:+ m
  | Io m => "IO error: " +:+ m
  | CallbackNotRegistered n => "Callback not registered: " +:+ n
  | ToolInternal m => "Internal error: " +:+ m
  | ExecutionError m => "Execution error: " +:+ m
  | ScopeViolation id d => "Scope violation in tool '" +:+ id +:+ "': " +:+ d
  end.
