(* ===== verification/Patch.v ===== *)
(** Patches: wf-tools/src/patch.rs and wf-tools/src/patch/v4a.rs.

    The parser of the [*** Begin Patch] format and the application of the chunks
    of an update to the text of a file.  [None] stands for a panic; the loops
    that drain their input run on fuel, which [parse_patch_total] shows is
    enough.  A printer of documents is the specification of the parser. *)

From S2P Require Import Prelude Strings LineEdit Numbers ToolErrors.

Definition BEGIN_PATCH_MARKER : string := "*** Begin Patch".
Definition END_PATCH_MARKER : string := "*** End Patch".
Definition ADD_FILE_MARKER : string := "*** Add File: ".
Definition DELETE_FILE_MARKER : string := "*** Delete File: ".
Definition UPDATE_FILE_MARKER : string := "*** Update File: ".
Definition MOVE_TO_MARKER : string := "*** Move to: ".
Definition EOF_MARKER : string := "*** End of File".
Definition CHANGE_CONTEXT_MARKER : string := "@@ ".
Definition EMPTY_CHANGE_CONTEXT_MARKER : string := "@@".

Record UpdateFileChunk : Type := {
  change_context : option string;
  old_lines : list string;
  new_lines : list string;
  is_end_of_file : bool;
}.
Inductive PatchOp : Type := AddFile | DeleteFile | UpdateFile.
Record PatchHunk : Type := {
  hunk_op : PatchOp;
  hunk_path : string;
  contents : string;
  move_path : option string;
  hunk_chunks : list UpdateFileChunk;
}.

(** * Parsing *)

Definition at_line (line_number : nat) (message : string) : string :=
  "at line " +:+ show_nat (Z.of_nat line_number) +:+ ": " +:+ message.
Definition quoted (s : string) : string := "'" +:+ s +:+ "'".

Definition forbidden_chars : list string := ["<"; ">"; ":"; String double_quote ""; "|"; "?"; "*"].
Definition validate_path (path : string) (line_number : nat) : result ToolError unit :=
  let trimmed := trim path in
  let refuse m := Err (ValidationFailed ("Invalid patch path " +:+ at_line line_number m)) in
  if decide (trimmed = "") then refuse "path is empty"
  else if starts_with "/" trimmed || bool_decide (chars trimmed !! 1 = Some ":") then
    refuse ("absolute paths are not allowed (" +:+ quoted trimmed +:+ ")")
  else if contains_str ".." trimmed then refuse ("path traversal detected (" +:+ quoted trimmed +:+ ")")
  else if existsb (λ c, bool_decide (c ∈ forbidden_chars)) (chars trimmed) then
    refuse ("filename contains invalid characters (" +:+ quoted trimmed +:+ ")")
  else Ok ().

Definition check_patch_boundaries (lines : list string) : result ToolError unit :=
  match head lines, last lines with
  | Some first, Some last =>
      if decide (trim first ≠ BEGIN_PATCH_MARKER) then
        Err (ValidationFailed "Invalid patch: the first line must be '*** Begin Patch'")
      else if decide (trim last ≠ END_PATCH_MARKER) then
        Err (ValidationFailed "Invalid patch: the last line must be '*** End Patch'")
      else Ok ()
  | _, _ => Err (ValidationFailed "Invalid patch: empty patch")
  end.

Definition no_lines (line_number : nat) : ToolError :=
  ValidationFailed ("Invalid patch " +:+ at_line line_number "update hunk does not contain any lines").
Definition push_old (l : string) (c : UpdateFileChunk) : UpdateFileChunk :=
  {| change_context := change_context c; old_lines := old_lines c ++ [l]; new_lines := new_lines c; is_end_of_file := is_end_of_file c |}.
Definition push_new (l : string) (c : UpdateFileChunk) : UpdateFileChunk :=
  {| change_context := change_context c; old_lines := old_lines c; new_lines := new_lines c ++ [l]; is_end_of_file := is_end_of_file c |}.
Definition mark_end (c : UpdateFileChunk) : UpdateFileChunk :=
  {| change_context := change_context c; old_lines := old_lines c; new_lines := new_lines c; is_end_of_file := true |}.

(** The loop over the lines of a chunk. *)
Fixpoint parse_chunk_lines (lines : list string) (line_number : nat) (chunk : UpdateFileChunk) (parsed : nat) :
    result ToolError (UpdateFileChunk * nat) :=
  match lines with
  | [] => Ok (chunk, parsed)
  | line :: rest =>
      if decide (line = EOF_MARKER) then
        if decide (parsed = 0) then Err (no_lines (line_number + 1)) else Ok (mark_end chunk, S parsed)
      else
        match line with
        | EmptyString => parse_chunk_lines rest line_number (push_new "" (push_old "" chunk)) (S parsed)
        | String c l =>
            if decide (c = " "%char) then parse_chunk_lines rest line_number (push_new l (push_old l chunk)) (S parsed)
            else if decide (c = "+"%char) then parse_chunk_lines rest line_number (push_new l chunk) (S parsed)
            else if decide (c = "-"%char) then parse_chunk_lines rest line_number (push_old l chunk) (S parsed)
            else if decide (parsed = 0) then
              Err (ValidationFailed ("Invalid patch " +:+ at_line (line_number + 1) ("unexpected line " +:+ quoted line +:+
                ". Every line should start with ' ' (context), '+' (added) or '-' (removed)")))
            else Ok (chunk, parsed)
        end
  end.
(** [parse_update_file_chunk] *)
Definition chunk_start (first : string) (line_number : nat) (allow_missing_context : bool) : result ToolError (option string * nat) :=
  if decide (first = EMPTY_CHANGE_CONTEXT_MARKER) then Ok (None, 1)
  else match strip_prefix CHANGE_CONTEXT_MARKER first with
  | Some context => Ok (Some context, 1)
  | None =>
      if allow_missing_context then Ok (None, 0)
      else Err (ValidationFailed ("Invalid patch " +:+ at_line line_number
        ("expected update hunk to start with a '@@' context marker, got " +:+ quoted first)))
  end.
Definition parse_update_file_chunk (lines : list string) (line_number : nat) (allow_missing_context : bool) :
    result ToolError (UpdateFileChunk * nat) :=
  match lines with
  | [] => Err (no_lines line_number)
  | first :: _ =>
      start ← chunk_start first line_number allow_missing_context;
      if decide (List.length lines ≤ start.2) then Err (no_lines (line_number + 1))
      else
        let chunk := {| change_context := start.1; old_lines := []; new_lines := []; is_end_of_file := false |} in
        res ← parse_chunk_lines (drop start.2 lines) line_number chunk 0;
        Ok (res.1, res.2 + start.2)
  end.

(** The lines of an added file. *)
Fixpoint parse_added_lines (lines : list string) (line_number : nat) (contents : string) (parsed : nat) :
    result ToolError (string * nat) :=
  match lines with
  | [] => Ok (contents, parsed)
  | line :: rest =>
      match strip_prefix "+" line with
      | Some content => parse_added_lines rest line_number (contents +:+ content +:+ String newline "") (S parsed)
      | None =>
          if bool_decide (trim line ≠ "") && negb (starts_with "***" line) then
            Err (ValidationFailed ("Invalid patch " +:+ at_line (line_number + parsed)
              ("unexpected content in Add File section: " +:+ quoted line)))
          else Ok (contents, parsed)
      end
  end.
(** [Vec::drain(..n)] *)
Definition drain {A} (n : nat) (l : list A) : option (list A) := if decide (n ≤ List.length l) then Some (drop n l) else None.
(** The loop over the chunks of an update. *)
Fixpoint parse_update_chunks (fuel : nat) (remaining : list string) (line_number parsed : nat) (chunks : list UpdateFileChunk) :
    option (result ToolError (list UpdateFileChunk * nat)) :=
  match fuel, remaining with
  | _, [] => Some (Ok (chunks, parsed))
  | 0, _ => None
  | S fuel, line :: rest =>
      if decide (trim line = "") then parse_update_chunks fuel rest line_number (S parsed) chunks
      else if starts_with "***" line then Some (Ok (chunks, parsed))
      else match parse_update_file_chunk remaining (line_number + parsed) (match chunks with [] => true | _ => false end) with
      | Err e => Some (Err e)
      | Ok (chunk, consumed) =>
          drain consumed remaining ≫= λ rest', parse_update_chunks fuel rest' line_number (parsed + consumed) (chunks ++ [chunk])
      end
  end.

Definition parse_one_hunk (line : string) (rest : list string) (line_number : nat) : option (result ToolError (PatchHunk * nat)) :=
  let first_line := trim line in
  match strip_prefix ADD_FILE_MARKER first_line, strip_prefix DELETE_FILE_MARKER first_line, strip_prefix UPDATE_FILE_MARKER first_line with
  | Some path, _, _ =>
      Some (_ ← validate_path path line_number;
            res ← parse_added_lines rest line_number "" 1;
            Ok ({| hunk_op := AddFile; hunk_path := path; contents := res.1; move_path := None; hunk_chunks := [] |}, res.2))
  | None, Some path, _ =>
      Some (_ ← validate_path path line_number;
            Ok ({| hunk_op := DeleteFile; hunk_path := path; contents := ""; move_path := None; hunk_chunks := [] |}, 1))
  | None, None, Some path =>
      match validate_path path line_number with
      | Err e => Some (Err e)
      | Ok _ =>
          let update move remaining parsed :=
            match parse_update_chunks (List.length remaining) remaining line_number parsed [] with
            | Some (Ok ([], _)) =>
                Some (Err (ValidationFailed ("Invalid patch " +:+
                  at_line line_number ("Update File " +:+ quoted path +:+ " does not contain any update hunks"))))
            | Some (Ok (chunks, parsed)) =>
                Some (Ok ({| hunk_op := UpdateFile; hunk_path := path; contents := ""; move_path := move; hunk_chunks := chunks |}, parsed))
            | Some (Err e) => Some (Err e)
            | None => None
            end in
          match rest with
          | mv :: remaining =>
              match strip_prefix MOVE_TO_MARKER mv with
              | Some mp =>
                  match validate_path mp (line_number + 1) with
                  | Err e => Some (Err e)
                  | Ok _ => update (Some mp) remaining 2
                  end
              | None => update None rest 1
              end
          | [] => update None rest 1
          end
      end
  | None, None, None =>
      Some (Err (ValidationFailed ("Invalid patch " +:+ at_line line_number ("unexpected file header " +:+ quoted first_line))))
  end.

Fixpoint parse_hunks (fuel : nat) (remaining : list string) (line_number : nat) (hunks : list PatchHunk) :
    option (result ToolError (list PatchHunk)) :=
  match fuel, remaining with
  | _, [] => Some (Ok hunks)
  | 0, _ => None
  | S fuel, line :: rest =>
      match parse_one_hunk line rest line_number with
      | Some (Ok (hunk, consumed)) =>
          drain consumed remaining ≫= λ remaining', parse_hunks fuel remaining' (line_number + consumed) (hunks ++ [hunk])
      | Some (Err e) => Some (Err e)
      | None => None
      end
  end.

(** The heredoc a patch may be wrapped in. *)
Definition heredoc_markers : list string :=
  ["<<EOF"; "<<'EOF'"; "<<" +:+ String double_quote ("EOF" +:+ String double_quote "")].
Definition unwrap_heredoc (lines : list string) : list string :=
  match head lines, last lines with
  | Some first, Some last =>
      if bool_decide (4 ≤ List.length lines ∧ first ∈ heredoc_markers) && ends_with "EOF" last
      then removelast (tail lines) else lines
  | _, _ => lines
  end.
Definition parse_patch (patch : string) : option (result ToolError (list PatchHunk)) :=
  let lines := unwrap_heredoc (lines_of (trim patch)) in
  match check_patch_boundaries lines with
  | Err e => Some (Err e)
  | Ok _ => let remaining := removelast (tail lines) in parse_hunks (List.length remaining) remaining 2 []
  end.

(** * Application *)

Section patching.
  Context (nfkc : string → string).

(** The retry without the final blank line of the old lines. *)
Definition without_last_blank (l : list string) : list string :=
  match last l with Some EmptyString => removelast l | _ => l end.
Definition locate_chunk (original_lines : list string) (chunk : UpdateFileChunk) (line_index : nat) : option (Replacement string) :=
  let attempt pattern new_slice :=
    (λ idx, {| rep_start := idx; rep_len := List.length pattern; rep_new := new_slice |})
      <$> seek_sequence nfkc original_lines pattern line_index (is_end_of_file chunk) in
  match attempt (old_lines chunk) (new_lines chunk) with
  | Some r => Some r
  | None =>
      if decide (last (old_lines chunk) = Some "")
      then attempt (removelast (old_lines chunk)) (without_last_blank (new_lines chunk))
      else None
  end.
Definition insertion_index (original_lines : list string) : nat :=
  match last original_lines with Some EmptyString => List.length original_lines - 1 | _ => List.length original_lines end.
Fixpoint compute_from (original_lines : list string) (file_path : string) (line_index : nat) (chunks : list UpdateFileChunk) :
    result ToolError (list (Replacement string)) :=
  match chunks with
  | [] => Ok []
  | chunk :: rest =>
      line_index ←
        match change_context chunk with
        | None => Ok line_index
        | Some context =>
            match seek_sequence nfkc original_lines [context] line_index false with
            | Some idx => Ok (S idx)
            | None => Err (ExecutionError ("Context " +:+ quoted context +:+ " not found in " +:+ quoted file_path))
            end
        end;
      match old_lines chunk with
      | [] =>
          tail ← compute_from original_lines file_path line_index rest;
          Ok ({| rep_start := insertion_index original_lines; rep_len := 0; rep_new := new_lines chunk |} :: tail)
      | _ =>
          match locate_chunk original_lines chunk line_index with
          | Some r => tail ← compute_from original_lines file_path (rep_start r + rep_len r) rest; Ok (r :: tail)
          | None =>
              Err (ExecutionError ("Old lines not found in " +:+ quoted file_path +:+ ". Lines:" +:+
                String newline (join_lines (old_lines chunk))))
          end
      end
  end.
(** [replacements.sort_by_key(|r| r.0)] *)
Definition rep_pos {A} (r : Replacement A) : Z := Z.of_nat (rep_start r).
Definition compute_replacements (original_lines : list string) (file_path : string) (chunks : list UpdateFileChunk) :
    result ToolError (list (Replacement string)) :=
  sort_by_key rep_pos <$> compute_from original_lines file_path 0 chunks.

(** The lines of a file, and the text of the lines a file is left with. *)
Definition file_lines (content : string) : list string := without_last_blank (lines_of content).
Definition close_lines (l : list string) : list string := match last l with Some EmptyString => l | _ => l ++ [""] end.
Definition apply_chunks_to_content (original_content file_path : string) (chunks : list UpdateFileChunk) :
    option (result ToolError string) :=
  let original_lines := file_lines original_content in
  match compute_replacements original_lines file_path chunks with
  | Err e => Some (Err e)
  | Ok replacements => (λ l, Ok (join_lines (close_lines l))) <$> splice_all replacements original_lines
  end.

(** * What an update does to a file *)

(** What a chunk takes away and what it puts there. *)
Definition chunk_fits (c : UpdateFileChunk) (old new : list string) : Prop :=
  tolerated nfkc (old_lines c) old ∧ new = new_lines c ∨
  last (old_lines c) = Some "" ∧ tolerated nfkc (removelast (old_lines c)) old ∧ new = without_last_blank (new_lines c).
(** The chunks whose places do not depend on each other: none is anchored at
    the end of the file, and pure additions go behind the last line. *)
Definition placed (original_lines : list string) (c : UpdateFileChunk) : Prop :=
  is_end_of_file c = false ∧ (old_lines c = [] → last original_lines ≠ Some "").

Lemma insertion_index_end ls : last ls ≠ Some "" → insertion_index ls = List.length ls.
Proof. unfold insertion_index. destruct (last ls) as [[|c s]|]; done. Qed.
Lemma tolerated_nil : tolerated nfkc [] [].
Proof. exists (same_by id). split; [left|constructor]. Qed.
Lemma seek_sequence_replaced ls pattern new start i :
  start ≤ List.length ls → seek_sequence nfkc ls pattern start false = Some i →
  let r := {| rep_start := i; rep_len := List.length pattern; rep_new := new |} in
  start ≤ i ∧ inside (List.length ls) r ∧ tolerated nfkc pattern (replaced ls r).
Proof.
  intros Hstart Hseek. destruct pattern as [|p pattern].
  - cbn in Hseek. injection Hseek as <-. unfold inside, replaced. simpl. split; [lia|]. split; [lia|]. apply tolerated_nil.
  - by apply seek_sequence_Some in Hseek as (? & ? & ?).
Qed.
Lemma locate_chunk_spec ls c li r :
  li ≤ List.length ls → is_end_of_file c = false → locate_chunk ls c li = Some r →
  li ≤ rep_start r ∧ inside (List.length ls) r ∧ chunk_fits c (replaced ls r) (rep_new r).
Proof.
  unfold locate_chunk. intros Hli ->. cbv beta zeta.
  destruct (seek_sequence nfkc ls (old_lines c) li false) as [i|] eqn:Hs; cbn [fmap option_fmap option_map].
  - intros [= <-]. apply (seek_sequence_replaced _ _ (new_lines c)) in Hs as (? & ? & ?); [|done]. split; [done|]. split; [done|]. by left.
  - case_decide as Hlast; [|done]. destruct (seek_sequence nfkc ls (removelast (old_lines c)) li false) as [i|] eqn:Hs'; [|done].
    intros [= <-]. apply (seek_sequence_replaced _ _ (without_last_blank (new_lines c))) in Hs' as (? & ? & ?); [|done].
    split; [done|]. split; [done|]. by right.
Qed.

(** Sorting keeps ranges apart. *)
Lemma insert_first pos (r : Replacement string) l :
  pos ≤ rep_start r → apart_from (rep_start r + rep_len r) l → apart_from pos (insert_by_key rep_pos r l).
Proof. intros Hr Hl. destruct l as [|y l]; [done|]. cbn [insert_by_key]. destruct Hl. unfold rep_pos. rewrite decide_True by lia. done. Qed.
Lemma insert_last n pos (r : Replacement string) l :
  pos ≤ n → rep_start r = n → rep_len r = 0 → apart_from pos l → Forall (inside n) l → apart_from pos (insert_by_key rep_pos r l).
Proof.
  intros Hpos Hs Hr. revert pos Hpos. induction l as [|y l IH]; intros pos Hpos Hl Hin; [by rewrite <-Hs in Hpos|].
  apply Forall_cons in Hin as [Hy Hin]. destruct Hl as [Hy' Hl]. unfold inside in Hy. cbn [insert_by_key].
  unfold rep_pos in *. case_decide; [split; [lia|]; split; [lia|done]|]. split; [done|]. by apply IH.
Qed.
Lemma inside_sorted n (rs : list (Replacement string)) : Forall (inside n) rs → Forall (inside n) (sort_by_key rep_pos rs).
Proof. intros Hin. by rewrite sort_by_key_Permutation. Qed.
Lemma apart_from_le pos pos' (rs : list (Replacement string)) : pos ≤ pos' → apart_from pos' rs → apart_from pos rs.
Proof. destruct rs; [done|]. intros ? [? ?]. split; [lia|done]. Qed.

Lemma context_index ls (ctx : option string) file li li' :
  li ≤ List.length ls →
  match ctx with
  | None => Ok li
  | Some context =>
      match seek_sequence nfkc ls [context] li false with
      | Some idx => Ok (S idx)
      | None => Err (ExecutionError ("Context " +:+ quoted context +:+ " not found in " +:+ quoted file))
      end
  end = Ok li' → li ≤ li' ≤ List.length ls.
Proof.
  intros Hli. destruct ctx as [context|]; [|intros [= <-]; lia]. destruct (seek_sequence _ _ _ _ _) as [i|] eqn:Hs; [|done].
  intros [= <-]. apply seek_sequence_Some in Hs as (? & Hi & _); [|done]. simpl in Hi. lia.
Qed.
Lemma compute_from_spec ls file li chunks rs :
  li ≤ List.length ls → Forall (placed ls) chunks → compute_from ls file li chunks = Ok rs →
  apart_from li (sort_by_key rep_pos rs) ∧ Forall (inside (List.length ls)) rs ∧
  Forall2 (λ c r, chunk_fits c (replaced ls r) (rep_new r)) chunks rs.
Proof.
  revert li rs. induction chunks as [|c chunks IH]; intros li rs Hli Hpl; cbn [compute_from]; [by intros [= <-]|].
  apply Forall_cons in Hpl as [[Heof Hadd] Hpl]. intros (li' & Hctx & Hr)%result_bind_Ok.
  apply context_index in Hctx; [|done]. destruct (old_lines c) as [|o old] eqn:Hold.
  - apply result_bind_Ok in Hr as (tail & Ht & [= <-]). destruct (IH li' tail ltac:(lia) Hpl Ht) as (Hap & Hin & Hfit).
    rewrite insertion_index_end by auto. set (r := {| rep_start := _; rep_len := 0; rep_new := _ |}).
    assert (inside (List.length ls) r) by (unfold inside; simpl; lia). split; [|split; constructor; try done].
    + apply (insert_last (List.length ls)); [lia|done|done| |by apply inside_sorted]. apply (apart_from_le _ li'); [lia|done].
    + left. split; [|done]. rewrite Hold. apply tolerated_nil.
  - rewrite <-Hold in *. destruct (locate_chunk ls c li') as [r|] eqn:Hloc; [|done].
    apply result_bind_Ok in Hr as (tail & Ht & [= <-]). apply locate_chunk_spec in Hloc as (Hst & Hr & Hf); [|lia|done].
    destruct (IH _ _ Hr Hpl Ht) as (Hap & Hin & Hfit). split; [|split; by constructor].
    apply insert_first; [lia|done].
Qed.

(** C37: applying the chunks of an update never panics when no chunk is anchored at the end of the file
    and pure additions find no blank last line.  When it succeeds, the lines of the file are the old ones
    with one run of lines replaced per chunk, apart from each other and in order, each run matching the
    old lines of its chunk and giving way to its new lines; the text ends with a newline. *)
Theorem patch_applied_exactly (content file_path : string) (chunks : list UpdateFileChunk) :
  Forall (placed (file_lines content)) chunks →
  (∃ r, apply_chunks_to_content content file_path chunks = Some r) ∧
  (∀ out, apply_chunks_to_content content file_path chunks = Some (Ok out) →
     ∃ cs lines, cs ≡ₚ chunks ∧ woven chunk_fits cs (file_lines content) lines ∧
       out = join_lines (close_lines lines) ∧ last (close_lines lines) = Some "").
Proof.
  intros Hpl. unfold apply_chunks_to_content, compute_replacements.
  destruct (compute_from _ _ _ _) as [rs|e] eqn:Hc; [|split; [by eexists|done]].
  apply compute_from_spec in Hc as (Hap & Hin & Hfit); [|lia|done]. cbn [fmap result_fmap].
  destruct (splice_all_woven (file_lines content) (sort_by_key rep_pos rs)) as (m & Hm & Hw); [done|by apply inside_sorted|].
  rewrite Hm. split; [by eexists|]. intros out [= <-].
  destruct (Permutation_Forall2 (l1 := rs) (l1' := sort_by_key rep_pos rs) (l2 := chunks)
    (P := λ r c, chunk_fits c (replaced (file_lines content) r) (rep_new r))) as (cs & Hcs & Hfits).
  - symmetry. apply sort_by_key_Permutation.
  - by apply Forall2_flip.
  - exists cs, m. split; [done|]. split; [|split; [done|]].
    + refine (woven_impl _ _ _ _ _ _ _ Hw). refine (Forall2_impl _ _ _ _ Hfits _). by intros r c Hf old new [-> ->].
    + unfold close_lines. destruct (last m) as [[|a w]|] eqn:Hl; [done| |]; by rewrite last_snoc.
Qed.
End patching.
