(* ===== verification/PatchFormat.v ===== *)
(** The patch format: a printer of patch documents, which the parser of
    [Patch] inverts, and the parser's totality on every input. *)

From S2P Require Import Prelude Strings LineEdit Numbers ToolErrors Patch.

(** * Documents *)

Inductive DiffLine : Type := Context_ (l : string) | Removed (l : string) | Added (l : string).
Record ChunkDoc : Type := { doc_context : option string; doc_lines : list DiffLine; doc_eof : bool }.
Inductive HunkDoc : Type :=
| DocAdd (path : string) (lines : list string)
| DocDelete (path : string)
| DocUpdate (path : string) (move : option string) (chunks : list ChunkDoc).

(** What a document says. *)
Definition old_of (d : DiffLine) : list string := match d with Context_ l | Removed l => [l] | Added _ => [] end.
Definition new_of (d : DiffLine) : list string := match d with Context_ l | Added l => [l] | Removed _ => [] end.
Definition chunk_of (d : ChunkDoc) : UpdateFileChunk :=
  {| change_context := doc_context d; old_lines := d.(doc_lines) ≫= old_of; new_lines := d.(doc_lines) ≫= new_of;
     is_end_of_file := doc_eof d |}.
Definition terminated (lines : list string) : string := String.concat "" ((λ l, l +:+ String newline "") <$> lines).
Definition hunk_of (d : HunkDoc) : PatchHunk :=
  match d with
  | DocAdd path lines => {| hunk_op := AddFile; hunk_path := path; contents := terminated lines; move_path := None; hunk_chunks := [] |}
  | DocDelete path => {| hunk_op := DeleteFile; hunk_path := path; contents := ""; move_path := None; hunk_chunks := [] |}
  | DocUpdate path move chunks =>
      {| hunk_op := UpdateFile; hunk_path := path; contents := ""; move_path := move; hunk_chunks := chunk_of <$> chunks |}
  end.

(** How it is printed. *)
Definition print_line (d : DiffLine) : string :=
  match d with Context_ l => String " " l | Removed l => String "-" l | Added l => String "+" l end.
Definition print_chunk (d : ChunkDoc) : list string :=
  (match doc_context d with None => EMPTY_CHANGE_CONTEXT_MARKER | Some c => CHANGE_CONTEXT_MARKER +:+ c end)
    :: (print_line <$> doc_lines d) ++ (if doc_eof d then [EOF_MARKER] else []).
Definition header (d : HunkDoc) : string :=
  match d with
  | DocAdd path _ => ADD_FILE_MARKER +:+ path
  | DocDelete path => DELETE_FILE_MARKER +:+ path
  | DocUpdate path _ _ => UPDATE_FILE_MARKER +:+ path
  end.
Definition body (d : HunkDoc) : list string :=
  match d with
  | DocAdd _ lines => String "+" <$> lines
  | DocDelete _ => []
  | DocUpdate _ move chunks => (match move with Some mp => [MOVE_TO_MARKER +:+ mp] | None => [] end) ++ (chunks ≫= print_chunk)
  end.
Definition print_hunk (d : HunkDoc) : list string := header d :: body d.
Definition patch_lines (docs : list HunkDoc) : list string :=
  BEGIN_PATCH_MARKER :: (docs ≫= print_hunk) ++ [END_PATCH_MARKER].
Definition print_patch (docs : list HunkDoc) : string := join_lines (patch_lines docs).

(** The documents that can be printed: lines hold no line break, paths are
    allowed and end without blanks, and every update has chunks with lines. *)
Definition one_line (l : string) : Prop := contains newline l = false.
Definition line_text (d : DiffLine) : string := match d with Context_ l | Removed l | Added l => l end.
Definition path_allowed (path : string) : Prop := one_line path ∧ ∀ n, validate_path path n = Ok ().
Definition chunk_printable (d : ChunkDoc) : Prop :=
  from_option one_line True (doc_context d) ∧ doc_lines d ≠ [] ∧ Forall (one_line ∘ line_text) (doc_lines d).
Definition hunk_printable (d : HunkDoc) : Prop :=
  trim (header d) = header d ∧
  match d with
  | DocAdd path lines => path_allowed path ∧ Forall one_line lines
  | DocDelete path => path_allowed path
  | DocUpdate path move chunks =>
      path_allowed path ∧ from_option path_allowed True move ∧ chunks ≠ [] ∧ Forall chunk_printable chunks
  end.

(** * Parsing a printed patch *)

(** Lines that end a chunk: none, another chunk, or another hunk. *)
Definition stops (rest : list string) : Prop :=
  match rest with [] => True | l :: _ => (∃ s, l = String "@" s ∨ l = String "*" s) ∧ l ≠ EOF_MARKER end.
Definition add_lines (c : UpdateFileChunk) (ds : list DiffLine) : UpdateFileChunk :=
  {| change_context := change_context c; old_lines := old_lines c ++ (ds ≫= old_of); new_lines := new_lines c ++ (ds ≫= new_of);
     is_end_of_file := is_end_of_file c |}.
Lemma chunk_lines_stop rest ln c parsed : parsed ≠ 0 → stops rest → parse_chunk_lines rest ln c parsed = Ok (c, parsed).
Proof.
  intros Hp. destruct rest as [|l rest]; [done|]. intros [(s & [-> | ->]) Hne]; cbn [parse_chunk_lines];
    rewrite decide_False by done; repeat rewrite decide_False by done; done.
Qed.
Lemma chunk_lines_print ds rest ln c parsed :
  parse_chunk_lines ((print_line <$> ds) ++ rest) ln c parsed = parse_chunk_lines rest ln (add_lines c ds) (List.length ds + parsed).
Proof.
  revert c parsed. induction ds as [|d ds IH]; intros c parsed.
  - unfold add_lines. cbn. rewrite !app_nil_r. by destruct c.
  - assert (Hstep : parse_chunk_lines ((print_line <$> d :: ds) ++ rest) ln c parsed =
      parse_chunk_lines ((print_line <$> ds) ++ rest) ln (add_lines c [d]) (S parsed)).
    { unfold add_lines. by destruct d; cbn; rewrite ?app_nil_r. }
    rewrite Hstep, IH. unfold add_lines. cbn [List.length]. rewrite <-plus_n_Sm. destruct d; cbn; rewrite ?app_nil_r, <-?app_assoc; done.
Qed.
Lemma parse_chunk_print d rest ln b :
  chunk_printable d → stops rest →
  parse_update_file_chunk (print_chunk d ++ rest) ln b = Ok (chunk_of d, List.length (print_chunk d)).
Proof.
  intros (_ & Hne & _) Hrest. unfold parse_update_file_chunk, print_chunk. rewrite <-app_comm_cons.
  set (first := match doc_context d with None => _ | Some c => _ end).
  assert (Hstart : chunk_start first ln b = Ok (doc_context d, 1)).
  { unfold first, chunk_start. destruct (doc_context d) as [c|]; [|done]. by rewrite decide_False by done. }
  rewrite Hstart. cbn [mbind result_bind fst snd drop]. rewrite decide_False.
  2: { destruct (doc_lines d); [done|]. simpl. lia. }
  rewrite drop_0, <-app_assoc, chunk_lines_print, Nat.add_0_r.
  assert (Hn : List.length (doc_lines d) ≠ 0) by (by destruct (doc_lines d)). unfold chunk_of. destruct (doc_eof d).
  - change ([EOF_MARKER] ++ rest) with (EOF_MARKER :: rest). cbn [parse_chunk_lines]. rewrite decide_True, decide_False by done.
    cbn. by rewrite length_app, length_fmap.
  - cbn [app]. rewrite chunk_lines_stop by done. cbn. rewrite app_nil_r, length_fmap. repeat f_equal. lia.
Qed.

(** A hunk is followed by another one or by nothing. *)
Definition at_hunk (rest : list string) : Prop := rest = [] ∨ ∃ d rest', rest = header d :: rest' ∧ hunk_printable d.
Lemma header_stars d : starts_with "***" (header d) = true.
Proof. by destruct d. Qed.
Lemma at_hunk_stops rest : at_hunk rest → stops rest.
Proof. intros [-> |(d & rest' & -> & _)]; [done|]. split; [|by destruct d]. destruct d; eexists; right; reflexivity. Qed.
Lemma chunks_stop ds rest : stops rest → stops ((ds ≫= print_chunk) ++ rest).
Proof.
  intros Hrest. destruct ds as [|d ds]; [done|]. cbn. destruct (doc_context d); (split; [|done]); eexists; left; reflexivity.
Qed.
Lemma terminated_cons l lines : terminated (l :: lines) = l +:+ String newline "" +:+ terminated lines.
Proof. unfold terminated. destruct lines; cbn; by rewrite ?append_nil_r, ?append_assoc. Qed.
Lemma added_lines_print lines rest ln acc parsed :
  at_hunk rest → parse_added_lines ((String "+" <$> lines) ++ rest) ln acc parsed = Ok (acc +:+ terminated lines, List.length lines + parsed).
Proof.
  intros Hrest. revert acc parsed. induction lines as [|l lines IH]; intros acc parsed.
  - unfold terminated. cbn. rewrite append_nil_r. destruct Hrest as [-> |(d & rest' & -> & _)]; [done|].
    cbn [parse_added_lines]. rewrite header_stars, andb_false_r. by destruct d.
  - rewrite fmap_cons, <-app_comm_cons. cbn [parse_added_lines]. change (strip_prefix "+" (String "+" l)) with (Some l).
    cbv iota. rewrite IH. cbn [List.length]. rewrite <-plus_n_Sm. by rewrite terminated_cons, !append_assoc.
Qed.
Lemma chunk_first_not_blank d rest : match print_chunk d ++ rest with l :: _ => trim l ≠ "" ∧ starts_with "***" l = false | [] => False end.
Proof.
  unfold print_chunk. rewrite <-app_comm_cons.
  destruct (doc_context d) as [c|]; (split; [apply trim_not_blank; by intros [|? [|? [|]]]|done]).
Qed.
Lemma drain_app {A} (l k : list A) : drain (List.length l) (l ++ k) = Some k.
Proof. unfold drain. rewrite decide_True by (rewrite length_app; lia). by rewrite drop_app_length. Qed.
Lemma print_chunk_length d : 0 < List.length (print_chunk d).
Proof. unfold print_chunk. simpl. lia. Qed.
Lemma length_bind_cons {A B} (f : A → list B) x l : List.length ((x :: l) ≫= f) = List.length (f x) + List.length (l ≫= f).
Proof. cbn [mbind list_bind]. by rewrite length_app. Qed.
Lemma update_chunks_print ds rest fuel ln parsed acc :
  Forall chunk_printable ds → at_hunk rest → List.length (ds ≫= print_chunk) + List.length rest ≤ fuel →
  parse_update_chunks fuel ((ds ≫= print_chunk) ++ rest) ln parsed acc =
    Some (Ok (acc ++ (chunk_of <$> ds), parsed + List.length (ds ≫= print_chunk))).
Proof.
  intros Hds Hrest. revert fuel parsed acc. induction Hds as [|d ds Hd Hds IH]; intros fuel parsed acc Hfuel.
  - cbn. rewrite app_nil_r, Nat.add_0_r. destruct Hrest as [-> |(h & rest' & -> & Hh & _)]; [by destruct fuel|].
    destruct fuel as [|fuel]; [simpl in Hfuel; lia|]. cbn [parse_update_chunks]. rewrite Hh, header_stars, decide_False; [done|]. by destruct h.
  - cbn [mbind list_bind]. rewrite <-app_assoc. set (tl := (ds ≫= print_chunk) ++ rest).
    pose proof (chunk_first_not_blank d tl) as Hfirst. pose proof (parse_chunk_print d tl) as Hp.
    pose proof (drain_app (print_chunk d) tl) as Hdr. destruct (print_chunk d ++ tl) as [|l tl'] eqn:Htl; [done|].
    destruct Hfirst as [Hl Hl']. pose proof (print_chunk_length d) as Hpos.
    rewrite length_bind_cons in Hfuel. destruct fuel as [|fuel]; [lia|].
    cbn [parse_update_chunks]. rewrite decide_False, Hl' by done. rewrite Hp; [|done|by apply chunks_stop, at_hunk_stops].
    rewrite Hdr. cbn [mbind option_bind]. unfold tl. rewrite IH.
    + by rewrite length_app, <-app_assoc, Nat.add_assoc.
    + lia.
Qed.
Lemma update_print path chunks rest ln parsed :
  chunks ≠ [] → Forall chunk_printable chunks → at_hunk rest →
  parse_update_chunks (List.length ((chunks ≫= print_chunk) ++ rest)) ((chunks ≫= print_chunk) ++ rest) ln parsed [] =
    Some (Ok (chunk_of <$> chunks, parsed + List.length (chunks ≫= print_chunk))) ∧
  strip_prefix MOVE_TO_MARKER (default path (head ((chunks ≫= print_chunk) ++ rest))) = None.
Proof.
  intros Hne Hc Hrest. split; [apply (update_chunks_print chunks rest _ ln parsed []); [done|done|rewrite length_app; lia]|].
  destruct chunks as [|d ds]; [done|]. cbn. by destruct (doc_context d).
Qed.
Lemma one_hunk_print d rest ln :
  hunk_printable d → at_hunk rest → parse_one_hunk (header d) (body d ++ rest) ln = Some (Ok (hunk_of d, List.length (print_hunk d))).
Proof.
  intros [Htrim Hd] Hrest. unfold parse_one_hunk, print_hunk. rewrite Htrim. destruct d as [path lines|path|path move chunks].
  - destruct Hd as [[_ Hp] _]. change (strip_prefix ADD_FILE_MARKER (header (DocAdd path lines))) with (Some path). cbv iota zeta.
    rewrite Hp. cbn [mbind result_bind body]. rewrite added_lines_print by done. cbn [fst snd mbind result_bind].
    cbn [List.length]. by rewrite length_fmap, Nat.add_1_r.
  - destruct Hd as [_ Hp]. change (strip_prefix ADD_FILE_MARKER (header (DocDelete path))) with (@None string).
    change (strip_prefix DELETE_FILE_MARKER (header (DocDelete path))) with (Some path). cbv iota zeta. by rewrite Hp.
  - destruct Hd as ([_ Hp] & Hmove & Hne & Hc). set (h := header _).
    change (strip_prefix ADD_FILE_MARKER h) with (@None string). change (strip_prefix DELETE_FILE_MARKER h) with (@None string).
    change (strip_prefix UPDATE_FILE_MARKER h) with (Some path). cbv iota zeta. rewrite Hp. cbn [body].
    destruct move as [mp|]; cbn [app].
    + destruct Hmove as [_ Hmp]. change (strip_prefix MOVE_TO_MARKER (MOVE_TO_MARKER +:+ mp)) with (Some mp). cbv iota. rewrite Hmp.
      destruct (update_print path chunks rest ln 2 Hne Hc Hrest) as [-> _]. by destruct chunks.
    + destruct (update_print path chunks rest ln 1 Hne Hc Hrest) as [Hup Hmv]. destruct ((chunks ≫= print_chunk) ++ rest) as [|l tl] eqn:Htl.
      { by destruct chunks. }
      cbn [head default from_option id] in Hmv. rewrite Hmv, Hup. by destruct chunks.
Qed.
Lemma hunks_print docs fuel ln acc :
  Forall hunk_printable docs → List.length (docs ≫= print_hunk) ≤ fuel →
  parse_hunks fuel (docs ≫= print_hunk) ln acc = Some (Ok (acc ++ (hunk_of <$> docs))).
Proof.
  intros Hdocs. revert fuel ln acc. induction Hdocs as [|d docs Hd Hdocs IH]; intros fuel ln acc Hfuel.
  - cbn. rewrite app_nil_r. by destruct fuel.
  - rewrite length_bind_cons in Hfuel. change ((d :: docs) ≫= print_hunk) with (header d :: body d ++ (docs ≫= print_hunk)).
    assert (Hpos : 0 < List.length (print_hunk d)) by (simpl; lia). destruct fuel as [|fuel]; [lia|]. cbn [parse_hunks].
    rewrite one_hunk_print; [|done|destruct Hdocs as [|d' docs']; [by left|right; by eexists _, _]].
    change (header d :: body d ++ (docs ≫= print_hunk)) with (print_hunk d ++ (docs ≫= print_hunk)). rewrite drain_app.
    cbn [mbind option_bind]. rewrite IH by lia. by rewrite fmap_cons, <-app_assoc.
Qed.

Lemma chunk_one_line d : chunk_printable d → Forall one_line (print_chunk d).
Proof.
  intros (Hctx & _ & Hls). constructor; [by destruct (doc_context d)|]. apply Forall_app. split; [|by destruct (doc_eof d); repeat constructor].
  apply Forall_fmap, (Forall_impl _ _ _ Hls). by intros [].
Qed.
Lemma hunk_one_line d : hunk_printable d → Forall one_line (print_hunk d).
Proof.
  intros [_ Hd]. constructor; destruct d as [path lines|path|path move chunks]; cbn [header body].
  - by destruct Hd as [[? _] _].
  - by destruct Hd as [? _].
  - by destruct Hd as [[? _] _].
  - destruct Hd as [_ Hls]. by apply Forall_fmap, (Forall_impl _ _ _ Hls).
  - constructor.
  - destruct Hd as (_ & Hmv & _ & Hc). apply Forall_app. split; [destruct move; [|constructor]; constructor; [by destruct Hmv|constructor]|].
    apply Forall_bind, (Forall_impl _ _ _ Hc). apply chunk_one_line.
Qed.

(** C36: parsing the text of a patch gives exactly the hunks of the document it prints: every file
    operation with its path, contents, destination, and every chunk with its context, its old and new
    lines in order and its end-of-file mark. *)
Theorem parse_print_patch (docs : list HunkDoc) :
  Forall hunk_printable docs → parse_patch (print_patch docs) = Some (Ok (hunk_of <$> docs)).
Proof.
  intros Hdocs. unfold parse_patch, print_patch.
  assert (Hall : Forall one_line (patch_lines docs)).
  { constructor; [done|]. apply Forall_app. split; [|by repeat constructor].
    apply Forall_bind, (Forall_impl _ _ _ Hdocs). apply hunk_one_line. }
  assert (Htrim : trim (join_lines (patch_lines docs)) = join_lines (patch_lines docs)).
  { unfold join_lines, patch_lines. rewrite app_comm_cons, (concat_app newline) by done.
    set (s := String.concat _ (BEGIN_PATCH_MARKER :: _)).
    assert (Hs : ∃ s', s = String "*" s') by (subst s; destruct (docs ≫= print_hunk); eexists; reflexivity).
    destruct Hs as [s' ->]. change (String.concat (String newline "") [END_PATCH_MARKER]) with ("*** End Patc" +:+ "h").
    change (String newline ("*** End Patc" +:+ "h")) with (String newline "*** End Patc" +:+ "h").
    rewrite append_cons, <-append_assoc. by apply trim_ends; [intros [|? [|? [|]]]| |]. }
  rewrite Htrim. unfold lines_of, join_lines. rewrite split_concat_lines by done.
  assert (Hheredoc : unwrap_heredoc (patch_lines docs) = patch_lines docs).
  { unfold unwrap_heredoc. change (head (patch_lines docs)) with (Some BEGIN_PATCH_MARKER). cbv iota.
    destruct (last (patch_lines docs)); [|done]. rewrite bool_decide_eq_false_2; [done|]. intros [_ H]. revert H.
    apply (bool_decide_unpack (BEGIN_PATCH_MARKER ∉ heredoc_markers)). by vm_compute. }
  rewrite Hheredoc. unfold check_patch_boundaries, patch_lines at 1 2. rewrite app_comm_cons, last_snoc. cbn [head tail app].
  unfold patch_lines. cbn [tail]. rewrite removelast_last.
  rewrite (hunks_print docs) by done. done.
Qed.

(** * The parser ends on every input *)

Lemma chunk_lines_bound lines ln c parsed c' n :
  parse_chunk_lines lines ln c parsed = Ok (c', n) →
  parsed ≤ n ≤ parsed + List.length lines ∧ (lines ≠ [] → parsed = 0 → 0 < n).
Proof.
  revert c parsed. induction lines as [|l lines IH]; intros c parsed; cbn [parse_chunk_lines]; [intros [= -> ->]; simpl; split; [lia|done]|].
  case_decide; [case_decide; [done|intros [= <- <-]; simpl; split; [lia|done]]|].
  destruct l as [|a l]; [intros [? _]%IH; simpl; split; [lia|lia]|].
  repeat (case_decide; [first [done|intros [? _]%IH; simpl; split; [lia|lia]]|]).
  intros [= <- <-]. simpl. split; [lia|done].
Qed.
Lemma chunk_start_bound first ln b ctx k : chunk_start first ln b = Ok (ctx, k) → k ≤ 1.
Proof. unfold chunk_start. case_decide; [by intros [= <- <-]|]. destruct (strip_prefix _ _); [by intros [= <- <-]|]. destruct b; [intros [= <- <-]; lia|done]. Qed.
Lemma chunk_bound lines ln b c n : parse_update_file_chunk lines ln b = Ok (c, n) → 0 < n ≤ List.length lines.
Proof.
  unfold parse_update_file_chunk. destruct lines as [|first lines]; [done|].
  intros ([ctx k] & Hk & H)%result_bind_Ok. apply chunk_start_bound in Hk. cbn [fst snd] in H. case_decide as Hlen; [done|].
  apply result_bind_Ok in H as ([c' m] & Hm & [= <- <-]). apply chunk_lines_bound in Hm as [Hm Hpos]. rewrite length_drop in Hm.
  cbn [fst snd]. split; [|lia]. assert (drop k (first :: lines) ≠ []) as Hne; [|specialize (Hpos Hne eq_refl); lia].
  intros Hnil. apply (f_equal List.length) in Hnil. rewrite length_drop in Hnil. cbn [List.length] in *. lia.
Qed.
Lemma added_lines_bound lines ln acc parsed c n :
  parse_added_lines lines ln acc parsed = Ok (c, n) → parsed ≤ n ≤ parsed + List.length lines.
Proof.
  revert acc parsed. induction lines as [|l lines IH]; intros acc parsed; cbn [parse_added_lines]; [intros [= _ <-]; simpl; lia|].
  destruct (strip_prefix "+" l); [intros ?%IH; simpl; lia|]. destruct (_ && _); [done|]. intros [= _ <-]. simpl. lia.
Qed.
Lemma drain_Some {A} n (l : list A) : n ≤ List.length l → drain n l = Some (drop n l).
Proof. intros Hn. unfold drain. by rewrite decide_True. Qed.
Lemma update_chunks_total fuel remaining ln parsed acc :
  List.length remaining ≤ fuel →
  ∃ r, parse_update_chunks fuel remaining ln parsed acc = Some r ∧
    ∀ cs n, r = Ok (cs, n) → parsed ≤ n ≤ parsed + List.length remaining.
Proof.
  revert remaining parsed acc. induction fuel as [|fuel IH]; intros [|l remaining] parsed acc Hfuel; simpl in Hfuel;
    try (eexists; split; [reflexivity|intros ? ? [= _ <-]; simpl; lia]); [lia|].
  cbn [parse_update_chunks]. case_decide.
  { destruct (IH remaining (S parsed) acc) as (r & -> & Hr); [lia|]. eexists. split; [done|]. intros cs n Hcs.
    specialize (Hr _ _ Hcs). simpl. lia. }
  destruct (starts_with "***" l); [eexists; split; [reflexivity|intros ? ? [= _ <-]; simpl; lia]|].
  destruct (parse_update_file_chunk _ _ _) as [[c k]|e] eqn:Hc; [|by eexists].
  apply chunk_bound in Hc as Hk. rewrite drain_Some by lia. cbn [mbind option_bind].
  destruct (IH (drop k (l :: remaining)) (parsed + k) (acc ++ [c])) as (r & -> & Hr); [rewrite length_drop; simpl; lia|].
  eexists. split; [done|]. intros cs n Hcs. specialize (Hr _ _ Hcs). rewrite length_drop in Hr. simpl in *. lia.
Qed.
Lemma one_hunk_total line rest ln :
  ∃ r, parse_one_hunk line rest ln = Some r ∧ ∀ h n, r = Ok (h, n) → 0 < n ≤ S (List.length rest).
Proof.
  unfold parse_one_hunk. destruct (strip_prefix ADD_FILE_MARKER _) as [path|].
  { eexists. split; [done|]. intros h n (_ & _ & ([c m] & Hm & [= <- <-])%result_bind_Ok)%result_bind_Ok.
    apply added_lines_bound in Hm. simpl. lia. }
  destruct (strip_prefix DELETE_FILE_MARKER _) as [path|].
  { eexists. split; [done|]. intros h n (_ & _ & [= <- <-])%result_bind_Ok. lia. }
  destruct (strip_prefix UPDATE_FILE_MARKER _) as [path|]; [|by eexists].
  destruct (validate_path path ln); [|by eexists]. cbv zeta.
  assert (Hup : ∀ mv remaining parsed, 0 < parsed → ∃ r,
    match parse_update_chunks (List.length remaining) remaining ln parsed [] with
    | Some (Ok ([], _)) => Some (Err (ValidationFailed ("Invalid patch " +:+
        at_line ln ("Update File " +:+ quoted path +:+ " does not contain any update hunks"))))
    | Some (Ok (chunks, parsed)) =>
        Some (Ok ({| hunk_op := UpdateFile; hunk_path := path; contents := ""; move_path := mv; hunk_chunks := chunks |}, parsed))
    | Some (Err e) => Some (Err e)
    | None => None
    end = Some r ∧ ∀ h n, r = Ok (h, n) → 0 < n ≤ parsed + List.length remaining).
  { intros mv remaining parsed Hp. destruct (update_chunks_total (List.length remaining) remaining ln parsed [] (le_n _)) as (r & -> & Hr).
    destruct r as [[[|c cs] n]|e]; [by eexists| |by eexists]. eexists. split; [done|]. intros h m [= _ <-]. specialize (Hr _ _ eq_refl). lia. }
  destruct rest as [|mv remaining]; [apply (Hup None [] 1); lia|].
  destruct (strip_prefix MOVE_TO_MARKER mv) as [mp|]; [|apply (Hup None (mv :: remaining) 1); lia].
  destruct (validate_path mp _); [|by eexists]. apply (Hup (Some mp) remaining 2). lia.
Qed.
Lemma parse_hunks_total fuel remaining ln acc :
  List.length remaining ≤ fuel → ∃ r, parse_hunks fuel remaining ln acc = Some r.
Proof.
  revert remaining ln acc. induction fuel as [|fuel IH]; intros [|l remaining] ln acc Hfuel; simpl in Hfuel; try by eexists.
  { lia. }
  cbn [parse_hunks]. destruct (one_hunk_total l remaining ln) as (r & -> & Hr). destruct r as [[h n]|e]; [|by eexists].
  specialize (Hr _ _ eq_refl). rewrite drain_Some by (simpl; lia). cbn [mbind option_bind]. apply IH. rewrite length_drop. simpl. lia.
Qed.
(** Parsing never panics and never runs out of fuel. *)
Lemma parse_patch_total patch : ∃ r, parse_patch patch = Some r.
Proof.
  unfold parse_patch. cbv zeta. destruct (check_patch_boundaries _); [|by eexists]. by apply parse_hunks_total.
Qed.

(** * Witnesses and examples *)

Definition sample_docs : list HunkDoc :=
  [DocAdd "notes/new.txt" ["hello"; ""; "world"]; DocDelete "old.txt";
   DocUpdate "src/a.rs" (Some "src/b.rs")
     [{| doc_context := Some "fn f() {"; doc_lines := [Context_ "  let x;"; Removed "  x"; Added "  y"]; doc_eof := false |};
      {| doc_context := None; doc_lines := [Removed "}"; Added "};"]; doc_eof := true |}]].
Lemma sample_printable : Forall hunk_printable sample_docs.
Proof.
  repeat constructor; try (intros n; vm_compute; reflexivity); try done.
Defined.
Lemma parse_print_patch_witness :
  parse_patch (print_patch sample_docs) = Some (Ok (hunk_of <$> sample_docs)) ∧ List.length (hunk_of <$> sample_docs) = 3.
Proof. split; [exact (parse_print_patch sample_docs sample_printable)|reflexivity]. Defined.

Definition plain_chunk (context : option string) (old new : list string) : UpdateFileChunk :=
  {| change_context := context; old_lines := old; new_lines := new; is_end_of_file := false |}.
Definition sample_file : string := join_lines ["a"; "b"; "c"; ""].
Definition sample_chunks : list UpdateFileChunk := [plain_chunk None [] ["z"]; plain_chunk (Some "a") ["b"] ["B"; "B"]].
Lemma sample_placed : Forall (placed (file_lines sample_file)) sample_chunks.
Proof. repeat constructor; intros; vm_compute; congruence. Defined.
Lemma patch_applied_exactly_witness :
  apply_chunks_to_content id sample_file "f" sample_chunks = Some (Ok (join_lines ["a"; "B"; "B"; "c"; "z"; ""])) ∧
  ∃ cs lines, cs ≡ₚ sample_chunks ∧ woven (chunk_fits id) cs (file_lines sample_file) lines ∧
    join_lines ["a"; "B"; "B"; "c"; "z"; ""] = join_lines (close_lines lines) ∧ last (close_lines lines) = Some "".
Proof.
  split; [vm_compute; reflexivity|].
  apply (patch_applied_exactly id sample_file "f" sample_chunks sample_placed). vm_compute. reflexivity.
Defined.

(** A chunk anchored at the end of the file is looked for from there, whatever
    was replaced before: two chunks can claim the same lines, and taking the
    second from the end leaves too few for the first. *)
Definition at_end (old new : list string) : UpdateFileChunk :=
  {| change_context := None; old_lines := old; new_lines := new; is_end_of_file := true |}.
Example end_of_file_chunk_panics :
  apply_chunks_to_content id (join_lines ["a"; "b"; ""]) "f" [plain_chunk None ["a"; "b"] ["A"]; at_end ["b"] []] = None.
Proof. vm_compute. reflexivity. Qed.
(** A pure addition in front of a blank last line that another chunk replaces is lost. *)
Example addition_before_blank_lost :
  apply_chunks_to_content id (join_lines ["a"; ""; ""]) "f" [plain_chunk None ["a"; ""] ["A"; ""]; plain_chunk None [] ["z"]]
  = Some (Ok (join_lines ["A"; ""; ""])).
Proof. vm_compute. reflexivity. Qed.
(** A file that ends in a blank line loses it. *)
Example last_blank_line_lost :
  apply_chunks_to_content id (join_lines ["a"; ""; ""]) "f" [plain_chunk None ["a"] ["b"]] = Some (Ok (join_lines ["b"; ""])).
Proof. vm_compute. reflexivity. Qed.
(** The context of a pure addition is checked and then ignored. *)
Example addition_ignores_context :
  apply_chunks_to_content id (join_lines ["a"; "b"; ""]) "f" [plain_chunk (Some "a") [] ["z"]] = Some (Ok (join_lines ["a"; "b"; "z"; ""])).
Proof. vm_compute. reflexivity. Qed.
(** A blank line may end an added file, and nothing may follow it. *)
Example blank_line_after_added_file :
  parse_patch (join_lines ["*** Begin Patch"; "*** Add File: a"; "+x"; ""; "*** Delete File: b"; "*** End Patch"])
  = Some (Err (ValidationFailed "Invalid patch at line 4: unexpected file header ''")).
Proof. vm_compute. reflexivity. Qed.
