(* ===== verification/Template.v ===== *)
(** Placeholders and paths: wf-common/src/template.rs and the path rules of
    wf-types/src/template.rs.

    A scan locates the spans of a text by byte offsets; the renderers copy the
    text between the spans and replace the closed ones.  Both layers, [{{name}}]
    and [${path}], are the same scan with other delimiters. *)

From S2P Require Import Prelude Strings Json Numbers.

(** [TemplateSpan] and [VariableSpan] *)
Record TemplateSpan : Type := {
  span_start : nat;
  span_end : nat;
  span_name : string;
  span_closed : bool;
}.

(** The loop of [scan_template_spans] and of [scan_variable_spans]. *)
Fixpoint scan_spans (fuel : nat) (opener closer content : string) (offset : nat) (rest : string) :
    list TemplateSpan :=
  match fuel with
  | 0 => []
  | S fuel' =>
      match find_str opener rest with
      | None => []
      | Some start =>
          let abs_start := offset + start in
          let after := drop_str (start + String.length opener) rest in
          match find_str closer after with
          | Some stop =>
              let abs_end := abs_start + String.length opener + stop + String.length closer in
              {| span_start := abs_start; span_end := abs_end; span_name := trim (take_str stop after);
                 span_closed := true |}
                :: scan_spans fuel' opener closer content abs_end (drop_str abs_end content)
          | None =>
              [{| span_start := abs_start; span_end := String.length content; span_name := trim after;
                  span_closed := false |}]
          end
      end
  end.
Definition scan_template_spans (content : string) : list TemplateSpan :=
  scan_spans (S (String.length content)) "{{" "}}" content 0 content.
Definition scan_variable_spans (content : string) : list TemplateSpan :=
  scan_spans (S (String.length content)) "${" "}" content 0 content.

(** The loop of the renderers; [fill] gives the replacement of a closed span, if
    it has one. *)
Fixpoint render_spans (content : string) (fill : string → option string) (spans : list TemplateSpan)
    (cursor : nat) (rendered : string) : string :=
  match spans with
  | [] => rendered +:+ drop_str cursor content
  | sp :: rest =>
      let rendered := rendered +:+ slice cursor (span_start sp) content in
      if span_closed sp then
        let text := default (slice (span_start sp) (span_end sp) content) (fill (span_name sp)) in
        render_spans content fill rest (span_end sp) (rendered +:+ text)
      else rendered +:+ drop_str (span_start sp) content
  end.

(** [apply_template_variables] *)
Definition apply_template_variables (content : string) (variables : gmap string string) : string :=
  if decide (variables = ∅ ∨ contains_str "{{" content = false) then content
  else match scan_template_spans content with
       | [] => content
       | spans =>
           render_spans content (λ name, if decide (name = "") then None else variables !! name) spans 0 ""
       end.

(** [extract_placeholder_names], [find_malformed_template_spans],
    [has_empty_template_placeholder], [has_unresolved_placeholders] *)
Definition push_new (out : list string) (x : string) : list string :=
  if decide (x ∈ out) then out else out ++ [x].
Definition extract_placeholder_names (content : string) : list string :=
  foldl (λ out sp, if span_closed sp && bool_decide (span_name sp ≠ "") then push_new out (span_name sp) else out)
    [] (scan_template_spans content).
Definition find_malformed_template_spans (content : string) : list string :=
  foldl (λ out sp, if span_closed sp then out else push_new out (span_name sp)) []
    (scan_template_spans content).
Definition has_empty_template_placeholder (content : string) : bool :=
  existsb (λ sp, span_closed sp && bool_decide (span_name sp = "")) (scan_template_spans content).
Definition has_unresolved_placeholders (content : string) : bool :=
  bool_decide (extract_placeholder_names content ≠ [])
  || bool_decide (find_malformed_template_spans content ≠ []) || has_empty_template_placeholder content.

(** * Paths *)

(** [is_valid_template_path_segment] *)
Definition is_identifier_start (c : ascii) : bool := is_ascii_alphabetic c || bool_decide (c = "_"%char).
Definition is_identifier_char (c : ascii) : bool := is_ascii_alphanumeric c || bool_decide (c = "_"%char).
Fixpoint all_chars (f : ascii → bool) (s : string) : bool :=
  match s with EmptyString => true | String c s' => f c && all_chars f s' end.
Definition is_valid_template_path_segment (segment : string) : bool :=
  match segment with
  | EmptyString => false
  | String c s' =>
      all_chars is_ascii_digit segment || is_identifier_start c && all_chars is_identifier_char s'
  end.

(** [validate_template_path]; the reason is not told apart further. *)
Definition validate_template_path (path : string) : option string :=
  if decide (trim path = "") then Some "template path cannot be empty"
  else if starts_with "." path || ends_with "." path || contains_str ".." path
  then Some "template path has empty segments"
  else if forallb is_valid_template_path_segment (split "."%char path) then None
  else Some "template path has an invalid segment".

(** One segment of [resolve_value_path_ref] and of the variable lookup. *)
Definition step_path (v : value) (part : string) : option value :=
  match v with
  | VObject _ => get v part
  | VArray items => index ← parse_usize part; items !! Z.to_nat index
  | _ => None
  end.
(** [resolve_value_path_ref] *)
Definition resolve_value_path (path : string) (context : gmap string value) : option value :=
  match split "."%char path with
  | [] => None
  | first :: parts =>
      if decide (first = "") then None
      else
        v ← context !! first;
        foldl (λ cur part, v ← cur; if decide (part = "") then None else step_path v part) (Some v) parts
  end.

(** [template_value_to_display_string]; the JSON text of a value is
    [serde_json]'s. *)
Class JsonText : Type := { json_text : value → string }.
Definition value_to_display_string `{JsonText} (v : value) : string :=
  match v with VString s => s | VNull => "" | other => json_text other end.

(** [apply_template_variables_with_structured_context] *)
Definition apply_structured `{JsonText} (content : string) (flat : gmap string string)
    (context : gmap string value) : string :=
  if contains_str "{{" content then
    match scan_template_spans content with
    | [] => content
    | spans =>
        render_spans content (λ name,
          match flat !! name with
          | Some v => Some v
          | None =>
              if decide (name ≠ "" ∧ validate_template_path name = None)
              then value_to_display_string <$> resolve_value_path name context
              else None
          end) spans 0 ""
    end
  else content.

(** * Specification: a text as a sequence of pieces *)

Inductive piece : Type :=
| Text (s : string)
| Hole (raw name : string).
Definition raw_piece (p : piece) : string := match p with Text s => s | Hole raw _ => raw end.
Definition fill_piece (fill : string → option string) (p : piece) : string :=
  match p with Text s => s | Hole raw name => default raw (fill name) end.
Definition join (l : list string) : string := foldr String.append "" l.

Fixpoint pieces (fuel : nat) (opener closer s : string) : list piece :=
  match fuel with
  | 0 => [Text s]
  | S fuel' =>
      match find_str opener s with
      | None => [Text s]
      | Some start =>
          let after := drop_str (start + String.length opener) s in
          match find_str closer after with
          | None => [Text (take_str start s); Text (drop_str start s)]
          | Some stop =>
              Text (take_str start s)
                :: Hole (opener +:+ take_str stop after +:+ closer) (trim (take_str stop after))
                :: pieces fuel' opener closer (drop_str (stop + String.length closer) after)
          end
      end
  end.
Definition template_pieces (s : string) : list piece := pieces (S (String.length s)) "{{" "}}" s.
Definition variable_pieces (s : string) : list piece := pieces (S (String.length s)) "${" "}" s.

Lemma drop_found p s n :
  find_str p s = Some n →
  drop_str n s = p +:+ drop_str (n + String.length p) s ∧ n + String.length p ≤ String.length s.
Proof.
  intros (t & u & -> & <-)%find_str_Some.
  rewrite <-drop_drop_str, !drop_str_app, !length_append. split; [done|lia].
Qed.

Section pieces.
  Context (opener closer : string).

Lemma pieces_raw fuel s : join (raw_piece <$> pieces fuel opener closer s) = s.
Proof.
  revert s. induction fuel as [|fuel IH]; intros s; cbn [pieces].
  { cbn. apply append_nil_r. }
  destruct (find_str opener s) as [start|] eqn:Ho; [|cbn; apply append_nil_r].
  destruct (drop_found _ _ _ Ho) as [Hd _].
  set (after := drop_str (start + String.length opener) s) in *.
  destruct (find_str closer after) as [stop|] eqn:Hc.
  - destruct (drop_found _ _ _ Hc) as [Hd' _].
    change (take_str start s +:+ ((opener +:+ take_str stop after +:+ closer) +:+
      join (raw_piece <$> pieces fuel opener closer (drop_str (stop + String.length closer) after))) = s).
    rewrite IH, !append_assoc, <-Hd', take_drop_str, <-Hd. apply take_drop_str.
  - cbn. rewrite append_nil_r. apply take_drop_str.
Qed.

(** What follows the first span is shorter by at least the opener. *)
Lemma rest_shorter s start stop :
  0 < String.length opener → find_str opener s = Some start →
  let after := drop_str (start + String.length opener) s in
  String.length (drop_str (stop + String.length closer) after) < String.length s.
Proof.
  intros Hpos Ho. destruct (drop_found _ _ _ Ho) as [_ Hlen]. cbv zeta.
  rewrite !length_drop_str. lia.
Qed.

Lemma render_pieces fill fuel content offset rest acc :
  0 < String.length opener → rest = drop_str offset content → offset ≤ String.length content →
  String.length rest < fuel →
  render_spans content fill (scan_spans fuel opener closer content offset rest) offset acc =
    acc +:+ join (fill_piece fill <$> pieces fuel opener closer rest).
Proof.
  intros Hpos. revert offset rest acc. induction fuel as [|fuel IH]; intros offset rest acc Hr Hle Hf; [lia|].
  cbn [scan_spans pieces].
  destruct (find_str opener rest) as [start|] eqn:Ho.
  2: { cbn. by rewrite append_nil_r, Hr. }
  pose proof (drop_found _ _ _ Ho) as [Hd Hlo].
  pose proof (rest_shorter rest start) as Hs. cbv zeta in Hs.
  set (after := drop_str (start + String.length opener) rest) in *.
  assert (Hlr : String.length rest = String.length content - offset) by (by rewrite Hr, length_drop_str).
  assert (Hpre : slice offset (offset + start) content = take_str start rest).
  { unfold slice. rewrite <-Hr. f_equal. lia. }
  destruct (find_str closer after) as [stop|] eqn:Hc; cbn [render_spans span_closed span_start span_end span_name].
  - destruct (drop_found _ _ _ Hc) as [Hd' Hlc].
    set (abs_end := offset + start + String.length opener + stop + String.length closer).
    assert (Hrest : drop_str abs_end content = drop_str (stop + String.length closer) after).
    { subst abs_end after. rewrite Hr, !drop_drop_str. f_equal. lia. }
    assert (Hraw : slice (offset + start) abs_end content = opener +:+ take_str stop after +:+ closer).
    { unfold slice. rewrite <-drop_drop_str, <-Hr, Hd.
      replace (abs_end - (offset + start))
        with (String.length (opener +:+ take_str stop after +:+ closer)).
      2: { subst abs_end. rewrite !length_append, length_take_str. lia. }
      replace (opener +:+ after) with ((opener +:+ take_str stop after +:+ closer)
        +:+ drop_str (stop + String.length closer) after).
      { apply take_str_app. }
      rewrite !append_assoc, <-Hd'. by rewrite take_drop_str. }
    rewrite Hrest. rewrite IH; [| by rewrite Hrest| |specialize (Hs stop Hpos Ho); lia].
    2: { subst abs_end. assert (String.length after = String.length rest - (start + String.length opener))
           by apply length_drop_str. lia. }
    rewrite Hpre, Hraw. cbn [fmap list_fmap fill_piece join foldr]. by rewrite !append_assoc.
  - cbn [fmap list_fmap fill_piece join foldr]. rewrite Hpre, append_nil_r, append_assoc.
    by rewrite <-drop_drop_str, <-Hr.
Qed.
End pieces.

Lemma fill_pieces_raw fill ps :
  (∀ name, fill name = None) → join (fill_piece fill <$> ps) = join (raw_piece <$> ps).
Proof.
  intros Hf. f_equal. apply list_fmap_ext. intros _ [s|raw name] _; cbn; [done|by rewrite Hf].
Qed.
Lemma scan_nil fuel opener closer content rest :
  scan_spans (S fuel) opener closer content 0 rest = [] →
  pieces (S fuel) opener closer rest = [Text rest].
Proof.
  cbn [scan_spans pieces]. destruct (find_str opener rest); [|done]. by destruct (find_str closer _).
Qed.
Lemma contains_find p s : contains_str p s = false → find_str p s = None.
Proof.
  unfold contains_str. intros H%bool_decide_eq_false_1. destruct (find_str p s) eqn:Hf; [|done].
  destruct H. eauto.
Qed.

(** Rendering a text whose spans are given is filling its pieces, and with no
    spans it is the text itself. *)
Lemma render_template fill content :
  match scan_template_spans content with
  | [] => content
  | spans => render_spans content fill spans 0 ""
  end = join (fill_piece fill <$> template_pieces content).
Proof.
  pose proof (render_pieces "{{" "}}" fill (S (String.length content)) content 0 content ""
    ltac:(cbn; lia) eq_refl ltac:(lia) ltac:(lia)) as H.
  unfold scan_template_spans, template_pieces in *.
  destruct (scan_spans _ _ _ _ _ _) as [|sp spans] eqn:Hs; [|exact H].
  rewrite (scan_nil _ _ _ _ _ Hs). cbn. by rewrite append_nil_r.
Qed.
Lemma render_variables fill content :
  match scan_variable_spans content with
  | [] => content
  | spans => render_spans content fill spans 0 ""
  end = join (fill_piece fill <$> variable_pieces content).
Proof.
  pose proof (render_pieces "${" "}" fill (S (String.length content)) content 0 content ""
    ltac:(cbn; lia) eq_refl ltac:(lia) ltac:(lia)) as H.
  unfold scan_variable_spans, variable_pieces in *.
  destruct (scan_spans _ _ _ _ _ _) as [|sp spans] eqn:Hs; [|exact H].
  rewrite (scan_nil _ _ _ _ _ Hs). cbn. by rewrite append_nil_r.
Qed.

(** Rendering a template is one pass over the text: the text is the sequence of its literal pieces
    and placeholders, the rendered text is the same sequence with the placeholders that have a
    value replaced by it, and neither the values nor the literal pieces are looked at
    again. *)
Theorem apply_template_variables_correct (content : string) (variables : gmap string string) :
  let ps := template_pieces content in
  join (raw_piece <$> ps) = content ∧
  apply_template_variables content variables =
    join (fill_piece (λ name, if decide (name = "") then None else variables !! name) <$> ps).
Proof.
  cbv zeta. split; [apply pieces_raw|]. unfold apply_template_variables. case_decide as Hd.
  - destruct Hd as [->|Hc].
    + rewrite fill_pieces_raw; [symmetry; apply pieces_raw|]. intros name. by case_decide.
    + apply contains_find in Hc. unfold template_pieces. cbn [pieces]. rewrite Hc. cbn.
      by rewrite append_nil_r.
  - rewrite <-render_template. by destruct (scan_template_spans content).
Qed.
