(* ===== verification/Expression.v ===== *)
(** The expression language of VARIABLE nodes and the variable resolver:
    wf-workflow/src/variable.rs.

    [ExprEvaluator] parses and evaluates in one pass.  Its state is the input it
    has not consumed, so the model is in the state-and-error monad over that
    string; the loops and the recursion are bounded by a fuel larger than the
    length of the input, which [evaluate_total] shows to be enough. *)

From S2P Require Import Prelude Strings Json Numbers Template.
From Stdlib Require String.

(** [ExpressionError]: a constructor per message; the expression text it also
    carries is left out. *)
Inductive ExpressionError : Type :=
| TrailingTokens
| Expected (b : ascii)
| UnexpectedEnd
| InvalidNumber (text : string)
| UnterminatedString
| UnterminatedReference
| VariableNotFound (name : string)
| UnexpectedCharacter (b : ascii)
| Overflowed
| NonFinite
| RequiresNumeric (op : string)
| DivisionByZero
| ModuloByZero
| PlusNotSupported
| OutOfFuel.

(** [SystemContext] and [resolve_system_path] *)
Record SystemContext : Type := { sys_execution_id : string; sys_node_id : string; sys_node_type : string }.
Definition resolve_system_path (system : SystemContext) (path : string) : option value :=
  let stripped := default path (strip_prefix "variables." path) in
  if decide (stripped = "execution.id") then Some (VString (sys_execution_id system))
  else if decide (stripped = "node.id") then Some (VString (sys_node_id system))
  else if decide (stripped = "node.type") then Some (VString (sys_node_type system))
  else None.

Notation Vars := (gmap string value).

(** [VariableResolver::lookup_variable] *)
Definition lookup_variable (path : string) (variables : Vars) (system : option SystemContext) : option value :=
  match system ≫= λ ctx, resolve_system_path ctx path with
  | Some v => Some v
  | None =>
      let path := default path (strip_prefix "variables." path) in
      match system ≫= λ ctx, resolve_system_path ctx path with
      | Some v => Some v
      | None =>
          if decide (is_Some (validate_template_path path)) then None
          else match split "."%char path with
               | [] => None
               | first :: parts => v ← variables !! first; foldl (λ cur part, cur ≫= λ v, step_path v part) (Some v) parts
               end
      end
  end.

(** [truthy], [equal_values], [compare_values] *)
Definition truthy (v : value) : bool :=
  match v with
  | VNull => false
  | VBool b => b
  | VNumber n => negb (f64_is_zero (number_f64 n))
  | VString s => bool_decide (s ≠ "")
  | VArray a => bool_decide (a ≠ [])
  | VObject o => bool_decide (o ≠ [])
  end.
Definition equal_values (a b : value) : bool :=
  match a, b with
  | VNumber x, VNumber y => f64_eq (number_f64 x) (number_f64 y)
  | _, _ => value_eq a b
  end.
Definition compare_values (a b : value) : option comparison :=
  match a, b with
  | VNumber x, VNumber y => f64_compare (number_f64 x) (number_f64 y)
  | VString x, VString y => Some (String.compare x y)
  | _, _ => None
  end.

Section expression.
  Context `{Json_text : JsonText}.

(** [number_op] and the five operators; [checked] keeps an [i64] in range. *)
Definition checked (z : Z) : option Z := if decide (i64_min <= z <= i64_max)%Z then Some z else None.
Definition number_op (int_op : Z → Z → option Z) (float_op : f64 → f64 → f64) (x y : number) :
    result ExpressionError value :=
  match as_i64 (VNumber x), as_i64 (VNumber y) with
  | Some a, Some b => VNumber ∘ number_of_i64 <$> ok_or Overflowed (int_op a b)
  | _, _ => VNumber <$> ok_or NonFinite (number_of_f64 (float_op (number_f64 x) (number_f64 y)))
  end.
Definition add_values (a b : value) : result ExpressionError value :=
  match a, b with
  | VNumber x, VNumber y => number_op (λ a b, checked (a + b)) f64_add x y
  | VString x, VString y => Ok (VString (x +:+ y))
  | VString x, other => Ok (VString (x +:+ json_text other))
  | other, VString y => Ok (VString (json_text other +:+ y))
  | VArray x, VArray y => Ok (VArray (x ++ y))
  | _, _ => Err PlusNotSupported
  end.
Definition sub_values (a b : value) : result ExpressionError value :=
  match a, b with
  | VNumber x, VNumber y => number_op (λ a b, checked (a - b)) f64_sub x y
  | _, _ => Err (RequiresNumeric "-")
  end.
Definition mul_values (a b : value) : result ExpressionError value :=
  match a, b with
  | VNumber x, VNumber y => number_op (λ a b, checked (a * b)) f64_mul x y
  | _, _ => Err (RequiresNumeric "*")
  end.
Definition div_values (a b : value) : result ExpressionError value :=
  match a, b with
  | VNumber x, VNumber y =>
      if f64_is_zero (number_f64 y) then Err DivisionByZero
      else number_op (λ a b, if decide (b = 0%Z) then None else checked (Z.quot a b)) f64_div x y
  | _, _ => Err (RequiresNumeric "/")
  end.
Definition rem_values (a b : value) : result ExpressionError value :=
  match a, b with
  | VNumber x, VNumber y =>
      if f64_is_zero (number_f64 y) then Err ModuloByZero
      else number_op (λ a b, if decide (b = 0%Z ∨ a = i64_min ∧ b = (-1)%Z) then None else Some (Z.rem a b))
             f64_rem x y
  | _, _ => Err (RequiresNumeric "%")
  end.
(** [negate] *)
Definition negate (a : value) : result ExpressionError value :=
  match a with
  | VNumber x =>
      match as_i64 (VNumber x) with
      | Some i => VNumber ∘ number_of_i64 <$> ok_or Overflowed (checked (- i))
      | None => VNumber <$> ok_or NonFinite (number_of_f64 (f64_opp (number_f64 x)))
      end
  | _ => Err (RequiresNumeric "unary -")
  end.

(** * The tokens *)

Notation P := (SE string ExpressionError).

Definition is_ascii_whitespace (c : ascii) : bool :=
  let n := nat_of_ascii c in bool_decide (n = 32 ∨ n = 9 ∨ n = 10 ∨ n = 12 ∨ n = 13).
Fixpoint skip_ws (s : string) : string :=
  match s with String c s' => if is_ascii_whitespace c then skip_ws s' else s | EmptyString => "" end.
(** [skip_whitespace], [eat] and [eat_single], [expect], [eat_op] *)
Definition skip_whitespace : P () := modify skip_ws.
Definition eat (b : ascii) : P bool := λ s,
  match skip_ws s with
  | String c s' => if decide (c = b) then (s', Ok true) else (String c s', Ok false)
  | EmptyString => ("", Ok false)
  end.
Definition expect (b : ascii) : P () := ok ← eat b; if ok : bool then mret tt else throw (Expected b).
Definition eat_op (prefix second : ascii) : P bool := λ s,
  match skip_ws s with
  | String c (String d s') =>
      if decide (c = prefix ∧ d = second) then (s', Ok true) else (String c (String d s'), Ok false)
  | s' => (s', Ok false)
  end.

(** The longest prefix of characters that satisfy [f]. *)
Fixpoint span_chars (f : ascii → bool) (s : string) : string * string :=
  match s with
  | String c s' => if f c then let r := span_chars f s' in (String c r.1, r.2) else ("", s)
  | EmptyString => ("", "")
  end.

(** [text.push(c as char)]: the byte read as a character of Latin-1, and the
    body of a string literal. *)
Definition push_byte (c : ascii) : string :=
  let n := nat_of_ascii c in
  if decide (n < 128) then String c ""
  else String (ascii_of_nat (192 + n / 64)) (String (ascii_of_nat (128 + n mod 64)) "").
Fixpoint read_string (quote : ascii) (s : string) : option (string * string) :=
  match s with
  | EmptyString => None
  | String c s' =>
      if decide (c = quote) then Some ("", s')
      else
        match s' with
        | String d s'' =>
            if decide (c = "\"%char ∧ d = quote)
            then (λ r, (String quote r.1, r.2)) <$> read_string quote s''
            else (λ r, (push_byte c +:+ r.1, r.2)) <$> read_string quote s'
        | EmptyString => None
        end
  end.

(** * The grammar *)

(** The loops of the binary levels: while [op] finds an operator, parse another
    operand and combine. *)
Notation operator := (value → value → result ExpressionError value).
Fixpoint chain_loop (fuel : nat) (sub : P value) (op : P (option operator)) (v : value) : P value :=
  match fuel with
  | 0 => throw OutOfFuel
  | S fuel' =>
      o ← op;
      match o with
      | Some f => rhs ← sub; v' ← lift (f v rhs); chain_loop fuel' sub op v'
      | None => mret v
      end
  end.
Definition chain (fuel : nat) (sub : P value) (op : P (option operator)) : P value :=
  v ← sub; chain_loop fuel sub op v.
Definition or_else {A} (m1 m2 : P (option A)) : P (option A) :=
  o ← m1; match o with Some a => mret (Some a) | None => m2 end.
Definition when_op {A} (m : P bool) (a : A) : P (option A) :=
  b ← m; mret (if b : bool then Some a else None).

Definition or_op : P (option operator) :=
  when_op (eat_op "|" "|") (λ a b, Ok (VBool (truthy a || truthy b))).
Definition and_op : P (option operator) :=
  when_op (eat_op "&" "&") (λ a b, Ok (VBool (truthy a && truthy b))).
Definition equality_op : P (option operator) :=
  or_else (when_op (eat_op "=" "=") (λ a b, Ok (VBool (equal_values a b))))
          (when_op (eat_op "!" "=") (λ a b, Ok (VBool (negb (equal_values a b))))).
(** [compare_values(..)?.map(..).unwrap_or(false)] *)
Definition compare_op (f : comparison → bool) : operator := λ a b,
  Ok (VBool (match compare_values a b with Some o => f o | None => false end)).
Definition is_le (o : comparison) : bool := match o with Gt => false | _ => true end.
Definition is_lt (o : comparison) : bool := match o with Lt => true | _ => false end.
Definition is_ge (o : comparison) : bool := match o with Lt => false | _ => true end.
Definition is_gt (o : comparison) : bool := match o with Gt => true | _ => false end.
Definition relational_op : P (option operator) :=
  less ← eat "<";
  if less : bool then eq ← eat "="; mret (Some (compare_op (if eq : bool then is_le else is_lt)))
  else
    greater ← eat ">";
    if greater : bool then eq ← eat "="; mret (Some (compare_op (if eq : bool then is_ge else is_gt)))
    else mret None.
Definition additive_op : P (option operator) :=
  or_else (when_op (eat "+") add_values) (when_op (eat "-") sub_values).
Definition multiplicative_op : P (option operator) :=
  or_else (when_op (eat "*") mul_values) (or_else (when_op (eat "/") div_values) (when_op (eat "%") rem_values)).

Section grammar.
  Context (variables : Vars) (system : option SystemContext).

(** [lookup_variable(..).ok_or_else(..)] *)
Definition variable (name : string) : P value :=
  lift (ok_or (VariableNotFound name) (lookup_variable name variables system)).

(** [resolve_braced_span] *)
Definition resolve_braced_span : P value :=
  rest ← get_state;
  match scan_variable_spans rest with
  | span :: _ =>
      if span_closed span && bool_decide (span_start span = 0)
      then _ ← put_state (drop_str (span_end span) rest); variable (span_name span)
      else throw UnterminatedReference
  | [] => throw UnterminatedReference
  end.

Definition parse_number : P value :=
  s ← get_state;
  let r := span_chars (λ c, is_ascii_digit c || bool_decide (c = "."%char)) s in
  _ ← put_state r.2;
  match parse_i64 r.1 with
  | Some i => mret (VNumber (number_of_i64 i))
  | None =>
      match parse_f64 r.1 ≫= number_of_f64 with
      | Some n => mret (VNumber n)
      | None => throw (InvalidNumber r.1)
      end
  end.
Definition parse_identifier : P value :=
  s ← get_state;
  let r := span_chars (λ c, is_ascii_alphanumeric c || bool_decide (c = "_"%char ∨ c = "."%char)) s in
  _ ← put_state r.2;
  if decide (r.1 = "true") then mret (VBool true)
  else if decide (r.1 = "false") then mret (VBool false)
  else if decide (r.1 = "null") then mret VNull
  else variable r.1.
Definition parse_literal (quote : ascii) (s' : string) : P value :=
  match read_string quote s' with
  | Some (text, rest) => _ ← put_state rest; mret (VString text)
  | None => throw UnterminatedString
  end.

(** [parse_primary]; [ternary] is the recursive call. *)
Definition parse_primary (ternary : P value) : P value :=
  _ ← skip_whitespace;
  s ← get_state;
  match s with
  | EmptyString => throw UnexpectedEnd
  | String b s' =>
      if is_ascii_digit b || bool_decide (b = "."%char) then parse_number
      else if decide (b = double_quote ∨ b = "'"%char) then parse_literal b s'
      else if decide (b = "("%char) then
        _ ← put_state s';
        v ← ternary;
        _ ← expect ")";
        mret v
      else if decide (b = "$"%char ∧ head (String.list_ascii_of_string s') = Some "{"%char)
      then resolve_braced_span
      else if is_identifier_start b then parse_identifier
      else throw (UnexpectedCharacter b)
  end.
(** [parse_unary] *)
Fixpoint parse_unary (fuel : nat) (ternary : P value) : P value :=
  match fuel with
  | 0 => throw OutOfFuel
  | S fuel' =>
      bang ← eat "!";
      if bang : bool then v ← parse_unary fuel' ternary; mret (VBool (negb (truthy v)))
      else
        minus ← eat "-";
        if minus : bool then v ← parse_unary fuel' ternary; lift (negate v)
        else parse_primary ternary
  end.
(** [parse_multiplicative] to [parse_or] *)
Definition parse_multiplicative (fuel : nat) (ternary : P value) : P value :=
  chain fuel (parse_unary fuel ternary) multiplicative_op.
Definition parse_additive (fuel : nat) (ternary : P value) : P value :=
  chain fuel (parse_multiplicative fuel ternary) additive_op.
Definition parse_relational (fuel : nat) (ternary : P value) : P value :=
  chain fuel (parse_additive fuel ternary) relational_op.
Definition parse_equality (fuel : nat) (ternary : P value) : P value :=
  chain fuel (parse_relational fuel ternary) equality_op.
Definition parse_and (fuel : nat) (ternary : P value) : P value :=
  chain fuel (parse_equality fuel ternary) and_op.
Definition parse_or (fuel : nat) (ternary : P value) : P value :=
  chain fuel (parse_and fuel ternary) or_op.
(** [parse_ternary] *)
Fixpoint parse_ternary (fuel : nat) : P value :=
  match fuel with
  | 0 => throw OutOfFuel
  | S fuel' =>
      cond ← parse_or fuel (parse_ternary fuel');
      question ← eat "?";
      if question : bool then
        then_val ← parse_ternary fuel';
        _ ← expect ":";
        else_val ← parse_ternary fuel';
        mret (if truthy cond then then_val else else_val)
      else mret cond
  end.

(** [ExprEvaluator::evaluate] *)
Definition evaluate (input : string) : result ExpressionError value :=
  ((v ← parse_ternary (S (String.length input));
    _ ← skip_whitespace;
    rest ← get_state;
    if decide (rest = "") then mret v else throw TrailingTokens) input).2.

(** * The resolver *)

(** [VariableResolver::resolve_str] and [resolve] *)
Definition resolve_str (input : string) : value :=
  let spans := scan_variable_spans input in
  let whole :=
    match spans with
    | [sp] =>
        if span_closed sp && bool_decide (span_start sp = 0 ∧ span_end sp = String.length input ∧ span_name sp ≠ "")
        then lookup_variable (span_name sp) variables system
        else None
    | _ => None
    end in
  match whole, spans with
  | Some v, _ => v
  | None, [] => VString input
  | None, _ =>
      VString (render_spans input (λ path,
        if decide (path = "") then None
        else value_to_display_string <$> lookup_variable path variables system) spans 0 "")
  end.
Fixpoint resolve (input : value) : value :=
  match input with
  | VString s => resolve_str s
  | VObject m => VObject (prod_map id resolve <$> m)
  | VArray l => VArray (resolve <$> l)
  | other => other
  end.

(** [is_semantic_evaluation_error]: whether the message has one of the words. *)
Definition is_semantic_evaluation_error (e : ExpressionError) : bool :=
  match e with
  | VariableNotFound _ | RequiresNumeric _ | DivisionByZero | ModuloByZero | Overflowed | NonFinite => true
  | _ => false
  end.

(** [looks_like_expression] *)
Definition is_operator_char (c : ascii) : bool :=
  bool_decide (c ∈ String.list_ascii_of_string "+-*/%<>=!&|?:()").
Fixpoint looks_like (spans : list TemplateSpan) (i : nat) (in_string : option ascii) (s : string) : bool :=
  match s with
  | EmptyString => false
  | String c s' =>
      if existsb (λ sp, bool_decide (span_start sp ≤ i < span_end sp)) spans then looks_like spans (S i) in_string s'
      else match in_string with
           | Some q => looks_like spans (S i) (if decide (c = q) then None else in_string) s'
           | None =>
               if decide (c = double_quote ∨ c = "'"%char) then looks_like spans (S i) (Some c) s'
               else if is_operator_char c
                    && negb (existsb (λ sp, span_closed sp && bool_decide (i = span_end sp ∨ S i = span_start sp)) spans)
               then true
               else looks_like spans (S i) None s'
           end
  end.
Definition looks_like_expression (s : string) : bool := looks_like (scan_variable_spans s) 0 None s.

(** [evaluate_expression] *)
Definition evaluate_expression (expression : string) : result ExpressionError value :=
  let trimmed := trim expression in
  if decide (trimmed ≠ "" ∧ looks_like_expression trimmed = true) then
    match evaluate trimmed with
    | Ok v => Ok v
    | Err e =>
        if contains_str "${" trimmed && negb (is_semantic_evaluation_error e)
        then Ok (resolve (VString expression)) else Err e
    end
  else Ok (resolve (VString expression)).
End grammar.
End expression.

(** * Conversion to a declared type *)

Inductive ConversionError : Type := CannotConvert (target : string) | UnsupportedType (name : string).

Section conversion.
  Context `{Json_text : JsonText}.
  (** [serde_json::from_str] for a map *)
  Variable parse_object : string → option (list (string * value)).

(** [convert_variable_type]; lower-casing beyond ASCII gives none of the four
    words. *)
Definition convert_variable_type (v : value) (variable_type : option string) : result ConversionError value :=
  match variable_type with
  | None => Ok v
  | Some ty =>
      if decide (ty = "number") then
        match v with
        | VNumber n => Ok v
        | VString s =>
            let trimmed := trim s in
            match parse_i64 trimmed with
            | Some i => Ok (VNumber (number_of_i64 i))
            | None => VNumber <$> ok_or (CannotConvert ty) (parse_f64 trimmed ≫= number_of_f64)
            end
        | _ => Err (UnsupportedType ty)
        end
      else if decide (ty = "string") then
        match v with
        | VString s => Ok v
        | VNull => Ok (VString "")
        | other => Ok (VString (json_text other))
        end
      else if decide (ty = "boolean") then
        match v with
        | VBool b => Ok v
        | VString s =>
            let word := to_ascii_lowercase (trim s) in
            if decide (word = "true" ∨ word = "1") then Ok (VBool true)
            else if decide (word = "false" ∨ word = "0") then Ok (VBool false)
            else Err (CannotConvert ty)
        | VNumber n => Ok (VBool (negb (f64_is_zero (number_f64 n))))
        | _ => Err (UnsupportedType ty)
        end
      else if decide (ty = "array") then
        match v with
        | VArray a => Ok v
        | VString s =>
            if decide (trim s = "") then Ok (VArray [])
            else Ok (VArray ((λ part, VString (trim part)) <$> split "," s))
        | _ => Err (UnsupportedType ty)
        end
      else if decide (ty = "object") then
        match v with
        | VObject o => Ok v
        | VString s => VObject <$> ok_or (CannotConvert ty) (parse_object s)
        | _ => Err (UnsupportedType ty)
        end
      else Err (UnsupportedType ty)
  end.
End conversion.
