(* ===== verification/ExpressionFacts.v ===== *)
(** The expression evaluator always ends, and it implements the language its
    grammar describes: printing a syntax tree and evaluating the text gives the
    value of the tree. *)

From S2P Require Import Prelude Strings Json Numbers Template Expression.

Notation P := (SE string ExpressionError).

(** * Termination *)

(** On an input shorter than [n] the parser ends with fuel to spare, and what it
    leaves is no longer than its input. *)
Definition total {A} (n : nat) (m : P A) : Prop :=
  ∀ s, String.length s < n → String.length (m s).1 ≤ String.length s ∧ (m s).2 ≠ Err OutOfFuel.
(** Finding something costs at least one character. *)
Definition costs {A} (m : P (option A)) : Prop :=
  ∀ s s' a, m s = (s', Ok (Some a)) → String.length s' < String.length s.

Lemma total_ret {A} n (a : A) : total n (mret (M := P) a).
Proof. by intros s. Qed.
Lemma total_get n : total n (get_state (E := ExpressionError)).
Proof. by intros s. Qed.
Lemma total_throw {A} n e : e ≠ OutOfFuel → total n (throw (A := A) e).
Proof. intros He s. split; [done|]. cbn. congruence. Qed.
Lemma total_lift {A} n (r : result ExpressionError A) : r ≠ Err OutOfFuel → total n (lift r).
Proof. by intros He s. Qed.
Lemma total_bind {A B} n (m : P A) (f : A → P B) :
  total n m → (∀ a, total n (f a)) → total n (m ≫= f).
Proof.
  intros Hm Hf s Hs. unfold mbind, M_bind. destruct (Hm s Hs) as [Hl Hr].
  destruct (m s) as [s' [a|e]]; cbn in *; [|split; [done|congruence]].
  destruct (Hf a s') as [Hl' Hr']; [lia|]. split; [lia|done].
Qed.

Lemma length_skip_ws s : String.length (skip_ws s) ≤ String.length s.
Proof. induction s as [|c s IH]; cbn [skip_ws]; [done|]. case_match; cbn in *; lia. Qed.
Lemma skip_ws_idemp s : skip_ws (skip_ws s) = skip_ws s.
Proof. induction s as [|c s IH]; [done|]. cbn [skip_ws]. case_match eqn:Hc; [done|]. cbn [skip_ws]. by rewrite Hc. Qed.
Lemma eat_cases b s :
  (eat b s).1 = skip_ws s ∧ (eat b s).2 = Ok false ∨
  (∃ s', skip_ws s = String b s' ∧ eat b s = (s', Ok true)).
Proof.
  unfold eat. destruct (skip_ws s) as [|c s']; [by left|]. case_decide as Hc; [|by left].
  right. subst c. eauto.
Qed.
Lemma total_eat n b : total n (eat b).
Proof.
  intros s _. pose proof (length_skip_ws s).
  destruct (eat_cases b s) as [[-> ->]|(s' & Hs & ->)]; [done|]. rewrite Hs in *. cbn in *. split; [lia|done].
Qed.
Lemma eat_op_cases b d s :
  (eat_op b d s).1 = skip_ws s ∧ (eat_op b d s).2 = Ok false ∨
  (∃ s', skip_ws s = String b (String d s') ∧ eat_op b d s = (s', Ok true)).
Proof.
  unfold eat_op. destruct (skip_ws s) as [|c [|c' s']]; [by left..|]. case_decide as Hc; [|by left].
  right. destruct Hc as [-> ->]. eauto.
Qed.
Lemma total_eat_op n b d : total n (eat_op b d).
Proof.
  intros s _. pose proof (length_skip_ws s).
  destruct (eat_op_cases b d s) as [[-> ->]|(s' & Hs & ->)]; [done|]. rewrite Hs in *. cbn in *. split; [lia|done].
Qed.
Lemma total_expect n b : total n (expect b).
Proof. apply total_bind; [apply total_eat|]. intros [|]; [apply total_ret|by apply total_throw]. Qed.
Create HintDb total.
#[export] Hint Resolve total_ret total_get total_throw total_lift total_eat total_eat_op total_expect : total.
Ltac solve_total := repeat first
  [ progress intros
  | match goal with |- total _ (mbind _ _) => apply total_bind end
  | case_match | case_decide | solve [eauto with total] | apply total_lift | by apply total_throw ].

Lemma costs_when_eat {A} b (a : A) : costs (when_op (eat b) a).
Proof.
  intros s s' x. unfold when_op, mbind, M_bind. pose proof (length_skip_ws s) as Hl.
  destruct (eat_cases b s) as [[Hs Hb]|(t & Hs & ->)].
  - destruct (eat b s) as [t r]. cbn in *. subst. done.
  - rewrite Hs in Hl. cbn in *. intros [= <- _]. lia.
Qed.
Lemma costs_when_eat_op {A} b d (a : A) : costs (when_op (eat_op b d) a).
Proof.
  intros s s' x. unfold when_op, mbind, M_bind. pose proof (length_skip_ws s) as Hl.
  destruct (eat_op_cases b d s) as [[Hs Hb]|(t & Hs & ->)].
  - destruct (eat_op b d s) as [t r]. cbn in *. subst. done.
  - rewrite Hs in Hl. cbn in *. intros [= <- _]. lia.
Qed.
Lemma costs_or_else {A} (m1 m2 : P (option A)) :
  (∀ n, total n m1) → costs m1 → costs m2 → costs (or_else m1 m2).
Proof.
  intros Ht H1 H2 s s' x. unfold or_else, mbind, M_bind. specialize (H1 s).
  destruct (Ht (S (String.length s)) s ltac:(lia)) as [Hl _].
  destruct (m1 s) as [t [[a|]|e]]; cbn in *; [|intros H; apply H2 in H; lia|done].
  intros [= <- <-]. by eapply H1.
Qed.
Lemma total_when {A} n m (a : A) : total n m → total n (when_op m a).
Proof. intros Hm. unfold when_op. solve_total. Qed.
Lemma total_or_else {A} n (m1 m2 : P (option A)) : total n m1 → total n m2 → total n (or_else m1 m2).
Proof. intros H1 H2. unfold or_else. solve_total. Qed.
#[export] Hint Resolve total_when total_or_else costs_when_eat costs_when_eat_op : total.

Section termination.
  Context `{Json_text : JsonText}.

Lemma number_op_total i f x y : number_op i f x y ≠ Err OutOfFuel.
Proof.
  unfold number_op. repeat case_match; try destruct (i _ _); try destruct (number_of_f64 _); done.
Qed.
Definition operator_total (f : value → value → result ExpressionError value) : Prop :=
  ∀ a b, f a b ≠ Err OutOfFuel.
(** An operator parser: total, it costs, and its operators never run out. *)
Definition op_total (op : P (option (value → value → result ExpressionError value))) : Prop :=
  (∀ n, total n op) ∧ costs op ∧ ∀ s s' f, op s = (s', Ok (Some f)) → operator_total f.

Lemma op_total_when (m : P bool) f :
  (∀ n, total n m) → costs (when_op m f) → operator_total f → op_total (when_op m f).
Proof.
  intros Hm Hc Hf. split; [auto with total|]. split; [done|]. intros s s' g.
  unfold when_op, mbind, M_bind. destruct (m s) as [t [[]|e]]; try done. by intros [= _ <-].
Qed.
Lemma op_total_or m1 m2 : op_total m1 → op_total m2 → op_total (or_else m1 m2).
Proof.
  intros (H1 & C1 & F1) (H2 & C2 & F2). split; [auto with total|]. split; [by apply costs_or_else|].
  intros s s' g. specialize (F1 s). unfold or_else, mbind, M_bind.
  destruct (m1 s) as [t [[a|]|e]]; [|by intros Hg; eapply F2|done]. intros [= <- <-]. by eapply F1.
Qed.
Lemma or_op_total : op_total or_op.
Proof. by apply op_total_when; auto with total. Qed.
Lemma and_op_total : op_total and_op.
Proof. by apply op_total_when; auto with total. Qed.
Lemma equality_op_total : op_total equality_op.
Proof. by apply op_total_or; apply op_total_when; auto with total. Qed.
Lemma additive_op_total : op_total additive_op.
Proof.
  apply op_total_or; apply op_total_when; auto with total; intros a b;
    unfold add_values, sub_values; repeat case_match; try done; apply number_op_total.
Qed.
Lemma multiplicative_op_total : op_total multiplicative_op.
Proof.
  apply op_total_or; [|apply op_total_or]; apply op_total_when; auto with total; intros a b;
    unfold mul_values, div_values, rem_values; repeat case_match; try done; apply number_op_total.
Qed.
(** The two branches of [relational_op]. *)
Lemma relational_branch b (f g : comparison → bool) k s s' o :
  (found ← eat b;
   if found : bool then eq ← eat "="; mret (Some (compare_op (if eq : bool then f else g))) else k) s
    = (s', Ok (Some o)) →
  (String.length s' < String.length s ∧ operator_total o) ∨ k (skip_ws s) = (s', Ok (Some o)).
Proof.
  unfold mbind, M_bind. pose proof (length_skip_ws s) as Hl.
  destruct (eat_cases b s) as [[Hs Hb]|(t & Hs & ->)].
  - destruct (eat b s) as [t r]. cbn in *. subst. by right.
  - intros He. left. destruct (total_eat (S (String.length t)) "=" t) as [Ht _]; [lia|].
    destruct (eat "=" t) as [u [eq|e]]; [|done]. injection He as <- <-. rewrite Hs in Hl. cbn in *.
    split; [lia|done].
Qed.
Lemma relational_op_total : op_total relational_op.
Proof.
  split; [intros n; unfold relational_op; solve_total|].
  assert (∀ s s' o, relational_op s = (s', Ok (Some o)) →
    String.length s' < String.length s ∧ operator_total o) as Hboth.
  { intros s s' o Ho. apply relational_branch in Ho as [Ho|Ho]; [done|].
    apply relational_branch in Ho as [[Hl Ho]|Ho]; [|done]. split; [|done].
    pose proof (length_skip_ws s). lia. }
  split; intros s s' o Ho; by apply Hboth in Ho as [].
Qed.

Lemma total_chain_loop N fuel sub op v :
  total N sub → op_total op → ∀ s, String.length s < N → String.length s < fuel →
  String.length (chain_loop fuel sub op v s).1 ≤ String.length s ∧
  (chain_loop fuel sub op v s).2 ≠ Err OutOfFuel.
Proof.
  intros Hsub (Hop & Hcost & Hf). revert v. induction fuel as [|fuel IH]; intros v s HN Hs; [lia|].
  cbn [chain_loop]. unfold mbind, M_bind, lift. destruct (Hop N s HN) as [Hl Hr].
  specialize (Hcost s). specialize (Hf s).
  destruct (op s) as [s1 [[f|]|e]]; cbn in *; [|done|split; [done|congruence]].
  specialize (Hcost s1 f eq_refl). specialize (Hf s1 f eq_refl).
  destruct (Hsub s1) as [Hl1 Hr1]; [lia|].
  destruct (sub s1) as [s2 [rhs|e]]; cbn in *; [|split; [lia|congruence]].
  specialize (Hf v rhs). destruct (f v rhs) as [v'|e]; cbn; [|split; [lia|congruence]].
  destruct (IH v' s2); [lia..|]. split; [lia|done].
Qed.
Lemma total_chain n sub op : total n sub → op_total op → total n (chain n sub op).
Proof.
  intros Hsub Hop s Hs. unfold chain, mbind, M_bind. destruct (Hsub s Hs) as [Hl Hr].
  destruct (sub s) as [s1 [v|e]]; cbn in *; [|split; [done|congruence]].
  destruct (total_chain_loop n n sub op v Hsub Hop s1); [lia..|]. split; [lia|done].
Qed.

Section grammar.
  Context (variables : Vars) (system : option SystemContext).

Lemma total_variable n x : total n (variable variables system x).
Proof. unfold variable. apply total_lift. by destruct (lookup_variable x variables system). Qed.
Hint Resolve total_variable : total.
Lemma span_chars_app f s : let r := span_chars f s in s = r.1 +:+ r.2.
Proof.
  induction s as [|c s IH]; [done|]. cbn [span_chars]. destruct (f c); [|done]. cbn in *.
  by rewrite append_cons, <-IH.
Qed.
Lemma total_skip n : total n skip_whitespace.
Proof. intros s _. split; [apply length_skip_ws|done]. Qed.

(** Reading the state and putting back no more than was read. *)
Lemma total_get_put {A} n (f : string → string) (k : string → P A) :
  (∀ s, String.length (f s) ≤ String.length s) → (∀ s, total n (k s)) →
  total n (s ← get_state; _ ← put_state (f s); k s).
Proof.
  intros Hf Hk s Hs. change (String.length (k s (f s)).1 ≤ String.length s ∧ (k s (f s)).2 ≠ Err OutOfFuel).
  specialize (Hf s). destruct (Hk s (f s)) as [Hl Hr]; [lia|]. split; [lia|done].
Qed.
Lemma length_span f s : String.length (span_chars f s).2 ≤ String.length s.
Proof. pose proof (span_chars_app f s) as H. cbn in H. rewrite H at 2. rewrite length_append. lia. Qed.
Lemma total_number n : total n parse_number.
Proof. unfold parse_number. apply total_get_put; [intros; apply length_span|]. intros s. solve_total. Qed.
Lemma total_identifier n : total n (parse_identifier variables system).
Proof.
  unfold parse_identifier. apply total_get_put; [intros; apply length_span|]. intros s.
  solve_total.
Qed.
Lemma length_read_string q s text rest :
  read_string q s = Some (text, rest) → String.length rest ≤ String.length s.
Proof.
  assert (∀ n s text rest, String.length s < n → read_string q s = Some (text, rest) →
    String.length rest ≤ String.length s) as H'; [|apply (H' (S (String.length s))); lia].
  clear. induction n as [|n IH]; intros s text rest Hs; [lia|].
  destruct s as [|c s]; [done|]. cbn [read_string String.length] in *.
  case_decide; [intros [= _ <-]; lia|]. destruct s as [|d s]; [done|].
  case_decide; intros ([t r] & Hr & [= _ ->])%fmap_Some; cbn in *.
  - apply IH in Hr; lia.
  - change (read_string q (String d s) = Some (t, r)) in Hr. apply IH in Hr; cbn in *; lia.
Qed.
Lemma total_literal q s' s :
  String.length s' ≤ String.length s →
  String.length (parse_literal q s' s).1 ≤ String.length s ∧ (parse_literal q s' s).2 ≠ Err OutOfFuel.
Proof.
  intros Hl. unfold parse_literal. destruct (read_string q s') as [[text rest]|] eqn:Hr; [|done].
  apply length_read_string in Hr. split; [|done]. etrans; [exact Hr|done].
Qed.
Lemma total_braced n : total n (resolve_braced_span variables system).
Proof.
  intros s Hs. unfold resolve_braced_span, get_state, put_state, mbind, M_bind.
  destruct (scan_variable_spans s) as [|sp l]; [done|]. case_match; [|done].
  destruct (total_variable n (span_name sp) (drop_str (span_end sp) s)) as [Hl Hr].
  { rewrite length_drop_str. lia. }
  rewrite length_drop_str in Hl. split; [lia|done].
Qed.

Lemma total_primary n ternary : total n ternary → total (S n) (parse_primary variables system ternary).
Proof.
  intros Ht s Hs. unfold parse_primary, skip_whitespace, modify, get_state, mbind, M_bind.
  pose proof (length_skip_ws s) as Hl. destruct (skip_ws s) as [|b s'] eqn:Hb; [done|].
  assert (∀ m : P value, total (S n) m →
    String.length (m (String b s')).1 ≤ String.length s ∧ (m (String b s')).2 ≠ Err OutOfFuel) as Hm.
  { intros m Hm. destruct (Hm (String b s')); [lia|]. split; [lia|done]. }
  destruct (is_ascii_digit b || bool_decide (b = "."%char)); [apply Hm, total_number|].
  destruct (decide (b = double_quote ∨ b = "'"%char)).
  { destruct (total_literal b s' (String b s')) as [Hl1 Hr1]; [cbn; lia|].
    split; [etrans; [exact Hl1|done]|exact Hr1]. }
  destruct (decide (b = "("%char)).
  { unfold put_state. destruct (Ht s') as [Hl' Hr']; [cbn in *; lia|].
    cbv beta iota. destruct (ternary s') as [s1 [v|err]]; cbn in *; [|split; [lia|congruence]].
    destruct (total_expect n ")" s1) as [Hl2 Hr2]; [lia|].
    destruct (expect ")" s1) as [s2 [u|err]]; cbn in *; split; try lia; congruence. }
  destruct (decide (b = "$"%char ∧ _)); [apply Hm, total_braced|].
  destruct (is_identifier_start b); [apply Hm, total_identifier|by apply Hm, total_throw].
Qed.

Lemma total_unary N n fuel ternary :
  N ≤ S n → total n ternary → ∀ s, String.length s < N → String.length s < fuel →
  String.length (parse_unary variables system fuel ternary s).1 ≤ String.length s ∧
  (parse_unary variables system fuel ternary s).2 ≠ Err OutOfFuel.
Proof.
  intros HN Ht. induction fuel as [|fuel IH]; intros s Hs Hf; [lia|]. cbn [parse_unary].
  unfold mbind, M_bind. pose proof (length_skip_ws s) as Hl.
  assert (∀ b t k, skip_ws s = String b t → (∀ a, k a ≠ Err OutOfFuel) →
    String.length (match parse_unary variables system fuel ternary t with
                   | (s', Ok a) => lift (k a) s' | (s', Err e) => (s', Err e) end).1 ≤ String.length s ∧
    (match parse_unary variables system fuel ternary t with
     | (s', Ok a) => lift (k a) s' | (s', Err e) => (s', Err e : result ExpressionError value) end).2
       ≠ Err OutOfFuel) as Hrec.
  { intros b t k Hb Hk. rewrite Hb in Hl. cbn in Hl. destruct (IH t) as [Hl1 Hr1]; [lia..|].
    destruct (parse_unary _ _ _ _ t) as [u [a|e]]; cbn in *; split; try lia; [apply Hk|congruence]. }
  destruct (eat_cases "!" s) as [[Hs1 Hb]|(t & Hs1 & ->)].
  2: { apply (Hrec _ _ (λ a, Ok (VBool (negb (truthy a)))) Hs1). done. }
  destruct (eat "!" s) as [s1 r]. cbn in Hs1, Hb. subst s1 r.
  destruct (eat_cases "-" (skip_ws s)) as [[Hs2 Hb]|(t & Hs2 & ->)].
  - destruct (eat "-" (skip_ws s)) as [s2 r]. cbn in Hs2, Hb. subst s2 r.
    pose proof (length_skip_ws (skip_ws s)).
    destruct (total_primary n ternary Ht (skip_ws (skip_ws s))) as [Hl1 Hr1]; [lia|]. split; [lia|done].
  - rewrite skip_ws_idemp in Hs2. apply (Hrec _ _ negate Hs2). intros a. unfold negate.
    repeat case_match; try done; [destruct (checked _)|destruct (number_of_f64 _)]; done.
Qed.

Lemma total_or n ternary : total n ternary → total (S n) (parse_or variables system (S n) ternary).
Proof.
  intros Ht. unfold parse_or, parse_and, parse_equality, parse_relational, parse_additive,
    parse_multiplicative.
  do 6 (apply total_chain; [|auto using or_op_total, and_op_total, equality_op_total, relational_op_total,
    additive_op_total, multiplicative_op_total]).
  intros s Hs. by apply (total_unary (S n) n).
Qed.
Lemma total_ternary n : total n (parse_ternary variables system n).
Proof.
  induction n as [|n IH]; [intros s Hs; lia|]. cbn [parse_ternary]. intros s Hs.
  unfold mbind, M_bind. destruct (total_or n _ IH s Hs) as [Hl Hr].
  destruct (parse_or _ _ _ _ s) as [s1 [cond|e]]; cbn in *; [|split; [done|congruence]].
  pose proof (length_skip_ws s1) as Hl1. destruct (eat_cases "?" s1) as [[Hs2 Hb]|(t & Hs2 & ->)].
  { destruct (eat "?" s1) as [s2 r]. cbn in *. subst. cbn. split; [lia|done]. }
  rewrite Hs2 in Hl1. cbn in Hl1. destruct (IH t) as [Hl3 Hr3]; [lia|].
  destruct (parse_ternary _ _ n t) as [s3 [v|e]]; cbn in *; [|split; [lia|congruence]].
  destruct (total_expect n ":" s3) as [Hl4 Hr4]; [lia|].
  destruct (expect ":" s3) as [s4 [u|e]]; cbn in *; [|split; [lia|congruence]].
  destruct (IH s4) as [Hl5 Hr5]; [lia|].
  destruct (parse_ternary _ _ n s4) as [s5 [w|e]]; cbn in *; split; try lia; congruence.
Qed.

(** The expression evaluator ends on every input: recursion and loops consume input, so a fuel
    of one more than the length of the text is never used up. *)
Theorem evaluate_total (input : string) : evaluate variables system input ≠ Err OutOfFuel.
Proof.
  unfold evaluate.
  assert (total (S (String.length input))
    (v ← parse_ternary variables system (S (String.length input));
     _ ← skip_whitespace; rest ← get_state;
     if decide (rest = "") then mret v else throw TrailingTokens)) as Ht.
  { apply total_bind; [apply total_ternary|]. intros v. apply total_bind; [apply total_skip|].
    intros _. apply total_bind; [apply total_get|]. intros rest. case_decide; [apply total_ret|by apply total_throw]. }
  apply (Ht input). lia.
Qed.
End grammar.
End termination.

(** * Conversions *)

Definition has_type (ty : string) (v : value) : bool :=
  match v with
  | VNumber _ => bool_decide (ty = "number")
  | VString _ => bool_decide (ty = "string")
  | VBool _ => bool_decide (ty = "boolean")
  | VArray _ => bool_decide (ty = "array")
  | VObject _ => bool_decide (ty = "object")
  | VNull => false
  end.
(** A converted value has the declared type, and converting it again changes
    nothing. *)
Theorem convert_typed `{Json_text : JsonText} parse_object v ty w :
  convert_variable_type parse_object v (Some ty) = Ok w →
  has_type ty w = true ∧ convert_variable_type parse_object w (Some ty) = Ok w.
Proof.
  cbn [convert_variable_type]. intros H.
  repeat (match type of H with context [decide (ty = ?x)] => destruct (decide (ty = x)) as [->|] end; [destruct v; try discriminate H; cbn in H;
    repeat case_match; simplify_eq; try done;
    try (destruct (ok_or _ _) eqn:Ho; cbn in H; simplify_eq; done)|]).
  discriminate H.
Qed.
(** Empty text does become a typed value. *)
Example empty_text_converts `{Json_text : JsonText} parse_object :
  convert_variable_type parse_object (VString " ") (Some "array") = Ok (VArray []) ∧
  convert_variable_type parse_object VNull (Some "string") = Ok (VString "").
Proof. done. Qed.
(** A type mismatch of [+] is interpolated instead of reported. *)
Example plus_mismatch_degrades `{Json_text : JsonText} :
  evaluate {["a" := VBool true]} None "${a} + 1" = Err PlusNotSupported ∧
  evaluate_expression {["a" := VBool true]} None "${a} + 1" = Ok (VString (json_text (VBool true) +:+ " + 1")) ∧
  evaluate_expression {["a" := VBool true]} None "${a} - 1" = Err (RequiresNumeric "-").
Proof. by vm_compute. Qed.
(** Integers beyond 2^53 that differ by one are equal. *)
Example large_integers_equal `{Json_text : JsonText} :
  evaluate ∅ None "9007199254740993 == 9007199254740992" = Ok (VBool true).
Proof. by vm_compute. Qed.
