(* ===== verification/ExpressionGrammar.v ===== *)
(** The language of the expression evaluator: syntax trees, their value, their
    text with the parentheses the precedence of the operators asks for, and the
    refinement theorem: evaluating the text gives the value of the tree. *)

From S2P Require Import Prelude Strings Json Numbers Template Expression ExpressionFacts.

(** * Syntax *)

Inductive binop : Type :=
| OpOr | OpAnd | OpEq | OpNe | OpLe | OpLt | OpGe | OpGt | OpAdd | OpSub | OpMul | OpDiv | OpRem.
Inductive expr : Type :=
| ENum (z : Z) | EStr (text : string) | EBool (b : bool) | ENull
| EVar (name : string) | ERef (path : string)
| ENot (a : expr) | ENeg (a : expr)
| EBin (op : binop) (a b : expr)
| ECond (c a b : expr).

(** The levels of the grammar: 0 is the ternary, 7 the unary operators and 8 the
    primary expressions. *)
Definition level (op : binop) : nat :=
  match op with
  | OpOr => 1 | OpAnd => 2 | OpEq | OpNe => 3 | OpLe | OpLt | OpGe | OpGt => 4
  | OpAdd | OpSub => 5 | OpMul | OpDiv | OpRem => 6
  end.
Definition prec (e : expr) : nat :=
  match e with ECond _ _ _ => 0 | EBin op _ _ => level op | ENot _ | ENeg _ => 7 | _ => 8 end.

Definition symbol (op : binop) : string :=
  match op with
  | OpOr => "||" | OpAnd => "&&" | OpEq => "==" | OpNe => "!=" | OpLe => "<=" | OpLt => "<"
  | OpGe => ">=" | OpGt => ">" | OpAdd => "+" | OpSub => "-" | OpMul => "*" | OpDiv => "/" | OpRem => "%"
  end.

(** The text of a string literal: quotes are escaped. *)
Fixpoint escape (s : string) : string :=
  match s with
  | EmptyString => ""
  | String c s' => if decide (c = double_quote) then String "\" (String c (escape s')) else String c (escape s')
  end.
Definition parens (b : bool) (s : string) : string := if b then "(" +:+ s +:+ ")" else s.
(** The text of an expression, and the text at a position of level [l]. *)
Fixpoint pp (e : expr) : string :=
  let at_level l e := parens (bool_decide (prec e < l)) (pp e) in
  match e with
  | ENum z => show_nat z
  | EStr text => String double_quote (escape text +:+ String double_quote "")
  | EBool b => if b then "true" else "false"
  | ENull => "null"
  | EVar name => name
  | ERef path => "${" +:+ path +:+ "}"
  | ENot a => "!" +:+ at_level 7 a
  | ENeg a => "-" +:+ at_level 7 a
  | EBin op a b => at_level (level op) a +:+ " " +:+ symbol op +:+ " " +:+ at_level (S (level op)) b
  | ECond c a b => at_level 1 c +:+ " ? " +:+ at_level 0 a +:+ " : " +:+ at_level 0 b
  end.
Definition pp_at (l : nat) (e : expr) : string := parens (bool_decide (prec e < l)) (pp e).

(** The trees that have a text: a number is a non-negative [i64], a string is
    ASCII and does not end in a backslash (it would escape the closing quote), a
    bare name is an identifier that is no keyword, a reference has no brace. *)
Definition is_name_char (c : ascii) : bool := is_ascii_alphanumeric c || bool_decide (c = "_"%char ∨ c = "."%char).
Definition is_name (s : string) : bool :=
  match s with EmptyString => false | String c s' => is_identifier_start c && all_chars is_name_char s' end
  && bool_decide (s ≠ "true" ∧ s ≠ "false" ∧ s ≠ "null").
Fixpoint printable_text (s : string) : bool :=
  match s with
  | EmptyString => true
  | String c s' => bool_decide (nat_of_ascii c < 128) && bool_decide (c = "\"%char → s' ≠ "") && printable_text s'
  end.
Fixpoint printable (e : expr) : bool :=
  match e with
  | ENum z => bool_decide (0 <= z <= i64_max)%Z
  | EStr text => printable_text text
  | EVar name => is_name name
  | ERef path => negb (contains "}" path) && bool_decide (trim path = path)
  | ENot a | ENeg a => printable a
  | EBin _ a b => printable a && printable b
  | ECond c a b => printable c && printable a && printable b
  | EBool _ | ENull => true
  end.

Section denotation.
  Context `{Json_text : JsonText} (variables : Vars) (system : option SystemContext).

Definition binop_apply (op : binop) (a b : value) : result ExpressionError value :=
  match op with
  | OpOr => Ok (VBool (truthy a || truthy b))
  | OpAnd => Ok (VBool (truthy a && truthy b))
  | OpEq => Ok (VBool (equal_values a b))
  | OpNe => Ok (VBool (negb (equal_values a b)))
  | OpLe => compare_op is_le a b
  | OpLt => compare_op is_lt a b
  | OpGe => compare_op is_ge a b
  | OpGt => compare_op is_gt a b
  | OpAdd => add_values a b
  | OpSub => sub_values a b
  | OpMul => mul_values a b
  | OpDiv => div_values a b
  | OpRem => rem_values a b
  end.
(** The value of a tree: every operand is evaluated, from left to right, also
    those the result does not depend on. *)
Definition denote_name (x : string) : result ExpressionError value :=
  ok_or (VariableNotFound x) (lookup_variable x variables system).
Fixpoint denote (e : expr) : result ExpressionError value :=
  match e with
  | ENum z => Ok (VNumber (PosInt z))
  | EStr text => Ok (VString text)
  | EBool b => Ok (VBool b)
  | ENull => Ok VNull
  | EVar x | ERef x => denote_name x
  | ENot a => v ← denote a; Ok (VBool (negb (truthy v)))
  | ENeg a => v ← denote a; negate v
  | EBin op a b => v ← denote a; w ← denote b; binop_apply op v w
  | ECond c a b => u ← denote c; v ← denote a; w ← denote b; Ok (if truthy u then v else w)
  end.
End denotation.

(** * The parser by levels *)

(** Equality of inputs up to the whitespace in front of them. *)
Definition ws_eq (s t : string) : Prop := skip_ws s = skip_ws t.
#[export] Instance ws_eq_equiv : Equivalence ws_eq.
Proof. split; unfold ws_eq; [by intros s|by intros s t|by intros s t u -> ]. Qed.
Lemma ws_eq_skip s : ws_eq (skip_ws s) s.
Proof. apply skip_ws_idemp. Qed.
#[export] Instance eat_proper b : Proper (ws_eq ==> eq) (eat b).
Proof. intros s t H. unfold eat. by rewrite H. Qed.
#[export] Instance eat_op_proper b d : Proper (ws_eq ==> eq) (eat_op b d).
Proof. intros s t H. unfold eat_op. by rewrite H. Qed.
Lemma when_op_proper {A} (m : P bool) (a : A) :
  Proper (ws_eq ==> eq) m → Proper (ws_eq ==> eq) (when_op m a).
Proof. intros Hm s t H. unfold when_op, mbind, M_bind. by rewrite (Hm _ _ H). Qed.
Lemma or_else_proper {A} (m1 m2 : P (option A)) :
  Proper (ws_eq ==> eq) m1 → Proper (ws_eq ==> eq) (or_else m1 m2).
Proof. intros Hm s t H. unfold or_else, mbind, M_bind. by rewrite (Hm _ _ H). Qed.
#[export] Hint Resolve when_op_proper or_else_proper : typeclass_instances.

Section levels.
  Context `{Json_text : JsonText} (variables : Vars) (system : option SystemContext).

Notation operator := (value → value → result ExpressionError value).
Definition op_at (k : nat) : P (option operator) :=
  match k with
  | 1 => or_op | 2 => and_op | 3 => equality_op | 4 => relational_op | 5 => additive_op
  | _ => multiplicative_op
  end.
#[local] Instance op_at_proper k : Proper (ws_eq ==> eq) (op_at k).
Proof.
  destruct k as [|[|[|[|[|[|k]]]]]]; try apply _.
  intros s t H. unfold op_at, relational_op, mbind, M_bind. by rewrite H.
Qed.
Lemma op_at_total k : op_total (op_at k).
Proof.
  destruct k as [|[|[|[|[|[|k]]]]]]; cbn [op_at];
    auto using or_op_total, and_op_total, equality_op_total, relational_op_total,
      additive_op_total, multiplicative_op_total.
Qed.

(** The parser of level [7 - d], then the parser of any level; inputs of at most
    [n] characters are within its fuel. *)
Fixpoint parse_down (d n : nat) (ternary : P value) : P value :=
  match d with
  | 0 => parse_unary variables system (S n) ternary
  | S d' => chain (S n) (parse_down d' n ternary) (op_at (6 - d'))
  end.
Definition parse_at (l n : nat) : P value :=
  let ternary := parse_ternary variables system n in
  if decide (l = 0) then parse_ternary variables system (S n)
  else if decide (l = 8) then parse_primary variables system ternary
  else parse_down (7 - l) n ternary.
Lemma parse_at_chain k n :
  1 ≤ k ≤ 6 → parse_at k n = chain (S n) (parse_at (S k) n) (op_at k).
Proof. intros Hk. destruct k as [|[|[|[|[|[|[|k]]]]]]]; try lia; reflexivity. Qed.
Lemma parse_at_total l n : l ≤ 8 → total (S n) (parse_at l n).
Proof.
  intros Hl. unfold parse_at. pose proof (total_ternary variables system n) as Ht.
  case_decide; [apply total_ternary|]. case_decide; [by apply total_primary|].
  generalize (7 - l) as d. induction d as [|d IH]; [intros s Hs; by apply (total_unary _ _ (S n) n)|].
  apply total_chain; [done|apply op_at_total].
Qed.

(** * What an expression is followed by *)

Definition op_none (k : nat) (rest : string) : Prop :=
  ∃ s', op_at k rest = (s', Ok None) ∧ ws_eq s' rest.
(** No character that continues a word, no operator of level [l] or above. *)
Record stops (l : nat) (rest : string) : Prop := {
  stops_word : match rest with String c _ => is_name_char c = false | EmptyString => True end;
  stops_op k : l ≤ k → 1 ≤ k ≤ 6 → op_none k rest;
  stops_question : l = 0 → (eat "?" rest).2 = Ok false;
}.
Lemma stops_mono l l' rest : l ≤ l' → stops l rest → stops l' rest.
Proof. intros Hl [Hw Ho Hq]. split; [done|intros k ??; apply Ho; lia|intros ->; apply Hq; lia]. Qed.
(** The levels from [k] on, one by one. *)
Ltac each_level k := destruct k as [|[|[|[|[|[|[|k]]]]]]]; try lia.
Ltac solve_stops :=
  split; [vm_compute; done|
    intros k ??; each_level k; (eexists; split; [vm_compute; reflexivity|]; reflexivity)|
    first [intros _; vm_compute; reflexivity | done]].
Lemma stops_nil : stops 0 "".
Proof. solve_stops. Qed.
Lemma stops_paren r : stops 0 (")" +:+ r).
Proof. destruct r; solve_stops. Qed.
Lemma stops_colon r : stops 0 (" : " +:+ r).
Proof. solve_stops. Qed.
Lemma stops_then r : stops 1 (" ? " +:+ r).
Proof. solve_stops. Qed.
Lemma stops_binop op r : stops (S (level op)) (" " +:+ symbol op +:+ " " +:+ r).
Proof. destruct op; cbn [level]; solve_stops. Qed.

(** The first character of an operand: no whitespace and no [=], and at the last
    level no unary operator either. *)
Definition operand_start (c : ascii) : bool := negb (is_ascii_whitespace c) && negb (bool_decide (c = "="%char)).
Definition primary_start (c : ascii) : bool :=
  operand_start c && negb (bool_decide (c = "!"%char ∨ c = "-"%char)).
Definition starts (f : ascii → bool) (s : string) : Prop :=
  match s with String c _ => f c = true | EmptyString => False end.
Lemma operand_not_ws c : operand_start c = true → is_ascii_whitespace c = false.
Proof. unfold operand_start. by destruct (is_ascii_whitespace c). Qed.
Lemma skip_ws_starts s : starts operand_start s → skip_ws s = s.
Proof. destruct s as [|c s]; [done|]. cbn. by intros ->%operand_not_ws. Qed.

Lemma eat_no_equals r : starts operand_start r → eat "=" (" " +:+ r) = (r, Ok false).
Proof.
  intros Hr. unfold eat. change (skip_ws (" " +:+ r)) with (skip_ws r). rewrite skip_ws_starts by done.
  destruct r as [|c r]; [done|]. unfold starts, operand_start in Hr.
  apply andb_true_iff in Hr as [_ He%negb_true_iff]. apply bool_decide_eq_false in He. by rewrite decide_False.
Qed.
Lemma op_hit op s r :
  ws_eq s (" " +:+ symbol op +:+ " " +:+ r) → starts operand_start r →
  ∃ s', op_at (level op) s = (s', Ok (Some (binop_apply op))) ∧ ws_eq s' r ∧
        String.length s' < String.length s.
Proof.
  intros Hs Hr. destruct (op_at_total (level op)) as (_ & Hcosts & _). specialize (Hcosts s).
  rewrite (op_at_proper _ _ _ Hs) in Hcosts |- *.
  assert (∃ s', op_at (level op) (" " +:+ symbol op +:+ " " +:+ r) = (s', Ok (Some (binop_apply op))) ∧
    ws_eq s' r) as (s' & He & Hw); [|exists s'; split; [done|]; split; [done|by eapply Hcosts]].
  clear Hcosts Hs s.
  destruct op; try (eexists; split; [reflexivity|apply ws_eq_skip || reflexivity]).
  all: exists r; split; [|done]; cbn [op_at level]; unfold relational_op, mbind, M_bind.
  - change (eat "<" (" " +:+ symbol OpLt +:+ " " +:+ r)) with (" " +:+ r, @Ok ExpressionError _ true).
    cbv iota beta. by rewrite eat_no_equals.
  - change (eat "<" (" " +:+ symbol OpGt +:+ " " +:+ r)) with (">" +:+ " " +:+ r, @Ok ExpressionError _ false).
    cbv iota beta. change (eat ">" (">" +:+ " " +:+ r)) with (" " +:+ r, @Ok ExpressionError _ true).
    cbv iota beta. by rewrite eat_no_equals.
Qed.

(** * Reading *)

(** From [s], [m] gives the result [r], and on success leaves [rest]. *)
Definition reads (m : P value) (s : string) (r : result ExpressionError value) (rest : string) : Prop :=
  match r with
  | Ok v => ∃ s', m s = (s', Ok v) ∧ ws_eq s' rest
  | Err e => (m s).2 = Err e
  end.
Definition reads_at (l n : nat) (e : expr) : Prop := ∀ s rest,
  ws_eq s (pp_at l e +:+ rest) → String.length s ≤ n → stops l rest →
  reads (parse_at l n) s (denote variables system e) rest.
(** At a binary level the operand may be followed by an operator of the same
    level: the loop goes on from the operand's value. *)
Definition spine (k n : nat) (e : expr) : Prop := ∀ s rest,
  ws_eq s (pp_at k e +:+ rest) → String.length s ≤ n → stops (S k) rest →
  match denote variables system e with
  | Ok v => ∃ s' fuel, ws_eq s' rest ∧ String.length s' ≤ String.length s ∧ String.length s' < fuel ∧
      parse_at k n s = chain_loop fuel (parse_at (S k) n) (op_at k) v s'
  | Err x => (parse_at k n s).2 = Err x
  end.

Lemma chain_loop_none fuel sub k v s rest :
  op_none k rest → ws_eq s rest → fuel ≠ 0 →
  ∃ s', chain_loop fuel sub (op_at k) v s = (s', Ok v) ∧ ws_eq s' rest.
Proof.
  intros (s' & He & Hw) Hs Hf. destruct fuel as [|fuel]; [done|]. exists s'. split; [|done].
  cbn [chain_loop]. unfold mbind, M_bind. by rewrite (op_at_proper _ _ _ Hs), He.
Qed.
Lemma spine_reads k n e : 1 ≤ k ≤ 6 → spine k n e → reads_at k n e.
Proof.
  intros Hk Hsp s rest Hs Hn Hst. specialize (Hsp s rest Hs Hn (stops_mono _ _ _ (Nat.le_succ_diag_r k) Hst)).
  unfold reads. destruct (denote _ _ e) as [v|x]; [|done].
  destruct Hsp as (s' & fuel & Hw & _ & Hf & ->). apply chain_loop_none; [|done|lia].
  by apply (stops_op _ _ Hst).
Qed.
Lemma pp_at_S k e : prec e ≠ k → pp_at k e = pp_at (S k) e.
Proof. intros Hk. unfold pp_at. f_equal. apply bool_decide_ext. lia. Qed.
Lemma reads_spine k n e : 1 ≤ k ≤ 6 → prec e ≠ k → reads_at (S k) n e → spine k n e.
Proof.
  intros Hk Hp He s rest Hs Hn Hst. rewrite pp_at_S in Hs by done. specialize (He s rest Hs Hn Hst).
  rewrite parse_at_chain by done. unfold chain, mbind, M_bind.
  destruct (parse_at_total (S k) n ltac:(lia) s) as [Hl _]; [lia|].
  unfold reads in He. destruct (denote _ _ e) as [v|x].
  - destruct He as (s' & He & Hw). rewrite He in *. exists s', (S n). cbn in Hl. split; [done|]. split; [done|].
    split; [lia|done].
  - by destruct (parse_at (S k) n s) as [s' [v|x']]; cbn in He.
Qed.

(** ** From a level to the one below *)

Lemma eat_miss b s c t : skip_ws s = String c t → c ≠ b → eat b s = (String c t, Ok false).
Proof. intros Hs Hc. unfold eat. rewrite Hs. by rewrite decide_False. Qed.
Lemma unary_reads n e : starts primary_start (pp_at 8 e) → prec e ≠ 7 → reads_at 8 n e → reads_at 7 n e.
Proof.
  intros Hst Hp He s rest Hs Hn Hr.
  rewrite pp_at_S in Hs by done. destruct (pp_at 8 e) as [|c t] eqn:Hpp; [done|].
  cbn [starts] in Hst. unfold primary_start in Hst. apply andb_true_iff in Hst as [Hc Hnot%negb_true_iff].
  apply bool_decide_eq_false in Hnot.
  assert (skip_ws s = String c (t +:+ rest)) as Hsk.
  { rewrite Hs. by apply skip_ws_starts. }
  change (parse_at 7 n) with (parse_unary variables system (S n) (parse_ternary variables system n)).
  cbn [parse_unary]. unfold reads, mbind, M_bind.
  rewrite (eat_miss _ _ _ _ Hsk) by naive_solver. cbv iota beta.
  rewrite (eat_miss "-" _ c (t +:+ rest)) by (try apply skip_ws_starts; naive_solver). cbv iota beta.
  apply (He (String c (t +:+ rest)) rest).
  - by rewrite Hpp, append_cons.
  - pose proof (length_skip_ws s) as Hl. rewrite Hsk in Hl. lia.
  - by apply (stops_mono 7); [lia|].
Qed.
Lemma ternary_reads n e : prec e ≠ 0 → reads_at 1 n e → reads_at 0 n e.
Proof.
  intros Hp He s rest Hs Hn Hr. rewrite pp_at_S in Hs by done.
  specialize (He s rest Hs Hn (stops_mono 0 1 _ (Nat.le_succ_diag_r 0) Hr)).
  change (parse_at 0 n) with (parse_ternary variables system (S n)).
  change (parse_at 1 n) with (parse_or variables system (S n) (parse_ternary variables system n)) in He.
  cbn [parse_ternary]. unfold reads, mbind, M_bind in *. destruct (denote _ _ e) as [v|x].
  - destruct He as (s' & -> & Hw). pose proof (stops_question _ _ Hr eq_refl) as Hq.
    rewrite <-(eat_proper _ _ _ Hw) in Hq. destruct (eat_cases "?" s') as [[H1 H2]|(t & H1 & H2)].
    + destruct (eat "?" s') as [u b]. cbn in *. subst. exists (skip_ws s'). split; [done|].
      etrans; [apply ws_eq_skip|done].
    + by rewrite H2 in Hq.
  - by destruct (parse_or _ _ _ _ s) as [s' [v|x']].
Qed.
(** One step down, from any level. *)
Lemma step_reads k n e :
  k ≤ 7 → prec e ≠ k → (k = 7 → starts primary_start (pp_at 8 e)) → reads_at (S k) n e → reads_at k n e.
Proof.
  intros Hk Hp H7 He. destruct (decide (k = 0)) as [->|]; [by apply ternary_reads|].
  destruct (decide (k = 7)) as [->|]; [apply unary_reads; auto|].
  apply spine_reads; [lia|]. apply reads_spine; [lia|done|done].
Qed.
Lemma descend_reads k l n e :
  l ≤ k ≤ 8 → (∀ i, l ≤ i < k → prec e ≠ i) → (k = 8 → starts primary_start (pp_at 8 e)) →
  reads_at k n e → reads_at l n e.
Proof.
  intros Hk. induction (Nat.sub k l) as [|d IH] eqn:Hd in l, Hk |- *; intros Hp H8 He.
  - by replace l with k by lia.
  - apply step_reads; [lia|apply Hp; lia|..].
    + intros ->. apply H8. lia.
    + apply IH; [lia|lia|intros i ?; apply Hp; lia|done|done].
Qed.

(** ** Parentheses *)

Lemma paren_reads n e :
  prec e < 8 → (∀ m, reads_at 0 m e) → reads_at 8 n e.
Proof.
  intros Hp He s rest Hs Hn Hr.
  assert (skip_ws s = String "(" (pp_at 0 e +:+ (")" +:+ rest))) as Hsk.
  { rewrite Hs. unfold pp_at. rewrite bool_decide_true by done. rewrite bool_decide_false by lia.
    unfold parens. rewrite !append_assoc. done. }
  pose proof (length_skip_ws s) as Hl. rewrite Hsk in Hl. cbn [String.length] in Hl.
  destruct n as [|n]; [lia|].
  specialize (He n (pp_at 0 e +:+ (")" +:+ rest)) (")" +:+ rest)).
  specialize (He (reflexivity _) ltac:(lia) (stops_paren _)).
  change (parse_at 8 (S n)) with (parse_primary variables system (parse_ternary variables system (S n))).
  change (parse_at 0 n) with (parse_ternary variables system (S n)) in He.
  unfold reads, parse_primary, skip_whitespace, modify, get_state, put_state, mbind, M_bind in *. rewrite Hsk.
  cbn [is_ascii_digit]. cbv iota beta.
  change (is_ascii_digit "(" || bool_decide ("("%char = "."%char)) with false. cbv iota beta.
  rewrite decide_False by (intros [?|?]; discriminate). rewrite decide_True by done. cbv iota beta.
  destruct (denote _ _ e) as [v|x].
  - destruct He as (s' & -> & Hw). exists rest. split; [|done].
    assert (expect ")" s' = (rest, Ok tt)) as ->; [|done].
    unfold expect, mbind, M_bind. by rewrite (eat_proper _ _ _ Hw).
  - by destruct (parse_ternary _ _ _ _) as [s' [v|x']].
Qed.

(** ** Every position from one's own *)

(** An expression that is read at every position. *)
Record readable (e : expr) : Prop := {
  readable_at l n : l ≤ 8 → reads_at l n e;
  readable_spine k n : 1 ≤ k ≤ 6 → spine k n e;
  readable_starts : starts operand_start (pp e);
}.
Lemma pp_at_starts l e : starts operand_start (pp e) → starts operand_start (pp_at l e).
Proof. unfold pp_at. by destruct (bool_decide (prec e < l)). Qed.
Lemma prec_le e : prec e ≤ 8.
Proof. destruct e as [| | | | | | | |op| ]; cbn; try lia. destruct op; cbn; lia. Qed.
Lemma readable_intro e :
  starts operand_start (pp e) → (prec e = 8 → starts primary_start (pp e)) →
  (1 ≤ prec e ≤ 6 → ∀ n, spine (prec e) n e) → (¬ 1 ≤ prec e ≤ 6 → ∀ n, reads_at (prec e) n e) →
  readable e.
Proof.
  intros Hst H8 Hsp Hown. pose proof (prec_le e) as Hle.
  assert (∀ n, reads_at (prec e) n e) as Hat.
  { intros n. destruct (decide (1 ≤ prec e ≤ 6)); [by apply spine_reads; auto|by apply Hown]. }
  assert (starts primary_start (pp_at 8 e)) as Hp8.
  { unfold pp_at. case_bool_decide; [done|]. apply H8. lia. }
  assert (∀ l n, l ≤ prec e → reads_at l n e) as Hlow.
  { intros l n Hl. apply (descend_reads (prec e)); [lia|intros; lia|done|done]. }
  assert (∀ n, reads_at 8 n e) as Htop.
  { intros n. destruct (decide (prec e = 8)) as [H|]; [rewrite <-H; apply Hat|].
    apply paren_reads; [lia|]. intros m. apply Hlow. lia. }
  assert (∀ l n, l ≤ 8 → reads_at l n e) as Hall.
  { intros l n Hl. destruct (decide (l ≤ prec e)); [by apply Hlow|].
    apply (descend_reads 8); [lia|intros; lia|done|done]. }
  split; [done| |done]. intros k n Hk.
  destruct (decide (prec e = k)) as [<-|]; [by apply Hsp|].
  apply reads_spine; [done|done|]. apply Hall. lia.
Qed.

(** ** The operators *)

Lemma binop_level op : 1 ≤ level op ≤ 6.
Proof. destruct op; cbn; lia. Qed.
Lemma starts_app f s t : starts f s → starts f (s +:+ t).
Proof. by destruct s. Qed.
Lemma binop_readable op a b : readable a → readable b → readable (EBin op a b).
Proof.
  intros [Ha Hsa Hsta] [Hb _ Hstb]. pose proof (binop_level op) as Hlev. apply readable_intro; cbn [prec].
  - cbn [pp]. apply starts_app, (pp_at_starts (level op) _ Hsta).
  - lia.
  - intros _ n s rest Hs Hn Hr.
    assert (ws_eq s (pp_at (level op) a +:+ (" " +:+ symbol op +:+ " " +:+ (pp_at (S (level op)) b +:+ rest)))) as Hs'.
    { rewrite Hs. unfold pp_at at 1. cbn [prec]. rewrite bool_decide_false by lia. cbn [parens pp].
      by rewrite !append_assoc. }
    specialize (Hsa (level op) n Hlev s _ Hs' Hn (stops_binop _ _)). cbn [denote]. unfold mbind, result_bind.
    destruct (denote _ _ a) as [v|x]; [|done].
    destruct Hsa as (s1 & fuel & Hw1 & Hl1 & Hf1 & ->). destruct fuel as [|fuel]; [lia|].
    destruct (op_hit op s1 (pp_at (S (level op)) b +:+ rest) Hw1) as (s2 & He2 & Hw2 & Hl2).
    { by apply starts_app, pp_at_starts. }
    cbn [chain_loop]. unfold mbind, M_bind, lift. rewrite He2.
    specialize (Hb (S (level op)) n ltac:(lia) s2 rest Hw2 ltac:(lia) Hr).
    destruct (parse_at_total (S (level op)) n ltac:(lia) s2) as [Hl3 _]; [lia|].
    unfold reads in Hb. destruct (denote _ _ b) as [w|y].
    + destruct Hb as (s3 & He3 & Hw3). rewrite He3 in *. cbn in Hl3.
      destruct (binop_apply op v w) as [z|y]; [|done]. exists s3, fuel.
      split; [done|]. split; [lia|]. split; [lia|done].
    + by destruct (parse_at (S (level op)) n s2) as [s3 [w|y']]; cbn in Hb.
  - done.
Qed.

Lemma eat_hit b s t : is_ascii_whitespace b = false → ws_eq s (String b t) → eat b s = (t, Ok true).
Proof.
  intros Hb Hs. rewrite (eat_proper _ _ _ Hs). unfold eat. cbn [skip_ws]. rewrite Hb. by rewrite decide_True.
Qed.
(** Fuel beyond the length of the input makes no difference. *)
Lemma unary_fuel f f' ternary s :
  String.length s < f → String.length s < f' →
  parse_unary variables system f ternary s = parse_unary variables system f' ternary s.
Proof.
  revert f' s. induction f as [|f IH]; intros f' s Hf Hf'; [lia|]. destruct f' as [|f']; [lia|].
  cbn [parse_unary]. unfold mbind, M_bind. pose proof (length_skip_ws s) as Hl.
  destruct (eat_cases "!" s) as [[Hs Hb]|(t & Hs & ->)].
  2: { rewrite Hs in Hl. cbn in Hl. rewrite (IH f' t) by lia. done. }
  destruct (eat "!" s) as [u b]. cbn in *. subst. cbv iota beta.
  destruct (eat_cases "-" (skip_ws s)) as [[Hs Hb]|(t & Hs & ->)].
  2: { rewrite skip_ws_idemp in Hs. rewrite Hs in Hl. cbn in Hl. rewrite (IH f' t) by lia. done. }
  destruct (eat "-" (skip_ws s)) as [u b]. cbn in *. by subst.
Qed.
Lemma unary_operand b s n a rest (g : value → result ExpressionError value) :
  readable a → skip_ws s = String b (pp_at 7 a +:+ rest) → String.length s ≤ n → stops 7 rest →
  reads (v ← parse_unary variables system n (parse_ternary variables system n); lift (g v))
    (pp_at 7 a +:+ rest) (v ← denote variables system a; g v) rest.
Proof.
  intros [Ha _ _] Hs Hn Hr. pose proof (length_skip_ws s) as Hl. rewrite Hs in Hl. cbn in Hl.
  specialize (Ha 7 n ltac:(lia) (pp_at 7 a +:+ rest) rest (reflexivity _) ltac:(lia) Hr).
  change (parse_at 7 n) with (parse_unary variables system (S n) (parse_ternary variables system n)) in Ha.
  unfold mbind, result_bind, reads, lift in *. unfold M_bind.
  rewrite (unary_fuel _ (S n)) by lia.
  destruct (denote _ _ a) as [v|x].
  - destruct Ha as (s' & -> & Hw). destruct (g v); [eauto|done].
  - by destruct (parse_unary _ _ _ _ _) as [s' [v|x']].
Qed.
Lemma not_readable a : readable a → readable (ENot a).
Proof.
  intros Ha. apply readable_intro; cbn [prec]; [done|lia|lia|]. intros _ n s rest Hs Hn Hr.
  change (ws_eq s (String "!" (pp_at 7 a +:+ rest))) in Hs.
  pose proof (unary_operand "!" s n a rest (λ v, Ok (VBool (negb (truthy v)))) Ha Hs Hn Hr) as Hu.
  change (parse_at 7 n) with (parse_unary variables system (S n) (parse_ternary variables system n)).
  unfold reads in *. cbn [parse_unary denote]. rewrite (bind_Ok _ _ _ _ _ (eat_hit "!" _ _ eq_refl Hs)). exact Hu.
Qed.
Lemma neg_readable a : readable a → readable (ENeg a).
Proof.
  intros Ha. apply readable_intro; cbn [prec]; [done|lia|lia|]. intros _ n s rest Hs Hn Hr.
  change (ws_eq s (String "-" (pp_at 7 a +:+ rest))) in Hs.
  pose proof (unary_operand "-" s n a rest negate Ha Hs Hn Hr) as Hu.
  change (parse_at 7 n) with (parse_unary variables system (S n) (parse_ternary variables system n)).
  unfold reads in *. cbn [parse_unary denote].
  rewrite (bind_Ok _ _ _ _ _ (eat_miss "!" s "-" (pp_at 7 a +:+ rest) Hs ltac:(discriminate))). cbv iota.
  rewrite (bind_Ok _ _ _ _ _ (eat_hit "-" _ _ eq_refl (reflexivity _))). exact Hu.
Qed.
Lemma cond_readable c a b : readable c → readable a → readable b → readable (ECond c a b).
Proof.
  intros [Hc _ Hst] [Ha _ _] [Hb _ _]. apply readable_intro; cbn [prec]; [|lia|lia|].
  { cbn [pp]. apply starts_app, (pp_at_starts 1 _ Hst). }
  intros _ n s rest Hs Hn Hr. set (tl := pp_at 0 b +:+ rest).
  assert (ws_eq s (pp_at 1 c +:+ (" ? " +:+ (pp_at 0 a +:+ (" : " +:+ tl))))) as Hs'.
  { rewrite Hs. unfold pp_at at 1. cbn [prec parens pp]. rewrite bool_decide_false by lia.
    cbn [parens]. by rewrite !append_assoc. }
  specialize (Hc 1 n ltac:(lia) s _ Hs' Hn (stops_then _)).
  destruct (parse_at_total 1 n ltac:(lia) s ltac:(lia)) as [Hl1 _].
  change (parse_at 0 n) with (parse_ternary variables system (S n)).
  change (parse_at 1 n) with (parse_or variables system (S n) (parse_ternary variables system n)) in *.
  unfold reads in *. cbn [parse_ternary denote]. unfold mbind, M_bind, result_bind in *.
  destruct (denote _ _ c) as [u|x]; [|by destruct (parse_or _ _ _ _ s) as [s1 [v|x']]].
  destruct Hc as (s1 & Hc & Hw1). rewrite Hc in *. cbn [fst] in Hl1.
  pose proof (length_skip_ws s1) as Hl2. rewrite Hw1 in Hl2.
  rewrite (eat_hit "?" _ _ eq_refl Hw1). cbv iota beta.
  set (s2 := String " " (pp_at 0 a +:+ (" : " +:+ tl))) in *.
  change (S (String.length s2) ≤ String.length s1) in Hl2.
  destruct n as [|n]; [lia|].
  specialize (Ha 0 n ltac:(lia) s2 (" : " +:+ tl) (reflexivity _) ltac:(lia) (stops_colon _)).
  unfold reads in Ha.
  destruct (parse_at_total 0 n ltac:(lia) s2 ltac:(lia)) as [Hl3 _].
  change (parse_at 0 n) with (parse_ternary variables system (S n)) in *.
  destruct (denote _ _ a) as [v|x]; [|by destruct (parse_ternary _ _ _ s2) as [s3 [v|x']]].
  destruct Ha as (s3 & Ha & Hw3). rewrite Ha in *. cbn [fst] in Hl3.
  assert (expect ":" s3 = (" " +:+ tl, Ok tt)) as ->.
  { unfold expect. by rewrite (bind_Ok _ _ _ _ _ (eat_hit ":" _ _ eq_refl Hw3)). }
  pose proof (length_skip_ws s3) as Hl4. rewrite Hw3 in Hl4.
  change (S (String.length (" " +:+ tl)) ≤ String.length s3) in Hl4.
  specialize (Hb 0 n ltac:(lia) (" " +:+ tl) rest (reflexivity _) ltac:(lia) Hr). unfold reads in Hb.
  change (parse_at 0 n) with (parse_ternary variables system (S n)) in *.
  destruct (denote _ _ b) as [w|x]; [|by destruct (parse_ternary _ _ _ (" " +:+ tl)) as [s5 [w|x']]].
  destruct Hb as (s5 & Hb & Hw5). cbn [mret] in *. rewrite Hb. exists s5. split; [done|done].
Qed.

(** ** The primary expressions *)

Lemma span_chars_word f w rest :
  all_chars f w = true → match rest with String c _ => f c = false | EmptyString => True end →
  span_chars f (w +:+ rest) = (w, rest).
Proof.
  intros Hw Hr. induction w as [|c w IH].
  - change ("" +:+ rest) with rest. destruct rest as [|c r]; [done|]. cbn [span_chars]. by rewrite Hr.
  - rewrite append_cons. cbn [all_chars] in Hw. apply andb_true_iff in Hw as [Hc Hw].
    cbn [span_chars]. rewrite Hc, IH by done. done.
Qed.
(** An atom is what [parse_primary] reads. *)
Lemma atom_readable e :
  prec e = 8 → starts primary_start (pp e) →
  (∀ n s' s rest, stops 8 rest → pp e +:+ rest = s →
    reads (λ _, parse_primary variables system (parse_ternary variables system n) s) s'
      (denote variables system e) rest) →
  readable e.
Proof.
  intros Hp Hst He. apply readable_intro; [|done|lia|].
  { destruct (pp e) as [|c t]; [done|]. cbn [starts] in *. by apply andb_true_iff in Hst as [? _]. }
  intros _ n s rest Hs Hn Hr. rewrite Hp in *.
  assert (skip_ws s = pp e +:+ rest) as Hsk.
  { rewrite Hs. unfold pp_at. rewrite bool_decide_false by lia. cbn [parens]. apply skip_ws_starts, starts_app.
    destruct (pp e) as [|c t]; [done|]. cbn [starts] in *. by apply andb_true_iff in Hst as [? _]. }
  specialize (He n s _ rest Hr (eq_sym Hsk)).
  change (parse_at 8 n) with (parse_primary variables system (parse_ternary variables system n)).
  unfold reads in *. unfold parse_primary, skip_whitespace, modify, get_state, mbind, M_bind in *.
  by rewrite skip_ws_idemp in He.
Qed.

Lemma primary_digit c : is_ascii_digit c = true → primary_start c = true.
Proof. destruct c as [[] [] [] [] [] [] [] []]; vm_compute; congruence. Qed.
Lemma primary_identifier c : is_identifier_start c = true → primary_start c = true.
Proof. destruct c as [[] [] [] [] [] [] [] []]; vm_compute; congruence. Qed.
Lemma identifier_no_digit c :
  is_identifier_start c = true →
  (is_ascii_digit c || bool_decide (c = "."%char) = false) ∧ c ≠ double_quote ∧ c ≠ "'"%char ∧ c ≠ "("%char
  ∧ c ≠ "$"%char ∧ is_name_char c = true.
Proof. destruct c as [[] [] [] [] [] [] [] []]; vm_compute; intuition congruence. Qed.
Lemma not_name_digit c :
  is_name_char c = false → is_ascii_digit c || bool_decide (c = "."%char) = false.
Proof. destruct c as [[] [] [] [] [] [] [] []]; vm_compute; intuition congruence. Qed.

(** [parse_primary] on a first character that is no whitespace. *)
Lemma primary_cases (ternary : P value) b s :
  is_ascii_whitespace b = false →
  parse_primary variables system ternary (String b s) =
    (if is_ascii_digit b || bool_decide (b = "."%char) then parse_number
     else if decide (b = double_quote ∨ b = "'"%char) then parse_literal b s
     else if decide (b = "("%char) then _ ← put_state s; v ← ternary; _ ← expect ")"; mret v
     else if decide (b = "$"%char ∧ head (String.list_ascii_of_string s) = Some "{"%char)
     then resolve_braced_span variables system
     else if is_identifier_start b then parse_identifier variables system
     else throw (UnexpectedCharacter b)) (String b s).
Proof.
  intros Hb. unfold parse_primary, skip_whitespace, modify, get_state, mbind, M_bind at 1 2.
  cbn [skip_ws]. rewrite Hb. done.
Qed.

Lemma num_readable z : (0 <= z <= i64_max)%Z → readable (ENum z).
Proof.
  intros Hz. destruct (show_nat_spec z) as (c & d & Hsh & Hd & _); [lia|].
  pose proof (parse_show_nat z Hz) as Hparse. rewrite Hsh in Hparse.
  assert (is_ascii_digit c = true) as Hc by (cbn [all_digits] in Hd; by apply andb_true_iff in Hd as [? _]).
  apply atom_readable; [done|cbn [pp]; rewrite Hsh; by apply primary_digit|].
  intros n s' s rest [Hw _ _] <-. cbn [pp denote]. unfold reads. exists rest. split; [|done].
  rewrite Hsh, append_cons, primary_cases.
  2: { by apply operand_not_ws; apply primary_digit, andb_true_iff in Hc as [? _]. }
  rewrite Hc. cbn [orb]. unfold parse_number, get_state, put_state, mbind, M_bind.
  rewrite <-append_cons, span_chars_word.
  - cbn [fst snd]. rewrite Hparse. unfold number_of_i64. by rewrite decide_False by lia.
  - clear -Hd. revert Hd. generalize (String c d) as w. induction w as [|x w IH]; [done|]. cbn [all_digits all_chars].
    intros [-> Hw]%andb_true_iff. cbn. by apply IH.
  - destruct rest as [|x rest]; [done|]. by apply not_name_digit.
Qed.
Lemma name_readable e s :
  pp e = s → prec e = 8 →
  match s with EmptyString => false | String c s' => is_identifier_start c && all_chars is_name_char s' end = true →
  denote variables system e =
    (if decide (s = "true") then Ok (VBool true) else if decide (s = "false") then Ok (VBool false)
     else if decide (s = "null") then Ok VNull else denote_name variables system s) →
  readable e.
Proof.
  intros Hpp Hp Hs Hden. destruct s as [|c s]; [done|]. apply andb_true_iff in Hs as [Hc Hs].
  destruct (identifier_no_digit c Hc) as (Hd & Hq & Hq' & Hpar & Hdol & Hn).
  apply atom_readable; [done|rewrite Hpp; by apply primary_identifier|].
  intros n s' s0 rest [Hw _ _] <-. rewrite Hpp, append_cons, Hden. unfold reads.
  rewrite primary_cases by (by apply operand_not_ws; apply primary_identifier, andb_true_iff in Hc as [? _]).
  rewrite Hd. cbv iota. rewrite (decide_False (P := c = double_quote ∨ _)) by (by intros [?|?]).
  rewrite (decide_False (P := c = "("%char)), (decide_False (P := c = "$"%char ∧ _)) by (done || by intros [? _]).
  rewrite Hc.
  unfold parse_identifier, get_state, put_state, mbind, M_bind.
  rewrite <-append_cons, (span_chars_word _ (String c s)).
  2: { cbn [all_chars]. by rewrite andb_true_iff. }
  2: { by destruct rest. }
  cbn [fst snd]. repeat (case_decide; [by exists rest|]). unfold variable, denote_name, lift.
  destruct (ok_or _ _); [by eexists|done].
Qed.
Lemma literal_read text rest :
  printable_text text = true →
  read_string double_quote (escape text +:+ String double_quote rest) = Some (text, rest).
Proof.
  induction text as [|c text IH]; intros Ht; cbn [escape].
  { change ("" +:+ String double_quote rest) with (String double_quote rest). cbn [read_string].
    by rewrite decide_True. }
  cbn [printable_text] in Ht. rewrite !andb_true_iff, !bool_decide_eq_true in Ht. destruct Ht as [[Hc Hb] Ht].
  specialize (IH Ht). case_decide as Hq.
  - subst c. rewrite !append_cons. cbn [read_string]. rewrite decide_False by done.
    rewrite decide_True by done. by rewrite IH.
  - rewrite append_cons. destruct (escape text +:+ String double_quote rest) as [|d r] eqn:Hr; [done|].
    assert (d = double_quote → c ≠ "\"%char) as Hd.
    { intros -> ->. destruct text as [|x text]; [by destruct Hb|]. cbn [escape] in Hr.
      case_decide; rewrite append_cons in Hr; congruence. }
    assert (push_byte c = String c "") as Hp by (unfold push_byte; by rewrite decide_True).
    change (read_string double_quote (String c (String d r)))
      with (if decide (c = double_quote) then Some ("", String d r)
            else if decide (c = "\"%char ∧ d = double_quote)
            then (λ r, (String double_quote r.1, r.2)) <$> read_string double_quote r
            else (λ r, (push_byte c +:+ r.1, r.2)) <$> read_string double_quote (String d r)).
    rewrite decide_False by done. rewrite decide_False by naive_solver. by rewrite IH, Hp.
Qed.
Lemma str_readable text : printable_text text = true → readable (EStr text).
Proof.
  intros Ht. apply atom_readable; [done|done|]. intros n s' s rest _ <-. cbn [pp denote].
  unfold reads. exists rest. split; [|done]. rewrite append_cons, append_assoc, primary_cases by done.
  change (is_ascii_digit double_quote || bool_decide (double_quote = "."%char)) with false. cbv iota.
  rewrite decide_True by auto. unfold parse_literal.
  change (String double_quote "" +:+ rest) with (String double_quote rest). by rewrite literal_read.
Qed.
Lemma find_brace path rest :
  contains "}" path = false → find_str "}" (path +:+ String "}" rest) = Some (String.length path).
Proof.
  induction path as [|c path IH]; [done|]. cbn [contains]. intros [Hc Hp]%orb_false_iff.
  apply bool_decide_eq_false in Hc. rewrite append_cons. cbn [find_str].
  assert (starts_with "}" (String c (path +:+ String "}" rest)) = false) as ->.
  { apply bool_decide_eq_false_2. cbn [strip_prefix]. rewrite decide_False by done. by intros [? ?]. }
  by rewrite IH.
Qed.
Lemma scan_braced path rest :
  contains "}" path = false → trim path = path →
  ∃ sps, scan_variable_spans (String "$" (String "{" (path +:+ String "}" rest))) =
    {| span_start := 0; span_end := S (S (S (String.length path))); span_name := path; span_closed := true |} :: sps.
Proof.
  intros Hp Ht. unfold scan_variable_spans. cbn [scan_spans].
  change (find_str "${" (String "$" (String "{" (path +:+ String "}" rest)))) with (Some 0). cbv iota beta zeta.
  change (drop_str (0 + String.length "${") (String "$" (String "{" (path +:+ String "}" rest))))
    with (path +:+ String "}" rest).
  rewrite find_brace by done. rewrite take_str_app, Ht.
  replace (0 + 0 + String.length "${" + String.length path + String.length "}") with (S (S (S (String.length path))))
    by (cbn; lia).
  by eexists.
Qed.
Lemma ref_readable path : contains "}" path = false → trim path = path → readable (ERef path).
Proof.
  intros Hp Ht. apply atom_readable; [done|done|]. intros n s' s rest _ <-. cbn [pp denote]. rewrite !append_assoc.
  change ("${" +:+ (path +:+ ("}" +:+ rest))) with (String "$" (String "{" (path +:+ String "}" rest))).
  unfold reads. rewrite primary_cases by done.
  change (is_ascii_digit "$" || bool_decide ("$"%char = "."%char)) with false. cbv iota.
  rewrite decide_False by (by intros [?|?]). rewrite decide_False by done. rewrite decide_True by done.
  unfold resolve_braced_span, get_state, put_state, mbind, M_bind.
  destruct (scan_braced path rest Hp Ht) as [sps ->]. cbn [span_closed span_start span_name span_end andb].
  rewrite bool_decide_true by done. unfold variable, denote_name, lift.
  destruct (ok_or _ _); [|done]. exists rest. split; [|done]. f_equal.
  change (drop_str (S (String.length path)) (path +:+ String "}" rest) = rest).
  rewrite <-Nat.add_1_r, <-drop_drop_str, drop_str_app. done.
Qed.

Lemma printable_readable e : printable e = true → readable e.
Proof.
  induction e as [z|text|b| |x|path|a IHa|a IHa|op a IHa b IHb|c IHc a IHa b IHb]; cbn [printable]; intros H.
  - apply num_readable. by apply bool_decide_eq_true in H.
  - by apply str_readable.
  - destruct b; by eapply name_readable.
  - by eapply name_readable.
  - unfold is_name in H. apply andb_true_iff in H as [Hx Hk%bool_decide_eq_true].
    eapply name_readable; [done|done|done|]. cbn [pp denote]. by rewrite !decide_False by naive_solver.
  - apply andb_true_iff in H as [Hc%negb_true_iff Ht%bool_decide_eq_true]. by apply ref_readable.
  - apply not_readable; auto.
  - apply neg_readable; auto.
  - apply andb_true_iff in H as [??]. apply binop_readable; auto.
  - rewrite !andb_true_iff in H. destruct H as [[??]?]. apply cond_readable; auto.
Qed.

(** C15: the one-pass evaluator implements the language: on the text of a syntax tree, printed with only
    the parentheses that the precedence and the left associativity of the operators ask for,
    it gives the value of the tree, or the error of its leftmost failing operation. *)
Theorem evaluate_refines (e : expr) (Hprintable : printable e = true) :
  evaluate variables system (pp e) = denote variables system e.
Proof.
  destruct (printable_readable e Hprintable) as [Hat _ _].
  specialize (Hat 0 (String.length (pp e)) ltac:(lia) (pp e) "").
  unfold pp_at in Hat. rewrite bool_decide_false in Hat by lia. cbn [parens] in Hat. rewrite append_nil_r in Hat.
  specialize (Hat (reflexivity _) ltac:(lia) stops_nil).
  change (parse_at 0 ?n) with (parse_ternary variables system (S n)) in Hat.
  unfold evaluate, reads, skip_whitespace, modify, get_state, mbind, M_bind in *.
  destruct (denote _ _ e) as [v|x].
  - destruct Hat as (s' & -> & Hw). change (skip_ws s' = "") in Hw. rewrite Hw. done.
  - by destruct (parse_ternary _ _ _ _) as [s' [v|x']].
Qed.
End levels.

(** [a + b * (2 - 3) < 10 && !done ? "yes" : -1] *)
Definition sample_expr : expr :=
  ECond (EBin OpAnd
           (EBin OpLt (EBin OpAdd (ERef "a") (EBin OpMul (EVar "b") (EBin OpSub (ENum 2) (ENum 3)))) (ENum 10))
           (ENot (EVar "done")))
    (EStr "yes") (ENeg (ENum 1)).
Definition sample_variables : Vars :=
  <["a" := VNumber (PosInt 7)]> (<["b" := VNumber (PosInt 4)]> (<["done" := VBool false]> ∅)).
#[local] Instance sample_text : JsonText := {| json_text _ := "" |}.
Lemma evaluate_refines_witness :
  pp sample_expr = "${a} + b * (2 - 3) < 10 && !done ? " +:+ pp (EStr "yes") +:+ " : -1" ∧
  printable sample_expr = true ∧
  evaluate sample_variables None (pp sample_expr) = denote sample_variables None sample_expr ∧
  denote sample_variables None sample_expr = Ok (VString "yes").
Proof.
  split; [vm_compute; reflexivity|]. split; [vm_compute; reflexivity|].
  split; [apply evaluate_refines; vm_compute; reflexivity|vm_compute; reflexivity].
Defined.
