(* ===== verification/Conditions.v ===== *)
(** The condition language of routes, loops, edges, hooks and triggers:
    wf-core/src/condition.rs.

    A condition is evaluated on its text: references are replaced by literals,
    then the function name at the front decides how the rest is cut into
    arguments.  [and], [or] and [not] evaluate their arguments the same way
    again, interpolation included, so the recursion is bounded by a fuel; the
    cache around the evaluator is left out. *)

From S2P Require Import Prelude Strings Json Numbers Template.

(** [CoreError::ConditionError], by its message, and the two ways in which the
    evaluation gives no result. *)
Inductive ConditionError : Type :=
| WrongArity (name : string) (got : nat)
| WrongType (name : string)
| Panicked
| Diverged.

Inductive cond_fn : Type :=
| FEq | FNe | FGt | FLt | FGe | FLe | FAnd | FOr | FNot | FIsNull | FIsEmpty | FIsTrue | FIsFalse
| FHasValue | FContains | FStartsWith | FEndsWith | FLength.
#[export] Instance cond_fn_eq_dec : EqDecision cond_fn.
Proof. solve_decision. Defined.
Definition fn_name (f : cond_fn) : string :=
  match f with
  | FEq => "eq" | FNe => "ne" | FGt => "gt" | FLt => "lt" | FGe => "ge" | FLe => "le" | FAnd => "and"
  | FOr => "or" | FNot => "not" | FIsNull => "isNull" | FIsEmpty => "isEmpty" | FIsTrue => "isTrue"
  | FIsFalse => "isFalse" | FHasValue => "hasValue" | FContains => "contains" | FStartsWith => "startsWith"
  | FEndsWith => "endsWith" | FLength => "length"
  end.
(** The order of the tests in [evaluate] and in [resolve_bool]. *)
Definition functions : list cond_fn :=
  [FEq; FNe; FGt; FLt; FGe; FLe; FAnd; FOr; FNot; FIsNull; FIsEmpty; FIsTrue; FIsFalse; FHasValue;
   FContains; FStartsWith; FEndsWith; FLength].
Definition strip_call (f : cond_fn) (s : string) : option string := strip_prefix (fn_name f +:+ "(") s.
(** The first function whose name and parenthesis are at the front, and what is
    behind them. *)
Definition find_call (s : string) : option (cond_fn * string) :=
  head (omap (λ f, (λ rest, (f, rest)) <$> strip_call f s) functions).

(** * Cutting arguments *)

Definition is_quote (c : ascii) : bool := bool_decide (c = double_quote ∨ c = "'"%char).
(** The pieces between the commas at depth zero; with [quotes], what is inside
    quotes is text. *)
Fixpoint top_split (quotes : bool) (depth : Z) (quote : option ascii) (s : string) : list string :=
  match s with
  | EmptyString => [""]
  | String c s' =>
      let push ps := match ps with [] => [] | w :: ws => String c w :: ws end in
      match quote with
      | Some q => push (top_split quotes depth (if decide (c = q) then None else quote) s')
      | None =>
          if quotes && is_quote c then push (top_split quotes depth (Some c) s')
          else if decide (c = "("%char) then push (top_split quotes (depth + 1) None s')
          else if decide (c = ")"%char) then push (top_split quotes (depth - 1) None s')
          else if decide (c = ","%char ∧ depth = 0%Z) then "" :: top_split quotes depth None s'
          else push (top_split quotes depth None s')
      end
  end.
(** An empty last piece is not pushed. *)
Definition drop_empty_last (ps : list string) : list string :=
  if decide (last ps = Some "") then take (List.length ps - 1) ps else ps.

(** [split_top_level_args] *)
Definition split_top_level_args (inner : string) : list string :=
  let ps := top_split true 0 None inner in
  if decide (last ps = Some "" ∧ trim inner = "") then [] else drop_empty_last ps.
(** [parse_args] *)
Definition parse_args (input : string) : list string :=
  let inner := trim input in
  drop_empty_last (top_split false 0 None (default inner (strip_last ")" inner))).

(** * Static checks *)

(** [expected_arity] *)
Inductive ExpectedArity : Type := Exact (n : nat) | AtLeast (n : nat).
Definition arity (f : cond_fn) : ExpectedArity :=
  match f with
  | FEq | FNe | FGt | FLt | FGe | FLe | FContains | FStartsWith | FEndsWith | FLength => Exact 2
  | FNot | FIsNull | FIsEmpty | FIsTrue | FIsFalse | FHasValue => Exact 1
  | FAnd | FOr => AtLeast 1
  end.
Definition fn_of_name (name : string) : option cond_fn :=
  snd <$> list_find (λ f, fn_name f = name) functions.
Definition expected_arity (name : string) : option ExpectedArity := arity <$> fn_of_name name.
Definition is_identifier_name (name : string) : bool :=
  match name with String c s' => is_identifier_start c && all_chars is_identifier_char s' | EmptyString => false end.

(** [first_paren_outside_quotes] *)
Fixpoint first_paren (quote : option ascii) (s : string) : option nat :=
  match s with
  | EmptyString => None
  | String c s' =>
      match quote with
      | Some q => S <$> first_paren (if decide (c = q) then None else quote) s'
      | None =>
          if is_quote c then S <$> first_paren (Some c) s'
          else if decide (c = "("%char) then Some 0 else S <$> first_paren None s'
      end
  end.
Definition first_paren_outside_quotes : string → option nat := first_paren None.

Inductive SyntaxError : Type :=
| EmptyCondition | UnbalancedParentheses | UnterminatedLiteral | UnterminatedSpan | NoFunctionName
| UnknownFunction (name : string) | MissingClose | TrailingText | ArityMismatch (name : string) (got : nat)
| EmptyArgument (name : string) | SyntaxFuel.

(** [check_balanced] *)
Fixpoint balanced (depth : Z) (quote : option ascii) (s : string) : result SyntaxError () :=
  match s with
  | EmptyString =>
      if decide (is_Some quote) then Err UnterminatedLiteral
      else if decide (depth = 0%Z) then Ok tt else Err UnbalancedParentheses
  | String c s' =>
      match quote with
      | Some q => balanced depth (if decide (c = q) then None else quote) s'
      | None =>
          if is_quote c then balanced depth (Some c) s'
          else if decide (c = "("%char) then balanced (depth + 1) None s'
          else if decide (c = ")"%char) then
            if decide (depth - 1 < 0)%Z then Err UnbalancedParentheses else balanced (depth - 1) None s'
          else balanced depth None s'
      end
  end.
Definition check_balanced : string → result SyntaxError () := balanced 0 None.
(** [check_braces_balanced] *)
Definition check_braces_balanced (s : string) : result SyntaxError () :=
  if forallb span_closed (scan_variable_spans s) && forallb span_closed (scan_template_spans s)
  then Ok tt else Err UnterminatedSpan.

(** [validate_syntax] *)
Definition require {E} (b : bool) (e : E) : result E () := if b then Ok tt else Err e.
Fixpoint traverse_ {E A} (f : A → result E ()) (l : list A) : result E () :=
  match l with [] => Ok tt | x :: l' => _ ← f x; traverse_ f l' end.
Definition arity_ok (a : ExpectedArity) (n : nat) : bool :=
  match a with Exact m => bool_decide (n = m) | AtLeast m => bool_decide (m ≤ n) end.
Fixpoint validate_syntax (fuel : nat) (condition : string) : result SyntaxError () :=
  match fuel with
  | 0 => Err SyntaxFuel
  | S fuel' =>
      let trimmed := trim condition in
      _ ← require (bool_decide (trimmed ≠ "")) EmptyCondition;
      _ ← check_balanced trimmed;
      _ ← check_braces_balanced trimmed;
      match first_paren_outside_quotes trimmed with
      | None => Ok tt
      | Some paren =>
          let name := trim (take_str paren trimmed) in
          _ ← require (is_identifier_name name) NoFunctionName;
          expected ← ok_or (UnknownFunction name) (expected_arity name);
          _ ← require (ends_with ")" trimmed) MissingClose;
          let last_paren := default (String.length trimmed) (rfind ")" trimmed) in
          _ ← require (bool_decide (trim (drop_str (last_paren + 1) trimmed) = "")) TrailingText;
          let args := split_top_level_args (slice (paren + 1) (String.length trimmed - 1) trimmed) in
          _ ← require (arity_ok expected (List.length args)) (ArityMismatch name (List.length args));
          _ ← require (forallb (λ arg, bool_decide (trim arg ≠ "")) args) (EmptyArgument name);
          if decide (name = "and" ∨ name = "or" ∨ name = "not") then
            traverse_ (λ arg,
              if decide (is_Some (first_paren_outside_quotes (trim arg))) then validate_syntax fuel' (trim arg)
              else Ok tt) args
          else Ok tt
      end
  end.

(** * Evaluation *)

Notation Context := (gmap string value).

(** [normalize_condition] *)
Definition normalize_condition (condition : string) : string :=
  replace_str "!==" "!=" (replace_str "===" "==" condition).
(** [ConditionEvaluator::lookup_variable] *)
Definition lookup_path (path : string) (context : Context) : option value :=
  resolve_value_path (trim path) context.

Section conditions.
  Context `{Json_text : JsonText}.

(** [value_to_condition_literal] *)
Definition value_to_condition_literal (v : value) : string :=
  match v with
  | VString s =>
      String double_quote
        (replace_str (String double_quote "") (String "\" (String double_quote "")) s +:+ String double_quote "")
  | VNull => "null"
  | other => json_text other
  end.
(** [interpolate_variable_spans], [interpolate_template_spans], [interpolate] *)
Definition literal_of (context : Context) (path : string) : option string :=
  value_to_condition_literal <$> lookup_path path context.
Definition interpolate_variable_spans (context : Context) (condition : string) : string :=
  if contains_str "${" condition then
    match scan_variable_spans condition with
    | [] => condition
    | spans => render_spans condition (literal_of context) spans 0 ""
    end
  else condition.
Definition interpolate_template_spans (context : Context) (condition : string) : string :=
  if contains_str "{{" condition then
    match scan_template_spans condition with
    | [] => condition
    | spans =>
        render_spans condition (λ name, if decide (name = "") then None else literal_of context name) spans 0 ""
    end
  else condition.
Definition interpolate (context : Context) (condition : string) : string :=
  interpolate_template_spans context (interpolate_variable_spans context condition).
End conditions.

(** [resolve_value]; the slice of a lone quote is out of range. *)
Definition quoted (q : ascii) (val : string) : bool := starts_with (String q "") val && ends_with (String q "") val.
Definition resolve_value (context : Context) (val : string) : result ConditionError value :=
  let val := trim val in
  if quoted double_quote val || quoted "'" val then
    if decide (2 ≤ String.length val) then Ok (VString (slice 1 (String.length val - 1) val)) else Err Panicked
  else if decide (val = "true") then Ok (VBool true)
  else if decide (val = "false") then Ok (VBool false)
  else if decide (val = "null") then Ok VNull
  else match parse_i64 val with
       | Some n => Ok (VNumber (number_of_i64 n))
       | None =>
           match parse_f64 val with
           | Some x => Ok (match number_of_f64 x with Some n => VNumber n | None => VNull end)
           | None => Ok (default (VString val) (lookup_path val context))
           end
       end.

(** [eval_exists] *)
Definition nonzero (n : number) : bool := negb (f64_is_zero (number_f64 n)).
Definition eval_exists (context : Context) (condition : string) : bool :=
  match lookup_path (trim condition) context with
  | Some VNull | None => false
  | Some (VBool b) => b
  | Some (VString s) => bool_decide (s ≠ "")
  | Some (VNumber n) => nonzero n
  | Some _ => true
  end.

(** The functions on resolved arguments: [eval_eq] to [eval_length] without the
    counting of arguments. *)
Definition compare_fn (f : cond_fn) (o : option comparison) : bool :=
  match f, o with
  | FGt, Some Gt | FLt, Some Lt | FGe, Some (Gt | Eq) | FLe, Some (Lt | Eq) => true
  | _, _ => false
  end.
Definition value_length (v : value) : option Z :=
  match v with
  | VString s => Some (Z.of_nat (List.length (chars s)))
  | VArray a => Some (Z.of_nat (List.length a))
  | VObject o => Some (Z.of_nat (List.length o))
  | _ => None
  end.
Definition is_empty_value (v : value) : bool :=
  match v with
  | VNull => true
  | VString s => bool_decide (s = "")
  | VArray a => bool_decide (a = [])
  | VObject o => bool_decide (o = [])
  | _ => false
  end.
Definition apply_unary (f : cond_fn) (v : value) : bool :=
  match f with
  | FIsNull => is_null v
  | FIsEmpty => is_empty_value v
  | FIsTrue => value_eqb v (VBool true)
  | FIsFalse => value_eqb v (VBool false)
  | _ => negb (is_null v)
  end.
Definition apply_binary (f : cond_fn) (a b : value) : result ConditionError bool :=
  match f with
  | FEq => Ok (value_eq a b)
  | FNe => Ok (negb (value_eq a b))
  | FContains =>
      match a, b with
      | VString s, VString sub => Ok (contains_str sub s)
      | VArray l, needle => Ok (existsb (λ x, value_eq x needle) l)
      | _, _ => Err (WrongType (fn_name f))
      end
  | FStartsWith =>
      match a, b with VString s, VString p => Ok (starts_with p s) | _, _ => Err (WrongType (fn_name f)) end
  | FEndsWith =>
      match a, b with VString s, VString p => Ok (ends_with p s) | _, _ => Err (WrongType (fn_name f)) end
  | FLength =>
      match value_length a, as_f64 b with
      | Some n, Some x => Ok (f64_eq (f64_of_Z n) x)
      | _, _ => Err (WrongType (fn_name f))
      end
  | _ =>
      match as_f64 a, as_f64 b with
      | Some x, Some y => Ok (compare_fn f (f64_compare x y))
      | _, _ => Err (WrongType (fn_name f))
      end
  end.

(** [resolve_bool] on what is no call. *)
Definition value_bool (v : value) : bool :=
  match v with
  | VBool b => b
  | VNumber n => nonzero n
  | VString s => bool_decide (s ≠ "" ∧ s ≠ "false")
  | VNull => false
  | _ => true
  end.
(** The loops of [eval_and] and [eval_or]: until an argument is [stop]. *)
Fixpoint eval_until (stop : bool) (eval : string → result ConditionError bool) (args : list string) :
    result ConditionError bool :=
  match args with
  | [] => Ok (negb stop)
  | arg :: args' => b ← eval arg; if bool_decide (b = stop) then Ok stop else eval_until stop eval args'
  end.
(** The body of [eval_*] behind the name; [eval] is [resolve_bool]. *)
Definition apply_fn (context : Context) (eval : string → result ConditionError bool) (f : cond_fn) (rest : string) :
    result ConditionError bool :=
  let args := parse_args rest in
  let wrong := Err (WrongArity (fn_name f) (List.length args)) in
  match f with
  | FAnd => b ← eval_until false eval args; Ok (b && bool_decide (args ≠ []))
  | FOr => eval_until true eval args
  | FNot => match args with [arg] => negb <$> eval arg | _ => wrong end
  | FIsNull | FIsEmpty | FIsTrue | FIsFalse | FHasValue =>
      match args with [arg] => apply_unary f <$> resolve_value context arg | _ => wrong end
  | _ =>
      match args with
      | [x; y] => a ← resolve_value context x; b ← resolve_value context y; apply_binary f a b
      | _ => wrong
      end
  end.

Section evaluation.
  Context `{Json_text : JsonText}.

(** [evaluate] and [resolve_bool] *)
Fixpoint evaluate (fuel : nat) (context : Context) (condition : string) : result ConditionError bool :=
  match fuel with
  | 0 => Err Diverged
  | S fuel' =>
      let condition := trim (interpolate context (normalize_condition condition)) in
      let resolve_bool val :=
        let val := trim val in
        if decide (is_Some (find_call val)) then evaluate fuel' context val
        else value_bool <$> resolve_value context val in
      match find_call condition with
      | Some (f, rest) => apply_fn context resolve_bool f rest
      | None => Ok (eval_exists context condition)
      end
  end.
End evaluation.

Definition example_text : JsonText := {| json_text v := match v with VNumber (PosInt z) => show_int z | _ => "" end |}.
Section examples.
  #[local] Existing Instance example_text.
Let ctx : Context := <["n" := VNumber (PosInt 5)]> (<["s" := VString "it's"]> ∅).
Example evaluate_examples :
  evaluate 9 ctx "and(gt(n, 3), not(eq(s, other)))" = Ok true ∧
  evaluate 9 ctx "le(${n}, 4.5)" = Ok false ∧
  evaluate 9 ctx "length({{s}}, 4)" = Ok true ∧
  evaluate 9 ctx "startsWith(s, 'it')" = Ok true ∧
  evaluate 9 ctx "gt(s, 1)" = Err (WrongType "gt") ∧
  evaluate 9 ctx "eq(n)" = Err (WrongArity "eq" 1) ∧
  evaluate 9 ctx "n" = Ok true ∧ evaluate 9 ctx "n === 5" = Ok false.
Proof. by vm_compute. Qed.
End examples.
