(* ===== verification/ConditionFacts.v ===== *)
(** Conditions: when the evaluation ends, what a literal means, what the static
    check guarantees and what it does not. *)

From S2P Require Import Prelude Strings Json Numbers Template Conditions.

(** * Substrings *)

Definition substr (t s : string) : Prop := ∃ a b, s = a +:+ (t +:+ b).
#[export] Instance substr_preorder : PreOrder substr.
Proof.
  split.
  - intros s. exists "", "". by rewrite append_nil_r.
  - intros r s t (a & b & ->) (c & d & ->). exists (c +:+ a), (b +:+ d). by rewrite !append_assoc.
Qed.
Lemma substr_length t s : substr t s → String.length t ≤ String.length s.
Proof. intros (a & b & ->). rewrite !length_append. lia. Qed.
Lemma substr_cons t c s : substr t s → substr t (String c s).
Proof. intros (a & b & ->). by exists (String c a), b. Qed.
Lemma substr_prefix t b : substr t (t +:+ b).
Proof. by exists "", b. Qed.
Lemma substr_suffix a t : substr t (a +:+ t).
Proof. exists a, "". by rewrite append_nil_r. Qed.

Lemma contains_substr p s : contains_str p s = true ↔ substr p s.
Proof.
  unfold contains_str. rewrite bool_decide_eq_true. split.
  - intros [n (t & u & -> & _)%find_str_Some]. by exists t, u.
  - intros (a & b & ->). destruct (find_str p (a +:+ (p +:+ b))) as [n|] eqn:Hf; [eauto|].
    pose proof (find_str_None _ _ (String.length a) Hf) as Hp. rewrite drop_str_app in Hp.
    assert (starts_with p (p +:+ b) = true) by (apply starts_with_true; eauto). congruence.
Qed.

Lemma drop_while_suffix {A} (f : A → bool) l : ∃ k, l = k ++ drop_while f l.
Proof.
  induction l as [|x l [k IH]]; [by exists []|]. cbn [drop_while].
  destruct (f x); [exists (x :: k); by rewrite <-app_comm_cons, <-IH|by exists []].
Qed.
Lemma trim_substr s : substr (trim s) s.
Proof.
  destruct (drop_while_suffix is_whitespace (chars s)) as [k Hk]. set (l := drop_while _ _) in Hk.
  destruct (drop_while_suffix is_whitespace (reverse l)) as [k' Hk']. unfold trim. fold l.
  set (m := drop_while is_whitespace (reverse l)) in *.
  apply (f_equal reverse) in Hk'. rewrite reverse_involutive, reverse_app in Hk'.
  exists (String.concat "" k), (String.concat "" (reverse k')).
  by rewrite <-joined_app, <-Hk', <-joined_app, <-Hk, concat_chars.
Qed.

Lemma top_split_cons quotes depth quote s : ∃ w l, top_split quotes depth quote s = w :: l.
Proof.
  revert depth quote. induction s as [|c s IH]; intros depth quote; cbn [top_split]; [eauto|].
  assert (∀ d q, ∃ w l, match top_split quotes d q s with [] => [] | w :: ws => String c w :: ws end = w :: l) as Hpush.
  { intros d q. destruct (IH d q) as (w & l & ->). eauto. }
  destruct quote; [apply Hpush|]. destruct (quotes && is_quote c); [apply Hpush|]. repeat case_decide; eauto.
Qed.
(** A piece between commas is a substring. *)
Lemma top_split_substr quotes depth quote s x : x ∈ top_split quotes depth quote s → substr x s.
Proof.
  assert (∃ w ws, top_split quotes depth quote s = w :: ws ∧ (∃ b, s = w +:+ b) ∧ ∀ x, x ∈ ws → substr x s) as
    (w & ws & -> & [b Hb] & Hws).
  { revert depth quote. induction s as [|c s IH]; intros depth quote; cbn [top_split].
    { exists "", []. split; [done|]. split; [by exists ""|]. by intros y ?%elem_of_nil. }
    assert (∀ d q, ∃ w ws, match top_split quotes d q s with [] => [] | w :: ws => String c w :: ws end = w :: ws ∧
      (∃ b, String c s = w +:+ b) ∧ ∀ x, x ∈ ws → substr x (String c s)) as Hpush.
    { intros d q. destruct (IH d q) as (w & ws & -> & [b Hb] & Hws). exists (String c w), ws.
      split; [done|]. split; [exists b; by rewrite append_cons, <-Hb|]. intros y Hy. by apply substr_cons, Hws. }
    destruct quote as [q|]; [apply Hpush|]. destruct (quotes && is_quote c); [apply Hpush|].
    repeat (case_decide; [try apply Hpush|]); try apply Hpush.
    destruct (IH depth None) as (w & ws & -> & [b Hb] & Hws). exists "", (w :: ws).
    split; [done|]. split; [by exists (String c s)|]. intros y [->|Hy]%elem_of_cons; apply substr_cons; [|auto].
    rewrite Hb. apply substr_prefix. }
  intros [->|Hx]%elem_of_cons; [rewrite Hb; apply substr_prefix|auto].
Qed.
Lemma drop_empty_last_elem x ps : x ∈ drop_empty_last ps → x ∈ ps.
Proof.
  unfold drop_empty_last. case_decide; [|done]. intros Hx.
  rewrite <-(take_drop (List.length ps - 1) ps). apply elem_of_app. by left.
Qed.
Lemma strip_last_substr c s t : strip_last c s = Some t → substr t s.
Proof.
  unfold strip_last. destruct (ends_with _ s); [|done]. intros [= <-].
  exists "", (drop_str (String.length s - 1) s). symmetry. apply take_drop_str.
Qed.
Lemma parse_args_substr x s : x ∈ parse_args s → substr x s.
Proof.
  intros Hx%drop_empty_last_elem%top_split_substr. etrans; [exact Hx|]. etrans; [|apply trim_substr].
  destruct (strip_last ")" (trim s)) eqn:Hs; cbn; [by eapply strip_last_substr|done].
Qed.

(** * Normalisation *)

Lemma substr_cons_inv t c s :
  t ≠ "" → substr t (String c s) → (∃ u, String c s = t +:+ u) ∨ substr t s.
Proof.
  intros Ht ([|d a] & b & H); [by left; exists b|]. right. injection H as _ H. by exists a, b.
Qed.
Lemma substr_app_inv t c r s :
  contains c r = false → substr (String c t) (r +:+ s) → substr (String c t) s.
Proof.
  induction r as [|d r IH]; [done|]. cbn [contains]. intros [Hc Hr]%orb_false_iff Hs.
  apply bool_decide_eq_false in Hc.
  rewrite append_cons in Hs. apply substr_cons_inv in Hs as [[u Hu]|Hs]; [|auto|done].
  rewrite append_cons in Hu. congruence.
Qed.
(** Replacing by a text without [a] and [b] brings no [a] in front of a [b]. *)
Definition pair_text (a b : ascii) : string := String a (String b "").
Lemma replace_pair a b skip p r s :
  r ≠ "" → contains a r = false → contains b r = false →
  substr (pair_text a b) (replace_from skip p r s) → substr (pair_text a b) s.
Proof.
  intros Hr Ha Hb. revert skip. induction s as [|c s IH]; intros skip; cbn [replace_from]; [done|].
  destruct skip as [|skip]; [|intros Hs; by eapply substr_cons, IH].
  destruct (starts_with p (String c s)).
  { intros Hs%substr_app_inv; [|done]. by eapply substr_cons, IH. }
  intros [[u Hu]|Hs]%substr_cons_inv; [|by eapply substr_cons, IH|done].
  unfold pair_text in Hu. rewrite !append_cons in Hu. injection Hu as -> Hu.
  destruct s as [|d s]; [done|]. cbn [replace_from] in Hu. destruct (starts_with p (String d s)).
  - destruct r as [|x r]; [done|]. rewrite append_cons in Hu. injection Hu as -> _.
    cbn [contains] in Hb. by rewrite bool_decide_true in Hb.
  - injection Hu as -> _. apply (substr_prefix (pair_text a b) s).
Qed.
Lemma replace_length skip p r s :
  String.length r ≤ String.length p → p ≠ "" →
  String.length (replace_from skip p r s) + Nat.min skip (String.length s) ≤ String.length s.
Proof.
  intros Hr Hp. revert skip. induction s as [|c s IH]; intros skip; cbn [replace_from]; [cbn; lia|].
  cbn [String.length]. destruct skip as [|skip]; [|specialize (IH skip); lia].
  destruct (starts_with p (String c s)) eqn:Hst.
  - apply starts_with_true in Hst as [t Ht]. apply (f_equal String.length) in Ht.
    rewrite length_append in *. cbn [String.length] in Ht. specialize (IH (String.length p - 1)).
    destruct p as [|x p]; [done|]. cbn [String.length] in *. lia.
  - specialize (IH 0). cbn [String.length]. lia.
Qed.
Lemma normalize_length s : String.length (normalize_condition s) ≤ String.length s.
Proof.
  unfold normalize_condition, replace_str.
  pose proof (replace_length 0 "===" "==" s ltac:(cbn; lia) ltac:(done)).
  pose proof (replace_length 0 "!==" "!=" (replace_from 0 "===" "==" s) ltac:(cbn; lia) ltac:(done)). lia.
Qed.

(** A text without an opening of a reference. *)
Definition inert (s : string) : Prop := ¬ substr "${" s ∧ ¬ substr "{{" s.
Lemma inert_substr t s : substr t s → inert s → inert t.
Proof. intros Ht [H1 H2]. split; intros H; [apply H1|apply H2]; by etrans. Qed.
Lemma inert_normalize s : inert s → inert (normalize_condition s).
Proof.
  intros [H1 H2]. unfold normalize_condition, replace_str.
  split; intros H; [apply H1; change "${" with (pair_text "$" "{") in *|apply H2; change "{{" with (pair_text "{" "{") in *];
    by do 2 (apply replace_pair in H; [|done..]).
Qed.

Section conditions.
  Context `{Json_text : JsonText}.

Lemma inert_interpolate ctx s : inert s → interpolate ctx s = s.
Proof.
  intros [H1 H2]. unfold interpolate, interpolate_template_spans, interpolate_variable_spans.
  assert (contains_str "${" s = false) as -> by (apply not_true_is_false; by rewrite contains_substr).
  assert (contains_str "{{" s = false) as -> by (apply not_true_is_false; by rewrite contains_substr). done.
Qed.

(** * Termination *)

Lemma resolve_value_total ctx v : resolve_value ctx v ≠ Err Diverged.
Proof. unfold resolve_value. repeat case_decide; repeat case_match; done. Qed.
Lemma eval_until_total stop eval args :
  (∀ a, a ∈ args → eval a ≠ Err Diverged) → eval_until stop eval args ≠ Err Diverged.
Proof.
  induction args as [|a args IH]; intros Ha; [done|]. cbn [eval_until]. unfold mbind, result_bind.
  destruct (eval a) as [b|e] eqn:He; [|rewrite <-He; apply Ha; by left].
  case_bool_decide; [done|]. apply IH. intros x Hx. apply Ha. by right.
Qed.
Lemma apply_binary_total f a b : apply_binary f a b ≠ Err Diverged.
Proof. unfold apply_binary. repeat case_match; done. Qed.
Lemma apply_fn_total ctx eval f rest :
  (∀ a, a ∈ parse_args rest → eval a ≠ Err Diverged) → apply_fn ctx eval f rest ≠ Err Diverged.
Proof.
  intros He. unfold apply_fn, mbind, result_bind, fmap, result_fmap.
  pose proof (resolve_value_total ctx) as Hv.
  destruct f; try (destruct (parse_args rest) as [|x [|y [|z args]]]; try done;
    pose proof (Hv x); try (pose proof (Hv y)); repeat case_match; try done; try congruence; apply apply_binary_total).
  - pose proof (eval_until_total false eval _ He). by case_match.
  - by apply eval_until_total.
  - destruct (parse_args rest) as [|x [|y args]]; try done. specialize (He x ltac:(by left)). by case_match.
Qed.
Lemma find_call_spec s f rest : find_call s = Some (f, rest) → s = fn_name f +:+ "(" +:+ rest.
Proof.
  unfold find_call. intros H%head_Some_elem_of. apply list_elem_of_omap in H as (g & _ & H).
  apply fmap_Some in H as (t & Ht & [= -> ->]). apply strip_prefix_Some in Ht. by rewrite append_assoc in Ht.
Qed.
(** One evaluation ends if those of the arguments do. *)
Lemma evaluate_step ctx fuel c :
  (∀ v, substr v (interpolate ctx (normalize_condition c)) →
     String.length v < String.length (interpolate ctx (normalize_condition c)) →
     evaluate fuel ctx v ≠ Err Diverged) →
  evaluate (S fuel) ctx c ≠ Err Diverged.
Proof.
  intros IH. cbn [evaluate]. set (c' := interpolate _ _) in *.
  destruct (find_call (trim c')) as [[f rest]|] eqn:Hc; [|done]. apply find_call_spec in Hc.
  apply apply_fn_total. intros a Ha%parse_args_substr.
  assert (substr (trim a) rest) as Hs by (etrans; [apply trim_substr|done]).
  assert (substr rest c' ∧ String.length rest < String.length c') as [Hr Hl].
  { pose proof (trim_substr c') as Ht. rewrite Hc in Ht. split.
    - etrans; [|exact Ht]. etrans; [apply (substr_suffix "(")|apply substr_suffix].
    - apply substr_length in Ht. rewrite !length_append in Ht. cbn in Ht. lia. }
  case_decide.
  - apply IH; [by etrans|]. apply substr_length in Hs. lia.
  - pose proof (resolve_value_total ctx (trim a)). unfold fmap, result_fmap. case_match; [done|congruence].
Qed.
Lemma inert_total ctx fuel c : inert c → String.length c < fuel → evaluate fuel ctx c ≠ Err Diverged.
Proof.
  revert c. induction fuel as [|fuel IH]; intros c Hc Hl; [lia|]. apply evaluate_step.
  rewrite inert_interpolate by by apply inert_normalize. intros v Hv Hlen.
  pose proof (normalize_length c). apply IH; [|lia]. eapply inert_substr; [exact Hv|]. by apply inert_normalize.
Qed.

(** A condition whose text, once its references are replaced, has no reference left is evaluated
    to an end: fuel for the length of that text is enough. *)
Theorem condition_terminates ctx (c : string)
    (Hinert : contains_str "${" (interpolate ctx (normalize_condition c)) = false ∧
              contains_str "{{" (interpolate ctx (normalize_condition c)) = false) (fuel : nat)
    (Hfuel : String.length (interpolate ctx (normalize_condition c)) < fuel) :
  evaluate fuel ctx c ≠ Err Diverged.
Proof.
  destruct fuel as [|fuel]; [lia|]. apply evaluate_step. intros v Hv Hl.
  destruct Hinert as [H1 H2]. apply not_true_iff_false in H1, H2. rewrite contains_substr in H1, H2.
  apply inert_total; [by eapply inert_substr|lia].
Qed.

(** * Literals *)

(** A text between quotes has nothing to trim. *)
Lemma trim_quoted t : trim (String double_quote (t +:+ String double_quote "")) = String double_quote (t +:+ String double_quote "").
Proof. apply trim_ends; [|done|done]. by intros [|? [|? [|]]]. Qed.
Lemma replace_char c r skip s :
  1 < String.length r →
  String.length s - Nat.min skip (String.length s) ≤ String.length (replace_from skip (String c "") r s) ∧
  (replace_from 0 (String c "") r s = s ↔ contains c s = false).
Proof.
  intros Hr. revert skip. induction s as [|d s IH]; intros skip; [done|].
  destruct (IH 0) as [Hl Hc]. cbn [replace_from]. change (String.length (String c "") - 1) with 0. split.
  - cbn [replace_from String.length]. destruct skip as [|skip]; [|specialize (IH skip) as [? _]; lia].
    destruct (starts_with _ _); rewrite ?length_append; cbn [String.length]; lia.
  - cbn [replace_from contains]. destruct (starts_with (String c "") (String d s)) eqn:Hst.
    + apply starts_with_true in Hst as [u Hu]. injection Hu as -> _. rewrite bool_decide_true by done.
      split; [|done]. intros Heq%(f_equal String.length). rewrite length_append in Heq. cbn in Heq. lia.
    + assert (c ≠ d) as Hne.
      { intros ->. apply not_true_iff_false in Hst. apply Hst, starts_with_true. by exists s. }
      rewrite bool_decide_false by done. cbn [orb]. rewrite <-Hc. split; [by intros [= ?]|by intros ->].
Qed.

(** A string put into a condition as a literal means itself exactly when it has no double quote:
    a quote is escaped with a backslash that the reader of literals does not take away. *)
Theorem string_literal_roundtrip ctx (s : string) :
  resolve_value ctx (value_to_condition_literal (VString s)) = Ok (VString s) ↔
  contains double_quote s = false.
Proof.
  cbn [value_to_condition_literal]. set (r := String "\" (String double_quote "")). unfold replace_str.
  destruct (replace_char double_quote r 0 s) as [_ <-]; [cbn; lia|].
  set (t := replace_from 0 _ r s). unfold resolve_value. rewrite trim_quoted.
  assert (quoted double_quote (String double_quote (t +:+ String double_quote "")) = true) as ->.
  { unfold quoted. apply andb_true_iff. split; [done|]. apply ends_with_true. by exists (String double_quote t). }
  rewrite decide_True by (cbn; rewrite length_append; cbn; lia). cbn [orb].
  assert (slice 1 (String.length (String double_quote (t +:+ String double_quote "")) - 1)
    (String double_quote (t +:+ String double_quote "")) = t) as ->.
  { unfold slice. cbn [String.length drop_str]. rewrite length_append. cbn [String.length].
    replace (S (String.length t + 1) - 1 - 1) with (String.length t) by lia. apply take_str_app. }
  split; [by intros [= ->]|by intros ->].
Qed.

(** * What the static check lets through *)

Definition trap : Context :=
  <["v" := VString "x,and(${v}),y"]> (<["n" := VNumber (PosInt 5)]> (<["s" := VString "a,b"]> ∅)).
(** Replaces a closed term by its value. *)
Ltac computed t := let r := eval vm_compute in t in replace t with r by (vm_compute; reflexivity).
Lemma trap_step fuel :
  evaluate (S fuel) trap "and(${v})" =
    (b ← (b ← evaluate fuel trap "and(${v})"; if bool_decide (b = false) then Ok false else Ok true);
     Ok (b && true)).
Proof.
  cbn [evaluate]. cbv zeta. computed (find_call (trim (interpolate trap (normalize_condition "and(${v})")))).
  cbv iota beta. unfold apply_fn. cbv zeta.
  match goal with |- context [parse_args ?r] => computed (parse_args r) end. cbn [eval_until].
  repeat match goal with |- context [find_call (trim ?v)] => computed (find_call (trim v)) end.
  repeat match goal with |- context [resolve_value trap ?v] => computed (resolve_value trap v) end.
  match goal with |- context [evaluate fuel trap ?v] => computed v end.
  rewrite decide_False, decide_True by (by intros [? ?] || by eexists).
  rewrite decide_False by (by intros [? ?]). cbn [fmap result_fmap mbind result_bind].
  destruct (evaluate fuel trap _) as [[]|]; by vm_compute.
Qed.

(** C34: conditions that pass the static check and go wrong: a value that holds a call is evaluated
    again without end, a comma in quotes cuts an argument into lone quotes, whose slice
    panics, or into one argument too many, and a blank before the parenthesis turns a call into
    the name of a missing variable, which is false. *)
Theorem static_check_gaps :
  (validate_syntax 99 "and(${v})" = Ok tt ∧ ∀ fuel, evaluate fuel trap "and(${v})" = Err Diverged) ∧
  (validate_syntax 99 "and(',')" = Ok tt ∧ evaluate 99 trap "and(',')" = Err Panicked) ∧
  (validate_syntax 99 "eq(s, 'a,b')" = Ok tt ∧ evaluate 99 trap "eq(s, 'a,b')" = Err (WrongArity "eq" 3)) ∧
  (validate_syntax 99 "eq (n, 5)" = Ok tt ∧ evaluate 99 trap "eq (n, 5)" = Ok false ∧
   evaluate 99 trap "eq(n, 5)" = Ok true).
Proof.
  split; [split|]; [by vm_compute| |by vm_compute].
  induction fuel as [|fuel IH]; [done|]. by rewrite trap_step, IH.
Qed.
End conditions.

Lemma condition_terminates_witness :
  contains_str "${" (interpolate (Json_text := example_text) trap (normalize_condition "eq(${n}, 5)")) = false ∧
  evaluate (Json_text := example_text) 9 trap "eq(${n}, 5)" ≠ Err Diverged ∧
  evaluate (Json_text := example_text) 9 trap "eq(${n}, 5)" = Ok true.
Proof.
  split; [vm_compute; reflexivity|]. split; [|vm_compute; reflexivity].
  apply (condition_terminates (Json_text := example_text) trap "eq(${n}, 5)").
  - split; vm_compute; reflexivity.
  - apply Nat.ltb_lt. vm_compute. reflexivity.
Defined.
