(* ===== verification/ConditionCheck.v ===== *)
(** The static check of conditions is sound for conditions without quotes and
    references: what it accepts never fails for its form. *)

From S2P Require Import Prelude Strings Json Numbers Template Conditions ConditionFacts.

(** * Plain text *)

(** ASCII without quotes, braces and [=]: a condition in which nothing is
    interpolated, normalised or quoted. *)
Definition plain_char (c : ascii) : bool :=
  bool_decide (nat_of_ascii c < 128) && negb (is_quote c) && negb (bool_decide (c = "{"%char ∨ c = "="%char)).
Definition plain (s : string) : bool := all_chars plain_char s.

Lemma all_chars_app f s t : all_chars f (s +:+ t) = all_chars f s && all_chars f t.
Proof. induction s as [|c s IH]; [done|]. rewrite append_cons. cbn [all_chars]. by rewrite IH, andb_assoc. Qed.
Lemma plain_substr t s : substr t s → plain s = true → plain t = true.
Proof. intros (a & b & ->). unfold plain. rewrite !all_chars_app, !andb_true_iff. tauto. Qed.
Lemma not_plain_substr t s : plain t = false → plain s = true → ¬ substr t s.
Proof. intros Ht Hs Hsub. apply plain_substr in Hsub; [congruence|done]. Qed.

Lemma replace_absent p r s : ¬ substr p s → replace_from 0 p r s = s.
Proof.
  induction s as [|c s IH]; intros Hs; [done|]. cbn [replace_from].
  destruct (starts_with p (String c s)) eqn:Hp.
  - apply starts_with_true in Hp as [u Hu]. destruct Hs. rewrite Hu. apply substr_prefix.
  - rewrite IH; [done|]. intros H. by apply Hs, substr_cons.
Qed.
Lemma plain_normalize s : plain s = true → normalize_condition s = s.
Proof.
  intros Hs. unfold normalize_condition, replace_str. rewrite (replace_absent "==="), replace_absent; [done|..];
    by apply not_plain_substr.
Qed.
Lemma plain_inert s : plain s = true → inert s.
Proof. intros Hs. split; by apply not_plain_substr. Qed.

(** * Trimming plain text *)

Definition ws (c : ascii) : bool := let n := nat_of_ascii c in bool_decide (9 ≤ n ∧ n ≤ 13 ∨ n = 32).
Definition singletons (l : list ascii) : list string := (λ c, String c "") <$> l.
Notation to_list := String.list_ascii_of_string.
Notation of_list := String.string_of_list_ascii.
Definition ltrim (s : string) : string := of_list (drop_while ws (to_list s)).
Definition rtrim_list (l : list ascii) : list ascii := reverse (drop_while ws (reverse l)).

Lemma plain_chars s : plain s = true → chars s = singletons (to_list s).
Proof.
  induction s as [|c s IH]; [done|]. unfold plain in *. cbn [all_chars]. intros [Hc Hs]%andb_true_iff.
  cbn [chars String.list_ascii_of_string]. rewrite IH by done. unfold singletons. cbn [fmap list_fmap].
  destruct s as [|b s]; [done|]. cbn [String.list_ascii_of_string fmap list_fmap].
  cbn [all_chars] in Hs. apply andb_true_iff in Hs as [Hb _]. unfold plain_char in Hb.
  rewrite !andb_true_iff, bool_decide_eq_true in Hb. unfold is_continuation. by rewrite bool_decide_false by lia.
Qed.
Lemma concat_singletons l : String.concat "" (singletons l) = of_list l.
Proof. induction l as [|c l IH]; [done|]. unfold singletons in *. cbn [fmap list_fmap]. by rewrite joined_cons, IH. Qed.
Lemma is_whitespace_single c : is_whitespace (String c "") = ws c.
Proof. destruct c as [[] [] [] [] [] [] [] []]; vm_compute; reflexivity. Qed.
Lemma drop_while_singletons l : drop_while is_whitespace (singletons l) = singletons (drop_while ws l).
Proof.
  unfold singletons. induction l as [|c l IH]; [done|]. cbn [fmap list_fmap drop_while].
  rewrite is_whitespace_single. by destruct (ws c).
Qed.
Lemma plain_trim s : plain s = true → trim s = of_list (rtrim_list (to_list (ltrim s))).
Proof.
  intros Hs. unfold trim, ltrim, rtrim_list. rewrite plain_chars by done.
  rewrite String.list_ascii_of_string_of_list_ascii, drop_while_singletons.
  unfold singletons at 1. rewrite <-fmap_reverse. fold (singletons (reverse (drop_while ws (to_list s)))).
  rewrite drop_while_singletons. unfold singletons. rewrite <-fmap_reverse. apply concat_singletons.
Qed.
Lemma ltrim_cons c s : ltrim (String c s) = if ws c then ltrim s else String c s.
Proof.
  unfold ltrim. cbn [String.list_ascii_of_string drop_while]. destruct (ws c); [done|].
  cbn. by rewrite String.string_of_list_ascii_of_string.
Qed.
Lemma ltrim_substr s : substr (ltrim s) s.
Proof.
  induction s as [|c s IH]; [done|]. rewrite ltrim_cons. destruct (ws c); [by apply substr_cons|done].
Qed.
Lemma ltrim_snoc s c : ws c = false → ltrim (s +:+ String c "") = ltrim s +:+ String c "".
Proof.
  intros Hc. induction s as [|d s IH].
  - change ("" +:+ String c "") with (String c ""). rewrite ltrim_cons, Hc. done.
  - rewrite append_cons, !ltrim_cons. by destruct (ws d).
Qed.
Lemma to_list_app s t : to_list (s +:+ t) = to_list s ++ to_list t.
Proof. induction s as [|c s IH]; [done|]. rewrite append_cons. cbn. by rewrite IH. Qed.
Lemma trim_snoc s c :
  plain (s +:+ String c "") = true → ws c = false → trim (s +:+ String c "") = ltrim s +:+ String c "".
Proof.
  intros Hp Hc. rewrite plain_trim, ltrim_snoc, to_list_app by done. unfold rtrim_list. cbn [String.list_ascii_of_string].
  rewrite reverse_app. cbn [reverse]. change (reverse [c]) with [c]. cbn [app drop_while]. rewrite Hc.
  rewrite reverse_cons, reverse_involutive.
  rewrite <-(String.string_of_list_ascii_of_string (ltrim s +:+ String c "")). by rewrite to_list_app.
Qed.

(** * The two ways of cutting arguments *)

Lemma plain_cons c s : plain (String c s) = true ↔ plain_char c = true ∧ plain s = true.
Proof. apply andb_true_iff. Qed.
Lemma plain_not_quote c : plain_char c = true → is_quote c = false.
Proof. unfold plain_char. rewrite !andb_true_iff, !negb_true_iff. tauto. Qed.
Lemma top_split_plain depth s : plain s = true → top_split true depth None s = top_split false depth None s.
Proof.
  revert depth. induction s as [|c s IH]; intros depth; [done|]. intros [Hc Hs]%plain_cons. cbn [top_split].
  rewrite (plain_not_quote c Hc). cbn [andb]. by rewrite !IH by done.
Qed.
(** Blanks in front belong to the first piece. *)
Lemma top_split_ltrim s :
  ∃ w w' l, top_split false 0 None s = w :: l ∧ top_split false 0 None (ltrim s) = w' :: l ∧ ltrim w = ltrim w'.
Proof.
  induction s as [|c s (w & w' & l & H & H' & Hw)]; [by exists "", "", []|].
  rewrite ltrim_cons. destruct (ws c) eqn:Hc.
  - exists (String c w), w', l. split; [|split; [done|by rewrite ltrim_cons, Hc]].
    assert (∀ x, ws x = false → c ≠ x) as Hne by (intros x Hx ->; congruence).
    cbn [top_split andb]. rewrite (decide_False (P := c = "("%char)), (decide_False (P := c = ")"%char)) by by apply Hne.
    rewrite (decide_False (P := c = ","%char ∧ _)) by (intros [Hx _]; exact (Hne ","%char eq_refl Hx)). by rewrite H.
  - destruct (top_split false 0 None (String c s)) as [|v l'] eqn:Hs; [|by exists v, v, l'].
    pose proof (top_split_cons false 0 None (String c s)) as (v & l' & Hv). congruence.
Qed.
Lemma drop_empty_last_cons w l :
  drop_empty_last (w :: l) = if decide (w = "" ∧ l = []) then [] else w :: drop_empty_last l.
Proof.
  unfold drop_empty_last. destruct (decide (w = "" ∧ l = [])) as [[-> ->]|Hd].
  - done.
  - destruct l as [|v l].
    + rewrite !decide_False; [done|done|]. intros [= ->]. by apply Hd.
    + change (last (w :: v :: l)) with (last (v :: l)). case_decide; [|done].
      cbn [List.length]. rewrite Nat.sub_succ, Nat.sub_0_r. cbn [take]. by rewrite Nat.sub_succ, Nat.sub_0_r.
Qed.
(** On [inner)] both give the same arguments up to blanks, unless the check
    refuses them. *)
Lemma args_agree inner :
  plain (inner +:+ ")") = true → split_top_level_args inner ≠ [] →
  (∀ x, x ∈ split_top_level_args inner → trim x ≠ "") →
  Forall2 (λ x y, trim x = trim y) (split_top_level_args inner) (parse_args (inner +:+ ")")).
Proof.
  intros Hp Hne Hblank. assert (plain inner = true) as Hpi by (eapply plain_substr; [apply substr_prefix|done]).
  unfold parse_args. rewrite trim_snoc by done.
  assert (strip_last ")" (ltrim inner +:+ ")") = Some (ltrim inner)) as ->.
  { unfold strip_last. assert (ends_with ")" (ltrim inner +:+ ")") = true) as -> by (apply ends_with_true; eauto).
    rewrite length_append, Nat.add_sub. by rewrite take_str_app. }
  cbn [default from_option id]. unfold split_top_level_args in *. rewrite top_split_plain in * by done.
  case_decide as Hd; [done|].
  destruct (top_split_ltrim inner) as (w & w' & l & H & H' & Hw). rewrite H, H' in *.
  assert (trim w = trim w') as Ht.
  { assert (substr w inner ∧ substr w' (ltrim inner)) as [Hs Hs'].
    { split; eapply (top_split_substr false 0 None); [rewrite H|rewrite H']; by left. }
    assert (plain (ltrim inner) = true) as Hpl.
    { eapply plain_substr; [|exact Hpi]. apply ltrim_substr. }
    rewrite !plain_trim by (by eapply plain_substr). by rewrite Hw. }
  rewrite !drop_empty_last_cons in *. destruct (decide (w = "" ∧ l = [])) as [|Hwl]; [done|].
  assert (trim w ≠ "") as Hnb by (apply Hblank; by left).
  rewrite decide_False; [by constructor; [|apply Forall_Forall2_diag, Forall_true]|].
  intros [-> _]. by rewrite Ht in Hnb.
Qed.

(** * Soundness *)

Definition safe (r : result ConditionError bool) : Prop :=
  match r with Ok _ | Err (WrongType _) => True | Err _ => False end.

Section soundness.
  Context `{Json_text : JsonText} (ctx : Context).

Lemma plain_not_quoted q s : is_quote q = true → plain s = true → quoted q s = false.
Proof.
  intros Hq Hs. unfold quoted. apply andb_false_iff. left. apply not_true_iff_false.
  intros [t ->]%starts_with_true. rewrite append_cons in Hs. apply plain_cons in Hs as [Hc%plain_not_quote _]. congruence.
Qed.
Lemma plain_resolve s : plain s = true → ∃ v, resolve_value ctx s = Ok v.
Proof.
  intros Hs. assert (plain (trim s) = true) as Ht by (eapply plain_substr; [apply trim_substr|done]).
  unfold resolve_value. rewrite !plain_not_quoted by done. cbn [orb]. repeat case_decide; eauto.
  destruct (parse_i64 _); [eauto|]. destruct (parse_f64 _); eauto.
Qed.
Lemma eval_until_safe stop eval args :
  (∀ a, a ∈ args → safe (eval a)) → safe (eval_until stop eval args).
Proof.
  induction args as [|a args IH]; intros Ha; [done|]. cbn [eval_until]. unfold mbind, result_bind.
  pose proof (Ha a ltac:(by left)) as He. destruct (eval a) as [b|e]; [|done].
  case_bool_decide; [done|]. apply IH. intros x Hx. apply Ha. by right.
Qed.
Lemma apply_binary_safe f a b : safe (apply_binary f a b).
Proof. unfold apply_binary. repeat case_match; done. Qed.
Definition is_connective (f : cond_fn) : bool := bool_decide (f = FAnd ∨ f = FOr ∨ f = FNot).
Lemma apply_fn_safe eval f rest :
  arity_ok (arity f) (List.length (parse_args rest)) = true → (∀ a, a ∈ parse_args rest → plain a = true) →
  (is_connective f = true → ∀ a, a ∈ parse_args rest → safe (eval a)) →
  safe (apply_fn ctx eval f rest).
Proof.
  intros Har Hp He. unfold apply_fn, mbind, result_bind, fmap, result_fmap.
  assert (∀ a, a ∈ parse_args rest → ∃ v, resolve_value ctx a = Ok v) as Hv by (intros; by apply plain_resolve, Hp).
  destruct f; cbn [arity arity_ok] in Har; apply bool_decide_eq_true in Har;
    try (destruct (parse_args rest) as [|x [|y [|z args]]]; try done;
      destruct (Hv x) as [v ->]; [by left|]; try (destruct (Hv y) as [w ->]; [by right; left|]);
      first [done|apply apply_binary_safe]).
  - pose proof (eval_until_safe false eval _ (He eq_refl)) as Hs. by case_match.
  - by apply eval_until_safe, He.
  - destruct (parse_args rest) as [|x [|y args]]; try done. specialize (He eq_refl x ltac:(by left)). by case_match.
Qed.

(** The static check on a call. *)
Lemma first_paren_call f rest :
  first_paren_outside_quotes (fn_name f +:+ "(" +:+ rest) = Some (String.length (fn_name f)).
Proof. by destruct f. Qed.
Lemma fn_name_trim f : trim (fn_name f) = fn_name f.
Proof. destruct f; vm_compute; reflexivity. Qed.
Lemma fn_name_arity f : expected_arity (fn_name f) = Some (arity f).
Proof. destruct f; vm_compute; reflexivity. Qed.
Lemma find_call_trim_paren s f rest : find_call s = Some (f, rest) → is_Some (first_paren_outside_quotes s).
Proof. intros ->%find_call_spec. rewrite first_paren_call. eauto. Qed.
Lemma require_Ok {E} b (e : E) u : require b e = Ok u ↔ b = true.
Proof. destruct b, u; cbn; naive_solver. Qed.
Lemma traverse_Ok {E A} (f : A → result E ()) l u : traverse_ f l = Ok u ↔ ∀ x, x ∈ l → f x = Ok tt.
Proof.
  induction l as [|x l IH]; cbn [traverse_].
  - destruct u. split; [by intros _ x ?%elem_of_nil|done].
  - rewrite result_bind_Ok. setoid_rewrite elem_of_cons. setoid_rewrite IH.
    split; [intros ([] & Hx & Hl) y [->|Hy]; auto|intros H; exists tt; auto].
Qed.
Lemma snoc_cases s : s = "" ∨ ∃ t c, s = t +:+ String c "".
Proof.
  induction s as [|c s [->|(t & d & ->)]]; [by left|right; by exists "", c|].
  right. by exists (String c t), d.
Qed.
Lemma snoc_app_inv u c a d t :
  a +:+ String d t = u +:+ String c "" → (t = "" ∧ d = c) ∨ ∃ t', t = t' +:+ String c "".
Proof.
  assert (∀ v e, v +:+ String e "" = u +:+ String c "" → e = c) as Hinj.
  { intros v e H%(f_equal String.list_ascii_of_string). rewrite !to_list_app in H.
    apply app_inj_2 in H as [_ [= ->]]; done. }
  destruct (snoc_cases t) as [->|(t' & e & ->)]; intros H.
  - left. split; [done|]. by eapply Hinj.
  - right. exists t'. rewrite <-append_cons, <-append_assoc in H. by apply Hinj in H as ->.
Qed.
Lemma slice_call name inner :
  let s := name +:+ "(" +:+ (inner +:+ ")") in slice (String.length name + 1) (String.length s - 1) s = inner.
Proof.
  cbv zeta. unfold slice. rewrite <-append_assoc. 
  replace (String.length name + 1) with (String.length (name +:+ "(")) by (by rewrite length_append).
  rewrite drop_str_app, !length_append. cbn [String.length].
  replace (String.length name + 1 + (String.length inner + 1) - 1 - (String.length name + 1))
    with (String.length inner) by lia. apply take_str_app.
Qed.
Lemma validate_call fuel c f rest :
  trim c = fn_name f +:+ "(" +:+ rest → validate_syntax fuel c = Ok tt →
  ∃ inner fuel', fuel = S fuel' ∧ rest = inner +:+ ")" ∧
    arity_ok (arity f) (List.length (split_top_level_args inner)) = true ∧
    ∀ x, x ∈ split_top_level_args inner → trim x ≠ "" ∧
      (is_connective f = true → is_Some (first_paren_outside_quotes (trim x)) → validate_syntax fuel' (trim x) = Ok tt).
Proof.
  destruct fuel as [|fuel]; [done|]. intros Ht. cbn [validate_syntax]. rewrite Ht.
  rewrite first_paren_call, take_str_app, fn_name_trim, fn_name_arity. cbn [ok_or].
  rewrite !result_bind_Ok. intros (_ & _ & (_ & _ & (_ & _ & Hv)%result_bind_Ok)%result_bind_Ok).
  apply result_bind_Ok in Hv as (_ & _ & Hv).
  apply result_bind_Ok in Hv as (a & [= <-] & Hv).
  apply result_bind_Ok in Hv as (_ & Hend%require_Ok & Hv).
  apply result_bind_Ok in Hv as (_ & _ & Hv).
  apply ends_with_true in Hend as [u Hu].
  apply (snoc_app_inv u ")" (fn_name f) "(" rest) in Hu as [[_ ?]|[inner ->]]; [done|].
  exists inner, fuel. split; [done|]. split; [done|].
  rewrite slice_call in Hv. apply result_bind_Ok in Hv as (_ & Harity%require_Ok & Hv).
  apply result_bind_Ok in Hv as (_ & Hblank%require_Ok & Hv). split; [done|].
  intros x Hx. split.
  - apply forallb_forall with (x := x) in Hblank; [by apply bool_decide_eq_true in Hblank|by apply list_elem_of_In].
  - intros Hf Hs. rewrite decide_True in Hv.
    + apply traverse_Ok with (x := x) in Hv; [|done]. by rewrite decide_True in Hv.
    + apply bool_decide_eq_true in Hf as [->|[->| ->]]; auto.
Qed.

Lemma check_sound_fuel m n c :
  String.length c < m → plain c = true → validate_syntax n c = Ok tt → safe (evaluate m ctx c).
Proof.
  revert n c. induction m as [|m IH]; intros n c Hm Hc Hv; [lia|]. cbn [evaluate].
  rewrite plain_normalize, inert_interpolate by auto using plain_inert.
  destruct (find_call (trim c)) as [[f rest]|] eqn:Hf; [|done]. apply find_call_spec in Hf.
  destruct (validate_call n c f rest Hf Hv) as (inner & n' & -> & -> & Har & Hargs).
  assert (plain (inner +:+ ")") = true) as Hpl.
  { eapply plain_substr; [|exact Hc]. etrans; [|apply trim_substr]. rewrite Hf.
    etrans; [apply (substr_suffix "(")|apply substr_suffix]. }
  assert (String.length (inner +:+ ")") < String.length c) as Hlen.
  { pose proof (substr_length _ _ (trim_substr c)) as Hl. rewrite Hf, !length_append in Hl.
    cbn [String.length] in Hl. rewrite length_append. cbn [String.length]. lia. }
  pose proof (args_agree inner Hpl) as Hag.
  assert (Forall2 (λ x y, trim x = trim y) (split_top_level_args inner) (parse_args (inner +:+ ")"))) as Hall.
  { apply Hag; [|intros x Hx; by apply Hargs]. intros H0. rewrite H0 in Har. by destruct f. }
  clear Hag. apply apply_fn_safe.
  - by rewrite <-(Forall2_length _ _ _ Hall).
  - intros a Ha%parse_args_substr. by eapply plain_substr.
  - intros Hcon y Hy. pose proof (substr_length _ _ (parse_args_substr _ _ Hy)) as Hly.
    assert (plain y = true) as Hpy by (eapply plain_substr; [by apply parse_args_substr|done]).
    assert (plain (trim y) = true) as Hpty by (eapply plain_substr; [apply trim_substr|done]).
    case_decide as Hcall.
    + apply list_elem_of_lookup in Hy as [i Hy]. destruct (Forall2_lookup_r _ _ _ _ _ Hall Hy) as (x & Hx & Hxy).
      apply list_elem_of_lookup_2 in Hx. destruct Hcall as [[g r] Hcall].
      apply (IH n'); [pose proof (substr_length _ _ (trim_substr y)); lia|done|].
      rewrite <-Hxy. apply Hargs; [done|done|]. rewrite Hxy. by eapply find_call_trim_paren.
    + destruct (plain_resolve (trim y) Hpty) as [v ->]. done.
Qed.

(** C33: a condition without quotes, references and [=] that the static check accepts never panics,
    never runs away and never has a wrong number of arguments, at any nesting depth: it gives a
    boolean or complains about the type of a value. *)
Theorem checked_condition_safe (c : string) (fuel : nat)
    (Hplain : plain c = true) (Hchecked : validate_syntax fuel c = Ok tt) :
  safe (evaluate (S (String.length c)) ctx c).
Proof. exact (check_sound_fuel _ fuel c (Nat.lt_succ_diag_r _) Hplain Hchecked). Qed.
End soundness.

Definition checked_condition : string := "and(gt(n, 3), or(isNull(m), not( eq(n , 7))), length(n,2))".
Lemma checked_condition_safe_witness :
  plain checked_condition = true ∧ validate_syntax 99 checked_condition = Ok tt ∧
  safe (evaluate (Json_text := example_text) (S (String.length checked_condition)) trap checked_condition) ∧
  evaluate (Json_text := example_text) 99 trap checked_condition = Err (WrongType "length").
Proof.
  split; [vm_compute; reflexivity|]. split; [vm_compute; reflexivity|]. split; [|vm_compute; reflexivity].
  apply (checked_condition_safe (Json_text := example_text) trap checked_condition 99); vm_compute; reflexivity.
Defined.
