(* ===== verification/GraphTypes.v ===== *)
(** The workflow graph and the error-routing configuration it carries.

    Mirrors wf-types/src/workflow_execution/graph_structure.rs,
    wf-types/src/workflow/edge.rs and wf-types/src/workflow/error_branch.rs. *)

From S2P Require Import Prelude Json.

(** [EdgeType] *)
Inductive EdgeType : Type := EDefault | EConditional | EError.

(** [NodeErrorCategory] *)
Inductive NodeErrorCategory : Type :=
| TransportTimeout
| BusinessFailure
| CancelledInterrupted
| CompressionFailure
| Resource.

#[export] Instance EdgeType_eq_dec : EqDecision EdgeType.
Proof. solve_decision. Defined.
#[export] Instance NodeErrorCategory_eq_dec : EqDecision NodeErrorCategory.
Proof. solve_decision. Defined.

(** [ErrorRouteConfig] *)
Record ErrorRouteConfig : Type := {
  categories : option (list NodeErrorCategory);
  route_suspend : option bool;
}.

(** [ErrorRouteConfig::default()] *)
Definition ErrorRouteConfig_default : ErrorRouteConfig :=
  {| categories := None; route_suspend := None |}.

(** [WorkflowErrorDefault] *)
Record WorkflowErrorDefault : Type := {
  default_target : string;
  default_suspend : option bool;
}.

(** [ErrorRouteTarget] *)
Record ErrorRouteTarget : Type := {
  jump_target : string;
  jump_suspend : bool;
}.

(** [WorkflowNode] *)
Record WorkflowNode : Type := {
  node_id : string;
  node_name : option string;
  node_type : string;
  inner : value;
}.

(** [WorkflowEdge] *)
Record WorkflowEdge : Type := {
  edge_id : string;
  source_node_id : string;
  target_node_id : string;
  edge_type : EdgeType;
  condition : option string;
  label : option string;
  description : option string;
  error_route : option ErrorRouteConfig;
}.

(** [WorkflowGraphStructure] *)
Record WorkflowGraphStructure : Type := {
  nodes : list WorkflowNode;
  edges : list WorkflowEdge;
  start_node_id : option string;
  end_node_ids : list string;
  error_default : option WorkflowErrorDefault;
}.

(** [ErrorRouteConfig::matches] *)
Definition matches (c : ErrorRouteConfig) (category : NodeErrorCategory) : bool :=
  match categories c with
  | None => bool_decide (category ≠ CancelledInterrupted)
  | Some [] => bool_decide (category ≠ CancelledInterrupted)
  | Some list => bool_decide (category ∈ list)
  end.

(** [ERROR_SUSPEND_POINT_KEY] and [is_suspend_point] *)
Definition ERROR_SUSPEND_POINT_KEY : string := "error_suspend_point".
Definition is_suspend_point (i : value) : bool :=
  default false (get i ERROR_SUSPEND_POINT_KEY ≫= as_bool).

(** [ERROR_MERGE_POINT_KEY] and [is_merge_point] *)
Definition ERROR_MERGE_POINT_KEY : string := "error_merge_point".
Definition is_merge_point (i : value) : bool :=
  default false (get i ERROR_MERGE_POINT_KEY ≫= as_bool).

(** [is_error_edge] (wf-workflow/src/error_branch.rs) *)
Definition is_error_edge (e : WorkflowEdge) : bool := bool_decide (edge_type e = EError).

(** The node ids of a graph, as the [HashSet] the code builds from them. *)
Definition node_id_set (g : WorkflowGraphStructure) : gset string :=
  list_to_set (node_id <$> nodes g).

(** Well-formed graphs: both endpoints of every edge are nodes.  This is what
    [GraphTraversal::new] establishes. *)
Definition edges_closed (g : WorkflowGraphStructure) : Prop :=
  ∀ e, e ∈ edges g → source_node_id e ∈ node_id_set g ∧ target_node_id e ∈ node_id_set g.

(** A relation is acyclic when its transitive closure is irreflexive. *)
Definition acyclic {A} (R : relation A) : Prop := ∀ x, ¬ tc R x x.

(** Small constructors used by the examples of the library. *)
Definition mk_node (i t : string) : WorkflowNode :=
  {| node_id := i; node_name := None; node_type := t; inner := VObject [] |}.
Definition mk_edge (t : EdgeType) (s d : string) : WorkflowEdge :=
  {| edge_id := s +:+ "-" +:+ d; source_node_id := s; target_node_id := d;
     edge_type := t; condition := None; label := None; description := None;
     error_route := None |}.
Definition mk_graph (ns : list WorkflowNode) (es : list WorkflowEdge) (s : option string)
    (ends : list string) : WorkflowGraphStructure :=
  {| nodes := ns; edges := es; start_node_id := s; end_node_ids := ends;
     error_default := None |}.

(** * Lemmas shared by the graph components *)

Lemma elem_of_node_id_set g x : x ∈ node_id_set g ↔ ∃ n, n ∈ nodes g ∧ node_id n = x.
Proof. unfold node_id_set. rewrite elem_of_list_to_set, list_elem_of_fmap. naive_solver. Qed.

Lemma matches_cancelled c :
  matches c CancelledInterrupted = true →
  ∃ l, categories c = Some l ∧ CancelledInterrupted ∈ l.
Proof.
  unfold matches. destruct (categories c) as [[|a l]|]; intros Hm%bool_decide_eq_true; try done.
  eauto.
Qed.

Lemma acyclic_rank {A} (R : relation A) (f : A → nat) :
  (∀ x y, R x y → f x < f y) → acyclic R.
Proof.
  intros HR x Hx. assert (Hlt : ∀ y z, tc R y z → f y < f z).
  { induction 1; [by apply HR|]. etrans; [by apply HR|done]. }
  specialize (Hlt _ _ Hx). lia.
Qed.

(** The edges of a concrete graph, as cases. *)
Lemma elem_of_edges_map (g : WorkflowGraphStructure) e :
  e ∈ edges g → (source_node_id e, target_node_id e) ∈
    ((λ e, (source_node_id e, target_node_id e)) <$> edges g).
Proof. apply (list_elem_of_fmap_2 (λ e, (source_node_id e, target_node_id e))). Qed.
