(* ===== verification/ErrorBranch.v ===== *)
(** Error-branch routing: wf-workflow/src/error_branch.rs.

    A terminal node failure jumps along an ERROR edge.  The jump is resolved
    from a table compiled once per graph; this file models the compilation
    ([build]), the lookup ([resolve]) and the step-budget estimate of a branch
    ([worst_chain_len]), states the reference semantics of routing as a scan of
    the graph itself, and proves the compiled table equal to it. *)

From S2P Require Import Prelude Json GraphTypes.

(** [ErrorRouteEntry] *)
Record ErrorRouteEntry : Type := {
  config : ErrorRouteConfig;
  entry_target : string;
}.

(** [ErrorRouteTable] *)
Record ErrorRouteTable : Type := {
  routes : gmap string (list ErrorRouteEntry);
  default_route : option WorkflowErrorDefault;
  suspend_points : gset string;
}.

(** The entry compiled from an ERROR edge: a missing config is the default. *)
Definition edge_config (e : WorkflowEdge) : ErrorRouteConfig :=
  default ErrorRouteConfig_default (error_route e).
Definition entry_of (e : WorkflowEdge) : ErrorRouteEntry :=
  {| config := edge_config e; entry_target := target_node_id e |}.

(** [ErrorRouteTable::build] *)
Definition build (g : WorkflowGraphStructure) : ErrorRouteTable :=
  {| routes := foldl (push_group source_node_id entry_of) ∅
                 (filter (λ e, is_error_edge e = true) (edges g));
     default_route := error_default g;
     suspend_points :=
       list_to_set (node_id <$> filter (λ n, is_suspend_point (inner n) = true) (nodes g)) |}.

(** [ErrorRouteTable::suspends] *)
Definition suspends (t : ErrorRouteTable) (suspend : option bool) (target : string) : bool :=
  default (bool_decide (target ∈ suspend_points t)) suspend.

(** [ErrorRouteTable::resolve] *)
Definition resolve (t : ErrorRouteTable) (failed : string) (category : NodeErrorCategory) :
    option ErrorRouteTarget :=
  match list_find (λ e, matches (config e) category = true) (default [] (routes t !! failed)) with
  | Some (_, e) =>
      Some {| jump_target := entry_target e;
              jump_suspend := suspends t (route_suspend (config e)) (entry_target e) |}
  | None =>
      d ← default_route t;
      if decide (category = CancelledInterrupted) then None else
      Some {| jump_target := default_target d;
              jump_suspend := suspends t (default_suspend d) (default_target d) |}
  end.

(** [ERROR_NAMESPACE] and [ErrorBranchScope::is_machinery_key] *)
Definition ERROR_NAMESPACE : string := "error".
Definition is_machinery_key (key : string) : bool :=
  bool_decide (key = ERROR_NAMESPACE)
  || String.prefix "error." key || String.prefix "error:" key.

(** [worst_chain_len]'s inner function [walk].  [visiting] is passed down: the
    code inserts the current node before the loop and removes it after it.
    [memo] is threaded.  [None] means the fuel ran out. *)
Fixpoint walk (fuel : nat) (g : WorkflowGraphStructure) (current : string)
    (visiting : gset string) (memo : gmap string nat) : option (nat * gmap string nat) :=
  match memo !! current with
  | Some cached => Some (cached, memo)
  | None =>
      if decide (current ∈ visiting) then Some (0, memo) else
      match fuel with
      | 0 => None
      | S fuel' =>
          '(best, memo') ←
            foldl (λ acc e,
              '(best, memo) ← acc;
              if bool_decide (source_node_id e = current) && negb (is_error_edge e) then
                '(downstream, memo') ← walk fuel' g (target_node_id e) ({[current]} ∪ visiting) memo;
                Some (Nat.max best (1 + downstream), memo')
              else Some (best, memo)) (Some (1, memo)) (edges g);
          Some (best, <[current := best]> memo')
      end
  end.

(** [worst_chain_len].  A nested call either stops at a visiting node or adds
    one to [visiting]; nodes other than [from] are edge targets, so the depth
    is at most [length edges + 1]. *)
Definition worst_chain_len (g : WorkflowGraphStructure) (from : string) : option nat :=
  fst <$> walk (S (length (edges g))) g from ∅ ∅.

(** [check_branch_budget]: whether the warning is logged.  [max_steps] is a
    [u32]; [completed + worst] saturates as a [usize] and is cast to [u32]. *)
Definition check_branch_budget (g : WorkflowGraphStructure) (target : string)
    (max_steps : option Z) (completed : Z) : option bool :=
  match max_steps with
  | None => Some false
  | Some limit =>
      worst ← worst_chain_len g target;
      Some (bool_decide (limit < wrap32 (sat_add u64_max completed (Z.of_nat worst)))%Z)
  end.

(** * Reference semantics *)

(** Routing as a scan of the graph: the first ERROR edge out of the failed
    node, in declaration order, whose config accepts the category; otherwise
    the workflow default, which never takes a cancellation. *)
Definition routes_failure (failed : string) (category : NodeErrorCategory) (e : WorkflowEdge) : Prop :=
  is_error_edge e = true ∧ source_node_id e = failed ∧ matches (edge_config e) category = true.

#[export] Instance routes_failure_dec f c e : Decision (routes_failure f c e).
Proof. unfold routes_failure. apply _. Defined.

Definition node_suspends (g : WorkflowGraphStructure) (target : string) : bool :=
  existsb (λ n, bool_decide (node_id n = target) && is_suspend_point (inner n)) (nodes g).

Definition route_of (g : WorkflowGraphStructure) (failed : string)
    (category : NodeErrorCategory) : option ErrorRouteTarget :=
  match list_find (routes_failure failed category) (edges g), error_default g with
  | Some (_, e), _ =>
      Some {| jump_target := target_node_id e;
              jump_suspend := default (node_suspends g (target_node_id e))
                                      (route_suspend (edge_config e)) |}
  | None, Some d =>
      if decide (category = CancelledInterrupted) then None else
      Some {| jump_target := default_target d;
              jump_suspend := default (node_suspends g (default_target d)) (default_suspend d) |}
  | None, None => None
  end.

(** Normal (non-error) successor relation, and its chains: [chain g x n] is a
    path of [n] nodes starting at [x]. *)
Definition normal_edge (g : WorkflowGraphStructure) (x y : string) : Prop :=
  ∃ e, e ∈ edges g ∧ is_error_edge e = false ∧ source_node_id e = x ∧ target_node_id e = y.

Inductive chain (g : WorkflowGraphStructure) : string → nat → Prop :=
| chain_one x : chain g x 1
| chain_cons x y n : normal_edge g x y → chain g y n → chain g x (S n).

Definition longest (g : WorkflowGraphStructure) (x : string) (n : nat) : Prop :=
  chain g x n ∧ ∀ m, chain g x m → m ≤ n.

(** * The compiled table is the scan *)

Lemma routes_build_lookup g k :
  default [] (routes (build g) !! k) =
  entry_of <$> filter (λ e, source_node_id e = k ∧ is_error_edge e = true) (edges g).
Proof. simpl. by rewrite default_push_group, list_filter_filter. Qed.

Lemma suspends_build g s t : suspends (build g) s t = default (node_suspends g t) s.
Proof.
  unfold suspends, node_suspends. destruct s; simpl; [done|].
  apply eq_true_iff_eq. rewrite bool_decide_eq_true, elem_of_list_to_set, list_elem_of_fmap.
  rewrite existsb_exists. setoid_rewrite list_elem_of_filter.
  setoid_rewrite andb_true_iff. setoid_rewrite bool_decide_eq_true.
  setoid_rewrite <-list_elem_of_In. naive_solver.
Qed.

Lemma resolve_first g f c :
  snd <$> list_find (λ e, matches (config e) c = true) (default [] (routes (build g) !! f)) =
  entry_of <$> (snd <$> list_find (routes_failure f c) (edges g)).
Proof.
  rewrite routes_build_lookup.
  apply (list_find_fmap_filter _ _ _ _).
  intros e. unfold routes_failure. simpl. tauto.
Qed.

(** The compiled routing table resolves every terminal failure exactly as a
    scan of the graph does: the first ERROR edge of the failed node (in
    declaration order) whose config accepts the category, and otherwise the
    workflow default, with the suspend flag taken from the route and, when the
    route is silent, from the target node's marker. *)
Theorem resolve_build g failed category :
  resolve (build g) failed category = route_of g failed category.
Proof.
  unfold resolve, route_of. pose proof (resolve_first g failed category) as Hf.
  destruct (list_find _ (default [] _)) as [[i en]|],
    (list_find (routes_failure _ _) (edges g)) as [[j e]|]; simplify_eq/=.
  - by rewrite suspends_build.
  - destruct (error_default g); simpl; [|done]. by rewrite suspends_build.
Qed.

(** Cancellation is never swallowed: a jump taken for a cancelled failure
    comes from an ERROR edge of the failed node whose own config lists the
    cancelled category by name. *)
Theorem resolve_cancelled g failed t :
  resolve (build g) failed CancelledInterrupted = Some t →
  ∃ e l, e ∈ edges g ∧ is_error_edge e = true ∧ source_node_id e = failed ∧
    categories (edge_config e) = Some l ∧ CancelledInterrupted ∈ l ∧
    jump_target t = target_node_id e.
Proof.
  unfold resolve. pose proof (resolve_first g failed CancelledInterrupted) as Hf.
  destruct (list_find _ (default [] _)) as [[i en]|].
  - destruct (list_find (routes_failure _ _) (edges g)) as [[j e]|] eqn:Hl; simplify_eq/=.
    apply list_find_Some in Hl as (Hj & (? & ? & (l & ? & ?)%matches_cancelled) & _).
    intros [= <-]. exists e, l. apply list_elem_of_lookup_2 in Hj. naive_solver.
  - destruct (default_route (build g)); [|done]. simpl. done.
Qed.

(** * The step estimate is the longest normal chain *)

Section walk.
  Variable g : WorkflowGraphStructure.
  Hypothesis Hacyclic : acyclic (normal_edge g).

(** The nodes a walk from [from] can enter. *)
Definition walk_universe (from : string) : gset string :=
  {[from]} ∪ list_to_set (target_node_id <$> edges g).

Definition memo_ok (memo : gmap string nat) : Prop :=
  ∀ k v, memo !! k = Some v → longest g k v.

(** [best] is the longest chain from [x] through the edges [es]. *)
Definition best_through (x : string) (es : list WorkflowEdge) (best : nat) : Prop :=
  chain g x best ∧ 1 ≤ best ∧
  ∀ e m, e ∈ es → source_node_id e = x → is_error_edge e = false →
    chain g (target_node_id e) m → S m ≤ best.

Lemma best_through_longest x best : best_through x (edges g) best → longest g x best.
Proof.
  intros (Hc & H1 & Hmax). split; [done|]. intros m Hm.
  inversion Hm as [|? y n (e & ? & ? & ? & ?)]; subst; [done|]. by eapply Hmax.
Qed.

(** One recursive call, as the fold over the edges uses it. *)
Definition walk_ok (from : string) (fuel : nat) : Prop := ∀ x visiting memo,
  x ∈ walk_universe from → (∀ y, y ∈ visiting → tc (normal_edge g) y x) →
  size (walk_universe from ∖ visiting) ≤ fuel → memo_ok memo →
  ∃ n memo', walk fuel g x visiting memo = Some (n, memo') ∧ longest g x n ∧ memo_ok memo'.

Lemma walk_fold from fuel x visiting :
  walk_ok from fuel → (∀ y, y ∈ visiting → tc (normal_edge g) y x) →
  size (walk_universe from ∖ ({[x]} ∪ visiting)) ≤ fuel →
  ∀ es seen best memo, (∀ e, e ∈ es → e ∈ edges g) →
  best_through x seen best → memo_ok memo →
  ∃ best' memo', foldl (λ acc e,
        '(best, memo) ← acc;
        if bool_decide (source_node_id e = x) && negb (is_error_edge e) then
          '(downstream, memo') ← walk fuel g (target_node_id e) ({[x]} ∪ visiting) memo;
          Some (Nat.max best (1 + downstream), memo')
        else Some (best, memo)) (Some (best, memo)) es = Some (best', memo') ∧
    best_through x (seen ++ es) best' ∧ memo_ok memo'.
Proof.
  intros Hwalk Hvis Hsz es. induction es as [|e es IH]; intros seen best memo Hes Hb Hm.
  { exists best, memo. by rewrite app_nil_r. }
  cbn [foldl]. rewrite cons_middle, app_assoc.
  assert (He : e ∈ edges g) by (apply Hes; left).
  assert (Hes' : ∀ e, e ∈ es → e ∈ edges g) by (intros; apply Hes; by right).
  destruct Hb as (Hc & H1 & Hmax).
  destruct (bool_decide_reflect (source_node_id e = x)) as [Hx|Hx];
    [destruct (is_error_edge e) eqn:Herr|]; simpl.
  - apply IH; [done| |done]. split_and!; [done..|].
    intros e' m [He'| ->%list_elem_of_singleton]%elem_of_app; [by apply Hmax|by rewrite Herr].
  - assert (Hedge : normal_edge g x (target_node_id e)) by (exists e; naive_solver).
    destruct (Hwalk (target_node_id e) ({[x]} ∪ visiting) memo)
      as (d & memo' & -> & [Hd Hdmax] & Hm'); [|..|done|done|].
    { apply elem_of_union_r, elem_of_list_to_set, list_elem_of_fmap_2, He. }
    { intros y [->%elem_of_singleton|Hy]%elem_of_union; [by apply tc_once|].
      eapply tc_r; eauto. }
    simpl. apply IH; [done| |done]. split_and!.
    + destruct (Nat.max_spec best (S d)) as [[_ ->]|[_ ->]]; [by eapply chain_cons|done].
    + lia.
    + intros e' m [He'| ->%list_elem_of_singleton]%elem_of_app Hs Hn Hch.
      * specialize (Hmax _ _ He' Hs Hn Hch). lia.
      * apply Hdmax in Hch. lia.
  - apply IH; [done| |done]. split_and!; [done..|].
    intros e' m [He'| ->%list_elem_of_singleton]%elem_of_app; [by apply Hmax|done].
Qed.

Lemma walk_longest from fuel : walk_ok from fuel.
Proof.
  induction fuel as [|fuel IH]; intros x visiting memo Hx Hvis Hsz Hm; cbn [walk];
    (destruct (memo !! x) as [n|] eqn:Hmx; [exists n, memo; by auto|]);
    rewrite decide_False by (intros Hin; by apply (Hacyclic x), Hvis).
  - exfalso. apply Nat.le_0_r, size_empty_inv in Hsz.
    assert (x ∉ visiting) by (intros Hin; by apply (Hacyclic x), Hvis). set_solver.
  - assert (Hxv : x ∉ visiting) by (intros Hin; by apply (Hacyclic x), Hvis).
    assert (Hsz' : size (walk_universe from ∖ ({[x]} ∪ visiting)) ≤ fuel).
    { assert (size (walk_universe from ∖ ({[x]} ∪ visiting)) <
              size (walk_universe from ∖ visiting)); [|lia].
      apply subset_size. set_solver. }
    destruct (walk_fold from fuel x visiting IH Hvis Hsz' (edges g) [] 1 memo)
      as (best & memo' & -> & Hb%best_through_longest & Hm'); simpl; [done| |done|].
    { split_and!; [constructor|done|]. intros ? ? []%not_elem_of_nil. }
    exists best, (<[x:=best]> memo'). split_and!; [done..|].
    intros k v [[<- <-]|[Hne Hk]]%lookup_insert_Some; [done|by apply Hm'].
Qed.

End walk.

(** On a graph whose normal edges are acyclic the budget estimate returns
    (its fuel always suffices) the number of nodes of the longest normal chain
    that starts at the branch target: some chain has that length and none is
    longer. *)
Theorem worst_chain_len_longest g from :
  acyclic (normal_edge g) → ∃ n, worst_chain_len g from = Some n ∧ longest g from n.
Proof.
  intros Hac.
  destruct (walk_longest g Hac from (S (length (edges g))) from ∅ ∅)
    as (n & memo' & Hw & Hl & _); [|by intros ? ?%not_elem_of_empty| |done|].
  - unfold walk_universe. set_solver.
  - rewrite difference_empty_L. unfold walk_universe.
    etrans; [apply size_union_le|]. rewrite size_singleton.
    apply le_n_S. etrans; [apply size_list_to_set_le|]. by rewrite length_fmap.
  - exists n. unfold worst_chain_len. by rewrite Hw.
Qed.

(** * Witnesses *)

(** A flaky node with a named cancellation route and a park route. *)
Definition demo_graph : WorkflowGraphStructure :=
  {| nodes := [mk_node "start" "START"; mk_node "flaky" "SCRIPT"; mk_node "undo" "SCRIPT";
               mk_node "end" "END"];
     edges := [mk_edge EDefault "start" "flaky"; mk_edge EDefault "flaky" "end";
               mk_edge EDefault "undo" "end";
               {| edge_id := "x"; source_node_id := "flaky"; target_node_id := "undo";
                  edge_type := EError; condition := None; label := None; description := None;
                  error_route := Some {| categories := Some [CancelledInterrupted];
                                         route_suspend := None |} |}];
     start_node_id := Some "start"; end_node_ids := ["end"]; error_default := None |}.

Definition demo_rank (x : string) : nat :=
  if bool_decide (x = "start") then 0 else if bool_decide (x = "end") then 2 else 1.

Lemma demo_acyclic : acyclic (normal_edge demo_graph).
Proof.
  apply (acyclic_rank _ demo_rank). intros x y (e & He & Hn & <- & <-).
  simpl in He. repeat (apply elem_of_cons in He as [->|He]; [vm_compute; (lia || done)|]).
  by apply not_elem_of_nil in He.
Qed.

Lemma resolve_cancelled_witness :
  ∃ e, e ∈ edges demo_graph ∧ is_error_edge e = true ∧ source_node_id e = "flaky" ∧
    target_node_id e = "undo".
Proof.
  destruct (resolve_cancelled demo_graph "flaky" {| jump_target := "undo"; jump_suspend := false |})
    as (e & l & ? & ? & ? & ? & ? & ?); [by vm_compute|]. exists e. auto.
Defined.

Lemma worst_chain_len_longest_witness :
  worst_chain_len demo_graph "start" = Some 3 ∧
  ∃ n, worst_chain_len demo_graph "start" = Some n ∧ longest demo_graph "start" n.
Proof.
  split; [by vm_compute|]. apply (worst_chain_len_longest demo_graph "start" demo_acyclic).
Defined.
