(* ===== verification/Graph.v ===== *)
(** The executable workflow graph: wf-workflow/src/graph.rs.

    [GraphTraversal::new] is the gate every execution passes: it refuses a
    graph whose start node or edge endpoints are missing, and a graph with a
    node no execution can reach.  The file models the gate, the reachability
    closure it relies on and the navigation queries. *)

From S2P Require Import Prelude Worklist Json GraphTypes ErrorBranch.

(** The [GraphError] messages of [GraphTraversal::new], with the id they name. *)
Inductive GraphError : Type :=
| GraphHasNoNodes
| StartNodeNotFound (id : string)
| EdgeSourceNotFound (id : string)
| EdgeTargetNotFound (id : string)
| NodeUnreachable (id : string).

(** [GraphTraversal] *)
Record GraphTraversal : Type := {
  graph : WorkflowGraphStructure;
  error_table : ErrorRouteTable;
}.

(** The ids [reachable_from] pushes while it processes [current]: the targets
    of the outgoing edges in declaration order, then the workflow default. *)
Definition flow_targets (g : WorkflowGraphStructure) (current : string) : list string :=
  (target_node_id <$> filter (λ e, source_node_id e = current) (edges g)) ++
  (match error_default g with Some d => [default_target d] | None => [] end).

(** [reachable_from].  Every id it visits is the start, an edge target or the
    default target, so [length edges + 2] pops empty the queue. *)
Definition reachable_from (g : WorkflowGraphStructure) (start : option string) : gset string :=
  match start with
  | None => ∅
  | Some s => default ∅ (bfs (flow_targets g) (length (edges g) + 2) [s] {[s]})
  end.

(** The per-edge check of [GraphTraversal::new]. *)
Definition check_edge (ids : gset string) (e : WorkflowEdge) : result GraphError () :=
  if decide (source_node_id e ∉ ids) then Err (EdgeSourceNotFound (source_node_id e)) else
  if decide (target_node_id e ∉ ids) then Err (EdgeTargetNotFound (target_node_id e)) else
  Ok tt.

(** The start-node check. *)
Definition check_start (ids : gset string) (start : option string) : result GraphError () :=
  match start with
  | Some s => if decide (s ∉ ids) then Err (StartNodeNotFound s) else Ok tt
  | None => Ok tt
  end.

(** The reachability check, skipped when no start node is declared. *)
Definition check_reachable (g : WorkflowGraphStructure) : result GraphError () :=
  match start_node_id g with
  | Some s =>
      let reachable := reachable_from g (Some s) in
      for_each (λ n, if decide (node_id n ∉ reachable) then Err (NodeUnreachable (node_id n))
                     else Ok tt) (nodes g)
  | None => Ok tt
  end.

(** [GraphTraversal::new] *)
Definition new (g : WorkflowGraphStructure) : result GraphError GraphTraversal :=
  let ids := node_id_set g in
  if decide (ids = ∅) then Err GraphHasNoNodes else
  check_start ids (start_node_id g) ≫= λ _,
  for_each (check_edge ids) (edges g) ≫= λ _,
  check_reachable g ≫= λ _,
  Ok {| graph := g; error_table := build g |}.

(** [get_node] *)
Definition get_node (t : GraphTraversal) (id : string) : option WorkflowNode :=
  snd <$> list_find (λ n, node_id n = id) (nodes (graph t)).

(** [get_outgoing_edges], [get_incoming_edges] *)
Definition get_outgoing_edges (t : GraphTraversal) (id : string) : list WorkflowEdge :=
  filter (λ e, source_node_id e = id ∧ is_error_edge e = false) (edges (graph t)).
Definition get_incoming_edges (t : GraphTraversal) (id : string) : list WorkflowEdge :=
  filter (λ e, target_node_id e = id ∧ is_error_edge e = false) (edges (graph t)).

(** [is_end_node] *)
Definition is_end_node (t : GraphTraversal) (id : string) : bool :=
  bool_decide (id ∈ end_node_ids (graph t)).

(** [find_ready_nodes] *)
Definition deps_completed (g : WorkflowGraphStructure) (completed : list string) (id : string) : bool :=
  forallb (λ e, bool_decide (source_node_id e ∈ completed))
    (filter (λ e, target_node_id e = id ∧ is_error_edge e = false) (edges g)).
Definition find_ready_nodes (t : GraphTraversal) (completed : list string) : list string :=
  node_id <$> filter (λ n, node_id n ∉ completed ∧
                           deps_completed (graph t) completed (node_id n) = true)
                     (nodes (graph t)).

(** * Specification *)

(** Control can flow from [x] to [y]: along any edge, or by the workflow
    default, which can fire at any node. *)
Definition flows (g : WorkflowGraphStructure) (x y : string) : Prop :=
  (∃ e, e ∈ edges g ∧ source_node_id e = x ∧ target_node_id e = y) ∨
  (∃ d, error_default g = Some d ∧ default_target d = y).

(** What each refusal of the gate says about the graph. *)
Definition refusal_holds (g : WorkflowGraphStructure) (e : GraphError) : Prop :=
  match e with
  | GraphHasNoNodes => nodes g = []
  | StartNodeNotFound s => start_node_id g = Some s ∧ s ∉ node_id_set g
  | EdgeSourceNotFound s => s ∉ node_id_set g ∧ ∃ e, e ∈ edges g ∧ source_node_id e = s
  | EdgeTargetNotFound s => s ∉ node_id_set g ∧ ∃ e, e ∈ edges g ∧ target_node_id e = s
  | NodeUnreachable x => x ∈ node_id_set g ∧
      ∃ s, start_node_id g = Some s ∧ ¬ rtc (flows g) s x
  end.

(** What the gate promises of an accepted graph. *)
Definition executable (g : WorkflowGraphStructure) : Prop :=
  nodes g ≠ [] ∧ edges_closed g ∧
  ∀ s, start_node_id g = Some s →
    s ∈ node_id_set g ∧ ∀ n, n ∈ nodes g → rtc (flows g) s (node_id n).

(** * Lemmas *)

Lemma elem_of_flow_targets g x y : y ∈ flow_targets g x ↔ flows g x y.
Proof.
  unfold flow_targets, flows. rewrite elem_of_app, list_elem_of_fmap.
  setoid_rewrite list_elem_of_filter. destruct (error_default g); set_solver.
Qed.

Lemma reachable_from_spec g s y : y ∈ reachable_from g (Some s) ↔ rtc (flows g) s y.
Proof.
  set (U := {[s]} ∪ list_to_set (target_node_id <$> edges g) ∪
            list_to_set (match error_default g with Some d => [default_target d] | None => [] end)
          : gset string).
  destruct (bfs_from_total (flow_targets g) (length (edges g) + 2) s U) as [r Hr].
  - set_solver.
  - intros x z _ Hz%elem_of_flow_targets. subst U. destruct Hz as [(e & He & _ & <-)|(d & -> & <-)].
    + apply elem_of_union_l, elem_of_union_r, elem_of_list_to_set, list_elem_of_fmap_2, He.
    + set_solver.
  - subst U. etrans; [apply size_union_le|]. etrans; [apply Nat.add_le_mono_r, size_union_le|].
    rewrite size_singleton.
    pose proof (size_list_to_set_le (target_node_id <$> edges g)) as H1.
    rewrite length_fmap in H1.
    pose proof (size_list_to_set_le
      (match error_default g with Some d => [default_target d] | None => [] end)) as H2.
    destruct (error_default g); simpl in *; lia.
  - simpl. rewrite Hr. simpl. rewrite (bfs_from_spec _ _ _ _ Hr y).
    split; apply rtc_subrel; intros ? ?; apply elem_of_flow_targets.
Qed.

Lemma node_id_set_empty g : node_id_set g = ∅ ↔ nodes g = [].
Proof.
  split; [|unfold node_id_set; by intros ->].
  intros He. destruct (nodes g) as [|n l] eqn:Hn; [done|exfalso].
  apply (not_elem_of_empty (C:=gset string) (node_id n)). rewrite <-He.
  apply elem_of_node_id_set. exists n. rewrite Hn. by split; [left|].
Qed.

Lemma check_edge_Ok ids e :
  check_edge ids e = Ok tt ↔ source_node_id e ∈ ids ∧ target_node_id e ∈ ids.
Proof. unfold check_edge. repeat case_decide; naive_solver. Qed.

Lemma check_start_Ok ids s : check_start ids s = Ok tt ↔ ∀ x, s = Some x → x ∈ ids.
Proof. unfold check_start. destruct s; [case_decide|]; naive_solver. Qed.

Lemma check_reachable_Ok g :
  check_reachable g = Ok tt ↔
  ∀ s, start_node_id g = Some s → ∀ n, n ∈ nodes g → rtc (flows g) s (node_id n).
Proof.
  unfold check_reachable. destruct (start_node_id g) as [s|]; [|naive_solver].
  rewrite for_each_Ok. setoid_rewrite <-reachable_from_spec. split.
  - intros Hall ? [= <-] n Hn. specialize (Hall n Hn).
    destruct (decide (node_id n ∈ reachable_from g (Some s))); [done|].
    by rewrite decide_True in Hall.
  - intros Hall n Hn. by rewrite decide_False by (intros Hx; by apply Hx, Hall).
Qed.

Lemma new_spec g :
  match new g with
  | Ok t => executable g ∧ t = {| graph := g; error_table := build g |}
  | Err e => refusal_holds g e ∧ ¬ executable g
  end.
Proof.
  unfold new, executable. case_decide as Hids.
  { apply node_id_set_empty in Hids. simpl. naive_solver. }
  assert (Hne : nodes g ≠ []) by (by rewrite <-node_id_set_empty).
  destruct (check_start _ _) as [[]|e] eqn:Hs; simpl.
  2:{ assert (Hn : ¬ ∀ x, start_node_id g = Some x → x ∈ node_id_set g)
        by (rewrite <-check_start_Ok, Hs; done).
      unfold check_start in Hs. crush_match_in Hs. naive_solver. }
  destruct (for_each (check_edge _) _) as [[]|e] eqn:He; simpl.
  2:{ apply for_each_Err in He as (d & Hd & Hde).
      assert (Hn : ¬ (source_node_id d ∈ node_id_set g ∧ target_node_id d ∈ node_id_set g))
        by (rewrite <-check_edge_Ok, Hde; done).
      split; [unfold check_edge in Hde; crush_match_in Hde; naive_solver|].
      intros (_ & Hcl & _). by apply Hn, Hcl. }
  rewrite check_start_Ok in Hs. rewrite for_each_Ok in He.
  setoid_rewrite check_edge_Ok in He.
  destruct (check_reachable g) as [[]|e] eqn:Hr; simpl.
  { rewrite check_reachable_Ok in Hr. split; [|done]. split_and!; [done|exact He|].
    intros s Hst. split; [by apply Hs|by apply Hr]. }
  assert (Hn : ¬ ∀ s, start_node_id g = Some s → ∀ n, n ∈ nodes g → rtc (flows g) s (node_id n))
    by (rewrite <-check_reachable_Ok, Hr; done).
  split; [|by intros (_ & _ & Hex); apply Hn; apply Hex]. unfold check_reachable in Hr. clear Hn.
  destruct (start_node_id g) as [s|] eqn:Hst; [|done].
  apply for_each_Err in Hr as (n & Hn & Hu).
  destruct (decide (node_id n ∈ reachable_from g (Some s))) as [Hin|Hnin].
  { by rewrite decide_False in Hu by (by intros []). }
  rewrite decide_True in Hu by done. simplify_eq/=.
  split; [by apply elem_of_node_id_set; eauto|]. exists s.
  split; [done|]. by rewrite <-reachable_from_spec.
Qed.

(** The gate accepts exactly the executable graphs (non-empty, every edge
    between declared nodes, the start declared and every node reachable from it
    over normal edges, error edges and the workflow default), keeps the graph
    and compiles its routing table; every refusal names a defect the graph
    really has. *)
Theorem new_correct g :
  match new g with
  | Ok t => executable g ∧ t = {| graph := g; error_table := build g |}
  | Err e => refusal_holds g e ∧ ¬ executable g
  end.
Proof. apply new_spec. Qed.

Lemma deps_completed_spec g completed x :
  deps_completed g completed x = true ↔ ∀ y, normal_edge g y x → y ∈ completed.
Proof.
  unfold deps_completed, normal_edge. rewrite forallb_forall.
  setoid_rewrite bool_decide_eq_true. setoid_rewrite <-list_elem_of_In.
  setoid_rewrite list_elem_of_filter. naive_solver.
Qed.

Lemma elem_of_find_ready_nodes t completed x :
  x ∈ find_ready_nodes t completed ↔
  x ∈ node_id_set (graph t) ∧ x ∉ completed ∧
  ∀ y, normal_edge (graph t) y x → y ∈ completed.
Proof.
  unfold find_ready_nodes. rewrite list_elem_of_fmap, elem_of_node_id_set.
  setoid_rewrite list_elem_of_filter. setoid_rewrite deps_completed_spec. naive_solver.
Qed.

(** Scheduling cannot deadlock on an acyclic graph: the ready nodes are
    exactly the uncompleted nodes all of whose normal predecessors are
    completed, and while some node is uncompleted at least one is ready. *)
Theorem find_ready_nodes_progress t completed :
  edges_closed (graph t) → acyclic (normal_edge (graph t)) →
  (∀ x, x ∈ find_ready_nodes t completed ↔
     x ∈ node_id_set (graph t) ∧ x ∉ completed ∧
     ∀ y, normal_edge (graph t) y x → y ∈ completed) ∧
  ((∃ n, n ∈ nodes (graph t) ∧ node_id n ∉ completed) → find_ready_nodes t completed ≠ []).
Proof.
  intros Hcl Hac. split; [apply elem_of_find_ready_nodes|].
  intros (n & Hn & Hnc) Hnil.
  destruct (no_source_cycle (normal_edge (graph t))
    (filter (λ x, x ∉ completed) (node_id_set (graph t)))) as (x & _ & Hx).
  - intros He. apply (not_elem_of_empty (C:=gset string) (node_id n)). rewrite <-He.
    apply elem_of_filter. split; [done|]. apply elem_of_node_id_set. eauto.
  - intros x (Hxc & Hx)%elem_of_filter.
    destruct (decide (Forall (λ e, source_node_id e ∈ completed)
      (filter (λ e, target_node_id e = x ∧ is_error_edge e = false) (edges (graph t)))))
      as [Hall|Hd].
    + exfalso. apply (not_elem_of_nil x). rewrite <-Hnil. apply elem_of_find_ready_nodes.
      split_and!; [done..|]. intros y (e & ? & ? & <- & ?).
      rewrite Forall_forall in Hall. by apply Hall, list_elem_of_filter.
    + apply not_Forall_Exists in Hd; [|intros ?; apply _].
      apply Exists_exists in Hd as (e & ((<- & Hne) & He)%list_elem_of_filter & Hs).
      exists (source_node_id e). split; [|by exists e].
      apply elem_of_filter. split; [done|]. by apply Hcl.
  - by apply (Hac x).
Qed.

(** * Witness *)

Definition linear_graph : WorkflowGraphStructure :=
  mk_graph [mk_node "a" "START"; mk_node "b" "SCRIPT"; mk_node "c" "END"]
    [mk_edge EDefault "a" "b"; mk_edge EDefault "b" "c"] (Some "a") ["c"].

Definition linear_traversal : GraphTraversal :=
  {| graph := linear_graph; error_table := build linear_graph |}.

Lemma linear_ok :
  new linear_graph = Ok linear_traversal ∧ edges_closed linear_graph ∧
  acyclic (normal_edge linear_graph).
Proof.
  split; [by vm_compute|]. split.
  - intros e He. simpl in He.
    repeat (apply elem_of_cons in He as [->|He]; [split; vm_compute; (done || naive_solver)|]).
    by apply not_elem_of_nil in He.
  - apply (acyclic_rank _ (λ x, if bool_decide (x = "a") then 0
                                else if bool_decide (x = "b") then 1 else 2)).
    intros x y (e & He & Hn & <- & <-). simpl in He.
    repeat (apply elem_of_cons in He as [->|He]; [vm_compute; lia|]).
    by apply not_elem_of_nil in He.
Qed.

Lemma find_ready_nodes_progress_witness :
  find_ready_nodes linear_traversal ["a"] = ["b"] ∧ find_ready_nodes linear_traversal ["a"] ≠ [].
Proof.
  split; [by vm_compute|]. destruct linear_ok as (_ & Hcl & Hac).
  apply (find_ready_nodes_progress linear_traversal ["a"] Hcl Hac).
  exists (mk_node "b" "SCRIPT"). split; [right; left|].
  by intros [=]%list_elem_of_singleton.
Defined.
