(* ===== verification/GraphAnalysis.v ===== *)
(** Structural analysis of workflow graphs: wf-workflow/src/analysis.rs.

    Cycle detection (an iterative depth-first search with three colours), the
    topological sort (Kahn's algorithm) and the reachability report.  LOOP
    continuation edges and ERROR edges are not structural.  The two cycle
    deciders are proved correct against one relation, [structural], and hence
    to agree with each other. *)

From S2P Require Import Prelude Worklist Json GraphTypes.

(** [node_type_of]: the type of the first node with that id. *)
Definition node_type_of (g : WorkflowGraphStructure) (id : string) : option string :=
  (λ r, node_type r.2) <$> list_find (λ n, node_id n = id) (nodes g).

(** [is_loop_back_edge] *)
Definition is_loop_back_edge (g : WorkflowGraphStructure) (e : WorkflowEdge) : bool :=
  bool_decide (node_type_of g (source_node_id e) = Some "LOOP_END") &&
  bool_decide (node_type_of g (target_node_id e) = Some "LOOP_START").

(** [is_structural_edge] *)
Definition is_structural_edge (g : WorkflowGraphStructure) (e : WorkflowEdge) : bool :=
  negb (is_error_edge e) && negb (is_loop_back_edge g e).

(** [find_edge] *)
Definition find_edge (g : WorkflowGraphStructure) (source target : string) : option WorkflowEdge :=
  snd <$> list_find (λ e, source_node_id e = source ∧ target_node_id e = target) (edges g).

(** [CycleDetectionResult] *)
Record CycleDetectionResult : Type := {
  has_cycle : bool;
  cycle_nodes : list string;
  cycle_edges : list string;
}.
Definition no_cycle : CycleDetectionResult :=
  {| has_cycle := false; cycle_nodes := []; cycle_edges := [] |}.

(** * Cycle detection *)

(** The structural edges grouped by source, each group in declaration order. *)
Definition outgoing_map (g : WorkflowGraphStructure) : gmap string (list WorkflowEdge) :=
  foldl (push_group source_node_id id) ∅
    (filter (λ e, is_structural_edge g e = true) (edges g)).

(** The local variables of the search: the stack (top first) of node and next
    edge index, the path (root first) and the colours, where absent is
    unvisited, 1 is on the stack and 2 is explored. *)
Record Dfs : Type := {
  stack : list (string * nat);
  path : list string;
  color : gmap string nat;
}.

(** The edge ids reported for a cycle: one per consecutive pair, then the
    closing edge. *)
Fixpoint window_edges (g : WorkflowGraphStructure) (l : list string) : list string :=
  match l with
  | x :: ((y :: _) as l') =>
      (match find_edge g x y with Some e => [edge_id e] | None => [] end) ++ window_edges g l'
  | _ => []
  end.

(** [path.iter().position(|p| *p == next).unwrap_or(0)] *)
Definition position (x : string) (l : list string) : nat :=
  default 0 (fst <$> list_find (λ y, y = x) l).

(** [state.insert(current, 2); path.pop(); stack.pop()] *)
Definition dfs_pop (d : Dfs) (current : string) (rest : list (string * nat)) : Dfs :=
  {| stack := rest; path := take (length (path d) - 1) (path d); color := <[current := 2]> (color d) |}.

(** One iteration of [while let Some((current, idx)) = stack.last_mut()]:
    [inr] is the early return. *)
Definition dfs_step (g : WorkflowGraphStructure) (d : Dfs) (current : string) (idx : nat)
    (rest : list (string * nat)) : Dfs + CycleDetectionResult :=
  match outgoing_map g !! current with
  | None => inl (dfs_pop d current rest)
  | Some es =>
      match es !! idx with
      | None => inl (dfs_pop d current rest)
      | Some edge =>
          let next := target_node_id edge in
          match default 0 (color d !! next) with
          | 0 => inl {| stack := (next, 0) :: (current, S idx) :: rest;
                        path := path d ++ [next];
                        color := <[next := 1]> (color d) |}
          | 1 => let ns := drop (position next (path d)) (path d) in
                 inr {| has_cycle := true; cycle_nodes := ns;
                        cycle_edges := window_edges g ns ++ [edge_id edge] |}
          | _ => inl {| stack := (current, S idx) :: rest; path := path d; color := color d |}
          end
      end
  end.

(** The inner loop; [None] means the fuel ran out. *)
Fixpoint dfs_run (fuel : nat) (g : WorkflowGraphStructure) (d : Dfs) :
    option (Dfs + CycleDetectionResult) :=
  match stack d, fuel with
  | [], _ => Some (inl d)
  | _, 0 => None
  | (current, idx) :: rest, S fuel' =>
      match dfs_step g d current idx rest with
      | inl d' => dfs_run fuel' g d'
      | inr r => Some (inr r)
      end
  end.

(** Each of the at most [E + 1] nodes a search can enter is on the stack for
    at most [E + 2] iterations, [E] the number of edges. *)
Definition dfs_fuel (g : WorkflowGraphStructure) : nat :=
  (length (edges g) + 1) * (length (edges g) + 2).

(** The outer loop over the nodes. *)
Fixpoint detect_from (g : WorkflowGraphStructure) (starts : list string) (c : gmap string nat) :
    option CycleDetectionResult :=
  match starts with
  | [] => Some no_cycle
  | s :: starts' =>
      if bool_decide (c !! s = Some 2) || bool_decide (c !! s = Some 1)
      then detect_from g starts' c
      else
        match dfs_run (dfs_fuel g) g {| stack := [(s, 0)]; path := [s]; color := <[s := 1]> c |} with
        | None => None
        | Some (inl d) => detect_from g starts' (color d)
        | Some (inr r) => Some r
        end
  end.

(** [detect_cycles] *)
Definition detect_cycles (g : WorkflowGraphStructure) : option CycleDetectionResult :=
  detect_from g (node_id <$> nodes g) ∅.

(** * Topological sort *)

(** [TopologicalSortResult] *)
Record TopologicalSortResult : Type := {
  success : bool;
  sorted_nodes : list string;
  sort_cycle_nodes : list string;
}.

(** The ways the sort could fail to return: fuel (the model), the [expect] on
    the degree table and the [usize] underflow of [*degree -= 1]. *)
Inductive KahnFailure : Type :=
| OutOfFuel
| MissingNeighbor (id : string)
| DegreeUnderflow (id : string).

(** [in_degree], filled from the nodes and incremented per structural edge;
    an edge into an undeclared node increments nothing. *)
Definition in_degree_map (g : WorkflowGraphStructure) : gmap string nat :=
  foldl (λ m e, alter S (target_node_id e) m)
    (list_to_map ((λ n, (node_id n, 0)) <$> nodes g))
    (filter (λ e, is_structural_edge g e = true) (edges g)).

(** [adj] *)
Definition adjacency (g : WorkflowGraphStructure) (id : string) : list string :=
  target_node_id <$> filter (λ e, is_structural_edge g e = true ∧ source_node_id e = id) (edges g).

(** The loop over the neighbours of one popped node. *)
Fixpoint relax (neighbors : list string) (queue : list string) (deg : gmap string nat) :
    result KahnFailure (list string * gmap string nat) :=
  match neighbors with
  | [] => Ok (queue, deg)
  | n :: rest =>
      match deg !! n with
      | None => Err (MissingNeighbor n)
      | Some 0 => Err (DegreeUnderflow n)
      | Some (S d) =>
          relax rest (if decide (d = 0) then queue ++ [n] else queue) (<[n := d]> deg)
      end
  end.

Fixpoint kahn (fuel : nat) (g : WorkflowGraphStructure) (queue sorted : list string)
    (deg : gmap string nat) : result KahnFailure (list string) :=
  match queue, fuel with
  | [], _ => Ok sorted
  | _ :: _, 0 => Err OutOfFuel
  | node :: queue', S fuel' =>
      '(queue'', deg') ← relax (adjacency g node) queue' deg;
      kahn fuel' g queue'' (sorted ++ [node]) deg'
  end.

(** [topological_sort].  [order] is the iteration order of the [HashMap] of
    degrees, which the code takes the initial queue in. *)
Definition topological_sort (order : list string → list string) (g : WorkflowGraphStructure) :
    result KahnFailure TopologicalSortResult :=
  let deg := in_degree_map g in
  let queue := order (fst <$> filter (λ kd, kd.2 = 0) (map_to_list deg)) in
  sorted ← kahn (length (nodes g)) g queue [] deg;
  if decide (length sorted = length (nodes g)) then
    Ok {| success := true; sorted_nodes := sorted; sort_cycle_nodes := [] |}
  else
    match detect_cycles g with
    | None => Err OutOfFuel
    | Some c => Ok {| success := false; sorted_nodes := sorted; sort_cycle_nodes := cycle_nodes c |}
    end.

(** * Reachability *)

(** [get_reachable_nodes]: forward over all edges. *)
Definition edge_targets (g : WorkflowGraphStructure) (x : string) : list string :=
  target_node_id <$> filter (λ e, source_node_id e = x) (edges g).
Definition get_reachable_nodes (g : WorkflowGraphStructure) (start : string) : gset string :=
  default ∅ (bfs (edge_targets g) (S (length (edges g))) [start] {[start]}).

(** [get_nodes_reaching_to]: backward over all edges. *)
Definition edge_sources (g : WorkflowGraphStructure) (x : string) : list string :=
  source_node_id <$> filter (λ e, target_node_id e = x) (edges g).
Definition get_nodes_reaching_to (g : WorkflowGraphStructure) (target : string) : gset string :=
  default ∅ (bfs (edge_sources g) (S (length (edges g))) [target] {[target]}).

(** [ReachabilityResult] *)
Record ReachabilityResult : Type := {
  reachable_from_start : gset string;
  reachable_to_end : gset string;
  unreachable_nodes : list string;
  dead_end_nodes : list string;
}.

(** [analyze_reachability] *)
Definition analyze_reachability (g : WorkflowGraphStructure) : ReachabilityResult :=
  let all := node_id_set g in
  let from_start := match start_node_id g with
                    | Some s => get_reachable_nodes g s | None => ∅ end in
  let to_end := foldl (λ acc e, acc ∪ get_nodes_reaching_to g e) ∅ (end_node_ids g) in
  {| reachable_from_start := from_start;
     reachable_to_end := to_end;
     unreachable_nodes := sorted_ids (filter (λ x, x ∉ from_start) all);
     dead_end_nodes := sorted_ids (filter (λ x, x ∈ from_start ∧ x ∉ to_end) all) |}.

(** [GraphAnalysis]; the cycle and sort results as computed by the model. *)
Record GraphAnalysis : Type := {
  cycle_detection : option CycleDetectionResult;
  topological : result KahnFailure TopologicalSortResult;
  reachability : ReachabilityResult;
  node_total : nat;
  edge_total : nat;
  node_counts_by_type : gmap string nat;
}.

(** [analyze_graph] *)
Definition analyze_graph (order : list string → list string) (g : WorkflowGraphStructure) :
    GraphAnalysis :=
  {| cycle_detection := detect_cycles g;
     topological := topological_sort order g;
     reachability := analyze_reachability g;
     node_total := length (nodes g);
     edge_total := length (edges g);
     node_counts_by_type :=
       foldl (λ m n, <[node_type n := default 0 (m !! node_type n) + 1]> m) ∅ (nodes g) |}.

(** * The structural relation *)

Definition structural (g : WorkflowGraphStructure) (x y : string) : Prop :=
  ∃ e, e ∈ edges g ∧ is_structural_edge g e = true ∧ source_node_id e = x ∧ target_node_id e = y.

(** Consecutive elements of [l] are related. *)
Definition linked (R : relation string) (l : list string) : Prop :=
  ∀ i x y, l !! i = Some x → l !! S i = Some y → R x y.

(** [l] lists the nodes of a closed path. *)
Definition closed_path (R : relation string) (l : list string) : Prop :=
  ∃ x t, l = x :: t ∧ linked R (l ++ [x]).

Lemma linked_snoc R l x y : linked R (l ++ [x]) → R x y → linked R (l ++ [x; y]).
Proof.
  intros Hl Hxy i a b Ha Hb.
  replace (l ++ [x; y]) with ((l ++ [x]) ++ [y]) in Ha, Hb by by rewrite <-app_assoc.
  pose proof (lookup_lt_Some _ _ _ Hb) as Hlt. rewrite !length_app in Hlt. simpl in Hlt.
  rewrite lookup_app_l in Ha by (rewrite length_app; simpl; lia).
  destruct (decide (S i < length (l ++ [x]))) as [Hi|Hi].
  - rewrite lookup_app_l in Hb by done. by eapply Hl.
  - rewrite length_app in Hi. simpl in Hi. assert (i = length l) as -> by lia.
    rewrite list_lookup_middle in Ha by done.
    rewrite lookup_app_r in Hb by (rewrite length_app; simpl; lia).
    rewrite length_app in Hb. simpl in Hb. replace (S (length l) - (length l + 1)) with 0 in Hb by lia.
    by simplify_eq/=.
Qed.

Lemma linked_drop R n l : linked R l → linked R (drop n l).
Proof.
  intros Hl i x y Hx Hy. rewrite lookup_drop in Hx, Hy.
  apply (Hl (n + i)); [done|]. by rewrite <-Nat.add_succ_r.
Qed.

Lemma linked_take R n l : linked R l → linked R (take n l).
Proof.
  intros Hl i x y (Hx & _)%lookup_take_Some (Hy & _)%lookup_take_Some. by eapply Hl.
Qed.

Lemma linked_rtc R x l y : linked R (x :: l ++ [y]) → tc R x y.
Proof.
  revert x. induction l as [|z l IH]; intros x Hl; simpl in *.
  - apply tc_once. by apply (Hl 0).
  - eapply tc_l; [by apply (Hl 0)|]. apply IH. by apply (linked_drop _ 1) in Hl.
Qed.

Lemma closed_path_tc R l : closed_path R l → ∃ x, tc R x x.
Proof. intros (x & t & -> & Hl). exists x. by apply linked_rtc in Hl. Qed.

(** * The depth-first search *)

Section dfs.
  Variable g : WorkflowGraphStructure.

Definition successors (x : string) : list string :=
  target_node_id <$> default [] (outgoing_map g !! x).

Lemma outgoing_eq x :
  default [] (outgoing_map g !! x) =
  filter (λ e, source_node_id e = x ∧ is_structural_edge g e = true) (edges g).
Proof. unfold outgoing_map. by rewrite default_push_group, list_fmap_id, list_filter_filter. Qed.

Lemma elem_of_successors x y : y ∈ successors x ↔ structural g x y.
Proof.
  unfold successors, structural. rewrite outgoing_eq, list_elem_of_fmap.
  setoid_rewrite list_elem_of_filter. naive_solver.
Qed.

Lemma length_successors x : length (successors x) ≤ length (edges g).
Proof.
  unfold successors. rewrite outgoing_eq, length_fmap. apply length_filter.
Qed.

(** The stack below an entry: every successor already scanned is explored, or
    is the entry directly above. *)
Fixpoint frames_ok (c : gmap string nat) (above : option string) (st : list (string * nat)) : Prop :=
  match st with
  | [] => True
  | (x, i) :: rest =>
      (∀ y, y ∈ take i (successors x) → c !! y = Some 2 ∨ above = Some y) ∧
      i ≤ length (edges g) ∧ frames_ok c (Some x) rest
  end.

Definition explored_ok (c : gmap string nat) : Prop := ∀ b, c !! b = Some 2 →
  (∀ y, structural g b y → c !! y = Some 2) ∧ ¬ tc (structural g) b b.

Record dfs_inv (d : Dfs) : Prop := {
  inv_path : path d = reverse (fst <$> stack d);
  inv_nodup : NoDup (path d);
  inv_gray : ∀ x, color d !! x = Some 1 ↔ x ∈ path d;
  inv_range : ∀ x k, color d !! x = Some k → k = 1 ∨ k = 2;
  inv_linked : linked (structural g) (path d);
  inv_frames : frames_ok (color d) None (stack d);
  inv_explored : explored_ok (color d);
}.

(** Exploring a node keeps the frames below it valid. *)
Lemma frames_ok_explore c x st :
  frames_ok c (Some x) st → frames_ok (<[x := 2]> c) None st.
Proof.
  assert (Hmono : ∀ above st', frames_ok c above st' → frames_ok (<[x := 2]> c) above st').
  { intros above st'. revert above. induction st' as [|[y i] st' IH]; intros above; simpl; [done|].
    intros (Hs & ? & ?). split_and!; [|done|auto]. intros z [Hz|Hz]%Hs; [|auto].
    left. destruct (decide (x = z)) as [->|]; [by rewrite lookup_insert_eq|].
    by rewrite lookup_insert_ne. }
  destruct st as [|[y i] st]; simpl; [done|]. intros (Hs & ? & ?).
  split_and!; [|done|by apply Hmono].
  intros z [Hz|[= ->]]%Hs; left; [|by rewrite lookup_insert_eq].
  destruct (decide (x = z)) as [->|]; [by rewrite lookup_insert_eq|by rewrite lookup_insert_ne].
Qed.

(** Colouring an unvisited node gray keeps all frames valid. *)
Lemma frames_ok_gray c x above st :
  c !! x = None → frames_ok c above st → frames_ok (<[x := 1]> c) above st.
Proof.
  intros Hx. revert above. induction st as [|[y i] st IH]; intros above; simpl; [done|].
  intros (Hs & ? & ?). split_and!; [|done|auto]. intros z [Hz|Hz]%Hs; [|auto].
  left. by rewrite lookup_insert_ne by congruence.
Qed.

(** A node whose successors are all explored, and that is not itself explored,
    can be explored. *)
Lemma explored_ok_insert c x :
  explored_ok c → c !! x ≠ Some 2 → (∀ y, structural g x y → c !! y = Some 2) →
  explored_ok (<[x := 2]> c).
Proof.
  intros Hex Hx Hsucc.
  assert (Hclosed : ∀ a b, c !! a = Some 2 → rtc (structural g) a b → c !! b = Some 2).
  { intros a b Ha Hr. induction Hr; [done|]. apply IHHr. by eapply Hex. }
  intros b. destruct (decide (x = b)) as [<-|Hne].
  - intros _. split.
    + intros y Hy. destruct (decide (x = y)) as [->|]; [by rewrite lookup_insert_eq|].
      rewrite lookup_insert_ne by done. auto.
    + intros Hc. apply tc_rtc in Hc as Hr. inversion Hc as [? ? Hxx|? y ? Hxy Hyx]; subst.
      * by apply Hx, Hsucc.
      * apply Hx, (Hclosed y); [by apply Hsucc|by apply tc_rtc].
  - rewrite lookup_insert_ne by done. intros Hb. destruct (Hex b Hb) as [Hs Hn].
    split; [|done]. intros y Hy. destruct (decide (x = y)) as [->|].
    + by rewrite lookup_insert_eq.
    + rewrite lookup_insert_ne by done. auto.
Qed.

Lemma explored_ok_gray c x :
  explored_ok c → c !! x = None → explored_ok (<[x := 1]> c).
Proof.
  intros Hex Hx b Hb. destruct (decide (x = b)) as [<-|Hne].
  { rewrite lookup_insert_eq in Hb. congruence. }
  rewrite lookup_insert_ne in Hb by done. destruct (Hex b Hb) as [Hs Hn].
  split; [|done]. intros y Hy. rewrite lookup_insert_ne; [auto|].
  intros ->. specialize (Hs y Hy). congruence.
Qed.

Lemma stack_top_path d x i rest :
  dfs_inv d → stack d = (x, i) :: rest →
  path d = reverse (fst <$> rest) ++ [x] ∧ x ∉ reverse (fst <$> rest) ∧
  NoDup (reverse (fst <$> rest)).
Proof.
  intros Hinv Hst. pose proof (inv_path _ Hinv) as Hp. rewrite Hst in Hp. simpl in Hp.
  rewrite reverse_cons in Hp. pose proof (inv_nodup _ Hinv) as Hnd. rewrite Hp in Hnd.
  apply NoDup_app in Hnd as (? & Hnx & _). split_and!; [done| |done].
  intros Hx. by apply (Hnx x Hx), list_elem_of_singleton.
Qed.

(** Popping the top, whose successors are all explored. *)
Lemma dfs_inv_pop d x i rest :
  dfs_inv d → stack d = (x, i) :: rest → (∀ y, structural g x y → color d !! y = Some 2) →
  dfs_inv (dfs_pop d x rest).
Proof.
  intros Hinv Hst Hsucc. destruct (stack_top_path _ _ _ _ Hinv Hst) as (Hp & Hnx & Hnd).
  assert (Hpath : path (dfs_pop d x rest) = reverse (fst <$> rest)).
  { simpl. rewrite Hp, length_app. simpl.
    rewrite Nat.add_sub, take_app_length. done. }
  assert (Hx : color d !! x = Some 1).
  { apply (inv_gray _ Hinv). rewrite Hp. set_solver. }
  split; rewrite ?Hpath; [done|done| | | | |].
  - intros y. simpl. destruct (decide (x = y)) as [<-|Hne].
    + rewrite lookup_insert_eq. naive_solver.
    + rewrite lookup_insert_ne by done. rewrite (inv_gray _ Hinv), Hp, elem_of_app.
      rewrite list_elem_of_singleton. naive_solver.
  - intros y k. simpl. intros [[? <-]|[? Hk]]%lookup_insert_Some; [by right|].
    by eapply inv_range.
  - pose proof (inv_linked _ Hinv) as Hl.
    apply (linked_take _ (length (reverse (fst <$> rest)))) in Hl.
    by rewrite Hp, take_app_length in Hl.
  - simpl. pose proof (inv_frames _ Hinv) as Hf. rewrite Hst in Hf. simpl in Hf.
    destruct Hf as (_ & _ & Hf). by apply frames_ok_explore.
  - simpl. apply explored_ok_insert; [by apply inv_explored|congruence|done].
Qed.

Lemma successors_lookup x es i :
  outgoing_map g !! x = Some es → successors x !! i = target_node_id <$> es !! i.
Proof. intros Ho. unfold successors. rewrite Ho. simpl. apply list_lookup_fmap. Qed.

(** The early return reports a closed structural path. *)
Lemma dfs_inv_found d x i rest y :
  dfs_inv d → stack d = (x, i) :: rest → structural g x y → color d !! y = Some 1 →
  closed_path (structural g) (drop (position y (path d)) (path d)).
Proof.
  intros Hinv Hst Hxy Hy%(inv_gray _ Hinv).
  destruct (stack_top_path _ _ _ _ Hinv Hst) as (Hp & _ & _).
  pose proof (inv_linked _ Hinv) as Hl.
  unfold position. destruct (list_find (λ z, z = y) (path d)) as [[k z]|] eqn:Hf.
  2:{ apply list_find_None in Hf. rewrite Forall_forall in Hf. by apply Hf in Hy. }
  apply list_find_Some in Hf as (Hk & -> & _). simpl.
  exists y, (drop (S k) (path d)). split; [by apply drop_S|].
  rewrite Hp in *.
  pose proof (lookup_lt_Some _ _ _ Hk) as Hlt. rewrite length_app in Hlt. simpl in Hlt.
  rewrite drop_app_le in * by lia. rewrite <-app_assoc.
  apply linked_snoc; [|done].
  rewrite <-drop_app_le by lia. by apply linked_drop.
Qed.

Lemma dfs_step_inv d x i rest :
  dfs_inv d → stack d = (x, i) :: rest →
  match dfs_step g d x i rest with
  | inl d' => dfs_inv d'
  | inr r => has_cycle r = true ∧ closed_path (structural g) (cycle_nodes r)
  end.
Proof.
  intros Hinv Hst. pose proof (inv_frames _ Hinv) as Hf. rewrite Hst in Hf. simpl in Hf.
  destruct Hf as (Hseen & Hi & Hrest). unfold dfs_step.
  destruct (outgoing_map g !! x) as [es|] eqn:Ho.
  2:{ apply (dfs_inv_pop _ x i); [done..|]. intros y Hy%elem_of_successors.
      unfold successors in Hy. rewrite Ho in Hy. by apply not_elem_of_nil in Hy. }
  pose proof (successors_lookup x es i Ho) as Hlook.
  destruct (es !! i) as [e|] eqn:He; simpl in Hlook.
  2:{ apply (dfs_inv_pop _ x i); [done..|]. intros y Hy%elem_of_successors.
      rewrite take_ge in Hseen by (by apply lookup_ge_None). by destruct (Hseen y Hy). }
  set (y := target_node_id e) in *.
  assert (Hxy : structural g x y) by (apply elem_of_successors; eapply list_elem_of_lookup_2, Hlook).
  assert (HSi : S i ≤ length (edges g)).
  { etrans; [|apply (length_successors x)]. by eapply Nat.le_succ_l, lookup_lt_Some. }
  assert (Htake : take (S i) (successors x) = take i (successors x) ++ [y]) by (by apply take_S_r).
  destruct (stack_top_path _ _ _ _ Hinv Hst) as (Hp & Hnx & Hnd).
  destruct (color d !! y) as [[|[|k]]|] eqn:Hcy; simpl.
  - exfalso. destruct (inv_range _ Hinv _ _ Hcy); lia.
  - split; [done|]. by eapply dfs_inv_found.
  - assert (k = 0) as -> by (destruct (inv_range _ Hinv _ _ Hcy); lia).
    destruct Hinv as [Hpath ? ? ? ? ? ?]. split; simpl; try done.
    { by rewrite Hpath, Hst. }
    rewrite Htake. split_and!; [|done..].
    intros z [Hz| ->%list_elem_of_singleton]%elem_of_app; [auto|by left].
  - destruct Hinv as [Hpath Hnodup Hgray Hrange Hlink Hfr Hex]. split; simpl.
    + by rewrite Hpath, Hst, !fmap_cons, !reverse_cons.
    + apply NoDup_app. split_and!; [done| |apply NoDup_singleton].
      intros z Hz ->%list_elem_of_singleton. apply Hgray in Hz. congruence.
    + intros z. destruct (decide (y = z)) as [<-|Hne].
      * rewrite lookup_insert_eq. set_solver.
      * rewrite lookup_insert_ne, Hgray by done. set_solver.
    + intros z k [[? <-]|[? Hk]]%lookup_insert_Some; [by left|by eapply Hrange].
    + rewrite Hp in *. rewrite <-app_assoc. by apply linked_snoc.
    + split_and!; [set_solver|lia| |done|].
      * rewrite Htake. intros z [Hz| ->%list_elem_of_singleton]%elem_of_app; [|by right].
        left. destruct (Hseen z Hz); [|done]. by rewrite lookup_insert_ne by congruence.
      * by apply frames_ok_gray.
    + by apply explored_ok_gray.
Qed.

(** Fuel.  [U] bounds the nodes a search enters. *)
Definition dfs_measure (U : gset string) (d : Dfs) : nat :=
  size (U ∖ dom (color d)) * (length (edges g) + 2) +
  sum_list_with (λ xi, length (edges g) + 1 - xi.2) (stack d).

Lemma dfs_step_measure U d x i rest d' :
  dfs_inv d → stack d = (x, i) :: rest → (∀ e, e ∈ edges g → target_node_id e ∈ U) →
  dfs_step g d x i rest = inl d' → dfs_measure U d' < dfs_measure U d.
Proof.
  intros Hinv Hst HU Hs. pose proof (inv_frames _ Hinv) as Hf. rewrite Hst in Hf. simpl in Hf.
  destruct Hf as (_ & Hi & _).
  assert (Hpop : dfs_measure U (dfs_pop d x rest) < dfs_measure U d).
  { unfold dfs_measure. rewrite Hst. simpl.
    assert (size (U ∖ dom (<[x:=2]> (color d))) ≤ size (U ∖ dom (color d))); [|nia].
    apply subseteq_size. rewrite dom_insert_L. set_solver. }
  unfold dfs_step in Hs. destruct (outgoing_map g !! x) as [es|] eqn:Ho; [|by simplify_eq].
  destruct (es !! i) as [e|] eqn:He; [|by simplify_eq].
  assert (Hle : S i ≤ length (edges g)).
  { etrans; [|apply (length_successors x)]. unfold successors. rewrite Ho, length_fmap. simpl.
    by eapply Nat.le_succ_l, lookup_lt_Some. }
  destruct (color d !! target_node_id e) as [[|[|k]]|] eqn:Hcy; simplify_eq/=.
  - exfalso. destruct (inv_range _ Hinv _ _ Hcy); lia.
  - unfold dfs_measure. rewrite Hst. simpl. lia.
  - unfold dfs_measure. rewrite Hst. simpl.
    assert (size (U ∖ dom (<[target_node_id e:=1]> (color d))) < size (U ∖ dom (color d))); [|nia].
    apply subset_size. apply not_elem_of_dom in Hcy. rewrite dom_insert_L.
    assert (target_node_id e ∈ U); [|set_solver].
    apply HU. assert (e ∈ default [] (outgoing_map g !! x)) as He'.
    { rewrite Ho. by eapply list_elem_of_lookup_2. }
    rewrite outgoing_eq in He'. by apply list_elem_of_filter in He' as [_ ?].
Qed.

Lemma dfs_step_color d x i rest d' :
  dfs_step g d x i rest = inl d' → ∀ z, is_Some (color d !! z) → is_Some (color d' !! z).
Proof.
  intros Hs z Hz.
  assert (Hins : ∀ y k, is_Some (<[y := k]> (color d) !! z))
    by (intros; apply lookup_insert_is_Some'; auto).
  unfold dfs_step in Hs. repeat case_match; simplify_eq/=; auto.
Qed.

Lemma dfs_run_spec U fuel d :
  dfs_inv d → (∀ e, e ∈ edges g → target_node_id e ∈ U) → dfs_measure U d ≤ fuel →
  match dfs_run fuel g d with
  | None => False
  | Some (inl d') => dfs_inv d' ∧ stack d' = [] ∧
      ∀ x, is_Some (color d !! x) → is_Some (color d' !! x)
  | Some (inr r) => has_cycle r = true ∧ closed_path (structural g) (cycle_nodes r)
  end.
Proof.
  intros Hinv HU. revert d Hinv. induction fuel as [|fuel IH]; intros d Hinv Hm;
    cbn [dfs_run]; (destruct (stack d) as [|[x i] rest] eqn:Hst; [done|]).
  - exfalso. pose proof (inv_frames _ Hinv) as Hf. rewrite Hst in Hf. simpl in Hf.
    unfold dfs_measure in Hm. rewrite Hst in Hm. simpl in Hm. lia.
  - pose proof (dfs_step_inv d x i rest Hinv Hst) as Hstep.
    destruct (dfs_step g d x i rest) as [d'|r] eqn:Hd'; [|done].
    specialize (IH d' Hstep).
    pose proof (dfs_step_measure U d x i rest d' Hinv Hst HU Hd').
    pose proof (dfs_step_color d x i rest d' Hd') as Hcol.
    specialize (IH ltac:(lia)).
    destruct (dfs_run fuel g d') as [[d''|r]|]; [|done..].
    destruct IH as (? & ? & Hcol'). split_and!; [done..|]. auto.
Qed.

Lemma dfs_start_inv c s :
  explored_ok c → (∀ x k, c !! x = Some k → k = 2) → c !! s = None →
  dfs_inv {| stack := [(s, 0)]; path := [s]; color := <[s := 1]> c |}.
Proof.
  intros Hex Hr Hs. split; simpl.
  - done.
  - apply NoDup_singleton.
  - intros x. rewrite list_elem_of_singleton. destruct (decide (s = x)) as [->|Hne].
    + rewrite lookup_insert_eq. naive_solver.
    + rewrite lookup_insert_ne by done. split; [intros Hx%Hr; lia|congruence].
  - intros x k [[? <-]|[? Hk%Hr]]%lookup_insert_Some; auto.
  - intros i x y. destruct i; simpl; [|done]. done.
  - split_and!; [set_solver|lia|done].
  - by apply explored_ok_gray.
Qed.
End dfs.

(** Between two searches every coloured node is explored. *)
Definition settled (g : WorkflowGraphStructure) (c : gmap string nat) : Prop :=
  explored_ok g c ∧ ∀ x k, c !! x = Some k → k = 2.

Lemma dfs_run_settled g s c :
  settled g c → c !! s = None →
  match dfs_run (dfs_fuel g) g {| stack := [(s, 0)]; path := [s]; color := <[s := 1]> c |} with
  | None => False
  | Some (inl d') => settled g (color d') ∧ color d' !! s = Some 2 ∧
      ∀ x, is_Some (c !! x) → is_Some (color d' !! x)
  | Some (inr r) => has_cycle r = true ∧ closed_path (structural g) (cycle_nodes r)
  end.
Proof.
  intros [Hex Hr] Hs. pose proof (dfs_start_inv g c s Hex Hr Hs) as Hinv.
  set (d := {| stack := _; path := _; color := _ |}) in *.
  set (U := list_to_set (target_node_id <$> edges g) : gset string).
  assert (HU : ∀ e, e ∈ edges g → target_node_id e ∈ U).
  { intros e He. by apply elem_of_list_to_set, list_elem_of_fmap_2. }
  assert (Hm : dfs_measure g U d ≤ dfs_fuel g).
  { unfold dfs_measure, dfs_fuel. simpl.
    assert (size (U ∖ dom (<[s:=1]> c)) ≤ length (edges g)); [|nia].
    etrans; [apply (subseteq_size _ U); set_solver|].
    etrans; [apply size_list_to_set_le|]. by rewrite length_fmap. }
  pose proof (dfs_run_spec g U _ d Hinv HU Hm) as Hspec.
  destruct (dfs_run (dfs_fuel g) g d) as [[d'|r]|]; [|done..].
  destruct Hspec as (Hinv' & Hst & Hcol).
  assert (Hp : path d' = []) by (by rewrite (inv_path _ _ Hinv'), Hst).
  assert (Hset : settled g (color d')).
  { split; [by apply inv_explored|]. intros x k Hk.
    destruct (inv_range _ _ Hinv' x k Hk) as [->|]; [|done].
    apply (inv_gray _ _ Hinv') in Hk. rewrite Hp in Hk. by apply not_elem_of_nil in Hk. }
  split_and!; [done| |].
  - destruct (Hcol s) as [k Hk]; [simpl; rewrite lookup_insert_eq; eauto|].
    rewrite Hk. f_equal. by eapply Hset.
  - intros x Hx. apply Hcol. simpl. apply lookup_insert_is_Some'. auto.
Qed.

Lemma detect_from_spec g starts c :
  settled g c →
  ∃ r, detect_from g starts c = Some r ∧
    (has_cycle r = true ∧ closed_path (structural g) (cycle_nodes r) ∨
     r = no_cycle ∧ ∃ c', settled g c' ∧ (∀ s, s ∈ starts → c' !! s = Some 2) ∧
       ∀ x, is_Some (c !! x) → is_Some (c' !! x)).
Proof.
  revert c. induction starts as [|s starts IH]; intros c Hc; simpl.
  { exists no_cycle. split; [done|]. right. split; [done|]. exists c. set_solver. }
  destruct (c !! s) as [k|] eqn:Hs.
  - assert (k = 2) as -> by (by eapply Hc). rewrite bool_decide_true by done. simpl.
    destruct (IH c Hc) as (r & -> & [?|(-> & c' & Hc' & Hall & Hsub)]); [eauto|].
    exists no_cycle. split; [done|]. right. split; [done|]. exists c'. split_and!; [done| |done].
    intros x [->|?]%elem_of_cons; [|auto].
    destruct (Hsub s) as [k Hk]; [eauto|]. rewrite Hk. f_equal. by eapply Hc'.
  - rewrite !bool_decide_false by done. simpl.
    pose proof (dfs_run_settled g s c Hc Hs) as Hrun.
    destruct (dfs_run _ _ _) as [[d'|r]|]; [|by eauto|done].
    destruct Hrun as (Hset & Hs2 & Hcol).
    destruct (IH _ Hset) as (r & -> & [?|(-> & c' & Hc' & Hall & Hsub)]); [eauto|].
    exists no_cycle. split; [done|]. right. split; [done|]. exists c'. split_and!; [done| |auto].
    intros x [->|?]%elem_of_cons; [|auto].
    destruct (Hsub s) as [k Hk]; [eauto|]. rewrite Hk. f_equal. by eapply Hc'.
Qed.

Lemma structural_source g x y : edges_closed g → structural g x y → x ∈ node_id_set g.
Proof. intros Hcl (e & He & _ & <- & _). by apply Hcl. Qed.

Lemma detect_cycles_spec g :
  edges_closed g →
  ∃ r, detect_cycles g = Some r ∧ (has_cycle r = false ↔ acyclic (structural g)) ∧
    (has_cycle r = true → closed_path (structural g) (cycle_nodes r)).
Proof.
  intros Hcl. destruct (detect_from_spec g (node_id <$> nodes g) ∅) as (r & Hr & Hcase).
  { split; [intros b|intros x k]; rewrite lookup_empty; done. }
  exists r. split; [done|]. destruct Hcase as [[Ht Hp]|(-> & c & [Hex _] & Hall & _)].
  - rewrite Ht. split; [|done]. split; [done|].
    intros Hac. destruct (closed_path_tc _ _ Hp) as [x Hx]. by apply Hac in Hx.
  - split; [|done]. split; [|done]. intros _ x Hx.
    assert (Hn : x ∈ node_id_set g).
    { inversion Hx; eauto using structural_source. }
    apply elem_of_node_id_set in Hn as (n & Hn & <-).
    destruct (Hex (node_id n)) as [_ Hnc]; [|done].
    by apply Hall, list_elem_of_fmap_2.
Qed.

(** Cycle detection is exact: on a graph whose edges join declared nodes it
    returns (its fuel always suffices), it reports no cycle precisely when the
    structural edges are acyclic, and the nodes it reports form a closed
    structural path. *)
Theorem detect_cycles_correct g :
  edges_closed g →
  ∃ r, detect_cycles g = Some r ∧ (has_cycle r = false ↔ acyclic (structural g)) ∧
    (has_cycle r = true → closed_path (structural g) (cycle_nodes r)).
Proof. apply detect_cycles_spec. Qed.

(** * Kahn's algorithm *)

Section kahn.
  Variable g : WorkflowGraphStructure.
  Hypothesis Hclosed : edges_closed g.

Definition structural_edges : list WorkflowEdge :=
  filter (λ e, is_structural_edge g e = true) (edges g).

(** Structural edges into [w] from a node outside [done]. *)
Definition pending_degree (w : string) (done : list string) : nat :=
  length (filter (λ e, target_node_id e = w ∧ source_node_id e ∉ done) structural_edges).

Definition occurrences (w : string) (l : list string) : nat := length (filter (λ x, x = w) l).

Lemma in_degree_fold (l : list WorkflowEdge) (m : gmap string nat) w :
  foldl (λ m e, alter S (target_node_id e) m) m l !! w =
  (λ d, d + length (filter (λ e, target_node_id e = w) l)) <$> m !! w.
Proof.
  revert m. induction l as [|e l IH]; intros m; cbn [foldl].
  - destruct (m !! w); simpl; [by rewrite Nat.add_0_r|done].
  - rewrite IH, filter_cons. destruct (decide (target_node_id e = w)) as [<-|Hne].
    + rewrite lookup_alter_eq. destruct (m !! _); simpl; [f_equal; lia|done].
    + by rewrite lookup_alter_ne.
Qed.

Lemma in_degree_map_lookup w :
  w ∈ node_id_set g → in_degree_map g !! w = Some (pending_degree w []).
Proof.
  intros Hw. unfold in_degree_map. rewrite in_degree_fold.
  assert (list_to_map ((λ n, (node_id n, 0)) <$> nodes g) !! w = Some 0) as ->.
  { unfold node_id_set in Hw. clear Hclosed. induction (nodes g) as [|n l IH]; [set_solver|].
    simpl. destruct (decide (node_id n = w)) as [->|Hne]; [by rewrite lookup_insert_eq|].
    rewrite lookup_insert_ne by done. apply IH. set_solver. }
  simpl. f_equal. apply length_filter_ext. intros e _. set_solver.
Qed.

Lemma in_degree_map_None w : w ∉ node_id_set g → in_degree_map g !! w = None.
Proof.
  intros Hw. unfold in_degree_map. rewrite in_degree_fold, fmap_None.
  apply not_elem_of_list_to_map. rewrite <-list_fmap_compose.
  unfold node_id_set in Hw. by rewrite elem_of_list_to_set in Hw.
Qed.

(** Completing [v] removes from the degree of [w] its edges out of [v]. *)
Lemma pending_degree_snoc w v done :
  v ∉ done →
  pending_degree w done = pending_degree w (done ++ [v]) + occurrences w (adjacency g v).
Proof.
  intros Hv. unfold pending_degree, occurrences, adjacency.
  rewrite (length_filter_split _ (λ e, source_node_id e ≠ v)).
  f_equal.
  - apply length_filter_ext. intros e _. set_solver.
  - rewrite length_filter_fmap, list_filter_filter. unfold structural_edges.
    rewrite list_filter_filter. apply length_filter_ext. intros e _.
    destruct (decide (source_node_id e = v)); naive_solver.
Qed.

Lemma pending_degree_0 w done :
  pending_degree w done = 0 ↔ ∀ u, structural g u w → u ∈ done.
Proof.
  unfold pending_degree, structural_edges. rewrite length_filter_0.
  setoid_rewrite list_elem_of_filter. unfold structural. split.
  - intros Hall u (e & He & Hs & <- & <-). apply dec_stable. intros Hu. by apply (Hall e).
  - intros Hall e [Hs He] [<- Hu]. apply Hu, Hall. eauto.
Qed.

Lemma occurrences_pos w l : w ∈ l ↔ occurrences w l ≠ 0.
Proof.
  unfold occurrences. rewrite length_filter_0. split.
  - intros Hw Hall. by apply (Hall w).
  - intros Hn. apply dec_stable. intros Hw. apply Hn. by intros x Hx ->.
Qed.

Lemma adjacency_ids v w : w ∈ adjacency g v → w ∈ node_id_set g.
Proof.
  unfold adjacency. intros (e & -> & [_ He]%list_elem_of_filter)%list_elem_of_fmap.
  by apply Hclosed.
Qed.

(** Relaxing the neighbours subtracts their occurrences and queues, once, each
    one whose degree reaches zero. *)
Lemma relax_spec (c : string → nat) l queue deg :
  (∀ w, w ∈ l → w ∈ node_id_set g) →
  (∀ w, w ∈ node_id_set g → deg !! w = Some (c w + occurrences w l)) →
  ∃ new deg', relax l queue deg = Ok (queue ++ new, deg') ∧ NoDup new ∧
    (∀ w, w ∈ new ↔ w ∈ l ∧ c w = 0) ∧
    (∀ w, w ∈ node_id_set g → deg' !! w = Some (c w)).
Proof.
  revert queue deg. induction l as [|n l IH]; intros queue deg Hl Hdeg; simpl.
  { exists [], deg. rewrite app_nil_r. split_and!; [done|constructor|set_solver|].
    intros w Hw. rewrite Hdeg by done. f_equal. unfold occurrences. simpl. lia. }
  assert (Hn : n ∈ node_id_set g) by (apply Hl; left).
  assert (Hocc : ∀ w, occurrences w (n :: l) = (if decide (n = w) then 1 else 0) + occurrences w l).
  { intros w. unfold occurrences. rewrite filter_cons. by case_decide. }
  rewrite (Hdeg n Hn), Hocc, decide_True by done.
  replace (c n + (1 + occurrences n l)) with (S (c n + occurrences n l)) by lia.
  destruct (IH (if decide (c n + occurrences n l = 0) then queue ++ [n] else queue)
               (<[n := c n + occurrences n l]> deg)) as (new & deg' & -> & Hnd & Hnew & Hdeg').
  { intros w Hw. apply Hl. by right. }
  { intros w Hw. destruct (decide (n = w)) as [->|Hne]; [by rewrite lookup_insert_eq|].
    rewrite lookup_insert_ne, Hdeg, Hocc, decide_False by done. done. }
  case_decide as Hz.
  - assert (Hnl : n ∉ l) by (rewrite occurrences_pos; lia).
    exists (n :: new), deg'. rewrite <-app_assoc. split_and!; [done| | |done].
    + constructor; [|done]. rewrite Hnew. tauto.
    + intros w. rewrite !elem_of_cons, Hnew.
      destruct (decide (w = n)) as [->|]; [|naive_solver]. split; [|tauto].
      intros _. split; [by left|lia].
  - exists new, deg'. split_and!; [done..| |done]. intros w. rewrite elem_of_cons, Hnew.
    destruct (decide (w = n)) as [->|]; [|naive_solver]. split; [tauto|].
    intros [_ Hc]. split; [|done]. apply occurrences_pos. lia.
Qed.

(** Every structural predecessor of an element of [l] comes before it. *)
Definition respects (l : list string) : Prop :=
  ∀ i v u, l !! i = Some v → structural g u v → u ∈ take i l.

Record kahn_inv (queue sorted : list string) (deg : gmap string nat) : Prop := {
  k_nodup : NoDup (sorted ++ queue);
  k_ids : ∀ w, w ∈ sorted ++ queue → w ∈ node_id_set g;
  k_deg : ∀ w, w ∈ node_id_set g → deg !! w = Some (pending_degree w sorted);
  k_zero : ∀ w, w ∈ node_id_set g → pending_degree w sorted = 0 ↔ w ∈ sorted ++ queue;
  k_respects : respects sorted;
}.

Lemma kahn_step v queue sorted deg :
  kahn_inv (v :: queue) sorted deg →
  ∃ queue' deg', relax (adjacency g v) queue deg = Ok (queue', deg') ∧
    kahn_inv queue' (sorted ++ [v]) deg'.
Proof.
  intros [Hnd Hids Hdeg Hzero Hresp].
  assert (Hv : v ∈ node_id_set g) by (apply Hids; set_solver).
  assert (Hvs : v ∉ sorted) by (apply NoDup_app in Hnd as (_ & Hd & _); set_solver).
  destruct (relax_spec (λ w, pending_degree w (sorted ++ [v])) (adjacency g v) queue deg)
    as (new & deg' & Hr & Hndn & Hnew & Hdeg').
  { apply adjacency_ids. }
  { intros w Hw. by rewrite Hdeg, (pending_degree_snoc w v) by done. }
  exists (queue ++ new), deg'. split; [done|].
  assert (Hfresh : ∀ w, w ∈ new → w ∈ node_id_set g ∧ w ∉ sorted ++ v :: queue).
  { intros w [Hw _]%Hnew. pose proof (adjacency_ids v w Hw) as Hid. split; [done|].
    intros Hin%Hzero; [|done]. apply occurrences_pos in Hw.
    rewrite (pending_degree_snoc w v) in Hin by done. lia. }
  split.
  - rewrite (assoc_L _ (sorted ++ [v])), <-(assoc_L _ sorted [v] queue).
    apply NoDup_app. split_and!; [done| |done]. intros w Hw Hn. by apply (Hfresh w Hn).
  - intros w [[Hw|Hw]%elem_of_app|[Hw|Hw]%elem_of_app]%elem_of_app; [| | |by apply Hfresh];
      apply Hids; set_solver.
  - done.
  - intros w Hw. specialize (Hzero w Hw). rewrite (pending_degree_snoc w v sorted Hvs) in Hzero.
    pose proof (occurrences_pos w (adjacency g v)) as Hocc. specialize (Hnew w).
    rewrite <-(assoc_L _ sorted [v]), (assoc_L _ [v] queue), (assoc_L _ sorted).
    rewrite elem_of_app. change ([v] ++ queue) with (v :: queue).
    destruct (decide (occurrences w (adjacency g v) = 0)) as [Ho|Ho].
    + rewrite Ho, Nat.add_0_r in Hzero. tauto.
    + split; [intros; right; tauto|]. intros [Hin%Hzero|Hin]; [lia|tauto].
  - intros i w u Hi Huw. apply lookup_app_Some in Hi as [Hi|[Hle Hi]].
    + rewrite take_app_le by (apply Nat.lt_le_incl; by eapply lookup_lt_Some). by eapply Hresp.
    + apply list_lookup_singleton_Some in Hi as [Hi <-].
      assert (i = length sorted) as -> by lia. rewrite take_app_length.
      apply pending_degree_0 with v; [|done]. apply Hzero; [done|set_solver].
Qed.

Lemma kahn_spec fuel queue sorted deg :
  kahn_inv queue sorted deg → size (node_id_set g) ≤ fuel + length sorted →
  ∃ l deg', kahn fuel g queue sorted deg = Ok l ∧ kahn_inv [] l deg'.
Proof.
  revert queue sorted deg. induction fuel as [|fuel IH]; intros [|v queue] sorted deg Hinv Hsz;
    cbn [kahn]; try (by exists sorted, deg).
  - exfalso. assert (length (sorted ++ v :: queue) ≤ size (node_id_set g)) as Hle.
    { rewrite <-(size_list_to_set (C:=gset string)) by apply Hinv.
      apply subseteq_size. intros w Hw%elem_of_list_to_set. by eapply k_ids. }
    rewrite length_app in Hle. simpl in *. lia.
  - destruct (kahn_step _ _ _ _ Hinv) as (queue' & deg' & -> & Hinv'). simpl.
    apply (IH _ _ _ Hinv'). rewrite length_app. simpl. lia.
Qed.

Lemma kahn_init (order : list string → list string) :
  (∀ l, order l ≡ₚ l) →
  kahn_inv (order (fst <$> filter (λ kd, kd.2 = 0) (map_to_list (in_degree_map g)))) []
    (in_degree_map g).
Proof.
  intros Horder. set (init := fst <$> _).
  assert (Hinit : ∀ w, w ∈ init ↔ in_degree_map g !! w = Some 0).
  { intros w. unfold init. rewrite list_elem_of_fmap. setoid_rewrite list_elem_of_filter.
    split.
    - intros ([k d] & -> & Hd & Hm). simpl in *. subst. by apply elem_of_map_to_list in Hm.
    - intros Hm. exists (w, 0). split; [done|]. split; [done|]. by apply elem_of_map_to_list. }
  assert (Hids : ∀ w, w ∈ init → w ∈ node_id_set g).
  { intros w Hw%Hinit. apply dec_stable. intros Hn%in_degree_map_None. congruence. }
  split; simpl.
  - rewrite Horder. apply NoDup_fmap_filter, NoDup_fst_map_to_list.
  - intros w. rewrite Horder. apply Hids.
  - by apply in_degree_map_lookup.
  - intros w Hw. rewrite Horder, Hinit, in_degree_map_lookup by done. naive_solver.
  - intros i v u Hi. by rewrite lookup_nil in Hi.
Qed.

(** A sorted list that respects the edges and holds every node excludes
    cycles; one that misses a node exhibits a cycle. *)
Lemma respects_acyclic l :
  (∀ w, w ∈ node_id_set g → w ∈ l) → NoDup l → respects l → acyclic (structural g).
Proof.
  intros Hall Hnd Hresp.
  assert (Hidx : ∀ x y, tc (structural g) x y → ∃ i j, i < j ∧ l !! i = Some x ∧ l !! j = Some y).
  { assert (Hone : ∀ x y, structural g x y → ∃ i j, i < j ∧ l !! i = Some x ∧ l !! j = Some y).
    { intros x y Hxy. assert (Hy : y ∈ l).
      { apply Hall. destruct Hxy as (e & He & _ & _ & <-). by apply Hclosed. }
      apply list_elem_of_lookup in Hy as [j Hj]. pose proof (Hresp j y x Hj Hxy) as Hx.
      apply list_elem_of_lookup in Hx as [i (Hi & ?)%lookup_take_Some]. eauto. }
    induction 1 as [x y Hxy|x y z Hxy _ (j' & k & ? & Hj' & ?)]; [auto|].
    destruct (Hone x y Hxy) as (i & j & ? & ? & Hj).
    rewrite (NoDup_lookup _ _ _ _ Hnd Hj Hj') in *. exists i, k. split_and!; [lia|done..]. }
  intros x (i & j & Hlt & Hi & Hj)%Hidx. rewrite (NoDup_lookup _ _ _ _ Hnd Hi Hj) in Hlt. lia.
Qed.

Lemma missing_cycle l deg :
  kahn_inv [] l deg → ∀ w, w ∈ node_id_set g → w ∉ l → ¬ acyclic (structural g).
Proof.
  intros [Hnd Hids _ Hzero _] w Hw Hwl Hac. rewrite app_nil_r in *.
  destruct (no_source_cycle (structural g) (node_id_set g ∖ list_to_set l)) as (x & _ & Hx).
  - set_solver.
  - intros x [Hx Hxl]%elem_of_difference. rewrite elem_of_list_to_set in Hxl.
    destruct (pending_degree x l) as [|k] eqn:Hp.
    { exfalso. by apply Hxl, Hzero. }
    unfold pending_degree in Hp.
    destruct (filter _ structural_edges) as [|e es] eqn:Hf; [done|].
    assert (He : e ∈ e :: es) by left. rewrite <-Hf in He.
    apply list_elem_of_filter in He as [[Ht Hs] [Hst He]%list_elem_of_filter].
    exists (source_node_id e). split; [|by exists e].
    apply elem_of_difference. rewrite elem_of_list_to_set. split; [by apply Hclosed|done].
  - by apply (Hac x).
Qed.
End kahn.

(** The sorted ids are those of the graph, each once. *)
Lemma topological_sort_spec order g :
  edges_closed g → NoDup (node_id <$> nodes g) → (∀ l, order l ≡ₚ l) →
  ∃ r, topological_sort order g = Ok r ∧
    (success r = true ↔ acyclic (structural g)) ∧
    (success r = true → sorted_nodes r ≡ₚ (node_id <$> nodes g) ∧ respects g (sorted_nodes r)) ∧
    (success r = false → closed_path (structural g) (sort_cycle_nodes r)).
Proof.
  intros Hcl Hnd Horder.
  assert (Hsz : size (node_id_set g) = length (nodes g)).
  { unfold node_id_set. rewrite size_list_to_set by done. apply length_fmap. }
  destruct (kahn_spec g Hcl (length (nodes g)) _ _ _ (kahn_init g Hcl order Horder))
    as (l & deg' & Hk & Hinv); [simpl; lia|].
  unfold topological_sort. rewrite Hk. simpl.
  pose proof (k_nodup _ _ _ _ Hinv) as Hndl. pose proof (k_ids _ _ _ _ Hinv) as Hids.
  rewrite app_nil_r in Hndl, Hids.
  assert (Hsub : ∀ w, w ∈ l → w ∈ node_id <$> nodes g).
  { intros w Hw%Hids. unfold node_id_set in Hw. by apply elem_of_list_to_set in Hw. }
  case_decide as Hlen.
  - assert (Hperm : l ≡ₚ node_id <$> nodes g).
    { apply submseteq_length_Permutation; [|rewrite length_fmap; lia].
      by apply NoDup_submseteq. }
    eexists. split; [done|]. simpl. pose proof (k_respects _ _ _ _ Hinv) as Hresp.
    split_and!; [|done|done]. split; [intros _|done].
    apply (respects_acyclic g Hcl l); [|done|done].
    intros w Hw. rewrite Hperm. unfold node_id_set in Hw. by apply elem_of_list_to_set in Hw.
  - assert (Hmiss : ∃ w, w ∈ node_id_set g ∧ w ∉ l).
    { apply dec_stable. intros Hno. apply Hlen.
      rewrite <-(length_fmap node_id (nodes g)). apply Permutation_length, NoDup_Permutation; [done..|].
      intros w. split; [apply Hsub|]. intros Hw. apply dec_stable. intros Hwl. apply Hno.
      exists w. split; [|done]. by apply elem_of_list_to_set. }
    destruct Hmiss as (w & Hw & Hwl). pose proof (missing_cycle g Hcl l deg' Hinv w Hw Hwl) as Hna.
    destruct (detect_cycles_spec g Hcl) as (c & -> & Hiff & Hpath).
    eexists. split; [done|]. simpl. split_and!; [|done|].
    + split; [done|]. intros Hac. done.
    + intros _. apply Hpath. destruct (has_cycle c); [done|]. exfalso. by apply Hna, Hiff.
Qed.

(** The topological sort is exact and total on a well-formed graph with
    distinct node ids, whatever order the hash map yields: it never hits the
    missing-neighbour or underflow panics, it succeeds precisely when the
    structural edges are acyclic, its output is then a permutation of the node
    ids in which every structural predecessor comes first, and when it fails it
    reports a closed structural path. *)
Theorem topological_sort_correct order g :
  edges_closed g → NoDup (node_id <$> nodes g) → (∀ l, order l ≡ₚ l) →
  ∃ r, topological_sort order g = Ok r ∧
    (success r = true ↔ acyclic (structural g)) ∧
    (success r = true → sorted_nodes r ≡ₚ (node_id <$> nodes g) ∧ respects g (sorted_nodes r)) ∧
    (success r = false → closed_path (structural g) (sort_cycle_nodes r)).
Proof. apply topological_sort_spec. Qed.

(** The two cycle deciders agree: Kahn's algorithm fails exactly when the
    depth-first search reports a cycle. *)
Theorem deciders_agree order g :
  edges_closed g → NoDup (node_id <$> nodes g) → (∀ l, order l ≡ₚ l) →
  ∃ r c, topological_sort order g = Ok r ∧ detect_cycles g = Some c ∧
    success r = negb (has_cycle c).
Proof.
  intros Hcl Hnd Ho.
  destruct (topological_sort_spec order g Hcl Hnd Ho) as (r & Hr & Hs & _).
  destruct (detect_cycles_spec g Hcl) as (c & Hc & Hh & _).
  exists r, c. split_and!; [done..|]. apply eq_true_iff_eq.
  rewrite Hs, <-Hh. by destruct (has_cycle c).
Qed.

(** * Reachability *)

Definition any_edge (g : WorkflowGraphStructure) (x y : string) : Prop :=
  ∃ e, e ∈ edges g ∧ source_node_id e = x ∧ target_node_id e = y.

Lemma elem_of_edge_targets g x y : y ∈ edge_targets g x ↔ any_edge g x y.
Proof.
  unfold edge_targets, any_edge. rewrite list_elem_of_fmap.
  setoid_rewrite list_elem_of_filter. naive_solver.
Qed.

Lemma elem_of_edge_sources g x y : y ∈ edge_sources g x ↔ any_edge g y x.
Proof.
  unfold edge_sources, any_edge. rewrite list_elem_of_fmap.
  setoid_rewrite list_elem_of_filter. naive_solver.
Qed.

(** Both closures: a worklist over the ends of edges. *)
Lemma edge_bfs_spec g (next : string → list string) (f : WorkflowEdge → string) s y :
  (∀ x z, z ∈ next x → ∃ e, e ∈ edges g ∧ f e = z) →
  y ∈ default ∅ (bfs next (S (length (edges g))) [s] {[s]}) ↔ rtc (step next) s y.
Proof.
  intros Hnext. set (U := {[s]} ∪ list_to_set (f <$> edges g) : gset string).
  destruct (bfs_from_total next (S (length (edges g))) s U) as [r Hr].
  - set_solver.
  - intros x z _ (e & He & <-)%Hnext.
    by apply elem_of_union_r, elem_of_list_to_set, list_elem_of_fmap_2.
  - subst U. etrans; [apply size_union_le|]. rewrite size_singleton.
    apply le_n_S. etrans; [apply size_list_to_set_le|]. by rewrite length_fmap.
  - rewrite Hr. simpl. by apply bfs_from_spec with (1 := Hr).
Qed.

Lemma get_reachable_nodes_spec g s y : y ∈ get_reachable_nodes g s ↔ rtc (any_edge g) s y.
Proof.
  unfold get_reachable_nodes. rewrite (edge_bfs_spec g _ target_node_id).
  - split; apply rtc_subrel; intros ? ?; apply elem_of_edge_targets.
  - intros x z (e & ? & _ & ?)%elem_of_edge_targets. eauto.
Qed.

Lemma rtc_flip {A} (R : relation A) x y : rtc (flip R) x y → rtc R y x.
Proof. induction 1; [done|]. by eapply rtc_r. Qed.

Lemma get_nodes_reaching_to_spec g s y : y ∈ get_nodes_reaching_to g s ↔ rtc (any_edge g) y s.
Proof.
  unfold get_nodes_reaching_to. rewrite (edge_bfs_spec g _ source_node_id).
  - split.
    + intros Hr. apply rtc_flip. revert Hr. apply rtc_subrel. intros ? ?.
      apply elem_of_edge_sources.
    + intros Hr. apply (rtc_flip (step (edge_sources g))). revert Hr. apply rtc_subrel.
      intros ? ?. unfold flip, step. apply elem_of_edge_sources.
  - intros x z (e & ? & ? & _)%elem_of_edge_sources. eauto.
Qed.

Lemma to_end_spec g x acc :
  x ∈ foldl (λ acc e, acc ∪ get_nodes_reaching_to g e) acc (end_node_ids g) ↔
  x ∈ acc ∨ ∃ e, e ∈ end_node_ids g ∧ rtc (any_edge g) x e.
Proof.
  generalize (end_node_ids g). intros l. revert acc.
  induction l as [|e l IH]; intros acc; cbn [foldl].
  - setoid_rewrite elem_of_nil. naive_solver.
  - rewrite IH, elem_of_union, get_nodes_reaching_to_spec. setoid_rewrite elem_of_cons. naive_solver.
Qed.

Lemma from_start_spec g x :
  x ∈ reachable_from_start (analyze_reachability g) ↔
  ∃ s, start_node_id g = Some s ∧ rtc (any_edge g) s x.
Proof.
  simpl. destruct (start_node_id g) as [s|].
  - rewrite get_reachable_nodes_spec. naive_solver.
  - set_solver.
Qed.

(** The reachability report is exact: the two sets are the forward closure
    of START and the backward closure of the END nodes over all edges, and the
    two lists hold, sorted and without repetition, the declared nodes START
    does not reach and those it reaches that reach no END. *)
Theorem analyze_reachability_correct g (r := analyze_reachability g) :
  (∀ x, x ∈ reachable_from_start r ↔ ∃ s, start_node_id g = Some s ∧ rtc (any_edge g) s x) ∧
  (∀ x, x ∈ reachable_to_end r ↔ ∃ e, e ∈ end_node_ids g ∧ rtc (any_edge g) x e) ∧
  (∀ x, x ∈ unreachable_nodes r ↔
     x ∈ node_id_set g ∧ ¬ ∃ s, start_node_id g = Some s ∧ rtc (any_edge g) s x) ∧
  (∀ x, x ∈ dead_end_nodes r ↔
     x ∈ node_id_set g ∧ (∃ s, start_node_id g = Some s ∧ rtc (any_edge g) s x) ∧
     ¬ ∃ e, e ∈ end_node_ids g ∧ rtc (any_edge g) x e) ∧
  Sorted String.le (unreachable_nodes r) ∧ NoDup (unreachable_nodes r) ∧
  Sorted String.le (dead_end_nodes r) ∧ NoDup (dead_end_nodes r).
Proof.
  assert (Hend : ∀ x, x ∈ reachable_to_end r ↔ ∃ e, e ∈ end_node_ids g ∧ rtc (any_edge g) x e).
  { intros x. subst r. simpl. rewrite to_end_spec. set_solver. }
  split; [apply from_start_spec|]. split; [done|]. split_and!; try (simpl; auto with wf; fail).
  - intros x. rewrite <-from_start_spec. simpl. rewrite elem_of_sorted_ids, elem_of_filter. tauto.
  - intros x. rewrite <-from_start_spec, <-Hend. simpl.
    rewrite elem_of_sorted_ids, elem_of_filter. tauto.
Qed.

(** The type counts of the analysis add up to the nodes of each type. *)
Lemma node_counts_spec order g t :
  default 0 (node_counts_by_type (analyze_graph order g) !! t) =
  length (filter (λ n, node_type n = t) (nodes g)).
Proof.
  simpl. assert (Hgen : ∀ l (m : gmap string nat),
    default 0 (foldl (λ m n, <[node_type n := default 0 (m !! node_type n) + 1]> m) m l !! t) =
    default 0 (m !! t) + length (filter (λ n, node_type n = t) l)).
  { induction l as [|n l IH]; intros m; cbn [foldl]; [simpl; lia|].
    rewrite IH, filter_cons. destruct (decide (node_type n = t)) as [<-|Hn].
    - rewrite lookup_insert_eq. simpl. lia.
    - by rewrite lookup_insert_ne. }
  by rewrite Hgen, lookup_empty.
Qed.

(** * Witnesses *)

(** A diamond and a two-node cycle beside it. *)
Definition dag_graph : WorkflowGraphStructure :=
  mk_graph [mk_node "a" "START"; mk_node "b" "SCRIPT"; mk_node "c" "SCRIPT"; mk_node "d" "END"]
    [mk_edge EDefault "a" "b"; mk_edge EDefault "a" "c"; mk_edge EDefault "b" "d";
     mk_edge EDefault "c" "d"] (Some "a") ["d"].
Definition cyclic_graph : WorkflowGraphStructure :=
  mk_graph [mk_node "a" "START"; mk_node "b" "SCRIPT"; mk_node "c" "SCRIPT"]
    [mk_edge EDefault "a" "b"; mk_edge EDefault "b" "c"; mk_edge EDefault "c" "b"] (Some "a") [].

Ltac check_closed :=
  let e := fresh "e" in let He := fresh "He" in
  intros e He; simpl in He;
  repeat (apply elem_of_cons in He as [->|He]; [split; vm_compute; (done || naive_solver)|]);
  by apply not_elem_of_nil in He.

Lemma dag_graph_closed : edges_closed dag_graph.
Proof. check_closed. Qed.
Lemma cyclic_graph_closed : edges_closed cyclic_graph.
Proof. check_closed. Qed.
Lemma dag_graph_nodup : NoDup (node_id <$> nodes dag_graph).
Proof. by apply (bool_decide_eq_true_1 _); vm_compute. Qed.

Lemma detect_cycles_correct_witness :
  (∃ c, detect_cycles cyclic_graph = Some c ∧ cycle_nodes c = ["b"; "c"]) ∧
  (∃ r, detect_cycles cyclic_graph = Some r ∧
    (has_cycle r = false ↔ acyclic (structural cyclic_graph)) ∧
    (has_cycle r = true → closed_path (structural cyclic_graph) (cycle_nodes r))).
Proof.
  split; [by eexists; split; [vm_compute; reflexivity|]|].
  apply (detect_cycles_correct cyclic_graph cyclic_graph_closed).
Defined.

Lemma topological_sort_correct_witness :
  ∃ r, topological_sort id dag_graph = Ok r ∧
    (success r = true ↔ acyclic (structural dag_graph)) ∧
    (success r = true →
       sorted_nodes r ≡ₚ (node_id <$> nodes dag_graph) ∧ respects dag_graph (sorted_nodes r)) ∧
    (success r = false → closed_path (structural dag_graph) (sort_cycle_nodes r)).
Proof.
  apply (topological_sort_correct id dag_graph dag_graph_closed dag_graph_nodup).
  intros l. reflexivity.
Defined.

Lemma deciders_agree_witness :
  ∃ r c, topological_sort id dag_graph = Ok r ∧ detect_cycles dag_graph = Some c ∧
    success r = negb (has_cycle c).
Proof.
  apply (deciders_agree id dag_graph dag_graph_closed dag_graph_nodup). intros l. reflexivity.
Defined.
