(* ===== verification/CheckpointGraph.v ===== *)
(** The dependency guard of checkpoint retention: checkpoint rows
    (wf-types/src/storage/checkpoint.rs, wf-types/src/checkpoint/base.rs) and
    checkpoint-base/src/checkpoint_graph.rs.

    A delta checkpoint restores by walking previous links back to a FULL head.
    The guard computes which deletion candidates lie on such a walk.  [order]
    is the iteration order of the [HashMap] the previous links are rebuilt
    from. *)

From S2P Require Import Prelude Json.

(** [CheckpointType] *)
Inductive CheckpointType : Type := Full | Delta.
#[export] Instance CheckpointType_eq_dec : EqDecision CheckpointType.
Proof. solve_decision. Defined.

(** [CheckpointStatus] *)
Inductive CheckpointStatus : Type := Active | Completed | Expired | CorruptedStatus.

(** [CheckpointStorageMetadata] *)
Record CheckpointStorageMetadata : Type := {
  cp_id : string;
  entity_type : string;
  entity_id : string;
  parent_entity_id : option string;
  checkpoint_type : CheckpointType;
  timestamp : Z;
  cp_status : CheckpointStatus;
  previous_checkpoint_id : option string;
  base_checkpoint_id : option string;
  chain_root_id : option string;
  chain_position : option Z;
  blob_size : option Z;
  tags : option (list string);
  custom_fields : option (gmap string value);
}.

(** [CheckpointDependencyGraph] *)
Record CheckpointDependencyGraph : Type := {
  referenced_by : gmap string (list string);
  chain_root_map : gmap string string;
  chain_groups : gmap string (list string);
  heads : gset string;
  delta_ids : gset string;
}.

(** [if let Some(prev) = &cp.previous_checkpoint_id { if prev != &cp.id {..}}] *)
Definition add_reference (m : gmap string (list string)) (cp : CheckpointStorageMetadata) :
    gmap string (list string) :=
  match previous_checkpoint_id cp with
  | Some prev => if decide (prev = cp_id cp) then m else <[prev := default [] (m !! prev) ++ [cp_id cp]]> m
  | None => m
  end.

(** The body of the loop of [CheckpointDependencyGraph::build]. *)
Definition add_checkpoint (g : CheckpointDependencyGraph) (cp : CheckpointStorageMetadata) :
    CheckpointDependencyGraph :=
  let root := default (cp_id cp) (chain_root_id cp) in
  {| referenced_by := add_reference (referenced_by g) cp;
     chain_root_map := <[cp_id cp := root]> (chain_root_map g);
     chain_groups := <[root := default [] (chain_groups g !! root) ++ [cp_id cp]]> (chain_groups g);
     heads :=
       match checkpoint_type cp, base_checkpoint_id cp with
       | Full, None => {[cp_id cp]} ∪ heads g
       | _, _ => heads g
       end;
     delta_ids :=
       match checkpoint_type cp with
       | Delta => {[cp_id cp]} ∪ delta_ids g
       | Full => delta_ids g
       end |}.

(** [CheckpointDependencyGraph::build] *)
Definition build_graph (cps : list CheckpointStorageMetadata) : CheckpointDependencyGraph :=
  foldl add_checkpoint
    {| referenced_by := ∅; chain_root_map := ∅; chain_groups := ∅; heads := ∅; delta_ids := ∅ |} cps.

(** The loop of [restore_chain] from [current]; [None] means no fuel. *)
Fixpoint chain_walk (fuel : nat) (hs : gset string) (prev : gmap string string)
    (visited : gset string) (current : option string) : option (list string) :=
  match current, fuel with
  | None, _ => Some []
  | Some _, 0 => None
  | Some x, S fuel' =>
      if decide (x ∈ visited) then Some []
      else if decide (x ∈ hs) then Some [x]
      else cons x <$> chain_walk fuel' hs prev ({[x]} ∪ visited) (prev !! x)
  end.

Section guard.
  Variable order : list (string * list string) → list (string * list string).

(** [previous_map] *)
Definition previous_map (g : CheckpointDependencyGraph) : gmap string string :=
  foldl (λ m kr, foldl (λ m r, <[r := kr.1]> m) m kr.2) ∅ (order (map_to_list (referenced_by g))).

(** [restore_chain].  Every id the loop passes, the last apart, has a previous
    link, and the check for a revisit costs one more iteration. *)
Definition restore_chain (g : CheckpointDependencyGraph) (seed : string) : list string :=
  let prev := previous_map g in
  default [] (chain_walk (size prev + 2) (heads g) prev ∅ (prev !! seed)).

(** [compute_protected] *)
Definition compute_protected (g : CheckpointDependencyGraph)
    (candidate_ids all_checkpoint_ids : gset string) : gset string :=
  foldl (λ acc seed, acc ∪ list_to_set (filter (λ x, x ∈ candidate_ids) (restore_chain g seed))) ∅
    (filter (λ x, x ∉ candidate_ids ∧ x ∈ delta_ids g) (elements all_checkpoint_ids)).

(** [chain_group_protected] *)
Definition chain_group_protected (g : CheckpointDependencyGraph) (candidate_ids : gset string) :
    gset string :=
  filter (λ x, match chain_root_map g !! x with
               | None => false
               | Some root => bool_decide (root ≠ x ∧ root ∉ candidate_ids)
               end = true) candidate_ids.

(** [bases_with_surviving_dependents] *)
Definition bases_with_surviving_dependents (g : CheckpointDependencyGraph) (removing : gset string) :
    gset string :=
  foldl (λ acc x,
      if decide (x ∈ removing ∨ x ∉ delta_ids g) then acc
      else acc ∪ list_to_set (filter (λ y, y ∈ removing) (restore_chain g x))) ∅
    (fst <$> map_to_list (chain_root_map g)).
End guard.

(** * The walk *)

(** One previous link out of [x], unless [x] is a head. *)
Definition link (hs : gset string) (prev : gmap string string) (x y : string) : Prop :=
  x ∉ hs ∧ prev !! x = Some y.

(** What the walk from [current] collects on top of [visited] is closed under
    links and holds nothing a link path does not reach. *)
Lemma chain_walk_spec fuel hs prev V current l :
  chain_walk fuel hs prev V current = Some l →
  (∀ x y, x ∈ V → link hs prev x y → y ∈ V ∨ current = Some y) →
  (∀ x y, x ∈ V ∨ x ∈ l → link hs prev x y → y ∈ V ∨ y ∈ l) ∧
  (∀ z, current = Some z → z ∈ V ∨ z ∈ l) ∧
  (∀ y, y ∈ l → ∃ z, current = Some z ∧ rtc (link hs prev) z y).
Proof.
  revert V current l. induction fuel as [|fuel IH]; intros V [x|] l; cbn [chain_walk]; try done.
  1,3: intros [= <-] HV; split_and!; [|done|set_solver]; intros a b [Ha|Ha] Hab;
    [by destruct (HV a b Ha Hab); [left|]|set_solver].
  destruct (decide (x ∈ V)) as [HxV|HxV].
  { intros [= <-] HV. split_and!; [|naive_solver|set_solver].
    intros a b [Ha|Ha] Hab; [|set_solver]. destruct (HV a b Ha Hab); naive_solver. }
  destruct (decide (x ∈ hs)) as [Hh|Hh].
  { intros [= <-] HV. split_and!.
    - intros a b [Ha|Ha] Hab; [destruct (HV a b Ha Hab); [naive_solver|right; set_solver]|].
      apply list_elem_of_singleton in Ha as ->. by destruct Hab.
    - intros z [= <-]. right. set_solver.
    - intros y ->%list_elem_of_singleton. by exists x. }
  intros (l' & Hw & ->)%fmap_Some HV. apply IH in Hw as (Hcl & Hcur & Hr).
  - split_and!.
    + intros a b Ha Hab. destruct (Hcl a b) as [Hb|Hb]; [set_solver|done|set_solver|set_solver].
    + intros z [= <-]. right. set_solver.
    + intros y [->|Hy]%elem_of_cons; [by exists x|].
      destruct (Hr y Hy) as (z & Hz & Hzy). exists x. split; [done|]. by eapply rtc_l.
  - intros a b [->%elem_of_singleton|Ha]%elem_of_union Hab; [right; apply Hab|].
    destruct (HV a b Ha Hab) as [?|[= ->]]; left; set_solver.
Qed.

(** The walk ends: each iteration but the last two uses up a link. *)
Lemma chain_walk_total fuel hs prev V current :
  size (dom prev ∖ V) + 2 ≤ fuel → is_Some (chain_walk fuel hs prev V current).
Proof.
  revert V current. induction fuel as [|fuel IH]; intros V [x|] Hf; cbn [chain_walk]; eauto; [lia|].
  destruct (decide (x ∈ V)); [eauto|]. destruct (decide (x ∈ hs)); [eauto|].
  apply fmap_is_Some. destruct (prev !! x) as [y|] eqn:Hx.
  - apply IH. assert (size (dom prev ∖ ({[x]} ∪ V)) < size (dom prev ∖ V)); [|lia].
    apply subset_size. apply elem_of_dom_2 in Hx. set_solver.
  - destruct fuel; eauto.
Qed.

Section guard_spec.
  Variable order : list (string * list string) → list (string * list string).

(** The ids on the restore chain of [x]. *)
Definition ancestor (g : CheckpointDependencyGraph) (x y : string) : Prop :=
  ∃ z, previous_map order g !! x = Some z ∧ rtc (link (heads g) (previous_map order g)) z y.

Lemma elem_of_restore_chain g x y : y ∈ restore_chain order g x ↔ ancestor g x y.
Proof.
  unfold restore_chain. destruct (chain_walk _ _ _ _ _) as [l|] eqn:Hw.
  - apply chain_walk_spec in Hw as (Hcl & Hcur & Hr); [|set_solver]. simpl. split.
    + apply Hr.
    + intros (z & Hz & Hzy). destruct (Hcur z Hz) as [?|Hzl]; [set_solver|].
      clear Hz Hcur. induction Hzy as [|a b c Hab _ IH]; [done|]. apply IH.
      destruct (Hcl a b) as [?|?]; [by right|done|set_solver|done].
  - exfalso. destruct (chain_walk_total (size (previous_map order g) + 2) (heads g)
      (previous_map order g) ∅ (previous_map order g !! x)) as [l Hl]; [|congruence].
    rewrite difference_empty_L, size_dom. lia.
Qed.

(** An ancestor that is not a head passes its own ancestors on. *)
Lemma ancestor_trans g x y z : y ∉ heads g → ancestor g x y → ancestor g y z → ancestor g x z.
Proof.
  intros Hh (a & Ha & Hay) (b & Hb & Hbz). exists a. split; [done|].
  etrans; [done|]. eapply rtc_l; [|done]. by split.
Qed.

Lemma elem_of_compute_protected g C A y :
  y ∈ compute_protected order g C A ↔
  y ∈ C ∧ ∃ d, d ∈ A ∧ d ∉ C ∧ d ∈ delta_ids g ∧ ancestor g d y.
Proof.
  unfold compute_protected. rewrite elem_of_foldl_union. setoid_rewrite elem_of_list_to_set.
  setoid_rewrite list_elem_of_filter. setoid_rewrite elem_of_elements.
  setoid_rewrite elem_of_restore_chain. set_solver.
Qed.

Lemma elem_of_bases g R y :
  y ∈ bases_with_surviving_dependents order g R ↔
  y ∈ R ∧ ∃ d, is_Some (chain_root_map g !! d) ∧ d ∉ R ∧ d ∈ delta_ids g ∧ ancestor g d y.
Proof.
  unfold bases_with_surviving_dependents.
  assert (Hgen : ∀ l (acc : gset string),
    y ∈ foldl (λ acc x, if decide (x ∈ R ∨ x ∉ delta_ids g) then acc
      else acc ∪ list_to_set (filter (λ y, y ∈ R) (restore_chain order g x))) acc l ↔
    y ∈ acc ∨ y ∈ R ∧ ∃ d, d ∈ l ∧ d ∉ R ∧ d ∈ delta_ids g ∧ ancestor g d y).
  { induction l as [|x l IH]; intros acc; cbn [foldl].
    - setoid_rewrite elem_of_nil. naive_solver.
    - rewrite IH. setoid_rewrite elem_of_cons. case_decide as Hx.
      + destruct Hx; naive_solver.
      + rewrite elem_of_union, elem_of_list_to_set, list_elem_of_filter, elem_of_restore_chain.
        apply Decidable.not_or in Hx as [? ?%dec_stable]. naive_solver. }
  rewrite Hgen. setoid_rewrite list_elem_of_fmap.
  split.
  - intros [?|(? & d & ([k r] & -> & Hd%elem_of_map_to_list) & ? & ? & ?)]; [set_solver|].
    split; [done|]. exists k. by split_and!; [exists r|..].
  - intros (? & d & [r Hr] & ? & ? & ?). right. split; [done|]. exists d. split; [|done].
    exists (d, r). split; [done|]. by apply elem_of_map_to_list.
Qed.
End guard_spec.

(** * The graph of a checkpoint list *)

(** [is_base] of the restorer: a FULL row without a base link. *)
Definition is_base (cp : CheckpointStorageMetadata) : bool :=
  bool_decide (checkpoint_type cp = Full) && bool_decide (base_checkpoint_id cp = None).

Lemma build_graph_ind (P : list CheckpointStorageMetadata → CheckpointDependencyGraph → Prop) cps :
  P [] (build_graph []) → (∀ l cp g, P l g → P (l ++ [cp]) (add_checkpoint g cp)) →
  P cps (build_graph cps).
Proof.
  intros H0 HS. induction cps as [|cp l IH] using rev_ind; [done|].
  unfold build_graph. rewrite foldl_snoc. by apply HS.
Qed.

Lemma elem_of_heads cps x :
  x ∈ heads (build_graph cps) ↔ ∃ cp, cp ∈ cps ∧ cp_id cp = x ∧ is_base cp = true.
Proof.
  apply (build_graph_ind (λ l g, x ∈ heads g ↔ ∃ cp, cp ∈ l ∧ cp_id cp = x ∧ is_base cp = true)).
  - simpl. set_solver.
  - intros l cp g IH. rewrite exists_elem_of_snoc, <-IH. unfold is_base. simpl.
    destruct (checkpoint_type cp), (base_checkpoint_id cp); simpl; set_solver.
Qed.

Lemma elem_of_delta_ids cps x :
  x ∈ delta_ids (build_graph cps) ↔ ∃ cp, cp ∈ cps ∧ cp_id cp = x ∧ checkpoint_type cp = Delta.
Proof.
  apply (build_graph_ind (λ l g, x ∈ delta_ids g ↔
    ∃ cp, cp ∈ l ∧ cp_id cp = x ∧ checkpoint_type cp = Delta)).
  - simpl. set_solver.
  - intros l cp g IH. rewrite exists_elem_of_snoc, <-IH. simpl.
    destruct (checkpoint_type cp); set_solver.
Qed.

Lemma chain_root_map_is_Some cps x :
  is_Some (chain_root_map (build_graph cps) !! x) ↔ x ∈ cp_id <$> cps.
Proof.
  apply (build_graph_ind (λ l g, is_Some (chain_root_map g !! x) ↔ x ∈ cp_id <$> l)).
  - simpl. split; [intros [? [=]]|set_solver].
  - intros l cp g IH. rewrite fmap_app. simpl. rewrite lookup_insert_is_Some', IH. set_solver.
Qed.

Lemma elem_of_referenced_by cps p r :
  r ∈ default [] (referenced_by (build_graph cps) !! p) ↔
  ∃ cp, cp ∈ cps ∧ cp_id cp = r ∧ previous_checkpoint_id cp = Some p ∧ p ≠ r.
Proof.
  apply (build_graph_ind (λ l g, r ∈ default [] (referenced_by g !! p) ↔
    ∃ cp, cp ∈ l ∧ cp_id cp = r ∧ previous_checkpoint_id cp = Some p ∧ p ≠ r)).
  - simpl. set_solver.
  - intros l cp g IH. rewrite exists_elem_of_snoc, <-IH. simpl. unfold add_reference. clear IH.
    destruct (previous_checkpoint_id cp) as [q|]; [|naive_solver].
    case_decide as Hs; [naive_solver|]. destruct (decide (q = p)) as [->|Hne].
    + rewrite lookup_insert_eq. simpl. rewrite elem_of_app, list_elem_of_singleton. naive_solver.
    + rewrite lookup_insert_ne by done. naive_solver.
Qed.

(** Rebuilding the previous links from the grouped references. *)
Definition add_refs (m : gmap string string) (kr : string * list string) : gmap string string :=
  foldl (λ m r, <[r := kr.1]> m) m kr.2.

Lemma lookup_add_refs m kr x :
  add_refs m kr !! x = if decide (x ∈ kr.2) then Some kr.1 else m !! x.
Proof.
  destruct kr as [k rs]. unfold add_refs. simpl. revert m.
  induction rs as [|r rs IH]; intros m; cbn [foldl]; [done|]. rewrite IH.
  destruct (decide (x ∈ rs)); [by rewrite decide_True by set_solver|].
  destruct (decide (x = r)) as [->|]; [by rewrite lookup_insert_eq, decide_True by set_solver|].
  by rewrite lookup_insert_ne, decide_False by set_solver.
Qed.

Lemma lookup_refs_sound l m x p :
  foldl add_refs m l !! x = Some p → m !! x = Some p ∨ ∃ rs, (p, rs) ∈ l ∧ x ∈ rs.
Proof.
  revert m. induction l as [|[k rs] l IH]; intros m; cbn [foldl]; [by left|].
  intros [Hm|(rs' & ? & ?)]%IH; [|right; exists rs'; set_solver].
  rewrite lookup_add_refs in Hm. case_decide; simplify_eq/=; [|by left].
  right. exists rs. set_solver.
Qed.

Lemma lookup_refs_defined l m x :
  is_Some (m !! x) ∨ (∃ k rs, (k, rs) ∈ l ∧ x ∈ rs) → is_Some (foldl add_refs m l !! x).
Proof.
  revert m. induction l as [|[k rs] l IH]; intros m; cbn [foldl].
  - intros [?|(? & ? & ? & ?)]; [done|set_solver].
  - intros Hx. apply IH. rewrite lookup_add_refs. case_decide as Hrs; [by left; eexists|].
    destruct Hx as [?|(k' & rs' & [[= -> ->]|?]%elem_of_cons & ?)]; [by left|done|right; eauto].
Qed.

Lemma distinct_ids_eq cps cp cp' :
  NoDup (cp_id <$> cps) → cp ∈ cps → cp' ∈ cps → cp_id cp = cp_id cp' → cp = cp'.
Proof.
  intros Hnd [i Hi]%list_elem_of_lookup [j Hj]%list_elem_of_lookup Heq.
  assert (i = j) as ->; [|congruence].
  apply (NoDup_lookup _ i j (cp_id cp) Hnd); rewrite list_lookup_fmap; [by rewrite Hi|].
  by rewrite Hj, Heq.
Qed.

Section previous_links.
  Variable order : list (string * list string) → list (string * list string).
  Hypothesis order_perm : ∀ l, order l ≡ₚ l.

Lemma elem_of_refs_list cps p r :
  (∃ rs, (p, rs) ∈ order (map_to_list (referenced_by (build_graph cps))) ∧ r ∈ rs) ↔
  ∃ cp, cp ∈ cps ∧ cp_id cp = r ∧ previous_checkpoint_id cp = Some p ∧ p ≠ r.
Proof.
  rewrite <-elem_of_referenced_by. setoid_rewrite order_perm. setoid_rewrite elem_of_map_to_list.
  destruct (referenced_by _ !! p); simpl; [naive_solver|]. split; [naive_solver|set_solver].
Qed.

(** The previous links of the graph are those of the rows, self links apart,
    whatever order the hash map yields. *)
Lemma lookup_previous_map cps x p :
  NoDup (cp_id <$> cps) →
  previous_map order (build_graph cps) !! x = Some p ↔
  ∃ cp, cp ∈ cps ∧ cp_id cp = x ∧ previous_checkpoint_id cp = Some p ∧ p ≠ x.
Proof.
  intros Hnd. unfold previous_map. fold add_refs. rewrite <-elem_of_refs_list. split.
  - intros [Hm|Hr]%lookup_refs_sound; [by rewrite lookup_empty in Hm|done].
  - intros Hr. destruct (lookup_refs_defined (order (map_to_list (referenced_by (build_graph cps)))) ∅ x)
      as [q Hq]; [right; naive_solver|].
    change (foldl add_refs ∅ (order (map_to_list (referenced_by (build_graph cps)))) !! x = Some p).
    rewrite Hq. apply lookup_refs_sound in Hq as [Hm|Hr']; [by rewrite lookup_empty in Hm|].
    apply elem_of_refs_list in Hr as (cp & ? & ? & ? & ?).
    apply elem_of_refs_list in Hr' as (cp' & ? & ? & ? & ?).
    assert (cp = cp') as <-; [|congruence]. apply (distinct_ids_eq cps); [done..|congruence].
Qed.

(** The restore chain of a row, read off the rows: previous links, self links
    apart, that stop after a base. *)
Definition row_link (cps : list CheckpointStorageMetadata) (x y : string) : Prop :=
  ∃ cp, cp ∈ cps ∧ cp_id cp = x ∧ is_base cp = false ∧ previous_checkpoint_id cp = Some y ∧ y ≠ x.
Definition restores_through (cps : list CheckpointStorageMetadata)
    (cp : CheckpointStorageMetadata) (y : string) : Prop :=
  ∃ z, previous_checkpoint_id cp = Some z ∧ z ≠ cp_id cp ∧ rtc (row_link cps) z y.

Lemma ancestor_restores cps cp y :
  NoDup (cp_id <$> cps) → cp ∈ cps →
  ancestor order (build_graph cps) (cp_id cp) y ↔ restores_through cps cp y.
Proof.
  intros Hnd Hcp.
  assert (Hlink : ∀ a b, link (heads (build_graph cps)) (previous_map order (build_graph cps)) a b ↔
    row_link cps a b).
  { intros a b. unfold link, row_link. rewrite lookup_previous_map, elem_of_heads by done. split.
    - intros (Hh & c & ? & <- & ? & ?). exists c. split_and!; [done..| |done|done].
      destruct (is_base c) eqn:?; [|done]. exfalso. apply Hh. eauto.
    - intros (c & Hc & <- & Hb & ? & ?). split; [|by exists c].
      intros (c' & Hc' & Heq & Hb'). rewrite (distinct_ids_eq cps c' c) in Hb' by done. congruence. }
  assert (Hrtc : ∀ a b, rtc (link (heads (build_graph cps)) (previous_map order (build_graph cps))) a b ↔
    rtc (row_link cps) a b).
  { intros a b. split; apply rtc_subrel; intros ??; apply Hlink. }
  unfold ancestor, restores_through. setoid_rewrite Hrtc. setoid_rewrite (lookup_previous_map cps); [|done].
  split.
  - intros (z & (c & Hc & Hid & ? & ?) & ?). exists z.
    assert (c = cp) as -> by by apply (distinct_ids_eq cps). done.
  - intros (z & ? & ? & ?). exists z. split; [|done]. by exists cp.
Qed.
End previous_links.
