(* ===== verification/CleanupPolicy.v ===== *)
(** Checkpoint retention: checkpoint-base/src/cleanup_policy.rs and clock.rs.

    A strategy (age, count, size or tiers) picks deletion candidates, the
    dependency guard of [CheckpointGraph] takes back those a surviving delta
    needs, and the newest row is always kept. *)

From S2P Require Import Prelude Json CheckpointGraph.

(** * The clock *)

(** [ManualClockState] *)
Record ManualClock : Type := { current_ms : Z; failed : bool }.

(** [CheckpointClock] *)
Inductive CheckpointClock : Type :=
| System
| Manual (clock : ManualClock).

Definition clock_set (c : ManualClock) (ms : Z) : ManualClock :=
  {| current_ms := ms; failed := failed c |}.
(** [saturating_add] of [i64]. *)
Definition clock_advance (c : ManualClock) (delta_ms : Z) : ManualClock :=
  {| current_ms := Z.max i64_min (Z.min i64_max (current_ms c + delta_ms)); failed := failed c |}.
Definition clock_fail (c : ManualClock) : ManualClock :=
  {| current_ms := current_ms c; failed := true |}.
Definition clock_restore (c : ManualClock) : ManualClock :=
  {| current_ms := current_ms c; failed := false |}.
Definition manual_now_ms (c : ManualClock) : option Z :=
  if failed c then None else Some (current_ms c).

(** [CheckpointClock::now_ms]; [system_now] is the reading of the system
    clock, [None] before the epoch. *)
Definition now_ms (system_now : option Z) (c : CheckpointClock) : option Z :=
  match c with System => system_now | Manual m => manual_now_ms m end.

(** [clock_valid], and [clock.now_ms().filter(|ms| *ms >= 0)]. *)
Definition clock_valid (now : option Z) : bool :=
  match now with Some ms => bool_decide (0 <= ms)%Z | None => false end.
Definition valid_now (now : option Z) : option Z :=
  match now with Some ms => if decide (0 <= ms)%Z then Some ms else None | None => None end.

(** * Strategies *)

Definition DAY_MS : Z := 86400000.

(** [RetentionTier] *)
Record RetentionTier : Type := {
  min_age_days : Z;
  max_age_days : option Z;
  retention_interval_days : Z;
}.

(** [CleanupStrategy] *)
Inductive CleanupStrategy : Type :=
| TimeBased (max_age_seconds min_retention : Z)
| CountBased (max_checkpoints min_retention : Z)
| SizeBased (max_total_bytes min_retention : Z)
| Tiered (tiers : list RetentionTier) (min_retention : Z).

Definition strategy_min_retention (s : CleanupStrategy) : Z :=
  match s with
  | TimeBased _ m | CountBased _ m | SizeBased _ m | Tiered _ m => m
  end.

(** [cleanup_strategies_from_retention]: [max_checkpoints] is a [u32],
    [max_age] an [i64] of milliseconds. *)
Definition cleanup_strategies_from_retention (max_checkpoints max_age : option Z) :
    list CleanupStrategy :=
  (match max_checkpoints with Some m => [CountBased m 1] | None => [] end) ++
  (match max_age with
   | Some ms => if decide (0 < ms)%Z then [TimeBased (Z.max ((ms + 999) / 1000) 1) 1] else []
   | None => []
   end).

(** The order [(a.timestamp, &a.id).cmp(&(b.timestamp, &b.id))]. *)
Definition age_le (a b : CheckpointStorageMetadata) : Prop :=
  (timestamp a < timestamp b)%Z ∨ timestamp a = timestamp b ∧ String.le (cp_id a) (cp_id b).
#[export] Instance age_le_dec : RelDecision age_le.
Proof. unfold age_le. intros a b. apply _. Defined.

(** [sorted.sort_by(..)]: oldest first. *)
Definition sort_by_age (cps : list CheckpointStorageMetadata) : list CheckpointStorageMetadata :=
  merge_sort age_le cps.

(** [iter().max_by(..)]: the last of the maximal elements. *)
Definition max_by_age (cps : list CheckpointStorageMetadata) : option CheckpointStorageMetadata :=
  match cps with
  | [] => None
  | c :: l => Some (foldl (λ m c, if decide (age_le m c) then c else m) c l)
  end.

Definition ids (cps : list CheckpointStorageMetadata) : gset string := list_to_set (cp_id <$> cps).

(** [apply_min_retention] *)
Definition apply_min_retention (cps : list CheckpointStorageMetadata) (candidates : gset string)
    (min_retention : Z) : list string :=
  if decide (min_retention = 0%Z ∨ candidates = ∅) then sorted_ids candidates
  else
    let keep := ids (take (Z.to_nat min_retention) (reverse (sort_by_age cps))) in
    sorted_ids (filter (λ x, x ∉ keep) candidates).

(** [(now - c.timestamp).max(0)] *)
Definition age_ms (now : Z) (c : CheckpointStorageMetadata) : Z :=
  Z.max (wrap_i64 (now - timestamp c)) 0.

(** [evaluate_time] *)
Definition evaluate_time (cps : list CheckpointStorageMetadata) (max_age_seconds min_retention : Z)
    (now : option Z) : list string :=
  match valid_now now with
  | None => []
  | Some now =>
      let max_age_ms := wrap_i64 (wrap64 (max_age_seconds * 1000)) in
      apply_min_retention cps (ids (filter (λ c, (max_age_ms < age_ms now c)%Z) cps)) min_retention
  end.

(** [evaluate_count] *)
Definition evaluate_count (cps : list CheckpointStorageMetadata) (max_count min_retention : Z) :
    list string :=
  if decide (Z.of_nat (length cps) <= max_count)%Z then []
  else
    let to_remove := (Z.of_nat (length cps) - max_count)%Z in
    apply_min_retention cps (ids (take (Z.to_nat to_remove) (sort_by_age cps))) min_retention.

Definition size_of (c : CheckpointStorageMetadata) : Z := default 0%Z (blob_size c).

(** The loop of [evaluate_size] over the sorted rows: the candidates. *)
Fixpoint size_candidates (total max accumulated : Z) (sorted : list CheckpointStorageMetadata) :
    list CheckpointStorageMetadata :=
  match sorted with
  | [] => []
  | c :: rest =>
      if decide (sat_sub total accumulated <= max)%Z then []
      else c :: size_candidates total max (wrap64 (accumulated + size_of c)) rest
  end.

(** [evaluate_size] *)
Definition evaluate_size (cps : list CheckpointStorageMetadata) (max_total_bytes min_retention : Z) :
    list string :=
  let total_size := foldl (λ a c, wrap64 (a + size_of c)) 0%Z cps in
  if decide (total_size <= max_total_bytes)%Z then []
  else
    apply_min_retention cps
      (ids (size_candidates total_size max_total_bytes 0 (sort_by_age cps))) min_retention.

(** The filter of a tier, and the window of a row in it. *)
Definition in_tier (now : Z) (t : RetentionTier) (c : CheckpointStorageMetadata) : bool :=
  let age_days := Z.quot (age_ms now c) DAY_MS in
  bool_decide (wrap_i64 (min_age_days t) <= age_days)%Z &&
  match max_age_days t with
  | None => true
  | Some m => bool_decide (age_days < wrap_i64 m)%Z
  end.
Definition window (now : Z) (t : RetentionTier) (c : CheckpointStorageMetadata) : Z :=
  Z.quot (Z.quot (age_ms now c) DAY_MS) (wrap_i64 (retention_interval_days t)).

(** [by_window.entry(window).or_default().push(cp)] for every row of the tier. *)
Definition by_window (now : Z) (t : RetentionTier) (cps : list CheckpointStorageMetadata) :
    gmap Z (list CheckpointStorageMetadata) :=
  foldl (push_group (window now t) id) ∅
    (filter (λ c, in_tier now t c = true) cps).

(** The rows of one window that go: all but the newest. *)
Definition window_removals (group : list CheckpointStorageMetadata) : gset string :=
  match max_by_age group with
  | None => ∅
  | Some keep => ids (filter (λ c, cp_id c ≠ cp_id keep) group)
  end.

(** The body of the loop over the tiers. *)
Definition tier_removals (now : Z) (cps : list CheckpointStorageMetadata) (acc : gset string)
    (t : RetentionTier) : gset string :=
  if decide (retention_interval_days t = 0%Z) then acc
  else foldl (λ acc wg, acc ∪ window_removals wg.2) acc (map_to_list (by_window now t cps)).

(** [tiers.sort_by_key(|t| t.min_age_days)] *)
Definition tier_le (a b : RetentionTier) : Prop := (min_age_days a <= min_age_days b)%Z.
#[export] Instance tier_le_dec : RelDecision tier_le.
Proof. unfold tier_le. intros a b. apply _. Defined.

(** [evaluate_tiered] *)
Definition evaluate_tiered (cps : list CheckpointStorageMetadata) (tiers : list RetentionTier)
    (min_retention : Z) (now : option Z) : list string :=
  match valid_now now with
  | None => []
  | Some now =>
      let sorted_tiers := merge_sort tier_le tiers in
      apply_min_retention cps (foldl (tier_removals now cps) ∅ sorted_tiers) min_retention
  end.

(** [CleanupExecutor::evaluate]; [now] is [clock.now_ms()]. *)
Definition evaluate (cps : list CheckpointStorageMetadata) (s : CleanupStrategy) (now : option Z) :
    list string :=
  match s with
  | TimeBased age m => evaluate_time cps age m now
  | CountBased n m => evaluate_count cps n m
  | SizeBased b m => evaluate_size cps b m
  | Tiered ts m => evaluate_tiered cps ts m now
  end.

(** [CleanupResult] *)
Record CleanupResult : Type := {
  deleted_checkpoint_ids : list string;
  deleted_count : Z;
  freed_bytes : Z;
  remaining_count : Z;
}.

Section executor.
  Variable order : list (string * list string) → list (string * list string).

(** The removal set after the protection rules. *)
Definition protected_removals (cps : list CheckpointStorageMetadata) (candidate_set : gset string) :
    gset string :=
  if decide (candidate_set = ∅) then ∅
  else
    let graph := build_graph cps in
    let protected := compute_protected order graph candidate_set (ids cps) in
    let chain_protected := chain_group_protected graph candidate_set in
    let r1 := filter (λ x, x ∉ protected ∧ x ∉ chain_protected) candidate_set in
    let bases_to_keep := bases_with_surviving_dependents order graph r1 in
    let r2 := filter (λ x, x ∉ bases_to_keep) r1 in
    match max_by_age cps with
    | Some latest => r2 ∖ {[cp_id latest]}
    | None => r2
    end.

(** [evaluate_protected_with_result] *)
Definition evaluate_protected_with_result (cps : list CheckpointStorageMetadata)
    (s : CleanupStrategy) (now : option Z) : CleanupResult :=
  let to_remove := protected_removals cps (list_to_set (evaluate cps s now)) in
  let size_by_id : gmap string Z := foldl (λ m c, <[cp_id c := size_of c]> m) ∅ cps in
  let deleted := sorted_ids to_remove in
  {| deleted_checkpoint_ids := deleted;
     deleted_count := Z.of_nat (length deleted);
     freed_bytes :=
       foldr (λ x a, wrap64 (default 0%Z (size_by_id !! x) + a)) 0%Z (elements to_remove);
     remaining_count := sat_sub (Z.of_nat (length cps)) (Z.of_nat (length deleted)) |}.

(** [evaluate_protected] *)
Definition evaluate_protected (cps : list CheckpointStorageMetadata) (s : CleanupStrategy)
    (now : option Z) : list string :=
  deleted_checkpoint_ids (evaluate_protected_with_result cps s now).
End executor.

(** * Order and retention *)

Lemma age_le_trans : Transitive age_le.
Proof.
  intros a b c [?|[? ?]] [?|[? ?]]; unfold age_le; [left; lia..|]. right.
  split; [congruence|]. by etrans.
Qed.

Lemma age_le_total : Total age_le.
Proof.
  intros a b. unfold age_le. destruct (Z.lt_trichotomy (timestamp a) (timestamp b)) as [|[Heq|]]; [auto| |auto].
  destruct (total String.le (cp_id a) (cp_id b)); [left|right]; right; by split.
Qed.
#[export] Existing Instances age_le_trans age_le_total.

Lemma age_le_antisym a b : age_le a b → age_le b a → cp_id a = cp_id b.
Proof. intros [?|[? ?]] [?|[? ?]]; [lia..|]. by apply (anti_symm String.le). Qed.

Lemma sort_by_age_perm cps : sort_by_age cps ≡ₚ cps.
Proof. apply merge_sort_Permutation. Qed.

Lemma max_by_age_spec cps m :
  max_by_age cps = Some m → m ∈ cps ∧ ∀ c, c ∈ cps → age_le c m.
Proof.
  destruct cps as [|c l]; [done|]. cbn [max_by_age]. intros [= <-]. revert c.
  induction l as [|d l IH]; intros c; cbn [foldl].
  { split; [set_solver|]. intros ? ->%list_elem_of_singleton.
    by destruct (total age_le c c). }
  destruct (IH (if decide (age_le c d) then d else c)) as [Hin Hle]. split.
  - case_decide; set_solver.
  - intros e He. case_decide as Hcd.
    + apply elem_of_cons in He as [->|He]; [|by apply Hle].
      etrans; [exact Hcd|]. apply Hle. left.
    + assert (Hdc : age_le d c) by (destruct (total age_le c d); tauto).
      apply elem_of_cons in He as [->|[->|He]%elem_of_cons]; [apply Hle; left| |apply Hle; by right].
      etrans; [exact Hdc|]. apply Hle. left.
Qed.

Lemma max_by_age_None cps : max_by_age cps = None ↔ cps = [].
Proof. by destruct cps. Qed.

(** The ids of the [k] newest rows. *)
Definition newest (k : nat) (cps : list CheckpointStorageMetadata) : gset string :=
  ids (take k (reverse (sort_by_age cps))).

Lemma elem_of_ids cps x : x ∈ ids cps ↔ ∃ c, c ∈ cps ∧ cp_id c = x.
Proof. unfold ids. rewrite elem_of_list_to_set, list_elem_of_fmap. naive_solver. Qed.

Lemma elem_of_apply_min_retention cps C m x :
  x ∈ apply_min_retention cps C m ↔ x ∈ C ∧ x ∉ newest (Z.to_nat m) cps.
Proof.
  unfold apply_min_retention, newest. case_decide as H.
  - rewrite elem_of_sorted_ids. destruct H as [->|HC]; [|set_solver].
    simpl. rewrite take_0. set_solver.
  - rewrite elem_of_sorted_ids, elem_of_filter. tauto.
Qed.

Lemma apply_min_retention_NoDup cps C m : NoDup (apply_min_retention cps C m).
Proof. unfold apply_min_retention. case_decide; auto with wf. Qed.

(** The row [max_by] picks is the newest. *)
Lemma latest_newest cps k latest :
  max_by_age cps = Some latest → (0 < k)%nat → cp_id latest ∈ newest k cps.
Proof.
  intros (Hin & Hmax)%max_by_age_spec Hk. unfold newest.
  pose proof (Sorted_merge_sort age_le cps) as Hs. fold (sort_by_age cps) in Hs.
  apply Sorted_StronglySorted in Hs; [|apply _].
  pose proof (sort_by_age_perm cps) as Hp.
  destruct (sort_by_age cps) as [|y l _] eqn:He using rev_ind.
  { apply Permutation_nil_l in Hp. subst. set_solver. }
  rewrite reverse_snoc. destruct k as [|k]; [lia|]. cbn [take].
  apply elem_of_ids. exists y. split; [left|]. apply age_le_antisym.
  - apply Hmax. rewrite <-Hp. set_solver.
  - rewrite <-Hp in Hin. apply elem_of_app in Hin as [Hl|Hl].
    + apply StronglySorted_app in Hs as (Hly & _). apply Hly; [done|left].
    + apply list_elem_of_singleton in Hl as ->. by destruct (total age_le y y).
Qed.

(** Whatever the strategy, the rows it may not touch are not candidates. *)
Lemma evaluate_not_newest cps s now x :
  x ∈ evaluate cps s now → x ∉ newest (Z.to_nat (strategy_min_retention s)) cps.
Proof.
  destruct s; cbn [evaluate strategy_min_retention];
    unfold evaluate_time, evaluate_count, evaluate_size, evaluate_tiered;
    repeat case_match; rewrite ?elem_of_apply_min_retention; (tauto || set_solver).
Qed.

(** * Tiers *)

(** A row of the tier and window of [c] that is newer than [c]. *)
Definition outlived (now : Z) (t : RetentionTier) (cps : list CheckpointStorageMetadata)
    (c c' : CheckpointStorageMetadata) : Prop :=
  c ∈ cps ∧ c' ∈ cps ∧ in_tier now t c = true ∧ in_tier now t c' = true ∧
  window now t c = window now t c' ∧ cp_id c ≠ cp_id c' ∧ age_le c c'.

Lemma elem_of_window_removals group x :
  NoDup (cp_id <$> group) →
  x ∈ window_removals group ↔
  ∃ c c', c ∈ group ∧ c' ∈ group ∧ cp_id c = x ∧ cp_id c ≠ cp_id c' ∧ age_le c c'.
Proof.
  intros Hnd. unfold window_removals. destruct (max_by_age group) as [m|] eqn:Hm.
  - apply max_by_age_spec in Hm as [Hin Hmax]. rewrite elem_of_ids. split.
    + intros (c & [Hne Hc]%list_elem_of_filter & <-). exists c, m. eauto 6.
    + intros (c & c' & Hc & Hc' & <- & Hne & Hle). exists c. split; [|done].
      apply list_elem_of_filter. split; [|done]. intros Heq. apply Hne.
      assert (c = m) as -> by by apply (distinct_ids_eq group).
      apply age_le_antisym; [done|by apply Hmax].
  - apply max_by_age_None in Hm as ->. set_solver.
Qed.

Lemma by_window_lookup now t cps w g :
  by_window now t cps !! w = Some g →
  g = filter (λ c, window now t c = w ∧ in_tier now t c = true) cps.
Proof.
  intros Hw. unfold by_window in Hw.
  assert (Hd : default [] (Some g) = g) by done. rewrite <-Hd, <-Hw, default_push_group.
  by rewrite list_fmap_id, list_filter_filter.
Qed.

Lemma by_window_is_Some now t cps c :
  c ∈ cps → in_tier now t c = true → is_Some (by_window now t cps !! window now t c).
Proof.
  intros Hc Ht. unfold by_window. rewrite lookup_push_group.
  destruct (filter _ (filter _ cps)) as [|d l] eqn:Hf; [|eauto].
  exfalso. apply (not_elem_of_nil c). rewrite <-Hf. by rewrite !list_elem_of_filter.
Qed.

Lemma elem_of_tier_removals now cps acc t x :
  NoDup (cp_id <$> cps) →
  x ∈ tier_removals now cps acc t ↔
  x ∈ acc ∨ retention_interval_days t ≠ 0%Z ∧ ∃ c c', cp_id c = x ∧ outlived now t cps c c'.
Proof.
  intros Hnd. unfold tier_removals. case_decide as Hi; [tauto|].
  rewrite elem_of_foldl_union. apply or_iff_compat_l. unfold outlived. split.
  - intros ([w g] & Hg%elem_of_map_to_list%by_window_lookup & Hx). simpl in Hx. subst g.
    apply elem_of_window_removals in Hx as (c & c' & Hc & Hc' & <- & Hne & Hle);
      [|by apply NoDup_fmap_filter].
    apply list_elem_of_filter in Hc as [[<- ?] ?], Hc' as [[? ?] ?]. split; [done|].
    exists c, c'. by split_and!.
  - intros (_ & c & c' & <- & Hc & Hc' & Ht & Ht' & Hw & Hne & Hle).
    destruct (by_window_is_Some now t cps c Hc Ht) as [g Hg].
    exists (window now t c, g). split; [by apply elem_of_map_to_list|]. simpl.
    rewrite (by_window_lookup _ _ _ _ _ Hg).
    apply elem_of_window_removals; [by apply NoDup_fmap_filter|].
    exists c, c'. rewrite !list_elem_of_filter. by split_and!.
Qed.

Lemma elem_of_tiers_removals now cps ts acc x :
  NoDup (cp_id <$> cps) →
  x ∈ foldl (tier_removals now cps) acc ts ↔
  x ∈ acc ∨ ∃ t, t ∈ ts ∧ retention_interval_days t ≠ 0%Z ∧
    ∃ c c', cp_id c = x ∧ outlived now t cps c c'.
Proof.
  intros Hnd. revert acc. induction ts as [|t ts IH]; intros acc; cbn [foldl].
  - setoid_rewrite elem_of_nil. naive_solver.
  - rewrite IH, elem_of_tier_removals by done. setoid_rewrite elem_of_cons. naive_solver.
Qed.

(** Tiered cleanup with a working clock proposes exactly the rows that,
    in some tier with a non-zero interval, share their age window with a newer
    row, the [min_retention] newest rows excepted: so each window keeps its
    newest row and only that one. *)
Theorem evaluate_tiered_correct cps ts m now x :
  NoDup (cp_id <$> cps) → (0 <= now)%Z →
  x ∈ evaluate cps (Tiered ts m) (Some now) ↔
  (∃ t c c', t ∈ ts ∧ retention_interval_days t ≠ 0%Z ∧ cp_id c = x ∧ outlived now t cps c c') ∧
  x ∉ newest (Z.to_nat m) cps.
Proof.
  intros Hnd Hnow. cbn [evaluate]. unfold evaluate_tiered, valid_now.
  rewrite decide_True, elem_of_apply_min_retention, elem_of_tiers_removals by done.
  apply and_iff_compat_r. setoid_rewrite (merge_sort_Permutation tier_le ts). split.
  - intros [?|(t & ? & ? & c & c' & ? & ?)]; [set_solver|]. eauto 8.
  - intros (t & c & c' & ? & ? & ? & ?). right. eauto 8.
Qed.

(** * Protection *)

Lemma ids_mono l cps : (∀ c, c ∈ l → c ∈ cps) → ids l ⊆ ids cps.
Proof. intros Hl x. rewrite !elem_of_ids. naive_solver. Qed.

Lemma size_candidates_sub total max acc l c : c ∈ size_candidates total max acc l → c ∈ l.
Proof.
  revert acc. induction l as [|d l IH]; intros acc; cbn [size_candidates]; [done|].
  case_decide; [set_solver|]. intros [->|Hc]%elem_of_cons; [left|right]. by eapply IH.
Qed.

Lemma take_sort_sub k cps c : c ∈ take k (sort_by_age cps) → c ∈ cps.
Proof.
  rewrite <-(sort_by_age_perm cps) at 2. intros (i & ? & _)%elem_of_take.
  by eapply list_elem_of_lookup_2.
Qed.

(** Candidates are rows of the list. *)
Lemma evaluate_ids cps s now x :
  NoDup (cp_id <$> cps) → x ∈ evaluate cps s now → x ∈ ids cps.
Proof.
  intros Hnd. destruct s; cbn [evaluate];
    unfold evaluate_time, evaluate_count, evaluate_size, evaluate_tiered;
    repeat case_match; rewrite ?elem_of_apply_min_retention; try set_solver.
  - intros [Hx _]. revert Hx. apply ids_mono. by intros c [_ ?]%list_elem_of_filter.
  - intros [Hx _]. revert Hx. apply ids_mono. intros c. apply take_sort_sub.
  - intros [Hx _]. revert Hx. apply ids_mono. intros c Hc%size_candidates_sub.
    by rewrite (sort_by_age_perm cps) in Hc.
  - rewrite elem_of_tiers_removals by done.
    intros [[?|(t & _ & _ & c & c' & <- & ? & _)] _]; [set_solver|]. apply elem_of_ids. eauto.
Qed.

Section protection.
  Variable order : list (string * list string) → list (string * list string).
  Variable cps : list CheckpointStorageMetadata.

(** [y] is on the restore chain of the surviving delta [d]. *)
Definition needs (R : gset string) (y : string) : Prop :=
  ∃ d, d ∈ cps ∧ checkpoint_type d = Delta ∧ cp_id d ∉ R ∧
    ancestor order (build_graph cps) (cp_id d) y.

Lemma delta_not_head d : NoDup (cp_id <$> cps) → d ∈ cps → checkpoint_type d = Delta → cp_id d ∉ heads (build_graph cps).
Proof.
  intros distinct Hd Ht (c & Hc & Hid & Hb)%elem_of_heads.
  rewrite (distinct_ids_eq cps c d) in Hb by done. unfold is_base in Hb. by rewrite Ht in Hb.
Qed.

Lemma bases_needs R y :
  y ∈ bases_with_surviving_dependents order (build_graph cps) R ↔ y ∈ R ∧ needs R y.
Proof.
  rewrite elem_of_bases. apply and_iff_compat_l. unfold needs. split.
  - intros (x & _ & Hx & (d & ? & <- & ?)%elem_of_delta_ids & ?). eauto 6.
  - intros (d & ? & ? & ? & ?). exists (cp_id d). split_and!; [|done| |done].
    + apply chain_root_map_is_Some. by apply list_elem_of_fmap_2.
    + apply elem_of_delta_ids. eauto.
Qed.

(** Removing bases that are needed makes nothing newly needed: the chain of a
    kept base is part of the chain that kept it. *)
Lemma protected_removals_safe C y :
  NoDup (cp_id <$> cps) →
  (∀ latest, max_by_age cps = Some latest → cp_id latest ∉ C) →
  y ∈ protected_removals order cps C → ¬ needs (protected_removals order cps C) y.
Proof.
  intros distinct Hlatest. unfold protected_removals. case_decide as HC; [set_solver|]. cbv zeta.
  set (R1 := filter _ C). set (R2 := filter _ R1).
  assert (HR1 : R1 ⊆ C) by (intros z [_ ?]%elem_of_filter; done).
  assert (Hl : match max_by_age cps with Some latest => R2 ∖ {[cp_id latest]} | None => R2 end = R2).
  { destruct (max_by_age cps) as [m|]; [|done]. apply leibniz_equiv.
    assert (cp_id m ∉ R2); [|set_solver]. intros [_ Hm%HR1]%elem_of_filter. by apply (Hlatest m). }
  rewrite Hl. intros [Hnb Hy]%elem_of_filter (d & Hd & Ht & HdR & Hanc).
  apply Hnb, bases_needs. split; [done|].
  destruct (decide (cp_id d ∈ R1)) as [Hd1|Hd1]; [|by exists d].
  assert (Hdb : cp_id d ∈ bases_with_surviving_dependents order (build_graph cps) R1).
  { apply dec_stable. intros Hn. apply HdR. by apply elem_of_filter. }
  apply bases_needs in Hdb as (_ & d' & ? & ? & ? & Hanc').
  exists d'. split_and!; [done..|]. eapply ancestor_trans; [|done|done]. by apply delta_not_head.
Qed.

Lemma protected_removals_sub C : protected_removals order cps C ⊆ C.
Proof.
  unfold protected_removals. case_decide; [set_solver|]. intros x.
  destruct (max_by_age cps); rewrite ?elem_of_difference, ?elem_of_filter; tauto.
Qed.

(** A candidate is only kept for one of the three reasons. *)
Lemma protected_removals_tight C x :
  x ∈ C → x ∉ protected_removals order cps C →
  (∃ latest, max_by_age cps = Some latest ∧ cp_id latest = x) ∨
  (∃ root, chain_root_map (build_graph cps) !! x = Some root ∧ root ≠ x ∧ root ∉ C) ∨
  needs (protected_removals order cps C) x.
Proof.
  intros HxC. pose proof (protected_removals_sub C) as Hsub. revert Hsub.
  unfold protected_removals. rewrite decide_False by set_solver. cbv zeta.
  set (P := compute_protected _ _ _ _). set (G := chain_group_protected _ _).
  set (R1 := filter (λ x, x ∉ P ∧ x ∉ G) C). set (R2 := filter _ R1).
  set (R := match _ with Some _ => _ | None => R2 end). intros Hsub HxR.
  assert (HRR2 : R ⊆ R2) by (subst R; destruct (max_by_age cps); set_solver).
  destruct (decide (x ∈ P)) as [HP|HP].
  { right; right. apply elem_of_compute_protected in HP as (_ & y & Hy & HyC & Hdel & Hanc).
    apply elem_of_delta_ids in Hdel as (d & ? & <- & ?). exists d. split_and!; [done..| |done].
    intros Hd. by apply HyC, Hsub. }
  destruct (decide (x ∈ G)) as [HG|HG].
  { right; left. apply elem_of_filter in HG as [HG _].
    destruct (chain_root_map _ !! x) as [root|]; [|done].
    apply bool_decide_eq_true in HG as [? ?]. eauto. }
  assert (HR1 : x ∈ R1) by by apply elem_of_filter.
  destruct (decide (x ∈ R2)) as [HR2|HR2].
  - left. subst R. destruct (max_by_age cps) as [m|]; [|done]. exists m. split; [done|].
    apply dec_stable. intros Hne. set_solver.
  - right; right.
    assert (Hb : x ∈ bases_with_surviving_dependents order (build_graph cps) R1).
    { apply dec_stable. intros Hn. apply HR2. by apply elem_of_filter. }
    apply bases_needs in Hb as (_ & d & ? & ? & Hd1 & ?). exists d. split_and!; [done..| |done].
    intros Hd. apply Hd1. apply HRR2, elem_of_filter in Hd. tauto.
Qed.
End protection.

(** * Count and size *)

(** Among distinct elements, those of the first [a] outside the last [b]. *)
Lemma take_minus_drop {A} `{EqDecision A} (l : list A) a b x :
  NoDup l → x ∈ take a l ∧ x ∉ drop b l ↔ x ∈ take (a `min` b) l.
Proof.
  intros Hnd. rewrite !elem_of_take. setoid_rewrite list_elem_of_lookup. setoid_rewrite lookup_drop. split.
  - intros ((i & Hi & Ha) & Hno). exists i. split; [done|].
    destruct (decide (i < b)); [lia|]. exfalso. apply Hno. exists (i - b).
    by replace (b + (i - b)) with i by lia.
  - intros (i & Hi & Hlt). split; [exists i; split; [done|lia]|].
    intros (j & Hj). pose proof (NoDup_lookup _ _ _ _ Hnd Hi Hj). lia.
Qed.

(** Retention cuts an oldest-first prefix short. *)
Lemma prefix_min_retention cps k m :
  NoDup (cp_id <$> cps) →
  apply_min_retention cps (ids (take k (sort_by_age cps))) m ≡ₚ
  cp_id <$> take (k `min` (length cps - Z.to_nat m)) (sort_by_age cps).
Proof.
  intros Hnd. rewrite <-(sort_by_age_perm cps) in Hnd.
  assert (Hlen : length (sort_by_age cps) = length cps) by by rewrite (sort_by_age_perm cps).
  apply NoDup_Permutation.
  - apply apply_min_retention_NoDup.
  - rewrite fmap_take. by eapply sublist_NoDup, sublist_take.
  - intros x. rewrite elem_of_apply_min_retention. unfold newest, ids.
    rewrite !elem_of_list_to_set, take_reverse, fmap_reverse, elem_of_reverse, Hlen.
    rewrite !fmap_take, fmap_drop. by apply take_minus_drop.
Qed.

Lemma evaluate_count_oldest cps n m :
  NoDup (cp_id <$> cps) → (0 <= n)%Z → (0 <= m)%Z →
  evaluate_count cps n m ≡ₚ
  cp_id <$> take (length cps - Z.to_nat (Z.max n m)) (sort_by_age cps).
Proof.
  intros Hnd Hn Hm. unfold evaluate_count. case_decide as Hle.
  - by replace (length cps - Z.to_nat (Z.max n m)) with 0 by lia.
  - rewrite prefix_min_retention by done.
    replace (_ `min` _) with (length cps - Z.to_nat (Z.max n m)) by lia. done.
Qed.

Definition total_bytes (cps : list CheckpointStorageMetadata) : Z :=
  foldr (λ c a, size_of c + a)%Z 0%Z cps.

(** The sizes are [u64]s and their sum does not overflow. *)
Definition sizes_ok (cps : list CheckpointStorageMetadata) : Prop :=
  (∀ c, c ∈ cps → (0 <= size_of c)%Z) ∧ (total_bytes cps <= u64_max)%Z.

Lemma total_bytes_nonneg cps : (∀ c, c ∈ cps → (0 <= size_of c)%Z) → (0 <= total_bytes cps)%Z.
Proof.
  induction cps as [|c cps IH]; intros Hc; simpl; [done|].
  pose proof (Hc c ltac:(left)). specialize (IH ltac:(intros; apply Hc; by right)). lia.
Qed.

Lemma total_size_eq cps a :
  (∀ c, c ∈ cps → (0 <= size_of c)%Z) → (0 <= a)%Z → (a + total_bytes cps <= u64_max)%Z →
  foldl (λ a c, wrap64 (a + size_of c)) a cps = (a + total_bytes cps)%Z.
Proof.
  revert a. induction cps as [|c cps IH]; intros a Hc Ha Hsum; cbn [foldl total_bytes foldr] in *; [lia|].
  pose proof (Hc c ltac:(left)).
  pose proof (total_bytes_nonneg cps ltac:(intros; apply Hc; by right)) as Hnn.
  fold (total_bytes cps) in *. unfold total_bytes in Hsum at 1. cbn [foldr] in Hsum. fold (total_bytes cps) in Hsum.
  rewrite wrap64_small by mlia.
  rewrite IH; [unfold total_bytes; cbn [foldr]; lia|intros; apply Hc; by right|lia|lia].
Qed.

(** The loop stops at the first prefix whose removal fits the budget. *)
Lemma size_candidates_spec total max acc l :
  (∀ c, c ∈ l → (0 <= size_of c)%Z) → (0 <= acc)%Z → (0 <= max)%Z →
  (acc + total_bytes l)%Z = total → (total <= u64_max)%Z →
  ∃ k, size_candidates total max acc l = take k l ∧ (total_bytes (drop k l) <= max)%Z ∧
    ∀ j, j < k → (max < total_bytes (drop j l))%Z.
Proof.
  revert acc. induction l as [|c l IH]; intros acc Hc Hacc Hmax Htot Hbound; cbn [size_candidates].
  { exists 0. split_and!; [done|simpl; lia|lia]. }
  pose proof (Hc c ltac:(left)).
  pose proof (total_bytes_nonneg l ltac:(intros; apply Hc; by right)) as Hnn.
  change (total_bytes (c :: l)) with (size_of c + total_bytes l)%Z in Htot.
  case_decide as Hle.
  - exists 0. split_and!; [done| |lia]. rewrite drop_0.
    change (total_bytes (c :: l)) with (size_of c + total_bytes l)%Z. mlia.
  - rewrite wrap64_small by mlia.
    destruct (IH (acc + size_of c)%Z) as (k & Hk & Hfit & Hmin);
      [intros; apply Hc; by right|lia|done|lia|done|].
    exists (S k). rewrite Hk. split_and!; [done|done|]. intros [|j] Hj.
    + rewrite drop_0. change (total_bytes (c :: l)) with (size_of c + total_bytes l)%Z. mlia.
    + apply Hmin. lia.
Qed.

Lemma total_bytes_perm l l' : l ≡ₚ l' → total_bytes l = total_bytes l'.
Proof. induction 1; simpl in *; lia. Qed.

Lemma evaluate_size_minimal cps b m :
  NoDup (cp_id <$> cps) → sizes_ok cps → (0 <= b)%Z →
  ∃ k, evaluate_size cps b m ≡ₚ
         cp_id <$> take (k `min` (length cps - Z.to_nat m)) (sort_by_age cps) ∧
       (total_bytes (drop k (sort_by_age cps)) <= b)%Z ∧
       ∀ j, j < k → (b < total_bytes (drop j (sort_by_age cps)))%Z.
Proof.
  intros Hnd [Hsz Htot] Hb. unfold evaluate_size.
  rewrite total_size_eq by (try done; lia). rewrite Z.add_0_l.
  pose proof (total_bytes_perm _ _ (sort_by_age_perm cps)) as Hperm. case_decide as Hle.
  - exists 0. split_and!; [done|rewrite drop_0; lia|lia].
  - destruct (size_candidates_spec (total_bytes cps) b 0 (sort_by_age cps)) as (k & -> & Hfit & Hmin).
    + intros c. rewrite (sort_by_age_perm cps). apply Hsz.
    + done.
    + done.
    + lia.
    + done.
    + exists k. split_and!; [by apply prefix_min_retention|done|done].
Qed.

(** * The executor *)

Lemma evaluate_protected_eq order cps s now :
  evaluate_protected order cps s now =
  sorted_ids (protected_removals order cps (list_to_set (evaluate cps s now))).
Proof. done. Qed.

Lemma latest_not_candidate cps s now latest :
  (1 <= strategy_min_retention s)%Z → max_by_age cps = Some latest →
  cp_id latest ∉ (list_to_set (evaluate cps s now) : gset string).
Proof.
  intros Hm Hl. rewrite elem_of_list_to_set. intros Hx%evaluate_not_newest. apply Hx.
  apply latest_newest; [done|lia].
Qed.

Lemma needs_restores order cps R y :
  (∀ l, order l ≡ₚ l) → NoDup (cp_id <$> cps) →
  needs order cps R y ↔
  ∃ d, d ∈ cps ∧ checkpoint_type d = Delta ∧ cp_id d ∉ R ∧ restores_through cps d y.
Proof.
  intros Ho Hnd. unfold needs. split; intros (d & ? & ? & ? & ?); exists d;
    (split_and!; [done..|]); by apply (ancestor_restores order Ho cps d y Hnd).
Qed.

Lemma evaluate_protected_safe order cps s now d y :
  (∀ l, order l ≡ₚ l) → NoDup (cp_id <$> cps) → (1 <= strategy_min_retention s)%Z →
  d ∈ cps → checkpoint_type d = Delta → cp_id d ∉ evaluate_protected order cps s now →
  restores_through cps d y → y ∉ evaluate_protected order cps s now.
Proof.
  intros Ho Hnd Hm Hd Ht Hs Hr. rewrite evaluate_protected_eq, elem_of_sorted_ids in *.
  intros Hy. eapply protected_removals_safe; [done| |exact Hy|].
  - intros latest. by apply latest_not_candidate.
  - apply needs_restores; [done..|]. eauto.
Qed.

(** With at least one retained row, cleanup deletes only candidates, never
    an ancestor on the restore chain of a delta it keeps, and keeps a candidate
    only because the root of its chain group is no candidate or because a
    delta that survives restores through it. *)
Theorem evaluate_protected_correct order cps s now (D := evaluate_protected order cps s now) :
  (∀ l, order l ≡ₚ l) → NoDup (cp_id <$> cps) → (1 <= strategy_min_retention s)%Z →
  (∀ x, x ∈ D → x ∈ evaluate cps s now) ∧
  (∀ d y, d ∈ cps → checkpoint_type d = Delta → cp_id d ∉ D → restores_through cps d y → y ∉ D) ∧
  (∀ x, x ∈ evaluate cps s now → x ∉ D →
     (∃ root, chain_root_map (build_graph cps) !! x = Some root ∧ root ≠ x ∧
        root ∉ evaluate cps s now) ∨
     (∃ d, d ∈ cps ∧ checkpoint_type d = Delta ∧ cp_id d ∉ D ∧ restores_through cps d x)).
Proof.
  intros Ho Hnd Hm. split_and!.
  - intros x. subst D. rewrite evaluate_protected_eq, elem_of_sorted_ids.
    intros Hx%protected_removals_sub. by apply elem_of_list_to_set in Hx.
  - intros d y. by apply evaluate_protected_safe.
  - intros x Hx HxD. subst D. setoid_rewrite evaluate_protected_eq. setoid_rewrite elem_of_sorted_ids.
    rewrite evaluate_protected_eq, elem_of_sorted_ids in HxD.
    apply protected_removals_tight in HxD as [(m & Hmax & <-)|[(r & ? & ? & Hr)|Hn]];
      [| | |by apply elem_of_list_to_set].
    + exfalso. eapply latest_not_candidate; [done..|]. by apply elem_of_list_to_set.
    + left. exists r. by rewrite elem_of_list_to_set in Hr.
    + right. by apply needs_restores in Hn.
Qed.

Lemma size_by_id_lookup cps c :
  NoDup (cp_id <$> cps) → c ∈ cps →
  foldl (λ m c, <[cp_id c := size_of c]> m) (∅ : gmap string Z) cps !! cp_id c = Some (size_of c).
Proof.
  induction cps as [|d l IH] using rev_ind; [set_solver|].
  rewrite fmap_app, foldl_snoc. intros (Hnd & Hdis & _)%NoDup_app Hc.
  apply elem_of_app in Hc as [Hc|Hc].
  - rewrite lookup_insert_ne; [by apply IH|]. intros Heq.
    apply (Hdis (cp_id c)); [by apply list_elem_of_fmap_2|]. simpl. rewrite <-Heq. left.
  - apply list_elem_of_singleton in Hc as ->. by rewrite lookup_insert_eq.
Qed.

(** The rows whose ids are in [R]. *)
Definition rows_in (R : gset string) (cps : list CheckpointStorageMetadata) :
    list CheckpointStorageMetadata := filter (λ c, cp_id c ∈ R) cps.

Lemma rows_in_ids R cps :
  NoDup (cp_id <$> cps) → R ⊆ ids cps → cp_id <$> rows_in R cps ≡ₚ elements R.
Proof.
  intros Hnd Hsub. apply NoDup_Permutation; [by apply NoDup_fmap_filter|apply NoDup_elements|].
  intros x. rewrite elem_of_elements, list_elem_of_fmap. unfold rows_in. setoid_rewrite list_elem_of_filter. split.
  - intros (c & -> & ? & ?). done.
  - intros Hx. pose proof (Hsub x Hx) as (c & ? & <-)%elem_of_ids. eauto 6.
Qed.

Lemma total_bytes_filter (P : CheckpointStorageMetadata → Prop) `{!∀ c, Decision (P c)} cps :
  (∀ c, c ∈ cps → (0 <= size_of c)%Z) → (total_bytes (filter P cps) <= total_bytes cps)%Z.
Proof.
  induction cps as [|c cps IH]; intros Hc; [done|]. rewrite filter_cons.
  pose proof (Hc c ltac:(left)). specialize (IH ltac:(intros; apply Hc; by right)).
  change (total_bytes (c :: cps)) with (size_of c + total_bytes cps)%Z.
  case_decide; [|lia]. change (total_bytes (c :: filter P cps)) with (size_of c + total_bytes (filter P cps))%Z. lia.
Qed.

(** Summing looked-up sizes with wrap-around is summing the rows, when the sum
    fits. *)
Lemma freed_sum (f : string → Z) (rows : list CheckpointStorageMetadata) (xs : list string) :
  cp_id <$> rows ≡ₚ xs → (∀ c, c ∈ rows → f (cp_id c) = size_of c ∧ (0 <= size_of c)%Z) →
  (total_bytes rows <= u64_max)%Z →
  foldr (λ x a, wrap64 (f x + a)) 0%Z xs = total_bytes rows.
Proof.
  intros Hp. apply symmetry, Permutation_map_inv in Hp as (l & -> & Hl).
  intros Hf. rewrite (total_bytes_perm _ _ Hl). setoid_rewrite Hl in Hf. clear Hl rows.
  induction l as [|c l IH]; intros Hb; [done|]. cbn [foldr map].
  pose proof (Hf c ltac:(left)) as [Hfc Hc].
  assert (Hl : ∀ c, c ∈ l → f (cp_id c) = size_of c ∧ (0 <= size_of c)%Z) by (intros; apply Hf; by right).
  pose proof (total_bytes_nonneg l ltac:(intros; by apply Hl)).
  change (total_bytes (c :: l)) with (size_of c + total_bytes l)%Z in *.
  rewrite IH, Hfc; [|done|lia]. apply wrap64_small. mlia.
Qed.

(** The result of a cleanup run is consistent, whatever the strategy: the
    newest row is never deleted, the ids are sorted and distinct, and the
    counts and the freed bytes are those of the rows deleted and kept. *)
Theorem cleanup_accounting order cps s now (r := evaluate_protected_with_result order cps s now)
    (R : gset string := list_to_set (deleted_checkpoint_ids r)) :
  NoDup (cp_id <$> cps) → sizes_ok cps →
  (∀ latest, max_by_age cps = Some latest → cp_id latest ∉ R) ∧
  Sorted String.le (deleted_checkpoint_ids r) ∧ NoDup (deleted_checkpoint_ids r) ∧
  deleted_count r = Z.of_nat (length (rows_in R cps)) ∧
  freed_bytes r = total_bytes (rows_in R cps) ∧
  remaining_count r = Z.of_nat (length (filter (λ c, cp_id c ∉ R) cps)).
Proof.
  intros Hnd [Hsz Htot]. set (T := protected_removals order cps (list_to_set (evaluate cps s now))).
  assert (HR : R = T).
  { subst R r. simpl. fold T. apply set_eq. intros x.
    by rewrite elem_of_list_to_set, elem_of_sorted_ids. }
  assert (HT : T ⊆ ids cps).
  { intros x Hx%protected_removals_sub. apply elem_of_list_to_set in Hx. by eapply evaluate_ids. }
  pose proof (rows_in_ids T cps Hnd HT) as Hrows.
  assert (Hlen : length (sorted_ids T) = length (rows_in T cps)).
  { rewrite sorted_ids_perm, <-Hrows. apply length_fmap. }
  rewrite HR. subst r. simpl. fold T. split_and!; [|auto with wf|auto with wf|by rewrite Hlen| |].
  - intros latest Hl. subst T. unfold protected_removals. case_decide; [set_solver|].
    rewrite Hl. set_solver.
  - apply freed_sum; [done| |].
    + intros c [_ Hc]%list_elem_of_filter. rewrite size_by_id_lookup by done. auto.
    + etrans; [by apply total_bytes_filter|done].
  - rewrite Hlen. unfold rows_in.
    pose proof (length_filter_complement (λ c, cp_id c ∈ T) cps). mlia.
Qed.

(** No strategy proposes an unknown row or one of the [min_retention]
    newest rows, and the strategies that depend on age propose nothing when the
    clock is unavailable or reads before the epoch. *)
Theorem evaluate_bounded cps s now :
  NoDup (cp_id <$> cps) →
  (∀ x, x ∈ evaluate cps s now →
     x ∈ ids cps ∧ x ∉ newest (Z.to_nat (strategy_min_retention s)) cps) ∧
  (clock_valid now = false →
     match s with TimeBased _ _ | Tiered _ _ => evaluate cps s now = [] | _ => True end).
Proof.
  intros Hnd. split.
  - intros x Hx. split; [by eapply evaluate_ids|by apply evaluate_not_newest in Hx].
  - destruct s, now as [t|]; simpl; try done; unfold evaluate_time, evaluate_tiered, valid_now;
      intros Hv%bool_decide_eq_false; by rewrite decide_False.
Qed.

(** Count cleanup proposes exactly the oldest rows beyond the larger of
    the limit and the retention minimum. *)
Theorem evaluate_count_correct cps n m :
  NoDup (cp_id <$> cps) → (0 <= n)%Z → (0 <= m)%Z →
  evaluate_count cps n m ≡ₚ
  cp_id <$> take (length cps - Z.to_nat (Z.max n m)) (sort_by_age cps).
Proof. apply evaluate_count_oldest. Qed.

(** Size cleanup proposes the shortest oldest-first prefix whose removal
    brings the total within the budget, cut short by the retention minimum. *)
Theorem evaluate_size_correct cps b m :
  NoDup (cp_id <$> cps) → sizes_ok cps → (0 <= b)%Z →
  ∃ k, evaluate_size cps b m ≡ₚ
         cp_id <$> take (k `min` (length cps - Z.to_nat m)) (sort_by_age cps) ∧
       (total_bytes (drop k (sort_by_age cps)) <= b)%Z ∧
       ∀ j, j < k → (b < total_bytes (drop j (sort_by_age cps)))%Z.
Proof. apply evaluate_size_minimal. Qed.

(** * Concrete rows *)

Definition mk_row (x : string) (t : CheckpointType) (ts : Z) (prev root : option string) (size : Z) :
    CheckpointStorageMetadata :=
  {| cp_id := x; entity_type := "workflow"; entity_id := "e"; parent_entity_id := None;
     checkpoint_type := t; timestamp := ts; cp_status := Active; previous_checkpoint_id := prev;
     base_checkpoint_id := match t with Full => None | Delta => root end; chain_root_id := root;
     chain_position := None; blob_size := Some size; tags := None; custom_fields := None |}.

(** Two generations: [f1 <- d1] and [f2 <- d2]. *)
Definition two_generations : list CheckpointStorageMetadata :=
  [mk_row "f1" Full 1000 None (Some "f1") 10; mk_row "d1" Delta 2000 (Some "f1") (Some "f1") 1;
   mk_row "f2" Full 3000 (Some "d1") (Some "f2") 10; mk_row "d2" Delta 4000 (Some "f2") (Some "f2") 1].

Lemma two_generations_distinct : NoDup (cp_id <$> two_generations).
Proof. by apply (bool_decide_eq_true_1 _); vm_compute. Qed.

Lemma two_generations_sizes : sizes_ok two_generations.
Proof.
  split; [|by vm_compute]. intros c Hc. unfold two_generations in Hc.
  repeat (apply elem_of_cons in Hc as [->|Hc]; [by vm_compute|]). by apply not_elem_of_nil in Hc.
Qed.

Lemma evaluate_protected_correct_witness :
  evaluate two_generations (CountBased 1 1) None = ["d1"; "f1"; "f2"] ∧
  evaluate_protected id two_generations (CountBased 1 1) None = ["d1"; "f1"] ∧
  (∀ d y, d ∈ two_generations → checkpoint_type d = Delta →
     cp_id d ∉ evaluate_protected id two_generations (CountBased 1 1) None →
     restores_through two_generations d y →
     y ∉ evaluate_protected id two_generations (CountBased 1 1) None).
Proof.
  split; [by vm_compute|]. split; [by vm_compute|].
  apply (evaluate_protected_correct id two_generations (CountBased 1 1) None).
  - intros l. reflexivity.
  - exact two_generations_distinct.
  - simpl. lia.
Defined.

Lemma cleanup_accounting_witness :
  freed_bytes (evaluate_protected_with_result id two_generations (CountBased 1 1) None) = 11%Z ∧
  Sorted String.le (deleted_checkpoint_ids
    (evaluate_protected_with_result id two_generations (CountBased 1 1) None)).
Proof.
  split; [by vm_compute|].
  apply (cleanup_accounting id two_generations (CountBased 1 1) None
    two_generations_distinct two_generations_sizes).
Defined.

Lemma evaluate_bounded_witness :
  evaluate two_generations (TimeBased 1 1) (Some 4500%Z) = ["d1"; "f1"; "f2"] ∧
  evaluate two_generations (TimeBased 1 1) None = [] ∧
  (∀ x, x ∈ evaluate two_generations (TimeBased 1 1) (Some 4500%Z) →
     x ∈ ids two_generations ∧ x ∉ newest 1 two_generations).
Proof.
  split; [by vm_compute|]. split.
  - by apply (evaluate_bounded two_generations (TimeBased 1 1) None two_generations_distinct).
  - apply (evaluate_bounded two_generations (TimeBased 1 1) (Some 4500%Z) two_generations_distinct).
Defined.

Lemma evaluate_count_correct_witness :
  evaluate_count two_generations 2 1 ≡ₚ ["f1"; "d1"].
Proof.
  apply (evaluate_count_correct two_generations 2 1 two_generations_distinct); lia.
Defined.

Lemma evaluate_size_correct_witness :
  evaluate_size two_generations 11 0 = ["d1"; "f1"] ∧
  ∃ k, evaluate_size two_generations 11 0 ≡ₚ
         cp_id <$> take (k `min` (length two_generations - Z.to_nat 0)) (sort_by_age two_generations) ∧
       (total_bytes (drop k (sort_by_age two_generations)) <= 11)%Z ∧
       ∀ j, j < k → (11 < total_bytes (drop j (sort_by_age two_generations)))%Z.
Proof.
  split; [by vm_compute|].
  apply (evaluate_size_correct two_generations 11 0 two_generations_distinct two_generations_sizes). lia.
Defined.

(** One window of one day over the whole history. *)
Definition day_tier : RetentionTier :=
  {| min_age_days := 0; max_age_days := None; retention_interval_days := 1 |}.

Lemma evaluate_tiered_correct_witness :
  evaluate two_generations (Tiered [day_tier] 0) (Some 5000%Z) = ["d1"; "f1"; "f2"] ∧
  ("d2" ∈ evaluate two_generations (Tiered [day_tier] 0) (Some 5000%Z) ↔
   (∃ t c c', t ∈ [day_tier] ∧ retention_interval_days t ≠ 0%Z ∧ cp_id c = "d2" ∧
      outlived 5000 t two_generations c c') ∧ "d2" ∉ newest (Z.to_nat 0) two_generations).
Proof.
  split; [by vm_compute|].
  apply (evaluate_tiered_correct two_generations [day_tier] 0 5000 "d2" two_generations_distinct). lia.
Defined.

(** A retention minimum of zero leaves a gap: the newest row is put back
    after the bases were settled, so when it is a delta its base can be
    deleted under it.  Here every row is over age and the newest delta [d2]
    survives without [f2]. *)
Theorem latest_delta_loses_base :
  let D := evaluate_protected id two_generations (TimeBased 1 0) (Some 1000000%Z) in
  D = ["d1"; "f1"; "f2"] ∧
  ∃ d, d ∈ two_generations ∧ checkpoint_type d = Delta ∧ cp_id d ∉ D ∧
    restores_through two_generations d "f2" ∧ "f2" ∈ D.
Proof.
  assert (HD : evaluate_protected id two_generations (TimeBased 1 0) (Some 1000000%Z) =
    ["d1"; "f1"; "f2"]) by by vm_compute.
  cbv zeta. rewrite HD. split; [done|].
  exists (mk_row "d2" Delta 4000 (Some "f2") (Some "f2") 1).
  split; [unfold two_generations; do 3 right; left|]. split; [done|].
  split; [by apply (bool_decide_eq_true_1 _); vm_compute|].
  split; [|by apply (bool_decide_eq_true_1 _); vm_compute].
  exists "f2". split_and!; [done|done|apply rtc_refl].
Qed.
