(* ===== verification/DeltaChain.v ===== *)
(** Restoring a state from its delta chain: checkpoint-base/src/delta/diff.rs
    and delta/restorer.rs.

    [CheckpointLoader] and [DiffCalculator] are the interfaces of diff.rs; the
    blob decoder of the serializer is an argument.  The restorer walks previous
    links from the target to a base row and replays the deltas on top of the
    base snapshot. *)

From S2P Require Import Prelude Json CheckpointGraph CleanupPolicy.

(** [CheckpointError]; the wrapped storage and I/O errors are kept as text. *)
Inductive CheckpointError : Type :=
| NotFound (id : string)
| Validation (reason : string)
| Corrupted (id reason : string)
| Storage (e : string)
| Serialization (e : string)
| VersionIncompatible (current required : string)
| DeltaChainBroken (checkpoint_id missing_id : string)
| DeltaChainTooLong (length max : Z)
| Branch (e : string)
| Strategy (e : string)
| Coordinator (e : string)
| MergeConflict (actor : string) (files : list string)
| PartialMerge (completed : list string) (actor : string) (files : list string)
| Io (e : string)
| Internal (e : string).

(** [BaseCheckpointCore<DS, SS>] *)
Record BaseCheckpointCore (DS SS : Type) : Type := {
  core_id : string;
  core_type : option CheckpointType;
  core_base_checkpoint_id : option string;
  core_previous_checkpoint_id : option string;
  delta : option DS;
  snapshot : option SS;
  core_timestamp : option Z;
  core_metadata : option (gmap string value);
  format_version : option string;
}.
Arguments delta {_ _} _.
Arguments snapshot {_ _} _.

(** The trait [CheckpointLoader]; [Data] is the blob type, [Vec<u8>]. *)
Record CheckpointLoader (Data : Type) : Type := {
  load_metadata : string → result CheckpointError (option CheckpointStorageMetadata);
  load_checkpoint_data : string → result CheckpointError (option Data);
}.
Arguments load_metadata {_} _.
Arguments load_checkpoint_data {_} _.

(** The trait [DiffCalculator]. *)
Class DiffCalculator (SS DS : Type) : Type := {
  calculate_diff : SS → SS → result CheckpointError DS;
  apply_delta : SS → DS → result CheckpointError SS;
}.

(** The default method [merge_deltas]. *)
Definition merge_deltas {SS DS} `{DiffCalculator SS DS} (base : SS) (first second : DS) :
    result CheckpointError DS :=
  intermediate ← apply_delta base first;
  current ← apply_delta intermediate second;
  calculate_diff base current.

(** What the restorer relies on: replaying a diff reproduces the newer state,
    for the pairs of states the calculator can express. *)
Class LawfulDiff (SS DS : Type) `{DiffCalculator SS DS} (diffable : SS → SS → Prop) : Prop :=
  replay_diff : ∀ s t d, diffable s t → calculate_diff s t = Ok d → apply_delta s d = Ok t.

Definition MAX_DELTA_CHAIN_LEN : nat := Z.to_nat 10000.
Lemma MAX_DELTA_CHAIN_LEN_Z : Z.of_nat MAX_DELTA_CHAIN_LEN = 10000%Z.
Proof. unfold MAX_DELTA_CHAIN_LEN. lia. Qed.
#[global] Opaque MAX_DELTA_CHAIN_LEN.

Section restorer.
  Context {Data : Type}.
  Variable loader : CheckpointLoader Data.

(** The loop of [build_chain].  [room] is [MAX_DELTA_CHAIN_LEN - chain.len()]. *)
Fixpoint chain_loop (room : nat) (visited : gset string) (chain : list CheckpointStorageMetadata)
    (current_id : option string) : result CheckpointError (list CheckpointStorageMetadata) :=
  match current_id with
  | None => Ok chain
  | Some x =>
      match room with
      | 0 => Err (DeltaChainTooLong (wrap32 (Z.of_nat (length chain + 1)))
                    (wrap32 (Z.of_nat MAX_DELTA_CHAIN_LEN)))
      | S room' =>
          if decide (x ∈ visited) then Err (Corrupted x "circular reference in delta chain")
          else
            o ← load_metadata loader x;
            meta ← ok_or (NotFound x) o;
            if is_base meta then Ok (chain ++ [meta])
            else chain_loop room' ({[x]} ∪ visited) (chain ++ [meta]) (previous_checkpoint_id meta)
      end
  end.

(** [build_chain] *)
Definition build_chain (target_id : string) :
    result CheckpointError (list CheckpointStorageMetadata) :=
  chain ← chain_loop MAX_DELTA_CHAIN_LEN ∅ [] (Some target_id);
  match last chain with
  | Some first =>
      match checkpoint_type first with
      | Full => Ok (reverse chain)
      | Delta => Err (Corrupted (cp_id first) "delta chain has no full baseline")
      end
  | None => Ok (reverse chain)
  end.

Section replay.
  Context {SS DS : Type} `{DiffCalculator SS DS}.
  (** [CheckpointSerializer::auto_deserialize] *)
  Variable auto_deserialize : Data → result CheckpointError (BaseCheckpointCore DS SS).

Definition load_envelope (x : string) : result CheckpointError (BaseCheckpointCore DS SS) :=
  o ← load_checkpoint_data loader x;
  data ← ok_or (NotFound x) o;
  auto_deserialize data.

(** [for meta in chain.iter().skip(1) { .. }] *)
Fixpoint replay (metas : list CheckpointStorageMetadata) (full_state : SS) : result CheckpointError SS :=
  match metas with
  | [] => Ok full_state
  | meta :: rest =>
      envelope ← load_envelope (cp_id meta);
      d ← ok_or (Corrupted (cp_id meta) "delta checkpoint missing delta data") (delta envelope);
      s ← apply_delta full_state d;
      replay rest s
  end.

(** [restore_full_state] *)
Definition restore_full_state (target_checkpoint_id : string) : result CheckpointError SS :=
  chain ← build_chain target_checkpoint_id;
  base ← ok_or (DeltaChainBroken target_checkpoint_id "base") (head chain);
  base_envelope ← load_envelope (cp_id base);
  full_state ← ok_or (Corrupted (cp_id base) "base checkpoint missing snapshot")
                 (snapshot base_envelope);
  replay (tail chain) full_state.
End replay.
End restorer.

(** * The chain *)

Section chain.
  Context {Data : Type}.
  Variable loader : CheckpointLoader Data.

(** The rows a restore of [x] needs, target first. *)
Inductive restore_path : string → list CheckpointStorageMetadata → Prop :=
| path_end x m :
    load_metadata loader x = Ok (Some m) → is_base m = true ∨ previous_checkpoint_id m = None →
    restore_path x [m]
| path_link x m p l :
    load_metadata loader x = Ok (Some m) → is_base m = false → previous_checkpoint_id m = Some p →
    restore_path p l → restore_path x (m :: l).

(** The step of the walk, between requested ids. *)
Definition walk_step (x y : string) : Prop :=
  ∃ m, load_metadata loader x = Ok (Some m) ∧ is_base m = false ∧ previous_checkpoint_id m = Some y.

Lemma restore_path_functional x l l' : restore_path x l → restore_path x l' → l = l'.
Proof.
  intros Hl. revert l'. induction Hl as [x m Hm He|x m p l Hm Hb Hp _ IH]; intros l' Hl';
    destruct Hl' as [x m' Hm' He'|x m' p' l' Hm' Hb' Hp' Hl']; rewrite Hm in Hm'; simplify_eq/=.
  - done.
  - destruct He; congruence.
  - destruct He'; congruence.
  - f_equal. by apply IH.
Qed.

(** A walk that ends does not come back: going round would make the path its
    own proper suffix. *)
Lemma restore_path_suffix x y l :
  rtc walk_step x y → restore_path x l → ∃ l', restore_path y l' ∧ length l' ≤ length l ∧ (x ≠ y → length l' < length l).
Proof.
  intros Hr. revert l. induction Hr as [x|x z y (m & Hm & Hb & Hp) _ IH]; intros l Hl.
  { exists l. split_and!; [done|lia|done]. }
  destruct Hl as [x m' Hm' He|x m' p l Hm' Hb' Hp' Hl]; rewrite Hm in Hm'; simplify_eq/=.
  - destruct He; congruence.
  - destruct (IH l Hl) as (l' & ? & ? & _). exists l'. split_and!; [done|lia|lia].
Qed.

Lemma restore_path_acyclic x l : restore_path x l → ¬ tc walk_step x x.
Proof.
  intros Hl Hc.
  assert (∃ z, walk_step x z ∧ rtc walk_step z x) as (z & (m & Hm & Hb & Hp) & Hz).
  { clear Hl. inversion Hc as [? ? Hxy|? y ? Hxy Hyz]; simplify_eq.
    - by exists x.
    - exists y. split; [done|by apply tc_rtc]. }
  inversion Hl as [x' m' Hm' He|x' m' p l' Hm' Hb' Hp' Hl']; rewrite Hm in Hm'; simplify_eq/=.
  - destruct He; congruence.
  - destruct (restore_path_suffix _ x _ Hz Hl') as (l'' & H'' & Hlen & _).
    assert (m' :: l' = l'') as <- by by apply (restore_path_functional x). simpl in *. lia.
Qed.

(** The loop from [x] after the rows [chain]. *)
Lemma chain_loop_complete room V chain x l :
  restore_path x l → length l ≤ room → (∀ y, rtc walk_step x y → y ∉ V) →
  chain_loop loader room V chain (Some x) = Ok (chain ++ l).
Proof.
  intros Hl. revert room V chain.
  induction Hl as [x m Hm He|x m p l Hm Hb Hp Hl IH]; intros [|room] V chain Hroom HV;
    simpl in Hroom; try lia; cbn [chain_loop].
  - rewrite decide_False by by apply HV. rewrite Hm. simpl.
    destruct (is_base m) eqn:Hb; [done|]. destruct He as [?|Hp]; [done|]. rewrite Hp.
    by destruct room.
  - rewrite decide_False by by apply HV. rewrite Hm. simpl. rewrite Hb, Hp.
    assert (Hstep : walk_step x p) by by exists m.
    rewrite IH, <-app_assoc; [done|lia|]. intros y Hy Hin.
    apply elem_of_union in Hin as [->%elem_of_singleton|Hin].
    + eapply (restore_path_acyclic x (m :: l)); [by eapply path_link|].
      eapply tc_rtc_r; [by apply tc_once|done].
    + eapply HV; [|done]. by eapply rtc_l.
Qed.

Lemma chain_loop_sound room V chain x c :
  chain_loop loader room V chain (Some x) = Ok c →
  ∃ l, c = chain ++ l ∧ restore_path x l ∧ length l ≤ room.
Proof.
  revert V chain x. induction room as [|room IH]; intros V chain x; cbn [chain_loop]; [done|].
  case_decide; [done|]. destruct (load_metadata loader x) as [[m|]|e] eqn:Hm; simpl; [|done|done].
  destruct (is_base m) eqn:Hb.
  { intros [= <-]. exists [m]. split_and!; [done|apply path_end; auto|simpl; lia]. }
  destruct (previous_checkpoint_id m) as [p|] eqn:Hp.
  - intros (l & -> & Hl & Hlen)%IH. exists (m :: l). rewrite <-app_assoc.
    split_and!; [done|by eapply path_link|simpl; lia].
  - intros Hc. exists [m]. split_and!; [|apply path_end; auto|simpl; lia].
    by destruct room; simpl in Hc; injection Hc.
Qed.

(** The chain is the restore path, base first, if it is short enough and
    starts at a FULL row. *)
Lemma build_chain_iff x c :
  build_chain loader x = Ok c ↔
  ∃ l b, restore_path x l ∧ length l ≤ MAX_DELTA_CHAIN_LEN ∧
    last l = Some b ∧ checkpoint_type b = Full ∧ c = reverse l.
Proof.
  unfold build_chain. generalize MAX_DELTA_CHAIN_LEN. intros max. rewrite result_bind_Ok. split.
  - intros (l' & (l & -> & Hl & Hlen)%chain_loop_sound & Hr). simpl in Hr.
    assert (Hne : l ≠ []) by by destruct Hl. exists l.
    destruct (last l) as [b|] eqn:Hb; [|by apply last_None in Hb].
    exists b. destruct (checkpoint_type b) eqn:Ht; [|done]. by simplify_eq.
  - intros (l & b & Hl & Hlen & Hb & Ht & ->). exists l.
    rewrite (chain_loop_complete max ∅ [] x l); [|done|done|set_solver]. simpl.
    by rewrite Hb, Ht.
Qed.

Lemma restore_path_head x l : restore_path x l → ∃ m, head l = Some m ∧ load_metadata loader x = Ok (Some m).
Proof. destruct 1; eauto. Qed.

Lemma restore_path_nodup x l :
  (∀ x m, load_metadata loader x = Ok (Some m) → cp_id m = x) →
  restore_path x l → NoDup (cp_id <$> l).
Proof.
  intros Hid Hl.
  assert (Hin : ∀ x l m, restore_path x l → m ∈ l → rtc walk_step x (cp_id m)).
  { clear x l Hl. induction 1 as [x m' Hm He|x m' p l Hm Hb Hp _ IH].
    - intros ->%list_elem_of_singleton. by rewrite (Hid x m').
    - intros [->|Hm']%elem_of_cons; [by rewrite (Hid x m')|].
      eapply rtc_l; [by exists m'|by apply IH]. }
  induction Hl as [x m Hm He|x m p l Hm Hb Hp Hl IH]; [apply NoDup_singleton|].
  rewrite fmap_cons. apply NoDup_cons. split; [|done].
  intros (m' & Heq & Hm')%list_elem_of_fmap.
  eapply (restore_path_acyclic x (m :: l)); [by eapply path_link|].
  eapply tc_rtc_r; [apply tc_once; by exists m|]. rewrite <-(Hid x m Hm), Heq. by eapply Hin.
Qed.

(** Every way the loop fails, with its cause. *)
Lemma chain_loop_error room V chain x e :
  (∀ y, y ∈ V → tc walk_step y x) →
  chain_loop loader room V chain (Some x) = Err e →
  (∃ y, rtc walk_step x y ∧ load_metadata loader y = Err e) ∨
  (∃ y, rtc walk_step x y ∧ load_metadata loader y = Ok None ∧ e = NotFound y) ∨
  (∃ y, rtc walk_step x y ∧ tc walk_step y y ∧
     e = Corrupted y "circular reference in delta chain") ∨
  (∃ y, nsteps walk_step room x y ∧
     e = DeltaChainTooLong (wrap32 (Z.of_nat (length chain + room + 1)))
           (wrap32 (Z.of_nat MAX_DELTA_CHAIN_LEN))).
Proof.
  revert V chain x. induction room as [|room IH]; intros V chain x HV; cbn [chain_loop].
  { intros [= <-]. do 3 right. exists x. rewrite Nat.add_0_r. split; [constructor|done]. }
  case_decide as Hx.
  { intros [= <-]. do 2 right. left. exists x. split_and!; [done|by apply HV|done]. }
  destruct (load_metadata loader x) as [[m|]|e'] eqn:Hm; simpl.
  - destruct (is_base m) eqn:Hb; [done|].
    destruct (previous_checkpoint_id m) as [p|] eqn:Hp; [|by destruct room].
    assert (Hstep : walk_step x p) by by exists m.
    intros He. apply IH in He as [(y & ? & ?)|[(y & ? & ? & ?)|[(y & ? & ? & ?)|(y & ? & Hl)]]].
    + left. exists y. split; [by eapply rtc_l|done].
    + right; left. exists y. split; [by eapply rtc_l|done].
    + do 2 right. left. exists y. split; [by eapply rtc_l|done].
    + do 3 right. exists y. split; [by econstructor|]. rewrite Hl, length_app. simpl.
      do 3 f_equal. lia.
    + intros y [->%elem_of_singleton|Hy]%elem_of_union; [by apply tc_once|].
      eapply tc_r; [by apply HV|done].
  - intros [= <-]. right; left. by exists x.
  - intros [= <-]. left. by exists x.
Qed.
End chain.

(** A chain is built exactly when the previous links from the target lead,
    within the length limit, to a base row or to a FULL row without a
    predecessor; the chain then is that path, base first. *)
Theorem build_chain_correct {Data} (loader : CheckpointLoader Data) x c :
  build_chain loader x = Ok c ↔
  ∃ l b, restore_path loader x l ∧ length l ≤ MAX_DELTA_CHAIN_LEN ∧
    last l = Some b ∧ checkpoint_type b = Full ∧ c = reverse l.
Proof. apply build_chain_iff. Qed.

(** Every failure to build a chain is reported with its cause: the
    loader's own error, the missing row, a row on a cycle, more than
    [MAX_DELTA_CHAIN_LEN] links, or a path that ends in a delta. *)
Theorem build_chain_error {Data} (loader : CheckpointLoader Data) x e :
  build_chain loader x = Err e →
  (∃ y, rtc (walk_step loader) x y ∧ load_metadata loader y = Err e) ∨
  (∃ y, rtc (walk_step loader) x y ∧ load_metadata loader y = Ok None ∧ e = NotFound y) ∨
  (∃ y, rtc (walk_step loader) x y ∧ tc (walk_step loader) y y ∧
     e = Corrupted y "circular reference in delta chain") ∨
  (∃ y, nsteps (walk_step loader) MAX_DELTA_CHAIN_LEN x y ∧ e = DeltaChainTooLong 10001 10000) ∨
  (∃ l b, restore_path loader x l ∧ last l = Some b ∧ checkpoint_type b = Delta ∧
     e = Corrupted (cp_id b) "delta chain has no full baseline").
Proof.
  unfold build_chain.
  destruct (chain_loop loader MAX_DELTA_CHAIN_LEN ∅ [] (Some x)) as [l'|e'] eqn:Hc; simpl.
  - apply chain_loop_sound in Hc as (l & -> & Hl & _). simpl.
    destruct (last l) as [b|] eqn:Hb; [|done]. destruct (checkpoint_type b) eqn:Ht; [done|].
    intros [= <-]. do 4 right. by exists l, b.
  - intros [= ->]. apply chain_loop_error in Hc as [?|[?|[?|(y & Hy & ->)]]];
      [by auto|by auto|by auto| |set_solver].
    do 3 right. left. exists y. split; [done|].
    pose proof MAX_DELTA_CHAIN_LEN_Z as Hmax. cbn [length]. f_equal; rewrite wrap32_small by mlia; lia.
Qed.

(** * Cleanup and restore *)

(** [loader] serves the rows [cps]. *)
Definition serves {Data} (loader : CheckpointLoader Data) (cps : list CheckpointStorageMetadata) : Prop :=
  ∀ x, load_metadata loader x = Ok (snd <$> list_find (λ c, cp_id c = x) cps).

Lemma serves_lookup {Data} (loader : CheckpointLoader Data) cps x m :
  NoDup (cp_id <$> cps) → serves loader cps →
  load_metadata loader x = Ok (Some m) ↔ m ∈ cps ∧ cp_id m = x.
Proof.
  intros Hnd Hs. rewrite Hs. split.
  - intros [= Hf]. apply fmap_Some in Hf as ([i c] & (Hi & Hc & _)%list_find_Some & ->).
    split; [by eapply list_elem_of_lookup_2|done].
  - intros [Hm <-]. destruct (list_find (λ c, cp_id c = cp_id m) cps) as [[i c]|] eqn:Hf.
    + apply list_find_Some in Hf as (Hi & Hc & _). simpl. do 2 f_equal.
      apply (distinct_ids_eq cps); [done|by eapply list_elem_of_lookup_2|done|done].
    + apply list_find_None in Hf. rewrite Forall_forall in Hf. by destruct (Hf m Hm).
Qed.

(** The path of a row consists of the row and rows it restores through. *)
Lemma restore_path_rows {Data} (loader : CheckpointLoader Data) cps x l :
  NoDup (cp_id <$> cps) → serves loader cps → restore_path loader x l →
  ∀ m, m ∈ l → m ∈ cps ∧ rtc (row_link cps) x (cp_id m).
Proof.
  intros Hnd Hs Hl.
  assert (Hself : ¬ tc (walk_step loader) x x) by by eapply restore_path_acyclic.
  induction Hl as [x m Hm He|x m p l Hm Hb Hp Hl IH]; intros m'.
  - intros ->%list_elem_of_singleton. apply (serves_lookup _ cps) in Hm as [? <-]; [|done|done]. done.
  - apply (serves_lookup _ cps) in Hm as Hmx; [|done|done]. destruct Hmx as [Hin Hid].
    intros [->|Hm']%elem_of_cons; [by rewrite Hid|].
    destruct (IH ltac:(by eapply restore_path_acyclic) m' Hm') as [? Hr]. split; [done|].
    eapply rtc_l; [|done]. exists m. split_and!; [done..|]. intros ->. apply Hself.
    apply tc_once. by exists m.
Qed.

Lemma restore_path_mono {Data} (loader loader' : CheckpointLoader Data) x l :
  (∀ y m, m ∈ l → load_metadata loader y = Ok (Some m) → load_metadata loader' y = Ok (Some m)) →
  restore_path loader x l → restore_path loader' x l.
Proof.
  intros Hld Hl. induction Hl as [x m Hm He|x m p l Hm Hb Hp Hl IH].
  - apply path_end; [|done]. apply Hld; [left|done].
  - eapply path_link; [apply Hld; [left|done]|done|done|]. apply IH.
    intros. apply Hld; [by right|done].
Qed.

Lemma cleanup_keeps_path {Data} (loader loader' : CheckpointLoader Data) order cps s now d l
    (D := evaluate_protected order cps s now) :
  (∀ l, order l ≡ₚ l) → NoDup (cp_id <$> cps) → (1 <= strategy_min_retention s)%Z →
  serves loader cps → serves loader' (filter (λ c, cp_id c ∉ D) cps) →
  d ∈ cps → checkpoint_type d = Delta → cp_id d ∉ D →
  restore_path loader (cp_id d) l → restore_path loader' (cp_id d) l.
Proof.
  intros Ho Hnd Hm Hs Hs' Hd Ht HdD Hl.
  assert (Hkeep : ∀ m, m ∈ l → cp_id m ∉ D).
  { intros m Hml. pose proof (restore_path_rows loader cps _ _ Hnd Hs Hl m Hml) as [_ Hr].
    apply rtc_inv in Hr as [Heq|(z & (c & Hc & Hid & _ & Hp & Hne) & Hz)]; [by rewrite <-Heq|].
    assert (c = d) as -> by by apply (distinct_ids_eq cps).
    eapply evaluate_protected_safe; [done|done|done|exact Hd|done|done|].
    by exists z. }
  eapply restore_path_mono; [|done]. intros y m Hml Hy.
  apply (serves_lookup loader cps) in Hy as [? ?]; [|done|done].
  apply (serves_lookup loader' _ y m (NoDup_fmap_filter _ _ _ Hnd) Hs').
  split; [|done]. apply list_elem_of_filter. auto.
Qed.

(** C4: cleanup never breaks a restore: with at least one retained row, a
    delta that survives a cleanup run and whose chain could be built before has
    the same chain afterwards. *)
Theorem cleanup_preserves_restore {Data} (loader loader' : CheckpointLoader Data) order cps s now d c
    (D := evaluate_protected order cps s now) :
  (∀ l, order l ≡ₚ l) → NoDup (cp_id <$> cps) → (1 <= strategy_min_retention s)%Z →
  serves loader cps → serves loader' (filter (λ c, cp_id c ∉ D) cps) →
  d ∈ cps → checkpoint_type d = Delta → cp_id d ∉ D →
  build_chain loader (cp_id d) = Ok c → build_chain loader' (cp_id d) = Ok c.
Proof.
  intros Ho Hnd Hm Hs Hs' Hd Ht HdD (l & b & Hl & Hrest)%build_chain_iff.
  apply build_chain_iff. exists l, b. split; [|done]. by eapply cleanup_keeps_path.
Qed.

(** * Replay *)

Section history.
  Context {Data SS DS : Type} `{DiffCalculator SS DS} (diffable : SS → SS → Prop).
  Context `{!LawfulDiff SS DS diffable}.
  Variable loader : CheckpointLoader Data.
  Variable auto_deserialize : Data → result CheckpointError (BaseCheckpointCore DS SS).

(** The blobs of a chain (base first) record a history that ends in a state:
    a snapshot, then the diffs between successive states. *)
Inductive records : list CheckpointStorageMetadata → SS → Prop :=
| records_base m env s :
    load_envelope loader auto_deserialize (cp_id m) = Ok env → snapshot env = Some s →
    records [m] s
| records_delta c m env s t d :
    records c s → load_envelope loader auto_deserialize (cp_id m) = Ok env →
    delta env = Some d → diffable s t → calculate_diff s t = Ok d →
    records (c ++ [m]) t.

Lemma replay_app l1 l2 s :
  replay loader auto_deserialize (l1 ++ l2) s =
  (s' ← replay loader auto_deserialize l1 s; replay loader auto_deserialize l2 s').
Proof.
  revert s. induction l1 as [|m l1 IH]; intros s; simpl; [done|].
  destruct (load_envelope _ _ _) as [env|]; simpl; [|done].
  destruct (delta env) as [d|]; simpl; [|done]. destruct (apply_delta s d); simpl; auto.
Qed.

Lemma records_restore c t :
  records c t →
  ∃ m rest env s, c = m :: rest ∧ load_envelope loader auto_deserialize (cp_id m) = Ok env ∧
    snapshot env = Some s ∧ replay loader auto_deserialize rest s = Ok t.
Proof.
  induction 1 as [m env s He Hs|c m env s t d _ IH He Hd Hdiff Hc].
  - exists m, [], env, s. done.
  - destruct IH as (m0 & rest & env0 & s0 & -> & ? & ? & Hr).
    exists m0, (rest ++ [m]), env0, s0. split_and!; [done..|].
    rewrite replay_app, Hr. simpl. rewrite He. simpl. rewrite Hd. simpl.
    by rewrite (replay_diff s t d Hdiff Hc).
Qed.

Lemma restore_records x c t :
  build_chain loader x = Ok c → records c t →
  restore_full_state loader auto_deserialize x = Ok t.
Proof.
  intros Hc (m & rest & env & s & -> & He & Hs & Hr)%records_restore.
  unfold restore_full_state. rewrite Hc. simpl. rewrite He. simpl. by rewrite Hs.
Qed.
End history.

(** C1: restoring a checkpoint returns the state that was saved: if the chain
    is built and its blobs hold a snapshot and the diffs between successive
    states, replaying them yields the last state, for any calculator whose
    diffs replay. *)
Theorem restore_full_state_correct {Data SS DS} `{DiffCalculator SS DS} (diffable : SS → SS → Prop)
    `{!LawfulDiff SS DS diffable} (loader : CheckpointLoader Data) auto_deserialize x c t :
  build_chain loader x = Ok c → records diffable loader auto_deserialize c t →
  restore_full_state loader auto_deserialize x = Ok t.
Proof. intros Hc Hr. by eapply restore_records. Qed.

(** Merging two deltas is applying both. *)
Lemma merge_deltas_apply {SS DS} `{DiffCalculator SS DS} (diffable : SS → SS → Prop)
    `{!LawfulDiff SS DS diffable} base first second d s t :
  apply_delta base first = Ok s → apply_delta s second = Ok t → diffable base t →
  merge_deltas base first second = Ok d → apply_delta base d = Ok t.
Proof.
  intros Hs Ht Hdiff. unfold merge_deltas. rewrite Hs. simpl. rewrite Ht. simpl.
  by apply replay_diff.
Qed.

(** * Witnesses *)

(** A loader over a list of rows. *)
Definition row_loader {Data} (rows : list CheckpointStorageMetadata) (blobs : string → option Data) :
    CheckpointLoader Data :=
  {| load_metadata := λ x, Ok (snd <$> list_find (λ c, cp_id c = x) rows);
     load_checkpoint_data := λ x, Ok (blobs x) |}.

Lemma row_loader_serves {Data} rows (blobs : string → option Data) : serves (row_loader rows blobs) rows.
Proof. intros x. reflexivity. Qed.

Definition no_blobs (x : string) : option () := None.

(** Two deltas that point at each other. *)
Definition looped_rows : list CheckpointStorageMetadata :=
  [mk_row "a" Delta 1 (Some "b") (Some "r") 1; mk_row "b" Delta 2 (Some "a") (Some "r") 1].

Lemma build_chain_error_witness :
  let loader := row_loader looped_rows no_blobs in
  build_chain loader "a" = Err (Corrupted "a" "circular reference in delta chain") ∧
  ((∃ y, rtc (walk_step loader) "a" y ∧
      load_metadata loader y = Err (Corrupted "a" "circular reference in delta chain")) ∨
   (∃ y, rtc (walk_step loader) "a" y ∧ load_metadata loader y = Ok None ∧
      Corrupted "a" "circular reference in delta chain" = NotFound y) ∨
   (∃ y, rtc (walk_step loader) "a" y ∧ tc (walk_step loader) y y ∧
      Corrupted "a" "circular reference in delta chain" =
      Corrupted y "circular reference in delta chain") ∨
   (∃ y, nsteps (walk_step loader) MAX_DELTA_CHAIN_LEN "a" y ∧
      Corrupted "a" "circular reference in delta chain" = DeltaChainTooLong 10001 10000) ∨
   (∃ l b, restore_path loader "a" l ∧ last l = Some b ∧ checkpoint_type b = Delta ∧
      Corrupted "a" "circular reference in delta chain" =
      Corrupted (cp_id b) "delta chain has no full baseline")).
Proof.
  intros loader.
  assert (He : build_chain loader "a" = Err (Corrupted "a" "circular reference in delta chain"))
    by (vm_compute; reflexivity).
  split; [exact He|]. exact (build_chain_error loader "a" _ He).
Defined.

Lemma cleanup_preserves_restore_witness :
  let rows' := filter (λ c, cp_id c ∉ evaluate_protected id two_generations (CountBased 1 1) None)
                 two_generations in
  cp_id <$> rows' = ["f2"; "d2"] ∧
  build_chain (row_loader rows' no_blobs) "d2" =
  Ok [mk_row "f2" Full 3000 (Some "d1") (Some "f2") 10; mk_row "d2" Delta 4000 (Some "f2") (Some "f2") 1].
Proof.
  split; [vm_compute; reflexivity|].
  apply (cleanup_preserves_restore (row_loader two_generations no_blobs) _ id two_generations
    (CountBased 1 1) None (mk_row "d2" Delta 4000 (Some "f2") (Some "f2") 1)).
  - intros l. reflexivity.
  - exact two_generations_distinct.
  - simpl. lia.
  - apply row_loader_serves.
  - apply row_loader_serves.
  - unfold two_generations. do 3 right. left.
  - reflexivity.
  - by apply (bool_decide_eq_true_1 _); vm_compute.
  - vm_compute. reflexivity.
Defined.
