(* ===== verification/GitStore.v ===== *)
(** The object store behind the file checkpoints:
    checkpoint-file/src/git_store.rs with git_store/errors.rs, commit.rs,
    refs.rs, objects.rs and merge.rs (infra/checkpoint).

    Gitoxide holds the objects and the refs.  An object is stored under its hash
    and reads back as it was written; an id is that hash, its hex form appears
    in messages only.  Writing to the disk, lock files and retries on missing
    files are left out; the encoder's refusals, the validity of ref names, the
    text merge driver and the digest of names are arguments. *)

From S2P Require Import Prelude Strings Numbers.

(** * Constants *)

Definition REF_MAIN : string := "refs/wf/main".
Definition REF_EDIT_PREFIX : string := "refs/wf/edit/".
Definition REF_REVIEW_PREFIX : string := "refs/wf/review/".
Definition REF_FEAT_PREFIX : string := "refs/wf/feat/".
Definition REF_HUMAN : string := "refs/wf/human".
Definition TRAILER_ACTOR : string := "Wf-Actor".
Definition TRAILER_SESSION : string := "Wf-Session".
Definition TRAILER_TOOL : string := "Wf-Tool".
Definition TRAILER_STATE : string := "Wf-State".
Definition STATE_CONFLICT_UNRESOLVED : string := "conflict-unresolved".
Definition STATE_CONFLICT_RESOLVED : string := "conflict-resolved".
Definition TRAILER_CONFLICT_FILE : string := "Wf-Conflict-File".
Definition TRAILER_FEATURE : string := "Wf-Feature".
Definition TRAILER_MERGE_ID : string := "Wf-Merge-Id".
Definition SYSTEM_COMMITTER : string := "wf-checkpoint <system@local>".
Definition MAX_COMMIT_CAS_RETRIES : nat := 8.
Definition MODE_FILE : string := "100644".
Definition MODE_EXEC : string := "100755".
(** The mode of a subtree. *)
Definition MODE_TREE : string := "40000".

Inductive GitStoreError : Type :=
| Uninitialized (reason : string)
| RefNotFound (name : string)
| ObjectNotFound (id : string)
| Corrupt (id reason : string)
| InvalidInput (reason : string)
| RefConflict (name : string)
| Baseline (reason : string)
| Sync (reason : string)
| GitIo (reason : string).
#[export] Instance GitStoreError_eq_dec : EqDecision GitStoreError.
Proof. solve_decision. Defined.

(** * Text: commit.rs *)

Definition newline_char : ascii := "010"%char.
(** [str::lines]: a line ends at a newline, with the carriage return before it. *)
Fixpoint ended_lines (ws : list string) : list string :=
  match ws with
  | [] => []
  | [w] => if decide (w = "") then [] else [w]
  | w :: ws => default w (strip_last "013" w) :: ended_lines ws
  end.
Definition str_lines (s : string) : list string := ended_lines (split newline_char s).
(** [str::trim_end_matches], [str::trim_matches] with a set of characters. *)
Definition trim_end_of (f : ascii → bool) (s : string) : string :=
  String.string_of_list_ascii (reverse (drop_while f (reverse (String.list_ascii_of_string s)))).
Definition trim_of (f : ascii → bool) (s : string) : string :=
  String.string_of_list_ascii (drop_while f (String.list_ascii_of_string (trim_end_of f s))).
Definition is_char (c a : ascii) : bool := bool_decide (a = c).

(** The trailers of a message, from its last line up; the first line that is none
    ends them. *)
Definition trailer_line (line : string) : option (string * string) :=
  let trimmed := trim line in
  if decide (trimmed = "") then None
  else match split_once ":" trimmed with
  | Some (k, v) => let key := trim k in if decide (key = "") then None else if contains " " key then None else Some (key, trim v)
  | None => None
  end.
Fixpoint trailer_run (lines : list string) : list (string * string) :=
  match lines with
  | [] => []
  | line :: lines => match trailer_line line with Some kv => kv :: trailer_run lines | None => [] end
  end.
Definition trailers_of (message : string) : list (string * string) := reverse (trailer_run (reverse (str_lines message))).
Definition trailer (key message : string) : option string := snd <$> head (filter (λ kv, kv.1 = key) (trailers_of message)).
Definition trailers (key message : string) : list string := snd <$> filter (λ kv, kv.1 = key) (trailers_of message).

Definition split_actor (raw : string) : string * string :=
  let trimmed := trim raw in
  let plain := if decide (trimmed = "") then ("checkpoint", "local") else (trimmed, "local") in
  match find_str "<" trimmed, find_str ">" trimmed with
  | Some start, Some stop =>
      if decide (start < stop) then
        let name := trim (take_str start trimmed) in
        let email := trim (slice (S start) stop trimmed) in
        if decide (email = "") then plain else (if decide (name = "") then "checkpoint" else name, email)
      else plain
  | _, _ => plain
  end.
Definition push_trailer (message key value : string) : string := message +:+ String newline_char "" +:+ key +:+ ": " +:+ value.
Definition non_empty (o : option string) : option string := s ← o; if decide (s = "") then None else Some s.
Definition commit_message (intent : string) (actor session tool : option string) (extra : list (string * string)) : string :=
  let message := trim intent in
  let message := if decide (message = "") then "checkpoint" else message in
  let message := match actor with Some a => push_trailer message TRAILER_ACTOR a | None => message end in
  let message := match non_empty session with Some s => push_trailer message TRAILER_SESSION s | None => message end in
  let message := match non_empty tool with Some t => push_trailer message TRAILER_TOOL t | None => message end in
  foldl (λ m kv, push_trailer m kv.1 kv.2) message extra.

(** * Objects *)

Record TreeEntry {Id : Type} : Type := { entry_mode : string; entry_name : string; entry_id : Id }.
Arguments TreeEntry Id : clear implicits.
(** A commit as it is stored. *)
Record CommitObject {Id : Type} : Type := {
  stored_tree : Id;
  stored_parents : list Id;
  stored_author : string * string;
  stored_committer : string * string;
  stored_seconds : Z;
  stored_message : string;
}.
Arguments CommitObject Id : clear implicits.
Inductive Object {Id : Type} : Type :=
| Blob (bytes : string)
| Tree (entries : list (TreeEntry Id))
| Commit (c : CommitObject Id).
Arguments Object Id : clear implicits.
(** A commit as it is read. *)
Record GitCommit {Id : Type} : Type := {
  commit_id : Id;
  commit_tree : Id;
  parents : list Id;
  author : string;
  committer : string;
  author_ts : Z;
  committer_ts : Z;
  message : string;
}.
Arguments GitCommit Id : clear implicits.

Section objects.
  Context {Id : Type} `{Countable Id} (hash : Object Id → Id) (hex : Id → string).
  (** What the encoder refuses: signatures and names that cannot be stored. *)
  Context (encodable : Object Id → bool).
  Implicit Types objs : gmap Id (Object Id).

Definition write_object (label : string) (o : Object Id) : SE (gmap Id (Object Id)) GitStoreError Id := λ objs,
  if encodable o then (<[hash o := o]> objs, Ok (hash o)) else (objs, Err (Corrupt label "refused")).
Definition find_data (id : Id) objs : result GitStoreError (Object Id) := ok_or (ObjectNotFound (hex id)) (objs !! id).
Definition kind (o : Object Id) : string := match o with Blob _ => "blob" | Tree _ => "tree" | Commit _ => "commit" end.
Definition expected (what : string) (id : Id) (o : Object Id) : GitStoreError :=
  Corrupt (hex id) ("expected " +:+ what +:+ ", found " +:+ kind o).

Definition write_blob (bytes : string) : SE (gmap Id (Object Id)) GitStoreError Id := λ objs, (<[hash (Blob bytes) := Blob bytes]> objs, Ok (hash (Blob bytes))).
Definition read_blob (id : Id) objs : result GitStoreError string :=
  o ← find_data id objs; match o with Blob bytes => Ok bytes | _ => Err (expected "blob" id o) end.
Definition sort_entries (es : list (TreeEntry Id)) : list (TreeEntry Id) := merge_sort (λ a b, String.le (entry_name a) (entry_name b)) es.
Definition write_tree (entries : list (TreeEntry Id)) : SE (gmap Id (Object Id)) GitStoreError Id :=
  let sorted := sort_entries entries in
  match head (filter (λ e, entry_mode e ∉ [MODE_TREE; MODE_EXEC; MODE_FILE]) sorted) with
  | Some e => throw (InvalidInput ("unsupported tree entry mode '" +:+ entry_mode e +:+ "'"))
  | None => write_object "<new-tree>" (Tree sorted)
  end.
Definition read_tree (id : Id) objs : result GitStoreError (list (TreeEntry Id)) :=
  o ← find_data id objs; match o with Tree es => Ok es | _ => Err (expected "tree" id o) end.

(** The expansion of a tree, [path -> (mode, blob)]; [n] bounds its height. *)
Definition join_path (prefix name : string) : string := if decide (prefix = "") then name else prefix +:+ "/" +:+ name.
Fixpoint tree_to_files_into (n : nat) objs (tree_id : Id) (prefix : string) (out : gmap string (string * Id)) :
    result GitStoreError (gmap string (string * Id)) :=
  match n with
  | 0 => Err (GitIo "tree too deep")
  | S n =>
      es ← read_tree tree_id objs;
      foldl (λ r e,
        out ← r;
        let path := join_path prefix (entry_name e) in
        if decide (entry_mode e = MODE_TREE) then tree_to_files_into n objs (entry_id e) path out
        else Ok (<[path := (entry_mode e, entry_id e)]> out)) (Ok out) es
  end.
Definition tree_height objs : nat := S (size objs).
Definition tree_to_files (tree_id : Id) objs : result GitStoreError (gmap string (string * Id)) :=
  tree_to_files_into (tree_height objs) objs tree_id "" ∅.
(** [HashMap] of [Result]s to a [Result]: the first error of some order. *)
Definition collect_map {A B} (f : A → result GitStoreError B) (m : gmap string A) : result GitStoreError (gmap string B) :=
  foldr (λ kv r, out ← r; b ← f kv.2; Ok (<[kv.1 := b]> out)) (Ok ∅) (map_to_list m).
Definition tree_to_bytes (tree_id : Id) objs : result GitStoreError (gmap string string) :=
  files ← tree_to_files tree_id objs; collect_map (λ mb : string * Id, read_blob mb.2 objs) files.

(** [build_tree_level]: the changes at this level, those below it, and the tree. *)
Definition direct_changes (staged : gmap string (option (string * Id))) : gmap string (option (string * Id)) := filter (λ kv, split_once "/" kv.1 = None) staged.
Definition deeper_changes (staged : gmap string (option (string * Id))) : gmap string (gmap string (option (string * Id))) :=
  map_fold (λ path c acc,
    match split_once "/" path with
    | Some (h, rest) => partial_alter (λ o, Some (<[rest := c]> (default ∅ o))) h acc
    | None => acc
    end) ∅ staged.
Definition entries_blobs (es : list (TreeEntry Id)) : gmap string (string * Id) :=
  foldl (λ m e, if decide (entry_mode e = MODE_TREE) then m else <[entry_name e := (entry_mode e, entry_id e)]> m) ∅ es.
Definition entries_trees (es : list (TreeEntry Id)) : gmap string Id :=
  foldl (λ m e, if decide (entry_mode e = MODE_TREE) then <[entry_name e := entry_id e]> m else m) ∅ es.
Definition apply_direct (direct : gmap string (option (string * Id))) (blobs : gmap string (string * Id)) : gmap string (string * Id) :=
  merge (λ d b, match d with Some c => c | None => b end) direct blobs.
Definition drop_replaced (direct : gmap string (option (string * Id))) (trees : gmap string Id) : gmap string Id :=
  filter (λ kv, direct !! kv.1 = None) trees.
Definition level_entries (blobs : gmap string (string * Id)) (trees : gmap string Id) : list (TreeEntry Id) :=
  ((λ kv, {| entry_mode := MODE_TREE; entry_name := kv.1; entry_id := kv.2 |}) <$> map_to_list trees) ++
  ((λ kv : string * (string * Id), {| entry_mode := kv.2.1; entry_name := kv.1; entry_id := kv.2.2 |}) <$> map_to_list blobs).
Definition collision (dir : string) (sub : gmap string (option (string * Id))) : GitStoreError :=
  let full := match map_to_list sub with kv :: _ => dir +:+ "/" +:+ kv.1 | [] => dir end in
  InvalidInput ("path collides with a file: '" +:+ full +:+ "'").
(** The step of a changed directory; their order is the table's. *)
Definition add_child (build : option Id → gmap string (option (string * Id)) → SE (gmap Id (Object Id)) GitStoreError (option Id))
    (blobs : gmap string (string * Id)) (ds : string * gmap string (option (string * Id))) (m : SE (gmap Id (Object Id)) GitStoreError (gmap string Id)) :
    SE (gmap Id (Object Id)) GitStoreError (gmap string Id) :=
  trees ← m;
  match blobs !! ds.1 with
  | Some _ => throw (collision ds.1 ds.2)
  | None => child ← build (trees !! ds.1) ds.2; mret (partial_alter (λ _, child) ds.1 trees)
  end.
Fixpoint build_tree_level (n : nat) (parent_tree : option Id) (staged : gmap string (option (string * Id))) : SE (gmap Id (Object Id)) GitStoreError (option Id) :=
  match n with
  | 0 => throw (GitIo "path too deep")
  | S n =>
      objs ← get_state;
      es ← lift (match parent_tree with Some t => read_tree t objs | None => Ok [] end);
      let direct := direct_changes staged in
      let blobs := apply_direct direct (entries_blobs es) in
      trees ← foldr (add_child (build_tree_level n) blobs) (mret (drop_replaced direct (entries_trees es))) (map_to_list (deeper_changes staged));
      if decide (blobs = ∅ ∧ trees = ∅) then mret None else id ← write_tree (level_entries blobs trees); mret (Some id)
  end.
(** [n] above is one more than the longest path. *)
Definition level_fuel (staged : gmap string (option (string * Id))) : nat := S (map_fold (λ path _ acc, Nat.max (String.length path) acc) 0 staged).
Definition write_blobs (changes : gmap string (option (string * string))) : SE (gmap Id (Object Id)) GitStoreError (gmap string (option (string * Id))) :=
  foldr (λ (kv : string * option (string * string)) m,
    staged ← m;
    match kv.2 with
    | Some (mode, bytes) => blob ← write_blob bytes; mret (<[kv.1 := Some (mode, blob)]> staged)
    | None => mret (<[kv.1 := None]> staged)
    end) (mret ∅) (map_to_list changes).
Definition build_tree_from_parent (parent_tree : option Id) (changes : gmap string (option (string * string))) :
    SE (gmap Id (Object Id)) GitStoreError Id :=
  match parent_tree with
  | Some t => if decide (changes = ∅) then mret t else
      staged ← write_blobs changes;
      o ← build_tree_level (level_fuel staged) (Some t) staged; match o with Some id => mret id | None => write_tree [] end
  | None =>
      if decide (changes = ∅) then write_tree []
      else
        staged ← write_blobs changes;
        o ← build_tree_level (level_fuel staged) None staged; match o with Some id => mret id | None => write_tree [] end
  end.

(** Commits; times are kept in seconds. *)
Definition sat_millis (secs : Z) : Z := Z.max i64_min (Z.min i64_max (secs * 1000)).
Definition write_commit (tree : Id) (ps : list Id) (author committer : string) (timestamp_millis : Z) (message : string) :
    SE (gmap Id (Object Id)) GitStoreError Id :=
  write_object "<new-commit>" (Commit
    {| stored_tree := tree; stored_parents := ps; stored_author := split_actor author; stored_committer := split_actor committer;
       stored_seconds := timestamp_millis / 1000;
       stored_message := trim_end_of (is_char newline_char) message +:+ String newline_char "" |}).
Definition of_stored (id : Id) (c : CommitObject Id) : GitCommit Id :=
  {| commit_id := id; commit_tree := stored_tree c; parents := stored_parents c; author := (stored_author c).1;
     committer := (stored_committer c).1; author_ts := sat_millis (stored_seconds c); committer_ts := sat_millis (stored_seconds c);
     message := trim_end_of (is_char newline_char) (stored_message c) |}.
Definition read_commit (id : Id) objs : result GitStoreError (GitCommit Id) :=
  o ← find_data id objs; match o with Commit c => Ok (of_stored id c) | _ => Err (expected "commit" id o) end.

(** [walk_graph]: depth first from the tips, the first parent first; [stop] is the
    baseline anchor. *)
Fixpoint walk (n : nat) objs (stop : option Id) (stack : list Id) (seen : gset Id) : list (GitCommit Id) :=
  match n, stack with
  | S n, id :: stack =>
      if decide (id ∈ seen) then walk n objs stop stack seen
      else match read_commit id objs with
      | Err _ => walk n objs stop stack ({[id]} ∪ seen)
      | Ok c => c :: walk n objs stop (if decide (stop = Some id) then stack else parents c ++ stack) ({[id]} ∪ seen)
      end
  | _, _ => []
  end.
Definition parent_count (o : Object Id) : nat := match o with Commit c => List.length (stored_parents c) | _ => 0 end.
Definition walk_fuel objs (tips : list Id) : nat := List.length tips + map_fold (λ _ o acc, parent_count o + acc) 0 objs.
Definition walk_graph objs (stop : option Id) (tips : list Id) : list (GitCommit Id) := walk (walk_fuel objs tips) objs stop tips ∅.
Definition log objs (stop : option Id) (start : Id) (limit : nat) : list (GitCommit Id) :=
  let all := walk_graph objs stop [start] in if decide (limit = 0) then all else take limit all.
Definition is_ancestor objs (stop : option Id) (ancestor descendant : Id) : bool :=
  bool_decide (ancestor = descendant) || bool_decide (ancestor ∈ commit_id <$> walk_graph objs stop [descendant]).
Definition merge_base objs (stop : option Id) (a b : Id) : option Id :=
  if decide (a = b) then Some a
  else
    let ancestors : gset Id := list_to_set (commit_id <$> walk_graph objs stop [a]) in
    head (filter (λ id, id ∈ ancestors) (commit_id <$> walk_graph objs stop [b])).
End objects.

(** * Refs: refs.rs *)

Definition is_ref_char (a : ascii) : bool :=
  let n := nat_of_ascii a in
  bool_decide (48 ≤ n ≤ 57 ∨ 65 ≤ n ≤ 90 ∨ 97 ≤ n ≤ 122) || bool_decide (a ∈ ["-"%char; "_"%char; "."%char; "/"%char]).
(** [while cleaned.contains("//")]; one pass is enough, [n] bounds the passes. *)
Fixpoint squeeze_slashes (n : nat) (s : string) : string :=
  match n with
  | 0 => s
  | S n => if contains_str "//" s then squeeze_slashes n (replace_str "//" "/_" s) else s
  end.
Definition safe_chars (raw : string) : string :=
  String.concat "" ((λ w, match w with String a "" => if is_ref_char a then w else "_" | _ => "_" end) <$> chars raw).
Definition clean_component (raw : string) : string :=
  let cleaned := replace_str ".." "__" (safe_chars raw) in
  let cleaned := squeeze_slashes (S (String.length cleaned)) cleaned in
  let trimmed := trim_of (λ a, is_char "/" a || is_char "." a) cleaned in
  if decide (trimmed = "") then "unnamed" else if ends_with ".lock" trimmed then trimmed +:+ "_" else trimmed.

Section refs.
  Context {Id : Type} `{Countable Id} (hash : Object Id → Id) (hex : Id → string).
  Context (encodable : Object Id → bool).
  (** Eight hex digits of the SHA-256 of a name; the names Gitoxide accepts. *)
  Context (short_digest : string → string) (full_name_ok : string → bool).

Definition sanitize_ref_component (raw : string) : string :=
  let base := clean_component raw in if decide (base = raw) then base else base +:+ "-" +:+ short_digest raw.
Definition edit_ref_for_actor (actor : string) : string := REF_EDIT_PREFIX +:+ sanitize_ref_component actor.
Definition review_ref_for_id (id : string) : string := REF_REVIEW_PREFIX +:+ sanitize_ref_component id.
Definition feat_ref_for_name (name : string) : string := REF_FEAT_PREFIX +:+ sanitize_ref_component name.

(** The bare repository: objects, refs, and the baseline anchor. *)
Record GitStore : Type := { objects : gmap Id (Object Id); refs : gmap string Id; anchor : option Id }.
Implicit Types g : GitStore.
Definition set_objects (objs : gmap Id (Object Id)) g : GitStore := {| objects := objs; refs := refs g; anchor := anchor g |}.
Definition set_refs (rs : gmap string Id) g : GitStore := {| objects := objects g; refs := rs; anchor := anchor g |}.
Definition on_objects {A} (m : SE (gmap Id (Object Id)) GitStoreError A) : SE GitStore GitStoreError A := λ g,
  let '(objs, r) := m (objects g) in (set_objects objs g, r).

Definition ref_path (name : string) : result GitStoreError () :=
  if decide (name = "") then Err (InvalidInput ("ref must stay under refs/wf/: '" +:+ name +:+ "'"))
  else if starts_with "/" name || contains_str ".." name || negb (starts_with "refs/wf/" name)
  then Err (InvalidInput ("ref must stay under refs/wf/: '" +:+ name +:+ "'"))
  else Ok tt.
Definition ref_full_name (name : string) : result GitStoreError () :=
  _ ← ref_path name; if full_name_ok name then Ok tt else Err (InvalidInput ("invalid ref name '" +:+ name +:+ "'")).
Definition read_ref (name : string) : SE GitStore GitStoreError (option Id) := λ g, (g, (λ _, refs g !! name) <$> ref_path name).
Definition write_ref (name : string) (id : Id) : SE GitStore GitStoreError () := λ g,
  match ref_full_name name with Ok _ => (set_refs (<[name := id]> (refs g)) g, Ok tt) | Err e => (g, Err e) end.
Definition compare_and_swap (name : string) (want : option Id) (next : Id) : SE GitStore GitStoreError () := λ g,
  match ref_full_name name with
  | Ok _ => if decide (refs g !! name = want) then (set_refs (<[name := next]> (refs g)) g, Ok tt) else (g, Err (RefConflict name))
  | Err e => (g, Err e)
  end.
Definition delete_ref (name : string) : SE GitStore GitStoreError () := λ g,
  match ref_full_name name with Ok _ => (set_refs (delete name (refs g)) g, Ok tt) | Err e => (g, Err e) end.
Definition copy_ref (src dst : string) : SE GitStore GitStoreError Id :=
  o ← read_ref src;
  match o with Some id => _ ← write_ref dst id; mret id | None => throw (RefNotFound src) end.
Definition list_refs (prefix : string) g : list (string * Id) :=
  merge_sort (λ a b, String.le a.1 b.1) (map_to_list (filter (λ kv, starts_with prefix kv.1 = true) (refs g))).

Definition read_commit_of (id : Id) : SE GitStore GitStoreError (GitCommit Id) := λ g, (g, read_commit hex id (objects g)).
Definition store_log (start : Id) (limit : nat) g : list (GitCommit Id) := log hex (objects g) (anchor g) start limit.
Definition all_commits g : list (GitCommit Id) := walk_graph hex (objects g) (anchor g) (snd <$> list_refs "refs/wf/" g).
Definition store_is_ancestor (ancestor descendant : Id) g : bool := is_ancestor hex (objects g) (anchor g) ancestor descendant.
Definition store_merge_base (a b : Id) g : option Id := merge_base hex (objects g) (anchor g) a b.

(** [commit_on_ref]: an attempt reads the head, then [others] act, then it writes a
    commit on the head it read and swaps the ref; [now] is the clock of each
    attempt. *)
Context (others : nat → GitStore → GitStore).
Record CommitOnRefOutcome : Type := { outcome_id : Id; created : bool }.
Definition attempt_commit (refname : string) (head : option Id) (changes : gmap string (option (string * string))) (who text : string) (now : Z) :
    SE GitStore GitStoreError CommitOnRefOutcome :=
  parent_tree ← match head with Some id => c ← read_commit_of id; mret (Some (commit_tree c)) | None => mret None end;
  tree ← on_objects (build_tree_from_parent hash hex encodable parent_tree changes);
  match head with
  | Some id => if decide (parent_tree = Some tree) then mret {| outcome_id := id; created := false |} else
      new ← on_objects (write_commit hash encodable tree [id] who SYSTEM_COMMITTER now text);
      _ ← compare_and_swap refname head new;
      mret {| outcome_id := new; created := true |}
  | None =>
      new ← on_objects (write_commit hash encodable tree [] who SYSTEM_COMMITTER now text);
      _ ← compare_and_swap refname head new;
      mret {| outcome_id := new; created := true |}
  end.
Fixpoint commit_attempts (n : nat) (refname : string) (changes : gmap string (option (string * string))) (who text : string) (now : nat → Z) :
    SE GitStore GitStoreError CommitOnRefOutcome :=
  match n with
  | 0 => throw (RefConflict refname)
  | S n' => λ g,
      match (head ← read_ref refname; _ ← modify (others n); attempt_commit refname head changes who text (now n)) g with
      | (g', Err (RefConflict _)) => commit_attempts n' refname changes who text now g'
      | r => r
      end
  end.
Definition commit_on_ref (refname : string) (changes : gmap string (option (string * string))) (who text : string) (now : nat → Z) :
    SE GitStore GitStoreError CommitOnRefOutcome :=
  commit_attempts MAX_COMMIT_CAS_RETRIES refname changes who text now.
End refs.
Arguments GitStore Id {_ _}.

(** * Merging: merge.rs *)

Section merging.
  (** The text driver of Gitoxide: the merged bytes, and whether it left markers. *)
  Context (text_merge : string → string → string → string * bool).

Record MergeFileOutcome : Type := { merged_bytes : option string; conflicted : bool }.
Definition is_binary_bytes (bytes : string) : bool := contains "000" (take_str 8000 bytes).
Definition merge_file_contents (base ours theirs : option string) : MergeFileOutcome :=
  if decide (ours = theirs) then {| merged_bytes := ours; conflicted := false |}
  else if decide (base = ours) then {| merged_bytes := theirs; conflicted := false |}
  else if decide (base = theirs) then {| merged_bytes := ours; conflicted := false |}
  else
    let o := default "" ours in
    let t := default "" theirs in
    if is_binary_bytes o || is_binary_bytes t then {| merged_bytes := Some o; conflicted := true |}
    else let '(bytes, conflict) := text_merge o (default "" base) t in {| merged_bytes := Some bytes; conflicted := conflict |}.
Definition merge_keys (base ours theirs : gmap string string) : gset string := dom base ∪ dom ours ∪ dom theirs.
Definition merge_file_maps (base ours theirs : gmap string string) : gmap string (option string) * list string :=
  let outcome k := merge_file_contents (base !! k) (ours !! k) (theirs !! k) in
  let keys := merge_keys base ours theirs in
  (set_to_map (λ k, (k, merged_bytes (outcome k))) keys,
   sorted_ids (filter (λ k, conflicted (outcome k) = true) keys)).
End merging.

Section unresolved.
  Context {Id : Type} `{Countable Id} (hex : Id → string).
Definition unresolved_message (text : string) : bool := bool_decide (trailer TRAILER_STATE text = Some STATE_CONFLICT_UNRESOLVED).
Definition list_unresolved_conflicts (g : GitStore Id) : list (string * Id * list string) :=
  omap (λ ni : string * Id,
    match read_commit hex ni.2 (objects g) with
    | Ok c => if unresolved_message (message c) then Some (ni.1, ni.2, trailers TRAILER_CONFLICT_FILE (message c)) else None
    | Err _ => None
    end) (list_refs REF_REVIEW_PREFIX g ++ list_refs REF_FEAT_PREFIX g ++ list_refs REF_MAIN g ++ list_refs REF_HUMAN g).
End unresolved.
