(* ===== verification/GitTrees.v ===== *)
(** Trees of the object store: what a tree expands to, and that
    [build_tree_from_parent] applies its changes. *)

From S2P Require Import Prelude Strings Numbers GitStore.

(** * Paths *)

(** No component of a path is empty. *)
Definition proper (p : string) : Prop := Forall (λ w, w ≠ "") (split "/" p).
(** What is left of a path under a prefix. *)
Definition under (prefix q : string) : option string := if decide (prefix = "") then Some q else strip_prefix (prefix +:+ "/") q.

Lemma contains_app c s t : contains c (s +:+ t) = contains c s || contains c t.
Proof. induction s as [|a s IH]; [done|]. change (String a s +:+ t) with (String a (s +:+ t)). cbn [contains]. rewrite IH. by rewrite orb_assoc. Qed.
Lemma split_once_app c h r : contains c h = false → split_once c (h +:+ String c r) = Some (h, r).
Proof.
  induction h as [|a h IH]; intros Hc.
  - change ("" +:+ String c r) with (String c r). cbn [split_once]. by rewrite decide_True.
  - cbn [contains] in Hc. apply orb_false_iff in Hc as [Ha Hc]. apply bool_decide_eq_false in Ha.
    change (String a h +:+ String c r) with (String a (h +:+ String c r)). cbn [split_once]. rewrite decide_False by done. by rewrite IH.
Qed.
Lemma split_once_Some c s h r : split_once c s = Some (h, r) ↔ s = h +:+ String c r ∧ contains c h = false.
Proof.
  split; [|intros [-> Hc]; by apply split_once_app]. revert h. induction s as [|a s IH]; intros h; [done|]. cbn [split_once]. case_decide as Ha.
  - intros [= <- <-]. by subst.
  - destruct (split_once c s) as [[h' r']|] eqn:E; [|done]. cbn. intros [= <- <-]. destruct (IH h' eq_refl) as [-> Hc].
    split; [done|]. cbn [contains]. rewrite Hc. by rewrite bool_decide_eq_false_2.
Qed.
Lemma path_inj c h r h' r' : contains c h = false → contains c h' = false → h +:+ String c r = h' +:+ String c r' → h = h' ∧ r = r'.
Proof. intros H1 H2 E. apply (f_equal (split_once c)) in E. rewrite !split_once_app in E by done. by injection E. Qed.
Lemma split_once_None c s : split_once c s = None ↔ contains c s = false.
Proof.
  induction s as [|a s IH]; [done|]. cbn [split_once contains]. case_decide as Ha.
  - subst. rewrite bool_decide_eq_true_2 by done. split; done.
  - rewrite (bool_decide_eq_false_2 (a = c)) by done. cbn. rewrite <-IH. by destruct (split_once c s).
Qed.
Lemma proper_one w : contains "/" w = false → proper w ↔ w ≠ "".
Proof. intros Hc. unfold proper. rewrite split_single by done. rewrite Forall_singleton. done. Qed.
Lemma proper_cons h r : contains "/" h = false → proper (h +:+ String "/" r) ↔ h ≠ "" ∧ proper r.
Proof. intros Hc. unfold proper. rewrite split_app by done. by rewrite Forall_cons. Qed.
Lemma length_rest h r : String.length r < String.length (h +:+ String "/" r).
Proof. rewrite length_append. cbn. lia. Qed.
Lemma under_join prefix h r q : h ≠ "" → under (join_path prefix h) q = Some r ↔ under prefix q = Some (h +:+ String "/" r).
Proof.
  intros Hh. unfold under, join_path. destruct (decide (prefix = "")) as [->|Hp].
  - rewrite decide_False by done. rewrite strip_prefix_Some, append_assoc. change ("/" +:+ r) with (String "/" r). naive_solver.
  - rewrite decide_False by (by destruct prefix). rewrite !strip_prefix_Some, !append_assoc. done.
Qed.
Lemma under_name prefix w q : join_path prefix w = q ↔ under prefix q = Some w.
Proof. unfold under, join_path. case_decide; [naive_solver|]. rewrite strip_prefix_Some, append_assoc. naive_solver. Qed.

Lemma ok_bind {E A B} (a : A) (f : A → result E B) : (Ok a ≫= f) = f a.
Proof. done. Qed.

Lemma NoDup_fmap_eq {A B} (f : A → B) l x y : NoDup (f <$> l) → x ∈ l → y ∈ l → f x = f y → x = y.
Proof.
  intros Hnd [i Hi]%list_elem_of_lookup [j Hj]%list_elem_of_lookup E. assert (i = j) as ->; [|congruence].
  eapply NoDup_lookup; [exact Hnd|..]; rewrite list_lookup_fmap; [by rewrite Hi|by rewrite Hj, E].
Qed.

(** * Changes *)

Section changes.
  Context {V : Type}.
  Implicit Types (staged : gmap string (option V)) (F G : string → option V).

(** A change above a path drops what was at the path. *)
Definition under_change staged (p : string) : Prop := ∃ q r c, p = q +:+ String "/" r ∧ staged !! q = Some c.
(** A changed path passes through a file. *)
Definition holds_file staged F (d : string) : Prop :=
  (∃ v, staged !! d = Some (Some v)) ∨ (staged !! d = None ∧ ¬ under_change staged d ∧ is_Some (F d)).
Definition clash staged F : Prop := ∃ d r c, staged !! (d +:+ String "/" r) = Some c ∧ holds_file staged F d.
(** [G] is [F] with the changes made. *)
Definition applied staged F G : Prop :=
  ∀ p, match staged !! p with
       | Some c => G p = c
       | None => (under_change staged p → G p = None) ∧ (¬ under_change staged p → G p = F p)
       end.
Lemma clash_ext staged F F' : (∀ p, F p = F' p) → clash staged F → clash staged F'.
Proof. intros HF (d & r & c & Hc & Hd). exists d, r, c. split; [done|]. unfold holds_file in *. by rewrite <-HF. Qed.
Lemma applied_ext staged F F' G G' : (∀ p, F p = F' p) → (∀ p, G p = G' p) → applied staged F G → applied staged F' G'.
Proof. intros HF HG Ha p. specialize (Ha p). by rewrite <-HF, <-HG. Qed.
Lemma under_slashless staged p : contains "/" p = false → ¬ under_change staged p.
Proof. intros Hp (q & r & c & -> & _). rewrite contains_app in Hp. cbn in Hp. by rewrite orb_true_r in Hp. Qed.
Lemma under_dec staged p : under_change staged p ∨ ¬ under_change staged p.
Proof.
  destruct (decide (Exists (λ kv : string * option V, is_Some (strip_prefix (kv.1 +:+ "/") p)) (map_to_list staged))) as [Hp|Hp].
  - left. apply Exists_exists in Hp as ([q c] & Hq%elem_of_map_to_list & [r ->%strip_prefix_Some]). exists q, r, c. split; [by rewrite append_assoc|done].
  - right. intros (q & r & c & -> & Hc). apply Hp, Exists_exists. exists (q, c). rewrite elem_of_map_to_list. split; [done|]. exists r.
    apply strip_prefix_Some. by rewrite append_assoc.
Qed.
Lemma applied_empty G G' : (∀ p, G' p = G p) → applied ∅ G G'.
Proof. intros HG p. rewrite lookup_empty. split; [|done]. by intros (q & r & c & _ & ?). Qed.
End changes.

(** * Expansion *)

Section trees.
  Context {Id : Type} `{Countable Id} (hash : Object Id → Id) (hex : Id → string) (encodable : Object Id → bool).
  Implicit Types objs : gmap Id (Object Id).

(** A tree of height below [n]: its names are distinct path components, its
    subtrees are trees, its files are there. *)
Definition file_mode (mode : string) : Prop := mode ∈ [MODE_EXEC; MODE_FILE].
Definition has_blob objs (id : Id) : Prop := ∃ bytes, objs !! id = Some (Blob bytes).
Fixpoint tree_valid (n : nat) objs (id : Id) : Prop :=
  match n with
  | 0 => False
  | S n =>
      ∃ es, objs !! id = Some (Tree es) ∧ NoDup (entry_name <$> es) ∧
        Forall (λ e, entry_name e ≠ "" ∧ contains "/" (entry_name e) = false ∧
          (if decide (entry_mode e = MODE_TREE) then tree_valid n objs (entry_id e) else file_mode (entry_mode e) ∧ has_blob objs (entry_id e))) es
  end.
(** The file at a path. *)
Fixpoint look (n : nat) objs (id : Id) (p : string) : option (string * Id) :=
  match n, objs !! id with
  | S n, Some (Tree es) =>
      match split_once "/" p with
      | None => entries_blobs es !! p
      | Some (h, r) => entries_trees es !! h ≫= (λ t, look n objs t r)
      end
  | _, _ => None
  end.

Lemma entries_blobs_snoc (es : list (TreeEntry Id)) e :
  entries_blobs (es ++ [e]) = if decide (entry_mode e = MODE_TREE) then entries_blobs es else <[entry_name e := (entry_mode e, entry_id e)]> (entries_blobs es).
Proof. unfold entries_blobs. by rewrite foldl_app. Qed.
Lemma entries_trees_snoc (es : list (TreeEntry Id)) e :
  entries_trees (es ++ [e]) = if decide (entry_mode e = MODE_TREE) then <[entry_name e := entry_id e]> (entries_trees es) else entries_trees es.
Proof. unfold entries_trees. by rewrite foldl_app. Qed.
Lemma lookup_entries_blobs (es : list (TreeEntry Id)) k v :
  NoDup (entry_name <$> es) → entries_blobs es !! k = Some v ↔ ∃ e, e ∈ es ∧ entry_mode e ≠ MODE_TREE ∧ entry_name e = k ∧ v = (entry_mode e, entry_id e).
Proof.
  induction es as [|e es IH] using rev_ind; intros Hnd.
  { split; [done|]. intros (e & []%elem_of_nil & _). }
  rewrite fmap_app in Hnd. apply NoDup_app in Hnd as (Hnd & Hd & _). specialize (IH Hnd). rewrite entries_blobs_snoc.
  setoid_rewrite elem_of_app. setoid_rewrite list_elem_of_singleton. case_decide as Hm.
  - rewrite IH. split; [intros (e' & ? & ?); exists e'; tauto|]. intros (e' & [He| ->] & Hm' & ?); [by exists e'|done].
  - destruct (decide (entry_name e = k)) as [<-|Hk].
    + rewrite lookup_insert_eq. split; [intros [= <-]; exists e; tauto|]. intros (e' & [He| ->] & _ & Hn & ->); [|done].
      exfalso. apply (Hd (entry_name e)); [|by left]. rewrite <-Hn. by apply list_elem_of_fmap_2.
    + rewrite lookup_insert_ne by done. rewrite IH. split; [intros (e' & ? & ?); exists e'; tauto|]. intros (e' & [He| ->] & ? & ? & ?); [by exists e'|done].
Qed.
Lemma lookup_entries_trees (es : list (TreeEntry Id)) k v :
  NoDup (entry_name <$> es) → entries_trees es !! k = Some v ↔ ∃ e, e ∈ es ∧ entry_mode e = MODE_TREE ∧ entry_name e = k ∧ v = entry_id e.
Proof.
  induction es as [|e es IH] using rev_ind; intros Hnd.
  { split; [done|]. intros (e & []%elem_of_nil & _). }
  rewrite fmap_app in Hnd. apply NoDup_app in Hnd as (Hnd & Hd & _). specialize (IH Hnd). rewrite entries_trees_snoc.
  setoid_rewrite elem_of_app. setoid_rewrite list_elem_of_singleton. case_decide as Hm.
  - destruct (decide (entry_name e = k)) as [<-|Hk].
    + rewrite lookup_insert_eq. split; [intros [= <-]; exists e; tauto|]. intros (e' & [He| ->] & _ & Hn & ->); [|done].
      exfalso. apply (Hd (entry_name e)); [|by left]. rewrite <-Hn. by apply list_elem_of_fmap_2.
    + rewrite lookup_insert_ne by done. rewrite IH. split; [intros (e' & ? & ?); exists e'; tauto|]. intros (e' & [He| ->] & ? & ? & ?); [by exists e'|done].
  - rewrite IH. split; [intros (e' & ? & ?); exists e'; tauto|]. intros (e' & [He| ->] & Hm' & ?); [by exists e'|done].
Qed.

Definition entry_valid (n : nat) objs (e : TreeEntry Id) : Prop :=
  entry_name e ≠ "" ∧ contains "/" (entry_name e) = false ∧
  (if decide (entry_mode e = MODE_TREE) then tree_valid n objs (entry_id e) else file_mode (entry_mode e) ∧ has_blob objs (entry_id e)).
Definition look_entries (n : nat) objs (es : list (TreeEntry Id)) (p : string) : option (string * Id) :=
  match split_once "/" p with None => entries_blobs es !! p | Some (h, r) => entries_trees es !! h ≫= (λ t, look n objs t r) end.
Lemma tree_valid_S n objs id :
  tree_valid (S n) objs id ↔ ∃ es, objs !! id = Some (Tree es) ∧ NoDup (entry_name <$> es) ∧ Forall (entry_valid n objs) es.
Proof. done. Qed.
Lemma look_S n objs id es p : objs !! id = Some (Tree es) → look (S n) objs id p = look_entries n objs es p.
Proof. intros Hid. cbn [look]. by rewrite Hid. Qed.
Lemma not_in_trees (es : list (TreeEntry Id)) h : h ∉ entry_name <$> es → NoDup (entry_name <$> es) → entries_trees es !! h = None.
Proof.
  intros Hh Hnd. destruct (entries_trees es !! h) eqn:E; [|done]. apply lookup_entries_trees in E as (e & He & _ & <- & _); [|done].
  by destruct Hh; apply list_elem_of_fmap_2.
Qed.

Definition or_else {A} (o o' : option A) : option A := match o with Some a => Some a | None => o' end.
(** Expanding a subtree adds its files under the prefix. *)
Definition expands_to (prefix : string) (f : string → option (string * Id)) (out F : gmap string (string * Id)) : Prop :=
  ∀ q, F !! q = or_else (under prefix q ≫= f) (out !! q).
Lemma expand_step n objs prefix es e (out F0 : gmap string (string * Id)) :
  (∀ id prefix out, tree_valid n objs id → ∃ F, tree_to_files_into hex n objs id prefix out = Ok F ∧ expands_to prefix (look n objs id) out F) →
  entry_valid n objs e → entry_name e ∉ entry_name <$> es → NoDup (entry_name <$> es) → expands_to prefix (look_entries n objs es) out F0 →
  ∃ F, (if decide (entry_mode e = MODE_TREE) then tree_to_files_into hex n objs (entry_id e) (join_path prefix (entry_name e)) F0
        else Ok (<[join_path prefix (entry_name e) := (entry_mode e, entry_id e)]> F0)) = Ok F ∧
    expands_to prefix (look_entries n objs (es ++ [e])) out F.
Proof.
  intros IH (Hne & Hslash & Hval) Hnew Hnd HF0. destruct (decide (entry_mode e = MODE_TREE)) as [Hm|Hm].
  - destruct (IH (entry_id e) (join_path prefix (entry_name e)) F0 Hval) as (F & -> & HF). exists F. split; [done|]. intros q.
    rewrite HF, HF0. unfold look_entries. rewrite entries_blobs_snoc, entries_trees_snoc, !decide_True by done.
    destruct (under prefix q) as [p|] eqn:Hp.
    + destruct (split_once "/" p) as [[h r]|] eqn:Hs; cbn.
      * pose proof Hs as [-> Hh]%split_once_Some. destruct (decide (h = entry_name e)) as [->|Hhe].
        -- rewrite (proj2 (under_join prefix (entry_name e) r q Hne) Hp). cbn. rewrite Hs, lookup_insert_eq. cbn.
           rewrite not_in_trees by done. by destruct (look _ _ _ r).
        -- rewrite Hs, lookup_insert_ne by done. destruct (under (join_path prefix (entry_name e)) q) as [r'|] eqn:E; [|done].
           apply under_join in E; [|done]. rewrite Hp in E. injection E as E. apply (f_equal (split_once "/")) in E.
           rewrite !split_once_app in E by done. by injection E as ? _.
      * rewrite Hs. destruct (under (join_path prefix (entry_name e)) q) as [r'|] eqn:E; [|done].
        apply under_join in E; [|done]. rewrite Hp in E. injection E as ->. rewrite split_once_app in Hs by done. done.
    + destruct (under (join_path prefix (entry_name e)) q) as [r'|] eqn:E; [|done]. apply under_join in E; [|done]. by rewrite Hp in E.
  - exists (<[join_path prefix (entry_name e):=(entry_mode e, entry_id e)]> F0). split; [done|]. intros q.
    unfold look_entries. rewrite entries_blobs_snoc, entries_trees_snoc, !decide_False by done.
    destruct (decide (join_path prefix (entry_name e) = q)) as [Hq|Hq].
    + rewrite Hq, lookup_insert_eq. apply under_name in Hq. rewrite Hq. cbn. rewrite (proj2 (split_once_None _ _) Hslash). by rewrite lookup_insert_eq.
    + rewrite lookup_insert_ne, HF0 by done. unfold look_entries. destruct (under prefix q) as [p|] eqn:Hp; [|done]. cbn.
      destruct (split_once "/" p) as [[h r]|]; [done|]. rewrite lookup_insert_ne; [done|]. intros <-. by apply Hq, under_name.
Qed.
Lemma expand n objs id prefix out :
  tree_valid n objs id → ∃ F, tree_to_files_into hex n objs id prefix out = Ok F ∧ expands_to prefix (look n objs id) out F.
Proof.
  revert id prefix out. induction n as [|n IH]; intros id prefix out; [done|]. rewrite tree_valid_S. intros (es & Hid & Hnd & Hes).
  cbn [tree_to_files_into]. assert (Hread : read_tree hex id objs = Ok es) by (unfold read_tree, find_data; by rewrite Hid). rewrite Hread, ok_bind.
  assert (∃ F, foldl (λ r e, out ← r; let path := join_path prefix (entry_name e) in
      if decide (entry_mode e = MODE_TREE) then tree_to_files_into hex n objs (entry_id e) path out
      else Ok (<[path:=(entry_mode e, entry_id e)]> out)) (Ok out) es = Ok F ∧ expands_to prefix (look_entries n objs es) out F) as (F & HF & He).
  { clear Hid Hread. induction es as [|e es IHes] using rev_ind.
    - exists out. split; [done|]. intros q. unfold look_entries. destruct (under prefix q) as [p|]; [|done]. cbn. by destruct (split_once "/" p) as [[h r]|].
    - rewrite fmap_app in Hnd. apply NoDup_app in Hnd as (Hnd & Hd & _). apply Forall_app in Hes as [Hes [Hev _]%Forall_cons].
      destruct (IHes Hnd Hes) as (F0 & HF0 & He0). rewrite foldl_snoc, HF0, ok_bind. cbv zeta.
      apply (expand_step n objs prefix es e out F0); [done|done| |done|done]. intros Hin. apply (Hd _ Hin). by left. }
  exists F. split; [exact HF|]. intros q. rewrite He. unfold or_else. destruct (under prefix q) as [p|]; [|done]. cbn [mbind option_bind].
  by rewrite (look_S n objs id es p Hid).
Qed.

(** ** Heights *)

Definition subtree_ids (es : list (TreeEntry Id)) : list Id := entry_id <$> filter (λ e, entry_mode e = MODE_TREE) es.
Lemma elem_of_subtree_ids t (es : list (TreeEntry Id)) : t ∈ subtree_ids es ↔ ∃ e, e ∈ es ∧ entry_mode e = MODE_TREE ∧ entry_id e = t.
Proof.
  unfold subtree_ids. rewrite list_elem_of_fmap. setoid_rewrite list_elem_of_filter. split; intros (e & H1 & H2); exists e; naive_solver.
Qed.
Lemma tree_valid_weaken n m objs objs' id : n ≤ m → objs ⊆ objs' → tree_valid n objs id → tree_valid m objs' id.
Proof.
  intros Hle Hsub. revert m id Hle. induction n as [|n IH]; intros m id Hle; [done|]. destruct m as [|m]; [lia|]. rewrite !tree_valid_S.
  intros (es & Hid & Hnd & Hes). exists es. split; [by eapply lookup_weaken|]. split; [done|]. eapply Forall_impl; [exact Hes|].
  intros e (H1 & H2 & H3). split; [done|]. split; [done|]. case_decide; [apply (IH m); [lia|done]|].
  destruct H3 as [H3 [bytes H4]]. split; [done|]. exists bytes. by eapply lookup_weaken.
Qed.
Lemma look_weaken n m objs objs' id p : n ≤ m → objs ⊆ objs' → tree_valid n objs id → look m objs' id p = look n objs id p.
Proof.
  intros Hle Hsub. revert m id p Hle. induction n as [|n IH]; intros m id p Hle; [done|]. destruct m as [|m]; [lia|]. rewrite tree_valid_S.
  intros (es & Hid & Hnd & Hes). rewrite (look_S n objs id es) by done. rewrite (look_S m objs' id es) by (by eapply lookup_weaken).
  unfold look_entries. destruct (split_once "/" p) as [[h r]|]; [|done]. destruct (entries_trees es !! h) as [t|] eqn:Et; [|done]. cbn.
  apply lookup_entries_trees in Et as (e & He & Hm & _ & ->); [|done]. rewrite Forall_forall in Hes. destruct (Hes e He) as (_ & _ & Hv).
  rewrite decide_True in Hv by done. apply IH; [lia|done].
Qed.
Lemma look_proper n objs id p : tree_valid n objs id → ¬ proper p → look n objs id p = None.
Proof.
  revert id p. induction n as [|n IH]; intros id p; [done|]. rewrite tree_valid_S. intros (es & Hid & Hnd & Hes) Hp.
  rewrite (look_S n objs id es) by done. unfold look_entries. rewrite Forall_forall in Hes. destruct (split_once "/" p) as [[h r]|] eqn:Hs.
  - apply split_once_Some in Hs as [-> Hh]. rewrite proper_cons in Hp by done. destruct (entries_trees es !! h) as [t|] eqn:Et; [|done]. cbn.
    apply lookup_entries_trees in Et as (e & He & Hm & <- & ->); [|done]. destruct (Hes e He) as (Hne & _ & Hv). rewrite decide_True in Hv by done.
    apply IH; [done|]. naive_solver.
  - apply split_once_None in Hs. rewrite proper_one in Hp by done. destruct (entries_blobs es !! p) as [v|] eqn:Eb; [|done].
    apply lookup_entries_blobs in Eb as (e & He & _ & <- & _); [|done]. by destruct (Hes e He) as (Hne & _).
Qed.
(** The subtrees below a tree. *)
Fixpoint below (n : nat) objs (id : Id) : gset Id :=
  match n, objs !! id with
  | S n, Some (Tree es) => ⋃ ((λ t, {[t]} ∪ below n objs t) <$> subtree_ids es)
  | _, _ => ∅
  end.
Lemma elem_of_below n objs id es x :
  objs !! id = Some (Tree es) → x ∈ below (S n) objs id ↔ ∃ t, t ∈ subtree_ids es ∧ (x = t ∨ x ∈ below n objs t).
Proof.
  intros Hid. cbn [below]. rewrite Hid, elem_of_union_list. split.
  - intros (X & (t & -> & Ht)%list_elem_of_fmap & Hx). exists t. set_solver.
  - intros (t & Ht & Hx). exists ({[t]} ∪ below n objs t). split; [apply list_elem_of_fmap; by exists t|set_solver].
Qed.
Lemma subtree_valid n objs id es t : objs !! id = Some (Tree es) → tree_valid (S n) objs id → t ∈ subtree_ids es → tree_valid n objs t.
Proof.
  rewrite tree_valid_S. intros Hid (es' & Hid' & _ & Hes) (e & He & Hm & <-)%elem_of_subtree_ids. rewrite Hid in Hid'. injection Hid' as <-.
  rewrite Forall_forall in Hes. destruct (Hes e He) as (_ & _ & Hv). by rewrite decide_True in Hv.
Qed.
Lemma below_weaken n m objs id : n ≤ m → tree_valid n objs id → below m objs id = below n objs id.
Proof.
  revert m id. induction n as [|n IH]; intros m id Hle Hv; [done|]. destruct m as [|m]; [lia|].
  pose proof Hv as (es & Hid & _)%tree_valid_S. apply set_eq. intros x. rewrite !(elem_of_below _ _ _ es) by done.
  assert (Ht : ∀ t, t ∈ subtree_ids es → below m objs t = below n objs t) by (intros t Ht; apply IH; [lia|by eapply subtree_valid]).
  split; intros (t & Hin & Hx); exists t; (split; [done|]); [rewrite <-Ht by done|rewrite Ht by done]; done.
Qed.
Lemma below_valid n objs id x : tree_valid n objs id → x ∈ below n objs id → tree_valid (n - 1) objs x.
Proof.
  revert id x. induction n as [|n IH]; intros id x Hv Hx; [done|]. pose proof Hv as (es & Hid & _)%tree_valid_S.
  rewrite (elem_of_below _ _ _ es) in Hx by done. destruct Hx as (t & Ht & Hx). pose proof (subtree_valid n objs id es t Hid Hv Ht) as Hvt.
  destruct Hx as [->|Hx]; [by eapply tree_valid_weaken; [..|exact Hvt]; [lia|]|]. eapply tree_valid_weaken; [..|by apply (IH t)]; [lia|done].
Qed.
Lemma below_irrefl n objs id : tree_valid n objs id → id ∉ below n objs id.
Proof.
  induction n as [|n IH]; intros Hv; [done|]. intros Hin. pose proof (below_valid _ _ _ _ Hv Hin) as Hv'. cbn in Hv'. rewrite Nat.sub_0_r in Hv'.
  apply (IH Hv'). by rewrite <-(below_weaken n (S n)) by (lia || done).
Qed.
Lemma below_height n objs id : tree_valid n objs id → tree_valid (S (size (below n objs id))) objs id.
Proof.
  revert id. induction n as [|n IH]; intros id Hv; [done|]. pose proof Hv as (es & Hid & Hnd & Hes)%tree_valid_S.
  rewrite tree_valid_S. exists es. split; [done|]. split; [done|]. rewrite Forall_forall in *. intros e He. destruct (Hes e He) as (H1 & H2 & H3).
  split; [done|]. split; [done|]. case_decide as Hm; [|done]. assert (Ht : entry_id e ∈ subtree_ids es) by (apply elem_of_subtree_ids; by exists e).
  eapply tree_valid_weaken; [..|by apply IH]; [|done]. assert (Hsub : {[entry_id e]} ∪ below n objs (entry_id e) ⊆ below (S n) objs id).
  { intros x Hx. apply (elem_of_below _ _ _ es); [done|]. exists (entry_id e). set_solver. }
  apply subseteq_size in Hsub. rewrite size_union, size_singleton in Hsub by (pose proof (below_irrefl n objs (entry_id e) H3); set_solver). lia.
Qed.
(** A tree of any height is below the number of objects. *)
Lemma tree_valid_height n objs id : tree_valid n objs id → tree_valid (tree_height objs) objs id.
Proof.
  intros Hv. eapply tree_valid_weaken; [..|by apply (below_height n)]; [|done]. unfold tree_height.
  assert (Hsub : below n objs id ⊆ dom objs).
  { intros x Hx. apply (below_valid _ _ _ _ Hv) in Hx. destruct (n - 1); [done|]. apply tree_valid_S in Hx as (es & Hx & _). apply elem_of_dom. by exists (Tree es). }
  apply subseteq_size in Hsub. rewrite size_dom in Hsub. lia.
Qed.
Definition tree_ok objs (id : Id) : Prop := tree_valid (tree_height objs) objs id.
Definition file_at objs (id : Id) (p : string) : option (string * Id) := look (tree_height objs) objs id p.
Lemma tree_ok_weaken objs objs' id : objs ⊆ objs' → tree_ok objs id → tree_ok objs' id ∧ ∀ p, file_at objs' id p = file_at objs id p.
Proof.
  intros Hsub Hv. assert (Hle : tree_height objs ≤ tree_height objs') by (unfold tree_height; apply le_n_S; by apply map_subseteq_size).
  split; [by eapply tree_valid_weaken; [..|exact Hv]|]. intros p. by apply look_weaken.
Qed.
(** The expansion of a sound tree has every file at its path and nothing else. *)
Lemma tree_to_files_ok objs id : tree_ok objs id → ∃ F, tree_to_files hex id objs = Ok F ∧ ∀ p, F !! p = file_at objs id p.
Proof.
  intros Hv. destruct (expand _ _ _ "" ∅ Hv) as (F & HF & He). exists F. split; [exact HF|]. intros p. rewrite He, lookup_empty. unfold file_at.
  change (under "" p) with (Some p). cbn [mbind option_bind]. unfold or_else. by destruct (look (tree_height objs) objs id p).
Qed.

(** ** Unfolding a tree *)

Definition entry_ok objs (e : TreeEntry Id) : Prop :=
  entry_name e ≠ "" ∧ contains "/" (entry_name e) = false ∧
  (if decide (entry_mode e = MODE_TREE) then tree_ok objs (entry_id e) else file_mode (entry_mode e) ∧ has_blob objs (entry_id e)).
Definition files_of objs (es : list (TreeEntry Id)) (p : string) : option (string * Id) :=
  match split_once "/" p with None => entries_blobs es !! p | Some (h, r) => entries_trees es !! h ≫= (λ t, file_at objs t r) end.
Lemma tree_ok_intro objs id es :
  objs !! id = Some (Tree es) → NoDup (entry_name <$> es) → (∀ e, e ∈ es → entry_ok objs e) → tree_ok objs id.
Proof.
  intros Hid Hnd Hes. apply (tree_valid_height (S (tree_height objs))). rewrite tree_valid_S. exists es. split; [done|]. split; [done|].
  apply Forall_forall. exact Hes.
Qed.
Lemma tree_ok_inv objs id :
  tree_ok objs id → ∃ es, objs !! id = Some (Tree es) ∧ NoDup (entry_name <$> es) ∧ (∀ e, e ∈ es → entry_ok objs e) ∧ ∀ p, file_at objs id p = files_of objs es p.
Proof.
  intros Hv. pose proof Hv as (es & Hid & Hnd & Hes)%tree_valid_S. exists es. split; [done|]. split; [done|].
  assert (Hok : ∀ e, e ∈ es → entry_ok objs e).
  { rewrite Forall_forall in Hes. intros e He. destruct (Hes e He) as (H1 & H2 & H3). split; [done|]. split; [done|]. case_decide; [|done].
    by eapply tree_valid_height. }
  split; [done|]. intros p. unfold file_at. rewrite <-(look_weaken _ (S (tree_height objs)) objs objs id p) by (done || lia).
  by rewrite (look_S _ objs id es).
Qed.
Lemma file_at_proper objs id p : tree_ok objs id → ¬ proper p → file_at objs id p = None.
Proof. apply look_proper. Qed.
Lemma file_at_blob objs id p mode b : tree_ok objs id → file_at objs id p = Some (mode, b) → file_mode mode ∧ has_blob objs b.
Proof.
  unfold tree_ok, file_at. generalize (tree_height objs). intros n. revert id p. induction n as [|n IH]; intros id p; [done|]. rewrite tree_valid_S.
  intros (es & Hid & Hnd & Hes). rewrite (look_S n objs id es) by done. unfold look_entries. rewrite Forall_forall in Hes.
  destruct (split_once "/" p) as [[h r]|].
  - destruct (entries_trees es !! h) as [t|] eqn:Et; [|done]. cbn. apply lookup_entries_trees in Et as (e & He & Hm & _ & ->); [|done].
    destruct (Hes e He) as (_ & _ & Hv). rewrite decide_True in Hv by done. by apply IH.
  - intros (e & He & Hm & _ & [= -> ->])%lookup_entries_blobs; [|done]. destruct (Hes e He) as (_ & _ & Hv). by rewrite decide_False in Hv.
Qed.

(** ** Changes by level *)

Lemma lookup_direct (staged : gmap string (option (string * Id))) p :
  direct_changes staged !! p = match split_once "/" p with None => staged !! p | Some _ => None end.
Proof.
  unfold direct_changes. destruct (split_once "/" p) eqn:E.
  - apply map_lookup_filter_None. right. intros c _. cbn. by rewrite E.
  - destruct (staged !! p) as [c|] eqn:Ec; [by apply map_lookup_filter_Some|]. apply map_lookup_filter_None. by left.
Qed.
Definition deeper_spec (staged : gmap string (option (string * Id))) (acc : gmap string (gmap string (option (string * Id)))) : Prop :=
  (∀ h r, contains "/" h = false → acc !! h ≫= (.!! r) = staged !! (h +:+ String "/" r)) ∧
  (∀ h sub, acc !! h = Some sub → contains "/" h = false ∧ sub ≠ ∅).
Lemma deeper_changes_spec (staged : gmap string (option (string * Id))) : deeper_spec staged (deeper_changes staged).
Proof.
  unfold deeper_changes. apply (map_fold_weak_ind (λ acc staged, deeper_spec staged acc)); [split; [done|]; by intros h sub ?|].
  intros path c m acc Hm (H1 & H2). destruct (split_once "/" path) as [[h r]|] eqn:Hs.
  - apply split_once_Some in Hs as [-> Hh]. split.
    + intros h' r' Hh'. destruct (decide (h = h')) as [<-|Hne].
      * rewrite lookup_partial_alter_eq. cbn. destruct (decide (r = r')) as [<-|Hr].
        -- by rewrite !lookup_insert_eq.
        -- rewrite (lookup_insert_ne m) by (intros [_ ?]%path_inj; done). rewrite lookup_insert_ne, <-H1 by done.
           destruct (acc !! h); [done|]. cbn. by rewrite lookup_empty.
      * rewrite lookup_partial_alter_ne by done. rewrite lookup_insert_ne; [by apply H1|]. by intros [? _]%path_inj.
    + intros h' sub. destruct (decide (h = h')) as [<-|Hne].
      * rewrite lookup_partial_alter_eq. intros [= <-]. split; [done|]. apply insert_non_empty.
      * rewrite lookup_partial_alter_ne by done. apply H2.
  - split; [|done]. intros h' r' Hh'. rewrite lookup_insert_ne; [by apply H1|]. intros ->. by rewrite split_once_app in Hs.
Qed.

(** ** Writing *)

Definition sound objs : Prop := ∀ id o, objs !! id = Some o → id = hash o.
Definition grows objs objs' : Prop := objs ⊆ objs' ∧ sound objs'.
Lemma grows_refl objs : sound objs → grows objs objs.
Proof. by split. Qed.
Lemma grows_trans o1 o2 o3 : grows o1 o2 → grows o2 o3 → grows o1 o3.
Proof. intros [H1 _] [H2 H3]. split; [by etransitivity|done]. Qed.
Lemma insert_grows `{!Inj (=) (=) hash} objs o : sound objs → grows objs (<[hash o := o]> objs).
Proof.
  intros Hs. split.
  - apply map_subseteq_spec. intros id o' Ho. destruct (decide (hash o = id)) as [Hid|Hid]; [|by rewrite lookup_insert_ne].
    pose proof (Hs _ _ Ho) as E. rewrite <-Hid in E. apply (inj hash) in E as ->. by rewrite Hid, lookup_insert_eq.
  - intros id o'. rewrite lookup_insert_Some. intros [[<- <-]|[_ Ho]]; [done|by apply Hs].
Qed.

Lemma elem_of_level_entries blobs (trees : gmap string Id) e :
  e ∈ level_entries blobs trees ↔
  (∃ k t, trees !! k = Some t ∧ e = {| entry_mode := MODE_TREE; entry_name := k; entry_id := t |}) ∨
  (∃ k m b, blobs !! k = Some (m, b) ∧ e = {| entry_mode := m; entry_name := k; entry_id := b |}).
Proof.
  unfold level_entries. rewrite elem_of_app, !list_elem_of_fmap. split.
  - intros [([k t] & -> & Hk%elem_of_map_to_list)|([k [m b]] & -> & Hk%elem_of_map_to_list)]; [left; by exists k, t|right; by exists k, m, b].
  - intros [(k & t & Hk & ->)|(k & m & b & Hk & ->)]; [left; exists (k, t)|right; exists (k, (m, b))]; by rewrite elem_of_map_to_list.
Qed.
Lemma sort_entries_perm (es : list (TreeEntry Id)) : sort_entries es ≡ₚ es.
Proof. apply merge_sort_Permutation. Qed.
Definition apart (blobs : gmap string (string * Id)) (trees : gmap string Id) : Prop := ∀ k, blobs !! k = None ∨ trees !! k = None.
Lemma level_entries_NoDup blobs (trees : gmap string Id) : apart blobs trees → NoDup (entry_name <$> level_entries blobs trees).
Proof.
  intros Hd. unfold level_entries. rewrite fmap_app, <-!list_fmap_compose. apply NoDup_app. split; [apply NoDup_fst_map_to_list|]. split.
  - intros k ([k1 t] & -> & Ht%elem_of_map_to_list)%list_elem_of_fmap ([k2 v] & Hk & Hv%elem_of_map_to_list)%list_elem_of_fmap. cbn in *. subst.
    destruct (Hd k2); congruence.
  - apply NoDup_fst_map_to_list.
Qed.
Definition blobs_ok objs (blobs : gmap string (string * Id)) : Prop :=
  ∀ k m b, blobs !! k = Some (m, b) → k ≠ "" ∧ contains "/" k = false ∧ file_mode m ∧ has_blob objs b.
Definition trees_ok objs (trees : gmap string Id) : Prop := ∀ k t, trees !! k = Some t → k ≠ "" ∧ contains "/" k = false ∧ tree_ok objs t.
Lemma file_mode_not_tree m : file_mode m → m ≠ MODE_TREE.
Proof. unfold file_mode. intros Hm ->. by rewrite !elem_of_cons, elem_of_nil in Hm; destruct Hm as [?|[?|[]]]. Qed.
Lemma level_maps objs blobs trees :
  apart blobs trees → blobs_ok objs blobs → let es := sort_entries (level_entries blobs trees) in
  NoDup (entry_name <$> es) ∧ entries_blobs es = blobs ∧ entries_trees es = trees.
Proof.
  intros Hd Hb es. assert (Hnd : NoDup (entry_name <$> es)) by (unfold es; rewrite sort_entries_perm; by apply level_entries_NoDup).
  assert (Hin : ∀ e, e ∈ es ↔ e ∈ level_entries blobs trees) by (intros e; unfold es; by rewrite sort_entries_perm). setoid_rewrite elem_of_level_entries in Hin.
  split; [done|]. split; apply map_eq; intros k; apply option_eq; intros v.
  - rewrite lookup_entries_blobs by done. setoid_rewrite Hin. split.
    + intros (e & [(k' & t & Ht & ->)|(k' & m & b & Hk & ->)] & Hm & Hn & ->); cbn in *; [done|by subst].
    + destruct v as [m b]. intros Hk. exists {| entry_mode := m; entry_name := k; entry_id := b |}. cbn. destruct (Hb k m b Hk) as (_ & _ & Hf & _).
      split; [right; by exists k, m, b|]. by split; [apply file_mode_not_tree|].
  - rewrite lookup_entries_trees by done. setoid_rewrite Hin. split.
    + intros (e & [(k' & t & Ht & ->)|(k' & m & b & Hk & ->)] & Hm & Hn & ->); cbn in *; [by subst|].
      destruct (Hb _ _ _ Hk) as (_ & _ & Hf & _). by apply file_mode_not_tree in Hf.
    + intros Hk. exists {| entry_mode := MODE_TREE; entry_name := k; entry_id := v |}. cbn. split; [left; by exists k, v|done].
Qed.
(** Writing the entries of a level gives a sound tree with these blobs and trees. *)
Lemma write_level `{!Inj (=) (=) hash} objs blobs trees :
  sound objs → apart blobs trees → blobs_ok objs blobs → trees_ok objs trees →
  match write_tree hash encodable (level_entries blobs trees) objs with
  | (objs', Ok t) => grows objs objs' ∧ tree_ok objs' t ∧
      ∀ p, file_at objs' t p = match split_once "/" p with None => blobs !! p | Some (h, r) => trees !! h ≫= (λ c, file_at objs' c r) end
  | (objs', Err e) => objs' = objs ∧ (∃ o, encodable o = false) ∧ e = Corrupt "<new-tree>" "refused"
  end.
Proof.
  intros Hs Hd Hb Ht. destruct (level_maps objs blobs trees Hd Hb) as (Hnd & Eb & Et). unfold write_tree. set (es := sort_entries _) in *.
  assert (Hes : ∀ e, e ∈ es → entry_ok objs e).
  { intros e. unfold es. rewrite sort_entries_perm, elem_of_level_entries. intros [(k & t & Hk & ->)|(k & m & b & Hk & ->)].
    - destruct (Ht k t Hk) as (? & ? & ?). repeat split; [done..|]. by rewrite decide_True.
    - destruct (Hb k m b Hk) as (? & ? & Hm & ?). repeat split; [done..|]. cbn. rewrite decide_False by by apply file_mode_not_tree. done. }
  assert (Hmodes : filter (λ e, entry_mode e ∉ [MODE_TREE; MODE_EXEC; MODE_FILE]) es = []).
  { apply list_filter_none. intros e He Hm. destruct (Hes e He) as (_ & _ & Hv). case_decide as Htree; [by apply Hm; rewrite Htree; left|].
    apply Hm. right. apply Hv. }
  rewrite Hmodes. cbn [head]. unfold write_object. destruct (encodable (Tree es)) eqn:Henc; [|split; [done|]; split; [by exists (Tree es)|done]].
  pose proof (insert_grows objs (Tree es) Hs) as [Hsub Hs']. split; [done|].
  assert (Hok : tree_ok (<[hash (Tree es):=Tree es]> objs) (hash (Tree es))).
  { apply (tree_ok_intro _ _ es); [by rewrite lookup_insert_eq|done|]. intros e He. destruct (Hes e He) as (H1 & H2 & H3).
    split; [done|]. split; [done|]. case_decide; [by apply (tree_ok_weaken objs)|]. destruct H3 as [? [bytes ?]]. split; [done|]. exists bytes. by eapply lookup_weaken. }
  split; [done|]. intros p. destruct (tree_ok_inv _ _ Hok) as (es' & Hes' & _ & _ & Hf). rewrite lookup_insert_eq in Hes'. injection Hes' as <-.
  rewrite Hf. unfold files_of. rewrite Eb, Et. done.
Qed.

(** ** Building a level *)

Context `{!Inj (=) (=) hash}.
Definition files_in objs (parent : option Id) (p : string) : option (string * Id) := parent ≫= (λ t, file_at objs t p).
Definition parent_ok objs (parent : option Id) : Prop := ∀ t, parent = Some t → tree_ok objs t.
Definition staged_ok objs (n : nat) (staged : gmap string (option (string * Id))) : Prop :=
  ∀ p c, staged !! p = Some c → proper p ∧ String.length p < n ∧ ∀ m b, c = Some (m, b) → file_mode m ∧ has_blob objs b.
Definition level_result objs (staged : gmap string (option (string * Id))) (F : string → option (string * Id))
    (out : gmap Id (Object Id) * result GitStoreError (option Id)) : Prop :=
  grows objs out.1 ∧
  match out.2 with
  | Ok o => ¬ clash staged F ∧ parent_ok out.1 o ∧ applied staged F (files_in out.1 o)
  | Err e => (∃ r, e = InvalidInput r) ∧ clash staged F ∨ ∃ o, encodable o = false
  end.

Lemma files_in_weaken objs objs' parent p : objs ⊆ objs' → parent_ok objs parent → files_in objs' parent p = files_in objs parent p.
Proof. intros Hsub Hp. destruct parent as [t|]; [|done]. cbn. by apply (tree_ok_weaken objs objs' t Hsub), Hp. Qed.
Lemma parent_ok_weaken objs objs' parent : objs ⊆ objs' → parent_ok objs parent → parent_ok objs' parent.
Proof. intros Hsub Hp t Ht. by apply (tree_ok_weaken objs objs' t Hsub), Hp. Qed.
Lemma blob_weaken objs objs' b : objs ⊆ objs' → has_blob objs b → has_blob objs' b.
Proof. intros Hsub [bytes Hb]. exists bytes. by eapply lookup_weaken. Qed.
Lemma staged_ok_weaken objs objs' n staged : objs ⊆ objs' → staged_ok objs n staged → staged_ok objs' n staged.
Proof.
  intros Hsub Hs p c Hc. destruct (Hs p c Hc) as (H1 & H2 & H3). split; [done|]. split; [done|]. intros m b Hb. destruct (H3 m b Hb) as [? ?].
  split; [done|]. by eapply blob_weaken.
Qed.
Lemma trees_ok_weaken objs objs' trees : objs ⊆ objs' → trees_ok objs trees → trees_ok objs' trees.
Proof. intros Hsub Ht k t Hk. destruct (Ht k t Hk) as (? & ? & ?). split; [done|]. split; [done|]. by apply (tree_ok_weaken objs). Qed.
Lemma trees_ok_parent objs trees h : trees_ok objs trees → parent_ok objs (trees !! h).
Proof. intros Ht t Hh. by apply (Ht h). Qed.

Definition build_ok (n : nat) : Prop := ∀ parent staged objs,
  0 < n → sound objs → staged_ok objs n staged → parent_ok objs parent →
  level_result objs staged (files_in objs parent) (build_tree_level hash hex encodable n parent staged objs).
Definition children_result objs (blobs : gmap string (string * Id)) (trees : gmap string Id) (l : list (string * gmap string (option (string * Id))))
    (out : gmap Id (Object Id) * result GitStoreError (gmap string Id)) : Prop :=
  grows objs out.1 ∧
  match out.2 with
  | Ok trees' => trees_ok out.1 trees' ∧ (∀ h, h ∉ l.*1 → trees' !! h = trees !! h) ∧
      ∀ h sub, (h, sub) ∈ l → blobs !! h = None ∧ ¬ clash sub (files_in objs (trees !! h)) ∧
        applied sub (files_in objs (trees !! h)) (files_in out.1 (trees' !! h))
  | Err e => (∃ r, e = InvalidInput r) ∧ (∃ h sub, (h, sub) ∈ l ∧ (is_Some (blobs !! h) ∨ clash sub (files_in objs (trees !! h)))) ∨ ∃ o, encodable o = false
  end.
Lemma children_ok n objs (blobs : gmap string (string * Id)) trees (l : list (string * gmap string (option (string * Id)))) :
  build_ok n → sound objs → NoDup l.*1 → trees_ok objs trees →
  (∀ h sub, (h, sub) ∈ l → h ≠ "" ∧ contains "/" h = false ∧ sub ≠ ∅ ∧ staged_ok objs n sub) →
  children_result objs blobs trees l (foldr (add_child (build_tree_level hash hex encodable n) blobs) (mret trees) l objs).
Proof.
  intros Hbuild Hs Hnd Ht Hl. induction l as [|[h sub] l IH]; cbn [foldr].
  { split; [by apply grows_refl|]. split; [done|]. split; [done|]. by intros h sub ?%elem_of_nil. }
  apply NoDup_cons in Hnd as [Hh Hnd]. specialize (IH Hnd). destruct IH as [Hg IH]; [intros h' sub' Hin; apply Hl; by right|].
  set (m := foldr (add_child (build_tree_level hash hex encodable n) blobs) (mret trees) l) in *. clearbody m.
  unfold add_child. destruct (m objs) as [objs1 [trees1|e]] eqn:E; cbn [fst snd] in *.
  2: { rewrite (bind_Err _ _ _ _ _ E). split; [done|]. destruct IH as [(He & h' & sub' & Hin & ?)|He]; [left|by right]. split; [done|].
       exists h', sub'. split; [by right|done]. }
  rewrite (bind_Ok _ _ _ _ _ E). cbn [fst snd]. destruct IH as (Ht1 & Hrest & Hdone). destruct Hg as [Hsub Hs1].
  destruct (Hl h sub) as (Hne & Hslash & Hsub0 & Hst); [by left|]. pose proof (staged_ok_weaken _ _ _ _ Hsub Hst) as Hst1.
  destruct (blobs !! h) as [v|] eqn:Hb.
  { split; [by split|]. left. split; [by eexists|]. exists h, sub. split; [by left|]. left. by rewrite Hb. }
  assert (Hn : 0 < n). { apply map_choose in Hsub0 as (r & c & Hr). destruct (Hst r c Hr) as (_ & ? & _). lia. }
  pose proof (Hbuild (trees1 !! h) sub objs1 Hn Hs1 Hst1 (trees_ok_parent _ _ _ Ht1)) as [Hg2 Hres].
  assert (HF : ∀ p, files_in objs1 (trees1 !! h) p = files_in objs (trees !! h) p).
  { intros p. rewrite Hrest by done. apply files_in_weaken; [done|by apply trees_ok_parent]. }
  destruct (build_tree_level hash hex encodable n (trees1 !! h) sub objs1) as [objs2 [o|e]] eqn:E2; cbn [fst snd] in *.
  2: { rewrite (bind_Err _ _ _ _ _ E2). split; [by eapply grows_trans; [split|]|]. destruct Hres as [[He Hc]|He]; [left|by right]. split; [done|].
       exists h, sub. split; [by left|]. right. by eapply clash_ext. }
  rewrite (bind_Ok _ _ _ _ _ E2). destruct Hres as (Hnc & Hpo & Happ). destruct Hg2 as [Hsub2 Hs2]. split; [split; [by etransitivity|done]|]. cbn [fst snd].
  split; [|split].
  - intros k t. destruct (decide (h = k)) as [<-|Hk]; [|rewrite lookup_partial_alter_ne by done; apply (trees_ok_weaken objs1); done].
    rewrite lookup_partial_alter_eq. intros Ho. split; [done|]. split; [done|]. by apply Hpo.
  - intros k [Hk Hkl]%not_elem_of_cons. cbn in Hk. rewrite lookup_partial_alter_ne by done. by apply Hrest.
  - intros h' sub' [[= -> ->]|Hin]%elem_of_cons.
    + split; [done|]. split; [intros Hc; apply Hnc; eapply clash_ext; [|exact Hc]; done|]. rewrite lookup_partial_alter_eq.
      eapply applied_ext; [exact HF|done|exact Happ].
    + assert (h ≠ h') by (intros <-; apply Hh; by apply (list_elem_of_fmap_2 fst _ (h, sub'))). destruct (Hdone h' sub' Hin) as (H1 & H2 & H3).
      split; [done|]. split; [done|]. rewrite lookup_partial_alter_ne by done. eapply applied_ext; [done| |exact H3]. intros p. cbn. symmetry.
      apply files_in_weaken; [done|by apply trees_ok_parent].
Qed.

(** The changes below a directory. *)
Definition sub_of (staged : gmap string (option (string * Id))) (h : string) : gmap string (option (string * Id)) := default ∅ (deeper_changes staged !! h).
Lemma lookup_sub_of staged h r : contains "/" h = false → sub_of staged h !! r = staged !! (h +:+ String "/" r).
Proof. intros Hh. rewrite <-(proj1 (deeper_changes_spec staged)) by done. unfold sub_of. destruct (deeper_changes staged !! h); [done|]. cbn. apply lookup_empty. Qed.
Lemma under_cons staged h r : contains "/" h = false → under_change staged (h +:+ String "/" r) ↔ is_Some (staged !! h) ∨ under_change (sub_of staged h) r.
Proof.
  intros Hh. split.
  - intros (q & r' & c & E & Hc). destruct (split_once "/" q) as [[h' q']|] eqn:Hq.
    + apply split_once_Some in Hq as [-> Hh']. rewrite append_assoc in E. apply path_inj in E as [<- ->]; [|done..]. right. exists q', r', c.
      split; [done|]. by rewrite lookup_sub_of.
    + apply split_once_None in Hq. apply path_inj in E as [<- _]; [|done..]. left. by exists c.
  - intros [[c Hc]|(q & r' & c & -> & Hc)]; [by exists h, r, c|]. exists (h +:+ String "/" q), r', c. rewrite append_assoc. split; [done|]. by rewrite <-lookup_sub_of.
Qed.


Section level.
  Context (objs : gmap Id (Object Id)) (es : list (TreeEntry Id)) (staged : gmap string (option (string * Id))).
  Context (Hnd : NoDup (entry_name <$> es)) (Hes : ∀ e, e ∈ es → entry_ok objs e).
  #[local] Notation F := (files_of objs es).
  #[local] Notation direct := (direct_changes staged).
  #[local] Notation blobs := (apply_direct direct (entries_blobs es)).
  #[local] Notation trees := (drop_replaced direct (entries_trees es)).

Lemma lookup_blobs k : blobs !! k = match direct !! k with Some c => c | None => entries_blobs es !! k end.
Proof. unfold apply_direct. rewrite lookup_merge. generalize direct. intros d. by destruct (d !! k) as [c|], (entries_blobs es !! k) as [v|]. Qed.
Lemma lookup_trees k : trees !! k = match direct !! k with Some _ => None | None => entries_trees es !! k end.
Proof.
  unfold drop_replaced. destruct (direct !! k) eqn:E.
  - apply map_lookup_filter_None. right. intros t _. cbn. by rewrite E.
  - destruct (entries_trees es !! k) eqn:Et; [by apply map_lookup_filter_Some|]. apply map_lookup_filter_None. by left.
Qed.
Lemma direct_slashless h : contains "/" h = false → direct !! h = staged !! h.
Proof. intros Hh. rewrite lookup_direct. by rewrite (proj2 (split_once_None _ _) Hh). Qed.
Lemma files_slashless h : contains "/" h = false → F h = entries_blobs es !! h.
Proof. intros Hh. unfold files_of. by rewrite (proj2 (split_once_None _ _) Hh). Qed.
Lemma files_below h r : contains "/" h = false → files_in objs (trees !! h) r = match staged !! h with Some _ => None | None => F (h +:+ String "/" r) end.
Proof.
  intros Hh. rewrite lookup_trees, direct_slashless by done. destruct (staged !! h); [done|]. unfold files_of. by rewrite split_once_app.
Qed.
Lemma holds_slashless h : contains "/" h = false → holds_file staged F h ↔ is_Some (blobs !! h).
Proof.
  intros Hh. unfold holds_file. rewrite lookup_blobs, direct_slashless, files_slashless by done. pose proof (under_slashless staged h Hh).
  destruct (staged !! h) as [[v|]|]; split; [by eexists|left; by eexists| | | |by right]; [|by intros [? ?]|by intros [[? ?]|(_ & _ & ?)]]; intros [[? ?]|[? _]]; done.
Qed.
Lemma holds_cons h d : contains "/" h = false → holds_file staged F (h +:+ String "/" d) ↔ holds_file (sub_of staged h) (files_in objs (trees !! h)) d.
Proof.
  intros Hh. unfold holds_file. rewrite !lookup_sub_of, files_below, under_cons by done. destruct (staged !! h) as [c|].
  - split; [|intros [?|(_ & _ & [? ?])]; [by left|done]]. intros [?|(_ & Hu & _)]; [by left|]. destruct Hu. left. by eexists.
  - assert (Hn : ¬ is_Some (@None (option (string * Id)))) by by intros [? ?]. tauto.
Qed.
Lemma clash_level :
  clash staged F ↔ ∃ h, contains "/" h = false ∧ ((∃ r c, staged !! (h +:+ String "/" r) = Some c) ∧ is_Some (blobs !! h) ∨ clash (sub_of staged h) (files_in objs (trees !! h))).
Proof.
  split.
  - intros (d & r & c & Hc & Hd). destruct (split_once "/" d) as [[h d']|] eqn:Es.
    + apply split_once_Some in Es as [-> Hh]. exists h. split; [done|]. right. exists d', r, c. rewrite lookup_sub_of by done. rewrite append_assoc in Hc.
      split; [exact Hc|]. by apply holds_cons.
    + apply split_once_None in Es. exists d. split; [done|]. left. split; [by exists r, c|]. by apply holds_slashless.
  - intros (h & Hh & [[(r & c & Hc) Hb]|(d & r & c & Hc & Hd)]).
    + exists h, r, c. split; [done|]. by apply holds_slashless.
    + exists (h +:+ String "/" d), r, c. rewrite append_assoc. rewrite lookup_sub_of in Hc by done. split; [done|]. by apply holds_cons.
Qed.
(** Level by level. *)
Lemma applied_level (G : string → option (string * Id)) :
  (∀ h, contains "/" h = false → G h = blobs !! h) →
  (∀ h, contains "/" h = false → applied (sub_of staged h) (files_in objs (trees !! h)) (λ r, G (h +:+ String "/" r))) →
  applied staged F G.
Proof.
  intros H1 H2 p. destruct (split_once "/" p) as [[h r]|] eqn:Es.
  - apply split_once_Some in Es as [-> Hh]. specialize (H2 h Hh r). rewrite lookup_sub_of in H2 by done. destruct (staged !! (h +:+ String "/" r)); [done|].
    rewrite under_cons by done. destruct H2 as [H2 H3]. rewrite files_below in H3 by done. destruct (staged !! h) as [c|] eqn:Ec.
    + split; [|intros Hu; destruct Hu; left; by eexists]. intros _. destruct (under_dec (sub_of staged h) r); [by apply H2|by apply H3].
    + split; [intros [[? ?]|?]; [done|by apply H2]|]. intros Hu. apply H3. tauto.
  - apply split_once_None in Es. pose proof (under_slashless staged p Es). rewrite H1, lookup_blobs, direct_slashless by done.
    destruct (staged !! p); [done|]. split; [done|]. intros _. by rewrite files_slashless.
Qed.
Lemma entries_apart k : entries_blobs es !! k = None ∨ entries_trees es !! k = None.
Proof.
  destruct (entries_blobs es !! k) as [v|] eqn:Eb; [|by left]. destruct (entries_trees es !! k) as [t|] eqn:Et; [|by right].
  apply lookup_entries_blobs in Eb as (e & He & Hm & Hk & _); [|done]. apply lookup_entries_trees in Et as (e' & He' & Hm' & Hk' & _); [|done].
  assert (e = e') as ->; [|done]. eapply NoDup_fmap_eq; [exact Hnd|done..|congruence].
Qed.
Lemma level_trees_ok : trees_ok objs trees.
Proof.
  intros k t. rewrite lookup_trees. destruct (direct !! k); [done|]. intros (e & He & Hm & <- & ->)%lookup_entries_trees; [|done].
  destruct (Hes e He) as (H1 & H2 & H3). rewrite decide_True in H3 by done. done.
Qed.
Lemma level_blobs_ok n : staged_ok objs n staged → blobs_ok objs blobs.
Proof.
  intros Hst k m b. rewrite lookup_blobs, lookup_direct. destruct (split_once "/" k) as [[h r]|] eqn:Es.
  { intros (e & He & _ & <- & _)%lookup_entries_blobs; [|done]. destruct (Hes e He) as (_ & H2 & _). by apply split_once_None in H2; rewrite H2 in Es. }
  apply split_once_None in Es. destruct (staged !! k) as [c|] eqn:Ec.
  - intros ->. destruct (Hst k _ Ec) as (Hp & _ & Hmb). rewrite proper_one in Hp by done. by destruct (Hmb m b eq_refl).
  - intros (e & He & Hm & <- & [= -> ->])%lookup_entries_blobs; [|done]. destruct (Hes e He) as (H1 & H2 & H3). by rewrite decide_False in H3.
Qed.
Lemma level_apart (trees' : gmap string Id) :
  (∀ h, h ∉ (map_to_list (deeper_changes staged)).*1 → trees' !! h = trees !! h) →
  (∀ h sub, (h, sub) ∈ map_to_list (deeper_changes staged) → blobs !! h = None) → apart blobs trees'.
Proof.
  intros H1 H2 k. destruct (decide (k ∈ (map_to_list (deeper_changes staged)).*1)) as [Hk|Hk].
  - apply list_elem_of_fmap in Hk as ([h sub] & -> & Hin). left. by eapply H2.
  - rewrite H1, lookup_trees, lookup_blobs by done. destruct (direct !! k); [by right|]. apply entries_apart.
Qed.
Lemma sub_of_in h sub : (h, sub) ∈ map_to_list (deeper_changes staged) → contains "/" h = false ∧ sub ≠ ∅ ∧ sub_of staged h = sub.
Proof.
  intros Hin%elem_of_map_to_list. destruct (proj2 (deeper_changes_spec staged) h sub Hin). unfold sub_of. by rewrite Hin.
Qed.
Lemma sub_of_out h : h ∉ (map_to_list (deeper_changes staged)).*1 → sub_of staged h = ∅.
Proof.
  intros Hh. unfold sub_of. destruct (deeper_changes staged !! h) as [sub|] eqn:E; [|done]. destruct Hh.
  apply elem_of_map_to_list in E. by apply (list_elem_of_fmap_2 fst _ (h, sub)).
Qed.
Lemma level_children n : staged_ok objs (S n) staged → ∀ h sub, (h, sub) ∈ map_to_list (deeper_changes staged) →
  h ≠ "" ∧ contains "/" h = false ∧ sub ≠ ∅ ∧ staged_ok objs n sub.
Proof.
  intros Hst h sub (Hh & Hne & <-)%sub_of_in. apply map_choose in Hne as (r & c & Hr). pose proof Hr as Hr'. rewrite lookup_sub_of in Hr' by done.
  pose proof (proj1 (Hst _ _ Hr')) as Hp. rewrite proper_cons in Hp by done. split; [by apply Hp|]. split; [done|]. split; [by intros E; rewrite E in Hr|].
  intros p c' Hc'. rewrite lookup_sub_of in Hc' by done. destruct (Hst _ _ Hc') as (Hp' & Hlen & Hm). rewrite proper_cons in Hp' by done.
  pose proof (length_rest h p). split; [by apply Hp'|]. split; [lia|done].
Qed.
Lemma clash_children :
  (∃ h sub, (h, sub) ∈ map_to_list (deeper_changes staged) ∧ (is_Some (blobs !! h) ∨ clash sub (files_in objs (trees !! h)))) ↔ clash staged F.
Proof.
  rewrite clash_level. split.
  - intros (h & sub & (Hh & Hne & <-)%sub_of_in & Hc). exists h. split; [done|]. destruct Hc as [Hb|Hc]; [left|by right]. split; [|done].
    apply map_choose in Hne as (r & c & Hr). exists r, c. by rewrite <-lookup_sub_of.
  - intros (h & Hh & Hc). destruct (decide (h ∈ (map_to_list (deeper_changes staged)).*1)) as [Hin|Hout].
    + apply list_elem_of_fmap in Hin as ([h' sub] & -> & Hin). cbn in *. pose proof (sub_of_in _ _ Hin) as (_ & _ & E). rewrite E in Hc.
      exists h', sub. split; [done|]. destruct Hc as [[_ Hb]|Hc]; [by left|by right].
    + apply sub_of_out in Hout. destruct Hc as [[(r & c & Hc) _]|(d & r & c & Hc & _)].
      * by rewrite <-lookup_sub_of, Hout in Hc.
      * by rewrite Hout in Hc.
Qed.
(** The changed children and the blobs of the level make the whole. *)
Lemma level_applied objs' (trees' : gmap string Id) (G : string → option (string * Id)) :
  objs ⊆ objs' →
  (∀ h, h ∉ (map_to_list (deeper_changes staged)).*1 → trees' !! h = trees !! h) →
  (∀ h sub, (h, sub) ∈ map_to_list (deeper_changes staged) → applied sub (files_in objs (trees !! h)) (files_in objs' (trees' !! h))) →
  (∀ h, contains "/" h = false → G h = blobs !! h) →
  (∀ h r, contains "/" h = false → G (h +:+ String "/" r) = files_in objs' (trees' !! h) r) → applied staged F G.
Proof.
  intros Hsub H1 H2 HG1 HG2. apply applied_level; [done|]. intros h Hh. eapply applied_ext; [done|intros p; symmetry; by apply HG2|].
  destruct (decide (h ∈ (map_to_list (deeper_changes staged)).*1)) as [Hin|Hout].
  - apply list_elem_of_fmap in Hin as ([h' sub] & -> & Hin). pose proof (sub_of_in _ _ Hin) as (_ & _ & E). cbn. rewrite E. by apply H2.
  - rewrite sub_of_out, H1 by done. apply applied_empty. intros p. apply files_in_weaken; [done|]. apply trees_ok_parent, level_trees_ok.
Qed.
End level.

Lemma build_entries n parent staged objs : parent_ok objs parent →
  ∃ es, NoDup (entry_name <$> es) ∧ (∀ e, e ∈ es → entry_ok objs e) ∧ (∀ p, files_in objs parent p = files_of objs es p) ∧
    build_tree_level hash hex encodable (S n) parent staged objs =
      (let blobs := apply_direct (direct_changes staged) (entries_blobs es) in
       trees ← foldr (add_child (build_tree_level hash hex encodable n) blobs) (mret (drop_replaced (direct_changes staged) (entries_trees es)))
         (map_to_list (deeper_changes staged));
       if decide (blobs = ∅ ∧ trees = ∅) then mret None else id ← write_tree hash encodable (level_entries blobs trees); mret (Some id)) objs.
Proof.
  intros Hp. destruct parent as [t|].
  - destruct (tree_ok_inv objs t (Hp t eq_refl)) as (es & Hid & Hnd & Hes & Hf). exists es. split; [done|]. split; [done|]. split; [exact Hf|].
    cbn [build_tree_level]. rewrite (bind_Ok _ _ objs objs objs) by done. rewrite (bind_Ok _ _ objs objs es); [done|].
    unfold lift, read_tree, find_data. by rewrite Hid.
  - exists []. split; [constructor|]. split; [by intros e ?%elem_of_nil|]. split; [|done]. intros p. unfold files_of. by destruct (split_once "/" p) as [[h r]|].
Qed.
(** A level either makes its changes, or finds a path through a file. *)
Lemma build_level n : build_ok n.
Proof.
  induction n as [|n IH]; intros parent staged objs Hn Hs Hst Hp; [lia|]. destruct (build_entries n parent staged objs Hp) as (es & Hnd & Hes & HF & ->).
  set (blobs := apply_direct _ _). set (l := map_to_list _). set (trees := drop_replaced _ _). cbv zeta.
  pose proof (children_ok n objs blobs trees l IH Hs (NoDup_fst_map_to_list _) (level_trees_ok objs es staged Hnd Hes)
    (level_children objs staged n Hst)) as [Hg Hres].
  pose proof (clash_children objs es staged) as Hclash.
  set (m := foldr (add_child (build_tree_level hash hex encodable n) blobs) (mret trees) l) in *. clearbody m.
  destruct (m objs) as [objs1 [trees1|e]] eqn:E; cbn [fst snd] in *.
  2: { rewrite (bind_Err _ _ _ _ _ E). split; [done|]. cbn. destruct Hres as [[He Hc]|He]; [left|by right]. split; [done|].
       eapply clash_ext; [|by apply Hclash]. intros p. by rewrite HF. }
  rewrite (bind_Ok _ _ _ _ _ E). destruct Hres as (Ht1 & Hout & Hin). pose proof Hg as [Hsub1 Hs1].
  assert (Hnc : ¬ clash staged (files_in objs parent)).
  { intros Hc. eapply clash_ext in Hc; [|exact HF]. apply Hclash in Hc as (h & sub & Hl & Hc). destruct (Hin h sub Hl) as (Hb & Hnc & _).
    destruct Hc as [Hc|Hc]; [|done]. change (is_Some (blobs !! h)) in Hc. rewrite Hb in Hc. by destruct Hc. }
  assert (Hap : apart blobs trees1) by (eapply level_apart; [done|exact Hout|intros h sub Hl; by eapply Hin]).
  assert (Hblobs : blobs_ok objs1 blobs).
  { intros k md b Hk. destruct (level_blobs_ok objs es staged Hnd Hes _ Hst k md b Hk) as (? & ? & ? & ?). repeat split; [done..|by eapply blob_weaken]. }
  assert (Happ : ∀ objs2 (G : string → option (string * Id)), objs1 ⊆ objs2 → (∀ h, contains "/" h = false → G h = blobs !! h) →
    (∀ h r, contains "/" h = false → G (h +:+ String "/" r) = files_in objs2 (trees1 !! h) r) → applied staged (files_in objs parent) G).
  { intros objs2 G Hsub2 HG1 HG2. eapply applied_ext; [intros p; symmetry; apply HF|done|].
    apply (level_applied objs es staged Hnd Hes objs1 trees1); [done|exact Hout|intros h sub Hl; by apply Hin|done|].
    intros h r Hh. rewrite HG2 by done. apply files_in_weaken; [done|]. by apply trees_ok_parent. }
  case_decide as Hemp.
  - destruct Hemp as [Hb0 Ht0]. split; [done|]. cbn. split; [done|]. split; [by intros t ?|]. apply (Happ objs1); [done|..].
    + intros h _. by rewrite Hb0, lookup_empty.
    + intros h r _. by rewrite Ht0, lookup_empty.
  - pose proof (write_level objs1 blobs trees1 Hs1 Hap Hblobs Ht1) as Hw.
    destruct (write_tree hash encodable (level_entries blobs trees1) objs1) as [objs2 [t|e]] eqn:Ew.
    + rewrite (bind_Ok _ _ _ _ _ Ew). destruct Hw as (Hg2 & Hok & Hf). split; [by eapply grows_trans|]. cbn. split; [done|].
      split; [by intros t' [= <-]|]. apply (Happ objs2); [by apply Hg2|..].
      * intros h Hh. change (file_at objs2 t h = blobs !! h). rewrite Hf. by rewrite (proj2 (split_once_None _ _) Hh).
      * intros h r Hh. change (file_at objs2 t (h +:+ String "/" r) = files_in objs2 (trees1 !! h) r). rewrite Hf. by rewrite split_once_app.
    + rewrite (bind_Err _ _ _ _ _ Ew). destruct Hw as (-> & He & _). split; [done|]. by right.
Qed.
(** ** Files by their bytes *)

Definition of_blob objs (mb : string * Id) : option (string * string) := match objs !! mb.2 with Some (Blob bytes) => Some (mb.1, bytes) | _ => None end.
Definition content objs (parent : option Id) (p : string) : option (string * string) := files_in objs parent p ≫= of_blob objs.
Definition blob_of (mb : string * string) : string * Id := (mb.1, hash (Blob mb.2)).
Definition staged_of (changes : gmap string (option (string * string))) : gmap string (option (string * Id)) := (λ c : option (string * string), blob_of <$> c) <$> changes.
Definition changes_ok (changes : gmap string (option (string * string))) : Prop :=
  ∀ p c, changes !! p = Some c → proper p ∧ ∀ m bytes, c = Some (m, bytes) → file_mode m.

Lemma lookup_staged_of changes p : staged_of changes !! p = (λ c : option (string * string), blob_of <$> c) <$> changes !! p.
Proof. apply lookup_fmap. Qed.
Lemma write_blobs_list (l : list (string * option (string * string))) objs : sound objs →
  ∃ objs', foldr (λ (kv : string * option (string * string)) m,
      staged ← m;
      match kv.2 with
      | Some (mode, bytes) => blob ← write_blob hash bytes; mret (<[kv.1 := Some (mode, blob)]> staged)
      | None => mret (<[kv.1 := None]> staged)
      end) (mret ∅) l objs = (objs', Ok (list_to_map ((λ kv : string * option (string * string), (kv.1, blob_of <$> kv.2)) <$> l) : gmap string (option (string * Id)))) ∧
    grows objs objs' ∧ ∀ k m bytes, (k, Some (m, bytes)) ∈ l → has_blob objs' (hash (Blob bytes)).
Proof.
  intros Hs. induction l as [|[k c] l IH].
  { exists objs. split; [done|]. split; [by apply grows_refl|]. by intros k m b ?%elem_of_nil. }
  destruct IH as (objs1 & E & Hg & Hb). cbn [foldr fst snd]. set (m := foldr _ _ l) in *. clearbody m. rewrite (bind_Ok _ _ _ _ _ E).
  destruct c as [[mode bytes]|].
  - exists (<[hash (Blob bytes) := Blob bytes]> objs1). split; [done|]. destruct Hg as [Hsub Hs1]. pose proof (insert_grows objs1 (Blob bytes) Hs1) as Hg2.
    split; [by eapply grows_trans|]. intros k' m' b' [[= -> -> ->]|Hin]%elem_of_cons.
    + exists bytes. by rewrite lookup_insert_eq.
    + apply (blob_weaken objs1); [by apply Hg2|by eapply Hb].
  - exists objs1. split; [done|]. split; [done|]. intros k' m' b' [[=]|Hin]%elem_of_cons. by eapply Hb.
Qed.
Lemma write_blobs_ok changes objs : sound objs →
  ∃ objs', write_blobs hash changes objs = (objs', Ok (staged_of changes)) ∧ grows objs objs' ∧
    ∀ p m bytes, changes !! p = Some (Some (m, bytes)) → has_blob objs' (hash (Blob bytes)).
Proof.
  intros Hs. destruct (write_blobs_list (map_to_list changes) objs Hs) as (objs' & E & Hg & Hb). exists objs'. split; [|split; [done|]].
  - unfold write_blobs. rewrite E. f_equal. f_equal. unfold staged_of. rewrite <-(list_to_map_to_list changes) at 2. by rewrite <-list_to_map_fmap.
  - intros p m bytes Hp%elem_of_map_to_list. by eapply Hb.
Qed.
Lemma level_fuel_spec (staged : gmap string (option (string * Id))) p c : staged !! p = Some c → String.length p < level_fuel staged.
Proof.
  unfold level_fuel. revert p c. apply (map_fold_weak_ind (λ acc (staged : gmap string (option (string * Id))), ∀ p c, staged !! p = Some c → String.length p < S acc)); [done|].
  intros q c m acc _ IH p c'. rewrite lookup_insert_Some. intros [[<- _]|[_ Hp]]; [lia|]. specialize (IH p c' Hp). lia.
Qed.
Lemma content_None objs parent p : parent_ok objs parent → content objs parent p = None ↔ files_in objs parent p = None.
Proof.
  intros Hp. unfold content. destruct (files_in objs parent p) as [[m b]|] eqn:E; [|done]. destruct parent as [t|]; [|done].
  destruct (file_at_blob objs t p m b (Hp t eq_refl) E) as [_ [bytes Hb]]. cbn. unfold of_blob. cbn. by rewrite Hb.
Qed.
Lemma content_weaken objs objs' parent p : objs ⊆ objs' → parent_ok objs parent → content objs' parent p = content objs parent p.
Proof.
  intros Hsub Hp. unfold content. rewrite (files_in_weaken objs objs') by done. destruct (files_in objs parent p) as [[m b]|] eqn:E; [|done].
  destruct parent as [t|]; [|done]. destruct (file_at_blob objs t p m b (Hp t eq_refl) E) as [_ [bytes Hb]]. cbn. unfold of_blob. cbn. rewrite Hb.
  by rewrite (lookup_weaken _ _ _ _ Hb Hsub).
Qed.
Lemma under_staged_of changes p : under_change (staged_of changes) p ↔ under_change changes p.
Proof.
  unfold under_change. setoid_rewrite lookup_staged_of. split; intros (q & r & c & -> & Hc).
  - destruct (changes !! q) as [c'|] eqn:E; [|done]. by exists q, r, c'.
  - exists q, r, (blob_of <$> c). by rewrite Hc.
Qed.
Lemma clash_staged_of objs parent changes : parent_ok objs parent →
  clash (staged_of changes) (files_in objs parent) ↔ clash changes (content objs parent).
Proof.
  intros Hp. assert (Hh : ∀ d, holds_file (staged_of changes) (files_in objs parent) d ↔ holds_file changes (content objs parent) d).
  { intros d. unfold holds_file. rewrite under_staged_of, lookup_staged_of. rewrite <-!not_eq_None_Some. rewrite content_None by done.
    destruct (changes !! d) as [[mb|]|]; cbn; naive_solver. }
  unfold clash. setoid_rewrite Hh. setoid_rewrite lookup_staged_of. split; intros (d & r & c & Hc & Hd).
  - destruct (changes !! (d +:+ String "/" r)) as [c'|] eqn:E; [|done]. by exists d, r, c'.
  - exists d, r, (blob_of <$> c). by rewrite Hc.
Qed.
Lemma applied_staged_of objs parent objs' o changes :
  objs ⊆ objs' → parent_ok objs parent → (∀ p m bytes, changes !! p = Some (Some (m, bytes)) → objs' !! hash (Blob bytes) = Some (Blob bytes)) →
  applied (staged_of changes) (files_in objs parent) (files_in objs' o) → applied changes (content objs parent) (content objs' o).
Proof.
  intros Hsub Hp Hb Ha p. specialize (Ha p). rewrite lookup_staged_of in Ha. destruct (changes !! p) as [[[m bytes]|]|] eqn:E; cbn in *.
  - unfold content. rewrite Ha. cbn. unfold of_blob. cbn. by rewrite (Hb _ _ _ E).
  - unfold content. by rewrite Ha.
  - rewrite under_staged_of in Ha. destruct Ha as [H1 H2]. split.
    + intros Hu. unfold content. by rewrite H1.
    + intros Hu. rewrite <-(content_weaken objs objs' parent p) by done. unfold content. rewrite H2 by done.
      by rewrite (files_in_weaken objs objs').
Qed.
Lemma staged_of_ok objs' changes : changes_ok changes → (∀ p m bytes, changes !! p = Some (Some (m, bytes)) → has_blob objs' (hash (Blob bytes))) →
  staged_ok objs' (level_fuel (staged_of changes)) (staged_of changes).
Proof.
  intros Hc Hb p c Hp. split; [|split; [by eapply level_fuel_spec|]]; rewrite lookup_staged_of in Hp; destruct (changes !! p) as [c'|] eqn:E; try done.
  - by apply (Hc p c').
  - intros m b ->. destruct c' as [[m' bytes]|]; [|done]. injection Hp as <- <-. split; [by apply (proj2 (Hc p _ E) m' bytes)|by eapply Hb].
Qed.
(** The empty tree. *)
Lemma write_empty objs : sound objs →
  match write_tree hash encodable [] objs with
  | (objs', Ok t) => grows objs objs' ∧ tree_ok objs' t ∧ ∀ p, files_in objs' (Some t) p = None
  | (objs', Err e) => objs' = objs ∧ ∃ o, encodable o = false
  end.
Proof.
  intros Hs. pose proof (write_level objs ∅ ∅ Hs) as Hw. unfold level_entries in Hw. rewrite !map_to_list_empty in Hw. cbn [fmap list_fmap app] in Hw.
  destruct (write_tree hash encodable [] objs) as [objs' [t|e]].
  - destruct Hw as (Hg & Hok & Hf); [intros k; by left|done..|]. split; [done|]. split; [done|]. intros p. change (file_at objs' t p = None). rewrite Hf.
    by destruct (split_once "/" p) as [[h r]|].
  - destruct Hw as (-> & He & _); [intros k; by left|done..|]. done.
Qed.
Lemma blob_at objs bytes : sound objs → has_blob objs (hash (Blob bytes)) → objs !! hash (Blob bytes) = Some (Blob bytes).
Proof. intros Hs [bytes' Hb]. pose proof (Hs _ _ Hb) as E. apply (inj hash) in E. by injection E as ->. Qed.
(** The result of building a tree. *)
Definition build_result objs parent changes (out : gmap Id (Object Id) * result GitStoreError Id) : Prop :=
  grows objs out.1 ∧
  match out.2 with
  | Ok t => ¬ clash changes (content objs parent) ∧ tree_ok out.1 t ∧ applied changes (content objs parent) (content out.1 (Some t))
  | Err e => (∃ r, e = InvalidInput r) ∧ clash changes (content objs parent) ∨ ∃ o, encodable o = false
  end.
Lemma build_changed objs parent changes : sound objs → parent_ok objs parent → changes_ok changes →
  build_result objs parent changes
    ((staged ← write_blobs hash changes;
      o ← build_tree_level hash hex encodable (level_fuel staged) parent staged;
      match o with Some id => mret id | None => write_tree hash encodable [] end) objs).
Proof.
  intros Hs Hp Hc. destruct (write_blobs_ok changes objs Hs) as (objs1 & E & Hg & Hb). rewrite (bind_Ok _ _ _ _ _ E). pose proof Hg as [Hsub1 Hs1].
  pose proof (parent_ok_weaken objs objs1 parent Hsub1 Hp) as Hp1.
  assert (Hlev : level_result objs1 (staged_of changes) (files_in objs1 parent)
    (build_tree_level hash hex encodable (level_fuel (staged_of changes)) parent (staged_of changes) objs1)).
  { apply build_level; [unfold level_fuel; lia|done|by apply staged_of_ok|done]. }
  destruct Hlev as [Hg2 Hres]. destruct (build_tree_level _ _ _ _ _ _ objs1) as [objs2 [o|e]] eqn:E2; cbn [fst snd] in *.
  2: { rewrite (bind_Err _ _ _ _ _ E2). split; [by eapply grows_trans|]. destruct Hres as [[He Hcl]|He]; [left|by right]. split; [done|].
       apply (clash_staged_of objs1) in Hcl; [|done]. eapply clash_ext; [|exact Hcl]. intros p. by apply content_weaken. }
  rewrite (bind_Ok _ _ _ _ _ E2). destruct Hres as (Hnc & Hpo & Happ). pose proof Hg2 as [Hsub2 Hs2].
  assert (Hnc' : ¬ clash changes (content objs parent)).
  { intros Hcl. apply Hnc, clash_staged_of; [done|]. eapply clash_ext; [|exact Hcl]. intros p. symmetry. by apply content_weaken. }
  assert (Ha : ∀ objs3 o', objs2 ⊆ objs3 → (∀ p, files_in objs3 o' p = files_in objs2 o p) → applied changes (content objs parent) (content objs3 o')).
  { intros objs3 o' Hsub3 Hf. eapply applied_ext; [intros p; by apply (content_weaken objs objs1)|done|].
    apply (applied_staged_of objs1); [by etransitivity|done| |].
    - intros p m bytes Hpm. apply (lookup_weaken objs1); [apply blob_at; [exact Hs1|by eapply Hb]|by etransitivity].
    - eapply applied_ext; [done|intros p; symmetry; apply Hf|done]. }
  destruct o as [t|].
  - change (build_result objs parent changes (objs2, Ok t)). split; [by eapply grows_trans|]. split; [done|]. split; [by apply Hpo|]. by apply Ha.
  - pose proof (write_empty objs2 Hs2) as Hw. destruct (write_tree hash encodable [] objs2) as [objs3 [t|e]].
    + destruct Hw as (Hg3 & Hok & Hf). split; [exact (grows_trans _ _ _ Hg (grows_trans _ _ _ Hg2 Hg3))|]. split; [done|]. split; [done|]. apply Ha; [by apply Hg3|].
      intros p. rewrite Hf. done.
    + destruct Hw as [-> He]. split; [by eapply grows_trans|by right].
Qed.
Lemma build_tree_ok objs parent changes : sound objs → parent_ok objs parent → changes_ok changes →
  build_result objs parent changes (build_tree_from_parent hash hex encodable parent changes objs).
Proof.
  intros Hs Hp Hc. unfold build_tree_from_parent. assert (Hnc : ∀ F, ¬ clash (∅ : gmap string (option (string * string))) F).
  { intros F (d & r & c & Hd & _). by rewrite lookup_empty in Hd. }
  destruct parent as [t|]; (destruct (decide (changes = ∅)) as [->|Hne]; [|by apply build_changed]).
  - split; [by apply grows_refl|]. cbn. split; [apply Hnc|]. split; [by apply Hp|]. by apply applied_empty.
  - pose proof (write_empty objs Hs) as Hw. destruct (write_tree hash encodable [] objs) as [objs' [t|e]].
    + destruct Hw as (Hg & Hok & Hf). split; [done|]. split; [apply Hnc|]. split; [done|]. apply applied_empty. intros p. unfold content. by rewrite Hf.
    + destruct Hw as [-> He]. split; [by apply grows_refl|by right].
Qed.
Lemma collect_map_ok {A B} (f : A → result GitStoreError B) (g : A → B) (m : gmap string A) :
  (∀ k a, m !! k = Some a → f a = Ok (g a)) → collect_map f m = Ok (g <$> m).
Proof.
  intros Hf. setoid_rewrite <-elem_of_map_to_list in Hf. rewrite <-(list_to_map_to_list m) at 2. rewrite <-list_to_map_fmap. unfold collect_map.
  induction (map_to_list m) as [|[k a] l IH]; [done|]. cbn [foldr fmap list_fmap]. rewrite IH by (intros ???; eapply Hf; by right). rewrite ok_bind. cbn.
  by rewrite (Hf k a) by by left.
Qed.
(** Reading the bytes of a sound tree. *)
Lemma tree_to_bytes_ok objs t : tree_ok objs t → ∃ B, tree_to_bytes hex t objs = Ok B ∧ ∀ p, B !! p = snd <$> content objs (Some t) p.
Proof.
  intros Hok. destruct (tree_to_files_ok objs t Hok) as (F & E & HF). unfold tree_to_bytes. rewrite E, ok_bind.
  assert (Hall : ∀ p m b, F !! p = Some (m, b) → has_blob objs b) by (intros p m b Hp; rewrite HF in Hp; by apply (file_at_blob objs t p m b)).
  rewrite (collect_map_ok _ (λ mb : string * Id, match objs !! mb.2 with Some (Blob bytes) => bytes | _ => "" end)).
  - eexists. split; [done|]. intros p. rewrite lookup_fmap, HF. unfold content. change (files_in objs (Some t) p) with (file_at objs t p). destruct (file_at objs t p) as [[m b]|] eqn:Ep; [|done].
    rewrite <-HF in Ep. destruct (Hall p m b Ep) as [bytes Hb]. cbn. unfold of_blob. cbn. by rewrite Hb.
  - intros p [m b] Hp. destruct (Hall p m b Hp) as [bytes Hb]. unfold read_blob, find_data. cbn. by rewrite Hb.
Qed.
End trees.
