(* ===== verification/GitWalks.v ===== *)
(** Walks of the object store's commit graph: a walk lists the reachable
    commits once each, so [is_ancestor] decides reachability and [merge_base]
    finds a common ancestor where there is one. *)

From S2P Require Import Prelude Strings Numbers GitStore.

Section walks.
  Context {Id : Type} `{Countable Id} (hash : Object Id → Id) (hex : Id → string).
  Implicit Types (objs : gmap Id (Object Id)) (seen V : gset Id) (stack tips : list Id).

(** An edge to a parent; the anchor's parents are out of scope. *)
Definition parent_edge objs (stop : option Id) (x y : Id) : Prop := ∃ c, objs !! x = Some (Commit c) ∧ stop ≠ Some x ∧ y ∈ stored_parents c.
Definition reaches objs (stop : option Id) : Id → Id → Prop := rtc (parent_edge objs stop).
Definition is_commit objs (x : Id) : Prop := ∃ c, objs !! x = Some (Commit c).

Lemma read_commit_Ok objs id c : read_commit hex id objs = Ok c ↔ ∃ s, objs !! id = Some (Commit s) ∧ c = of_stored id s.
Proof.
  unfold read_commit, find_data. destruct (objs !! id) as [[b|es|s]|] eqn:E; cbn; split; try done; try (by intros (? & ? & _)).
  - intros [= <-]. by exists s.
  - by intros (s' & [= <-] & ->).
Qed.
Lemma read_commit_Err objs id e : read_commit hex id objs = Err e → ¬ is_commit objs id.
Proof. intros He [c Hc]. unfold read_commit, find_data in He. by rewrite Hc in He. Qed.
Lemma commit_id_of id s : commit_id (of_stored (Id := Id) id s) = id.
Proof. done. Qed.

(** ** Fuel *)

(** The parents still to be pushed. *)
Definition weight objs seen : nat := sum_list_with (λ kv, if decide (kv.1 ∈ seen) then 0 else parent_count kv.2) (map_to_list objs).
Lemma weight_visit objs seen id o : objs !! id = Some o → id ∉ seen → weight objs ({[id]} ∪ seen) + parent_count o = weight objs seen.
Proof.
  intros Hid Hs. unfold weight. assert (E : map_to_list objs ≡ₚ (id, o) :: map_to_list (delete id objs)) by (symmetry; by apply map_to_list_delete).
  assert (Hsum : ∀ (f : Id * Object Id → nat) l l', l ≡ₚ l' → sum_list_with f l = sum_list_with f l').
  { intros f l l' Hl. induction Hl; cbn; lia. }
  rewrite !(Hsum _ _ _ E). cbn. rewrite decide_True by set_solver. rewrite decide_False by done.
  enough (Hrest : ∀ l : list (Id * Object Id), id ∉ l.*1 →
    sum_list_with (λ kv : Id * Object Id, if decide (kv.1 ∈ ({[id]} ∪ seen : gset Id)) then 0 else parent_count kv.2) l =
    sum_list_with (λ kv : Id * Object Id, if decide (kv.1 ∈ seen) then 0 else parent_count kv.2) l).
  { rewrite Hrest; [lia|]. intros ([k v] & -> & Hk%elem_of_map_to_list)%list_elem_of_fmap. cbn in Hk. by rewrite lookup_delete_eq in Hk. }
  intros l. induction l as [|[k v] l IH]; [done|]. cbn. intros [Hk Hl]%not_elem_of_cons. rewrite IH by done.
  destruct (decide (k ∈ seen)); [rewrite decide_True by set_solver|rewrite decide_False by set_solver]; done.
Qed.
Lemma weight_le objs seen id : weight objs ({[id]} ∪ seen) ≤ weight objs seen.
Proof.
  unfold weight. induction (map_to_list objs) as [|[k v] l IH]; [done|]. cbn.
  destruct (decide (k ∈ seen)); [rewrite decide_True by set_solver; lia|]. destruct (decide (k ∈ {[id]} ∪ seen)); lia.
Qed.
Lemma walk_fuel_weight objs tips : walk_fuel objs tips = List.length tips + weight objs ∅.
Proof.
  unfold walk_fuel, weight. f_equal. rewrite map_fold_foldr. induction (map_to_list objs) as [|[k v] l IH]; [done|]. cbn. by rewrite IH.
Qed.

(** ** The walk *)

Definition walked objs stop n stack seen : list Id := commit_id <$> walk hex n objs stop stack seen.
Lemma walk_sound n objs stop stack seen id :
  id ∈ walked objs stop n stack seen → id ∉ seen ∧ is_commit objs id ∧ ∃ t, t ∈ stack ∧ reaches objs stop t id.
Proof.
  unfold walked. revert stack seen. induction n as [|n IH]; intros stack seen; [by intros ?%elem_of_nil|]. destruct stack as [|x stack]; [by intros ?%elem_of_nil|].
  cbn [walk]. case_decide as Hx.
  { intros (? & ? & t & ? & ?)%IH. split; [done|]. split; [done|]. exists t. split; [by right|done]. }
  destruct (read_commit hex x objs) as [c|e] eqn:Er.
  - apply read_commit_Ok in Er as (s & Hs & ->). cbn [fmap list_fmap]. rewrite elem_of_cons, commit_id_of. intros [->|Hin].
    + split; [done|]. split; [by exists s|]. exists x. split; [by left|apply rtc_refl].
    + apply IH in Hin as (Hn & Hc & t & Ht & Hr). split; [set_solver|]. split; [done|]. case_decide as Hstop.
      * exists t. split; [by right|done].
      * apply elem_of_app in Ht as [Ht|Ht]; [|exists t; split; [by right|done]]. exists x. split; [by left|].
        eapply rtc_l; [|exact Hr]. by exists s.
  - intros (Hn & Hc & t & Ht & Hr)%IH. split; [set_solver|]. split; [done|]. exists t. split; [by right|done].
Qed.
Lemma walk_NoDup n objs stop stack seen : NoDup (walked objs stop n stack seen).
Proof.
  unfold walked. revert stack seen. induction n as [|n IH]; intros stack seen; [apply NoDup_nil_2|]. destruct stack as [|x stack]; [apply NoDup_nil_2|].
  cbn [walk]. case_decide as Hx; [apply IH|]. destruct (read_commit hex x objs) as [c|e] eqn:Er; [|apply IH].
  apply read_commit_Ok in Er as (s & Hs & ->). cbn [fmap list_fmap]. apply NoDup_cons. rewrite commit_id_of. split; [|apply IH].
  intros (Hn & _)%walk_sound. set_solver.
Qed.
(** What was seen has its parents seen or pending. *)
Definition closed_upto objs stop seen (pending : gset Id) : Prop := ∀ x y, x ∈ seen → parent_edge objs stop x y → y ∈ seen ∪ pending.
Lemma walk_complete n objs stop stack seen :
  List.length stack + weight objs seen ≤ n → closed_upto objs stop seen (list_to_set stack) →
  ∃ V, seen ∪ list_to_set stack ⊆ V ∧ closed_upto objs stop V ∅ ∧ ∀ id, id ∈ V → id ∉ seen → is_commit objs id → id ∈ walked objs stop n stack seen.
Proof.
  unfold walked. revert stack seen. induction n as [|n IH]; intros stack seen Hn Hc.
  { destruct stack; [|cbn in Hn; lia]. exists seen. split; [set_solver|]. split; [done|]. intros id ? ?. done. }
  destruct stack as [|x stack].
  { exists seen. split; [set_solver|]. split; [done|]. intros id ? ?. done. }
  cbn [walk]. cbn [List.length] in Hn. case_decide as Hx.
  { destruct (IH stack seen) as (V & HV & HVc & Hout); [lia| |exists V; split; [set_solver|done]].
    intros a b Ha Hab. specialize (Hc a b Ha Hab). set_solver. }
  destruct (read_commit hex x objs) as [c|e] eqn:Er.
  - apply read_commit_Ok in Er as (s & Hs & ->). pose proof (weight_visit objs seen x _ Hs Hx) as Hw. cbn [parent_count] in Hw.
    destruct (IH (if decide (stop = Some x) then stack else parents (of_stored x s) ++ stack) ({[x]} ∪ seen)) as (V & HV & HVc & Hout).
    + case_decide; [lia|]. rewrite length_app. cbn [parents of_stored]. lia.
    + intros a b Ha Hab. apply elem_of_union in Ha as [->%elem_of_singleton|Ha].
      * destruct Hab as (s' & Hs' & Hstop & Hb). rewrite Hs in Hs'. injection Hs' as <-. rewrite decide_False by done. rewrite list_to_set_app_L. cbn. set_solver.
      * specialize (Hc a b Ha Hab). case_decide; [|rewrite list_to_set_app_L]; set_solver.
    + exists V. split; [|split; [done|]].
      * case_decide; [|rewrite list_to_set_app_L in HV]; set_solver.
      * intros id Hid Hns Hcm. cbn [fmap list_fmap]. rewrite commit_id_of. destruct (decide (id = x)) as [->|]; [by left|]. right. apply Hout; [done|set_solver|done].
  - pose proof (weight_le objs seen x). destruct (IH stack ({[x]} ∪ seen)) as (V & HV & HVc & Hout); [lia| |].
    + intros a b Ha Hab. apply elem_of_union in Ha as [->%elem_of_singleton|Ha].
      * destruct Hab as (s & Hs & _). by destruct (read_commit_Err objs x e Er); exists s.
      * specialize (Hc a b Ha Hab). set_solver.
    + exists V. split; [set_solver|]. split; [done|]. intros id Hid Hns Hcm. apply Hout; [done| |done].
      intros [->%elem_of_singleton|?]%elem_of_union; [|done]. by apply (read_commit_Err objs x e Er).
Qed.
Lemma closed_reaches objs stop V x y : closed_upto objs stop V ∅ → x ∈ V → reaches objs stop x y → y ∈ V.
Proof. intros Hc Hx Hr. induction Hr as [|a b c Hab _ IH]; [done|]. apply IH. specialize (Hc a b Hx Hab). set_solver. Qed.
(** A walk lists the commits its tips reach. *)
Lemma walk_graph_spec objs stop tips id :
  id ∈ commit_id <$> walk_graph hex objs stop tips ↔ is_commit objs id ∧ ∃ t, t ∈ tips ∧ reaches objs stop t id.
Proof.
  split.
  - intros (_ & ? & ?)%walk_sound. done.
  - intros (Hcm & t & Ht & Hr). destruct (walk_complete (walk_fuel objs tips) objs stop tips ∅) as (V & HV & HVc & Hout).
    + by rewrite walk_fuel_weight.
    + intros a b Ha. set_solver.
    + apply Hout; [|set_solver|done]. eapply closed_reaches; [done| |done]. set_solver.
Qed.
Lemma walk_graph_NoDup objs stop tips : NoDup (commit_id <$> walk_graph hex objs stop tips).
Proof. apply walk_NoDup. Qed.
Lemma walk_graph_commits objs stop tips c : c ∈ walk_graph hex objs stop tips → read_commit hex (commit_id c) objs = Ok c.
Proof.
  unfold walk_graph. generalize (walk_fuel objs tips). intros n. generalize (∅ : gset Id). intros seen. revert tips seen.
  induction n as [|n IH]; intros stack seen; [by intros ?%elem_of_nil|]. destruct stack as [|x stack]; [by intros ?%elem_of_nil|].
  cbn [walk]. case_decide; [apply IH|]. destruct (read_commit hex x objs) as [c'|e] eqn:Er; [|apply IH].
  intros [->|Hin]%elem_of_cons; [|by eapply IH]. pose proof Er as (s & _ & ->)%read_commit_Ok. exact Er.
Qed.

(** ** Ancestors *)

Lemma is_ancestor_spec objs stop a d : is_ancestor hex objs stop a d = true ↔ a = d ∨ is_commit objs a ∧ reaches objs stop d a.
Proof.
  unfold is_ancestor. rewrite orb_true_iff, !bool_decide_eq_true, walk_graph_spec. setoid_rewrite list_elem_of_singleton. naive_solver.
Qed.
Lemma merge_base_spec objs stop a b :
  match merge_base hex objs stop a b with
  | Some m => a = b ∧ m = a ∨ is_commit objs m ∧ reaches objs stop a m ∧ reaches objs stop b m
  | None => a ≠ b ∧ ∀ m, is_commit objs m → reaches objs stop a m → reaches objs stop b m → False
  end.
Proof.
  unfold merge_base. case_decide as Hab; [by left|]. set (A := list_to_set _ : gset Id).
  assert (HA : ∀ m, m ∈ A ↔ is_commit objs m ∧ reaches objs stop a m).
  { intros m. unfold A. rewrite elem_of_list_to_set, walk_graph_spec. setoid_rewrite list_elem_of_singleton. naive_solver. }
  assert (HB : ∀ m, m ∈ filter (.∈ A) (commit_id <$> walk_graph hex objs stop [b]) ↔ (is_commit objs m ∧ reaches objs stop a m) ∧ reaches objs stop b m).
  { intros m. rewrite list_elem_of_filter, walk_graph_spec, HA. setoid_rewrite list_elem_of_singleton. naive_solver. }
  destruct (filter (.∈ A) _) as [|m l]; cbn.
  - split; [done|]. intros m H1 H2 H3. assert (Hm : m ∈ @nil Id) by by apply HB. by apply elem_of_nil in Hm.
  - right. assert (Hm : m ∈ m :: l) by by left. apply HB in Hm. naive_solver.
Qed.
End walks.
