(* ===== verification/FileManager.v ===== *)
(** The file checkpoint manager: checkpoint-file/src/file/git_write.rs,
    git_merge.rs, merge.rs, session.rs, actor.rs and redo_store.rs, with
    branch/feature.rs and naming.rs (infra/checkpoint).

    The manager drives the refs of the object store: actors commit on their edit
    refs and may undo; reviews, features and main carry the merges.  Review
    states, the source index and the redo stacks are the tables of the store
    ([SqliteStorage]) and their mirrors; that a table cannot be written, events
    and files put into the worktree are left out.  An operation takes the actor
    that its entity resolves to. *)

From S2P Require Import Prelude Strings Numbers DeltaChain GitStore.

(** * Names and paths *)

Definition RESERVED_FEATURE_NAMES : list string := ["main"; "human"].
Definition is_reserved_feature_name (name : string) : bool := bool_decide (name ∈ RESERVED_FEATURE_NAMES).
Definition is_feature_branch_name (name : string) : bool := bool_decide (name ≠ "") && negb (contains "/" name).

Definition backslash : ascii := "092".
Fixpoint normalize_posix_separators (path : string) : string :=
  match path with
  | "" => ""
  | String a path => String (if decide (a = backslash) then "/"%char else a) (normalize_posix_separators path)
  end.
(** The components of a path under no root: empty ones and dots are skipped. *)
Fixpoint normalize_components (path : string) (ws acc : list string) : result CheckpointError (list string) :=
  match ws with
  | [] => Ok acc
  | w :: ws =>
      if decide (w = "" ∨ w = ".") then normalize_components path ws acc
      else if decide (w = "..") then
        match acc with
        | [] => Err (Validation ("file path escapes workspace: '" +:+ path +:+ "'"))
        | _ => normalize_components path ws (removelast acc)
        end
      else normalize_components path ws (acc ++ [w])
  end.
Definition validate_workspace_relative_path (path : string) : result CheckpointError string :=
  if decide (trim path = "") then Err (Validation "file path must not be empty")
  else
    let unified := normalize_posix_separators path in
    if starts_with "/" unified then Err (Validation ("file path must be workspace-relative: '" +:+ path +:+ "'"))
    else
      ws ← normalize_components path (split "/" unified) [];
      match ws with
      | [] => Err (Validation ("file path must name a file: '" +:+ path +:+ "'"))
      | _ => Ok (normalize_posix_separators (String.concat "/" ws))
      end.

(** * Conflict regions *)

Record GitConflictRegion : Type := {
  start_line : nat;
  end_line : nat;
  base_lines : list string;
  ours_lines : list string;
  theirs_lines : list string;
}.
(** Outside a conflict, in its first side, its base, its second side. *)
Inductive ConflictState : Type := Outside | InOurs | InBase | InTheirs.
Record RegionScan : Type := { scan_state : ConflictState; scan_start : nat; scan_ours : list string; scan_base : list string; scan_theirs : list string }.
Definition scan_region (c : RegionScan) (stop : nat) : GitConflictRegion :=
  {| start_line := scan_start c; end_line := stop; base_lines := scan_base c; ours_lines := scan_ours c; theirs_lines := scan_theirs c |}.
Definition scan_to (s : ConflictState) (c : RegionScan) : RegionScan :=
  {| scan_state := s; scan_start := scan_start c; scan_ours := scan_ours c; scan_base := scan_base c; scan_theirs := scan_theirs c |}.
Definition scan_line (idx : nat) (line : string) (c : RegionScan) : RegionScan * list GitConflictRegion :=
  let push := {| scan_state := scan_state c; scan_start := scan_start c;
                 scan_ours := match scan_state c with InOurs => scan_ours c ++ [line] | _ => scan_ours c end;
                 scan_base := match scan_state c with InBase => scan_base c ++ [line] | _ => scan_base c end;
                 scan_theirs := match scan_state c with InTheirs => scan_theirs c ++ [line] | _ => scan_theirs c end |} in
  match scan_state c with
  | Outside => (if decide (line = "<<<<<<< ours") then {| scan_state := InOurs; scan_start := idx; scan_ours := []; scan_base := []; scan_theirs := [] |} else c, [])
  | InOurs => (if starts_with "|||||||" line then scan_to InBase c else if decide (line = "=======") then scan_to InTheirs c else push, [])
  | InBase => (if decide (line = "=======") then scan_to InTheirs c else push, [])
  | InTheirs =>
      if starts_with ">>>>>>>" line
      then ({| scan_state := Outside; scan_start := scan_start c; scan_ours := []; scan_base := []; scan_theirs := [] |}, [scan_region c (S idx)])
      else (push, [])
  end.
Fixpoint scan_lines (idx : nat) (lines : list string) (c : RegionScan) : list GitConflictRegion :=
  match lines with
  | [] => match scan_state c with Outside => [] | _ => [scan_region c idx] end
  | line :: lines => let '(c', out) := scan_line idx line c in out ++ scan_lines (S idx) lines c'
  end.
Definition parse_conflict_regions (text : string) : list GitConflictRegion :=
  scan_lines 0 (str_lines text) {| scan_state := Outside; scan_start := 0; scan_ours := []; scan_base := []; scan_theirs := [] |}.
Record GitConflictDetail : Type := { detail_file : string; detail_binary : bool; detail_regions : list GitConflictRegion }.
Definition conflict_details (merged : gmap string (option string)) (conflicts : list string) : list GitConflictDetail :=
  (λ file,
    let regions := match merged !! file with Some (Some text) => parse_conflict_regions text | _ => [] end in
    {| detail_file := file; detail_binary := bool_decide (regions = []); detail_regions := regions |}) <$> conflicts.

(** * State *)

Inductive ReviewStatus : Type := Pending | Approved | Rejected.
#[export] Instance ReviewStatus_eq_dec : EqDecision ReviewStatus.
Proof. solve_decision. Defined.
Record SourceIndexEntry : Type := {
  source_actor : string;
  source_session : string;
  source_tool : string;
  source_paths : list string;
  source_timestamp : Z;
}.
Record PendingEditBatch : Type := {
  batch_label : option string;
  batch_actor : string;
  batch_created_at : Z;
  batch_files : gmap string (option string);
}.
Record ConflictStatus : Type := { unresolved : bool; conflict_status_files : list string }.
Definition clean : ConflictStatus := {| unresolved := false; conflict_status_files := [] |}.
Definition MAX_REDO_ENTRIES : nat := 50.

Section manager.
  Context {Id : Type} `{Countable Id} (hash : Object Id → Id) (hex : Id → string) (encodable : Object Id → bool).
  Context (short_digest : string → string) (full_name_ok : string → bool) (text_merge : string → string → string → string * bool).
  (** What other writers do to the store between a read of a ref and the swap;
      the clocks of the store's and of the manager's commits; SHA-256 in hex. *)
  Context (others : nat → GitStore Id → GitStore Id) (now : nat → Z) (clock : nat → option Z) (sha256_hex : string → string).

(** [clock_reads] counts the readings of the manager's clock. *)
Record FileCheckpointManager : Type := {
  git : GitStore Id;
  review_state : gmap string ReviewStatus;
  redo_stacks : gmap string (list Id);
  latest_checkpoints : gmap string Id;
  pending_batches : gmap string PendingEditBatch;
  source_index : gmap Id SourceIndexEntry;
  groups_begun : nat;
  clock_reads : nat;
}.
Implicit Types m : FileCheckpointManager.
Definition set_git (g : GitStore Id) m : FileCheckpointManager :=
  {| git := g; review_state := review_state m; redo_stacks := redo_stacks m; latest_checkpoints := latest_checkpoints m;
     pending_batches := pending_batches m; source_index := source_index m; groups_begun := groups_begun m; clock_reads := clock_reads m |}.
Definition set_review (r : gmap string ReviewStatus) m : FileCheckpointManager :=
  {| git := git m; review_state := r; redo_stacks := redo_stacks m; latest_checkpoints := latest_checkpoints m;
     pending_batches := pending_batches m; source_index := source_index m; groups_begun := groups_begun m; clock_reads := clock_reads m |}.
Definition set_redo (r : gmap string (list Id)) m : FileCheckpointManager :=
  {| git := git m; review_state := review_state m; redo_stacks := r; latest_checkpoints := latest_checkpoints m;
     pending_batches := pending_batches m; source_index := source_index m; groups_begun := groups_begun m; clock_reads := clock_reads m |}.
Definition set_latest (l : gmap string Id) m : FileCheckpointManager :=
  {| git := git m; review_state := review_state m; redo_stacks := redo_stacks m; latest_checkpoints := l;
     pending_batches := pending_batches m; source_index := source_index m; groups_begun := groups_begun m; clock_reads := clock_reads m |}.
Definition set_batches (b : gmap string PendingEditBatch) m : FileCheckpointManager :=
  {| git := git m; review_state := review_state m; redo_stacks := redo_stacks m; latest_checkpoints := latest_checkpoints m;
     pending_batches := b; source_index := source_index m; groups_begun := groups_begun m; clock_reads := clock_reads m |}.
Definition set_index (s : gmap Id SourceIndexEntry) m : FileCheckpointManager :=
  {| git := git m; review_state := review_state m; redo_stacks := redo_stacks m; latest_checkpoints := latest_checkpoints m;
     pending_batches := pending_batches m; source_index := s; groups_begun := groups_begun m; clock_reads := clock_reads m |}.
Definition tick m : FileCheckpointManager :=
  {| git := git m; review_state := review_state m; redo_stacks := redo_stacks m; latest_checkpoints := latest_checkpoints m;
     pending_batches := pending_batches m; source_index := source_index m; groups_begun := groups_begun m; clock_reads := S (clock_reads m) |}.
Definition begun m : FileCheckpointManager :=
  {| git := git m; review_state := review_state m; redo_stacks := redo_stacks m; latest_checkpoints := latest_checkpoints m;
     pending_batches := pending_batches m; source_index := source_index m; groups_begun := S (groups_begun m); clock_reads := clock_reads m |}.
#[local] Notation op := (SE FileCheckpointManager CheckpointError).

Definition map_git_error (e : GitStoreError) : CheckpointError :=
  match e with
  | Uninitialized reason => Coordinator reason
  | RefNotFound id | ObjectNotFound id => NotFound id
  | RefConflict name => Branch ("concurrent ref update conflict on '" +:+ name +:+ "'")
  | Corrupt id reason => Corrupted id reason
  | InvalidInput reason => Validation reason
  | Baseline reason => Internal ("checkpoint baseline unavailable: " +:+ reason)
  | Sync reason => Internal ("checkpoint sync unavailable: " +:+ reason)
  | GitIo reason => Internal ("git store io: " +:+ reason)
  end.
Definition on_git {A} (o : SE (GitStore Id) GitStoreError A) : op A := λ m,
  match o (git m) with
  | (g, Ok a) => (set_git g m, Ok a)
  | (g, Err e) => (set_git g m, Err (map_git_error e))
  end.
(** An operation of the store whose conflicts the caller handles. *)
Definition on_git_swap (o : SE (GitStore Id) GitStoreError ()) : op bool := λ m,
  match o (git m) with
  | (g, Ok _) => (set_git g m, Ok true)
  | (g, Err (RefConflict _)) => (set_git g m, Ok false)
  | (g, Err e) => (set_git g m, Err (map_git_error e))
  end.
Definition from_git {A} (f : GitStore Id → result GitStoreError A) : op A := on_git (λ g, (g, f g)).
Definition meanwhile (n : nat) : op () := modify (λ m, set_git (others n (git m)) m).
Definition creation_timestamp : op Z := λ m,
  (tick m, match clock (clock_reads m) with Some t => Ok t | None => Err (Internal "checkpoint clock unavailable; refusing to stamp a checkpoint") end).
Definition commit_of (id : Id) : op (GitCommit Id) := from_git (λ g, read_commit hex id (objects g)).
Definition bytes_of (id : Id) : op (gmap string string) := c ← commit_of id; from_git (λ g, tree_to_bytes hex (commit_tree c) (objects g)).
Definition head_prefix (id : Id) : string := take_str 8 (hex id).

Definition edit_ref (actor : string) : string := edit_ref_for_actor short_digest actor.
Definition feat_ref (name : string) : string := feat_ref_for_name short_digest name.
Definition ensure_feature_branch_name (name : string) : result CheckpointError () :=
  if negb (is_feature_branch_name name) then Err (Branch ("feature branch name must be a bare name without '/': '" +:+ name +:+ "'"))
  else if is_reserved_feature_name name then Err (Branch ("feature branch name is reserved for the singleton line: '" +:+ name +:+ "'"))
  else if decide (sanitize_ref_component short_digest name = name) then Ok tt
  else Err (Branch ("feature branch name contains characters that alias another ref: '" +:+ name +:+ "'")).

Fixpoint each {A B} (f : A → op B) (l : list A) : op (list B) :=
  match l with [] => mret [] | a :: l => b ← f a; bs ← each f l; mret (b :: bs) end.

(** ** Redo stacks *)

Definition push_many (actor : string) (ids : list Id) : op () :=
  modify (λ m,
    let stack := default [] (redo_stacks m !! actor) ++ ids in
    set_redo (<[actor := drop (List.length stack - MAX_REDO_ENTRIES) stack]> (redo_stacks m)) m).
Definition push_redo (actor : string) (id : Id) : op () := push_many actor [id].
Definition last_redo (actor : string) m : option Id := redo_stacks m !! actor ≫= last.
Definition pop_redo (actor : string) : op (option Id) := λ m,
  match redo_stacks m !! actor with
  | Some stack => (set_redo (<[actor := removelast stack]> (redo_stacks m)) m, Ok (last stack))
  | None => (m, Ok None)
  end.
Definition can_redo (actor : string) m : bool := bool_decide (default [] (redo_stacks m !! actor) ≠ []).
Definition clear_redo (actor : string) : op () := modify (λ m, set_redo (delete actor (redo_stacks m)) m).
Definition set_latest_checkpoint (actor : string) (id : Id) : op () := modify (λ m, set_latest (<[actor := id]> (latest_checkpoints m)) m).
Definition drop_latest_checkpoint (actor : string) : op () := modify (λ m, set_latest (delete actor (latest_checkpoints m)) m).

(** ** Tool commits *)

Definition index_commit (id : Id) (actor session tool : string) (paths : list string) : op () :=
  m ← get_state;
  ts ← match read_commit hex id (objects (git m)) with
       | Ok c => mret (committer_ts c)
       | Err _ => λ m, let '(m', r) := creation_timestamp m in (m', Ok (match r with Ok t => t | Err _ => 0%Z end))
       end;
  modify (λ m, set_index (<[id := {| source_actor := actor; source_session := session; source_tool := tool; source_paths := paths; source_timestamp := ts |}]>
    (source_index m)) m).
Definition validate_files (files : gmap string (option string)) : result CheckpointError (list (string * option (string * string))) :=
  foldr (λ (kc : string * option string) r, changes ← r; path ← validate_workspace_relative_path kc.1; Ok ((path, (MODE_FILE,.) <$> kc.2) :: changes))
    (Ok []) (map_to_list files).
Definition commit_tool_files (actor : string) (files : gmap string (option string)) (session tool : option string) (intent : string) :
    op (CommitOnRefOutcome (Id := Id)) :=
  validated ← lift (validate_files files);
  let changes := list_to_map validated in
  let paths := merge_sort String.le validated.*1 in
  let text := commit_message intent (Some actor) session tool [] in
  outcome ← on_git (commit_on_ref hash hex encodable full_name_ok others (edit_ref actor) changes actor text now);
  _ ← (if created outcome
       then
         _ ← index_commit (outcome_id outcome) actor (default "" session) (default "" tool) paths;
         _ ← set_latest_checkpoint actor (outcome_id outcome);
         clear_redo actor
       else mret tt);
  mret outcome.

Definition apply_agent_edit_with_hash (actor path content : string) (expected_hash : option string) : op Id :=
  path ← lift (validate_workspace_relative_path path);
  _ ← match expected_hash with
      | Some want =>
          head ← from_git (λ g, (λ _, refs g !! edit_ref actor) <$> ref_path (edit_ref actor));
          actual ← match head with
            | Some h => files ← bytes_of h; mret (match files !! path with Some bytes => sha256_hex bytes | None => "" end)
            | None => mret ""
            end;
          if decide (actual = want) then mret tt
          else throw (Validation ("hash mismatch for '" +:+ path +:+ "': expected " +:+ want +:+ ", got " +:+ actual))
      | None => mret tt
      end;
  outcome ← commit_tool_files actor {[path := Some content]} None (Some "tool") "tool edit";
  mret (outcome_id outcome).
Definition apply_agent_edit (actor path content : string) : op Id := apply_agent_edit_with_hash actor path content None.
Definition apply_agent_delete (actor path : string) : op Id :=
  path ← lift (validate_workspace_relative_path path);
  outcome ← commit_tool_files actor {[path := None]} None (Some "tool") "tool delete";
  mret (outcome_id outcome).
Definition rename_file (actor from_path to_path content : string) : op Id :=
  from ← lift (validate_workspace_relative_path from_path);
  to ← lift (validate_workspace_relative_path to_path);
  outcome ← commit_tool_files actor (<[to := Some content]> {[from := None]}) None (Some "tool") "rename";
  mret (outcome_id outcome).
Definition commit_manual (path : string) (change : option (string * string)) (intent : string) : op Id :=
  outcome ← on_git (commit_on_ref hash hex encodable full_name_ok others REF_HUMAN {[path := change]} "human"
    (commit_message intent (Some "human") None (Some "manual") []) now);
  _ ← (if created outcome then index_commit (outcome_id outcome) "human" "" "manual" [path] else mret tt);
  mret (outcome_id outcome).
Definition apply_manual_edit (path content : string) : op Id :=
  path ← lift (validate_workspace_relative_path path); commit_manual path (Some (MODE_FILE, content)) "manual edit".
Definition apply_manual_delete (path : string) : op Id :=
  path ← lift (validate_workspace_relative_path path); commit_manual path None "manual delete".
Definition read_ref_of (name : string) : op (option Id) := on_git (read_ref name).
Definition discard_execution (actor : string) : op () :=
  _ ← on_git (delete_ref full_name_ok (edit_ref actor));
  _ ← drop_latest_checkpoint actor;
  clear_redo actor.

(** ** Edit groups *)

Definition no_commits (actor : string) : CheckpointError := NotFound ("no commits for actor '" +:+ actor +:+ "'").
Definition ref_moved (refname : string) : CheckpointError := Branch ("concurrent ref update conflict on '" +:+ refname +:+ "'").
Definition set_batch (group : string) (b : PendingEditBatch) : op () := modify (λ m, set_batches (<[group := b]> (pending_batches m)) m).
Definition take_batch (group : string) : op (option PendingEditBatch) := λ m, (set_batches (delete group (pending_batches m)) m, Ok (pending_batches m !! group)).
(** An identifier holds the time, the process and a count: [group_id] is their text. *)
Context (group_id : Z → nat → string).
Fixpoint begin_group_attempts (n : nat) (label : option string) (timestamp : Z) : op string :=
  match n with
  | 0 => throw (Internal "failed to allocate a unique edit group id")
  | S n =>
      m ← get_state;
      let id := group_id timestamp (groups_begun m) in
      _ ← modify begun;
      if decide (is_Some (pending_batches m !! id)) then begin_group_attempts n label timestamp
      else
        _ ← set_batch id {| batch_label := label; batch_actor := ""; batch_created_at := timestamp; batch_files := ∅ |};
        mret id
  end.
Definition begin_edit_group (label : option string) : op string := timestamp ← creation_timestamp; begin_group_attempts 64 label timestamp.
Definition wrong_owner (group owner actor : string) : CheckpointError :=
  Validation ("edit group " +:+ group +:+ " belongs to '" +:+ owner +:+ "', not '" +:+ actor +:+ "'").
Definition stage_in_group (actor path : string) (content : option string) (group : string) : op () :=
  validated ← lift (validate_workspace_relative_path path);
  m ← get_state;
  match pending_batches m !! group with
  | None => throw (NotFound ("edit group " +:+ group))
  | Some b =>
      if decide (batch_actor b = "" ∨ batch_actor b = actor) then
        set_batch group {| batch_label := batch_label b; batch_actor := actor; batch_created_at := batch_created_at b;
                           batch_files := <[validated := content]> (batch_files b) |}
      else throw (wrong_owner group (batch_actor b) actor)
  end.
(** A failed commit puts the batch back. *)
Definition or_restore {A} (group : string) (b : PendingEditBatch) (o : op A) : op A := λ m,
  match o m with
  | (m', Err e) => (set_batches (<[group := b]> (pending_batches m')) m', Err e)
  | r => r
  end.
Definition commit_edit_group (actor group : string) (tool : option string) : op Id :=
  taken ← take_batch group;
  match taken with
  | None => throw (NotFound ("edit group " +:+ group))
  | Some b =>
      or_restore group b (
        if decide (batch_actor b ≠ "" ∧ batch_actor b ≠ actor) then throw (wrong_owner group (batch_actor b) actor)
        else if decide (batch_files b = ∅) then
          head ← read_ref_of (edit_ref actor);
          match head with Some id => mret id | None => throw (no_commits actor) end
        else
          outcome ← commit_tool_files actor (batch_files b) (Some group) tool "grouped edit";
          mret (outcome_id outcome))
  end.
(** The run of commits at the head that carry the group's trailer: what is passed,
    newest first, and the first commit that does not, if the run ends before the
    line does. *)
Fixpoint group_run (n : nat) (group : string) (cursor : Id) (visited : list Id) : op (option Id * list Id) :=
  match n with
  | 0 => throw (Internal "history too long")
  | S n =>
      c ← commit_of cursor;
      if decide (trailer TRAILER_SESSION (message c) = Some group) then
        match parents c with
        | p :: _ => group_run n group p (visited ++ [cursor])
        | [] => mret (None, visited ++ [cursor])
        end
      else mret (Some cursor, visited)
  end.
Definition history_fuel m : nat := S (size (objects (git m))).
Fixpoint rollback_attempts (n : nat) (actor group : string) : op Id :=
  match n with
  | 0 => throw (ref_moved (edit_ref actor))
  | S n' =>
      head ← read_ref_of (edit_ref actor);
      match head with
      | None => throw (no_commits actor)
      | Some head =>
          m ← get_state;
          run ← group_run (history_fuel m) group head [];
          _ ← meanwhile (2 * n);
          let swap_to cursor visited :=
            if decide (cursor = head) then mret head
            else
              swapped ← on_git_swap (compare_and_swap full_name_ok (edit_ref actor) (Some head) cursor);
              if (swapped : bool) then _ ← push_many actor visited; _ ← set_latest_checkpoint actor cursor; mret cursor
              else rollback_attempts n' actor group in
          match run with
          | (None, visited) =>
              current ← read_ref_of (edit_ref actor);
              if decide (current = Some head) then
                _ ← meanwhile (S (2 * n));
                _ ← on_git (delete_ref full_name_ok (edit_ref actor));
                _ ← push_many actor visited;
                _ ← drop_latest_checkpoint actor;
                throw (no_commits actor)
              else match visited with [_] => rollback_attempts n' actor group | _ => swap_to (default head (last visited)) visited end
          | (Some cursor, []) =>
              throw (Validation ("edit group " +:+ group +:+ " is not at the head of '" +:+ actor +:+ "' (head is '" +:+ hex head +:+
                "'); retry after the head moves or escalate"))
          | (Some cursor, visited) => swap_to cursor visited
          end
      end
  end.
Definition rollback_edit_group (actor group : string) : op Id :=
  taken ← take_batch group;
  match taken with
  | Some _ => head ← read_ref_of (edit_ref actor); match head with Some id => mret id | None => throw (no_commits actor) end
  | None => rollback_attempts (S MAX_COMMIT_CAS_RETRIES) actor group
  end.
Record EditGroupHeadStatus : Type := { status_head : option Id; at_head : bool; status_pending : bool }.
Definition edit_group_head_status (actor group : string) : op EditGroupHeadStatus :=
  m ← get_state;
  if decide (is_Some (pending_batches m !! group)) then
    head ← read_ref_of (edit_ref actor); mret {| status_head := head; at_head := true; status_pending := true |}
  else
    head ← read_ref_of (edit_ref actor);
    match head with
    | None => throw (no_commits actor)
    | Some id =>
        c ← commit_of id;
        mret {| status_head := head; at_head := bool_decide (trailer TRAILER_SESSION (message c) = Some group); status_pending := false |}
    end.

(** ** Undo and redo *)

Fixpoint undo_attempts (n : nat) (actor : string) : op Id :=
  match n with
  | 0 => throw (ref_moved (edit_ref actor))
  | S n' =>
      head ← read_ref_of (edit_ref actor);
      match head with
      | None => throw (no_commits actor)
      | Some head =>
          c ← commit_of head;
          match parents c with
          | [] => throw (Validation ("actor '" +:+ actor +:+ "' has only the initial commit"))
          | parent :: _ =>
              _ ← meanwhile n;
              swapped ← on_git_swap (compare_and_swap full_name_ok (edit_ref actor) (Some head) parent);
              if (swapped : bool) then _ ← push_redo actor head; _ ← set_latest_checkpoint actor parent; mret parent
              else undo_attempts n' actor
          end
      end
  end.
Definition undo_edit (actor : string) : op Id := undo_attempts (S MAX_COMMIT_CAS_RETRIES) actor.
Definition redo_edit (actor : string) : op Id :=
  m ← get_state;
  match last_redo actor m with
  | None => throw (Validation ("no redo available for actor '" +:+ actor +:+ "'"))
  | Some next =>
      current ← read_ref_of (edit_ref actor);
      c ← commit_of next;
      if decide (head (parents c) = current) then
        _ ← meanwhile 0;
        _ ← on_git (compare_and_swap full_name_ok (edit_ref actor) current next);
        _ ← pop_redo actor;
        _ ← set_latest_checkpoint actor next;
        mret next
      else throw (Branch ("redo conflict on '" +:+ edit_ref actor +:+ "': expected cursor '" +:+ default "" (hex <$> head (parents c)) +:+
        "', found '" +:+ default "<deleted>" (hex <$> current) +:+ "'; not overwriting"))
  end.

(** ** Reviews *)

Definition conflict_status_for_ref (refname : string) : op ConflictStatus :=
  head ← read_ref_of refname;
  match head with
  | None => mret clean
  | Some head =>
      c ← commit_of head;
      mret (if unresolved_message (message c) then {| unresolved := true; conflict_status_files := trailers TRAILER_CONFLICT_FILE (message c) |} else clean)
  end.
Definition set_review_state (review_ref : string) (s : ReviewStatus) : op () := modify (λ m, set_review (<[review_ref := s]> (review_state m)) m).
Definition review_id (actor : string) (timestamp : Z) (head : Id) (attempt : nat) : string :=
  sanitize_ref_component short_digest actor +:+ "-" +:+ show_int timestamp +:+ "-" +:+ head_prefix head +:+ "-" +:+ show_nat (Z.of_nat attempt).
Fixpoint submit_attempts (n attempt : nat) (actor : string) (timestamp : Z) (head : Id) : op (string * Id) :=
  match n with
  | 0 => throw (Branch "concurrent review submission conflict")
  | S n =>
      let review_ref := review_ref_for_id short_digest (review_id actor timestamp head attempt) in
      swapped ← on_git_swap (compare_and_swap full_name_ok review_ref None head);
      if (swapped : bool) then _ ← set_review_state review_ref Pending; mret (review_ref, head)
      else submit_attempts n (S attempt) actor timestamp head
  end.
Definition submit_for_review (actor : string) : op (string * Id) :=
  head ← read_ref_of (edit_ref actor);
  match head with
  | None => throw (Validation ("actor '" +:+ actor +:+ "' has no commits to submit"))
  | Some head => timestamp ← creation_timestamp; submit_attempts 8 0 actor timestamp head
  end.
Fixpoint pending_reviews (names : list string) (actor : string) : op (list (string * Id * Z)) :=
  match names with
  | [] => mret []
  | name :: names =>
      m ← get_state;
      if decide (review_state m !! name = Some Pending) then
        head ← read_ref_of name;
        rest ← pending_reviews names actor;
        mret (match head with
          | Some head =>
              match read_commit hex head (objects (git m)) with
              | Ok c => if decide (trailer TRAILER_ACTOR (message c) = Some actor) then (name, head, committer_ts c) :: rest else rest
              | Err _ => rest
              end
          | None => rest
          end)
      else pending_reviews names actor
  end.
(** The first of the newest: what a stable sort, newest first, begins with. *)
Definition newest (found : list (string * Id * Z)) : option (string * Id * Z) :=
  foldl (λ best x, match best with Some y => if decide (y.2 < x.2)%Z then Some x else best | None => Some x end) None found.
Definition newest_pending_review (actor : string) : op (option (string * Id)) :=
  m ← get_state;
  found ← pending_reviews (list_refs REF_REVIEW_PREFIX (git m)).*1 actor;
  mret (fst <$> newest found).
Definition reuse_or_submit_review (actor : string) : op (string * Id) :=
  found ← newest_pending_review actor;
  match found with
  | Some (review_ref, review_head) =>
      edit ← read_ref_of (edit_ref actor);
      if decide (edit = None ∨ edit = Some review_head) then mret (review_ref, review_head) else submit_for_review actor
  | None => submit_for_review actor
  end.

(** ** Merges *)

Record GitMergeOutcome : Type := {
  merge_commit_id : Id;
  merge_parents : list Id;
  conflict_files : list string;
  details : list GitConflictDetail;
}.
Definition clean_outcome (id : Id) (ps : list Id) : GitMergeOutcome := {| merge_commit_id := id; merge_parents := ps; conflict_files := []; details := [] |}.
Definition merged_changes (merged : gmap string (option string)) : gmap string (option (string * string)) := (λ o : option string, (MODE_FILE,.) <$> o) <$> merged.
Definition sorted_paths (merged : gmap string (option string)) : list string := merge_sort String.le (map_to_list merged).*1.
Definition head_bytes (head : option Id) : op (gmap string string) := match head with Some id => bytes_of id | None => mret ∅ end.
Definition base_bytes (ours : option Id) (theirs : Id) : op (gmap string string) :=
  match ours with
  | Some id => m ← get_state; head_bytes (store_merge_base hex id theirs (git m))
  | None => mret ∅
  end.
(** [read_commit(..).ok()] *)
Definition head_tree (head : option Id) m : option Id :=
  id ← head; match read_commit hex id (objects (git m)) with Ok c => Some (commit_tree c) | Err _ => None end.
Definition build_merged (parent_tree : option Id) (merged : gmap string (option string)) : op Id :=
  on_git (on_objects (build_tree_from_parent hash hex encodable parent_tree (merged_changes merged))).
Definition commit_merge (tree : Id) (ps : list Id) (actor text : string) : op Id :=
  timestamp ← creation_timestamp;
  on_git (on_objects (write_commit hash encodable tree ps actor SYSTEM_COMMITTER timestamp text)).
Definition swap_ref (refname : string) (want : option Id) (id : Id) : op () :=
  _ ← meanwhile 0; on_git (compare_and_swap full_name_ok refname want id).
Definition conflict_trailers (conflicts : list string) : list (string * string) :=
  (TRAILER_STATE, STATE_CONFLICT_UNRESOLVED) :: ((TRAILER_CONFLICT_FILE,.) <$> conflicts).
(** Files withheld from a review that is already in the feature are added again. *)
Definition restore_withheld (base feature review : gmap string string) (merged : gmap string (option string)) : gmap string (option string) :=
  map_imap (λ path o, Some (
    match feature !! path, o, review !! path with
    | None, None, Some theirs => if decide (base !! path = Some theirs) then Some theirs else None
    | _, _, _ => o
    end)) merged.
Definition merge_review_into_feature (review_ref : string) (review_head : Id) (feature_name actor : string) : op GitMergeOutcome :=
  _ ← lift (ensure_feature_branch_name feature_name);
  let feature_ref := feat_ref feature_name in
  feature_head ← read_ref_of feature_ref;
  status ← conflict_status_for_ref feature_ref;
  if unresolved status then throw (MergeConflict actor (conflict_status_files status))
  else
    review_commit ← commit_of review_head;
    review_tree ← bytes_of review_head;
    feature_tree ← head_bytes feature_head;
    base_tree ← base_bytes feature_head review_head;
    m ← get_state;
    let dominated := match feature_head with Some feature => store_is_ancestor hex review_head feature (git m) | None => false end in
    let '(merged, conflicts) := merge_file_maps text_merge base_tree feature_tree review_tree in
    let merged := if dominated then restore_withheld base_tree feature_tree review_tree merged else merged in
    let parent_tree := head_tree feature_head m in
    merged_tree ← build_merged parent_tree merged;
    let ps := option_list feature_head ++ [review_head] in
    let review_session := default "" (trailer TRAILER_SESSION (message review_commit)) in
    if decide (conflicts = []) then
      if decide (parent_tree = Some merged_tree) then
        _ ← set_review_state review_ref Approved;
        _ ← on_git (delete_ref full_name_ok review_ref);
        mret (clean_outcome (default review_head feature_head) ps)
      else
        let text := commit_message ("merge review into feature '" +:+ feature_name +:+ "'") (Some actor) (Some review_session) (Some "review") [] in
        id ← commit_merge merged_tree ps actor text;
        _ ← swap_ref feature_ref feature_head id;
        _ ← set_review_state review_ref Approved;
        _ ← on_git (delete_ref full_name_ok review_ref);
        _ ← index_commit id actor review_session "review" (sorted_paths merged);
        mret (clean_outcome id ps)
    else
      let text := commit_message ("merge review into feature '" +:+ feature_name +:+ "' (conflicted)") (Some actor) (Some review_session) (Some "review")
        (conflict_trailers conflicts) in
      id ← commit_merge merged_tree ps actor text;
      _ ← swap_ref feature_ref feature_head id;
      _ ← set_review_state review_ref Pending;
      _ ← index_commit id actor review_session "review" (sorted_paths merged);
      mret {| merge_commit_id := id; merge_parents := ps; conflict_files := conflicts; details := conflict_details merged conflicts |}.

Definition merge_feature_into_main (feature_name actor : string) : op GitMergeOutcome :=
  _ ← lift (ensure_feature_branch_name feature_name);
  let feature_ref := feat_ref feature_name in
  feature_head ← (head ← read_ref_of feature_ref; match head with Some id => mret id | None => throw (NotFound ("feature '" +:+ feature_name +:+ "'")) end);
  feature_commit ← commit_of feature_head;
  feature_status ← conflict_status_for_ref feature_ref;
  if unresolved feature_status then throw (MergeConflict actor (conflict_status_files feature_status))
  else
    main_head ← read_ref_of REF_MAIN;
    main_status ← conflict_status_for_ref REF_MAIN;
    if unresolved main_status then throw (MergeConflict actor (conflict_status_files main_status))
    else
      feature_tree ← bytes_of feature_head;
      main_tree ← head_bytes main_head;
      base_tree ← base_bytes main_head feature_head;
      let '(merged, conflicts) := merge_file_maps text_merge base_tree main_tree feature_tree in
      if decide (conflicts = []) then
        m ← get_state;
        let parent_tree := head_tree main_head m in
        merged_tree ← build_merged parent_tree merged;
        let ps := option_list main_head ++ [feature_head] in
        if decide (parent_tree = Some merged_tree) then mret (clean_outcome (default feature_head main_head) ps)
        else
          merge_ts ← creation_timestamp;
          let merge_id := feature_name +:+ "-" +:+ show_int merge_ts +:+ "-" +:+ head_prefix feature_head in
          let text := commit_message ("merge feature '" +:+ feature_name +:+ "' into main") (Some actor) None (Some "merge")
            [(TRAILER_FEATURE, feature_name); (TRAILER_MERGE_ID, merge_id)] in
          id ← commit_merge merged_tree ps actor text;
          _ ← swap_ref REF_MAIN main_head id;
          _ ← index_commit id actor "" "merge" (sorted_paths merged);
          mret (clean_outcome id ps)
      else
        merged_tree ← build_merged (Some (commit_tree feature_commit)) merged;
        let ps := feature_head :: match main_head with Some main => if decide (main = feature_head) then [] else [main] | None => [] end in
        let text := commit_message ("merge feature '" +:+ feature_name +:+ "' into main (conflicted)") (Some actor) None (Some "merge")
          (conflict_trailers conflicts) in
        id ← commit_merge merged_tree ps actor text;
        _ ← swap_ref feature_ref (Some feature_head) id;
        _ ← index_commit id actor "" "merge" (sorted_paths merged);
        throw (MergeConflict actor conflicts).

Definition not_merged : CheckpointError := Validation "feature commit is not merged into main".
(** The parent that is not the feature, where main was before it absorbed the feature. *)
Definition pre_merge_parent (feature_head : Id) (ps : list Id) : option Id :=
  match ps with
  | p :: _ => if decide (p = feature_head) then head (filter (.≠ feature_head) ps) else Some p
  | [] => None
  end.
Definition revert_feature_on_main (feature_head : Id) (actor : string) : op GitMergeOutcome :=
  main_head ← (head ← read_ref_of REF_MAIN; match head with Some id => mret id | None => throw (Validation "main has no commits to roll back") end);
  m ← get_state;
  if store_is_ancestor hex feature_head main_head (git m) then
    match head (filter (λ c, feature_head ∈ parents c) (store_log hex main_head 0 (git m))) with
    | None => throw not_merged
    | Some absorbing =>
        pre_merge_tree ← head_bytes (pre_merge_parent feature_head (parents absorbing));
        main_commit ← commit_of main_head;
        main_tree ← bytes_of main_head;
        feature_tree ← bytes_of feature_head;
        let '(merged, conflicts) := merge_file_maps text_merge feature_tree main_tree pre_merge_tree in
        if decide (conflicts = []) then
          merged_tree ← build_merged (Some (commit_tree main_commit)) merged;
          if decide (merged_tree = commit_tree main_commit) then mret (clean_outcome main_head [main_head])
          else
            let text := commit_message ("revert feature merge " +:+ hex feature_head) (Some actor) None (Some "rollback") [] in
            id ← commit_merge merged_tree [main_head] actor text;
            _ ← swap_ref REF_MAIN (Some main_head) id;
            _ ← index_commit id actor "" "rollback" (sorted_paths merged);
            mret (clean_outcome id [main_head])
        else throw (MergeConflict actor conflicts)
    end
  else throw not_merged.
Definition revert_feature_merge (feature_head : Id) (actor : string) : op Id :=
  outcome ← revert_feature_on_main feature_head actor; mret (merge_commit_id outcome).
Definition revert_feature_by_name (feature_name actor : string) : op Id :=
  _ ← lift (ensure_feature_branch_name feature_name);
  main_head ← (head ← read_ref_of REF_MAIN; match head with Some id => mret id | None => throw (Validation "main has no commits to roll back") end);
  m ← get_state;
  match head (filter (λ c, trailer TRAILER_FEATURE (message c) = Some feature_name) (store_log hex main_head 0 (git m))) with
  | None => throw (Validation ("feature '" +:+ feature_name +:+ "' has no recorded merge into main"))
  | Some absorbing =>
      match parents absorbing with
      | _ :: feature :: _ => revert_feature_merge feature actor
      | [feature] => revert_feature_merge feature actor
      | [] => throw (Validation ("feature '" +:+ feature_name +:+ "' merge has no addressable feature parent"))
      end
  end.

(** ** Resolving conflicts: file/approval/conflict.rs *)

(** The actor's pending reviews that the resolved commit contains are approved. *)
Definition approve_related (actor : string) (id : Id) : op () :=
  modify (λ m,
    foldl (λ m name,
      match refs (git m) !! name with
      | Some head_id =>
          match read_commit hex head_id (objects (git m)) with
          | Ok c =>
              if decide (review_state m !! name = Some Pending ∧ trailer TRAILER_ACTOR (message c) = Some actor ∧ store_is_ancestor hex head_id id (git m) = true)
              then set_review (<[name := Approved]> (review_state m)) m else m
          | Err _ => m
          end
      | None => m
      end) m (list_refs REF_REVIEW_PREFIX (git m)).*1).
Definition resolve_conflicts (actor feature_name : string) (resolutions : list (string * string)) : op nat :=
  _ ← lift (ensure_feature_branch_name feature_name);
  let feature_ref := feat_ref feature_name in
  head ← (head ← read_ref_of feature_ref; match head with Some id => mret id | None => throw (NotFound ("feature '" +:+ feature_name +:+ "'")) end);
  if decide (resolutions = []) then throw (Validation "conflict resolutions must not be empty")
  else
    head_commit ← commit_of head;
    let conflicted := if unresolved_message (message head_commit) then trailers TRAILER_CONFLICT_FILE (message head_commit) else [] in
    resolved ← each (λ r : string * string, path ← lift (validate_workspace_relative_path r.1); mret (path, r.2)) resolutions;
    let changes := foldl (λ cs (r : string * string), <[r.1 := Some r.2]> cs) ∅ resolved in
    let paths := merge_sort String.le resolved.*1 in
    tree ← build_merged (Some (commit_tree head_commit)) changes;
    let still_marked := fst <$> filter (λ r : string * string, parse_conflict_regions r.2 ≠ []) resolved in
    let remaining := sorted_ids (list_to_set (filter (.∉ paths) conflicted ++ still_marked)) in
    let state := if decide (remaining = []) then [(TRAILER_STATE, STATE_CONFLICT_RESOLVED)] else conflict_trailers remaining in
    let text := commit_message ("resolve conflicts on feature '" +:+ feature_name +:+ "'") (Some actor) None (Some "review") state in
    id ← commit_merge tree [head] actor text;
    _ ← swap_ref feature_ref (Some head) id;
    _ ← index_commit id actor "" "review" paths;
    _ ← (if decide (remaining = [] ∧ conflicted ≠ []) then approve_related actor id else mret tt);
    mret (List.length remaining).

(** ** Several features *)

Record FeatureMergeOptions : Type := { atomic : bool; confirm_order : bool }.
Record FeatureMergePreview : Type := { feature : string; would_conflict : bool; preview_files : list string; reason : option string }.
Definition blocked_preview (name : string) (files : list string) (why : string) : FeatureMergePreview :=
  {| feature := name; would_conflict := true; preview_files := files; reason := Some why |}.
Definition preview_feature (main_head : option Id) (main_unresolved : bool) (main_tree : gmap string string) (name : string) : op FeatureMergePreview :=
  feature_head ← read_ref_of (feat_ref name);
  match feature_head with
  | None => mret (blocked_preview name [] ("feature '" +:+ name +:+ "' not found"))
  | Some feature_head =>
      feature_commit ← commit_of feature_head;
      if unresolved_message (message feature_commit)
      then mret (blocked_preview name (trailers TRAILER_CONFLICT_FILE (message feature_commit)) ("feature '" +:+ name +:+ "' carries an unresolved conflict"))
      else if main_unresolved then mret (blocked_preview name [] "main carries an unresolved conflict")
      else
        feature_tree ← bytes_of feature_head;
        base_tree ← base_bytes main_head feature_head;
        let '(_, conflicts) := merge_file_maps text_merge base_tree main_tree feature_tree in
        mret {| feature := name; would_conflict := bool_decide (conflicts ≠ []); preview_files := conflicts; reason := None |}
  end.
Definition preview_merge_features_to_main (feature_names : list string) : op (list FeatureMergePreview) :=
  _ ← each (λ name, lift (ensure_feature_branch_name name)) feature_names;
  main_head ← read_ref_of REF_MAIN;
  m ← get_state;
  let main_unresolved := match main_head with
    | Some h => match read_commit hex h (objects (git m)) with Ok c => unresolved_message (message c) | Err _ => false end
    | None => false
    end in
  main_tree ← head_bytes main_head;
  each (preview_feature main_head main_unresolved main_tree) feature_names.
Definition blocked (previews : list FeatureMergePreview) : list FeatureMergePreview := filter (λ p, would_conflict p = true ∨ reason p ≠ None) previews.
Definition check_previews (previews : list FeatureMergePreview) : result CheckpointError () :=
  let bad := blocked previews in
  if decide (bad = []) then Ok tt
  else
    match omap reason bad with
    | [] => Err (MergeConflict "merge" (sorted_ids (list_to_set (bad ≫= preview_files))))
    | reasons => Err (Validation ("atomic merge pre-validation failed: " +:+ String.concat "; " reasons))
    end.
(** The merges in order; a conflict after the first is partial when the merge was
    to be atomic. *)
Fixpoint merge_each (feature_names : list string) (options : FeatureMergeOptions) (completed : list string) (last : option GitMergeOutcome) :
    op (option GitMergeOutcome) :=
  match feature_names with
  | [] => mret last
  | name :: rest => λ m,
      match merge_feature_into_main name "merge" m with
      | (m', Ok outcome) => merge_each rest options (completed ++ [name]) (Some outcome) m'
      | (m', Err (MergeConflict actor files)) =>
          if atomic options && bool_decide (completed ≠ []) then (m', Err (PartialMerge completed actor files)) else (m', Err (MergeConflict actor files))
      | (m', Err e) => (m', Err e)
      end
  end.
Definition merge_features_to_main_with_options (feature_names : list string) (options : FeatureMergeOptions) : op GitMergeOutcome :=
  _ ← each (λ name, lift (ensure_feature_branch_name name)) feature_names;
  if decide (feature_names = []) then throw (Validation "no features given to merge")
  else if bool_decide (1 < List.length feature_names) && negb (confirm_order options)
  then throw (Validation ("merging " +:+ show_nat (Z.of_nat (List.length feature_names)) +:+
    " features resolves overlapping lines in input order; pass confirm_order to assert the order is intentional"))
  else
    _ ← (if atomic options then previews ← preview_merge_features_to_main feature_names; lift (check_previews previews) else mret tt);
    outcome ← merge_each feature_names options [] None;
    match outcome with Some o => mret o | None => throw (Validation "no features given to merge") end.
Definition merge_features_to_main (feature_names : list string) : op GitMergeOutcome :=
  merge_features_to_main_with_options feature_names {| atomic := false; confirm_order := true |}.
Definition merge_branch_changes (feature_names : list string) : op GitMergeOutcome :=
  merged ← merge_features_to_main feature_names;
  _ ← each (λ name, on_git (delete_ref full_name_ok (feat_ref name))) feature_names;
  mret merged.
Definition merge_agent_to_feature (actor feature_name : string) : op GitMergeOutcome :=
  _ ← lift (ensure_feature_branch_name feature_name);
  found ← newest_pending_review actor;
  review ← match found with Some r => mret r | None => submit_for_review actor end;
  merge_review_into_feature review.1 review.2 feature_name actor.
End manager.
