(* ===== verification/Approval.v ===== *)
(** Approvals of submitted changes: checkpoint-file/src/approval.rs and
    file/approval/ (approve.rs, reject.rs, list.rs, merge.rs, policy.rs), with
    latest_checkpoint_id of file/checkpoint.rs (infra/checkpoint).

    An actor's submission is merged into a feature, whole or for selected paths,
    or rejected.  The files put into the worktree, events and log lines are left
    out, and so is the list of pending approvals, a report on provenance. *)

From S2P Require Import Prelude Strings Numbers DeltaChain GitStore FileManager.

(** * Conflict views *)

Record ConflictView : Type := {
  view_file : string;
  view_start_line : nat;
  view_base : list string;
  view_ours : list string;
  view_theirs : list string;
}.
#[export] Instance GitConflictRegion_eq_dec : EqDecision GitConflictRegion.
Proof. solve_decision. Defined.
#[export] Instance ConflictView_eq_dec : EqDecision ConflictView.
Proof. solve_decision. Defined.
Definition to_conflict_views (details : list GitConflictDetail) : list ConflictView :=
  details ≫= λ d, (λ r,
    {| view_file := detail_file d; view_start_line := start_line r; view_base := base_lines r; view_ours := ours_lines r; view_theirs := theirs_lines r |})
    <$> detail_regions d.
(** The lines of a marker block. *)
Definition marker_lines (base ours theirs : list string) : list string :=
  ["<<<<<<< ours"] ++ ours ++ (if decide (base = []) then [] else "||||||| base" :: base) ++ ["======="] ++ theirs ++ [">>>>>>> theirs"].
Definition newline : string := String newline_char "".
Definition to_conflict_marker (v : ConflictView) : string :=
  String.concat "" ((λ l, l +:+ newline) <$> marker_lines (view_base v) (view_ours v) (view_theirs v)).
(** [Vec::splice] of an interval that lies within. *)
Definition splice_region (lines : list string) (r : GitConflictRegion) : list string :=
  let stop := end_line r `min` List.length lines in
  let start := start_line r `min` stop in
  take start lines ++ marker_lines (base_lines r) (ours_lines r) (theirs_lines r) ++ drop stop lines.
Definition starts_later (a b : GitConflictRegion) : Prop := start_line b ≤ start_line a.
#[export] Instance starts_later_dec a b : Decision (starts_later a b).
Proof. unfold starts_later. apply _. Defined.
Definition inject_conflict_markers (text : string) (details : list GitConflictDetail) : string :=
  let regions := details ≫= detail_regions in
  if decide (regions = []) then text
  else
    let sorted := merge_sort starts_later regions in
    let lines := foldl splice_region (str_lines text) sorted in
    String.concat newline lines +:+ (if ends_with newline text then newline else "").

(** * Approvals *)

(** What a conflict leads to: markers, an error, or a pending submission. *)
Inductive ConflictBehavior : Type := BehaveMarker | BehaveFail | BehaveApproval.
#[export] Instance ConflictBehavior_eq_dec : EqDecision ConflictBehavior.
Proof. solve_decision. Defined.
Inductive ApprovalPolicy : Type := PolicyNone | PolicyAuto | PolicyLlm | PolicyManual.
(** No snapshot stands for the empty identifier. *)
Record MergeOutcome {Id : Type} : Type := {
  approved_merge : bool;
  snapshot_id : option Id;
  conflict_views : list ConflictView;
  outcome_conflict_files : list string;
  outcome_message : string;
}.
Arguments MergeOutcome Id : clear implicits.
Definition pending_outcome {Id} (snapshot : option Id) (why : string) : MergeOutcome Id :=
  {| approved_merge := false; snapshot_id := snapshot; conflict_views := []; outcome_conflict_files := []; outcome_message := why |}.

Section approval.
  Context {Id : Type} `{Countable Id} (hash : Object Id → Id) (hex : Id → string) (encodable : Object Id → bool).
  Context (short_digest : string → string) (full_name_ok : string → bool) (text_merge : string → string → string → string * bool).
  Context (others : nat → GitStore Id → GitStore Id) (clock : nat → option Z).
  #[local] Notation manager := (FileCheckpointManager (Id := Id)).
  #[local] Notation op := (SE manager CheckpointError).
  #[local] Notation actor_ref := (edit_ref short_digest).
  #[local] Notation feature_ref_of := (feat_ref short_digest).

Definition latest_checkpoint_id (actor : string) : op (option Id) :=
  head ← read_ref_of (actor_ref actor);
  _ ← match head with Some id => set_latest_checkpoint actor id | None => drop_latest_checkpoint actor end;
  mret head.

(** The merge of a selected path; a file that an earlier approval withheld reads
    as deleted by the feature once the review is its ancestor, and is added again. *)
Definition approve_file (base ours theirs : option string) (dominated : bool) : option MergeFileOutcome :=
  if decide (ours = theirs) then None
  else
    let outcome := merge_file_contents text_merge base ours theirs in
    Some (if negb (conflicted outcome) && bool_decide (merged_bytes outcome = None) && dominated && bool_decide (theirs ≠ None ∧ base = theirs)
          then {| merged_bytes := theirs; conflicted := false |} else outcome).
Definition approve_paths (base feature review : gmap string string) (dominated : bool) (paths : list string) : list (string * MergeFileOutcome) :=
  omap (λ p, (p,.) <$> approve_file (base !! p) (feature !! p) (review !! p) dominated) paths.
Definition approved_changes (outcomes : list (string * MergeFileOutcome)) : gmap string (option string) :=
  list_to_map ((λ x, (x.1, merged_bytes x.2)) <$> outcomes).
Definition conflicted_paths (outcomes : list (string * MergeFileOutcome)) : list string := (filter (λ x, conflicted x.2 = true) outcomes).*1.
Definition approval_message (approved conflicts : list string) : string :=
  "approved " +:+ show_nat (Z.of_nat (List.length approved)) +:+ " file(s) " +:+ (if decide (conflicts = []) then "" else "with conflicts ") +:+
  "(" +:+ String.concat ", " approved +:+ "); others remain pending".
Definition no_approved_files : string := "no approved files; changes remain pending".
Definition approve_selected (actor feature_name : string) (paths : list string) (behavior : ConflictBehavior) (review_head : Id) : op (MergeOutcome Id) :=
  validated ← each (λ p, lift (validate_workspace_relative_path p)) paths;
  let selection := sorted_ids (list_to_set validated) in
  let feature_ref := feature_ref_of feature_name in
  status ← conflict_status_for_ref hex feature_ref;
  if unresolved status then throw (MergeConflict actor (conflict_status_files status))
  else
    review_commit ← commit_of hex review_head;
    review_tree ← bytes_of hex review_head;
    feature_head ← read_ref_of feature_ref;
    feature_tree ← head_bytes hex feature_head;
    base_tree ← base_bytes hex feature_head review_head;
    m ← get_state;
    let dominated := match feature_head with Some feature => store_is_ancestor hex review_head feature (git m) | None => false end in
    let outcomes := approve_paths base_tree feature_tree review_tree dominated selection in
    let approved := outcomes.*1 in
    let conflicts := conflicted_paths outcomes in
    if decide (approved = []) then mret (pending_outcome (Some review_head) no_approved_files)
    else if decide (conflicts ≠ [] ∧ behavior = BehaveFail) then throw (MergeConflict actor conflicts)
    else
      let changes := approved_changes outcomes in
      let parent_tree := head_tree hex feature_head m in
      merged_tree ← build_merged hash hex encodable parent_tree changes;
      if decide (parent_tree = Some merged_tree) then mret (pending_outcome (Some (default review_head feature_head)) no_approved_files)
      else
        let ps := option_list feature_head ++ [review_head] in
        let review_session := default "" (trailer TRAILER_SESSION (message review_commit)) in
        let text := commit_message "file-level approval" (Some actor) (Some review_session) (Some "review")
          (if decide (conflicts = []) then [] else conflict_trailers conflicts) in
        id ← commit_merge hash encodable clock merged_tree ps actor text;
        _ ← swap_ref full_name_ok others feature_ref feature_head id;
        _ ← index_commit hex clock id actor review_session "review" (sorted_paths changes);
        mret {| approved_merge := true; snapshot_id := Some id; conflict_views := to_conflict_views (conflict_details changes conflicts);
                outcome_conflict_files := conflicts; outcome_message := approval_message approved conflicts |}.

(** The check of the strict behaviour before anything is written. *)
Definition predict_conflicts (actor feature_name : string) (review_head : Id) : op () :=
  let feature_ref := feature_ref_of feature_name in
  status ← conflict_status_for_ref hex feature_ref;
  if unresolved status then throw (MergeConflict actor (conflict_status_files status))
  else
    review_tree ← bytes_of hex review_head;
    feature_head ← read_ref_of feature_ref;
    feature_tree ← head_bytes hex feature_head;
    base_tree ← base_bytes hex feature_head review_head;
    match (merge_file_maps text_merge base_tree feature_tree review_tree).2 with
    | [] => mret tt
    | predicted => throw (MergeConflict actor predicted)
    end.
Definition merge_submission (actor feature_name : string) (behavior : ConflictBehavior) (review_ref : string) (review_head : Id) : op (MergeOutcome Id) := λ m,
  match merge_review_into_feature hash hex encodable short_digest full_name_ok text_merge others clock review_ref review_head feature_name actor m with
  | (m', Ok merged) =>
        let views := to_conflict_views (details merged) in
        if decide (views ≠ [] ∧ behavior = BehaveFail) then (m', Err (MergeConflict actor (conflict_files merged)))
        else (m', Ok {| approved_merge := true; snapshot_id := Some (merge_commit_id merged); conflict_views := views;
                        outcome_conflict_files := conflict_files merged; outcome_message := "merged with conflicts" |})
  | (m', Err (MergeConflict _ files)) =>
        if decide (behavior = BehaveFail) then (m', Err (MergeConflict actor files))
        else (m', Ok {| approved_merge := false; snapshot_id := Some review_head; conflict_views := []; outcome_conflict_files := files;
                        outcome_message := "merge blocked by an unresolved feature conflict" |})
  | (m', Err e) => (m', Err e)
  end.
Definition approve_whole (actor feature_name : string) (behavior : ConflictBehavior) (review_ref : string) (review_head : Id) : op (MergeOutcome Id) :=
  _ ← (if decide (behavior = BehaveFail) then predict_conflicts actor feature_name review_head else mret tt);
  merge_submission actor feature_name behavior review_ref review_head.
Definition still_pending : string := "changes remain pending on the review ref".
Definition approve_changes (actor feature_name : string) (paths : option (list string)) (behavior : ConflictBehavior) : op (MergeOutcome Id) :=
  _ ← lift (ensure_feature_branch_name short_digest feature_name);
  _ ← each (λ p, lift (validate_workspace_relative_path p)) (default [] paths);
  if decide (paths = Some []) then
    review ← newest_pending_review hex actor;
    latest ← latest_checkpoint_id actor;
    mret (pending_outcome (match review with Some r => Some r.2 | None => latest end) "no paths selected; changes remain pending")
  else
    review ← reuse_or_submit_review hex short_digest full_name_ok clock actor;
    if decide (behavior = BehaveApproval) then mret (pending_outcome (Some review.2) still_pending)
    else match paths with
    | Some paths => approve_selected actor feature_name paths behavior review.2
    | None => approve_whole actor feature_name behavior review.1 review.2
    end.
Definition merge_entity_changes (actor feature_name : string) : op GitMergeOutcome :=
  _ ← lift (ensure_feature_branch_name short_digest feature_name);
  review ← reuse_or_submit_review hex short_digest full_name_ok clock actor;
  merge_review_into_feature hash hex encodable short_digest full_name_ok text_merge others clock review.1 review.2 feature_name actor.
Definition move_agent_to_approval (actor : string) : op Id :=
  review ← submit_for_review hex short_digest full_name_ok clock actor; mret review.2.

(** * Rejections *)

Definition delete_review_state (review_ref : string) : op () := modify (λ m, set_review (delete review_ref (review_state m)) m).
Fixpoint sweep_reviews (prefix : string) (rows : list (string * ReviewStatus)) : op nat :=
  match rows with
  | [] => mret 0
  | (name, status) :: rows =>
      if decide (status ≠ Pending ∨ starts_with prefix name = false) then sweep_reviews prefix rows
      else
        head ← read_ref_of name;
        match head with
        | Some _ => sweep_reviews prefix rows
        | None => _ ← delete_review_state name; n ← sweep_reviews prefix rows; mret (S n)
        end
  end.
(** The rows come in the order of their last change; their order is the table's here. *)
Definition reconcile_reviews (actor : string) : op nat :=
  m ← get_state; sweep_reviews (REF_REVIEW_PREFIX +:+ sanitize_ref_component short_digest actor +:+ "-") (map_to_list (review_state m)).
Fixpoint reject_each (targets : list (string * Id * Z)) (deleted : option Id) : op (option Id) :=
  match targets with
  | [] => mret deleted
  | (name, head, _) :: targets =>
      _ ← on_git (delete_ref full_name_ok name);
      _ ← set_review_state name Rejected;
      reject_each targets (Some head)
  end.
Definition reject_changes (actor : string) : op Id :=
  _ ← reconcile_reviews actor;
  m ← get_state;
  targets ← pending_reviews hex (list_refs REF_REVIEW_PREFIX (git m)).*1 actor;
  deleted ← reject_each targets None;
  match deleted with Some id => mret id | None => throw (Validation ("actor '" +:+ actor +:+ "' has no pending submission")) end.

(** * The end of an agent's run *)

Definition default_feature_name (entity_id : string) : string := "exec-" +:+ entity_id.
Definition or_none {A} (o : op A) (f : A → option (GitMergeOutcome (Id := Id))) : op (option (GitMergeOutcome (Id := Id))) := λ m,
  let '(m', r) := o m in (m', Ok (match r with Ok a => f a | Err _ => None end)).
Definition on_agent_complete (policy : ApprovalPolicy) (actor entity_id : string) : op (option (GitMergeOutcome (Id := Id))) :=
  match policy with
  | PolicyNone => mret None
  | PolicyAuto => or_none (merge_entity_changes actor (default_feature_name entity_id)) Some
  | PolicyLlm | PolicyManual => or_none (move_agent_to_approval actor) (λ _, None)
  end.
End approval.
