(* ===== verification/ConflictMarkers.v ===== *)
(** Conflict markers (checkpoint-file/src/approval.rs and file/git_merge.rs): a text
    as lines and conflicts, the markers that are put into it, and what the
    parser reads back. *)

From S2P Require Import Prelude Strings GitStore FileManager Approval.

(** A merged text: lines outside the conflicts, and conflicts with the lines that
    the merge left in their place. *)
Inductive Piece : Type :=
| Line (line : string)
| Conflict (merged base ours theirs : list string).
Definition text_of (lines : list string) : string := String.concat "" ((λ l, l +:+ newline) <$> lines).
Definition resolved_piece (p : Piece) : list string := match p with Line l => [l] | Conflict merged _ _ _ => merged end.
Definition marked_piece (p : Piece) : list string := match p with Line l => [l] | Conflict _ base ours theirs => marker_lines base ours theirs end.
(** The regions of the conflicts, in a text that has [lines] for a piece. *)
Fixpoint regions_at (lines : Piece → list string) (idx : nat) (ps : list Piece) : list GitConflictRegion :=
  match ps with
  | [] => []
  | p :: ps =>
      let stop := idx + List.length (lines p) in
      match p with
      | Line _ => []
      | Conflict _ base ours theirs => [{| start_line := idx; end_line := stop; base_lines := base; ours_lines := ours; theirs_lines := theirs |}]
      end ++ regions_at lines stop ps
  end.

(** A line of a text, and one that a section of a conflict can hold. *)
Definition text_line (l : string) : Prop := contains newline_char l = false ∧ strip_last "013" l = None.
Definition section_line (s : ConflictState) (l : string) : Prop :=
  match s with
  | Outside => l ≠ "<<<<<<< ours"
  | InOurs => starts_with "|||||||" l = false ∧ l ≠ "======="
  | InBase => l ≠ "======="
  | InTheirs => starts_with ">>>>>>>" l = false
  end.
Definition piece_ok (p : Piece) : Prop :=
  Forall text_line (marked_piece p) ∧
  match p with
  | Line l => section_line Outside l
  | Conflict merged base ours theirs =>
      merged ≠ [] ∧ Forall (section_line InBase) base ∧ Forall (section_line InOurs) ours ∧ Forall (section_line InTheirs) theirs
  end.

(** * Lines of a text *)

Lemma split_text lines : Forall (λ l, contains newline_char l = false) lines → split newline_char (text_of lines) = lines ++ [""].
Proof.
  unfold text_of. induction lines as [|l lines IH]; intros Hl; [done|]. apply Forall_cons in Hl as [Hl Hls]. rewrite fmap_cons, joined_cons, append_assoc.
  unfold newline at 1. change (String newline_char "" +:+ ?t) with (String newline_char t). rewrite split_app by done. cbn [app]. f_equal. by apply IH.
Qed.
Lemma ended_text lines : Forall text_line lines → ended_lines (lines ++ [""]) = lines.
Proof.
  induction lines as [|l lines IH]; intros Hl; [done|]. apply Forall_cons in Hl as [[_ Hl] Hls]. specialize (IH Hls). cbn [app ended_lines].
  destruct (lines ++ [""]) as [|w ws] eqn:E; [by destruct lines|]. rewrite <-E, IH, Hl in *. done.
Qed.
Lemma lines_of_text lines : Forall text_line lines → str_lines (text_of lines) = lines.
Proof. intros Hl. unfold str_lines. rewrite split_text; [by apply ended_text|]. eapply Forall_impl; [exact Hl|]. by intros l [? _]. Qed.
Lemma text_of_joined lines : lines ≠ [] → String.concat newline lines +:+ newline = text_of lines.
Proof.
  unfold text_of, newline. induction lines as [|l [|l' lines] IH]; intros Hl; [done|done|].
  rewrite concat_cons, fmap_cons, joined_cons, <-IH by done. rewrite !append_assoc. done.
Qed.

(** * The parser on marked text *)

Definition outside (start : nat) : RegionScan := {| scan_state := Outside; scan_start := start; scan_ours := []; scan_base := []; scan_theirs := [] |}.
Definition pushed (ls : list string) (c : RegionScan) : RegionScan :=
  {| scan_state := scan_state c; scan_start := scan_start c;
     scan_ours := match scan_state c with InOurs => scan_ours c ++ ls | _ => scan_ours c end;
     scan_base := match scan_state c with InBase => scan_base c ++ ls | _ => scan_base c end;
     scan_theirs := match scan_state c with InTheirs => scan_theirs c ++ ls | _ => scan_theirs c end |}.
Lemma scan_section ls rest idx c : Forall (section_line (scan_state c)) ls →
  scan_lines idx (ls ++ rest) c = scan_lines (idx + List.length ls) rest (pushed ls c).
Proof.
  revert idx c. induction ls as [|l ls IH]; intros idx [s start ours base theirs] Hls.
  { rewrite Nat.add_0_r. unfold pushed. cbn. by destruct s; rewrite ?app_nil_r. }
  apply Forall_cons in Hls as [Hl Hls]. cbn [app scan_lines List.length]. rewrite Nat.add_succ_r, <-Nat.add_succ_l.
  assert (scan_line idx l {| scan_state := s; scan_start := start; scan_ours := ours; scan_base := base; scan_theirs := theirs |} =
    (pushed [l] {| scan_state := s; scan_start := start; scan_ours := ours; scan_base := base; scan_theirs := theirs |}, [])) as ->.
  { unfold scan_line. destruct s; cbn [section_line scan_state] in *; [by rewrite decide_False|destruct Hl as [-> ?]; by rewrite decide_False|by rewrite decide_False|by rewrite Hl]. }
  cbn [app]. rewrite IH by done. f_equal. unfold pushed. destruct s; cbn; by rewrite <-?app_assoc.
Qed.
(** The lines between the sections. *)
Lemma scan_separator idx l rest c c' : scan_line idx l c = (c', []) → scan_lines idx (l :: rest) c = scan_lines (S idx) rest c'.
Proof. intros E. cbn [scan_lines]. by rewrite E. Qed.
Lemma scan_marker base ours theirs rest idx start :
  Forall (section_line InBase) base → Forall (section_line InOurs) ours → Forall (section_line InTheirs) theirs →
  let stop := idx + List.length (marker_lines base ours theirs) in
  scan_lines idx (marker_lines base ours theirs ++ rest) (outside start) =
  {| start_line := idx; end_line := stop; base_lines := base; ours_lines := ours; theirs_lines := theirs |} :: scan_lines stop rest (outside idx).
Proof.
  intros Hb Ho Ht stop. set (side s o b t := {| scan_state := s; scan_start := idx; scan_ours := o; scan_base := b; scan_theirs := t |}).
  assert (Hlen : stop = S (S (idx + S (List.length ours) + List.length (if decide (base = []) then [] else "||||||| base" :: base) + List.length theirs))).
  { unfold stop, marker_lines. rewrite !length_app. cbn [List.length]. lia. }
  unfold marker_lines. rewrite <-!app_assoc. cbn [app]. rewrite (scan_separator _ _ _ _ (side InOurs [] [] [])) by done.
  rewrite scan_section by done. change (pushed _ _) with (side InOurs ours [] []).
  assert (Hmid : ∀ i tail, scan_lines i ((if decide (base = []) then [] else "||||||| base" :: base) ++ "=======" :: tail) (side InOurs ours [] []) =
    scan_lines (S (i + List.length (if decide (base = []) then [] else "||||||| base" :: base))) tail (side InTheirs ours base [])).
  { intros i tail. case_decide as Eb.
    - subst base. cbn [app List.length]. rewrite Nat.add_0_r. by apply scan_separator.
    - cbn [app List.length]. rewrite (scan_separator _ _ _ _ (side InBase ours [] [])) by done. rewrite scan_section by done.
      change (pushed _ _) with (side InBase ours base []). rewrite Nat.add_succ_r. by apply scan_separator. }
  rewrite Hmid, scan_section by done. change (pushed _ _) with (side InTheirs ours base theirs). cbn [app scan_lines].
  change (scan_line ?i _ (side InTheirs ours base theirs)) with (outside idx, [scan_region (side InTheirs ours base theirs) (S i)]). cbn [app].
  unfold scan_region. cbn [side scan_start scan_base scan_ours scan_theirs]. rewrite Hlen. do 2 f_equal; [f_equal|]; lia.
Qed.
Lemma parse_marked idx start ps : Forall piece_ok ps →
  scan_lines idx (ps ≫= marked_piece) (outside start) = regions_at marked_piece idx ps.
Proof.
  revert idx start. induction ps as [|p ps IH]; intros idx start Hps; [done|]. apply Forall_cons in Hps as [(_ & Hp) Hps].
  rewrite bind_cons. cbn [regions_at]. destruct p as [l|merged base ours theirs].
  - cbn [marked_piece app]. rewrite (scan_separator _ _ _ _ (outside start)); [rewrite IH by done; cbn [List.length]; by rewrite Nat.add_1_r|].
    unfold scan_line, outside. cbn [scan_state]. by rewrite decide_False.
  - destruct Hp as (_ & Hb & Ho & Ht). cbn [marked_piece]. rewrite scan_marker by done. cbn [app]. f_equal. by apply IH.
Qed.

(** * The markers in a text *)

Lemma region_start lines idx ps r : r ∈ regions_at lines idx ps → idx ≤ start_line r.
Proof.
  revert idx. induction ps as [|p ps IH]; intros idx; [by intros ?%elem_of_nil|]. cbn [regions_at]. rewrite elem_of_app. intros [Hr|Hr%IH]; [|lia].
  destruct p; [by apply elem_of_nil in Hr|]. by apply list_elem_of_singleton in Hr as ->.
Qed.
#[export] Instance starts_later_total : Total starts_later.
Proof. intros a b. unfold starts_later. lia. Qed.
#[export] Instance starts_later_trans : Transitive starts_later.
Proof. intros a b c. unfold starts_later. lia. Qed.
(** The regions of conflicts that left a line each start at lines of their own. *)
Lemma regions_distinct idx ps r r' : Forall piece_ok ps →
  r ∈ regions_at resolved_piece idx ps → r' ∈ regions_at resolved_piece idx ps → start_line r = start_line r' → r = r'.
Proof.
  revert idx. induction ps as [|p ps IH]; intros idx Hps; [by intros ?%elem_of_nil|]. apply Forall_cons in Hps as [(_ & Hp) Hps]. cbn [regions_at].
  destruct p as [l|merged base ours theirs]; [by apply IH|]. destruct Hp as (Hm & _). assert (0 < List.length merged) by (destruct merged; [done|cbn; lia]).
  cbn [app resolved_piece]. rewrite !elem_of_cons. intros [->|Hr] [->|Hr'] E; [done| | |by eapply IH]; cbn in E.
  - apply region_start in Hr'. lia.
  - apply region_start in Hr. lia.
Qed.
Lemma sorted_regions idx ps : StronglySorted starts_later (reverse (regions_at resolved_piece idx ps)).
Proof.
  revert idx. induction ps as [|p ps IH]; intros idx; [apply SSorted_nil|]. cbn [regions_at]. destruct p as [l|merged base ours theirs]; [apply IH|].
  cbn [app]. rewrite reverse_cons. apply StronglySorted_app. split; [|split; [apply IH|by repeat constructor]].
  intros r r' Hr%elem_of_reverse%region_start ->%list_elem_of_singleton. unfold starts_later. cbn. lia.
Qed.
Lemma sort_regions idx ps : Forall piece_ok ps →
  merge_sort starts_later (regions_at resolved_piece idx ps) = reverse (regions_at resolved_piece idx ps).
Proof.
  intros Hps. apply (StronglySorted_unique_strong starts_later).
  - intros r r' Hr Hr' H1 H2. rewrite merge_sort_Permutation in Hr. rewrite elem_of_reverse in Hr'. unfold starts_later in *. apply (regions_distinct idx ps r r' Hps Hr Hr'). lia.
  - apply StronglySorted_merge_sort; apply _.
  - apply sorted_regions.
  - by rewrite merge_sort_Permutation, reverse_Permutation.
Qed.
Lemma splice_at pre mid post base ours theirs :
  splice_region (pre ++ mid ++ post) {| start_line := List.length pre; end_line := List.length pre + List.length mid;
    base_lines := base; ours_lines := ours; theirs_lines := theirs |} = pre ++ marker_lines base ours theirs ++ post.
Proof.
  unfold splice_region. cbn [start_line end_line base_lines ours_lines theirs_lines]. rewrite !length_app.
  rewrite (Nat.min_l (_ + _)), Nat.min_l by lia. rewrite take_app_length, (app_assoc pre mid post), <-length_app, drop_app_length. done.
Qed.
Lemma splice_regions pre ps :
  foldl splice_region (pre ++ (ps ≫= resolved_piece)) (reverse (regions_at resolved_piece (List.length pre) ps)) = pre ++ (ps ≫= marked_piece).
Proof.
  revert pre. induction ps as [|p ps IH]; intros pre; [done|]. rewrite !bind_cons. cbn [regions_at].
  rewrite reverse_app, foldl_app, (app_assoc pre (resolved_piece p)), <-length_app, IH, <-app_assoc. destruct p as [l|merged base ours theirs]; [done|].
  rewrite length_app. apply splice_at.
Qed.

Lemma text_lines_of (f : Piece → list string) ps : Forall (λ p, Forall text_line (f p)) ps → Forall text_line (ps ≫= f).
Proof. induction 1 as [|p ps Hp _ IH]; [done|]. rewrite bind_cons. by apply Forall_app. Qed.
Lemma bind_not_nil (f : Piece → list string) ps : ps ≠ [] → Forall (λ p, f p ≠ []) ps → (ps ≫= f) ≠ [].
Proof. destruct ps as [|p ps]; [done|]. intros _ [Hp _]%Forall_cons. rewrite bind_cons. by intros [? _]%app_nil. Qed.
Lemma pieces_not_nil ps : Forall piece_ok ps → ps ≠ [] → (ps ≫= resolved_piece) ≠ [] ∧ (ps ≫= marked_piece) ≠ [].
Proof.
  intros Hps Hne. split; (apply bind_not_nil; [done|]); (eapply Forall_impl; [exact Hps|]); by intros [l|merged base ours theirs] (_ & Hp); try apply Hp.
Qed.
(** The last line of a text that ends without a newline is not blank. *)
Lemma ends_newline_split s : ends_with newline s = true ∨ s = "" ↔ last (split newline_char s) = Some "".
Proof.
  split.
  - intros [(t & ->)%ends_with_true| ->]; [|done]. unfold newline. rewrite split_append. cbn [split]. by rewrite last_snoc.
  - intros [l E]%last_Some. pose proof (concat_split newline_char s) as Hs. rewrite E in Hs. destruct l as [|w' l]; [right; by rewrite <-Hs|]. left. apply ends_with_true.
    rewrite concat_app in Hs by done. by eexists.
Qed.
Lemma last_ended ws : last ws ≠ Some "" → last (ended_lines ws) = last ws.
Proof.
  induction ws as [|w [|w' ws] IH]; intros Hl; [done| |].
  - cbn in *. rewrite decide_False by congruence. done.
  - rewrite last_cons_cons in *. specialize (IH Hl). change (ended_lines (w :: w' :: ws)) with (default w (strip_last "013" w) :: ended_lines (w' :: ws)).
    destruct (ended_lines (w' :: ws)) as [|x xs] eqn:E; [|by rewrite last_cons_cons]. symmetry in IH. by apply last_None in IH.
Qed.
Lemma open_lines lines : lines ≠ [] → Forall text_line lines → last lines ≠ Some "" → ended_lines lines = lines.
Proof.
  induction lines as [|l [|l' lines] IH]; intros Hne Hl Hlast; [done|cbn; by rewrite decide_False by (intros ->; done)|].
  apply Forall_cons in Hl as [[_ Hl] Hls]. rewrite last_cons_cons in Hlast. specialize (IH ltac:(done) Hls Hlast).
  change (default l (strip_last "013" l) :: ended_lines (l' :: lines) = l :: l' :: lines). by rewrite IH, Hl.
Qed.
(** Lines joined as the code joins them read back. *)
Lemma joined_lines lines (ended : bool) : lines ≠ [] → Forall text_line lines → (ended = false → last lines ≠ Some "") →
  let text := String.concat newline lines +:+ (if ended then newline else "") in
  str_lines text = lines ∧ ends_with newline text = ended.
Proof.
  intros Hne Hl Hlast text. destruct ended; unfold text.
  - split; [rewrite text_of_joined by done; by apply lines_of_text|]. apply ends_with_true. eauto.
  - rewrite append_nil_r. specialize (Hlast eq_refl).
    assert (Hs : split newline_char (String.concat newline lines) = lines).
    { apply split_concat_lines; [done|]. eapply Forall_impl; [exact Hl|]. by intros l [? _]. }
    unfold str_lines. rewrite Hs. split; [by apply open_lines|]. destruct (ends_with _ _) eqn:E; [|done].
    destruct Hlast. rewrite <-Hs at 1. apply ends_newline_split. by left.
Qed.
Lemma last_marked ps : Forall piece_ok ps → last (ps ≫= resolved_piece) ≠ Some "" → last (ps ≫= marked_piece) ≠ Some "".
Proof.
  destruct ps as [|p ps _] using rev_ind; [done|]. intros Hps. rewrite !bind_app, !bind_cons, !app_nil_r. destruct p as [l|merged base ours theirs].
  - cbn [resolved_piece marked_piece]. by rewrite !last_snoc.
  - intros _. cbn [marked_piece]. unfold marker_lines. rewrite !app_assoc, last_snoc. done.
Qed.
(** C12: marking a text writes the two sides and the base in place of each conflict,
    every other line as it was and a final newline exactly where there was one, and the
    parser reads the same conflicts back, with the lines they now span. *)
Theorem markers_roundtrip ps text details :
  Forall piece_ok ps → str_lines text = ps ≫= resolved_piece → details ≫= detail_regions = regions_at resolved_piece 0 ps →
  let marked := inject_conflict_markers text details in
  str_lines marked = ps ≫= marked_piece ∧ ends_with newline marked = ends_with newline text ∧
  parse_conflict_regions marked = regions_at marked_piece 0 ps.
Proof.
  intros Hps Ht Hd marked. assert (Hm : str_lines marked = ps ≫= marked_piece ∧ ends_with newline marked = ends_with newline text).
  - unfold marked, inject_conflict_markers. rewrite Hd. case_decide as Hr.
    + split; [|done]. rewrite Ht. clear Hd Ht. revert Hr. generalize 0.
      induction ps as [|[l|merged base ours theirs] ps IH]; intros idx; cbn [regions_at app]; [done| |done].
      intros Hr. rewrite !bind_cons. f_equal. apply Forall_cons in Hps as [_ Hps]. by eapply IH.
    + cbv zeta. rewrite sort_regions by done. rewrite Ht.
      assert (foldl splice_region (ps ≫= resolved_piece) (reverse (regions_at resolved_piece 0 ps)) = ps ≫= marked_piece) as -> by exact (splice_regions [] ps).
      destruct (pieces_not_nil ps Hps) as [H1 H2]; [by intros ->|]. apply joined_lines; [done| |].
      * apply text_lines_of. eapply Forall_impl; [exact Hps|]. by intros p [? _].
      * intros He. apply last_marked; [done|]. rewrite <-Ht. unfold str_lines in *.
        assert (Hl : last (split newline_char text) ≠ Some "").
        { intros [E| ->]%ends_newline_split; [congruence|]. apply H1. by rewrite <-Ht. }
        by rewrite last_ended.
  - split; [apply Hm|]. split; [apply Hm|]. unfold parse_conflict_regions. rewrite (proj1 Hm). by apply parse_marked.
Qed.

(** A file with two conflicts, the first with a base. *)
Definition two_conflicts : list Piece := [Line "a"; Conflict ["x"] ["o"] ["x"; "y"] ["z"]; Line "b"; Conflict ["p"; "q"] [] [] ["r"]].
Lemma markers_roundtrip_witness :
  let details := [{| detail_file := "f"; detail_binary := false; detail_regions := regions_at resolved_piece 0 two_conflicts |}] in
  let marked := inject_conflict_markers (String.concat newline ["a"; "x"; "b"; "p"; "q"]) details in
  str_lines marked = ["a"; "<<<<<<< ours"; "x"; "y"; "||||||| base"; "o"; "======="; "z"; ">>>>>>> theirs"; "b"; "<<<<<<< ours"; "======="; "r"; ">>>>>>> theirs"] ∧
  parse_conflict_regions marked = regions_at marked_piece 0 two_conflicts.
Proof.
  destruct (markers_roundtrip two_conflicts (String.concat newline ["a"; "x"; "b"; "p"; "q"])
    [{| detail_file := "f"; detail_binary := false; detail_regions := regions_at resolved_piece 0 two_conflicts |}]) as (H1 & _ & H2).
  - repeat first [apply Forall_nil_2 | apply Forall_cons_2 | split]; done.
  - done.
  - done.
  - split; [exact H1|exact H2].
Defined.
