(* ===== verification/GitFacts.v ===== *)
(** Facts about commits on refs: the store stays sound, a ref only moves to a
    commit that has its old head in its history, and a commit on a ref is the
    head's tree with the changes made, whatever other writers do in between. *)

From S2P Require Import Prelude Strings Numbers GitStore GitTrees GitWalks.

Section facts.
  Context {Id : Type} `{Countable Id} (hash : Object Id → Id) (hex : Id → string) (encodable : Object Id → bool).
  Context (full_name_ok : string → bool) `{!Inj (=) (=) hash}.
  Implicit Types (objs : gmap Id (Object Id)) (g : GitStore Id).

(** Every commit's tree is sound. *)
Definition commits_ok objs : Prop := ∀ id c, objs !! id = Some (Commit c) → tree_ok objs (stored_tree c).
Definition store_ok g : Prop := sound hash (objects g) ∧ commits_ok (objects g).
Definition history objs : Id → Id → Prop := reaches objs None.
(** The store grows, and the ref's head stays in its history. *)
Definition advances (name : string) g g' : Prop :=
  (store_ok g → store_ok g' ∧ objects g ⊆ objects g') ∧
  (store_ok g → ∀ h, refs g !! name = Some h → ∃ h', refs g' !! name = Some h' ∧ history (objects g') h' h).

Lemma history_weaken objs objs' x y : objs ⊆ objs' → history objs x y → history objs' x y.
Proof.
  intros Hsub Hr. induction Hr as [|a b c (s & Hs & Hst & Hb) _ IH]; [done|]. eapply rtc_l; [|exact IH]. exists s.
  split; [by eapply lookup_weaken|done].
Qed.
#[export] Instance advances_preorder name : PreOrder (advances name).
Proof.
  split.
  - intros g. split; [by intros|]. intros _ h Hh. exists h. split; [done|apply rtc_refl].
  - intros g1 g2 g3 [H1 R1] [H2 R2]. split.
    + intros Hok. destruct (H1 Hok) as [Hok2 Hs]. destruct (H2 Hok2) as [Hok3 Hs2]. split; [done|by etransitivity].
    + intros Hok h Hh. destruct (H1 Hok) as [Hok2 Hs]. destruct (H2 Hok2) as [Hok3 Hs2].
      destruct (R1 Hok h Hh) as (h2 & Hh2 & Hr2). destruct (R2 Hok2 h2 Hh2) as (h3 & Hh3 & Hr3). exists h3. split; [done|].
      unfold history, reaches in *. etransitivity; [exact Hr3|]. by eapply history_weaken.
Qed.

(** ** Objects *)

Lemma commits_ok_insert objs o : sound hash objs → commits_ok objs → (∀ c, o = Commit c → tree_ok objs (stored_tree c)) → commits_ok (<[hash o := o]> objs).
Proof.
  intros Hs Hc Ho id c. pose proof (insert_grows hash objs o Hs) as [Hsub _]. rewrite lookup_insert_Some.
  intros [[<- ->]|[_ Hid]]; apply (tree_ok_weaken hex objs); [done|by apply Ho|done|by eapply Hc].
Qed.
Lemma write_commit_adds tree ps who committer ts text objs : sound hash objs → commits_ok objs → tree_ok objs tree →
  let '(objs', r) := write_commit hash encodable tree ps who committer ts text objs in
  objs ⊆ objs' ∧ sound hash objs' ∧ commits_ok objs' ∧
  match r with
  | Ok id => ∃ c, objs' !! id = Some (Commit c) ∧ stored_tree c = tree ∧ stored_parents c = ps ∧
      stored_message c = trim_end_of (is_char newline_char) text +:+ String newline_char ""
  | Err e => ∃ o, encodable o = false
  end.
Proof.
  intros Hs Hc Ht. unfold write_commit, write_object. set (o := Commit _). destruct (encodable o) eqn:He.
  - pose proof (insert_grows hash objs o Hs) as [Hsub Hs']. split; [done|]. split; [done|]. split; [apply commits_ok_insert; [done..|by intros c [= <-]]|].
    eexists. split; [apply lookup_insert_eq|done].
  - split; [done|]. split; [done|]. split; [done|]. by exists o.
Qed.
(** Building a tree writes no commits. *)
Definition commits_of (base : gmap Id (Object Id)) objs : Prop := ∀ id c, objs !! id = Some (Commit c) → base !! id = Some (Commit c).
Lemma commits_of_insert base objs o : (∀ c, o ≠ Commit c) → commits_of base objs → commits_of base (<[hash o := o]> objs).
Proof. intros Ho Hc id c. rewrite lookup_insert_Some. intros [[_ ?]|[_ ?]]; [by destruct (Ho c)|by apply Hc]. Qed.
Lemma stable_write_blob base bytes : stable (commits_of base) (write_blob hash bytes).
Proof. intros objs Hc. by apply commits_of_insert. Qed.
Lemma stable_write_tree base es : stable (commits_of base) (write_tree hash encodable es).
Proof.
  unfold write_tree. destruct (head _); [apply stable_throw|]. intros objs Hc. unfold write_object. case_match; [by apply commits_of_insert|done].
Qed.
Lemma stable_foldr {S E A B} (P : S → Prop) (f : A → SE S E B → SE S E B) (m : SE S E B) l :
  (∀ a m, stable P m → stable P (f a m)) → stable P m → stable P (foldr f m l).
Proof. intros Hf Hm. induction l as [|a l IH]; [done|]. by apply Hf. Qed.
#[local] Hint Resolve stable_write_blob stable_write_tree : stable.
Lemma stable_build_level base n parent staged : stable (commits_of base) (build_tree_level hash hex encodable n parent staged).
Proof.
  revert parent staged. induction n as [|n IH]; intros parent staged; [apply stable_throw|]. cbn [build_tree_level].
  apply stable_bind; [solve_stable|]. intros objs. apply stable_bind; [solve_stable|]. intros es. apply stable_bind; [|intros trees; case_decide; solve_stable].
  apply stable_foldr; [|apply stable_ret]. intros [d sub] m Hm. unfold add_child. apply stable_bind; [done|]. intros trees. case_match; [apply stable_throw|].
  apply stable_bind; [apply IH|]. intros child. apply stable_ret.
Qed.
Lemma stable_write_blobs base changes : stable (commits_of base) (write_blobs hash changes).
Proof. unfold write_blobs. apply stable_foldr; [|apply stable_ret]. intros [k c] m Hm. cbn. solve_stable. Qed.
#[local] Hint Resolve stable_build_level stable_write_blobs : stable.
Lemma stable_build_tree base parent changes : stable (commits_of base) (build_tree_from_parent hash hex encodable parent changes).
Proof. unfold build_tree_from_parent. solve_stable. Qed.
(** What a commit holds. *)
Definition commit_content objs (head : option Id) (p : string) : option (string * string) :=
  match head with
  | Some h => match objs !! h with Some (Commit c) => content objs (Some (stored_tree c)) p | _ => None end
  | None => None
  end.
Lemma build_adds parent changes objs : sound hash objs → commits_ok objs → parent_ok objs parent → changes_ok changes →
  let '(objs', r) := build_tree_from_parent hash hex encodable parent changes objs in
  objs ⊆ objs' ∧ sound hash objs' ∧ commits_ok objs' ∧
  match r with
  | Ok t => ¬ clash changes (content objs parent) ∧ tree_ok objs' t ∧ applied changes (content objs parent) (content objs' (Some t))
  | Err e => (∃ r, e = InvalidInput r) ∧ clash changes (content objs parent) ∨ ∃ o, encodable o = false
  end.
Proof.
  intros Hs Hc Hp Hch. pose proof (build_tree_ok hash hex encodable objs parent changes Hs Hp Hch) as [[Hsub Hs'] Hr].
  pose proof (stable_build_tree objs parent changes objs) as Hst. destruct (build_tree_from_parent _ _ _ _ _ objs) as [objs' r]. cbn in *.
  split; [done|]. split; [done|]. split; [|done]. intros id c Hid. apply (tree_ok_weaken hex objs); [done|]. apply (Hc id). apply Hst; [by intros ??|done].
Qed.
(** ** Commits on refs *)

#[local] Notation attempt := (attempt_commit hash hex encodable full_name_ok).
Lemma on_objects_eq {A} (o : SE (gmap Id (Object Id)) GitStoreError A) g objs' r :
  o (objects g) = (objs', r) → on_objects o g = (set_objects objs' g, r).
Proof. intros E. unfold on_objects. by rewrite E. Qed.
Lemma swap_Ok name want next g g' : compare_and_swap full_name_ok name want next g = (g', Ok tt) → refs g !! name = want ∧ g' = set_refs (<[name := next]> (refs g)) g.
Proof. unfold compare_and_swap. destruct (ref_full_name _ _); [|done]. case_decide; [|done]. by intros [= <-]. Qed.
Lemma swap_Err name want next g g' e : compare_and_swap full_name_ok name want next g = (g', Err e) →
  g' = g ∧ (e = RefConflict name ∧ refs g !! name ≠ want ∨ ref_full_name full_name_ok name = Err e).
Proof.
  unfold compare_and_swap. destruct (ref_full_name _ _) as [|e'] eqn:En; [|intros [= <- <-]; split; [done|by right]].
  case_decide; [done|]. intros [= <- <-]. split; [done|by left].
Qed.
Lemma commit_content_at objs id c p : objs !! id = Some (Commit c) → commit_content objs (Some id) p = content objs (Some (stored_tree c)) p.
Proof. intros Hid. unfold commit_content. by rewrite Hid. Qed.
(** A commit on the head it was built on. *)
Definition commits_changes g g' head changes (o : CommitOnRefOutcome (Id := Id)) : Prop :=
  if created o then
    ∃ c, objects g' !! outcome_id o = Some (Commit c) ∧ stored_parents c = option_list head ∧
      applied changes (commit_content (objects g) head) (content (objects g') (Some (stored_tree c)))
  else head = Some (outcome_id o) ∧ applied changes (commit_content (objects g) head) (commit_content (objects g) head).
Lemma refused_clash_ext changes (F G : string → option (string * string)) : (∀ p, F p = G p) → clash changes F → clash changes G.
Proof. intros HFG (d & q & c & Hc & Hd). exists d, q, c. split; [done|]. unfold holds_file in *. by rewrite <-HFG. Qed.
(** Why a commit on a head is refused: the ref has another head by now, or a name that
    no ref can have; the head is no commit; a change runs through a file; the encoder. *)
Definition refuses refname head changes g (e : GitStoreError) : Prop :=
  e = RefConflict refname ∧ refs g !! refname ≠ head ∨ ref_full_name full_name_ok refname = Err e ∨
  (∃ id, head = Some id ∧ ¬ is_commit (objects g) id) ∨
  (∃ r, e = InvalidInput r) ∧ clash changes (commit_content (objects g) head) ∨ ∃ o, encodable o = false.
Definition attempt_result refname head changes g g' (r : result GitStoreError (CommitOnRefOutcome (Id := Id))) : Prop :=
  store_ok g' ∧ objects g ⊆ objects g' ∧
  match r with
  | Ok o => commits_changes g g' head changes o ∧
      if created o then refs g !! refname = head ∧ refs g' = <[refname := outcome_id o]> (refs g) else refs g' = refs g
  | Err e => refs g' = refs g ∧ refuses refname head changes g e
  end.
Lemma parent_tree_ok g head : store_ok g →
  match (match head with Some id => c ← read_commit_of hex id; mret (Some (commit_tree c)) | None => mret None end) g with
  | (g', Ok parent) => g' = g ∧ parent_ok (objects g) parent ∧ (∀ p, content (objects g) parent p = commit_content (objects g) head p) ∧ (is_Some head → is_Some parent)
  | (g', Err _) => g' = g ∧ ∃ id, head = Some id ∧ ¬ is_commit (objects g) id
  end.
Proof.
  intros [Hs Hc]. destruct head as [id|].
  - unfold read_commit_of, mbind, M_bind. destruct (read_commit hex id (objects g)) as [c|e] eqn:Er.
    2: { split; [done|]. exists id. split; [done|]. intros [c Hid]. unfold read_commit, find_data in Er. by rewrite Hid in Er. }
    apply read_commit_Ok in Er as (s & Hs' & ->). split; [done|]. split; [intros t [= <-]; by eapply Hc|].
    split; [|by intros; eexists]. intros p. by rewrite (commit_content_at _ _ s).
  - split; [done|]. split; [by intros t ?|]. split; [done|]. by intros [? ?].
Qed.
Lemma attempt_write refname head changes who text now tree g g0 : store_ok g → objects g0 ⊆ objects g → refs g = refs g0 →
  tree_ok (objects g) tree → applied changes (commit_content (objects g0) head) (content (objects g) (Some tree)) →
  let '(g', r) := (new ← on_objects (write_commit hash encodable tree (option_list head) who SYSTEM_COMMITTER now text);
      _ ← compare_and_swap full_name_ok refname head new; mret {| outcome_id := new; created := true |}) g in
  attempt_result refname head changes g0 g' r.
Proof.
  intros [Hs Hc] Hsub Hrefs Ht Ha. pose proof (write_commit_adds tree (option_list head) who SYSTEM_COMMITTER now text (objects g) Hs Hc Ht) as Hw.
  destruct (write_commit _ _ _ _ _ _ _ _ (objects g)) as [objs' [id|e]] eqn:Ew; destruct Hw as (Hsub' & Hs' & Hc' & Hw).
  2: { rewrite (bind_Err _ _ _ _ _ (on_objects_eq _ g _ _ Ew)). split; [done|]. split; [by etransitivity|]. split; [done|]. by do 4 right. }
  rewrite (bind_Ok _ _ _ _ _ (on_objects_eq _ g _ _ Ew)).
  destruct (compare_and_swap full_name_ok refname head id (set_objects objs' g)) as [g2 [[]|e]] eqn:Eswap.
  - rewrite (bind_Ok _ _ _ _ _ Eswap). apply swap_Ok in Eswap as [Hhead ->]. cbn in *. split; [done|]. split; [by etransitivity|]. cbn. rewrite <-Hrefs.
    split; [|done]. destruct Hw as (c & Hid & Htree & Hps & _). exists c. split; [done|]. split; [done|]. eapply applied_ext; [done| |exact Ha].
    intros p. rewrite Htree. symmetry. apply (content_weaken hex); [done|]. by intros t [= <-].
  - rewrite (bind_Err _ _ _ _ _ Eswap). apply swap_Err in Eswap as [-> Hr]. split; [done|]. split; [by etransitivity|]. split; [done|]. cbn in Hr.
    rewrite Hrefs in Hr. destruct Hr as [?|?]; [by left|by right; left].
Qed.
Lemma attempt_ok refname head changes who text now g : store_ok g → changes_ok changes →
  let '(g', r) := attempt refname head changes who text now g in attempt_result refname head changes g g' r.
Proof.
  intros Hok Hch. unfold attempt_commit. pose proof (parent_tree_ok g head Hok) as Hp. set (m := match head with Some _ => _ | None => _ end) in *.
  destruct (m g) as [g1 [parent|e]] eqn:E; [|destruct Hp as [-> Hu]; rewrite (bind_Err _ _ _ _ _ E); by do 3 (split; [done|]); do 2 right; left]. destruct Hp as (-> & Hp & Hpc & Hps). rewrite (bind_Ok _ _ _ _ _ E).
  pose proof Hok as [Hs Hc]. pose proof (build_adds parent changes (objects g) Hs Hc Hp Hch) as Hb.
  destruct (build_tree_from_parent _ _ _ _ _ (objects g)) as [objs1 [tree|e]] eqn:Eb; destruct Hb as (Hsub & Hs1 & Hc1 & Hb).
  2: { rewrite (bind_Err _ _ _ _ _ (on_objects_eq _ g _ _ Eb)). do 3 (split; [done|]). destruct Hb as [[Hi Hcl]|Ho]; [|by do 4 right].
       do 3 right. left. split; [done|]. by eapply refused_clash_ext. }
  rewrite (bind_Ok _ _ _ _ _ (on_objects_eq _ g _ _ Eb)). destruct Hb as (_ & Ht & Ha).
  assert (Ha' : applied changes (commit_content (objects g) head) (content objs1 (Some tree))) by (eapply applied_ext; [exact Hpc|done|exact Ha]).
  destruct head as [id|].
  - case_decide as Hsame.
    + split; [done|]. split; [done|]. split; [|done]. split; [done|]. eapply applied_ext; [exact Hpc| |exact Ha]. intros p. rewrite <-Hpc, Hsame.
      apply (content_weaken hex); [done|]. by rewrite <-Hsame.
    + by apply (attempt_write refname (Some id)).
  - by apply (attempt_write refname None).
Qed.
Lemma same_head_advances name g g' : store_ok g' → objects g ⊆ objects g' → refs g' !! name = refs g !! name → advances name g g'.
Proof. intros Hok Hsub Hr. split; [done|]. intros _ h Hh. exists h. split; [by rewrite Hr|apply rtc_refl]. Qed.
(** A new head whose parents include the old one. *)
Lemma child_advances name g g' new c : store_ok g' → objects g ⊆ objects g' → refs g' !! name = Some new → objects g' !! new = Some (Commit c) →
  (∀ h, refs g !! name = Some h → h ∈ stored_parents c) → advances name g g'.
Proof.
  intros Hok Hsub Hr Hc Hps. split; [done|]. intros _ h Hh. exists new. split; [done|]. apply rtc_once. exists c. split; [done|]. split; [done|by apply Hps].
Qed.
Lemma attempt_advances name refname head changes g g' r : attempt_result refname head changes g g' r → advances name g g'.
Proof.
  intros (Hok & Hsub & Hr). destruct r as [o|e]; [|destruct Hr as [Hr _]; apply same_head_advances; [done|done|by rewrite Hr]].
  destruct Hr as [Hc Hr]. unfold commits_changes in Hc. destruct (created o); [|apply same_head_advances; [done|done|by rewrite Hr]].
  destruct Hr as [Hhead Hr], Hc as (c & Hid & Hps & _). destruct (decide (refname = name)) as [->|Hne].
  - apply (child_advances _ _ _ (outcome_id o) c); [done|done|by rewrite Hr, lookup_insert_eq|done|]. intros h Hh. rewrite Hps, <-Hhead, Hh. by left.
  - apply same_head_advances; [done|done|]. by rewrite Hr, lookup_insert_ne.
Qed.
Lemma commit_attempts_advances name others n refname changes who text now g :
  (∀ k g, advances name g (others k g)) → store_ok g → changes_ok changes →
  advances name g (commit_attempts hash hex encodable full_name_ok others n refname changes who text now g).1.
Proof.
  intros Hoth Hok Hch. revert g Hok. induction n as [|n IH]; intros g Hok; [done|]. cbn [commit_attempts].
  destruct (ref_path refname) as [[]|e] eqn:Ep.
  2: { rewrite (bind_Err _ _ _ g e); [|unfold read_ref; by rewrite Ep]. destruct e; try done. by apply IH. }
  rewrite (bind_Ok _ _ _ g (refs g !! refname)); [|unfold read_ref; by rewrite Ep]. rewrite (bind_Ok _ _ _ (others (S n) g) tt) by done.
  pose proof (Hoth (S n) g) as Hadv. destruct (proj1 Hadv Hok) as [Hok1 Hsub1].
  pose proof (attempt_ok refname (refs g !! refname) changes who text (now (S n)) (others (S n) g) Hok1 Hch) as Ha.
  destruct (attempt _ _ _ _ _ _ _) as [g' r]. pose proof (attempt_advances name _ _ _ _ _ _ Ha) as Hadv'.
  assert (Hg : advances name g g') by by etransitivity. destruct r as [o|[]]; try done. etransitivity; [done|]. apply IH, Ha.
Qed.
End facts.
