(* ===== verification/FileManagerFacts.v ===== *)
(** The file checkpoint manager's guarantees: paths stay in the workspace, main
    only moves forward, a clean merge is the three-way merge of the files. *)

From S2P Require Import Prelude Strings Numbers DeltaChain GitStore GitTrees GitWalks FileManager GitFacts.

(** * Paths *)

Lemma normalize_no_backslash p : contains backslash (normalize_posix_separators p) = false.
Proof.
  induction p as [|a p IH]; [done|]. cbn [normalize_posix_separators contains]. rewrite IH, orb_false_r. apply bool_decide_eq_false.
  by case_decide.
Qed.
Lemma normalize_id p : contains backslash p = false → normalize_posix_separators p = p.
Proof.
  induction p as [|a p IH]; [done|]. cbn [normalize_posix_separators contains]. intros [Ha%bool_decide_eq_false Hp]%orb_false_iff.
  rewrite decide_False by done. by rewrite IH.
Qed.
(** A component of a path in the workspace. *)
Definition plain_component (w : string) : Prop := w ≠ "" ∧ w ≠ "." ∧ w ≠ ".." ∧ contains "/" w = false ∧ contains backslash w = false.
Lemma normalize_components_plain path ws acc out :
  Forall (λ w, contains "/" w = false ∧ contains backslash w = false) ws → Forall plain_component acc →
  normalize_components path ws acc = Ok out → Forall plain_component out.
Proof.
  revert acc. induction ws as [|w ws IH]; intros acc Hws Hacc; [by intros [= <-]|]. apply Forall_cons in Hws as [[H1 H2] Hws]. cbn [normalize_components].
  case_decide as Hd; [by apply IH|]. case_decide as Hp.
  - destruct acc as [|a acc _] using rev_ind; [done|]. apply Forall_app in Hacc as [Hacc _]. intros E. apply (IH acc Hws Hacc). rewrite <-E.
    destruct (acc ++ [a]) eqn:Ea; [by destruct acc|]. rewrite <-Ea. by rewrite removelast_last.
  - apply IH; [done|]. apply Forall_app. split; [done|]. apply Forall_singleton. split; [naive_solver|]. split; [naive_solver|]. done.
Qed.
Lemma split_without c d p : contains c p = false → Forall (λ w, contains c w = false) (split d p).
Proof.
  induction p as [|a p IH]; [by repeat constructor|]. cbn [contains split]. intros [Ha Hp]%orb_false_iff. specialize (IH Hp).
  destruct (split_cons d p) as (w & ws & E). rewrite E in IH |- *. apply Forall_cons in IH as [Hw Hws].
  destruct (decide (a = d)); repeat constructor; try done. cbn [contains]. by rewrite Ha.
Qed.
Lemma concat_without c ws : c ≠ "/"%char → Forall (λ w, contains c w = false) ws → contains c (String.concat "/" ws) = false.
Proof.
  intros Hc Hws. induction Hws as [|w ws Hw Hws IH]; [done|]. destruct ws as [|w' ws]; [done|]. rewrite (concat_cons "/" w w' ws), contains_app, Hw.
  cbn [contains orb]. rewrite bool_decide_eq_false_2 by done. exact IH.
Qed.
Lemma validated_components p q : validate_workspace_relative_path p = Ok q →
  ∃ ws, ws ≠ [] ∧ Forall plain_component ws ∧ q = String.concat "/" ws ∧ split "/" q = ws.
Proof.
  unfold validate_workspace_relative_path. case_decide; [done|]. destruct (starts_with _ _); [done|].
  destruct (normalize_components p _ []) as [ws|e] eqn:E; [|done]. rewrite ok_bind.
  assert (Hws : Forall plain_component ws).
  { eapply normalize_components_plain; [|constructor|exact E]. rewrite Forall_forall. intros w Hw. split.
    - pose proof (split_no_delim "/" (normalize_posix_separators p)) as Hall. rewrite Forall_forall in Hall. by apply Hall.
    - pose proof (split_without backslash "/" _ (normalize_no_backslash p)) as Hall. rewrite Forall_forall in Hall. by apply Hall. }
  destruct ws as [|w ws]; [done|].
  assert (Hq : normalize_posix_separators (String.concat "/" (w :: ws)) = String.concat "/" (w :: ws)).
  { apply normalize_id, concat_without; [done|]. eapply Forall_impl; [exact Hws|]. by intros x (_ & _ & _ & _ & ?). }
  rewrite Hq. intros Eq. assert (q = String.concat "/" (w :: ws)) as -> by congruence.
  exists (w :: ws). split; [done|]. split; [done|]. split; [done|]. apply (split_concat_lines "/"); [done|]. eapply Forall_impl; [exact Hws|]. by intros x (_ & _ & _ & ? & _).
Qed.
Lemma validated_proper p q : validate_workspace_relative_path p = Ok q → proper q.
Proof.
  intros (ws & _ & Hws & _ & Hs)%validated_components. unfold proper. rewrite Hs. eapply Forall_impl; [exact Hws|]. by intros w (? & _).
Qed.

(** * Three-way merges *)

Lemma sorted_ids_nil (X : gset string) : sorted_ids X = [] ↔ ∀ x, x ∉ X.
Proof.
  unfold sorted_ids. split.
  - intros E x. rewrite <-elem_of_elements, <-(merge_sort_Permutation String.le), E. apply not_elem_of_nil.
  - intros Hn. assert (X = ∅) as -> by set_solver. by rewrite elements_empty.
Qed.

Section merging.
  Context (text_merge : string → string → string → string * bool).
  Implicit Types base ours theirs : gmap string string.
  #[local] Notation outcome base ours theirs p := (merge_file_contents text_merge (base !! p) (ours !! p) (theirs !! p)).

Lemma outcome_absent : merge_file_contents text_merge None None None = {| merged_bytes := None; conflicted := false |}.
Proof. done. Qed.
Lemma elem_of_merge_keys base ours theirs p : p ∈ merge_keys base ours theirs ↔ is_Some (base !! p) ∨ is_Some (ours !! p) ∨ is_Some (theirs !! p).
Proof. unfold merge_keys. rewrite !elem_of_union, !elem_of_dom. tauto. Qed.
Lemma not_merge_key base ours theirs p : p ∉ merge_keys base ours theirs → base !! p = None ∧ ours !! p = None ∧ theirs !! p = None.
Proof. rewrite elem_of_merge_keys, !eq_None_not_Some. tauto. Qed.
Lemma merged_lookup base ours theirs p :
  (merge_file_maps text_merge base ours theirs).1 !! p =
  if decide (p ∈ merge_keys base ours theirs) then Some (merged_bytes (outcome base ours theirs p)) else None.
Proof.
  unfold merge_file_maps. cbn [fst]. apply option_eq. intros o. rewrite lookup_set_to_map by done. case_decide as Hp; split.
  - by intros (k & Hk & [= -> <-]).
  - intros [= <-]. by exists p.
  - by intros (k & Hk & [= -> _]).
  - done.
Qed.
Lemma no_conflicts base ours theirs :
  (merge_file_maps text_merge base ours theirs).2 = [] ↔ ∀ p, conflicted (outcome base ours theirs p) = false.
Proof.
  unfold merge_file_maps. cbn [snd]. rewrite sorted_ids_nil. split.
  - intros Hn p. destruct (decide (p ∈ merge_keys base ours theirs)) as [Hp|Hp].
    + apply not_true_iff_false. intros Hc. apply (Hn p). by apply elem_of_filter.
    + by apply not_merge_key in Hp as (-> & -> & ->).
  - intros Hf p [Hc _]%elem_of_filter. by rewrite Hf in Hc.
Qed.
(** The files of a tree built from a merge. *)
Lemma merged_applied base ours theirs (F G : string → option (string * string)) :
  (∀ p, base !! p = None → ours !! p = None → theirs !! p = None → F p = None) →
  applied (merged_changes (merge_file_maps text_merge base ours theirs).1) F G → ∀ p, snd <$> G p = merged_bytes (outcome base ours theirs p).
Proof.
  intros HF Ha p. specialize (Ha p). unfold merged_changes in Ha. rewrite lookup_fmap, merged_lookup in Ha. case_decide as Hp; cbn in Ha.
  - rewrite Ha. by destruct (merged_bytes _).
  - apply not_merge_key in Hp as (Hb & Ho & Ht). specialize (HF p Hb Ho Ht). rewrite Hb, Ho, Ht, outcome_absent. cbn.
    assert (G p = None) as ->; [|done]. destruct (under_dec (merged_changes (merge_file_maps text_merge base ours theirs).1) p) as [Hu|Hu]; [by apply Ha|].
    rewrite <-HF. by apply Ha.
Qed.
(** A side that the merge took whole. *)
Definition one_sided (base ours theirs : option string) : Prop := base = ours ∨ base = theirs ∨ ours = theirs.
Lemma merge_one_sided (base ours theirs : option string) : one_sided base ours theirs →
  merge_file_contents text_merge base ours theirs = {| merged_bytes := if decide (ours = theirs) then ours else if decide (base = ours) then theirs else ours; conflicted := false |}.
Proof. unfold merge_file_contents. intros Hs. repeat case_decide; try done. destruct Hs as [?|[?|?]]; done. Qed.
(** Merging back the change that a one-sided merge took in leaves what was there. *)
Lemma merge_back (base ours theirs : option string) : one_sided base ours theirs →
  merge_file_contents text_merge theirs (merged_bytes (merge_file_contents text_merge base ours theirs)) ours = {| merged_bytes := ours; conflicted := false |}.
Proof.
  intros Hs. rewrite (merge_one_sided base ours theirs) by done. cbn [merged_bytes]. unfold merge_file_contents. repeat case_decide; try congruence; done.
Qed.
End merging.

(** * Operations *)

Create HintDb safe.
Section facts.
  Context {Id : Type} `{Countable Id} (hash : Object Id → Id) (hex : Id → string) (encodable : Object Id → bool).
  Context (short_digest : string → string) (full_name_ok : string → bool) (text_merge : string → string → string → string * bool).
  Context (others : nat → GitStore Id → GitStore Id) (now : nat → Z) (clock : nat → option Z) (sha256_hex : string → string) (group_id : Z → nat → string).
  Context `{!Inj (=) (=) hash} (Hothers : ∀ n g, advances hash REF_MAIN g (others n g)).
  #[local] Notation manager := (FileCheckpointManager (Id := Id)).
  #[local] Notation op := (SE manager CheckpointError).
  Implicit Types m : manager.

#[local] Notation store := (GitStore Id).
#[local] Notation main_moves := (advances hash REF_MAIN).
(** [o] from a store that satisfies [P]: main's head stays in its history; [Q] of a
    result. *)
Definition runs {A} (P : store → Prop) (o : op A) (Q : A → store → Prop) : Prop :=
  ∀ m, store_ok hash (git m) → P (git m) → main_moves (git m) (git (o m).1) ∧ ∀ a, (o m).2 = Ok a → Q a (git (o m).1).
Definition safe {A} (o : op A) : Prop := runs (λ _, True) o (λ _ _, True).

Lemma runs_bind {A B} P (o : op A) (f : A → op B) Q R : runs P o Q → (∀ a, runs (Q a) (f a) R) → runs P (o ≫= f) R.
Proof.
  intros Ho Hf m Hm HP. destruct (Ho m Hm HP) as [Ha Hq]. unfold mbind, M_bind. destruct (o m) as [m' [a|e]]; cbn in *; [|done].
  assert (Hm' : store_ok hash (git m')) by by apply Ha. destruct (Hf a m' Hm' (Hq a eq_refl)) as [Ha' Hr]. split; [by etransitivity|done].
Qed.
Lemma runs_conseq {A} (P P' : store → Prop) (o : op A) (Q Q' : A → store → Prop) :
  (∀ g, store_ok hash g → P g → P' g) → (∀ a g, store_ok hash g → Q' a g → Q a g) → runs P' o Q' → runs P o Q.
Proof.
  intros HP HQ Ho m Hm Hp. destruct (Ho m Hm (HP _ Hm Hp)) as [Ha Hq]. split; [done|]. intros a Ea. apply HQ; [|by apply Hq]. by apply Ha.
Qed.
(** An operation that leaves the store alone. *)
Lemma runs_same {A} P (o : op A) : (∀ m, git (o m).1 = git m) → runs P o (λ _, P).
Proof. intros Ho m _ HP. rewrite Ho. split; [done|]. by intros. Qed.
Lemma runs_ret {A} (P : store → Prop) (a : A) : runs P (mret a) (λ b g, b = a ∧ P g).
Proof. intros m _ HP. split; [done|]. by intros b [= <-]. Qed.
Lemma runs_throw {A} P e (Q : A → store → Prop) : runs P (throw e) Q.
Proof. intros m _ HP. by split. Qed.
Lemma runs_lift {A} (P : store → Prop) (r : result CheckpointError A) : runs P (lift r) (λ a g, r = Ok a ∧ P g).
Proof. intros m _ HP. by split. Qed.
Lemma runs_get P : runs P get_state (λ m g, git m = g ∧ P g).
Proof. intros m _ HP. split; [done|]. by intros a [= <-]. Qed.
Lemma runs_modify P (f : manager → manager) : (∀ m, git (f m) = git m) → runs P (modify f) (λ _, P).
Proof. intros Hf. apply runs_same, Hf. Qed.
Lemma runs_on_git {A} P (o : SE store GitStoreError A) (Q : A → store → Prop) :
  (∀ g, store_ok hash g → P g → let '(g', r) := o g in main_moves g g' ∧ ∀ a, r = Ok a → Q a g') → runs P (on_git o) Q.
Proof.
  intros Ho m Hm HP. specialize (Ho (git m) Hm HP). unfold on_git. destruct (o (git m)) as [g' [a|e]]; cbn; (split; [by apply Ho|]); [|done].
  intros b [= <-]. by apply Ho.
Qed.
Lemma runs_on_git_swap P (o : SE store GitStoreError ()) (Q : bool → store → Prop) :
  (∀ g, store_ok hash g → P g → let '(g', r) := o g in main_moves g g' ∧ match r with Ok _ => Q true g' | Err (RefConflict _) => Q false g' | Err _ => True end) →
  runs P (on_git_swap o) Q.
Proof.
  intros Ho m Hm HP. specialize (Ho (git m) Hm HP). unfold on_git_swap. destruct (o (git m)) as [g' [a|e]]; cbn.
  - split; [by apply Ho|]. intros b [= <-]. by apply Ho.
  - destruct e; cbn; (split; [by apply Ho|]); try done. intros b [= <-]. by apply Ho.
Qed.
(** Facts that outlive growth of the store. *)
Definition lasting (F : store → Prop) : Prop := ∀ g g', store_ok hash g → objects g ⊆ objects g' → F g → F g'.
Lemma runs_frame {A} (F P : store → Prop) (o : op A) (Q : A → store → Prop) :
  lasting F → runs P o Q → runs (λ g, P g ∧ F g) o (λ a g, Q a g ∧ F g).
Proof.
  intros HF Ho m Hm [HP Hf]. destruct (Ho m Hm HP) as [Ha Hq]. split; [done|]. intros a Ea. split; [by apply Hq|].
  eapply HF; [exact Hm| |exact Hf]. by apply Ha.
Qed.
Lemma lasting_and (F F' : store → Prop) : lasting F → lasting F' → lasting (λ g, F g ∧ F' g).
Proof. intros H1 H2 g g' Hg Hs [? ?]. split; [by eapply H1|by eapply H2]. Qed.
Lemma lasting_pure (F : Prop) : lasting (λ _, F).
Proof. by intros g g' _ _ ?. Qed.
Lemma lasting_ex {A} (F : A → store → Prop) : (∀ a, lasting (F a)) → lasting (λ g, ∃ a, F a g).
Proof. intros HF g g' Hg Hs [a Ha]. exists a. by eapply HF. Qed.
Lemma safe_bind {A B} (o : op A) (f : A → op B) : safe o → (∀ a, safe (f a)) → safe (o ≫= f).
Proof. intros Ho Hf. eapply runs_bind; [exact Ho|done]. Qed.
Lemma safe_of {A} (P : store → Prop) (o : op A) Q : (∀ g, P g) → runs P o Q → safe o.
Proof. intros HP Ho. eapply runs_conseq; [..|exact Ho]; [intros g _ _; apply HP|done]. Qed.
Lemma runs_safe {A} P (o : op A) : safe o → runs P o (λ _ _, True).
Proof. intros Ho. eapply runs_conseq; [..|exact Ho]; done. Qed.

(** ** Steps *)

(** The commit's files. *)
Definition files_at g (head : option Id) (p : string) : option string := snd <$> commit_content (objects g) head p.
Definition has_commit (id : Id) g : Prop := ∃ c, objects g !! id = Some (Commit c).
Definition reads (head : option Id) (B : gmap string string) g : Prop := (∀ id, head = Some id → has_commit id g) ∧ ∀ p, B !! p = files_at g head p.
Lemma lasting_has_commit id : lasting (has_commit id).
Proof. intros g g' _ Hs [c Hc]. exists c. by eapply lookup_weaken. Qed.
Lemma files_at_weaken g g' head p : store_ok hash g → objects g ⊆ objects g' → (∀ id, head = Some id → has_commit id g) → files_at g' head p = files_at g head p.
Proof.
  intros [_ Hc] Hs Hh. unfold files_at, commit_content. destruct head as [id|]; [|done]. destruct (Hh id eq_refl) as [c Hid]. rewrite Hid.
  rewrite (lookup_weaken _ _ _ _ Hid Hs). f_equal. apply (content_weaken hex); [done|]. intros t [= <-]. by eapply Hc.
Qed.
Lemma lasting_reads head B : lasting (reads head B).
Proof.
  intros g g' Hg Hs [H1 H2]. split; [intros id Hid; eapply lasting_has_commit; [done..|by apply H1]|]. intros p. rewrite (files_at_weaken g g') by done. apply H2.
Qed.
Lemma runs_read_ref P name : runs P (read_ref_of name) (λ h g, refs g !! name = h ∧ P g).
Proof. apply runs_on_git. intros g _ HP. unfold read_ref. split; [done|]. intros a. destruct (ref_path name); [|done]. by intros [= <-]. Qed.
Lemma runs_commit_of P id : runs P (commit_of hex id) (λ c g, (∃ s, objects g !! id = Some (Commit s) ∧ c = of_stored id s) ∧ P g).
Proof. apply runs_on_git. intros g _ HP. split; [done|]. intros c Hc. by apply read_commit_Ok in Hc. Qed.
Lemma runs_bytes_of P id : runs P (bytes_of hex id) (λ B g, reads (Some id) B g ∧ P g).
Proof.
  eapply runs_bind; [apply runs_commit_of|]. intros c. apply runs_on_git. intros g Hg [(s & Hs & ->) HP]. split; [done|]. intros B HB. split; [|done].
  split; [by intros id' [= <-]; exists s|]. destruct (tree_to_bytes_ok hex (objects g) (stored_tree s)) as (B' & HB' & Hp); [by eapply Hg|].
  change (tree_to_bytes hex (stored_tree s) (objects g) = Ok B) in HB. rewrite HB' in HB. injection HB as <-. intros p. rewrite Hp. unfold files_at. by rewrite (commit_content_at _ _ s).
Qed.
Lemma runs_head_bytes P head : runs P (head_bytes hex head) (λ B g, reads head B g ∧ P g).
Proof.
  destruct head as [id|]; [apply runs_bytes_of|]. eapply runs_conseq; [..|apply runs_ret]; [done|]. intros B g _ [-> HP]. split; [|done].
  split; [by intros id ?|]. intros p. apply lookup_empty.
Qed.
(** Facts that outlive growth of the objects alone. *)
Definition calm (F : store → Prop) : Prop := ∀ g g', store_ok hash g → objects g ⊆ objects g' → refs g = refs g' → F g → F g'.
Lemma lasting_calm F : lasting F → calm F.
Proof. intros HF g g' Hg Hs _. by apply HF. Qed.
Lemma calm_and (F F' : store → Prop) : calm F → calm F' → calm (λ g, F g ∧ F' g).
Proof. intros H1 H2 g g' Hg Hs Hr [? ?]. split; [by eapply H1|by eapply H2]. Qed.
Lemma calm_ref name h : calm (λ g, refs g !! name = h).
Proof. by intros g g' _ _ <-. Qed.
Lemma runs_on_objects {A} (F : store → Prop) (o : SE (gmap Id (Object Id)) GitStoreError A) (Q : A → gmap Id (Object Id) → Prop) (P : store → Prop) :
  calm F → (∀ g, store_ok hash g → P g → let '(objs', r) := o (objects g) in
    objects g ⊆ objs' ∧ sound hash objs' ∧ commits_ok objs' ∧ ∀ a, r = Ok a → Q a objs') →
  runs (λ g, P g ∧ F g) (on_git (on_objects o)) (λ a g, Q a (objects g) ∧ F g).
Proof.
  intros HF Ho. apply runs_on_git. intros g Hg [HP Hf]. specialize (Ho g Hg HP). unfold on_objects. destruct (o (objects g)) as [objs' r].
  destruct Ho as (Hs & Hs' & Hc' & Hq). split; [by apply same_head_advances|]. intros a ->. split; [by apply Hq|]. by eapply HF; [exact Hg|exact Hs|..].
Qed.
Definition paths_ok (merged : gmap string (option string)) : Prop := ∀ p o, merged !! p = Some o → proper p.
Lemma merged_changes_ok merged : paths_ok merged → changes_ok (merged_changes merged).
Proof.
  intros Hp p c. unfold merged_changes. rewrite lookup_fmap. destruct (merged !! p) as [o|] eqn:E; [|done]. intros [= <-]. split; [by eapply Hp|].
  intros m bytes. destruct o; [|done]. intros [= <- <-]. by right; left.
Qed.
Definition built (parent : option Id) (merged : gmap string (option string)) (t : Id) objs : Prop :=
  tree_ok objs t ∧ applied (merged_changes merged) (content objs parent) (content objs (Some t)).
Lemma runs_build_merged F parent merged : calm F → paths_ok merged →
  runs (λ g, parent_ok (objects g) parent ∧ F g) (build_merged hash hex encodable parent merged) (λ t g, built parent merged t (objects g) ∧ F g).
Proof.
  intros HF Hp. apply runs_on_objects; [done|]. intros g [Hs Hc] Hpar.
  pose proof (build_adds hash hex encodable parent (merged_changes merged) (objects g) Hs Hc Hpar (merged_changes_ok _ Hp)) as Hb.
  destruct (build_tree_from_parent _ _ _ _ _ _) as [objs' r]. destruct Hb as (Hsub & Hs' & Hc' & Hr). split; [done|]. split; [done|]. split; [done|].
  intros t ->. destruct Hr as (_ & Ht & Ha). split; [done|]. eapply applied_ext; [|done|exact Ha]. intros q. symmetry. by apply (content_weaken hex).
Qed.
Definition merge_commit (tree : Id) (ps : list Id) (text : string) (id : Id) (g : store) : Prop :=
  ∃ c, objects g !! id = Some (Commit c) ∧ stored_tree c = tree ∧ stored_parents c = ps ∧
    stored_message c = trim_end_of (is_char newline_char) text +:+ String newline_char "".
Lemma lasting_merge_commit tree ps text id : lasting (merge_commit tree ps text id).
Proof. intros g g' _ Hs (c & Hc & ?). exists c. split; [by eapply lookup_weaken|done]. Qed.
Lemma runs_timestamp P : runs P (creation_timestamp clock) (λ _, P).
Proof. apply runs_same. by intros m. Qed.
Lemma runs_commit_merge F tree ps actor text : calm F →
  runs (λ g, tree_ok (objects g) tree ∧ F g) (commit_merge hash encodable clock tree ps actor text) (λ id g, merge_commit tree ps text id g ∧ F g).
Proof.
  intros HF. eapply runs_bind; [apply runs_timestamp|]. intros ts.
  apply (runs_on_objects F _ (λ id objs, ∃ c, objs !! id = Some (Commit c) ∧ stored_tree c = tree ∧ stored_parents c = ps ∧
    stored_message c = trim_end_of (is_char newline_char) text +:+ String newline_char "")); [done|].
  intros g [Hs Hc] Ht. pose proof (write_commit_adds hash hex encodable tree ps actor SYSTEM_COMMITTER ts text (objects g) Hs Hc Ht) as Hw.
  destruct (write_commit _ _ _ _ _ _ _ _ _) as [objs' r]. destruct Hw as (Hsub & Hs' & Hc' & Hr). split; [done|]. split; [done|]. split; [done|].
  by intros id ->.
Qed.
Lemma runs_meanwhile F n : lasting F → runs F (meanwhile others n) (λ _, F).
Proof.
  intros HF m Hm Hf. cbn. pose proof (Hothers n (git m)) as Ha. split; [done|]. intros _ _. eapply HF; [exact Hm|by apply Ha|done].
Qed.
(** Swapping main to a commit that has the swapped head as a parent. *)
Lemma runs_swap_main F want tree ps text id : lasting F → (∀ h, want = Some h → h ∈ ps) → (∀ g, F g → merge_commit tree ps text id g) →
  runs F (swap_ref full_name_ok others REF_MAIN want id) (λ _ g, refs g !! REF_MAIN = Some id ∧ F g).
Proof.
  intros HF Hps Hc. eapply runs_bind; [by apply runs_meanwhile|]. intros []. apply runs_on_git. intros g Hg Hf.
  destruct (compare_and_swap _ _ _ _ g) as [g' [[]|e]] eqn:E.
  - apply swap_Ok in E as [Hh ->]. destruct (Hc g Hf) as (c & Hid & _ & Hp & _). split.
    + apply (child_advances _ _ _ _ id c); [done|done|apply lookup_insert_eq|done|]. intros h Hh'. rewrite Hp. apply Hps. congruence.
    + intros ? _. split; [apply lookup_insert_eq|]. by eapply HF; [exact Hg|..].
  - apply swap_Err in E as [-> _]. done.
Qed.
Lemma main_kept g rs : refs g !! REF_MAIN = rs !! REF_MAIN → store_ok hash g → main_moves g (set_refs rs g).
Proof. intros E Hg. apply same_head_advances; [done|done|]. by rewrite E. Qed.
Lemma runs_swap_other F name want id : lasting F → name ≠ REF_MAIN →
  runs F (swap_ref full_name_ok others name want id) (λ _ g, refs g !! name = Some id ∧ F g).
Proof.
  intros HF Hn. eapply runs_bind; [by apply runs_meanwhile|]. intros []. apply runs_on_git. intros g Hg Hf.
  destruct (compare_and_swap _ _ _ _ g) as [g' [[]|e]] eqn:E.
  - apply swap_Ok in E as [Hh ->]. split; [apply main_kept; [by rewrite lookup_insert_ne|done]|].
    intros ? _. split; [apply lookup_insert_eq|]. by eapply HF; [exact Hg|..].
  - apply swap_Err in E as [-> _]. done.
Qed.
Lemma safe_swap_try name want id : name ≠ REF_MAIN → safe (on_git_swap (compare_and_swap full_name_ok name want id)).
Proof.
  intros Hn. apply runs_on_git_swap. intros g Hg _. destruct (compare_and_swap _ _ _ _ g) as [g' [[]|e]] eqn:E.
  - apply swap_Ok in E as [Hh ->]. split; [apply main_kept; [by rewrite lookup_insert_ne|done]|done].
  - apply swap_Err in E as [-> _]. split; [done|]. by destruct e.
Qed.
Lemma safe_delete name : name ≠ REF_MAIN → safe (on_git (delete_ref full_name_ok name)).
Proof.
  intros Hn. apply runs_on_git. intros g Hg _. unfold delete_ref. destruct (ref_full_name _ _); [|done].
  split; [|done]. apply main_kept; [by rewrite lookup_delete_ne|done].
Qed.
Lemma safe_commit_on_ref name changes who text : changes_ok changes →
  safe (on_git (commit_on_ref hash hex encodable full_name_ok others name changes who text now)).
Proof.
  intros Hc. apply runs_on_git. intros g Hg _.
  pose proof (commit_attempts_advances hash hex encodable full_name_ok REF_MAIN others MAX_COMMIT_CAS_RETRIES name changes who text now g Hothers Hg Hc) as Ha.
  unfold commit_on_ref. destruct (commit_attempts _ _ _ _ _ _ _ _ _ _ _ g) as [g' r]. by split.
Qed.
(** ** Main only moves forward *)

Lemma edit_ref_main actor : edit_ref short_digest actor ≠ REF_MAIN.
Proof. done. Qed.
Lemma feat_ref_main name : feat_ref short_digest name ≠ REF_MAIN.
Proof. done. Qed.
Lemma review_ref_main name : review_ref_for_id short_digest name ≠ REF_MAIN.
Proof. done. Qed.
Lemma human_main : REF_HUMAN ≠ REF_MAIN.
Proof. done. Qed.
Lemma safe_same {A} (o : op A) : (∀ m, git (o m).1 = git m) → safe o.
Proof. intros Ho. by apply runs_same. Qed.
Lemma safe_ret {A} (a : A) : safe (mret a).
Proof. by apply safe_same. Qed.
Lemma safe_get : safe get_state.
Proof. by apply safe_same. Qed.
Lemma safe_throw {A} e : safe (throw (A := A) e).
Proof. by apply safe_same. Qed.
Lemma safe_lift {A} (r : result CheckpointError A) : safe (lift r).
Proof. by apply safe_same. Qed.
Lemma safe_modify (f : manager → manager) : (∀ m, git (f m) = git m) → safe (modify f).
Proof. intros Hf. apply safe_same, Hf. Qed.
Lemma safe_read_ref name : safe (read_ref_of name).
Proof. eapply safe_of; [|apply (runs_read_ref (λ _, True))]. done. Qed.
Lemma safe_commit_of id : safe (commit_of hex id).
Proof. eapply safe_of; [|apply (runs_commit_of (λ _, True))]. done. Qed.
Lemma safe_bytes_of id : safe (bytes_of hex id).
Proof. eapply safe_of; [|apply (runs_bytes_of (λ _, True))]. done. Qed.
Lemma safe_head_bytes h : safe (head_bytes hex h).
Proof. eapply safe_of; [|apply (runs_head_bytes (λ _, True))]. done. Qed.
Lemma safe_from_git {A} (f : store → result GitStoreError A) : safe (from_git f).
Proof. apply runs_on_git. by intros g _ _. Qed.
Lemma safe_meanwhile n : safe (meanwhile others n).
Proof. by apply runs_meanwhile. Qed.
Lemma index_commit_git id actor session tool paths m : git (index_commit hex clock id actor session tool paths m).1 = git m.
Proof. unfold index_commit. cbn. unfold mbind, M_bind, get_state. destruct (read_commit hex id _); [done|]. cbn. by destruct (clock (clock_reads m)). Qed.
Lemma safe_index_commit id actor session tool paths : safe (index_commit hex clock id actor session tool paths).
Proof. apply safe_same. intros m. apply index_commit_git. Qed.
Lemma safe_timestamp : safe (creation_timestamp clock).
Proof. by apply safe_same. Qed.
Lemma safe_pop_redo actor : safe (pop_redo (Id := Id) actor).
Proof. apply safe_same. intros m. unfold pop_redo. by destruct (redo_stacks m !! actor). Qed.
Lemma safe_take_batch group : safe (take_batch (Id := Id) group).
Proof. by apply safe_same. Qed.
Lemma safe_or_restore {A} group b (o : op A) : safe o → safe (or_restore group b o).
Proof.
  intros Ho m Hm HP. destruct (Ho m Hm HP) as [Ha _]. unfold or_restore. destruct (o m) as [m' [a|e]]; by split.
Qed.
Lemma safe_push_many actor ids : safe (push_many (Id := Id) actor ids).
Proof. by apply safe_modify. Qed.
Lemma safe_push_redo actor id : safe (push_redo (Id := Id) actor id).
Proof. by apply safe_modify. Qed.
Lemma safe_clear_redo actor : safe (clear_redo (Id := Id) actor).
Proof. by apply safe_modify. Qed.
Lemma safe_set_latest actor id : safe (set_latest_checkpoint (Id := Id) actor id).
Proof. by apply safe_modify. Qed.
Lemma safe_drop_latest actor : safe (drop_latest_checkpoint (Id := Id) actor).
Proof. by apply safe_modify. Qed.
Lemma safe_set_batch group b : safe (set_batch (Id := Id) group b).
Proof. by apply safe_modify. Qed.
Lemma safe_set_review review_ref s : safe (set_review_state (Id := Id) review_ref s).
Proof. by apply safe_modify. Qed.
#[local] Hint Resolve safe_push_many safe_push_redo safe_clear_redo safe_set_latest safe_drop_latest safe_set_batch safe_set_review : safe.
#[local] Hint Resolve edit_ref_main feat_ref_main review_ref_main human_main : safe.
#[local] Hint Resolve safe_ret safe_get safe_throw safe_lift safe_read_ref safe_commit_of safe_bytes_of safe_head_bytes safe_from_git safe_meanwhile
  safe_index_commit safe_timestamp safe_pop_redo safe_take_batch safe_swap_try safe_delete safe_or_restore : safe.
#[local] Ltac solve_safe := repeat first
  [ progress intros
  | match goal with
    | |- safe (mbind _ _) => apply safe_bind
    | |- safe (modify _) => by apply safe_modify
    | |- safe (let _ := _ in _) => cbv zeta
    end
  | solve [eauto with safe] | case_match ].

Lemma validate_files_ok (files : gmap string (option string)) l : validate_files files = Ok l → changes_ok (list_to_map l).
Proof.
  intros Hl. enough (Hall : ∀ p c, (p, c) ∈ l → proper p ∧ ∀ mode b, c = Some (mode, b) → file_mode mode).
  { intros p c Hp. by apply Hall, elem_of_list_to_map_2. }
  unfold validate_files in Hl. revert l Hl. induction (map_to_list files) as [|[k c] fs IH]; intros l; cbn; [by intros [= <-] p c ?%elem_of_nil|].
  destruct (foldr _ _ fs) as [l'|e]; [|done]. rewrite ok_bind. destruct (validate_workspace_relative_path k) as [path|e] eqn:Ev; [|done].
  rewrite ok_bind. intros [= <-] p c' [[= -> ->]|Hin]%elem_of_cons; [|by apply (IH l')]. split; [by eapply validated_proper|].
  intros mode b. destruct c; [|done]. intros [= <- <-]. by right; left.
Qed.
Lemma safe_lift_bind {A B} (r : result CheckpointError A) (f : A → op B) : (∀ a, r = Ok a → safe (f a)) → safe (lift r ≫= f).
Proof. intros Hf. destruct r as [a|e]; [by apply Hf|]. by apply safe_same. Qed.
Lemma safe_tool_files actor files session tool intent :
  safe (commit_tool_files hash hex encodable short_digest full_name_ok others now clock actor files session tool intent).
Proof.
  apply safe_lift_bind. intros l Hl%validate_files_ok. cbv zeta. apply safe_bind; [by apply safe_commit_on_ref|]. intros o. solve_safe.
Qed.
#[local] Hint Resolve safe_tool_files : safe.
Lemma safe_commit_manual path change intent : proper path → (∀ mode b, change = Some (mode, b) → file_mode mode) →
  safe (commit_manual hash hex encodable full_name_ok others now clock path change intent).
Proof.
  intros Hp Hm. apply safe_bind; [|solve_safe]. apply safe_commit_on_ref. intros p c [<- <-]%lookup_singleton_Some. done.
Qed.
Lemma safe_group_run n group cursor visited : safe (group_run hex n group cursor visited).
Proof. revert cursor visited. induction n as [|n IH]; intros cursor visited; cbn [group_run]; solve_safe. Qed.
#[local] Hint Resolve safe_group_run : safe.
Lemma safe_rollback n actor group : safe (rollback_attempts hex short_digest full_name_ok others n actor group).
Proof. induction n as [|n IH]; cbn [rollback_attempts]; solve_safe. Qed.
Lemma safe_undo n actor : safe (undo_attempts hex short_digest full_name_ok others n actor).
Proof. induction n as [|n IH]; cbn [undo_attempts]; solve_safe. Qed.
Lemma safe_on_git_swap_edit actor want id : safe (on_git (compare_and_swap full_name_ok (edit_ref short_digest actor) want id)).
Proof.
  apply runs_on_git. intros g Hg _. destruct (compare_and_swap _ _ _ _ g) as [g' [[]|e]] eqn:E.
  - apply swap_Ok in E as [Hh ->]. split; [apply main_kept; [by rewrite lookup_insert_ne|done]|done].
  - apply swap_Err in E as [-> _]. done.
Qed.
#[local] Hint Resolve safe_rollback safe_undo safe_on_git_swap_edit : safe.
Lemma safe_redo actor : safe (redo_edit hex short_digest full_name_ok others actor).
Proof. unfold redo_edit. solve_safe. Qed.
Lemma safe_begin_group n label ts : safe (begin_group_attempts (Id := Id) group_id n label ts).
Proof. induction n as [|n IH]; cbn [begin_group_attempts]; solve_safe. Qed.
Lemma safe_submit n k actor ts head : safe (submit_attempts hex short_digest full_name_ok n k actor ts head).
Proof. revert k. induction n as [|n IH]; intros k; cbn [submit_attempts]; solve_safe. Qed.
Lemma safe_pending names actor : safe (pending_reviews hex names actor).
Proof. induction names as [|n names IH]; cbn [pending_reviews]; solve_safe. Qed.
#[local] Hint Resolve safe_begin_group safe_submit safe_pending : safe.
Lemma safe_submit_review actor : safe (submit_for_review hex short_digest full_name_ok clock actor).
Proof. unfold submit_for_review. solve_safe. Qed.
Lemma safe_newest actor : safe (newest_pending_review hex actor).
Proof. unfold newest_pending_review. solve_safe. Qed.
Lemma safe_status name : safe (conflict_status_for_ref hex name).
Proof. unfold conflict_status_for_ref. solve_safe. Qed.
#[local] Hint Resolve safe_submit_review safe_newest safe_status safe_redo : safe.
(** ** Merges *)

#[local] Notation review_into_feature := (merge_review_into_feature hash hex encodable short_digest full_name_ok text_merge others clock).
#[local] Notation feature_into_main := (merge_feature_into_main hash hex encodable short_digest full_name_ok text_merge others clock).
#[local] Notation revert_on_main := (revert_feature_on_main hash hex encodable full_name_ok text_merge others clock).

Lemma runs_weaken_pre {A} (P P' : store → Prop) (o : op A) Q : (∀ g, store_ok hash g → P g → P' g) → runs P' o Q → runs P o Q.
Proof. intros HP. apply runs_conseq; [done|done]. Qed.
Lemma runs_post {A} P (o : op A) (Q Q' : A → store → Prop) : (∀ a g, store_ok hash g → Q' a g → Q a g) → runs P o Q' → runs P o Q.
Proof. intros HQ. apply runs_conseq; [done|done]. Qed.
Lemma reads_proper head B g p : store_ok hash g → reads head B g → is_Some (B !! p) → proper p.
Proof.
  intros [_ Hc] [_ HB] [b Hb]. rewrite HB in Hb. unfold files_at, commit_content in Hb. destruct head as [id|]; [|done].
  destruct (objects g !! id) as [[|?|c]|] eqn:Hid; try done. destruct (decide (proper p)) as [?|Hp]; [done|].
  unfold content in Hb. change (files_in (objects g) (Some (stored_tree c)) p) with (file_at (objects g) (stored_tree c) p) in Hb.
  by rewrite (file_at_proper hex (objects g) (stored_tree c) p (Hc id c Hid) Hp) in Hb.
Qed.
Lemma merge_paths_ok base ours theirs b o t g : store_ok hash g → reads b base g → reads o ours g → reads t theirs g →
  paths_ok (merge_file_maps text_merge base ours theirs).1.
Proof.
  intros Hg Hb Ho Ht p r. rewrite merged_lookup. case_decide as Hp; [|done]. intros _.
  apply (elem_of_merge_keys text_merge) in Hp as [Hp|[Hp|Hp]]; [eapply (reads_proper b)|eapply (reads_proper o)|eapply (reads_proper t)]; done.
Qed.
(** The merge base that is found for two heads: a common ancestor, and there is none
    short of the anchor when none is found. *)
Definition common (ours : option Id) (theirs : Id) (base : option Id) g : Prop :=
  base = (h ← ours; store_merge_base hex h theirs g) ∧
  match base with
  | Some b => ∃ h, ours = Some h ∧ history (objects g) h b ∧ history (objects g) theirs b
  | None => ∀ h, ours = Some h → h ≠ theirs ∧
      ∀ b, is_commit (objects g) b → reaches (objects g) (anchor g) h b → reaches (objects g) (anchor g) theirs b → False
  end.
Lemma reaches_history (objs : gmap Id (Object Id)) stop x y : reaches objs stop x y → history objs x y.
Proof. intros Hr. induction Hr as [|a b c (s & Hs & _ & Hb) _ IH]; [apply rtc_refl|]. eapply rtc_l; [|exact IH]. by exists s. Qed.
Lemma runs_base_bytes P ours theirs : runs P (base_bytes hex ours theirs) (λ B g, (∃ base, reads base B g ∧ common ours theirs base g) ∧ P g).
Proof.
  destruct ours as [h|].
  - eapply runs_bind; [apply runs_get|]. intros m. eapply runs_post; [|apply runs_head_bytes]. intros B g _ [HB [<- HP]]. split; [|done].
    exists (store_merge_base hex h theirs (git m)). split; [done|]. split; [done|]. unfold store_merge_base.
    pose proof (merge_base_spec hash hex (objects (git m)) (anchor (git m)) h theirs) as Hm. destruct (merge_base _ _ _ _ _) as [b|]; [|by intros ? [= <-]]. exists h. split; [done|].
    destruct Hm as [[<- ->]|(_ & H1 & H2)]; [split; apply rtc_refl|]. split; by eapply reaches_history.
  - eapply runs_post; [|apply runs_ret]. intros B g _ [-> HP]. split; [|done]. exists None. split; [|done]. split; [by intros|]. intros p. apply lookup_empty.
Qed.
(** The tree of a head that was read. *)
Definition tree_of_head (head parent : option Id) g : Prop :=
  (∀ id, head = Some id → has_commit id g) ∧ parent_ok (objects g) parent ∧ ∀ p, content (objects g) parent p = commit_content (objects g) head p.
Lemma head_tree_ok head g m : store_ok hash g → git m = g → (∀ id, head = Some id → has_commit id g) → tree_of_head head (head_tree hex head m) g.
Proof.
  intros [_ Hc] <- Hh. split; [done|]. destruct head as [id|]; [|done]. destruct (Hh id eq_refl) as [c Hid].
  assert (head_tree hex (Some id) m = Some (stored_tree c)) as -> by (unfold head_tree, read_commit, find_data; cbn; by rewrite Hid).
  split; [intros t [= <-]; by eapply Hc|]. intros p. unfold commit_content. by rewrite Hid.
Qed.
Lemma lasting_tree_of_head head parent : lasting (tree_of_head head parent).
Proof.
  intros g g' Hg Hs (H1 & H2 & H3). split; [intros id Hid; by eapply lasting_has_commit; [..|apply H1]|].
  split; [by apply (parent_ok_weaken hex (objects g))|]. intros p. rewrite (content_weaken hex (objects g)), H3 by done. unfold commit_content.
  destruct head as [id|]; [|done]. destruct (H1 id eq_refl) as [c Hc]. rewrite Hc, (lookup_weaken _ _ _ _ Hc Hs). symmetry.
  apply (content_weaken hex); [done|]. intros t [= <-]. by eapply Hg.
Qed.
Lemma runs_exists {A X} (P : X → store → Prop) (o : op A) Q : (∀ x, runs (P x) o Q) → runs (λ g, ∃ x, P x g) o Q.
Proof. intros Ho m Hm [x HP]. by apply (Ho x). Qed.
Lemma runs_know {A} (φ : Prop) P (o : op A) Q : (∀ g, store_ok hash g → P g → φ) → (φ → runs P o Q) → runs P o Q.
Proof. intros Hk Ho m Hm HP. apply Ho; [|done..]. by apply (Hk (git m)). Qed.
Lemma runs_status P name : runs P (conflict_status_for_ref hex name) (λ _, P).
Proof.
  eapply runs_bind; [apply runs_read_ref|]. intros [h|].
  - eapply runs_bind; [apply runs_commit_of|]. intros c. eapply runs_post; [|apply runs_ret]. by intros a g _ (_ & _ & _ & ?).
  - eapply runs_post; [|apply runs_ret]. by intros a g _ (_ & _ & ?).
Qed.
Lemma runs_index P id actor session tool paths : runs P (index_commit hex clock id actor session tool paths) (λ _, P).
Proof. apply runs_same. intros m. apply index_commit_git. Qed.

Definition outcome_at g (base ours theirs : option Id) (p : string) : MergeFileOutcome :=
  merge_file_contents text_merge (files_at g base p) (files_at g ours p) (files_at g theirs p).
(** The merge of two heads over a base, without a conflict, is what [id] holds. *)
Definition holds_merge (base ours theirs : option Id) (id : Id) g : Prop :=
  ∀ p, conflicted (outcome_at g base ours theirs p) = false ∧ files_at g (Some id) p = merged_bytes (outcome_at g base ours theirs p).
(** What is known of the three sides once they are read. *)
Definition sides (base ours theirs : option Id) (B O T : gmap string string) g : Prop := reads base B g ∧ reads ours O g ∧ reads theirs T g.
Lemma lasting_sides base ours theirs B O T : lasting (sides base ours theirs B O T).
Proof. apply lasting_and; [apply lasting_reads|]. apply lasting_and; apply lasting_reads. Qed.
Lemma sides_outcome base ours theirs B O T g p : sides base ours theirs B O T g →
  outcome_at g base ours theirs p = merge_file_contents text_merge (B !! p) (O !! p) (T !! p).
Proof. intros ([_ H1] & [_ H2] & [_ H3]). unfold outcome_at. by rewrite H1, H2, H3. Qed.
(** A tree built on the first side from the merge holds the merge. *)
Lemma built_files base ours theirs B O T parent t g : sides base ours theirs B O T g → tree_of_head ours parent g →
  built parent (merge_file_maps text_merge B O T).1 t (objects g) → ∀ p, snd <$> content (objects g) (Some t) p = merged_bytes (outcome_at g base ours theirs p).
Proof.
  intros Hs Hh [_ Ha] p. rewrite (sides_outcome base ours theirs B O T) by done.
  apply (merged_applied text_merge B O T (content (objects g) parent)); [|done]. intros q _ Ho _.
  destruct Hs as (_ & [_ HO] & _), Hh as (_ & _ & Hc). rewrite Hc. rewrite HO in Ho. unfold files_at in Ho. by destruct (commit_content _ _ q).
Qed.
Lemma holds_merge_of base ours theirs B O T parent t id ps text g :
  sides base ours theirs B O T g → tree_of_head ours parent g → built parent (merge_file_maps text_merge B O T).1 t (objects g) →
  (merge_file_maps text_merge B O T).2 = [] → merge_commit t ps text id g → holds_merge base ours theirs id g.
Proof.
  intros Hs Hh Hb Hn (c & Hc & Ht & _) p. split; [rewrite (sides_outcome base ours theirs B O T) by done; by apply no_conflicts|].
  rewrite <-(built_files base ours theirs B O T parent t) by done. unfold files_at. by rewrite (commit_content_at _ _ c), Ht.
Qed.
Lemma lasting_built parent merged t : calm (λ g, parent_ok (objects g) parent ∧ built parent merged t (objects g)) ∧
  lasting (λ g, parent_ok (objects g) parent ∧ built parent merged t (objects g)).
Proof.
  assert (Hl : lasting (λ g, parent_ok (objects g) parent ∧ built parent merged t (objects g))); [|split; [by apply lasting_calm|done]].
  intros g g' _ Hs (Hp & Ht & Ha). split; [by apply (parent_ok_weaken hex (objects g))|]. split; [by apply (tree_ok_weaken hex (objects g))|].
  eapply applied_ext; [intros p; symmetry; by apply (content_weaken hex (objects g))| |exact Ha].
  intros p. symmetry. apply (content_weaken hex (objects g)); [done|]. by intros t' [= <-].
Qed.
(** The outcome of a merge into main that starts in [g0]: main holds the merge of what
    it held, the feature's head, and their merge base. *)
Definition merged_main (feature_ref : string) g0 (o : GitMergeOutcome (Id := Id)) g : Prop :=
  ∃ feature_head base,
    let main_head := refs g0 !! REF_MAIN in
    (refs g0 !! feature_ref = Some feature_head ∧ common main_head feature_head base g0) ∧
    merge_parents o = option_list main_head ++ [feature_head] ∧ refs g !! REF_MAIN = Some (merge_commit_id o) ∧
    ((∀ h, main_head = Some h → has_commit h g) ∧ has_commit feature_head g) ∧
    holds_merge base main_head (Some feature_head) (merge_commit_id o) g ∧
    (main_head = Some (merge_commit_id o) ∨ ∃ c, objects g !! merge_commit_id o = Some (Commit c) ∧ stored_parents c = merge_parents o).
Definition merge_facts main_head feature_head base B O T parent t g : Prop :=
  (parent_ok (objects g) parent ∧ built parent (merge_file_maps text_merge B O T).1 t (objects g)) ∧
  sides base main_head (Some feature_head) B O T g ∧ tree_of_head main_head parent g.
Lemma lasting_merge_facts main_head feature_head base B O T parent t : lasting (merge_facts main_head feature_head base B O T parent t).
Proof. apply lasting_and; [apply lasting_built|]. apply lasting_and; [apply lasting_sides|apply lasting_tree_of_head]. Qed.
Lemma runs_clean_merge feature_ref g0 feature_head base B O T name actor text_of :
  let main_head := refs g0 !! REF_MAIN in
  (merge_file_maps text_merge B O T).2 = [] → refs g0 !! feature_ref = Some feature_head → common main_head feature_head base g0 →
  runs (λ g, sides base main_head (Some feature_head) B O T g ∧ refs g !! REF_MAIN = main_head)
    (m ← get_state;
     let parent_tree := head_tree hex main_head m in
     merged_tree ← build_merged hash hex encodable parent_tree (merge_file_maps text_merge B O T).1;
     let ps := option_list main_head ++ [feature_head] in
     if decide (parent_tree = Some merged_tree) then mret (clean_outcome (default feature_head main_head) ps)
     else
       merge_ts ← creation_timestamp clock;
       let merge_id := name +:+ "-" +:+ show_int merge_ts +:+ "-" +:+ head_prefix hex feature_head in
       id ← commit_merge hash encodable clock merged_tree ps actor (text_of merge_id);
       _ ← swap_ref full_name_ok others REF_MAIN main_head id;
       _ ← index_commit hex clock id actor "" "merge" (sorted_paths (merge_file_maps text_merge B O T).1);
       mret (clean_outcome id ps)) (merged_main feature_ref g0).
Proof.
  intros main_head Hn Hfr Hcm. eapply runs_bind; [apply runs_get|]. intros m. cbv zeta. set (parent := head_tree hex main_head m).
  apply (runs_know (paths_ok (merge_file_maps text_merge B O T).1)).
  { intros g Hg (_ & (HB & HO & HT) & _). by eapply merge_paths_ok. }
  intros Hpaths. set (F := λ g, (sides base main_head (Some feature_head) B O T g ∧ tree_of_head main_head parent g) ∧
    (refs g !! REF_MAIN = main_head ∧ parent_ok (objects g) parent)).
  assert (HF : calm F).
  { apply calm_and; [apply lasting_calm, lasting_and; [apply lasting_sides|apply lasting_tree_of_head]|].
    apply calm_and; [apply calm_ref|]. intros g g' _ Hs _. by apply (parent_ok_weaken hex). }
  apply (runs_weaken_pre _ (λ g, parent_ok (objects g) parent ∧ F g)).
  { intros g Hg (Em & Hs & Hr). assert (Ht : tree_of_head main_head parent g) by (apply head_tree_ok; [done|done|]; apply Hs).
    split; [apply Ht|]. split; [done|]. split; [done|apply Ht]. }
  eapply runs_bind; [by apply runs_build_merged|]. intros t. case_decide as Hsame.
  - eapply runs_post; [|apply runs_ret]. intros o g Hg [-> (Hb & (Hs & Ht) & Hr & Hp)]. exists feature_head, base. cbv zeta.
    change (refs g0 !! REF_MAIN) with main_head. destruct main_head as [h|]; [|done]. cbn. split; [done|]. split; [done|]. split; [done|].
    split; [split; [apply Hs|by apply Hs]|]. split; [|by left].
    intros p. split; [rewrite (sides_outcome base _ _ B O T) by done; by apply no_conflicts|]. rewrite <-(built_files base (Some h) _ B O T parent t) by done.
    unfold files_at. f_equal. destruct Ht as (_ & _ & Hcont). rewrite <-Hcont. by rewrite Hsame.
  - eapply runs_bind; [apply runs_timestamp|]. intros ts. cbv zeta.
    apply (runs_weaken_pre _ (λ g, tree_ok (objects g) t ∧ merge_facts main_head feature_head base B O T parent t g)).
    { intros g Hg (Hb & (Hs & Ht) & Hr & Hp). split; [apply Hb|]. done. }
    eapply runs_bind; [apply runs_commit_merge, lasting_calm, lasting_merge_facts|]. intros id.
    eapply runs_bind.
    { set (text := text_of _). apply (runs_swap_main (λ g, merge_commit t (option_list main_head ++ [feature_head]) text id g ∧
        merge_facts main_head feature_head base B O T parent t g) main_head t (option_list main_head ++ [feature_head]) text).
      - apply lasting_and; [apply lasting_merge_commit|apply lasting_merge_facts].
      - intros h ->. by left.
      - by intros g [? _]. }
    intros []. eapply runs_bind; [apply runs_index|]. intros []. eapply runs_post; [|apply runs_ret].
    intros o g Hg [-> (Hr & Hm & (Hp & Hb) & Hs & Ht)]. exists feature_head, base. split; [done|]. split; [done|]. split; [done|].
    split; [split; [apply Hs|by apply Hs]|].
    split; [by eapply holds_merge_of|]. right. destruct Hm as (c & Hid & _ & Hps & _). by exists c.
Qed.
(** A conflicted merge is a commit all the same. *)
Lemma runs_conflicted {A} parent merged ps actor text (k : Id → op A) Q : paths_ok merged → (∀ id, runs (λ _, True) (k id) Q) →
  runs (λ g, parent_ok (objects g) parent ∧ True)
    (t ← build_merged hash hex encodable parent merged; id ← commit_merge hash encodable clock t ps actor text; k id) Q.
Proof.
  intros Hp Hk. assert (Ht : calm (λ _, True)) by done. eapply runs_bind; [by apply runs_build_merged|]. intros t.
  apply (runs_weaken_pre _ (λ g, tree_ok (objects g) t ∧ True)); [by intros g _ [[? _] _]|].
  eapply runs_bind; [by apply runs_commit_merge|]. intros id. eapply runs_weaken_pre; [|apply Hk]. done.
Qed.
Lemma runs_merge_main g0 name actor : runs (λ g, g = g0) (feature_into_main name actor) (merged_main (feat_ref short_digest name) g0).
Proof.
  unfold merge_feature_into_main. eapply runs_bind; [apply runs_lift|]. intros []. cbv zeta.
  eapply (runs_bind _ _ _ (λ fh g, refs g0 !! feat_ref short_digest name = Some fh ∧ g = g0)).
  { eapply runs_bind; [apply runs_read_ref|]. intros [h|]; [|apply runs_throw]. eapply runs_post; [|apply runs_ret]. by intros a g _ (-> & ? & _ & ->). }
  intros fh. apply (runs_know (refs g0 !! feat_ref short_digest name = Some fh)); [by intros g _ [? _]|]. intros Hfh.
  eapply runs_bind; [apply runs_commit_of|]. intros fc. apply (runs_weaken_pre _ (λ g, parent_ok (objects g) (Some (commit_tree fc)) ∧ g = g0)).
  { intros g [_ Hc] ((s & Hs & ->) & _ & Hr). split; [intros t [= <-]; by eapply Hc|done]. }
  eapply runs_bind; [apply runs_status|]. intros fs. destruct (unresolved fs); [apply runs_throw|].
  eapply runs_bind; [apply runs_read_ref|]. intros mh. apply (runs_know (mh = refs g0 !! REF_MAIN)); [intros g _ (<- & _ & ->); done|]. intros ->.
  eapply runs_bind; [apply runs_status|]. intros ms.
  destruct (unresolved ms); [apply runs_throw|]. eapply runs_bind; [apply runs_bytes_of|]. intros T. eapply runs_bind; [apply runs_head_bytes|]. intros O.
  eapply runs_bind; [apply runs_base_bytes|]. intros B. destruct (merge_file_maps text_merge B O T) as [merged conflicts] eqn:Em.
  assert (merged = (merge_file_maps text_merge B O T).1 ∧ conflicts = (merge_file_maps text_merge B O T).2) as [-> ->] by by rewrite Em. clear Em.
  case_decide as Hn.
  - apply (runs_weaken_pre _ (λ g, ∃ base, common (refs g0 !! REF_MAIN) fh base g0 ∧ sides base (refs g0 !! REF_MAIN) (Some fh) B O T g ∧ refs g !! REF_MAIN = refs g0 !! REF_MAIN)).
    { intros g _ ((base & HB & Hc) & HO & HT & _ & _ & ->). by exists base. }
    apply runs_exists. intros base. apply (runs_know (common (refs g0 !! REF_MAIN) fh base g0)); [by intros g _ [? _]|]. intros Hc.
    eapply runs_weaken_pre; [|exact (runs_clean_merge _ g0 fh base B O T name actor (λ merge_id, commit_message ("merge feature '" +:+ name +:+ "' into main")
      (Some actor) None (Some "merge") [(TRAILER_FEATURE, name); (TRAILER_MERGE_ID, merge_id)]) Hn Hfh Hc)]. by intros g _ [_ ?].
  - apply (runs_know (paths_ok (merge_file_maps text_merge B O T).1)).
    { intros g Hg ((base & HB & _) & HO & HT & _). by eapply merge_paths_ok. }
    intros Hpaths. apply (runs_weaken_pre _ (λ g, parent_ok (objects g) (Some (commit_tree fc)) ∧ True)); [by intros g _ (_ & _ & _ & _ & ? & _)|].
    apply runs_conflicted; [done|]. intros id. eapply runs_bind; [apply runs_swap_other; [done|apply feat_ref_main]|]. intros [].
    eapply runs_bind; [apply runs_index|]. intros []. apply runs_throw.
Qed.
Lemma restore_withheld_paths base feature review merged : paths_ok merged → paths_ok (restore_withheld base feature review merged).
Proof.
  intros Hp p o. unfold restore_withheld. rewrite map_lookup_imap. destruct (merged !! p) as [o'|] eqn:E; [|done]. intros _. by eapply Hp.
Qed.
Lemma safe_commit_merge_swap {A} t ps actor text name want (k : Id → op A) :
  name ≠ REF_MAIN → (∀ id, safe (k id)) →
  runs (λ g, tree_ok (objects g) t ∧ True)
    (id ← commit_merge hash encodable clock t ps actor text; _ ← swap_ref full_name_ok others name want id; k id) (λ _ _, True).
Proof.
  intros Hn Hk. eapply runs_bind; [by apply runs_commit_merge|]. intros id. apply (runs_weaken_pre _ (λ _, True)); [done|].
  eapply runs_bind; [by apply runs_swap_other|]. intros []. eapply runs_weaken_pre; [|apply Hk]. done.
Qed.
Lemma safe_merge_review review_ref review_head name actor : review_ref ≠ REF_MAIN → safe (review_into_feature review_ref review_head name actor).
Proof.
  intros Hrev. unfold merge_review_into_feature. eapply safe_bind; [apply safe_lift|]. intros []. cbv zeta. eapply safe_bind; [apply safe_read_ref|]. intros fh.
  eapply safe_bind; [apply safe_status|]. intros fs. destruct (unresolved fs); [apply safe_throw|]. eapply safe_bind; [apply safe_commit_of|]. intros rc.
  eapply runs_bind; [apply (runs_bytes_of (λ _, True))|]. intros T. eapply runs_bind; [apply runs_head_bytes|]. intros O.
  eapply runs_bind; [apply runs_base_bytes|]. intros B. eapply runs_bind; [apply runs_get|]. intros m.
  destruct (merge_file_maps text_merge B O T) as [merged conflicts] eqn:Em.
  assert (merged = (merge_file_maps text_merge B O T).1) as -> by by rewrite Em. clear Em.
  set (dom := match fh with Some _ => _ | None => _ end). set (merged := (merge_file_maps text_merge B O T).1).
  set (merged' := if dom then _ else merged). apply (runs_know (paths_ok merged')).
  { intros g Hg (_ & (base & HB & _) & HO & HT & _). assert (paths_ok merged) by by eapply merge_paths_ok.
    unfold merged'. destruct dom; [by apply restore_withheld_paths|done]. }
  intros Hpaths. apply (runs_weaken_pre _ (λ g, parent_ok (objects g) (head_tree hex fh m) ∧ True)).
  { intros g Hg (Em & _ & [HO _] & _). split; [|done]. by apply (head_tree_ok fh g m). }
  eapply runs_bind; [by apply runs_build_merged|]. intros t.
  apply (runs_weaken_pre _ (λ g, tree_ok (objects g) t ∧ True)); [by intros g _ [[? _] _]|].
  case_decide; [case_decide|].
  - apply (runs_weaken_pre _ (λ _, True)); [done|]. change (safe (_ ← set_review_state review_ref Approved;
      _ ← on_git (delete_ref full_name_ok review_ref); mret (clean_outcome (default review_head fh) (option_list fh ++ [review_head])))). solve_safe.
  - apply safe_commit_merge_swap; [apply feat_ref_main|]. intros id. solve_safe.
  - apply safe_commit_merge_swap; [apply feat_ref_main|]. intros id. solve_safe.
Qed.
Lemma safe_merge_main name actor : safe (feature_into_main name actor).
Proof. intros m Hm _. by destruct (runs_merge_main _ name actor m Hm eq_refl) as [? _]. Qed.
(** ** Reverts *)

(** The merge that is undone: the first in the log that has the feature as a parent. *)
Definition absorbs (feature_head main_head absorbing : Id) g : Prop :=
  ∃ c, objects g !! absorbing = Some (Commit c) ∧ feature_head ∈ stored_parents c ∧ history (objects g) main_head absorbing ∧
    (∀ c', objects g !! main_head = Some (Commit c') → feature_head ∈ stored_parents c' → absorbing = main_head).
Definition pre_merge g (feature_head absorbing : Id) : option Id :=
  match objects g !! absorbing with Some (Commit c) => pre_merge_parent feature_head (stored_parents c) | _ => None end.
Definition reverted_main (main : option Id) (feature_head : Id) (o : GitMergeOutcome (Id := Id)) g : Prop :=
  ∃ main_head absorbing, main = Some main_head ∧
    refs g !! REF_MAIN = Some (merge_commit_id o) ∧ absorbs feature_head main_head absorbing g ∧
    holds_merge (Some feature_head) (Some main_head) (pre_merge g feature_head absorbing) (merge_commit_id o) g ∧
    (merge_commit_id o = main_head ∨ ∃ c, objects g !! merge_commit_id o = Some (Commit c) ∧ stored_parents c = [main_head]).
Lemma walk_first objs stop x s : objs !! x = Some (Commit s) → ∃ rest, walk_graph hex objs stop [x] = of_stored x s :: rest.
Proof.
  intros Hx. unfold walk_graph, walk_fuel. cbn [List.length Nat.add walk]. rewrite decide_False by set_solver.
  assert (read_commit hex x objs = Ok (of_stored x s)) as -> by (unfold read_commit, find_data; by rewrite Hx). by eexists.
Qed.
Lemma log_absorbs feature_head main_head g c : head (filter (λ c, feature_head ∈ parents c) (store_log hex main_head 0 g)) = Some c →
  ∃ s, objects g !! commit_id c = Some (Commit s) ∧ c = of_stored (commit_id c) s ∧ feature_head ∈ stored_parents s ∧ history (objects g) main_head (commit_id c) ∧
    (∀ c', objects g !! main_head = Some (Commit c') → feature_head ∈ stored_parents c' → commit_id c = main_head).
Proof.
  unfold store_log, log. rewrite decide_True by done. intros Hh. assert (Hin : c ∈ filter (λ c, feature_head ∈ parents c) (walk_graph hex (objects g) (anchor g) [main_head])).
  { destruct (filter _ _) as [|c' l]; [done|]. injection Hh as <-. by left. }
  apply list_elem_of_filter in Hin as [Hf Hin]. pose proof (walk_graph_commits hex _ _ _ _ Hin) as (s & Hs & Ec)%read_commit_Ok.
  exists s. split; [done|]. split; [done|]. split; [by rewrite Ec in Hf|]. split.
  - apply (list_elem_of_fmap_2 commit_id) in Hin. apply (walk_graph_spec hash) in Hin as (_ & t & ->%list_elem_of_singleton & Hr). by eapply reaches_history.
  - intros c' Hc' Hp. destruct (walk_first (objects g) (anchor g) main_head c' Hc') as (rest & E). rewrite E in Hh. rewrite filter_cons_True in Hh by done.
    by injection Hh as <-.
Qed.
Lemma lasting_absorbs feature_head main_head absorbing : lasting (λ g, has_commit main_head g ∧ absorbs feature_head main_head absorbing g).
Proof.
  intros g g' _ Hs [[c0 H0] (c & Hc & Hf & Hh & Hn)]. split; [exists c0; by eapply lookup_weaken|]. exists c. split; [by eapply lookup_weaken|].
  split; [done|]. split; [by eapply history_weaken|]. intros c' Hc' Hp. apply (Hn c0 H0). rewrite (lookup_weaken _ _ _ _ H0 Hs) in Hc'. by injection Hc' as ->.
Qed.
Lemma lasting_pre_merge feature_head absorbing pre : lasting (λ g, has_commit absorbing g ∧ pre_merge g feature_head absorbing = pre).
Proof.
  intros g g' _ Hs [[c Hc] Hp]. split; [exists c; by eapply lookup_weaken|]. unfold pre_merge in *. by rewrite (lookup_weaken _ _ _ _ Hc Hs), Hc in *.
Qed.
Definition revert_facts feature_head main_head absorbing pre B O T parent g : Prop :=
  (has_commit main_head g ∧ absorbs feature_head main_head absorbing g) ∧ (has_commit absorbing g ∧ pre_merge g feature_head absorbing = pre) ∧
  sides (Some feature_head) (Some main_head) pre B O T g ∧ tree_of_head (Some main_head) parent g.
Lemma lasting_revert_facts feature_head main_head absorbing pre B O T parent : lasting (revert_facts feature_head main_head absorbing pre B O T parent).
Proof.
  apply lasting_and; [apply lasting_absorbs|]. apply lasting_and; [apply lasting_pre_merge|]. apply lasting_and; [apply lasting_sides|apply lasting_tree_of_head].
Qed.
Lemma runs_clean_revert feature_head main_head absorbing pre B O T actor tree text :
  (merge_file_maps text_merge B O T).2 = [] →
  runs (λ g, revert_facts feature_head main_head absorbing pre B O T (Some tree) g ∧ refs g !! REF_MAIN = Some main_head)
    (merged_tree ← build_merged hash hex encodable (Some tree) (merge_file_maps text_merge B O T).1;
     if decide (merged_tree = tree) then mret (clean_outcome main_head [main_head])
     else
       id ← commit_merge hash encodable clock merged_tree [main_head] actor text;
       _ ← swap_ref full_name_ok others REF_MAIN (Some main_head) id;
       _ ← index_commit hex clock id actor "" "rollback" (sorted_paths (merge_file_maps text_merge B O T).1);
       mret (clean_outcome id [main_head])) (reverted_main (Some main_head) feature_head).
Proof.
  intros Hn. set (F := λ g, revert_facts feature_head main_head absorbing pre B O T (Some tree) g ∧ refs g !! REF_MAIN = Some main_head).
  apply (runs_know (paths_ok (merge_file_maps text_merge B O T).1)).
  { intros g Hg ((_ & _ & (HB & HO & HT) & _) & _). by eapply merge_paths_ok. }
  intros Hpaths. assert (HF : calm F) by (apply calm_and; [apply lasting_calm, lasting_revert_facts|apply calm_ref]).
  apply (runs_weaken_pre _ (λ g, parent_ok (objects g) (Some tree) ∧ F g)); [intros g Hg Hf; split; [apply Hf|done]|].
  eapply runs_bind; [by apply runs_build_merged|]. intros t. case_decide as Hsame.
  - eapply runs_post; [|apply runs_ret]. intros o g Hg [-> (Hb & (Ha & Hpre & Hs & Ht) & Hr)]. exists main_head, absorbing. split; [done|]. split; [done|]. split; [apply Ha|].
    split; [|by left]. destruct Hpre as [_ ->]. intros p. split; [rewrite (sides_outcome _ _ _ B O T) by done; by apply no_conflicts|].
    rewrite <-(built_files _ (Some main_head) _ B O T (Some tree) t) by done. unfold files_at. f_equal. destruct Ht as (_ & _ & Hcont). rewrite <-Hcont. by rewrite Hsame.
  - set (G := λ g, (parent_ok (objects g) (Some tree) ∧ built (Some tree) (merge_file_maps text_merge B O T).1 t (objects g)) ∧
      revert_facts feature_head main_head absorbing pre B O T (Some tree) g).
    assert (HG : lasting G) by (apply lasting_and; [apply lasting_built|apply lasting_revert_facts]).
    apply (runs_weaken_pre _ (λ g, tree_ok (objects g) t ∧ G g)).
    { intros g Hg (Hb & Hf & Hr). split; [apply Hb|]. split; [|done]. split; [apply Hf|done]. }
    eapply runs_bind; [by apply runs_commit_merge, lasting_calm|]. intros id. eapply runs_bind.
    { apply (runs_swap_main (λ g, merge_commit t [main_head] text id g ∧ G g) (Some main_head) t [main_head] text).
      - apply lasting_and; [apply lasting_merge_commit|done].
      - intros h [= <-]. by left.
      - by intros g [? _]. }
    intros []. eapply runs_bind; [apply runs_index|]. intros []. eapply runs_post; [|apply runs_ret].
    intros o g Hg [-> (Hr & Hm & (Hp & Hb) & (Ha & Hpre & Hs & Ht))]. exists main_head, absorbing. split; [done|]. split; [done|]. split; [apply Ha|].
    split; [destruct Hpre as [_ ->]; by eapply holds_merge_of|]. right. destruct Hm as (c & Hid & _ & Hps & _). by exists c.
Qed.
Lemma runs_revert_main main feature_head actor : runs (λ g, refs g !! REF_MAIN = main) (revert_on_main feature_head actor) (reverted_main main feature_head).
Proof.
  unfold revert_feature_on_main. eapply (runs_bind _ _ _ (λ h g, main = Some h ∧ refs g !! REF_MAIN = Some h)).
  { eapply runs_bind; [apply runs_read_ref|]. intros [h|]; [|apply runs_throw].
    eapply runs_post; [|apply runs_ret]. intros a g _ (-> & Hr & Hm). split; [congruence|done]. }
  intros main_head. apply (runs_know (main = Some main_head)); [by intros g _ [? _]|]. intros ->.
  apply (runs_weaken_pre _ (λ g, refs g !! REF_MAIN = Some main_head)); [by intros g _ [_ ?]|].
  eapply runs_bind; [apply runs_get|]. intros m. destruct (store_is_ancestor _ _ _ _); [|apply runs_throw].
  destruct (head _) as [absorbing|] eqn:Eh; [|apply runs_throw]. apply log_absorbs in Eh as (s & Hs & Ec & Hf & Hh & Hn).
  set (pre := pre_merge_parent feature_head (parents absorbing)).
  set (R := λ g, refs g !! REF_MAIN = Some main_head ∧ absorbs feature_head main_head (commit_id absorbing) g ∧
    has_commit (commit_id absorbing) g ∧ pre_merge g feature_head (commit_id absorbing) = pre).
  apply (runs_weaken_pre _ R).
  { intros g _ [<- Hr]. split; [done|]. split; [by exists s|]. split; [by exists s|]. unfold pre_merge, pre. rewrite Hs. by rewrite Ec. }
  eapply runs_bind; [apply runs_head_bytes|]. intros T. eapply runs_bind; [apply runs_commit_of|]. intros mc.
  eapply runs_bind; [apply runs_bytes_of|]. intros O. eapply runs_bind; [apply runs_bytes_of|]. intros B.
  destruct (merge_file_maps text_merge B O T) as [merged conflicts] eqn:Em.
  assert (merged = (merge_file_maps text_merge B O T).1 ∧ conflicts = (merge_file_maps text_merge B O T).2) as [-> ->] by by rewrite Em. clear Em.
  case_decide as Hcl; [|apply runs_throw]. eapply runs_weaken_pre; [|by apply (runs_clean_revert feature_head main_head (commit_id absorbing) pre B O T)].
  intros g Hg (HB & HO & (s' & Hs' & Emc) & HT & Hr & Ha & Hb & Hp). split; [|done]. split; [split; [by exists s'|done]|]. split; [done|]. split; [done|].
  split; [by intros id [= <-]; exists s'|]. rewrite Emc. split; [intros t [= <-]; by eapply Hg|]. intros p. by rewrite (commit_content_at _ _ s').
Qed.
Lemma safe_revert feature_head actor : safe (revert_on_main feature_head actor).
Proof. intros m Hm _. by destruct (runs_revert_main _ feature_head actor m Hm eq_refl) as [? _]. Qed.
(** ** Every operation *)

Lemma safe_each {A B} (f : A → op B) l : (∀ a, safe (f a)) → safe (each f l).
Proof. intros Hf. induction l as [|a l IH]; cbn [each]; [apply safe_ret|]. apply safe_bind; [done|]. intros b. apply safe_bind; [done|]. intros bs. apply safe_ret. Qed.
Lemma safe_merge_each names options completed last :
  safe (merge_each hash hex encodable short_digest full_name_ok text_merge others clock names options completed last).
Proof.
  revert completed last. induction names as [|name names IH]; intros completed last; cbn [merge_each]; [apply safe_ret|]. intros m Hm HP.
  destruct (safe_merge_main name "merge" m Hm HP) as [Ha _]. destruct (feature_into_main name "merge" m) as [m' [o|e]]; cbn [fst] in Ha.
  - assert (Hm' : store_ok hash (git m')) by by apply Ha. destruct (IH (completed ++ [name]) (Some o) m' Hm' I) as [Ha' _]. split; [by etransitivity|done].
  - destruct e; try by split. case_match; by split.
Qed.
#[local] Hint Resolve safe_each safe_merge_each safe_merge_main safe_revert : safe.
Lemma safe_base_bytes ours theirs : safe (base_bytes hex ours theirs).
Proof. unfold base_bytes. solve_safe. Qed.
#[local] Hint Resolve safe_base_bytes : safe.
Lemma safe_preview_feature main_head u t name : safe (preview_feature hex short_digest text_merge main_head u t name).
Proof. unfold preview_feature. solve_safe. Qed.
#[local] Hint Resolve safe_preview_feature : safe.
Lemma safe_preview names : safe (preview_merge_features_to_main hex short_digest text_merge names).
Proof. unfold preview_merge_features_to_main. apply safe_bind; [apply safe_each; solve_safe|]. solve_safe. Qed.
#[local] Hint Resolve safe_preview : safe.
Lemma safe_merge_features names options :
  safe (merge_features_to_main_with_options hash hex encodable short_digest full_name_ok text_merge others clock names options).
Proof. unfold merge_features_to_main_with_options. apply safe_bind; [apply safe_each; solve_safe|]. solve_safe. Qed.
Lemma safe_merge_branch names : safe (merge_branch_changes hash hex encodable short_digest full_name_ok text_merge others clock names).
Proof.
  unfold merge_branch_changes, merge_features_to_main. apply safe_bind; [apply safe_merge_features|]. intros o. apply safe_bind; [|solve_safe].
  apply safe_each. intros name. apply safe_delete, feat_ref_main.
Qed.
Lemma safe_revert_by_name name actor : safe (revert_feature_by_name hash hex encodable short_digest full_name_ok text_merge others clock name actor).
Proof. unfold revert_feature_by_name, revert_feature_merge. solve_safe. Qed.
Lemma pending_reviews_names names actor : runs (λ _, True) (pending_reviews hex names actor) (λ l _, ∀ x, x ∈ l → x.1.1 ∈ names).
Proof.
  induction names as [|name names IH]; cbn [pending_reviews].
  { eapply runs_post; [|apply runs_ret]. by intros l g _ [-> _] x ?%elem_of_nil. }
  eapply runs_bind; [apply runs_safe, safe_get|]. intros m. case_decide.
  - eapply runs_bind; [apply runs_safe, safe_read_ref|]. intros h. eapply runs_bind; [exact IH|]. intros rest. eapply runs_post; [|apply runs_ret].
    intros l g _ [-> Hrest] x Hx. destruct h as [h|]; [|right; by apply Hrest]. destruct (read_commit hex h _) as [c|e]; [|right; by apply Hrest].
    case_decide; [|right; by apply Hrest]. apply elem_of_cons in Hx as [->|Hx]; [by left|right; by apply Hrest].
  - eapply runs_post; [|exact IH]. intros l g _ Hl x Hx. right. by apply Hl.
Qed.
Lemma newest_in (found : list (string * Id * Z)) x : newest found = Some x → x ∈ found.
Proof.
  unfold newest. revert x. induction found as [|y found IH] using rev_ind; [done|]. intros x. rewrite foldl_snoc, elem_of_app, list_elem_of_singleton.
  destruct (foldl _ None found) as [z|]; [|intros [= <-]; by right]. case_decide; intros [= <-]; [by right|left; by apply IH].
Qed.
Lemma review_listed (g : store) name : name ∈ (list_refs REF_REVIEW_PREFIX g).*1 → name ≠ REF_MAIN.
Proof.
  unfold list_refs. intros ([n id] & -> & Hin)%list_elem_of_fmap. rewrite merge_sort_Permutation in Hin. apply elem_of_map_to_list in Hin.
  apply map_lookup_filter_Some in Hin as [_ Hs]. cbn in *. by intros ->.
Qed.
Lemma runs_newest actor : runs (λ _, True) (newest_pending_review hex actor) (λ r _, ∀ x, r = Some x → x.1 ≠ REF_MAIN).
Proof.
  eapply runs_bind; [apply runs_safe, safe_get|]. intros m. eapply runs_bind; [apply pending_reviews_names|]. intros found. eapply runs_post; [|apply runs_ret].
  intros r g _ [-> Hf] x Hx. destruct (newest found) as [y|] eqn:Ey; [|done]. injection Hx as <-. apply newest_in, Hf in Ey. by eapply review_listed.
Qed.
Lemma runs_submit n k actor ts h : runs (λ _, True) (submit_attempts hex short_digest full_name_ok n k actor ts h) (λ r _, r.1 ≠ REF_MAIN).
Proof.
  revert k. induction n as [|n IH]; intros k; cbn [submit_attempts]; [apply runs_throw|]. eapply runs_bind; [apply runs_safe, safe_swap_try, review_ref_main|].
  intros [|]; [|apply IH]. eapply runs_bind; [apply runs_safe, safe_set_review|]. intros []. eapply runs_post; [|apply runs_ret]. by intros r g _ [-> _].
Qed.
Lemma safe_merge_agent actor name :
  safe (merge_agent_to_feature hash hex encodable short_digest full_name_ok text_merge others clock actor name).
Proof.
  unfold merge_agent_to_feature. apply safe_bind; [apply safe_lift|]. intros []. eapply runs_bind; [apply runs_newest|]. intros found.
  eapply (runs_bind _ _ _ (λ r _, r.1 ≠ REF_MAIN)).
  - destruct found as [r|].
    + eapply runs_post; [|apply runs_ret]. intros a g _ [-> Hr]. by apply Hr.
    + eapply runs_weaken_pre; [|unfold submit_for_review; eapply runs_bind; [apply runs_safe, safe_read_ref|]]; [done|]. intros [h|]; [|apply runs_throw].
      eapply runs_bind; [apply runs_safe, safe_timestamp|]. intros ts. apply runs_submit.
  - intros r. apply (runs_know (r.1 ≠ REF_MAIN)); [done|]. intros Hr. eapply runs_weaken_pre; [|by apply safe_merge_review]. done.
Qed.
Lemma safe_agent_edit actor path content want :
  safe (apply_agent_edit_with_hash hash hex encodable short_digest full_name_ok others now clock sha256_hex actor path content want).
Proof. unfold apply_agent_edit_with_hash. solve_safe. Qed.
Lemma safe_agent_delete actor path : safe (apply_agent_delete hash hex encodable short_digest full_name_ok others now clock actor path).
Proof. unfold apply_agent_delete. solve_safe. Qed.
Lemma safe_rename actor from to content : safe (rename_file hash hex encodable short_digest full_name_ok others now clock actor from to content).
Proof. unfold rename_file. solve_safe. Qed.
Lemma safe_manual_edit path content : safe (apply_manual_edit hash hex encodable full_name_ok others now clock path content).
Proof.
  apply safe_lift_bind. intros q Hq%validated_proper. apply safe_commit_manual; [done|]. intros mode b [= <- <-]. by right; left.
Qed.
Lemma safe_manual_delete path : safe (apply_manual_delete hash hex encodable full_name_ok others now clock path).
Proof. apply safe_lift_bind. intros q Hq%validated_proper. by apply safe_commit_manual. Qed.
Lemma safe_discard actor : safe (discard_execution short_digest full_name_ok actor).
Proof. unfold discard_execution. apply safe_bind; [apply safe_delete, edit_ref_main|]. solve_safe. Qed.
Lemma safe_begin_edit_group label : safe (begin_edit_group (Id := Id) clock group_id label).
Proof. unfold begin_edit_group. solve_safe. Qed.
Lemma safe_stage actor path content group : safe (stage_in_group (Id := Id) actor path content group).
Proof. unfold stage_in_group. solve_safe. Qed.
Lemma safe_commit_group actor group tool :
  safe (commit_edit_group hash hex encodable short_digest full_name_ok others now clock actor group tool).
Proof.
  unfold commit_edit_group. apply safe_bind; [apply safe_take_batch|]. intros [b|]; [|apply safe_throw]. apply safe_or_restore. solve_safe.
Qed.
Lemma safe_rollback_group actor group : safe (rollback_edit_group hex short_digest full_name_ok others actor group).
Proof. unfold rollback_edit_group. solve_safe. Qed.
Lemma safe_undo_edit actor : safe (undo_edit hex short_digest full_name_ok others actor).
Proof. unfold undo_edit. solve_safe. Qed.
Lemma safe_reuse actor : safe (reuse_or_submit_review hex short_digest full_name_ok clock actor).
Proof. unfold reuse_or_submit_review. solve_safe. Qed.

Lemma safe_approve_related actor id : safe (approve_related hex actor id).
Proof.
  apply safe_modify. intros m. generalize (list_refs REF_REVIEW_PREFIX (git m)).*1. intros names. revert m. induction names as [|name names IH]; intros m; [done|].
  cbn [foldl]. rewrite IH. destruct (refs (git m) !! name); [|done]. destruct (read_commit _ _ _); [|done]. by case_decide.
Qed.
Lemma runs_resolved P resolutions : runs P (each (λ r : string * string, path ← lift (validate_workspace_relative_path r.1); mret (path, r.2)) resolutions)
  (λ l g, Forall (λ r, proper r.1) l ∧ P g).
Proof.
  induction resolutions as [|[p c] rs IH]; cbn [each].
  { eapply runs_post; [|apply runs_ret]. by intros l g _ [-> ?]. }
  eapply (runs_bind _ _ _ (λ (x : string * string) g, proper x.1 ∧ P g)).
  { eapply runs_bind; [apply runs_lift|]. intros q. eapply runs_post; [|apply runs_ret]. by intros x g _ (-> & ?%validated_proper & ?). }
  intros x. apply (runs_know (proper x.1)); [by intros g _ [? _]|]. intros Hx.
  apply (runs_weaken_pre _ P); [by intros g _ [_ ?]|]. eapply runs_bind; [exact IH|]. intros l. eapply runs_post; [|apply runs_ret].
  intros a g _ (-> & Hl & HP). split; [by constructor|done].
Qed.
Lemma resolved_paths (l : list (string * string)) : Forall (λ r, proper r.1) l → paths_ok (foldl (λ cs (r : string * string), <[r.1 := Some r.2]> cs) ∅ l).
Proof.
  intros Hl. enough (Hgen : ∀ cs, paths_ok cs → paths_ok (foldl (λ cs (r : string * string), <[r.1 := Some r.2]> cs) cs l)) by by apply Hgen.
  induction Hl as [|r l Hr Hl IH]; intros cs Hcs; [done|]. apply IH. intros p o. rewrite lookup_insert_Some. intros [[<- _]|[_ Hp]]; [done|by eapply Hcs].
Qed.
Lemma safe_resolve actor name resolutions :
  safe (resolve_conflicts hash hex encodable short_digest full_name_ok others clock actor name resolutions).
Proof.
  unfold resolve_conflicts. eapply safe_bind; [apply safe_lift|]. intros []. cbv zeta. eapply safe_bind; [solve_safe|]. intros h.
  case_decide; [apply safe_throw|]. eapply runs_bind; [apply (runs_commit_of (λ _, True))|]. intros c.
  apply (runs_weaken_pre _ (λ g, parent_ok (objects g) (Some (commit_tree c)) ∧ True)).
  { intros g [_ Hc] ((s & Hs & ->) & _). split; [intros t [= <-]; by eapply Hc|done]. }
  eapply runs_bind; [apply runs_resolved|]. intros l. cbv zeta.
  apply (runs_know (paths_ok (foldl (λ cs (r : string * string), <[r.1 := Some r.2]> cs) ∅ l))); [by intros g _ [? _]; apply resolved_paths|]. intros Hp.
  apply (runs_weaken_pre _ (λ g, parent_ok (objects g) (Some (commit_tree c)) ∧ True)); [by intros g _ [_ ?]|].
  eapply runs_bind; [by apply runs_build_merged|]. intros t. apply (runs_weaken_pre _ (λ g, tree_ok (objects g) t ∧ True)); [by intros g _ [[? _] _]|].
  apply safe_commit_merge_swap; [apply feat_ref_main|]. intros id. apply safe_bind; [apply safe_index_commit|]. intros [].
  apply safe_bind; [|intros []; apply safe_ret]. case_decide; [apply safe_approve_related|apply safe_ret].
Qed.
End facts.

#[export] Hint Resolve safe_ret safe_get safe_throw safe_lift safe_read_ref safe_commit_of safe_bytes_of safe_head_bytes safe_base_bytes safe_from_git
  safe_meanwhile safe_index_commit safe_timestamp safe_pop_redo safe_take_batch safe_swap_try safe_delete safe_or_restore safe_push_many safe_push_redo
  safe_clear_redo safe_set_latest safe_drop_latest safe_set_batch safe_set_review safe_each safe_pending safe_submit_review safe_newest safe_status safe_reuse
  edit_ref_main feat_ref_main review_ref_main human_main : safe.
(** A program is safe when its parts are. *)
Ltac solve_safe := repeat first
  [ progress intros
  | match goal with
    | |- safe _ (mbind _ _) => apply safe_bind
    | |- safe _ (modify _) => by apply safe_modify
    | |- safe _ (let _ := _ in _) => cbv zeta
    end
  | solve [eauto with safe] | case_match ].
