(* ===== verification/ApprovalFacts.v ===== *)
(** Approvals: an approval of selected files changes these files of the feature
    and nothing else, and a rejection ends exactly the actor's submissions.  At the
    end, sequences of all operations of the manager. *)

From S2P Require Import Prelude Strings Numbers DeltaChain GitStore GitTrees GitWalks FileManager Approval GitFacts FileManagerFacts.

Section approvals.
  Context {Id : Type} `{Countable Id} (hash : Object Id → Id) (hex : Id → string) (encodable : Object Id → bool).
  Context (short_digest : string → string) (full_name_ok : string → bool) (text_merge : string → string → string → string * bool).
  Context (others : nat → GitStore Id → GitStore Id) (clock : nat → option Z).
  Context `{!Inj (=) (=) hash} (Hothers : ∀ n g, advances hash REF_MAIN g (others n g)).
  #[local] Notation manager := (FileCheckpointManager (Id := Id)).
  #[local] Notation op := (SE manager CheckpointError).
  Implicit Types m : manager.
  #[local] Notation store := (GitStore Id).
  #[local] Notation runs := (runs hash).
  #[local] Notation safe := (safe hash).
  #[local] Notation main_moves := (advances hash REF_MAIN).

(** * Approvals of selected files *)

Lemma approved_lookup B O T dominated selection p : NoDup selection →
  approved_changes (approve_paths text_merge B O T dominated selection) !! p =
  if decide (p ∈ selection) then merged_bytes <$> approve_file text_merge (B !! p) (O !! p) (T !! p) dominated else None.
Proof.
  unfold approved_changes, approve_paths. induction selection as [|q selection IH]; intros Hnd; [done|]. apply NoDup_cons in Hnd as [Hq Hnd]. specialize (IH Hnd).
  cbn [omap list_omap]. destruct (decide (p = q)) as [->|Hpq].
  - rewrite decide_True by by left. destruct (approve_file _ _ _ _ _) as [r|]; cbn; [by rewrite lookup_insert_eq|]. etransitivity; [exact IH|].
    by rewrite decide_False.
  - rewrite (decide_ext (p ∈ q :: selection) (p ∈ selection)) by set_solver. destruct (approve_file _ (B !! q) _ _ _) as [r|]; cbn; [|exact IH].
    rewrite lookup_insert_ne by done. exact IH.
Qed.
Lemma elem_of_conflicted B O T dominated selection p : p ∈ conflicted_paths (approve_paths text_merge B O T dominated selection) ↔
  p ∈ selection ∧ ∃ r, approve_file text_merge (B !! p) (O !! p) (T !! p) dominated = Some r ∧ conflicted r = true.
Proof.
  unfold conflicted_paths, approve_paths. rewrite list_elem_of_fmap. split.
  - intros ([q r] & -> & [Hc (q' & Hq' & E)%list_elem_of_omap]%list_elem_of_filter). cbn in *. destruct (approve_file _ _ _ _ _) as [r'|] eqn:Er; [|done].
    injection E as -> ->. split; [done|]. by exists r.
  - intros (Hp & r & Hr & Hc). exists (p, r). split; [done|]. apply list_elem_of_filter. split; [done|]. apply list_elem_of_omap. exists p. split; [done|]. by rewrite Hr.
Qed.
Lemma runs_validated P paths : runs P (each (λ p, lift (validate_workspace_relative_path p)) paths)
  (λ l g, (∀ p, p ∈ l ↔ ∃ q, q ∈ paths ∧ validate_workspace_relative_path q = Ok p) ∧ P g).
Proof.
  induction paths as [|q paths IH]; cbn [each].
  { eapply runs_post; [|apply runs_ret]. intros l g _ [-> HP]. split; [|done]. intros p. rewrite elem_of_nil. split; [done|]. by intros (q & ?%elem_of_nil & _). }
  eapply runs_bind; [apply runs_lift|]. intros p'. apply (runs_know _ (validate_workspace_relative_path q = Ok p')); [by intros g _ [? _]|]. intros Hq.
  apply (runs_weaken_pre _ _ P); [by intros g _ [_ ?]|]. eapply runs_bind; [exact IH|]. intros l. eapply runs_post; [|apply runs_ret].
  intros a g _ (-> & Hl & HP). split; [|done]. intros p. rewrite elem_of_cons, Hl. split.
  - intros [->|(q' & Hq' & E)]; [exists q; split; [by left|done]|exists q'; split; [by right|done]].
  - intros (q' & [->|Hq']%elem_of_cons & E); [left; congruence|right; by exists q'].
Qed.
(** What a feature holds after an approval of [paths]. *)
Definition selected (paths : list string) (p : string) : Prop := ∃ q, q ∈ paths ∧ validate_workspace_relative_path q = Ok p.
Definition below (p q : string) : Prop := ∃ r, p = q +:+ String "/" r.
(** The file a feature gets for a selected path: the merge, or the file of the
    submission, new to the feature, that an earlier approval withheld. *)
Definition approved_file (base ours theirs : option string) (dominated : bool) : MergeFileOutcome :=
  if decide (dominated = true ∧ ours = None ∧ base = theirs) then {| merged_bytes := theirs; conflicted := false |}
  else merge_file_contents text_merge base ours theirs.
Lemma approve_file_spec base ours theirs dominated :
  approve_file text_merge base ours theirs dominated = if decide (ours = theirs) then None else Some (approved_file base ours theirs dominated).
Proof.
  unfold approve_file, approved_file. case_decide as Ht; [done|]. f_equal.
  destruct (decide (base = theirs)) as [->|Hb].
  - assert (merge_file_contents text_merge theirs ours theirs = {| merged_bytes := ours; conflicted := false |}) as ->.
    { unfold merge_file_contents. by rewrite decide_False, decide_False, decide_True by congruence. }
    cbn [conflicted merged_bytes negb andb]. destruct ours as [o|], dominated; cbn; by repeat (case_bool_decide || case_decide); naive_solver.
  - rewrite (bool_decide_eq_false_2 (theirs ≠ None ∧ _)), andb_false_r, (decide_False (P := dominated = true ∧ _)) by tauto. done.
Qed.
(** Whether the feature's history has the submission. *)
Definition dominates (g : store) (feature_head : option Id) (review_head : Id) : bool :=
  match feature_head with Some feature => store_is_ancestor hex review_head feature g | None => false end.
Definition approved_selection (paths : list string) (feature_ref : string) (review_head : Id) (g0 : store) (o : MergeOutcome Id) (g : store) : Prop :=
  let feature_head := refs g0 !! feature_ref in
  ∃ base id,
    let before p := files_at g feature_head p in
    let submitted p := files_at g (Some review_head) p in
    let outcome p := approved_file (files_at g base p) (before p) (submitted p) (dominates g0 feature_head review_head) in
    common hex feature_head review_head base g0 ∧
    snapshot_id o = Some id ∧ refs g !! feature_ref = Some id ∧
    (∃ c, objects g !! id = Some (Commit c) ∧ stored_parents c = option_list feature_head ++ [review_head]) ∧
    (∀ p, selected paths p → before p ≠ submitted p → files_at g (Some id) p = merged_bytes (outcome p)) ∧
    (∀ p, (selected paths p → before p = submitted p) → files_at g (Some id) p = before p ∨
       files_at g (Some id) p = None ∧ ∃ q, below p q ∧ selected paths q ∧ before q ≠ submitted q) ∧
    (∀ p, p ∈ outcome_conflict_files o ↔ selected paths p ∧ before p ≠ submitted p ∧ conflicted (outcome p) = true).

Definition approve_facts feature_head review_head base B O T parent (g : store) : Prop :=
  sides base feature_head (Some review_head) B O T g ∧ tree_of_head feature_head parent g.
Lemma lasting_approve_facts feature_head review_head base B O T parent : lasting hash (approve_facts feature_head review_head base B O T parent).
Proof. apply lasting_and; [by apply (lasting_sides hash hex)|by apply (lasting_tree_of_head hash hex)]. Qed.
(** What a tree that is built from the approved files holds. *)
Lemma approved_files feature_head review_head base B O T parent dominated selection t id ps text g :
  approve_facts feature_head review_head base B O T parent g → NoDup selection →
  built parent (approved_changes (approve_paths text_merge B O T dominated selection)) t (objects g) → merge_commit t ps text id g →
  let outcome p := approve_file text_merge (files_at g base p) (files_at g feature_head p) (files_at g (Some review_head) p) dominated in
  (∀ p r, p ∈ selection → outcome p = Some r → files_at g (Some id) p = merged_bytes r) ∧
  (∀ p, (p ∈ selection → outcome p = None) → files_at g (Some id) p = files_at g feature_head p ∨
     files_at g (Some id) p = None ∧ ∃ q, below p q ∧ q ∈ selection ∧ outcome q ≠ None).
Proof.
  intros ((HB & HO & HT) & (_ & _ & Hp)) Hnd [_ Ha] (c & Hc & Ht & _) outcome. apply proj2 in HB, HO, HT.
  assert (Eo : ∀ p, outcome p = approve_file text_merge (B !! p) (O !! p) (T !! p) dominated) by (intros p; unfold outcome; by rewrite HB, HO, HT).
  assert (Ef : ∀ p, files_at g (Some id) p = snd <$> content (objects g) (Some t) p) by (intros p; unfold files_at; by rewrite (commit_content_at _ _ c), Ht).
  pose proof (λ p, approved_lookup B O T dominated selection p Hnd) as Hl. set (changes := approved_changes _) in *.
  assert (Hch : ∀ p, merged_changes changes !! p = if decide (p ∈ selection) then (λ r, (MODE_FILE,.) <$> merged_bytes r) <$> outcome p else None).
  { intros p. unfold merged_changes. rewrite lookup_fmap, Hl, Eo. case_decide; [|done]. by rewrite <-option_fmap_compose. }
  split; intros p.
  - intros r Hin Hr. rewrite Ef. specialize (Ha p). rewrite Hch, decide_True, Hr in Ha by done. cbn [fmap option_fmap option_map] in Ha. rewrite Ha. by destruct (merged_bytes r).
  - intros Hn. assert (Hnone : merged_changes changes !! p = None) by (rewrite Hch; case_decide as Hin; [by rewrite (Hn Hin)|done]).
    specialize (Ha p). rewrite Hnone in Ha. destruct Ha as [Hunder Hother]. rewrite !Ef.
    destruct (under_dec (merged_changes changes) p) as [Hu|Hu]; [right|left].
    + rewrite Hunder by done. split; [done|]. destruct Hu as (q & r & c' & -> & Hq). rewrite Hch in Hq. case_decide as Hin; [|done].
      exists q. split; [by exists r|]. split; [done|]. by destruct (outcome q).
    + rewrite Hother by done. unfold files_at. by rewrite Hp.
Qed.
Lemma approved_paths_ok B O T dominated selection : NoDup selection → Forall proper selection →
  paths_ok (approved_changes (approve_paths text_merge B O T dominated selection)).
Proof.
  intros Hnd Hp p o. rewrite approved_lookup by done. case_decide as Hin; [|done]. intros _. rewrite Forall_forall in Hp. by apply Hp.
Qed.
Lemma runs_approve_selected g0 actor name paths behavior review_head :
  runs (λ g, g = g0) (approve_selected hash hex encodable short_digest full_name_ok text_merge others clock actor name paths behavior review_head)
    (λ o g, approved_merge o = true → approved_selection paths (feat_ref short_digest name) review_head g0 o g).
Proof.
  unfold approve_selected. eapply runs_bind; [apply runs_validated|]. intros l. cbv zeta.
  apply (runs_know _ (∀ p, p ∈ l ↔ selected paths p)); [by intros g _ [? _]|]. intros Hl. set (selection := sorted_ids (list_to_set l)).
  assert (Hsel : ∀ p, p ∈ selection ↔ selected paths p) by (intros p; unfold selection; by rewrite elem_of_sorted_ids, elem_of_list_to_set).
  assert (Hnd : NoDup selection) by (unfold selection, sorted_ids; rewrite merge_sort_Permutation; apply NoDup_elements).
  assert (Hprop : Forall proper selection) by (apply Forall_forall; intros p (q & _ & Hq)%Hsel; by eapply validated_proper).
  eapply runs_bind; [by apply (runs_status hash hex)|]. intros st. destruct (unresolved st); [apply runs_throw|].
  eapply runs_bind; [by apply (runs_commit_of hash hex)|]. intros rc. eapply runs_bind; [by apply (runs_bytes_of hash hex)|]. intros T.
  eapply runs_bind; [apply runs_read_ref|]. intros fh. apply (runs_know _ (fh = refs g0 !! feat_ref short_digest name)); [by intros g _ (<- & _ & _ & _ & ->)|].
  intros ->. set (fh := refs g0 !! _). eapply runs_bind; [by apply (runs_head_bytes hash hex)|]. intros O.
  eapply runs_bind; [by apply (runs_base_bytes hash hex)|]. intros B. eapply runs_bind; [apply runs_get|]. intros m. cbv zeta.
  apply (runs_know _ (git m = g0)); [by intros g _ (<- & _ & _ & _ & _ & _ & _ & ->)|]. intros Em.
  change (match fh with Some feature => store_is_ancestor hex review_head feature (git m) | None => false end) with (dominates (git m) fh review_head).
  rewrite Em. set (dominated := dominates g0 fh review_head). set (parent := head_tree hex fh m).
  case_decide. { eapply runs_post; [|apply runs_ret]. by intros o g _ [-> _]. }
  case_decide; [apply runs_throw|]. set (changes := approved_changes _). assert (Hok : paths_ok changes) by by apply approved_paths_ok.
  apply (runs_weaken_pre _ _ (λ g, ∃ base, parent_ok (objects g) parent ∧ approve_facts fh review_head base B O T parent g ∧ common hex fh review_head base g0)).
  { intros g Hg (_ & (base & HB & Hc) & HO & _ & HT & _ & _ & ->). exists base.
    assert (Ht : tree_of_head fh parent g0) by (apply (head_tree_ok hash hex); [done|done|apply HO]). split; [apply Ht|]. by split. }
  apply runs_exists. intros base. apply (runs_know _ (common hex fh review_head base g0)); [by intros g _ (_ & _ & ?)|]. intros Hcm.
  apply (runs_weaken_pre _ _ (λ g, parent_ok (objects g) parent ∧ approve_facts fh review_head base B O T parent g)); [by intros g _ (? & ? & _)|].
  eapply runs_bind; [apply (runs_build_merged hash hex encodable); [apply lasting_calm, lasting_approve_facts|exact Hok]|]. intros t.
  case_decide. { eapply runs_post; [|apply runs_ret]. by intros o g _ [-> _]. }
  set (F := λ g, (parent_ok (objects g) parent ∧ built parent changes t (objects g)) ∧ approve_facts fh review_head base B O T parent g).
  assert (HF : lasting hash F) by (apply lasting_and; [by apply (lasting_built hash hex)|apply lasting_approve_facts]).
  apply (runs_weaken_pre _ _ (λ g, tree_ok (objects g) t ∧ F g)).
  { intros g Hg (Hb & Hf). split; [apply Hb|]. split; [|done]. split; [apply Hf|done]. }
  eapply runs_bind; [by apply (runs_commit_merge hash hex encodable), lasting_calm|]. intros id. eapply runs_bind.
  { apply (runs_swap_other hash full_name_ok others Hothers); [|apply feat_ref_main]. apply lasting_and; [apply lasting_merge_commit|exact HF]. }
  intros []. eapply runs_bind; [apply runs_index|]. intros []. eapply runs_post; [|apply runs_ret].
  intros o g Hg [-> (Hr & Hm & (_ & Hb) & Hf)] _. exists base, id. cbn [snapshot_id outcome_conflict_files]. split; [done|]. split; [done|]. split; [done|].
  destruct (approved_files fh review_head base B O T parent dominated selection t id _ _ g Hf Hnd Hb Hm) as [Hsome Hother].
  split; [destruct Hm as (c & Hc & _ & Hps & _); by exists c|].
  split; [|split].
  - intros p Hp Hne. apply Hsome; [by apply Hsel|]. rewrite approve_file_spec. by rewrite decide_False.
  - intros p Hp. destruct (Hother p) as [?|[? (q & Hq & Hs & Hne)]]; [|by left|].
    + intros ?%Hsel. rewrite approve_file_spec. rewrite decide_True; [done|by apply Hp].
    + right. split; [done|]. exists q. rewrite <-Hsel. rewrite approve_file_spec in Hne. by case_decide.
  - intros p. rewrite elem_of_conflicted, Hsel. destruct Hf as (((_ & HB) & (_ & HO) & (_ & HT)) & _).
    change (refs g0 !! feat_ref short_digest name) with fh. rewrite <-HB, <-HO, <-HT, approve_file_spec.
    destruct (decide (O !! p = T !! p)); split.
    + by intros (_ & r & ? & _).
    + by intros (_ & Hne & _).
    + intros (Hp & r & [= <-] & Hc). by repeat split.
    + intros (Hp & _ & Hc). split; [done|]. eexists. by split.
Qed.
End approvals.

(** * Rejections *)

Section rejections.
  Context {Id : Type} `{Countable Id} (hex : Id → string) (short_digest : string → string) (full_name_ok : string → bool).
  Implicit Types m : FileCheckpointManager (Id := Id).
  #[local] Notation store := (GitStore Id).

Lemma set_git_same m : set_git (git m) m = m.
Proof. by destruct m. Qed.
Lemma set_review_same m : set_review (review_state m) m = m.
Proof. by destruct m. Qed.
Lemma read_ref_at name m : ref_path name = Ok tt → read_ref_of name m = (m, Ok (refs (git m) !! name)).
Proof. intros Hn. unfold read_ref_of, on_git, read_ref. rewrite Hn. cbn. by rewrite set_git_same. Qed.
Lemma path_of_full_name name : ref_full_name full_name_ok name = Ok tt → ref_path name = Ok tt.
Proof. unfold ref_full_name. by destruct (ref_path name) as [[]|]. Qed.
(** A pending review of an actor, and a pending row that has lost its ref. *)
Definition submission m (actor name : string) (h : Id) : Prop :=
  starts_with REF_REVIEW_PREFIX name = true ∧ refs (git m) !! name = Some h ∧ review_state m !! name = Some Pending ∧
  ∃ c, read_commit hex h (objects (git m)) = Ok c ∧ trailer TRAILER_ACTOR (message c) = Some actor.
Definition orphan m (actor name : string) : Prop :=
  starts_with (REF_REVIEW_PREFIX +:+ sanitize_ref_component short_digest actor +:+ "-") name = true ∧
  review_state m !! name = Some Pending ∧ refs (git m) !! name = None.
(** Names that the store has accepted. *)
Definition valid_names m : Prop :=
  (∀ name h, refs (git m) !! name = Some h → ref_full_name full_name_ok name = Ok tt) ∧ ∀ name s, review_state m !! name = Some s → ref_path name = Ok tt.

Lemma sweep_spec prefix rows m : (∀ name s, (name, s) ∈ rows → ref_path name = Ok tt) →
  ∃ n R, sweep_reviews prefix rows m = (set_review R m, Ok n) ∧
    ∀ name, R !! name = if decide ((name, Pending) ∈ rows ∧ starts_with prefix name = true ∧ refs (git m) !! name = None) then None else review_state m !! name.
Proof.
  revert m. induction rows as [|[name s] rows IH]; intros m Hrows; cbn [sweep_reviews].
  { exists 0, (review_state m). rewrite set_review_same. split; [done|]. intros name. rewrite decide_False; [done|]. by intros [?%elem_of_nil _]. }
  assert (Hr : ∀ name s, (name, s) ∈ rows → ref_path name = Ok tt) by (intros n' s' Hin; eapply Hrows; by right).
  case_decide as Hs.
  { destruct (IH m Hr) as (n & R & E & HR). exists n, R. split; [exact E|]. intros name'. rewrite HR. apply decide_ext. rewrite elem_of_cons.
    split; [tauto|]. intros [[[= -> <-]|?] [Hp ?]]; [|done]. rewrite Hp in Hs. by destruct Hs. }
  assert (s = Pending ∧ starts_with prefix name = true) as [-> Hp] by (destruct (starts_with prefix name); destruct s; naive_solver).
  rewrite (bind_Ok _ _ m m (refs (git m) !! name)) by (apply read_ref_at; eapply Hrows; by left). destruct (refs (git m) !! name) as [h|] eqn:En.
  - destruct (IH m Hr) as (n & R & E & HR). exists n, R. split; [exact E|]. intros name'. rewrite HR. apply decide_ext. rewrite elem_of_cons.
    split; [tauto|]. intros [[[= ->]|?] [? ?]]; [congruence|done].
  - rewrite (bind_Ok _ _ m (set_review (delete name (review_state m)) m) tt) by done.
    destruct (IH (set_review (delete name (review_state m)) m) Hr) as (n & R & E & HR). rewrite (bind_Ok _ _ _ _ _ E). exists (S n), R. split; [done|].
    intros name'. rewrite HR. change (git (set_review (delete name (review_state m)) m)) with (git m). cbn [review_state set_review].
    destruct (decide (name' = name)) as [->|Hne].
    + rewrite lookup_delete_eq. rewrite (decide_True (P := _ ∈ _ :: _ ∧ _)) by (split; [by left|done]). by case_decide.
    + rewrite lookup_delete_ne by done. apply decide_ext. rewrite elem_of_cons. naive_solver.
Qed.
Lemma pending_spec names actor m : (∀ name, name ∈ names → ref_path name = Ok tt) →
  ∃ l, pending_reviews hex names actor m = (m, Ok l) ∧
    ∀ name h, (∃ ts, (name, h, ts) ∈ l) ↔ name ∈ names ∧ review_state m !! name = Some Pending ∧ refs (git m) !! name = Some h ∧
      ∃ c, read_commit hex h (objects (git m)) = Ok c ∧ trailer TRAILER_ACTOR (message c) = Some actor.
Proof.
  induction names as [|name names IH]; intros Hn; cbn [pending_reviews].
  { exists []. split; [done|]. intros name h. split; [by intros [ts ?%elem_of_nil]|by intros [?%elem_of_nil _]]. }
  destruct IH as (l & E & Hl); [intros name' ?; apply Hn; by right|]. rewrite (bind_Ok _ _ m m m) by done. case_decide as Hs.
  - rewrite (bind_Ok _ _ m m (refs (git m) !! name)) by (apply read_ref_at, Hn; by left). rewrite (bind_Ok _ _ _ _ _ E).
    eexists. split; [reflexivity|]. intros name' h'. setoid_rewrite elem_of_cons. destruct (refs (git m) !! name) as [h|] eqn:Eh.
    2: { rewrite Hl. naive_solver. }
    destruct (read_commit hex h (objects (git m))) as [c|e] eqn:Ec; [case_decide as Ht|].
    + setoid_rewrite elem_of_cons. split.
      * intros [ts [[= -> -> ->]|Hin]]; [naive_solver|]. destruct (proj1 (Hl name' h')) as (? & ?); [by exists ts|]. split; [by right|done].
      * intros ([->|Hin] & Hp & Hh & Hc); [exists (committer_ts c); left; congruence|]. destruct (proj2 (Hl name' h')) as [ts ?]; [done|]. exists ts. by right.
    + rewrite Hl. split; [naive_solver|]. intros ([->|Hin] & Hp & Hh & c' & Hc & Ht'); [congruence|naive_solver].
    + rewrite Hl. split; [naive_solver|]. intros ([->|Hin] & Hp & Hh & c' & Hc & Ht'); [congruence|naive_solver].
  - exists l. split; [exact E|]. intros name' h'. rewrite Hl, elem_of_cons. naive_solver.
Qed.

Lemma reject_each_spec targets deleted m : (∀ x, x ∈ targets → ref_full_name full_name_ok x.1.1 = Ok tt) →
  ∃ R rs, reject_each full_name_ok targets deleted m = (set_review R (set_git (set_refs rs (git m)) m),
      Ok (match last targets with Some x => Some x.1.2 | None => deleted end)) ∧
    ∀ name, (name ∈ targets.*1.*1 → R !! name = Some Rejected ∧ rs !! name = None) ∧
            (name ∉ targets.*1.*1 → R !! name = review_state m !! name ∧ rs !! name = refs (git m) !! name).
Proof.
  revert deleted m. induction targets as [|[[name h] ts] targets IH]; intros deleted m Hv; cbn [reject_each].
  { exists (review_state m), (refs (git m)). split; [|intros name; split; [by intros ?%elem_of_nil|done]]. f_equal. by destruct m as [[]]. }
  set (m1 := set_review (<[name := Rejected]> (review_state m)) (set_git (set_refs (delete name (refs (git m))) (git m)) m)).
  rewrite (bind_Ok _ _ m (set_git (set_refs (delete name (refs (git m))) (git m)) m) tt).
  2: { unfold on_git, delete_ref. by rewrite (Hv (name, h, ts) (list_elem_of_here _ _) : ref_full_name full_name_ok name = Ok tt). }
  rewrite (bind_Ok _ _ _ m1 tt) by done.
  destruct (IH (Some h) m1) as (R & rs & E & HR); [intros x Hx; apply Hv; by right|]. exists R, rs. split.
  { rewrite E. destruct targets as [|x targets]; [done|]. rewrite last_cons_cons. destruct (last (x :: targets)) eqn:El; [done|]. by apply last_None in El. }
  intros name'. rewrite !fmap_cons, !elem_of_cons. destruct (HR name') as [Hin Hout]. split.
  - intros Hn. destruct (decide (name' ∈ targets.*1.*1)) as [?|Hni]; [by apply Hin|]. destruct (Hout Hni) as [-> ->]. destruct Hn as [->|?]; [|done].
    unfold m1. cbn. by rewrite lookup_insert_eq, lookup_delete_eq.
  - intros Hno. assert (name' ≠ name ∧ name' ∉ targets.*1.*1) as [Hne Hni] by tauto. destruct (Hout Hni) as [-> ->]. unfold m1. cbn in *. by rewrite lookup_insert_ne, lookup_delete_ne by done.
Qed.

Lemma elem_of_listed prefix (g : store) name : name ∈ (list_refs prefix g).*1 ↔ starts_with prefix name = true ∧ is_Some (refs g !! name).
Proof.
  unfold list_refs. rewrite list_elem_of_fmap. split.
  - intros ([n id] & -> & Hin). rewrite merge_sort_Permutation in Hin. apply elem_of_map_to_list in Hin.
    apply map_lookup_filter_Some in Hin as [Hr Hs]. split; [done|]. by exists id.
  - intros [Hs [id Hr]]. exists (name, id). split; [done|]. rewrite merge_sort_Permutation. apply elem_of_map_to_list. by apply map_lookup_filter_Some.
Qed.
(** C11: a rejection ends exactly the pending submissions of the actor: their refs
    are gone and their rows rejected, rows of the actor without a ref are swept, and
    nothing else changes; without a submission it says so. *)
Theorem reject_exact actor m : valid_names m →
  ∃ R rs r, reject_changes hex short_digest full_name_ok actor m = (set_review R (set_git (set_refs rs (git m)) m), r) ∧
    (∀ name, (∃ h, submission m actor name h) → R !! name = Some Rejected ∧ rs !! name = None) ∧
    (∀ name, orphan m actor name → R !! name = None) ∧
    (∀ name, ¬ (∃ h, submission m actor name h) → rs !! name = refs (git m) !! name ∧ (¬ orphan m actor name → R !! name = review_state m !! name)) ∧
    match r with
    | Ok h => ∃ name, submission m actor name h
    | Err e => e = Validation ("actor '" +:+ actor +:+ "' has no pending submission") ∧ ∀ name h, ¬ submission m actor name h
    end.
Proof.
  intros [Hrefs Hrows]. unfold reject_changes, reconcile_reviews.
  destruct (sweep_spec (REF_REVIEW_PREFIX +:+ sanitize_ref_component short_digest actor +:+ "-") (map_to_list (review_state m)) m) as (n & R0 & E0 & HR0).
  { intros name s Hin%elem_of_map_to_list. by eapply Hrows. }
  rewrite (bind_Ok _ _ m (set_review R0 m) n) by exact E0. rewrite (bind_Ok _ _ _ _ (set_review R0 m)) by done. clear E0 n.
  assert (HR0' : ∀ name, R0 !! name = if decide (orphan m actor name) then None else review_state m !! name).
  { intros name. rewrite HR0. apply decide_ext. rewrite elem_of_map_to_list. unfold orphan. tauto. }
  change (git (set_review R0 m)) with (git m). set (names := (list_refs REF_REVIEW_PREFIX (git m)).*1).
  destruct (pending_spec names actor (set_review R0 m)) as (l & El & Hl).
  { intros name [_ [h Hh]]%elem_of_listed. by eapply path_of_full_name, Hrefs. }
  rewrite (bind_Ok _ _ _ _ _ El). clear El.
  assert (Hl' : ∀ name h, (∃ ts, (name, h, ts) ∈ l) ↔ submission m actor name h).
  { intros name h. rewrite Hl. unfold names. rewrite elem_of_listed. cbn [review_state set_review git]. unfold submission. rewrite HR0'. unfold orphan.
    case_decide; naive_solver. }
  destruct (reject_each_spec l None (set_review R0 m)) as (R & rs & E & HR).
  { intros [[name h] ts] Hx. destruct (proj1 (Hl' name h)) as (_ & Hh & _); [by exists ts|]. by apply (Hrefs name h). }
  rewrite (bind_Ok _ _ _ _ _ E). change (git (set_review R0 m)) with (git m) in *.
  assert (Hin : ∀ name, name ∈ l.*1.*1 ↔ ∃ h, submission m actor name h).
  { intros name. setoid_rewrite <-Hl'. rewrite list_elem_of_fmap. setoid_rewrite list_elem_of_fmap. split.
    - intros (nh & -> & ([[n h] ts] & -> & Hx)). by exists h, ts.
    - intros (h & ts & Hx). exists (name, h). split; [done|]. by exists (name, h, ts). }
  exists R, rs, (match last l with Some x => Ok x.1.2 | None => Err (Validation ("actor '" +:+ actor +:+ "' has no pending submission")) end).
  split; [by destruct (last l)|]. split; [intros name Hs; by apply HR, Hin|]. split; [|split].
  - intros name Ho. destruct (proj2 (HR name)) as [-> _]; [|cbn [review_state set_review]; rewrite HR0'; by rewrite decide_True].
    rewrite Hin. intros (h & _ & Hh & _). destruct Ho as (_ & _ & Hn). congruence.
  - intros name Hs. destruct (proj2 (HR name)) as [-> ->]; [by rewrite Hin|]. split; [done|]. intros Ho. cbn [review_state set_review]. rewrite HR0'. by rewrite decide_False.
  - destruct (last l) as [[[name h] ts]|] eqn:Elast; cbn.
    + exists name. apply Hl'. exists ts. by apply last_Some_elem_of.
    + split; [done|]. intros name h Hs. apply Hl' in Hs as [ts Hx]. apply last_None in Elast as ->. by apply elem_of_nil in Hx.
Qed.

End rejections.

(** * The submission an approval is about *)

Section submissions.
  Context {Id : Type} `{Countable Id} (hex : Id → string) (short_digest : string → string) (full_name_ok : string → bool) (clock : nat → option Z).
  #[local] Notation manager := (FileCheckpointManager (Id := Id)).
  #[local] Notation op := (SE manager CheckpointError).
  Implicit Types m : manager.
(** The head of the actor's line, or, without a line, that of a pending submission. *)
Definition reviewed m (actor : string) (review_head : Id) : Prop :=
  let line := refs (git m) !! edit_ref short_digest actor in
  line = Some review_head ∨ line = None ∧ ∃ name, submission hex m actor name review_head.
(** The store of [m'] has the objects of [m] and its refs, reviews apart. *)
Definition same_but_reviews m m' : Prop :=
  objects (git m') = objects (git m) ∧ anchor (git m') = anchor (git m) ∧
  ∀ name, starts_with REF_REVIEW_PREFIX name = false → refs (git m') !! name = refs (git m) !! name.
#[export] Instance same_but_reviews_preorder : PreOrder same_but_reviews.
Proof.
  split; [by intros m|]. intros m1 m2 m3 (H1 & H2 & H3) (K1 & K2 & K3). split; [congruence|]. split; [congruence|].
  intros name Hn. by rewrite K3, H3.
Qed.

Lemma same_git m m' : same_but_reviews m m' → git m' = set_refs (refs (git m')) (git m).
Proof. intros (H1 & H2 & _). destruct (git m'), (git m). cbn in *. by subst. Qed.
Lemma review_ref_prefix id : starts_with REF_REVIEW_PREFIX (review_ref_for_id short_digest id) = true.
Proof. apply starts_with_true. by eexists. Qed.
Lemma bind_inv {A B} (o : op A) (f : A → op B) m m' b : (o ≫= f) m = (m', Ok b) → ∃ m1 a, o m = (m1, Ok a) ∧ f a m1 = (m', Ok b).
Proof. unfold mbind, M_bind. destruct (o m) as [m1 [a|e]]; [|done]. intros E. by exists m1, a. Qed.
Lemma each_lift_inv {A B} (f : A → result CheckpointError B) l m m' bs : each (λ a, lift (f a)) l m = (m', Ok bs) → m' = m.
Proof.
  revert m m' bs. induction l as [|a l IH]; intros m m' bs; cbn [each]; [by intros [= <-]|]. intros (m1 & b & Eb & E)%bind_inv. injection Eb as -> _.
  by apply bind_inv in E as (m2 & bs' & ->%IH & [= <-]).
Qed.
Lemma read_ref_inv name m m' h : read_ref_of name m = (m', Ok h) → m' = m ∧ h = refs (git m) !! name.
Proof. unfold read_ref_of, on_git, read_ref. destruct (ref_path name); cbn; [|done]. intros [= <- <-]. by rewrite set_git_same. Qed.
Lemma pending_inv names actor m m' l : pending_reviews hex names actor m = (m', Ok l) → m' = m ∧
  ∀ x, x ∈ l → x.1.1 ∈ names ∧ review_state m !! x.1.1 = Some Pending ∧ refs (git m) !! x.1.1 = Some x.1.2 ∧
    ∃ c, read_commit hex x.1.2 (objects (git m)) = Ok c ∧ trailer TRAILER_ACTOR (message c) = Some actor.
Proof.
  revert m' l. induction names as [|name names IH]; intros m' l; cbn [pending_reviews]; [intros [= <- <-]; split; [done|by intros x ?%elem_of_nil]|].
  intros (m1 & a & [= <- <-] & E)%bind_inv. case_decide as Hp.
  - apply bind_inv in E as (m1 & h & [-> ->]%read_ref_inv & E). apply bind_inv in E as (m2 & rest & Er & [= <- <-]). apply IH in Er as [-> Hr]. split; [done|].
    intros x Hx. assert (x ∈ rest ∨ ∃ h c, x.1 = (name, h) ∧ refs (git m) !! name = Some h ∧ read_commit hex h (objects (git m)) = Ok c ∧ trailer TRAILER_ACTOR (message c) = Some actor) as [Hin|(h & c & Ex & Hh & Hc & Ht)].
    { destruct (refs (git m) !! name) as [h|]; [|by left]. destruct (read_commit _ h _) as [c|e] eqn:Ec; [|by left]. case_decide; [|by left].
      apply elem_of_cons in Hx as [->|?]; [right; by exists h, c|by left]. }
    + destruct (Hr x Hin) as (? & ?). split; [by right|done].
    + rewrite Ex. cbn. split; [by left|]. split; [done|]. split; [done|]. by exists c.
  - apply IH in E as [-> Hr]. split; [done|]. intros x Hx. destruct (Hr x Hx) as (? & ?). split; [by right|done].
Qed.
Lemma newest_inv actor m m' r : newest_pending_review hex actor m = (m', Ok r) → m' = m ∧ ∀ x, r = Some x → submission hex m actor x.1 x.2.
Proof.
  unfold newest_pending_review. intros (m1 & a & [= <- <-] & E)%bind_inv. apply bind_inv in E as (m2 & l & [-> Hl]%pending_inv & [= <- <-]). split; [done|].
  intros x Hx. destruct (newest l) as [y|] eqn:Ey; [|done]. injection Hx as <-. apply newest_in, Hl in Ey as (Hn & Hp & Hh & Hc).
  apply elem_of_listed in Hn as [Hn _]. by repeat split.
Qed.
Lemma swap_try_inv name h m m' b : starts_with REF_REVIEW_PREFIX name = true →
  on_git_swap (compare_and_swap full_name_ok name None h) m = (m', Ok b) → same_but_reviews m m'.
Proof.
  intros Hn. unfold on_git_swap, compare_and_swap. destruct (ref_full_name _ _) as [[]|e]; [case_decide|].
  - intros [= <- <-]. split; [done|]. split; [done|]. intros name' Hn'. cbn. rewrite lookup_insert_ne; [done|]. congruence.
  - intros [= <- <-]. by rewrite set_git_same.
  - destruct e; try done; intros [= <- <-]; by rewrite set_git_same.
Qed.
Lemma submit_attempts_inv n k actor ts h m m' r : submit_attempts hex short_digest full_name_ok n k actor ts h m = (m', Ok r) → r.2 = h ∧ same_but_reviews m m'.
Proof.
  revert k m. induction n as [|n IH]; intros k m; cbn [submit_attempts]; [done|]. intros (m1 & b & Es & E)%bind_inv. apply swap_try_inv in Es; [|apply review_ref_prefix].
  destruct b.
  - apply bind_inv in E as (m2 & [] & [= <-] & [= <- <-]). split; [done|]. done.
  - apply IH in E as [? ?]. split; [done|]. by etransitivity.
Qed.
Lemma submit_inv actor m m' r : submit_for_review hex short_digest full_name_ok clock actor m = (m', Ok r) →
  refs (git m) !! edit_ref short_digest actor = Some r.2 ∧ same_but_reviews m m'.
Proof.
  unfold submit_for_review. intros (m1 & h & [-> ->]%read_ref_inv & E)%bind_inv. destruct (refs (git m) !! _) as [h|]; [|done].
  apply bind_inv in E as (m1 & ts & Et & E). apply submit_attempts_inv in E as [<- Hs]. split; [done|].
  etransitivity; [|exact Hs]. unfold creation_timestamp in Et. by destruct (clock _); injection Et as <- _.
Qed.
Lemma reuse_inv actor m m' r : reuse_or_submit_review hex short_digest full_name_ok clock actor m = (m', Ok r) →
  reviewed m actor r.2 ∧ same_but_reviews m m'.
Proof.
  unfold reuse_or_submit_review. intros (m1 & x & [-> Hx]%newest_inv & E)%bind_inv.
  assert (Hsub : submit_for_review hex short_digest full_name_ok clock actor m = (m', Ok r) → reviewed m actor r.2 ∧ same_but_reviews m m').
  { intros [? ?]%submit_inv. split; [by left|done]. }
  destruct x as [[name h]|]; [|by apply Hsub]. apply bind_inv in E as (m1 & e & [-> ->]%read_ref_inv & E). case_decide as Hd; [|by apply Hsub].
  injection E as <- <-. split; [|done]. specialize (Hx (name, h) eq_refl). destruct Hd as [Hd|Hd]; [right; split; [done|by exists name]|by left].
Qed.
End submissions.

(** * Every operation keeps main's history *)

Section operations.
  Context {Id : Type} `{Countable Id} (hash : Object Id → Id) (hex : Id → string) (encodable : Object Id → bool).
  Context (short_digest : string → string) (full_name_ok : string → bool) (text_merge : string → string → string → string * bool).
  Context (others : nat → GitStore Id → GitStore Id) (now : nat → Z) (clock : nat → option Z) (sha256_hex : string → string) (group_id : Z → nat → string).
  Context `{!Inj (=) (=) hash} (Hothers : ∀ n g, advances hash REF_MAIN g (others n g)).
  #[local] Notation manager := (FileCheckpointManager (Id := Id)).
  #[local] Notation op := (SE manager CheckpointError).
  Implicit Types m : manager.
  #[local] Notation store := (GitStore Id).
  #[local] Notation runs := (runs hash).
  #[local] Notation safe := (safe hash).
  #[local] Notation main_moves := (advances hash REF_MAIN).

Lemma safe_approve_selected actor name paths behavior review_head :
  safe (approve_selected hash hex encodable short_digest full_name_ok text_merge others clock actor name paths behavior review_head).
Proof. intros m Hm _. destruct (runs_approve_selected hash hex encodable short_digest full_name_ok text_merge others clock Hothers (git m) actor name paths behavior review_head m Hm eq_refl) as [Ha _]. by split. Qed.
Lemma safe_predict actor name review_head : safe (predict_conflicts hex short_digest text_merge actor name review_head).
Proof. unfold predict_conflicts. solve_safe. Qed.
Lemma safe_merge_submission actor name behavior review_ref review_head : review_ref ≠ REF_MAIN →
  safe (merge_submission hash hex encodable short_digest full_name_ok text_merge others clock actor name behavior review_ref review_head).
Proof.
  intros Hr m Hm HP. destruct (safe_merge_review hash hex encodable short_digest full_name_ok text_merge others clock Hothers review_ref review_head name actor Hr m Hm HP) as [Ha _].
  unfold merge_submission. destruct (merge_review_into_feature _ _ _ _ _ _ _ _ _ _ _ _ m) as [m' [o|e]]; [by case_decide|].
  destruct e; try by split. by case_decide.
Qed.
Lemma safe_approve_whole actor name behavior review_ref review_head : review_ref ≠ REF_MAIN →
  safe (approve_whole hash hex encodable short_digest full_name_ok text_merge others clock actor name behavior review_ref review_head).
Proof. intros Hr. apply safe_bind; [|intros ?; by apply safe_merge_submission]. case_decide; [apply safe_predict|apply safe_ret]. Qed.
Lemma runs_submit_review actor : runs (λ _, True) (submit_for_review hex short_digest full_name_ok clock actor) (λ r _, r.1 ≠ REF_MAIN).
Proof.
  unfold submit_for_review. eapply runs_bind; [apply runs_safe, safe_read_ref|]. intros [h|]; [|apply runs_throw].
  eapply runs_bind; [apply runs_safe, safe_timestamp|]. intros ts. by apply runs_submit.
Qed.
Lemma runs_reuse actor : runs (λ _, True) (reuse_or_submit_review hex short_digest full_name_ok clock actor) (λ r _, r.1 ≠ REF_MAIN).
Proof.
  unfold reuse_or_submit_review. eapply runs_bind; [by apply runs_newest|]. intros [[name h]|].
  - apply (runs_know _ (name ≠ REF_MAIN)); [intros g _ Hn; by apply (Hn (name, h))|]. intros Hn. eapply runs_bind; [apply runs_safe, safe_read_ref|]. intros e. case_decide.
    + eapply runs_post; [|apply runs_ret]. by intros r g _ [-> _].
    + eapply runs_weaken_pre; [|apply runs_submit_review]. done.
  - eapply runs_weaken_pre; [|apply runs_submit_review]. done.
Qed.
Lemma safe_with_review {A} actor (k : string * Id → op A) : (∀ r, r.1 ≠ REF_MAIN → safe (k r)) →
  safe (reuse_or_submit_review hex short_digest full_name_ok clock actor ≫= k).
Proof.
  intros Hk. eapply runs_bind; [apply runs_reuse|]. intros r. apply (runs_know _ (r.1 ≠ REF_MAIN)); [done|]. intros Hr. eapply runs_weaken_pre; [|by apply Hk]. done.
Qed.
Lemma safe_latest actor : safe (latest_checkpoint_id short_digest actor).
Proof. unfold latest_checkpoint_id. solve_safe. Qed.
#[local] Hint Resolve safe_latest safe_approve_selected safe_approve_whole : safe.
Lemma safe_approve actor name paths behavior :
  safe (approve_changes hash hex encodable short_digest full_name_ok text_merge others clock actor name paths behavior).
Proof.
  apply safe_bind; [apply safe_lift|]. intros []. apply safe_bind; [apply safe_each; intros p; apply safe_lift|]. intros _. case_decide; [solve_safe|].
  apply safe_with_review. intros r Hr. solve_safe.
Qed.
Lemma approved_selection_same paths name review_head m m1 o g : same_but_reviews m m1 →
  approved_selection hex text_merge paths (feat_ref short_digest name) review_head (git m1) o g →
  approved_selection hex text_merge paths (feat_ref short_digest name) review_head (git m) o g.
Proof.
  intros Hs. rewrite (same_git m m1 Hs). unfold approved_selection. cbn [refs set_refs]. by rewrite (proj2 (proj2 Hs) (feat_ref short_digest name)).
Qed.
Lemma same_store_ok m m1 : same_but_reviews m m1 → store_ok hash (git m) → store_ok hash (git m1).
Proof. intros Hs Hok. by rewrite (same_git m m1 Hs). Qed.
(** C10: an approval of some files that goes through gives the feature, on each of them
    that differs, its merge with the submission over their merge base (or the withheld
    new file), and leaves every other file alone, except one that a selected path turns
    into a directory. *)
Theorem approval_within_selection actor name paths behavior m m' o :
  store_ok hash (git m) →
  approve_changes hash hex encodable short_digest full_name_ok text_merge others clock actor name (Some paths) behavior m = (m', Ok o) → approved_merge o = true →
  ∃ review_head, reviewed hex short_digest m actor review_head ∧
    approved_selection hex text_merge paths (feat_ref short_digest name) review_head (git m) o (git m').
Proof.
  intros Hok E Hm. unfold approve_changes in E. apply bind_inv in E as (m0 & [] & E1 & E). injection E1 as <- _.
  apply bind_inv in E as (m2 & l & E1%each_lift_inv & E). subst m2. case_decide.
  { apply bind_inv in E as (m3 & r & _ & E). apply bind_inv in E as (m4 & lt & _ & E). injection E as _ <-. done. }
  apply bind_inv in E as (m1 & r & Er & E). apply reuse_inv in Er as [Hr Hs]. case_decide; [injection E as _ <-; done|]. exists r.2. split; [done|].
  apply (approved_selection_same _ _ _ m m1); [done|]. pose proof (runs_approve_selected hash hex encodable short_digest full_name_ok text_merge others clock Hothers
    (git m1) actor name paths behavior r.2 m1 ltac:(by eapply same_store_ok) eq_refl) as [_ Hq]. rewrite E in Hq. by apply Hq.
Qed.
Lemma safe_merge_entity actor name : safe (merge_entity_changes hash hex encodable short_digest full_name_ok text_merge others clock actor name).
Proof. apply safe_bind; [apply safe_lift|]. intros []. apply safe_with_review. intros r Hr. by apply safe_merge_review. Qed.
Lemma safe_sweep prefix rows : safe (sweep_reviews prefix rows).
Proof. induction rows as [|[name status] rows IH]; cbn [sweep_reviews]; unfold delete_review_state; solve_safe. Qed.
Lemma safe_reject_each targets deleted : (∀ x, x ∈ targets → x.1.1 ≠ REF_MAIN) → safe (reject_each full_name_ok targets deleted).
Proof.
  revert deleted. induction targets as [|[[name h] ts] targets IH]; intros deleted Ht; cbn [reject_each]; [apply safe_ret|].
  apply safe_bind; [apply safe_delete, (Ht (name, h, ts)); by left|]. intros []. apply safe_bind; [apply safe_set_review|]. intros [].
  apply IH. intros x Hx. apply Ht. by right.
Qed.
Lemma safe_reject actor : safe (reject_changes hex short_digest full_name_ok actor).
Proof.
  unfold reject_changes, reconcile_reviews. apply safe_bind; [apply safe_bind; [apply safe_get|intros m; apply safe_sweep]|]. intros _.
  apply safe_bind; [apply safe_get|]. intros m. eapply runs_bind; [apply pending_reviews_names|]. intros targets.
  apply (runs_know _ (∀ x, x ∈ targets → x.1.1 ≠ REF_MAIN)); [intros g _ Ht x Hx; by eapply review_listed, Ht|]. intros Ht.
  eapply runs_weaken_pre; [|apply safe_bind; [by apply safe_reject_each|]]; [done|]. intros [id|]; [apply safe_ret|apply safe_throw].
Qed.
Lemma safe_or_none {A} (o : op A) f : safe o → safe (or_none o f).
Proof. intros Ho m Hm HP. destruct (Ho m Hm HP) as [Ha _]. unfold or_none. by destruct (o m) as [m' r]. Qed.
Lemma safe_submission actor : safe (move_agent_to_approval hex short_digest full_name_ok clock actor).
Proof. unfold move_agent_to_approval. solve_safe. Qed.
#[local] Hint Resolve safe_or_none safe_merge_entity safe_submission : safe.
Lemma safe_complete policy actor entity_id :
  safe (on_agent_complete hash hex encodable short_digest full_name_ok text_merge others clock policy actor entity_id).
Proof. unfold on_agent_complete. solve_safe. Qed.

(** * Sequences of operations *)

(** The operations of the manager. *)
Inductive Operation : Type :=
| ApplyEdit (actor path content : string) (expected_hash : option string)
| ApplyDelete (actor path : string)
| Rename (actor from to content : string)
| ManualEdit (path content : string)
| ManualDelete (path : string)
| Discard (actor : string)
| BeginGroup (label : option string)
| Stage (actor path : string) (content : option string) (group : string)
| CommitGroup (actor group : string) (tool : option string)
| RollbackGroup (actor group : string)
| Undo (actor : string)
| Redo (actor : string)
| Submit (actor : string)
| MergeAgent (actor feature_name : string)
| Resolve (actor feature_name : string) (resolutions : list (string * string))
| MergeFeatures (feature_names : list string) (options : FeatureMergeOptions)
| MergeBranches (feature_names : list string)
| Revert (feature_head : Id) (actor : string)
| RevertByName (feature_name actor : string)
| Approve (actor feature_name : string) (paths : option (list string)) (behavior : ConflictBehavior)
| Reject (actor : string)
| Complete (policy : ApprovalPolicy) (actor entity_id : string).
Definition ignore {A} (o : op A) : op () := _ ← o; mret tt.
Definition perform (o : Operation) : op () :=
  match o with
  | ApplyEdit actor path content want =>
      ignore (apply_agent_edit_with_hash hash hex encodable short_digest full_name_ok others now clock sha256_hex actor path content want)
  | ApplyDelete actor path => ignore (apply_agent_delete hash hex encodable short_digest full_name_ok others now clock actor path)
  | Rename actor from to content => ignore (rename_file hash hex encodable short_digest full_name_ok others now clock actor from to content)
  | ManualEdit path content => ignore (apply_manual_edit hash hex encodable full_name_ok others now clock path content)
  | ManualDelete path => ignore (apply_manual_delete hash hex encodable full_name_ok others now clock path)
  | Discard actor => discard_execution short_digest full_name_ok actor
  | BeginGroup label => ignore (begin_edit_group clock group_id label)
  | Stage actor path content group => stage_in_group actor path content group
  | CommitGroup actor group tool => ignore (commit_edit_group hash hex encodable short_digest full_name_ok others now clock actor group tool)
  | RollbackGroup actor group => ignore (rollback_edit_group hex short_digest full_name_ok others actor group)
  | Undo actor => ignore (undo_edit hex short_digest full_name_ok others actor)
  | Redo actor => ignore (redo_edit hex short_digest full_name_ok others actor)
  | Submit actor => ignore (reuse_or_submit_review hex short_digest full_name_ok clock actor)
  | MergeAgent actor name => ignore (merge_agent_to_feature hash hex encodable short_digest full_name_ok text_merge others clock actor name)
  | Resolve actor name resolutions => ignore (resolve_conflicts hash hex encodable short_digest full_name_ok others clock actor name resolutions)
  | MergeFeatures names options => ignore (merge_features_to_main_with_options hash hex encodable short_digest full_name_ok text_merge others clock names options)
  | MergeBranches names => ignore (merge_branch_changes hash hex encodable short_digest full_name_ok text_merge others clock names)
  | Revert feature_head actor => ignore (revert_feature_merge hash hex encodable full_name_ok text_merge others clock feature_head actor)
  | RevertByName name actor => ignore (revert_feature_by_name hash hex encodable short_digest full_name_ok text_merge others clock name actor)
  | Approve actor name paths behavior => ignore (approve_changes hash hex encodable short_digest full_name_ok text_merge others clock actor name paths behavior)
  | Reject actor => ignore (reject_changes hex short_digest full_name_ok actor)
  | Complete policy actor entity_id => ignore (on_agent_complete hash hex encodable short_digest full_name_ok text_merge others clock policy actor entity_id)
  end.
Definition perform_all (os : list Operation) m : manager := foldl (λ m o, (perform o m).1) m os.
Lemma safe_ignore {A} (o : op A) : safe o → safe (ignore o).
Proof. intros Ho. apply safe_bind; [done|]. intros a. apply safe_ret. Qed.
#[local] Hint Resolve safe_agent_edit safe_agent_delete safe_rename safe_manual_edit safe_manual_delete safe_discard safe_begin_edit_group safe_stage
  safe_commit_group safe_rollback_group safe_undo_edit safe_redo safe_reuse safe_merge_agent safe_resolve safe_merge_features safe_merge_branch
  safe_revert safe_revert_by_name safe_approve safe_reject safe_complete : safe.
Lemma safe_perform o : safe (perform o).
Proof. destruct o; cbn [perform]; try apply safe_ignore; unfold revert_feature_merge; solve_safe. Qed.
Lemma perform_all_moves os m : store_ok hash (git m) → main_moves (git m) (git (perform_all os m)).
Proof.
  revert m. induction os as [|o os IH]; intros m Hm; [done|]. destruct (safe_perform o m Hm I) as [Ha _]. etransitivity; [exact Ha|].
  apply IH. by apply Ha.
Qed.
End operations.
