(* ===== verification/FileHistory.v ===== *)
(** The history of a workspace's files: what the theorems on the object store and
    on the manager give together, and runs of the manager on small stores. *)

From S2P Require Import Prelude Strings Numbers DeltaChain GitStore GitTrees GitWalks FileManager Approval GitFacts FileManagerFacts ApprovalFacts.

(** * A concrete store

    Identifiers are numbers.  [digest] is a check sum; a hash for a theorem's
    hypotheses, injective, agrees with it on the objects of a run ([hash_of]). *)

#[export] Instance TreeEntry_eq_dec {Id} `{EqDecision Id} : EqDecision (TreeEntry Id).
Proof. solve_decision. Defined.
#[export] Instance CommitObject_eq_dec {Id} `{EqDecision Id} : EqDecision (CommitObject Id).
Proof. solve_decision. Defined.
#[export] Instance Object_eq_dec {Id} `{EqDecision Id} : EqDecision (Object Id).
Proof. solve_decision. Defined.
Definition entry_tuple {Id} (e : TreeEntry Id) : string * string * Id := (entry_mode e, entry_name e, entry_id e).
Definition of_entry_tuple {Id} (t : string * string * Id) : TreeEntry Id := {| entry_mode := t.1.1; entry_name := t.1.2; entry_id := t.2 |}.
Definition commit_tuple {Id} (c : CommitObject Id) : Id * list Id * (string * string) * (string * string) * Z * string :=
  (stored_tree c, stored_parents c, stored_author c, stored_committer c, stored_seconds c, stored_message c).
Definition of_commit_tuple {Id} (t : Id * list Id * (string * string) * (string * string) * Z * string) : CommitObject Id :=
  let '(tree, ps, a, c, s, msg) := t in
  {| stored_tree := tree; stored_parents := ps; stored_author := a; stored_committer := c; stored_seconds := s; stored_message := msg |}.
Definition object_code {Id} (o : Object Id) : string + list (string * string * Id) + (Id * list Id * (string * string) * (string * string) * Z * string) :=
  match o with Blob b => inl (inl b) | Tree es => inl (inr (entry_tuple <$> es)) | Commit c => inr (commit_tuple c) end.
Definition of_object_code {Id} (x : string + list (string * string * Id) + (Id * list Id * (string * string) * (string * string) * Z * string)) : Object Id :=
  match x with inl (inl b) => Blob b | inl (inr es) => Tree (of_entry_tuple <$> es) | inr c => Commit (of_commit_tuple c) end.
#[export] Instance Object_countable {Id} `{Countable Id} : Countable (Object Id).
Proof.
  apply (inj_countable' object_code of_object_code). intros [b|es|c]; cbn; [done| |by destruct c].
  f_equal. rewrite <-list_fmap_compose. rewrite <-(list_fmap_id es) at 2. apply list_fmap_ext. intros i e _. by destruct e.
Defined.

Definition mix (acc x : N) : N := ((acc * 1000003 + x + 7) mod 2305843009213693951)%N.
Definition mix_string (acc : N) (s : string) : N := foldl (λ a c, mix a (Ascii.N_of_ascii c)) (mix acc 256) (String.list_ascii_of_string s).
Definition digest (o : Object N) : N :=
  match o with
  | Blob b => mix_string 1 b
  | Tree es => foldl (λ a e, mix (mix_string (mix_string a (entry_mode e)) (entry_name e)) (entry_id e)) 2%N es
  | Commit c => mix_string (mix (mix_string (mix_string (foldl mix (mix 3 (stored_tree c)) (stored_parents c)) (stored_author c).1) (stored_committer c).1)
      (Z.to_N (stored_seconds c))) (stored_message c)
  end.
(** The digest on the listed objects; elsewhere a number of its own. *)
Definition bound : N := 2305843009213693951.
Definition hash_of (listed : list (Object N)) (o : Object N) : N :=
  if decide (o ∈ listed) then digest o else (bound + N.pos (encode o))%N.
Lemma hash_of_inj listed : NoDup (digest <$> listed) → Forall (λ o, (digest o < bound)%N) listed → Inj (=) (=) (hash_of listed).
Proof.
  intros Hnd Hb o o'. rewrite Forall_forall in Hb. unfold hash_of. do 2 case_decide; intros E.
  - by eapply NoDup_fmap_eq.
  - specialize (Hb o ltac:(done)). lia.
  - specialize (Hb o' ltac:(done)). lia.
  - apply (inj encode). lia.
Qed.
Definition number (id : N) : string := show_nat (Z.of_N id).
Definition always {A} (_ : A) : bool := true.
Definition dummy_digest (_ : string) : string := "0".
(** A text driver that always leaves markers. *)
Definition marking (ours base theirs : string) : string * bool := ("<<<<<<< ours" +:+ ours +:+ "=======" +:+ theirs +:+ ">>>>>>> theirs", true).
Definition alone (_ : nat) (g : GitStore N) : GitStore N := g.
Definition second (n : nat) : Z := Z.of_nat n * 1000.
Definition empty_store : GitStore N := {| objects := ∅; refs := ∅; anchor := None |}.
Definition new_manager : FileCheckpointManager (Id := N) :=
  {| git := empty_store; review_state := ∅; redo_stacks := ∅; latest_checkpoints := ∅; pending_batches := ∅; source_index := ∅; groups_begun := 0; clock_reads := 0 |}.

(** * What main holds *)

Section history.
  Context {Id : Type} `{Countable Id} (hash : Object Id → Id) (hex : Id → string) (encodable : Object Id → bool).
  Context (short_digest : string → string) (full_name_ok : string → bool) (text_merge : string → string → string → string * bool).
  Context (others : nat → GitStore Id → GitStore Id) (now : nat → Z) (clock : nat → option Z) (sha256_hex : string → string) (group_id : Z → nat → string).
  Context `{!Inj (=) (=) hash} (Hothers : ∀ n g, advances hash REF_MAIN g (others n g)).
  Implicit Types m : FileCheckpointManager (Id := Id).

(** C6: whatever the operations and the other writers, main's head stays in main's
    history and no object is lost. *)
Theorem main_only_moves_forward os m h :
  store_ok hash (git m) → refs (git m) !! REF_MAIN = Some h →
  let m' := perform_all hash hex encodable short_digest full_name_ok text_merge others now clock sha256_hex group_id os m in
  store_ok hash (git m') ∧ objects (git m) ⊆ objects (git m') ∧ ∃ h', refs (git m') !! REF_MAIN = Some h' ∧ history (objects (git m')) h' h.
Proof.
  intros Hok Hh m'. destruct (perform_all_moves hash hex encodable short_digest full_name_ok text_merge others now clock sha256_hex group_id Hothers os m Hok) as [H1 H2].
  destruct (H1 Hok). split; [done|]. split; [done|]. by apply H2.
Qed.
(** C7: a merge of a feature that goes through puts on main the three-way merge of the
    files of main and of the feature's head over their merge base, with both heads as
    parents. *)
Theorem clean_merge_is_three_way name actor m m' o :
  store_ok hash (git m) → merge_feature_into_main hash hex encodable short_digest full_name_ok text_merge others clock name actor m = (m', Ok o) →
  merged_main hex text_merge (feat_ref short_digest name) (git m) o (git m').
Proof.
  intros Hok E. destruct (runs_merge_main hash hex encodable short_digest full_name_ok text_merge others clock Hothers (git m) name actor m Hok eq_refl) as [_ Hq].
  rewrite E in Hq. by apply Hq.
Qed.
(** C8: reverting the feature right after its merge gives main the files it had, when
    the merge took each file from one side. *)
Theorem revert_restores_main name actor actor' m m1 m2 o1 o2 h feature_head :
  store_ok hash (git m) → refs (git m) !! REF_MAIN = Some h →
  merge_feature_into_main hash hex encodable short_digest full_name_ok text_merge others clock name actor m = (m1, Ok o1) →
  merge_commit_id o1 ≠ h → merge_parents o1 = [h; feature_head] → h ≠ feature_head →
  (∀ p, files_at (git m1) (Some (merge_commit_id o1)) p = files_at (git m1) (Some h) p ∨
        files_at (git m1) (Some (merge_commit_id o1)) p = files_at (git m1) (Some feature_head) p) →
  revert_feature_on_main hash hex encodable full_name_ok text_merge others clock feature_head actor' m1 = (m2, Ok o2) →
  refs (git m2) !! REF_MAIN = Some (merge_commit_id o2) ∧ (∀ p, files_at (git m2) (Some (merge_commit_id o2)) p = files_at (git m1) (Some h) p) ∧
  ((∃ p, files_at (git m1) (Some (merge_commit_id o1)) p ≠ files_at (git m1) (Some h) p) →
    ∃ c, objects (git m2) !! merge_commit_id o2 = Some (Commit c) ∧ stored_parents c = [merge_commit_id o1]).
Proof.
  intros Hok Hh E1 Hne Hps Hhf Hsides E2.
  destruct (runs_merge_main hash hex encodable short_digest full_name_ok text_merge others clock Hothers (git m) name actor m Hok eq_refl) as [Ha1 Hq1].
  rewrite E1 in Ha1, Hq1. cbn [fst snd] in *. destruct (proj1 Ha1 Hok) as [Hok1 _].
  destruct (Hq1 o1 eq_refl) as (fh & base & _ & Hps' & Hr1 & (Hch & Hcf) & _ & Hc). rewrite Hh in Hps', Hch, Hc. rewrite Hps in Hps'. injection Hps' as <-.
  destruct Hc as [Hc|(c & Hc & Hcp)]; [congruence|].
  destruct (runs_revert_main hash hex encodable full_name_ok text_merge others clock Hothers _ feature_head actor' m1 Hok1 Hr1) as [Ha2 Hq2].
  rewrite E2 in Ha2, Hq2. cbn [fst snd] in *. destruct (proj1 Ha2 Hok1) as [_ Hsub].
  destruct (Hq2 o2 eq_refl) as (mh & ab & Emh & Hr2 & (c2 & _ & _ & _ & Hab) & Hm & Hnew). assert (mh = merge_commit_id o1) as -> by congruence. split; [done|].
  assert (Hc' : objects (git m2) !! merge_commit_id o1 = Some (Commit c)) by by eapply lookup_weaken.
  rewrite (Hab c Hc') in Hm by (rewrite Hcp, Hps; right; by left).
  assert (Hpre : pre_merge (git m2) feature_head (merge_commit_id o1) = Some h).
  { unfold pre_merge. rewrite Hc', Hcp, Hps. cbn. by rewrite decide_False. }
  assert (Hw : ∀ id p, has_commit id (git m1) → files_at (git m2) (Some id) p = files_at (git m1) (Some id) p).
  { intros id p Hid. apply (files_at_weaken hash hex); [done|done|by intros id' [= <-]]. }
  assert (Hmc : has_commit (merge_commit_id o1) (git m1)) by by exists c.
  assert (Hfiles : ∀ p, files_at (git m2) (Some (merge_commit_id o2)) p = files_at (git m1) (Some h) p).
  { intros p. destruct (Hm p) as [_ ->]. rewrite Hpre. unfold outcome_at. rewrite (Hw feature_head), (Hw h), (Hw (merge_commit_id o1)) by (done || by apply Hch).
    unfold merge_file_contents. destruct (Hsides p) as [->| ->]; repeat case_decide; cbn [merged_bytes]; congruence. }
  split; [done|]. intros [p Hp]. destruct Hnew as [Hsame|?]; [|done]. destruct Hp. by rewrite <-Hfiles, Hsame, Hw.
Qed.
End history.

(** * Undo and redo *)

Section undo.
  Context {Id : Type} `{Countable Id} (hex : Id → string) (short_digest : string → string) (full_name_ok : string → bool).
  Context (others : nat → GitStore Id → GitStore Id) (actor : string).
  #[local] Notation line := (edit_ref short_digest actor).
  (** The others leave the actor's line alone. *)
  Context (Hothers : ∀ n g, objects g ⊆ objects (others n g) ∧ refs (others n g) !! line = refs g !! line).
  Implicit Types m : FileCheckpointManager (Id := Id).

Lemma commit_at m id c : objects (git m) !! id = Some (Commit c) → commit_of hex id m = (m, Ok (of_stored id c)).
Proof. intros Hc. unfold commit_of, from_git, on_git, read_commit, find_data. rewrite Hc. cbn. by rewrite set_git_same. Qed.
Definition moved (n : nat) (id : Id) m : FileCheckpointManager :=
  set_git (set_refs (<[line := id]> (refs (others n (git m)))) (others n (git m))) m.
Lemma swap_line n id m : ref_full_name full_name_ok line = Ok tt →
  on_git_swap (compare_and_swap full_name_ok line (refs (git m) !! line) id) (set_git (others n (git m)) m) = (moved n id m, Ok true).
Proof.
  intros Hf. unfold on_git_swap, compare_and_swap, moved. cbn. rewrite Hf. rewrite decide_True by (by rewrite (proj2 (Hothers n (git m)))). done.
Qed.
Lemma swap_line_once n id m : ref_full_name full_name_ok line = Ok tt →
  on_git (compare_and_swap full_name_ok line (refs (git m) !! line) id) (set_git (others n (git m)) m) = (moved n id m, Ok tt).
Proof.
  intros Hf. unfold on_git, compare_and_swap, moved. cbn. rewrite Hf. rewrite decide_True by (by rewrite (proj2 (Hothers n (git m)))). done.
Qed.

(** C9: undoing the last edit and redoing it leads back to it. *)
Theorem undo_then_redo m h c p ps stack :
  ref_full_name full_name_ok line = Ok tt → refs (git m) !! line = Some h → objects (git m) !! h = Some (Commit c) → stored_parents c = p :: ps →
  redo_stacks m !! actor = stack → List.length (default [] stack) < MAX_REDO_ENTRIES →
  ∃ m1 m2, undo_edit hex short_digest full_name_ok others actor m = (m1, Ok p) ∧ refs (git m1) !! line = Some p ∧
    redo_edit hex short_digest full_name_ok others actor m1 = (m2, Ok h) ∧ refs (git m2) !! line = Some h ∧
    redo_stacks m2 !! actor = Some (default [] stack) ∧ latest_checkpoints m2 !! actor = Some h.
Proof.
  intros Hf Hh Hc Hps Hst Hlen. pose proof (path_of_full_name full_name_ok _ Hf) as Hpath.
  set (g1 := others (S MAX_COMMIT_CAS_RETRIES) (git m)).
  set (m1 := set_latest (<[actor := p]> (latest_checkpoints m)) (set_redo (<[actor := default [] stack ++ [h]]> (redo_stacks m)) (moved (S MAX_COMMIT_CAS_RETRIES) p m))).
  assert (Eu : undo_edit hex short_digest full_name_ok others actor m = (m1, Ok p)).
  { unfold undo_edit. cbn [undo_attempts]. rewrite (bind_Ok _ _ m m (Some h)) by (rewrite read_ref_at by done; by rewrite Hh). cbn beta iota.
    rewrite (bind_Ok _ _ m m (of_stored h c)) by by apply commit_at. cbn [parents of_stored]. rewrite Hps.
    rewrite (bind_Ok _ _ m (set_git g1 m) tt) by done. rewrite (bind_Ok _ _ _ (moved (S MAX_COMMIT_CAS_RETRIES) p m) true) by (rewrite <-Hh; by apply swap_line).
    rewrite (bind_Ok _ _ _ (set_redo (<[actor := default [] stack ++ [h]]> (redo_stacks m)) (moved (S MAX_COMMIT_CAS_RETRIES) p m)) tt); [done|].
    unfold push_redo, push_many, modify. change (redo_stacks (moved (S MAX_COMMIT_CAS_RETRIES) p m)) with (redo_stacks m). rewrite Hst.
    cbv zeta. rewrite length_app. change (List.length [h]) with 1. replace (List.length (default [] stack) + 1 - MAX_REDO_ENTRIES) with 0 by lia. done. }
  assert (Hline1 : refs (git m1) !! line = Some p) by apply lookup_insert_eq.
  assert (Hc1 : objects (git m1) !! h = Some (Commit c)) by (eapply lookup_weaken; [exact Hc|apply Hothers]).
  assert (Hredo1 : redo_stacks m1 !! actor = Some (default [] stack ++ [h])) by apply lookup_insert_eq.
  set (m2 := set_latest (<[actor := h]> (latest_checkpoints m1)) (set_redo (<[actor := default [] stack]> (redo_stacks m1)) (moved 0 h m1))).
  exists m1, m2. split; [done|]. split; [done|]. split; [|split; [apply lookup_insert_eq|split; apply lookup_insert_eq]].
  unfold redo_edit. rewrite (bind_Ok _ _ m1 m1 m1) by done. unfold last_redo. rewrite Hredo1. cbn [mbind option_bind]. rewrite last_snoc.
  rewrite (bind_Ok _ _ m1 m1 (Some p)) by (rewrite read_ref_at by done; by rewrite Hline1). rewrite (bind_Ok _ _ m1 m1 (of_stored h c)) by by apply commit_at.
  cbn [parents of_stored]. rewrite Hps. cbn [head]. rewrite decide_True by done. rewrite (bind_Ok _ _ m1 (set_git (others 0 (git m1)) m1) tt) by done.
  rewrite (bind_Ok _ _ _ (moved 0 h m1) tt).
  - rewrite (bind_Ok _ _ _ (set_redo (<[actor := default [] stack]> (redo_stacks m1)) (moved 0 h m1)) (Some h)); [done|].
    unfold pop_redo. change (redo_stacks (moved 0 h m1)) with (redo_stacks m1). rewrite Hredo1, last_snoc. by rewrite removelast_last.
  - rewrite <-Hline1. by apply swap_line_once.
Qed.
End undo.

(** * Trees and ancestors *)

Section trees.
  Context {Id : Type} `{Countable Id} (hash : Object Id → Id) (hex : Id → string) (encodable : Object Id → bool).

(** C13: building a tree applies the changes, whatever the parent: every other file
    stays, a change at a directory drops what is below it, the result reads back.
    A path through a file is what it refuses, with the encoder's refusals. *)
Theorem build_tree_correct `{!Inj (=) (=) hash} objs parent changes :
  sound hash objs → parent_ok objs parent → changes_ok changes →
  let '(objs', r) := build_tree_from_parent hash hex encodable parent changes objs in
  grows hash objs objs' ∧
  match r with
  | Ok t => ¬ clash changes (content objs parent) ∧ applied changes (content objs parent) (content objs' (Some t)) ∧
      ∃ B, tree_to_bytes hex t objs' = Ok B ∧ ∀ p, B !! p = snd <$> content objs' (Some t) p
  | Err e => (∃ r, e = InvalidInput r) ∧ clash changes (content objs parent) ∨ ∃ o, encodable o = false
  end.
Proof.
  intros Hs Hp Hc. pose proof (build_tree_ok hash hex encodable objs parent changes Hs Hp Hc) as [Hg Hr].
  destruct (build_tree_from_parent _ _ _ _ _ objs) as [objs' [t|e]]; (split; [done|]); [|done]. destruct Hr as (Hn & Ht & Ha).
  split; [done|]. split; [done|]. by apply tree_to_bytes_ok.
Qed.
(** C14: a commit is an ancestor exactly when the parents reach it, short of the anchor; the
    merge base is a common ancestor, and there is none when it finds none. *)
Theorem ancestors_decided objs stop a b :
  (is_ancestor hex objs stop a b = true ↔ a = b ∨ is_commit objs a ∧ reaches objs stop b a) ∧
  match merge_base hex objs stop a b with
  | Some m => a = b ∧ m = a ∨ is_commit objs m ∧ reaches objs stop a m ∧ reaches objs stop b m
  | None => a ≠ b ∧ ∀ m, is_commit objs m → reaches objs stop a m → reaches objs stop b m → False
  end.
Proof. split; [apply (is_ancestor_spec hash)|apply (merge_base_spec hash)]. Qed.
End trees.

(** * Runs *)

Definition run (hash : Object N → N) (os : list (Operation (Id := N))) (m : FileCheckpointManager (Id := N)) : FileCheckpointManager (Id := N) :=
  perform_all hash number always dummy_digest always marking alone second (λ n, Some (second n)) (λ s, s) (λ _ n, "g" +:+ show_nat (Z.of_nat n)) os m.
Definition result_of (hash : Object N → N) (o : Operation (Id := N)) (m : FileCheckpointManager (Id := N)) : result CheckpointError () :=
  (perform hash number always dummy_digest always marking alone second (λ n, Some (second n)) (λ s, s) (λ _ n, "g" +:+ show_nat (Z.of_nat n)) o m).2.
Definition ref_files (m : FileCheckpointManager (Id := N)) (name : string) : list (string * string) :=
  default [] (h ← refs (git m) !! name; match read_commit number h (objects (git m)) with
    | Ok c => match tree_to_bytes number (commit_tree c) (objects (git m)) with Ok B => Some (map_to_list B) | Err _ => None end | Err _ => None end).
Definition merge_one : FeatureMergeOptions := {| atomic := false; confirm_order := true |}.
Definition first_merge : list (Operation (Id := N)) := [ApplyEdit "a" "src/x" "1" None; MergeAgent "a" "f"; MergeFeatures ["f"] merge_one].

(** A file cannot take the place of its directory, not even when the move empties
    the directory. *)
Example rename_over_directory_refused :
  result_of digest (Rename "a" "src/x" "src" "1") (run digest first_merge new_manager) = Err (Validation "path collides with a file: 'src/x'").
Proof. by vm_compute. Qed.
(** An edit line starts without main's history: an edit of a file that main has
    conflicts when it is merged. *)
Example edit_of_main_conflicts :
  let m := run digest (first_merge ++ [ApplyEdit "b" "src/x" "2" None; MergeAgent "b" "f"]) new_manager in
  ref_files m "refs/wf/feat/f" = [("src/x", "<<<<<<< ours1=======2>>>>>>> theirs")] ∧
  result_of digest (MergeFeatures ["f"] merge_one) m = Err (MergeConflict "merge" ["src/x"]).
Proof. by vm_compute. Qed.
(** The previews of an atomic merge look at each feature by itself: two that
    conflict with each other pass, and the first is on main. *)
Example atomic_merge_partial :
  let m := run digest [ApplyEdit "a" "x" "1" None; MergeAgent "a" "f"; ApplyEdit "b" "x" "2" None; MergeAgent "b" "g"] new_manager in
  let o := MergeFeatures ["f"; "g"] {| atomic := true; confirm_order := true |} in
  ref_files m REF_MAIN = [] ∧ result_of digest o m = Err (PartialMerge ["f"] "merge" ["x"]) ∧ ref_files (run digest [o] m) REF_MAIN = [("x", "1")].
Proof. by vm_compute. Qed.
(** Feature [f] changes only [x]; main has [y] from another feature, before the
    merge of [f] and once more after it: the revert of [f] conflicts in [y]. *)
Example revert_conflicts_elsewhere :
  let m := run digest
    [ApplyEdit "a" "y" "1" None; MergeAgent "a" "g"; MergeFeatures ["g"] merge_one;
     ApplyEdit "b" "x" "1" None; MergeAgent "b" "f"; MergeFeatures ["f"] merge_one;
     ApplyEdit "a" "y" "2" None; MergeAgent "a" "g"; MergeFeatures ["g"] merge_one] new_manager in
  ref_files m "refs/wf/feat/f" = [("x", "1")] ∧ ref_files m REF_MAIN = [("y", "2"); ("x", "1")] ∧
  result_of digest (RevertByName "f" "me") m = Err (MergeConflict "me" ["y"]).
Proof. by vm_compute. Qed.
(** Feature [f] is merged, then main and [f] both change [x]. *)
Definition diverged : list (Operation (Id := N)) :=
  [ApplyEdit "a" "x" "1" None; MergeAgent "a" "f"; MergeFeatures ["f"] merge_one;
   ApplyEdit "a" "x" "2" None; MergeAgent "a" "g"; MergeFeatures ["g"] merge_one;
   Undo "a"; ApplyEdit "a" "x" "3" None; MergeAgent "a" "f"].
(** The conflict is resolved on the feature, main's head is then one of its
    ancestors, and yet the merge conflicts again: the merge base that the walk
    finds is an older commit. *)
Example resolved_conflict_recurs :
  let m := run digest diverged new_manager in
  result_of digest (MergeFeatures ["f"] merge_one) m = Err (MergeConflict "merge" ["x"]) ∧
  let m' := run digest [MergeFeatures ["f"] merge_one; Resolve "a" "f" [("x", "4")]] m in
  ref_files m' "refs/wf/feat/f" = [("x", "4")] ∧ ref_files m' REF_MAIN = [("x", "2")] ∧
  (main ← refs (git m') !! REF_MAIN; f ← refs (git m') !! "refs/wf/feat/f";
   Some (store_is_ancestor number main f (git m'), bool_decide (store_merge_base number main f (git m') = Some main))) = Some (true, false) ∧
  result_of digest (MergeFeatures ["f"] merge_one) m' = Err (MergeConflict "merge" ["x"]).
Proof. by vm_compute. Qed.

(** Agent [a] changes [x], which the feature has from another agent, and adds [y].
    Once [y] alone is approved, the change of [x] is beyond reach: to approve it finds
    nothing, and to approve all, where it conflicted before, ends the submission
    without it. *)
Definition withheld : list (Operation (Id := N)) :=
  [ApplyEdit "b" "x" "1" None; MergeAgent "b" "f"; ApplyEdit "a" "x" "2" None; ApplyEdit "a" "y" "1" None; Submit "a"].
Definition review_a : string := "refs/wf/review/a-2000-10527660-0".
Example withheld_change_lost :
  let m := run digest withheld new_manager in
  result_of digest (Approve "a" "f" None BehaveFail) m = Err (MergeConflict "a" ["x"]) ∧
  let m1 := run digest [Approve "a" "f" (Some ["y"]) BehaveMarker] m in
  ref_files m1 "refs/wf/feat/f" = [("y", "1"); ("x", "1")] ∧ review_state m1 !! review_a = Some Pending ∧
  ref_files (run digest [Approve "a" "f" (Some ["x"]) BehaveMarker] m1) "refs/wf/feat/f" = [("y", "1"); ("x", "1")] ∧
  let m2 := run digest [Approve "a" "f" None BehaveFail] m1 in
  ref_files m2 "refs/wf/feat/f" = [("y", "1"); ("x", "1")] ∧ review_state m2 !! review_a = Some Approved.
Proof. by vm_compute. Qed.

(** ** Hypotheses that hold *)

(** Another writer gets in between the read and the swap of the first attempt. *)
Definition intruding (hash : Object N → N) (n : nat) (g : GitStore N) : GitStore N :=
  if decide (n = MAX_COMMIT_CAS_RETRIES)
  then (attempt_commit hash number always always "refs/wf/edit/a" (refs g !! "refs/wf/edit/a") {["other" := Some (MODE_FILE, "o")]} "b" "other" 0 g).1
  else g.
Definition intruded (hash : Object N → N) : GitStore N * result GitStoreError (CommitOnRefOutcome (Id := N)) :=
  commit_on_ref hash number always always (intruding hash) "refs/wf/edit/a" {["mine" := Some (MODE_FILE, "m")]} "a" "mine" second empty_store.
(** The objects of the runs below. *)
Definition second_merge : list (Operation (Id := N)) := [ApplyEdit "a" "src/y" "2" None; MergeAgent "a" "f"].
Definition listed : list (Object N) :=
  Eval vm_compute in (map_to_list (objects (git (run digest (first_merge ++ second_merge ++ [MergeFeatures ["f"] merge_one; RevertByName "f" "me"]) new_manager)) ∪
    objects (intruded digest).1 ∪ objects (git (run digest (withheld ++ [Approve "a" "f" (Some ["y"]) BehaveMarker]) new_manager)))).*2.
Definition hash_listed : Object N → N := hash_of listed.
#[export] Instance hash_listed_inj : Inj (=) (=) hash_listed.
Proof. apply hash_of_inj; [by apply (bool_decide_unpack _); vm_compute|by apply (bool_decide_unpack _); vm_compute]. Qed.
Lemma alone_advances name n g : advances hash_listed name g (alone n g).
Proof. done. Qed.
Lemma empty_store_ok : store_ok hash_listed (git new_manager).
Proof. split; [by intros id o|by intros id c]. Qed.
Definition merged_once : FileCheckpointManager (Id := N) := run hash_listed (first_merge ++ second_merge) new_manager.
Lemma run_ok os m : store_ok hash_listed (git m) → store_ok hash_listed (git (run hash_listed os m)).
Proof.
  intros Hm. unfold run. destruct (perform_all_moves hash_listed number always dummy_digest always marking alone second (λ n, Some (second n)) (λ s, s)
    (λ _ n, "g" +:+ show_nat (Z.of_nat n)) (alone_advances REF_MAIN) os m Hm) as [Hk _]. by apply Hk.
Qed.
Lemma merged_once_ok : store_ok hash_listed (git merged_once).
Proof. exact (run_ok _ _ empty_store_ok). Qed.
Definition main_once : N := Eval vm_compute in default 0%N (refs (git merged_once) !! REF_MAIN).

Lemma changes_one path mode bytes : proper path → file_mode mode → changes_ok {[path := Some (mode, bytes)]}.
Proof. intros Hp Hm p c [<- <-]%lookup_singleton_Some. split; [done|]. by intros m b [= <- <-]. Qed.
Lemma file_mode_file : file_mode MODE_FILE.
Proof. by right; left. Qed.
Example commit_after_intruder :
  let '(g, r) := intruded hash_listed in
  (created <$> r) = Ok true ∧ ref_files (set_git g new_manager) "refs/wf/edit/a" = [("other", "o"); ("mine", "m")].
Proof. by vm_compute. Qed.
Lemma build_tree_correct_witness :
  let changes : gmap string (option (string * string)) := {["src/x" := Some (MODE_FILE, "1")]} in
  let '(objs, r) := build_tree_from_parent hash_listed number always None changes (objects empty_store) in
  grows hash_listed (objects empty_store) objs ∧
  match r with
  | Ok t => ¬ clash changes (content (objects empty_store) None) ∧ applied changes (content (objects empty_store) None) (content objs (Some t)) ∧
      ∃ B, tree_to_bytes number t objs = Ok B ∧ ∀ p, B !! p = snd <$> content objs (Some t) p
  | Err e => (∃ r, e = InvalidInput r) ∧ clash changes (content (objects empty_store) None) ∨ ∃ o : Object N, always o = false
  end.
Proof.
  apply (build_tree_correct hash_listed number always (objects empty_store) None); [by intros id o|by intros t|].
  apply changes_one; [|apply file_mode_file]. by repeat constructor.
Defined.
Lemma main_only_moves_forward_witness :
  refs (git merged_once) !! REF_MAIN = Some main_once ∧
  ∃ h', refs (git (run hash_listed [MergeFeatures ["f"] merge_one] merged_once)) !! REF_MAIN = Some h' ∧ h' ≠ main_once ∧
    history (objects (git (run hash_listed [MergeFeatures ["f"] merge_one] merged_once))) h' main_once.
Proof.
  split; [by vm_compute|]. pose proof (main_only_moves_forward hash_listed number always dummy_digest always marking alone second (λ n, Some (second n)) (λ s, s)
    (λ _ n, "g" +:+ show_nat (Z.of_nat n)) (alone_advances REF_MAIN) [MergeFeatures ["f"] merge_one] merged_once main_once merged_once_ok) as Hm.
  destruct Hm as (_ & _ & h' & Hh' & Hr); [by vm_compute|]. exists h'. split; [exact Hh'|]. split; [|exact Hr].
  intros ->. revert Hh'. clear Hr. vm_compute. intros Hh'. discriminate Hh'.
Defined.
Definition ok_of {X Y E : Type} (x : X * result E Y) : bool := match x.2 with Ok _ => true | Err _ => false end.
Lemma result_cases {X Y E : Type} (x : X * result E Y) : ok_of x = true → ∃ m o, x = (m, Ok o).
Proof. destruct x as [m [o|e]]; [by exists m, o|done]. Qed.
#[local] Notation merge_f := (merge_feature_into_main hash_listed number always dummy_digest always marking alone (λ n, Some (second n)) "f" "merge").
#[local] Notation revert_on_main := (revert_feature_on_main hash_listed number always always marking alone (λ n, Some (second n))).
Lemma merge_succeeds : ok_of (merge_f merged_once) = true.
Proof. by vm_compute. Qed.
Lemma clean_merge_is_three_way_witness :
  ∃ m' o, merge_f merged_once = (m', Ok o) ∧ merged_main number marking (feat_ref dummy_digest "f") (git merged_once) o (git m').
Proof.
  destruct (result_cases (merge_f merged_once) merge_succeeds) as (m' & o & E). exists m', o. split; [exact E|].
  exact (clean_merge_is_three_way hash_listed number always dummy_digest always marking alone (λ n, Some (second n)) (alone_advances REF_MAIN) "f" "merge" merged_once m' o merged_once_ok E).
Defined.
Definition merged_twice : FileCheckpointManager (Id := N) := (merge_f merged_once).1.
Definition feature_once : N := Eval vm_compute in default 0%N (refs (git merged_once) !! "refs/wf/feat/f").
Definition outcome_twice : GitMergeOutcome (Id := N) :=
  Eval vm_compute in match (merge_f merged_once).2 with Ok o => o | Err _ => clean_outcome 0%N [] end.
Lemma result_is {X Y E : Type} (x : X * result E Y) o : x.2 = Ok o → x = (x.1, Ok o).
Proof. destruct x as [m r]. cbn. by intros ->. Qed.
Lemma merge_outcome : merge_f merged_once = (merged_twice, Ok outcome_twice).
Proof. unfold merged_twice. apply (result_is (merge_f merged_once) outcome_twice). by vm_compute. Qed.
Definition tree_at (g : GitStore N) (id : N) : option N := match objects g !! id with Some (Commit c) => Some (stored_tree c) | _ => None end.
Lemma same_tree_files g a b p : tree_at g a = tree_at g b → files_at g (Some a) p = files_at g (Some b) p.
Proof.
  unfold tree_at, files_at, commit_content. intros E. destruct (objects g !! a) as [[]|], (objects g !! b) as [[]|]; try done. by injection E as ->.
Qed.
Lemma twice_is_feature : tree_at (git merged_twice) (merge_commit_id outcome_twice) = tree_at (git merged_twice) feature_once.
Proof. by vm_compute. Qed.
Lemma main_once_head : refs (git merged_once) !! REF_MAIN = Some main_once.
Proof. by vm_compute. Qed.
Lemma revert_succeeds : ok_of (revert_on_main feature_once "me" merged_twice) = true.
Proof. by vm_compute. Qed.
Lemma revert_restores_main_witness :
  ∃ m2 o2, revert_on_main feature_once "me" merged_twice = (m2, Ok o2) ∧ merge_commit_id o2 ≠ merge_commit_id outcome_twice ∧
    refs (git m2) !! REF_MAIN = Some (merge_commit_id o2) ∧
    ∀ p, files_at (git m2) (Some (merge_commit_id o2)) p = files_at (git merged_twice) (Some main_once) p.
Proof.
  destruct (result_cases (revert_on_main feature_once "me" merged_twice) revert_succeeds) as (m2 & o2 & E). exists m2, o2. split; [exact E|].
  destruct (revert_restores_main hash_listed number always dummy_digest always marking alone (λ n, Some (second n)) (alone_advances REF_MAIN)
    "f" "merge" "me" merged_once merged_twice m2 outcome_twice o2 main_once feature_once merged_once_ok main_once_head merge_outcome) as (H1 & H2 & _);
    [by vm_compute|by vm_compute|by vm_compute| |exact E|].
  { intros p. right. exact (same_tree_files _ _ _ p twice_is_feature). }
  split; [|by split].
  assert (refs (git (revert_on_main feature_once "me" merged_twice).1) !! REF_MAIN ≠ Some (merge_commit_id outcome_twice)) as Hn by by vm_compute.
  rewrite E in Hn. cbn [fst] in Hn. congruence.
Defined.
Definition edited_twice : FileCheckpointManager (Id := N) := run digest [ApplyEdit "a" "x" "1" None; ApplyEdit "a" "x" "2" None] new_manager.
Definition line_a : string := edit_ref dummy_digest "a".
Definition edited_head : N := Eval vm_compute in default 0%N (refs (git edited_twice) !! line_a).
Definition edited_commit : CommitObject N :=
  Eval vm_compute in match objects (git edited_twice) !! edited_head with Some (Commit c) => c | _ => of_commit_tuple (0%N, [], ("", ""), ("", ""), 0%Z, "") end.
Definition edited_parent : N := Eval vm_compute in hd 0%N (stored_parents edited_commit).
Lemma line_a_ok : ref_full_name always line_a = Ok tt.
Proof. by vm_compute. Qed.
Lemma edited_head_ok : refs (git edited_twice) !! line_a = Some edited_head.
Proof. by vm_compute. Qed.
Lemma edited_commit_ok : objects (git edited_twice) !! edited_head = Some (Commit edited_commit).
Proof. by vm_compute. Qed.
Lemma edited_redo_ok : redo_stacks edited_twice !! "a" = None.
Proof. by vm_compute. Qed.
Lemma alone_quiet n (g : GitStore N) : objects g ⊆ objects (alone n g) ∧ refs (alone n g) !! line_a = refs g !! line_a.
Proof. done. Qed.
Lemma redo_room : List.length (default [] (@None (list N))) < MAX_REDO_ENTRIES.
Proof. unfold MAX_REDO_ENTRIES. cbn. lia. Qed.
Lemma undo_then_redo_witness :
  edited_parent ≠ edited_head ∧
  ∃ m1 m2, undo_edit number dummy_digest always alone "a" edited_twice = (m1, Ok edited_parent) ∧ refs (git m1) !! line_a = Some edited_parent ∧
    redo_edit number dummy_digest always alone "a" m1 = (m2, Ok edited_head) ∧ refs (git m2) !! line_a = Some edited_head ∧
    redo_stacks m2 !! "a" = Some [] ∧ latest_checkpoints m2 !! "a" = Some edited_head.
Proof.
  split; [by vm_compute|].
  exact (undo_then_redo number dummy_digest always alone "a" alone_quiet edited_twice edited_head edited_commit edited_parent [] None
    line_a_ok edited_head_ok edited_commit_ok eq_refl edited_redo_ok redo_room).
Defined.
#[local] Notation approve_y :=
  (approve_changes hash_listed number always dummy_digest always marking alone (λ n, Some (second n)) "a" "f" (Some ["y"]) BehaveMarker).
Definition submitted : FileCheckpointManager (Id := N) := run hash_listed withheld new_manager.
Lemma submitted_ok : store_ok hash_listed (git submitted).
Proof. exact (run_ok _ _ empty_store_ok). Qed.
Lemma approve_succeeds : match (approve_y submitted).2 with Ok o => approved_merge o | Err _ => false end = true.
Proof. by vm_compute. Qed.
Lemma approval_within_selection_witness :
  ∃ m' o review_head, approve_y submitted = (m', Ok o) ∧ reviewed number dummy_digest submitted "a" review_head ∧
    approved_selection number marking ["y"] (feat_ref dummy_digest "f") review_head (git submitted) o (git m').
Proof.
  pose proof approve_succeeds as Hm. destruct (approve_y submitted) as [m' [o|e]] eqn:E; [|discriminate Hm].
  destruct (approval_within_selection hash_listed number always dummy_digest always marking alone (λ n, Some (second n)) (alone_advances REF_MAIN)
    "a" "f" ["y"] BehaveMarker submitted m' o submitted_ok E Hm) as [review_head Ha].
  exists m', o, review_head. split; [exact eq_refl|exact Ha].
Defined.
Lemma submitted_names : valid_names always submitted.
Proof.
  assert (H1 : map_Forall (λ name (_ : N), ref_full_name always name = Ok tt) (refs (git submitted))) by by apply (bool_decide_unpack _); vm_compute.
  assert (H2 : map_Forall (λ name (_ : ReviewStatus), ref_path name = Ok tt) (review_state submitted)) by by apply (bool_decide_unpack _); vm_compute.
  split; [exact H1|exact H2].
Qed.
Definition review_head_a : N := Eval vm_compute in default 0%N (refs (git submitted) !! review_a).
Definition authored (m : FileCheckpointManager (Id := N)) (id : N) (actor : string) : bool :=
  match read_commit number id (objects (git m)) with Ok c => bool_decide (trailer TRAILER_ACTOR (message c) = Some actor) | Err _ => false end.
Lemma authored_by_a : authored submitted review_head_a "a" = true.
Proof. by vm_compute. Qed.
Lemma submitted_by_a : submission number submitted "a" review_a review_head_a.
Proof.
  split; [by vm_compute|]. split; [by vm_compute|]. split; [by vm_compute|].
  pose proof authored_by_a as Ha. unfold authored in Ha. destruct (read_commit number review_head_a (objects (git submitted))) as [c|e]; [|discriminate Ha].
  exists c. split; [exact eq_refl|]. by apply bool_decide_eq_true in Ha.
Qed.
Lemma reject_exact_witness :
  ∃ R rs r, reject_changes number dummy_digest always "a" submitted = (set_review R (set_git (set_refs rs (git submitted)) submitted), r) ∧
    R !! review_a = Some Rejected ∧ rs !! review_a = None.
Proof.
  destruct (reject_exact number dummy_digest always "a" submitted submitted_names) as (R & rs & r & E & Hs & _). exists R, rs, r.
  split; [exact E|]. apply Hs. exists review_head_a. exact submitted_by_a.
Defined.
