(* ===== verification/RetryBudget.v ===== *)
(** The shared retry budget: wf-common/src/retry/budget.rs.

    A budget limits retries by count and by time, with per-branch allocations
    that may borrow from the unallocated remainder.  Every operation takes the
    lock of the budget; [consume_retry] takes it twice, once to check and once
    to commit, so parallel callers interleave between the two.  Denial reasons
    are kept as data, before formatting; [now] is the monotonic clock in
    milliseconds. *)

From S2P Require Import Prelude.

(** [TimeBudgetMode] *)
Inductive TimeBudgetMode : Type := DelayOnly | TotalTime.
#[export] Instance TimeBudgetMode_eq_dec : EqDecision TimeBudgetMode.
Proof. solve_decision. Defined.

(** [RetryBudgetEventType] *)
Inductive RetryBudgetEventType : Type := RetryConsumed | BudgetExhausted | RetryDenied | BudgetReset.

(** The formatted reasons. *)
Inductive DenyReason : Type :=
| CountExhausted (consumed max : Z)
| BranchNoPool (branch : string) (consumed allocated : Z)
| BranchPoolConsumed (branch : string)
| TimeBudgetZero
| DelayExceedsTime (remaining : Z).

(** [RetryBudgetEvent] *)
Record RetryBudgetEvent : Type := {
  event_type : RetryBudgetEventType;
  ev_retries_consumed : Z;
  ev_max_retries : option Z;
  ev_time_budget_consumed_ms : Z;
  ev_time_budget_ms : option Z;
  ev_branch_id : option string;
  ev_reason : option DenyReason;
  ev_delay_ms : option Z;
}.

(** [RetryBudgetConfig]; the callback is the event log of the model. *)
Record RetryBudgetConfig : Type := {
  max_retries : option Z;
  time_budget_ms : option Z;
  time_budget_mode : TimeBudgetMode;
}.

(** [BudgetCheckResult], [allowed_result], [denied_result] *)
Record BudgetCheckResult : Type := {
  allowed : bool;
  remaining : Z;
  reason : option DenyReason;
}.
Definition allowed_result (r : Z) : BudgetCheckResult :=
  {| allowed := true; remaining := r; reason := None |}.
Definition denied_result (r : Z) (w : DenyReason) : BudgetCheckResult :=
  {| allowed := false; remaining := r; reason := Some w |}.

(** [RetryBudgetState] *)
Record RetryBudgetState : Type := {
  total_retries : Z;
  st_retries_consumed : Z;
  retries_remaining : Z;
  st_time_budget_ms : Z;
  st_time_budget_mode : TimeBudgetMode;
  st_time_budget_consumed_ms : Z;
  st_execution_time_consumed_ms : Z;
  elapsed_time_ms : Z;
  st_is_exhausted : bool;
  total_delay_consumed_ms : Z;
  remaining_ms : Z;
}.

(** [BranchBudgetState] *)
Record BranchBudgetState : Type := {
  bs_branch_id : string;
  allocated_retries : Z;
  bs_retries_consumed : Z;
  bs_retries_remaining : Z;
}.

Definition UNLIMITED_MS : Z := u64_max.
Definition UNLIMITED_RETRIES : Z := u32_max.

(** [BranchBudget] *)
Record BranchBudget : Type := { allocated : Z; consumed : Z }.

(** [RetryBudgetInner] *)
Record RetryBudgetInner : Type := {
  retries_consumed : Z;
  time_budget_consumed_ms : Z;
  execution_time_consumed_ms : Z;
  start_time : Z;
  branch_budgets : gmap string BranchBudget;
  total_branch_allocated : Z;
}.

(** [RetryBudget::new] *)
Definition new_budget (now : Z) : RetryBudgetInner :=
  {| retries_consumed := 0; time_budget_consumed_ms := 0; execution_time_consumed_ms := 0;
     start_time := now; branch_budgets := ∅; total_branch_allocated := 0 |}.

Section budget.
  Variable config : RetryBudgetConfig.

(** [allocate_branch_budgets]: the new state and the retries per branch. *)
Definition add_branch (per : Z) (m : gmap string BranchBudget) (b : string) : gmap string BranchBudget :=
  match m !! b with
  | Some _ => m
  | None => <[b := {| allocated := per; consumed := 0 |}]> m
  end.
Definition allocate_branch_budgets (inner : RetryBudgetInner) (branch_ids : list string) :
    RetryBudgetInner * Z :=
  match branch_ids with
  | [] => (inner, 0%Z)
  | _ =>
      match max_retries config with
      | None => (inner, UNLIMITED_RETRIES)
      | Some max =>
          let per := (max / wrap32 (Z.of_nat (length branch_ids)))%Z in
          let branches := foldl (add_branch per) (branch_budgets inner) branch_ids in
          let new_count := Z.of_nat (size branches - size (branch_budgets inner)) in
          ({| retries_consumed := retries_consumed inner;
              time_budget_consumed_ms := time_budget_consumed_ms inner;
              execution_time_consumed_ms := execution_time_consumed_ms inner;
              start_time := start_time inner;
              branch_budgets := branches;
              total_branch_allocated :=
                wrap32 (total_branch_allocated inner + wrap32 (wrap32 new_count * per)) |}, per)
      end
  end.

(** [pool_size], and the retries the branches took beyond their allocation. *)
Definition pool_size (inner : RetryBudgetInner) : Z :=
  match max_retries config with
  | Some max => sat_sub max (total_branch_allocated inner)
  | None => 0
  end.
Definition over_allocation (bb : BranchBudget) : Z := sat_sub (consumed bb) (allocated bb).
Definition pool_consumed (branches : gmap string BranchBudget) : Z :=
  map_fold (λ _ bb s, wrap32 (over_allocation bb + s)) 0%Z branches.

(** Step 1 of [can_retry]: the global count. *)
Definition check_count (inner : RetryBudgetInner) : option BudgetCheckResult :=
  match max_retries config with
  | Some max =>
      if decide (max <= retries_consumed inner)%Z
      then Some (denied_result 0 (CountExhausted (retries_consumed inner) max)) else None
  | None => None
  end.

(** Step 2: the branch, with pool borrowing. *)
Definition check_branch (inner : RetryBudgetInner) (branch_id : option string) :
    option BudgetCheckResult :=
  match branch_id with
  | None => None
  | Some b =>
      match branch_budgets inner !! b with
      | None => None
      | Some bb =>
          if decide (allocated bb <= consumed bb)%Z then
            if decide (pool_size inner = 0%Z) then
              Some (denied_result 0 (BranchNoPool b (consumed bb) (allocated bb)))
            else if decide (sat_sub (pool_size inner) (pool_consumed (branch_budgets inner)) = 0%Z) then
              Some (denied_result 0 (BranchPoolConsumed b))
            else None
          else None
      end
  end.

(** Step 3: the time budget. *)
Definition check_time (inner : RetryBudgetInner) (delay_ms execution_time_ms : Z) :
    BudgetCheckResult :=
  match time_budget_ms config with
  | None => allowed_result UNLIMITED_MS
  | Some budget =>
      if decide (budget = 0%Z) then denied_result 0 TimeBudgetZero
      else
        let projected :=
          match time_budget_mode config with
          | DelayOnly => wrap64 (time_budget_consumed_ms inner + delay_ms)
          | TotalTime => wrap64 (wrap64 (time_budget_consumed_ms inner + delay_ms) + execution_time_ms)
          end in
        if decide (budget < projected)%Z then
          let r := sat_sub budget (time_budget_consumed_ms inner) in
          denied_result r (DelayExceedsTime r)
        else allowed_result (sat_sub budget projected)
  end.

(** [can_retry] *)
Definition can_retry (inner : RetryBudgetInner) (delay_ms : Z) (branch_id : option string)
    (execution_time_ms : Z) : BudgetCheckResult :=
  match check_count inner with
  | Some r => r
  | None =>
      match check_branch inner branch_id with
      | Some r => r
      | None => check_time inner delay_ms execution_time_ms
      end
  end.

(** The second critical section of [consume_retry]. *)
Definition commit_retry (inner : RetryBudgetInner) (delay_ms : Z) (branch_id : option string)
    (execution_time_ms : Z) : RetryBudgetInner :=
  let time1 := wrap64 (time_budget_consumed_ms inner + delay_ms) in
  {| retries_consumed := wrap32 (retries_consumed inner + 1);
     branch_budgets :=
       match branch_id with
       | Some b => alter (λ bb, {| allocated := allocated bb; consumed := wrap32 (consumed bb + 1) |}) b
                     (branch_budgets inner)
       | None => branch_budgets inner
       end;
     time_budget_consumed_ms :=
       match time_budget_mode config with
       | TotalTime => wrap64 (time1 + execution_time_ms)
       | DelayOnly => time1
       end;
     execution_time_consumed_ms :=
       match time_budget_mode config with
       | TotalTime => wrap64 (execution_time_consumed_ms inner + execution_time_ms)
       | DelayOnly => execution_time_consumed_ms inner
       end;
     start_time := start_time inner;
     total_branch_allocated := total_branch_allocated inner |}.

(** [emit_event] *)
Definition emit_event (inner : RetryBudgetInner) (t : RetryBudgetEventType) (branch_id : option string)
    (r : option DenyReason) (delay_ms : option Z) : RetryBudgetEvent :=
  {| event_type := t; ev_retries_consumed := retries_consumed inner;
     ev_max_retries := max_retries config;
     ev_time_budget_consumed_ms := time_budget_consumed_ms inner;
     ev_time_budget_ms := time_budget_ms config; ev_branch_id := branch_id; ev_reason := r;
     ev_delay_ms := delay_ms |}.

(** The remaining time in the answer of a granted retry. *)
Definition time_left (inner : RetryBudgetInner) : Z :=
  match time_budget_ms config with
  | Some budget => sat_sub budget (time_budget_consumed_ms inner)
  | None => UNLIMITED_MS
  end.

(** [consume_retry] by one caller: the check, then the commit. *)
Definition consume_retry (inner : RetryBudgetInner) (delay_ms : Z) (branch_id : option string)
    (execution_time_ms : Z) : RetryBudgetInner * BudgetCheckResult * RetryBudgetEvent :=
  let check := can_retry inner delay_ms branch_id execution_time_ms in
  if allowed check then
    let inner' := commit_retry inner delay_ms branch_id execution_time_ms in
    (inner', allowed_result (time_left inner'),
     emit_event inner' RetryConsumed branch_id None (Some delay_ms))
  else (inner, check, emit_event inner RetryDenied branch_id (reason check) (Some delay_ms)).

(** [record_execution_time] *)
Definition record_execution_time (inner : RetryBudgetInner) (execution_time_ms : Z) : RetryBudgetInner :=
  match time_budget_mode config with
  | DelayOnly => inner
  | TotalTime =>
      {| retries_consumed := retries_consumed inner;
         time_budget_consumed_ms := wrap64 (time_budget_consumed_ms inner + execution_time_ms);
         execution_time_consumed_ms := wrap64 (execution_time_consumed_ms inner + execution_time_ms);
         start_time := start_time inner; branch_budgets := branch_budgets inner;
         total_branch_allocated := total_branch_allocated inner |}
  end.

(** [get_retries_remaining] *)
Definition get_retries_remaining (inner : RetryBudgetInner) : Z :=
  match max_retries config with
  | Some max => sat_sub max (retries_consumed inner)
  | None => UNLIMITED_RETRIES
  end.

(** [get_state] and [is_exhausted] *)
Definition get_state (inner : RetryBudgetInner) (now : Z) : RetryBudgetState :=
  let count_exhausted := match max_retries config with
                         | Some max => bool_decide (max <= retries_consumed inner)%Z
                         | None => false end in
  let time_exhausted := match time_budget_ms config with
                        | Some budget => bool_decide (budget = 0%Z) ||
                                         bool_decide (budget < time_budget_consumed_ms inner)%Z
                        | None => false end in
  {| total_retries := default (-1)%Z (max_retries config);
     st_retries_consumed := retries_consumed inner;
     retries_remaining := get_retries_remaining inner;
     st_time_budget_ms := match time_budget_ms config with Some b => wrap_i64 b | None => -1 end;
     st_time_budget_mode := time_budget_mode config;
     st_time_budget_consumed_ms := time_budget_consumed_ms inner;
     st_execution_time_consumed_ms := execution_time_consumed_ms inner;
     elapsed_time_ms := (now - start_time inner)%Z;
     st_is_exhausted := count_exhausted || time_exhausted;
     total_delay_consumed_ms :=
       sat_sub (time_budget_consumed_ms inner) (execution_time_consumed_ms inner);
     remaining_ms := time_left inner |}.
Definition is_exhausted (inner : RetryBudgetInner) : bool := st_is_exhausted (get_state inner 0).

(** [get_branch_budget_state] *)
Definition get_branch_budget_state (inner : RetryBudgetInner) (branch_id : string) :
    option BranchBudgetState :=
  bb ← branch_budgets inner !! branch_id;
  Some {| bs_branch_id := branch_id; allocated_retries := allocated bb;
          bs_retries_consumed := consumed bb;
          bs_retries_remaining := sat_sub (allocated bb) (consumed bb) |}.

(** [reset] *)
Definition reset (inner : RetryBudgetInner) (reset_start_time : bool) (now : Z) :
    RetryBudgetInner * RetryBudgetEvent :=
  let inner' :=
    {| retries_consumed := 0; time_budget_consumed_ms := 0; execution_time_consumed_ms := 0;
       start_time := if reset_start_time then now else start_time inner;
       branch_budgets := ∅; total_branch_allocated := 0 |} in
  (inner', emit_event inner' BudgetReset None None None).
End budget.

(** * Sums over the branches *)

Definition branch_sum (f : BranchBudget → Z) (m : gmap string BranchBudget) : Z :=
  map_fold (λ _ bb s, f bb + s)%Z 0%Z m.

Lemma branch_sum_empty f : branch_sum f ∅ = 0%Z.
Proof. apply map_fold_empty. Qed.

Lemma branch_sum_insert f m b bb :
  m !! b = None → branch_sum f (<[b := bb]> m) = (f bb + branch_sum f m)%Z.
Proof. intros Hb. unfold branch_sum. rewrite map_fold_insert_L; [done|intros; lia|done]. Qed.

Lemma branch_sum_delete f m b bb :
  m !! b = Some bb → branch_sum f m = (f bb + branch_sum f (delete b m))%Z.
Proof. intros Hb. unfold branch_sum. rewrite (map_fold_delete_L _ _ b bb m); [done|intros; lia|done]. Qed.

Lemma branch_sum_alter f g m b bb :
  m !! b = Some bb → branch_sum f (alter g b m) = (branch_sum f m - f bb + f (g bb))%Z.
Proof.
  intros Hb. rewrite (branch_sum_delete f (alter g b m) b (g bb)), (branch_sum_delete f m b bb Hb).
  - assert (delete b (alter g b m) = delete b m) as ->; [|lia].
    apply map_eq. intros k. destruct (decide (b = k)) as [->|]; [by rewrite !lookup_delete_eq|].
    by rewrite !lookup_delete_ne, lookup_alter_ne.
  - by rewrite lookup_alter_eq, Hb.
Qed.

Lemma branch_sum_le f g m :
  (∀ b bb, m !! b = Some bb → f bb <= g bb)%Z → (branch_sum f m <= branch_sum g m)%Z.
Proof.
  induction m as [|b bb m Hb IH] using map_ind; intros Hle; [done|].
  rewrite !branch_sum_insert by done.
  pose proof (Hle b bb ltac:(apply lookup_insert_eq)).
  assert (branch_sum f m <= branch_sum g m)%Z; [|lia]. apply IH. intros k bk Hk.
  apply (Hle k). rewrite lookup_insert_ne; [done|]. intros ->. congruence.
Qed.

Lemma branch_sum_nonneg f m :
  (∀ b bb, m !! b = Some bb → 0 <= f bb)%Z → (0 <= branch_sum f m)%Z.
Proof.
  induction m as [|b bb m Hb IH] using map_ind; intros Hf; [done|].
  rewrite branch_sum_insert by done. pose proof (Hf b bb ltac:(apply lookup_insert_eq)).
  assert (0 <= branch_sum f m)%Z; [|lia]. apply IH. intros k bk Hk.
  apply (Hf k). rewrite lookup_insert_ne; [done|]. intros ->. congruence.
Qed.

Lemma branch_sum_add f g m :
  branch_sum (λ bb, f bb + g bb)%Z m = (branch_sum f m + branch_sum g m)%Z.
Proof.
  induction m as [|b bb m Hb IH] using map_ind; [done|]. rewrite !branch_sum_insert by done. lia.
Qed.

(** The wrapping sum of the code is the sum modulo 2^32. *)
Lemma pool_consumed_sum m : pool_consumed m = wrap32 (branch_sum over_allocation m).
Proof.
  unfold pool_consumed. induction m as [|b bb m Hb IH] using map_ind; [done|].
  rewrite map_fold_insert_L; [|intros; unfold wrap32; rewrite !Z.add_mod_idemp_r by lia; f_equal; lia|done].
  rewrite IH, branch_sum_insert by done. unfold wrap32. by rewrite Z.add_mod_idemp_r by lia.
Qed.

(** * Sequential use *)

(** The operations, run one at a time. *)
Inductive BudgetOp : Type :=
| OpAllocate (branch_ids : list string)
| OpConsume (delay_ms : Z) (branch_id : option string) (execution_time_ms : Z)
| OpRecord (execution_time_ms : Z)
| OpReset (reset_start_time : bool) (now : Z).

Definition run_op (config : RetryBudgetConfig) (inner : RetryBudgetInner) (o : BudgetOp) :
    RetryBudgetInner :=
  match o with
  | OpAllocate ids => (allocate_branch_budgets config inner ids).1
  | OpConsume d b e => (consume_retry config inner d b e).1.1
  | OpRecord e => record_execution_time config inner e
  | OpReset f now => (reset config inner f now).1
  end.

Definition run_ops (config : RetryBudgetConfig) (inner : RetryBudgetInner) (os : list BudgetOp) :
    RetryBudgetInner := foldl (run_op config) inner os.

(** Limits are values of their types, and no delay overflows against the time
    budget. *)
Definition config_ok (config : RetryBudgetConfig) : Prop :=
  (∀ m, max_retries config = Some m → u32 m) ∧ (∀ b, time_budget_ms config = Some b → u64 b).
Definition op_ok (config : RetryBudgetConfig) (o : BudgetOp) : Prop :=
  match o with
  | OpConsume d _ e =>
      (0 <= d)%Z ∧ (0 <= e)%Z ∧
      (∀ b, time_budget_ms config = Some b → (b + d + e <= u64_max)%Z)
  | _ => True
  end.

Record budget_inv (config : RetryBudgetConfig) (inner : RetryBudgetInner) : Prop := {
  inv_count_nonneg : (0 <= retries_consumed inner)%Z;
  inv_count : ∀ m, max_retries config = Some m → (retries_consumed inner <= m)%Z;
  inv_time : ∀ b, time_budget_ms config = Some b → time_budget_mode config = DelayOnly →
    (0 <= time_budget_consumed_ms inner <= b)%Z;
}.

Lemma can_retry_allowed config inner d b e :
  allowed (can_retry config inner d b e) = true ↔
  check_count config inner = None ∧ check_branch config inner b = None ∧
  allowed (check_time config inner d e) = true.
Proof.
  unfold can_retry. destruct (check_count config inner) as [r|] eqn:Hc.
  - assert (allowed r = false); [|split; [congruence|by intros (? & _)]].
    unfold check_count in Hc. by repeat case_match; simplify_eq.
  - destruct (check_branch config inner b) as [r|] eqn:Hb; [|tauto].
    assert (allowed r = false); [|split; [congruence|by intros (_ & ? & _)]].
    unfold check_branch in Hb. by repeat case_match; simplify_eq.
Qed.

Lemma check_count_None config inner m :
  max_retries config = Some m → check_count config inner = None ↔ (retries_consumed inner < m)%Z.
Proof. intros Hm. unfold check_count. rewrite Hm. case_decide; split; intros; (done || lia). Qed.

Lemma check_time_allowed config inner d e b :
  time_budget_ms config = Some b → time_budget_mode config = DelayOnly →
  (0 <= time_budget_consumed_ms inner <= b)%Z → (0 <= d)%Z → (b + d <= u64_max)%Z →
  allowed (check_time config inner d e) = true → (time_budget_consumed_ms inner + d <= b)%Z.
Proof.
  intros Hb Hm Ht Hd Hsafe. unfold check_time. rewrite Hb, Hm. case_decide; [done|].
  rewrite wrap64_small by mlia. case_decide; [done|]. lia.
Qed.

Lemma budget_inv_new config now : config_ok config → budget_inv config (new_budget now).
Proof.
  intros [Hm Hb]. split; simpl; [done| |].
  - intros m ?%Hm. mlia.
  - intros b ?%Hb _. mlia.
Qed.

Lemma commit_inv config inner d b e :
  config_ok config → op_ok config (OpConsume d b e) → budget_inv config inner →
  allowed (can_retry config inner d b e) = true → budget_inv config (commit_retry config inner d b e).
Proof.
  intros [Hm Hb] (Hd & He & Hsafe) [Hnn Hc Ht] (Hcount & _ & Htime)%can_retry_allowed. split; simpl.
  - unfold wrap32. pose proof (Z.mod_pos_bound (retries_consumed inner + 1) 4294967296). lia.
  - intros m Hmax. apply (check_count_None _ _ m) in Hcount; [|done]. pose proof (Hm m Hmax).
    rewrite wrap32_small by mlia. lia.
  - intros bu Hbu Hmode. rewrite Hmode. specialize (Ht bu Hbu Hmode). specialize (Hsafe bu Hbu).
    apply (check_time_allowed _ _ _ _ bu) in Htime; [|done..|lia]. pose proof (Hb bu Hbu).
    rewrite wrap64_small by mlia. lia.
Qed.

Lemma run_op_inv config inner o :
  config_ok config → op_ok config o → budget_inv config inner → budget_inv config (run_op config inner o).
Proof.
  intros Hcfg Hop Hinv. destruct o as [ids|d b e|e|f now]; cbn [run_op].
  - unfold allocate_branch_budgets. destruct ids as [|i ids]; [done|].
    destruct (max_retries config) eqn:Hm; [|done]. by destruct Hinv; split.
  - unfold consume_retry. destruct (allowed _) eqn:Ha; [|done]. by apply commit_inv.
  - unfold record_execution_time. destruct (time_budget_mode config) eqn:Hmode; [done|].
    destruct Hinv; split; simpl; [done..|congruence].
  - apply (budget_inv_new config now) in Hcfg. by destruct Hcfg; split.
Qed.

Lemma run_ops_inv config inner os :
  config_ok config → Forall (op_ok config) os → budget_inv config inner →
  budget_inv config (run_ops config inner os).
Proof.
  intros Hcfg Hos. revert inner. induction Hos as [|o os Ho _ IH]; intros inner Hinv; [done|].
  cbn [run_ops foldl]. by apply IH, run_op_inv.
Qed.

(** Used by one caller at a time, the budget holds: after any sequence of
    operations the retries consumed do not exceed the limit, and in delay-only
    mode the time consumed does not exceed the time budget. *)
Theorem sequential_budget_holds config now os (s := run_ops config (new_budget now) os) :
  config_ok config → Forall (op_ok config) os →
  (∀ m, max_retries config = Some m → (0 <= retries_consumed s <= m)%Z) ∧
  (∀ b, time_budget_ms config = Some b → time_budget_mode config = DelayOnly →
     (0 <= time_budget_consumed_ms s <= b)%Z).
Proof.
  intros Hcfg Hos.
  destruct (run_ops_inv config (new_budget now) os Hcfg Hos (budget_inv_new _ _ Hcfg)) as [? Hm Ht].
  split; [|exact Ht]. intros m ?%Hm. done.
Qed.

(** * Reservation of branch allocations *)

Section reservation.
  Variables (config : RetryBudgetConfig) (m : Z).
  Hypothesis limit : max_retries config = Some m.
  Hypothesis limit_u32 : u32 m.

Record reserve_inv (inner : RetryBudgetInner) : Prop := {
  res_alloc : total_branch_allocated inner = branch_sum allocated (branch_budgets inner);
  res_total : (total_branch_allocated inner <= m)%Z;
  res_count : retries_consumed inner = branch_sum consumed (branch_budgets inner);
  res_nonneg : ∀ b bb, branch_budgets inner !! b = Some bb → (0 <= consumed bb)%Z ∧ (0 <= allocated bb)%Z;
  res_limit : (retries_consumed inner <= m)%Z;
  res_pool : (branch_sum over_allocation (branch_budgets inner) <= m - total_branch_allocated inner)%Z;
}.

Lemma add_branches_spec per (ids : list string) (bs : gmap string BranchBudget) :
  (∀ b bb, bs !! b = Some bb → bb = {| allocated := per; consumed := 0 |}) →
  (∀ b bb, foldl (add_branch per) bs ids !! b = Some bb → bb = {| allocated := per; consumed := 0 |}) ∧
  size (foldl (add_branch per) bs ids) ≤ size bs + length ids ∧
  (∀ b, b ∈ ids ∨ is_Some (bs !! b) → is_Some (foldl (add_branch per) bs ids !! b)).
Proof.
  revert bs. induction ids as [|i ids IH]; intros bs Hbs; cbn [foldl].
  { split_and!; [done|lia|]. intros b [?%not_elem_of_nil|?]; done. }
  assert (Hadd : ∀ b bb, add_branch per bs i !! b = Some bb → bb = {| allocated := per; consumed := 0 |}).
  { intros b bb. unfold add_branch. destruct (bs !! i) as [x|] eqn:Hi; [apply Hbs|].
    destruct (decide (i = b)) as [->|]; [rewrite lookup_insert_eq; congruence|].
    rewrite lookup_insert_ne by done. apply Hbs. }
  assert (Hsz : size (add_branch per bs i) ≤ S (size bs)).
  { unfold add_branch. destruct (bs !! i) eqn:Hi; [lia|]. rewrite map_size_insert_None by done. lia. }
  destruct (IH _ Hadd) as (H1 & H2 & H3). split_and!; [done|cbn [length]; lia|].
  intros b Hb. apply H3. destruct (decide (b ∈ ids)); [by left|right].
  unfold add_branch. destruct (bs !! i) as [x|] eqn:Hi.
  - destruct Hb as [[->|?]%elem_of_cons|?]; [by rewrite Hi|done|done].
  - destruct (decide (i = b)) as [->|]; [rewrite lookup_insert_eq; eauto|].
    rewrite lookup_insert_ne by done. destruct Hb as [[->|?]%elem_of_cons|?]; done.
Qed.

Lemma branch_sum_const f bs x :
  (∀ b bb, bs !! b = Some bb → bb = x) → branch_sum f bs = (f x * Z.of_nat (size bs))%Z.
Proof.
  induction bs as [|b bb bs Hb IH] using map_ind; intros Hx; [by rewrite map_size_empty, Z.mul_0_r|].
  rewrite branch_sum_insert, map_size_insert_None by done.
  rewrite (Hx b bb) by apply lookup_insert_eq.
  rewrite IH; [lia|]. intros k bk Hk. apply (Hx k). rewrite lookup_insert_ne; [done|congruence].
Qed.

Lemma reserve_allocate now ids :
  ids ≠ [] → (Z.of_nat (length ids) <= u32_max)%Z →
  let s := (allocate_branch_budgets config (new_budget now) ids).1 in
  reserve_inv s ∧ ∀ b, b ∈ ids → is_Some (branch_budgets s !! b).
Proof.
  intros Hne Hlen. unfold allocate_branch_budgets. destruct ids as [|i ids]; [done|]. rewrite limit.
  cbn [fst branch_budgets new_budget]. set (l := i :: ids) in *. set (per := (m / _)%Z).
  assert (Hl : (1 <= Z.of_nat (length l))%Z) by (subst l; simpl; lia).
  assert (Hw : wrap32 (Z.of_nat (length l)) = Z.of_nat (length l)) by (apply wrap32_small; mlia).
  assert (Hper : (0 <= per)%Z ∧ (per * Z.of_nat (length l) <= m)%Z).
  { subst per. rewrite Hw. split; [apply Z.div_pos; mlia|]. rewrite Z.mul_comm. apply Z.mul_div_le. lia. }
  destruct (add_branches_spec per l ∅) as (Hbs & Hsz & Hin); [intros b bb; by rewrite lookup_empty|].
  rewrite map_size_empty in *. rewrite Nat.add_0_l in Hsz. set (bs := foldl (add_branch per) ∅ l) in *.
  rewrite Nat.sub_0_r.
  assert (Hnew : (0 <= Z.of_nat (size bs) * per <= m)%Z) by nia.
  assert (Htot : wrap32 (0 + wrap32 (wrap32 (Z.of_nat (size bs)) * per)) = (per * Z.of_nat (size bs))%Z).
  { rewrite (wrap32_small (Z.of_nat (size bs))) by mlia. rewrite (wrap32_small (_ * per)) by mlia. rewrite wrap32_small by mlia. lia. }
  split; [|intros b Hb; apply Hin; by left].
  split; simpl.
  - rewrite Htot. by rewrite (branch_sum_const _ bs _ Hbs).
  - rewrite Htot. lia.
  - by rewrite (branch_sum_const _ bs _ Hbs).
  - intros b bb ->%Hbs. simpl. lia.
  - mlia.
  - rewrite Htot, (branch_sum_const _ bs _ Hbs). unfold over_allocation. simpl.
    replace (sat_sub 0 per) with 0%Z by mlia. lia.
Qed.

Lemma over_nonneg bs : (0 <= branch_sum over_allocation bs)%Z.
Proof. apply branch_sum_nonneg. intros b bb _. unfold over_allocation. mlia. Qed.

(** What a passed branch check means for the pool. *)
Lemma check_branch_pool inner b bb :
  reserve_inv inner → branch_budgets inner !! b = Some bb → check_branch config inner (Some b) = None →
  (consumed bb < allocated bb)%Z ∨
  (branch_sum over_allocation (branch_budgets inner) < m - total_branch_allocated inner)%Z.
Proof.
  intros Hinv Hb Hc. unfold check_branch, pool_size in Hc.
  rewrite Hb, limit, pool_consumed_sum in Hc.
  destruct (decide (allocated bb <= consumed bb)%Z) as [Hle|Hlt]; [right|left; lia].
  destruct (decide (sat_sub m _ = 0%Z)) as [|Hpool]; [done|].
  destruct (decide (sat_sub _ (wrap32 _) = 0%Z)) as [|Hrem]; [done|].
  pose proof (over_nonneg (branch_budgets inner)). destruct Hinv.
  rewrite wrap32_small in Hrem; [mlia|].
  assert (0 <= total_branch_allocated inner)%Z; [|mlia]. rewrite res_alloc0.
  apply branch_sum_nonneg. intros k bk Hk. by apply res_nonneg0 in Hk as [_ ?].
Qed.

Lemma branch_consumed_le inner b bb :
  reserve_inv inner → branch_budgets inner !! b = Some bb →
  (consumed bb <= retries_consumed inner)%Z.
Proof.
  intros Hinv Hb. rewrite (res_count _ Hinv), (branch_sum_delete _ _ b bb Hb).
  assert (0 <= branch_sum consumed (delete b (branch_budgets inner)))%Z; [|lia].
  apply branch_sum_nonneg. intros k bk [_ Hk]%lookup_delete_Some. by apply (res_nonneg _ Hinv) in Hk as [? _].
Qed.

Lemma reserve_commit inner d b bb e :
  reserve_inv inner → branch_budgets inner !! b = Some bb →
  allowed (can_retry config inner d (Some b) e) = true →
  reserve_inv (commit_retry config inner d (Some b) e).
Proof.
  intros Hinv Hb (Hc & Hbr & _)%can_retry_allowed.
  apply (check_count_None _ _ m) in Hc; [|done].
  pose proof (check_branch_pool inner b bb Hinv Hb Hbr) as Hpool.
  pose proof (branch_consumed_le inner b bb Hinv Hb) as Hle.
  destruct (res_nonneg _ Hinv b bb Hb) as [Hc0 Ha0]. destruct Hinv.
  assert (Hw : wrap32 (consumed bb + 1) = (consumed bb + 1)%Z) by (apply wrap32_small; mlia).
  assert (Hw' : wrap32 (retries_consumed inner + 1) = (retries_consumed inner + 1)%Z)
    by (apply wrap32_small; mlia).
  split; simpl.
  - rewrite (branch_sum_alter _ _ _ b bb Hb). simpl. lia.
  - done.
  - rewrite Hw', (branch_sum_alter _ _ _ b bb Hb). simpl. rewrite Hw. lia.
  - intros k bk Hk. apply lookup_alter_Some in Hk as [(-> & bk' & Hk & ->)|[_ Hk]]; [|by apply (res_nonneg0 k)].
    simplify_eq. simpl. rewrite Hw. lia.
  - rewrite Hw'. lia.
  - rewrite (branch_sum_alter _ _ _ b bb Hb). unfold over_allocation at 2 3. simpl. rewrite Hw. mlia.
Qed.

(** The calls are made on allocated branches. *)
Definition branch_calls (calls : list (Z * string * Z)) : list BudgetOp :=
  (λ c, OpConsume c.1.1 (Some c.1.2) c.2) <$> calls.

Lemma reserve_calls inner calls :
  reserve_inv inner → (∀ c, c ∈ calls → is_Some (branch_budgets inner !! c.1.2)) →
  reserve_inv (run_ops config inner (branch_calls calls)).
Proof.
  revert inner. induction calls as [|[[d b] e] calls IH]; intros inner Hinv Hcalls; [done|].
  cbn [branch_calls fmap list_fmap run_ops foldl]. cbn [fst snd].
  destruct (Hcalls (d, b, e)) as [bb Hb]; [left|]. simpl in Hb.
  unfold run_op at 2, consume_retry. destruct (allowed _) eqn:Ha; cbn [fst].
  - apply IH; [by eapply reserve_commit|]. intros c Hc. simpl.
    destruct (Hcalls c) as [bc Hbc]; [by right|]. apply lookup_alter_is_Some. eauto.
  - apply IH; [done|]. intros c Hc. apply Hcalls. by right.
Qed.

(** A branch within its allocation is not stopped by the count limits. *)
Lemma reserved_allowed inner b bb :
  reserve_inv inner → branch_budgets inner !! b = Some bb → (consumed bb < allocated bb)%Z →
  check_count config inner = None ∧ check_branch config inner (Some b) = None.
Proof.
  intros Hinv Hb Hlt. split.
  - apply (check_count_None _ _ m limit). destruct Hinv.
    assert (Hsplit : branch_sum consumed (branch_budgets inner) =
      (branch_sum (λ bb, Z.min (consumed bb) (allocated bb)) (branch_budgets inner) +
       branch_sum over_allocation (branch_budgets inner))%Z).
    { rewrite <-branch_sum_add. apply Z.le_antisymm; apply branch_sum_le; intros k bk _;
        unfold over_allocation; mlia. }
    assert (Hmin : (branch_sum (λ bb, Z.min (consumed bb) (allocated bb)) (branch_budgets inner) <
      branch_sum allocated (branch_budgets inner))%Z); [|lia].
    rewrite !(branch_sum_delete _ _ b bb Hb).
    assert (branch_sum (λ bb, Z.min (consumed bb) (allocated bb)) (delete b (branch_budgets inner)) <=
      branch_sum allocated (delete b (branch_budgets inner)))%Z; [|lia].
    apply branch_sum_le. intros. lia.
  - unfold check_branch. rewrite Hb. by rewrite decide_False by lia.
Qed.
End reservation.

(** A branch's allocation is reserved for it: when the branches are
    allocated first and every retry is made on an allocated branch, a branch
    that has not used up its allocation is never refused by a count, whatever
    the others consumed and borrowed; only the time budget decides. *)
Theorem branch_allocation_reserved config m now ids calls b bb d e
    (s := run_ops config (new_budget now) (OpAllocate ids :: branch_calls calls)) :
  max_retries config = Some m → u32 m → ids ≠ [] → (Z.of_nat (length ids) <= u32_max)%Z →
  (∀ c, c ∈ calls → c.1.2 ∈ ids) →
  branch_budgets s !! b = Some bb → (consumed bb < allocated bb)%Z →
  can_retry config s d (Some b) e = check_time config s d e.
Proof.
  intros Hm Hu Hne Hlen Hcalls Hb Hlt.
  destruct (reserve_allocate config m Hm Hu now ids Hne Hlen) as [Hinv Hin].
  assert (Hs : reserve_inv m s).
  { apply (reserve_calls config m Hm Hu); [done|]. intros c Hc. by apply Hin, Hcalls. }
  destruct (reserved_allowed config m Hm s b bb Hs Hb Hlt) as [H1 H2].
  unfold can_retry. by rewrite H1, H2.
Qed.

(** * Parallel callers *)

(** The arguments of a call, and where a caller stands: idle, about to check,
    or past the check and about to commit. *)
Record Call : Type := { c_delay : Z; c_branch : option string; c_execution : Z }.
Inductive Caller : Type := Idle | Ready (c : Call) | Passed (c : Call).

Definition caller_check (config : RetryBudgetConfig) (s : RetryBudgetInner) (c : Call) : bool :=
  allowed (can_retry config s (c_delay c) (c_branch c) (c_execution c)).

(** One critical section of one caller. *)
Inductive par_step (config : RetryBudgetConfig) :
    RetryBudgetInner * list Caller → RetryBudgetInner * list Caller → Prop :=
| par_call s cs i c :
    cs !! i = Some Idle → par_step config (s, cs) (s, <[i := Ready c]> cs)
| par_deny s cs i c :
    cs !! i = Some (Ready c) → caller_check config s c = false →
    par_step config (s, cs) (s, <[i := Idle]> cs)
| par_pass s cs i c :
    cs !! i = Some (Ready c) → caller_check config s c = true →
    par_step config (s, cs) (s, <[i := Passed c]> cs)
| par_commit s cs i c :
    cs !! i = Some (Passed c) →
    par_step config (s, cs)
      (commit_retry config s (c_delay c) (c_branch c) (c_execution c), <[i := Idle]> cs).

Definition is_passed (c : Caller) : Prop := match c with Passed _ => True | _ => False end.
#[export] Instance is_passed_dec c : Decision (is_passed c).
Proof. destruct c; simpl; apply _. Defined.
Definition passed_count (cs : list Caller) : nat := length (filter is_passed cs).

Lemma passed_count_insert cs i c c' :
  cs !! i = Some c →
  passed_count (<[i := c']> cs) + (if decide (is_passed c) then 1 else 0) =
  passed_count cs + (if decide (is_passed c') then 1 else 0).
Proof.
  unfold passed_count. revert i. induction cs as [|a cs IH]; intros [|i] Hi; simplify_eq/=.
  - rewrite !filter_cons. repeat case_decide; simpl; lia.
  - specialize (IH i Hi). rewrite !filter_cons. repeat case_decide; simpl in *; lia.
Qed.

Lemma passed_count_le cs : passed_count cs ≤ length cs.
Proof. apply length_filter. Qed.

Section parallel.
  Variables (config : RetryBudgetConfig) (m : Z) (n : nat).
  Hypothesis limit : max_retries config = Some m.
  Hypothesis callers : 0 < n.
  Hypothesis no_overflow : (0 <= m)%Z ∧ (m + Z.of_nat n <= u32_max)%Z.

(** The retries consumed and those about to be committed. *)
Definition par_inv (x : RetryBudgetInner * list Caller) : Prop :=
  length x.2 = n ∧ (0 <= retries_consumed x.1)%Z ∧
  (retries_consumed x.1 + Z.of_nat (passed_count x.2) <= m + Z.of_nat n - 1)%Z.

Lemma par_inv_step x y : par_inv x → par_step config x y → par_inv y.
Proof.
  intros (Hlen & H0 & Hsum) Hstep. unfold par_inv.
  destruct Hstep as [s cs i c Hi|s cs i c Hi Hc|s cs i c Hi Hc|s cs i c Hi]; simpl in *;
    pose proof (passed_count_insert cs i) as Hp; rewrite length_insert.
  - specialize (Hp _ (Ready c) Hi). simpl in Hp. split_and!; [done..|]. repeat case_decide; try done. lia.
  - specialize (Hp _ Idle Hi). simpl in Hp. split_and!; [done..|]. repeat case_decide; try done. lia.
  - specialize (Hp _ (Passed c) Hi). split_and!; [done..|].
    apply can_retry_allowed in Hc as (Hc & _). apply (check_count_None _ _ m limit) in Hc.
    pose proof (passed_count_le (<[i:=Passed c]> cs)) as Hle. rewrite length_insert in Hle. lia.
  - specialize (Hp _ Idle Hi). simpl in Hp. repeat case_decide; try done.
    rewrite wrap32_small by mlia. split_and!; [done|lia|lia].
Qed.

Lemma par_inv_reachable now x :
  rtc (par_step config) (new_budget now, replicate n Idle) x → par_inv x.
Proof.
  intros Hr. assert (Hinit : par_inv (new_budget now, replicate n Idle)).
  { unfold par_inv. simpl. rewrite length_replicate. split_and!; [done|done|].
    assert (passed_count (replicate n Idle) = 0) as ->; [|lia].
    apply length_filter_0. intros c ->%elem_of_replicate_inv. simpl. tauto. }
  revert Hinit. induction Hr as [|x y z Hxy _ IH]; [done|]. intros Hx. by apply IH, (par_inv_step x).
Qed.
End parallel.

(** With [n] parallel callers the limit can be passed only by the callers
    that were between check and commit: at most [n - 1] retries too many. *)
Theorem parallel_overshoot_bound config m n now s cs :
  max_retries config = Some m → 0 < n → (0 <= m)%Z ∧ (m + Z.of_nat n <= u32_max)%Z →
  rtc (par_step config) (new_budget now, replicate n Idle) (s, cs) →
  (0 <= retries_consumed s <= m + Z.of_nat n - 1)%Z.
Proof.
  intros Hm Hn Ho Hr. apply (par_inv_reachable config m n Hm Hn Ho) in Hr as (_ & ? & ?).
  simpl in *. lia.
Qed.

(** A caller that finds room runs its call to the end. *)
Definition plain_call : Call := {| c_delay := 0; c_branch := None; c_execution := 0 |}.
Definition commit_plain (config : RetryBudgetConfig) (s : RetryBudgetInner) : RetryBudgetInner :=
  commit_retry config s 0 None 0.

Lemma plain_check config m s :
  max_retries config = Some m → time_budget_ms config = None → (retries_consumed s < m)%Z →
  caller_check config s plain_call = true.
Proof.
  intros Hm Ht Hlt. apply can_retry_allowed. split_and!; [by apply (check_count_None _ _ m)|done|].
  simpl. unfold check_time. by rewrite Ht.
Qed.

Lemma alone_call config m s :
  max_retries config = Some m → time_budget_ms config = None → (retries_consumed s < m)%Z →
  rtc (par_step config) (s, [Idle; Idle]) (commit_plain config s, [Idle; Idle]).
Proof.
  intros Hm Ht Hlt. pose proof (plain_check config m s Hm Ht Hlt) as Hc.
  eapply rtc_l; [by apply (par_call _ _ _ 0 plain_call)|]. simpl.
  eapply rtc_l; [by apply (par_pass _ _ _ 0 plain_call)|]. simpl.
  eapply rtc_l; [by apply (par_commit _ _ _ 0 plain_call)|]. done.
Qed.

Lemma reach_count config m now k :
  max_retries config = Some m → time_budget_ms config = None → (m <= u32_max)%Z →
  (Z.of_nat k <= m)%Z →
  ∃ s, rtc (par_step config) (new_budget now, [Idle; Idle]) (s, [Idle; Idle]) ∧
    retries_consumed s = Z.of_nat k.
Proof.
  intros Hm Ht Hu. induction k as [|k IH]; intros Hk; [by exists (new_budget now)|].
  destruct IH as (s & Hs & Hc); [lia|]. exists (commit_plain config s). split.
  - etrans; [exact Hs|]. apply (alone_call config m); [done|done|lia].
  - simpl. rewrite Hc, wrap32_small; [lia|mlia].
Qed.

Lemma overshoot config m now :
  max_retries config = Some m → time_budget_ms config = None → (1 <= m < u32_max)%Z →
  ∃ s cs, rtc (par_step config) (new_budget now, [Idle; Idle]) (s, cs) ∧
    (retries_consumed s = m + 1)%Z.
Proof.
  intros Hm Ht Hr. destruct (reach_count config m now (Z.to_nat (m - 1))) as (s & Hs & Hc); [done|done|lia|lia|].
  pose proof (plain_check config m s Hm Ht ltac:(lia)) as Hp.
  exists (commit_plain config (commit_plain config s)), [Idle; Idle]. split.
  - etrans; [exact Hs|].
    eapply rtc_l; [by apply (par_call _ _ _ 0 plain_call)|]. simpl.
    eapply rtc_l; [by apply (par_call _ _ _ 1 plain_call)|]. simpl.
    eapply rtc_l; [by apply (par_pass _ _ _ 0 plain_call)|]. simpl.
    eapply rtc_l; [by apply (par_pass _ _ _ 1 plain_call)|]. simpl.
    eapply rtc_l; [by apply (par_commit _ _ _ 0 plain_call)|]. simpl.
    eapply rtc_l; [by apply (par_commit _ _ _ 1 plain_call)|]. done.
  - simpl. rewrite Hc, (wrap32_small (Z.of_nat (Z.to_nat (m - 1)) + 1)) by mlia. rewrite wrap32_small by mlia. lia.
Qed.

(** The bound is reached: for every limit, two parallel callers can both
    pass the check on the last retry and consume one more than the limit. *)
Theorem parallel_overshoot_reachable config m now :
  max_retries config = Some m → time_budget_ms config = None → (1 <= m < u32_max)%Z →
  ∃ s cs, rtc (par_step config) (new_budget now, replicate 2 Idle) (s, cs) ∧
    (m < retries_consumed s)%Z.
Proof.
  intros Hm Ht Hr. destruct (overshoot config m now Hm Ht Hr) as (s & cs & ? & ?).
  exists s, cs. split; [done|lia].
Qed.

(** * Witnesses *)

Definition small_budget : RetryBudgetConfig :=
  {| max_retries := Some 5%Z; time_budget_ms := Some 1000%Z; time_budget_mode := DelayOnly |}.
Definition count_budget : RetryBudgetConfig :=
  {| max_retries := Some 5%Z; time_budget_ms := None; time_budget_mode := DelayOnly |}.

Lemma small_budget_ok : config_ok small_budget.
Proof. split; intros ? [= <-]; mlia. Qed.

Lemma sequential_budget_holds_witness :
  let s := run_ops small_budget (new_budget 0)
             [OpConsume 600 None 0; OpConsume 300 None 0; OpConsume 300 None 0] in
  retries_consumed s = 2%Z ∧ (0 <= time_budget_consumed_ms s <= 1000)%Z.
Proof.
  intros s. split; [vm_compute; reflexivity|].
  apply (sequential_budget_holds small_budget 0
    [OpConsume 600 None 0; OpConsume 300 None 0; OpConsume 300 None 0] small_budget_ok).
  - repeat (constructor; [split_and!; [lia|lia|intros ? [= <-]; mlia]|]). constructor.
  - reflexivity.
  - reflexivity.
Defined.

Lemma branch_allocation_reserved_witness :
  let s := run_ops count_budget (new_budget 0)
             (OpAllocate ["a"; "b"] :: branch_calls [(0, "a", 0); (0, "a", 0); (0, "a", 0); (0, "a", 0)])%Z in
  retries_consumed s = 3%Z ∧ allowed (can_retry count_budget s 0 (Some "b") 0) = true.
Proof.
  intros s. split; [vm_compute; reflexivity|]. unfold s.
  rewrite (branch_allocation_reserved count_budget 5 0 ["a"; "b"]
    [(0, "a", 0); (0, "a", 0); (0, "a", 0); (0, "a", 0)]%Z "b" {| allocated := 2; consumed := 0 |}).
  - vm_compute. reflexivity.
  - reflexivity.
  - mlia.
  - discriminate.
  - vm_compute. discriminate.
  - intros c Hc. repeat (apply elem_of_cons in Hc as [->|Hc]; [left|]). by apply not_elem_of_nil in Hc.
  - vm_compute. reflexivity.
  - simpl. lia.
Defined.

Lemma parallel_overshoot_bound_witness :
  ∃ s cs, rtc (par_step count_budget) (new_budget 0, replicate 2 Idle) (s, cs) ∧
    retries_consumed s = 6%Z ∧ (0 <= retries_consumed s <= 5 + Z.of_nat 2 - 1)%Z.
Proof.
  destruct (overshoot count_budget 5 0) as (s & cs & Hr & Hs); [reflexivity|reflexivity|mlia|].
  exists s, cs. split; [exact Hr|]. split; [rewrite Hs; reflexivity|].
  apply (parallel_overshoot_bound count_budget 5 2 0 s cs); [reflexivity|lia|mlia|exact Hr].
Defined.

Lemma parallel_overshoot_reachable_witness :
  ∃ s cs, rtc (par_step count_budget) (new_budget 0, replicate 2 Idle) (s, cs) ∧
    (5 < retries_consumed s)%Z.
Proof. apply (parallel_overshoot_reachable count_budget 5 0); [reflexivity|reflexivity|mlia]. Defined.
