(* ===== verification/RetryPolicy.v ===== *)
(** The retry loop: wf-common/src/retry/policy.rs.

    The operation is asynchronous and effectful: the model takes the outcome of
    its [k]-th call, and for each delay whether the cancel token fired before
    the timer.  A run is the returned result together with what an observer
    sees: the number of calls and the retry descriptors, in order. *)

From S2P Require Import Prelude.

(** [RetryPolicy] *)
Record RetryPolicy : Type := {
  max_retries : Z;
  base_delay_ms : Z;
  exponential_backoff : bool;
}.

(** [RetryAttemptDescriptor] *)
Record RetryAttemptDescriptor : Type := {
  attempt : Z;
  desc_max_retries : Z;
  delay_ms : Z;
  reason : string;
}.

(** [delay_for_attempt]: [pow] and the product wrap at 64 bits. *)
Definition delay_for_attempt (p : RetryPolicy) (a : Z) : Z :=
  if exponential_backoff p then wrap64 (base_delay_ms p * wrap64 (2 ^ sat_sub a 1))
  else base_delay_ms p.

Section retry.
  Context {T E : Type}.
  (** [should_retry], [reason], the error paired with the token, and the
      environment: the outcome of call [k], and whether the token fires during
      the delay after call [k]. *)
  Variable should_retry : result E T → bool.
  Variable reason_of : result E T → string.
  Variable cancel_err : option E.
  Variable operation : nat → result E T.
  Variable fires : nat → bool.

(** What a run returns and shows. *)
Record Run : Type := {
  returned : result E T;
  calls : nat;
  observed : list RetryAttemptDescriptor;
}.

(** The loop at call [k], which is [attempt] as well; [left] is
    [max_retries - attempt]. *)
Fixpoint retry_loop (p : RetryPolicy) (left k : nat) : Run :=
  let r := operation k in
  let stop := {| returned := r; calls := S k; observed := [] |} in
  if negb (should_retry r) then stop
  else
    match left with
    | 0 => stop
    | S left' =>
        let a := Z.of_nat (S k) in
        let d := {| attempt := a; desc_max_retries := max_retries p;
                    delay_ms := delay_for_attempt p a; reason := reason_of r |} in
        match cancel_err with
        | Some e =>
            if fires k then {| returned := Err e; calls := S k; observed := [d] |}
            else let run := retry_loop p left' (S k) in
                 {| returned := returned run; calls := calls run; observed := d :: observed run |}
        | None =>
            let run := retry_loop p left' (S k) in
            {| returned := returned run; calls := calls run; observed := d :: observed run |}
        end
    end.

(** [execute_with_retry_observed] *)
Definition execute_with_retry_observed (policy : option RetryPolicy) : Run :=
  match policy with
  | None => {| returned := operation 0; calls := 1; observed := [] |}
  | Some p => retry_loop p (Z.to_nat (max_retries p)) 0
  end.
End retry.

(** [execute_with_retry]: the same without labels and callback. *)
Definition execute_with_retry {T E} (should_retry : result E T → bool) (cancel_err : option E)
    (operation : nat → result E T) (fires : nat → bool) (policy : option RetryPolicy) : result E T :=
  returned (execute_with_retry_observed should_retry (λ _, "") cancel_err operation fires policy).

(** * Correctness *)

Section retry_spec.
  Context {T E : Type}.
  Variable should_retry : result E T → bool.
  Variable reason_of : result E T → string.
  Variable cancel_err : option E.
  Variable operation : nat → result E T.
  Variable fires : nat → bool.

  Notation loop := (retry_loop should_retry reason_of cancel_err operation fires).

(** The descriptor observed after call [j]. *)
Definition descriptor (p : RetryPolicy) (j : nat) : RetryAttemptDescriptor :=
  {| attempt := Z.of_nat (S j); desc_max_retries := max_retries p;
     delay_ms := delay_for_attempt p (Z.of_nat (S j)); reason := reason_of (operation j) |}.

(** The token cuts the delay after call [j] short. *)
Definition cancelled_after (j : nat) : Prop := is_Some cancel_err ∧ fires j = true.

(** How a run from call [k] ended: by a result that is final, or by the token. *)
Definition run_ends (p : RetryPolicy) (left k : nat) (r : Run) : Prop :=
  ∃ n, n ≤ left ∧ calls r = S (k + n) ∧
    (∀ j, k ≤ j < k + n → should_retry (operation j) = true ∧ ¬ cancelled_after j) ∧
    ((returned r = operation (k + n) ∧ observed r = descriptor p <$> seq k n ∧
        (should_retry (operation (k + n)) = true → n = left)) ∨
     (∃ e, cancel_err = Some e ∧ returned r = Err e ∧ fires (k + n) = true ∧ n < left ∧
        should_retry (operation (k + n)) = true ∧ observed r = descriptor p <$> seq k (S n))).

Lemma run_ends_step p left k r :
  should_retry (operation k) = true → ¬ cancelled_after k → run_ends p left (S k) r →
  run_ends p (S left) k
    {| returned := returned r; calls := calls r; observed := descriptor p k :: observed r |}.
Proof.
  intros Hs Hnc (n & Hn & Hcalls & Hprev & Hend). exists (S n).
  replace (k + S n) with (S k + n) by lia. simpl in *. split_and!; [lia|lia| |].
  - intros j Hj. destruct (decide (j = k)) as [->|]; [done|]. apply Hprev. lia.
  - destruct Hend as [(Hr & Ho & Hl)|(e & He & Hr & Hf & Hlt & Hsn & Ho)]; [left|right].
    + split_and!; [done|by rewrite Ho|]. intros. f_equal. auto.
    + exists e. split_and!; [done..|lia|done|by rewrite Ho].
Qed.

Lemma retry_loop_ends p left k : run_ends p left k (loop p left k).
Proof.
  revert k. induction left as [|left IH]; intros k; cbn [retry_loop].
  - destruct (should_retry (operation k)) eqn:Hs; simpl;
      (exists 0; rewrite Nat.add_0_r; split_and!; [done|done|lia|left; split_and!; done]).
  - destruct (should_retry (operation k)) eqn:Hs; simpl.
    + destruct cancel_err as [e|] eqn:Hc; [destruct (fires k) eqn:Hf|].
      * exists 0. rewrite Nat.add_0_r. split_and!; [lia|done|lia|].
        right. exists e. split_and!; [done..|lia|done|done].
      * apply run_ends_step; [done| |apply IH]. unfold cancelled_after. intros [_ ?]. congruence.
      * apply run_ends_step; [done| |apply IH]. unfold cancelled_after. rewrite Hc. by intros [[? [=]] _].
    + exists 0. rewrite Nat.add_0_r. split_and!; [lia|done|lia|left; split_and!; [done..|congruence]].
Qed.
End retry_spec.

(** The retry loop makes at most [max_retries + 1] calls.  It returns the
    first result that is not retryable, or the last one when the retries are
    used up, after a delay for each retry that the observer saw announced with
    its number and length; or the cancel error, when the token fires during a
    delay, with no call after it. *)
Theorem execute_with_retry_correct {T E} should_retry reason_of (cancel_err : option E)
    (operation : nat → result E T) fires p
    (r := execute_with_retry_observed should_retry reason_of cancel_err operation fires (Some p)) :
  ∃ n, n ≤ Z.to_nat (max_retries p) ∧ calls r = S n ∧
    (∀ j, j < n → should_retry (operation j) = true ∧ ¬ cancelled_after cancel_err fires j) ∧
    ((returned r = operation n ∧ observed r = descriptor reason_of operation p <$> seq 0 n ∧
        (should_retry (operation n) = true → n = Z.to_nat (max_retries p))) ∨
     (∃ e, cancel_err = Some e ∧ returned r = Err e ∧ fires n = true ∧
        n < Z.to_nat (max_retries p) ∧ should_retry (operation n) = true ∧
        observed r = descriptor reason_of operation p <$> seq 0 (S n))).
Proof.
  destruct (retry_loop_ends should_retry reason_of cancel_err operation fires p
    (Z.to_nat (max_retries p)) 0) as (n & ? & ? & Hj & ?).
  exists n. split_and!; [done|done| |done]. intros j Hjn. apply Hj. lia.
Qed.

(** The announced delays double as long as they fit 64 bits. *)
Lemma delay_exact p a :
  exponential_backoff p = true → (1 <= a)%Z → (0 <= base_delay_ms p)%Z → (a <= 64)%Z →
  (base_delay_ms p * 2 ^ (a - 1) <= u64_max)%Z →
  delay_for_attempt p a = (base_delay_ms p * 2 ^ (a - 1))%Z.
Proof.
  intros He Ha Hb Ha64 Hfit. unfold delay_for_attempt. rewrite He.
  replace (sat_sub a 1) with (a - 1)%Z by mlia.
  assert (0 < 2 ^ (a - 1))%Z by (apply Z.pow_pos_nonneg; lia).
  assert (2 ^ (a - 1) <= 2 ^ 63)%Z by (apply Z.pow_le_mono_r; lia).
  rewrite (wrap64_small (2 ^ (a - 1))) by (unfold u64, u64_max; lia).
  apply wrap64_small. unfold u64 in *. nia.
Qed.

(** Backoff delays grow strictly from one retry to the next, until a
    delay no longer fits 64 bits. *)
Theorem delay_increases p a :
  exponential_backoff p = true → (1 <= a < 64)%Z → (0 < base_delay_ms p)%Z →
  (base_delay_ms p * 2 ^ a <= u64_max)%Z →
  (delay_for_attempt p (a + 1) = 2 * delay_for_attempt p a)%Z ∧
  (delay_for_attempt p a < delay_for_attempt p (a + 1))%Z.
Proof.
  intros He Ha Hb Hfit.
  assert (Hpow : (2 ^ a = 2 * 2 ^ (a - 1))%Z).
  { rewrite <-Z.pow_succ_r by lia. f_equal. lia. }
  assert (0 < 2 ^ (a - 1))%Z by (apply Z.pow_pos_nonneg; lia).
  rewrite (delay_exact p a) by (try done; nia).
  rewrite (delay_exact p (a + 1)) by (try done; replace (a + 1 - 1)%Z with a by lia; lia).
  replace (a + 1 - 1)%Z with a by lia. rewrite Hpow. nia.
Qed.

Lemma delay_increases_witness :
  let p := {| max_retries := 5; base_delay_ms := 100; exponential_backoff := true |} in
  (delay_for_attempt p (3 + 1) = 2 * delay_for_attempt p 3)%Z ∧
  (delay_for_attempt p 3 < delay_for_attempt p (3 + 1))%Z.
Proof.
  apply (delay_increases {| max_retries := 5; base_delay_ms := 100; exponential_backoff := true |} 3);
    [reflexivity|lia|reflexivity|vm_compute; discriminate].
Defined.
