(* ===== verification/CoreState.v ===== *)
(** The state machines of executions: wf-core/src/state.rs.

    [NodeStateMachine] and [WorkflowStateMachine] share one shape: a state, a
    log of transitions, and a guarded [transition].  The class [Machine] is
    that shape; its theorems are instantiated at both.  [now] is the reading of
    the clock at the call. *)

From S2P Require Import Prelude Json.

(** [StateTransition] *)
Record StateTransition : Type := { from : string; to : string; timestamp : Z }.

(** [CoreError::InvalidStateTransition] *)
Inductive CoreError : Type := InvalidStateTransition (message : string).

(** What a state type provides: [Display], [is_terminal] and
    [is_valid_transition]. *)
Class Machine (S : Type) : Type := {
  display : S → string;
  is_terminal : S → bool;
  is_valid_transition : S → S → bool;
}.

(** * Node states *)

(** [NodeState] *)
Inductive NodeState : Type :=
| NPending
| NRunning (started_at : Z)
| NCompleted (completed_at : Z) (output : option value)
| NFailed (error : string) (failed_at : Z)
| NSkipped (reason : option string)
| NPaused (paused_at : Z).

(** [impl Display for NodeState] *)
Definition node_display (s : NodeState) : string :=
  match s with
  | NPending => "Pending"
  | NRunning _ => "Running"
  | NCompleted _ _ => "Completed"
  | NFailed _ _ => "Failed"
  | NSkipped _ => "Skipped"
  | NPaused _ => "Paused"
  end.

(** [NodeStateMachine::is_terminal] *)
Definition node_is_terminal (s : NodeState) : bool :=
  match s with NCompleted _ _ | NFailed _ _ | NSkipped _ => true | _ => false end.

(** [NodeStateMachine::is_valid_transition] *)
Definition node_is_valid_transition (s new_state : NodeState) : bool :=
  match s, new_state with
  | NPending, NRunning _ => true
  | NRunning _, (NCompleted _ _ | NFailed _ _ | NSkipped _ | NPaused _) => true
  | NPaused _, NRunning _ => true
  | _, _ => false
  end.

#[export] Instance node_machine : Machine NodeState :=
  {| display := node_display; is_terminal := node_is_terminal;
     is_valid_transition := node_is_valid_transition |}.

(** * Workflow states *)

(** [WorkflowState] *)
Inductive WorkflowState : Type :=
| Created
| Running (started_at : Z) (current_node_id : option string)
| Paused (paused_at : Z) (reason : option string)
| Completed (completed_at : Z) (res : option value)
| Failed (error : string) (failed_at : Z)
| Cancelled (cancelled_at : Z) (reason : option string).

(** [impl Display for WorkflowState] *)
Definition workflow_display (s : WorkflowState) : string :=
  match s with
  | Created => "Created"
  | Running _ _ => "Running"
  | Paused _ _ => "Paused"
  | Completed _ _ => "Completed"
  | Failed _ _ => "Failed"
  | Cancelled _ _ => "Cancelled"
  end.

(** [WorkflowStateMachine::is_terminal] *)
Definition workflow_is_terminal (s : WorkflowState) : bool :=
  match s with Completed _ _ | Failed _ _ | Cancelled _ _ => true | _ => false end.

(** [WorkflowStateMachine::is_valid_transition] *)
Definition workflow_is_valid_transition (s new_state : WorkflowState) : bool :=
  match s, new_state with
  | Created, Running _ _ => true
  | Running _ _, (Paused _ _ | Completed _ _ | Failed _ _ | Cancelled _ _) => true
  | Paused _ _, (Running _ _ | Cancelled _ _) => true
  | _, _ => false
  end.

#[export] Instance workflow_machine : Machine WorkflowState :=
  {| display := workflow_display; is_terminal := workflow_is_terminal;
     is_valid_transition := workflow_is_valid_transition |}.

(** * The machines *)

(** The state and log of a machine. *)
Record Logged (S : Type) : Type := { state : S; transition_log : list StateTransition }.
Arguments state {S} _.
Arguments transition_log {S} _.

(** [transition] *)
Definition transition {S} `{Machine S} (m : Logged S) (new_state : S) (now : Z) :
    Logged S * result CoreError () :=
  if is_terminal (state m) then
    (m, Err (InvalidStateTransition
               ("cannot transition from terminal state: " +:+ display (state m))))
  else if negb (is_valid_transition (state m) new_state) then
    (m, Err (InvalidStateTransition
               ("cannot transition from " +:+ display (state m) +:+ " to " +:+ display new_state)))
  else
    ({| state := new_state;
        transition_log := transition_log m ++
          [{| from := display (state m); to := display new_state; timestamp := now |}] |}, Ok tt).

(** [NodeStateMachine] *)
Record NodeStateMachine : Type := { node_id : string; node_log : Logged NodeState }.

(** [NodeStateMachine::new] *)
Definition new_node (id : string) : NodeStateMachine :=
  {| node_id := id; node_log := {| state := NPending; transition_log := [] |} |}.

(** [NodeStateMachine::transition] *)
Definition node_transition (m : NodeStateMachine) (new_state : NodeState) (now : Z) :
    NodeStateMachine * result CoreError () :=
  let '(l, r) := transition (node_log m) new_state now in
  ({| node_id := node_id m; node_log := l |}, r).

(** [ErrorRecord] *)
Record ErrorRecord : Type := { error : string; error_at : Z }.

(** [WorkflowStateMachine] *)
Record WorkflowStateMachine : Type := {
  execution_id : string;
  workflow_log : Logged WorkflowState;
  error_records : list ErrorRecord;
}.

(** [WorkflowStateMachine::new] *)
Definition new_workflow (id : string) : WorkflowStateMachine :=
  {| execution_id := id; workflow_log := {| state := Created; transition_log := [] |};
     error_records := [] |}.

(** [WorkflowStateMachine::transition] *)
Definition workflow_transition (m : WorkflowStateMachine) (new_state : WorkflowState) (now : Z) :
    WorkflowStateMachine * result CoreError () :=
  let '(l, r) := transition (workflow_log m) new_state now in
  ({| execution_id := execution_id m; workflow_log := l; error_records := error_records m |}, r).

(** [record_error] *)
Definition record_error (m : WorkflowStateMachine) (e : string) (now : Z) : WorkflowStateMachine :=
  {| execution_id := execution_id m; workflow_log := workflow_log m;
     error_records := error_records m ++ [{| error := e; error_at := now |}] |}.

(** [start], [pause], [resume], [complete], [fail], [cancel] *)
Definition start (m : WorkflowStateMachine) (now : Z) := workflow_transition m (Running now None) now.
Definition pause (m : WorkflowStateMachine) (reason : option string) (now : Z) :=
  workflow_transition m (Paused now reason) now.
Definition resume (m : WorkflowStateMachine) (now : Z) := workflow_transition m (Running now None) now.
Definition complete (m : WorkflowStateMachine) (res : option value) (now : Z) :=
  workflow_transition m (Completed now res) now.
Definition fail (m : WorkflowStateMachine) (e : string) (now : Z) :=
  workflow_transition (record_error m e now) (Failed e now) now.
Definition cancel (m : WorkflowStateMachine) (reason : option string) (now : Z) :=
  workflow_transition m (Cancelled now reason) now.

(** [set_current_node] *)
Definition set_current_node (m : WorkflowStateMachine) (id : option string) : WorkflowStateMachine :=
  match state (workflow_log m) with
  | Running at_ _ =>
      {| execution_id := execution_id m;
         workflow_log := {| state := Running at_ id; transition_log := transition_log (workflow_log m) |};
         error_records := error_records m |}
  | _ => m
  end.

(** The public operations of a workflow machine, as a step. *)
Inductive WorkflowOp : Type :=
| OStart | OPause (r : option string) | OResume | OComplete (v : option value)
| OFail (e : string) | OCancel (r : option string) | ORecord (e : string)
| OSetNode (id : option string).

Definition workflow_op (m : WorkflowStateMachine) (o : WorkflowOp) (now : Z) : WorkflowStateMachine :=
  match o with
  | OStart => (start m now).1
  | OPause r => (pause m r now).1
  | OResume => (resume m now).1
  | OComplete v => (complete m v now).1
  | OFail e => (fail m e now).1
  | OCancel r => (cancel m r now).1
  | ORecord e => record_error m e now
  | OSetNode id => set_current_node m id
  end.

Inductive workflow_step : WorkflowStateMachine → WorkflowStateMachine → Prop :=
| workflow_step_op m o now : workflow_step m (workflow_op m o now).

Inductive node_step : NodeStateMachine → NodeStateMachine → Prop :=
| node_step_op m s now : node_step m (node_transition m s now).1.

(** * The log *)

(** The state names an execution may move between. *)
Definition workflow_edges : list (string * string) :=
  [("Created", "Running"); ("Running", "Paused"); ("Running", "Completed"); ("Running", "Failed");
   ("Running", "Cancelled"); ("Paused", "Running"); ("Paused", "Cancelled")].
Definition node_edges : list (string * string) :=
  [("Pending", "Running"); ("Running", "Completed"); ("Running", "Failed"); ("Running", "Skipped");
   ("Running", "Paused"); ("Paused", "Running")].

(** [log] is a path along [edges] from the state named [x] to the one named [y]. *)
Fixpoint log_path (edges : list (string * string)) (x : string) (log : list StateTransition) (y : string) :
    Prop :=
  match log with
  | [] => x = y
  | e :: log' => from e = x ∧ (x, to e) ∈ edges ∧ log_path edges (to e) log' y
  end.

Lemma log_path_snoc edges x log y e :
  log_path edges x log (from e) → (from e, to e) ∈ edges → to e = y →
  log_path edges x (log ++ [e]) y.
Proof.
  intros Hl He <-. revert x Hl. induction log as [|a log IH]; intros x; simpl.
  - by intros ->.
  - intros (? & ? & ?). auto.
Qed.

(** The names of valid transitions are edges. *)
Class MachineEdges (S : Type) `{Machine S} (edges : list (string * string)) : Prop :=
  valid_edge : ∀ s t, is_valid_transition s t = true → (display s, display t) ∈ edges.

#[export] Instance node_machine_edges : MachineEdges NodeState node_edges.
Proof. by intros [] []; try done; intros _; apply (bool_decide_eq_true_1 _); vm_compute. Qed.
#[export] Instance workflow_machine_edges : MachineEdges WorkflowState workflow_edges.
Proof. by intros [] []; try done; intros _; apply (bool_decide_eq_true_1 _); vm_compute. Qed.

Lemma transition_log_path {S} `{Machine S} edges `{!MachineEdges S edges} x (m : Logged S) t now :
  log_path edges x (transition_log m) (display (state m)) →
  log_path edges x (transition_log (transition m t now).1) (display (state (transition m t now).1)).
Proof.
  intros Hm. unfold transition. destruct (is_terminal (state m)) eqn:Ht; [done|].
  destruct (is_valid_transition (state m) t) eqn:Hv; [|done]. simpl.
  apply log_path_snoc; simpl; [done|by apply valid_edge|done].
Qed.

Lemma transition_terminal {S} `{Machine S} (m : Logged S) t now :
  is_terminal (state m) = true → (transition m t now).1 = m.
Proof. intros Ht. unfold transition. by rewrite Ht. Qed.

Lemma workflow_transition_log m s now :
  workflow_log (workflow_transition m s now).1 = (transition (workflow_log m) s now).1.
Proof. unfold workflow_transition. by destruct (transition (workflow_log m) s now). Qed.

Lemma workflow_transition_errors m s now :
  error_records (workflow_transition m s now).1 = error_records m.
Proof. unfold workflow_transition. by destruct (transition (workflow_log m) s now). Qed.

(** An operation transitions, leaves the log, or names the running node. *)
Lemma workflow_op_cases m o now :
  (∃ s, workflow_log (workflow_op m o now) = (transition (workflow_log m) s now).1) ∨
  workflow_log (workflow_op m o now) = workflow_log m ∨
  (∃ a i j, state (workflow_log m) = Running a i ∧
     workflow_log (workflow_op m o now) =
       {| state := Running a j; transition_log := transition_log (workflow_log m) |}).
Proof.
  destruct o; cbn [workflow_op]; unfold start, pause, resume, complete, fail, cancel;
    rewrite ?workflow_transition_log; try (left; eexists; reflexivity).
  - right; left. done.
  - unfold set_current_node. destruct (state (workflow_log m)) eqn:Hs; auto.
    right; right. eauto 8.
Qed.

Lemma workflow_op_errors m o now : error_records m `prefix_of` error_records (workflow_op m o now).
Proof.
  destruct o; cbn [workflow_op]; unfold start, pause, resume, complete, fail, cancel;
    rewrite ?workflow_transition_errors; try done; simpl.
  - by apply prefix_app_r.
  - by apply prefix_app_r.
  - unfold set_current_node. by destruct (state (workflow_log m)).
Qed.

Lemma workflow_op_log_path m o now :
  log_path workflow_edges "Created" (transition_log (workflow_log m)) (display (state (workflow_log m))) →
  log_path workflow_edges "Created" (transition_log (workflow_log (workflow_op m o now)))
    (display (state (workflow_log (workflow_op m o now)))).
Proof.
  intros Hm. destruct (workflow_op_cases m o now) as [[s ->]|[->|(a & i & j & Hs & ->)]]; [|done|].
  - apply (transition_log_path workflow_edges "Created" (workflow_log m) s now Hm).
  - by rewrite Hs in Hm.
Qed.

(** An invariant of single steps holds in every reachable state. *)
Lemma rtc_invariant {A} (R : relation A) (P : A → Prop) x y :
  (∀ a b, P a → R a b → P b) → P x → rtc R x y → P y.
Proof. intros Hstep Hx Hr. revert Hx. induction Hr; eauto. Qed.

(** The transition log of an execution is its history: from creation, each
    entry is an allowed transition that starts where the one before it ended,
    and the last ends in the present state. *)
Theorem workflow_log_history id m :
  rtc workflow_step (new_workflow id) m →
  log_path workflow_edges "Created" (transition_log (workflow_log m)) (display (state (workflow_log m))).
Proof.
  apply (rtc_invariant _ (λ m, log_path workflow_edges "Created" (transition_log (workflow_log m))
    (display (state (workflow_log m))))); [|done].
  intros a b Ha Hab. destruct Hab. by apply workflow_op_log_path.
Qed.

(** A finished execution stays finished: once completed, failed or
    cancelled, no sequence of operations changes its state or its log, and
    recorded errors are only ever added to. *)
Theorem workflow_terminal_absorbing m m' :
  is_terminal (state (workflow_log m)) = true → rtc workflow_step m m' →
  workflow_log m' = workflow_log m ∧ error_records m `prefix_of` error_records m'.
Proof.
  intros Ht. apply (rtc_invariant _ (λ x, workflow_log x = workflow_log m ∧
    error_records m `prefix_of` error_records x)); [|done].
  intros a b [Ha He] Hab. destruct Hab as [a o now]. split; [|by etrans; [|apply workflow_op_errors]].
  destruct (workflow_op_cases a o now) as [[s ->]|[->|(x & i & j & Hs & _)]]; [|done|].
  - rewrite transition_terminal; [done|]. by rewrite Ha.
  - exfalso. by rewrite <-Ha, Hs in Ht.
Qed.

(** The same for nodes: the log is a path of allowed transitions from
    Pending to the present state, and once the state is terminal no transition
    is accepted or recorded. *)
Theorem node_log_history id m :
  rtc node_step (new_node id) m →
  log_path node_edges "Pending" (transition_log (node_log m)) (display (state (node_log m))) ∧
  (is_terminal (state (node_log m)) = true → ∀ s now,
     (node_transition m s now).1 = m ∧ is_ok (node_transition m s now).2 = false).
Proof.
  intros Hr. split.
  - revert Hr. apply (rtc_invariant _ (λ m, log_path node_edges "Pending" (transition_log (node_log m))
      (display (state (node_log m))))); [|done].
    intros a b Ha Hab. destruct Hab as [a s now]. unfold node_transition.
    pose proof (transition_log_path node_edges "Pending" (node_log a) s now Ha) as Hl.
    by destruct (transition (node_log a) s now).
  - intros Ht s now. unfold node_transition, transition. rewrite Ht. by destruct m.
Qed.

(** * Witnesses *)

Definition finished : WorkflowStateMachine :=
  workflow_op (workflow_op (new_workflow "e") OStart 1) (OComplete None) 2.

Lemma finished_reachable : rtc workflow_step (new_workflow "e") finished.
Proof.
  eapply rtc_l; [apply (workflow_step_op _ OStart 1)|].
  eapply rtc_l; [apply (workflow_step_op _ (OComplete None) 2)|]. done.
Qed.

Lemma workflow_log_history_witness :
  transition_log (workflow_log finished) =
    [{| from := "Created"; to := "Running"; timestamp := 1 |};
     {| from := "Running"; to := "Completed"; timestamp := 2 |}] ∧
  log_path workflow_edges "Created" (transition_log (workflow_log finished))
    (display (state (workflow_log finished))).
Proof. split; [reflexivity|]. apply (workflow_log_history "e" finished finished_reachable). Defined.

Lemma workflow_terminal_absorbing_witness :
  workflow_log (workflow_op finished (OFail "late") 3) = workflow_log finished ∧
  error_records finished `prefix_of` error_records (workflow_op finished (OFail "late") 3).
Proof.
  apply (workflow_terminal_absorbing finished (workflow_op finished (OFail "late") 3)); [reflexivity|].
  apply rtc_once. apply workflow_step_op.
Defined.

Lemma node_log_history_witness :
  log_path node_edges "Pending" (transition_log (node_log (node_transition (new_node "n") (NRunning 1) 1).1))
    "Running".
Proof.
  apply (node_log_history "n" (node_transition (new_node "n") (NRunning 1) 1).1).
  apply rtc_once. apply node_step_op.
Defined.
