(* ===== verification/Hierarchy.v ===== *)
(** The execution tree: wf-types/src/execution/hierarchy.rs (the stored record
    and its materialised path) and wf-core/src/hierarchy.rs (the live manager).

    A record states its position once, as the path of ids from the root; the
    manager keeps ancestors, depth, root and parent side by side.  The theorems
    show the path encoding faithful and the manager's fields in agreement. *)

From S2P Require Import Prelude Strings.

(** * The materialised path *)

(** [ExecutionType] *)
Inductive ExecutionType : Type := Workflow | Agent | Chat.
#[export] Instance ExecutionType_eq_dec : EqDecision ExecutionType.
Proof. solve_decision. Defined.

(** [as_str] *)
Definition as_str (t : ExecutionType) : string :=
  match t with Workflow => "workflow" | Agent => "agent" | Chat => "chat" end.

(** [to_ascii_lowercase] and [parse] *)
Definition ascii_lower (c : ascii) : ascii :=
  let n := nat_of_ascii c in
  if bool_decide (65 ≤ n ∧ n ≤ 90) then ascii_of_nat (n + 32) else c.
Fixpoint to_ascii_lowercase (s : string) : string :=
  match s with EmptyString => "" | String c s' => String (ascii_lower c) (to_ascii_lowercase s') end.
Definition parse (s : string) : option ExecutionType :=
  let l := to_ascii_lowercase s in
  if decide (l = "workflow") then Some Workflow
  else if decide (l = "agent") then Some Agent
  else if decide (l = "chat") then Some Chat
  else None.

(** [ForkPath] *)
Record ForkPath : Type := { fork_node_id : string; branch_path_id : string }.

Definition PATH_DELIMITER : ascii := "/"%char.
Definition MAX_EXECUTION_DEPTH : Z := 10.

(** [is_valid_execution_id] *)
Definition is_valid_execution_id (id : string) : bool :=
  bool_decide (id ≠ "") && negb (contains PATH_DELIMITER id).

(** [encode_path] *)
Definition encode_path (chain : list string) : string :=
  foldl (λ path id, path +:+ String PATH_DELIMITER "" +:+ id) "" chain +:+ String PATH_DELIMITER "".

(** [decode_path] *)
Definition decode_path (path : string) : list string := filter (λ id, id ≠ "") (split PATH_DELIMITER path).

(** [ExecutionHierarchy] *)
Record ExecutionHierarchy : Type := {
  workflow_id : string;
  h_execution_id : string;
  parent_execution_type : option ExecutionType;
  h_root_execution_type : option ExecutionType;
  path : string;
  h_fork_path : option ForkPath;
}.

(** [ExecutionHierarchy::new] *)
Definition new_hierarchy (workflow_id execution_id : string) (ancestors : list string)
    (parent_type root_type : option ExecutionType) (fork_path : option ForkPath) : ExecutionHierarchy :=
  {| workflow_id := workflow_id;
     h_execution_id := execution_id;
     parent_execution_type := match last ancestors with Some _ => parent_type | None => None end;
     h_root_execution_type := root_type;
     path := encode_path (ancestors ++ [execution_id]);
     h_fork_path := fork_path |}.

(** [chain], [ancestors], [depth], [parent_execution_id], [root_execution_id] *)
Definition chain (h : ExecutionHierarchy) : list string := decode_path (path h).
Definition h_ancestors (h : ExecutionHierarchy) : list string :=
  take (length (chain h) - 1) (chain h).
Definition h_depth (h : ExecutionHierarchy) : Z :=
  wrap32 (sat_sub (Z.of_nat (length (chain h))) 1).
Definition parent_execution_id (h : ExecutionHierarchy) : option string := last (h_ancestors h).
Definition h_root_execution_id (h : ExecutionHierarchy) : string := default "" (head (chain h)).

(** * The manager *)

(** [CoreError], the variants used here. *)
Inductive HierarchyError : Type :=
| StateError (message : string)
| HierarchyDepthExceeded (depth max_depth : Z)
| HierarchyInvalidId (id : string).

(** [ChildExecutionReference], [ParentExecutionContext] *)
Record ChildExecutionReference : Type := {
  child_type : ExecutionType;
  child_id : string;
  created_at : Z;
  child_fork_path : option ForkPath;
}.
Record ParentExecutionContext : Type := { parent_id : string; parent_type : ExecutionType }.

(** [HierarchyInner] *)
Record HierarchyInner : Type := {
  execution_id : string;
  execution_type : ExecutionType;
  parent : option ParentExecutionContext;
  children : gmap string ChildExecutionReference;
  depth : Z;
  root_execution_id : string;
  root_execution_type : ExecutionType;
  ancestors : list string;
  fork_path : option ForkPath;
}.

(** [ExecutionHierarchyManager::new] *)
Definition new_manager (id : string) (t : ExecutionType) : HierarchyInner :=
  {| execution_id := id; execution_type := t; parent := None; children := ∅; depth := 0;
     root_execution_id := id; root_execution_type := t; ancestors := []; fork_path := None |}.

(** [if chain.last() != Some(&parent_id) { chain.push(parent_id) }] *)
Definition append_parent (chain : list string) (p : string) : list string :=
  if decide (last chain = Some p) then chain else chain ++ [p].

(** [for id in .. { if !is_valid_execution_id(id) { return Err(..) } }] *)
Definition check_ids (ids : list string) : result HierarchyError () :=
  for_each (λ id, if is_valid_execution_id id then Ok tt else Err (HierarchyInvalidId id)) ids.

(** [set_parent_full] *)
Definition set_parent_full (m : HierarchyInner) (p : ParentExecutionContext)
    (parent_ancestors : list string) (parent_root_type : ExecutionType) :
    result HierarchyError HierarchyInner :=
  if decide (parent_id p = execution_id m) then
    Err (StateError ("cannot set self (" +:+ parent_id p +:+ ") as parent"))
  else
    let chain := append_parent parent_ancestors (parent_id p) in
    _ ← check_ids chain;
    let new_depth := wrap32 (Z.of_nat (length chain)) in
    if decide (MAX_EXECUTION_DEPTH < new_depth)%Z then
      Err (HierarchyDepthExceeded new_depth MAX_EXECUTION_DEPTH)
    else
      Ok {| execution_id := execution_id m; execution_type := execution_type m;
            parent := Some p; children := children m; depth := new_depth;
            root_execution_id := default "" (head chain);
            root_execution_type := parent_root_type; ancestors := chain; fork_path := fork_path m |}.

(** [format!("{}:{}", child_type_str(..), child_id)] *)
Definition child_key (t : ExecutionType) (id : string) : string := as_str t +:+ ":" +:+ id.

(** [add_child], [remove_child] *)
Definition add_child (m : HierarchyInner) (c : ChildExecutionReference) : HierarchyInner :=
  {| execution_id := execution_id m; execution_type := execution_type m; parent := parent m;
     children := <[child_key (child_type c) (child_id c) := c]> (children m); depth := depth m;
     root_execution_id := root_execution_id m; root_execution_type := root_execution_type m;
     ancestors := ancestors m; fork_path := fork_path m |}.
Definition remove_child (m : HierarchyInner) (id : string) (t : ExecutionType) : HierarchyInner * bool :=
  ({| execution_id := execution_id m; execution_type := execution_type m; parent := parent m;
      children := delete (child_key t id) (children m); depth := depth m;
      root_execution_id := root_execution_id m; root_execution_type := root_execution_type m;
      ancestors := ancestors m; fork_path := fork_path m |},
   bool_decide (is_Some (children m !! child_key t id))).

(** [derive_child]: the parent with the child registered, and the child. *)
Definition derive_child (m : HierarchyInner) (cid : string) (ct : ExecutionType)
    (fp : option ForkPath) (now : Z) : result HierarchyError (HierarchyInner * HierarchyInner) :=
  if decide (execution_id m = cid) then
    Err (StateError ("cannot derive self (" +:+ cid +:+ ") as child"))
  else
    let new_depth := sat_add u32_max (depth m) 1 in
    if decide (MAX_EXECUTION_DEPTH < new_depth)%Z then
      Err (HierarchyDepthExceeded new_depth MAX_EXECUTION_DEPTH)
    else
      let chain := append_parent (ancestors m) (execution_id m) in
      _ ← check_ids (chain ++ [cid]);
      let child :=
        {| execution_id := cid; execution_type := ct;
           parent := Some {| parent_id := execution_id m; parent_type := execution_type m |};
           children := ∅; depth := new_depth; root_execution_id := root_execution_id m;
           root_execution_type := root_execution_type m; ancestors := chain; fork_path := fp |} in
      Ok (add_child m {| child_type := ct; child_id := cid; created_at := now; child_fork_path := fp |},
          child).

(** [sync_restored] *)
Definition sync_restored (m : HierarchyInner) (p : option ParentExecutionContext)
    (anc : list string) (d : Z) (root_id : string) (root_type : ExecutionType)
    (fp : option ForkPath) : HierarchyInner :=
  {| execution_id := execution_id m; execution_type := execution_type m; parent := p;
     children := children m; depth := d; root_execution_id := root_id;
     root_execution_type := root_type; ancestors := anc; fork_path := fp |}.

(** [restore] *)
Definition restore (id : string) (t : ExecutionType) (h : ExecutionHierarchy)
    (default_parent_type : ExecutionType) : HierarchyInner :=
  let m := new_manager id t in
  let p := (λ pid, {| parent_id := pid;
                      parent_type := default default_parent_type (parent_execution_type h) |})
             <$> parent_execution_id h in
  let root_id := h_root_execution_id h in
  let root_type :=
    match h_root_execution_type h with
    | Some rt => rt
    | None => if decide (root_id = execution_id m) then execution_type m else root_execution_type m
    end in
  sync_restored m p (h_ancestors h) (h_depth h) root_id root_type (h_fork_path h).

(** [would_create_cycle] *)
Definition would_create_cycle (m : HierarchyInner) (ancestor_chain : list string) : bool :=
  existsb (λ a, bool_decide (a = execution_id m)) ancestor_chain.

(** * The path encoding is faithful *)

Notation valid id := (is_valid_execution_id id = true).

Lemma valid_spec id : valid id ↔ id ≠ "" ∧ contains PATH_DELIMITER id = false.
Proof.
  unfold is_valid_execution_id. rewrite andb_true_iff, bool_decide_eq_true, negb_true_iff. done.
Qed.

(** The path of a chain, from its head. *)
Fixpoint path_of (l : list string) : string :=
  match l with
  | [] => String PATH_DELIMITER ""
  | id :: l' => String PATH_DELIMITER (id +:+ path_of l')
  end.

Lemma encode_path_of l : encode_path l = path_of l.
Proof.
  unfold encode_path.
  assert (Hgen : ∀ acc, foldl (λ path id, path +:+ String PATH_DELIMITER "" +:+ id) acc l +:+
    String PATH_DELIMITER "" = acc +:+ path_of l).
  { induction l as [|id l IH]; intros acc; cbn [foldl path_of]; [done|].
    rewrite IH. by rewrite !append_assoc. }
  by rewrite Hgen.
Qed.

Lemma path_of_delim l : ∃ s, path_of l = String PATH_DELIMITER s.
Proof. destruct l; simpl; eauto. Qed.

Lemma split_path_app l t :
  Forall (λ id, valid id) l → split PATH_DELIMITER (path_of l +:+ t) = "" :: l ++ split PATH_DELIMITER t.
Proof.
  induction 1 as [|id l Hid _ IH]; cbn [path_of].
  - apply split_delim.
  - apply valid_spec in Hid as [_ Hc]. destruct (path_of_delim l) as [s Hs].
    change (String PATH_DELIMITER (id +:+ path_of l) +:+ t)
      with (String PATH_DELIMITER ((id +:+ path_of l) +:+ t)).
    rewrite append_assoc, split_delim. rewrite Hs in IH |- *.
    change (String PATH_DELIMITER s +:+ t) with (String PATH_DELIMITER (s +:+ t)) in *.
    rewrite split_delim in IH. injection IH as IH. rewrite split_app by done. by rewrite IH.
Qed.

Lemma decode_encode l : Forall (λ id, valid id) l → decode_path (encode_path l) = l.
Proof.
  intros Hl. unfold decode_path. rewrite encode_path_of, <-(append_nil_r (path_of l)).
  rewrite split_path_app by done. rewrite filter_cons_False by naive_solver.
  rewrite filter_app, list_filter_all.
  - cbn [split]. by rewrite filter_cons_False, filter_nil, app_nil_r by naive_solver.
  - intros id Hid. rewrite Forall_forall in Hl. by apply Hl, valid_spec in Hid as [? _].
Qed.

Lemma path_of_app l k : ∃ s, path_of (l ++ k) = path_of l +:+ s.
Proof.
  induction l as [|id l [s IH]]; simpl.
  - destruct (path_of_delim k) as [s Hs]. exists s. by rewrite Hs.
  - exists s. rewrite IH, <-append_assoc. done.
Qed.

(** A path states a chain of ids and nothing else: decoding the path of
    valid ids gives the chain back, and one path is a prefix of another
    exactly when the one chain is a prefix of the other, so a prefix scan
    finds the subtree and no stranger. *)
Theorem path_faithful l k :
  Forall (λ id, valid id) l → Forall (λ id, valid id) k →
  decode_path (encode_path l) = l ∧
  ((∃ s, encode_path k = encode_path l +:+ s) ↔ l `prefix_of` k).
Proof.
  intros Hl Hk. split; [by apply decode_encode|]. rewrite !encode_path_of. split.
  - intros [s Hs]. apply (f_equal (split PATH_DELIMITER)) in Hs.
    rewrite <-(append_nil_r (path_of k)), !split_path_app in Hs by done. injection Hs as Hs.
    destruct (split_cons PATH_DELIMITER s) as (w & ws & Hw). rewrite Hw in Hs. cbn [split] in Hs.
    assert (Hlen : length l ≤ length k).
    { apply (f_equal length) in Hs. rewrite !length_app in Hs. simpl in Hs. lia. }
    exists (drop (length l) k). rewrite <-(take_drop (length l) k) at 1. f_equal.
    apply (f_equal (take (length l))) in Hs. by rewrite take_app_length, take_app_le in Hs.
  - intros [k' ->]. apply path_of_app.
Qed.

(** Wire names round trip. *)
Lemma parse_as_str t : parse (as_str t) = Some t.
Proof. by destruct t. Qed.

(** * The lineage of a manager *)

Record lineage_ok (m : HierarchyInner) : Prop := {
  lin_depth : depth m = Z.of_nat (length (ancestors m));
  lin_bound : (depth m <= MAX_EXECUTION_DEPTH)%Z;
  lin_parent : parent_id <$> parent m = last (ancestors m);
  lin_root : root_execution_id m = default (execution_id m) (head (ancestors m));
  lin_valid : Forall (λ id, valid id) (ancestors m);
  lin_self : last (ancestors m) ≠ Some (execution_id m);
}.

(** The managers a program can build: fresh ones, children, relinked ones and
    ones whose child table changed. *)
Inductive built : HierarchyInner → Prop :=
| built_new id t : built (new_manager id t)
| built_child m cid ct fp now m' c :
    built m → derive_child m cid ct fp now = Ok (m', c) → built c
| built_parent m cid ct fp now m' c :
    built m → derive_child m cid ct fp now = Ok (m', c) → built m'
| built_linked m pm m' :
    built m → built pm →
    set_parent_full m {| parent_id := execution_id pm; parent_type := execution_type pm |}
      (ancestors pm) (root_execution_type pm) = Ok m' → built m'
| built_add m c : built m → built (add_child m c)
| built_remove m id t : built m → built (remove_child m id t).1.

Lemma check_ids_Ok ids : check_ids ids = Ok tt ↔ Forall (λ id, valid id) ids.
Proof.
  unfold check_ids. rewrite for_each_Ok, Forall_forall.
  split; intros H x Hx; specialize (H x Hx); by destruct (is_valid_execution_id x).
Qed.

Lemma append_parent_fresh l p : last l ≠ Some p → append_parent l p = l ++ [p].
Proof. intros Hl. unfold append_parent. by rewrite decide_False. Qed.

Lemma lineage_same m m' :
  lineage_ok m → execution_id m' = execution_id m → parent m' = parent m → depth m' = depth m →
  root_execution_id m' = root_execution_id m → ancestors m' = ancestors m → lineage_ok m'.
Proof. intros [] Hi Hp Hd Hr Ha. split; rewrite ?Hi, ?Hp, ?Hd, ?Hr, ?Ha; done. Qed.

Lemma derive_child_inv m cid ct fp now m' c :
  derive_child m cid ct fp now = Ok (m', c) →
  execution_id m ≠ cid ∧ (sat_add u32_max (depth m) 1 <= MAX_EXECUTION_DEPTH)%Z ∧
  Forall (λ id, valid id) (append_parent (ancestors m) (execution_id m) ++ [cid]) ∧
  m' = add_child m {| child_type := ct; child_id := cid; created_at := now; child_fork_path := fp |} ∧
  execution_id c = cid ∧ parent_id <$> parent c = Some (execution_id m) ∧
  depth c = sat_add u32_max (depth m) 1 ∧ root_execution_id c = root_execution_id m ∧
  ancestors c = append_parent (ancestors m) (execution_id m).
Proof.
  unfold derive_child. case_decide; [done|]. case_decide; [done|].
  intros ([] & Hids & [= <- <-])%result_bind_Ok. apply check_ids_Ok in Hids.
  split_and!; try done. lia.
Qed.

Lemma derive_lineage m cid ct fp now m' c :
  lineage_ok m → derive_child m cid ct fp now = Ok (m', c) → lineage_ok c ∧ valid cid.
Proof.
  intros [] (Hne & Hd & Hids & _ & Hi & Hp & Hdc & Hr & Ha)%derive_child_inv.
  rewrite append_parent_fresh in * by done. apply Forall_app in Hids as [Hanc Hcid].
  rewrite Forall_singleton in Hcid.
  assert (Hsat : sat_add u32_max (depth m) 1 = (depth m + 1)%Z) by (unfold MAX_EXECUTION_DEPTH in *; mlia).
  split; [|done]. split; rewrite ?Hi, ?Hp, ?Hdc, ?Hr, ?Ha.
  - rewrite Hsat, length_app. simpl. lia.
  - lia.
  - by rewrite last_snoc.
  - rewrite lin_root0. by destruct (ancestors m).
  - done.
  - rewrite last_snoc. congruence.
Qed.

Lemma link_lineage m pm m' :
  lineage_ok m → lineage_ok pm →
  set_parent_full m {| parent_id := execution_id pm; parent_type := execution_type pm |}
    (ancestors pm) (root_execution_type pm) = Ok m' → lineage_ok m'.
Proof.
  intros Hm Hpm. unfold set_parent_full. cbn [parent_id]. case_decide as Hne; [done|].
  intros ([] & Hids & Hr)%result_bind_Ok. apply check_ids_Ok in Hids.
  rewrite append_parent_fresh in * by apply Hpm.
  destruct Hpm. unfold MAX_EXECUTION_DEPTH in *.
  assert (Hlen : wrap32 (Z.of_nat (length (ancestors pm ++ [execution_id pm]))) =
    Z.of_nat (length (ancestors pm ++ [execution_id pm]))).
  { apply wrap32_small. rewrite length_app. simpl. mlia. }
  rewrite Hlen in Hr. case_decide; [done|]. injection Hr as <-. split; simpl.
  - done.
  - unfold MAX_EXECUTION_DEPTH. lia.
  - by rewrite last_snoc.
  - by destruct (ancestors pm).
  - done.
  - rewrite last_snoc. congruence.
Qed.

Lemma built_lineage m : built m → lineage_ok m.
Proof.
  induction 1 as [id t|m cid ct fp now m' c _ IH Hd|m cid ct fp now m' c _ IH Hd|m pm m' _ IH _ IHp Hl|
    m c _ IH|m id t _ IH].
  - split; simpl; try done.
  - by eapply derive_lineage in Hd as [? _].
  - apply derive_child_inv in Hd as (_ & _ & _ & -> & _). eapply lineage_same; [exact IH|done..].
  - exact (link_lineage m pm m' IH IHp Hl).
  - eapply lineage_same; [exact IH|done..].
  - eapply lineage_same; [exact IH|done..].
Qed.

(** The fields of a manager never disagree: however it was built, its
    depth is the length of its ancestor chain and at most ten, its parent is
    the last ancestor, its root the first (or itself), and every ancestor id
    can be part of a path. *)
Theorem built_lineage_agrees m :
  built m →
  depth m = Z.of_nat (length (ancestors m)) ∧ (depth m <= MAX_EXECUTION_DEPTH)%Z ∧
  parent_id <$> parent m = last (ancestors m) ∧
  root_execution_id m = default (execution_id m) (head (ancestors m)) ∧
  Forall (λ id, valid id) (ancestors m).
Proof. intros []%built_lineage. done. Qed.

(** The record a manager writes. *)
Definition record_of (wf : string) (m : HierarchyInner) : ExecutionHierarchy :=
  new_hierarchy wf (execution_id m) (ancestors m) (parent_type <$> parent m)
    (Some (root_execution_type m)) (fork_path m).

Definition without_children (m : HierarchyInner) : HierarchyInner :=
  {| execution_id := execution_id m; execution_type := execution_type m; parent := parent m;
     children := ∅; depth := depth m; root_execution_id := root_execution_id m;
     root_execution_type := root_execution_type m; ancestors := ancestors m; fork_path := fork_path m |}.

Lemma record_chain wf m :
  lineage_ok m → valid (execution_id m) → chain (record_of wf m) = ancestors m ++ [execution_id m].
Proof.
  intros Hm Hv. apply decode_encode, Forall_app. split; [apply Hm|by apply Forall_singleton].
Qed.

Lemma record_ancestors wf m :
  lineage_ok m → valid (execution_id m) → h_ancestors (record_of wf m) = ancestors m.
Proof.
  intros Hm Hv. unfold h_ancestors. rewrite record_chain by done. rewrite length_app. simpl.
  by rewrite Nat.add_sub, take_app_length.
Qed.

(** Storing and restoring a manager keeps its place in the tree: restoring
    from the record the manager writes gives the manager back, children apart,
    whatever parent type is assumed by default. *)
Theorem restore_roundtrip wf m dpt :
  built m → valid (execution_id m) →
  restore (execution_id m) (execution_type m) (record_of wf m) dpt = without_children m.
Proof.
  intros Hb Hv. pose proof (built_lineage m Hb) as Hm. unfold restore, parent_execution_id, h_root_execution_id.
  rewrite record_ancestors by done. unfold sync_restored, without_children. simpl. f_equal.
  - destruct Hm. rewrite <-lin_parent0. destruct (parent m) as [[pid pt]|] eqn:Hp; [|done]. simpl.
    do 2 f_equal.
  - unfold h_depth. rewrite record_chain by done. rewrite length_app. simpl. destruct Hm.
    rewrite lin_depth0 in *. unfold MAX_EXECUTION_DEPTH in *. rewrite wrap32_small by mlia. mlia.
  - rewrite record_chain by done. rewrite (lin_root _ Hm). by destruct (ancestors m).
Qed.

(** A child can be given the id of an ancestor: only the parent's own id is
    refused and [would_create_cycle] is not consulted, so an execution can end
    up among its own ancestors. *)
Theorem derive_child_reuses_ancestor :
  ∃ m c g, built m ∧ built c ∧ built g ∧
    (∃ m', derive_child m "b" Agent None 0 = Ok (m', c)) ∧
    (∃ c', derive_child c (execution_id m) Agent None 0 = Ok (c', g)) ∧
    would_create_cycle g (ancestors g) = true.
Proof.
  pose (m := new_manager "a" Workflow).
  destruct (derive_child m "b" Agent None 0) as [[m' c]|] eqn:Hc; [|by vm_compute in Hc].
  destruct (derive_child c "a" Agent None 0) as [[c' g]|] eqn:Hg;
    [|injection Hc as <- <-; by vm_compute in Hg].
  assert (Hm : built m) by constructor.
  assert (Hbc : built c) by by eapply built_child.
  exists m, c, g. split_and!; [done|done|by eapply built_child|by exists m'|by exists c'|].
  injection Hc as <- <-. injection Hg as <- <-. by vm_compute.
Qed.

(** Linking does not check the linked execution's own id: an id with the
    delimiter gets a parent, and the record written for it names a different
    chain. *)
Theorem linked_id_unchecked :
  ∃ m, built m ∧ ancestors m ≠ [] ∧ is_valid_execution_id (execution_id m) = false ∧
    chain (record_of "w" m) ≠ ancestors m ++ [execution_id m].
Proof.
  destruct (set_parent_full (new_manager "x/y" Agent) {| parent_id := "p"; parent_type := Workflow |}
    [] Workflow) as [m|] eqn:Hm; [|by vm_compute in Hm].
  exists m. split_and!.
  - eapply (built_linked (new_manager "x/y" Agent) (new_manager "p" Workflow)); [constructor..|exact Hm].
  - by injection Hm as <-.
  - by injection Hm as <-.
  - injection Hm as <-. by vm_compute.
Qed.

(** * Witnesses *)

Lemma path_faithful_witness :
  encode_path ["r"; "s"] = "/r/s/" ∧ decode_path (encode_path ["r"]) = ["r"] ∧
  ((∃ s, encode_path ["rs"] = encode_path ["r"] +:+ s) ↔ ["r"] `prefix_of` ["rs"]).
Proof.
  split; [reflexivity|]. apply (path_faithful ["r"] ["rs"]); repeat constructor.
Defined.

Definition root_manager : HierarchyInner := new_manager "root" Workflow.
Definition child_manager : HierarchyInner :=
  match derive_child root_manager "kid" Agent None 7 with Ok (_, c) => c | Err _ => root_manager end.
Lemma child_built : built child_manager.
Proof.
  apply (built_child root_manager "kid" Agent None 7
    (add_child root_manager {| child_type := Agent; child_id := "kid"; created_at := 7;
                               child_fork_path := None |})); [constructor|reflexivity].
Qed.

Lemma built_lineage_agrees_witness :
  ancestors child_manager = ["root"] ∧ depth child_manager = Z.of_nat (length (ancestors child_manager)).
Proof. split; [reflexivity|]. apply (built_lineage_agrees child_manager child_built). Defined.

Lemma restore_roundtrip_witness :
  restore "kid" Agent (record_of "w" child_manager) Chat = without_children child_manager.
Proof. apply (restore_roundtrip "w" child_manager Chat child_built). reflexivity. Defined.
