(* ===== verification/LoopState.v ===== *)
(** Loops: wf-workflow/src/loop_state.rs and handler/loop_handler.rs, with the
    guarded variable write of wf-execution-shared/src/context.rs.

    The stack of active loops lives in the variable store under a reserved key,
    serialised as JSON ([Serde]).  The store is shared and mutable: an operation
    that fails keeps the writes it made, which the monad [M] of this file
    records.  The variable resolver and the condition evaluator are other
    components and enter as parameters. *)

From S2P Require Import Prelude Strings Json GraphTypes.

(** [LoopState] *)
Record LoopState : Type := {
  loop_id : string;
  iterable : value;
  current_index : Z;
  max_iterations : Z;
  iteration_count : Z;
  variable_name : option string;
  imported_variables : list string;
  imported_snapshots : gmap string value;
  iteration_started : bool;
  iteration_nodes : list string;
}.

Definition MAX_ITERATIONS_CAP : Z := 10000.
Definition LOOP_STATE_STACK_KEY : string := "__loop_state_stack".
Definition LOOP_MAX_ITERATIONS_CAP_KEY : string := "__loop_max_iterations_cap".

(** The errors of this component, before formatting; [External] is an error of
    a parameter. *)
Inductive LoopFailure : Type :=
| StackCorrupted
| MaxIterationsExceeded (max cap : Z) (id : string)
| LoopStateMissing
| IterableExhausted (index : Z) (id : string)
| IterableNull
| IterableUnsupported
| InvalidScope (scope : string)
| OutputScope
| VariableNotFound (path : string)
| RequiredInputMissing (source_path internal_name : string)
| WriteRefused (name : string)
| External (e : string).

(** * State and errors *)

Notation Store := (gmap string value).
Notation M := (SE Store LoopFailure).

Section loops.
  Context `{!Serde LoopState}.

(** [try_stack] *)
Definition try_stack : M (list LoopState) := λ st,
  (st, match st !! LOOP_STATE_STACK_KEY with
       | None => Ok []
       | Some v => ok_or StackCorrupted (vec_from_value from_value v)
       end).

(** [set_stack] *)
Definition set_stack (stack : list LoopState) : M () := λ st,
  (<[LOOP_STATE_STACK_KEY := vec_to_value to_value stack]> st, Ok tt).

(** [enter_loop] *)
Definition enter_loop (s : LoopState) : M () :=
  current ← try_stack;
  set_stack (current ++ [s]).

(** [iter().rposition(..)]: the last index with that id. *)
Definition rposition (id : string) (l : list LoopState) : option nat :=
  match list_find (λ s, loop_id s = id) (reverse l) with
  | Some (i, _) => Some (length l - 1 - i)
  | None => None
  end.

(** The clean-up of the imported variables. *)
Definition restore_imported (removed : LoopState) (st : Store) : Store :=
  foldl (λ st name, match imported_snapshots removed !! name with
                    | Some previous => <[name := previous]> st
                    | None => delete name st
                    end) st (imported_variables removed).

(** [exit_loop] *)
Definition exit_loop (id : string) : M (option LoopState) :=
  current ← try_stack;
  match rposition id current with
  | None => mret None
  | Some pos =>
      match current !! pos with
      | None => mret None
      | Some removed =>
          st ← get_state;
          _ ← put_state (restore_imported removed st);
          _ ← set_stack (delete pos current);
          mret (Some removed)
      end
  end.

(** [current_loop] *)
Definition current_loop : M (option LoopState) :=
  current ← try_stack; mret (last current).

(** [find_loop] *)
Definition find_in (id : string) (l : list LoopState) : option LoopState :=
  snd <$> list_find (λ s, loop_id s = id) (reverse l).
Definition find_loop (id : string) : M (option LoopState) :=
  current ← try_stack; mret (find_in id current).

(** [update_loop]: the first entry with that id. *)
Definition update_in (s : LoopState) (l : list LoopState) : list LoopState :=
  match list_find (λ x, loop_id x = loop_id s) l with
  | Some (i, _) => <[i := s]> l
  | None => l ++ [s]
  end.
Definition update_loop (s : LoopState) : M () :=
  current ← try_stack;
  set_stack (update_in s current).

(** [record_iteration_completion] *)
Definition with_nodes (s : LoopState) (ns : list string) : LoopState :=
  {| loop_id := loop_id s; iterable := iterable s; current_index := current_index s;
     max_iterations := max_iterations s; iteration_count := iteration_count s;
     variable_name := variable_name s; imported_variables := imported_variables s;
     imported_snapshots := imported_snapshots s; iteration_started := iteration_started s;
     iteration_nodes := ns |}.
Definition record_iteration_completion (node_id : string) : M () :=
  current ← try_stack;
  match last current with
  | None => mret tt
  | Some top =>
      let top' := if decide (node_id ∈ iteration_nodes top) then top
                  else with_nodes top (iteration_nodes top ++ [node_id]) in
      set_stack (take (length current - 1) current ++ [top'])
  end.

(** [should_honor_completed_marker] *)
Definition should_honor_completed_marker (node_id : string) : M bool :=
  o ← current_loop;
  match o with
  | Some top =>
      if decide (loop_id top = "") then mret true
      else mret (bool_decide (node_id ∈ iteration_nodes top))
  | None => mret true
  end.

(** [iterable_len] *)
Definition iterable_len (v : value) : Z :=
  match v with
  | VArray items => Z.of_nat (length items)
  | VObject m => Z.of_nat (length m)
  | VNumber n => default 0%Z (as_u64 (VNumber n))
  | VString s => Z.of_nat (length (chars s))
  | _ => 0
  end.

(** [loop_condition_met] *)
Definition loop_condition_met (s : LoopState) : bool :=
  if decide (max_iterations s = 0%Z) then false
  else if decide (max_iterations s <= iteration_count s)%Z then false
  else if negb (is_null (iterable s)) && bool_decide (iterable_len (iterable s) <= current_index s)%Z
  then false else true.

(** [current_item] *)
Definition current_item (s : LoopState) : option value :=
  let index := Z.to_nat (current_index s) in
  match iterable s with
  | VNull => Some (VNumber (PosInt (Z.of_nat index)))
  | VArray items => items !! index
  | VObject m => (λ kv, VObject [("key", VString kv.1); ("value", kv.2)]) <$> m !! index
  | VNumber n =>
      if decide (Z.of_nat index < default 0 (as_u64 (VNumber n)))%Z
      then Some (VNumber (PosInt (Z.of_nat index))) else None
  | VString t => VString <$> chars t !! index
  | VBool _ => None
  end.

(** * Handlers *)

(** [NodeExecutionContext], the fields the handlers read. *)
Record NodeExecutionContext : Type := {
  ctx_node_id : string;
  node_config : option value;
  ctx_input : value;
  graph_structure : option WorkflowGraphStructure;
}.

(** [NodeExecutionResult] *)
Record NodeExecutionResult : Type := {
  output : value;
  next_node_ids : list string;
  metadata : gmap string value;
}.
Definition simple (v : value) : NodeExecutionResult :=
  {| output := v; next_node_ids := []; metadata := ∅ |}.

(** [is_internal_variable], [is_system_reserved_variable] *)
Definition is_internal_variable (name : string) : bool := starts_with "__" name.
Definition is_system_reserved_variable (name : string) : bool :=
  let stripped := default name (strip_prefix "variables." name) in
  let root := default "" (head (split "."%char stripped)) in
  bool_decide (root = "execution") || bool_decide (root = "node").

(** [NodeExecutionContext::set_variable] *)
Definition set_variable (name : string) (v : value) : M () :=
  if is_internal_variable name || is_system_reserved_variable name then throw (WriteRefused name)
  else λ st, (<[name := v]> st, Ok tt).

(** [VariableResolver::resolve_str], with the system view of the node or
    without; [serde_json::from_str]; the evaluation of a break condition
    ([evaluate_condition] over [ConditionEvaluator]). *)
Variable resolve_str : option NodeExecutionContext → string → Store → value.
Variable from_str : string → option value.
Variable evaluate_condition : string → Store → result LoopFailure bool.

(** The body of the loop of [apply_variable_inputs] (variable_mapping.rs), with
    the store as both parent and child. *)
Definition apply_input (entry : value) : M () :=
  match get entry "source_path" ≫= as_str, get entry "internal_name" ≫= as_str with
  | Some source_path, Some internal_name =>
      st ← get_state;
      let required := default false (get entry "required" ≫= as_bool) in
      let placeholder := "${" +:+ source_path +:+ "}" in
      let resolved := resolve_str None placeholder st in
      if decide (resolved = VString placeholder) then
        match get entry "default_value" with
        | None => if required : bool then throw (RequiredInputMissing source_path internal_name) else mret tt
        | Some dflt => put_state (<[internal_name := dflt]> st)
        end
      else put_state (<[internal_name := resolved]> st)
  | _, _ => mret tt
  end.
Fixpoint apply_inputs (inputs : list value) : M () :=
  match inputs with
  | [] => mret tt
  | entry :: rest => _ ← apply_input entry; apply_inputs rest
  end.

(** [resolve_expression] *)
Definition resolve_expression (path : string) (ctx : NodeExecutionContext) (st : Store) :
    result LoopFailure value :=
  match split_once "."%char (trim path) with
  | None => Err (InvalidScope (trim path))
  | Some (scope, rest) =>
      expression ← (if decide (scope = "input") then Ok ("${input." +:+ rest +:+ "}")
                    else if decide (scope = "execution") then Ok ("${" +:+ rest +:+ "}")
                    else if decide (scope = "output") then Err OutputScope
                    else Err (InvalidScope scope));
      let resolved := resolve_str (Some ctx) expression st in
      if decide (resolved = VString expression) then Err (VariableNotFound (trim path))
      else Ok resolved
  end.

(** [resolve_iterable] *)
Definition resolve_iterable (config : value) (ctx : NodeExecutionContext) (st : Store) :
    result LoopFailure value :=
  match get config "data_source" ≫= λ d, get d "iterable" with
  | None => Ok VNull
  | Some raw =>
      resolved ←
        match raw with
        | VString s =>
            let trimmed := trim s in
            if starts_with "{{" trimmed && ends_with "}}" trimmed
            then resolve_expression (String.substring 2 (String.length trimmed - 4) trimmed) ctx st
            else if starts_with "${" trimmed && ends_with "}" trimmed
            then Ok (resolve_str (Some ctx) trimmed st)
            else Ok (default (VString s) (from_str s))
        | other => Ok other
        end;
      match resolved with
      | VNull => Err IterableNull
      | VBool _ => Err IterableUnsupported
      | v => Ok v
      end
  end.

(** [find_loop_end_node] *)
Definition find_loop_end_node (ctx : NodeExecutionContext) (id : string) : option string :=
  g ← graph_structure ctx;
  (λ r, node_id r.2) <$>
    list_find (λ n, node_type n = "LOOP_END" ∧ get (inner n) "loop_id" ≫= as_str = Some id) (nodes g).

(** The loop id of a node configuration, with its default. *)
Definition config_loop_id (config : value) (dflt : string) : string :=
  match get config "loop_id" ≫= as_str with
  | Some s => if decide (s = "") then dflt else s
  | None => dflt
  end.

(** The exit of LOOP_START: to the LOOP_END node of the loop. *)
Definition leave_loop (ctx : NodeExecutionContext) (id : string) : M NodeExecutionResult :=
  _ ← exit_loop id;
  mret {| output := ctx_input ctx; next_node_ids := option_list (find_loop_end_node ctx id);
          metadata := ∅ |}.

(** The names of [variable_inputs]. *)
Definition input_names (inputs : list value) : list string :=
  omap (λ i, get i "internal_name" ≫= as_str) inputs.

(** The first visit of LOOP_START: import and push. *)
Definition begin_loop (ctx : NodeExecutionContext) (config : value) (id : string) (max : Z) : M () :=
  st ← get_state;
  it ← lift (resolve_iterable config ctx st);
  let vname := get config "data_source" ≫= λ d, get d "variable_name" ≫= as_str in
  let inputs := get config "variable_inputs" ≫= as_array in
  let names := match inputs with Some l => input_names l | None => [] end in
  let snapshots : gmap string value :=
    foldl (λ m name, match st !! name with Some v => <[name := v]> m | None => m end) ∅ names in
  _ ← (match inputs with Some l => apply_inputs l | None => mret tt end);
  enter_loop {| loop_id := id; iterable := it; current_index := 0; max_iterations := max;
                iteration_count := 0; variable_name := vname; imported_variables := names;
                imported_snapshots := snapshots; iteration_started := false;
                iteration_nodes := [] |}.

(** The state of a started iteration. *)
Definition advance (s : LoopState) : LoopState :=
  {| loop_id := loop_id s; iterable := iterable s; current_index := wrap32 (current_index s + 1);
     max_iterations := max_iterations s; iteration_count := wrap32 (iteration_count s + 1);
     variable_name := variable_name s; imported_variables := imported_variables s;
     imported_snapshots := imported_snapshots s; iteration_started := true;
     iteration_nodes := [] |}.

(** The second half of [LoopStartHandler::execute_inner]: the loop is active with
    state [s]. *)
Definition visit_loop (ctx : NodeExecutionContext) (id : string) (break_condition : option string)
    (s : LoopState) : M NodeExecutionResult :=
  if iteration_started s then mret (simple (ctx_input ctx))
  else
    st ← get_state;
    brk ← ((match break_condition with
            | Some cond => lift (evaluate_condition cond st)
            | None => mret false
            end) : M bool);
    if brk : bool then leave_loop ctx id
    else if negb (loop_condition_met s) then leave_loop ctx id
    else
      item ← lift (ok_or (IterableExhausted (current_index s) id) (current_item s));
      _ ← (match variable_name s with Some v => set_variable v item | None => mret tt end);
      _ ← update_loop (advance s);
      mret (simple (ctx_input ctx)).

(** [max_iterations] and its cap, both cast to 32 bits. *)
Definition config_max_iterations (config : value) : Z :=
  wrap32 (default 100%Z (get config "max_iterations" ≫= as_u64)).
Definition max_iterations_cap (st : Store) : Z :=
  wrap32 (default MAX_ITERATIONS_CAP (st !! LOOP_MAX_ITERATIONS_CAP_KEY ≫= as_u64)).

(** [LoopStartHandler::execute_inner] *)
Definition loop_start (ctx : NodeExecutionContext) : M NodeExecutionResult :=
  let config := default VNull (node_config ctx) in
  let id := config_loop_id config (ctx_node_id ctx) in
  let max := config_max_iterations config in
  st0 ← get_state;
  let cap := max_iterations_cap st0 in
  if decide (cap < max)%Z then throw (MaxIterationsExceeded max cap id)
  else
    let break_condition := get config "break_condition" ≫= as_str in
    o ← find_loop id;
    _ ← (match o with None => begin_loop ctx config id max | Some _ => mret tt end);
    o' ← find_loop id;
    s ← lift (ok_or LoopStateMissing o');
    visit_loop ctx id break_condition s.

(** The state LOOP_END leaves for the next iteration. *)
Definition acknowledge (s : LoopState) : LoopState :=
  {| loop_id := loop_id s; iterable := iterable s; current_index := current_index s;
     max_iterations := max_iterations s; iteration_count := iteration_count s;
     variable_name := variable_name s; imported_variables := imported_variables s;
     imported_snapshots := imported_snapshots s; iteration_started := false;
     iteration_nodes := iteration_nodes s |}.

(** [LoopEndHandler::execute_inner] *)
Definition loop_end (ctx : NodeExecutionContext) : M NodeExecutionResult :=
  let config := default VNull (node_config ctx) in
  let id := config_loop_id config "default" in
  let break_condition := get config "break_condition" ≫= as_str in
  let loop_start_node_id := get config "loop_start_node_id" ≫= as_str in
  o ← find_loop id;
  match o with
  | None => mret (simple (ctx_input ctx))
  | Some s =>
      st ← get_state;
      brk ← ((match break_condition with
              | Some cond => lift (evaluate_condition cond st)
              | None => mret false
              end) : M bool);
      let terminate := brk || negb (loop_condition_met s) in
      let meta : gmap string value :=
        <["loop_id" := VString id]> {["iteration" := VNumber (PosInt (iteration_count s))]} in
      if terminate : bool then
        _ ← exit_loop id;
        mret {| output := ctx_input ctx; next_node_ids := [];
                metadata := <["should_continue" := VBool false]> meta |}
      else
        _ ← update_loop (acknowledge s);
        mret {| output := ctx_input ctx; next_node_ids := option_list loop_start_node_id;
                metadata := <["should_continue" := VBool true]> meta |}
  end.

(** * The stack *)

Context `{!SerdeLaws LoopState}.

Definition stack_is (st : Store) (l : list LoopState) : Prop := try_stack st = (st, Ok l).
Definition put_stack (l : list LoopState) (st : Store) : Store :=
  <[LOOP_STATE_STACK_KEY := vec_to_value to_value l]> st.

Lemma stack_is_put l st : stack_is (put_stack l st) l.
Proof.
  unfold stack_is, try_stack, put_stack. cbv beta. rewrite lookup_insert_eq, vec_roundtrip; [done|].
  apply from_to_value.
Qed.

Lemma stack_is_key st st' l :
  st' !! LOOP_STATE_STACK_KEY = st !! LOOP_STATE_STACK_KEY → stack_is st l → stack_is st' l.
Proof. unfold stack_is, try_stack. intros ->. intros [= H]. by rewrite H. Qed.

Lemma find_loop_eq st l id : stack_is st l → find_loop id st = (st, Ok (find_in id l)).
Proof. intros Hl. unfold find_loop, mbind, M_bind. by rewrite Hl. Qed.

Lemma update_loop_eq st l s : stack_is st l → update_loop s st = (put_stack (update_in s l) st, Ok tt).
Proof. intros Hl. unfold update_loop, mbind, M_bind. by rewrite Hl. Qed.

Lemma enter_loop_eq st l s : stack_is st l → enter_loop s st = (put_stack (l ++ [s]) st, Ok tt).
Proof. intros Hl. unfold enter_loop, mbind, M_bind. by rewrite Hl. Qed.

Lemma exit_loop_eq st l id :
  stack_is st l →
  exit_loop id st =
  match rposition id l with
  | Some p => match l !! p with
              | Some s => (put_stack (delete p l) (restore_imported s st), Ok (Some s))
              | None => (st, Ok None)
              end
  | None => (st, Ok None)
  end.
Proof.
  intros Hl. unfold exit_loop, mbind, M_bind. rewrite Hl. destruct (rposition id l); [|done].
  by destruct (l !! n).
Qed.

Lemma find_in_Some id l s : find_in id l = Some s → s ∈ l ∧ loop_id s = id.
Proof.
  unfold find_in. intros ([i x] & (Hi & Hx & _)%list_find_Some & ->)%fmap_Some.
  apply list_elem_of_lookup_2 in Hi. rewrite elem_of_reverse in Hi. done.
Qed.

Lemma find_in_None id l : find_in id l = None ↔ id ∉ loop_id <$> l.
Proof.
  unfold find_in. rewrite fmap_None, list_find_None, Forall_forall, list_elem_of_fmap.
  setoid_rewrite elem_of_reverse. split.
  - intros Hall (s & -> & Hs). by apply (Hall s Hs).
  - intros Hno s Hs <-. apply Hno. eauto.
Qed.

Lemma find_in_distinct id l s :
  NoDup (loop_id <$> l) → s ∈ l → loop_id s = id → find_in id l = Some s.
Proof.
  intros Hnd Hs Hid. destruct (find_in id l) as [x|] eqn:Hf.
  - apply find_in_Some in Hf as [Hx Hxid]. f_equal.
    apply list_elem_of_lookup in Hs as [i Hi], Hx as [j Hj].
    assert (i = j) as ->; [|congruence].
    apply (NoDup_lookup _ i j id Hnd); rewrite list_lookup_fmap; [rewrite Hi|rewrite Hj];
      simpl; congruence.
  - apply find_in_None in Hf. exfalso. apply Hf. rewrite <-Hid. by apply list_elem_of_fmap_2.
Qed.

(** Updating an active loop keeps every other loop and the order of the ids. *)
Lemma update_in_active l s x :
  find_in (loop_id s) l = Some x →
  loop_id <$> update_in s l = loop_id <$> l ∧ s ∈ update_in s l ∧
  (∀ y, y ∈ update_in s l → y = s ∨ y ∈ l) ∧
  (∀ y, y ∈ l → loop_id y ≠ loop_id s → y ∈ update_in s l).
Proof.
  intros [Hx Hid]%find_in_Some. unfold update_in.
  destruct (list_find (λ x, loop_id x = loop_id s) l) as [[i y]|] eqn:Hf.
  - apply list_find_Some in Hf as (Hi & Hy & _). pose proof (lookup_lt_Some _ _ _ Hi) as Hlt.
    split_and!.
    + rewrite list_fmap_insert. apply list_insert_id. by rewrite list_lookup_fmap, Hi; simpl; f_equal.
    + apply list_elem_of_insert. done.
    + intros z [j Hj]%list_elem_of_lookup.
      destruct (decide (i = j)) as [->|]; [rewrite list_lookup_insert_eq in Hj by done; left; congruence|].
      rewrite list_lookup_insert_ne in Hj by done. right. by eapply list_elem_of_lookup_2.
    + intros z [j Hj]%list_elem_of_lookup Hz. apply (list_elem_of_lookup_2 _ j).
      rewrite list_lookup_insert_ne; [done|]. intros ->. congruence.
  - apply list_find_None in Hf. rewrite Forall_forall in Hf. exfalso. by apply (Hf x).
Qed.

(** * The invariant of active loops *)

Record loop_ok (s : LoopState) : Prop := {
  ok_count : (0 <= iteration_count s <= max_iterations s)%Z;
  ok_max : (max_iterations s <= u32_max)%Z;
  ok_index : current_index s = iteration_count s;
  ok_iterable : iterable s = VNull ∨ current_index s = 0%Z ∨
    (current_index s <= iterable_len (iterable s))%Z;
}.
Definition stack_ok (l : list LoopState) : Prop := Forall loop_ok l ∧ NoDup (loop_id <$> l).
Definition store_ok (st : Store) : Prop := ∃ l, stack_is st l ∧ stack_ok l.

(** The loop condition makes room for one more iteration, and the current item
    is there. *)
Lemma loop_condition_room s :
  loop_ok s → loop_condition_met s = true →
  (iteration_count s < max_iterations s)%Z ∧
  (iterable s = VNull ∨ (current_index s < iterable_len (iterable s))%Z) ∧ is_Some (current_item s).
Proof.
  intros [Hc Hm Hi Hl]. unfold loop_condition_met. case_decide; [done|]. case_decide; [done|].
  destruct (negb (is_null (iterable s)) && _) eqn:Hb; [done|]. intros _. split; [lia|].
  assert (Hroom : iterable s = VNull ∨ (current_index s < iterable_len (iterable s))%Z).
  { apply andb_false_iff in Hb as [Hn|Hn%bool_decide_eq_false]; [left|right; lia].
    by destruct (iterable s). }
  split; [done|]. clear Hb Hl. unfold current_item.
  destruct Hroom as [->|Hlt]; [eauto|].
  destruct (iterable s); unfold iterable_len in Hlt;
    try (apply fmap_is_Some); try (apply lookup_lt_is_Some; lia); [eauto|exfalso; lia|].
  rewrite decide_True; [eauto|lia].
Qed.

Lemma advance_ok s : loop_ok s → loop_condition_met s = true → loop_ok (advance s).
Proof.
  intros Hs Hc. destruct (loop_condition_room s Hs Hc) as (Hlt & Hroom & _). destruct Hs.
  split; simpl; rewrite ?wrap32_small by mlia; [lia|done|lia|]. destruct Hroom; [by left|right; right; lia].
Qed.

Lemma acknowledge_ok s : loop_ok s → loop_ok (acknowledge s).
Proof. by intros []; split. Qed.

Lemma stack_ok_update l s x :
  stack_ok l → find_in (loop_id s) l = Some x → loop_ok s → stack_ok (update_in s l).
Proof.
  intros [Hall Hnd] Hf Hs. destruct (update_in_active l s x Hf) as (Hids & _ & Hin & _).
  split; [|by rewrite Hids]. rewrite Forall_forall in *. intros y Hy.
  destruct (Hin y Hy) as [->|?]; auto.
Qed.

Lemma stack_ok_delete l p : stack_ok l → stack_ok (delete p l).
Proof.
  intros [Hall Hnd]. split; [by apply Forall_delete|].
  rewrite list_fmap_delete. eapply sublist_NoDup; [done|apply sublist_delete].
Qed.

Lemma stack_ok_push l s : stack_ok l → find_in (loop_id s) l = None → loop_ok s → stack_ok (l ++ [s]).
Proof.
  intros [Hall Hnd] Hf%find_in_None Hs. split.
  - apply Forall_app. split; [done|]. by apply Forall_singleton.
  - rewrite fmap_app. apply NoDup_app. split_and!; [done| |apply NoDup_singleton].
    intros x Hx ->%list_elem_of_singleton. done.
Qed.

(** From a store that satisfies [P], [m] ends in [Q], or fails in a store whose
    stack is still in order. *)
Local Notation triple := (hoare store_ok).

(** Loop [id] is active with state [s], in a stack that is in order. *)
Definition active (id : string) (s : LoopState) (st : Store) : Prop :=
  ∃ l, stack_is st l ∧ stack_ok l ∧ find_in id l = Some s.
Definition inactive (id : string) (st : Store) : Prop :=
  ∃ l, stack_is st l ∧ stack_ok l ∧ find_in id l = None.
Definition at_loop (id : string) (o : option LoopState) (st : Store) : Prop :=
  match o with Some s => active id s st | None => inactive id st end.

Lemma at_loop_ok id o st : at_loop id o st → store_ok st.
Proof. destruct o as [s|]; intros (l & ? & ? & _); by exists l. Qed.

Lemma active_loop_ok id s st : active id s st → loop_ok s ∧ loop_id s = id.
Proof.
  intros (l & _ & [Hall _] & [Hs Hid]%find_in_Some). rewrite Forall_forall in Hall. auto.
Qed.

Lemma at_loop_key id o st st' :
  st' !! LOOP_STATE_STACK_KEY = st !! LOOP_STATE_STACK_KEY → at_loop id o st → at_loop id o st'.
Proof.
  intros Hk. destruct o as [s|]; intros (l & Hl & ? & ?); exists l;
    (split_and!; [by eapply stack_is_key|done|done]).
Qed.

Lemma triple_find id : triple store_ok (find_loop id) (at_loop id).
Proof.
  intros st (l & Hl & Hok). rewrite (find_loop_eq _ _ _ Hl).
  destruct (find_in id l) as [s|] eqn:Hf; exists l; done.
Qed.

Lemma triple_update id s x :
  loop_id s = id → loop_ok s → triple (active id x) (update_loop s) (λ _, active id s).
Proof.
  intros Hid Hs st (l & Hl & Hok & Hf). rewrite (update_loop_eq _ _ _ Hl).
  subst id. destruct (update_in_active l s x Hf) as (Hids & Hin & _).
  exists (update_in s l). split_and!; [apply stack_is_put|by eapply stack_ok_update|].
  apply find_in_distinct; [|done|done]. rewrite Hids. apply Hok.
Qed.

Lemma triple_enter s :
  loop_ok s → triple (inactive (loop_id s)) (enter_loop s) (λ _, active (loop_id s) s).
Proof.
  intros Hs st (l & Hl & Hok & Hf). rewrite (enter_loop_eq _ _ _ Hl).
  pose proof (stack_ok_push l s Hok Hf Hs) as Hok'.
  exists (l ++ [s]). split_and!; [apply stack_is_put|done|].
  apply find_in_distinct; [apply Hok'|set_solver|done].
Qed.

Lemma rposition_Some id l p : rposition id l = Some p → ∃ s, l !! p = Some s ∧ loop_id s = id.
Proof.
  unfold rposition. destruct (list_find _ (reverse l)) as [[i s]|] eqn:Hf; [|done]. intros [= <-].
  apply list_find_Some in Hf as (Hi & Hs & _). exists s. split; [|done].
  pose proof (lookup_lt_Some _ _ _ Hi) as Hlt. rewrite length_reverse in Hlt.
  rewrite reverse_lookup in Hi by done. rewrite <-Hi. f_equal. lia.
Qed.

Lemma rposition_None id l : rposition id l = None ↔ find_in id l = None.
Proof. unfold rposition, find_in. by destruct (list_find _ (reverse l)) as [[]|]. Qed.

(** Leaving a loop keeps the stack in order and the loop is gone. *)
Lemma triple_exit id : triple store_ok (exit_loop id) (λ _, inactive id).
Proof.
  intros st (l & Hl & Hok). rewrite (exit_loop_eq _ _ _ Hl).
  destruct (rposition id l) as [p|] eqn:Hp.
  - destruct (rposition_Some _ _ _ Hp) as (s & Hs & Hid). rewrite Hs.
    exists (delete p l). split_and!; [apply stack_is_put|by apply stack_ok_delete|].
    apply find_in_None. intros (y & Hy & Hin)%list_elem_of_fmap.
    apply list_elem_of_lookup in Hin as [j Hj]. destruct Hok as [_ Hnd].
    assert (Hex : ∃ j', j' ≠ p ∧ l !! j' = Some y).
    { destruct (decide (j < p)) as [Hlt|Hge].
      - rewrite list_lookup_delete_lt in Hj by lia. exists j. split; [lia|done].
      - rewrite list_lookup_delete_ge in Hj by lia. exists (S j). split; [lia|done]. }
    destruct Hex as (j' & Hne & Hj'). apply Hne.
    apply (NoDup_lookup _ j' p id Hnd); rewrite list_lookup_fmap; [rewrite Hj'|rewrite Hs]; simpl; congruence.
  - exists l. split_and!; [done|done|by apply rposition_None].
Qed.

(** * The handlers keep the stack in order *)

(** The names a configuration imports do not include the reserved key. *)
Definition config_of (ctx : NodeExecutionContext) : value := default VNull (node_config ctx).
Definition imports_ok (ctx : NodeExecutionContext) : Prop :=
  LOOP_STATE_STACK_KEY ∉ input_names (default [] (get (config_of ctx) "variable_inputs" ≫= as_array)).

(** Applying inputs writes their internal names only. *)
Lemma apply_input_lookup k entry st :
  get entry "internal_name" ≫= as_str ≠ Some k → (apply_input entry st).1 !! k = st !! k.
Proof.
  intros Hne. unfold apply_input.
  destruct (get entry "source_path" ≫= as_str), (get entry "internal_name" ≫= as_str) as [n|]; try done.
  assert (n ≠ k) by congruence. unfold mbind, M_bind, get_state.
  case_decide.
  - destruct (get entry "default_value"); [simpl; by rewrite lookup_insert_ne|].
    by destruct (default false _).
  - simpl. by rewrite lookup_insert_ne.
Qed.

Lemma input_names_cons k entry inputs :
  k ∉ input_names (entry :: inputs) →
  get entry "internal_name" ≫= as_str ≠ Some k ∧ k ∉ input_names inputs.
Proof.
  unfold input_names. csimpl. destruct (get entry "internal_name" ≫= as_str) as [n|]; [|done].
  rewrite not_elem_of_cons. intros [Hn ?]. split; [congruence|done].
Qed.

Lemma apply_inputs_lookup k inputs st :
  k ∉ input_names inputs → (apply_inputs inputs st).1 !! k = st !! k.
Proof.
  revert st. induction inputs as [|entry inputs IH]; intros st Hk; [done|].
  apply input_names_cons in Hk as [He Hk]. cbn [apply_inputs]. unfold mbind, M_bind.
  pose proof (apply_input_lookup k entry st He) as Hst.
  destruct (apply_input entry st) as [st' [a|e]]; simpl in *; [|done]. by rewrite IH.
Qed.

Lemma triple_inputs id inputs :
  LOOP_STATE_STACK_KEY ∉ input_names inputs →
  triple (inactive id) (apply_inputs inputs) (λ _, inactive id).
Proof.
  intros Hk st Hst. pose proof (apply_inputs_lookup _ inputs st Hk) as Hl.
  destruct (apply_inputs inputs st) as [st' [a|e]]; simpl in Hl;
    apply (at_loop_key id None st st') in Hst; try done. by apply (at_loop_ok id None).
Qed.

Lemma triple_begin ctx id max :
  imports_ok ctx → (0 <= max <= u32_max)%Z →
  triple (inactive id) (begin_loop ctx (config_of ctx) id max) (λ _ st, ∃ s, active id s st).
Proof.
  intros Himp Hmax. unfold begin_loop.
  apply (hoare_bind _ _ (λ _, inactive id)); [apply hoare_get|]. intros st.
  apply (hoare_bind _ _ (λ _, inactive id)).
  { apply hoare_lift; [|done]. intros st'. apply (at_loop_ok id None). }
  intros it. cbv zeta. apply (hoare_bind _ _ (λ _, inactive id)).
  - unfold imports_ok in Himp.
    destruct (get (config_of ctx) "variable_inputs" ≫= as_array); [by apply triple_inputs|by apply hoare_ret].
  - intros _. set (s := Build_LoopState _ _ _ _ _ _ _ _ _ _).
    eapply hoare_weaken; [apply (triple_enter s)| |].
    + split; simpl; [lia|lia|done|auto].
    + done.
    + intros u st' Ha. exists s. exact Ha.
Qed.

Lemma internal_key : is_internal_variable LOOP_STATE_STACK_KEY = true.
Proof. by vm_compute. Qed.

(** A guarded write does not reach the reserved key. *)
Lemma set_variable_key v x st :
  (set_variable v x st).1 !! LOOP_STATE_STACK_KEY = st !! LOOP_STATE_STACK_KEY.
Proof.
  unfold set_variable. destruct (is_internal_variable v) eqn:Hi; [done|]. simpl.
  destruct (is_system_reserved_variable v); [done|]. simpl. rewrite lookup_insert_ne; [done|].
  intros ->. by rewrite internal_key in Hi.
Qed.

Lemma triple_set_variable id o v x : triple (at_loop id o) (set_variable v x) (λ _, at_loop id o).
Proof.
  intros st Hst. pose proof (set_variable_key v x st) as Hk.
  destruct (set_variable v x st) as [st' [[]|e]]; simpl in Hk;
    apply (at_loop_key id o st st') in Hst; try done. by apply (at_loop_ok id o).
Qed.

Lemma triple_leave ctx id : triple store_ok (leave_loop ctx id) (λ _, store_ok).
Proof.
  unfold leave_loop. apply (hoare_bind _ _ (λ _, inactive id)); [apply triple_exit|].
  intros o. apply hoare_ret. intros st. apply (at_loop_ok id None).
Qed.

Lemma wrap32_range z : (0 <= wrap32 z <= u32_max)%Z.
Proof. apply wrap32_u32. Qed.

Lemma triple_visit ctx id brk s : triple (active id s) (visit_loop ctx id brk s) (λ _, store_ok).
Proof.
  assert (Hact : ∀ st, active id s st → store_ok st) by (intros st; apply (at_loop_ok id (Some s))).
  unfold visit_loop. destruct (iteration_started s); [by apply hoare_ret|].
  apply (hoare_bind _ _ (λ _, active id s)); [apply hoare_get|]. intros st.
  apply (hoare_bind _ _ (λ _, active id s)).
  { destruct brk; [by apply hoare_lift|by apply hoare_ret]. }
  assert (Hleave : triple (active id s) (leave_loop ctx id) (λ _, store_ok))
    by (eapply hoare_weaken; [apply triple_leave|done|done]).
  intros b. destruct b; [done|]. destruct (loop_condition_met s) eqn:Hcond; simpl; [|done].
  apply (hoare_bind _ _ (λ _, active id s)); [by apply hoare_lift|].
  intros item. apply (hoare_bind _ _ (λ _, active id s)).
  { destruct (variable_name s); [apply (triple_set_variable id (Some s))|by apply hoare_ret]. }
  intros _. eapply hoare_pure; [intros st'; apply active_loop_ok|]. intros [Hok Hid].
  apply (hoare_bind _ _ (λ _, active id (advance s))).
  - apply triple_update; [done|by apply advance_ok].
  - intros _. apply hoare_ret. intros st'. apply (at_loop_ok id (Some _)).
Qed.

Lemma loop_start_triple ctx : imports_ok ctx → triple store_ok (loop_start ctx) (λ _, store_ok).
Proof.
  intros Himp. unfold loop_start. cbv zeta. fold (config_of ctx).
  set (id := config_loop_id _ _).
  apply (hoare_bind _ _ (λ _, store_ok)); [apply hoare_get|]. intros st0.
  case_decide; [by apply hoare_throw|].
  apply (hoare_bind _ _ (at_loop id)); [apply triple_find|]. intros o.
  apply (hoare_bind _ _ (λ _, store_ok)).
  { destruct o as [s|]; [apply hoare_ret; intros st; apply (at_loop_ok id (Some s))|].
    eapply hoare_weaken; [apply (triple_begin ctx id _ Himp), wrap32_range|done|].
    intros _ st [s Hs]. by apply (at_loop_ok id (Some s)). }
  intros _. apply (hoare_bind _ _ (at_loop id)); [apply triple_find|]. intros o'.
  apply (hoare_bind _ _ (active id)).
  { apply hoare_lift; [intros st; apply at_loop_ok|]. intros s st Hs Hst.
    apply ok_or_Ok in Hs as ->. done. }
  intros s. apply triple_visit.
Qed.

Lemma loop_end_triple ctx : triple store_ok (loop_end ctx) (λ _, store_ok).
Proof.
  unfold loop_end. cbv zeta. fold (config_of ctx). set (id := config_loop_id _ _).
  apply (hoare_bind _ _ (at_loop id)); [apply triple_find|]. intros [s|].
  2: { apply hoare_ret. intros st. apply (at_loop_ok id None). }
  apply (hoare_bind _ _ (λ _, active id s)); [apply hoare_get|]. intros st.
  apply (hoare_bind _ _ (λ _, active id s)).
  { destruct (get (config_of ctx) "break_condition" ≫= as_str); [|by apply hoare_ret].
    apply hoare_lift; [intros st'; apply (at_loop_ok id (Some s))|done]. }
  intros brk. destruct (brk || _).
  - apply (hoare_bind _ _ (λ _, inactive id)).
    + eapply hoare_weaken; [apply triple_exit|intros st'; apply (at_loop_ok id (Some s))|done].
    + intros _. apply hoare_ret. intros st'. apply (at_loop_ok id None).
  - eapply hoare_pure; [intros st'; apply active_loop_ok|]. intros [Hok Hid].
    eapply (hoare_bind _ _ (λ _, active id (acknowledge s))).
    + apply triple_update; [done|by apply acknowledge_ok].
    + intros _. apply hoare_ret. intros st'. apply (at_loop_ok id (Some _)).
Qed.

Lemma with_nodes_ok s ns : loop_ok s → loop_ok (with_nodes s ns).
Proof. by intros []; split. Qed.

Lemma record_triple nid : triple store_ok (record_iteration_completion nid) (λ _, store_ok).
Proof.
  intros st (l & Hl & Hall & Hnd). unfold record_iteration_completion, mbind, M_bind. rewrite Hl.
  destruct (last l) as [top|] eqn:Hlast; [|by exists l].
  apply last_Some in Hlast as [l' ->]. rewrite length_app. simpl.
  rewrite Nat.add_sub, take_app_length. apply Forall_app in Hall as [Hl' Ht].
  rewrite Forall_singleton in Ht.
  match goal with |- store_ok (<[_ := vec_to_value to_value (_ ++ [?t])]> _) => set (top' := t) end.
  exists (l' ++ [top']). split; [apply stack_is_put|]. split.
  - apply Forall_app. split; [done|]. apply Forall_singleton. subst top'.
    case_decide; [done|by apply with_nodes_ok].
  - rewrite fmap_app in *. replace (loop_id <$> [top']) with (loop_id <$> [top]); [done|].
    simpl. subst top'. by case_decide.
Qed.

(** * Executions *)

(** Visits of LOOP_START and LOOP_END, completions, and any other node: it may
    change the store, but not the reserved key. *)
Inductive loop_step : Store → Store → Prop :=
| step_start ctx st : imports_ok ctx → loop_step st (loop_start ctx st).1
| step_end ctx st : loop_step st (loop_end ctx st).1
| step_record nid st : loop_step st (record_iteration_completion nid st).1
| step_body st st' : st' !! LOOP_STATE_STACK_KEY = st !! LOOP_STATE_STACK_KEY → loop_step st st'.

Lemma loop_step_ok st st' : store_ok st → loop_step st st' → store_ok st'.
Proof.
  intros Hst Hstep. destruct Hstep as [ctx st Hi|ctx st|nid st|st st' Hk].
  - eapply hoare_state; [by apply loop_start_triple|done|done].
  - eapply hoare_state; [apply loop_end_triple|done|done].
  - eapply hoare_state; [apply record_triple|done|done].
  - destruct Hst as (l & Hl & ?). exists l. split; [by eapply stack_is_key|done].
Qed.

(** C17: loops stay bounded and apart: in every store an execution reaches, the
    stack reads back, no two active loops share an id, and each loop has
    started at most [max_iterations] iterations, one per item, without running
    past its iterable; also when a handler fails half-way. *)
Theorem loops_bounded st0 st :
  st0 !! LOOP_STATE_STACK_KEY = None → rtc loop_step st0 st →
  ∃ l, try_stack st = (st, Ok l) ∧ NoDup (loop_id <$> l) ∧
    ∀ s, s ∈ l →
      (0 <= iteration_count s <= max_iterations s)%Z ∧ current_index s = iteration_count s ∧
      (iterable s = VNull ∨ current_index s = 0%Z ∨
       (current_index s <= iterable_len (iterable s))%Z).
Proof.
  intros Hnone Hr.
  assert (Hst : store_ok st).
  { assert (H0 : store_ok st0).
    { exists []. split; [|split; [constructor|apply NoDup_nil_2]].
      unfold stack_is, try_stack. cbv beta. by rewrite Hnone. }
    clear Hnone. induction Hr as [|a b c Hab _ IH]; [done|]. by apply IH, (loop_step_ok a). }
  destruct Hst as (l & Hl & Hall & Hnd). exists l. split_and!; [done|done|].
  intros s Hs. rewrite Forall_forall in Hall. by destruct (Hall s Hs).
Qed.

(** * A loop, run to its end *)

Lemma reverse_snoc_find id (l : list LoopState) s :
  loop_id s = id → list_find (λ x, loop_id x = id) (reverse (l ++ [s])) = Some (0, s).
Proof. intros Hs. rewrite reverse_snoc. cbn. by rewrite decide_True. Qed.

Lemma find_in_snoc l s : find_in (loop_id s) (l ++ [s]) = Some s.
Proof. unfold find_in. by rewrite reverse_snoc_find. Qed.

Lemma rposition_snoc l s : rposition (loop_id s) (l ++ [s]) = Some (length l).
Proof.
  unfold rposition. rewrite reverse_snoc_find by done. rewrite length_app. simpl. f_equal. lia.
Qed.

Lemma update_in_snoc l s s' :
  loop_id s' = loop_id s → loop_id s ∉ loop_id <$> l → update_in s' (l ++ [s]) = l ++ [s'].
Proof.
  intros Hid Hn. unfold update_in.
  assert (Hf : list_find (λ x, loop_id x = loop_id s') (l ++ [s]) = Some (length l, s)).
  { apply list_find_app_Some. right. split_and!.
    - lia.
    - apply list_find_None, Forall_forall. intros x Hx Hxid. apply Hn. rewrite <-Hid, <-Hxid.
      by apply list_elem_of_fmap_2.
    - rewrite Nat.sub_diag. cbn. by rewrite decide_True. }
  rewrite Hf. rewrite insert_app_r_alt by lia. by rewrite Nat.sub_diag.
Qed.

Lemma exit_loop_top st l s :
  stack_is st (l ++ [s]) →
  exit_loop (loop_id s) st = (put_stack l (restore_imported s st), Ok (Some s)).
Proof.
  intros Hl. rewrite (exit_loop_eq _ _ _ Hl), rposition_snoc.
  rewrite lookup_app_r, Nat.sub_diag by lia. simpl.
  rewrite delete_take_drop, take_app_length, drop_app_ge by lia.
  replace (S (length l) - length l) with 1 by lia. by rewrite app_nil_r.
Qed.

(** Leaving a loop gives the imported variables their values from before it, and
    touches nothing else. *)
Lemma restore_imported_lookup s st n :
  restore_imported s st !! n =
  if decide (n ∈ imported_variables s) then imported_snapshots s !! n else st !! n.
Proof.
  unfold restore_imported. induction (imported_variables s) as [|m ms IH] using rev_ind; [done|].
  rewrite foldl_snoc. destruct (decide (n = m)) as [->|Hne].
  - rewrite decide_True by set_solver.
    destruct (imported_snapshots s !! m); [by rewrite lookup_insert_eq|by rewrite lookup_delete_eq].
  - assert (Hlook : ∀ st' : Store, (match imported_snapshots s !! m with
      | Some p => <[m := p]> st' | None => delete m st' end) !! n = st' !! n).
    { intros st'. destruct (imported_snapshots s !! m);
        [by rewrite lookup_insert_ne|by rewrite lookup_delete_ne]. }
    rewrite Hlook, IH. repeat case_decide; try done; set_solver.
Qed.

Lemma snapshots_lookup (st : Store) names n :
  (foldl (λ m name, match st !! name with Some v => <[name := v]> m | None => m end)
     (∅ : Store) names) !! n = if decide (n ∈ names) then st !! n else None.
Proof.
  induction names as [|m ms IH] using rev_ind; [done|]. rewrite foldl_snoc.
  destruct (decide (n = m)) as [->|Hne].
  - rewrite (decide_True (P := m ∈ ms ++ [m])) by set_solver.
    destruct (st !! m) eqn:Hm; [by rewrite lookup_insert_eq|]. rewrite IH. by case_decide.
  - assert (Hlook : ∀ st' : Store, (match st !! m with Some v => <[m := v]> st' | None => st' end) !! n
      = st' !! n) by (intros st'; destruct (st !! m); [by rewrite lookup_insert_ne|done]).
    rewrite Hlook, IH. repeat case_decide; try done; set_solver.
Qed.

Section one_loop.
  (** The two control nodes of one loop, and what the nodes between them do. *)
  Context (sctx ectx : NodeExecutionContext) (v : string) (body : Store → Store).
  Context (id : string) (max : Z) (it : value).

(** The graph walk around the loop: LOOP_START, the body, LOOP_END, and back as
    long as LOOP_END says so; the value of the loop variable of every
    iteration is recorded.  [None]: a handler failed, or the fuel ran out. *)
Definition continues (r : NodeExecutionResult) : bool :=
  bool_decide (metadata r !! "should_continue" = Some (VBool true)).
Fixpoint run_loop (fuel : nat) (st : Store) : option (Store * list (option value)) :=
  match fuel with
  | O => None
  | S fuel =>
      match loop_start sctx st with
      | (st1, Ok _) =>
          match find_loop id st1 with
          | (_, Ok None) =>
              match loop_end ectx st1 with (st2, Ok _) => Some (st2, []) | _ => None end
          | (_, Ok (Some _)) =>
              match loop_end ectx (body st1) with
              | (st2, Ok r) =>
                  if continues r then (λ p, (p.1, st1 !! v :: p.2)) <$> run_loop fuel st2
                  else Some (st2, [st1 !! v])
              | _ => None
              end
          | _ => None
          end
      | _ => None
      end
  end.

(** Item [i] of the iterable, and the number of iterations. *)
Definition item_at (i : nat) : option value :=
  current_item {| loop_id := id; iterable := it; current_index := Z.of_nat i; max_iterations := max;
    iteration_count := Z.of_nat i; variable_name := None; imported_variables := [];
    imported_snapshots := ∅; iteration_started := false; iteration_nodes := [] |}.
Definition rounds : Z := match it with VNull => max | _ => Z.min max (iterable_len it) end.

Section run.
  Context (names : list string) (snaps : gmap string value) (l : list LoopState) (cap : Z).
  Context (Hsid : config_loop_id (config_of sctx) (ctx_node_id sctx) = id).
  Context (Heid : config_loop_id (config_of ectx) "default" = id).
  Context (Hsbrk : get (config_of sctx) "break_condition" ≫= as_str = None).
  Context (Hebrk : get (config_of ectx) "break_condition" ≫= as_str = None).
  Context (Hmax : config_max_iterations (config_of sctx) = max) (Hcap : (max <= cap)%Z).
  Context (Hvi : is_internal_variable v = false) (Hvr : is_system_reserved_variable v = false).
  Context (Hnames : Forall (λ n, is_internal_variable n = false) names).
  Context (Hfresh : id ∉ loop_id <$> l).
  Context (Hbody_stack : ∀ st l s, stack_is st (l ++ [s]) → ∃ ns, stack_is (body st) (l ++ [with_nodes s ns])).
  Context (Hbody_cap : ∀ st, body st !! LOOP_MAX_ITERATIONS_CAP_KEY = st !! LOOP_MAX_ITERATIONS_CAP_KEY).

(** The state of the loop after [i] iterations. *)
Definition at_round (i : Z) (started : bool) (ns : list string) : LoopState :=
  {| loop_id := id; iterable := it; current_index := i; max_iterations := max; iteration_count := i;
     variable_name := Some v; imported_variables := names; imported_snapshots := snaps;
     iteration_started := started; iteration_nodes := ns |}.

Lemma cap_key_internal : is_internal_variable LOOP_MAX_ITERATIONS_CAP_KEY = true.
Proof. by vm_compute. Qed.

Lemma cap_same st st' :
  st' !! LOOP_MAX_ITERATIONS_CAP_KEY = st !! LOOP_MAX_ITERATIONS_CAP_KEY →
  max_iterations_cap st' = max_iterations_cap st.
Proof. unfold max_iterations_cap. by intros ->. Qed.

Lemma rounds_condition i b ns :
  (0 <= i)%Z → (0 <= max)%Z → loop_condition_met (at_round i b ns) = bool_decide (i < rounds)%Z.
Proof.
  intros Hi Hm. unfold loop_condition_met, rounds. simpl.
  repeat case_decide; destruct it; cbn -[iterable_len]; repeat case_bool_decide; try done; lia.
Qed.

Lemma max_range : (0 <= max <= u32_max)%Z.
Proof. rewrite <-Hmax. apply wrap32_range. Qed.

Lemma not_stack_key n : is_internal_variable n = false → n ≠ LOOP_STATE_STACK_KEY.
Proof. intros Hn ->. by rewrite internal_key in Hn. Qed.
Lemma not_cap_key n : is_internal_variable n = false → n ≠ LOOP_MAX_ITERATIONS_CAP_KEY.
Proof. intros Hn ->. by rewrite cap_key_internal in Hn. Qed.

Lemma cap_put_stack l' st : max_iterations_cap (put_stack l' st) = max_iterations_cap st.
Proof. apply cap_same. unfold put_stack. by rewrite lookup_insert_ne. Qed.

(** A visit of an active loop goes straight to its second half. *)
Lemma loop_start_active st i ns :
  stack_is st (l ++ [at_round i false ns]) → (max <= max_iterations_cap st)%Z →
  loop_start sctx st = visit_loop sctx id None (at_round i false ns) st.
Proof.
  intros Hl Hc. unfold loop_start. cbv zeta. fold (config_of sctx). rewrite Hsid, Hsbrk, Hmax.
  pose proof (find_in_snoc l (at_round i false ns)) as Hf. simpl in Hf.
  unfold mbind at 1, M_bind, get_state. rewrite decide_False by lia.
  unfold mbind at 1. rewrite (find_loop_eq _ _ _ Hl), Hf. unfold mbind at 1. simpl.
  unfold mbind at 1. rewrite (find_loop_eq _ _ _ Hl), Hf. done.
Qed.

(** An iteration starts with its item in the loop variable. *)
Lemma visit_starts st i ns :
  stack_is st (l ++ [at_round i false ns]) → (0 <= i < rounds)%Z →
  ∃ x, item_at (Z.to_nat i) = Some x ∧
    visit_loop sctx id None (at_round i false ns) st =
    (put_stack (l ++ [at_round (i + 1) true []]) (<[v := x]> st), Ok (simple (ctx_input sctx))).
Proof.
  intros Hl Hi. pose proof max_range as Hm.
  assert (Hcond : loop_condition_met (at_round i false ns) = true).
  { rewrite rounds_condition by lia. apply bool_decide_eq_true_2. lia. }
  assert (Hr : (i < max)%Z ∧ (it = VNull ∨ (i <= iterable_len it)%Z)).
  { unfold rounds in Hi. destruct it; (split; [lia|]); auto; right; lia. }
  destruct (loop_condition_room (at_round i false ns)) as (_ & _ & [x Hx]); [|done|].
  { split; simpl; [lia|lia|done|]. destruct Hr as [_ [?|?]]; auto. }
  exists x. split.
  { rewrite <-Hx. unfold item_at, current_item. cbn [current_index at_round iterable]. by rewrite Nat2Z.id. }
  unfold visit_loop. cbn [iteration_started at_round]. unfold mbind at 1, M_bind, get_state, mbind at 1, mret, M_ret.
  fold (at_round i false ns). rewrite Hcond, Hx. cbn [negb]. unfold mbind at 1, lift. cbn [ok_or].
  unfold mbind at 1, set_variable. cbn [variable_name at_round]. rewrite Hvi, Hvr. cbn [orb].
  unfold mbind at 1. fold (at_round i false ns).
  rewrite (update_loop_eq _ (l ++ [at_round i false ns])).
  2: { eapply stack_is_key; [|done]. rewrite lookup_insert_ne; [done|by apply not_stack_key]. }
  rewrite update_in_snoc by done. do 4 f_equal. unfold advance, at_round. simpl.
  by rewrite wrap32_small by mlia.
Qed.

(** A visit past the last item leaves the loop. *)
Lemma visit_leaves st i ns :
  stack_is st (l ++ [at_round i false ns]) → (0 <= i)%Z → (rounds <= i)%Z →
  ∃ r, visit_loop sctx id None (at_round i false ns) st =
    (put_stack l (restore_imported (at_round i false ns) st), Ok r).
Proof.
  intros Hl Hi Hr. pose proof max_range as Hm. unfold visit_loop. cbn [iteration_started at_round].
  unfold mbind at 1, M_bind, get_state, mbind at 1, mret, M_ret. fold (at_round i false ns).
  rewrite rounds_condition by lia. rewrite bool_decide_eq_false_2 by lia. cbn [negb].
  unfold leave_loop, mbind at 1, M_bind.
  rewrite (exit_loop_top _ _ _ Hl : exit_loop id st = _). eauto.
Qed.

Lemma find_gone st : stack_is st l → find_loop id st = (st, Ok None).
Proof. intros Hl. rewrite (find_loop_eq _ _ _ Hl). by rewrite (proj2 (find_in_None _ _) Hfresh). Qed.

Lemma find_round st i b ns :
  stack_is st (l ++ [at_round i b ns]) → find_loop id st = (st, Ok (Some (at_round i b ns))).
Proof.
  intros Hl. rewrite (find_loop_eq _ _ _ Hl).
  by rewrite (find_in_snoc l (at_round i b ns) : find_in id _ = _).
Qed.

(** LOOP_END without a state passes on; it goes round as long as there are
    items, and leaves the loop after the last one. *)
Lemma loop_end_passes st : stack_is st l → loop_end ectx st = (st, Ok (simple (ctx_input ectx))).
Proof.
  intros Hl. unfold loop_end. cbv zeta. fold (config_of ectx). rewrite Heid.
  unfold mbind at 1, M_bind. by rewrite (find_gone _ Hl).
Qed.

Lemma loop_end_round st i ns :
  stack_is st (l ++ [at_round i true ns]) → (0 <= i)%Z →
  ∃ r, continues r = bool_decide (i < rounds)%Z ∧
    loop_end ectx st =
    (if decide (i < rounds)%Z then put_stack (l ++ [at_round i false ns]) st
     else put_stack l (restore_imported (at_round i true ns) st), Ok r).
Proof.
  intros Hl Hi. pose proof max_range as Hm. unfold loop_end. cbv zeta. fold (config_of ectx).
  rewrite Heid, Hebrk. unfold mbind at 1, M_bind. rewrite (find_round _ _ _ _ Hl).
  unfold mbind at 1, get_state, mbind at 1, mret, M_ret. rewrite rounds_condition by lia.
  cbn [orb]. case_decide as Hr.
  - rewrite bool_decide_eq_true_2 by done. cbn [negb]. unfold mbind at 1.
    rewrite (update_loop_eq _ _ _ Hl), update_in_snoc by done. eexists. split; [|done]. done.
  - rewrite bool_decide_eq_false_2 by done. cbn [negb]. unfold mbind at 1.
    rewrite (exit_loop_top _ _ _ Hl : exit_loop id st = _).
    eexists. split; [|done]. done.
Qed.

Lemma restored_name i b ns st l' n :
  n ∈ names → put_stack l' (restore_imported (at_round i b ns) st) !! n = snaps !! n.
Proof.
  intros Hn. rewrite Forall_forall in Hnames. unfold put_stack.
  rewrite lookup_insert_ne by (apply not_eq_sym, not_stack_key; auto).
  rewrite restore_imported_lookup. simpl. by rewrite decide_True.
Qed.

(** From a visit with [i] iterations done, the loop runs the remaining ones. *)
Lemma run_rest k : ∀ i st st1 fuel ns,
  loop_start sctx st = visit_loop sctx id None (at_round i false ns) st1 →
  stack_is st1 (l ++ [at_round i false ns]) → (max <= max_iterations_cap st1)%Z →
  (0 <= i)%Z → k = Z.to_nat (rounds - i) → k < fuel →
  ∃ st', run_loop fuel st = Some (st', item_at <$> seq (Z.to_nat i) k) ∧ stack_is st' l ∧
    ∀ n, n ∈ names → st' !! n = snaps !! n.
Proof.
  induction k as [|k IH]; intros i st st1 [|fuel] ns Hstart Hl Hc Hi Hk Hf; [lia| |lia|]; cbn [run_loop].
  { destruct (visit_leaves st1 i ns Hl Hi) as [r Hr]; [lia|]. rewrite Hstart, Hr.
    rewrite find_gone by apply stack_is_put. rewrite loop_end_passes by apply stack_is_put.
    eexists. split_and!; [done|apply stack_is_put|]. intros n. apply restored_name. }
  destruct (visit_starts st1 i ns Hl) as (x & Hx & Hv); [lia|]. rewrite Hstart, Hv.
  set (st2 := put_stack _ (<[v := x]> st1)).
  assert (Hl2 : stack_is st2 (l ++ [at_round (i + 1) true []])) by apply stack_is_put.
  rewrite (find_round _ _ _ _ Hl2). destruct (Hbody_stack _ _ _ Hl2) as [ns' Hl3].
  destruct (loop_end_round (body st2) (i + 1) ns') as (r & Hr & He); [exact Hl3|lia|].
  rewrite He, Hr. clear He Hr.
  assert (Hv2 : st2 !! v = Some x).
  { subst st2. unfold put_stack. rewrite lookup_insert_ne by (apply not_eq_sym, not_stack_key; done).
    apply lookup_insert_eq. }
  rewrite Hv2. cbn [seq fmap list_fmap]. rewrite Hx. case_decide as Hlt.
  - rewrite bool_decide_eq_true_2 by done.
    set (st3 := put_stack (l ++ [at_round (i + 1) false ns']) (body st2)).
    assert (Hl4 : stack_is st3 (l ++ [at_round (i + 1) false ns'])) by apply stack_is_put.
    assert (Hc3 : (max <= max_iterations_cap st3)%Z).
    { subst st3 st2. rewrite cap_put_stack, (cap_same _ _ (Hbody_cap _)), cap_put_stack.
      rewrite (cap_same st1); [done|]. by rewrite lookup_insert_ne by (by apply not_cap_key). }
    destruct (IH (i + 1)%Z st3 st3 fuel ns') as (st' & Hrun & Hst' & Hsn);
      [by apply loop_start_active|done|done|lia|lia|lia|].
    exists st'. rewrite Hrun. split; [|done]. simpl. rewrite Z2Nat.inj_add by lia. by rewrite Nat.add_1_r.
  - rewrite bool_decide_eq_false_2 by done. assert (k = 0) as -> by lia.
    eexists. split_and!; [done|apply stack_is_put|]. intros n. apply restored_name.
Qed.
End run.
End one_loop.

(** A loop without break conditions, whose loop variable and imports are ordinary
    variables, around a body that leaves the loops it did not enter and the
    configured cap alone. *)
Definition inputs_of (ctx : NodeExecutionContext) : list value :=
  default [] (get (config_of ctx) "variable_inputs" ≫= as_array).
Record plain_loop (sctx ectx : NodeExecutionContext) (v : string) (body : Store → Store)
    (id : string) : Prop := {
  plain_start_id : config_loop_id (config_of sctx) (ctx_node_id sctx) = id;
  plain_end_id : config_loop_id (config_of ectx) "default" = id;
  plain_start_break : get (config_of sctx) "break_condition" ≫= as_str = None;
  plain_end_break : get (config_of ectx) "break_condition" ≫= as_str = None;
  plain_variable : (get (config_of sctx) "data_source" ≫= λ d, get d "variable_name" ≫= as_str) = Some v;
  plain_writable : is_internal_variable v = false ∧ is_system_reserved_variable v = false;
  plain_imports : Forall (λ n, is_internal_variable n = false) (input_names (inputs_of sctx));
  plain_body : ∀ st l s, stack_is st (l ++ [s]) → ∃ ns, stack_is (body st) (l ++ [with_nodes s ns]);
  plain_cap : ∀ st, body st !! LOOP_MAX_ITERATIONS_CAP_KEY = st !! LOOP_MAX_ITERATIONS_CAP_KEY;
}.

(** The first visit enters the loop. *)
Lemma loop_start_fresh sctx ectx v body id it l st0 st1 :
  plain_loop sctx ectx v body id → stack_is st0 l → id ∉ loop_id <$> l →
  (config_max_iterations (config_of sctx) <= max_iterations_cap st0)%Z →
  resolve_iterable (config_of sctx) sctx st0 = Ok it → apply_inputs (inputs_of sctx) st0 = (st1, Ok tt) →
  ∃ snaps, (∀ n, n ∈ input_names (inputs_of sctx) → snaps !! n = st0 !! n) ∧
    let s := at_round v id (config_max_iterations (config_of sctx)) it
               (input_names (inputs_of sctx)) snaps 0 false [] in
    stack_is st1 l ∧ max_iterations_cap st1 = max_iterations_cap st0 ∧
    loop_start sctx st0 = visit_loop sctx id None s (put_stack (l ++ [s]) st1).
Proof.
  intros [Hsid _ Hbrk _ Hvar _ Himp _ _] Hl Hfresh Hcap Hit Hin.
  assert (Hkeep : ∀ k, is_internal_variable k = true → st1 !! k = st0 !! k).
  { intros k Hk. replace st1 with (apply_inputs (inputs_of sctx) st0).1 by (by rewrite Hin).
    apply apply_inputs_lookup. intros Hk'. rewrite Forall_forall in Himp.
    specialize (Himp k Hk'). simpl in Himp. congruence. }
  set (names := input_names (inputs_of sctx)) in *.
  set (snaps := foldl (λ m name, match st0 !! name with Some w => <[name := w]> m | None => m end)
                  (∅ : Store) names).
  exists snaps. split; [intros n Hn; unfold snaps; rewrite snapshots_lookup; by rewrite decide_True|].
  intros s. assert (Hl1 : stack_is st1 l) by (by eapply stack_is_key; [apply Hkeep, internal_key|]).
  split_and!; [done|by apply cap_same, Hkeep, cap_key_internal|].
  unfold loop_start. cbv zeta. fold (config_of sctx). rewrite Hsid, Hbrk.
  unfold mbind at 1, M_bind, get_state. rewrite decide_False by lia.
  unfold mbind at 1. rewrite (find_loop_eq _ _ _ Hl), (proj2 (find_in_None _ _) Hfresh).
  assert (Hbegin : begin_loop sctx (config_of sctx) id (config_max_iterations (config_of sctx)) st0 =
    (put_stack (l ++ [s]) st1, Ok tt)).
  { unfold begin_loop, mbind at 1, M_bind, get_state, mbind at 1, lift. rewrite Hit, Hvar. cbv zeta.
    unfold mbind at 1. subst s. unfold at_round, snaps. subst names. revert Hin. unfold inputs_of.
    destruct (get (config_of sctx) "variable_inputs" ≫= as_array) as [ins|]; simpl; intros Hin.
    - rewrite Hin. by apply enter_loop_eq.
    - injection Hin as ->. by apply enter_loop_eq. }
  unfold mbind at 1. rewrite Hbegin. unfold mbind at 1.
  rewrite (find_loop_eq _ (l ++ [s])) by apply stack_is_put.
  by rewrite (find_in_snoc l s : find_in id (l ++ [s]) = Some s).
Qed.

(** C16: a loop runs exactly [min(max_iterations, length)] iterations (or
    [max_iterations] of them when it only counts), the loop variable takes the
    items in order, and on the way out the stack is as before the loop and the
    imported variables have the values they had before it. *)
Theorem loop_runs_every_item sctx ectx v body id it l st0 st1 fuel :
  plain_loop sctx ectx v body id → stack_is st0 l → id ∉ loop_id <$> l →
  (config_max_iterations (config_of sctx) <= max_iterations_cap st0)%Z →
  resolve_iterable (config_of sctx) sctx st0 = Ok it → apply_inputs (inputs_of sctx) st0 = (st1, Ok tt) →
  let max := config_max_iterations (config_of sctx) in
  Z.to_nat (rounds max it) < fuel →
  ∃ st', run_loop sctx ectx v body id fuel st0 =
      Some (st', item_at id max it <$> seq 0 (Z.to_nat (rounds max it))) ∧
    try_stack st' = (st', Ok l) ∧ ∀ n, n ∈ input_names (inputs_of sctx) → st' !! n = st0 !! n.
Proof.
  intros Hp Hl Hfresh Hcap Hit Hin max Hf.
  destruct (loop_start_fresh _ _ _ _ _ _ _ _ _ Hp Hl Hfresh Hcap Hit Hin) as (snaps & Hsn & Hst1 & Hc1 & Hs).
  destruct Hp as [Hsid Heid Hbrk Hebrk Hvar [Hvi Hvr] Himp Hb Hc].
  edestruct (run_rest sctx ectx v body id max it (input_names (inputs_of sctx)) snaps l)
    as (st' & Hrun & Hst' & Hnames); try done.
  - apply stack_is_put.
  - rewrite cap_put_stack, Hc1. done.
  - rewrite Z.sub_0_r. exact Hf.
  - exists st'. rewrite Z.sub_0_r in Hrun. split_and!; [exact Hrun|exact Hst'|].
    intros n Hn. rewrite Hnames by done. by apply Hsn.
Qed.

(** A visit of LOOP_START whose loop id is already active and started
    changes nothing, whatever the visiting node's own configuration: a retry
    resumes its iteration, and so a nested loop with an equal id does not get a
    state of its own. *)
Theorem started_loop_passes_through ctx st l s :
  stack_is st l → find_in (config_loop_id (config_of ctx) (ctx_node_id ctx)) l = Some s →
  iteration_started s = true →
  (config_max_iterations (config_of ctx) <= max_iterations_cap st)%Z →
  loop_start ctx st = (st, Ok (simple (ctx_input ctx))).
Proof.
  intros Hl Hf Hs Hc. unfold loop_start. cbv zeta. fold (config_of ctx).
  unfold mbind at 1, M_bind, get_state. rewrite decide_False by lia.
  unfold mbind at 1. rewrite (find_loop_eq _ _ _ Hl), Hf. unfold mbind at 1. simpl.
  unfold mbind at 1. rewrite (find_loop_eq _ _ _ Hl), Hf. unfold mbind at 1. simpl.
  unfold visit_loop. by rewrite Hs.
Qed.
End loops.

(** * Serialisation

    The derived [Serialize] and [Deserialize] of [LoopState]. *)

Definition loop_to_value (s : LoopState) : value :=
  VObject [("current_index", VNumber (PosInt (current_index s)));
           ("imported_snapshots", object_of (imported_snapshots s));
           ("imported_variables", VArray (VString <$> imported_variables s));
           ("iterable", iterable s);
           ("iteration_count", VNumber (PosInt (iteration_count s)));
           ("iteration_nodes", VArray (VString <$> iteration_nodes s));
           ("iteration_started", VBool (iteration_started s));
           ("loop_id", VString (loop_id s));
           ("max_iterations", VNumber (PosInt (max_iterations s)));
           ("variable_name", option_to_value VString (variable_name s))].
Definition option_string (o : option value) : option (option string) :=
  match o with
  | None | Some VNull => Some None
  | Some (VString s) => Some (Some s)
  | Some _ => None
  end.
Definition loop_from_value (v : value) : option LoopState :=
  index ← get v "current_index" ≫= as_u64;
  snaps ← get v "imported_snapshots" ≫= as_map;
  imports ← get v "imported_variables" ≫= vec_from_value as_str;
  it ← get v "iterable";
  count ← get v "iteration_count" ≫= as_u64;
  ns ← get v "iteration_nodes" ≫= vec_from_value as_str;
  started ← get v "iteration_started" ≫= as_bool;
  id ← get v "loop_id" ≫= as_str;
  max ← get v "max_iterations" ≫= as_u64;
  name ← option_string (get v "variable_name");
  Some {| loop_id := id; iterable := it; current_index := index; max_iterations := max;
          iteration_count := count; variable_name := name; imported_variables := imports;
          imported_snapshots := snaps; iteration_started := started; iteration_nodes := ns |}.

#[export] Instance loop_serde : Serde LoopState :=
  {| to_value := loop_to_value; from_value := loop_from_value |}.

Lemma strings_roundtrip l : vec_from_value as_str (VArray (VString <$> l)) = Some l.
Proof. simpl. by apply mapM_fmap_Some. Qed.

Lemma loop_fields s :
  let v := loop_to_value s in
  get v "current_index" = Some (VNumber (PosInt (current_index s))) ∧
  get v "imported_snapshots" = Some (object_of (imported_snapshots s)) ∧
  get v "imported_variables" = Some (VArray (VString <$> imported_variables s)) ∧
  get v "iterable" = Some (iterable s) ∧
  get v "iteration_count" = Some (VNumber (PosInt (iteration_count s))) ∧
  get v "iteration_nodes" = Some (VArray (VString <$> iteration_nodes s)) ∧
  get v "iteration_started" = Some (VBool (iteration_started s)) ∧
  get v "loop_id" = Some (VString (loop_id s)) ∧
  get v "max_iterations" = Some (VNumber (PosInt (max_iterations s))) ∧
  get v "variable_name" = Some (option_to_value VString (variable_name s)).
Proof. done. Qed.

#[export] Instance loop_serde_laws : SerdeLaws LoopState.
Proof.
  split; [|done]. intros s. unfold from_value, to_value, loop_serde, loop_from_value.
  destruct (loop_fields s) as (-> & -> & -> & -> & -> & -> & -> & -> & -> & ->).
  assert (Hname : option_string (Some (option_to_value VString (variable_name s))) = Some (variable_name s))
    by (by destruct (variable_name s)).
  rewrite Hname. unfold mbind, option_bind. rewrite as_map_object_of, !strings_roundtrip.
  by destruct s.
Qed.

(** * Concrete runs *)

Definition demo_resolve : option NodeExecutionContext → string → Store → value := λ _ s _, VString s.
Definition demo_parse : string → option value := λ _, None.
Definition demo_condition : string → Store → result LoopFailure bool := λ _ _, Ok false.

Definition demo_start : NodeExecutionContext :=
  {| ctx_node_id := "start"; ctx_input := VNull; graph_structure := None;
     node_config := Some (VObject
       [("data_source", VObject [("iterable", VArray [VString "a"; VString "b"; VString "c"]);
                                 ("variable_name", VString "item")]);
        ("loop_id", VString "L"); ("max_iterations", VNumber (PosInt 2));
        ("variable_inputs", VArray [VObject [("default_value", VBool true);
           ("internal_name", VString "flag"); ("source_path", VString "f")]])]) |}.
Definition demo_end : NodeExecutionContext :=
  {| ctx_node_id := "end"; ctx_input := VNull; graph_structure := None;
     node_config := Some (VObject [("loop_id", VString "L"); ("loop_start_node_id", VString "start")]) |}.

Lemma loops_bounded_witness :
  let st := (loop_start demo_resolve demo_parse demo_condition demo_start ∅).1 in
  ∃ l, try_stack st = (st, Ok l) ∧ NoDup (loop_id <$> l) ∧
    ∀ s, s ∈ l →
      (0 <= iteration_count s <= max_iterations s)%Z ∧ current_index s = iteration_count s ∧
      (iterable s = VNull ∨ current_index s = 0%Z ∨
       (current_index s <= iterable_len (iterable s))%Z).
Proof.
  intros st. apply (loops_bounded demo_resolve demo_parse demo_condition ∅ st); [done|].
  apply rtc_once, step_start. apply (bool_decide_eq_true_1 _). by vm_compute.
Defined.

Lemma demo_plain : plain_loop demo_start demo_end "item" (λ st, <["x" := VNull]> st) "L".
Proof.
  split; try done.
  - apply (bool_decide_eq_true_1 _). by vm_compute.
  - intros st l s Hl. exists (iteration_nodes s). replace (with_nodes s (iteration_nodes s)) with s by (by destruct s).
    eapply stack_is_key; [|done]. by rewrite lookup_insert_ne.
  - intros st. by rewrite lookup_insert_ne.
Qed.

Lemma loop_runs_every_item_witness :
  let max := config_max_iterations (config_of demo_start) in
  let it := VArray [VString "a"; VString "b"; VString "c"] in
  ∃ st', run_loop demo_resolve demo_parse demo_condition demo_start demo_end "item"
      (λ st, <["x" := VNull]> st) "L" 3 {["flag" := VNull]} =
      Some (st', item_at "L" max it <$> seq 0 (Z.to_nat (rounds max it))) ∧
    try_stack st' = (st', Ok []) ∧
    ∀ n, n ∈ input_names (inputs_of demo_start) → st' !! n = ({["flag" := VNull]} : Store) !! n.
Proof.
  apply (loop_runs_every_item demo_resolve demo_parse demo_condition demo_start demo_end "item" _ "L" _ []
    {["flag" := VNull]} {["flag" := VBool true]} 3 demo_plain).
  - done.
  - apply (bool_decide_eq_true_1 _). by vm_compute.
  - by vm_compute.
  - done.
  - by vm_compute.
  - vm_compute. lia.
Defined.

Lemma started_loop_passes_through_witness :
  let st := (loop_start demo_resolve demo_parse demo_condition demo_start ∅).1 in
  loop_start demo_resolve demo_parse demo_condition demo_start st = (st, Ok (simple VNull)).
Proof.
  intros st. eapply (started_loop_passes_through demo_resolve demo_parse demo_condition demo_start st).
  - unfold stack_is. vm_compute. reflexivity.
  - vm_compute. reflexivity.
  - done.
  - by vm_compute.
Defined.

(** The iteration cap is checked after the cast to 32 bits, so a
    configuration far above the cap is accepted and silently runs with its
    remainder. *)
Theorem oversized_max_iterations_accepted resolve parse condition :
  ∃ ctx st s, get (config_of ctx) "max_iterations" = Some (VNumber (PosInt 4294967299)) ∧
    (MAX_ITERATIONS_CAP < 4294967299)%Z ∧
    loop_start resolve parse condition ctx ∅ = (st, Ok (simple VNull)) ∧
    try_stack st = (st, Ok [s]) ∧ max_iterations s = 3%Z ∧ iteration_count s = 1%Z.
Proof.
  exists {| ctx_node_id := "L"; ctx_input := VNull; graph_structure := None;
            node_config := Some (VObject [("max_iterations", VNumber (PosInt 4294967299))]) |}.
  eexists _, _. split_and!; [done|done|vm_compute; reflexivity|vm_compute; reflexivity|done|done].
Qed.
