(* ===== verification/VariableMapping.v ===== *)
(** Moving variables between scopes: wf-workflow/src/handler/variable_mapping.rs.

    Child scopes inherit the public variables of their parent, receive mapped
    inputs, and hand mapped outputs back through dotted paths. *)

From S2P Require Import Prelude Strings Json Numbers Template Expression LoopState.

(** [serde_json::Map::insert]: an object is sorted by its keys. *)
Fixpoint insert_entry (k : string) (v : value) (m : list (string * value)) : list (string * value) :=
  match m with
  | [] => [(k, v)]
  | (a, x) :: m' =>
      match String.compare k a with
      | Lt => (k, v) :: m
      | Eq => (k, v) :: m'
      | Gt => (a, x) :: insert_entry k v m'
      end
  end.

Inductive VariableError : Type :=
| RequiredInput (source_path internal_name : string)
| ReservedVariable (root : string).

(** [inherit_all_variables] *)
Definition inherit_all_variables (parent target : Vars) : Vars :=
  filter (λ kv, is_internal_variable kv.1 = false) parent ∪ target.

(** The mappings write entry by entry, so a failure keeps the writes made before
    it. *)
Notation W := (SE Vars VariableError).
Fixpoint for_each {S E A} (f : A → SE S E ()) (l : list A) : SE S E () :=
  match l with [] => mret tt | x :: l' => _ ← f x; for_each f l' end.

Section inputs.
  Context `{Json_text : JsonText}.

(** [apply_variable_inputs], over the child's variables *)
Definition variable_input (parent : Vars) (entry : value) : W () :=
  match get entry "source_path" ≫= as_str, get entry "internal_name" ≫= as_str with
  | Some source_path, Some internal_name =>
      let required := default false (get entry "required" ≫= as_bool) in
      let default_value := get entry "default_value" in
      let placeholder := "${" +:+ source_path +:+ "}" in
      let resolved := resolve parent None (VString placeholder) in
      if decide (resolved = VString placeholder) then
        if required && bool_decide (default_value = None) then throw (RequiredInput source_path internal_name)
        else match default_value with Some d => modify (<[internal_name := d]>) | None => mret tt end
      else modify (<[internal_name := resolved]>)
  | _, _ => mret tt
  end.
Definition apply_variable_inputs (config : value) (parent : Vars) : W () :=
  match get config "variable_inputs" ≫= as_array with
  | Some inputs => for_each (variable_input parent) inputs
  | None => mret tt
  end.
End inputs.

(** The walk of [set_variable_path] below the root: a value on the way that is
    no object is replaced by an empty one, a missing key is given one, and the
    last segment is written only if the value there is an object. *)
Fixpoint set_segments (segments : list string) (v : value) (target : value) : value :=
  match segments with
  | [] => target
  | [final] => match target with VObject m => VObject (insert_entry final v m) | other => other end
  | segment :: rest =>
      let m := match target with VObject m => m | _ => [] end in
      let entry := default (VObject []) (get (VObject m) segment) in
      VObject (insert_entry segment (set_segments rest v entry) m)
  end.
(** [set_variable_path] *)
Definition set_variable_path (path : string) (v : value) : W () :=
  let parts := split "."%char path in
  let root := default "" (head parts) in
  if is_internal_variable root || is_system_reserved_variable path then throw (ReservedVariable root)
  else
    match tail parts with
    | [] => modify (<[root := v]>)
    | segments => modify (λ vars, <[root := set_segments segments v (default (VObject []) (vars !! root))]> vars)
    end.

(** [apply_variable_outputs], over the parent's variables *)
Definition variable_output (child : Vars) (entry : value) : W () :=
  match get entry "internal_name" ≫= as_str, get entry "target_path" ≫= as_str with
  | Some internal_name, Some target_path =>
      match child !! internal_name with
      | Some v => set_variable_path target_path v
      | None => mret tt
      end
  | _, _ => mret tt
  end.
Definition apply_variable_outputs (config : value) (child : Vars) : W () :=
  match get config "variable_outputs" ≫= as_array with
  | Some outputs => for_each (variable_output child) outputs
  | None => mret tt
  end.

Example set_variable_path_examples :
  resolve_value_path "a.b.c" (set_variable_path "a.b.c" VNull ∅).1 = Some VNull ∧
  set_variable_path "a.b" (VBool true) {["a" := VString "x"]} = ({["a" := VString "x"]}, Ok tt) ∧
  set_variable_path "a.b.c" (VBool true) {["a" := VString "x"]}
    = ({["a" := VObject [("b", VObject [("c", VBool true)])]]}, Ok tt) ∧
  set_variable_path "__x" VNull ∅ = (∅, Err (ReservedVariable "__x")).
Proof. by vm_compute. Qed.

(** * Writing a path *)

Lemma get_cons k a x m :
  get (VObject ((a, x) :: m)) k = if decide (a = k) then Some x else get (VObject m) k.
Proof.
  cbn [get list_find fst]. case_decide; [done|]. by destruct (list_find _ m) as [[i [b y]]|].
Qed.
Lemma get_insert k v k' m :
  get (VObject (insert_entry k v m)) k' = if decide (k = k') then Some v else get (VObject m) k'.
Proof.
  induction m as [|[a x] m IH]; cbn [insert_entry]; [by rewrite get_cons|].
  destruct (String.compare k a) eqn:Hc.
  - apply String.compare_eq_iff in Hc as ->. rewrite !get_cons. by case_decide.
  - by rewrite !get_cons.
  - rewrite !get_cons, IH. repeat case_decide; subst; try done.
    pose proof (String.compare_antisym k' k') as Ha. by rewrite Hc in Ha.
Qed.

(** The member of nested objects a path names. *)
Definition member (segments : list string) (v : value) : option value :=
  foldl (λ o s, o ≫= λ w, get w s) (Some v) segments.
Lemma member_None segments : foldl (λ (o : option value) s, o ≫= λ w, get w s) None segments = None.
Proof. by induction segments. Qed.
Lemma member_cons s segments v : member (s :: segments) v = get v s ≫= member segments.
Proof. unfold member. cbn. destruct (get v s); [done|]. apply member_None. Qed.
Lemma get_object v s w : get v s = Some w → ∃ m, v = VObject m.
Proof. destruct v; try done. eauto. Qed.
Definition is_object (v : value) : bool := match v with VObject _ => true | _ => false end.

(** Whether a write finds something that is no object in the place of the
    object it writes into. *)
Definition blocked (parents : list string) (v : value) : bool :=
  match member parents v with Some w => negb (is_object w) | None => false end.
Lemma set_segments_cons p parents final v target :
  set_segments (p :: parents ++ [final]) v target =
    let m := match target with VObject m => m | _ => [] end in
    VObject (insert_entry p (set_segments (parents ++ [final]) v (default (VObject []) (get (VObject m) p))) m).
Proof. cbn [set_segments]. by destruct (parents ++ [final]) eqn:Hp; [destruct parents|]. Qed.
Lemma blocked_fresh parents : blocked parents (VObject []) = false.
Proof. destruct parents; [done|]. unfold blocked. by rewrite member_cons. Qed.
Lemma set_segments_spec parents final v target :
  if blocked parents target
  then member parents (set_segments (parents ++ [final]) v target) = member parents target
  else member (parents ++ [final]) (set_segments (parents ++ [final]) v target) = Some v.
Proof.
  revert target. induction parents as [|p parents IH]; intros target.
  - destruct target; cbn -[get insert_entry]; try done. by rewrite get_insert, decide_True.
  - change ((p :: parents) ++ [final]) with (p :: parents ++ [final]). rewrite set_segments_cons. cbv zeta.
    rewrite !member_cons, !get_insert, decide_True by done.
    cbn [mbind option_bind]. specialize (IH (default (VObject []) (get (VObject match target with VObject m => m | _ => [] end) p))).
    destruct (get target p) as [e|] eqn:Hg.
    + apply get_object in Hg as Ht. destruct Ht as [m ->]. rewrite Hg in *. cbn [default from_option id] in IH.
      unfold blocked in *. rewrite member_cons, Hg. done.
    + assert (get (VObject match target with VObject m => m | _ => [] end) p = None) as Hn by (by destruct target).
      rewrite Hn in *. cbn [default from_option id] in IH. rewrite blocked_fresh in IH.
      unfold blocked. rewrite member_cons, Hg. done.
Qed.

Lemma member_resolve segments v w :
  Forall (λ s, s ≠ "") segments → member segments v = Some w →
  foldl (λ cur part, v ← cur; if decide (part = "") then None else step_path v part) (Some v) segments = Some w.
Proof.
  revert v. induction segments as [|s segments IH]; intros v Hne Hm; [done|].
  apply Forall_cons in Hne as [Hs Hne]. rewrite member_cons in Hm. destruct (get v s) as [e|] eqn:Hg; [|done].
  cbn [foldl]. destruct (get_object _ _ _ Hg) as [m ->]. cbn [mbind option_bind]. rewrite decide_False by done.
  unfold step_path at 2. rewrite Hg. by apply IH.
Qed.

(** Whether [set_variable_path] drops the write. *)
Definition write_lost (path : string) (vars : Vars) : bool :=
  let parts := split "."%char path in
  match tail parts, vars !! default "" (head parts) with
  | (_ :: _) as segments, Some v => blocked (removelast segments) v
  | _, _ => false
  end.

(** Writing a path stores the value where reading the path finds it and leaves the other
    variables alone, unless the parent of the last segment is there and is no object: then the
    write is dropped without an error. *)
Theorem set_variable_path_correct (path : string) (v : value) (vars vars' : Vars)
    (Hset : set_variable_path path v vars = (vars', Ok tt)) :
  let root := default "" (head (split "."%char path)) in
  (∀ x, x ≠ root → vars' !! x = vars !! x) ∧
  if write_lost path vars then
    let parents := removelast (tail (split "."%char path)) in
    ∃ w, vars !! root ≫= member parents = Some w ∧ is_object w = false ∧
         vars' !! root ≫= member parents = Some w
  else Forall (λ s, s ≠ "") (split "."%char path) → resolve_value_path path vars' = Some v.
Proof.
  unfold set_variable_path, write_lost, resolve_value_path in *. cbv zeta in *.
  destruct (split_cons "."%char path) as (root & segments & Hsp). rewrite Hsp in *. cbn [head default from_option id tail] in *.
  destruct (_ || _); [done|]. destruct segments as [|s segments].
  - injection Hset as <-. split; [intros; by rewrite lookup_insert_ne|].
    intros [Hr _]%Forall_cons. rewrite decide_False by done. cbn. by rewrite lookup_insert_eq.
  - assert (∃ parents final, s :: segments = parents ++ [final]) as (parents & final & Hsegs).
    { destruct (exists_last (l := s :: segments)) as (ps & f & ->); [done|]. eauto. }
    rewrite Hsegs in *. injection Hset as <-. split; [intros; by rewrite lookup_insert_ne|].
    rewrite removelast_last, lookup_insert_eq. cbn [mbind option_bind].
    destruct (parents ++ [final]) as [|s' segs'] eqn:Hpf; [done|]. rewrite <-Hpf in *.
    pose proof (set_segments_spec parents final v (default (VObject []) (vars !! root))) as Hspec.
    destruct (vars !! root) as [x|] eqn:Hx; cbn [default from_option id] in *.
    + destruct (blocked parents x) eqn:Hb.
      * unfold blocked in Hb. destruct (member parents x) as [w|] eqn:Hw; [|done].
        exists w. split; [done|]. split; [by destruct (is_object w)|]. by rewrite Hspec.
      * intros [Hr Hne]%Forall_cons. rewrite decide_False by done. by apply member_resolve.
    + rewrite blocked_fresh in Hspec. intros [Hr Hne]%Forall_cons. rewrite decide_False by done.
      by apply member_resolve.
Qed.

Lemma set_variable_path_correct_witness :
  let vars : Vars := {["out" := VObject [("n", VNumber (PosInt 1))]]} in
  set_variable_path "out.user.name" (VString "x") vars =
    (<["out" := VObject [("n", VNumber (PosInt 1)); ("user", VObject [("name", VString "x")])]]> vars, Ok tt) ∧
  resolve_value_path "out.user.name" (set_variable_path "out.user.name" (VString "x") vars).1 = Some (VString "x").
Proof.
  intros vars. split; [by vm_compute|].
  assert (set_variable_path "out.user.name" (VString "x") vars = ((set_variable_path "out.user.name" (VString "x") vars).1, Ok tt)) as H
    by (by vm_compute).
  destruct (set_variable_path_correct "out.user.name" (VString "x") vars _ H) as [_ Hread].
  replace (write_lost "out.user.name" vars) with false in Hread by (by vm_compute). apply Hread. apply (bool_decide_eq_true_1 _). by vm_compute.
Defined.
