(* ===== verification/MessageContext.v ===== *)
(** Named message contexts: wf-workflow/src/message_context.rs, with the
    estimation ledger of wf-types/src/llm/ledger.rs.

    A context is an array of messages in the variable map: its active view, an
    archive of what the active view held before, and an entry of a ledger that
    estimates the active view.  Messages, their text form and their token
    estimate belong to the submodule llm-suite and are arguments; a message is
    only asked for its id. *)

From S2P Require Import Prelude Strings Json Expression.

(** * The ledger *)

Record LedgerEntry : Type := {
  estimated_tokens : Z;
  message_count : Z;
  version : Z;
  dirty : bool;
  last_emitted_version : option Z;
}.
Definition default_entry : LedgerEntry :=
  {| estimated_tokens := 0; message_count := 0; version := 0; dirty := false; last_emitted_version := None |}.
(** [TokenLedger], with its one field [entries]. *)
Notation TokenLedger := (gmap string LedgerEntry).

(** [self.entries.entry(id).or_default()] and a change of the entry *)
Definition with_entry (f : LedgerEntry → LedgerEntry) (id : string) (l : TokenLedger) : TokenLedger :=
  <[id := f (default default_entry (l !! id))]> l.
Definition append (id : string) (added_tokens added_count : Z) : TokenLedger → TokenLedger :=
  with_entry (λ e,
    {| estimated_tokens := sat_add u64_max (estimated_tokens e) added_tokens;
       message_count := sat_add u64_max (message_count e) added_count;
       version := sat_add u64_max (version e) 1; dirty := false;
       last_emitted_version := last_emitted_version e |}) id.
Definition replace (id : string) : TokenLedger → TokenLedger :=
  with_entry (λ e,
    {| estimated_tokens := 0; message_count := 0; version := sat_add u64_max (version e) 1; dirty := true;
       last_emitted_version := last_emitted_version e |}) id.
Definition set_dirty (e : LedgerEntry) : LedgerEntry :=
  {| estimated_tokens := estimated_tokens e; message_count := message_count e; version := version e;
     dirty := true; last_emitted_version := last_emitted_version e |}.
Definition mark_dirty (id : string) : TokenLedger → TokenLedger := alter set_dirty id.
Definition recompute (id : string) (tokens count : Z) : TokenLedger → TokenLedger :=
  with_entry (λ e,
    {| estimated_tokens := tokens; message_count := count; version := version e; dirty := false;
       last_emitted_version := last_emitted_version e |}) id.
Definition ledger_version (l : TokenLedger) (id : string) : Z := default 0%Z (version <$> l !! id).
Definition is_dirty (l : TokenLedger) (id : string) : bool := default false (dirty <$> l !! id).
Definition ledger_tokens (l : TokenLedger) (id : string) : Z := default 0%Z (estimated_tokens <$> l !! id).
Definition ledger_count (l : TokenLedger) (id : string) : Z := default 0%Z (message_count <$> l !! id).
Definition should_emit (l : TokenLedger) (id : string) (v : Z) : bool :=
  match l !! id with Some e => bool_decide (last_emitted_version e ≠ Some v) | None => true end.
Definition set_emitted (v : option Z) (e : LedgerEntry) : LedgerEntry :=
  {| estimated_tokens := estimated_tokens e; message_count := message_count e; version := version e;
     dirty := dirty e; last_emitted_version := v |}.
Definition mark_emitted (id : string) (v : Z) : TokenLedger → TokenLedger := with_entry (set_emitted (Some v)) id.
Definition clear_emitted (id : string) : TokenLedger → TokenLedger := alter (set_emitted None) id.
Definition ledger_remove (id : string) : TokenLedger → TokenLedger := delete id.
(** [total]; the sum of the machine is checked in debug builds only. *)
Definition ledger_total (l : TokenLedger) : Z := wrap64 (foldr Z.add 0%Z (estimated_tokens ∘ snd <$> map_to_list l)).

(** * Contexts *)

Definition CONTEXT_PREFIX : string := "__msg_ctx__".
Definition CONTEXT_HISTORY_PREFIX : string := "__msg_ctx_hist__".
Definition LEDGER_PREFIX : string := "__msg_ledger__".
Definition DEFAULT_CONTEXT_ID : string := "current".
Definition COMPRESSION_DEPTH_KEY : string := "__compression_depth__".
Definition compression_depth (vars : Vars) : Z := default 0%Z (vars !! COMPRESSION_DEPTH_KEY ≫= as_u64).
Definition set_compression_depth (depth : Z) : Vars → Vars := <[COMPRESSION_DEPTH_KEY := VNumber (PosInt depth)]>.
Definition normalize_id (context_id : string) : string :=
  if decide (context_id = "") then DEFAULT_CONTEXT_ID else context_id.
Definition context_key (context_id : string) : string := CONTEXT_PREFIX +:+ normalize_id context_id.
Definition history_key (context_id : string) : string := CONTEXT_HISTORY_PREFIX +:+ normalize_id context_id.

Section contexts.
  Context {Message : Type} `{Serde Message, Serde TokenLedger} (message_id : Message → string)
    (estimate_messages : list Message → Z).

(** [ledger] and [store_ledger] *)
Definition ledger (vars : Vars) : TokenLedger := default ∅ (vars !! LEDGER_PREFIX ≫= from_value).
Definition store_ledger (l : TokenLedger) : Vars → Vars := <[LEDGER_PREFIX := to_value l]>.
Definition on_ledger (f : TokenLedger → TokenLedger) (vars : Vars) : Vars := store_ledger (f (ledger vars)) vars.

(** The array under a key; text that is no array of messages counts as none. *)
Definition messages_at (key : string) (vars : Vars) : list Message :=
  default [] (vars !! key ≫= vec_from_value from_value).
Definition store_messages (key : string) (ms : list Message) : Vars → Vars := <[key := vec_to_value to_value ms]>.

(** [get_context]: the active view, and the variables with the recomputed
    estimate. *)
Definition refresh (context_id : string) (vars : Vars) : Vars :=
  let ms := messages_at (context_key context_id) vars in
  if is_dirty (ledger vars) (normalize_id context_id)
  then on_ledger (recompute (normalize_id context_id) (estimate_messages ms) (Z.of_nat (List.length ms))) vars
  else vars.
Definition get_context (context_id : string) (vars : Vars) : list Message * Vars :=
  (messages_at (context_key context_id) vars, refresh context_id vars).
Definition append_context (context_id : string) (ms : list Message) (vars : Vars) : Vars :=
  if decide (List.length ms = 0) then vars
  else
    let (existing, vars) := get_context context_id vars in
    on_ledger (append (normalize_id context_id) (estimate_messages ms) (Z.of_nat (List.length ms)))
      (store_messages (context_key context_id) (existing ++ ms) vars).

Definition archived_history (context_id : string) : Vars → list Message := messages_at (history_key context_id).
(** The messages of [ms] whose id is not among those of [known]. *)
Definition unknown (known ms : list Message) : list Message :=
  filter (λ m, message_id m ∉ message_id <$> known) ms.
Definition register_context (context_id : string) (ms : list Message) (vars : Vars) : Vars :=
  let (previous, vars) := get_context context_id vars in
  let vars :=
    match previous with
    | [] => vars
    | _ =>
        let history := archived_history context_id vars in
        store_messages (history_key context_id) (history ++ unknown history previous) vars
    end in
  on_ledger (replace (normalize_id context_id)) (store_messages (context_key context_id) ms vars).
Definition get_context_history (context_id : string) (vars : Vars) : list Message * Vars :=
  let archived := archived_history context_id vars in
  let (active, vars) := get_context context_id vars in
  (archived ++ unknown archived active, vars).
Definition restore_full_history (context_id : string) (vars : Vars) : Vars :=
  let (full, vars) := get_context_history context_id vars in
  on_ledger (replace (normalize_id context_id))
    (delete (history_key context_id) (store_messages (context_key context_id) full vars)).

(** [resolve_source_target] *)
Definition not_blank (o : option string) : option string := s ← o; if decide (trim s = "") then None else Some s.
Definition resolve_source_target (config : value) (default_context : string) : string * string :=
  let source := default default_context (not_blank (get config "source_context" ≫= as_str)) in
  (source, default source (not_blank (get config "target_context" ≫= as_str))).

(** [snapshot_branch_messages]: contexts, histories *)
Definition snapshot_branch_messages (vars : Vars) : Vars * Vars :=
  let entries := map_to_list vars in
  let under prefix (kv : string * value) := (λ id, (id, kv.2)) <$> strip_prefix prefix kv.1 in
  (list_to_map (omap (under CONTEXT_PREFIX) entries),
   list_to_map (omap (λ kv, match strip_prefix CONTEXT_PREFIX kv.1 with
                            | Some _ => None
                            | None => under CONTEXT_HISTORY_PREFIX kv
                            end) entries)).

(** [merge_archived_history]: [known] grows with what is added. *)
Definition add_unknown (history : list Message) (m : Message) : list Message :=
  if decide (message_id m ∈ message_id <$> history) then history else history ++ [m].
Definition merge_archived_history (context_id : string) (incoming : list Message) (vars : Vars) : Vars :=
  let history := archived_history context_id vars in
  let merged := foldl add_unknown history incoming in
  if decide (List.length merged = List.length history) then vars
  else store_messages (history_key context_id) merged vars.

(** [seed_message_inputs], which reads the parent and writes the child: the two
    stores and the number of contexts, or the message of the first missing
    required one. *)
Definition seed_entry (owner : string) (entry : value) (s : Vars * Vars * nat) :
    (Vars * Vars * nat) * result string () :=
  let '(parent, child, seeded) := s in
  let source := default "" (get entry "source_context_id" ≫= as_str) in
  let internal_name := default "" (get entry "internal_name" ≫= as_str) in
  let required := default false (get entry "required" ≫= as_bool) in
  if decide (source = "" ∨ internal_name = "") then (s, Ok tt)
  else
    let (active, parent) := get_context source parent in
    let history := archived_history source parent in
    match active, history with
    | [], [] =>
        (parent, child, seeded,
         if required then Err (owner +:+ ": required message context '" +:+ source +:+ "' not found") else Ok tt)
    | _, _ =>
        let child := match active with [] => child | _ => register_context internal_name active child end in
        let child := match history with [] => child | _ => merge_archived_history internal_name history child end in
        (parent, child, S seeded, Ok tt)
    end.
Fixpoint seed_entries (owner : string) (entries : list value) (s : Vars * Vars * nat) :
    (Vars * Vars * nat) * result string () :=
  match entries with
  | [] => (s, Ok tt)
  | entry :: rest =>
      match seed_entry owner entry s with
      | (s', Ok _) => seed_entries owner rest s'
      | failed => failed
      end
  end.
Definition seed_message_inputs (mappings : value) (owner : string) (parent child : Vars) :
    (Vars * Vars * nat) * result string () :=
  seed_entries owner (default [] (as_array mappings)) (parent, child, 0).

Definition has_context (context_id : string) (vars : Vars) : bool :=
  bool_decide (is_Some (vars !! context_key context_id)).
Definition ledger_estimated_tokens (context_id : string) (vars : Vars) : Z :=
  ledger_tokens (ledger vars) (normalize_id context_id).
Definition array_version (context_id : string) (vars : Vars) : Z :=
  ledger_version (ledger vars) (normalize_id context_id).
Definition ledger_message_count (context_id : string) (vars : Vars) : Z :=
  ledger_count (ledger vars) (normalize_id context_id).
Definition should_emit_compression (context_id : string) (v : Z) (vars : Vars) : bool :=
  should_emit (ledger vars) (normalize_id context_id) v.
Definition mark_compression_emitted (context_id : string) (v : Z) : Vars → Vars :=
  on_ledger (mark_emitted (normalize_id context_id) v).

(** * What the stores keep *)

Context `{!SerdeLaws Message, !SerdeLaws TokenLedger}.

Lemma messages_at_store key ms vars : messages_at key (store_messages key ms vars) = ms.
Proof.
  unfold messages_at, store_messages. rewrite lookup_insert_eq. cbn [mbind option_bind].
  rewrite vec_roundtrip; [done|apply from_to_value].
Qed.
Lemma messages_at_store_ne key key' ms vars :
  key ≠ key' → messages_at key' (store_messages key ms vars) = messages_at key' vars.
Proof. intros Hne. unfold messages_at, store_messages. by rewrite lookup_insert_ne. Qed.
Lemma messages_at_on_ledger f key vars : key ≠ LEDGER_PREFIX → messages_at key (on_ledger f vars) = messages_at key vars.
Proof. intros Hne. unfold messages_at, on_ledger, store_ledger. by rewrite lookup_insert_ne. Qed.
Lemma messages_at_delete key key' vars :
  messages_at key' (delete key vars) = if decide (key = key') then [] else messages_at key' vars.
Proof.
  unfold messages_at. case_decide as Hk; [subst key'; by rewrite lookup_delete_eq|by rewrite lookup_delete_ne].
Qed.
Lemma ledger_on_ledger f vars : ledger (on_ledger f vars) = f (ledger vars).
Proof. unfold ledger at 1, on_ledger, store_ledger. rewrite lookup_insert_eq. cbn. by rewrite from_to_value. Qed.
Lemma ledger_store key ms vars : key ≠ LEDGER_PREFIX → ledger (store_messages key ms vars) = ledger vars.
Proof. intros Hne. unfold ledger, store_messages. by rewrite lookup_insert_ne. Qed.
Lemma ledger_delete key vars : key ≠ LEDGER_PREFIX → ledger (delete key vars) = ledger vars.
Proof. intros Hne. unfold ledger. by rewrite lookup_delete_ne. Qed.

Lemma context_key_ledger id : context_key id ≠ LEDGER_PREFIX.
Proof. done. Qed.
Lemma history_key_ledger id : history_key id ≠ LEDGER_PREFIX.
Proof. done. Qed.
Lemma context_history_key id id' : context_key id ≠ history_key id'.
Proof. done. Qed.
Lemma history_context_key id id' : history_key id ≠ context_key id'.
Proof. done. Qed.
Lemma context_key_inj id id' : context_key id = context_key id' ↔ normalize_id id = normalize_id id'.
Proof. split; [|unfold context_key; by intros ->]. unfold context_key. by intros [= ?]. Qed.
Lemma history_key_inj id id' : history_key id = history_key id' ↔ normalize_id id = normalize_id id'.
Proof. split; [|unfold history_key; by intros ->]. unfold history_key. by intros [= ?]. Qed.

(** The active view and the full history, as functions of the store. *)
Definition active (id : string) : Vars → list Message := messages_at (context_key id).
Definition history (id : string) (vars : Vars) : list Message := (get_context_history id vars).1.
Lemma history_eq id vars : history id vars = archived_history id vars ++ unknown (archived_history id vars) (active id vars).
Proof. done. Qed.

Ltac key_facts :=
  first [ done | apply context_key_ledger | apply history_key_ledger | by rewrite context_key_inj
        | by rewrite history_key_inj | congruence ].
Ltac simp_store :=
  repeat first
    [ rewrite messages_at_store | rewrite messages_at_on_ledger by key_facts
    | rewrite messages_at_store_ne by key_facts ].

Lemma messages_at_refresh id key vars : key ≠ LEDGER_PREFIX → messages_at key (refresh id vars) = messages_at key vars.
Proof. intros Hk. unfold refresh. case_match; [by apply messages_at_on_ledger|done]. Qed.
Lemma append_view id ms vars id' :
  archived_history id' (append_context id ms vars) = archived_history id' vars ∧
  active id' (append_context id ms vars) =
    active id' vars ++ if decide (normalize_id id = normalize_id id') then ms else [].
Proof.
  unfold append_context, archived_history, active, get_context. destruct (decide (List.length ms = 0)) as [Hn|_].
  { split; [done|]. apply nil_length_inv in Hn as ->. case_decide; by rewrite app_nil_r. }
  split; [simp_store; by rewrite messages_at_refresh|].
  case_decide as Hid.
  - apply context_key_inj in Hid as <-. simp_store. done.
  - simp_store. rewrite messages_at_refresh by done. by rewrite app_nil_r.
Qed.
Lemma register_view id ms vars id' :
  archived_history id' (register_context id ms vars) =
    (if decide (normalize_id id = normalize_id id') then history id' vars else archived_history id' vars) ∧
  active id' (register_context id ms vars) = if decide (normalize_id id = normalize_id id') then ms else active id' vars.
Proof.
  rewrite history_eq. unfold register_context, archived_history, active, get_context. split.
  - simp_store. case_decide as Hid.
    + apply history_key_inj in Hid as Hh. apply context_key_inj in Hid as Hc. rewrite Hh, Hc.
      destruct (messages_at (context_key id') vars) as [|m l].
      * rewrite messages_at_refresh by done. unfold unknown. by rewrite filter_nil, app_nil_r.
      * simp_store. rewrite messages_at_refresh by done. done.
    + destruct (messages_at (context_key id) vars); simp_store; by rewrite messages_at_refresh.
  - case_decide as Hid; simp_store.
    + apply context_key_inj in Hid as <-. by simp_store.
    + destruct (messages_at (context_key id) vars); simp_store; by rewrite messages_at_refresh.
Qed.
Lemma restore_view id vars id' :
  archived_history id' (restore_full_history id vars) =
    (if decide (normalize_id id = normalize_id id') then [] else archived_history id' vars) ∧
  active id' (restore_full_history id vars) =
    if decide (normalize_id id = normalize_id id') then history id' vars else active id' vars.
Proof.
  rewrite history_eq. unfold restore_full_history, get_context_history, get_context, archived_history, active.
  split; simp_store; rewrite messages_at_delete; case_decide as Hk.
  - apply history_key_inj in Hk. by rewrite decide_True.
  - rewrite decide_False by (by rewrite <-history_key_inj). simp_store. by rewrite messages_at_refresh.
  - done.
  - case_decide as Hid.
    + apply history_key_inj in Hid as Hh. apply context_key_inj in Hid as Hc. rewrite Hh, Hc. by simp_store.
    + simp_store. by rewrite messages_at_refresh.
Qed.
Lemma merge_view id ms vars id' :
  archived_history id' (merge_archived_history id ms vars) =
    (if decide (normalize_id id = normalize_id id') then foldl add_unknown (archived_history id' vars) ms
     else archived_history id' vars) ∧
  active id' (merge_archived_history id ms vars) = active id' vars.
Proof.
  assert (Hgrow : ∀ l, ∃ l', foldl add_unknown l ms = l ++ l').
  { induction ms as [|m ms' IH]; intros l; [exists []; by rewrite app_nil_r|]. cbn [foldl]. unfold add_unknown at 2.
    case_decide; [apply IH|]. destruct (IH (l ++ [m])) as [l' ->]. exists (m :: l'). by rewrite <-app_assoc. }
  unfold merge_archived_history, archived_history, active. case_decide as Hlen.
  - split; [|done]. case_decide as Hid; [|done]. apply history_key_inj in Hid as <-.
    destruct (Hgrow (messages_at (history_key id) vars)) as [l' Hl]. rewrite Hl, length_app in Hlen.
    rewrite Hl. destruct l'; [by rewrite app_nil_r|]. cbn in Hlen. lia.
  - split; [|by simp_store]. case_decide as Hid; simp_store; [|done]. apply history_key_inj in Hid as <-. by simp_store.
Qed.

(** The operations on a store of contexts. *)
Inductive context_op : Type :=
| CRead (id : string)
| CAppend (id : string) (ms : list Message)
| CRegister (id : string) (ms : list Message)
| CMerge (id : string) (ms : list Message)
| CRestore (id : string)
| CEmitted (id : string) (v : Z).
Definition run_op (vars : Vars) (op : context_op) : Vars :=
  match op with
  | CRead id => refresh id vars
  | CAppend id ms => append_context id ms vars
  | CRegister id ms => register_context id ms vars
  | CMerge id ms => merge_archived_history id ms vars
  | CRestore id => restore_full_history id vars
  | CEmitted id v => mark_compression_emitted id v vars
  end.
Definition run_ops : list context_op → Vars → Vars := λ ops vars, foldl run_op vars ops.

(** ** History is never lost *)

Definition known_ids (id : string) (vars : Vars) : list string := message_id <$> history id vars.
Lemma elem_of_known_ids x id vars :
  x ∈ known_ids id vars ↔ x ∈ message_id <$> archived_history id vars ∨ x ∈ message_id <$> active id vars.
Proof.
  unfold known_ids. rewrite history_eq, fmap_app, elem_of_app. split; intros [Hx|Hx]; auto.
  - right. apply list_elem_of_fmap in Hx as (m & -> & [_ Hm]%list_elem_of_filter).
    apply list_elem_of_fmap. eauto.
  - destruct (decide (x ∈ message_id <$> archived_history id vars)) as [|Hn]; [by left|]. right.
    apply list_elem_of_fmap in Hx as (m & -> & Hm). apply list_elem_of_fmap. exists m. split; [done|].
    by apply list_elem_of_filter.
Qed.
Lemma known_ids_view id vars vars' :
  archived_history id vars' = archived_history id vars → active id vars' = active id vars →
  known_ids id vars' = known_ids id vars.
Proof. intros Ha Hc. unfold known_ids. by rewrite !history_eq, Ha, Hc. Qed.
Lemma foldl_add_unknown x l ms : x ∈ message_id <$> l → x ∈ message_id <$> foldl add_unknown l ms.
Proof.
  revert l. induction ms as [|m ms IH]; intros l Hx; [done|]. cbn [foldl]. apply IH. unfold add_unknown.
  case_decide; [done|]. rewrite fmap_app. set_solver.
Qed.
Lemma run_op_keeps op vars id x : x ∈ known_ids id vars → x ∈ known_ids id (run_op vars op).
Proof.
  intros Hx. destruct op as [i|i ms|i ms|i ms|i|i v]; cbn [run_op].
  - rewrite (known_ids_view id vars); [done|by apply messages_at_refresh..].
  - destruct (append_view i ms vars id) as [Ha Hc]. rewrite elem_of_known_ids, Ha, Hc, fmap_app in *. set_solver.
  - destruct (register_view i ms vars id) as [Ha Hc]. rewrite elem_of_known_ids, Ha, Hc. case_decide; [by left|].
    by apply elem_of_known_ids.
  - destruct (merge_view i ms vars id) as [Ha Hc]. rewrite elem_of_known_ids, Ha, Hc. case_decide.
    + apply elem_of_known_ids in Hx as [Hx|Hx]; [left; by apply foldl_add_unknown|by right].
    + by apply elem_of_known_ids.
  - destruct (restore_view i vars id) as [Ha Hc]. rewrite elem_of_known_ids, Ha, Hc. case_decide; [by right|].
    by apply elem_of_known_ids.
  - rewrite (known_ids_view id vars); [done|by apply messages_at_on_ledger..].
Qed.

(** C32: no sequence of operations loses a message of a context: its id stays in the full history
    (the archive and what the active view adds to it), which restoring makes the active view again,
    with an empty archive. *)
Theorem messages_never_lost (ops : list context_op) (vars : Vars) (id : string) (m : Message)
    (Hm : m ∈ active id vars ∨ m ∈ archived_history id vars) :
  let vars' := run_ops ops vars in
  message_id m ∈ message_id <$> history id vars' ∧
  active id (restore_full_history id vars') = history id vars' ∧
  archived_history id (restore_full_history id vars') = [].
Proof.
  cbv zeta. split.
  - change (message_id m ∈ known_ids id (run_ops ops vars)).
    assert (message_id m ∈ known_ids id vars) as Hk.
    { rewrite elem_of_known_ids. destruct Hm as [Hm|Hm]; [right|left]; by apply list_elem_of_fmap_2. }
    clear Hm. revert vars Hk. induction ops as [|op ops IH]; intros vars Hk; [done|].
    apply (IH (run_op vars op)), run_op_keeps, Hk.
  - destruct (restore_view id (run_ops ops vars) id) as [-> ->]. rewrite !decide_True by done. done.
Qed.

(** ** The ledger *)

Context (Hadd : ∀ a b, estimate_messages (a ++ b) = (estimate_messages a + estimate_messages b)%Z)
  (Hpos : ∀ a, (0 <= estimate_messages a)%Z).

(** The numbers of an entry, as far as the machine can count. *)
Definition counts (e : LedgerEntry) (ms : list Message) : Prop :=
  ((estimate_messages ms <= u64_max → estimated_tokens e = estimate_messages ms) ∧
   (Z.of_nat (List.length ms) <= u64_max → message_count e = Z.of_nat (List.length ms)))%Z.
Definition entry_ok (ms : list Message) (o : option LedgerEntry) : Prop :=
  match o with None => ms = [] | Some e => dirty e = false → counts e ms end.
Definition ledger_ok (vars : Vars) : Prop :=
  ∀ id, entry_ok (active id vars) (ledger vars !! normalize_id id).
Lemma estimate_nil : estimate_messages [] = 0%Z.
Proof. pose proof (Hadd [] []) as H'. cbn in H'. lia. Qed.
Lemma lookup_with_entry f id l id' :
  with_entry f id l !! id' = if decide (id = id') then Some (f (default default_entry (l !! id'))) else l !! id'.
Proof. unfold with_entry. case_decide; [subst; by rewrite lookup_insert_eq|by rewrite lookup_insert_ne]. Qed.

(** What an operation does to the entries of the ledger. *)
Lemma ledger_refresh i vars x :
  ledger (refresh i vars) !! x =
    if decide (normalize_id i = x) then
      match ledger vars !! x with
      | Some e => Some (if dirty e then {| estimated_tokens := estimate_messages (active i vars);
                          message_count := Z.of_nat (List.length (active i vars)); version := version e; dirty := false;
                          last_emitted_version := last_emitted_version e |} else e)
      | None => None
      end
    else ledger vars !! x.
Proof.
  unfold refresh, is_dirty. case_decide as Hx.
  - subst x. destruct (ledger vars !! normalize_id i) as [e|] eqn:He;
      cbn [fmap option_fmap option_map default from_option id]; [|done].
    destruct (dirty e) eqn:Hd; [|done]. rewrite ledger_on_ledger. unfold recompute.
    by rewrite lookup_with_entry, decide_True, He.
  - case_match; [|done]. rewrite ledger_on_ledger. unfold recompute. by rewrite lookup_with_entry, decide_False.
Qed.
Lemma refresh_ok i vars : ledger_ok vars → ledger_ok (refresh i vars).
Proof.
  intros Hok id. specialize (Hok id). unfold active. rewrite messages_at_refresh by done. rewrite ledger_refresh.
  case_decide as Hid; [|done]. destruct (ledger vars !! normalize_id id) as [e|] eqn:He; [|done]. cbn [entry_ok] in *.
  destruct (dirty e) eqn:Hd; [|intros _; by apply Hok]. intros _. apply context_key_inj in Hid. unfold active. rewrite Hid. by split.
Qed.
Lemma refresh_clean i vars : is_dirty (ledger (refresh i vars)) (normalize_id i) = false.
Proof.
  unfold is_dirty. rewrite ledger_refresh, decide_True by done.
  destruct (ledger vars !! normalize_id i) as [e|]; [|done]. cbn. by destruct (dirty e) eqn:?.
Qed.
Lemma append_ok i ms vars : ledger_ok vars → ledger_ok (append_context i ms vars).
Proof.
  intros Hok id. destruct (append_view i ms vars id) as [_ ->]. unfold append_context. destruct (decide (List.length ms = 0)) as [Hn|_].
  { apply nil_length_inv in Hn as ->. replace (if decide _ then [] else []) with (@nil Message) by (by case_decide).
    rewrite app_nil_r. apply Hok. }
  cbn [get_context]. rewrite ledger_on_ledger, ledger_store by done. unfold append. rewrite lookup_with_entry.
  case_decide as Hid; [|by rewrite app_nil_r; pose proof (refresh_ok i vars Hok id) as Hr; unfold active in Hr;
                        rewrite messages_at_refresh in Hr].
  pose proof (refresh_ok i vars Hok id) as Hr. pose proof (refresh_clean i vars) as Hc. unfold active in *.
  rewrite messages_at_refresh in Hr by done. rewrite Hid in Hc. unfold is_dirty in Hc. cbn [entry_ok]. intros _.
  pose proof (Hpos ms). pose proof (Hpos (messages_at (context_key id) vars)).
  unfold counts. cbn [estimated_tokens message_count]. rewrite Hadd, length_app.
  destruct (ledger (refresh i vars) !! normalize_id id) as [e|]; cbn in *.
  - destruct (Hr Hc) as [Ht Hm]. unfold sat_add. split; intros Hb; [rewrite Ht by lia|rewrite Hm by lia]; lia.
  - rewrite Hr. cbn. rewrite estimate_nil. unfold sat_add. split; lia.
Qed.
(** An operation that leaves the views of the other contexts and replaces or
    keeps the entry of its own. *)
Lemma replaced_ok i vars vars' :
  ledger_ok vars → ledger vars' = replace (normalize_id i) (ledger (refresh i vars)) →
  (∀ x, normalize_id i ≠ normalize_id x → active x vars' = active x vars) → ledger_ok vars'.
Proof.
  intros Hok Hl Hc x. rewrite Hl. unfold replace. rewrite lookup_with_entry. case_decide as Hid; [done|].
  rewrite (Hc x Hid), ledger_refresh, decide_False by done. apply Hok.
Qed.
Lemma run_op_ok op vars : ledger_ok vars → ledger_ok (run_op vars op).
Proof.
  intros Hok. destruct op as [i|i ms|i ms|i ms|i|i v]; cbn [run_op].
  - by apply refresh_ok.
  - by apply append_ok.
  - apply (replaced_ok i vars); [done| |].
    + unfold register_context. cbn [get_context]. rewrite ledger_on_ledger, ledger_store by done. f_equal.
      case_match; [done|]. by rewrite ledger_store.
    + intros x Hx. destruct (register_view i ms vars x) as [_ ->]. by rewrite decide_False.
  - intros x. destruct (merge_view i ms vars x) as [_ ->]. unfold merge_archived_history. case_decide; [apply Hok|].
    rewrite ledger_store by done. apply Hok.
  - apply (replaced_ok i vars); [done| |].
    + unfold restore_full_history. cbn [get_context_history get_context].
      rewrite ledger_on_ledger, ledger_delete, ledger_store by done. done.
    + intros x Hx. destruct (restore_view i vars x) as [_ ->]. by rewrite decide_False.
  - intros x. unfold mark_compression_emitted, active. rewrite ledger_on_ledger, messages_at_on_ledger by done.
    unfold mark_emitted. rewrite lookup_with_entry. specialize (Hok x). unfold active in Hok. case_decide as Hid; [|done].
    cbn [entry_ok]. destruct (ledger vars !! normalize_id x) as [e|]; cbn in *; [done|].
    rewrite Hok. unfold counts. cbn. rewrite estimate_nil. intros _. by split.
Qed.

(** Whatever happened to a store of contexts that started right, reading a context leaves its
    ledger entry with the number of its messages and their estimate, as far as 64 bits count. *)
Theorem ledger_exact (ops : list context_op) (vars : Vars) (id : string) (Hok : ledger_ok vars) :
  let (ms, vars') := get_context id (run_ops ops vars) in
  ms = active id (run_ops ops vars) ∧ ledger_ok vars' ∧
  (estimate_messages ms <= u64_max → ledger_estimated_tokens id vars' = estimate_messages ms)%Z ∧
  (Z.of_nat (List.length ms) <= u64_max → ledger_message_count id vars' = Z.of_nat (List.length ms))%Z.
Proof.
  assert (ledger_ok (run_ops ops vars)) as Hrun.
  { revert vars Hok. induction ops as [|op ops IH]; intros vars Hok; [done|]. apply (IH (run_op vars op)).
    by apply run_op_ok. }
  cbn [get_context]. set (vars1 := run_ops ops vars) in *. split; [done|].
  pose proof (refresh_ok id vars1 Hrun) as Hr. split; [done|]. specialize (Hr id).
  pose proof (refresh_clean id vars1) as Hc. unfold active in Hr. rewrite messages_at_refresh in Hr by done.
  unfold ledger_estimated_tokens, ledger_message_count, ledger_tokens, ledger_count, is_dirty in *.
  destruct (ledger (refresh id vars1) !! normalize_id id) as [e|]; cbn in *.
  - exact (Hr Hc).
  - rewrite Hr. cbn. rewrite estimate_nil. by split.
Qed.
End contexts.

(** * The derived text form of the ledger *)

Definition entry_to_value (e : LedgerEntry) : value :=
  VObject ([("dirty", VBool (dirty e)); ("estimated_tokens", VNumber (PosInt (estimated_tokens e)))]
    ++ (match last_emitted_version e with Some v => [("last_emitted_version", VNumber (PosInt v))] | None => [] end)
    ++ [("message_count", VNumber (PosInt (message_count e))); ("version", VNumber (PosInt (version e)))]).
Definition entry_from_value (v : value) : option LedgerEntry :=
  tokens ← get v "estimated_tokens" ≫= as_u64;
  count ← get v "message_count" ≫= as_u64;
  ver ← get v "version" ≫= as_u64;
  d ← get v "dirty" ≫= as_bool;
  let entry last := {| estimated_tokens := tokens; message_count := count; version := ver; dirty := d;
                       last_emitted_version := last |} in
  match get v "last_emitted_version" with
  | None | Some VNull => Some (entry None)
  | Some x => last ← as_u64 x; Some (entry (Some last))
  end.
Definition ledger_to_value (l : TokenLedger) : value := VObject [("entries", object_of (entry_to_value <$> l))].
Definition ledger_from_value (v : value) : option TokenLedger :=
  match get v "entries" ≫= as_map with
  | Some m =>
      if decide (map_Forall (M := gmap string value) (λ (_ : string) x, is_Some (entry_from_value x)) m)
      then Some (omap (M := gmap string) entry_from_value m) else None
  | None => None
  end.
#[export] Instance ledger_serde : Serde TokenLedger := { to_value := ledger_to_value; from_value := ledger_from_value }.
Lemma entry_roundtrip e : entry_from_value (entry_to_value e) = Some e.
Proof. destruct e as [t c v d [w|]]; reflexivity. Qed.
#[export] Instance ledger_serde_laws : SerdeLaws TokenLedger.
Proof.
  split; [|done]. intros l. unfold from_value, to_value, ledger_serde, ledger_from_value.
  change (get (ledger_to_value l) "entries") with (Some (object_of (entry_to_value <$> l))).
  cbn [mbind option_bind]. rewrite as_map_object_of. cbn [mbind option_bind]. rewrite decide_True.
  - f_equal. apply map_eq. intros i. rewrite lookup_omap, lookup_fmap. destruct (l !! i); [|done]. apply entry_roundtrip.
  - intros i x. rewrite lookup_fmap. destruct (l !! i) as [e|]; [|done]. intros [= <-]. rewrite entry_roundtrip. eauto.
Qed.

(** * A concrete store

    Messages that are their own id and text, each estimated at its length. *)
#[export] Instance text_serde : Serde string := { to_value := VString; from_value := as_str }.
#[export] Instance text_serde_laws : SerdeLaws string.
Proof. by split. Qed.
Definition text_estimate (ms : list string) : Z := foldr (λ m, Z.add (Z.of_nat (String.length m))) 0%Z ms.
Lemma text_estimate_app a b : text_estimate (a ++ b) = (text_estimate a + text_estimate b)%Z.
Proof. induction a as [|m a IH]; cbn; [done|]. unfold text_estimate in *. lia. Qed.
Lemma text_estimate_pos a : (0 <= text_estimate a)%Z.
Proof. induction a as [|m a IH]; cbn; [done|]. unfold text_estimate in *. lia. Qed.

(** A conversation is compressed and goes on. *)
Definition compressed : list (context_op (Message := string)) :=
  [CAppend "" ["hello"; "world"]; CRegister "current" ["summary"]; CAppend "" ["again"]].
Lemma messages_never_lost_witness :
  let vars := append_context text_estimate "" ["first"] ∅ in
  active "current" (run_ops id text_estimate compressed vars) = ["summary"; "again"] ∧
  "first" ∈ id <$> history id text_estimate "current" (run_ops id text_estimate compressed vars).
Proof.
  intros vars. split; [by vm_compute|].
  apply (messages_never_lost id text_estimate compressed vars "current" "first"). left. apply (bool_decide_eq_true_1 _).
  by vm_compute.
Defined.
Lemma ledger_exact_witness :
  ledger_estimated_tokens "" (get_context text_estimate "" (run_ops id text_estimate compressed ∅)).2 = 12%Z.
Proof.
  assert (ledger_ok text_estimate ∅) as Hok by (intros x; reflexivity).
  pose proof (ledger_exact id text_estimate text_estimate_app text_estimate_pos compressed ∅ "" Hok) as (Hms & _ & Ht & _).
  cbn [snd get_context] in *. rewrite Ht; [by vm_compute|by vm_compute].
Defined.
