(* ===== verification/TokenTracker.v ===== *)
(** The token accounting of a conversation:
    wf-execution-shared/src/token_tracker.rs.

    Three tracks are kept apart: the estimates that drive compression, the
    billed totals that drive the task budget, and the provider's usage.  Request
    ids and times are arguments.  Machine additions that Rust checks in debug
    builds only are written as they run in release builds. *)

From S2P Require Import Prelude Numbers.

(** * Usage of one request *)

Record RequestUsage : Type := {
  prompt_tokens : Z;
  completion_tokens : Z;
  total_tokens : Z;
  reasoning_tokens : option Z;
  cache_read_tokens : option Z;
  cache_write_tokens : option Z;
  total_cost : option f64;
  usage_model : option string;
}.
Definition no_usage : RequestUsage :=
  {| prompt_tokens := 0; completion_tokens := 0; total_tokens := 0; reasoning_tokens := None; cache_read_tokens := None;
     cache_write_tokens := None; total_cost := None; usage_model := None |}.
(** [merge_non_zero]: what the later usage reports wins. *)
Definition non_zero (old new : Z) : Z := if decide (0 < new)%Z then new else old.
Definition reported {A} (old new : option A) : option A := match new with Some _ => new | None => old end.
Definition merge_non_zero (u other : RequestUsage) : RequestUsage :=
  {| prompt_tokens := non_zero (prompt_tokens u) (prompt_tokens other);
     completion_tokens := non_zero (completion_tokens u) (completion_tokens other);
     total_tokens := non_zero (total_tokens u) (total_tokens other);
     reasoning_tokens := reported (reasoning_tokens u) (reasoning_tokens other);
     cache_read_tokens := reported (cache_read_tokens u) (cache_read_tokens other);
     cache_write_tokens := reported (cache_write_tokens u) (cache_write_tokens other);
     total_cost := reported (total_cost u) (total_cost other);
     usage_model := reported (usage_model u) (usage_model other) |}.
(** [RequestUsage::from] the codec's statistics, which carry no model. *)
Definition of_stats (u : RequestUsage) : RequestUsage :=
  {| prompt_tokens := prompt_tokens u; completion_tokens := completion_tokens u; total_tokens := total_tokens u;
     reasoning_tokens := reasoning_tokens u; cache_read_tokens := cache_read_tokens u;
     cache_write_tokens := cache_write_tokens u; total_cost := total_cost u; usage_model := None |}.
Definition is_empty_usage (u : RequestUsage) : bool :=
  bool_decide (total_tokens u = 0 ∧ prompt_tokens u = 0 ∧ completion_tokens u = 0)%Z.

(** An entry of the usage history; its profile and execution are never set. *)
Record TokenUsageHistory : Type := {
  request_id : string;
  timestamp : Z;
  entry_usage : RequestUsage;
  entry_estimated : option bool;
}.
Definition DEFAULT_HISTORY_LIMIT : nat := 100.

Record CompressionFlight : Type := { flight_version : Z; started_at_ms : Z; forced : bool }.

(** * The tracker *)

Record TokenUsageTracker : Type := {
  token_limit : Z;
  context_limit : Z;
  cumulative : RequestUsage;
  lifetime : RequestUsage;
  current_request : RequestUsage;
  estimated_cumulative : Z;
  billed_cumulative : Z;
  calibration_bias : Z;
  pending_estimated : Z;
  current_estimated : bool;
  usage_history : list TokenUsageHistory;
  history_limit : nat;
  warning_emitted : bool;
  preflight_warning_emitted : bool;
  last_limit_tier : Z;
  compression_flights : gmap string CompressionFlight;
  no_taker_counts : gmap string Z;
  still_over_budget_counts : gmap string Z;
}.
Implicit Types t : TokenUsageTracker.
Definition new_tracker (limit : Z) : TokenUsageTracker :=
  {| token_limit := limit; context_limit := 0; cumulative := no_usage; lifetime := no_usage; current_request := no_usage;
     estimated_cumulative := 0; billed_cumulative := 0; calibration_bias := 0; pending_estimated := 0;
     current_estimated := false; usage_history := []; history_limit := DEFAULT_HISTORY_LIMIT; warning_emitted := false;
     preflight_warning_emitted := false; last_limit_tier := 0; compression_flights := ∅; no_taker_counts := ∅;
     still_over_budget_counts := ∅ |}.

(** Updates of a group of fields. *)
Definition set_limits (token context : Z) t : TokenUsageTracker :=
  {| token_limit := token; context_limit := context; cumulative := cumulative t; lifetime := lifetime t;
     current_request := current_request t; estimated_cumulative := estimated_cumulative t;
     billed_cumulative := billed_cumulative t; calibration_bias := calibration_bias t;
     pending_estimated := pending_estimated t; current_estimated := current_estimated t; usage_history := usage_history t;
     history_limit := history_limit t; warning_emitted := warning_emitted t;
     preflight_warning_emitted := preflight_warning_emitted t; last_limit_tier := last_limit_tier t;
     compression_flights := compression_flights t; no_taker_counts := no_taker_counts t;
     still_over_budget_counts := still_over_budget_counts t |}.
Definition set_request (u : RequestUsage) (pending : Z) (estimated : bool) t : TokenUsageTracker :=
  {| token_limit := token_limit t; context_limit := context_limit t; cumulative := cumulative t; lifetime := lifetime t;
     current_request := u; estimated_cumulative := estimated_cumulative t; billed_cumulative := billed_cumulative t;
     calibration_bias := calibration_bias t; pending_estimated := pending; current_estimated := estimated;
     usage_history := usage_history t; history_limit := history_limit t; warning_emitted := warning_emitted t;
     preflight_warning_emitted := preflight_warning_emitted t; last_limit_tier := last_limit_tier t;
     compression_flights := compression_flights t; no_taker_counts := no_taker_counts t;
     still_over_budget_counts := still_over_budget_counts t |}.
Definition set_totals (cum life : RequestUsage) (estimated billed bias : Z) (history : list TokenUsageHistory) t :
    TokenUsageTracker :=
  {| token_limit := token_limit t; context_limit := context_limit t; cumulative := cum; lifetime := life;
     current_request := current_request t; estimated_cumulative := estimated; billed_cumulative := billed;
     calibration_bias := bias; pending_estimated := pending_estimated t; current_estimated := current_estimated t;
     usage_history := history; history_limit := history_limit t; warning_emitted := warning_emitted t;
     preflight_warning_emitted := preflight_warning_emitted t; last_limit_tier := last_limit_tier t;
     compression_flights := compression_flights t; no_taker_counts := no_taker_counts t;
     still_over_budget_counts := still_over_budget_counts t |}.
Definition set_reports (warning preflight : bool) (tier : Z) t : TokenUsageTracker :=
  {| token_limit := token_limit t; context_limit := context_limit t; cumulative := cumulative t; lifetime := lifetime t;
     current_request := current_request t; estimated_cumulative := estimated_cumulative t;
     billed_cumulative := billed_cumulative t; calibration_bias := calibration_bias t;
     pending_estimated := pending_estimated t; current_estimated := current_estimated t; usage_history := usage_history t;
     history_limit := history_limit t; warning_emitted := warning; preflight_warning_emitted := preflight;
     last_limit_tier := tier; compression_flights := compression_flights t; no_taker_counts := no_taker_counts t;
     still_over_budget_counts := still_over_budget_counts t |}.
Definition set_flights (flights : gmap string CompressionFlight) (no_taker still_over : gmap string Z) t : TokenUsageTracker :=
  {| token_limit := token_limit t; context_limit := context_limit t; cumulative := cumulative t; lifetime := lifetime t;
     current_request := current_request t; estimated_cumulative := estimated_cumulative t;
     billed_cumulative := billed_cumulative t; calibration_bias := calibration_bias t;
     pending_estimated := pending_estimated t; current_estimated := current_estimated t; usage_history := usage_history t;
     history_limit := history_limit t; warning_emitted := warning_emitted t;
     preflight_warning_emitted := preflight_warning_emitted t; last_limit_tier := last_limit_tier t;
     compression_flights := flights; no_taker_counts := no_taker; still_over_budget_counts := still_over |}.

Definition set_token_limit (n : Z) t : TokenUsageTracker := set_limits n (context_limit t) t.
Definition set_context_limit (n : Z) t : TokenUsageTracker := set_limits (token_limit t) n t.

(** ** Usage of the request in flight *)

Definition update_api_usage (u : RequestUsage) t : TokenUsageTracker :=
  set_request (merge_non_zero (current_request t) (of_stats u)) (pending_estimated t) false t.
Definition accumulate_stream_usage (u : RequestUsage) t : TokenUsageTracker :=
  set_request (merge_non_zero (current_request t) u) (pending_estimated t) false t.
Definition accumulate_estimated_usage (prompt completion : Z) t : TokenUsageTracker :=
  set_request (current_request t) (sat_add u64_max (pending_estimated t) (prompt + completion)) (current_estimated t) t.
Definition update_estimated_usage (prompt completion : Z) t : TokenUsageTracker :=
  let u := current_request t in
  let u := {| prompt_tokens := prompt; completion_tokens := completion; total_tokens := wrap32 (prompt + completion);
              reasoning_tokens := reasoning_tokens u; cache_read_tokens := cache_read_tokens u;
              cache_write_tokens := cache_write_tokens u; total_cost := total_cost u; usage_model := usage_model u |} in
  let t := accumulate_estimated_usage prompt completion (set_request u (pending_estimated t) (current_estimated t) t) in
  set_request (current_request t) (pending_estimated t) true t.

(** [finalize_current_request], in its parts. *)
Definition actual_total (u : RequestUsage) : Z := Z.max (total_tokens u) (prompt_tokens u + completion_tokens u).
Definition is_actual t : bool := negb (current_estimated t) && bool_decide (0 < actual_total (current_request t))%Z.
Definition billed_of_request t : Z := if is_actual t then actual_total (current_request t) else pending_estimated t.
(** [bias += (sample - bias) / 4], which truncates towards zero. *)
Definition calibrate (bias sample : Z) : Z := wrap_i64 (bias + Z.quot (wrap_i64 (sample - bias)) 4).
Definition next_bias t : Z :=
  if is_actual t && bool_decide (0 < pending_estimated t)%Z
  then calibrate (calibration_bias t)
         (wrap_i64 (wrap_i64 (actual_total (current_request t)) - wrap_i64 (pending_estimated t)))
  else calibration_bias t.
Definition push_history (id : string) (now : Z) t : list TokenUsageHistory :=
  let entry := {| request_id := id; timestamp := now; entry_usage := current_request t;
                  entry_estimated := if current_estimated t then Some true else None |} in
  let h := usage_history t in
  (if decide (history_limit t ≤ List.length h) then tail h else h) ++ [entry].
(** The cache and reasoning figures of a request are not added up. *)
Definition add_usage (c u : RequestUsage) : RequestUsage :=
  {| prompt_tokens := wrap32 (prompt_tokens c + prompt_tokens u);
     completion_tokens := wrap32 (completion_tokens c + completion_tokens u);
     total_tokens := wrap32 (total_tokens c + total_tokens u);
     reasoning_tokens := reasoning_tokens c; cache_read_tokens := cache_read_tokens c;
     cache_write_tokens := cache_write_tokens c;
     total_cost := match total_cost c, total_cost u with
                   | Some a, Some b => Some (f64_add a b) | Some a, None => Some a | None, o => o end;
     usage_model := usage_model c |}.
Definition finalize_current_request (id : string) (now : Z) t : TokenUsageTracker :=
  let empty := is_empty_usage (current_request t) in
  if empty && bool_decide (pending_estimated t = 0)%Z then t
  else
    let cum := if empty then cumulative t else add_usage (cumulative t) (current_request t) in
    let history := if empty then usage_history t else push_history id now t in
    set_request no_usage 0 false
      (set_totals cum cum (sat_add u64_max (estimated_cumulative t) (pending_estimated t))
         (sat_add u64_max (billed_cumulative t) (billed_of_request t)) (next_bias t) history t).

(** ** What is read off the tracker *)

Definition get_token_usage t : option RequestUsage :=
  if is_empty_usage (cumulative t) then None else Some (cumulative t).
Definition calibrated t (stable_estimate : Z) : Z :=
  if decide (0 ≤ calibration_bias t)%Z then sat_add u64_max stable_estimate (calibration_bias t)
  else sat_sub stable_estimate (wrap64 (- calibration_bias t)).
Definition is_estimated_limit_exceeded t : bool :=
  bool_decide (0 < token_limit t ∧ token_limit t < estimated_cumulative t)%Z.
Definition is_billed_limit_exceeded t : bool := bool_decide (0 < token_limit t ∧ token_limit t < billed_cumulative t)%Z.
Definition billed_usage_percentage t : option f64 :=
  if decide (token_limit t = 0)%Z then None
  else Some (f64_mul (f64_div (f64_of_Z (billed_cumulative t)) (f64_of_Z (token_limit t))) (f64_of_Z 100)).

(** ** Reports that are made once *)

Definition consume_warning (threshold_percentage : f64) t : TokenUsageTracker * bool :=
  if warning_emitted t then (t, false)
  else match billed_usage_percentage t with
  | None => (t, false)
  | Some percentage =>
      if decide (f64_compare percentage threshold_percentage = Some Gt)
      then (set_reports true (preflight_warning_emitted t) (last_limit_tier t) t, true) else (t, false)
  end.
Definition consume_preflight_warning t : TokenUsageTracker * bool :=
  if preflight_warning_emitted t then (t, false)
  else (set_reports (warning_emitted t) true (last_limit_tier t) t, true).
(** [(billed * 100 / limit / 50) as u32] *)
Definition limit_tier t : Z := wrap32 (wrap64 (billed_cumulative t * 100) / token_limit t / 50).
Definition consume_limit_exceeded_tier t : TokenUsageTracker * option Z :=
  if is_billed_limit_exceeded t then
    let tier := limit_tier t in
    if decide (last_limit_tier t < tier)%Z
    then (set_reports (warning_emitted t) (preflight_warning_emitted t) tier t, Some tier) else (t, None)
  else (t, None).
Definition reset_warning t : TokenUsageTracker := set_reports false (preflight_warning_emitted t) (last_limit_tier t) t.
Definition reset_preflight_warning t : TokenUsageTracker := set_reports (warning_emitted t) false (last_limit_tier t) t.

(** ** Compression runs in flight *)

Definition begin_compression_flight (target : string) (version : Z) (is_forced : bool) (now : Z) t : TokenUsageTracker :=
  set_flights (<[target := {| flight_version := version; started_at_ms := now; forced := is_forced |}]> (compression_flights t))
    (no_taker_counts t) (still_over_budget_counts t) t.
Definition compression_flight t (target : string) : option CompressionFlight := compression_flights t !! target.
Definition end_compression_flight (target : string) (version : Z) t : TokenUsageTracker * bool :=
  match compression_flight t target with
  | Some f =>
      if decide (flight_version f = version)
      then (set_flights (delete target (compression_flights t)) (no_taker_counts t) (still_over_budget_counts t) t, true)
      else (t, false)
  | None => (t, false)
  end.
Definition clear_compression_flights t : TokenUsageTracker :=
  set_flights ∅ (no_taker_counts t) (still_over_budget_counts t) t.
Definition NO_TAKER_ESCALATION_THRESHOLD : Z := 3.
Definition STILL_OVER_BUDGET_ESCALATION_THRESHOLD : Z := 3.
Definition no_taker_count t (target : string) : Z := default 0%Z (no_taker_counts t !! target).
Definition record_no_taker (target : string) t : TokenUsageTracker * Z :=
  let count := wrap32 (no_taker_count t target + 1) in
  (set_flights (compression_flights t) (<[target := count]> (no_taker_counts t)) (still_over_budget_counts t) t, count).
Definition reset_no_taker (target : string) t : TokenUsageTracker :=
  set_flights (compression_flights t) (delete target (no_taker_counts t)) (still_over_budget_counts t) t.
Definition still_over_budget_count t (target : string) : Z := default 0%Z (still_over_budget_counts t !! target).
Definition record_still_over_budget (target : string) t : TokenUsageTracker * Z :=
  let count := wrap32 (still_over_budget_count t target + 1) in
  (set_flights (compression_flights t) (no_taker_counts t) (<[target := count]> (still_over_budget_counts t)) t, count).
Definition reset_still_over_budget (target : string) t : TokenUsageTracker :=
  set_flights (compression_flights t) (no_taker_counts t) (delete target (still_over_budget_counts t)) t.

(** ** Checkpointing *)

Record TokenTrackerState : Type := {
  s_cumulative : RequestUsage;
  s_lifetime : RequestUsage;
  s_current_request : RequestUsage;
  s_history : list TokenUsageHistory;
  s_warning_emitted : bool;
  s_preflight_warning_emitted : bool;
  s_estimated_cumulative : Z;
  s_billed_cumulative : Z;
  s_calibration_bias : Z;
  s_last_limit_tier : Z;
  s_context_limit : Z;
  s_compressed_contexts : gmap string Z;
  s_compression_flights : gmap string CompressionFlight;
  s_no_taker_counts : gmap string Z;
  s_still_over_budget_counts : gmap string Z;
}.
Definition tracker_state t : TokenTrackerState :=
  {| s_cumulative := cumulative t; s_lifetime := lifetime t; s_current_request := current_request t;
     s_history := usage_history t; s_warning_emitted := warning_emitted t;
     s_preflight_warning_emitted := preflight_warning_emitted t; s_estimated_cumulative := estimated_cumulative t;
     s_billed_cumulative := billed_cumulative t; s_calibration_bias := calibration_bias t;
     s_last_limit_tier := last_limit_tier t; s_context_limit := context_limit t; s_compressed_contexts := ∅;
     s_compression_flights := compression_flights t; s_no_taker_counts := no_taker_counts t;
     s_still_over_budget_counts := still_over_budget_counts t |}.
(** The pending estimate and its marker stay those of the live tracker. *)
Definition restore_tracker (s : TokenTrackerState) t : TokenUsageTracker :=
  {| token_limit := token_limit t; context_limit := s_context_limit s; cumulative := s_cumulative s;
     lifetime := s_lifetime s; current_request := s_current_request s; estimated_cumulative := s_estimated_cumulative s;
     billed_cumulative := s_billed_cumulative s; calibration_bias := s_calibration_bias s;
     pending_estimated := pending_estimated t; current_estimated := current_estimated t; usage_history := s_history s;
     history_limit := history_limit t; warning_emitted := s_warning_emitted s;
     preflight_warning_emitted := s_preflight_warning_emitted s; last_limit_tier := s_last_limit_tier s;
     compression_flights := ∅; no_taker_counts := s_no_taker_counts s;
     still_over_budget_counts := s_still_over_budget_counts s |}.

(** * Calibration

    The bias follows the error of the estimates. *)

(** A request whose usage the provider reports, next to a local estimate. *)
Definition reported_request (u : RequestUsage) (prompt completion : Z) (id : string) (now : Z) t : TokenUsageTracker :=
  finalize_current_request id now (update_api_usage u (accumulate_estimated_usage prompt completion t)).
Definition idle t : Prop := current_request t = no_usage ∧ pending_estimated t = 0%Z ∧ current_estimated t = false.
Definition small (z : Z) : Prop := (Z.abs z < 2 ^ 62)%Z.

Lemma calibrate_small bias sample : small bias → small sample → calibrate bias sample = (bias + Z.quot (sample - bias) 4)%Z.
Proof.
  unfold small, calibrate. intros Hb Hs. pose proof (Z.quot_rem' (sample - bias) 4). pose proof (Z.rem_bound_abs (sample - bias) 4 ltac:(lia)).
  change (2 ^ 62)%Z with 4611686018427387904%Z in *.
  assert (Hw : wrap_i64 (sample - bias) = (sample - bias)%Z) by (unfold wrap_i64; rewrite Z.mod_small; lia).
  rewrite Hw. unfold wrap_i64. rewrite Z.mod_small; lia.
Qed.
(** One step: the distance to the sample keeps its sign and shrinks, down to three. *)
Lemma quarter_step d : (Z.abs (d - Z.quot d 4) ≤ Z.max 3 (Z.abs d - 1) ∧ 0 ≤ d * (d - Z.quot d 4) ∧ Z.abs (d - Z.quot d 4) ≤ Z.abs d)%Z.
Proof.
  destruct (decide (0 ≤ d)%Z).
  - rewrite Z.quot_div_nonneg by lia. pose proof (Z.div_mod d 4 ltac:(lia)). pose proof (Z.mod_pos_bound d 4 ltac:(lia)).
    split; [lia|]. split; [nia|lia].
  - replace d with (- - d)%Z by lia. rewrite Z.quot_opp_l by lia. rewrite Z.quot_div_nonneg by lia.
    pose proof (Z.div_mod (- d) 4 ltac:(lia)). pose proof (Z.mod_pos_bound (- d) 4 ltac:(lia)). split; [lia|]. split; [nia|lia].
Qed.

Section steady.
  (** A provider that reports the same figures against the same estimate. *)
  Context (u : RequestUsage) (prompt completion : Z).
  Hypothesis (Hu : u32 (prompt_tokens u) ∧ u32 (completion_tokens u) ∧ u32 (total_tokens u)) (Hpos : (0 < actual_total u)%Z).
  Hypothesis (Hest : u32 prompt ∧ u32 completion) (Hest_pos : (0 < prompt + completion)%Z).
Definition estimate_error : Z := actual_total u - (prompt + completion).
Definition steady_requests (n : nat) t : TokenUsageTracker := Nat.iter n (reported_request u prompt completion "" 0) t.

Lemma merged_actual : actual_total (merge_non_zero no_usage (of_stats u)) = actual_total u.
Proof. unfold actual_total, merge_non_zero, non_zero. cbn. destruct Hu as (? & ? & ?). repeat case_decide; mlia. Qed.
Lemma estimate_error_small : small estimate_error.
Proof. unfold small, estimate_error, actual_total. destruct Hu as (? & ? & ?), Hest. change (2 ^ 62)%Z with 4611686018427387904%Z. mlia. Qed.
Lemma reported_request_step t :
  idle t → idle (reported_request u prompt completion "" 0 t) ∧
    calibration_bias (reported_request u prompt completion "" 0 t) = calibrate (calibration_bias t) estimate_error.
Proof.
  intros (Hc & Hp & He). unfold reported_request, finalize_current_request. cbn [current_request pending_estimated
    update_api_usage accumulate_estimated_usage set_request]. rewrite Hc, Hp.
  assert (Hsat : sat_add u64_max 0 (prompt + completion) = (prompt + completion)%Z) by (destruct Hest; mlia).
  rewrite Hsat, (bool_decide_eq_false_2 (_ = 0)%Z), andb_false_r by lia. split; [by split; [|split]|].
  cbn [calibration_bias set_request set_totals]. unfold next_bias, is_actual. cbn [current_estimated current_request pending_estimated
    calibration_bias update_api_usage accumulate_estimated_usage set_request]. rewrite Hc, Hp, Hsat, merged_actual.
  rewrite !bool_decide_eq_true_2 by lia. cbn [negb andb]. f_equal. unfold estimate_error.
  assert (Ha : (0 ≤ actual_total u ≤ 2 * u32_max)%Z) by (unfold actual_total; destruct Hu as (? & ? & ?); mlia).
  destruct Hest. rewrite (wrap_i64_small (actual_total u)), (wrap_i64_small (prompt + completion)), wrap_i64_small; mlia.
Qed.
End steady.

(** Against a steady error of the estimates the calibration bias never overshoots: it stays between
    where it started and the error; and after as many requests as the distance it is within three tokens
    of the error for good. *)
Theorem calibration_converges (u : RequestUsage) (prompt completion : Z) t :
  u32 (prompt_tokens u) ∧ u32 (completion_tokens u) ∧ u32 (total_tokens u) → (0 < actual_total u)%Z →
  u32 prompt ∧ u32 completion → (0 < prompt + completion)%Z → idle t → small (calibration_bias t) →
  let s := estimate_error u prompt completion in
  let bias n := calibration_bias (steady_requests u prompt completion n t) in
  ∀ n, (Z.min (calibration_bias t) s ≤ bias n ≤ Z.max (calibration_bias t) s)%Z ∧
       (Z.abs (s - calibration_bias t) ≤ Z.of_nat n → Z.abs (s - bias n) ≤ 3)%Z.
Proof.
  intros Hu Hpos Hest Hep Hidle Hb s bias n. pose proof (estimate_error_small u prompt completion Hu Hest) as Hs. fold s in Hs.
  assert (Hinv : idle (steady_requests u prompt completion n t) ∧
    (Z.min (calibration_bias t) s ≤ bias n ≤ Z.max (calibration_bias t) s)%Z ∧
    (Z.abs (s - bias n) ≤ Z.max 3 (Z.abs (s - calibration_bias t) - Z.of_nat n))%Z); [|split; [tauto|lia]].
  unfold bias. clear bias. induction n as [|n (Hi & Hr & Hd)]; [split; [done|]; cbn; lia|].
  change (steady_requests u prompt completion (S n) t)
    with (reported_request u prompt completion "" 0 (steady_requests u prompt completion n t)).
  set (t' := steady_requests u prompt completion n t) in *.
  destruct (reported_request_step u prompt completion Hu Hpos Hest Hep t' Hi) as [Hi' ->]. split; [done|].
  fold s. rewrite calibrate_small by (unfold small in *; lia).
  destruct (quarter_step (s - calibration_bias t')) as (H1 & H2 & H3).
  set (q := Z.quot _ 4) in *. set (d := (s - calibration_bias t')%Z) in *. replace (s - (calibration_bias t' + q))%Z with (d - q)%Z by lia.
  assert (Hbias : calibration_bias t' = (s - d)%Z) by lia. split; [|lia]. nia.
Qed.

(** * What holds of every tracker *)

(** Calls on a live tracker, with what they report. *)
Inductive TrackerOp : Type :=
| OpTokenLimit (n : Z) | OpContextLimit (n : Z)
| OpApi (u : RequestUsage) | OpStream (u : RequestUsage) | OpEstimated (p c : Z) | OpAccumulate (p c : Z)
| OpFinalize (id : string) (now : Z)
| OpWarning (threshold : f64) | OpPreflight | OpTier | OpResetWarning | OpResetPreflight
| OpBegin (target : string) (version : Z) (is_forced : bool) (now : Z) | OpEnd (target : string) (version : Z) | OpClear
| OpNoTaker (target : string) | OpResetNoTaker (target : string) | OpStillOver (target : string) | OpResetStillOver (target : string).
Definition run_tracker_op (o : TrackerOp) t : TokenUsageTracker * option Z :=
  match o with
  | OpTokenLimit n => (set_token_limit n t, None)
  | OpContextLimit n => (set_context_limit n t, None)
  | OpApi u => (update_api_usage u t, None)
  | OpStream u => (accumulate_stream_usage u t, None)
  | OpEstimated p c => (update_estimated_usage p c t, None)
  | OpAccumulate p c => (accumulate_estimated_usage p c t, None)
  | OpFinalize id now => (finalize_current_request id now t, None)
  | OpWarning th => ((consume_warning th t).1, None)
  | OpPreflight => ((consume_preflight_warning t).1, None)
  | OpTier => consume_limit_exceeded_tier t
  | OpResetWarning => (reset_warning t, None)
  | OpResetPreflight => (reset_preflight_warning t, None)
  | OpBegin target version f now => (begin_compression_flight target version f now t, None)
  | OpEnd target version => ((end_compression_flight target version t).1, None)
  | OpClear => (clear_compression_flights t, None)
  | OpNoTaker target => ((record_no_taker target t).1, None)
  | OpResetNoTaker target => (reset_no_taker target t, None)
  | OpStillOver target => ((record_still_over_budget target t).1, None)
  | OpResetStillOver target => (reset_still_over_budget target t, None)
  end.
(** The tiers reported by a sequence of calls. *)
Fixpoint run_tracker (os : list TrackerOp) t : TokenUsageTracker * list Z :=
  match os with
  | [] => (t, [])
  | o :: os' =>
      let (t1, r) := run_tracker_op o t in
      let (t2, rs) := run_tracker os' t1 in
      (t2, match r with Some tier => tier :: rs | None => rs end)
  end.

Record tracked t : Prop := {
  tracked_lifetime : lifetime t = cumulative t;
  tracked_no_details : reasoning_tokens (cumulative t) = None ∧ cache_read_tokens (cumulative t) = None ∧
    cache_write_tokens (cumulative t) = None;
  tracked_history : List.length (usage_history t) ≤ history_limit t;
  tracked_limit : history_limit t = DEFAULT_HISTORY_LIMIT;
}.
Lemma push_history_length id now t :
  0 < history_limit t → List.length (usage_history t) ≤ history_limit t → List.length (push_history id now t) ≤ history_limit t.
Proof. intros H0 H. unfold push_history. rewrite length_app. case_decide; destruct (usage_history t); simpl in *; lia. Qed.
Lemma run_op_tracked o t : tracked t → tracked (run_tracker_op o t).1.
Proof.
  intros [Hl Hd Hh Hm]. destruct o; try by split.
  - cbn. unfold finalize_current_request. case_match; [by split|]. split; cbn; [done| | |done].
    + by destruct (is_empty_usage _).
    + destruct (is_empty_usage _); [done|]. apply push_history_length; [rewrite Hm; unfold DEFAULT_HISTORY_LIMIT; lia|done].
  - cbn. unfold consume_warning. crush_match; by split.
  - cbn. unfold consume_preflight_warning. crush_match; by split.
  - cbn. unfold consume_limit_exceeded_tier. crush_match; by split.
  - cbn. unfold end_compression_flight. crush_match; by split.
Qed.
(** A call changes the last tier only when it reports it. *)
Lemma run_op_tier o t :
  match (run_tracker_op o t).2 with
  | Some tier => (last_limit_tier t < tier)%Z ∧ last_limit_tier (run_tracker_op o t).1 = tier ∧
      (0 < token_limit t < billed_cumulative t)%Z ∧ tier = limit_tier t
  | None => last_limit_tier (run_tracker_op o t).1 = last_limit_tier t
  end.
Proof.
  destruct o; try done; cbn [run_tracker_op fst snd].
  - unfold finalize_current_request. by case_match.
  - unfold consume_warning. by crush_match.
  - unfold consume_preflight_warning. by crush_match.
  - unfold consume_limit_exceeded_tier, is_billed_limit_exceeded.
    destruct (bool_decide _) eqn:Hb; [|done]. apply bool_decide_eq_true in Hb. case_decide; [|done]. cbn. lia.
  - unfold end_compression_flight. by crush_match.
Qed.

(** Whatever is called on a tracker, its lifetime totals are its cumulative totals, its history keeps
    at most one hundred requests, the details of the usage (reasoning and cache tokens) never reach the
    totals, and every tier of the budget is reported at most once, in rising order. *)
Theorem tracker_reports_once (limit : Z) (os : list TrackerOp) :
  let '(t, tiers) := run_tracker os (new_tracker limit) in
  tracked t ∧ StronglySorted Z.lt tiers ∧ Forall (λ x, (0 < x)%Z) tiers.
Proof.
  assert (H : ∀ t, tracked t → let '(t', tiers) := run_tracker os t in
    tracked t' ∧ StronglySorted Z.lt tiers ∧ Forall (λ x, (last_limit_tier t < x)%Z) tiers).
  { induction os as [|o os IH]; intros t Ht; [by split; [|split; constructor]|]. cbn [run_tracker].
    pose proof (run_op_tracked o t Ht) as Ht1. pose proof (run_op_tier o t) as Hr.
    destruct (run_tracker_op o t) as [t1 r]. cbn [fst snd] in *. specialize (IH t1 Ht1).
    destruct (run_tracker os t1) as [t2 rs]. destruct IH as (H2 & Hs & Hf). split; [done|]. destruct r as [tier|].
    - destruct Hr as (Hlt & <- & _). split; [by constructor|]. constructor; [done|].
      apply (Forall_impl _ _ _ Hf). intros x Hx. lia.
    - rewrite <-Hr. done. }
  apply (H (new_tracker limit)). split; try done; cbn; unfold DEFAULT_HISTORY_LIMIT; lia.
Qed.

(** * Witnesses and examples *)

Definition sample_usage (p c : Z) : RequestUsage :=
  {| prompt_tokens := p; completion_tokens := c; total_tokens := p + c; reasoning_tokens := Some 7%Z;
     cache_read_tokens := Some 5%Z; cache_write_tokens := None; total_cost := None; usage_model := Some "m" |}.
Lemma calibration_converges_witness :
  let bias n := calibration_bias (steady_requests (sample_usage 900 100) 700 100 n (new_tracker 0)) in
  bias 1 = 50%Z ∧ bias 8 = 179%Z ∧ (Z.abs (200 - bias 200%nat) ≤ 3)%Z.
Proof.
  split; [vm_compute; reflexivity|]. split; [vm_compute; reflexivity|].
  apply (calibration_converges (sample_usage 900 100) 700 100 (new_tracker 0)); try (cbn; mlia);
    try (unfold idle, small; cbn; split_and?; first [reflexivity|lia]).
Defined.
(** The bias stops three tokens short of the error. *)
Example calibration_stalls :
  calibration_bias (steady_requests (sample_usage 900 100) 700 100 1000 (new_tracker 0)) = 197%Z.
Proof. vm_compute. reflexivity. Qed.
(** The totals a session reports know nothing of reasoning and cache tokens. *)
Example usage_details_lost :
  (λ u, (total_tokens u, reasoning_tokens u, cache_read_tokens u)) <$>
    get_token_usage (finalize_current_request "r" 0 (update_api_usage (sample_usage 900 100) (new_tracker 0))) =
  Some (1000%Z, None, None).
Proof. vm_compute. reflexivity. Qed.
(** A checkpoint between an estimate and its request: the restored tracker bills
    the estimate as reported usage and forgets it as an estimate. *)
Example pending_estimate_lost :
  let t := restore_tracker (tracker_state (update_estimated_usage 900 100 (new_tracker 0))) (new_tracker 0) in
  let t := finalize_current_request "r" 0 t in
  (billed_cumulative t, estimated_cumulative t, entry_estimated <$> usage_history t) = (1000%Z, 0%Z, [None]).
Proof. vm_compute. reflexivity. Qed.
