(* ===== verification/Compaction.v ===== *)
(** Budget-driven compaction of a conversation: the views of
    wf-types/src/message/message_view.rs, the state of compaction_state.rs and
    the thresholds, block table and planner of
    wf-execution-shared/src/compaction.rs.

    Messages, their estimates and their ids belong to the codec outside the
    repository; planning advice of plugins is a function from JSON to JSON.  The
    process-wide limits and the advisor registry are arguments. *)

From S2P Require Import Prelude Strings Json Numbers.

(** * Types *)

(** message_view.rs *)
Inductive ViewSegment : Type :=
| SegSummary (message_id : string)
| SegRange (start_seq end_seq : Z).
Inductive MessageView : Type :=
| VFull
| VCompacted (segments : list ViewSegment)
| VTail (last_n : nat)
| VNoSystem
| VRange (start_seq end_seq : Z).
Definition is_full (v : MessageView) : bool := match v with VFull => true | _ => false end.
#[export] Instance ViewSegment_eq_dec : EqDecision ViewSegment.
Proof. solve_decision. Defined.
#[export] Instance MessageView_eq_dec : EqDecision MessageView.
Proof. solve_decision. Defined.

(** compaction_state.rs *)
Inductive CompactionMode : Type := Normal | Handoff.
Inductive BlockState : Type := Raw | Compressed | Sealed.
#[export] Instance CompactionMode_eq_dec : EqDecision CompactionMode.
Proof. solve_decision. Defined.
#[export] Instance BlockState_eq_dec : EqDecision BlockState.
Proof. solve_decision. Defined.
Record SeqRange : Type := { range_start : Z; range_end : Z }.
Record CompressionBlock : Type := {
  block_id : string;
  block_state : BlockState;
  topic : string;
  summary_message_id : string;
  spans : list SeqRange;
  merged_blocks : list string;
  size_tokens : Z;
  source_tokens : Z;
  repress_count : Z;
  active : bool;
  created_at : Z;
  compressed_at : option Z;
}.
Record FileReadEntry : Type := {
  read_path : string;
  content_hash : string;
  read_commit : string;
  last_read_at : Z;
  message_seq : Z;
  read_archive_ref : string;
}.
Record IndexEntry : Type := {
  index_block_id : string;
  index_topic : string;
  time_range : string;
  index_archive_ref : string;
  keywords : list string;
  index_size_tokens : Z;
}.
Record HandoffArtifact : Type := {
  handoff_message_id : string;
  handoff_index : list IndexEntry;
  handoff_reason : string;
  handoff_created_at : Z;
  validation_note : option string;
}.
Record CompactionThresholds : Type := { h_target : Z; t_handoff : Z; t_compact : Z; t_hard : Z }.
Record CompactionPlanItem : Type := {
  item_block : string;
  item_start : nat;
  item_end : nat;
  depth : Z;
  extra_block_ids : list string;
}.
(** [CompactionPlanItem::clamped_range] *)
Definition clamped_range (i : CompactionPlanItem) (len : nat) : option (nat * nat) :=
  let s := Nat.min (item_start i) len in
  let e := Nat.min (item_end i) len in
  if decide (s < e) then Some (s, e) else None.
Record BlockOutcome : Type := { outcome_block : string; outcome_summary : string; archive_refs : list string }.
Record CompactionState : Type := {
  mode : CompactionMode;
  blocks : list CompressionBlock;
  file_reads : gmap string FileReadEntry;
  handoff : option HandoffArtifact;
  hot_tokens : Z;
  window_tokens : Z;
  thresholds : CompactionThresholds;
  handoff_requested : bool;
  synced_through_seq : Z;
  next_block_seq : Z;
  pending_plan : list CompactionPlanItem;
  pending_drops : list string;
  state_dirty : bool;
}.
Implicit Types c : CompactionState.
Implicit Types b : CompressionBlock.
Definition no_thresholds : CompactionThresholds := {| h_target := 0; t_handoff := 0; t_compact := 0; t_hard := 0 |}.
Definition default_compaction : CompactionState :=
  {| mode := Normal; blocks := []; file_reads := ∅; handoff := None; hot_tokens := 0; window_tokens := 0;
     thresholds := no_thresholds; handoff_requested := false; synced_through_seq := 0; next_block_seq := 0;
     pending_plan := []; pending_drops := []; state_dirty := false |}.
Definition compaction_is_empty c : bool :=
  bool_decide (blocks c = []) && bool_decide (file_reads c = ∅) && bool_decide (handoff c = None) &&
  bool_decide (window_tokens c = 0%Z).
Definition is_block (id : string) b : Prop := active b = true ∧ block_id b = id.
#[export] Instance is_block_dec id b : Decision (is_block id b).
Proof. unfold is_block. apply _. Defined.
(** [active_block] and a change through [active_block_mut]. *)
Definition active_block c (id : string) : option CompressionBlock := snd <$> list_find (is_block id) (blocks c).
Fixpoint on_active (id : string) (f : CompressionBlock → CompressionBlock) (bs : list CompressionBlock) : list CompressionBlock :=
  match bs with [] => [] | b :: bs' => if decide (is_block id b) then f b :: bs' else b :: on_active id f bs' end.

(** Changes of a group of fields. *)
Definition set_blocks (bs : list CompressionBlock) (synced next : Z) c : CompactionState :=
  {| mode := mode c; blocks := bs; file_reads := file_reads c; handoff := handoff c; hot_tokens := hot_tokens c;
     window_tokens := window_tokens c; thresholds := thresholds c; handoff_requested := handoff_requested c;
     synced_through_seq := synced; next_block_seq := next; pending_plan := pending_plan c;
     pending_drops := pending_drops c; state_dirty := state_dirty c |}.
Definition set_pending (plan : list CompactionPlanItem) (drops : list string) c : CompactionState :=
  {| mode := mode c; blocks := blocks c; file_reads := file_reads c; handoff := handoff c; hot_tokens := hot_tokens c;
     window_tokens := window_tokens c; thresholds := thresholds c; handoff_requested := handoff_requested c;
     synced_through_seq := synced_through_seq c; next_block_seq := next_block_seq c; pending_plan := plan;
     pending_drops := drops; state_dirty := state_dirty c |}.
Definition set_window (window : Z) (th : CompactionThresholds) c : CompactionState :=
  {| mode := mode c; blocks := blocks c; file_reads := file_reads c; handoff := handoff c; hot_tokens := hot_tokens c;
     window_tokens := window; thresholds := th; handoff_requested := handoff_requested c;
     synced_through_seq := synced_through_seq c; next_block_seq := next_block_seq c; pending_plan := pending_plan c;
     pending_drops := pending_drops c; state_dirty := true |}.
Definition set_hot (hot : Z) (dirty : bool) c : CompactionState :=
  {| mode := mode c; blocks := blocks c; file_reads := file_reads c; handoff := handoff c; hot_tokens := hot;
     window_tokens := window_tokens c; thresholds := thresholds c; handoff_requested := handoff_requested c;
     synced_through_seq := synced_through_seq c; next_block_seq := next_block_seq c; pending_plan := pending_plan c;
     pending_drops := pending_drops c; state_dirty := dirty |}.
Definition set_handoff (m : CompactionMode) (h : option HandoffArtifact) (requested : bool) c : CompactionState :=
  {| mode := m; blocks := blocks c; file_reads := file_reads c; handoff := h; hot_tokens := hot_tokens c;
     window_tokens := window_tokens c; thresholds := thresholds c; handoff_requested := requested;
     synced_through_seq := synced_through_seq c; next_block_seq := next_block_seq c; pending_plan := pending_plan c;
     pending_drops := pending_drops c; state_dirty := state_dirty c |}.
Definition set_file_reads (reads : gmap string FileReadEntry) c : CompactionState :=
  {| mode := mode c; blocks := blocks c; file_reads := reads; handoff := handoff c; hot_tokens := hot_tokens c;
     window_tokens := window_tokens c; thresholds := thresholds c; handoff_requested := handoff_requested c;
     synced_through_seq := synced_through_seq c; next_block_seq := next_block_seq c; pending_plan := pending_plan c;
     pending_drops := pending_drops c; state_dirty := state_dirty c |}.

(** wf-types/src/config/limits.rs, the fields that compaction reads *)
Record CompactionLimits : Type := {
  h_target_ratio : option f64;
  t_handoff_ratio : option f64;
  t_compact_ratio : option f64;
  t_hard_ratio : option f64;
  limit_r_repress : option Z;
  limit_r_min_range : option Z;
  limit_k_repress : option Z;
  recent_raw_turns : option nat;
  limit_plan_max_items : option nat;
  summary_call_budget_tokens : option Z;
  strategy : option string;
}.

(** * Budgets and thresholds *)

Definition H_TARGET_RATIO_DEFAULT : f64 := round_decimal false 30 (-2).
Definition T_HANDOFF_RATIO_DEFAULT : f64 := round_decimal false 55 (-2).
Definition T_COMPACT_RATIO_DEFAULT : f64 := round_decimal false 70 (-2).
Definition T_HARD_RATIO_DEFAULT : f64 := round_decimal false 85 (-2).
Definition R_MIN_RANGE_DEFAULT : Z := 2000.
Definition R_REPRESS_DEFAULT : Z := 5000.
Definition K_REPRESS_DEFAULT : Z := 2.
Definition RECENT_RAW_TURNS_DEFAULT : nat := 2.
Definition PLAN_MAX_ITEMS_DEFAULT : nat := 8.
Definition SUMMARY_CALL_BUDGET_MIN : Z := 8000.
Definition SUMMARY_CALL_BUDGET_MAX : Z := 64000.
Definition CONTEXT_BUDGET_PERCENT : Z := 85.
Definition CONTEXT_BUDGET_METADATA_KEY : string := "context_budget_percent".

Definition context_budget_percent_from_metadata (metadata : option (gmap string value)) : Z :=
  default CONTEXT_BUDGET_PERCENT
    (m ← metadata; v ← m !! CONTEXT_BUDGET_METADATA_KEY; p ← as_u64 v; if decide (1 ≤ p ≤ 100)%Z then Some p else None).
(** [window] is a u32: the product does not overflow. *)
Definition context_budget_from_window_with_percent (window : option Z) (percent : Z) : Z :=
  let percent := Z.max 1 (Z.min percent 100) in
  match window with Some w => (w * percent / 100)%Z | None => 0%Z end.
Definition context_budget_from_window (window : option Z) : Z :=
  context_budget_from_window_with_percent window CONTEXT_BUDGET_PERCENT.
Definition context_budget_from_profile (window : option Z) (metadata : option (gmap string value)) : Z :=
  context_budget_from_window_with_percent window (context_budget_percent_from_metadata metadata).

(** [f as u64] *)
Definition f64_to_u64 (x : f64) : Z :=
  match x with
  | SpecFloat.S754_finite false m e =>
      Z.min u64_max (if decide (0 ≤ e)%Z then Z.pos m * 2 ^ e else Z.pos m / 2 ^ (- e))
  | SpecFloat.S754_infinity false => u64_max
  | _ => 0%Z
  end.
Definition resolve_compaction_thresholds (window : Z) (l : CompactionLimits) : CompactionThresholds :=
  let scaled r := f64_to_u64 (f64_mul (f64_of_Z window) r) in
  {| h_target := scaled (default H_TARGET_RATIO_DEFAULT (h_target_ratio l));
     t_handoff := scaled (default T_HANDOFF_RATIO_DEFAULT (t_handoff_ratio l));
     t_compact := scaled (default T_COMPACT_RATIO_DEFAULT (t_compact_ratio l));
     t_hard := scaled (default T_HARD_RATIO_DEFAULT (t_hard_ratio l)) |}.
Definition f64_ltb (x y : f64) : bool := bool_decide (f64_compare x y = Some Lt).
Definition compaction_ratios_valid (l : CompactionLimits) : bool :=
  let h := default H_TARGET_RATIO_DEFAULT (h_target_ratio l) in
  let ho := default T_HANDOFF_RATIO_DEFAULT (t_handoff_ratio l) in
  let co := default T_COMPACT_RATIO_DEFAULT (t_compact_ratio l) in
  let hard := default T_HARD_RATIO_DEFAULT (t_hard_ratio l) in
  forallb (λ r, f64_ltb (f64_of_Z 0) r && f64_ltb r (f64_of_Z 1)) [h; ho; co; hard] &&
  f64_ltb h ho && f64_ltb ho co && f64_ltb co hard.
Definition r_min_range (l : CompactionLimits) : Z := default R_MIN_RANGE_DEFAULT (limit_r_min_range l).
Definition r_repress (l : CompactionLimits) : Z := default R_REPRESS_DEFAULT (limit_r_repress l).
Definition k_repress (l : CompactionLimits) : Z := default K_REPRESS_DEFAULT (limit_k_repress l).
Definition plan_max_items (l : CompactionLimits) : nat := Nat.max 1 (default PLAN_MAX_ITEMS_DEFAULT (limit_plan_max_items l)).
Definition resolve_summary_call_budget (window : Z) (l : CompactionLimits) : Z :=
  match summary_call_budget_tokens l with
  | Some explicit => Z.max 1 explicit
  | None => Z.max SUMMARY_CALL_BUDGET_MIN (Z.min (window / 10) SUMMARY_CALL_BUDGET_MAX)
  end.
Definition stateless_plan_factor (l : CompactionLimits) : f64 :=
  let hard := default T_HARD_RATIO_DEFAULT (t_hard_ratio l) in
  let compact := default T_COMPACT_RATIO_DEFAULT (t_compact_ratio l) in
  if f64_ltb (f64_of_Z 0) compact && f64_ltb compact hard then f64_div hard compact
  else f64_div T_HARD_RATIO_DEFAULT T_COMPACT_RATIO_DEFAULT.

(** ** Strategies *)

Definition BUILTIN_COMPRESSION_STRATEGY_NAME : string := "builtin".
Definition SINGLE_SUMMARY_STRATEGY_NAME : string := "single-summary".
Definition FOLD_SUMMARY_WORKFLOW_ID : string := "@standard/fold-summary".
Definition FOLD_SUMMARY_REPRESS_WORKFLOW_ID : string := "@standard/fold-summary-repress".
Definition compaction_strategy_name (l : CompactionLimits) : string :=
  default BUILTIN_COMPRESSION_STRATEGY_NAME
    (s ← strategy l; let s := trim s in if decide (s = "") then None else Some s).
Definition is_builtin_strategy (name : string) : bool :=
  bool_decide (trim name = "" ∨ trim name = BUILTIN_COMPRESSION_STRATEGY_NAME).
Definition is_single_summary_strategy (name : string) : bool := bool_decide (trim name = SINGLE_SUMMARY_STRATEGY_NAME).
Definition strategy_workflow_ids (name : string) : string * option string :=
  if is_builtin_strategy name || is_single_summary_strategy name
  then (FOLD_SUMMARY_WORKFLOW_ID, Some FOLD_SUMMARY_REPRESS_WORKFLOW_ID)
  else (trim name, Some (trim name +:+ "-repress")).

(** Handoff reasons *)
Definition REASON_NO_COMPRESSIBLE_TARGET : string := "NO_COMPRESSIBLE_TARGET".
Definition REASON_ALL_BLOCKS_SMALL : string := "ALL_BLOCKS_SMALL".

(** * Decisions *)

Inductive CompactionDecision : Type :=
| Hold
| Compact (aggressive : bool)
| EnterHandoff (reason : string)
| DropOldestActive.

(** [actives] that only carry small summaries. *)
Definition is_small_summary (r_rep : Z) b : bool := negb (bool_decide (block_state b = Raw)) && bool_decide (size_tokens b ≤ r_rep)%Z.
Definition raw_candidate (r_min : Z) b : bool := active b && bool_decide (block_state b = Raw) && bool_decide (r_min ≤ size_tokens b)%Z.
Definition repress_candidate (r_rep k_rep : Z) b : bool :=
  active b && bool_decide (block_state b = Compressed) && bool_decide (r_rep < size_tokens b)%Z && bool_decide (repress_count b < k_rep)%Z.
Definition decide_compaction (hot : Z) c (l : CompactionLimits) : CompactionDecision :=
  if decide (window_tokens c = 0%Z) then Hold
  else
    let th := resolve_compaction_thresholds (window_tokens c) l in
    if decide (mode c = Handoff) then
      if decide (t_hard th ≤ hot)%Z then if existsb active (blocks c) then DropOldestActive else Hold else Hold
    else if decide (t_hard th ≤ hot)%Z then Compact true
    else if decide (t_compact th ≤ hot)%Z then Compact false
    else if is_single_summary_strategy (compaction_strategy_name l) then Hold
    else
      let r_rep := r_repress l in
      let has_raw := existsb (raw_candidate (r_min_range l)) (blocks c) in
      let has_repress := existsb (repress_candidate r_rep (k_repress l)) (blocks c) in
      if decide (sat_add u64_max (h_target th) (h_target th / 2) < hot)%Z then
        match blocks c with
        | [] => Hold
        | _ =>
            let actives := filter (λ b, active b = true) (blocks c) in
            if bool_decide (actives ≠ []) && forallb (is_small_summary r_rep) actives then EnterHandoff REASON_ALL_BLOCKS_SMALL
            else if negb has_raw && negb has_repress then EnterHandoff REASON_NO_COMPRESSIBLE_TARGET
            else Hold
        end
      else Hold.

(** * Plans over costs *)

(** [{:04}] *)
Definition pad4 (n : Z) : string :=
  let s := show_nat n in String.concat "" (replicate (4 - String.length s) "0") +:+ s.
Definition cost_at (costs : list Z) (i : nat) : Z := default 0%Z (costs !! i).
(** The end of the slice that starts with the accumulated cost [acc] at [e], with
    [n] positions to go. *)
Fixpoint slice_end (costs : list Z) (budget : Z) (n : nat) (acc : Z) (e : nat) : nat :=
  match n with
  | 0 => e
  | S n' =>
      let cost := cost_at costs e in
      if decide (0 < acc ∧ budget < sat_add u64_max acc cost)%Z then e
      else slice_end costs budget n' (sat_add u64_max acc cost) (S e)
  end.
(** Slices of one block from [cursor] up to [stop], while fewer than [cap] items
    are planned; [fuel] bounds their number.  The [S] is the code's guard against
    an empty slice. *)
Fixpoint slices (costs : list Z) (budget : Z) (cap : nat) (name : nat → string) (fuel cursor stop : nat)
    (items : list CompactionPlanItem) : list CompactionPlanItem * nat :=
  match fuel with
  | 0 => (items, cursor)
  | S fuel' =>
      if decide (cursor < stop ∧ List.length items < cap) then
        let e := slice_end costs budget (stop - cursor) 0 cursor in
        let e := if decide (e = cursor) then S e else e in
        slices costs budget cap name fuel' e stop
          (items ++ [{| item_block := name (List.length items); item_start := cursor; item_end := e; depth := 0; extra_block_ids := [] |}])
      else (items, cursor)
  end.
Definition range_cost (costs : list Z) (s e : nat) : Z := foldr Z.add 0%Z (cost_at costs <$> seq s (e - s)).

(** [build_stateless_plan] *)
Definition w_name (n : nat) : string := "w" +:+ pad4 (Z.of_nat n).
Definition item_widen (e : nat) (i : CompactionPlanItem) : CompactionPlanItem :=
  {| item_block := item_block i; item_start := item_start i; item_end := e; depth := depth i; extra_block_ids := extra_block_ids i |}.
Definition combined_cost (costs : list Z) (items : list CompactionPlanItem) (i : nat) : Z :=
  match items !! i, items !! S i with Some x, Some y => range_cost costs (item_start x) (item_end y) | _, _ => 0%Z end.
(** The first pair of neighbours of the least combined cost. *)
Definition cheapest_pair (costs : list Z) (items : list CompactionPlanItem) : nat :=
  (foldl (λ best i, let cost := combined_cost costs items i in if decide (cost < best.2)%Z then (i, cost) else best)
     (0, u64_max) (seq 0 (List.length items - 1))).1.
Definition merge_pair (items : list CompactionPlanItem) (i : nat) : list CompactionPlanItem :=
  match items !! S i with
  | Some next => take i items ++ (item_widen (item_end next) <$> option_list (items !! i)) ++ drop (S (S i)) items
  | None => items
  end.
Fixpoint widen (fuel : nat) (costs : list Z) (cap : nat) (items : list CompactionPlanItem) : list CompactionPlanItem :=
  match fuel with
  | 0 => items
  | S fuel' =>
      if decide (cap < List.length items) then widen fuel' costs cap (merge_pair items (cheapest_pair costs items)) else items
  end.
Definition build_stateless_plan (costs : list Z) (budget : Z) (max_items : nat) : list CompactionPlanItem :=
  let budget := Z.max 1 budget in
  let cap := Nat.max max_items 1 in
  let n := List.length costs in
  let '(items, cursor) := slices costs budget cap w_name n 0 n [] in
  let items :=
    if decide (cursor < n)
    then items ++ [{| item_block := w_name (List.length items); item_start := cursor; item_end := n; depth := 0; extra_block_ids := [] |}]
    else items in
  widen (List.length items) costs cap items.

(** [merge_adjacent_items] *)
Definition same_call (costs : list Z) (budget : Z) (prev item : CompactionPlanItem) : bool :=
  bool_decide (depth prev = 0%Z) && bool_decide (item_end prev = item_start item) && bool_decide (extra_block_ids item = []) &&
  bool_decide (sat_add u64_max (range_cost costs (item_start prev) (item_end prev)) (range_cost costs (item_start item) (item_end item)) ≤ budget)%Z &&
  bool_decide (item_block item ∉ extra_block_ids prev) && bool_decide (item_block prev ≠ item_block item).
Definition absorb (item prev : CompactionPlanItem) : CompactionPlanItem :=
  {| item_block := item_block prev; item_start := item_start prev; item_end := item_end item; depth := depth prev;
     extra_block_ids := extra_block_ids prev ++ [item_block item] |}.
Definition merge_item (costs : list Z) (budget : Z) (merged : list CompactionPlanItem) (item : CompactionPlanItem) :
    list CompactionPlanItem :=
  match last merged with
  | Some prev =>
      if bool_decide (depth item = 0%Z) && same_call costs budget prev item then on_last (absorb item) merged else merged ++ [item]
  | None => merged ++ [item]
  end.
Definition merge_adjacent_items (costs : list Z) (budget : Z) (items : list CompactionPlanItem) : list CompactionPlanItem :=
  if decide (List.length items < 2) then items
  else foldl (merge_item costs budget) [] (sort_by_key (λ i, Z.of_nat (item_start i)) items).

(** One emission: the work items, the blocks to deactivate, the estimate of what
    is freed. *)
Record CompactionPlan : Type := {
  plan_items : list CompactionPlanItem;
  plan_drops : list string;
  freed_tokens : Z;
  capped : bool;
}.
Definition empty_plan : CompactionPlan := {| plan_items := []; plan_drops := []; freed_tokens := 0; capped := false |}.
Definition plan_is_empty (p : CompactionPlan) : bool := bool_decide (plan_items p = []) && bool_decide (plan_drops p = []).

(** * Messages *)

Section messages.
  Context {Message : Type} (message_id : Message → string) (estimate : Message → Z) (is_system : Message → bool).

(** ** Views: [project] and [project_with_seqs] *)

Definition find_message (id : string) (history : list Message) : option Message :=
  snd <$> list_find (λ m, message_id m = id) history.
Definition project (v : MessageView) (history : list Message) : list Message :=
  match v with
  | VFull => history
  | VCompacted segments =>
      omap (λ s, match s with SegSummary id => find_message id history | SegRange _ _ => None end) segments
  | VTail n => drop (List.length history - n) history
  | VNoSystem => filter (λ m, is_system m = false) history
  | VRange _ _ => []
  end.
Definition in_range (lo hi : Z) (mq : Message * Z) : Prop := (lo ≤ mq.2 ∧ mq.2 ≤ hi)%Z.
(** A projection under way: the messages shown and the ids seen. *)
Definition show_message (st : list Message * gset string) (m : Message) : list Message * gset string :=
  if decide (message_id m ∈ st.2) then st else (st.1 ++ [m], {[message_id m]} ∪ st.2).
Definition show_segment (numbered : list (Message * Z)) (st : list Message * gset string) (s : ViewSegment) :
    list Message * gset string :=
  match s with
  | SegSummary id =>
      if decide (id ∈ st.2) then st
      else (st.1 ++ option_list (find_message id numbered.*1), {[id]} ∪ st.2)
  | SegRange lo hi =>
      foldl (λ st mq, if decide (lo ≤ mq.2 ∧ mq.2 ≤ hi)%Z then show_message st mq.1 else st) st numbered
  end.
Definition project_with_seqs (v : MessageView) (history : list Message) (seqs : list Z) : list Message :=
  match v with
  | VCompacted segments =>
      if decide (List.length history ≠ List.length seqs) then []
      else (foldl (show_segment (zip history seqs)) ([], ∅) segments).1
  | VRange lo hi =>
      if decide (List.length history ≠ List.length seqs) then []
      else (filter (λ mq, lo ≤ mq.2 ∧ mq.2 ≤ hi)%Z (zip history seqs)).*1
  | _ => project v history
  end.

(** ** The block table: [sync_blocks] *)

(** Ids of summaries and of the handoff document. *)
Definition known_summaries c : list string :=
  filter (λ id, id ≠ "") (summary_message_id <$> blocks c) ++ option_list (handoff_message_id <$> handoff c).
(** The spans collected, with their sizes, and the last sequence number. *)
Definition sync_message (fresh : bool) (synced : Z) (known : list string) (st : list (SeqRange * Z) * Z) (mq : Message * Z) :
    list (SeqRange * Z) * Z :=
  let '(found, last_seq) := st in
  let '(m, q) := mq in
  if decide (fresh = false ∧ q ≤ synced)%Z then st
  else if decide (message_id m ∈ known) then (found, Z.max last_seq q)
  else
    let open_span := (found ++ [({| range_start := q; range_end := q |}, estimate m)], Z.max last_seq q) in
    match last found with
    | Some (sp, size) =>
        if decide (sat_add u64_max (range_end sp) 1 = q)
        then (on_last (λ p, ({| range_start := range_start p.1; range_end := q |}, sat_add u64_max p.2 (estimate m))) found,
              Z.max last_seq q)
        else open_span
    | None => open_span
    end.
(** The spans of a raw block, extended. *)
Definition add_span (sps : list SeqRange) (sp : SeqRange) : list SeqRange :=
  match last sps with
  | Some e =>
      if decide (sat_add u64_max (range_end e) 1 = range_start sp)
      then on_last (λ e, {| range_start := range_start e; range_end := range_end sp |}) sps
      else sps ++ [sp]
  | None => sps ++ [sp]
  end.
Definition extend_block (new : list SeqRange) (total : Z) b : CompressionBlock :=
  {| block_id := block_id b; block_state := block_state b; topic := topic b; summary_message_id := summary_message_id b;
     spans := foldl add_span (spans b) new; merged_blocks := merged_blocks b;
     size_tokens := sat_add u64_max (size_tokens b) total; source_tokens := sat_add u64_max (source_tokens b) total;
     repress_count := repress_count b; active := active b; created_at := created_at b; compressed_at := compressed_at b |}.
Definition new_block (id : Z) (new : list SeqRange) (total now : Z) : CompressionBlock :=
  {| block_id := "b" +:+ pad4 id; block_state := Raw; topic := ""; summary_message_id := ""; spans := new; merged_blocks := [];
     size_tokens := total; source_tokens := total; repress_count := 0; active := true; created_at := now; compressed_at := None |}.
Definition is_open_tail b : Prop := block_state b = Raw ∧ active b = true.
#[export] Instance is_open_tail_dec b : Decision (is_open_tail b).
Proof. unfold is_open_tail. apply _. Defined.
Definition push_new_block (new : list SeqRange) (total last_seq now : Z) c : CompactionState :=
  set_blocks (blocks c ++ [new_block (next_block_seq c) new total now]) last_seq (sat_add u64_max (next_block_seq c) 1) c.
Definition sync_blocks (history : list Message) (seqs : list Z) (now : Z) c : CompactionState :=
  if decide (List.length history ≠ List.length seqs ∨ history = []) then c
  else
    let fresh := bool_decide (blocks c = []) && bool_decide (synced_through_seq c = 0%Z) in
    let '(found, last_seq) :=
      foldl (sync_message fresh (synced_through_seq c) (known_summaries c)) ([], synced_through_seq c) (zip history seqs) in
    match found with
    | [] => c
    | _ =>
        let total := wrap64 (foldr Z.add 0%Z found.*2) in
        match last (blocks c) with
        | Some tail =>
            if decide (is_open_tail tail)
            then set_blocks (on_last (extend_block found.*1 total) (blocks c)) last_seq (next_block_seq c) c
            else push_new_block found.*1 total last_seq now c
        | None => push_new_block found.*1 total last_seq now c
        end
    end.

(** ** [rebuild_after_truncate] *)

Definition downgrade (present : list string) b : CompressionBlock :=
  if decide (summary_message_id b ≠ "" ∧ summary_message_id b ∉ present) then
    {| block_id := block_id b; block_state := Raw; topic := topic b; summary_message_id := ""; spans := spans b;
       merged_blocks := merged_blocks b; size_tokens := size_tokens b; source_tokens := source_tokens b; repress_count := 0;
       active := active b; created_at := created_at b; compressed_at := None |}
  else b.
Definition before (target : Z) b : Prop := Forall (λ sp, range_start sp ≤ target ∧ range_end sp ≤ target)%Z (spans b).
#[export] Instance before_dec target b : Decision (before target b).
Proof. unfold before. apply _. Defined.
Definition rebuild_after_truncate (history : list Message) (seqs : list Z) c : CompactionState :=
  let target := default 0%Z (last seqs) in
  let present := message_id <$> history in
  let lost_handoff := match handoff c with Some h => bool_decide (handoff_message_id h ∉ present) | None => false end in
  {| mode := if lost_handoff then Normal else mode c;
     blocks := downgrade present <$> filter (before target) (blocks c);
     file_reads := filter (λ kv, message_seq kv.2 ≤ target)%Z (file_reads c);
     handoff := if lost_handoff then None else handoff c;
     hot_tokens := hot_tokens c; window_tokens := window_tokens c; thresholds := thresholds c;
     handoff_requested := handoff_requested c; synced_through_seq := Z.min (synced_through_seq c) target;
     next_block_seq := next_block_seq c; pending_plan := []; pending_drops := []; state_dirty := true |}.

(** ** Planning *)

(** [snapshot_seq_map] *)
Definition seq_of (history : list Message) (seqs : list Z) (id : string) : option Z :=
  snd <$> last (filter (λ mq, message_id mq.1 = id) (zip history seqs)).
Definition segment_seqs (history : list Message) (seqs : list Z) (s : ViewSegment) : list (option Z) :=
  match s with
  | SegSummary id => [seq_of history seqs id]
  | SegRange lo hi => Some <$> filter (λ q, lo ≤ q ∧ q ≤ hi)%Z seqs
  end.
Definition snapshot_seq_map (v : MessageView) (snapshot history : list Message) (seqs : list Z) : list (option Z) :=
  if is_full v && bool_decide (List.length snapshot = List.length history) then Some <$> seqs
  else match v with
  | VCompacted segments =>
      let out := take (List.length snapshot) (segments ≫= segment_seqs history seqs) in
      out ++ replicate (List.length snapshot - List.length out) None
  | _ => replicate (List.length snapshot) None
  end.

(** [try_advisor_plan]: the advice of a plugin, item by item. *)
Definition debug_block_state (x : BlockState) : string :=
  match x with Raw => "Raw" | Compressed => "Compressed" | Sealed => "Sealed" end.
Definition vnum (z : Z) : value := VNumber (PosInt z).
Definition ADVISOR_PROTOCOL_VERSION : Z := 1.
Definition object (l : list (string * value)) : value := object_of (list_to_map l).
Definition advisor_input (c : CompactionState) (name : string) (costs : list Z) (hot : Z) (l : CompactionLimits) (aggressive : bool) :
    value :=
  let th := resolve_compaction_thresholds (window_tokens c) l in
  object [("protocol_version", vnum ADVISOR_PROTOCOL_VERSION); ("strategy", VString name); ("hot_tokens", vnum hot);
    ("aggressive", VBool aggressive); ("item_cap", vnum (Z.of_nat (plan_max_items l)));
    ("target_freed", vnum (sat_sub hot (h_target th))); ("snapshot_len", vnum (Z.of_nat (List.length costs)));
    ("costs", VArray (vnum <$> costs));
    ("blocks", VArray ((λ b, object [("block_id", VString (block_id b)); ("state", VString (debug_block_state (block_state b)));
        ("size_tokens", vnum (size_tokens b)); ("repress_count", vnum (repress_count b))]) <$>
      filter (λ b, active b = true) (blocks c)));
    ("thresholds", object [("h_target", vnum (h_target th)); ("t_handoff", vnum (t_handoff th));
      ("t_compact", vnum (t_compact th)); ("t_hard", vnum (t_hard th))])].
Definition active_ids c : list string := block_id <$> filter (λ b, active b = true) (blocks c).
Definition active_raw_ids c : list string := block_id <$> filter is_open_tail (blocks c).
Definition advised_extras (known : list string) (id : string) (item : value) : list string :=
  foldl (λ extras v, match as_str v with
    | Some x => if decide (x ≠ "" ∧ x ∈ known ∧ x ≠ id ∧ x ∉ extras) then extras ++ [x] else extras
    | None => extras
    end) [] (default [] (get item "extra_block_ids" ≫= as_array)).
Definition advised_item (known : list string) (costs : list Z) (item : value) : option CompactionPlanItem :=
  let id := default "" (get item "block_id" ≫= as_str) in
  if decide (id = "" ∨ id ∉ known) then None
  else
    let s := wrap64 (default u64_max (get item "start" ≫= as_u64)) in
    let e := wrap64 (default 0%Z (get item "end" ≫= as_u64)) in
    if decide (e ≤ s ∨ Z.of_nat (List.length costs) < e)%Z then None
    else Some {| item_block := id; item_start := Z.to_nat s; item_end := Z.to_nat e;
                 depth := wrap32 (default 0%Z (get item "depth" ≫= as_u64)); extra_block_ids := advised_extras known id item |}.
Definition advise_item (known : list string) (costs : list Z) (cap : nat) (p : CompactionPlan) (v : value) : CompactionPlan :=
  if decide (cap ≤ List.length (plan_items p)) then p
  else match advised_item known costs v with
  | Some i =>
      {| plan_items := plan_items p ++ [i]; plan_drops := plan_drops p;
         freed_tokens := sat_add u64_max (freed_tokens p) (range_cost costs (item_start i) (item_end i)); capped := capped p |}
  | None => p
  end.
Definition advise_drop c (p : CompactionPlan) (v : value) : CompactionPlan :=
  match as_str v with
  | Some id =>
      if decide (id = "" ∨ id ∈ active_raw_ids c ∨ id ∈ plan_drops p ∨ id ∉ active_ids c) then p
      else match list_find (λ b, block_id b = id) (blocks c) with
      | Some (_, b) =>
          {| plan_items := plan_items p; plan_drops := plan_drops p ++ [id];
             freed_tokens := sat_add u64_max (freed_tokens p) (size_tokens b); capped := capped p |}
      | None => p
      end
  | None => p
  end.
Definition advised_plan c (costs : list Z) (hot : Z) (l : CompactionLimits) (output : value) : option CompactionPlan :=
  let th := resolve_compaction_thresholds (window_tokens c) l in
  let cap := plan_max_items l in
  let p := foldl (advise_item (active_ids c) costs cap) empty_plan (default [] (get output "items" ≫= as_array)) in
  let p := foldl (advise_drop c) p (default [] (get output "drops" ≫= as_array)) in
  if plan_is_empty p then None
  else Some {| plan_items := plan_items p; plan_drops := plan_drops p; freed_tokens := freed_tokens p;
               capped := bool_decide (cap ≤ List.length (plan_items p)) && bool_decide (freed_tokens p < sat_sub hot (h_target th))%Z |}.
Definition try_advisor_plan (advisors : gmap string (value → option value)) c (costs : list Z) (hot : Z) (l : CompactionLimits)
    (aggressive : bool) : option CompactionPlan :=
  let name := compaction_strategy_name l in
  if is_builtin_strategy name then None
  else
    advise ← advisors !! trim name;
    output ← advise (advisor_input c name costs hot l aggressive);
    advised_plan c costs hot l output.
Definition register_compaction_advisor (name : string) (advise : value → option value)
    (advisors : gmap string (value → option value)) : gmap string (value → option value) * bool :=
  let key := trim name in
  if decide (key = "" ∨ is_Some (advisors !! key)) then (advisors, false) else (<[key := advise]> advisors, true).
Definition unregister_compaction_advisor (name : string) (advisors : gmap string (value → option value)) :
    gmap string (value → option value) * bool :=
  (delete (trim name) advisors, bool_decide (is_Some (advisors !! trim name))).

(** [build_plan].  The first position of a sequence number in the snapshot. *)
Definition snap_index (snap : list (option Z)) (q : Z) : option nat := fst <$> list_find (λ s, s = Some q) snap.
Definition span_seqs (sp : SeqRange) : list Z := seqZ (range_start sp) (range_end sp + 1 - range_start sp).
Definition block_indices (snap : list (option Z)) b : list nat := omap (snap_index snap) (spans b ≫= span_seqs).
Definition all_present (snap : list (option Z)) b : bool :=
  forallb (λ q, bool_decide (is_Some (snap_index snap q))) (spans b ≫= span_seqs).
Definition min_list (l : list nat) : option nat := match l with [] => None | x :: l' => Some (foldl Nat.min x l') end.
Definition desc_size b : Z := - size_tokens b.
(** First compressions: raw blocks, the largest first. *)
Fixpoint plan_raws (costs : list Z) (budget target : Z) (cap : nat) (snap : list (option Z)) (raws : list CompressionBlock)
    (p : list CompactionPlanItem * Z) : list CompactionPlanItem * Z :=
  match raws with
  | [] => p
  | b :: raws' =>
      if decide ((target ≤ p.2)%Z ∨ cap ≤ List.length p.1) then p
      else
        let idx := block_indices snap b in
        match min_list idx with
        | None => plan_raws costs budget target cap snap raws' p
        | Some lo =>
            let hi := foldl Nat.max 0 idx in
            plan_raws costs budget target cap snap raws'
              ((slices costs budget cap (λ _, block_id b) (S hi) lo (S hi) p.1).1, sat_add u64_max p.2 (size_tokens b))
        end
  end.
(** Re-compressions: the largest summaries first. *)
Definition shown_at (snapshot : list Message) (id : string) : option nat := fst <$> list_find (λ m, message_id m = id) snapshot.
Fixpoint plan_repress (target : Z) (cap : nat) (snapshot : list Message) (bs : list CompressionBlock)
    (p : list CompactionPlanItem * Z) : list CompactionPlanItem * Z :=
  match bs with
  | [] => p
  | b :: bs' =>
      if decide ((target ≤ p.2)%Z ∨ cap ≤ List.length p.1) then p
      else match shown_at snapshot (summary_message_id b) with
      | None => plan_repress target cap snapshot bs' p
      | Some i =>
          plan_repress target cap snapshot bs'
            (p.1 ++ [{| item_block := block_id b; item_start := i; item_end := S i; depth := sat_add u32_max (repress_count b) 1;
                        extra_block_ids := [] |}], sat_add u64_max p.2 (size_tokens b / 2))
      end
  end.
(** Deactivations: the smallest summaries first. *)
Fixpoint plan_small (target : Z) (bs : list CompressionBlock) (p : list string * Z) : list string * Z :=
  match bs with
  | [] => p
  | b :: bs' =>
      if decide (target ≤ p.2)%Z then p else plan_small target bs' (p.1 ++ [block_id b], sat_add u64_max p.2 (size_tokens b))
  end.
Definition raw_targets (r_min : Z) (snap : list (option Z)) c : list CompressionBlock :=
  sort_by_key desc_size (filter (λ b, raw_candidate r_min b && all_present snap b = true) (blocks c)).
Definition repress_targets (l : CompactionLimits) (snapshot : list Message) c : list CompressionBlock :=
  sort_by_key desc_size (filter (λ b, repress_candidate (r_repress l) (k_repress l) b && negb (bool_decide (summary_message_id b = ""))
    && bool_decide (is_Some (shown_at snapshot (summary_message_id b))) = true) (blocks c)).
Definition drop_targets c : list CompressionBlock :=
  sort_by_key size_tokens (filter (λ b, active b = true ∧ block_state b ≠ Raw) (blocks c)).
Definition builtin_plan c (snap : list (option Z)) (snapshot : list Message) (hot : Z) (l : CompactionLimits) (aggressive : bool) :
    CompactionPlan :=
  let th := resolve_compaction_thresholds (window_tokens c) l in
  let target := sat_sub hot (h_target th) in
  let budget := resolve_summary_call_budget (window_tokens c) l in
  let cap := plan_max_items l in
  let costs := estimate <$> snapshot in
  let p := plan_raws costs budget target cap snap (raw_targets (if aggressive then 0%Z else r_min_range l) snap c) ([], 0%Z) in
  let p := (merge_adjacent_items costs budget p.1, p.2) in
  let p := if decide (p.2 < target)%Z then plan_repress target cap snapshot (repress_targets l snapshot c) p else p in
  let d := if decide (p.2 < target)%Z then plan_small target (drop_targets c) ([], p.2) else ([], p.2) in
  {| plan_items := p.1; plan_drops := d.1; freed_tokens := d.2;
     capped := bool_decide (cap ≤ List.length p.1) && bool_decide (d.2 < target)%Z |}.
Definition build_plan (advisors : gmap string (value → option value)) c (v : MessageView) (snapshot history : list Message)
    (seqs : list Z) (hot : Z) (l : CompactionLimits) (aggressive : bool) : CompactionPlan :=
  let th := resolve_compaction_thresholds (window_tokens c) l in
  if decide (window_tokens c = 0 ∨ hot ≤ h_target th)%Z then empty_plan
  else if is_single_summary_strategy (compaction_strategy_name l) then empty_plan
  else match try_advisor_plan advisors c (estimate <$> snapshot) hot l aggressive with
  | Some p => p
  | None => builtin_plan c (snapshot_seq_map v snapshot history seqs) snapshot hot l aggressive
  end.
End messages.

(** [plan_covers_snapshot] and [outcomes_match_plan] *)
Definition item_fits (n : nat) (i : CompactionPlanItem) : bool :=
  bool_decide (item_block i ≠ "") && bool_decide (item_start i < item_end i) && bool_decide (item_end i ≤ n).
Definition plan_covers_snapshot (p : CompactionPlan) (n : nat) : bool := forallb (item_fits n) (plan_items p).
Definition outcomes_match_plan (outcomes : list BlockOutcome) (plan : list CompactionPlanItem) : bool :=
  bool_decide (plan = []) ||
  forallb (λ o, existsb (λ i, bool_decide (item_block i = outcome_block o)) plan) outcomes.
