(* ===== verification/CompactionFacts.v ===== *)
(** What the planner of [Compaction] promises: a stateless plan tiles its
    snapshot, and a plan stays within the snapshot, the cap of a round and the
    budget of a call, and never gives up raw history. *)

From S2P Require Import Prelude Strings Json Numbers Compaction.

Implicit Types i : CompactionPlanItem.

(** * Padded names *)

Lemma digits_value_zeros n s : digits_value 0 (String.concat "" (replicate n "0") +:+ s) = digits_value 0 s.
Proof.
  induction n as [|n IH]; [done|]. cbn [replicate].
  assert (H : String.concat "" ("0" :: replicate n "0") = "0" +:+ String.concat "" (replicate n "0")) by (by destruct n).
  rewrite H, append_assoc. cbn. exact IH.
Qed.
Lemma pad4_value z : (0 ≤ z)%Z → digits_value 0 (pad4 z) = Some z.
Proof. intros Hz. unfold pad4. rewrite digits_value_zeros. destruct (show_nat_spec z Hz) as (ch & d & -> & _ & H). exact H. Qed.
Lemma pad4_inj x y : (0 ≤ x)%Z → (0 ≤ y)%Z → pad4 x = pad4 y → x = y.
Proof. intros Hx Hy H. apply (f_equal (digits_value 0)) in H. rewrite !pad4_value in H by done. by injection H. Qed.

(** * Slices *)

(** Items that follow each other without a gap from [s] to [e], none empty. *)
Fixpoint tiles (s : nat) (items : list CompactionPlanItem) (e : nat) : Prop :=
  match items with
  | [] => s = e
  | i :: items' => item_start i = s ∧ item_start i < item_end i ∧ tiles (item_end i) items' e
  end.
(** A slice is within the budget, or one message over it after free ones. *)
Definition fits_call (costs : list Z) (budget : Z) (s e : nat) : Prop :=
  (range_cost costs s e ≤ budget)%Z ∨ s < e ∧ range_cost costs s (e - 1) = 0%Z.

Lemma range_cost_S costs s e : s < e → range_cost costs s e = (cost_at costs s + range_cost costs (S s) e)%Z.
Proof. intros H. unfold range_cost. replace (e - s) with (S (e - S s)) by lia. done. Qed.
Lemma range_cost_nil costs s e : e ≤ s → range_cost costs s e = 0%Z.
Proof. intros H. unfold range_cost. by replace (e - s) with 0 by lia. Qed.
Lemma range_cost_app costs s m e : s ≤ m ≤ e → range_cost costs s e = (range_cost costs s m + range_cost costs m e)%Z.
Proof.
  intros [H1 H2]. unfold range_cost. replace (e - s) with ((m - s) + (e - m)) by lia. rewrite seq_app, fmap_app, foldr_app.
  replace (s + (m - s)) with m by lia. generalize (foldr Z.add 0%Z (cost_at costs <$> seq m (e - m))) as x.
  intros x. induction (cost_at costs <$> seq s (m - s)) as [|y l IH]; simpl; lia.
Qed.
Lemma range_cost_nonneg costs s e : Forall (λ x, 0 ≤ x)%Z costs → (0 ≤ range_cost costs s e)%Z.
Proof.
  intros Hc. unfold range_cost. induction (seq s (e - s)) as [|k l IH]; [done|]. cbn.
  assert (0 ≤ cost_at costs k)%Z; [|lia]. unfold cost_at. destruct (costs !! k) as [x|] eqn:Hk; [|done].
  rewrite Forall_forall in Hc. apply Hc. by eapply list_elem_of_lookup_2.
Qed.

(** Slices tile the stretch they cover and stop at its end or at the cap. *)
Lemma slice_end_bounds costs budget n acc e : e ≤ slice_end costs budget n acc e ≤ e + n.
Proof.
  revert acc e. induction n as [|n IH]; intros acc e; cbn [slice_end]; [lia|]. case_decide; [lia|].
  specialize (IH (sat_add u64_max acc (cost_at costs e)) (S e)). lia.
Qed.
Ltac stop_here :=
  exists []; rewrite app_nil_r; split; [done|]; split; [done|]; split; [lia|]; split; [|split; [lia|]];
  [|intros ? ?; by rewrite lookup_nil].
Lemma slices_spec costs budget cap name fuel cursor stop items :
  cursor ≤ stop → stop - cursor ≤ fuel →
  let '(items', cursor') := slices costs budget cap name fuel cursor stop items in
  ∃ new, items' = items ++ new ∧ tiles cursor new cursor' ∧ cursor ≤ cursor' ≤ stop ∧
    (cursor' = stop ∨ cap ≤ List.length items') ∧ List.length items' ≤ Nat.max (List.length items) cap ∧
    (∀ k i, new !! k = Some i → item_block i = name (List.length items + k) ∧ depth i = 0%Z ∧ extra_block_ids i = []).
Proof.
  revert cursor items. induction fuel as [|fuel IH]; intros cursor items Hc Hf; cbn [slices].
  { stop_here. left. lia. }
  case_decide as Hd; [|stop_here; lia].
  destruct Hd as [Hlt Hcap]. pose proof (slice_end_bounds costs budget (stop - cursor) 0 cursor) as Hr.
  cbv zeta. set (e0 := slice_end costs budget (stop - cursor) 0 cursor) in *.
  set (e := if decide (e0 = cursor) then S e0 else e0). assert (He : cursor < e ≤ stop) by (subst e; case_decide; lia).
  set (it := {| item_block := name (List.length items); item_start := cursor; item_end := e; depth := 0; extra_block_ids := [] |}).
  specialize (IH e (items ++ [it]) ltac:(lia) ltac:(lia)).
  destruct (slices costs budget cap name fuel e stop (items ++ [it])) as [items' cursor'].
  destruct IH as (new & -> & Ht & Hcur & Hend & Hlen & Hnames).
  rewrite <-app_assoc in *. cbn [app] in *. exists (it :: new). split; [done|]. split; [cbn; by split_and!; [..|lia|]|]. split; [lia|]. split; [done|].
  split; [rewrite (length_app items [it]) in Hlen; cbn [List.length] in Hlen; lia|].
  intros [|k] i' Hk; [injection Hk as <-; by rewrite Nat.add_0_r|].
  destruct (Hnames k i' Hk) as (-> & ? & ?). rewrite length_app. simpl. split; [f_equal; lia|done].
Qed.

Section slicing.
  Context (costs : list Z) (budget : Z) (Hcosts : Forall (λ x, 0 ≤ x)%Z costs) (Hbudget : (0 < budget < u64_max)%Z).

Lemma slice_end_over n acc e : (budget < acc)%Z → slice_end costs budget n acc e = e.
Proof.
  intros H. destruct n as [|n]; [done|]. cbn [slice_end]. rewrite decide_True; [done|].
  pose proof (range_cost_nonneg costs e (S e) Hcosts) as H0. rewrite range_cost_S, range_cost_nil in H0 by lia. mlia.
Qed.
Lemma slice_end_spec n acc e :
  (0 ≤ acc ≤ budget)%Z → let r := slice_end costs budget n acc e in
  e ≤ r ≤ e + n ∧ ((acc + range_cost costs e r ≤ budget)%Z ∨ acc = 0%Z ∧ e < r ∧ range_cost costs e (r - 1) = 0%Z) ∧
  (acc = 0%Z → 0 < n → e < r).
Proof.
  revert acc e. induction n as [|n IH]; intros acc e Hacc; cbn [slice_end].
  { split; [lia|]. split; [left; rewrite range_cost_nil; lia|lia]. }
  pose proof (range_cost_nonneg costs e (S e) Hcosts) as H0. rewrite range_cost_S, range_cost_nil in H0 by lia.
  case_decide as Hd. { split; [lia|]. split; [left; rewrite range_cost_nil; lia|lia]. }
  set (acc' := sat_add u64_max acc (cost_at costs e)) in *. destruct (decide (acc' ≤ budget)%Z) as [Hle|Hgt].
  - assert (Hacc' : acc' = (acc + cost_at costs e)%Z) by (subst acc'; mlia).
    destruct (IH acc' (S e)) as (Hr & Hfit & _); [mlia|]. cbv zeta in *. set (r := slice_end costs budget n acc' (S e)) in *.
    split; [lia|]. split; [|lia]. destruct Hfit as [Hfit|(Hz & Hlt & Hzero)].
    + left. rewrite range_cost_S by lia. lia.
    + right. rewrite range_cost_S by lia. lia.
  - assert (acc = 0%Z) as -> by mlia. rewrite slice_end_over by lia. split; [lia|]. split; [|lia].
    right. split; [done|]. split; [lia|]. apply range_cost_nil. lia.
Qed.

Definition fits_item i : Prop := fits_call costs budget (item_start i) (item_end i).
Lemma slices_fit cap name fuel cursor stop items :
  cursor ≤ stop → Forall fits_item items → Forall fits_item (slices costs budget cap name fuel cursor stop items).1.
Proof.
  revert cursor items. induction fuel as [|fuel IH]; intros cursor items Hc Hi; [done|]. cbn [slices].
  case_decide as Hd; [|done]. destruct Hd as [Hlt Hcap].
  destruct (slice_end_spec (stop - cursor) 0 cursor ltac:(lia)) as (Hr & Hfit & Hpos). cbv zeta in *.
  specialize (Hpos eq_refl ltac:(lia)). set (e := slice_end costs budget (stop - cursor) 0 cursor) in *.
  rewrite decide_False by lia. apply IH; [lia|]. apply Forall_app. split; [done|]. constructor; [|done].
  destruct Hfit as [?|(_ & ? & ?)]; [by left|by right].
Qed.
End slicing.

(** * The stateless plan *)

Lemma tiles_app s items m items' e : tiles s items m → tiles m items' e → tiles s (items ++ items') e.
Proof. revert s. induction items as [|i items IH]; intros s; [by intros <-|]. intros (Hs & Hi & Ht) H. split; [done|]. split; [done|]. by apply IH. Qed.
Lemma tiles_app_inv s items items' e : tiles s (items ++ items') e → ∃ m, tiles s items m ∧ tiles m items' e.
Proof.
  revert s. induction items as [|i items IH]; intros s; [by exists s|]. intros (Hs & Hi & (m & H1 & H2)%IH). by exists m.
Qed.
Lemma cheapest_pair_bound costs items : 2 ≤ List.length items → cheapest_pair costs items < List.length items - 1.
Proof.
  intros H. unfold cheapest_pair. set (n := List.length items - 1). assert (Hn : 0 < n) by lia. clearbody n.
  match goal with |- (foldl ?f _ _).1 < _ => set (step := f) end. assert (Hf : ∀ l best, best.1 < n → Forall (λ k, k < n) l → (foldl step best l).1 < n).
  { induction l as [|k l IH]; intros best Hb Hl; [done|]. apply Forall_cons in Hl as [Hk Hl]. cbn [foldl]. apply IH; [|done].
    unfold step. cbv zeta. by case_decide. }
  apply Hf; [done|]. apply Forall_seq. lia.
Qed.
(** Merging two neighbours keeps the tiling and drops one item. *)
Lemma merge_pair_spec items k s e :
  k < List.length items - 1 → tiles s items e →
  tiles s (merge_pair items k) e ∧ List.length items = S (List.length (merge_pair items k)) ∧
  item_block <$> merge_pair items k `sublist_of` item_block <$> items.
Proof.
  intros Hk Ht. destruct (lookup_lt_is_Some_2 items k ltac:(lia)) as [x Hx]. destruct (lookup_lt_is_Some_2 items (S k) ltac:(lia)) as [y Hy].
  unfold merge_pair. rewrite Hy, Hx. cbn [fmap option_list list_fmap].
  assert (Hitems : items = take k items ++ [x; y] ++ drop (S (S k)) items).
  { rewrite <-(take_drop k items) at 1. f_equal. rewrite (drop_S _ x) by done. cbn. f_equal. by rewrite (drop_S _ y). }
  split; [|split].
  - rewrite Hitems in Ht. apply tiles_app_inv in Ht as (m & H1 & H2). destruct H2 as (Hxs & Hxl & Hys & Hyl & Ht).
    apply tiles_app with m; [done|]. split; [done|]. split; [simpl; lia|done].
  - rewrite Hitems at 1. rewrite !length_app. simpl. lia.
  - assert (Hn : item_block <$> items = (item_block <$> take k items) ++ [item_block x; item_block y] ++ (item_block <$> drop (S (S k)) items))
      by (rewrite Hitems at 1; by rewrite !fmap_app).
    rewrite Hn, !fmap_app. apply sublist_app; [done|]. cbn. apply sublist_skip. by apply sublist_cons.
Qed.
Lemma widen_spec fuel costs cap items s e :
  0 < cap → List.length items - cap ≤ fuel → tiles s items e →
  let items' := widen fuel costs cap items in
  tiles s items' e ∧ List.length items' ≤ cap ∧ item_block <$> items' `sublist_of` item_block <$> items ∧
  (List.length items ≤ cap → items' = items).
Proof.
  intros Hcap. revert items. induction fuel as [|fuel IH]; intros items Hf Ht; cbn [widen]; [split; [done|]; split; [lia|done]|].
  case_decide as Hd; [|split; [done|]; split; [lia|done]].
  destruct (merge_pair_spec items (cheapest_pair costs items) s e) as (Ht' & Hlen & Hsub); [apply cheapest_pair_bound; lia|done|].
  destruct (IH (merge_pair items (cheapest_pair costs items))) as (H1 & H2 & H3 & _); [lia|done|].
  split; [done|]. split; [done|]. split; [by etrans|lia].
Qed.
Lemma widen_length fuel costs cap items s e :
  cap ≤ List.length items → tiles s items e → cap ≤ List.length (widen fuel costs cap items).
Proof.
  revert items. induction fuel as [|fuel IH]; intros items Hf Ht; [done|]. cbn [widen]. case_decide as Hd; [|done].
  destruct (decide (2 ≤ List.length items)) as [H2|H2].
  - destruct (merge_pair_spec items (cheapest_pair costs items) s e) as (Ht' & Hlen & _); [apply cheapest_pair_bound; lia|done|].
    apply IH; [lia|done].
  - assert (cap = 0) by lia. lia.
Qed.
Lemma slice_names_NoDup (new : list CompactionPlanItem) n :
  (∀ k i, new !! k = Some i → item_block i = w_name (n + k)) → NoDup (item_block <$> new).
Proof.
  intros H. apply NoDup_alt. intros k1 k2 x (i1 & Hx1 & H1)%list_lookup_fmap_Some (i2 & Hx2 & H2)%list_lookup_fmap_Some.
  rewrite (H _ _ H1) in Hx1. rewrite (H _ _ H2) in Hx2. subst x. apply (inj (String.append "w")) in Hx2. apply pad4_inj in Hx2; lia.
Qed.

(** * Items of a plan *)

(** What every item of a plan keeps: a range of the [n] snapshot positions, for an
    active block [known]. *)
Definition good_item (n : nat) (known : list string) i : Prop :=
  item_start i < item_end i ∧ item_end i ≤ n ∧ item_block i ∈ known.

Lemma tiles_forall (P : CompactionPlanItem → Prop) s items e :
  tiles s items e → (∀ i, i ∈ items → s ≤ item_start i → item_start i < item_end i → item_end i ≤ e → P i) → Forall P items.
Proof.
  revert s. induction items as [|i items IH]; intros s Ht H; [constructor|]. destruct Ht as (<- & Hi & Ht).
  assert (Hle : item_end i ≤ e). { clear -Ht. revert Ht. generalize (item_end i) as m. induction items as [|j items IH]; intros m; [by intros ->|].
    intros (<- & Hj & Hj'%IH). lia. }
  constructor; [apply H; [left|done..]|]. apply (IH (item_end i)); [done|]. intros j Hj H1 H2 H3. apply H; [by right|lia|done..].
Qed.
Lemma min_list_spec l lo : min_list l = Some lo → lo ∈ l ∧ Forall (λ x, lo ≤ x) l.
Proof.
  destruct l as [|x l]; [done|]. intros [= <-]. revert x. induction l as [|y l IH]; intros x; [split; [left|by repeat constructor]|].
  cbn [foldl]. destruct (IH (Nat.min x y)) as [Hin Hall]. apply Forall_cons in Hall as [Hm Hall]. cbn beta in Hm.
  split; [|constructor; [lia|constructor; [lia|done]]].
  apply elem_of_cons in Hin as [->|Hin]; [|by do 2 right]. destruct (Nat.min_dec x y) as [->| ->]; [left|right; left].
Qed.
Lemma max_list_spec l m : Forall (λ x, x ≤ foldl Nat.max m l) l ∧ m ≤ foldl Nat.max m l.
Proof.
  revert m. induction l as [|y l IH]; intros m; cbn [foldl]; [done|].
  destruct (IH (Nat.max m y)) as (H2 & H3). split; [constructor; [lia|done]|lia].
Qed.
Lemma max_list_bound l n : Forall (λ x, x < n) l → 0 < n → foldl Nat.max 0 l < n.
Proof. intros H Hn. revert H. assert (0 < n) as H0 by done. revert H0. generalize 0 as m. induction l as [|y l IH]; intros m Hm H; [done|]. apply Forall_cons in H as [Hy H]. cbn [foldl]. apply IH; [lia|done]. Qed.

(** The cap and the shape survive each step of the planner. *)
Section planner.
  Context (costs : list Z) (budget : Z) (Hcosts : Forall (λ x, 0 ≤ x)%Z costs) (Hbudget : (0 < budget < u64_max)%Z).
  Context (cap : nat) (n : nat) (known : list string).
  Implicit Types p : list CompactionPlanItem * Z.

Definition plan_ok (items : list CompactionPlanItem) : Prop :=
  List.length items ≤ cap ∧ Forall (good_item n known) items ∧ Forall (fits_item costs budget) items.

Lemma plan_ok_snoc items i :
  plan_ok items → List.length items < cap → good_item n known i → fits_item costs budget i → plan_ok (items ++ [i]).
Proof.
  intros (H1 & H2 & H3) Hlt Hg Hf. split; [rewrite length_app; simpl; lia|]. split; apply Forall_app; split; try done; by constructor.
Qed.
Lemma plan_raws_ok target snap bs p :
  List.length snap = n → Forall (λ b, block_id b ∈ known) bs → plan_ok p.1 → plan_ok (plan_raws costs budget target cap snap bs p).1.
Proof.
  intros Hsnap. revert p. induction bs as [|b bs IH]; intros p Hbs Hp; [done|]. apply Forall_cons in Hbs as [Hb Hbs]. cbn [plan_raws].
  case_decide as Hd; [done|]. cbv zeta. set (idx := block_indices snap b). destruct (min_list idx) as [lo|] eqn:Hlo; [|by apply IH].
  apply IH; [done|]. cbn [fst]. apply min_list_spec in Hlo as [Hin _].
  assert (Hidx : Forall (λ x, x < n) idx).
  { apply Forall_forall. intros x Hx. apply list_elem_of_omap in Hx as (q & _ & Hq). unfold snap_index in Hq.
    apply fmap_Some in Hq as ([k y] & Hk & ->). apply list_find_Some in Hk as (Hk & _). apply lookup_lt_Some in Hk. simpl. lia. }
  pose proof (proj1 (Forall_forall _ _) Hidx _ Hin : lo < n) as Hlon. pose proof (max_list_bound idx n Hidx ltac:(lia)) as Hhi.
  destruct (max_list_spec idx 0) as [Hmax _]. pose proof (proj1 (Forall_forall _ _) Hmax _ Hin) as Hlohi. cbn beta in *.
  set (hi := foldl Nat.max 0 idx) in *. destruct Hp as (H1 & H2 & H3).
  pose proof (slices_spec costs budget cap (λ _, block_id b) (S hi) lo (S hi) p.1 ltac:(lia) ltac:(lia)) as Hs.
  pose proof (slices_fit costs budget Hcosts Hbudget cap (λ _, block_id b) (S hi) lo (S hi) p.1 ltac:(lia) H3) as Hfit.
  destruct (slices _ _ _ _ _ _ _ _) as [items' cursor']. destruct Hs as (new & -> & Ht & Hcur & _ & Hlen & Hnames). cbn [fst] in *.
  split; [lia|]. split; [|done]. apply Forall_app. split; [done|]. eapply tiles_forall; [exact Ht|].
  intros i [k Hk]%list_elem_of_lookup _ Hlt He. destruct (Hnames k i Hk) as [Hname _]. split; [done|]. split; [lia|]. by rewrite Hname.
Qed.
Lemma plan_repress_ok {Message : Type} (message_id : Message → string) target snapshot bs p :
  List.length snapshot = n → Forall (λ b, block_id b ∈ known) bs → plan_ok p.1 →
  plan_ok (plan_repress message_id target cap snapshot bs p).1.
Proof.
  intros Hsnap. revert p. induction bs as [|b bs IH]; intros p Hbs Hp; [done|]. apply Forall_cons in Hbs as [Hb Hbs]. cbn [plan_repress].
  case_decide as Hd; [done|]. destruct (shown_at _ _ _) as [i|] eqn:Hi; [|by apply IH]. apply IH; [done|]. cbn [fst].
  apply fmap_Some in Hi as ([k y] & Hk & ->). apply list_find_Some in Hk as (Hk & _). apply lookup_lt_Some in Hk.
  apply plan_ok_snoc; [done|cbn; lia| |].
  - split; [cbn; lia|]. split; [cbn; lia|done].
  - right. cbn. split; [lia|]. apply range_cost_nil. lia.
Qed.
Lemma merge_item_ok merged i :
  plan_ok merged → List.length merged < cap → good_item n known i → fits_item costs budget i → plan_ok (merge_item costs budget merged i).
Proof.
  intros Hm Hlt Hi Hf. unfold merge_item. destruct (last merged) as [prev|] eqn:Hl; [|by apply plan_ok_snoc].
  destruct (_ && _) eqn:Hsame; [|by apply plan_ok_snoc].
  destruct (on_last_cases (absorb i) merged) as [[-> _]|(k & x & -> & ->)]; [done|]. rewrite last_snoc in Hl. injection Hl as ->.
  unfold same_call in Hsame. rewrite !andb_true_iff, !bool_decide_eq_true in Hsame. destruct Hsame as (_ & ((((_ & Hadj) & _) & Hcost) & _) & _).
  destruct Hm as (H1 & H2 & H3). rewrite length_app in *. apply Forall_app in H2 as [H2 H2']. apply Forall_app in H3 as [H3 H3'].
  apply Forall_singleton in H2' as (Hp1 & Hp2 & Hp3). destruct Hi as (Hi1 & Hi2 & Hi3).
  split; [rewrite length_app; simpl in *; lia|]. split; apply Forall_app; (split; [done|]); apply Forall_singleton.
  - split; [cbn; lia|]. by split.
  - left. cbn [item_start item_end absorb]. rewrite (range_cost_app _ _ (item_end prev)) by lia. rewrite <-Hadj in Hcost, Hi1.
    pose proof (range_cost_nonneg costs (item_start prev) (item_end prev) Hcosts).
    pose proof (range_cost_nonneg costs (item_end prev) (item_end i) Hcosts). mlia.
Qed.
Lemma merge_item_length merged i : List.length (merge_item costs budget merged i) ≤ S (List.length merged).
Proof.
  unfold merge_item. destruct (last merged) as [prev|]; [|rewrite length_app; simpl; lia].
  destruct (_ && _); [|rewrite length_app; simpl; lia].
  destruct (on_last_cases (absorb i) merged) as [[-> ->]|(k & x & -> & ->)]; [simpl; lia|]. rewrite !length_app. simpl. lia.
Qed.
Lemma merge_adjacent_ok items : plan_ok items → plan_ok (merge_adjacent_items costs budget items).
Proof.
  intros (H1 & H2 & H3). unfold merge_adjacent_items. case_decide; [done|].
  set (sorted := sort_by_key _ items). assert (Hp : sorted ≡ₚ items) by apply sort_by_key_Permutation. clearbody sorted. rewrite <-Hp in H1, H2, H3. clear Hp H.
  assert (Hgen : ∀ acc, List.length acc + List.length sorted ≤ cap → plan_ok acc → plan_ok (foldl (merge_item costs budget) acc sorted)); [|apply Hgen; [done|]; split; [simpl; lia|by split]].
  clear H1. induction sorted as [|i sorted IH]; intros acc Hlen Hacc; [done|]. apply Forall_cons in H2 as [Hg H2]. apply Forall_cons in H3 as [Hf H3].
  cbn [foldl]. simpl in Hlen. pose proof (merge_item_length acc i). apply IH; try done; [lia|]. apply merge_item_ok; [done|lia|done..].
Qed.
End planner.

(** Drops name summaries, each once. *)
Definition good_drops c (drops : list string) : Prop :=
  Forall (λ id, ∃ b, b ∈ blocks c ∧ block_id b = id ∧ active b = true ∧ block_state b ≠ Raw) drops ∧ NoDup drops.
Lemma plan_small_sublist target bs p : ∃ l, (plan_small target bs p).1 = p.1 ++ (block_id <$> l) ∧ l `sublist_of` bs.
Proof.
  revert p. induction bs as [|b bs IH]; intros p; cbn [plan_small]; [exists []; by rewrite app_nil_r|].
  case_decide; [exists []; split; [by rewrite app_nil_r|apply sublist_nil_l]|].
  destruct (IH (p.1 ++ [block_id b], sat_add u64_max p.2 (size_tokens b))) as (l & -> & Hl). exists (b :: l).
  split; [cbn [fst]; by rewrite <-app_assoc|by apply sublist_skip].
Qed.
Lemma plan_small_good c target x : NoDup (block_id <$> blocks c) → good_drops c (plan_small target (drop_targets c) ([], x)).1.
Proof.
  intros Hnd. destruct (plan_small_sublist target (drop_targets c) ([], x)) as (l & -> & Hl). cbn [fst app].
  assert (Hp : drop_targets c ≡ₚ filter (λ b, active b = true ∧ block_state b ≠ Raw) (blocks c)) by apply sort_by_key_Permutation.
  split.
  - apply Forall_fmap, Forall_forall. intros b Hb. assert (Hb' : b ∈ drop_targets c) by (by eapply elem_of_sublist).
    rewrite Hp in Hb'. apply list_elem_of_filter in Hb' as [[H1 H2] H3]. by exists b.
  - eapply sublist_NoDup; [|by apply fmap_sublist]. rewrite Hp. eapply sublist_NoDup; [exact Hnd|]. apply fmap_sublist, sublist_filter.
Qed.
Lemma targets_known (f : CompressionBlock → bool) (key : CompressionBlock → Z) c :
  (∀ b, f b = true → active b = true) →
  Forall (λ b, block_id b ∈ active_ids c) (sort_by_key key (filter (λ b, f b = true) (blocks c))).
Proof.
  intros Hf. rewrite sort_by_key_Permutation. apply Forall_forall. intros b [H1 H2]%list_elem_of_filter.
  apply list_elem_of_fmap. exists b. split; [done|]. apply list_elem_of_filter. split; [by apply Hf|done].
Qed.

Lemma snapshot_seq_map_length {Message : Type} (message_id : Message → string) v (snapshot history : list Message) seqs :
  List.length history = List.length seqs →
  List.length (snapshot_seq_map message_id v snapshot history seqs) = List.length snapshot.
Proof.
  intros Hlen. unfold snapshot_seq_map. destruct (_ && _) eqn:Hf.
  - apply andb_true_iff in Hf as [_ Hf]. apply bool_decide_eq_true in Hf. rewrite length_fmap. lia.
  - destruct v; try apply length_replicate. rewrite length_app, length_replicate, length_take. lia.
Qed.
Lemma call_budget_pos window l : (0 < resolve_summary_call_budget window l)%Z.
Proof. unfold resolve_summary_call_budget. destruct (summary_call_budget_tokens l); unfold SUMMARY_CALL_BUDGET_MIN; lia. Qed.

(** The advice of a plugin, once checked. *)
Lemma advised_items_good c costs cap vs p :
  List.length (plan_items p) ≤ cap → Forall (good_item (List.length costs) (active_ids c)) (plan_items p) →
  let p' := foldl (advise_item (active_ids c) costs cap) p vs in
  List.length (plan_items p') ≤ cap ∧ Forall (good_item (List.length costs) (active_ids c)) (plan_items p') ∧ plan_drops p' = plan_drops p.
Proof.
  revert p. induction vs as [|v vs IH]; intros p H1 H2; [done|]. cbn [foldl].
  assert (Hstep : List.length (plan_items (advise_item (active_ids c) costs cap p v)) ≤ cap ∧
    Forall (good_item (List.length costs) (active_ids c)) (plan_items (advise_item (active_ids c) costs cap p v)) ∧
    plan_drops (advise_item (active_ids c) costs cap p v) = plan_drops p).
  { unfold advise_item. case_decide as Hd; [done|]. destruct (advised_item _ _ _) as [i|] eqn:Hi; [|done]. cbn.
    rewrite length_app. split; [simpl; lia|]. split; [|done]. apply Forall_app. split; [done|]. apply Forall_singleton.
    unfold advised_item in Hi. case_decide as Hk; [done|]. case_decide as Hr; [done|]. injection Hi as <-.
    pose proof (wrap64_u64 (default u64_max (get v "start" ≫= as_u64))). split; [cbn; mlia|]. split; [cbn; mlia|]. cbn. destruct (decide (default "" (get v "block_id" ≫= as_str) ∈ active_ids c)) as [|Hn]; [done|].
    destruct Hk. by right. }
  destruct Hstep as (S1 & S2 & S3). rewrite <-S3. by apply IH.
Qed.
Lemma advised_drops_good c vs p :
  good_drops c (plan_drops p) →
  let p' := foldl (advise_drop c) p vs in good_drops c (plan_drops p') ∧ plan_items p' = plan_items p.
Proof.
  revert p. induction vs as [|v vs IH]; intros p H; [done|]. cbn [foldl].
  assert (Hstep : good_drops c (plan_drops (advise_drop c p v)) ∧ plan_items (advise_drop c p v) = plan_items p).
  { unfold advise_drop. destruct (as_str v) as [id|]; [|done]. case_decide as Hd; [done|].
    destruct (list_find _ _) as [[k b]|] eqn:Hf; [|done]. cbn. split; [|done]. destruct H as [H1 H2].
    assert (Hin : id ∈ active_ids c) by (destruct (decide (id ∈ active_ids c)); [done|]; destruct Hd; by do 3 right).
    apply list_elem_of_fmap in Hin as (b' & Hid & [Ha Hb']%list_elem_of_filter).
    split.
    - apply Forall_app. split; [done|]. apply Forall_singleton. exists b'. split_and!; [done..|]. intros Hraw. apply Hd. right; left.
      apply list_elem_of_fmap. exists b'. split; [done|]. by apply list_elem_of_filter.
    - apply NoDup_app. split; [done|]. split; [|apply NoDup_singleton]. intros x Hx ->%list_elem_of_singleton. apply Hd. by do 2 right; left. }
  destruct Hstep as [S1 S2]. rewrite <-S2. by apply IH.
Qed.
Lemma advised_plan_good c costs hot l output p :
  advised_plan c costs hot l output = Some p →
  List.length (plan_items p) ≤ plan_max_items l ∧ Forall (good_item (List.length costs) (active_ids c)) (plan_items p) ∧ good_drops c (plan_drops p).
Proof.
  unfold advised_plan. cbv zeta.
  destruct (advised_items_good c costs (plan_max_items l) (default [] (get output "items" ≫= as_array)) empty_plan) as (H1 & H2 & H3); [cbn; lia|constructor|].
  set (p1 := foldl _ empty_plan _) in *.
  destruct (advised_drops_good c (default [] (get output "drops" ≫= as_array)) p1) as [H4 H5]; [rewrite H3; split; constructor|].
  set (p2 := foldl _ p1 _) in *. destruct (plan_is_empty p2); [done|]. intros [= <-]. cbn. rewrite H5. done.
Qed.
Lemma builtin_plan_good {Message : Type} (message_id : Message → string) (estimate : Message → Z) c snap (snapshot : list Message) hot l aggressive :
  (∀ m, 0 ≤ estimate m)%Z → (resolve_summary_call_budget (window_tokens c) l < u64_max)%Z →
  List.length snap = List.length snapshot → NoDup (block_id <$> blocks c) →
  let p := builtin_plan message_id estimate c snap snapshot hot l aggressive in
  plan_ok (estimate <$> snapshot) (resolve_summary_call_budget (window_tokens c) l) (plan_max_items l) (List.length snapshot) (active_ids c) (plan_items p) ∧
  good_drops c (plan_drops p).
Proof.
  intros Hest Hbud Hlen Hnd. unfold builtin_plan. set (budget := resolve_summary_call_budget (window_tokens c) l) in *.
  pose proof (call_budget_pos (window_tokens c) l : (0 < budget)%Z) as Hpos.
  assert (Hcosts : Forall (λ x, 0 ≤ x)%Z (estimate <$> snapshot)) by (apply Forall_fmap, Forall_true; done).
  cbv zeta. set (p := plan_raws _ _ _ _ _ _ _). assert (Hp : plan_ok (estimate <$> snapshot) budget (plan_max_items l) (List.length snapshot) (active_ids c) p.1).
  { apply plan_raws_ok; [done|lia|done| |]; [|split; [cbn; lia|by split]].
    apply (targets_known (λ b, raw_candidate _ b && all_present snap b)). unfold raw_candidate. intros b. by rewrite !andb_true_iff; intros [[[? ?] ?] ?]. }
  clearbody p. apply merge_adjacent_ok in Hp; [|done|lia]. set (q := (merge_adjacent_items _ _ _, p.2)).
  change (merge_adjacent_items (estimate <$> snapshot) budget p.1) with q.1 in Hp. clearbody q.
  match goal with |- context [if decide (q.2 < ?t)%Z then ?r else q] => set (q' := if decide (q.2 < t)%Z then r else q) end.
  assert (Hq : plan_ok (estimate <$> snapshot) budget (plan_max_items l) (List.length snapshot) (active_ids c) q'.1).
  { subst q'. case_decide; [|done]. apply plan_repress_ok; [done|..|done].
    apply (targets_known (λ b, repress_candidate _ _ b && negb (bool_decide (summary_message_id b = "")) && bool_decide (is_Some (shown_at message_id snapshot (summary_message_id b))))).
    unfold repress_candidate. intros b. by rewrite !andb_true_iff; intros [[[[[? ?] ?] ?] ?] ?]. }
  clearbody q'. cbn [plan_items plan_drops]. split; [done|]. case_decide; [by apply plan_small_good|]. cbn. by split; constructor.
Qed.
Lemma plan_bounds {Message : Type} (message_id : Message → string) (estimate : Message → Z) advisors c v (snapshot history : list Message) seqs hot l aggressive :
  (∀ m, 0 ≤ estimate m)%Z → (resolve_summary_call_budget (window_tokens c) l < u64_max)%Z →
  List.length history = List.length seqs → NoDup (block_id <$> blocks c) →
  let p := build_plan message_id estimate advisors c v snapshot history seqs hot l aggressive in
  List.length (plan_items p) ≤ plan_max_items l ∧ Forall (good_item (List.length snapshot) (active_ids c)) (plan_items p) ∧
  good_drops c (plan_drops p) ∧
  (advisors = ∅ → Forall (fits_item (estimate <$> snapshot) (resolve_summary_call_budget (window_tokens c) l)) (plan_items p)).
Proof.
  intros Hest Hbud Hlen Hnd. unfold build_plan. cbv zeta.
  repeat (case_match; [split_and!; [cbn; lia|constructor|by split; constructor|constructor]|]).
  destruct (try_advisor_plan _ _ _ _ _ _) as [p|] eqn:Hadv.
  - unfold try_advisor_plan in Hadv. destruct (is_builtin_strategy _); [done|].
    destruct (advisors !! _) as [advise|] eqn:Ha; [|done]. cbn in Hadv. destruct (advise _) as [output|]; [|done].
    apply advised_plan_good in Hadv as (H1 & H2 & H3). rewrite length_fmap in H2. split_and!; [done..|]. intros ->. by rewrite lookup_empty in Ha.
  - pose proof (builtin_plan_good message_id estimate c (snapshot_seq_map message_id v snapshot history seqs) snapshot hot l aggressive Hest Hbud
      (snapshot_seq_map_length message_id v snapshot history seqs Hlen) Hnd) as [(H1 & H2 & H3) H4]. done.
Qed.

(** * The promises *)

(** A stateless plan tiles its snapshot: every message belongs to exactly one item, in order, no
    item is empty, there are never more items than the cap (at least one), and their names are
    distinct.  As long as the slices fit the cap, every item fits the budget of a call, or is one message
    over it after free ones. *)
Theorem stateless_plan_partitions (costs : list Z) (budget : Z) (max_items : nat) :
  Forall (λ x, 0 ≤ x)%Z costs → (budget < u64_max)%Z →
  let plan := build_stateless_plan costs budget max_items in
  tiles 0 plan (List.length costs) ∧ List.length plan ≤ Nat.max max_items 1 ∧ NoDup (item_block <$> plan) ∧
  (List.length plan < Nat.max max_items 1 → Forall (λ i, fits_call costs (Z.max 1 budget) (item_start i) (item_end i)) plan).
Proof.
  intros Hc Hb. unfold build_stateless_plan. set (cap := Nat.max max_items 1). set (n := List.length costs).
  pose proof (slices_spec costs (Z.max 1 budget) cap w_name n 0 n [] ltac:(lia) ltac:(lia)) as H.
  pose proof (slices_fit costs (Z.max 1 budget) Hc ltac:(mlia) cap w_name n 0 n [] ltac:(lia) ltac:(done)) as Hfits.
  destruct (slices _ _ _ _ _ _ _ _) as [items cursor]. destruct H as (new & -> & Ht & Hcur & Hend & Hlen & Hnames).
  cbn [app fst] in *. assert (Hlen' : List.length new ≤ cap) by (clear -Hlen; change (List.length []) with 0 in Hlen; lia). pose proof (slice_names_NoDup new 0 (λ k i H, proj1 (Hnames k i H))) as Hnd.
  case_decide as Hd.
  - destruct Hend as [|Hcap]; [lia|]. set (rest := {| item_start := cursor |}).
    destruct (widen_spec (List.length (new ++ [rest])) costs cap (new ++ [rest]) 0 n) as (H1 & H2 & H3 & _); [lia|lia| |].
    { apply tiles_app with cursor; [done|]. done. }
    split; [done|]. split; [done|]. split.
    + eapply sublist_NoDup; [|exact H3]. apply (slice_names_NoDup _ 0). intros k i [Hk|[Hk Hi]]%lookup_app_Some; [by apply Hnames|].
      apply list_lookup_singleton_Some in Hi as [Hi <-]. cbn. f_equal. lia.
    + intros Hlt. exfalso. assert (Hcap0 : 0 < cap) by lia.
      assert (Hge : cap ≤ List.length (widen (List.length (new ++ [rest])) costs cap (new ++ [rest]))); [|lia].
      apply (widen_length _ costs cap (new ++ [rest]) 0 n); [rewrite length_app; simpl; lia|]. by apply tiles_app with cursor.
  - assert (cursor = n) as -> by lia.
    destruct (widen_spec (List.length new) costs cap new 0 n) as (_ & _ & _ & Hw); [lia|lia|done|].
    rewrite (Hw Hlen'). by repeat split.
Qed.
Lemma stateless_plan_partitions_witness :
  let plan := build_stateless_plan [5; 20; 3; 4; 9; 2]%Z 10 3 in
  ((λ i, (item_start i, item_end i)) <$> plan = [(0, 1); (1, 2); (2, 6)]) ∧ tiles 0 plan 6 ∧ NoDup (item_block <$> plan).
Proof.
  split; [vm_compute; reflexivity|].
  destruct (stateless_plan_partitions [5; 20; 3; 4; 9; 2]%Z 10 3) as (H1 & _ & H2 & _); [repeat constructor; lia|vm_compute; reflexivity|].
  split; [exact H1|exact H2].
Defined.

(** C28: a compaction plan stays within its bounds whoever planned it.  Every item covers a non-empty
    range of the snapshot's messages on behalf of an active block, there are never more items than
    the cap of a round, and the drops are distinct summaries, never raw history.  Without the advice of
    a plugin every item fits the budget of one call, or is one message over it after free ones. *)
Theorem plan_within_limits {Message : Type} (message_id : Message → string) (estimate : Message → Z)
    (advisors : gmap string (value → option value)) (c : CompactionState) (v : MessageView) (snapshot history : list Message)
    (seqs : list Z) (hot : Z) (l : CompactionLimits) (aggressive : bool) :
  (∀ m, 0 ≤ estimate m)%Z → (resolve_summary_call_budget (window_tokens c) l < u64_max)%Z →
  List.length history = List.length seqs → NoDup (block_id <$> blocks c) → Forall (λ b, block_id b ≠ "") (blocks c) →
  let p := build_plan message_id estimate advisors c v snapshot history seqs hot l aggressive in
  plan_covers_snapshot p (List.length snapshot) = true ∧ List.length (plan_items p) ≤ plan_max_items l ∧
  Forall (λ i, item_block i ∈ active_ids c) (plan_items p) ∧ good_drops c (plan_drops p) ∧
  (advisors = ∅ → Forall (fits_item (estimate <$> snapshot) (resolve_summary_call_budget (window_tokens c) l)) (plan_items p)).
Proof.
  intros Hest Hbud Hlen Hnd Hids.
  pose proof (plan_bounds message_id estimate advisors c v snapshot history seqs hot l aggressive Hest Hbud Hlen Hnd) as (H1 & H2 & H3 & H4).
  cbv zeta. split; [|split; [done|]; split; [|by split]].
  - apply forallb_forall. intros i Hi%list_elem_of_In. destruct (proj1 (Forall_forall _ _) H2 _ Hi) as (Hi1 & Hi2 & Hi3).
    unfold item_fits. rewrite !bool_decide_true; [done|done..|]. apply list_elem_of_fmap in Hi3 as (b & -> & [_ Hb]%list_elem_of_filter).
    by apply (proj1 (Forall_forall _ _) Hids).
  - eapply Forall_impl; [exact H2|]. by intros i (_ & _ & ?).
Qed.

(** * Concrete plans *)

(** Messages as an id and a size. *)
Definition small_limits : CompactionLimits :=
  {| h_target_ratio := None; t_handoff_ratio := None; t_compact_ratio := None; t_hard_ratio := None; limit_r_repress := None;
     limit_r_min_range := Some 10%Z; limit_k_repress := None; recent_raw_turns := None; limit_plan_max_items := Some 2;
     summary_call_budget_tokens := Some 70%Z; strategy := None |}.
Definition chat (l : list Z) : list (string * Z) := imap (λ k n, ("m" +:+ show_nat (Z.of_nat k), n)) l.
Definition windowed (window : Z) : CompactionState := set_window window no_thresholds default_compaction.
Definition chat_state (window : Z) (l : list Z) : CompactionState :=
  sync_blocks fst snd (chat l) (seqZ 1 (Z.of_nat (List.length l))) 0 (windowed window).
Definition chat_plan (window : Z) (l : list Z) : CompactionPlan :=
  build_plan fst snd ∅ (chat_state window l) VFull (chat l) (chat l) (seqZ 1 (Z.of_nat (List.length l)))
    (foldr Z.add 0%Z l) small_limits false.
(** The plan for five messages in one block: the cap of two calls leaves the last
    two messages out, and yet the whole block counts as freed. *)
Example capped_plan_skips_messages :
  let p := chat_plan 500 [30; 40; 20; 60; 500]%Z in
  ((λ i, (item_block i, item_start i, item_end i)) <$> plan_items p = [("b0000", 0, 2); ("b0000", 2, 3)]) ∧
  freed_tokens p = 650%Z ∧ capped p = false.
Proof. vm_compute. by repeat split. Qed.

Lemma plan_within_limits_witness :
  let p := chat_plan 500 [30; 40; 20; 60; 500]%Z in
  List.length (plan_items p) = 2 ∧ plan_covers_snapshot p 5 = true ∧ List.length (plan_items p) ≤ plan_max_items small_limits.
Proof.
  split; [vm_compute; reflexivity|].
  destruct (plan_within_limits fst (λ m : string * Z, Z.abs m.2) ∅ (chat_state 500 [30; 40; 20; 60; 500]%Z) VFull (chat [30; 40; 20; 60; 500]%Z)
    (chat [30; 40; 20; 60; 500]%Z) (seqZ 1 5) 650 small_limits false) as (H1 & H2 & _).
  - intros m. apply Z.abs_nonneg.
  - vm_compute. reflexivity.
  - reflexivity.
  - vm_compute. by apply NoDup_singleton.
  - vm_compute. by constructor.
  - split; [exact H1|exact H2].
Defined.
