(* ===== verification/Session.v ===== *)
(** Conversation sessions: wf-execution-shared/src/conversation_session.rs.

    A session keeps an append-only history with a sequence number per message, a
    view of it, the block table of [Compaction], the estimation ledger of
    [MessageContext] and the usage of [TokenTracker].  Messages, their estimates,
    their contents and their metadata belong to the submodule llm-suite and are
    arguments; the clock is an argument of the operations that read it. *)

From S2P Require Import Prelude Strings LineEdit Json Numbers MessageContext TokenTracker Compaction.

(** * State *)

Definition CONVERSATION_CONTEXT_ID : string := "conversation".
(** wf-execution-shared/src/ingest_preprocess.rs *)
Definition ARCHIVE_REF_KEY : string := "archive_ref".

Record ConversationState (Message : Type) : Type := {
  messages : list Message;
  seqs : list Z;
  next_seq : Z;
  token_usage : Z;
  saved_tracker : option TokenTrackerState;
  token_ledger : TokenLedger;
  active_view : MessageView;
  compaction : CompactionState;
  view_stable_estimate : Z;
}.
Arguments messages {_}.
Arguments seqs {_}.
Arguments next_seq {_}.
Arguments token_usage {_}.
Arguments saved_tracker {_}.
Arguments token_ledger {_}.
Arguments active_view {_}.
Arguments compaction {_}.
Arguments view_stable_estimate {_}.
Record ConversationSession (Message : Type) : Type := {
  conv : ConversationState Message;
  tracker : TokenUsageTracker;
}.
Arguments conv {_}.
Arguments tracker {_}.

Section session.
  Context {Message : Type} (message_id : Message → string) (estimate_message_tokens : Message → Z)
    (estimate_messages : list Message → Z) (is_system : Message → bool) (contents : Message → string + list (option string))
    (metadata : Message → option (gmap string value)) (set_metadata : gmap string value → Message → Message).
  Implicit Types s : ConversationSession Message.
  Implicit Types st : ConversationState Message.

(** ** Changes of a group of fields *)

Definition on_conv (f : ConversationState Message → ConversationState Message) s : ConversationSession Message :=
  {| conv := f (conv s); tracker := tracker s |}.
Definition on_tracker (f : TokenUsageTracker → TokenUsageTracker) s : ConversationSession Message :=
  {| conv := conv s; tracker := f (tracker s) |}.
Definition set_history (ms : list Message) (qs : list Z) (next : Z) st : ConversationState Message :=
  {| messages := ms; seqs := qs; next_seq := next; token_usage := token_usage st; saved_tracker := saved_tracker st;
     token_ledger := token_ledger st; active_view := active_view st; compaction := compaction st;
     view_stable_estimate := view_stable_estimate st |}.
Definition set_usage (usage : Z) (saved : option TokenTrackerState) st : ConversationState Message :=
  {| messages := messages st; seqs := seqs st; next_seq := next_seq st; token_usage := usage; saved_tracker := saved;
     token_ledger := token_ledger st; active_view := active_view st; compaction := compaction st;
     view_stable_estimate := view_stable_estimate st |}.
Definition on_token_ledger (f : TokenLedger → TokenLedger) st : ConversationState Message :=
  {| messages := messages st; seqs := seqs st; next_seq := next_seq st; token_usage := token_usage st;
     saved_tracker := saved_tracker st; token_ledger := f (token_ledger st); active_view := active_view st;
     compaction := compaction st; view_stable_estimate := view_stable_estimate st |}.
Definition set_view (v : MessageView) st : ConversationState Message :=
  {| messages := messages st; seqs := seqs st; next_seq := next_seq st; token_usage := token_usage st;
     saved_tracker := saved_tracker st; token_ledger := token_ledger st; active_view := v; compaction := compaction st;
     view_stable_estimate := view_stable_estimate st |}.
Definition set_estimate (n : Z) st : ConversationState Message :=
  {| messages := messages st; seqs := seqs st; next_seq := next_seq st; token_usage := token_usage st;
     saved_tracker := saved_tracker st; token_ledger := token_ledger st; active_view := active_view st;
     compaction := compaction st; view_stable_estimate := n |}.
Definition on_compaction (f : CompactionState → CompactionState) st : ConversationState Message :=
  {| messages := messages st; seqs := seqs st; next_seq := next_seq st; token_usage := token_usage st;
     saved_tracker := saved_tracker st; token_ledger := token_ledger st; active_view := active_view st;
     compaction := f (compaction st); view_stable_estimate := view_stable_estimate st |}.

(** ** Construction and views *)

Definition empty_state : ConversationState Message :=
  {| messages := []; seqs := []; next_seq := 0; token_usage := 0; saved_tracker := None; token_ledger := ∅;
     active_view := VFull; compaction := default_compaction; view_stable_estimate := 0 |}.
Definition with_token_limit (limit : Z) : ConversationSession Message := {| conv := empty_state; tracker := new_tracker limit |}.
Definition new_session : ConversationSession Message := with_token_limit 0.

Definition projected_view_estimate (history : list Message) (qs : list Z) (v : MessageView) : Z :=
  match v with
  | VFull => estimate_messages history
  | VCompacted _ | VRange _ _ => estimate_messages (project_with_seqs message_id is_system v history qs)
  | VTail last_n => estimate_messages (drop (List.length history - last_n) history)
  | VNoSystem => estimate_messages (filter (λ m, is_system m = false) history)
  end.
Definition state_view st : list Message := project_with_seqs message_id is_system (active_view st) (messages st) (seqs st).
Definition view_messages s : list Message := state_view (conv s).

(** ** Appends *)

(** The hot tail follows an append. *)
Definition extend_view (new_seq : Z) (v : MessageView) : MessageView :=
  match v with
  | VCompacted segments =>
      match last segments with
      | Some (SegRange lo _) => VCompacted (removelast segments ++ [SegRange lo new_seq])
      | _ => VCompacted (segments ++ [SegRange new_seq new_seq])
      end
  | _ => v
  end.
Definition add_message_state (now : Z) (m : Message) st : ConversationState Message :=
  let estimated := estimate_message_tokens m in
  let st := on_token_ledger (append CONVERSATION_CONTEXT_ID estimated 1) st in
  let st := set_estimate (sat_add u64_max (view_stable_estimate st) estimated) st in
  let st := set_history (messages st ++ [m]) (seqs st ++ [next_seq st]) (sat_add u64_max (next_seq st) 1) st in
  let st := on_compaction (sync_blocks message_id estimate_message_tokens (messages st) (seqs st) now) st in
  set_view (extend_view (sat_sub (next_seq st) 1) (active_view st)) st.
Definition add_message (now : Z) (m : Message) : ConversationSession Message → ConversationSession Message :=
  on_conv (add_message_state now m).
Definition add_messages (now : Z) (ms : list Message) s : ConversationSession Message := foldl (λ s m, add_message now m s) s ms.

(** [compress_with_tail] *)
Definition tail_segment (ms : list Message) (qs : list Z) (tail_keep : nat) : list ViewSegment :=
  let start := List.length ms - (tail_keep + 1) in
  match qs !! start, last qs with
  | Some lo, Some hi => if decide (0 < tail_keep ∧ (lo < hi)%Z) then [SegRange lo hi] else []
  | _, _ => []
  end.
Definition compressed_view (ms : list Message) (qs : list Z) (tail_keep : nat) : MessageView :=
  VCompacted (option_list ((λ m, SegSummary (message_id m)) <$> last ms) ++ tail_segment ms qs tail_keep).
Definition compress_with_tail (now : Z) (summary_messages : list Message) (tail_keep : nat) s : ConversationSession Message :=
  match summary_messages with
  | [] => s
  | _ =>
      let s := add_messages now summary_messages s in
      let v := compressed_view (messages (conv s)) (seqs (conv s)) tail_keep in
      let n := projected_view_estimate (messages (conv s)) (seqs (conv s)) v in
      on_tracker reset_preflight_warning (on_conv (λ st, set_view v (set_estimate n st)) s)
  end.
Definition compress (now : Z) (summary_messages : list Message) : ConversationSession Message → ConversationSession Message :=
  compress_with_tail now summary_messages 0.

(** ** Compaction *)

Definition set_compaction_window (window_tokens : Z) (l : CompactionLimits) : ConversationSession Message → ConversationSession Message :=
  on_conv (on_compaction (set_window window_tokens (resolve_compaction_thresholds window_tokens l))).
Definition refresh_hot_estimate_state st : ConversationState Message :=
  on_compaction (set_hot (projected_view_estimate (messages st) (seqs st) (active_view st)) false) st.
Definition refresh_hot_estimate : ConversationSession Message → ConversationSession Message := on_conv refresh_hot_estimate_state.
Definition set_pending_compaction (plan : list CompactionPlanItem) (drops : list string) :
    ConversationSession Message → ConversationSession Message := on_conv (on_compaction (set_pending plan drops)).
Definition clear_pending_compaction : ConversationSession Message → ConversationSession Message := set_pending_compaction [] [].
Definition request_handoff (b : bool) c : CompactionState := set_handoff (mode c) (handoff c) b c.
Definition mark_handoff_requested : ConversationSession Message → ConversationSession Message :=
  on_conv (on_compaction (request_handoff true)).
Definition take_handoff_requested s : bool * ConversationSession Message :=
  (handoff_requested (compaction (conv s)), on_conv (on_compaction (request_handoff false)) s).
Definition file_read_entry s (path : string) : option FileReadEntry := file_reads (compaction (conv s)) !! path.
Definition record_file_read (e : FileReadEntry) : ConversationSession Message → ConversationSession Message :=
  on_conv (on_compaction (λ c, set_file_reads (<[read_path e := e]> (file_reads c)) c)).
Definition session_decide_compaction s (hot_tokens : Z) (l : CompactionLimits) : CompactionDecision :=
  decide_compaction hot_tokens (compaction (conv s)) l.
Definition build_compaction_plan (advisors : gmap string (value → option value)) s (hot_tokens : Z) (l : CompactionLimits)
    (aggressive : bool) : CompactionPlan :=
  build_plan message_id estimate_message_tokens advisors (compaction (conv s)) (active_view (conv s)) (view_messages s)
    (messages (conv s)) (seqs (conv s)) hot_tokens l aggressive.

(** [refresh_compacted_view]: the summaries of the active blocks, each once, then
    the tail. *)
Definition summary_segment (present : list string) (acc : list string) b : list string :=
  if decide (active b = true ∧ summary_message_id b ≠ "" ∧ summary_message_id b ∉ acc ∧ summary_message_id b ∈ present)
  then acc ++ [summary_message_id b] else acc.
Definition shown_summaries (ms : list Message) c : list string := foldl (summary_segment (message_id <$> ms)) [] (blocks c).
(** message_ops.rs *)
Definition select_tail_start (total keep : nat) : nat := total - keep.
Definition recent_segment (ms : list Message) (qs : list Z) (recent_messages : nat) : list ViewSegment :=
  let total := List.length ms in
  if decide (0 < total) then
    let n := Nat.min (Nat.max recent_messages 1) total in
    match qs !! select_tail_start total n, last qs with
    | Some lo, Some hi => if decide (lo ≤ hi)%Z then [SegRange lo hi] else []
    | _, _ => []
    end
  else [].
Definition refresh_compacted_view (recent_messages : nat) st : ConversationState Message :=
  set_view (VCompacted ((SegSummary <$> shown_summaries (messages st) (compaction st)) ++
    recent_segment (messages st) (seqs st) recent_messages)) st.

(** The text of a summary: the text parts of a rich content, line by line. *)
Definition summary_text_of (m : Message) : string :=
  match contents m with
  | inl text => text
  | inr parts => String.concat (String newline "") (omap id parts)
  end.
(** [lines().next()], without the end of the line. *)
Definition first_line (text : string) : string :=
  match split_once newline text with Some (l, _) => default l (strip_last "013" l) | None => text end.
Definition topic_of (m : Message) : string := String.concat "" (take 80 (chars (first_line (summary_text_of m)))).

(** [apply_compaction_result], in its steps: blocks claim their summaries, the
    summaries are appended, the outcomes of the pending plan settle. *)
Definition claim (o : BlockOutcome) b : CompressionBlock :=
  {| block_id := block_id b; block_state := block_state b; topic := topic b; summary_message_id := outcome_summary o;
     spans := spans b; merged_blocks := merged_blocks b; size_tokens := size_tokens b; source_tokens := source_tokens b;
     repress_count := repress_count b; active := active b; created_at := created_at b; compressed_at := compressed_at b |}.
Definition on_blocks (f : list CompressionBlock → list CompressionBlock) c : CompactionState :=
  set_blocks (f (blocks c)) (synced_through_seq c) (next_block_seq c) c.
Definition claim_summaries (outcomes : list BlockOutcome) c : CompactionState :=
  foldl (λ c o, on_blocks (on_active (outcome_block o) (claim o)) c) c outcomes.
Definition outcome_depth (pending : list CompactionPlanItem) (o : BlockOutcome) : Z :=
  default 0%Z (depth ∘ snd <$> list_find (λ i, item_block i = outcome_block o) pending).
Definition settle (now : Z) (l : CompactionLimits) (d : Z) (summary : option Message) b : CompressionBlock :=
  let count := if decide (0 < d)%Z then sat_add u32_max (repress_count b) 1 else repress_count b in
  let found := default "" (topic_of <$> summary) in
  {| block_id := block_id b; block_state := if decide (k_repress l ≤ count)%Z then Sealed else Compressed;
     topic := if decide (found = "") then topic b else found; summary_message_id := summary_message_id b; spans := spans b;
     merged_blocks := merged_blocks b; size_tokens := default (size_tokens b) (estimate_message_tokens <$> summary);
     source_tokens := source_tokens b; repress_count := count; active := active b; created_at := created_at b;
     compressed_at := Some now |}.
(** The first message with an id, changed. *)
Fixpoint on_message (mid : string) (f : Message → Message) (ms : list Message) : list Message :=
  match ms with [] => [] | m :: ms' => if decide (message_id m = mid) then f m :: ms' else m :: on_message mid f ms' end.
Definition add_archive_refs (refs : list string) (m : Message) : Message :=
  set_metadata (<[ARCHIVE_REF_KEY := VArray (VString <$> refs)]> (default ∅ (metadata m))) m.
Definition settle_outcome (now : Z) (l : CompactionLimits) (pending : list CompactionPlanItem) st (o : BlockOutcome) :
    ConversationState Message :=
  if negb (outcomes_match_plan [o] pending) then st
  else match active_block (compaction st) (outcome_block o) with
  | None => st
  | Some _ =>
      let summary := find_message message_id (outcome_summary o) (messages st) in
      let st := on_compaction (on_blocks (on_active (outcome_block o) (settle now l (outcome_depth pending o) summary))) st in
      if decide (archive_refs o = []) then st
      else set_history (on_message (outcome_summary o) (add_archive_refs (archive_refs o)) (messages st)) (seqs st) (next_seq st) st
  end.
Definition deactivate b : CompressionBlock :=
  {| block_id := block_id b; block_state := block_state b; topic := topic b; summary_message_id := summary_message_id b;
     spans := spans b; merged_blocks := merged_blocks b; size_tokens := size_tokens b; source_tokens := source_tokens b;
     repress_count := repress_count b; active := false; created_at := created_at b; compressed_at := compressed_at b |}.
Definition drop_blocks (drops : list string) (bs : list CompressionBlock) : list CompressionBlock :=
  filter (λ b, active b = true) (foldl (λ bs id, on_active id deactivate bs) bs drops).
Definition evaluate_handoff_request c : CompactionState :=
  let th := thresholds c in
  let ceiling := Z.min (t_handoff th) (sat_add u64_max (h_target th) (h_target th / 2)) in
  if decide (ceiling < hot_tokens c)%Z then request_handoff true c else c.
Definition recent_messages_of (l : CompactionLimits) : nat := default RECENT_RAW_TURNS_DEFAULT (recent_raw_turns l) * 2.
Definition settle_plan (now : Z) (outcomes : list BlockOutcome) (l : CompactionLimits) st : ConversationState Message :=
  let pending := pending_plan (compaction st) in
  let drops := pending_drops (compaction st) in
  let st := on_compaction (set_pending [] []) st in
  let st := foldl (settle_outcome now l pending) st outcomes in
  let st := on_compaction (on_blocks (drop_blocks drops)) st in
  on_compaction evaluate_handoff_request (refresh_hot_estimate_state (refresh_compacted_view (recent_messages_of l) st)).
Definition apply_compaction_result (now : Z) (summaries : list Message) (outcomes : list BlockOutcome) (l : CompactionLimits) s :
    ConversationSession Message :=
  match summaries with
  | [] => s
  | _ =>
      let s := on_conv (on_compaction (claim_summaries outcomes)) s in
      let s := add_messages now summaries s in
      on_tracker reset_preflight_warning (on_conv (settle_plan now outcomes l) s)
  end.

(** ** Handoff *)

Definition lead_with (mid : string) (v : MessageView) : MessageView :=
  match v with
  | VCompacted segments => VCompacted (SegSummary mid :: filter (λ sg, sg ≠ SegSummary mid) segments)
  | _ => v
  end.
Definition handed_off (now : Z) (mid : string) (index : list IndexEntry) (reason : string) (note : option string) c : CompactionState :=
  set_handoff Handoff
    (Some {| handoff_message_id := mid; handoff_index := index; handoff_reason := reason; handoff_created_at := now;
             validation_note := note |}) false (set_pending [] [] (on_blocks (λ _, []) c)).
Definition enter_handoff (now : Z) (document : Message) (index : list IndexEntry) (reason : string) (note : option string)
    (recent_messages : nat) s : ConversationSession Message :=
  let mid := message_id document in
  let s := add_message now document s in
  let s := on_conv (on_compaction (handed_off now mid index reason note)) s in
  let s := on_conv (λ st, let st := refresh_compacted_view recent_messages st in set_view (lead_with mid (active_view st)) st) s in
  on_tracker reset_preflight_warning (on_conv refresh_hot_estimate_state s).
Definition drop_oldest_active_block (recent_messages : nat) s : ConversationSession Message * bool :=
  match list_find (λ b, active b = true) (blocks (compaction (conv s))) with
  | None => (s, false)
  | Some (_, b) =>
      (on_conv (λ st, refresh_hot_estimate_state (refresh_compacted_view recent_messages
        (on_compaction (on_blocks (on_active (block_id b) deactivate)) st))) s, true)
  end.

(** ** Restoring and branching *)

Definition restore_full_view : ConversationSession Message → ConversationSession Message :=
  on_conv (λ st, set_estimate (estimate_messages (messages st)) (set_view VFull st)).
Definition restore_history (ms : list Message) (v : MessageView) : ConversationSession Message → ConversationSession Message :=
  on_conv (λ st,
    let len := Z.of_nat (List.length ms) in
    let st := set_view v (set_history ms (seqZ 0 len) len st) in
    let st := on_token_ledger (replace CONVERSATION_CONTEXT_ID) st in
    set_estimate (projected_view_estimate (messages st) (seqs st) v) st).
Definition seq_range s : option (Z * Z) := lo ← head (seqs (conv s)); hi ← last (seqs (conv s)); Some (lo, hi).
Definition seq_position (qs : list Z) (target_seq : Z) : option nat := fst <$> list_find (λ q, q = target_seq) qs.
Definition prefix_through_seq s (target_seq : Z) : option (list Message) :=
  (λ pos, take (S pos) (messages (conv s))) <$> seq_position (seqs (conv s)) target_seq.
Definition branch_state_through_seq s (target_seq : Z) (v : MessageView) : option (ConversationState Message) :=
  (λ pos,
    let st := set_history (take (S pos) (messages (conv s))) (take (S pos) (seqs (conv s))) (next_seq (conv s)) (conv s) in
    let st := on_token_ledger (replace CONVERSATION_CONTEXT_ID) (set_view v st) in
    on_compaction (rebuild_after_truncate message_id (messages st) (seqs st)) st) <$> seq_position (seqs (conv s)) target_seq.
Definition total_used (t : TokenUsageTracker) : Z := total_tokens (cumulative t).
Definition snapshot_state s : ConversationState Message :=
  set_usage (total_used (tracker s)) (Some (tracker_state (tracker s))) (conv s).
(** [None] is a failed assertion: the process panics. *)
Definition restore_state (st : ConversationState Message) s : option (ConversationSession Message) :=
  if decide (List.length (seqs st) = List.length (messages st)) then
    saved ← saved_tracker st;
    let t := restore_tracker saved (tracker s) in
    let c := if compaction_is_empty (compaction st) then compaction st else set_hot (hot_tokens (compaction st)) true (compaction st) in
    Some {| conv := set_usage (total_used t) (Some (tracker_state t)) (on_compaction (λ _, c) st); tracker := t |}
  else None.
Definition reset s : ConversationSession Message :=
  {| conv := empty_state; tracker := set_context_limit (context_limit (tracker s)) (new_tracker (token_limit (tracker s))) |}.

(** ** The ledger and the tracker behind the session *)

Definition estimated_conversation_tokens s : Z * ConversationSession Message :=
  let s :=
    if is_dirty (token_ledger (conv s)) CONVERSATION_CONTEXT_ID
    then on_conv (λ st, on_token_ledger (recompute CONVERSATION_CONTEXT_ID (estimate_messages (messages st))
      (Z.of_nat (List.length (messages st)))) st) s
    else s in
  (ledger_tokens (token_ledger (conv s)) CONVERSATION_CONTEXT_ID, s).
Definition estimated_view_tokens s : Z := view_stable_estimate (conv s).
Definition conversation_version s : Z := ledger_version (token_ledger (conv s)) CONVERSATION_CONTEXT_ID.
Definition session_should_emit s (v : Z) : bool := should_emit (token_ledger (conv s)) CONVERSATION_CONTEXT_ID v.
Definition session_mark_emitted (v : Z) : ConversationSession Message → ConversationSession Message :=
  on_conv (on_token_ledger (mark_emitted CONVERSATION_CONTEXT_ID v)).
Definition add_token_usage (tokens : Z) : ConversationSession Message → ConversationSession Message :=
  on_conv (λ st, set_usage (wrap64 (token_usage st + tokens)) (saved_tracker st) st).
Definition finalize_request (request_id : string) (now : Z) s : ConversationSession Message :=
  let t := finalize_current_request request_id now (tracker s) in
  {| conv := set_usage (total_used t) (Some (tracker_state t)) (conv s); tracker := t |}.
Definition restore_tracker_state (saved : TokenTrackerState) s : ConversationSession Message :=
  let t := restore_tracker saved (tracker s) in
  {| conv := set_usage (total_used t) (saved_tracker (conv s)) (conv s); tracker := t |}.
Definition begin_flight (v : Z) (is_forced : bool) (now : Z) : ConversationSession Message → ConversationSession Message :=
  on_tracker (begin_compression_flight CONVERSATION_CONTEXT_ID v is_forced now).
Definition end_flight (v : Z) s : ConversationSession Message * bool :=
  let r := end_compression_flight CONVERSATION_CONTEXT_ID v (tracker s) in (on_tracker (λ _, r.1) s, r.2).
Definition record_compression_no_taker s : ConversationSession Message * Z :=
  let r := record_no_taker CONVERSATION_CONTEXT_ID (tracker s) in (on_tracker (λ _, r.1) s, r.2).
Definition record_over_budget s : ConversationSession Message * Z :=
  let r := record_still_over_budget CONVERSATION_CONTEXT_ID (tracker s) in (on_tracker (λ _, r.1) s, r.2).
End session.
