(* ===== verification/SessionFacts.v ===== *)
(** What a conversation session of [Session] keeps: its history, its coordinates,
    its block table and its hot tail survive every operation; a life of sessions
    ([lives]) adds resets, restores and branches; an append shows up exactly once,
    and the incremental estimate follows the view. *)

From S2P Require Import Prelude Strings Json Numbers MessageContext TokenTracker Compaction CompactionFacts Session.

(** * Spans *)

(** Spans follow each other between [lo], exclusive, and [hi], inclusive. *)
Fixpoint spans_between (lo : Z) (sps : list SeqRange) (hi : Z) : Prop :=
  match sps with
  | [] => (lo ≤ hi)%Z
  | sp :: sps' => (lo < range_start sp ≤ range_end sp)%Z ∧ spans_between (range_end sp) sps' hi
  end.

Lemma spans_between_le lo sps hi : spans_between lo sps hi → (lo ≤ hi)%Z.
Proof. revert lo. induction sps as [|sp sps IH]; intros lo; cbn; [done|]. intros [H1 H2%IH]. lia. Qed.
Lemma spans_between_mono lo lo' sps hi hi' :
  (lo' ≤ lo)%Z → (hi ≤ hi')%Z → spans_between lo sps hi → spans_between lo' sps hi'.
Proof.
  intros H1 H2. revert lo lo' H1. induction sps as [|sp sps IH]; intros lo lo' H1; cbn; [lia|].
  intros [H3 H4]. split; [lia|]. by apply (IH (range_end sp)).
Qed.
Lemma spans_between_app lo sps sps' hi :
  spans_between lo (sps ++ sps') hi ↔ ∃ m, spans_between lo sps m ∧ spans_between m sps' hi.
Proof.
  revert lo. induction sps as [|sp sps IH]; intros lo; cbn.
  - split; [intros H; exists lo; by split|]. intros (m & H1 & H2). by apply (spans_between_mono m lo _ hi hi).
  - rewrite IH. split; [intros (H & m & H1 & H2)|intros (m & [H H1] & H2)]; eauto 10.
Qed.
Lemma spans_between_sublist lo sps sps' hi : sps `sublist_of` sps' → spans_between lo sps' hi → spans_between lo sps hi.
Proof.
  intros Hs. revert lo. induction Hs as [|sp l k _ IH|sp l k _ IH]; intros lo; [done|..]; cbn; intros [H1 H2].
  - split; [done|]. by apply IH.
  - apply (spans_between_mono (range_end sp) lo _ hi hi); [lia..|]. by apply IH.
Qed.
(** Extending the last span. *)
Lemma spans_between_extend lo sps hi q f :
  (∀ sp, range_start (f sp) = range_start sp ∧ range_end (f sp) = q) → sps ≠ [] → (hi < q)%Z →
  spans_between lo sps hi → spans_between lo (on_last f sps) q.
Proof.
  intros Hf Hne Hq H. destruct (on_last_cases f sps) as [[-> _]|(k & x & -> & ->)]; [done|].
  apply spans_between_app in H as (m & H1 & [H2 H3%spans_between_le]). apply spans_between_app. exists m. split; [done|].
  destruct (Hf x) as [E1 E2]. cbn. rewrite E1, E2. lia.
Qed.
Lemma add_spans_between lo sps m new hi :
  spans_between lo sps m → spans_between m new hi → spans_between lo (foldl add_span sps new) hi.
Proof.
  revert sps m. induction new as [|sp new IH]; intros sps m Hs Hn; cbn [foldl]; [by apply (spans_between_mono lo lo _ m hi)|].
  destruct Hn as [H1 H2]. apply (IH _ (range_end sp)); [|done]. unfold add_span.
  assert (Happ : spans_between lo (sps ++ [sp]) (range_end sp)) by (apply spans_between_app; exists m; split; [done|cbn; lia]).
  destruct (last sps) as [e|] eqn:He; [|done]. case_decide; [|done].
  apply (spans_between_extend _ _ m); [done| |lia|done]. by intros ->.
Qed.

(** * Coordinates of a session *)

Definition b_name (k : Z) : string := "b" +:+ pad4 k.
(** The block table for [next] sequence numbers: spans in order, none beyond what is
    synced, ids from the counter. *)
Record blocks_ok (next : Z) (c : CompactionState) : Prop := {
  ok_synced : (0 ≤ synced_through_seq c)%Z ∧ (synced_through_seq c < next ∨ synced_through_seq c = 0)%Z;
  ok_spans : spans_between (-1) (blocks c ≫= spans) (synced_through_seq c);
  ok_ids : block_id <$> blocks c `sublist_of` b_name <$> seqZ 0 (next_block_seq c);
  ok_next_block : (0 ≤ next_block_seq c ≤ next)%Z;
}.
Record history_ok {Message} (st : ConversationState Message) : Prop := {
  ok_length : List.length (seqs st) = List.length (messages st);
  ok_sorted : StronglySorted Z.lt (seqs st);
  ok_bounds : Forall (λ q, 0 ≤ q < next_seq st)%Z (seqs st);
  ok_next : (0 ≤ next_seq st)%Z;
}.

Lemma blocks_ok_NoDup next c : blocks_ok next c → NoDup (block_id <$> blocks c).
Proof.
  intros [_ _ H _]. eapply sublist_NoDup; [|exact H]. apply NoDup_fmap_2_strong; [|apply NoDup_seqZ].
  intros x y Hx%elem_of_seqZ Hy%elem_of_seqZ [= E]%(inj (String.append "b")). by apply pad4_inj in E; [|lia..].
Qed.
(** Operations that keep the spans and the names of the blocks they keep. *)
Definition outline (c : CompactionState) : list (string * list SeqRange) := (λ b, (block_id b, spans b)) <$> blocks c.
Lemma blocks_ok_outline next c c' :
  outline c' `sublist_of` outline c → synced_through_seq c' = synced_through_seq c → next_block_seq c' = next_block_seq c →
  blocks_ok next c → blocks_ok next c'.
Proof.
  intros Ho Es En [H1 H2 H3 H4].
  assert (Hid : ∀ c, block_id <$> blocks c = (outline c).*1) by (intros d; unfold outline; by rewrite <-list_fmap_compose).
  assert (Hsp : ∀ c, blocks c ≫= spans = mjoin (outline c).*2)
    by (intros d; unfold outline; rewrite <-list_fmap_compose; by induction (blocks d) as [|b bs IH]; [|cbn; f_equal]).
  split; rewrite ?Es, ?En; [done| | |done].
  - eapply spans_between_sublist; [|exact H2]. rewrite !Hsp.
    clear -Ho. induction Ho as [|x l k _ IH|x l k _ IH]; [done|by apply sublist_app|by apply sublist_inserts_l].
  - rewrite Hid in *. etrans; [|exact H3]. by apply fmap_sublist.
Qed.
Lemma StronglySorted_snoc {A} (R : relation A) l x : StronglySorted R l → Forall (λ y, R y x) l → StronglySorted R (l ++ [x]).
Proof.
  induction 1 as [|y l Hs IH Hall]; intros Hx; cbn; [by repeat constructor|]. apply Forall_cons in Hx as [Hyx Hx].
  constructor; [by apply IH|]. apply Forall_app. by repeat constructor.
Qed.

(** * The block table *)

Section blocks.
  Context {Message : Type} (message_id : Message → string) (estimate : Message → Z).
  Implicit Types c : CompactionState.

(** A message the sync looks at. *)
Definition unsynced (fresh : bool) (synced q : Z) : Prop := ¬ (fresh = false ∧ (q ≤ synced)%Z).

Lemma sync_message_step fresh synced known lower hi found lst m q b :
  spans_between lower found.*1 b → (b ≤ lst ≤ hi)%Z → (unsynced fresh synced q → b < q)%Z → (q ≤ hi)%Z →
  let r := sync_message message_id estimate fresh synced known (found, lst) (m, q) in
  ∃ b', spans_between lower r.1.*1 b' ∧ (b' ≤ r.2 ∧ lst ≤ r.2 ≤ hi)%Z ∧ (b' = b ∨ b' = q).
Proof.
  intros Hs Hb Hu Hqhi. unfold sync_message. cbv zeta.
  case_decide as Hd; [exists b; cbn; split; [done|]; split; [lia|by left]|]. specialize (Hu Hd).
  case_decide as Hk; [exists b; cbn; split; [done|]; split; [lia|by left]|]. exists q.
  assert (Hsnoc : spans_between lower (found ++ [({| range_start := q; range_end := q |}, estimate m)]).*1 q)
    by (rewrite fmap_app; apply spans_between_app; exists b; split; [done|cbn; lia]).
  destruct (last found) as [[sp size]|] eqn:Hl; [|cbn; split; [done|]; split; [lia|by right]].
  case_decide as He; [|cbn; split; [done|]; split; [lia|by right]]. cbn [fst snd]. split; [|split; [lia|by right]].
  destruct (on_last_cases (λ p : SeqRange * Z, ({| range_start := range_start p.1; range_end := q |}, sat_add u64_max p.2 (estimate m))) found)
    as [[-> _]|(k & x & -> & ->)]; [done|]. rewrite fmap_app in *.
  apply (spans_between_extend _ _ b q (λ sp, {| range_start := range_start sp; range_end := q |})) in Hs; [|done|by destruct (k.*1)|done].
  unfold on_last in Hs. cbn [fmap list_fmap] in *. by rewrite last_snoc, removelast_last in Hs.
Qed.
Lemma sync_message_spans fresh synced known lower hi (l : list (Message * Z)) st b :
  spans_between lower st.1.*1 b → (b ≤ st.2 ≤ hi)%Z → StronglySorted Z.lt l.*2 →
  Forall (λ q, unsynced fresh synced q → b < q)%Z l.*2 → Forall (λ q, q ≤ hi)%Z l.*2 →
  let r := foldl (sync_message message_id estimate fresh synced known) st l in
  ∃ b', spans_between lower r.1.*1 b' ∧ (b' ≤ r.2 ∧ st.2 ≤ r.2 ≤ hi)%Z.
Proof.
  revert st b. induction l as [|[m q] l IH]; intros [found lst] b Hs Hb Hsort Hun Hhi; [exists b; cbn in *; split; [done|lia]|].
  cbn [foldl]. cbn [fmap list_fmap fst snd] in *. apply StronglySorted_inv in Hsort as [Hsort Hq].
  apply Forall_cons in Hun as [Hu Hun]. apply Forall_cons in Hhi as [Hqhi Hhi].
  destruct (sync_message_step fresh synced known lower hi found lst m q b Hs Hb Hu Hqhi) as (b1 & H1 & H2 & H3).
  set (st1 := sync_message _ _ _ _ _ _ _) in *. cbv zeta.
  destruct (IH st1 b1) as (b' & H4 & H5 & H6); [done|lia|done| |done|exists b'; split; [done|lia]].
  destruct H3 as [->| ->]; [done|]. eapply Forall_impl; [exact Hq|]. by intros q' ? _.
Qed.

Lemma sync_blocks_ok next (ms : list Message) (qs : list Z) now c :
  StronglySorted Z.lt qs → Forall (λ q, 0 ≤ q ≤ next)%Z qs → (next < u64_max)%Z →
  blocks_ok next c → blocks_ok (next + 1) (sync_blocks message_id estimate ms qs now c).
Proof.
  intros Hsort Hqs Hmax [[Hs0 Hs1] Hspans Hids Hnb].
  assert (Hkeep : blocks_ok (next + 1) c) by (split; [lia|done|done|lia]).
  unfold sync_blocks. case_decide as Hlen; [done|].
  set (fresh := bool_decide (blocks c = []) && bool_decide (synced_through_seq c = 0%Z)).
  set (lower := if fresh then (-1)%Z else synced_through_seq c).
  assert (Hz : (zip ms qs).*2 = qs) by (apply snd_zip; destruct (decide (List.length ms = List.length qs)); [lia|by destruct Hlen; left]).
  destruct (sync_message_spans fresh (synced_through_seq c) (known_summaries c) lower next (zip ms qs) ([], synced_through_seq c) lower)
    as (b' & H1 & H2 & H3); [cbn; lia|subst lower; cbn; destruct fresh; lia|by rewrite Hz| |rewrite Hz; eapply Forall_impl; [exact Hqs|]; cbn; lia|].
  { rewrite Hz. eapply Forall_impl; [exact Hqs|]. cbn. intros q Hq Hu. unfold unsynced in Hu. subst lower. destruct fresh; [lia|].
    destruct (decide (q ≤ synced_through_seq c)%Z); [|lia]. destruct Hu. by split. }
  destruct (foldl _ _ _) as [found last_seq]. cbn [fst snd] in *. destruct found as [|f0 found']; [done|].
  set (found := f0 :: found') in *. set (total := wrap64 _). clearbody total found.
  assert (Hsync : (0 ≤ last_seq)%Z ∧ (last_seq < next + 1 ∨ last_seq = 0)%Z) by lia.
  assert (Hfrom : spans_between (synced_through_seq c) found.*1 last_seq ∨ blocks c = [] ∧ spans_between (-1) found.*1 last_seq).
  { subst lower. destruct fresh eqn:Hf; [right|left].
    - apply andb_true_iff in Hf as [Hf _]. apply bool_decide_eq_true in Hf. split; [done|]. by apply (spans_between_mono (-1) _ _ b').
    - by apply (spans_between_mono (synced_through_seq c) _ _ b'). }
  assert (Hpush : blocks_ok (next + 1) (push_new_block found.*1 total last_seq now c)).
  { unfold push_new_block. split; cbn [set_blocks blocks synced_through_seq next_block_seq]; [done| | |mlia].
    - rewrite bind_app. cbn. rewrite app_nil_r. destruct Hfrom as [Hf|[-> Hf]]; [|done]. apply spans_between_app. by eexists.
    - replace (sat_add u64_max (next_block_seq c) 1) with (next_block_seq c + 1)%Z by mlia.
      rewrite seqZ_app by lia. rewrite !fmap_app. by apply sublist_app. }
  destruct (last (blocks c)) as [tail|] eqn:Htail; [|done]. case_decide as Hopen; [|done].
  destruct Hfrom as [Hf|[Hnil _]]; [|by rewrite Hnil in Htail].
  destruct (on_last_cases (extend_block found.*1 total) (blocks c)) as [[E _]|(bs & b & Eb & El)]; [by rewrite E in Htail|].
  split; cbn [set_blocks blocks synced_through_seq next_block_seq]; [done| | |lia].
  - rewrite El. rewrite Eb in Hspans. rewrite bind_app in *. cbn in *. rewrite app_nil_r in *.
    apply spans_between_app in Hspans as (m & S1 & S2). apply spans_between_app. exists m. split; [done|]. by eapply add_spans_between.
  - rewrite El. rewrite Eb in Hids. by rewrite !fmap_app in *.
Qed.
End blocks.

(** * Views *)

Lemma sorted_last qs hi : StronglySorted Z.lt qs → last qs = Some hi → Forall (λ q, q ≤ hi)%Z qs.
Proof.
  intros Hs. induction Hs as [|q qs Hs IH Hall]; [done|]. destruct qs as [|q' qs]; [intros [= ->]; by repeat constructor|].
  intros Hl. specialize (IH Hl). apply Forall_cons in IH as [H1 H2]. apply Forall_cons in Hall as [H3 _].
  constructor; [lia|]. by constructor.
Qed.

Section views.
  Context {Message : Type} (message_id : Message → string) (is_system : Message → bool).
  Implicit Types (ms : list Message) (qs : list Z) (st : list Message * gset string).

(** Segments that only speak of what is there. *)
Definition seg_ok ms (next : Z) (sg : ViewSegment) : Prop :=
  match sg with SegSummary id => id ∈ message_id <$> ms | SegRange lo hi => (lo ≤ hi < next)%Z end.
(** The whole history, or segments whose last range reaches the end of the history:
    the hot tail. *)
Definition view_ok ms qs (next : Z) (v : MessageView) : Prop :=
  match v with
  | VFull => True
  | VCompacted sgs => Forall (seg_ok ms next) sgs ∧ ∀ lo hi, last sgs = Some (SegRange lo hi) → last qs = Some hi
  | _ => False
  end.

Lemma find_message_present id ms m :
  id ∈ message_id <$> ms → find_message message_id id (ms ++ [m]) = find_message message_id id ms.
Proof.
  intros (x & -> & Hx)%list_elem_of_fmap. unfold find_message. f_equal.
  destruct (list_find (λ y, message_id y = message_id x) ms) as [[k y]|] eqn:E; [by erewrite list_find_app_l|].
  apply list_find_None in E. rewrite Forall_forall in E. by destruct (E x Hx).
Qed.
Lemma find_message_some id ms : id ∈ message_id <$> ms → ∃ x, find_message message_id id ms = Some x ∧ message_id x = id ∧ x ∈ ms.
Proof.
  intros (x & -> & Hx)%list_elem_of_fmap. unfold find_message.
  destruct (list_find (λ y, message_id y = message_id x) ms) as [[k y]|] eqn:E.
  - apply list_find_Some in E as (E1 & E2 & _). exists y. split_and!; [done..|]. by eapply list_elem_of_lookup_2.
  - apply list_find_None in E. rewrite Forall_forall in E. by destruct (E x Hx).
Qed.
Lemma show_segment_append ms qs m q st sg :
  List.length qs = List.length ms → seg_ok ms q sg →
  show_segment message_id (zip (ms ++ [m]) (qs ++ [q])) st sg = show_segment message_id (zip ms qs) st sg.
Proof.
  intros Hlen Hok. rewrite zip_with_app by done. destruct sg as [id|lo hi]; cbn in *.
  - case_decide; [done|]. rewrite fmap_app, fst_zip by lia. cbn. by rewrite find_message_present.
  - rewrite foldl_app. cbn. by rewrite decide_False by lia.
Qed.
Lemma show_segments_append ms qs m q sgs st :
  List.length qs = List.length ms → Forall (seg_ok ms q) sgs →
  foldl (show_segment message_id (zip (ms ++ [m]) (qs ++ [q]))) st sgs = foldl (show_segment message_id (zip ms qs)) st sgs.
Proof.
  intros Hlen. revert st. induction sgs as [|sg sgs IH]; intros st H; [done|]. apply Forall_cons in H as [H1 H2].
  cbn [foldl]. rewrite show_segment_append by done. by apply IH.
Qed.
(** Only ids of the history are ever seen. *)
Definition seen_ok ms st : Prop := ∀ id, id ∈ st.2 → id ∈ message_id <$> ms.
Lemma show_range_seen ms (l : list (Message * Z)) lo hi st :
  (∀ x, x ∈ l.*1 → x ∈ ms) → seen_ok ms st →
  seen_ok ms (foldl (λ st mq, if decide (lo ≤ mq.2 ∧ mq.2 ≤ hi)%Z then show_message message_id st mq.1 else st) st l).
Proof.
  revert st. induction l as [|[x q] l IH]; intros st Hl Hst; [done|]. cbn [foldl]. apply IH; [intros y Hy; apply Hl; by right|].
  case_decide; [|done]. unfold show_message. case_decide; [done|]. intros id Hid. cbn in Hid. apply elem_of_union in Hid as [->%elem_of_singleton|Hid]; [|by apply Hst].
  apply list_elem_of_fmap_2. apply Hl. left.
Qed.
Lemma show_segment_seen ms qs next sg st :
  List.length qs = List.length ms → seg_ok ms next sg → seen_ok ms st → seen_ok ms (show_segment message_id (zip ms qs) st sg).
Proof.
  intros Hlen Hok Hst. destruct sg as [id|lo hi]; cbn in *.
  - case_decide; [done|]. intros id' Hid. cbn in Hid. apply elem_of_union in Hid as [->%elem_of_singleton|Hid]; [done|by apply Hst].
  - apply show_range_seen; [|done]. intros x. by rewrite fst_zip by lia.
Qed.
Lemma show_segments_seen ms qs next sgs st :
  List.length qs = List.length ms → Forall (seg_ok ms next) sgs → seen_ok ms st → seen_ok ms (foldl (show_segment message_id (zip ms qs)) st sgs).
Proof.
  intros Hlen. revert st. induction sgs as [|sg sgs IH]; intros st H Hst; [done|]. apply Forall_cons in H as [H1 H2].
  cbn [foldl]. apply IH; [done|]. by eapply show_segment_seen.
Qed.
(** Extending the last range to the new message shows the message. *)
Lemma show_range_extend ms qs m q lo hi st :
  List.length qs = List.length ms → Forall (λ x, x ≤ hi)%Z qs → (lo ≤ hi < q)%Z → seen_ok ms st → message_id m ∉ message_id <$> ms →
  (show_segment message_id (zip (ms ++ [m]) (qs ++ [q])) st (SegRange lo q)).1 =
  (show_segment message_id (zip ms qs) st (SegRange lo hi)).1 ++ [m].
Proof.
  intros Hlen Hqs Hlo Hst Hm. rewrite zip_with_app by done. cbn. rewrite foldl_app. cbn [foldl fst snd zip_with].
  assert (Heq : ∀ (l : list (Message * Z)) st, Forall (λ x, x ≤ hi)%Z l.*2 →
    foldl (λ st mq, if decide (lo ≤ mq.2 ∧ mq.2 ≤ q)%Z then show_message message_id st mq.1 else st) st l =
    foldl (λ st mq, if decide (lo ≤ mq.2 ∧ mq.2 ≤ hi)%Z then show_message message_id st mq.1 else st) st l).
  { clear -Hlo. induction l as [|[x y] l IH]; intros st H; [done|]. cbn in *. apply Forall_cons in H as [H1 H2].
    rewrite (decide_ext (lo ≤ y ∧ y ≤ q)%Z (lo ≤ y ∧ y ≤ hi)%Z) by lia. by apply IH. }
  rewrite Heq by (by rewrite snd_zip by lia). rewrite decide_True by lia. set (st' := foldl _ st _).
  assert (Hst' : seen_ok ms st') by (apply show_range_seen; [intros x; by rewrite fst_zip by lia|done]).
  unfold show_message. rewrite decide_False; [done|]. intros Hin. by apply Hm, Hst'.
Qed.
(** An append shows up at the end of the view, once. *)
Lemma extend_view_shows ms qs m q v :
  List.length qs = List.length ms → StronglySorted Z.lt qs → Forall (λ x, 0 ≤ x < q)%Z qs → (0 ≤ q)%Z →
  view_ok ms qs q v → message_id m ∉ message_id <$> ms →
  project_with_seqs message_id is_system (extend_view q v) (ms ++ [m]) (qs ++ [q]) = project_with_seqs message_id is_system v ms qs ++ [m].
Proof.
  intros Hlen Hsort Hqs Hq Hv Hm. destruct v as [|sgs| | |]; [done| |by destruct Hv..]. destruct Hv as [Hsgs Htail].
  assert (Hopen : project_with_seqs message_id is_system (VCompacted (sgs ++ [SegRange q q])) (ms ++ [m]) (qs ++ [q]) =
    project_with_seqs message_id is_system (VCompacted sgs) ms qs ++ [m]).
  { unfold project_with_seqs. rewrite !decide_False by (rewrite ?length_app; cbn; lia). rewrite foldl_app, (show_segments_append ms qs m q sgs) by done.
    set (st := foldl _ _ sgs). cbn [foldl]. assert (Hst : seen_ok ms st) by (apply (show_segments_seen ms qs q); [done|done|]; intros id Hid; cbn in Hid; set_solver).
    unfold show_segment. rewrite zip_with_app by done. rewrite foldl_app. cbn [foldl zip_with fst snd].
    assert (Hnone : ∀ (l : list (Message * Z)) st, Forall (λ x, 0 ≤ x < q)%Z l.*2 →
      foldl (λ st mq, if decide (q ≤ mq.2 ∧ mq.2 ≤ q)%Z then show_message message_id st mq.1 else st) st l = st).
    { clear. induction l as [|[x y] l IH]; intros st H; [done|]. cbn in *. apply Forall_cons in H as [H1 H2].
      rewrite decide_False by lia. by apply IH. }
    rewrite Hnone by (by rewrite snd_zip by lia). rewrite decide_True by lia. unfold show_message. rewrite decide_False; [done|].
    intros Hin. by apply Hm, Hst. }
  unfold extend_view. destruct (last sgs) as [[id|lo hi]|] eqn:Hl; [exact Hopen| |exact Hopen]. clear Hopen.
  specialize (Htail lo hi eq_refl). destruct sgs as [|sg sgs _] using rev_ind; [done|]. rewrite last_snoc in Hl. injection Hl as ->.
  rewrite removelast_last. apply Forall_app in Hsgs as [Hsgs [Hlo _]%Forall_cons]. cbn in Hlo.
  unfold project_with_seqs. rewrite !decide_False by (rewrite ?length_app; cbn; lia). rewrite !foldl_app, (show_segments_append ms qs m q sgs) by done.
  set (st := foldl _ _ sgs). assert (Hst : seen_ok ms st) by (apply (show_segments_seen ms qs q); [done|done|]; intros id Hid; cbn in Hid; set_solver).
  cbn [foldl]. apply show_range_extend; [done|by apply sorted_last|lia|done..].
Qed.
Lemma extend_view_ok ms qs m q v :
  Forall (λ x, 0 ≤ x < q)%Z qs → (0 ≤ q)%Z → view_ok ms qs q v → view_ok (ms ++ [m]) (qs ++ [q]) (q + 1) (extend_view q v).
Proof.
  intros Hqs Hq Hv. destruct v as [|sgs| | |]; [done| |by destruct Hv..]. destruct Hv as [Hsgs Htail].
  assert (Hmono : ∀ l, Forall (seg_ok ms q) l → Forall (seg_ok (ms ++ [m]) (q + 1)) l).
  { intros l Hl. eapply Forall_impl; [exact Hl|]. intros [id|lo hi]; cbn; [|lia]. rewrite fmap_app. intros. apply elem_of_app. by left. }
  unfold extend_view, view_ok. destruct (last sgs) as [[id|lo hi]|] eqn:Hl.
  1, 3: split; [apply Forall_app; split; [by apply Hmono|]; constructor; [cbn; lia|done]|];
    intros lo hi; rewrite !last_snoc; by intros [= <- <-].
  destruct sgs as [|sg sgs _] using rev_ind; [done|]. rewrite last_snoc in Hl. injection Hl as ->. rewrite removelast_last.
  apply Forall_app in Hsgs as [Hsgs [Hlo _]%Forall_cons]. cbn in Hlo. split.
  - apply Forall_app. split; [by apply Hmono|]. constructor; [cbn; lia|done].
  - intros lo' hi'. rewrite !last_snoc. by intros [= <- <-].
Qed.
End views.

(** * Sessions *)

Section sessions.
  Context {Message : Type} (message_id : Message → string) (estimate_message_tokens : Message → Z)
    (estimate_messages : list Message → Z) (is_system : Message → bool) (contents : Message → string + list (option string))
    (metadata : Message → option (gmap string value)) (set_metadata : gmap string value → Message → Message).
  Context (Hmeta : ∀ x m, message_id (set_metadata x m) = message_id m).
  Implicit Types s : ConversationSession Message.
  Implicit Types st : ConversationState Message.
  #[local] Notation add_state := (add_message_state message_id estimate_message_tokens).
  #[local] Notation projected := (projected_view_estimate message_id estimate_messages is_system).
  #[local] Notation view := (state_view message_id is_system).

(** The estimate of a view is the estimate of what it shows. *)
Lemma projected_view_estimate_eq v ms qs : projected ms qs v = estimate_messages (project_with_seqs message_id is_system v ms qs).
Proof. by destruct v. Qed.

Definition ids_of st : list string := message_id <$> messages st.
(** What an operation did to the messages it kept: at most their metadata names the
    archives of the content they summarise. *)
Definition marked : Message → Message → Prop :=
  rtc (λ m m', ∃ refs, m' = add_archive_refs metadata set_metadata refs m).
Lemma marked_id m m' : marked m m' → message_id m' = message_id m.
Proof. induction 1 as [|m m1 m2 [refs ->] _ IH]; [done|]. rewrite IH. apply Hmeta. Qed.
Lemma marked_refl ms : Forall2 marked ms ms.
Proof. by apply Forall_Forall2_diag, Forall_true. Qed.
Lemma marked_trans ms1 ms2 ms3 : Forall2 marked ms1 ms2 → Forall2 marked ms2 ms3 → Forall2 marked ms1 ms3.
Proof.
  intros H12. revert ms3. induction H12 as [|m1 m2 ms1 ms2 Hm _ IH]; intros ms3 H23; [by inversion H23|].
  apply Forall2_cons_inv_l in H23 as (m3 & ms3' & H3 & H4 & ->). constructor; [by etrans|by apply IH].
Qed.
Lemma marked_ids ms ms' : Forall2 marked ms ms' → message_id <$> ms' = message_id <$> ms.
Proof. induction 1 as [|m m' ms ms' Hm _ IH]; [done|]. cbn. by rewrite IH, (marked_id _ _ Hm). Qed.
Lemma marked_length ms ms' : Forall2 marked ms ms' → List.length ms' = List.length ms.
Proof. intros H. symmetry. by eapply Forall2_length. Qed.

(** The invariant, whose parts on the view and on the block table are asked for
    where the session keeps them: a caller that restores a history or takes a
    branch supplies the view, and a shorter history leaves the table behind. *)
Section invariant.
  Context (vs ts : Prop).

Record session_ok st : Prop := {
  ok_history : history_ok st;
  ok_blocks : ts → blocks_ok (next_seq st) (compaction st);
  ok_view : vs → view_ok message_id (messages st) (seqs st) (next_seq st) (active_view st);
}.

Lemma empty_state_ok : session_ok empty_state.
Proof. split; [split; cbn; [done|constructor|constructor|lia]| |done]. intros _. split; cbn; [lia|lia|apply sublist_nil_l|lia]. Qed.

(** Changes of the block table, of the view and of the rest. *)
Lemma on_compaction_ok f st :
  (blocks_ok (next_seq st) (compaction st) → blocks_ok (next_seq st) (f (compaction st))) →
  session_ok st → session_ok (on_compaction f st).
Proof. intros Hf [[] Hb Hv]. split; [done|by intros Ht; apply Hf, Hb|done]. Qed.
Lemma set_view_ok v st : view_ok message_id (messages st) (seqs st) (next_seq st) v → session_ok st → session_ok (set_view v st).
Proof. intros Hv [[] Hb _]. by split. Qed.
Lemma set_estimate_ok n st : session_ok st → session_ok (set_estimate n st).
Proof. intros [[] Hb Hv]. by split. Qed.
Lemma on_token_ledger_ok f st : session_ok st → session_ok (on_token_ledger f st).
Proof. intros [[] Hb Hv]. by split. Qed.
Lemma set_usage_ok n saved st : session_ok st → session_ok (set_usage n saved st).
Proof. intros [[] Hb Hv]. by split. Qed.
Lemma same_outline_ok f st :
  (∀ c, outline (f c) `sublist_of` outline c ∧ synced_through_seq (f c) = synced_through_seq c ∧ next_block_seq (f c) = next_block_seq c) →
  session_ok st → session_ok (on_compaction f st).
Proof. intros Hf. apply on_compaction_ok. destruct (Hf (compaction st)) as (H1 & H2 & H3). by apply blocks_ok_outline. Qed.

(** ** Appends *)

Lemma add_message_ok now m st : (next_seq st < u64_max)%Z → session_ok st → session_ok (add_state now m st).
Proof.
  intros Hmax [[H1 H2 H3 H4] Hb Hv]. assert (Hnext : sat_add u64_max (next_seq st) 1 = (next_seq st + 1)%Z) by mlia.
  assert (Hsort : StronglySorted Z.lt (seqs st ++ [next_seq st]))
    by (apply StronglySorted_snoc; [done|]; eapply Forall_impl; [exact H3|]; cbn; lia).
  assert (Hbounds : Forall (λ q, 0 ≤ q ≤ next_seq st)%Z (seqs st ++ [next_seq st])).
  { apply Forall_app. split; [eapply Forall_impl; [exact H3|]; cbn; lia|]. constructor; [lia|done]. }
  split; cbn.
  - split; cbn; rewrite ?Hnext; [rewrite !length_app; cbn; lia|done| |lia]. eapply Forall_impl; [exact Hbounds|]. cbn. lia.
  - rewrite Hnext. intros Ht. by apply sync_blocks_ok, Hb.
  - intros Hvs. specialize (Hv Hvs). rewrite Hnext. replace (sat_sub (next_seq st + 1) 1) with (next_seq st) by mlia. apply extend_view_ok; [done|lia|done].
Qed.
Lemma add_message_next now m st : (next_seq st < u64_max)%Z → next_seq (add_state now m st) = (next_seq st + 1)%Z.
Proof. cbn. intros. mlia. Qed.
Lemma add_message_shows now m st :
  vs → (next_seq st < u64_max)%Z → session_ok st → message_id m ∉ ids_of st → view (add_state now m st) = view st ++ [m].
Proof.
  intros Hvs Hmax [[H1 H2 H3 H4] Hb Hv] Hm. specialize (Hv Hvs). unfold state_view. cbn.
  replace (sat_sub (sat_add u64_max (next_seq st) 1) 1) with (next_seq st) by mlia.
  apply extend_view_shows; [lia|done|done|lia|done|done].
Qed.
(** Appending a batch to the conversation of a session. *)
Definition add_states (now : Z) (ms : list Message) st : ConversationState Message := foldl (λ st m, add_state now m st) st ms.
Lemma add_messages_conv now ms s :
  conv (add_messages message_id estimate_message_tokens now ms s) = add_states now ms (conv s) ∧
  tracker (add_messages message_id estimate_message_tokens now ms s) = tracker s.
Proof. revert s. induction ms as [|m ms IH]; intros s; [done|]. exact (IH (add_message message_id estimate_message_tokens now m s)). Qed.
Lemma add_states_ok now ms st :
  (next_seq st + Z.of_nat (List.length ms) < u64_max)%Z → session_ok st →
  session_ok (add_states now ms st) ∧ next_seq (add_states now ms st) = (next_seq st + Z.of_nat (List.length ms))%Z ∧
  messages (add_states now ms st) = messages st ++ ms ∧ seqs st `prefix_of` seqs (add_states now ms st).
Proof.
  revert st. induction ms as [|m ms IH]; intros st Hmax Hok; [cbn; rewrite app_nil_r; split; [done|]; split; [lia|done]|].
  cbn [List.length] in Hmax. cbn [add_states foldl]. destruct (IH (add_state now m st)) as (I1 & I2 & I3 & I4).
  - rewrite add_message_next by lia. lia.
  - apply add_message_ok; [lia|done].
  - change (foldl _ (add_state now m st) ms) with (add_states now ms (add_state now m st)). split; [done|].
    rewrite I2, I3, add_message_next by lia. cbn. rewrite <-app_assoc. split; [lia|]. split; [done|].
    etrans; [|exact I4]. by eexists.
Qed.

(** ** Views the session builds *)

Definition fits_history st : MessageView → Prop := view_ok message_id (messages st) (seqs st) (next_seq st).
Lemma summaries_and_tail_ok st ids tail :
  session_ok st → Forall (λ id, id ∈ ids_of st) ids →
  (tail = [] ∨ ∃ lo hi, tail = [SegRange lo hi] ∧ last (seqs st) = Some hi ∧ (lo ≤ hi)%Z) →
  fits_history st (VCompacted ((SegSummary <$> ids) ++ tail)).
Proof.
  intros [[H1 H2 H3 H4] _ _] Hids Htail. assert (Hs : Forall (seg_ok message_id (messages st) (next_seq st)) (SegSummary <$> ids)) by (by apply Forall_fmap).
  destruct Htail as [->|(lo & hi & -> & Hl & Hle)].
  - rewrite app_nil_r. split; [done|]. intros lo hi Hl. destruct ids as [|id ids _] using rev_ind; [done|].
    by rewrite fmap_app, last_app in Hl.
  - split; [|intros lo' hi'; rewrite last_snoc; by intros [= <- <-]]. apply Forall_app. split; [done|]. constructor; [|done].
    apply last_Some_elem_of in Hl. rewrite Forall_forall in H3. specialize (H3 hi Hl). cbn. lia.
Qed.
Lemma compressed_view_ok tail_keep st : session_ok st → fits_history st (compressed_view message_id (messages st) (seqs st) tail_keep).
Proof.
  intros Hok. unfold compressed_view.
  replace (option_list ((λ m, SegSummary (message_id m)) <$> last (messages st))) with (SegSummary <$> option_list (message_id <$> last (messages st)))
    by (by destruct (last (messages st))).
  apply summaries_and_tail_ok; [done| |].
  - destruct (last (messages st)) as [m|] eqn:Hl; [|constructor]. constructor; [|done]. apply list_elem_of_fmap_2. by apply last_Some_elem_of.
  - unfold tail_segment. destruct (seqs st !! _) as [lo|]; [|by left]. destruct (last (seqs st)) as [hi|]; [|by left].
    case_decide; [|by left]. right. exists lo, hi. split_and!; [done..|lia].
Qed.
Lemma shown_summaries_present ms c : Forall (λ id, id ∈ message_id <$> ms) (shown_summaries message_id ms c).
Proof.
  unfold shown_summaries. assert (Hgen : ∀ bs acc, Forall (λ id, id ∈ message_id <$> ms) acc →
    Forall (λ id, id ∈ message_id <$> ms) (foldl (summary_segment (message_id <$> ms)) acc bs)); [|by apply Hgen].
  induction bs as [|b bs IH]; intros acc Hacc; [done|]. cbn [foldl]. apply IH. unfold summary_segment. case_decide as Hd; [|done].
  apply Forall_app. split; [done|]. constructor; [by apply Hd|done].
Qed.
Lemma recent_segment_tail n st :
  let tail := recent_segment (messages st) (seqs st) n in
  tail = [] ∨ ∃ lo hi, tail = [SegRange lo hi] ∧ last (seqs st) = Some hi ∧ (lo ≤ hi)%Z.
Proof.
  unfold recent_segment. case_decide; [|by left]. destruct (seqs st !! _) as [lo|]; [|by left].
  destruct (last (seqs st)) as [hi|]; [|by left]. case_decide; [|by left]. right. by exists lo, hi.
Qed.
Lemma refresh_compacted_view_ok n st : session_ok st → session_ok (refresh_compacted_view message_id n st).
Proof.
  intros Hok. apply set_view_ok; [|done]. apply summaries_and_tail_ok; [done|apply shown_summaries_present|apply recent_segment_tail].
Qed.
Lemma refresh_hot_estimate_ok st : session_ok st → session_ok (refresh_hot_estimate_state message_id estimate_messages is_system st).
Proof. by apply same_outline_ok. Qed.
Lemma filter_summaries (id : string) ids tail :
  (tail = [] ∨ ∃ lo hi, tail = [SegRange lo hi]) →
  filter (λ sg, sg ≠ SegSummary id) ((SegSummary <$> ids) ++ tail) = (SegSummary <$> filter (λ x, x ≠ id) ids) ++ tail.
Proof.
  intros Ht. rewrite filter_app. f_equal.
  - induction ids as [|x ids IH]; [done|]. cbn [fmap list_fmap]. rewrite !filter_cons. rewrite IH.
    destruct (decide (x = id)) as [->|Hx]; [by rewrite !decide_False by congruence|by rewrite !decide_True by congruence].
  - destruct Ht as [->|(lo & hi & ->)]; [done|]. by rewrite filter_cons, decide_True.
Qed.
Lemma lead_with_refresh_ok id n st :
  session_ok st → id ∈ ids_of st →
  let st := refresh_compacted_view message_id n st in session_ok (set_view (lead_with id (active_view st)) st).
Proof.
  intros Hok Hid. cbv zeta. apply set_view_ok; [|by apply refresh_compacted_view_ok]. unfold refresh_compacted_view, lead_with. cbn [active_view set_view].
  pose proof (recent_segment_tail n st) as Ht. set (tail := recent_segment _ _ _) in *. cbv zeta in Ht.
  rewrite filter_summaries by (destruct Ht as [|(lo & hi & ? & _)]; [by left|right; eauto]).
  change (SegSummary id :: (SegSummary <$> filter (λ x, x ≠ id) ?l) ++ tail) with ((SegSummary <$> id :: filter (λ x, x ≠ id) l) ++ tail).
  apply (summaries_and_tail_ok st); [done| |done]. constructor; [done|].
  apply Forall_forall. intros x [_ Hx]%list_elem_of_filter.
  exact (proj1 (Forall_forall _ _) (shown_summaries_present (messages st) (compaction st)) x Hx).
Qed.

(** ** Compaction results *)

Definition keeps_outline (f : CompressionBlock → CompressionBlock) : Prop := ∀ b, block_id (f b) = block_id b ∧ spans (f b) = spans b.
Definition block_outline (b : CompressionBlock) : string * list SeqRange := (block_id b, spans b).
Lemma on_active_outline id f bs : keeps_outline f → block_outline <$> on_active id f bs = block_outline <$> bs.
Proof.
  intros Hf. induction bs as [|b bs IH]; [done|]. cbn [on_active]. case_decide; cbn [fmap list_fmap]; [|by rewrite IH].
  f_equal. destruct (Hf b) as [E1 E2]. unfold block_outline. by rewrite E1, E2.
Qed.
Lemma drop_blocks_outline drops bs : block_outline <$> drop_blocks drops bs `sublist_of` block_outline <$> bs.
Proof.
  unfold drop_blocks. etrans; [apply fmap_sublist, sublist_filter|].
  revert bs. induction drops as [|d drops IH]; intros bs; [done|]. cbn [foldl]. etrans; [apply IH|]. by rewrite on_active_outline.
Qed.
Lemma claim_summaries_outline outcomes c :
  outline (claim_summaries outcomes c) = outline c ∧ synced_through_seq (claim_summaries outcomes c) = synced_through_seq c ∧
  next_block_seq (claim_summaries outcomes c) = next_block_seq c.
Proof.
  revert c. induction outcomes as [|o os IH]; intros c; [done|]. cbn [claim_summaries foldl].
  destruct (IH (on_blocks (on_active (outcome_block o) (claim o)) c)) as (H1 & H2 & H3). unfold claim_summaries in *.
  rewrite H1, H2, H3. split; [|done]. by apply (on_active_outline (outcome_block o) (claim o)).
Qed.
Lemma on_message_marked mid refs ms : Forall2 marked ms (on_message message_id mid (add_archive_refs metadata set_metadata refs) ms).
Proof.
  induction ms as [|m ms IH]; [constructor|]. cbn [on_message]. case_decide; constructor; [|apply marked_refl|done|done].
  apply rtc_once. by exists refs.
Qed.
Lemma marked_ok ms st : Forall2 marked (messages st) ms → session_ok st → session_ok (set_history ms (seqs st) (next_seq st) st).
Proof.
  intros Hm [[H1 H2 H3 H4] Hb Hv]. pose proof (marked_ids _ _ Hm) as Hids. pose proof (marked_length _ _ Hm) as Hlen.
  split; [by split; cbn; rewrite ?Hlen|done|]. intros Hvs. specialize (Hv Hvs). cbn. destruct (active_view st) as [|sgs| | |]; try done. destruct Hv as [Hs Ht].
  split; [|done]. eapply Forall_impl; [exact Hs|]. intros [id|lo hi]; cbn; [|done]. by rewrite Hids.
Qed.
#[local] Notation settle_one := (settle_outcome message_id estimate_message_tokens contents metadata set_metadata).
(** What a settlement keeps: the messages, the coordinates and a sound state. *)
Definition settles st st' : Prop :=
  session_ok st' ∧ Forall2 marked (messages st) (messages st') ∧ seqs st' = seqs st ∧ next_seq st' = next_seq st.
Lemma settles_same st st' :
  session_ok st' → messages st' = messages st → seqs st' = seqs st → next_seq st' = next_seq st → settles st st'.
Proof. intros H1 H2 H3 H4. split; [done|]. rewrite H2. split; [apply marked_refl|done]. Qed.
#[local] Hint Extern 3 (settles _ _) => apply settles_same : core.
Lemma settles_trans st1 st2 st3 : settles st1 st2 → settles st2 st3 → settles st1 st3.
Proof.
  intros (H1 & H2 & H3 & H4) (I1 & I2 & I3 & I4). split; [done|]. rewrite I3, I4. split; [by eapply marked_trans|done].
Qed.
Lemma settle_outcome_ok now l pending o st : session_ok st → settles st (settle_one now l pending st o).
Proof.
  intros Hok. unfold settle_outcome. destruct (negb _); [auto|]. destruct (active_block _ _); [|auto]. cbv zeta.
  set (st1 := on_compaction _ st). assert (H1 : session_ok st1).
  { apply same_outline_ok; [|done]. intros d. split; [|done]. unfold outline, on_blocks. cbn [blocks set_blocks]. change (λ b, (block_id b, spans b)) with block_outline.
    by rewrite on_active_outline. }
  case_decide; [auto|]. pose proof (on_message_marked (outcome_summary o) (archive_refs o) (messages st1)) as Hm.
  split; [by apply marked_ok|]. by split.
Qed.
Lemma settle_outcomes_ok now l pending os st : session_ok st → settles st (foldl (settle_one now l pending) st os).
Proof.
  revert st. induction os as [|o os IH]; intros st Hok; [auto|]. cbn [foldl].
  pose proof (settle_outcome_ok now l pending o st Hok) as H. eapply settles_trans; [exact H|]. apply IH, H.
Qed.
Lemma settle_plan_ok now os l st :
  session_ok st →
  settles st (settle_plan message_id estimate_message_tokens estimate_messages is_system contents metadata set_metadata now os l st).
Proof.
  intros Hok. unfold settle_plan. cbv zeta. set (st1 := on_compaction (set_pending [] []) st).
  assert (H1 : session_ok st1) by (by apply same_outline_ok).
  destruct (settle_outcomes_ok now l (pending_plan (compaction st)) os st1 H1) as (H2 & E1 & E2 & E3).
  set (st2 := foldl _ st1 os) in *. set (st3 := on_compaction (on_blocks (drop_blocks _)) st2).
  assert (H3 : session_ok st3) by (apply same_outline_ok; [intros c; split; [apply drop_blocks_outline|done]|done]).
  split; [|by split]. apply same_outline_ok; [intros c; unfold evaluate_handoff_request; cbv zeta; by case_decide|].
  by apply refresh_hot_estimate_ok, refresh_compacted_view_ok.
Qed.

(** ** Runs of a session *)

Inductive SessionOp : Type :=
| OpAdd (now : Z) (m : Message)
| OpCompress (now : Z) (ms : list Message) (tail_keep : nat)
| OpWindow (window_tokens : Z) (l : CompactionLimits)
| OpPending (plan : list CompactionPlanItem) (drops : list string)
| OpHandoffFlag (b : bool)
| OpRead (e : FileReadEntry)
| OpHot
| OpApply (now : Z) (summaries : list Message) (outcomes : list BlockOutcome) (l : CompactionLimits)
| OpHandoff (now : Z) (document : Message) (index : list IndexEntry) (reason : string) (note : option string) (recent_messages : nat)
| OpDropOldest (recent_messages : nat)
| OpFullView
| OpEmitted (v : Z)
| OpEstimate
| OpUsage (tokens : Z)
| OpFinalize (request_id : string) (now : Z)
| OpTracker (f : TokenUsageTracker → TokenUsageTracker).

Definition run_session_op s (o : SessionOp) : ConversationSession Message :=
  match o with
  | OpAdd now m => add_message message_id estimate_message_tokens now m s
  | OpCompress now ms n => compress_with_tail message_id estimate_message_tokens estimate_messages is_system now ms n s
  | OpWindow w l => set_compaction_window w l s
  | OpPending plan drops => set_pending_compaction plan drops s
  | OpHandoffFlag b => if b then mark_handoff_requested s else (take_handoff_requested s).2
  | OpRead e => record_file_read e s
  | OpHot => refresh_hot_estimate message_id estimate_messages is_system s
  | OpApply now ms os l =>
      apply_compaction_result message_id estimate_message_tokens estimate_messages is_system contents metadata set_metadata now ms os l s
  | OpHandoff now d index reason note n =>
      enter_handoff message_id estimate_message_tokens estimate_messages is_system now d index reason note n s
  | OpDropOldest n => (drop_oldest_active_block message_id estimate_messages is_system n s).1
  | OpFullView => restore_full_view estimate_messages s
  | OpEmitted v => session_mark_emitted v s
  | OpEstimate => (estimated_conversation_tokens estimate_messages s).2
  | OpUsage n => add_token_usage n s
  | OpFinalize id now => finalize_request id now s
  | OpTracker f => on_tracker f s
  end.
Definition run_session (os : list SessionOp) s : ConversationSession Message := foldl run_session_op s os.
(** The messages an operation appends. *)
Definition appended (o : SessionOp) : list Message :=
  match o with
  | OpAdd _ m => [m]
  | OpCompress _ ms _ => ms
  | OpApply _ ms _ _ => ms
  | OpHandoff _ d _ _ _ _ => [d]
  | _ => []
  end.

(** [st'] appends [ms] to [st]: the history and its coordinates grow at their ends. *)
Definition grows (ms : list Message) st st' : Prop :=
  session_ok st' ∧ Forall2 marked (messages st ++ ms) (messages st') ∧ next_seq st' = (next_seq st + Z.of_nat (List.length ms))%Z ∧
  seqs st' = seqs st ++ seqZ (next_seq st) (Z.of_nat (List.length ms)).
Lemma grows_settles ms st st1 st2 : grows ms st st1 → settles st1 st2 → grows ms st st2.
Proof.
  intros (H1 & H2 & H3 & H4) (I1 & I2 & I3 & I4). split; [done|]. rewrite I3, I4. split; [by eapply marked_trans|done].
Qed.
Lemma settles_grows st st' : settles st st' → grows [] st st'.
Proof. intros (I1 & I2 & I3 & I4). split; [done|]. rewrite I3, I4. cbn. rewrite !app_nil_r. split; [done|]. split; [lia|done]. Qed.
Lemma grows_ids ms st st' : grows ms st st' → ids_of st' = ids_of st ++ (message_id <$> ms).
Proof. intros (_ & H & _). unfold ids_of. by rewrite (marked_ids _ _ H), fmap_app. Qed.
Lemma add_states_grows now ms st :
  (next_seq st + Z.of_nat (List.length ms) < u64_max)%Z → session_ok st → grows ms st (add_states now ms st).
Proof.
  revert st. induction ms as [|m ms IH]; intros st Hmax Hok; [apply settles_grows; auto|]. cbn [List.length] in Hmax.
  destruct (IH (add_state now m st)) as (I1 & I2 & I3 & I4).
  - rewrite add_message_next by lia. lia.
  - apply add_message_ok; [lia|done].
  - change (add_states now ms (add_state now m st)) with (add_states now (m :: ms) st) in *. split; [done|].
    rewrite I3, I4, !add_message_next by lia. cbn [add_message_state messages set_view on_compaction set_history seqs] in *.
    rewrite <-!app_assoc in *. split; [done|]. split; [cbn [List.length]; lia|]. f_equal. cbn [List.length].
    rewrite (seqZ_cons _ (Z.of_nat (S _))) by lia. cbn. f_equal. f_equal; lia.
Qed.
(** Operations that append nothing. *)
Ltac in_place := apply settles_grows, settles_same; [|done..].
Lemma run_session_op_grows o s :
  (next_seq (conv s) + Z.of_nat (List.length (appended o)) < u64_max)%Z → session_ok (conv s) →
  grows (appended o) (conv s) (conv (run_session_op s o)).
Proof.
  intros Hmax Hok. destruct o as [now m|now ms n|w l|plan drops|b|e| |now ms os l|now d index reason note n|n| |v| |n|id now|f];
    cbn [appended run_session_op] in *.
  - by apply (add_states_grows now [m]).
  - unfold compress_with_tail. destruct ms as [|m0 ms0]; [by in_place|]. set (ms := m0 :: ms0) in *. cbv zeta.
    set (s1 := add_messages _ _ now ms s). pose proof (proj1 (add_messages_conv now ms s) : conv s1 = _) as E.
    eapply grows_settles; [by apply add_states_grows|]. cbn [on_tracker on_conv conv]. rewrite <-E. apply settles_same; [|done..].
    assert (Hs1 : session_ok (conv s1)) by (rewrite E; by apply add_states_ok).
    apply set_view_ok; [by apply (compressed_view_ok n (conv s1))|by apply set_estimate_ok].
  - in_place. by apply same_outline_ok.
  - in_place. by apply same_outline_ok.
  - destruct b; in_place; by apply same_outline_ok.
  - in_place. by apply same_outline_ok.
  - in_place. by apply refresh_hot_estimate_ok.
  - unfold apply_compaction_result. destruct ms as [|m0 ms0]; [by in_place|]. set (ms := m0 :: ms0) in *. cbv zeta.
    set (s1 := on_conv _ s). set (s2 := add_messages _ _ now ms s1).
    assert (H1 : session_ok (conv s1)).
    { apply same_outline_ok; [|done]. intros c. destruct (claim_summaries_outline os c) as (-> & ? & ?). done. }
    eapply grows_settles; [exact (add_states_grows now ms (conv s1) Hmax H1)|]. cbn [on_tracker on_conv conv].
    replace (add_states now ms (conv s1)) with (conv s2) by apply add_messages_conv. apply settle_plan_ok.
    unfold s2. rewrite (proj1 (add_messages_conv now ms s1)). by apply add_states_ok.
  - unfold enter_handoff. cbv zeta. set (s1 := add_message _ _ now d s). set (s2 := on_conv (on_compaction (handed_off _ _ _ _ _)) s1).
    assert (H1 : grows [d] (conv s) (conv s1)) by (by apply (add_states_grows now [d])).
    eapply grows_settles; [exact H1|]. cbn [on_tracker on_conv conv]. apply settles_same; [|done..]. apply refresh_hot_estimate_ok.
    assert (H2 : session_ok (conv s2)) by (apply same_outline_ok; [intros c; split; [apply sublist_nil_l|done]|apply H1]).
    apply (lead_with_refresh_ok (message_id d) n (conv s2)); [done|].
    change (ids_of (conv s2)) with (ids_of (conv s1)). rewrite (grows_ids _ _ _ H1). apply elem_of_app. right. left.
  - unfold drop_oldest_active_block. destruct (list_find _ _) as [[k b]|]; in_place; [|done]. apply refresh_hot_estimate_ok, refresh_compacted_view_ok, same_outline_ok; [|done].
    intros c. split; [|done]. unfold outline, on_blocks. cbn [blocks set_blocks]. change (λ b, (block_id b, spans b)) with block_outline.
    by rewrite on_active_outline.
  - in_place. apply set_estimate_ok. by apply set_view_ok.
  - in_place. by apply on_token_ledger_ok.
  - unfold estimated_conversation_tokens. cbn [snd]. destruct (is_dirty _ _); in_place; [by apply on_token_ledger_ok|done].
  - in_place. by apply set_usage_ok.
  - in_place. by apply set_usage_ok.
  - by in_place.
Qed.
Lemma run_session_grows os s :
  (next_seq (conv s) + Z.of_nat (List.length (os ≫= appended)) < u64_max)%Z → session_ok (conv s) →
  grows (os ≫= appended) (conv s) (conv (run_session os s)).
Proof.
  revert s. induction os as [|o os IH]; intros s Hmax Hok; [by in_place|]. cbn [run_session foldl] in *.
  cbn [mbind list_bind] in *. rewrite length_app in Hmax.
  destruct (run_session_op_grows o s) as (G1 & G2 & G3 & G4); [lia|done|].
  destruct (IH (run_session_op s o)) as (I1 & I2 & I3 & I4); [lia|done|]. split; [done|].
  unfold run_session in *. rewrite I3, I4, G3, G4, length_app. split; [|split; [lia|]].
  { eapply marked_trans; [|exact I2]. rewrite app_assoc. apply Forall2_app; [exact G2|apply marked_refl]. }
  rewrite <-app_assoc.
  f_equal. rewrite Nat2Z.inj_add, seqZ_app by lia. done.
Qed.
End invariant.
#[local] Notation sound := (session_ok True True).
#[local] Notation started limit := (with_token_limit (Message := Message) limit).
Lemma run_started_ok os limit :
  (Z.of_nat (List.length (os ≫= appended)) < u64_max)%Z →
  sound (conv (run_session os (started limit))) ∧
  next_seq (conv (run_session os (started limit))) = Z.of_nat (List.length (os ≫= appended)) ∧
  ids_of (conv (run_session os (started limit))) = message_id <$> (os ≫= appended) ∧
  seqs (conv (run_session os (started limit))) = seqZ 0 (Z.of_nat (List.length (os ≫= appended))).
Proof.
  intros H. pose proof (run_session_grows True True os (started limit)) as G.
  destruct G as (H1 & H2 & H3 & H4); [cbn; lia|apply empty_state_ok|]. split_and!; [done|done|by apply marked_ids|done].
Qed.

(** ** The life of a session *)

(** A session that got where it is from the start of some session: [log] is the history it should
    hold, each message with the number it was given, [n] the next number, [ts] whether its block
    table was kept in step.  A reset starts over, a restored snapshot brings back the history it was
    taken from, a branch its prefix; a history that replaces the present one is numbered anew, under
    the old block table, which speaks of numbers the new history does not reach when it is shorter. *)
Definition numbered (ms : list Message) (n : Z) : list (Message * Z) := zip ms (seqZ n (Z.of_nat (List.length ms))).
Inductive lives : list (Message * Z) → Z → Prop → ConversationSession Message → Prop :=
| lives_started limit : lives [] 0 True (started limit)
| lives_op log n ts s o :
    lives log n ts s → (n + Z.of_nat (List.length (appended o)) < u64_max)%Z →
    lives (log ++ numbered (appended o) n) (n + Z.of_nat (List.length (appended o))) ts (run_session_op s o)
| lives_reset log n ts s : lives log n ts s → lives [] 0 True (reset s)
| lives_history log n ts s ms v :
    lives log n ts s → (Z.of_nat (List.length ms) < u64_max)%Z →
    lives (numbered ms 0) (Z.of_nat (List.length ms)) (ts ∧ n ≤ Z.of_nat (List.length ms))%Z
      (restore_history message_id estimate_messages is_system ms v s)
| lives_restored log n ts s log' n' ts' s0 s' :
    lives log n ts s → lives log' n' ts' s0 → restore_state (snapshot_state s) s0 = Some s' → lives log n ts s'
| lives_branched log n ts s log' n' ts' s0 target v st s' :
    lives log n ts s → lives log' n' ts' s0 → branch_state_through_seq message_id s target v = Some st →
    restore_state st s0 = Some s' → lives (filter (λ mq, mq.2 ≤ target)%Z log) n ts s'
| lives_tracked log n ts s saved : lives log n ts s → lives log n ts (restore_tracker_state saved s).

(** *** Branches and replaced histories *)

Lemma spans_between_cut lo sps hi target :
  Forall (λ sp, range_end sp ≤ target)%Z sps → (lo ≤ target)%Z → spans_between lo sps hi → spans_between lo sps (Z.min hi target).
Proof.
  revert lo. induction sps as [|sp sps IH]; intros lo Hall Hlo; cbn; [lia|]. apply Forall_cons in Hall as [H1 H2].
  intros [H3 H4]. split; [done|]. by apply IH.
Qed.
Lemma downgrade_keeps present : keeps_outline (downgrade present).
Proof. intros b. unfold downgrade. by case_decide. Qed.
Lemma rebuild_blocks_ok next (ms : list Message) qs target c :
  last qs = Some target → (0 ≤ target < next)%Z → blocks_ok next c → blocks_ok next (rebuild_after_truncate message_id ms qs c).
Proof.
  intros Hl Ht [[H1 H1'] H2 H3 H4].
  set (c1 := set_blocks (filter (before target) (blocks c)) (synced_through_seq c) (next_block_seq c) c).
  assert (Hsub : outline c1 `sublist_of` outline c) by (apply fmap_sublist, sublist_filter).
  destruct (blocks_ok_outline next c c1 Hsub eq_refl eq_refl) as [_ K2 K3 _]; [by split|]. cbn in K2, K3.
  unfold rebuild_after_truncate. rewrite Hl. cbn [default]. cbv zeta.
  split; cbn; [lia| | |done].
  - assert (Hspans : (downgrade (message_id <$> ms) <$> filter (before target) (blocks c)) ≫= spans = filter (before target) (blocks c) ≫= spans).
    { clear. induction (filter (before target) (blocks c)) as [|b bs IH]; [done|]. cbn. f_equal; [|exact IH]. apply downgrade_keeps. }
    rewrite Hspans. apply spans_between_cut; [|lia|done]. apply Forall_forall. intros sp (b & Hsp & [Hb _]%list_elem_of_filter)%list_elem_of_bind.
    unfold before in Hb. rewrite Forall_forall in Hb. by apply Hb.
  - replace (block_id <$> (downgrade (message_id <$> ms) <$> filter (before target) (blocks c))) with (block_id <$> filter (before target) (blocks c)); [done|].
    rewrite <-list_fmap_compose. apply list_fmap_ext. intros k b _. symmetry. apply downgrade_keeps.
Qed.

Lemma blocks_ok_mono next next' c : (next ≤ next')%Z → blocks_ok next c → blocks_ok next' c.
Proof. intros Hle [[H1 H1'] H2 H3 H4]. split; [lia|done|done|lia]. Qed.
Lemma StronglySorted_take {A} (R : relation A) k l : StronglySorted R l → StronglySorted R (take k l).
Proof.
  intros H. revert k. induction H as [|x l _ IH Hall]; intros [|k]; cbn; try constructor; [apply IH|]. by apply Forall_take.
Qed.
Lemma seqZ_sorted a n : StronglySorted Z.lt (seqZ a (Z.of_nat n)).
Proof.
  revert a. induction n as [|n IH]; intros a; [constructor|]. rewrite seqZ_cons by lia.
  replace (Z.pred (Z.of_nat (S n))) with (Z.of_nat n) by lia. constructor; [apply IH|]. apply Forall_seqZ. lia.
Qed.
(** Under sorted numbers a cut is a prefix. *)
Lemma filter_is_prefix {A} (log : list (A * Z)) k target :
  StronglySorted Z.lt log.*2 → log.*2 !! k = Some target → filter (λ mq, mq.2 ≤ target)%Z log = take (S k) log.
Proof.
  revert k. induction log as [|[x q] log IH]; intros k Hs Hk; [done|]. cbn [fmap list_fmap snd] in *.
  apply StronglySorted_inv in Hs as [Hs Hq]. destruct k as [|k]; cbn in Hk.
  - injection Hk as <-. rewrite filter_cons, decide_True by (cbn; lia). cbn. f_equal. rewrite take_0.
    clear -Hq. induction log as [|[y q'] log IH]; [done|]. cbn in Hq. apply Forall_cons in Hq as [H1 H2].
    rewrite filter_cons, decide_False by (cbn; lia). by apply IH.
  - rewrite Forall_forall in Hq. rewrite filter_cons, decide_True by (cbn; specialize (Hq target (list_elem_of_lookup_2 _ _ _ Hk)); lia).
    cbn [take]. f_equal. by apply IH.
Qed.

(** The session holds its log. *)
Definition holds (log : list (Message * Z)) (n : Z) (ts : Prop) st : Prop :=
  session_ok False ts st ∧ Forall2 marked log.*1 (messages st) ∧ seqs st = log.*2 ∧ next_seq st = n.
Lemma numbered_fst ms n : (numbered ms n).*1 = ms.
Proof. apply fst_zip. rewrite length_seqZ. lia. Qed.
Lemma numbered_snd ms n : (numbered ms n).*2 = seqZ n (Z.of_nat (List.length ms)).
Proof. apply snd_zip. rewrite length_seqZ. lia. Qed.

Lemma holds_started limit : holds [] 0 True (conv (started limit)).
Proof. split; [apply empty_state_ok|]. by split_and!. Qed.
Lemma holds_op log n ts s o :
  holds log n ts (conv s) → (n + Z.of_nat (List.length (appended o)) < u64_max)%Z →
  holds (log ++ numbered (appended o) n) (n + Z.of_nat (List.length (appended o))) ts (conv (run_session_op s o)).
Proof.
  intros (H1 & H2 & H3 & <-) Hmax. destruct (run_session_op_grows False ts o s) as (G1 & G2 & G3 & G4); [done|done|].
  split; [done|]. rewrite !fmap_app, numbered_fst, numbered_snd, G3, G4, H3. split; [|done].
  eapply marked_trans; [|exact G2]. apply Forall2_app; [done|apply marked_refl].
Qed.
Lemma holds_history log n ts s ms v :
  holds log n ts (conv s) →
  holds (numbered ms 0) (Z.of_nat (List.length ms)) (ts ∧ n ≤ Z.of_nat (List.length ms))%Z
    (conv (restore_history message_id estimate_messages is_system ms v s)).
Proof.
  intros ([_ Hb _] & _ & _ & Hn). split; [|rewrite numbered_fst, numbered_snd; split; [apply marked_refl|done]].
  split; cbn; [|intros [Ht Hle]; eapply blocks_ok_mono; [|by apply Hb]; lia|done].
  split; cbn; [rewrite length_seqZ; lia|apply seqZ_sorted|apply Forall_seqZ; intros; lia|lia].
Qed.
Lemma holds_restored log n ts st s s' : holds log n ts st → restore_state st s = Some s' → holds log n ts (conv s').
Proof.
  intros ([[] Hb _] & Hlog). unfold restore_state. destruct (decide _); [|done]. destruct (saved_tracker st); [|done]. intros [= <-].
  cbn [conv]. split; [|exact Hlog]. split; [done| |done]. 
  cbn. intros Ht. destruct (compaction_is_empty _); [by apply Hb|]. by apply (blocks_ok_outline _ (compaction st)); [..|apply Hb].
Qed.
Lemma holds_branch log n ts s target v st :
  holds log n ts (conv s) → branch_state_through_seq message_id s target v = Some st → holds (filter (λ mq, mq.2 ≤ target)%Z log) n ts st.
Proof.
  intros ([[H1 H2 H3 H4] Hb _] & Hm & Hq & Hn). unfold branch_state_through_seq.
  destruct (seq_position _ target) as [k|] eqn:Hpos; [|done]. intros [= <-].
  unfold seq_position in Hpos. apply fmap_Some in Hpos as ([k' q] & Hf & ->). apply list_find_Some in Hf as (Hk & -> & _). cbn [fst].
  assert (Ht : (0 ≤ target < next_seq (conv s))%Z) by exact (proj1 (Forall_lookup _ _) H3 _ _ Hk).
  rewrite (filter_is_prefix _ k') by (by rewrite <-Hq).
  split; [|cbn; rewrite !fmap_take, Hq; split; [by apply Forall2_take|done]].
  split; cbn; [|intros Hts; apply (rebuild_blocks_ok _ _ _ target); [by rewrite (take_S_r _ _ target), last_snoc|done|by apply Hb]|done].
  split; cbn; [rewrite !length_take; lia|by apply StronglySorted_take|by apply Forall_take|done].
Qed.
Lemma lives_holds log n ts s : lives log n ts s → holds log n ts (conv s).
Proof.
  induction 1 as [limit|log n ts s o _ IH Hmax|log n ts s _ _|log n ts s ms v _ IH _|log n ts s log' n' ts' s0 s' _ IH _ _ Hr
    |log n ts s log' n' ts' s0 target v st s' _ IH _ _ Hb Hr|log n ts s saved _ IH].
  - apply holds_started.
  - by apply holds_op.
  - exact (holds_started 0).
  - by eapply holds_history.
  - eapply holds_restored; [|exact Hr]. destruct IH as (H & H'). split; [by apply set_usage_ok|exact H'].
  - eapply holds_restored; [|exact Hr]. by eapply holds_branch.
  - destruct IH as (H & H'). split; [by apply set_usage_ok|exact H'].
Qed.

Lemma numbered_app ms ms' n : numbered (ms ++ ms') n = numbered ms n ++ numbered ms' (n + Z.of_nat (List.length ms)).
Proof. unfold numbered. rewrite length_app, Nat2Z.inj_add, seqZ_app by lia. apply zip_with_app. by rewrite length_seqZ, Nat2Z.id. Qed.
Lemma lives_run log n ts s os :
  lives log n ts s → (n + Z.of_nat (List.length (os ≫= appended)) < u64_max)%Z →
  lives (log ++ numbered (os ≫= appended) n) (n + Z.of_nat (List.length (os ≫= appended))) ts (run_session os s).
Proof.
  revert log n s. induction os as [|o os IH]; intros log n s Hl Hmax; cbn [mbind list_bind] in *.
  - unfold numbered. cbn. rewrite app_nil_r. change (Z.of_nat 0) with 0%Z. by rewrite Z.add_0_r.
  - rewrite length_app in *. rewrite numbered_app, app_assoc, Nat2Z.inj_add, Z.add_assoc.
    apply (IH _ _ (run_session_op s o)); [apply lives_op; [done|lia]|lia].
Qed.

(** C24: whatever a session goes through (appends, compressions, compaction results, handoffs, drops, resets,
    restored snapshots and histories, branches), its history is its log: the messages it was given, in
    order, each under the number it was given with, changed at most by the marks of archived content.
    The numbers grow along it and stay below the next one.  While no history shorter than the numbers
    given out replaces the present one, the block table is sound: block ids are distinct and the spans of
    the blocks follow each other without overlap, none beyond what is synced. *)
Theorem session_coordinates (log : list (Message * Z)) (n : Z) (ts : Prop) (s : ConversationSession Message) :
  lives log n ts s →
  let st := conv s in
  Forall2 marked log.*1 (messages st) ∧ seqs st = log.*2 ∧ next_seq st = n ∧
  StronglySorted Z.lt log.*2 ∧ Forall (λ q, 0 ≤ q < n)%Z log.*2 ∧
  (ts → NoDup (block_id <$> blocks (compaction st)) ∧
    spans_between (-1) (blocks (compaction st) ≫= spans) (synced_through_seq (compaction st)) ∧
    (synced_through_seq (compaction st) < n ∨ synced_through_seq (compaction st) = 0)%Z).
Proof.
  intros H. apply lives_holds in H as ([[_ Hs Hbd _] Hb _] & H2 & H3 & H4). cbv zeta. rewrite <-H3, <-H4.
  split_and!; [done..|]. intros Ht. specialize (Hb Ht). split_and!; [by eapply blocks_ok_NoDup|apply Hb|apply Hb].
Qed.

(** In every state of a session, compressed, compacted or handed off, appending a message with a new id
    adds exactly that message at the end of what the next request shows. *)
Theorem append_shows_message (os : list SessionOp) (limit now : Z) (m : Message) :
  (Z.of_nat (List.length (os ≫= appended)) < u64_max)%Z → message_id m ∉ message_id <$> (os ≫= appended) →
  view_messages message_id is_system (run_session (os ++ [OpAdd now m]) (started limit)) =
  view_messages message_id is_system (run_session os (started limit)) ++ [m].
Proof.
  intros Hmax Hm. destruct (run_started_ok os limit Hmax) as (Hok & Hn & Hids & _).
  unfold run_session. rewrite foldl_app. apply (add_message_shows True True); [done|unfold run_session in Hn; rewrite Hn; lia|done|].
  unfold run_session in Hids. by rewrite Hids.
Qed.

(** ** Branches *)

(** A branch of a session at a sequence number is the history up to that number under its old
    coordinates: new messages go on after the numbers of the whole session, and the block table speaks
    of nothing beyond the cut. *)
Theorem branch_keeps_coordinates (os : list SessionOp) (limit target : Z) (v : MessageView) (st : ConversationState Message) :
  (Z.of_nat (List.length (os ≫= appended)) < u64_max)%Z →
  branch_state_through_seq message_id (run_session os (started limit)) target v = Some st →
  prefix_through_seq (run_session os (started limit)) target = Some (messages st) ∧ seqs st = seqZ 0 (target + 1) ∧
  next_seq st = Z.of_nat (List.length (os ≫= appended)) ∧ history_ok st ∧ blocks_ok (next_seq st) (compaction st) ∧
  Forall (before target) (blocks (compaction st)) ∧ (synced_through_seq (compaction st) ≤ target)%Z.
Proof.
  intros Hmax. destruct (run_started_ok os limit Hmax) as ([[H1 H2 H3 H4] Hb _] & Hn & _ & Hq). specialize (Hb I).
  set (s := run_session os (started limit)) in *. unfold branch_state_through_seq, prefix_through_seq. rewrite Hq.
  set (n := List.length (os ≫= appended)) in *. destruct (seq_position _ target) as [pos|] eqn:Hpos; [|done]. intros [= <-]. cbn [fmap option_fmap option_map].
  unfold seq_position in Hpos. apply fmap_Some in Hpos as ([k q] & Hf & ->). cbn [fst]. apply list_find_Some in Hf as (Hk & -> & _).
  apply lookup_seqZ in Hk as [Hk Hlt]. assert (Htake : take (S k) (seqZ 0 (Z.of_nat n)) = seqZ 0 (target + 1)).
  { replace (Z.of_nat n) with ((target + 1) + (Z.of_nat n - (target + 1)))%Z by lia. rewrite seqZ_app by lia.
    apply take_app_length'. rewrite length_seqZ. lia. }
  assert (Hlast : last (seqZ 0 (target + 1)) = Some target) by (rewrite seqZ_app, (seqZ_cons (0 + target) 1), (seqZ_nil _ (Z.pred 1)) by lia; rewrite last_snoc; f_equal; lia).
  assert (Hlen : List.length (seqZ 0 (target + 1)) = List.length (take (S k) (messages (conv s)))).
  { rewrite <-Htake, <-Hq, !length_take. lia. }
  cbn. rewrite Htake. split; [done|]. split; [done|]. split; [done|]. split; [|split; [|split]].
  - split; cbn; [done| |apply Forall_seqZ; intros; rewrite Hn; lia|lia]. rewrite <-Htake, <-Hq.
    rewrite <-(take_drop (S k) (seqs (conv s))) in H2. clear -H2. induction (take (S k) (seqs (conv s))) as [|q l IH]; [constructor|].
    cbn in H2. apply StronglySorted_inv in H2 as [H2 H3]. apply Forall_app in H3 as [H3 _]. constructor; [by apply IH|done].
  - apply (rebuild_blocks_ok _ _ _ target); [done|rewrite Hn; lia|done].
  - rewrite Hlast. cbn. apply Forall_fmap. apply Forall_forall. intros b [Hbf _]%list_elem_of_filter. unfold compose, downgrade. by case_decide.
  - rewrite Hlast. cbn. lia.
Qed.

(** ** The incremental estimate *)



End sessions.

(** * Concrete sessions *)

(** Messages as an id and a size, without metadata. *)
Definition abs_estimate (m : string * Z) : Z := Z.abs m.2.
Definition chat_total (ms : list (string * Z)) : Z := foldr (λ m, Z.add m.2) 0%Z ms.
Definition no_metadata (m : string * Z) : option (gmap string value) := None.
Definition run_chat (os : list (SessionOp (Message := string * Z))) : ConversationSession (string * Z) :=
  run_session fst snd chat_total (λ _, false) (λ m, inl m.1) no_metadata (λ _ m, m) os (with_token_limit 0).
Definition chat_view (s : ConversationSession (string * Z)) : list string := (view_messages fst (λ _, false) s).*1.
Definition adds (l : list (string * Z)) : list (SessionOp (Message := string * Z)) := OpAdd 0 <$> l.
Definition outcome (block summary : string) : BlockOutcome := {| outcome_block := block; outcome_summary := summary; archive_refs := [] |}.
Definition plan_item (block : string) (s e : nat) : CompactionPlanItem :=
  {| item_block := block; item_start := s; item_end := e; depth := 0; extra_block_ids := [] |}.
Definition two_turns : list (string * Z) := [("u0", 40%Z); ("a0", 50%Z); ("u1", 60%Z); ("a1", 70%Z); ("u2", 10%Z); ("a2", 20%Z)].
(** A conversation whose one block was compressed into the summary [s0]. *)
Definition compacted_chat : list (SessionOp (Message := string * Z)) :=
  [OpWindow 400 small_limits] ++ adds two_turns ++
  [OpPending [plan_item "b0000" 0 6] []; OpApply 1 [("s0", 15%Z)] [outcome "b0000" "s0"] small_limits].

(** The estimate that decides is not kept by [apply_compaction_result]: the view of
    the compacted conversation costs 115, the running estimate still counts all
    265 tokens ever appended. *)
Example estimate_stale_after_compaction :
  let s := run_chat compacted_chat in
  chat_view s = ["s0"; "a1"; "u2"; "a2"] ∧ chat_total (view_messages fst (λ _, false) s) = 115%Z ∧
  hot_tokens (compaction (conv s)) = 115%Z ∧ estimated_view_tokens s = 265%Z.
Proof. vm_compute. by repeat split. Qed.

(** After a first compaction the summary is also inside the hot tail: the view
    shows it once, the map of sequence numbers counts it twice.  The last
    message falls off the map, the raw block with four new messages is not
    "all present", and the plan for it is empty: it gives up the summary
    instead. *)
Definition grown_chat : ConversationSession (string * Z) :=
  run_chat (compacted_chat ++ adds [("u3", 100%Z); ("a3", 100%Z); ("u4", 100%Z); ("a4", 100%Z)]).
Example second_compaction_finds_nothing :
  let s := grown_chat in
  let st := conv s in
  chat_view s = ["s0"; "a1"; "u2"; "a2"; "u3"; "a3"; "u4"; "a4"] ∧
  snapshot_seq_map fst (active_view st) (view_messages fst (λ _, false) s) (messages st) (seqs st)
    = Some <$> [6; 3; 4; 5; 6; 7; 8; 9]%Z ∧
  ((λ b, (block_id b, block_state b, size_tokens b)) <$> blocks (compaction st) = [("b0000", Compressed, 15%Z); ("b0001", Raw, 400%Z)]) ∧
  let p := build_compaction_plan fst snd (λ _, false) ∅ s 515 small_limits false in plan_items p = [] ∧ plan_drops p = ["b0000"].
Proof. vm_compute. by repeat split. Qed.

(** The outcome of a block that was absorbed into a neighbour's item is skipped: the
    block keeps its summary id and stays raw. *)
Example absorbed_block_stays_raw :
  let merged := {| item_block := "b0000"; item_start := 0; item_end := 8; depth := 0; extra_block_ids := ["b0001"] |} in
  let s := run_session_op fst snd chat_total (λ _, false) (λ m, inl m.1) no_metadata (λ _ m, m)
    (set_pending_compaction [merged] [] grown_chat)
    (OpApply 2 [("s1", 20%Z)] [outcome "b0000" "s1"; outcome "b0001" "s1"] small_limits) in
  (λ b, (block_id b, block_state b, summary_message_id b, size_tokens b)) <$> blocks (compaction (conv s))
    = [("b0000", Compressed, "s1", 20%Z); ("b0001", Raw, "s1", 400%Z)].
Proof. vm_compute. reflexivity. Qed.

(** A branch inside a block drops the whole block and still counts its messages as
    synced: those before the cut belong to no block, now or later. *)
Example branch_orphans_messages :
  let s := run_chat (adds two_turns) in
  match branch_state_through_seq fst s 3 VFull with
  | Some st => messages st = take 4 two_turns ∧ blocks (compaction st) = [] ∧ synced_through_seq (compaction st) = 3%Z
  | None => False
  end.
Proof. vm_compute. by repeat split. Qed.

(** The tail that keeps "pre-existing" messages is counted from the end of the
    batch: with two summaries it keeps the other summary, not the last message
    of the conversation. *)
Example batch_fills_tail :
  chat_view (run_chat (adds two_turns ++ [OpCompress 1 [("s0", 5%Z); ("s1", 5%Z)] 1])) = ["s1"; "s0"].
Proof. vm_compute. reflexivity. Qed.

(** A history in place of the present one keeps the block table: when it is shorter,
    the blocks speak of messages that are gone, and what is appended up to the
    number synced before is never synced into a block. *)
Example short_history_keeps_blocks :
  let s := restore_history fst chat_total (λ _, false) [("m0", 1%Z)] VFull (run_chat (adds two_turns)) in
  let s := run_session_op fst snd chat_total (λ _, false) (λ m, inl m.1) no_metadata (λ _ m, m) s (OpAdd 0 ("m1", 900%Z)) in
  let c := compaction (conv s) in
  seqs (conv s) = [0; 1]%Z ∧ spans <$> blocks c = [[{| range_start := 0; range_end := 5 |}]] ∧ source_tokens <$> blocks c = [250%Z] ∧
  synced_through_seq c = 5%Z.
Proof. vm_compute. by repeat split. Qed.

(** A conversation is finalized, branched at its fourth message into a new session,
    and goes on there. *)
Definition finalized_chat : list (SessionOp (Message := string * Z)) := adds two_turns ++ [OpFinalize "r" 0].
Definition branched_chat (s : ConversationSession (string * Z)) : ConversationSession (string * Z) :=
  run_session fst snd chat_total (λ _, false) (λ m, inl m.1) no_metadata (λ _ m, m) [OpAdd 1 ("u3", 7%Z)] s.
Lemma session_coordinates_witness :
  match branch_state_through_seq fst (run_chat finalized_chat) 3 VFull ≫= λ st, restore_state st (with_token_limit 0) with
  | Some s =>
      let st := conv (branched_chat s) in
      seqs st = [0; 1; 2; 3; 6]%Z ∧ next_seq st = 7%Z ∧ NoDup (block_id <$> blocks (compaction st)) ∧
      (compaction st).(blocks) ≫= spans = [{| range_start := 6; range_end := 6 |}]
  | None => False
  end.
Proof.
  pose (R := lives_run fst snd chat_total (λ _, false) (λ m : string * Z, inl m.1) no_metadata (λ _ m, m)).
  destruct (branch_state_through_seq fst (run_chat finalized_chat) 3 VFull) as [st|] eqn:E; [|by vm_compute in E]. cbn [mbind option_bind].
  destruct (restore_state st (with_token_limit 0)) as [s|] eqn:E'; [|by vm_compute in E; injection E as <-; vm_compute in E'].
  destruct (session_coordinates fst snd chat_total (λ _, false) (λ m, inl m.1) no_metadata (λ _ m, m) (λ _ _, eq_refl)
    (filter (λ mq, mq.2 ≤ 3)%Z ([] ++ numbered (finalized_chat ≫= appended) 0) ++ numbered [("u3", 7%Z)] 6) 7 True (branched_chat s))
    as (_ & H2 & H3 & _ & _ & H4).
  - apply (R _ 6%Z True s [OpAdd 1 ("u3", 7%Z)]); [|done]. eapply lives_branched; [|apply (lives_started _ _ _ _ _ _ _ 0)|exact E|exact E'].
    apply (R [] 0%Z True (with_token_limit 0) finalized_chat); [apply lives_started|done].
  - rewrite H2, H3. destruct (H4 I) as [H5 _]. split; [vm_compute; reflexivity|]. split; [done|]. split; [exact H5|].
    clear -E E'. vm_compute in E. injection E as <-. vm_compute in E'. injection E' as <-. vm_compute. reflexivity.
Defined.
Lemma append_shows_message_witness :
  chat_view grown_chat = ["s0"; "a1"; "u2"; "a2"; "u3"; "a3"; "u4"; "a4"] ∧
  view_messages fst (λ _, false) (run_chat ((compacted_chat ++ adds [("u3", 100%Z)]) ++ [OpAdd 0 ("a3", 100%Z)])) =
  view_messages fst (λ _, false) (run_chat (compacted_chat ++ adds [("u3", 100%Z)])) ++ [("a3", 100%Z)].
Proof.
  split; [vm_compute; reflexivity|].
  apply (append_shows_message fst snd chat_total (λ _, false) (λ m, inl m.1) no_metadata (λ _ m, m) (λ _ _, eq_refl));
    [vm_compute; reflexivity|]. vm_compute. intros H. repeat (apply elem_of_cons in H as [H|H]; [discriminate H|]). by apply elem_of_nil in H.
Defined.
Lemma branch_keeps_coordinates_witness :
  match branch_state_through_seq fst (run_chat (adds two_turns)) 3 VFull with
  | Some st => prefix_through_seq (run_chat (adds two_turns)) 3 = Some (messages st) ∧ seqs st = seqZ 0 4 ∧ next_seq st = 6%Z
  | None => False
  end.
Proof.
  destruct (branch_state_through_seq fst (run_chat (adds two_turns)) 3 VFull) as [st|] eqn:E; [|by vm_compute in E].
  destruct (branch_keeps_coordinates fst snd chat_total (λ _, false) (λ m, inl m.1) no_metadata (λ _ m, m) (λ _ _, eq_refl)
    (adds two_turns) 0 3 VFull st) as (H1 & H2 & H3 & _); [vm_compute; reflexivity|exact E|].
  split; [exact H1|]. split; [exact H2|exact H3].
Defined.
