(* ===== verification/CompactionDriver.v ===== *)
(** The compaction protocol of an agent loop: what the loop decides and signals
    after a model call (wf-agent/src/coordinator/iteration/compression.rs), and
    how results are written back to the live conversation
    (wf-agent/src/conversation_compression.rs), with the guards of
    wf-execution-shared/src/context_store.rs.

    The summary service, the event bus and the hooks are outside: a signal is a
    value the loop hands out, a completion is a value that comes back, at any
    time and for any version.  Locks are released between the decision, the
    dispatch and its record, so these are separate steps. *)

From S2P Require Import Prelude Strings Json Numbers MessageContext TokenTracker Compaction CompactionFacts Session SessionFacts.

(** * Guards: context_store.rs *)

Definition WRITEBACK_OPERATION_APPEND : string := "append".
Inductive WritebackOp : Type := Append.
Definition from_operation_name (operation : string) : option WritebackOp :=
  if decide (operation = WRITEBACK_OPERATION_APPEND) then Some Append else None.
Definition over_budget (estimated_tokens token_limit : Z) : bool := bool_decide (0 < token_limit ∧ token_limit < estimated_tokens)%Z.
Definition check_anchor (current_version anchor_version : Z) : bool := bool_decide (current_version = anchor_version).
Definition dynamic_request_overhead (request_estimate stable_estimate : Z) : Z := sat_sub request_estimate stable_estimate.
(** The difference of the clocks is cast to u64. *)
Definition flight_expired (started_at_ms now_ms timeout_ms : Z) : bool :=
  bool_decide (timeout_ms < wrap64 (Z.max (- 2 ^ 63) (Z.min (now_ms - started_at_ms) i64_max)))%Z.
Definition REASON_HARD_LIMIT : string := "HARD_LIMIT".
Definition REASON_POST_COMPACT_STILL_HIGH : string := "POST_COMPACT_STILL_HIGH".

Section driver.
  Context {Message : Type} (message_id : Message → string) (estimate_message_tokens : Message → Z)
    (estimate_messages : list Message → Z) (is_system : Message → bool) (contents : Message → string + list (option string))
    (metadata : Message → option (gmap string value)) (set_metadata : gmap string value → Message → Message).
  Context (advisors : gmap string (value → option value)) (limits : CompactionLimits) (settle_timeout_ms : Z).
  Implicit Types s : ConversationSession Message.

(** * The loop side: compression.rs *)

Record Signal : Type := {
  signal_version : Z;
  signal_tokens : Z;
  signal_limit : Z;
  signal_forced : bool;
  signal_messages : list Message;
  signal_plan : list CompactionPlanItem;
}.
(** What a settlement asks for beyond the session. *)
Inductive Settlement : Type :=
| Settled
| HandOff (reason : string)
| Emit (signal : Signal).

Definition session_calibrated s (n : Z) : Z := calibrated (tracker s) n.
Definition session_flight s : option CompressionFlight := compression_flight (tracker s) CONVERSATION_CONTEXT_ID.

(** [record_compaction_decision] up to the dispatch of its signal. *)
Definition release_expired (now : Z) (f : CompressionFlight) s : ConversationSession Message :=
  clear_pending_compaction (end_flight (flight_version f) s).1.
Definition emit_plan (hot estimated context_limit : Z) (aggressive : bool) s : ConversationSession Message * Settlement :=
  let single_summary := is_single_summary_strategy (compaction_strategy_name limits) in
  let plan := build_compaction_plan message_id estimate_message_tokens is_system advisors s hot limits aggressive in
  if plan_is_empty plan && negb single_summary then (s, Settled)
  else if negb single_summary && aggressive &&
    bool_decide (t_hard (thresholds (compaction (conv s))) ≤ sat_sub hot (freed_tokens plan))%Z
  then (s, HandOff REASON_HARD_LIMIT)
  else
    let version := conversation_version s in
    if negb (session_should_emit s version) then (s, Settled)
    else
      (set_pending_compaction (plan_items plan) (plan_drops plan) s,
       Emit {| signal_version := version; signal_tokens := estimated; signal_limit := context_limit; signal_forced := false;
               signal_messages := view_messages message_id is_system s; signal_plan := plan_items plan |}).
Definition record_compaction_decision (now estimated context_limit prompt_est : Z) s : ConversationSession Message * Settlement :=
  let '(requested, s) := take_handoff_requested s in
  if requested then (s, HandOff REASON_POST_COMPACT_STILL_HIGH)
  else
    let s := refresh_hot_estimate message_id estimate_messages is_system s in
    let dynamic := dynamic_request_overhead prompt_est (estimated_view_tokens s) in
    let hot := session_calibrated s (sat_add u64_max (hot_tokens (compaction (conv s))) dynamic) in
    match session_decide_compaction s hot limits with
    | Hold => (s, Settled)
    | DropOldestActive => ((drop_oldest_active_block message_id estimate_messages is_system (recent_messages_of limits) s).1, Settled)
    | EnterHandoff reason => (s, HandOff reason)
    | Compact aggressive =>
        match session_flight s with
        | Some f =>
            if flight_expired (started_at_ms f) now settle_timeout_ms
            then emit_plan hot estimated context_limit aggressive (release_expired now f s)
            else (s, Settled)
        | None => emit_plan hot estimated context_limit aggressive s
        end
    end.

(** [record_usage_and_compression]: the usage of a request, then the decision when
    the context budget and the window are known. *)
Inductive UsageEvent : Type :=
| TokenUsageWarning (tokens_used token_limit : Z) (percentage : f64)
| TokenLimitExceeded (tokens_used token_limit : Z).
Definition record_usage (prompt_est completion_est : Z) (usage : option RequestUsage) (request_id : string) (now : Z) s :
    ConversationSession Message :=
  let s :=
    match usage with
    | Some u => on_tracker (accumulate_estimated_usage prompt_est completion_est ∘ accumulate_stream_usage u) s
    | None => on_tracker (update_estimated_usage prompt_est completion_est) s
    end in
  finalize_request request_id now s.
Definition report_usage (threshold : f64) s : ConversationSession Message * list UsageEvent :=
  let used := billed_cumulative (tracker s) in
  let limit := token_limit (tracker s) in
  if decide (0 < limit)%Z then
    let '(t, warn) := consume_warning threshold (tracker s) in
    let '(t, tier) := consume_limit_exceeded_tier t in
    (on_tracker (λ _, t) s,
     (if warn then [TokenUsageWarning used limit (default (f64_of_Z 0) (billed_usage_percentage t))] else []) ++
     (match tier with Some _ => [TokenLimitExceeded used limit] | None => [] end))
  else (s, []).
Definition settle_usage (now prompt_est : Z) s : ConversationSession Message * Settlement :=
  let limit := context_limit (tracker s) in
  if decide (limit = 0)%Z then (s, Settled)
  else
    let stable := estimated_view_tokens s in
    let dynamic := dynamic_request_overhead prompt_est stable in
    let estimated := session_calibrated s (sat_add u64_max stable dynamic) in
    if decide (window_tokens (compaction (conv s)) = 0)%Z then (s, Settled)
    else record_compaction_decision now estimated limit prompt_est s.
Definition record_usage_and_compression (now prompt_est completion_est : Z) (usage : option RequestUsage) (request_id : string)
    (bus : bool) (threshold : f64) s : ConversationSession Message * list UsageEvent * Settlement :=
  let s := record_usage prompt_est completion_est usage request_id now s in
  if negb bus then (s, [], Settled)
  else
    let '(s, events) := report_usage threshold s in
    let '(s, settlement) := settle_usage now prompt_est s in
    (s, events, settlement).

(** [publish_forced_compression] up to its dispatch, over the messages of the
    refused request. *)
Definition forced_signal (tokens_used : Z) (request_messages : list Message) s : Settlement :=
  let version := conversation_version s in
  if negb (session_should_emit s version) then Settled
  else Emit {| signal_version := version; signal_tokens := tokens_used; signal_limit := context_limit (tracker s);
               signal_forced := true; signal_messages := request_messages; signal_plan := [] |}.

(** The record of a dispatch, by the regular and by the forced path. *)
Definition finish_emission (version : Z) (is_forced dispatched : bool) (now : Z) s : ConversationSession Message :=
  let s := session_mark_emitted version s in
  if dispatched then begin_flight version is_forced now (on_tracker (reset_no_taker CONVERSATION_CONTEXT_ID) s)
  else
    let s := if is_forced then s else clear_pending_compaction s in
    (record_compression_no_taker s).1.

(** * The consumer side: conversation_compression.rs *)

Record Completion : Type := {
  completion_version : Z;
  completion_messages : list Message;
  tail_keep : nat;
  still_over_budget : bool;
  completion_blocks : list BlockOutcome;
}.
Definition apply_compression (now : Z) (m : Completion) s : ConversationSession Message * bool :=
  if negb (check_anchor (conversation_version s) (completion_version m)) then (s, false)
  else
    let s :=
      match completion_blocks m with
      | [] =>
          compress_with_tail message_id estimate_message_tokens estimate_messages is_system now (completion_messages m) (tail_keep m) s
      | outcomes =>
          apply_compaction_result message_id estimate_message_tokens estimate_messages is_system contents metadata set_metadata now
            (completion_messages m) outcomes limits s
      end in
    ((end_flight (completion_version m) s).1, true).
Definition on_completed (now : Z) (m : Completion) s : ConversationSession Message :=
  let '(s, applied) := apply_compression now m s in
  if negb applied then (end_flight (completion_version m) s).1
  else if still_over_budget m then
    let s := session_mark_emitted (conversation_version s) s in
    if bool_decide (completion_blocks m ≠ []) && bool_decide (mode (compaction (conv s)) = Normal)
    then mark_handoff_requested s
    else (record_over_budget s).1
  else on_tracker (reset_still_over_budget CONVERSATION_CONTEXT_ID) s.
(** A failure and a discard event: the pending plan goes, whatever its version. *)
Definition on_failed (version : Z) s : ConversationSession Message := (end_flight version (clear_pending_compaction s)).1.
Definition on_discarded : Z → ConversationSession Message → ConversationSession Message := on_failed.
Definition apply_versioned_writeback (now anchor_version : Z) (operation : WritebackOp) (ms : list Message) s : ConversationSession Message :=
  if negb (check_anchor (conversation_version s) anchor_version) then s
  else match operation with Append => add_messages message_id estimate_message_tokens now ms s end.
Definition on_writeback (now anchor_version : Z) (operation : string) (ms : list Message) s : ConversationSession Message :=
  match from_operation_name operation with
  | Some op => apply_versioned_writeback now anchor_version op ms s
  | None => s
  end.

(** * The protocol

    The loop, the consumer and the rest of the program take turns on the session.
    The log keeps the history each signal was sent for. *)

Inductive ProtocolOp : Type :=
| PSession (o : SessionOp (Message := Message))
| PSettle (now prompt_est completion_est : Z) (usage : option RequestUsage) (request_id : string) (bus : bool) (threshold : f64)
| PForced (tokens_used : Z) (request_messages : list Message)
| PDispatched (dispatched : bool) (now : Z)
| PCompleted (now : Z) (m : Completion)
| PFailed (version : Z)
| PWriteback (now anchor_version : Z) (operation : string) (ms : list Message).
Record Protocol : Type := {
  session : ConversationSession Message;
  emitting : option (Z * bool);
  log : list (Signal * list Message);
}.
Implicit Types p : Protocol.
Definition with_session (s : ConversationSession Message) p : Protocol := {| session := s; emitting := emitting p; log := log p |}.
(** A settlement that hands out a signal. *)
Definition hand_out (s : ConversationSession Message) (r : Settlement) p : Protocol :=
  match r with
  | Emit sg => {| session := s; emitting := Some (signal_version sg, signal_forced sg); log := log p ++ [(sg, messages (conv s))] |}
  | _ => with_session s p
  end.
(** The guard of an emission is only written by the protocol itself. *)
Definition session_step (o : SessionOp (Message := Message)) s : ConversationSession Message :=
  match o with
  | OpEmitted _ => s
  | _ => run_session_op message_id estimate_message_tokens estimate_messages is_system contents metadata set_metadata s o
  end.
Definition run_protocol_op p (o : ProtocolOp) : Protocol :=
  match o with
  | PSession o => with_session (session_step o (session p)) p
  | PSettle now prompt completion usage id bus threshold =>
      match emitting p with
      | Some _ => p
      | None =>
          let '(s, _, r) := record_usage_and_compression now prompt completion usage id bus threshold (session p) in hand_out s r p
      end
  | PForced used ms =>
      match emitting p with Some _ => p | None => hand_out (session p) (forced_signal used ms (session p)) p end
  | PDispatched dispatched now =>
      match emitting p with
      | Some (v, is_forced) => {| session := finish_emission v is_forced dispatched now (session p); emitting := None; log := log p |}
      | None => p
      end
  | PCompleted now m => with_session (on_completed now m (session p)) p
  | PFailed v => with_session (on_failed v (session p)) p
  | PWriteback now v op ms => with_session (on_writeback now v op ms (session p)) p
  end.
Definition run_protocol (os : list ProtocolOp) p : Protocol := foldl run_protocol_op p os.
Definition start_protocol (limit : Z) : Protocol := {| session := with_token_limit limit; emitting := None; log := [] |}.

(** * Versions and histories *)

Implicit Types st : ConversationState Message.
Definition state_version st : Z := ledger_version (token_ledger st) CONVERSATION_CONTEXT_ID.
Definition state_emitted st : option Z := token_ledger st !! CONVERSATION_CONTEXT_ID ≫= last_emitted_version.
(** A step of the conversation keeps version and history, or moves on to a newer
    version; the guard of emissions is left alone. *)
Definition moves st st' : Prop :=
  (state_version st ≤ u64_max)%Z → (state_version st' ≤ u64_max)%Z ∧ state_emitted st' = state_emitted st ∧
  ((state_version st' = state_version st ∧ messages st' = messages st) ∨
   (state_version st' = u64_max ∨ state_version st < state_version st')%Z).
Definition advances st st' : Prop :=
  (state_version st ≤ u64_max)%Z → (state_version st' ≤ u64_max)%Z ∧ state_emitted st' = state_emitted st ∧
  (state_version st' = u64_max ∨ state_version st < state_version st')%Z.

Lemma moves_same st st' :
  state_version st' = state_version st → state_emitted st' = state_emitted st → messages st' = messages st → moves st st'.
Proof. intros H1 H2 H3 Hv. split; [lia|]. split; [done|]. by left. Qed.
Lemma moves_trans st st' st'' : moves st st' → moves st' st'' → moves st st''.
Proof.
  intros H1 H2 Hv. destruct (H1 Hv) as (B1 & E1 & C1). destruct (H2 B1) as (B2 & E2 & C2). split; [done|]. split; [congruence|].
  destruct C1 as [[V1 M1]|C1], C2 as [[V2 M2]|C2]; [left; split; congruence|right; lia..].
Qed.
Lemma advances_moves st st' : advances st st' → moves st st'.
Proof. intros H Hv. destruct (H Hv) as (B & E & C). split; [done|]. split; [done|]. by right. Qed.
(** What follows an advance may do what it likes to the history. *)
Lemma advances_then st st' st'' :
  advances st st' → state_version st'' = state_version st' → state_emitted st'' = state_emitted st' → advances st st''.
Proof. intros H E1 E2 Hv. destruct (H Hv) as (B & E & C). rewrite E1, E2. done. Qed.

#[local] Notation add_state := (add_message_state message_id estimate_message_tokens).
Lemma add_state_advances now m st : advances st (add_state now m st).
Proof.
  intros Hv. unfold state_version, state_emitted, ledger_version in *. cbn. unfold append, with_entry. rewrite lookup_insert_eq.
  destruct (token_ledger st !! CONVERSATION_CONTEXT_ID) as [e|]; cbn in *; split_and!; try done; mlia.
Qed.
Lemma add_states_advances now ms st : ms ≠ [] → advances st (add_states message_id estimate_message_tokens now ms st).
Proof.
  intros Hne. destruct ms as [|m ms]; [done|]. clear Hne. revert m st. induction ms as [|m' ms IH]; intros m st; [apply add_state_advances|].
  intros Hv. destruct (add_state_advances now m st Hv) as (B & E & C). destruct (IH m' (add_state now m st) B) as (B' & E' & C').
  change (add_states message_id estimate_message_tokens now (m' :: ms) (add_state now m st))
    with (add_states message_id estimate_message_tokens now (m :: m' :: ms) st) in *. split; [done|]. split; [congruence|]. lia.
Qed.
Lemma add_states_moves now ms st : moves st (add_states message_id estimate_message_tokens now ms st).
Proof. destruct ms; [by apply moves_same|]. by apply advances_moves, add_states_advances. Qed.

(** ** The operations *)

Lemma settle_plan_ledger now os l st :
  token_ledger (settle_plan message_id estimate_message_tokens estimate_messages is_system contents metadata set_metadata now os l st)
    = token_ledger st.
Proof.
  unfold settle_plan. cbv zeta. cbn. assert (Hgen : ∀ pending st, token_ledger (foldl (settle_outcome message_id estimate_message_tokens
    contents metadata set_metadata now l pending) st os) = token_ledger st); [|by rewrite Hgen].
  intros pending. induction os as [|o os IH]; intros st'; [done|]. cbn [foldl]. rewrite IH. unfold settle_outcome.
  destruct (negb _); [done|]. destruct (active_block _ _); [|done]. cbv zeta. by case_decide.
Qed.
Lemma compress_moves now ms n s :
  moves (conv s) (conv (compress_with_tail message_id estimate_message_tokens estimate_messages is_system now ms n s)).
Proof.
  unfold compress_with_tail. destruct ms as [|m ms]; [by apply moves_same|]. cbv zeta. set (s1 := add_messages _ _ _ _ _).
  pose proof (proj1 (add_messages_conv message_id estimate_message_tokens now (m :: ms) s)) as E. fold s1 in E.
  apply advances_moves. eapply advances_then; [by apply (add_states_advances now (m :: ms))|by rewrite <-E..].
Qed.
Lemma apply_result_moves now ms os l s :
  moves (conv s) (conv (apply_compaction_result message_id estimate_message_tokens estimate_messages is_system contents metadata set_metadata
    now ms os l s)).
Proof.
  unfold apply_compaction_result. destruct ms as [|m ms]; [by apply moves_same|]. cbv zeta. set (s0 := on_conv _ s). set (s1 := add_messages _ _ _ _ _).
  pose proof (proj1 (add_messages_conv message_id estimate_message_tokens now (m :: ms) s0)) as E. fold s1 in E.
  apply advances_moves. eapply (advances_then (conv s0)); [by apply (add_states_advances now (m :: ms))|..];
    cbn [on_tracker on_conv conv]; unfold state_version, state_emitted; by rewrite settle_plan_ledger, E.
Qed.
Lemma mark_emitted_version v st st' :
  token_ledger st' = mark_emitted CONVERSATION_CONTEXT_ID v (token_ledger st) →
  state_version st' = state_version st ∧ state_emitted st' = Some v.
Proof.
  unfold state_version, state_emitted, ledger_version, mark_emitted, with_entry. intros ->. rewrite lookup_insert_eq. cbn.
  by destruct (token_ledger st !! CONVERSATION_CONTEXT_ID).
Qed.
Lemma recompute_moves n k st : moves st (on_token_ledger (recompute CONVERSATION_CONTEXT_ID n k) st).
Proof.
  unfold moves, state_version, state_emitted, ledger_version, recompute, with_entry. cbn. rewrite lookup_insert_eq. cbn.
  destruct (token_ledger st !! CONVERSATION_CONTEXT_ID); cbn; intros; (split; [lia|]); (split; [done|]); by left.
Qed.

Lemma session_step_moves o s : moves (conv s) (conv (session_step o s)).
Proof.
  destruct o as [now m|now ms n| | |b| | |now ms os l|now d index reason note n|n| | | | | |];
    cbn [session_step run_session_op]; try (by apply moves_same).
  - apply (add_states_moves now [m]).
  - apply compress_moves.
  - by destruct b; apply moves_same.
  - apply apply_result_moves.
  - apply advances_moves. by eapply advances_then; [apply (add_states_advances now [d])|..].
  - unfold drop_oldest_active_block. by destruct (list_find _ _) as [[k b]|]; apply moves_same.
  - unfold estimated_conversation_tokens. cbn [snd]. destruct (is_dirty _ _); [apply recompute_moves|by apply moves_same].
Qed.
Lemma on_failed_moves v s : moves (conv s) (conv (on_failed v s)).
Proof. by apply moves_same. Qed.
Lemma on_writeback_moves now v op ms s : moves (conv s) (conv (on_writeback now v op ms s)).
Proof.
  unfold on_writeback, apply_versioned_writeback. destruct (from_operation_name op) as [[]|]; [|by apply moves_same].
  destruct (negb _); [by apply moves_same|]. rewrite (proj1 (add_messages_conv message_id estimate_message_tokens now ms s)). apply add_states_moves.
Qed.
Lemma apply_compression_moves now m s :
  moves (conv s) (conv (apply_compression now m s).1).
Proof.
  unfold apply_compression. destruct (negb _); [by apply moves_same|]. cbn [fst].
  destruct (completion_blocks m); [apply compress_moves|apply apply_result_moves].
Qed.
(** Settlements leave history and versions where they are, and a signal is for the
    version at hand, not yet signalled. *)
Definition settles_at s (r : ConversationSession Message * Settlement) : Prop :=
  token_ledger (conv r.1) = token_ledger (conv s) ∧ messages (conv r.1) = messages (conv s) ∧
  match r.2 with
  | Emit sg => signal_version sg = conversation_version r.1 ∧ session_should_emit r.1 (signal_version sg) = true
  | _ => True
  end.
Lemma settles_at_from s s' r :
  token_ledger (conv s') = token_ledger (conv s) → messages (conv s') = messages (conv s) → settles_at s' r → settles_at s r.
Proof. intros H1 H2 (H3 & H4 & H5). split; [congruence|]. split; [congruence|done]. Qed.
Lemma emit_plan_settles hot estimated limit aggressive s : settles_at s (emit_plan hot estimated limit aggressive s).
Proof.
  unfold emit_plan. destruct (_ && _); [done|]. destruct (_ && _ && _); [done|].
  destruct (session_should_emit s (conversation_version s)) eqn:E; [|done]. split; [done|]. split; [done|]. split; [done|exact E].
Qed.
Lemma decision_settles now estimated limit prompt s : settles_at s (record_compaction_decision now estimated limit prompt s).
Proof.
  unfold record_compaction_decision, take_handoff_requested. destruct (handoff_requested _); [done|]. set (s1 := refresh_hot_estimate _ _ _ _).
  apply (settles_at_from s s1); [done..|]. clearbody s1. destruct (session_decide_compaction _ _ _) as [|aggressive|reason|]; [done| |done|].
  - destruct (session_flight s1) as [f|]; [|apply emit_plan_settles]. destruct (flight_expired _ _ _); [|done].
    eapply settles_at_from; [..|apply emit_plan_settles]; done.
  - unfold drop_oldest_active_block. by destruct (list_find _ _) as [[k b]|].
Qed.
Lemma settle_settles now prompt completion usage id bus threshold s :
  let r := record_usage_and_compression now prompt completion usage id bus threshold s in settles_at s (r.1.1, r.2).
Proof.
  cbv zeta. unfold record_usage_and_compression. set (s0 := record_usage _ _ _ _ _ s).
  apply (settles_at_from s s0); [by unfold s0, record_usage; destruct usage..|]. clearbody s0. destruct bus; [|done]. cbn [negb].
  destruct (report_usage threshold s0) as [s1 events] eqn:E. assert (H1 : conv s1 = conv s0).
  { unfold report_usage in E. case_decide; [|by injection E as <-]. destruct (consume_warning _ _) as [t w].
    destruct (consume_limit_exceeded_tier t) as [t' tier]. by injection E as <-. }
  apply (settles_at_from s0 s1); [by rewrite H1..|]. unfold settle_usage.
  case_decide; [done|]. case_decide; [done|].
  pose proof (decision_settles now (session_calibrated s1 (sat_add u64_max (estimated_view_tokens s1) (dynamic_request_overhead prompt (estimated_view_tokens s1))))
    (context_limit (tracker s1)) prompt s1) as Hdec. destruct (record_compaction_decision _ _ _ _ _) as [s2 r]. exact Hdec.
Qed.
Lemma forced_settles used ms s : settles_at s (s, forced_signal used ms s).
Proof. unfold forced_signal, settles_at. cbn. destruct (session_should_emit s (conversation_version s)) eqn:E; cbn; [|done]. by repeat split. Qed.
Lemma on_completed_moves now m s :
  let s1 := (apply_compression now m s).1 in
  moves (conv s) (conv s1) ∧ messages (conv (on_completed now m s)) = messages (conv s1) ∧
  (token_ledger (conv (on_completed now m s)) = token_ledger (conv s1) ∨
   token_ledger (conv (on_completed now m s)) = mark_emitted CONVERSATION_CONTEXT_ID (state_version (conv s1)) (token_ledger (conv s1))).
Proof.
  cbv zeta. split; [apply apply_compression_moves|]. unfold on_completed. destruct (apply_compression now m s) as [s1 applied]. cbn [fst].
  destruct applied; [|by split; [|left]]. cbn [negb]. destruct (still_over_budget m); [|by split; [|left]].
  destruct (_ && _); (split; [done|]); by right.
Qed.

(** ** The invariant *)

Definition version_of p : Z := state_version (conv (session p)).
Definition log_versions p : list Z := signal_version <$> (log p).*1.
(** Below the saturation of the counter: signals are for different versions, none
    newer than the session; one for the present version was sent for the present
    history, and is guarded. *)
Record log_ok p : Prop := {
  log_le : Forall (λ e : Signal * list Message, signal_version e.1 ≤ version_of p)%Z (log p);
  log_history : Forall (λ e, signal_version e.1 = version_of p → messages (conv (session p)) = e.2) (log p);
  log_guard : version_of p ∈ log_versions p →
    state_emitted (conv (session p)) = Some (version_of p) ∨ ∃ b, emitting p = Some (version_of p, b);
  log_emitting : ∀ v b, emitting p = Some (v, b) → (v ≤ version_of p)%Z ∧ Forall (λ e : Signal * list Message, signal_version e.1 ≤ v)%Z (log p);
  log_NoDup : NoDup (log_versions p);
}.
Definition protocol_ok p : Prop := (version_of p ≤ u64_max)%Z ∧ ((version_of p < u64_max)%Z → log_ok p).

Lemma elem_of_log_versions v p : v ∈ log_versions p ↔ ∃ e, e ∈ log p ∧ signal_version e.1 = v.
Proof.
  unfold log_versions. rewrite <-list_fmap_compose. rewrite list_elem_of_fmap. split; intros (e & H1 & H2); by exists e.
Qed.
Lemma with_session_ok s p : protocol_ok p → moves (conv (session p)) (conv s) → protocol_ok (with_session s p).
Proof.
  intros [Hb Hok] Hm. destruct (Hm Hb) as (Hb' & He & Hc). split; [done|]. intros Hlt. unfold version_of in Hlt. cbn in Hlt.
  destruct Hok as [H1 H2 H3 H4 H5]; [unfold version_of in *; lia|]. unfold version_of in *. destruct Hc as [[Hv Hms]|Hadv].
  - split; unfold version_of; cbn; rewrite ?Hv, ?Hms, ?He; done.
  - assert (Hnew : (state_version (conv (session p)) < state_version (conv s))%Z) by lia. split; unfold version_of; cbn.
    + eapply Forall_impl; [exact H1|]. cbn. lia.
    + rewrite Forall_forall in H1. apply Forall_forall. intros e Hin Hv. specialize (H1 e Hin). lia.
    + intros (e & Hin & Hv)%elem_of_log_versions. rewrite Forall_forall in H1. specialize (H1 e Hin). lia.
    + intros v b Hvb. destruct (H4 v b Hvb). split; [lia|done].
    + done.
Qed.
(** The guard for the present version. *)
Lemma mark_present_ok s p :
  protocol_ok p → token_ledger (conv s) = mark_emitted CONVERSATION_CONTEXT_ID (version_of p) (token_ledger (conv (session p))) →
  messages (conv s) = messages (conv (session p)) → protocol_ok (with_session s p).
Proof.
  intros [Hb Hok] Hl Hms. destruct (mark_emitted_version (version_of p) (conv (session p)) (conv s) Hl) as [Ev Ee].
  change (state_version (conv s) = version_of p) in Ev.
  split; [unfold version_of; cbn; by rewrite Ev|]. unfold version_of. cbn. rewrite Ev. intros Hlt. destruct (Hok Hlt) as [H1 H2 H3 H4 H5].
  split; unfold version_of; cbn; rewrite ?Ev, ?Hms; try done. by left.
Qed.
Lemma hand_out_ok s r p : protocol_ok p → emitting p = None → settles_at (session p) (s, r) → protocol_ok (hand_out s r p).
Proof.
  intros Hp Hnone (Hl & Hms & Hr). cbn [fst snd] in *.
  assert (Ev : state_version (conv s) = version_of p) by (unfold version_of, state_version; by rewrite Hl).
  assert (Ee : state_emitted (conv s) = state_emitted (conv (session p))) by (unfold state_emitted; by rewrite Hl).
  destruct r as [| |sg]; [by apply with_session_ok, moves_same..|]. destruct Hr as [Hv Hemit]. change (conversation_version s) with (state_version (conv s)) in Hv.
  destruct Hp as [Hb Hok]. split; [unfold version_of; cbn; by rewrite Ev|]. unfold version_of. cbn. rewrite Ev. intros Hlt.
  destruct (Hok Hlt) as [H1 H2 H3 H4 H5]. assert (Hfresh : version_of p ∉ log_versions p).
  { intros Hin. destruct (H3 Hin) as [Hem|[b Hb']]; [|by rewrite Hnone in Hb']. unfold session_should_emit, should_emit in Hemit.
    rewrite <-Ee in Hem. unfold state_emitted in Hem. destruct (token_ledger (conv s) !! CONVERSATION_CONTEXT_ID) as [e|]; [|done]. cbn in Hem.
    apply bool_decide_eq_true in Hemit. congruence. }
  split; unfold version_of; cbn; rewrite ?Ev.
  - apply Forall_app. split; [done|]. constructor; [cbn; lia|done].
  - apply Forall_app. split; [by rewrite Hms|]. by constructor.
  - intros _. right. exists (signal_forced sg). by rewrite Hv, Ev.
  - intros v b [= <- <-]. split; [lia|]. apply Forall_app. split; [|by constructor]. by rewrite Hv, Ev.
  - unfold log_versions in *. cbn. rewrite !fmap_app. apply NoDup_app. split; [done|]. split; [|apply NoDup_singleton].
    cbn. rewrite Hv, Ev. intros x Hx ->%list_elem_of_singleton. done.
Qed.
Lemma finish_ok v b dispatched now p :
  protocol_ok p → emitting p = Some (v, b) →
  protocol_ok {| session := finish_emission v b dispatched now (session p); emitting := None; log := log p |}.
Proof.
  intros [Hb Hok] He. assert (Hl : token_ledger (conv (finish_emission v b dispatched now (session p))) = mark_emitted CONVERSATION_CONTEXT_ID v (token_ledger (conv (session p))))
    by (unfold finish_emission; by destruct dispatched, b).
  assert (Hms : messages (conv (finish_emission v b dispatched now (session p))) = messages (conv (session p))) by (unfold finish_emission; by destruct dispatched, b).
  set (s := finish_emission _ _ _ _ _) in *. clearbody s. destruct (mark_emitted_version v (conv (session p)) (conv s) Hl) as [Ev Ee].
  change (state_version (conv s) = version_of p) in Ev.
  split; [unfold version_of; cbn; by rewrite Ev|]. unfold version_of. cbn. rewrite Ev. intros Hlt. destruct (Hok Hlt) as [H1 H2 H3 H4 H5].
  split; unfold version_of; cbn; rewrite ?Ev, ?Hms; try done.
  intros Hin. left. rewrite Ee. destruct (H4 v b He) as [Hle Hall].
  apply elem_of_log_versions in Hin as (e & Hin & Hv). cbn in Hin. rewrite Forall_forall in Hall. specialize (Hall e Hin). f_equal. lia.
Qed.
Lemma run_protocol_op_ok o p : protocol_ok p → protocol_ok (run_protocol_op p o).
Proof.
  intros Hp. destruct o as [o|now prompt completion usage id bus threshold|used ms|dispatched now|now m|v|now v op ms]; cbn [run_protocol_op].
  - apply with_session_ok; [done|apply session_step_moves].
  - destruct (emitting p) eqn:E; [done|].
    pose proof (settle_settles now prompt completion usage id bus threshold (session p)) as H. cbv zeta in H.
    destruct (record_usage_and_compression _ _ _ _ _ _ _ _) as [[s events] r]. by apply hand_out_ok.
  - destruct (emitting p) eqn:E; [done|]. apply hand_out_ok; [done|done|apply forced_settles].
  - destruct (emitting p) as [[v b]|] eqn:E; [|done]. by apply finish_ok.
  - destruct (on_completed_moves now m (session p)) as (Hm & Hms & Hl). set (s1 := (apply_compression now m (session p)).1) in *.
    assert (H1 : protocol_ok (with_session s1 p)) by (by apply with_session_ok). destruct Hl as [Hl|Hl].
    + change (with_session (on_completed now m (session p)) p) with (with_session (on_completed now m (session p)) (with_session s1 p)).
      apply with_session_ok; [done|]. apply moves_same; [unfold state_version; by rewrite Hl|unfold state_emitted; by rewrite Hl|done].
    + change (with_session (on_completed now m (session p)) p) with (with_session (on_completed now m (session p)) (with_session s1 p)).
      by apply mark_present_ok.
  - apply with_session_ok; [done|apply on_failed_moves].
  - apply with_session_ok; [done|apply on_writeback_moves].
Qed.
Lemma run_protocol_ok os p : protocol_ok p → protocol_ok (run_protocol os p).
Proof. revert p. induction os as [|o os IH]; intros p Hp; [done|]. cbn [run_protocol foldl]. apply IH. by apply run_protocol_op_ok. Qed.
Lemma start_protocol_ok limit : protocol_ok (start_protocol limit).
Proof. split; [by vm_compute|]. intros _. split; cbn; try done; [by intros ?%elem_of_nil|constructor]. Qed.

(** C26: however the loop, the summary service, failures and other writers interleave, a compression result is
    applied only to the very history its signal was sent for: if it passes the anchor check, no
    message was appended, replaced or dropped since. *)
Theorem result_applies_to_signalled_history (os : list ProtocolOp) (limit now : Z) (m : Completion) (sg : Signal) (h : list Message) :
  let p := run_protocol os (start_protocol limit) in
  (conversation_version (session p) < u64_max)%Z → (sg, h) ∈ log p → signal_version sg = completion_version m →
  (apply_compression now m (session p)).2 = true → messages (conv (session p)) = h.
Proof.
  cbv zeta. intros Hlt Hin Hv Happ. destruct (run_protocol_ok os _ (start_protocol_ok limit)) as [_ Hok]. destruct (Hok Hlt) as [_ H _ _ _].
  rewrite Forall_forall in H. apply (H (sg, h) Hin). cbn. rewrite Hv. unfold apply_compression, check_anchor in Happ.
  destruct (bool_decide _) eqn:E; [|done]. by apply bool_decide_eq_true in E.
Qed.

(** The loop signals at most once per version of the conversation, under every interleaving of settlements,
    forced signals, completions, failures and late records of a dispatch. *)
Theorem one_signal_per_version (os : list ProtocolOp) (limit : Z) :
  let p := run_protocol os (start_protocol limit) in
  (conversation_version (session p) < u64_max)%Z →
  NoDup (signal_version <$> (log p).*1) ∧ Forall (λ sg, signal_version sg ≤ conversation_version (session p))%Z (log p).*1.
Proof.
  cbv zeta. intros Hlt. destruct (run_protocol_ok os _ (start_protocol_ok limit)) as [_ Hok]. destruct (Hok Hlt) as [Hle _ _ _ Hnd].
  split; [exact Hnd|]. by apply Forall_fmap.
Qed.
End driver.

(** * Concrete runs *)

(** A chat under the protocol, with the limits of [small_limits]. *)
Definition chat_run (os : list (ProtocolOp (Message := string * Z))) : Protocol (Message := string * Z) :=
  run_protocol fst snd chat_total (λ _, false) (λ m, inl m.1) no_metadata (λ _ m, m) ∅ small_limits 60000 os (start_protocol 0).
Definition opening : list (ProtocolOp (Message := string * Z)) :=
  PSession <$> ([OpTracker (set_context_limit 340); OpWindow 400 small_limits] ++ adds two_turns ++ adds [("u3", 60%Z)]).
Definition settle_now (now : Z) : ProtocolOp (Message := string * Z) := PSettle now 0 0 None "r" true (f64_of_Z 80).
Definition summary_of (version : Z) (block summary : string) : Completion (Message := string * Z) :=
  {| completion_version := version; completion_messages := [(summary, 15%Z)]; tail_keep := 0; still_over_budget := false;
     completion_blocks := [outcome block summary] |}.
Definition signalled (p : Protocol (Message := string * Z)) : list Z := signal_version <$> (log p).*1.
Definition flight_of (p : Protocol (Message := string * Z)) : option Z := flight_version <$> compression_flight (tracker (session p)) CONVERSATION_CONTEXT_ID.
Definition adding (l : list (string * Z)) : list (ProtocolOp (Message := string * Z)) := PSession <$> adds l.

(** The failure of an older run clears the pending plan of a newer one: the flight
    of version 7 has expired, version 9 is signalled and in flight when the failure
    of 7 comes in. *)
Example late_failure_clears_newer_plan :
  let run os := chat_run (opening ++ [settle_now 0; PDispatched true 0] ++ adding [("a3", 40%Z); ("u4", 30%Z)] ++
    [settle_now 70000; PDispatched true 70000] ++ os) in
  signalled (run []) = [7%Z; 9%Z] ∧ List.length (pending_plan (compaction (conv (session (run []))))) = 2 ∧
  flight_of (run [PFailed 7]) = Some 9%Z ∧ pending_plan (compaction (conv (session (run [PFailed 7])))) = [] ∧
  chat_view (session (run [PFailed 7; PCompleted 71000 (summary_of 9 "b0000" "s")])) = ["s"; "u3"; "a3"; "u4"].
Proof. vm_compute. by repeat split. Qed.

(** A completion that arrives before its dispatch is recorded finds no flight to
    end; the record then anchors a flight nobody ends, and the next compaction
    waits for it to expire. *)
Example completion_before_record_blocks_next :
  let next := adding [("a3", 100%Z); ("u4", 100%Z)] ++ [settle_now 1000] in
  let done := PCompleted 0 (summary_of 7 "b0000" "s") in
  let in_order := chat_run (opening ++ [settle_now 0; PDispatched true 0; done] ++ next) in
  let late := chat_run (opening ++ [settle_now 0; done; PDispatched true 0] ++ next) in
  signalled in_order = [7%Z; 10%Z] ∧ flight_of in_order = None ∧ signalled late = [7%Z] ∧ flight_of late = Some 7%Z.
Proof. vm_compute. by repeat split. Qed.

(** A clock that steps back expires every flight. *)
Example flight_expires_on_clock_step : flight_expired 100 99 60000 = true.
Proof. vm_compute. reflexivity. Qed.

Lemma result_applies_to_signalled_history_witness :
  let p := chat_run (opening ++ [settle_now 0; PDispatched true 0]) in
  signalled p = [7%Z] ∧ ∀ sg h, (sg, h) ∈ log p → signal_version sg = 7%Z → messages (conv (session p)) = h.
Proof.
  cbv zeta. unfold chat_run. split; [vm_compute; reflexivity|]. intros sg h Hin Hv.
  pose proof (result_applies_to_signalled_history fst snd chat_total (λ _, false) (λ m, inl m.1) no_metadata (λ _ m, m) ∅ small_limits 60000
    (opening ++ [settle_now 0; PDispatched true 0]) 0 1 (summary_of 7 "b0000" "s") sg h) as H. cbv zeta in H.
  apply H; [vm_compute; reflexivity|exact Hin|exact Hv|vm_compute; reflexivity].
Defined.
Lemma one_signal_per_version_witness :
  let p := chat_run (opening ++ [settle_now 0; PDispatched true 0; settle_now 1; PCompleted 1 (summary_of 7 "b0000" "s")] ++
    adding [("a3", 100%Z); ("u4", 100%Z)] ++ [settle_now 1000]) in
  signalled p = [7%Z; 10%Z] ∧ NoDup (signalled p).
Proof.
  cbv zeta. split; [vm_compute; reflexivity|]. unfold signalled, chat_run.
  pose proof (one_signal_per_version fst snd chat_total (λ _, false) (λ m, inl m.1) no_metadata (λ _ m, m) ∅ small_limits 60000
    (opening ++ [settle_now 0; PDispatched true 0; settle_now 1; PCompleted 1 (summary_of 7 "b0000" "s")] ++
      adding [("a3", 100%Z); ("u4", 100%Z)] ++ [settle_now 1000]) 0) as H. cbv zeta in H.
  apply H. vm_compute. reflexivity.
Defined.
