(* ===== verification/CompressionService.v ===== *)
(** The summary service that serves compression signals:
    wf-runtime/src/trigger_listener/compression/pipeline.rs, with its policy and
    the write-back of write_back.rs.

    A sub-workflow run is the answer of a runner to the number of the attempt, the
    workflow and its input; the registry of workflow contexts, which agent
    conversations do not use, answers a write-back.  Hooks, tasks, the ledger and
    the event bus are outside. *)

From S2P Require Import Prelude Strings Json Numbers MessageContext TokenTracker Compaction CompactionFacts Session SessionFacts CompactionDriver.

(** * Policy and claims *)

(** wf-types/src/workflow *)
Inductive CompressionFallbackMode : Type := FallbackFail | PartialSummary.
#[export] Instance CompressionFallbackMode_eq_dec : EqDecision CompressionFallbackMode.
Proof. solve_decision. Defined.
Record CompressionPolicy : Type := {
  policy_tail_keep : nat;
  max_retries : Z;
  run_timeout_ms : Z;
  fallback : CompressionFallbackMode;
}.
Definition COMPRESSION_HANDLED_CAPACITY : nat := 1024.
Definition COMPRESSION_RETRY_BASE_DELAY_MS : Z := 1000.
Definition SUMMARY_INPUT_HEADROOM_NUM : Z := 9.
Definition SUMMARY_INPUT_HEADROOM_DEN : Z := 10.

Record CompressionAttempt : Type := { attempt_version : Z; claimed_at : Z }.
Definition claim_key (execution_id target : string) (version : Z) : string :=
  execution_id +:+ ":" +:+ target +:+ ":" +:+ show_nat version.

Section claims.
  (** The iteration order of the table. *)
  Context (iterate : gmap string CompressionAttempt → list (string * CompressionAttempt)).
  Implicit Types handled : gmap string CompressionAttempt.

(** [evict_overflow]: the 256 oldest claims but the newest one. *)
Definition evict_overflow (keep : string) handled : gmap string CompressionAttempt :=
  if decide (size handled ≤ COMPRESSION_HANDLED_CAPACITY) then handled
  else
    let candidates := filter (λ e, e.1 ≠ keep) (iterate handled) in
    foldl (λ h e, delete e.1 h) handled (take 256 (sort_by_key (λ e, claimed_at e.2) candidates)).
(** The claim of [spawn]; [None] when the signal is already served. *)
Definition claim_run (key : string) (version now : Z) handled : option (gmap string CompressionAttempt) :=
  match handled !! key with
  | Some _ => None
  | None => Some (evict_overflow key (<[key := {| attempt_version := version; claimed_at := now |}]> handled))
  end.
(** [HandledGuard::drop] *)
Definition release_claim (key : string) (expected_version : Z) handled : gmap string CompressionAttempt :=
  match handled !! key with
  | Some a => if decide (attempt_version a = expected_version) then delete key handled else handled
  | None => handled
  end.
End claims.

(** * Runs *)

Section service.
  Context {Message : Type} (message_id : Message → string) (estimate_message_tokens : Message → Z)
    (estimate_messages : list Message → Z) (system_text : string → Message).

(** [trim_messages_to_budget]: how many of the oldest messages go. *)
Fixpoint trim_count (costs : list Z) (budget total : Z) (left min_keep : nat) : nat :=
  match costs with
  | [] => 0
  | c :: costs' =>
      if decide (min_keep < left ∧ (budget < total)%Z) then S (trim_count costs' budget (sat_sub total c) (left - 1) min_keep) else 0
  end.
Definition total_cost (costs : list Z) : Z := foldl (λ acc c, sat_add u64_max acc c) 0%Z costs.
Definition trim_messages_to_budget (ms : list Message) (budget_tokens : Z) (min_keep : nat) : list Message :=
  match ms with
  | [] => []
  | _ =>
      let min_keep := Nat.min (Nat.max min_keep 1) (List.length ms) in
      let costs := estimate_message_tokens <$> ms in
      drop (trim_count costs budget_tokens (total_cost costs) (List.length ms) min_keep) ms
  end.
Definition build_degraded_notice (error : string) (dropped : nat) : Message :=
  system_text ("[context compression notice] Automatic history compression failed (" +:+ String.concat "" (take 160 (chars error)) +:+
    "): the " +:+ show_nat (Z.of_nat dropped) +:+ " oldest message(s) were dropped without a summary. The messages below are " +:+
    "the retained recent window; earlier context is unavailable.").

Record CompressionRequest : Type := {
  request_execution : string;
  request_target : string;
  request_limit : Z;
  request_version : Z;
  request_depth : Z;
  request_messages : list Message;
  request_plan : list CompactionPlanItem;
  request_loop : option string;
}.

(** The work of a request: the blocks, the depth and the messages of each run. *)
Record WorkItem : Type := { covered_ids : list string; work_depth : Z; work_slice : list Message }.
Definition summary_input (p : CompressionPolicy) (r : CompressionRequest) : list Message :=
  if decide (0 < request_limit r)%Z
  then trim_messages_to_budget (request_messages r) (wrap64 (request_limit r * SUMMARY_INPUT_HEADROOM_NUM) / SUMMARY_INPUT_HEADROOM_DEN)
         (policy_tail_keep p)
  else request_messages r.
Definition work_item (snapshot : list Message) (i : CompactionPlanItem) : option WorkItem :=
  (λ se : nat * nat, {| covered_ids := item_block i :: extra_block_ids i; work_depth := depth i;
                        work_slice := take (se.2 - se.1) (drop se.1 snapshot) |}) <$> clamped_range i (List.length snapshot).
Definition work_items (snapshot : list Message) (plan : list CompactionPlanItem) : list WorkItem :=
  match plan with
  | [] => [{| covered_ids := []; work_depth := 0; work_slice := snapshot |}]
  | _ => omap (work_item snapshot) plan
  end.

(** The answer to one run of the summary workflow; text that is no array of
    messages answers with none. *)
Inductive RunResult : Type :=
| RunMessages (ms : list Message)
| RunError (error : string)
| RunElapsed
| RunShutdown.
Inductive ChainStatus : Type :=
| ChainCompleted
| ChainExpired (detail : string)
| ChainFailed (error : string)
| ChainAborted.
Definition failed_run (p : CompressionPolicy) (r : RunResult) : option string :=
  match r with
  | RunMessages [] => Some "compression sub-workflow returned no messages"
  | RunError e => Some e
  | RunElapsed => Some ("compression summary run timed out after " +:+ show_nat (run_timeout_ms p) +:+ " ms")
  | RunMessages _ | RunShutdown => None
  end.
Definition max_attempts (p : CompressionPolicy) : Z := sat_add u32_max (max_retries p) 1.
(** The delay before the next attempt. *)
Definition backoff_ms (attempts : Z) : Z := Z.shiftl COMPRESSION_RETRY_BASE_DELAY_MS (Z.min (attempts - 1) 6).

Section chain.
  Context (p : CompressionPolicy) (runner : Z → WorkItem → RunResult) (stopped : Z → bool).

(** One item: attempts go on until a run answers, the shared budget is spent, or
    the service shuts down, during a run or a backoff. *)
Definition after_failure (error : string) (attempts : Z) (retry : Z * (list Message + ChainStatus)) : Z * (list Message + ChainStatus) :=
  if decide (max_attempts p ≤ attempts)%Z then (attempts, inr (ChainFailed error))
  else if stopped attempts then (attempts, inr ChainAborted) else retry.
Fixpoint run_item (fuel : nat) (i : WorkItem) (attempts : Z) : Z * (list Message + ChainStatus) :=
  let attempts := (attempts + 1)%Z in
  match runner attempts i with
  | RunShutdown => (attempts, inr ChainAborted)
  | RunMessages (m :: ms) => (attempts, inl (m :: ms))
  | r =>
      after_failure (default "" (failed_run p r)) attempts
        (match fuel with 0 => (attempts, inr ChainAborted) | S fuel' => run_item fuel' i attempts end)
  end.
Definition item_fuel : nat := Z.to_nat (max_attempts p).
Definition item_outcomes (i : WorkItem) (ms : list Message) : list BlockOutcome :=
  match last ms with
  | Some m => (λ b, {| outcome_block := b; outcome_summary := message_id m; archive_refs := [] |}) <$> covered_ids i
  | None => []
  end.
(** All items, as far as they get: attempts, summaries, outcomes and how it ended. *)
Fixpoint run_items (items : list WorkItem) (attempts : Z) (ms : list Message) (os : list BlockOutcome) :
    Z * list Message * list BlockOutcome * option ChainStatus :=
  match items with
  | [] => (attempts, ms, os, None)
  | i :: items' =>
      match run_item item_fuel i attempts with
      | (attempts, inl out) => run_items items' attempts (ms ++ out) (os ++ item_outcomes i out)
      | (attempts, inr status) => (attempts, ms, os, Some status)
      end
  end.
Definition run_chain (items : list WorkItem) : Z * list Message * list BlockOutcome * option ChainStatus :=
  match items with
  | [] => (0%Z, [], [], Some (ChainFailed "compression plan covers no messages"))
  | _ => run_items items 0 [] []
  end.
End chain.

(** * Write-back: write_back.rs *)

Inductive LandResult : Type := Landed | VersionMismatch (detail : string) | LandFailed (detail : string).
Inductive ServiceEvent : Type :=
| EvCompleted (m : Completion (Message := Message)) (tokens_after : Z) (degraded : bool) (dropped : nat)
| EvDiscarded (version : Z) (detail : string)
| EvFailed (version attempts : Z) (error : string).
Definition completion_of (p : CompressionPolicy) (r : CompressionRequest) (ms : list Message) (os : list BlockOutcome) : Completion :=
  {| completion_version := request_version r;
     completion_messages := match request_loop r with Some _ => ms | None => [] end;
     tail_keep := policy_tail_keep p;
     still_over_budget := bool_decide (0 < request_limit r ∧ request_limit r < estimate_messages ms)%Z;
     completion_blocks := os |}.
(** [handle_subworkflow_output]: an agent conversation lands by its event alone. *)
Definition handle_subworkflow_output (land : list Message → LandResult) (p : CompressionPolicy) (r : CompressionRequest)
    (degraded : bool) (dropped : nat) (ms : list Message) (os : list BlockOutcome) : list ServiceEvent * option ChainStatus :=
  match ms with
  | [] => ([], Some (ChainFailed "Compression sub-workflow returned no messages"))
  | _ =>
      match (match request_loop r with Some _ => Landed | None => land ms end) with
      | Landed => ([EvCompleted (completion_of p r ms os) (estimate_messages ms) degraded (if degraded then dropped else 0)], None)
      | VersionMismatch detail => ([EvDiscarded (request_version r) detail], Some (ChainExpired ("expired: " +:+ detail)))
      | LandFailed detail => ([], Some (ChainFailed detail))
      end
  end.

Inductive TriggerExecutionOutcome : Type := OutcomeCompleted | OutcomeFailed | OutcomeAbandoned.
(** The run of a claimed request: its events and its entry in the ledger. *)
Definition serve (land : list Message → LandResult) (p : CompressionPolicy) (runner : Z → WorkItem → RunResult) (stopped : Z → bool)
    (r : CompressionRequest) : list ServiceEvent * TriggerExecutionOutcome :=
  let snapshot := summary_input p r in
  let '(attempts, ms, os, status) := run_chain p runner stopped (work_items snapshot (request_plan r)) in
  let '(events, status) :=
    match status with
    | Some st => ([], st)
    | None => let '(ev, st) := handle_subworkflow_output land p r false 0 ms os in (ev, default ChainCompleted st)
    end in
  match status with
  | ChainCompleted => (events, OutcomeCompleted)
  | ChainExpired _ => (events, OutcomeAbandoned)
  | ChainAborted => (events ++ [EvFailed (request_version r) attempts "aborted at listener shutdown"], OutcomeAbandoned)
  | ChainFailed error =>
      match fallback p with
      | FallbackFail => (events ++ [EvFailed (request_version r) attempts error], OutcomeFailed)
      | PartialSummary =>
          let kept := trim_messages_to_budget snapshot (request_limit r) (policy_tail_keep p) in
          let dropped := List.length snapshot - List.length kept in
          let window := build_degraded_notice error dropped :: kept in
          let '(ev, st) := handle_subworkflow_output land p r true dropped window [] in
          match st with
          | None => (events ++ ev, OutcomeCompleted)
          | Some (ChainExpired _) => (events ++ ev, OutcomeAbandoned)
          | Some _ => (events ++ ev ++ [EvFailed (request_version r) attempts error], OutcomeFailed)
          end
      end
  end.
End service.


(** * What the service does *)

Section facts.
  Context {Message : Type} (message_id : Message → string) (estimate_message_tokens : Message → Z).
  Context (p : CompressionPolicy) (runner : Z → WorkItem (Message := Message) → RunResult (Message := Message)) (stopped : Z → bool).

(** How an item ends: with an answer, within the budget or on its first attempt; with
    the error of its last run, the budget being spent; or at a shutdown. *)
Definition item_end_ok (i : WorkItem) (a : Z) (r : Z * (list Message + ChainStatus)) : Prop :=
  (a < r.1 ≤ Z.max (a + 1) (max_attempts p))%Z ∧
  match r.2 with
  | inl ms => ms ≠ [] ∧ runner r.1 i = RunMessages ms
  | inr (ChainFailed e) => (max_attempts p ≤ r.1)%Z ∧ failed_run p (runner r.1 i) = Some e
  | inr ChainAborted => runner r.1 i = RunShutdown ∨ stopped r.1 = true
  | inr _ => False
  end.
Lemma after_failure_ok i a retry :
  is_Some (failed_run p (runner (a + 1) i)) → ((a + 1 < max_attempts p)%Z → item_end_ok i (a + 1) retry) →
  item_end_ok i a (after_failure p stopped (default "" (failed_run p (runner (a + 1) i))) (a + 1) retry).
Proof.
  intros [e He] Hretry. rewrite He. unfold after_failure. case_decide; [split; cbn; [lia|by split]|].
  destruct (stopped (a + 1)) eqn:Hs; [split; cbn; [lia|by right]|]. destruct Hretry as [H1 H2]; [lia|]. split; [lia|done].
Qed.
Lemma run_item_spec fuel i a : (max_attempts p - a ≤ Z.of_nat (S fuel))%Z → item_end_ok i a (run_item p runner stopped fuel i a).
Proof.
  revert a. induction fuel as [|fuel IH]; intros a Hf; cbn [run_item]; cbv zeta.
  - pose proof (after_failure_ok i a ((a + 1)%Z, inr ChainAborted)) as H.
    destruct (runner (a + 1)%Z i) as [[|m ms]|e| |] eqn:Hr; [apply H; [done|lia]| |apply H; [done|lia]..|]; (split; cbn; [lia|by auto]).
  - pose proof (after_failure_ok i a (run_item p runner stopped fuel i (a + 1)) ) as H.
    destruct (runner (a + 1)%Z i) as [[|m ms]|e| |] eqn:Hr; [apply H; [done|intros; apply IH; lia]| |apply H; [done|intros; apply IH; lia]..|];
      (split; cbn; [lia|by auto]).
Qed.
(** What a batch answers. *)
Definition answered (attempts : Z) (i : WorkItem) (out : list Message) : Prop :=
  out ≠ [] ∧ ∃ k, (0 < k ≤ attempts)%Z ∧ runner k i = RunMessages out.
Definition chain_end_ok (items : list WorkItem) (ms0 : list Message) (os0 : list BlockOutcome)
    (r : Z * list Message * list BlockOutcome * option ChainStatus) : Prop :=
  let '(attempts, ms, os, status) := r in
  match status with
  | None => ∃ outs, Forall2 (answered attempts) items outs ∧ ms = ms0 ++ concat outs ∧
      os = os0 ++ concat (zip_with (item_outcomes message_id) items outs)
  | Some (ChainFailed e) => (max_attempts p ≤ attempts)%Z ∧ ∃ i, i ∈ items ∧ failed_run p (runner attempts i) = Some e
  | Some ChainAborted => stopped attempts = true ∨ ∃ i, i ∈ items ∧ runner attempts i = RunShutdown
  | Some _ => False
  end.
Lemma answered_mono a a' i out : (a ≤ a')%Z → answered a i out → answered a' i out.
Proof. intros Ha [Hne (k & Hk & Hr)]. split; [done|]. exists k. split; [lia|done]. Qed.
Lemma run_items_spec items a ms0 os0 :
  (0 ≤ a)%Z → (1 ≤ max_attempts p)%Z →
  let r := run_items message_id p runner stopped items a ms0 os0 in
  (a ≤ r.1.1.1 ≤ Z.max a (max_attempts p - 1) + Z.of_nat (List.length items))%Z ∧ chain_end_ok items ms0 os0 r.
Proof.
  intros Ha Hmax. revert a Ha ms0 os0. induction items as [|i items IH]; intros a Ha ms0 os0; cbn [run_items].
  { cbn. split; [lia|]. exists []. rewrite !app_nil_r. by split. }
  pose proof (run_item_spec (item_fuel p) i a) as H. unfold item_fuel in *. specialize (H ltac:(lia)).
  destruct (run_item p runner stopped (Z.to_nat (max_attempts p)) i a) as [a' [out|status]]; destruct H as [Ha' Hr]; cbn [fst snd] in *.
  - destruct (IH a' ltac:(lia) (ms0 ++ out) (os0 ++ item_outcomes message_id i out)) as [H1 H2]. cbv zeta in *.
    destruct (run_items _ _ _ _ items a' _ _) as [[[at_ ms] os] status]. cbn [fst] in *. split; [cbn [List.length]; lia|].
    destruct status as [[|d|e|]|]; cbn in *; try done.
    + destruct H2 as (H2 & j & Hj & He). split; [done|]. exists j. split; [by right|done].
    + destruct H2 as [H2|(j & Hj & He)]; [by left|]. right. exists j. split; [by right|done].
    + destruct H2 as (outs & H2 & -> & ->). exists (out :: outs). split; [|split; by rewrite <-app_assoc].
      constructor; [|done]. destruct Hr as [Hne Hr]. split; [done|]. exists a'. split; [lia|done].
  - cbn [fst]. split; [cbn [List.length]; lia|]. destruct status as [|d|e|]; cbn in *; try done.
    + destruct Hr as [H1 H2]. split; [done|]. exists i. split; [left|done].
    + destruct Hr as [H|H]; [right; exists i; split; [left|done]|by left].
Qed.

(** C27: a batch of summary runs ends after at most one run per item plus the retries of the policy.  It
    completes only if every item was answered with a summary, then with all answers in order and one
    outcome per covered block naming the last message of its item; it fails only with the budget
    spent, and with the error of the last run; it is aborted only by a shutdown. *)
Theorem summary_chain_correct (items : list WorkItem) :
  (0 ≤ max_retries p < u32_max)%Z → items ≠ [] →
  let '(attempts, ms, os, status) := run_chain message_id p runner stopped items in
  (attempts ≤ Z.of_nat (List.length items) + max_retries p)%Z ∧ chain_end_ok items [] [] (attempts, ms, os, status).
Proof.
  intros Hret Hne. destruct items as [|i items]; [done|]. unfold run_chain. assert (Hmax : max_attempts p = (max_retries p + 1)%Z) by (unfold max_attempts; mlia).
  destruct (run_items_spec (i :: items) 0 [] [] ltac:(lia) ltac:(lia)) as [H1 H2]. cbv zeta in *.
  destruct (run_items _ _ _ _ (i :: items) 0 [] []) as [[[attempts ms] os] status]. cbn [fst] in H1. split; [lia|done].
Qed.
End facts.

(** ** Trimming *)

Section trim.
  Context {Message : Type} (estimate_message_tokens : Message → Z) (Hpos : ∀ m, (0 ≤ estimate_message_tokens m)%Z).
  #[local] Notation cost ms := (foldr Z.add 0%Z (estimate_message_tokens <$> ms)).

Lemma cost_nonneg (ms : list Message) : (0 ≤ cost ms)%Z.
Proof. induction ms as [|m ms IH]; cbn; [lia|]. specialize (Hpos m). lia. Qed.
Lemma total_cost_exact (ms : list Message) : (cost ms ≤ u64_max)%Z → total_cost (estimate_message_tokens <$> ms) = cost ms.
Proof.
  unfold total_cost. assert (Hgen : ∀ acc, (0 ≤ acc)%Z → (acc + cost ms ≤ u64_max)%Z → foldl (λ acc c, sat_add u64_max acc c) acc (estimate_message_tokens <$> ms) = (acc + cost ms)%Z).
  { induction ms as [|m ms IH]; intros acc Hacc H; cbn in *; [lia|]. pose proof (Hpos m).
    pose proof (cost_nonneg ms).
    rewrite IH; [mlia|mlia|mlia]. }
  intros H. rewrite (Hgen 0%Z); lia.
Qed.
Lemma trim_count_spec (ms : list Message) budget total left min_keep :
  left = List.length ms → total = cost ms → min_keep ≤ left →
  let n := trim_count (estimate_message_tokens <$> ms) budget total left min_keep in
  n ≤ left - min_keep ∧ (n = left - min_keep ∨ (cost (drop n ms) ≤ budget)%Z) ∧
  (∀ k, k < n → (budget < cost (drop k ms))%Z).
Proof.
  intros -> ->. revert min_keep. induction ms as [|m ms IH]; intros min_keep Hk; [cbn; split; [lia|]; split; [left; lia|lia]|].
  cbn [fmap list_fmap trim_count]. case_decide as Hd.
  - cbn [List.length foldr] in *. replace (S (List.length ms) - 1) with (List.length ms) by lia.
    replace (sat_sub (estimate_message_tokens m + foldr Z.add 0%Z (estimate_message_tokens <$> ms))%Z (estimate_message_tokens m)) with (cost ms)
      by (pose proof (cost_nonneg ms); pose proof (Hpos m); mlia).
    destruct (IH min_keep ltac:(lia)) as (H1 & H2 & H3). cbv zeta. split; [lia|]. split; [destruct H2 as [H2|H2]; [left; lia|by right]|].
    intros [|k] Hlt; [by apply Hd|]. apply H3. lia.
  - cbv zeta. split; [lia|]. split; [|lia]. cbn [List.length foldr] in *. rewrite drop_0. cbn [foldr fmap list_fmap]. lia.
Qed.

(** Trimming a snapshot keeps its newest messages: a suffix with at least the messages to keep (and at least
    one), which fits the budget unless it is down to those; nothing is dropped that would have fitted. *)
Theorem trim_keeps_newest (ms : list Message) (budget : Z) (min_keep : nat) :
  (cost ms ≤ u64_max)%Z →
  let kept := trim_messages_to_budget estimate_message_tokens ms budget min_keep in
  let least := Nat.min (Nat.max min_keep 1) (List.length ms) in
  (∃ n, kept = drop n ms ∧ ∀ k, k < n → (budget < cost (drop k ms))%Z) ∧ least ≤ List.length kept ∧
  (List.length kept = least ∨ (cost kept ≤ budget)%Z).
Proof.
  intros Hc. unfold trim_messages_to_budget. destruct ms as [|m ms]; [cbn; split; [exists 0; split; [done|lia]|]; split; [lia|left; lia]|].
  set (all := m :: ms) in *. set (least := Nat.min (Nat.max min_keep 1) (List.length all)). cbv zeta. rewrite total_cost_exact by done.
  destruct (trim_count_spec all budget (cost all) (List.length all) least eq_refl eq_refl ltac:(lia)) as (H1 & H2 & H3). cbv zeta in *.
  set (n := trim_count _ _ _ _ _) in *. rewrite length_drop. split; [by exists n|]. split; [lia|]. destruct H2 as [H2|H2]; [left; lia|by right].
Qed.
End trim.

(** * Concrete runs

    The loop of [CompactionDriver] and the service, together. *)

Definition chat_policy (mode : CompressionFallbackMode) : CompressionPolicy :=
  {| policy_tail_keep := 2; max_retries := 1; run_timeout_ms := 240000; fallback := mode |}.
(** A runner that answers each run with one summary, named after its first message. *)
Definition summarise (k : Z) (i : WorkItem (Message := string * Z)) : RunResult (Message := string * Z) :=
  RunMessages [("sum-of-" +:+ default "" (fst <$> head (work_slice i)), 9%Z)].
Definition chat_request (sg : Signal (Message := string * Z)) : CompressionRequest (Message := string * Z) :=
  {| request_execution := "e"; request_target := CONVERSATION_CONTEXT_ID; request_limit := signal_limit sg;
     request_version := signal_version sg; request_depth := 0; request_messages := signal_messages sg;
     request_plan := signal_plan sg; request_loop := Some "e" |}.
Definition serve_chat (mode : CompressionFallbackMode) (runner : Z → WorkItem (Message := string * Z) → RunResult (Message := string * Z))
    (r : CompressionRequest (Message := string * Z)) : list (ServiceEvent (Message := string * Z)) * TriggerExecutionOutcome :=
  serve fst snd chat_total (λ text, ("notice", 20%Z)) (λ _, Landed) (chat_policy mode) runner (λ _, false) r.
(** A chat that signals, is served and gets the answer. *)
Definition served_chat (mode : CompressionFallbackMode) (runner : Z → WorkItem (Message := string * Z) → RunResult (Message := string * Z))
    (os : list (ProtocolOp (Message := string * Z))) : list ServiceEvent * Protocol :=
  let p := chat_run os in
  match last (log p) with
  | Some (sg, _) =>
      let '(events, _) := serve_chat mode runner (chat_request sg) in
      (events, chat_run (os ++ PDispatched true 0 ::
        omap (λ e, match e with EvCompleted m _ _ _ => Some (PCompleted 1 m) | EvFailed v _ _ => Some (PFailed v) | EvDiscarded _ _ => None end) events))
  | None => ([], p)
  end.
Definition chat_of (p : Protocol (Message := string * Z)) : list string := chat_view (session p).

(** A plan of two slices of one block, over a snapshot trimmed by a message: the
    slices move on by one message, the block's second outcome replaces the first,
    and the block counts as compressed by a summary of one message. *)
Example served_slices_lose_messages :
  let '(events, p) := served_chat FallbackFail summarise (opening ++ [settle_now 0]) in
  ((λ e, match e with EvCompleted m _ _ _ => (λ o, (outcome_block o, outcome_summary o)) <$> completion_blocks m | _ => [] end) <$> events)
    = [[("b0000", "sum-of-a0"); ("b0000", "sum-of-u1")]] ∧
  ((λ b, (block_id b, block_state b, summary_message_id b)) <$> blocks (compaction (conv (session p)))) = [("b0000", Compressed, "sum-of-u1")] ∧
  chat_view (session p) = ["sum-of-u1"; "a2"; "u3"; "sum-of-a0"].
Proof. vm_compute. by repeat split. Qed.
(** A degraded result: the notice is in the history and not in the view, the kept
    messages are appended a second time, and the pending plan stays. *)
Example degraded_notice_not_shown :
  let '(_, p) := served_chat PartialSummary (λ _ _, RunError "no") (opening ++ [settle_now 0]) in
  (messages (conv (session p))).*1 = ["u0"; "a0"; "u1"; "a1"; "u2"; "a2"; "u3"; "notice"; "a0"; "u1"; "a1"; "u2"; "a2"; "u3"] ∧
  chat_view (session p) = ["u3"; "u2"; "a2"] ∧ List.length (pending_plan (compaction (conv (session p)))) = 2.
Proof. vm_compute. by repeat split. Qed.
(** A plan of three answered items costs three runs, one more than the policy allows
    a single run; and a failure after them gets no retry. *)
Definition items_of (l : list string) : list (WorkItem (Message := string * Z)) :=
  (λ u, {| covered_ids := [u]; work_depth := 0; work_slice := [(u, 1%Z)] |}) <$> l.
Example batch_costs_a_run_per_item :
  (run_chain fst (chat_policy FallbackFail) summarise (λ _, false) (items_of ["a"; "b"; "c"])).1.1.1 = 3%Z ∧
  max_attempts (chat_policy FallbackFail) = 2%Z ∧
  (run_chain fst (chat_policy FallbackFail) (λ k i, if decide (k = 3)%Z then RunError "busy" else summarise k i) (λ _, false)
    (items_of ["a"; "b"; "c"])).2 = Some (ChainFailed "busy").
Proof. vm_compute. by repeat split. Qed.

Lemma summary_chain_correct_witness :
  let r := run_chain fst (chat_policy FallbackFail) (λ k i, if decide (k = 1)%Z then RunElapsed else summarise k i) (λ _, false) (items_of ["a"; "b"]) in
  r.1.1.2 = [("sum-of-a", 9%Z); ("sum-of-b", 9%Z)] ∧ r.2 = None ∧
  (r.1.1.1 ≤ 3)%Z ∧ chain_end_ok fst (chat_policy FallbackFail) (λ k i, if decide (k = 1)%Z then RunElapsed else summarise k i) (λ _, false)
    (items_of ["a"; "b"]) [] [] r.
Proof.
  cbv zeta. split; [vm_compute; reflexivity|]. split; [vm_compute; reflexivity|].
  pose proof (summary_chain_correct fst (chat_policy FallbackFail) (λ k i, if decide (k = 1)%Z then RunElapsed else summarise k i) (λ _, false)
    (items_of ["a"; "b"])) as H. destruct (run_chain _ _ _ _ _) as [[[a ms] os] st]. apply H; [by vm_compute|done].
Defined.
Lemma trim_keeps_newest_witness :
  let kept := trim_messages_to_budget abs_estimate two_turns 100 2 in
  kept.*1 = ["a1"; "u2"; "a2"] ∧ (List.length kept = 2 ∨ (foldr Z.add 0%Z (abs_estimate <$> kept) ≤ 100)%Z).
Proof.
  split; [vm_compute; reflexivity|].
  apply (trim_keeps_newest abs_estimate (λ m, Z.abs_nonneg m.2) two_turns 100 2). by vm_compute.
Defined.
