(* ===== verification/ForkRegistry.v ===== *)
(** The registry of the branches of one fork:
    wf-execution-shared/src/fork.rs.

    Every operation is one critical section under the lock, so it is a function
    on the table of records; what interleaves is operations, the announcements
    that follow them outside the lock, and the steps of a waiting JOIN, which
    are a step relation. *)

From S2P Require Import Prelude Strings Json.

(** * Records and operations *)

Inductive BranchStatus : Type := Running | BranchCompleted | BranchFailed | BranchCancelled.
#[export] Instance branch_status_eq_dec : EqDecision BranchStatus.
Proof. solve_decision. Defined.

Record BranchRecord : Type := {
  rec_execution_id : option string;
  rec_status : BranchStatus;
  rec_output : option value;
  rec_error : option string;
  rec_variables : gmap string value;
  rec_message_contexts : gmap string value;
  rec_message_histories : gmap string value;
}.
Definition is_settled (r : BranchRecord) : bool := bool_decide (rec_status r ≠ Running).
Definition fresh_record (id : option string) : BranchRecord :=
  {| rec_execution_id := id; rec_status := Running; rec_output := None; rec_error := None;
     rec_variables := ∅; rec_message_contexts := ∅; rec_message_histories := ∅ |}.

(** [ForkRegistry]: the records, and the paths with a stored task handle. *)
Record ForkRegistry : Type := { records_of : gmap string BranchRecord; handles : gset string }.
Definition new_registry : ForkRegistry := {| records_of := ∅; handles := ∅ |}.
Definition with_records (f : gmap string BranchRecord → gmap string BranchRecord) (r : ForkRegistry) : ForkRegistry :=
  {| records_of := f (records_of r); handles := handles r |}.

(** [register] *)
Definition register (path : string) (id : string) : ForkRegistry → ForkRegistry :=
  with_records (λ m,
    let old := default (fresh_record (Some id)) (m !! path) in
    <[path := {| rec_execution_id := Some id; rec_status := rec_status old; rec_output := rec_output old;
                 rec_error := rec_error old; rec_variables := rec_variables old;
                 rec_message_contexts := rec_message_contexts old;
                 rec_message_histories := rec_message_histories old |}]> m).
(** [update_variables], [update_message_contexts] *)
Definition update_variables (path : string) (vs : gmap string value) : ForkRegistry → ForkRegistry :=
  with_records (alter (λ old,
    {| rec_execution_id := rec_execution_id old; rec_status := rec_status old; rec_output := rec_output old;
       rec_error := rec_error old; rec_variables := vs; rec_message_contexts := rec_message_contexts old;
       rec_message_histories := rec_message_histories old |}) path).
Definition update_message_contexts (path : string) (contexts histories : gmap string value) : ForkRegistry → ForkRegistry :=
  with_records (alter (λ old,
    {| rec_execution_id := rec_execution_id old; rec_status := rec_status old; rec_output := rec_output old;
       rec_error := rec_error old; rec_variables := rec_variables old; rec_message_contexts := contexts;
       rec_message_histories := histories |}) path).

(** [settle_with_messages], and [settle] without messages *)
Definition settle_with_messages (path : string) (success : bool) (output : value) (error : option string)
    (vs contexts histories : option (gmap string value)) : ForkRegistry → ForkRegistry :=
  with_records (λ m,
    let old := default (fresh_record None) (m !! path) in
    let m := <[path := old]> m in
    if decide (rec_status old ≠ Running) then m
    else <[path := {| rec_execution_id := rec_execution_id old;
                      rec_status := if success then BranchCompleted else BranchFailed;
                      rec_output := Some output; rec_error := error;
                      rec_variables := default (rec_variables old) vs;
                      rec_message_contexts := default (rec_message_contexts old) contexts;
                      rec_message_histories := default (rec_message_histories old) histories |}]> m).
Definition settle (path : string) (success : bool) (output : value) (error : option string)
    (vs : option (gmap string value)) : ForkRegistry → ForkRegistry :=
  settle_with_messages path success output error vs None None.

(** [cancel] and [abort_all] *)
Definition cancelled (old : BranchRecord) : BranchRecord :=
  if decide (rec_status old ≠ Running) then old
  else {| rec_execution_id := rec_execution_id old; rec_status := BranchCancelled; rec_output := rec_output old;
          rec_error := rec_error old; rec_variables := rec_variables old;
          rec_message_contexts := rec_message_contexts old; rec_message_histories := rec_message_histories old |}.
Definition cancel (path : string) : ForkRegistry → ForkRegistry :=
  with_records (λ m, <[path := cancelled (default (fresh_record None) (m !! path))]> m).
Definition register_handle (path : string) (r : ForkRegistry) : ForkRegistry :=
  {| records_of := records_of r; handles := {[path]} ∪ handles r |}.
Definition abort_all (r : ForkRegistry) : ForkRegistry :=
  {| records_of := cancelled <$> records_of r; handles := ∅ |}.

(** [get], [records], [path_ids] (in the order of a hash map, which is an
    argument), [settled_count] *)
Definition get_record (path : string) (r : ForkRegistry) : option BranchRecord := records_of r !! path.
Definition records (paths : list string) (r : ForkRegistry) : list (string * BranchRecord) :=
  omap (λ path, (λ rec, (path, rec)) <$> get_record path r) paths.
Definition path_ids (order : list string → list string) (r : ForkRegistry) : list string :=
  order (map_to_list (records_of r)).*1.
Definition path_settled (r : ForkRegistry) (path : string) : bool :=
  match get_record path r with Some rec => is_settled rec | None => false end.
Definition settled_count (paths : list string) (r : ForkRegistry) : nat :=
  List.length (filter (λ path, path_settled r path = true) paths).

(** * Settlement is final *)

Inductive registry_op : Type :=
| ORegister (path id : string)
| OVariables (path : string) (vs : gmap string value)
| OMessages (path : string) (contexts histories : gmap string value)
| OSettle (path : string) (success : bool) (output : value) (error : option string)
    (vs contexts histories : option (gmap string value))
| OCancel (path : string)
| OHandle (path : string)
| OAbort.
Definition apply_op (op : registry_op) : ForkRegistry → ForkRegistry :=
  match op with
  | ORegister path id => register path id
  | OVariables path vs => update_variables path vs
  | OMessages path cs hs => update_message_contexts path cs hs
  | OSettle path success output error vs cs hs => settle_with_messages path success output error vs cs hs
  | OCancel path => cancel path
  | OHandle path => register_handle path
  | OAbort => abort_all
  end.
Definition run_ops (ops : list registry_op) (r : ForkRegistry) : ForkRegistry := foldl (flip apply_op) r ops.

(** What a settlement fixes. *)
Definition outcome (rec : BranchRecord) : BranchStatus * option value * option string :=
  (rec_status rec, rec_output rec, rec_error rec).

Lemma cancelled_outcome rec : is_settled rec = true → outcome (cancelled rec) = outcome rec.
Proof. unfold is_settled, cancelled. intros H%bool_decide_eq_true. by rewrite decide_True. Qed.
Lemma op_outcome op r path rec :
  get_record path r = Some rec → is_settled rec = true →
  ∃ rec', get_record path (apply_op op r) = Some rec' ∧ outcome rec' = outcome rec.
Proof.
  unfold get_record. intros Hrec Hs. pose proof (cancelled_outcome rec Hs) as Hc.
  apply bool_decide_eq_true in Hs.
  destruct op as [p id|p vs|p cs hs|p success output error vs cs hs|p|p|]; cbn [apply_op].
  - unfold register, with_records. cbn [records_of]. destruct (decide (p = path)) as [->|].
    + rewrite lookup_insert_eq, Hrec. by eexists.
    + rewrite lookup_insert_ne by done. eauto.
  - unfold update_variables, with_records. cbn [records_of]. destruct (decide (p = path)) as [->|].
    + rewrite lookup_alter_eq, Hrec. by eexists.
    + rewrite lookup_alter_ne by done. eauto.
  - unfold update_message_contexts, with_records. cbn [records_of]. destruct (decide (p = path)) as [->|].
    + rewrite lookup_alter_eq, Hrec. by eexists.
    + rewrite lookup_alter_ne by done. eauto.
  - unfold settle_with_messages, with_records. cbn [records_of]. destruct (decide (p = path)) as [->|].
    + rewrite Hrec. cbn [default from_option id]. rewrite decide_True by done. rewrite lookup_insert_eq. eauto.
    + case_decide; rewrite ?lookup_insert_ne by done; eauto.
  - unfold cancel, with_records. cbn [records_of]. destruct (decide (p = path)) as [->|].
    + rewrite lookup_insert_eq, Hrec. eauto.
    + rewrite lookup_insert_ne by done. eauto.
  - eauto.
  - unfold abort_all. cbn [records_of]. rewrite lookup_fmap, Hrec. cbn. eauto.
Qed.
Lemma outcome_settled rec rec' : outcome rec' = outcome rec → is_settled rec' = is_settled rec.
Proof. intros [= Hs _ _]. unfold is_settled. by rewrite Hs. Qed.

(** The first settlement of a branch is final: no later operation, a second registration for
    another round of the fork included, changes its status, output or error. *)
Theorem settlement_final (ops : list registry_op) (r : ForkRegistry) (path : string) (rec : BranchRecord)
    (Hrec : get_record path r = Some rec) (Hsettled : is_settled rec = true) :
  ∃ rec', get_record path (run_ops ops r) = Some rec' ∧
    rec_status rec' = rec_status rec ∧ rec_output rec' = rec_output rec ∧ rec_error rec' = rec_error rec.
Proof.
  assert (∃ rec', get_record path (run_ops ops r) = Some rec' ∧ outcome rec' = outcome rec) as (rec' & Hr & [= ???]);
    [|by exists rec'].
  revert r rec Hrec Hsettled. induction ops as [|op ops IH]; intros r rec Hrec Hs; [by exists rec|].
  destruct (op_outcome op r path rec Hrec Hs) as (rec1 & H1 & Ho1).
  destruct (IH (apply_op op r) rec1 H1) as (rec2 & H2 & Ho2); [by rewrite (outcome_settled _ _ Ho1)|].
  exists rec2. split; [done|]. by rewrite Ho2.
Qed.

(** A fork in a loop body: in the second round the branch settles with another
    output, and the registry keeps the first one. *)
Definition first_round : ForkRegistry :=
  run_ops [ORegister "p" "e1"; OSettle "p" true (VNumber (PosInt 1)) None None None None] new_registry.
Definition second_round : list registry_op :=
  [ORegister "p" "e2"; OSettle "p" true (VNumber (PosInt 2)) None None None None].
Lemma settlement_final_witness :
  (rec_output <$> get_record "p" first_round) = Some (Some (VNumber (PosInt 1))) ∧
  ∃ rec', get_record "p" (run_ops second_round first_round) = Some rec' ∧ rec_status rec' = BranchCompleted ∧
    rec_output rec' = Some (VNumber (PosInt 1)) ∧ rec_error rec' = None.
Proof.
  split; [reflexivity|].
  destruct (get_record "p" first_round) as [rec|] eqn:Hrec; [|discriminate Hrec].
  assert (Hr : rec_status rec = BranchCompleted ∧ rec_output rec = Some (VNumber (PosInt 1)) ∧ rec_error rec = None).
  { vm_compute in Hrec. injection Hrec as <-. done. }
  destruct Hr as (<- & <- & <-). apply (settlement_final second_round first_round "p" rec Hrec).
  vm_compute in Hrec. injection Hrec as <-. reflexivity.
Defined.

(** * Waiting for a number of branches

    [wait_for_count]: check, create the notification, register it by polling it
    once, check again, then sleep until it is notified.  Writers change the
    records under the lock and announce the change afterwards with
    [Notify::notify_waiters], which wakes the registered notifications and
    stores nothing for later ones.  A positive timeout can strike while the waiter
    sleeps without having been notified: [timeout] polls the wait before the
    timer.  [WDone] returns [true], [WTimedOut] [false]. *)
Inductive wait_pc : Type := WCheck | WRegister | WRecheck | WParked | WDone | WTimedOut.
Record wait_state : Type := {
  registry : ForkRegistry;
  pc : wait_pc;
  (** the registered notification was notified *)
  notified : bool;
  (** changes that are not announced yet *)
  announcing : nat;
}.

Section waiting.
  Context (paths : list string) (count : nat) (timeout_ms : option Z).

Definition enough (r : ForkRegistry) : bool := bool_decide (count ≤ settled_count paths r).
Definition start_waiting (r : ForkRegistry) : wait_state :=
  {| registry := r; pc := if decide (count = 0 ∨ paths = []) then WDone else WCheck;
     notified := false; announcing := 0 |}.
(** One step of the waiter; [None] when it sleeps or has returned. *)
Definition wait_step (s : wait_state) : option wait_state :=
  let goto p n := Some {| registry := registry s; pc := p; notified := n; announcing := announcing s |} in
  match pc s with
  | WCheck => goto (if enough (registry s) then WDone else WRegister) (notified s)
  | WRegister => goto WRecheck false
  | WRecheck => goto (if enough (registry s) then WDone else WParked) (notified s)
  | WParked => if notified s then goto WCheck false else None
  | WDone | WTimedOut => None
  end.
Definition timed_out (s : wait_state) : option wait_state :=
  match pc s, notified s, timeout_ms with
  | WParked, false, Some ms =>
      if decide (0 < ms)%Z
      then Some {| registry := registry s; pc := WTimedOut; notified := false; announcing := announcing s |} else None
  | _, _, _ => None
  end.
(** The operations that end with an announcement. *)
Definition announces (op : registry_op) (r : ForkRegistry) : bool :=
  match op with
  | OSettle path _ _ _ _ _ _ | OCancel path => negb (path_settled r path)
  | OAbort => true
  | _ => false
  end.
Inductive wait_steps : wait_state → wait_state → Prop :=
| waiter_steps s s' : wait_step s = Some s' → wait_steps s s'
| timeout_steps s s' : timed_out s = Some s' → wait_steps s s'
| writer_steps s op :
    wait_steps s {| registry := apply_op op (registry s); pc := pc s; notified := notified s;
                    announcing := (if announces op (registry s) then 1 else 0) + announcing s |}
| announcer_steps s n :
    announcing s = S n →
    wait_steps s {| registry := registry s; pc := pc s; announcing := n;
                    notified := match pc s with WRecheck | WParked => true | _ => notified s end |}.
(** The same without further writes and without the timeout. *)
Inductive quiet_steps : wait_state → wait_state → Prop :=
| quiet_waiter s s' : wait_step s = Some s' → quiet_steps s s'
| quiet_announcer s n :
    announcing s = S n →
    quiet_steps s {| registry := registry s; pc := pc s; announcing := n;
                     notified := match pc s with WRecheck | WParked => true | _ => notified s end |}.

Lemma path_settled_op op r path : path_settled r path = true → path_settled (apply_op op r) path = true.
Proof.
  unfold path_settled. destruct (get_record path r) as [rec|] eqn:Hr; [|done]. intros Hs.
  destruct (op_outcome op r path rec Hr Hs) as (rec' & -> & Ho). by rewrite (outcome_settled _ _ Ho).
Qed.
Lemma settled_count_op op r : settled_count paths r ≤ settled_count paths (apply_op op r).
Proof.
  unfold settled_count. induction paths as [|p l IH]; [done|]. rewrite !filter_cons.
  destruct (path_settled r p) eqn:Hp; [rewrite (path_settled_op _ _ _ Hp)|]; repeat case_decide; cbn; try done; lia.
Qed.
(** Without an announcement nothing settles. *)
Lemma silent_op op r path :
  announces op r = false → path_settled (apply_op op r) path = path_settled r path.
Proof.
  intros Ha. unfold path_settled, get_record.
  destruct op as [p id|p vs|p cs hs|p success output error vs cs hs|p|p|]; cbn [apply_op announces] in *; try done.
  - unfold register, with_records. cbn [records_of]. destruct (decide (p = path)) as [->|].
    + rewrite lookup_insert_eq. destruct (records_of r !! path); done.
    + by rewrite lookup_insert_ne.
  - unfold update_variables, with_records. cbn [records_of]. destruct (decide (p = path)) as [->|].
    + rewrite lookup_alter_eq. by destruct (records_of r !! path).
    + by rewrite lookup_alter_ne.
  - unfold update_message_contexts, with_records. cbn [records_of]. destruct (decide (p = path)) as [->|].
    + rewrite lookup_alter_eq. by destruct (records_of r !! path).
    + by rewrite lookup_alter_ne.
  - apply negb_false_iff in Ha. pose proof (path_settled_op (OSettle p success output error vs cs hs) r p Ha) as Hp.
    unfold path_settled, get_record in Ha. unfold settle_with_messages, with_records. cbn [records_of].
    destruct (records_of r !! p) as [rec|] eqn:Hr; [|done]. cbn [default from_option id].
    apply bool_decide_eq_true in Ha as Hs. rewrite decide_True by done. by rewrite insert_id.
  - apply negb_false_iff in Ha. unfold path_settled, get_record in Ha. unfold cancel, with_records. cbn [records_of].
    destruct (records_of r !! p) as [rec|] eqn:Hr; [|done]. cbn [default from_option id].
    apply bool_decide_eq_true in Ha as Hs. unfold cancelled. rewrite decide_True by done. by rewrite insert_id.
Qed.
Lemma silent_enough op r : announces op r = false → enough (apply_op op r) = enough r.
Proof.
  intros Ha. unfold enough. assert (settled_count paths (apply_op op r) = settled_count paths r) as ->; [|done].
  unfold settled_count. f_equal. apply list_filter_iff. intros p. by rewrite (silent_op op r p Ha).
Qed.
Lemma enough_op op r : enough r = true → enough (apply_op op r) = true.
Proof.
  unfold enough. rewrite !bool_decide_eq_true. pose proof (settled_count_op op r). lia.
Qed.

(** A waiter that sleeps although it could go on is about to be notified. *)
Definition no_lost_wakeup (s : wait_state) : Prop :=
  (pc s = WParked → notified s = false → enough (registry s) = true → 0 < announcing s) ∧
  (pc s = WDone → count = 0 ∨ paths = [] ∨ enough (registry s) = true) ∧
  (pc s = WTimedOut → ∃ ms, timeout_ms = Some ms ∧ (0 < ms)%Z).
Lemma start_no_lost_wakeup r : no_lost_wakeup (start_waiting r).
Proof. unfold start_waiting. split_and!; cbn; case_decide; try done. intros _. tauto. Qed.
Lemma step_no_lost_wakeup s s' : wait_steps s s' → no_lost_wakeup s → no_lost_wakeup s'.
Proof.
  intros Hstep (Hpark & Hdone & Hlate). destruct Hstep as [s s' Hw|s s' Hw|s op|s n Hn].
  - unfold wait_step in Hw. destruct (pc s) eqn:Hpc; simplify_eq/=.
    + destruct (enough (registry s)) eqn:He; split_and!; cbn; try done. auto.
    + by split_and!.
    + destruct (enough (registry s)) eqn:He; split_and!; cbn; try done; auto. congruence.
    + destruct (notified s); simplify_eq. by split_and!.
  - unfold timed_out in Hw. destruct (pc s), (notified s), timeout_ms as [ms|] eqn:Hms; try done. case_decide; [|done]. simplify_eq.
    split; [done|]. split; [done|]. intros _. exists ms. by split.
  - split_and!; cbn; [| |done].
    + intros Hpc Hn He. destruct (announces op (registry s)) eqn:Ha; [lia|].
      rewrite silent_enough in He by done. cbn. auto.
    + intros Hpc. destruct (Hdone Hpc) as [|[|He]]; [auto..|]. right. right. by apply enough_op.
  - split_and!; cbn; [|done..]. intros Hpc. by rewrite Hpc.
Qed.

(** With nothing more written, announcements and the waiter's own steps bring a
    waiter that has enough to its end. *)
Lemma quiet_ends s :
  no_lost_wakeup s → enough (registry s) = true → pc s ≠ WTimedOut → ∃ s', rtc quiet_steps s s' ∧ pc s' = WDone.
Proof.
  destruct s as [r p n a]. intros [Hpark _] He Hin. cbn in *.
  assert (Hcheck : ∀ n a, ∃ s', rtc quiet_steps {| registry := r; pc := WCheck; notified := n; announcing := a |} s' ∧
    pc s' = WDone).
  { intros n' a'. eexists. split; [apply rtc_once, quiet_waiter; unfold wait_step; cbn; by rewrite He|done]. }
  assert (Hrecheck : ∀ n a, ∃ s', rtc quiet_steps {| registry := r; pc := WRecheck; notified := n; announcing := a |} s' ∧
    pc s' = WDone).
  { intros n' a'. eexists. split; [apply rtc_once, quiet_waiter; unfold wait_step; cbn; by rewrite He|done]. }
  assert (Hwoken : ∀ a, ∃ s', rtc quiet_steps {| registry := r; pc := WParked; notified := true; announcing := a |} s' ∧
    pc s' = WDone).
  { intros a'. destruct (Hcheck false a') as (s' & Hs' & Hd). exists s'. split; [|done].
    eapply rtc_l; [by apply quiet_waiter|done]. }
  destruct p; [apply Hcheck| |apply Hrecheck| |by eexists|done].
  - destruct (Hrecheck false a) as (s' & Hs' & Hd). exists s'. split; [|done].
    eapply rtc_l; [by apply quiet_waiter|done].
  - destruct n; [apply Hwoken|]. destruct a as [|a]; [specialize (Hpark eq_refl eq_refl He); lia|].
    destruct (Hwoken a) as (s' & Hs' & Hd). exists s'. split; [|done].
    eapply rtc_l; [by apply (quiet_announcer _ a)|done].
Qed.
Lemma settled_count_le r : settled_count paths r ≤ List.length paths.
Proof. apply length_filter. Qed.

(** C31: waiting for a number of branches never misses a settlement: however writers, announcements and
    the waiter interleave, a waiter whose branches have settled and whose timeout has not struck can finish
    without any further write, and a waiter that has finished waited for nothing or has its number of
    settled branches, which a number above that of the branches never reaches.  Only a positive timeout strikes. *)
Theorem wait_for_count_correct (r : ForkRegistry) (s : wait_state)
    (Hrun : rtc wait_steps (start_waiting r) s) :
  (enough (registry s) = true → pc s ≠ WTimedOut → ∃ s', rtc quiet_steps s s' ∧ pc s' = WDone) ∧
  (pc s = WDone → paths = [] ∨ count ≤ settled_count paths (registry s) ≤ List.length paths) ∧
  (pc s = WTimedOut → ∃ ms, timeout_ms = Some ms ∧ (0 < ms)%Z).
Proof.
  assert (no_lost_wakeup s) as Hinv.
  { pose proof (start_no_lost_wakeup r) as H0. induction Hrun; eauto using step_no_lost_wakeup. }
  split; [by apply quiet_ends|]. split; [|apply Hinv]. intros Hpc. pose proof (settled_count_le (registry s)).
  destruct Hinv as (_ & Hdone & _). destruct (Hdone Hpc) as [->|[->|He]]; [right; lia|by left|].
  apply bool_decide_eq_true in He. right. lia.
Qed.
End waiting.

(** The settlement falls between the registration and the second check. *)
Definition racing : ForkRegistry := register "p" "e1" new_registry.
Lemma wait_for_count_correct_witness :
  ∃ s, rtc (wait_steps ["p"] 1 (Some 1000%Z)) (start_waiting ["p"] 1 racing) s ∧ pc s = WRecheck ∧ announcing s = 1 ∧
    ∃ s', rtc (quiet_steps ["p"] 1) s s' ∧ pc s' = WDone.
Proof.
  assert (∃ s, rtc (wait_steps ["p"] 1 (Some 1000%Z)) (start_waiting ["p"] 1 racing) s ∧ pc s = WRecheck ∧ announcing s = 1 ∧
    enough ["p"] 1 (registry s) = true) as (s & Hrun & Hpc & Ha & He).
  { eexists. split.
    - eapply rtc_l; [by apply waiter_steps|]. eapply rtc_l; [by apply waiter_steps|].
      apply rtc_once, (writer_steps _ _ _ _ (OSettle "p" true VNull None None None None)).
    - split_and!; reflexivity. }
  exists s. split; [done|]. split; [done|]. split; [done|].
  destruct (wait_for_count_correct ["p"] 1 (Some 1000%Z) racing s Hrun) as [H _]. apply H; [exact He|by rewrite Hpc].
Defined.
