(* ===== verification/ForkGraph.v ===== *)
(** The shape of forks in the graph: wf-workflow/src/handler/fork_join/graph.rs.

    The JOIN of a fork is found by breadth-first distances from each branch, and
    the part of the graph a branch runs is cut out by a search that stops at
    that JOIN. *)

From S2P Require Import Prelude Strings Json GraphTypes.

(** * Distances *)

(** The loop [while let Some(current) = queue.pop_front()] of
    [find_join_node]; [None]: out of fuel. *)
Definition visit_dist (depth : nat) (st : list string * gmap string nat) (next : string) :
    list string * gmap string nat :=
  if decide (is_Some (st.2 !! next)) then st else (st.1 ++ [next], <[next := S depth]> st.2).
Fixpoint bfs_dist (succ : string → list string) (fuel : nat) (queue : list string) (dist : gmap string nat) :
    option (gmap string nat) :=
  match queue, fuel with
  | [], _ => Some dist
  | _ :: _, 0 => None
  | current :: queue', S fuel' =>
      let st := foldl (visit_dist (default 0 (dist !! current))) (queue', dist) (succ current) in
      bfs_dist succ fuel' st.1 st.2
  end.

Section distances.
  Context (succ : string → list string) (s : string).
Let step (x y : string) : Prop := y ∈ succ x.

(** The queue holds reached nodes by increasing distance, everything reached is
    at most one step beyond the front, and the successors of what left the queue
    are reached within one step. *)
Record dist_inv (q : list string) (D : gmap string nat) : Prop := {
  inv_sound x d : D !! x = Some d → nsteps step d s x;
  inv_queue x : x ∈ q → is_Some (D !! x);
  inv_closed x d y : D !! x = Some d → x ∉ q → step x y → ∃ d', D !! y = Some d' ∧ d' ≤ S d;
  inv_sorted : Sorted le (omap (D !!.) q);
  inv_front x q' d y d' : q = x :: q' → D !! x = Some d → D !! y = Some d' → d' ≤ S d;
}.

Lemma visit_dist_spec depth l q D q' D' :
  foldl (visit_dist depth) (q, D) l = (q', D') →
  ∃ new, q' = q ++ new ∧ NoDup new ∧
    (∀ y, y ∈ new ↔ y ∈ l ∧ D !! y = None) ∧
    (∀ y, D' !! y = if decide (y ∈ new) then Some (S depth) else D !! y).
Proof.
  revert q D. induction l as [|x l IH]; intros q D; cbn [foldl].
  { intros [= <- <-]. exists []. rewrite app_nil_r. split_and!; [done|constructor|set_solver|].
    intros y. rewrite decide_False; [done|set_solver]. }
  unfold visit_dist at 2. cbn [fst snd]. case_decide as Hx; intros Hf; apply IH in Hf as (new & -> & Hnd & Hnew & HD').
  - exists new. split_and!; [done..| |done]. intros y. rewrite Hnew, elem_of_cons.
    split; [tauto|]. intros [[->|?] ?]; [|done]. destruct Hx; congruence.
  - apply eq_None_not_Some in Hx. exists (x :: new). rewrite <-app_assoc. split_and!; [done| | |].
    + constructor; [|done]. rewrite Hnew, lookup_insert_eq. by intros [_ ?].
    + intros y. rewrite !elem_of_cons, Hnew. destruct (decide (y = x)) as [->|Hne].
      * tauto.
      * rewrite lookup_insert_ne by done. tauto.
    + intros y. rewrite HD'. destruct (decide (y = x)) as [->|Hne].
      * rewrite (decide_True (P := x ∈ x :: new)) by by left. rewrite lookup_insert_eq. by case_decide.
      * rewrite lookup_insert_ne by done. apply decide_ext. rewrite elem_of_cons. tauto.
Qed.

Lemma sorted_omap_app (D : gmap string nat) q new d :
  Sorted le (omap (D !!.) q) → (∀ x e, x ∈ q → D !! x = Some e → e ≤ d) → (∀ x, x ∈ new → D !! x = Some d) →
  Sorted le (omap (D !!.) (q ++ new)).
Proof.
  intros Hs Hq Hn. rewrite omap_app. apply Sorted_StronglySorted in Hs; [|intros ???; lia].
  apply StronglySorted_Sorted, StronglySorted_app_2; [|done|].
  - intros a b (x & Hx & Ha)%list_elem_of_omap (y & Hy & Hb)%list_elem_of_omap.
    rewrite (Hn y Hy) in Hb. injection Hb as <-. by eapply Hq.
  - clear Hq Hs. induction new as [|x new IH]; [constructor|]. cbn [omap list_omap].
    rewrite (Hn x) by by left. constructor; [apply IH; intros; apply Hn; by right|].
    apply Forall_forall. intros b (y & Hy & Hb)%list_elem_of_omap. rewrite Hn in Hb by by right.
    by injection Hb as <-.
Qed.
Lemma dist_inv_step x q D :
  dist_inv (x :: q) D → let st := foldl (visit_dist (default 0 (D !! x))) (q, D) (succ x) in dist_inv st.1 st.2.
Proof.
  intros [Hsound Hqueue Hclosed Hsorted Hfront]. cbv zeta.
  destruct (foldl _ _ _) as [q' D'] eqn:Hf. cbn [fst snd].
  destruct (Hqueue x) as [d Hd]; [by left|]. rewrite Hd in Hf. cbn [default from_option id] in Hf.
  apply visit_dist_spec in Hf as (new & -> & Hnd & Hnew & HD').
  assert (Hold : ∀ y e, D !! y = Some e → D' !! y = Some e).
  { intros y e He. rewrite HD', decide_False; [done|]. rewrite Hnew. intros [_ ?]. congruence. }
  assert (Hall : ∀ y e, D' !! y = Some e → e ≤ S d).
  { intros y e. rewrite HD'. case_decide; [intros [= <-]; lia|]. by eapply Hfront. }
  assert (Hsorted' : Sorted le (omap (D' !!.) q) ∧ ∀ y e, y ∈ q → D !! y = Some e → d ≤ e).
  { cbn [omap list_omap] in Hsorted. rewrite Hd in Hsorted.
    assert (omap (D' !!.) q = omap (D !!.) q) as ->.
    { clear -Hold Hqueue. induction q as [|y q IH]; [done|]. cbn [omap list_omap].
      destruct (Hqueue y) as [e He]; [by right; left|]. rewrite He, (Hold y e He). f_equal.
      apply IH. intros z Hz. apply Hqueue. apply elem_of_cons in Hz as [->|Hz]; [by left|by right; right]. }
    apply Sorted_StronglySorted in Hsorted; [|intros ???; lia]. inversion Hsorted as [|? ? Hs Hall']. subst.
    split; [by apply StronglySorted_Sorted|]. intros y e Hy He. rewrite Forall_forall in Hall'.
    apply Hall', list_elem_of_omap. eauto. }
  destruct Hsorted' as [Hs' Hge]. split.
  - intros y e. rewrite HD'. case_decide as Hy; [|apply Hsound]. intros [= <-].
    apply Hnew in Hy as [Hy _]. apply nsteps_r with x; [by apply Hsound|done].
  - intros y [Hy|Hy]%elem_of_app; [destruct (Hqueue y) as [e He]; [by right|]; eauto|].
    rewrite HD', decide_True by done. eauto.
  - intros y e z Hy Hq Hz. apply not_elem_of_app in Hq as [Hyq Hyn].
    rewrite HD', decide_False in Hy by done. destruct (decide (y = x)) as [->|Hne].
    + assert (e = d) as -> by congruence. destruct (D !! z) as [e|] eqn:He.
      * exists e. split; [by apply Hold|]. by eapply Hfront.
      * exists (S d). split; [|done]. rewrite HD', decide_True; [done|]. by apply Hnew.
    + destruct (Hclosed y e z) as (e' & He' & Hle); [done|by apply not_elem_of_cons|done|]. eauto.
  - apply (sorted_omap_app _ _ _ (S d)); [done|intros; by eapply Hall|].
    intros y Hy. rewrite HD'. by rewrite decide_True.
  - intros y q0 e z e' Hq Hy Hz. apply Hall in Hz. assert (d ≤ e); [|lia].
    destruct q as [|y' q].
    + assert (y ∈ new) as Hyn by (cbn in Hq; subst new; by left). rewrite HD', decide_True in Hy by done. injection Hy as <-. lia.
    + injection Hq as -> _. rewrite HD' in Hy. case_decide; [injection Hy as <-; lia|].
      apply (Hge y); [by left|done].
Qed.
Lemma dist_inv_init : dist_inv [s] {[s := 0]}.
Proof.
  split.
  - intros x d [<- <-]%lookup_singleton_Some. constructor.
  - intros x ->%list_elem_of_singleton. rewrite lookup_singleton_eq. eauto.
  - intros x d y [<- _]%lookup_singleton_Some []. by left.
  - cbn. rewrite lookup_singleton_eq. repeat constructor.
  - intros x q' d y d' _ _ [_ <-]%lookup_singleton_Some. lia.
Qed.
Lemma bfs_dist_spec fuel q D R :
  dist_inv q D → D !! s = Some 0 → bfs_dist succ fuel q D = Some R →
  (∀ y d, R !! y = Some d → nsteps step d s y) ∧ (∀ n y, nsteps step n s y → ∃ d, R !! y = Some d ∧ d ≤ n).
Proof.
  revert q D. induction fuel as [|fuel IH]; intros [|x q] D Hinv Hs; cbn [bfs_dist]; try done.
  3: { apply IH; [by apply dist_inv_step|]. destruct (foldl _ _ _) as [q' D'] eqn:Hf. cbn [snd].
       apply visit_dist_spec in Hf as (new & _ & _ & Hnew & HD'). rewrite HD', decide_False; [done|].
       rewrite Hnew. intros [_ ?]. congruence. }
  all: intros [= <-]; destruct Hinv as [Hsound _ Hclosed _ _].
  all: split; [done|induction n as [|n IHn]; intros y Hn;
      [inversion Hn; subst; eauto|
       apply nsteps_inv_r in Hn as (z & Hz%IHn & Hzy); destruct Hz as (e & He & Hle);
       destruct (Hclosed z e y He) as (e' & ? & ?); [set_solver|done|]; exists e'; split; [done|lia]]].
Qed.
(** Fuel for every element of a closed universe is enough. *)
Lemma bfs_dist_total fuel q (D : gmap string nat) (U : gset string) :
  (∀ x, x ∈ q → x ∈ U) → dom D ⊆ U → (∀ x y, x ∈ U → step x y → y ∈ U) →
  List.length q + size (U ∖ dom D) ≤ fuel → is_Some (bfs_dist succ fuel q D).
Proof.
  revert q D. induction fuel as [|fuel IH]; intros [|x q] D Hq HD HU Hle; cbn in *; try (by eexists); [lia|].
  destruct (foldl _ _ _) as [q' D'] eqn:Hf. cbn [fst snd].
  apply visit_dist_spec in Hf as (new & -> & Hnd & Hnew & HD').
  assert (Hdom : dom D' = dom D ∪ list_to_set new).
  { apply set_eq. intros y. rewrite elem_of_union, elem_of_list_to_set, !elem_of_dom, HD'.
    case_decide; [|tauto]. split; [by right|by eexists]. }
  assert (HnU : list_to_set (C := gset string) new ⊆ U).
  { intros y Hy%elem_of_list_to_set. apply Hnew in Hy as [Hy _]. apply (HU x); [apply Hq; by left|done]. }
  apply IH; [|set_solver|done|].
  - intros y [Hy|Hy]%elem_of_app; [apply Hq; by right|]. by apply HnU, elem_of_list_to_set.
  - rewrite length_app. assert (U ∖ dom D = list_to_set new ∪ (U ∖ dom D')) as Hsplit.
    { apply set_eq. intros y. rewrite Hdom. destruct (decide (y ∈ new)) as [Hy|Hy].
      - apply Hnew in Hy as Hy'. destruct Hy' as [_ Hy']. apply not_elem_of_dom in Hy'.
        assert (y ∈ U) by (by apply HnU, elem_of_list_to_set). rewrite <-(elem_of_list_to_set (C:=gset string)) in Hy. set_solver.
      - rewrite <-(elem_of_list_to_set (C:=gset string)) in Hy. set_solver. }
    rewrite Hsplit, size_union, size_list_to_set in Hle by (done || set_solver). lia.
Qed.
End distances.

(** * The JOIN of a fork *)

Definition branch_edges (g : WorkflowGraphStructure) (x : string) : list WorkflowEdge :=
  filter (λ e, source_node_id e = x ∧ is_error_edge e = false) (edges g).
Definition succ_of (g : WorkflowGraphStructure) (x : string) : list string := target_node_id <$> branch_edges g x.
Definition branch_step (g : WorkflowGraphStructure) (x y : string) : Prop := y ∈ succ_of g x.
(** The distance map of one branch; a node enters the queue once. *)
Definition distances_from (g : WorkflowGraphStructure) (target : string) : option (gmap string nat) :=
  bfs_dist (succ_of g) (S (List.length (edges g))) [target] {[target := 0]}.
(** [Iterator::min_by_key]: the first of the least. *)
Definition min_by_key {A} (f : A → nat) (l : list A) : option A :=
  foldl (λ best x, match best with Some b => if decide (f x < f b) then Some x else best | None => Some x end) None l.
Definition is_join (g : WorkflowGraphStructure) (x : string) : bool :=
  existsb (λ n, bool_decide (node_id n = x ∧ node_type n = "JOIN")) (nodes g).
Definition max_of (l : list nat) : nat := foldr Nat.max 0 l.
(** [find_join_node]; the intersection is a hash set, so the order in which it is
    searched is an argument. *)
Definition find_join_node (order : list string → list string) (g : WorkflowGraphStructure) (fork : string) :
    option string :=
  match branch_edges g fork with
  | [] => None
  | es =>
      dists ← mapM (λ e, distances_from g (target_node_id e)) es;
      match dists with
      | [] => None
      | dist :: rest =>
          let common := filter (λ x, Forall (λ d : gmap string nat, is_Some (d !! x)) rest) (order (elements (dom dist))) in
          min_by_key (λ x, max_of ((λ d : gmap string nat, default 0 (d !! x)) <$> dists))
            (filter (λ x, is_join g x = true) common)
      end
  end.

Lemma elem_of_branch_edges g x e :
  e ∈ branch_edges g x ↔ e ∈ edges g ∧ source_node_id e = x ∧ is_error_edge e = false.
Proof. unfold branch_edges. rewrite list_elem_of_filter. tauto. Qed.
Lemma distances_from_total g x : is_Some (distances_from g x).
Proof.
  apply (bfs_dist_total (succ_of g) x) with (U := ({[x]} ∪ list_to_set (target_node_id <$> edges g) : gset string)).
  - intros a ->%list_elem_of_singleton. by apply elem_of_union_l, elem_of_singleton.
  - rewrite dom_singleton_L. apply union_subseteq_l.
  - intros a b _ Hb. apply elem_of_union_r, elem_of_list_to_set.
    unfold succ_of in Hb. apply list_elem_of_fmap in Hb as (e & -> & He).
    apply elem_of_branch_edges in He as [He _]. by apply list_elem_of_fmap_2.
  - rewrite dom_singleton_L. cbn [List.length].
    assert (size (({[x]} ∪ list_to_set (target_node_id <$> edges g) : gset string) ∖ {[x]})
      ≤ size (list_to_set (target_node_id <$> edges g) : gset string)) as Hs by (apply subseteq_size; set_solver).
    assert (∀ l : list string, size (list_to_set l : gset string) ≤ List.length l) as Hl.
    { induction l as [|a l IH]; [done|]. cbn [list_to_set List.length].
      pose proof (size_union_alt {[a]} (list_to_set l : gset string)) as Hu. rewrite Hu, size_singleton.
      assert (size ((list_to_set l : gset string) ∖ {[a]}) ≤ size (list_to_set l : gset string)) by (apply subseteq_size; set_solver).
      lia. }
    specialize (Hl (target_node_id <$> edges g)). rewrite length_fmap in Hl. lia.
Qed.
(** A distance map holds the lengths of the shortest paths. *)
Lemma distances_from_spec g x D y k :
  distances_from g x = Some D →
  (bsteps (branch_step g) k x y ↔ ∃ d, D !! y = Some d ∧ d ≤ k).
Proof.
  intros HD. destruct (bfs_dist_spec (succ_of g) x _ _ _ _ (dist_inv_init (succ_of g) x)
    (lookup_singleton_eq x 0) HD) as [Hsound Hreach].
  rewrite bsteps_nsteps. split.
  - intros (n & Hn & Hs). destruct (Hreach n y Hs) as (d & Hd & ?). exists d. split; [done|lia].
  - intros (d & Hd & ?). exists d. split; [done|by apply Hsound].
Qed.

Lemma min_by_key_spec {A} (f : A → nat) l :
  match min_by_key f l with
  | Some b => b ∈ l ∧ ∀ x, x ∈ l → f b ≤ f x
  | None => l = []
  end.
Proof.
  unfold min_by_key. induction l as [|x l IH] using rev_ind; [done|]. rewrite foldl_app. cbn [foldl].
  destruct (foldl _ _ l) as [b|].
  - destruct IH as [Hb Hmin]. case_decide as Hx; (split; [set_solver|]); intros y [Hy|Hy%list_elem_of_singleton]%elem_of_app;
      try (subst y; lia); specialize (Hmin y Hy); lia.
  - subst l. split; [set_solver|]. intros y Hy%list_elem_of_singleton. subst y. lia.
Qed.
Lemma max_of_le l k : max_of l ≤ k ↔ Forall (λ x, x ≤ k) l.
Proof.
  induction l as [|x l IH]; [split; [constructor|cbn; lia]|].
  change (max_of (x :: l)) with (Nat.max x (max_of l)). rewrite Forall_cons, <-IH. lia.
Qed.

(** The JOINs that every branch of a fork reaches within [k] steps. *)
Definition joins_within (g : WorkflowGraphStructure) (fork : string) (k : nat) (j : string) : Prop :=
  is_join g j = true ∧ ∀ e, e ∈ branch_edges g fork → bsteps (branch_step g) k (target_node_id e) j.
Lemma joins_within_dists g fork dists k j :
  mapM (λ e, distances_from g (target_node_id e)) (branch_edges g fork) = Some dists →
  (joins_within g fork k j ↔ is_join g j = true ∧ Forall (λ D : gmap string nat, is_Some (D !! j)) dists ∧
    max_of ((λ d : gmap string nat, default 0 (d !! j)) <$> dists) ≤ k).
Proof.
  intros Hm%mapM_Some. unfold joins_within. split; intros [Hj H]; (split; [done|]).
  - rewrite max_of_le, Forall_fmap, <-Forall_and, Forall_forall. intros D HD.
    apply list_elem_of_lookup in HD as [i Hi]. destruct (Forall2_lookup_r _ _ _ _ _ Hm Hi) as (e & He & HeD).
    apply list_elem_of_lookup_2, H in He. apply (distances_from_spec g _ D j k HeD) in He as (d & Hd & ?).
    cbn. rewrite Hd. split; [eauto|done].
  - rewrite max_of_le, Forall_fmap, <-Forall_and, Forall_forall in H. intros e He.
    apply list_elem_of_lookup in He as [i Hi]. destruct (Forall2_lookup_l _ _ _ _ _ Hm Hi) as (D & HD & HeD).
    apply list_elem_of_lookup_2, H in HD as [[d Hd] Hle]. cbn in Hle. rewrite Hd in Hle.
    apply (distances_from_spec g _ D j k HeD). eauto.
Qed.
(** The JOIN found for a fork is one that all its branches reach, and no other JOIN is reached by
    all of them within fewer steps; none is found only if there is none, or no branch. *)
Theorem find_join_node_correct (order : list string → list string) (g : WorkflowGraphStructure) (fork : string)
    (Horder : ∀ l, order l ≡ₚ l) :
  match find_join_node order g fork with
  | Some j => branch_edges g fork ≠ [] ∧ ∃ k, joins_within g fork k j ∧ ∀ j' k', joins_within g fork k' j' → k ≤ k'
  | None => branch_edges g fork = [] ∨ ∀ j k, ¬ joins_within g fork k j
  end.
Proof.
  unfold find_join_node. destruct (branch_edges g fork) as [|e es] eqn:Hes; [by left|]. rewrite <-Hes.
  assert (is_Some (mapM (λ e, distances_from g (target_node_id e)) (branch_edges g fork))) as [dists Hm].
  { apply mapM_is_Some, Forall_forall. intros x _. apply distances_from_total. }
  rewrite Hm. cbn [mbind option_bind]. pose proof (λ k j, joins_within_dists g fork dists k j Hm) as Hj.
  destruct dists as [|D rest]; [apply mapM_Some in Hm; rewrite Hes in Hm; inversion Hm|].
  set (key := λ x, max_of ((λ d : gmap string nat, default 0 (d !! x)) <$> D :: rest)).
  set (candidates := filter _ _).
  assert (Hcand : ∀ x k, x ∈ candidates ∧ key x ≤ k ↔ joins_within g fork k x).
  { intros x k. rewrite Hj. subst candidates key. rewrite !list_elem_of_filter, Horder, elem_of_elements, elem_of_dom, Forall_cons.
    tauto. }
  pose proof (min_by_key_spec key candidates) as Hmin. destruct (min_by_key key candidates) as [b|].
  - destruct Hmin as [Hb Hmin]. split; [by rewrite Hes|]. exists (key b). split; [by apply Hcand|].
    intros j' k' [Hin Hle]%Hcand. specialize (Hmin j' Hin). lia.
  - right. intros j k [Hin _]%Hcand. rewrite Hmin in Hin. by apply elem_of_nil in Hin.
Qed.

(** A fork of two branches, one of which forks again. *)
Definition fork_graph : WorkflowGraphStructure :=
  mk_graph [mk_node "f" "FORK"; mk_node "a" "SCRIPT"; mk_node "b" "FORK"; mk_node "c" "SCRIPT"; mk_node "d" "SCRIPT";
            mk_node "i" "JOIN"; mk_node "j" "JOIN"; mk_node "k" "JOIN"; mk_node "z" "END"]
    [mk_edge EDefault "f" "a"; mk_edge EDefault "f" "b"; mk_edge EDefault "b" "c"; mk_edge EDefault "b" "d";
     mk_edge EDefault "c" "i"; mk_edge EDefault "d" "i"; mk_edge EDefault "a" "j"; mk_edge EDefault "i" "j";
     mk_edge EDefault "j" "k"; mk_edge EDefault "k" "z"] (Some "f") ["z"].
Lemma find_join_node_correct_witness :
  (∀ l : list string, reverse l ≡ₚ l) ∧ find_join_node reverse fork_graph "f" = Some "j" ∧
  find_join_node reverse fork_graph "b" = Some "i" ∧
  ∃ k, joins_within fork_graph "f" k "j" ∧ ∀ j' k', joins_within fork_graph "f" k' j' → k ≤ k'.
Proof.
  split; [intros l; apply reverse_Permutation|].
  assert (find_join_node reverse fork_graph "f" = Some "j") as Hj by (vm_compute; reflexivity).
  split; [done|]. split; [vm_compute; reflexivity|].
  pose proof (find_join_node_correct reverse fork_graph "f" (reverse_Permutation (A := string))) as H. rewrite Hj in H. by destruct H.
Defined.

(** * The part of the graph a branch runs *)

Record extraction : Type := {
  ext_queue : list string;
  ext_visited : gset string;
  ext_nodes : gset string;
  ext_edges : list WorkflowEdge;
}.
(** The loop of [extract_branch_subgraph]; [None]: out of fuel. *)
Definition take_edge (join : string) (s : extraction) (e : WorkflowEdge) : extraction :=
  if decide (target_node_id e = join) then s
  else {| ext_queue := if decide (target_node_id e ∈ ext_visited s) then ext_queue s
                       else ext_queue s ++ [target_node_id e];
          ext_visited := ext_visited s; ext_nodes := {[target_node_id e]} ∪ ext_nodes s;
          ext_edges := ext_edges s ++ [e] |}.
Fixpoint extract_loop (fuel : nat) (g : WorkflowGraphStructure) (join : string) (s : extraction) : option extraction :=
  match ext_queue s, fuel with
  | [], _ => Some s
  | _ :: _, 0 => None
  | current :: queue, S fuel' =>
      let popped v := {| ext_queue := queue; ext_visited := v; ext_nodes := ext_nodes s; ext_edges := ext_edges s |} in
      if decide (current ∈ ext_visited s) then extract_loop fuel' g join (popped (ext_visited s))
      else extract_loop fuel' g join (foldl (take_edge join) (popped ({[current]} ∪ ext_visited s)) (branch_edges g current))
  end.
(** [extract_branch_subgraph]; a node's edges are taken once, so the queue sees
    at most one entry per edge and the start. *)
Definition extract_branch_subgraph (g : WorkflowGraphStructure) (branch_edge : WorkflowEdge) (join : string) :
    option WorkflowGraphStructure :=
  let target := target_node_id branch_edge in
  s ← extract_loop (S (List.length (edges g))) g join
        {| ext_queue := [target]; ext_visited := ∅; ext_nodes := {[target]}; ext_edges := [] |};
  let ns := filter (λ n, node_id n ∈ ext_nodes s) (nodes g) in
  Some {| nodes := ns; edges := ext_edges s; start_node_id := Some target;
          end_node_ids := filter (λ x, Forall (λ e, source_node_id e ≠ x) (ext_edges s)) (node_id <$> ns);
          error_default := None |}.

(** [find_fork_by_path] and [find_fork_node] *)
Definition string_array (v : option value) : option (list string) :=
  (λ l : list value, omap as_str l) <$> (v ≫= as_array).
Definition fork_path_ids (n : WorkflowNode) : option (list string) :=
  (λ ps : list value, omap (λ p, get p "path_id" ≫= as_str) ps) <$> (get (inner n) "fork_paths" ≫= as_array).
Definition find_fork_by_path (g : WorkflowGraphStructure) (path : string) : option string :=
  (λ r, node_id r.2) <$> list_find (λ n,
    node_type n = "FORK" ∧ Exists (λ p, get p "path_id" ≫= as_str = Some path)
      (default [] (get (inner n) "fork_paths" ≫= as_array))) (nodes g).
Definition find_fork_node (config : option value) (g : WorkflowGraphStructure) : option string :=
  let sort := merge_sort String.le in
  let ids := sort (default [] (string_array (c ← config; get c "fork_path_ids"))) in
  (λ r, node_id r.2) <$> list_find (λ n, node_type n = "FORK" ∧ sort <$> fork_path_ids n = Some ids) (nodes g).

(** * What is extracted *)

Section extraction.
  Context (g : WorkflowGraphStructure) (join : string).

Definition inside_step (x y : string) : Prop := branch_step g x y ∧ y ≠ join.
Lemma inside_step_edge x y :
  inside_step x y ↔ ∃ e, e ∈ branch_edges g x ∧ target_node_id e = y ∧ y ≠ join.
Proof.
  unfold inside_step, branch_step, succ_of. rewrite list_elem_of_fmap. naive_solver.
Qed.
Lemma take_edges_spec l s :
  let s' := foldl (take_edge join) s l in
  ext_visited s' = ext_visited s ∧
  (∀ y, y ∈ ext_nodes s' ↔ y ∈ ext_nodes s ∨ ∃ e, e ∈ l ∧ target_node_id e = y ∧ y ≠ join) ∧
  (∀ e, e ∈ ext_edges s' ↔ e ∈ ext_edges s ∨ e ∈ l ∧ target_node_id e ≠ join) ∧
  (∀ y, y ∈ ext_queue s' ↔ y ∈ ext_queue s ∨ y ∉ ext_visited s ∧ ∃ e, e ∈ l ∧ target_node_id e = y ∧ y ≠ join) ∧
  List.length (ext_queue s') ≤ List.length (ext_queue s) + List.length l.
Proof.
  cbv zeta. revert s. induction l as [|e l IH]; intros s; cbn [foldl List.length].
  { split_and!; [done|set_solver..|lia]. }
  destruct (IH (take_edge join s e)) as (Hv & Hn & He & Hq & Hl). clear IH.
  rewrite Hv. setoid_rewrite Hn. setoid_rewrite He. setoid_rewrite Hq. clear Hv Hn He Hq.
  unfold take_edge in *. case_decide as Hj; cbn in *.
  - split_and!; [done|set_solver..|lia].
  - split_and!; [done|set_solver|set_solver| |].
    + intros y. case_decide; set_solver.
    + case_decide; [lia|]. rewrite length_app in Hl. cbn in Hl. lia.
Qed.

Context (target : string).
Record ext_inv (s : extraction) : Prop := {
  ext_sound y : y ∈ ext_nodes s → rtc inside_step target y;
  ext_queued y : y ∈ ext_queue s → y ∈ ext_nodes s;
  ext_pending y : y ∈ ext_nodes s → y ∈ ext_visited s ∨ y ∈ ext_queue s;
  ext_closed x : x ∈ ext_visited s → x ∈ ext_nodes s ∧ ∀ y, inside_step x y → y ∈ ext_nodes s;
  ext_edges_of e : e ∈ ext_edges s ↔
    e ∈ branch_edges g (source_node_id e) ∧ source_node_id e ∈ ext_visited s ∧ target_node_id e ≠ join;
  ext_target : target ∈ ext_nodes s;
}.
Definition ext_start : extraction :=
  {| ext_queue := [target]; ext_visited := ∅; ext_nodes := {[target]}; ext_edges := [] |}.
Lemma ext_inv_start : ext_inv ext_start.
Proof.
  split; cbn; [intros y ->%elem_of_singleton; constructor|set_solver..].
Qed.
Lemma ext_inv_pop s x queue :
  ext_inv s → ext_queue s = x :: queue → x ∈ ext_visited s →
  ext_inv {| ext_queue := queue; ext_visited := ext_visited s; ext_nodes := ext_nodes s; ext_edges := ext_edges s |}.
Proof.
  intros [Hs Hq Hp Hc He Ht] Heq Hx. rewrite Heq in *. split; cbn; try done.
  - intros y Hy. apply Hq. by right.
  - intros y Hy. destruct (Hp y Hy) as [|[->|]%elem_of_cons]; auto.
Qed.
Lemma ext_inv_expand s x queue :
  ext_inv s → ext_queue s = x :: queue → x ∉ ext_visited s →
  ext_inv (foldl (take_edge join) {| ext_queue := queue; ext_visited := {[x]} ∪ ext_visited s;
    ext_nodes := ext_nodes s; ext_edges := ext_edges s |} (branch_edges g x)).
Proof.
  intros [Hs Hq Hp Hc He Ht] Heq Hx. rewrite Heq in *.
  destruct (take_edges_spec (branch_edges g x) {| ext_queue := queue; ext_visited := {[x]} ∪ ext_visited s;
    ext_nodes := ext_nodes s; ext_edges := ext_edges s |}) as (Hv & Hn & Hes & Hqs & _). cbn in *.
  set (s' := foldl _ _ _) in *. clearbody s'.
  assert (Hnew : ∀ y, y ∈ ext_nodes s' ↔ y ∈ ext_nodes s ∨ inside_step x y).
  { intros y. by rewrite Hn, inside_step_edge. }
  assert (x ∈ ext_nodes s) as Hxn by (apply Hq; by left). split.
  - intros y [Hy|Hy]%Hnew; [by apply Hs|]. eapply rtc_r; [by apply Hs|done].
  - intros y. rewrite Hqs, Hnew, inside_step_edge. intros [Hy|[_ Hy]]; [left; apply Hq; by right|by right].
  - intros y. rewrite Hnew, Hv, Hqs, <-inside_step_edge. intros [Hy|Hy].
    + destruct (Hp y Hy) as [|[->|]%elem_of_cons]; set_solver.
    + destruct (decide (y ∈ ({[x]} ∪ ext_visited s : gset string))); auto.
  - intros y. rewrite Hv, Hnew. intros [->%elem_of_singleton|Hy]%elem_of_union.
    + split; [auto|]. intros z Hz. apply Hnew. by right.
    + destruct (Hc y Hy) as [Hyn Hyc]. split; [auto|]. intros z Hz. apply Hnew. auto.
  - intros e. rewrite Hes, He, Hv, elem_of_union, elem_of_singleton. split.
    + intros [?|[Hb ?]]; [tauto|]. assert (source_node_id e = x) as -> by (by apply elem_of_branch_edges in Hb as (_ & ? & _)).
      tauto.
    + intros (Hb & [Hsx|?] & ?); [rewrite Hsx in Hb; tauto|tauto].
  - apply Hnew. by left.
Qed.

(** Each node is expanded once, so the edges of what is not yet visited pay for
    the queue. *)
Definition ext_measure (s : extraction) : nat :=
  List.length (ext_queue s) + List.length (filter (λ e, source_node_id e ∉ ext_visited s) (edges g)).
Lemma expand_edges (v : gset string) x :
  x ∉ v →
  List.length (branch_edges g x) + List.length (filter (λ e, source_node_id e ∉ {[x]} ∪ v) (edges g))
    ≤ List.length (filter (λ e, source_node_id e ∉ v) (edges g)).
Proof.
  intros Hx. unfold branch_edges. induction (edges g) as [|e l IH]; [done|]. rewrite !filter_cons.
  repeat case_decide; cbn; try lia; set_solver.
Qed.
Lemma extract_loop_spec fuel s :
  ext_inv s → ext_measure s ≤ fuel →
  ∃ s', extract_loop fuel g join s = Some s' ∧ ext_inv s' ∧ ext_queue s' = [].
Proof.
  revert s. induction fuel as [|fuel IH]; intros s Hinv Hm; unfold ext_measure in Hm; cbn [extract_loop];
    destruct (ext_queue s) as [|x queue] eqn:Hq; eauto; cbn [List.length] in Hm; [lia|].
  case_decide as Hx.
  - apply IH; [by eapply ext_inv_pop|]. unfold ext_measure. cbn. lia.
  - apply IH; [by apply ext_inv_expand|].
    destruct (take_edges_spec (branch_edges g x) {| ext_queue := queue; ext_visited := {[x]} ∪ ext_visited s;
      ext_nodes := ext_nodes s; ext_edges := ext_edges s |}) as (Hv & _ & _ & _ & Hl).
    unfold ext_measure. rewrite Hv. cbn in *. pose proof (expand_edges (ext_visited s) x Hx). lia.
Qed.
Lemma inside_join : rtc inside_step target join → target = join.
Proof. intros H. apply rtc_inv_r in H as [?|(y & _ & _ & ?)]; done. Qed.
End extraction.

(** A branch is cut out as what its first node reaches without passing the JOIN: those nodes, the
    edges between them, the nodes without such an edge as ends.  The JOIN is left out unless
    the branch edge goes straight to it: then the subgraph has the JOIN and what follows
    it. *)
Theorem extract_branch_subgraph_correct (g : WorkflowGraphStructure) (edge : WorkflowEdge) (join : string) :
  let target := target_node_id edge in
  let inside := rtc (inside_step g join) target in
  ∃ sub, extract_branch_subgraph g edge join = Some sub ∧
    (∀ n, n ∈ nodes sub ↔ n ∈ nodes g ∧ inside (node_id n)) ∧
    (∀ e, e ∈ edges sub ↔ e ∈ edges g ∧ is_error_edge e = false ∧ inside (source_node_id e) ∧ target_node_id e ≠ join) ∧
    (∀ x, x ∈ end_node_ids sub ↔ x ∈ node_id <$> nodes sub ∧ ∀ e, e ∈ edges sub → source_node_id e ≠ x) ∧
    start_node_id sub = Some target ∧
    (join ∈ node_id <$> nodes sub ↔ target = join ∧ join ∈ node_id <$> nodes g).
Proof.
  intros target inside.
  destruct (extract_loop_spec g join target (S (List.length (edges g))) (ext_start target) (ext_inv_start g join target))
    as (s & Hloop & [Hs _ Hp Hc He Ht] & Hq).
  { unfold ext_measure. cbn [ext_start ext_queue ext_visited List.length].
    apply le_n_S, length_filter. }
  assert (Hvis : ∀ y, y ∈ ext_visited s ↔ inside y).
  { intros y. split; [intros Hy; by apply Hs, Hc|]. intros Hy.
    assert (y ∈ ext_nodes s) as Hyn.
    { refine (rtc_ind_r (λ y, y ∈ ext_nodes s) target Ht _ y Hy). intros x z _ Hxz Hx.
      destruct (Hp x Hx) as [Hv|Hv]; [by apply (Hc x Hv)|]. rewrite Hq in Hv. by apply elem_of_nil in Hv. }
    destruct (Hp y Hyn) as [|Hv]; [done|]. rewrite Hq in Hv. by apply elem_of_nil in Hv. }
  assert (Hn : ∀ y, y ∈ ext_nodes s ↔ inside y).
  { intros y. split; [apply Hs|]. intros Hy%Hvis. by apply Hc. }
  eexists. split; [unfold extract_branch_subgraph; unfold target, ext_start in Hloop; rewrite Hloop; reflexivity|].
  cbn [nodes edges end_node_ids start_node_id]. split_and!.
  - intros n. rewrite list_elem_of_filter, Hn. tauto.
  - intros e. rewrite He, Hvis, elem_of_branch_edges. tauto.
  - intros x. rewrite list_elem_of_filter, Forall_forall. tauto.
  - done.
  - rewrite !list_elem_of_fmap. split.
    + intros (n & Hj & Hin). apply list_elem_of_filter in Hin as [Hin Hng]. apply Hn in Hin. rewrite <-Hj in Hin.
      split; [by apply (inside_join g join)|]. eauto.
    + intros [Htj (n & Hj & Hng)]. exists n. split; [done|]. apply list_elem_of_filter. split; [|done].
      apply Hn. rewrite <-Hj, <-Htj. constructor.
Qed.
