(* ===== verification/Validation.v ===== *)
(** Static validation of workflow graphs: wf-workflow/src/validation.rs and the
    rule sets of wf-workflow/src/validation/, with the error record of
    wf-types/src/validation.rs.

    Every rule lists what it finds; a graph is valid when nothing is found.
    The order in which a hash map lists its keys is an argument.  The checks of
    node configurations and of protocols (node_validation.rs,
    protocol_consistency.rs) enter as one more list of findings; warnings are
    left out. *)

From S2P Require Import Prelude Strings Json Numbers Conditions Worklist GraphTypes GraphAnalysis ForkGraph.

(** [ValidationError] *)
Record ValidationError : Type := { field : string; message : string }.
Definition finding (f m : string) : ValidationError := {| field := f; message := m |}.
Definition when (b : bool) (e : ValidationError) : list ValidationError := if b then [e] else [].
Definition node_field (id : string) : string := "nodes." +:+ id.
Definition non_empty (o : option string) : option string := s ← o; if decide (s = "") then None else Some s.
Definition config_str (v : value) (key : string) : option string := get v key ≫= as_str.
Definition config_array (v : value) (key : string) : option (list value) := get v key ≫= as_array.
Definition indexed (base : string) (i : nat) : string := base +:+ "[" +:+ show_int (Z.of_nat i) +:+ "]".

(** * helpers.rs *)

Definition outgoing_edges (g : WorkflowGraphStructure) (id : string) : list WorkflowEdge :=
  filter (λ e, source_node_id e = id) (edges g).
Definition incoming_edges (g : WorkflowGraphStructure) (id : string) : list WorkflowEdge :=
  filter (λ e, target_node_id e = id) (edges g).
Definition no_edges (l : list WorkflowEdge) : bool := bool_decide (l = []).
Definition path_ids_of_fork (n : WorkflowNode) : list string := default [] (fork_path_ids n).
Definition path_ids_of_join (n : WorkflowNode) : list string := default [] (string_array (get (inner n) "fork_path_ids")).
Definition node_type_map (g : WorkflowGraphStructure) : gmap string string :=
  foldl (λ m n, <[node_id n := node_type n]> m) ∅ (nodes g).

(** * basic.rs *)

Fixpoint node_errors (seen : gset string) (ns : list WorkflowNode) : list ValidationError :=
  match ns with
  | [] => []
  | n :: ns' =>
      let id := node_id n in
      when (bool_decide (id = "")) (finding "nodes" "Node ID cannot be empty") ++
      when (bool_decide (node_type n = "")) (finding (node_field id) ("Node '" +:+ id +:+ "' has no type")) ++
      when (bool_decide (id ∈ seen)) (finding (node_field id) ("Duplicate node ID: " +:+ id)) ++
      node_errors ({[id]} ∪ seen) ns'
  end.
Definition validate_nodes (g : WorkflowGraphStructure) : list ValidationError :=
  match nodes g with
  | [] => [finding "nodes" "Graph must have at least one node"]
  | ns => node_errors ∅ ns
  end.
Fixpoint edge_errors (seen : gset string) (es : list WorkflowEdge) : list ValidationError :=
  match es with
  | [] => []
  | e :: es' =>
      let id := edge_id e in
      when (bool_decide (id = "")) (finding "edges" "Edge ID cannot be empty") ++
      when (bool_decide (id ∈ seen)) (finding ("edges." +:+ id) ("Duplicate edge ID: " +:+ id)) ++
      edge_errors ({[id]} ∪ seen) es'
  end.
Definition validate_edges (g : WorkflowGraphStructure) : list ValidationError := edge_errors ∅ (edges g).

Definition count_type (g : WorkflowGraphStructure) (t : string) : nat :=
  size (filter (λ kv : string * string, kv.2 = t) (node_type_map g)).
Definition has_special (g : WorkflowGraphStructure) : bool :=
  bool_decide (0 < count_type g "START_FROM_MESSAGE") || bool_decide (0 < count_type g "CONTINUE_FROM_MESSAGE").
Definition validate_start_end (g : WorkflowGraphStructure) : list ValidationError :=
  let count := count_type g in
  (if has_special g then
     when (bool_decide (count "START_FROM_MESSAGE" ≠ 1))
       (finding "nodes" "Triggered subgraph must have exactly one START_FROM_MESSAGE node") ++
     when (bool_decide (count "CONTINUE_FROM_MESSAGE" ≠ 1))
       (finding "nodes" "Triggered subgraph must have exactly one CONTINUE_FROM_MESSAGE node") ++
     when (bool_decide (0 < count "START")) (finding "nodes" "Triggered subgraph cannot contain START node") ++
     when (bool_decide (0 < count "END")) (finding "nodes" "Triggered subgraph cannot contain END node")
   else
     (if decide (count "START" = 0) then [finding "nodes" "Workflow must have a START node"]
      else when (bool_decide (1 < count "START")) (finding "nodes" "Workflow must have exactly one START node")) ++
     when (bool_decide (count "END" = 0)) (finding "nodes" "Workflow must have at least one END node")) ++
  match start_node_id g with
  | Some s =>
      when (bool_decide (node_type_map g !! s = None))
        (finding "start_node_id" ("Start node '" +:+ s +:+ "' not found in nodes"))
  | None => when (negb (has_special g)) (finding "start_node_id" "Graph must have a start_node_id")
  end.
Definition validate_references (g : WorkflowGraphStructure) : list ValidationError :=
  mbind (λ e,
    let f := "edges." +:+ edge_id e in
    when (bool_decide (source_node_id e ∉ node_id_set g))
      (finding f ("Edge source '" +:+ source_node_id e +:+ "' not found in nodes")) ++
    when (bool_decide (target_node_id e ∉ node_id_set g))
      (finding f ("Edge target '" +:+ target_node_id e +:+ "' not found in nodes"))) (edges g).

(** * node_types.rs *)

Definition validate_start_end_topology (g : WorkflowGraphStructure) : list ValidationError :=
  match start_node_id g with
  | Some s =>
      when (bool_decide (is_Some (node_type_of g s)) && negb (no_edges (incoming_edges g s)))
        (finding (node_field s) "START node cannot have incoming edges")
  | None => []
  end ++
  mbind (λ x,
    when (bool_decide (is_Some (node_type_of g x)) && negb (no_edges (outgoing_edges g x)))
      (finding (node_field x) ("END node (" +:+ x +:+ ") cannot have outgoing edges"))) (end_node_ids g) ++
  mbind (λ n,
    let id := node_id n in
    when (bool_decide (node_type n = "START_FROM_MESSAGE") && negb (no_edges (incoming_edges g id)))
      (finding (node_field id) "START_FROM_MESSAGE node cannot have incoming edges") ++
    when (bool_decide (node_type n = "CONTINUE_FROM_MESSAGE") && negb (no_edges (outgoing_edges g id)))
      (finding (node_field id) "CONTINUE_FROM_MESSAGE node cannot have outgoing edges")) (nodes g).

Definition boundary_types : list string := ["START"; "END"; "START_FROM_MESSAGE"; "CONTINUE_FROM_MESSAGE"].
Definition validate_isolated_nodes (g : WorkflowGraphStructure) : list ValidationError :=
  mbind (λ n,
    let id := node_id n in
    when (bool_decide (node_type n ∉ boundary_types) && no_edges (incoming_edges g id) && no_edges (outgoing_edges g id))
      (finding (node_field id) ("Node (" +:+ id +:+ ") is isolated, has no incoming or outgoing edges"))) (nodes g).

Definition sync_mapping_errors (id : string) (i : nat) (mapping : value) : list ValidationError :=
  let f := indexed (node_field id +:+ ".config.variable_mappings") i in
  let missing key := bool_decide (non_empty (config_str mapping key) = None) in
  when (missing "source_path") (finding f ("SYNC node '" +:+ id +:+ "' has variableMapping with missing source_path")) ++
  when (missing "internal_name") (finding f ("SYNC node '" +:+ id +:+ "' has variableMapping with missing internal_name")).
Definition sync_path_error (id key path : string) : ValidationError :=
  finding (node_field id +:+ ".config." +:+ key)
    ("SYNC node '" +:+ id +:+ "' has " +:+ key +:+ " '" +:+ path +:+ "' that does not exist in any FORK node's fork_paths").
Definition validate_sync_node (g : WorkflowGraphStructure) (known : list string) (n : WorkflowNode) : list ValidationError :=
  let id := node_id n in
  (match non_empty (config_str (inner n) "source_path_id") with
   | Some p => when (bool_decide (p ∉ known)) (sync_path_error id "source_path_id" p)
   | None => [finding (node_field id +:+ ".config.source_path_id")
                ("SYNC node '" +:+ id +:+ "' is missing required source_path_id")]
   end) ++
  (match non_empty (config_str (inner n) "target_path_id") with
   | Some p => when (bool_decide (p ∉ known)) (sync_path_error id "target_path_id" p)
   | None => []
   end) ++
  mjoin (imap (sync_mapping_errors id) (default [] (config_array (inner n) "variable_mappings"))) ++
  when (no_edges (incoming_edges g id) && no_edges (outgoing_edges g id))
    (finding (node_field id) ("SYNC node '" +:+ id +:+ "' is isolated, has no incoming or outgoing edges")).
Definition of_type (g : WorkflowGraphStructure) (t : string) : list WorkflowNode := filter (λ n, node_type n = t) (nodes g).
Definition validate_sync_nodes (g : WorkflowGraphStructure) : list ValidationError :=
  mbind (validate_sync_node g (mbind path_ids_of_fork (of_type g "FORK"))) (of_type g "SYNC").

Definition validate_embed_node (n : WorkflowNode) : list ValidationError :=
  let id := node_id n in
  let declared key := bool_decide (default [] (config_array (inner n) key) ≠ []) in
  let has_inline := match get (inner n) "graph_definition" with Some v => negb (is_null v) | None => false end in
  when (bool_decide (non_empty (config_str (inner n) "embed_id") = None) && negb has_inline)
    (finding (node_field id) ("EMBED_GRAPH node (" +:+ id +:+ ") is missing embed_id configuration")) ++
  when (declared "variable_inputs")
    (finding (node_field id) ("EMBED_GRAPH node '" +:+ id +:+
      "' should not have variable_inputs. Use SUBGRAPH for variable passing.")) ++
  when (declared "variable_outputs")
    (finding (node_field id) ("EMBED_GRAPH node '" +:+ id +:+
      "' should not have variable_outputs. Use SUBGRAPH for variable passing.")).
Definition validate_embed_graph (g : WorkflowGraphStructure) : list ValidationError :=
  mbind validate_embed_node (of_type g "EMBED_GRAPH").
Definition validate_subgraph_nodes (g : WorkflowGraphStructure) : list ValidationError :=
  mbind (λ n,
    let named := match get (inner n) "subgraph_id" with Some v => Some v | None => get (inner n) "embed_id" end in
    when (bool_decide (non_empty (named ≫= as_str) = None))
      (finding (node_field (node_id n)) ("SUBGRAPH node (" +:+ node_id n +:+ ") is missing subgraph_id configuration")))
    (of_type g "SUBGRAPH").

(** * fork_join.rs *)

Definition blank (o : option string) : bool := match o with Some s => bool_decide (trim s = "") | None => true end.
Definition fork_entries (n : WorkflowNode) : list value := default [] (config_array (inner n) "fork_paths").
Definition empty_fork_paths (n : WorkflowNode) : list ValidationError :=
  let id := node_id n in
  mjoin (imap (λ i raw,
    when (blank (config_str raw "path_id"))
      (finding (indexed (node_field id +:+ ".config.fork_paths") i +:+ ".path_id")
         ("FORK node '" +:+ id +:+ "' has an empty path_id; each branch needs a non-empty unique path id")))
    (fork_entries n)).
Definition empty_join_paths (n : WorkflowNode) : list ValidationError :=
  let id := node_id n in
  mjoin (imap (λ i entry,
    when (blank (as_str entry))
      (finding (indexed (node_field id +:+ ".config.fork_path_ids") i)
         ("JOIN node '" +:+ id +:+ "' has an empty path id; each entry must be a non-empty string")))
    (default [] (config_array (inner n) "fork_path_ids"))).
(** The global uniqueness of path ids, over the pairs of fork and path. *)
Fixpoint unique_errors (seen : gset string) (l : list (string * string)) : list ValidationError :=
  match l with
  | [] => []
  | (fork, path) :: l' =>
      if decide (trim path = "") then unique_errors seen l'
      else
        when (bool_decide (path ∈ seen))
          (finding (node_field fork) ("pathId (" +:+ path +:+ ") of FORK node (" +:+ fork +:+
             ") is not unique within the workflow definition")) ++
        unique_errors ({[path]} ∪ seen) l'
  end.
Definition fork_path_pairs (forks : list WorkflowNode) : list (string * string) :=
  mbind (λ n, (λ p, (node_id n, p)) <$> path_ids_of_fork n) forks.
Definition fork_shape_errors (g : WorkflowGraphStructure) (n : WorkflowNode) : list ValidationError :=
  let id := node_id n in
  when (no_edges (outgoing_edges g id)) (finding (node_field id) ("FORK node '" +:+ id +:+ "' has no outgoing edges")) ++
  match config_array (inner n) "fork_paths" with
  | None => [finding (node_field id) ("FORK node '" +:+ id +:+ "' must define a non-empty fork_paths array")]
  | Some [] => [finding (node_field id) ("FORK node '" +:+ id +:+ "' has empty fork_paths")]
  | Some _ => []
  end.
Definition join_shape_errors (g : WorkflowGraphStructure) (n : WorkflowNode) : list ValidationError :=
  when (no_edges (incoming_edges g (node_id n)))
    (finding (node_field (node_id n)) ("JOIN node '" +:+ node_id n +:+ "' has no incoming edges")).

(** Pairing by the first path id; in the table of joins the last one wins. *)
Definition join_by_first_path (joins : list WorkflowNode) : gmap string WorkflowNode :=
  foldl (λ m j, match path_ids_of_join j with [] => m | first :: _ => <[first := j]> m end) ∅ joins.
Definition mismatch (fork join : WorkflowNode) : ValidationError :=
  let describe l := show_int (Z.of_nat (List.length l)) +:+ " path(s) [" +:+ String.concat ", " l +:+ "]" in
  finding (node_field (node_id fork))
    ("fork_path_ids of FORK node (" +:+ node_id fork +:+ ") and JOIN node (" +:+ node_id join +:+
     ") do not match: FORK has " +:+ describe (path_ids_of_fork fork) +:+ ", JOIN has " +:+ describe (path_ids_of_join join)).
Definition sort_paths : list string → list string := merge_sort String.le.
Definition pair_fork (table : gmap string WorkflowNode) (fork : WorkflowNode) : WorkflowNode + ValidationError :=
  match head (path_ids_of_fork fork) ≫= λ first, table !! first with
  | Some join =>
      if decide (path_ids_of_fork fork ≠ [] ∧ path_ids_of_join join ≠ [] ∧
                 sort_paths (path_ids_of_fork fork) ≠ sort_paths (path_ids_of_join join))
      then inr (mismatch fork join) else inl join
  | None => inr (finding (node_field (node_id fork)) ("FORK node (" +:+ node_id fork +:+ ") has no matching JOIN node"))
  end.
Definition pairs (g : WorkflowGraphStructure) : list (WorkflowNode * WorkflowNode) :=
  let table := join_by_first_path (of_type g "JOIN") in
  omap (λ f, match pair_fork table f with inl j => Some (f, j) | inr _ => None end) (of_type g "FORK").
Definition validate_fork_join_pairs (g : WorkflowGraphStructure) : list ValidationError :=
  let forks := of_type g "FORK" in
  let joins := of_type g "JOIN" in
  let table := join_by_first_path joins in
  let paired := (λ p : WorkflowNode * WorkflowNode, node_id p.2) <$> pairs g in
  mbind empty_fork_paths forks ++ mbind empty_join_paths joins ++ unique_errors ∅ (fork_path_pairs forks) ++
  mbind (fork_shape_errors g) forks ++ mbind (join_shape_errors g) joins ++
  omap (λ f, match pair_fork table f with inl _ => None | inr e => Some e end) forks ++
  mbind (λ j, when (bool_decide (node_id j ∉ paired))
                (finding (node_field (node_id j)) ("JOIN node (" +:+ node_id j +:+ ") has no matching FORK node"))) joins ++
  mbind (λ p : WorkflowNode * WorkflowNode,
    when (bool_decide (node_id p.2 ∉ get_reachable_nodes g (node_id p.1)))
      (finding (node_field (node_id p.1)) ("FORK node (" +:+ node_id p.1 +:+ ") cannot reach the paired JOIN node (" +:+
         node_id p.2 +:+ ")"))) (pairs g).
Definition validate_fork_children (g : WorkflowGraphStructure) : list ValidationError :=
  mbind (λ n,
    mjoin (imap (λ i path,
      match non_empty (config_str path "child_node_id") with
      | Some child =>
          when (bool_decide (child ∉ node_id_set g))
            (finding (indexed (node_field (node_id n) +:+ ".config.fork_paths") i)
               ("FORK node '" +:+ node_id n +:+ "' branch targets unknown node '" +:+ child +:+ "'"))
      | None => []
      end) (fork_entries n))) (of_type g "FORK").

(** * error_routes.rs *)

(** [detect_cycles] ends on every graph ([detect_from_spec]), so the default is
    never taken. *)
Definition cycles_of (g : WorkflowGraphStructure) : CycleDetectionResult := default no_cycle (detect_cycles g).
Definition as_control_edge (e : WorkflowEdge) : WorkflowEdge :=
  if is_error_edge e
  then {| edge_id := edge_id e; source_node_id := source_node_id e; target_node_id := target_node_id e;
          edge_type := EDefault; condition := condition e; label := label e; description := description e;
          error_route := error_route e |}
  else e.
Definition combined_graph (g : WorkflowGraphStructure) : WorkflowGraphStructure :=
  {| nodes := nodes g; edges := as_control_edge <$> edges g; start_node_id := start_node_id g;
     end_node_ids := end_node_ids g; error_default := error_default g |}.
Definition detect_error_route_cycle (g : WorkflowGraphStructure) : option (list string) :=
  if has_cycle (cycles_of g) then None
  else let r := cycles_of (combined_graph g) in if has_cycle r then Some (cycle_nodes r) else None.
Definition error_edge_errors (e : WorkflowEdge) : list ValidationError :=
  let f := "edges." +:+ edge_id e in
  when (negb (is_error_edge e) && bool_decide (is_Some (error_route e)))
    (finding f "error_route config is only allowed on ERROR edges") ++
  when (is_error_edge e && bool_decide (source_node_id e = target_node_id e))
    (finding f ("error route of node '" +:+ source_node_id e +:+
       "' targets itself: the failed node never re-runs through its own route")).
Definition validate_error_branches (g : WorkflowGraphStructure) : list ValidationError :=
  let errors :=
    mbind error_edge_errors (edges g) ++
    match error_default g with
    | Some d => when (bool_decide (default_target d ∉ node_id_set g))
                  (finding "error_default" ("workflow error default targets unknown node '" +:+ default_target d +:+ "'"))
    | None => []
    end in
  match errors, detect_error_route_cycle g with
  | [], Some cycle =>
      [finding "nodes" ("Error-route control cycle exists through nodes [" +:+ String.concat ", " cycle +:+
                        "]: an error jump must not re-enter an ancestor")]
  | _, _ => errors
  end.

(** * connectivity.rs *)

Definition first_of_type (g : WorkflowGraphStructure) (t : string) : option string := node_id <$> head (of_type g t).
Definition validate_triggered_subgraph (g : WorkflowGraphStructure) : list ValidationError :=
  match first_of_type g "START_FROM_MESSAGE", first_of_type g "CONTINUE_FROM_MESSAGE" with
  | Some s, Some e =>
      let from_start := get_reachable_nodes g s in
      mbind (λ n,
        when (bool_decide (node_type n ≠ "START_FROM_MESSAGE") && bool_decide (node_id n ∉ from_start))
          (finding (node_field (node_id n)) ("Node '" +:+ node_id n +:+ "' is not reachable from START_FROM_MESSAGE")))
        (nodes g) ++
      mbind (λ n,
        when (bool_decide (node_type n ≠ "CONTINUE_FROM_MESSAGE") && bool_decide (node_id n ∈ from_start) &&
              bool_decide (e ∉ get_reachable_nodes g (node_id n)))
          (finding (node_field (node_id n)) ("Node '" +:+ node_id n +:+ "' cannot reach CONTINUE_FROM_MESSAGE"))) (nodes g)
  | _, _ => []
  end.
Definition validate_cycles (g : WorkflowGraphStructure) : list ValidationError :=
  let r := cycles_of g in
  when (has_cycle r)
    (finding "nodes" ("Circular dependencies exist in the workflow: cycle through nodes [" +:+
       String.concat ", " (cycle_nodes r) +:+ "]")).
Definition validate_reachability (g : WorkflowGraphStructure) : list ValidationError :=
  if decide (of_type g "START_FROM_MESSAGE" ≠ [] ∨ of_type g "CONTINUE_FROM_MESSAGE" ≠ []) then []
  else
    let a := analyze_reachability g in
    mbind (λ x, when (bool_decide (default_target <$> error_default g ≠ Some x))
                  (finding (node_field x) ("Node (" +:+ x +:+ ") is not reachable from START node"))) (unreachable_nodes a) ++
    ((λ x, finding (node_field x) ("Node (" +:+ x +:+ ") cannot reach END node")) <$> dead_end_nodes a).

Section rules.
  (** the order in which a hash map lists its keys, the text of a syntax error,
      and the findings of the node and protocol checks *)
  Context (keys_order : list string → list string) (syntax_text : string → SyntaxError → string)
    (other_findings : WorkflowGraphStructure → list ValidationError).

(** * loop_pairs.rs *)

Definition entries_of {A} (m : gmap string A) : list (string * A) :=
  omap (λ k, (λ v, (k, v)) <$> m !! k) (keys_order (elements (dom m))).
Definition loop_id_of (n : WorkflowNode) : option string := non_empty (config_str (inner n) "loop_id").
(** node id to loop id, and node id to loop id and referenced start *)
Definition loop_starts (g : WorkflowGraphStructure) : gmap string string :=
  foldl (λ m n, match loop_id_of n with Some l => <[node_id n := l]> m | None => m end) ∅ (of_type g "LOOP_START").
Definition loop_ends (g : WorkflowGraphStructure) : gmap string (string * option string) :=
  foldl (λ m n, match loop_id_of n with
                | Some l => <[node_id n := (l, non_empty (config_str (inner n) "loop_start_node_id"))]> m
                | None => m
                end) ∅ (of_type g "LOOP_END").
Definition loop_id_errors (g : WorkflowGraphStructure) : list ValidationError :=
  mbind (λ n,
    when (bool_decide (node_type n = "LOOP_START" ∨ node_type n = "LOOP_END") && bool_decide (loop_id_of n = None))
      (finding (node_field (node_id n))
         (node_type n +:+ " node (" +:+ node_id n +:+ ") must have a non-empty loop_id in its config"))) (nodes g).
Definition by_loop {A} (loop : A → string) (m : gmap string A) : gmap string (list string) :=
  foldl (push_group (λ kv : string * A, loop kv.2) fst) ∅ (entries_of m).
Definition shared_loop_errors (kind : string) (m : gmap string (list string)) : list ValidationError :=
  mbind (λ kv : string * list string,
    when (bool_decide (1 < List.length kv.2))
      (finding "nodes" ("Multiple " +:+ kind +:+ " nodes share the same loopId (" +:+ kv.1 +:+ "): [" +:+
         String.concat ", " kv.2 +:+ "]"))) (entries_of m).
Definition loop_start_errors (g : WorkflowGraphStructure) (ends : gmap string (list string)) (kv : string * string) :
    list ValidationError :=
  let (id, l) := kv in
  when (bool_decide (default [] (ends !! l) = []))
    (finding (node_field id) ("LOOP_START node (" +:+ id +:+ ") with loopId (" +:+ l +:+ ") has no matching LOOP_END node")) ++
  when (no_edges (outgoing_edges g id))
    (finding (node_field id) ("LOOP_START node (" +:+ id +:+ ") must have at least one outgoing edge")) ++
  when (no_edges (incoming_edges g id))
    (finding (node_field id) ("LOOP_START node (" +:+ id +:+ ") must have at least one incoming edge")).
Definition loop_end_errors (g : WorkflowGraphStructure) (starts : gmap string (list string))
    (kv : string * (string * option string)) : list ValidationError :=
  let '(id, (l, referenced)) := kv in
  when (bool_decide (default [] (starts !! l) = []))
    (finding (node_field id) ("LOOP_END node (" +:+ id +:+ ") with loopId (" +:+ l +:+ ") has no matching LOOP_START node")) ++
  when (no_edges (outgoing_edges g id))
    (finding (node_field id) ("LOOP_END node (" +:+ id +:+ ") must have at least one outgoing edge")) ++
  match referenced with
  | None => []
  | Some r =>
      match loop_starts g !! r with
      | None => [finding (node_field id) ("LOOP_END node (" +:+ id +:+ ") references non-existent LOOP_START node (" +:+ r +:+
                   ") via loop_start_node_id")]
      | Some l' =>
          when (bool_decide (l' ≠ l))
            (finding (node_field id) ("LOOP_END node (" +:+ id +:+ ") loopId (" +:+ l +:+ ") does not match the loopId (" +:+
               l' +:+ ") of the referenced LOOP_START node (" +:+ r +:+ ")"))
      end
  end.
Definition validate_loop_pairs (g : WorkflowGraphStructure) : list ValidationError :=
  let starts := by_loop id (loop_starts g) in
  let ends := by_loop fst (loop_ends g) in
  loop_id_errors g ++ shared_loop_errors "LOOP_START" starts ++ shared_loop_errors "LOOP_END" ends ++
  mbind (loop_start_errors g ends) (entries_of (loop_starts g)) ++ mbind (loop_end_errors g starts) (entries_of (loop_ends g)).

(** * route.rs *)

Definition condition_errors (id : string) (i : nat) (condition : value) : list ValidationError :=
  let f := indexed (node_field id +:+ ".config.conditions") i +:+ ".expression" in
  match config_str condition "expression" with
  | None => []
  | Some e =>
      if decide (trim e = "") then [finding f ("ROUTE node '" +:+ id +:+ "' has an empty condition expression")]
      else match validate_syntax (S (String.length e)) e with
           | Ok _ => []
           | Err x => [finding f ("ROUTE node '" +:+ id +:+ "' has an invalid condition expression: " +:+ syntax_text e x)]
           end
  end.
Definition condition_target_errors (g : WorkflowGraphStructure) (id : string) (default_to : option string) (i : nat)
    (condition : value) : list ValidationError :=
  let f := indexed (node_field id +:+ ".config.conditions") i in
  match non_empty (config_str condition "target_node_id") with
  | None => []
  | Some target =>
      when (bool_decide (target ∉ node_id_set g))
        (finding f ("ROUTE node '" +:+ id +:+ "' targets unknown node '" +:+ target +:+ "'")) ++
      when (bool_decide (Some target = default_to))
        (finding f ("ROUTE node '" +:+ id +:+ "' condition target '" +:+ target +:+
           "' duplicates the default target; use distinct targets"))
  end.
Definition validate_route (g : WorkflowGraphStructure) (n : WorkflowNode) : list ValidationError :=
  let id := node_id n in
  let conditions := default [] (config_array (inner n) "conditions") in
  let default_to := non_empty (config_str (inner n) "default_target_node_id") in
  when (bool_decide (conditions = []) && bool_decide (default_to = None))
    (finding (node_field id +:+ ".config")
       ("ROUTE node '" +:+ id +:+ "' must define at least one condition or a default_target_node_id")) ++
  mjoin (imap (λ i c, condition_errors id i c ++ condition_target_errors g id default_to i c) conditions) ++
  match default_to with
  | Some target =>
      when (bool_decide (target ∉ node_id_set g))
        (finding (node_field id +:+ ".config.default_target_node_id")
           ("ROUTE node '" +:+ id +:+ "' default target '" +:+ target +:+ "' does not exist in the graph"))
  | None => []
  end.
Definition validate_route_targets (g : WorkflowGraphStructure) : list ValidationError :=
  mbind (validate_route g) (of_type g "ROUTE").

(** * validation.rs *)

Definition structural_findings (g : WorkflowGraphStructure) : list ValidationError :=
  validate_nodes g ++ validate_edges g ++ validate_start_end g ++ validate_references g ++
  validate_start_end_topology g ++ validate_isolated_nodes g ++ validate_fork_join_pairs g ++ validate_loop_pairs g ++
  validate_sync_nodes g ++ validate_embed_graph g ++ validate_subgraph_nodes g ++ validate_triggered_subgraph g ++
  validate_route_targets g ++ validate_error_branches g ++ validate_fork_children g ++ validate_cycles g ++
  validate_reachability g.
(** [GraphValidator::validate]; a validated graph is the graph itself. *)
Definition validate (g : WorkflowGraphStructure) : result (list ValidationError) WorkflowGraphStructure :=
  match structural_findings g ++ other_findings g with [] => Ok g | errors => Err errors end.
(** [format_validation_report] *)
Definition format_validation_report (errors : list ValidationError) : string :=
  foldl (λ r e, r +:+ String "010" ("  - [" +:+ field e +:+ "] " +:+ message e))
    (show_int (Z.of_nat (List.length errors)) +:+ " error(s) found:") errors.
End rules.
