(* ===== verification/ValidationFacts.v ===== *)
(** What a validated workflow graph guarantees to the engine.

    The theorems join the static rules of [Validation] to the code that relies
    on them: the gate of the execution graph, the cycle detector and the
    resolution of a JOIN's fork. *)

From S2P Require Import Prelude Strings Json Numbers Conditions Worklist GraphTypes ErrorBranch Graph GraphAnalysis ForkGraph Validation.

(** * Empty lists of findings *)

Lemma when_nil b e : when b e = [] ↔ b = false.
Proof. by destruct b. Qed.
Lemma mbind_nil {A B} (f : A → list B) l : mbind f l = [] ↔ ∀ x, x ∈ l → f x = [].
Proof.
  induction l as [|x l IH]; [set_solver|]. rewrite bind_cons. split.
  - intros [Hx Hl]%app_nil y [->|Hy]%elem_of_cons; [done|]. by apply IH.
  - intros Hall. apply app_nil. split; [apply Hall; by left|]. apply IH. intros y Hy. apply Hall. by right.
Qed.
Lemma omap_nil {A B} (f : A → option B) l : omap f l = [] ↔ ∀ x, x ∈ l → f x = None.
Proof.
  induction l as [|x l IH]; [set_solver|]. cbn [omap list_omap]. split.
  - destruct (f x) eqn:Hx; [done|]. intros Hl y [->|Hy]%elem_of_cons; [done|]. by apply IH.
  - intros Hall. rewrite (Hall x) by (by left). apply IH. intros y Hy. apply Hall. by right.
Qed.
Lemma imap_nil {A B} (f : nat → A → list B) l : mjoin (imap f l) = [] ↔ ∀ i x, l !! i = Some x → f i x = [].
Proof.
  revert f. induction l as [|x l IH]; intros f; [done|]. rewrite imap_cons. cbn [mjoin list_join]. split.
  - intros [Hx Hl]%app_nil [|i] y Hy; simplify_eq/=; [done|]. by apply (proj1 (IH (f ∘ S)) Hl).
  - intros Hall. apply app_nil. split; [by apply (Hall 0)|]. apply (IH (f ∘ S)). intros i y Hy. by apply (Hall (S i)).
Qed.
Lemma elem_of_type g t n : n ∈ of_type g t ↔ node_type n = t ∧ n ∈ nodes g.
Proof. unfold of_type. by rewrite list_elem_of_filter. Qed.
Lemma no_edges_false l : negb (no_edges l) = false ↔ l = [].
Proof. unfold no_edges. rewrite negb_false_iff, bool_decide_eq_true. done. Qed.

(** * The rules, when nothing is found *)

Lemma node_errors_nil seen ns :
  node_errors seen ns = [] → NoDup (node_id <$> ns) ∧ ∀ x, x ∈ node_id <$> ns → x ∉ seen ∧ x ≠ "".
Proof.
  revert seen. induction ns as [|n ns IH]; intros seen; cbn [node_errors fmap list_fmap].
  { intros _. split; [constructor|set_solver]. }
  rewrite !app_nil, !when_nil, !bool_decide_eq_false. intros (Hid & _ & Hseen & Hns).
  destruct (IH _ Hns) as [Hnd Hall]. split.
  - constructor; [|done]. intros Hx. destruct (Hall _ Hx) as [Hn _]. set_solver.
  - intros x [->|Hx]%elem_of_cons; [done|]. destruct (Hall x Hx). set_solver.
Qed.
Lemma nodes_nil g : validate_nodes g = [] → nodes g ≠ [] ∧ NoDup (node_id <$> nodes g).
Proof. unfold validate_nodes. destruct (nodes g) eqn:Hn; [done|]. intros H. split; [done|]. by apply node_errors_nil in H as []. Qed.
Lemma references_nil g : validate_references g = [] → edges_closed g.
Proof.
  unfold validate_references. rewrite mbind_nil. intros Hall e He. specialize (Hall e He). cbv zeta in Hall.
  rewrite app_nil, !when_nil, !bool_decide_eq_false in Hall. split; apply dec_stable; tauto.
Qed.
Lemma cycles_of_spec g :
  edges_closed g → has_cycle (cycles_of g) = false → acyclic (structural g).
Proof.
  intros Hcl Hc. destruct (detect_cycles_spec g Hcl) as (r & Hr & Hac & _). unfold cycles_of in Hc. rewrite Hr in Hc.
  by apply Hac.
Qed.
Lemma combined_closed g : edges_closed g → edges_closed (combined_graph g).
Proof.
  intros Hcl e He. unfold combined_graph in He. cbn in He. apply list_elem_of_fmap in He as (e' & -> & He').
  destruct (Hcl _ He') as [Hs Ht]. unfold as_control_edge. by case_match.
Qed.

(** The one node of a type that is counted once. *)
Lemma node_type_map_lookup g n :
  NoDup (node_id <$> nodes g) → n ∈ nodes g → node_type_map g !! node_id n = Some (node_type n).
Proof.
  unfold node_type_map. assert (∀ (m : gmap string string), NoDup (node_id <$> nodes g) → n ∈ nodes g →
    foldl (λ m n, <[node_id n := node_type n]> m) m (nodes g) !! node_id n = Some (node_type n)) as Hgen; [|eauto].
  induction (nodes g) as [|n' l IH]; intros m Hnd Hn; [by apply elem_of_nil in Hn|].
  cbn [fmap list_fmap] in Hnd. apply NoDup_cons in Hnd as [Hn' Hnd]. cbn [foldl].
  apply elem_of_cons in Hn as [<-|Hn]; [|by apply IH].
  assert (∀ (m : gmap string string), node_id n ∉ node_id <$> l →
    foldl (λ m n, <[node_id n := node_type n]> m) m l !! node_id n = m !! node_id n) as Hkeep.
  { clear. induction l as [|n' l IH]; intros m Hn; [done|]. cbn [foldl fmap list_fmap] in *. rewrite IH by set_solver.
    apply lookup_insert_ne. set_solver. }
  rewrite Hkeep by done. apply lookup_insert_eq.
Qed.
Lemma count_one g t n n' :
  NoDup (node_id <$> nodes g) → count_type g t = 1 → n ∈ of_type g t → n' ∈ of_type g t → node_id n = node_id n'.
Proof.
  intros Hnd (k & v & Hm)%map_size_1_inv Hn Hn'. rewrite elem_of_type in *.
  assert (∀ x, node_type x = t ∧ x ∈ nodes g → node_id x = k) as Hk; [|by rewrite (Hk n), (Hk n')].
  intros x [Ht Hx]. pose proof (node_type_map_lookup g x Hnd Hx) as Hl.
  assert (filter (λ kv : string * string, kv.2 = t) (node_type_map g) !! node_id x = Some (node_type x)) as Hf
    by (by apply map_lookup_filter_Some).
  rewrite Hm in Hf. by apply lookup_singleton_Some in Hf as [-> _].
Qed.
Lemma count_none g t : NoDup (node_id <$> nodes g) → count_type g t = 0 → of_type g t = [].
Proof.
  intros Hnd Hc%map_size_empty_inv. destruct (of_type g t) as [|n l] eqn:Hn; [done|].
  assert (n ∈ of_type g t) as [Ht Hin]%elem_of_type by (rewrite Hn; by left).
  pose proof (node_type_map_lookup g n Hnd Hin) as Hl.
  assert (filter (λ kv : string * string, kv.2 = t) (node_type_map g) !! node_id n = Some (node_type n)) as Hf
    by (by apply map_lookup_filter_Some).
  by rewrite Hc, lookup_empty in Hf.
Qed.
Lemma node_type_map_node g k t : node_type_map g !! k = Some t → ∃ n, n ∈ of_type g t ∧ node_id n = k.
Proof.
  unfold node_type_map. setoid_rewrite elem_of_type.
  assert (∀ m : gmap string string, foldl (λ m n, <[node_id n := node_type n]> m) m (nodes g) !! k = Some t →
    m !! k = Some t ∨ ∃ n, (node_type n = t ∧ n ∈ nodes g) ∧ node_id n = k) as Hgen.
  { induction (nodes g) as [|n l IH]; intros m Hk; [by left|]. cbn [foldl] in Hk.
    destruct (IH _ Hk) as [Hm|(x & [Ht Hx] & Hid)].
    - apply lookup_insert_Some in Hm as [[Hid Ht]|[_ Hm]]; [|by left]. right. exists n. split; [split; [done|by left]|done].
    - right. exists x. split; [split; [done|by right]|done]. }
  intros Hk. destruct (Hgen ∅ Hk) as [He|]; [by rewrite lookup_empty in He|done].
Qed.
Lemma count_some g t : count_type g t ≠ 0 → ∃ n, n ∈ of_type g t.
Proof.
  unfold count_type. intros Hc. destruct (map_choose (filter (λ kv : string * string, kv.2 = t) (node_type_map g))) as (k & v & Hkv).
  { intros He. by rewrite He, map_size_empty in Hc. }
  apply map_lookup_filter_Some in Hkv as [Hkv Hv]. cbn in Hv. subst v.
  destruct (node_type_map_node g k t Hkv) as (n & Hn & _). by exists n.
Qed.
Lemma node_type_of_elem g x : x ∈ node_id_set g → is_Some (node_type_of g x).
Proof.
  intros (n & Hn & <-)%elem_of_node_id_set. unfold node_type_of.
  destruct (list_find (λ n', node_id n' = node_id n) (nodes g)) eqn:Hf; [by eexists|].
  apply list_find_None in Hf. rewrite Forall_forall in Hf. by destruct (Hf n Hn).
Qed.

(** What the boundary rules leave of the special nodes. *)
Lemma special_cases g :
  NoDup (node_id <$> nodes g) → validate_start_end g = [] →
  if has_special g
  then (∃ n, n ∈ of_type g "START_FROM_MESSAGE") ∧ (∃ n, n ∈ of_type g "CONTINUE_FROM_MESSAGE") ∧
       ∀ n n', n ∈ of_type g "START_FROM_MESSAGE" → n' ∈ of_type g "START_FROM_MESSAGE" → node_id n = node_id n'
  else of_type g "START_FROM_MESSAGE" = [] ∧ of_type g "CONTINUE_FROM_MESSAGE" = [] ∧ is_Some (start_node_id g).
Proof.
  intros Hnd. unfold validate_start_end. destruct (has_special g) eqn:Hs.
  - rewrite !app_nil, !when_nil, !bool_decide_eq_false. intros [(H1 & H2 & _) _]. apply dec_stable in H1, H2.
    split; [apply count_some; lia|]. split; [apply count_some; lia|]. intros n n'. by apply count_one.
  - rewrite app_nil. intros [_ Hstart]. unfold has_special in Hs. apply orb_false_iff in Hs as [H1 H2].
    apply bool_decide_eq_false in H1, H2. split; [apply count_none; [done|lia]|]. split; [apply count_none; [done|lia]|].
    destruct (start_node_id g); [by eexists|done].
Qed.
Lemma start_nil g s : validate_start_end g = [] → start_node_id g = Some s → s ∈ node_id_set g.
Proof.
  unfold validate_start_end. rewrite app_nil. intros [_ Hs] Hg. rewrite Hg, when_nil in Hs. apply bool_decide_eq_false in Hs.
  destruct (node_type_map g !! s) as [t|] eqn:Ht; [|done]. destruct (node_type_map_node g s t Ht) as (n & Hn & <-).
  apply elem_of_type in Hn as [_ Hn]. apply elem_of_node_id_set. eauto.
Qed.
Lemma start_no_incoming g s :
  validate_start_end_topology g = [] → start_node_id g = Some s → s ∈ node_id_set g → ∀ e, e ∈ edges g → target_node_id e ≠ s.
Proof.
  unfold validate_start_end_topology. rewrite app_nil. intros [Hs _] Hg Hin e He Ht. rewrite Hg, when_nil in Hs.
  rewrite bool_decide_true in Hs by (by apply node_type_of_elem). cbn in Hs. apply no_edges_false in Hs.
  assert (e ∈ incoming_edges g s) as Hc by (by apply list_elem_of_filter). rewrite Hs in Hc. by apply elem_of_nil in Hc.
Qed.
Lemma first_of_type_Some g t x : first_of_type g t = Some x → ∃ n, n ∈ of_type g t ∧ node_id n = x.
Proof.
  unfold first_of_type. destruct (of_type g t) as [|n l]; [done|]. intros [= <-]. exists n. split; [by left|done].
Qed.
Lemma first_of_type_elem g t n : n ∈ of_type g t → is_Some (first_of_type g t).
Proof. unfold first_of_type. destruct (of_type g t) as [|x l]; [by intros ?%elem_of_nil|]. by eexists. Qed.

Lemma node_id_inj g n n' : NoDup (node_id <$> nodes g) → n ∈ nodes g → n' ∈ nodes g → node_id n = node_id n' → n = n'.
Proof.
  intros Hnd [i Hi]%list_elem_of_lookup [j Hj]%list_elem_of_lookup Hid.
  assert (i = j) as ->; [|congruence]. eapply NoDup_lookup; [exact Hnd| |]; rewrite list_lookup_fmap.
  - by rewrite Hi.
  - by rewrite Hj, Hid.
Qed.

(** * A validated graph is executable *)

Section valid.
  Context (keys_order : list string → list string) (syntax_text : string → SyntaxError → string)
    (other_findings : WorkflowGraphStructure → list ValidationError).
Notation validate := (validate keys_order syntax_text other_findings).
Notation findings := (structural_findings keys_order syntax_text).

Lemma validate_Ok g g' : validate g = Ok g' → g' = g ∧ findings g = [] ∧ other_findings g = [].
Proof.
  unfold Validation.validate. destruct (findings g ++ other_findings g) eqn:Hf; [|done]. intros [= <-].
  by apply app_nil in Hf as [-> ->].
Qed.
(** The rules the theorems use, all silent. *)
Record silent (g : WorkflowGraphStructure) : Prop := {
  silent_nodes : validate_nodes g = [];
  silent_start_end : validate_start_end g = [];
  silent_references : validate_references g = [];
  silent_topology : validate_start_end_topology g = [];
  silent_pairs : validate_fork_join_pairs g = [];
  silent_triggered : validate_triggered_subgraph g = [];
  silent_errors : validate_error_branches g = [];
  silent_cycles : validate_cycles g = [];
  silent_reachability : validate_reachability g = [];
}.
Lemma findings_silent g : findings g = [] → silent g.
Proof. unfold structural_findings. rewrite !app_nil. intros H. split; tauto. Qed.

Lemma silent_NoDup g : silent g → NoDup (node_id <$> nodes g).
Proof. intros H. by apply nodes_nil, silent_nodes. Qed.
Lemma any_edge_last g x y : rtc (any_edge g) x y → x = y ∨ ∃ e, e ∈ edges g ∧ target_node_id e = y.
Proof. intros [Heq|(z & _ & e & He & _ & Ht)]%rtc_inv_r; [by left|]. right. eauto. Qed.
Lemma any_edge_flows g x y : rtc (any_edge g) x y → rtc (flows g) x y.
Proof. apply rtc_subrel. intros a b Hab. by left. Qed.

(** In a triggered subgraph the declared start can only be the message start. *)
Lemma silent_special_start g s n :
  silent g → has_special g = true → start_node_id g = Some s → n ∈ nodes g → rtc (any_edge g) s (node_id n).
Proof.
  intros Hs Hsp Hg Hn. pose proof (special_cases g (silent_NoDup g Hs) (silent_start_end g Hs)) as Hcase. rewrite Hsp in Hcase.
  destruct Hcase as ([m Hm] & [c Hc] & Huniq).
  destruct (first_of_type_elem _ _ _ Hm) as [s0 Hs0]. destruct (first_of_type_elem _ _ _ Hc) as [e0 He0].
  pose proof (silent_triggered g Hs) as Ht. unfold validate_triggered_subgraph in Ht. rewrite Hs0, He0 in Ht.
  apply app_nil in Ht as [Hreach _]. rewrite mbind_nil in Hreach.
  destruct (first_of_type_Some _ _ _ Hs0) as (m0 & Hm0 & <-).
  assert (Hfrom : ∀ x, x ∈ nodes g → rtc (any_edge g) (node_id m0) (node_id x)).
  { intros x Hx. specialize (Hreach x Hx). rewrite when_nil in Hreach.
    destruct (decide (node_type x = "START_FROM_MESSAGE")) as [Hty|Hty].
    - rewrite (Huniq x m0); [constructor|by apply elem_of_type|done].
    - rewrite bool_decide_true in Hreach by done. cbn in Hreach. apply bool_decide_eq_false, dec_stable in Hreach.
      by apply get_reachable_nodes_spec. }
  assert (node_id m0 = s) as <-; [|by apply Hfrom].
  pose proof (start_nil g s (silent_start_end g Hs) Hg) as Hin. pose proof Hin as (x & Hx & Hid)%elem_of_node_id_set.
  destruct (any_edge_last g (node_id m0) s) as [|(e & He & Ht)]; [rewrite <-Hid; by apply Hfrom|done|].
  exfalso. by apply (start_no_incoming g s (silent_topology g Hs) Hg Hin e He).
Qed.
Lemma silent_executable g : silent g → executable g.
Proof.
  intros Hs. pose proof (nodes_nil g (silent_nodes g Hs)) as [Hne Hnd]. split; [done|].
  split; [by apply references_nil, silent_references|]. intros s Hg. split; [by apply start_nil; [apply silent_start_end|]|].
  intros n Hn. destruct (has_special g) eqn:Hsp; [by apply any_edge_flows, silent_special_start|].
  pose proof (special_cases g Hnd (silent_start_end g Hs)) as Hcase. rewrite Hsp in Hcase. destruct Hcase as (Hf1 & Hf2 & _).
  pose proof (silent_reachability g Hs) as Hr. unfold validate_reachability in Hr.
  rewrite decide_False in Hr by (intros [?|?]; congruence). apply app_nil in Hr as [Hun _]. rewrite mbind_nil in Hun.
  destruct (analyze_reachability_correct g) as (_ & _ & Hunr & _).
  destruct (decide (node_id n ∈ unreachable_nodes (analyze_reachability g))) as [Hin|Hin].
  - specialize (Hun _ Hin). rewrite when_nil in Hun. apply bool_decide_eq_false, dec_stable in Hun.
    destruct (error_default g) as [d|] eqn:Hd; [|done]. injection Hun as Hun.
    apply rtc_once. right. eauto.
  - rewrite Hunr in Hin. apply any_edge_flows. assert (node_id n ∈ node_id_set g) as Hid by (apply elem_of_node_id_set; eauto).
    rewrite Hg in Hin. destruct (decide (node_id n ∈ get_reachable_nodes g s)) as [Hx|Hx].
    + by apply get_reachable_nodes_spec.
    + exfalso. apply Hin. split; [done|]. intros (s' & [= <-] & Hrt). by apply Hx, get_reachable_nodes_spec.
Qed.
Lemma silent_acyclic g : silent g → acyclic (structural g) ∧ acyclic (structural (combined_graph g)).
Proof.
  intros Hs. pose proof (references_nil g (silent_references g Hs)) as Hcl.
  pose proof (silent_cycles g Hs) as Hc. unfold validate_cycles in Hc. rewrite when_nil in Hc.
  split; [by apply cycles_of_spec|]. apply cycles_of_spec; [by apply combined_closed|].
  pose proof (silent_errors g Hs) as He. unfold validate_error_branches in He. cbv zeta in He.
  unfold detect_error_route_cycle in He. rewrite Hc in He. destruct (has_cycle (cycles_of (combined_graph g))); [|done].
  exfalso. by destruct (mbind _ _ ++ _).
Qed.

(** C18: a graph that passes static validation is accepted by the gate of the execution graph, has
    distinct node ids, and neither its normal edges nor these together with its error jumps form a
    cycle, loop continuation aside. *)
Theorem validated_graph_runs (g g' : WorkflowGraphStructure) (Hvalid : validate g = Ok g') :
  g' = g ∧ (∃ t, new g = Ok t) ∧ NoDup (node_id <$> nodes g) ∧
  acyclic (structural g) ∧ acyclic (structural (combined_graph g)).
Proof.
  destruct (validate_Ok g g' Hvalid) as (-> & Hf & _). apply findings_silent in Hf. split; [done|].
  split; [|split; [by apply silent_NoDup|by apply silent_acyclic]].
  pose proof (new_spec g) as Hnew. destruct (new g) as [t|e]; [by exists t|].
  destruct Hnew as [_ []]. by apply silent_executable.
Qed.

(** * Forks and their joins *)

Definition forks (g : WorkflowGraphStructure) : list WorkflowNode := of_type g "FORK".
Definition joins (g : WorkflowGraphStructure) : list WorkflowNode := of_type g "JOIN".
Lemma join_table_elem l k j :
  join_by_first_path l !! k = Some j → j ∈ l ∧ head (path_ids_of_join j) = Some k.
Proof.
  unfold join_by_first_path.
  assert (∀ m : gmap string WorkflowNode, foldl (λ m j, match path_ids_of_join j with [] => m | first :: _ => <[first := j]> m end) m l !! k = Some j →
    m !! k = Some j ∨ j ∈ l ∧ head (path_ids_of_join j) = Some k) as Hgen.
  { induction l as [|x l IH]; intros m Hk; [by left|]. cbn [foldl] in Hk. destruct (IH _ Hk) as [Hm|[Hin Hh]].
    - destruct (path_ids_of_join x) as [|first ids] eqn:Hx; [by left|].
      apply lookup_insert_Some in Hm as [[-> ->]|[_ Hm]]; [|by left]. right. split; [by left|]. by rewrite Hx.
    - right. split; [by right|done]. }
  intros Hk. destruct (Hgen ∅ Hk) as [He|]; [by rewrite lookup_empty in He|done].
Qed.
Lemma pair_fork_inl l f j :
  pair_fork (join_by_first_path l) f = inl j →
  j ∈ l ∧ sort_paths (path_ids_of_fork f) = sort_paths (path_ids_of_join j) ∧ path_ids_of_fork f ≠ [].
Proof.
  unfold pair_fork. destruct (path_ids_of_fork f) as [|p ps] eqn:Hf; [done|]. cbn [head mbind option_bind].
  destruct (join_by_first_path l !! p) as [j'|] eqn:Hj; [|done]. destruct (join_table_elem l p j' Hj) as [Hin Hh].
  case_decide as Hd; [done|]. intros [= <-]. split; [done|]. split; [|done].
  apply dec_stable. intros Hne. apply Hd. split; [done|]. split; [|done]. by destruct (path_ids_of_join j').
Qed.
Lemma unique_errors_nil seen l :
  unique_errors seen l = [] → (∀ p, p ∈ l → trim p.2 ≠ "") → NoDup l.*2 ∧ ∀ x, x ∈ l.*2 → x ∉ seen.
Proof.
  revert seen. induction l as [|[f p] l IH]; intros seen; cbn [unique_errors fmap list_fmap snd].
  { intros _ _. split; [constructor|set_solver]. }
  intros Hu Hb. rewrite decide_False in Hu by (apply (Hb (f, p)); by left).
  apply app_nil in Hu as [Hp Hu]. rewrite when_nil, bool_decide_eq_false in Hp.
  destruct (IH _ Hu) as [Hnd Hall]; [intros q Hq; apply Hb; by right|]. split.
  - constructor; [|done]. intros Hx. specialize (Hall _ Hx). set_solver.
  - intros x [->|Hx]%elem_of_cons; [done|]. specialize (Hall x Hx). set_solver.
Qed.
Lemma NoDup_mbind_inj {A B} (f : A → list B) l x y b :
  NoDup (mbind f l) → x ∈ l → y ∈ l → b ∈ f x → b ∈ f y → x = y.
Proof.
  induction l as [|a l IH]; [by intros _ ?%elem_of_nil|]. rewrite bind_cons, NoDup_app. intros (_ & Hdis & Hnd) Hx Hy Hbx Hby.
  assert (Hin : ∀ z, z ∈ l → b ∈ f z → b ∈ mbind f l) by (intros z Hz Hb; apply list_elem_of_bind; eauto).
  apply elem_of_cons in Hx as [->|Hx], Hy as [->|Hy]; [done|..|by apply IH].
  - exfalso. by apply (Hdis b), (Hin y).
  - exfalso. by apply (Hdis b), (Hin x).
Qed.
Lemma NoDup_mbind_elem {A B} (f : A → list B) l x : NoDup (mbind f l) → x ∈ l → NoDup (f x).
Proof.
  induction l as [|a l IH]; [by intros _ ?%elem_of_nil|]. rewrite bind_cons, NoDup_app. intros (Ha & _ & Hl) [->|Hx]%elem_of_cons; auto.
Qed.
Lemma fork_path_pairs_snd l : (fork_path_pairs l).*2 = mbind path_ids_of_fork l.
Proof.
  unfold fork_path_pairs. induction l as [|n l IH]; [done|]. rewrite !bind_cons, fmap_app, IH. f_equal.
  rewrite <-list_fmap_compose. by apply list_fmap_id.
Qed.
Lemma path_id_entry n p : p ∈ path_ids_of_fork n → ∃ i raw, fork_entries n !! i = Some raw ∧ config_str raw "path_id" = Some p.
Proof.
  unfold path_ids_of_fork, fork_path_ids, fork_entries, config_array, config_str.
  destruct (get (inner n) "fork_paths" ≫= as_array) as [ps|]; [|by intros ?%elem_of_nil]. cbn.
  intros (raw & Hraw & Hp)%list_elem_of_omap. apply list_elem_of_lookup in Hraw as [i Hi]. eauto.
Qed.

(** ** What the pairing rules leave *)

Lemma elem_pairs g f j :
  (f, j) ∈ pairs g ↔ f ∈ forks g ∧ pair_fork (join_by_first_path (joins g)) f = inl j.
Proof.
  unfold pairs. rewrite list_elem_of_omap. split.
  - intros (f' & Hf & Hp). destruct (pair_fork _ f') eqn:He; simplify_eq. done.
  - intros [Hf Hp]. exists f. split; [done|]. unfold joins in Hp. by rewrite Hp.
Qed.
Lemma pairs_nil g :
  validate_fork_join_pairs g = [] →
  (∀ f p, f ∈ forks g → p ∈ path_ids_of_fork f → trim p ≠ "") ∧
  NoDup (mbind path_ids_of_fork (forks g)) ∧
  (∀ f, f ∈ forks g → ∃ j, (f, j) ∈ pairs g) ∧
  (∀ j, j ∈ joins g → ∃ f j', (f, j') ∈ pairs g ∧ node_id j' = node_id j) ∧
  (∀ f j, (f, j) ∈ pairs g → node_id j ∈ get_reachable_nodes g (node_id f)).
Proof.
  unfold validate_fork_join_pairs. cbv zeta. rewrite !app_nil, !mbind_nil, omap_nil.
  intros (Hempty & _ & Huniq & _ & _ & Hpaired & Hjoined & Hreach).
  assert (Hblank : ∀ f p, f ∈ forks g → p ∈ path_ids_of_fork f → trim p ≠ "").
  { intros f p Hf Hp. specialize (Hempty f Hf). unfold empty_fork_paths in Hempty. rewrite imap_nil in Hempty.
    destruct (path_id_entry f p Hp) as (i & raw & Hi & Hraw). specialize (Hempty i raw Hi).
    rewrite when_nil, Hraw in Hempty. by apply bool_decide_eq_false in Hempty. }
  split; [done|]. split; [|split; [|split]].
  - rewrite <-fork_path_pairs_snd. apply (unique_errors_nil ∅); [done|]. intros [f p] Hp.
    unfold fork_path_pairs in Hp. apply list_elem_of_bind in Hp as (n & Hp & Hn).
    apply list_elem_of_fmap in Hp as (q & [= -> ->] & Hq). by apply (Hblank n).
  - intros f Hf. specialize (Hpaired f Hf). destruct (pair_fork _ f) as [j|] eqn:He; [|done].
    exists j. by apply elem_pairs.
  - intros j Hj. specialize (Hjoined j Hj). rewrite when_nil in Hjoined. apply bool_decide_eq_false, dec_stable in Hjoined.
    apply list_elem_of_fmap in Hjoined as ([f j'] & Hid & Hp). by exists f, j'.
  - intros f j Hp. specialize (Hreach (f, j) Hp). rewrite when_nil in Hreach. by apply bool_decide_eq_false, dec_stable in Hreach.
Qed.

(** The runtime finds, from the JOIN, the fork it was paired with. *)
Lemma pair_resolves g f j :
  NoDup (mbind path_ids_of_fork (forks g)) → (f, j) ∈ pairs g → find_fork_node (Some (inner j)) g = Some (node_id f).
Proof.
  intros Hnd [Hf Hp]%elem_pairs. apply pair_fork_inl in Hp as (_ & Hsame & Hne).
  unfold find_fork_node. cbn [mbind option_bind]. fold sort_paths. change (default [] (string_array (get (inner j) "fork_path_ids"))) with (path_ids_of_join j).
  rewrite <-Hsame. set (P := λ n, node_type n = "FORK" ∧ sort_paths <$> fork_path_ids n = Some (sort_paths (path_ids_of_fork f))).
  assert (HP : P f).
  { split; [by apply elem_of_type in Hf as []|]. unfold path_ids_of_fork in *. by destruct (fork_path_ids f). }
  destruct (list_find_elem_of P (nodes g) f) as [[i x] Hx]; [by apply elem_of_type in Hf as []|done|].
  change (list_find _ (nodes g)) with (list_find P (nodes g)). rewrite Hx.
  apply list_find_Some in Hx as (Hi & [Htype Hids] & _). cbn. f_equal. f_equal.
  destruct (path_ids_of_fork f) as [|p ps] eqn:Hpf; [done|].
  assert (p ∈ path_ids_of_fork x).
  { unfold path_ids_of_fork. destruct (fork_path_ids x) as [l|]; [|done]. injection Hids as Hids.
    cbn. rewrite <-(merge_sort_Permutation String.le l). unfold sort_paths in Hids. rewrite Hids, merge_sort_Permutation. by left. }
  apply (NoDup_mbind_inj path_ids_of_fork (forks g) x f p); [done| |done|done|rewrite Hpf; by left].
  apply elem_of_type. split; [done|]. by apply list_elem_of_lookup_2 in Hi.
Qed.

(** C19: in a validated graph the path ids of a FORK are present, not blank and distinct; some JOIN
    the FORK reaches resolves at run time to that FORK; and every JOIN
    resolves to a FORK of the graph. *)
Theorem validated_forks_joined (g g' : WorkflowGraphStructure) (Hvalid : validate g = Ok g') :
  (∀ f, f ∈ forks g →
     path_ids_of_fork f ≠ [] ∧ NoDup (path_ids_of_fork f) ∧ (∀ p, p ∈ path_ids_of_fork f → trim p ≠ "") ∧
     ∃ j, j ∈ joins g ∧ find_fork_node (Some (inner j)) g = Some (node_id f) ∧
          rtc (any_edge g) (node_id f) (node_id j)) ∧
  (∀ j, j ∈ joins g → ∃ f, f ∈ forks g ∧ find_fork_node (Some (inner j)) g = Some (node_id f)).
Proof.
  destruct (validate_Ok g g' Hvalid) as (_ & Hs%findings_silent & _).
  destruct (pairs_nil g (silent_pairs g Hs)) as (Hblank & Hnd & Hforks & Hjoins & Hreach). split.
  - intros f Hf. destruct (Hforks f Hf) as [j Hj]. pose proof Hj as [_ Hp]%elem_pairs.
    apply pair_fork_inl in Hp as (Hin & _ & Hne). split; [done|]. split; [by eapply NoDup_mbind_elem|].
    split; [by intros p; apply Hblank|]. exists j. split; [done|]. split; [by apply pair_resolves|].
    by apply get_reachable_nodes_spec, Hreach.
  - intros j Hj. destruct (Hjoins j Hj) as (f & j' & Hp & Hid). exists f. pose proof Hp as [Hf Hq]%elem_pairs. split; [done|].
    apply pair_fork_inl in Hq as (Hin & _).
    assert (j' = j) as <-; [|by apply pair_resolves].
    apply elem_of_type in Hj as [_ Hj], Hin as [_ Hin].
    apply (node_id_inj g); [by apply silent_NoDup|done..].
Qed.
End valid.

(** * Examples *)

Definition fork_config (ids : list string) : value :=
  VObject [("fork_paths", VArray ((λ p, VObject [("path_id", VString p); ("child_node_id", VString p)]) <$> ids))].
Definition join_config (ids : list string) : value := VObject [("fork_path_ids", VArray (VString <$> ids))].
Definition typed_node (i t : string) (config : value) : WorkflowNode :=
  {| node_id := i; node_name := None; node_type := t; inner := config |}.
(** A fork of the branches [a] and [b]; where [b] leads, and how the JOIN lists
    the paths, vary. *)
Definition fork_graph (join_paths : list string) (after_b : string) : WorkflowGraphStructure :=
  {| nodes := [mk_node "s" "START"; typed_node "f" "FORK" (fork_config ["a"; "b"]); mk_node "a" "LLM"; mk_node "b" "LLM";
               typed_node "j" "JOIN" (join_config join_paths); mk_node "e" "END"];
     edges := [mk_edge EDefault "s" "f"; mk_edge EDefault "f" "a"; mk_edge EDefault "f" "b"; mk_edge EDefault "a" "j"; mk_edge EDefault "b" after_b;
               mk_edge EDefault "j" "e"];
     start_node_id := Some "s"; end_node_ids := ["e"]; error_default := None |}.
Definition plain_validate : WorkflowGraphStructure → result (list ValidationError) WorkflowGraphStructure :=
  validate id (λ _ _, "") (λ _, []).

Lemma validated_graph_runs_witness :
  (∃ t, new (fork_graph ["a"; "b"] "j") = Ok t) ∧ acyclic (structural (fork_graph ["a"; "b"] "j")).
Proof.
  assert (Hv : plain_validate (fork_graph ["a"; "b"] "j") = Ok (fork_graph ["a"; "b"] "j")) by (vm_compute; reflexivity).
  destruct (validated_graph_runs _ _ _ _ _ Hv) as (_ & Hrun & _ & Hac & _). split; [exact Hrun|exact Hac].
Defined.
Lemma validated_forks_joined_witness :
  ∃ j, j ∈ joins (fork_graph ["a"; "b"] "j") ∧ find_fork_node (Some (inner j)) (fork_graph ["a"; "b"] "j") = Some "f".
Proof.
  assert (Hv : plain_validate (fork_graph ["a"; "b"] "j") = Ok (fork_graph ["a"; "b"] "j")) by (vm_compute; reflexivity).
  destruct (validated_forks_joined _ _ _ _ _ Hv) as [Hf _].
  destruct (Hf (typed_node "f" "FORK" (fork_config ["a"; "b"]))) as (_ & _ & _ & j & Hj & Hr & _).
  - apply elem_of_type. split; [reflexivity|]. do 1 right. left.
  - exists j. split; [exact Hj|exact Hr].
Defined.

(** The pairing takes the first path id on both sides: a JOIN that lists the
    same paths in another order is rejected, and so is its fork, although the
    runtime resolves that JOIN to the fork. *)
Example reordered_join_rejected :
  validate_fork_join_pairs (fork_graph ["b"; "a"] "j")
    = [finding "nodes.f" "FORK node (f) has no matching JOIN node"; finding "nodes.j" "JOIN node (j) has no matching FORK node"] ∧
  find_fork_node (Some (join_config ["b"; "a"])) (fork_graph ["b"; "a"] "j") = Some "f".
Proof. split; vm_compute; reflexivity. Qed.
(** One branch that reaches the JOIN satisfies the rules; the runtime looks for
    a JOIN every branch reaches, and finds none here. *)
Example lone_branch_has_no_join :
  plain_validate (fork_graph ["a"; "b"] "e") = Ok (fork_graph ["a"; "b"] "e") ∧
  find_join_node id (fork_graph ["a"; "b"] "e") "f" = None.
Proof. split; vm_compute; reflexivity. Qed.
