(* ===== verification/Entity.v ===== *)
(** What an execution carries: wf-workflow/src/entity.rs, state.rs, error.rs and
    error_analysis.rs, wf-core/src/interruption.rs, the status of
    wf-execution-shared/src/types/execution_entity.rs and the error categories
    and summary of wf-types/src/workflow/error_branch.rs.

    The entity is shared with the tasks that control the execution: each of its
    operations is one step on the state below. *)

From S2P Require Import Prelude Strings Json GraphTypes ErrorBranch LoopState.

(** * Errors and their categories *)

(** [NodeErrorCategory::as_str] *)
Definition category_str (c : NodeErrorCategory) : string :=
  match c with
  | TransportTimeout => "transport_timeout"
  | BusinessFailure => "business_failure"
  | CancelledInterrupted => "cancelled_interrupted"
  | CompressionFailure => "compression_failure"
  | Resource => "resource"
  end.

(** [NodeFailureSource] and its [as_str] *)
Inductive NodeFailureSource : Type := Handler | HookVeto | Approval.
Definition source_str (s : NodeFailureSource) : string :=
  match s with Handler => "handler" | HookVeto => "hook_veto" | Approval => "approval" end.

(** [ErrorType] *)
Inductive ErrorType : Type :=
| ToolError | LlmError | Timeout | RateLimited | ServiceUnavailable | Validation | Internal
| Interruption.

(** [NodeErrorCategory::from_error_type] and [NodeErrorCategory::error_type] *)
Definition from_error_type (t : ErrorType) : NodeErrorCategory :=
  match t with
  | Interruption => CancelledInterrupted
  | Timeout => TransportTimeout
  | RateLimited | ServiceUnavailable => Resource
  | _ => BusinessFailure
  end.
Definition error_type (c : NodeErrorCategory) : ErrorType :=
  match c with
  | TransportTimeout => Timeout
  | CancelledInterrupted => Interruption
  | Resource => ServiceUnavailable
  | BusinessFailure | CompressionFailure => Internal
  end.

(** [ExecutionSharedError], as far as the engine looks into it. *)
Inductive SharedError : Type :=
| SharedNodeFailure (id : string) (category : NodeErrorCategory) (detail : string)
    (failure_source : NodeFailureSource)
| SharedOther (detail : string).

(** [WorkflowError] *)
Inductive WorkflowError : Type :=
| CoordinatorError (detail : string)
| ExecutionTimeout (detail : string)
| ExecutionPaused (detail : string)
| GraphErrorAt (detail : string)
| HandlerNotFound (node_type : string)
| NodeExecutionFailed (id reason : string)
| NodeFailure (id : string) (category : NodeErrorCategory) (detail : string)
    (failure_source : NodeFailureSource)
| ForkJoinError (detail : string)
| SubgraphError (detail : string)
| TriggerError (detail : string)
| HierarchyLimitReached (detail : string)
| VariableError (detail : string)
| LoopError (failure : LoopFailure)
| OperationError (detail : string)
| ConfigError (id field detail : string)
| StateTransitionError (detail : string)
| SharedErr (e : SharedError)
| InternalError (detail : string).

Section classify.
  (** The analysis of a shared error, which the agent engine provides. *)
  Variable shared_error_type : SharedError → ErrorType.

(** The [error_type] of [analyze_workflow_error]. *)
Definition analyze_workflow_error (e : WorkflowError) : ErrorType :=
  match e with
  | CoordinatorError _ => Internal
  | ExecutionTimeout _ => Timeout
  | ExecutionPaused _ => error_type CancelledInterrupted
  | GraphErrorAt _ | VariableError _ => Validation
  | HandlerNotFound _ => Validation
  | NodeExecutionFailed _ _ => Internal
  | NodeFailure _ category _ _ => error_type category
  | ForkJoinError _ | SubgraphError _ | HierarchyLimitReached _ | TriggerError _ => Internal
  | StateTransitionError _ => Internal
  | OperationError _ | LoopError _ => Internal
  | ConfigError _ _ _ => Validation
  | SharedErr se => shared_error_type se
  | InternalError _ => Internal
  end.

(** [classify_error] *)
Definition classify_error (e : WorkflowError) : NodeErrorCategory :=
  match e with
  | NodeFailure _ category _ _ => category
  | SharedErr (SharedNodeFailure _ category _ _) => category
  | other => from_error_type (analyze_workflow_error other)
  end.

(** [failure_source] *)
Definition failure_source_of (e : WorkflowError) : NodeFailureSource :=
  match e with
  | NodeFailure _ _ _ s => s
  | SharedErr (SharedNodeFailure _ _ _ s) => s
  | _ => Handler
  end.
End classify.

(** Every category but compression survives the round trip through the shared
    taxonomy, which is why [classify_error] keeps a tagged category. *)
Lemma from_error_type_roundtrip c : from_error_type (error_type c) = c ↔ c ≠ CompressionFailure.
Proof. by destruct c. Qed.

(** [ErrorBranchSummary] *)
Definition ERROR_SUMMARY_CHARS : nat := 160.
Definition truncate_summary (message : string) : string :=
  String.concat "" (take ERROR_SUMMARY_CHARS (chars message)).
Record ErrorBranchSummary : Type := {
  summary_message : string;
  summary_category : NodeErrorCategory;
  summary_source_node : string;
  summary_attempts : Z;
  summary_source : NodeFailureSource;
}.
(** [ErrorBranchSummary::new] with [with_source] *)
Definition new_summary (message : string) (c : NodeErrorCategory) (source_node : string) (attempts : Z)
    (s : NodeFailureSource) : ErrorBranchSummary :=
  {| summary_message := truncate_summary message; summary_category := c;
     summary_source_node := source_node; summary_attempts := Z.max attempts 1; summary_source := s |}.
(** [ErrorBranchSummary::variables] *)
Definition summary_variables (s : ErrorBranchSummary) : list (string * value) :=
  let attempts := VNumber (PosInt (summary_attempts s)) in
  let category := VString (category_str (summary_category s)) in
  let source := VString (source_str (summary_source s)) in
  [(ERROR_NAMESPACE, VObject [("attempts", attempts); ("category", category);
                              ("message", VString (summary_message s)); ("source", source);
                              ("source_node", VString (summary_source_node s))]);
   (ERROR_NAMESPACE +:+ ".message", VString (summary_message s));
   (ERROR_NAMESPACE +:+ ".category", category);
   (ERROR_NAMESPACE +:+ ".source_node", VString (summary_source_node s));
   (ERROR_NAMESPACE +:+ ".attempts", attempts);
   (ERROR_NAMESPACE +:+ ".source", source)].

(** The whole namespace is machinery: none of it is ever merged back. *)
Lemma summary_variables_machinery s k v :
  (k, v) ∈ summary_variables s → is_machinery_key k = true.
Proof.
  assert (Hall : Forall (λ kv, is_machinery_key kv.1 = true) (summary_variables s))
    by (repeat constructor; by vm_compute).
  rewrite Forall_forall in Hall. intros Hk. by apply (Hall (k, v)).
Qed.

(** [ErrorSuspendState] *)
Record ErrorSuspendState : Type := {
  suspend_summary : ErrorBranchSummary;
  suspend_target : string;
  suspended_at : Z;
}.

(** * Interruption *)

(** [InterruptionSignal] and [InterruptionState]: the channel's present value,
    the cancellation token, and the parent it is connected to. *)
Inductive InterruptionSignal : Type := Active | Pause | Stop.
#[export] Instance InterruptionSignal_eq_dec : EqDecision InterruptionSignal.
Proof. solve_decision. Defined.
Inductive InterruptionState : Type := Interrupt {
  signal : InterruptionSignal;
  is_cancelled : bool;
  is_disposed : bool;
  parent : option InterruptionState;
}.
Definition new_interruption : InterruptionState := Interrupt Active false false None.

Definition ensure_not_disposed : SE InterruptionState string () := λ s,
  (s, if is_disposed s then Err "interruption state has been disposed" else Ok tt).
Definition pause : SE InterruptionState string () :=
  _ ← ensure_not_disposed;
  modify (λ s, Interrupt Pause (is_cancelled s) (is_disposed s) (parent s)).
Definition stop : SE InterruptionState string () :=
  _ ← ensure_not_disposed;
  modify (λ s, Interrupt Stop true (is_disposed s) (parent s)).
Definition resume : SE InterruptionState string () :=
  _ ← ensure_not_disposed;
  modify (λ s, Interrupt Active (is_cancelled s) (is_disposed s) (parent s)).
Definition dispose (s : InterruptionState) : InterruptionState :=
  Interrupt (signal s) true true (parent s).
Definition connect_to_parent (p s : InterruptionState) : InterruptionState :=
  Interrupt (signal s) (is_cancelled s) (is_disposed s) (Some p).

(** [check]: the own signal, or else the parent's. *)
Fixpoint check (s : InterruptionState) : option InterruptionSignal :=
  match s with
  | Interrupt Active _ _ (Some p) => check p
  | Interrupt Active _ _ None => None
  | Interrupt sig _ _ _ => Some sig
  end.
Definition is_interrupted (s : InterruptionState) : bool := bool_decide (is_Some (check s)).

(** * The execution state *)

(** [ExecutionStatus] and [is_terminal] *)
Inductive ExecutionStatus : Type :=
| SCreated | SRunning | SPaused | SCompleted | SFailed | SCancelled | SStopped | STimeout.
#[export] Instance ExecutionStatus_eq_dec : EqDecision ExecutionStatus.
Proof. solve_decision. Defined.
Definition status_is_terminal (s : ExecutionStatus) : bool :=
  match s with SCompleted | SFailed | SCancelled | SStopped | STimeout => true | _ => false end.

(** [NodeExecutionRecord]; the payloads are the capped ones. *)
Record NodeExecutionRecord : Type := {
  rec_node_id : string;
  rec_node_name : string;
  rec_node_type : string;
  rec_start_time : Z;
  rec_end_time : option Z;
  rec_success : bool;
  rec_error : option string;
  rec_input : option value;
  rec_result : option value;
  rec_branch_id : option string;
  rec_metadata : option value;
}.

(** [ErrorRecord], as far as the engine reads it back: the failed node and what
    went wrong. *)
Record ErrorRecord : Type := { error_node_id : option string; error_cause : WorkflowError }.

(** [WorkflowExecutionState] *)
Record WorkflowExecutionState : Type := {
  status : ExecutionStatus;
  state_node : option string;
  state_completed : list string;
  node_execution_history : list NodeExecutionRecord;
  start_time : Z;
  end_time : option Z;
  state_error : option string;
  error_records : list ErrorRecord;
  interruption_records : list value;
  timeout_count : Z;
  error_suspend : option ErrorSuspendState;
}.
Definition new_state (now : Z) : WorkflowExecutionState :=
  {| status := SCreated; state_node := None; state_completed := []; node_execution_history := [];
     start_time := now; end_time := None; state_error := None; error_records := [];
     interruption_records := []; timeout_count := 0; error_suspend := None |}.

(** [transition_allowed] *)
Definition transition_allowed (source target : ExecutionStatus) : bool :=
  match source, target with
  | SCreated, (SRunning | SPaused | SCancelled | SStopped) => true
  | SRunning, (SRunning | SPaused | SCompleted | SFailed | SCancelled | SStopped | STimeout) => true
  | SPaused, (SRunning | SFailed | SCancelled | SStopped | STimeout) => true
  | _, _ => false
  end.

(** [apply] *)
Definition set_status (x : ExecutionStatus) (started : Z) (ended : option Z)
    (s : WorkflowExecutionState) : WorkflowExecutionState :=
  {| status := x; state_node := state_node s; state_completed := state_completed s;
     node_execution_history := node_execution_history s; start_time := started; end_time := ended;
     state_error := state_error s; error_records := error_records s;
     interruption_records := interruption_records s; timeout_count := timeout_count s;
     error_suspend := error_suspend s |}.
Definition apply_status (target : ExecutionStatus) (now : Z) (s : WorkflowExecutionState) :
    WorkflowExecutionState :=
  match target with
  | SRunning =>
      set_status SRunning (if decide (status s = SCreated) then now else start_time s) (end_time s) s
  | SPaused => set_status SPaused (start_time s) (end_time s) s
  | SCreated => s
  | _ => set_status target (start_time s) (Some now) s
  end.

(** [transition] and the operations on top of it *)
Definition status_transition (target : ExecutionStatus) (now : Z) :
    SE WorkflowExecutionState WorkflowError () := λ s,
  if transition_allowed (status s) target then (apply_status target now s, Ok tt)
  else (s, Err (StateTransitionError "illegal status transition")).
Definition set_state_error (e : string) (s : WorkflowExecutionState) : WorkflowExecutionState :=
  {| status := status s; state_node := state_node s; state_completed := state_completed s;
     node_execution_history := node_execution_history s; start_time := start_time s;
     end_time := end_time s; state_error := Some e; error_records := error_records s;
     interruption_records := interruption_records s; timeout_count := timeout_count s;
     error_suspend := error_suspend s |}.
Definition state_start := status_transition SRunning.
Definition state_pause := status_transition SPaused.
Definition state_complete := status_transition SCompleted.
Definition state_cancel := status_transition SCancelled.
Definition state_fail (e : string) (now : Z) : SE WorkflowExecutionState WorkflowError () :=
  _ ← status_transition SFailed now; modify (set_state_error e).
Definition state_timeout (e : string) (now : Z) : SE WorkflowExecutionState WorkflowError () :=
  _ ← status_transition STimeout now; modify (set_state_error e).

(** [set_current_node], [mark_node_completed], [record_node_execution],
    [add_error_record], [record_interruption], [increment_timeout_count],
    [set_error_suspend] *)
Definition set_state_node (x : option string) (s : WorkflowExecutionState) : WorkflowExecutionState :=
  {| status := status s; state_node := x; state_completed := state_completed s;
     node_execution_history := node_execution_history s; start_time := start_time s;
     end_time := end_time s; state_error := state_error s; error_records := error_records s;
     interruption_records := interruption_records s; timeout_count := timeout_count s;
     error_suspend := error_suspend s |}.
Definition mark_node_completed (x : string) (s : WorkflowExecutionState) : WorkflowExecutionState :=
  {| status := status s; state_node := state_node s; state_completed := state_completed s ++ [x];
     node_execution_history := node_execution_history s; start_time := start_time s;
     end_time := end_time s; state_error := state_error s; error_records := error_records s;
     interruption_records := interruption_records s; timeout_count := timeout_count s;
     error_suspend := error_suspend s |}.
Definition add_execution (r : NodeExecutionRecord) (s : WorkflowExecutionState) :
    WorkflowExecutionState :=
  {| status := status s; state_node := state_node s; state_completed := state_completed s;
     node_execution_history := node_execution_history s ++ [r]; start_time := start_time s;
     end_time := end_time s; state_error := state_error s; error_records := error_records s;
     interruption_records := interruption_records s; timeout_count := timeout_count s;
     error_suspend := error_suspend s |}.
Definition add_error_record (r : ErrorRecord) (s : WorkflowExecutionState) : WorkflowExecutionState :=
  {| status := status s; state_node := state_node s; state_completed := state_completed s;
     node_execution_history := node_execution_history s; start_time := start_time s;
     end_time := end_time s; state_error := state_error s; error_records := error_records s ++ [r];
     interruption_records := interruption_records s; timeout_count := timeout_count s;
     error_suspend := error_suspend s |}.
Definition record_interruption (r : value) (s : WorkflowExecutionState) : WorkflowExecutionState :=
  {| status := status s; state_node := state_node s; state_completed := state_completed s;
     node_execution_history := node_execution_history s; start_time := start_time s;
     end_time := end_time s; state_error := state_error s; error_records := error_records s;
     interruption_records := interruption_records s ++ [r]; timeout_count := timeout_count s;
     error_suspend := error_suspend s |}.
Definition increment_timeout_count (s : WorkflowExecutionState) : WorkflowExecutionState :=
  {| status := status s; state_node := state_node s; state_completed := state_completed s;
     node_execution_history := node_execution_history s; start_time := start_time s;
     end_time := end_time s; state_error := state_error s; error_records := error_records s;
     interruption_records := interruption_records s; timeout_count := wrap32 (timeout_count s + 1);
     error_suspend := error_suspend s |}.
Definition set_error_suspend (x : option ErrorSuspendState) (s : WorkflowExecutionState) :
    WorkflowExecutionState :=
  {| status := status s; state_node := state_node s; state_completed := state_completed s;
     node_execution_history := node_execution_history s; start_time := start_time s;
     end_time := end_time s; state_error := state_error s; error_records := error_records s;
     interruption_records := interruption_records s; timeout_count := timeout_count s;
     error_suspend := x |}.

(** * Variable injections *)

Inductive VariableInjectionPolicy : Type := NextBoundary | OnResume.
#[export] Instance VariableInjectionPolicy_eq_dec : EqDecision VariableInjectionPolicy.
Proof. solve_decision. Defined.
Record PendingVariableInjection : Type := {
  inj_id : string;
  inj_name : string;
  inj_value : value;
  inj_source : string;
  inj_submitted_at : Z;
  inj_policy : VariableInjectionPolicy;
}.
Definition MAX_PENDING_VARIABLE_INJECTIONS : nat := 128.
Definition MAX_INJECTION_VARIABLE_NAME_LEN : nat := 128.
Definition VARIABLE_INJECTION_SOURCES : list string :=
  ["user"; "cli"; "tui"; "web"; "workflow-console"; "api"].
Definition normalize_injection_source (source : option string) : result string string :=
  match source with
  | None => Ok "api"
  | Some raw => if decide (raw ∈ VARIABLE_INJECTION_SOURCES) then Ok raw
                else Err "unknown variable injection source"
  end.

Section injections.
  (** [wf_common::template::validate_template_path] *)
  Variable validate_template_path : string → option string.

Definition validate_injection_variable_name (name : string) : result string () :=
  if decide (name = "") then Err "variable name must not be empty"
  else if decide (MAX_INJECTION_VARIABLE_NAME_LEN < String.length name) then Err "variable name is too long"
  else if is_internal_variable name then Err "refusing to inject internal variable"
  else if contains "."%char name then Err "variable injection accepts top-level names only"
  else if is_system_reserved_variable name then Err "refusing to inject reserved system variable"
  else match validate_template_path name with Some reason => Err reason | None => Ok tt end.

(** [submit_variable_injection]: [id] and [now] are the generated id and the
    clock. *)
Definition submit_variable_injection (st : ExecutionStatus) (id : string) (now : Z) (name : string)
    (v : value) (source : option string) (policy : option VariableInjectionPolicy) :
    SE (gmap string PendingVariableInjection) string PendingVariableInjection :=
  if status_is_terminal st then throw "execution is terminal" else
  _ ← lift (validate_injection_variable_name name);
  src ← lift (normalize_injection_source source);
  pending ← get_state;
  if decide (MAX_PENDING_VARIABLE_INJECTIONS ≤ size pending) then throw "injection buffer is full"
  else
    let injection := {| inj_id := id; inj_name := name; inj_value := v; inj_source := src;
                        inj_submitted_at := now; inj_policy := default NextBoundary policy |} in
    _ ← put_state (<[id := injection]> pending);
    mret injection.

(** [drain_variable_injections]: the items of a policy, ordered by submission
    time and id, and the buffer without them. *)
Definition submitted_le (a b : PendingVariableInjection) : Prop :=
  (inj_submitted_at a < inj_submitted_at b)%Z ∨
  inj_submitted_at a = inj_submitted_at b ∧ String.le (inj_id a) (inj_id b).
#[export] Instance submitted_le_dec : RelDecision submitted_le.
Proof. unfold submitted_le. intros a b. apply _. Defined.
Definition drain_variable_injections (policy : VariableInjectionPolicy)
    (pending : gmap string PendingVariableInjection) :
    list PendingVariableInjection * gmap string PendingVariableInjection :=
  let items := filter (λ i, inj_policy i = policy) (snd <$> map_to_list pending) in
  (merge_sort submitted_le items, foldl (λ m i, delete (inj_id i) m) pending items).
Definition remove_variable_injection (id : string) (pending : gmap string PendingVariableInjection) :
    gmap string PendingVariableInjection * bool :=
  (delete id pending, bool_decide (is_Some (pending !! id))).
End injections.

(** * The entity *)

(** [WorkflowExecutionEntity], without the variable map, which the coordinator
    owns as well and keeps for both. *)
Record WorkflowExecutionEntity : Type := {
  entity_id : string;
  state : WorkflowExecutionState;
  interruption : InterruptionState;
  node_results : gmap string value;
  pending_injections : gmap string PendingVariableInjection;
}.

(** * Lemmas *)

(** A settled execution stays settled. *)
Lemma transition_allowed_terminal s t : status_is_terminal s = true → transition_allowed s t = false.
Proof. by destruct s, t. Qed.

Lemma status_transition_terminal s t now :
  status_is_terminal (status s) = true → ∃ e, status_transition t now s = (s, Err e).
Proof.
  intros Hs. unfold status_transition. rewrite transition_allowed_terminal by done. eauto.
Qed.

(** The own signal wins; without one the parent's counts. *)
Lemma check_spec s :
  check s = match signal s with Active => parent s ≫= check | sig => Some sig end.
Proof. destruct s as [[] ? ? [p|]]; done. Qed.
Lemma check_not_active : ∀ s, check s ≠ Some Active.
Proof.
  fix IH 1. intros [[] ? ? [p|]]; simpl; [apply IH|done..].
Qed.
