(* ===== verification/SnapshotFields.v ===== *)
(** The fields of a workflow snapshot that a delta reads back from their encoding,
    with the encodings [serde] derives for them: [OperationState]
    (wf-types/src/checkpoint/workflow/snapshot.rs), [ExecutionHierarchy]
    (wf-types/src/execution/hierarchy.rs) and [ErrorSuspendState]
    (wf-types/src/workflow/error_branch.rs).  The members of an object are in the
    order of their names. *)

From S2P Require Import Prelude Hierarchy Json GraphTypes Entity.

(** The members of a written struct, one by one. *)
Ltac read_members :=
  unfold optional_member; cbn [app];
  repeat first [rewrite get_optional | rewrite get_member]; cbn [String.eqb Ascii.eqb Bool.eqb].

(** * Operations *)

Record OperationState : Type := {
  op_type : string;
  op_operation_id : string;
  op_node_id : option string;
  op_started_at : Z;
  op_progress : option value;
  op_partial_result : option value;
}.
#[export] Instance operation_eq_dec : EqDecision OperationState.
Proof. solve_decision. Defined.
Definition operation_to_value (o : OperationState) : value :=
  VObject (optional_entry "nodeId" VString (op_node_id o) ++ [("operationId", VString (op_operation_id o))] ++
    optional_entry "partialResult" id (op_partial_result o) ++ optional_entry "progress" id (op_progress o) ++
    [("startedAt", i64_to_value (op_started_at o)); ("type", VString (op_type o))]).
Definition operation_from_value (v : value) : option OperationState :=
  ty ← get v "type" ≫= as_str;
  id ← get v "operationId" ≫= as_str;
  node ← optional_member v "nodeId" as_str;
  started ← get v "startedAt" ≫= as_i64;
  progress ← optional_member v "progress" Some;
  partial ← optional_member v "partialResult" Some;
  Some {| op_type := ty; op_operation_id := id; op_node_id := node; op_started_at := started; op_progress := progress;
          op_partial_result := partial |}.
#[export] Instance operation_serde : Serde OperationState :=
  {| to_value := operation_to_value; from_value := operation_from_value |}.

(** Reading an operation back: an explicit [null] in an optional JSON field is gone. *)
Definition explicit (o : option value) : option value := if decide (o = Some VNull) then None else o.
Lemma operation_read_back (o : OperationState) :
  (i64_min ≤ op_started_at o ≤ i64_max)%Z →
  operation_from_value (operation_to_value o) =
    Some {| op_type := op_type o; op_operation_id := op_operation_id o; op_node_id := op_node_id o; op_started_at := op_started_at o;
            op_progress := explicit (op_progress o); op_partial_result := explicit (op_partial_result o) |}.
Proof.
  intros Ht%as_i64_to_value. destruct o as [ty i node st prog part]. unfold operation_from_value, operation_to_value.
  cbn [op_type op_operation_id op_node_id op_started_at op_progress op_partial_result] in *.
  read_members.
  cbn [mbind option_bind as_str]. rewrite Ht. cbn [mbind option_bind].
  destruct node as [node|], prog as [[]|], part as [[]|]; done.
Qed.
(** The operations that their encoding keeps. *)
Definition operation_kept (o : OperationState) : Prop :=
  (i64_min ≤ op_started_at o ≤ i64_max)%Z ∧ op_progress o ≠ Some VNull ∧ op_partial_result o ≠ Some VNull.
Lemma operation_roundtrip o : operation_kept o → from_value (to_value o) = Some o.
Proof.
  intros (H1 & H2 & H3). unfold from_value, to_value, operation_serde. rewrite operation_read_back by done. unfold explicit. rewrite !decide_False by done. by destruct o.
Qed.

(** * Hierarchy *)

#[export] Instance hierarchy_eq_dec : EqDecision ExecutionHierarchy.
Proof. assert (EqDecision ForkPath) by solve_decision. solve_decision. Defined.
#[export] Instance suspend_eq_dec : EqDecision ErrorSuspendState.
Proof.
  assert (EqDecision NodeErrorCategory) by solve_decision. assert (EqDecision NodeFailureSource) by solve_decision.
  assert (EqDecision ErrorBranchSummary) by solve_decision. solve_decision.
Defined.
(** A variant is read from its name. *)
Definition of_name {A} (name : A → string) (all : list A) (v : value) : option A :=
  s ← as_str v; snd <$> list_find (λ a, name a = s) all.
Definition type_of : value → option ExecutionType := of_name Hierarchy.as_str [Workflow; Agent; Chat].
Definition fork_path_to_value (f : ForkPath) : value :=
  VObject [("branch_path_id", VString (branch_path_id f)); ("fork_node_id", VString (fork_node_id f))].
Definition fork_path_from_value (v : value) : option ForkPath :=
  node ← get v "fork_node_id" ≫= as_str;
  branch ← get v "branch_path_id" ≫= as_str;
  Some {| fork_node_id := node; branch_path_id := branch |}.
Definition hierarchy_to_value (h : ExecutionHierarchy) : value :=
  VObject ([("execution_id", VString (h_execution_id h))] ++ optional_entry "fork_path" fork_path_to_value (h_fork_path h) ++
    optional_entry "parent_execution_type" (VString ∘ Hierarchy.as_str) (parent_execution_type h) ++
    [("path", VString (path h))] ++
    optional_entry "root_execution_type" (VString ∘ Hierarchy.as_str) (h_root_execution_type h) ++
    [("workflow_id", VString (workflow_id h))]).
Definition hierarchy_from_value (v : value) : option ExecutionHierarchy :=
  workflow ← get v "workflow_id" ≫= as_str;
  execution ← get v "execution_id" ≫= as_str;
  parent ← optional_member v "parent_execution_type" type_of;
  root ← optional_member v "root_execution_type" type_of;
  chain ← get v "path" ≫= as_str;
  fork ← optional_member v "fork_path" fork_path_from_value;
  Some {| workflow_id := workflow; h_execution_id := execution; parent_execution_type := parent;
          h_root_execution_type := root; path := chain; h_fork_path := fork |}.
#[export] Instance hierarchy_serde : Serde ExecutionHierarchy :=
  {| to_value := hierarchy_to_value; from_value := hierarchy_from_value |}.
#[export] Instance hierarchy_serde_laws : SerdeLaws ExecutionHierarchy.
Proof.
  split; [|done]. intros [w e p r chain f]. unfold from_value, to_value, hierarchy_serde, hierarchy_from_value, hierarchy_to_value.
  cbn [workflow_id h_execution_id parent_execution_type h_root_execution_type path h_fork_path].
  read_members. by destruct p as [[]|], r as [[]|], f as [[]|].
Qed.

(** * Suspended error branches *)

Definition category_of : value → option NodeErrorCategory :=
  of_name category_str [TransportTimeout; BusinessFailure; CancelledInterrupted; CompressionFailure; Resource].
Definition source_of : value → option NodeFailureSource := of_name source_str [Handler; HookVeto; Approval].
Definition summary_to_value (s : ErrorBranchSummary) : value :=
  VObject [("attempts", u64_to_value (summary_attempts s)); ("category", VString (category_str (summary_category s)));
           ("message", VString (summary_message s)); ("source", VString (source_str (summary_source s)));
           ("source_node_id", VString (summary_source_node s))].
(** [attempts] is a [u32]; a missing [source] is the default. *)
Definition as_u32 (v : value) : option Z := n ← as_u64 v; if decide (n ≤ u32_max)%Z then Some n else None.
Definition summary_from_value (v : value) : option ErrorBranchSummary :=
  message ← get v "message" ≫= as_str;
  category ← get v "category" ≫= category_of;
  node ← get v "source_node_id" ≫= as_str;
  attempts ← get v "attempts" ≫= as_u32;
  source ← match get v "source" with None => Some Handler | Some w => source_of w end;
  Some {| summary_message := message; summary_category := category; summary_source_node := node; summary_attempts := attempts;
          summary_source := source |}.
Definition suspend_to_value (s : ErrorSuspendState) : value :=
  VObject [("summary", summary_to_value (suspend_summary s)); ("suspended_at", i64_to_value (suspended_at s));
           ("target_node_id", VString (suspend_target s))].
Definition suspend_from_value (v : value) : option ErrorSuspendState :=
  summary ← get v "summary" ≫= summary_from_value;
  target ← get v "target_node_id" ≫= as_str;
  at_ ← get v "suspended_at" ≫= as_i64;
  Some {| suspend_summary := summary; suspend_target := target; suspended_at := at_ |}.
#[export] Instance suspend_serde : Serde ErrorSuspendState :=
  {| to_value := suspend_to_value; from_value := suspend_from_value |}.
(** The integers of a suspension are what their types say. *)
Definition suspend_typed (s : ErrorSuspendState) : Prop :=
  (0 ≤ summary_attempts (suspend_summary s) ≤ u32_max)%Z ∧ (i64_min ≤ suspended_at s ≤ i64_max)%Z.
Lemma suspend_roundtrip s : suspend_typed s → from_value (to_value s) = Some s ∧ is_null (to_value s) = false.
Proof.
  intros [H1 H2%as_i64_to_value]. split; [|done]. destruct s as [[m c n a src] t at_].
  cbn [suspend_summary summary_attempts suspended_at] in H1, H2.
  unfold from_value, to_value, suspend_serde, suspend_from_value, suspend_to_value, summary_to_value.
  cbn [suspend_summary suspended_at suspend_target summary_attempts summary_category summary_message summary_source summary_source_node].
  read_members. cbn [mbind option_bind]. unfold summary_from_value. read_members. cbn [mbind option_bind as_str]. rewrite H2.
  unfold as_u32, u64_to_value. cbn [as_u64 mbind option_bind]. rewrite decide_True by lia. by destruct c, src.
Qed.
