(* ===== verification/DeltaWorkflow.v ===== *)
(** Diffs of workflow snapshots:
    checkpoint-base/src/delta/calculator/workflow.rs, with the snapshot and
    delta types of wf-types/src/checkpoint/workflow/.

    The message type (of the [llm-types] crate) and the field types that are
    only compared, cloned and serialised are parameters; [Serde] is what the
    code relies on for the latter.  The fields that are read back from their
    encoding are those of [SnapshotFields].  [replayable] states which
    changes a delta can carry; for those the calculator satisfies the
    interface [LawfulDiff].  JSON values are taken up to [PartialEq]: both zeros
    have one bit pattern here. *)

From S2P Require Import Prelude Hierarchy Entity Json CheckpointGraph CleanupPolicy DeltaChain SnapshotFields.

(** [FieldChange] *)
Record FieldChange : Type := { from : option string; to : option string }.

Definition VARIABLE_DELETED_MARKER_KEY : string := "__wf_variable_deleted__".

(** [is_variable_deleted_marker] *)
Definition is_variable_deleted_marker (v : value) : bool :=
  bool_decide (get v VARIABLE_DELETED_MARKER_KEY = Some (VBool true)).
(** [variable_deleted_marker] *)
Definition variable_deleted_marker : value := VObject [(VARIABLE_DELETED_MARKER_KEY, VBool true)].

Section workflow.
  Context {Message : Type} `{!EqDecision Message} (message_id : Message → string).
  Context {NodeExecutionRecord : Type} `{!EqDecision NodeExecutionRecord, !Serde NodeExecutionRecord}.

(** [MessageContextSnapshot], [MessageContextDelta] *)
Record MessageContextSnapshot : Type := { ctx_messages : list Message; version : Z }.
Record MessageContextDelta : Type := { ctx_added_messages : list Message }.

(** [WorkflowExecutionStateSnapshot] *)
Record WorkflowExecutionStateSnapshot : Type := {
  execution_id : string;
  status : string;
  current_node_id : option string;
  node_results : option (gmap string value);
  variable_state : gmap string value;
  message_contexts : option (gmap string MessageContextSnapshot);
  input : option value;
  output : option value;
  messages : option (list Message);
  fork_join_context : option value;
  active_operations : option (list OperationState);
  node_execution_records : option (list NodeExecutionRecord);
  conversation_state : option value;
  trigger_states : option value;
  error_records : option (list value);
  interruption_records : option (list value);
  event_records : option (list value);
  hierarchy : option ExecutionHierarchy;
  execution_config : option value;
  fork_join_aggregation_state : option value;
  hook_execution_context : option value;
  error_suspend : option ErrorSuspendState;
}.

(** [WorkflowCheckpointDelta] *)
Record WorkflowCheckpointDelta : Type := {
  added_messages : option (list Message);
  modified_messages : option (list Message);
  deleted_message_indices : option (list Z);
  added_variables : option (gmap string value);
  modified_variables : option (gmap string value);
  delta_message_contexts : option (gmap string MessageContextDelta);
  added_node_results : option value;
  modified_node_results : option (gmap string value);
  status_change : option FieldChange;
  current_node_change : option FieldChange;
  other_changes : option (gmap string value);
}.

(** [(!l.is_empty()).then_some(l)] *)
Definition non_empty {A} (l : list A) : option (list A) :=
  match l with [] => None | _ => Some l end.
Definition non_empty_map {A} (m : gmap string A) : option (gmap string A) :=
  if decide (m = ∅) then None else Some m.

(** [iter().find(|c| c.id == id)] *)
Definition find_message (x : string) (l : list Message) : option Message :=
  snd <$> list_find (λ m, message_id m = x) l.

(** The loop over the previous messages: modified ones and deleted indices. *)
Fixpoint scan_previous (curr : list Message) (idx : nat) (prev : list Message) :
    list Message * list Z :=
  match prev with
  | [] => ([], [])
  | message :: rest =>
      let '(modified, deleted) := scan_previous curr (S idx) rest in
      match find_message (message_id message) curr with
      | Some current_message =>
          (if decide (current_message = message) then modified else current_message :: modified,
           deleted)
      | None => (modified, wrap32 (Z.of_nat idx) :: deleted)
      end
  end.

(** [diff_messages] *)
Definition diff_messages (previous current : option (list Message)) :
    option (list Message) * option (list Message) * option (list Z) :=
  match previous, current with
  | None, None => (None, None, None)
  | None, Some curr => (Some curr, None, None)
  | Some prev, None =>
      (None, None, non_empty (Z.of_nat <$> seq 0 (Z.to_nat (wrap32 (Z.of_nat (length prev))))))
  | Some prev, Some curr =>
      let '(modified, deleted) := scan_previous curr 0 prev in
      let added := filter (λ m, find_message (message_id m) prev = None) curr in
      (non_empty added, non_empty modified, non_empty deleted)
  end.

(** [diff_variables] *)
Definition diff_variables (previous current : gmap string value) :
    option (gmap string value) * option (gmap string value) :=
  let added := filter (λ kv, previous !! kv.1 = None) current in
  let changed := filter (λ kv, match previous !! kv.1 with
                               | Some v => bool_decide (v ≠ kv.2) | None => false end = true) current in
  let deleted := (λ _, variable_deleted_marker) <$> filter (λ kv, current !! kv.1 = None) previous in
  (non_empty_map added, non_empty_map (deleted ∪ changed)).

(** [diff_message_contexts] *)
Definition context_added (previous : gmap string MessageContextSnapshot) (context_id : string)
    (curr_ctx : MessageContextSnapshot) : list Message :=
  let prev_messages := match previous !! context_id with Some c => ctx_messages c | None => [] end in
  filter (λ m, message_id m ∉ message_id <$> prev_messages) (ctx_messages curr_ctx).
Definition diff_message_contexts (current previous : option (gmap string MessageContextSnapshot)) :
    option (gmap string MessageContextDelta) :=
  match current with
  | None => None
  | Some current =>
      let previous := default ∅ previous in
      non_empty_map (map_imap (λ context_id curr_ctx,
        match context_added previous context_id curr_ctx with
        | [] => None
        | added => Some {| ctx_added_messages := added |}
        end) current)
  end.

(** [diff_node_results] *)
Definition diff_node_results (previous current : option (gmap string value)) :
    option value * option (gmap string value) :=
  match previous, current with
  | Some prev, Some curr => (None, non_empty_map (filter (λ kv, prev !! kv.1 ≠ Some kv.2) curr))
  | None, Some curr => (Some (object_of curr), None)
  | _, None => (None, None)
  end.

(** [if current.f != previous.f { other.insert(key, v) }] *)
Definition insert_changed {A} `{EqDecision A} (key : string) (previous current : A) (v : value)
    (other : gmap string value) : gmap string value :=
  if decide (current = previous) then other else <[key := v]> other.

(** [diff_other_changes] *)
Definition diff_other_changes (p c : WorkflowExecutionStateSnapshot) : option (gmap string value) :=
  let other : gmap string value := ∅ in
  let other := insert_changed "input" (input p) (input c) (default VNull (input c)) other in
  let other := insert_changed "output" (output p) (output c) (default VNull (output c)) other in
  let other := insert_changed "fork_join_context" (fork_join_context p) (fork_join_context c)
                 (default VNull (fork_join_context c)) other in
  let other := insert_changed "active_operations" (active_operations p) (active_operations c)
                 (option_to_value (vec_to_value to_value) (active_operations c)) other in
  let other := insert_changed "node_execution_records" (node_execution_records p)
                 (node_execution_records c)
                 (option_to_value (vec_to_value to_value) (node_execution_records c)) other in
  let other := insert_changed "conversation_state" (conversation_state p) (conversation_state c)
                 (default VNull (conversation_state c)) other in
  let other := insert_changed "trigger_states" (trigger_states p) (trigger_states c)
                 (default VNull (trigger_states c)) other in
  let other := insert_changed "error_records" (error_records p) (error_records c)
                 (option_to_value VArray (error_records c)) other in
  let other := insert_changed "interruption_records" (interruption_records p)
                 (interruption_records c) (option_to_value VArray (interruption_records c)) other in
  let other := insert_changed "event_records" (event_records p) (event_records c)
                 (option_to_value VArray (event_records c)) other in
  let other := insert_changed "hierarchy" (hierarchy p) (hierarchy c)
                 (option_to_value to_value (hierarchy c)) other in
  let other := insert_changed "execution_config" (execution_config p) (execution_config c)
                 (default VNull (execution_config c)) other in
  let other := insert_changed "fork_join_aggregation_state" (fork_join_aggregation_state p)
                 (fork_join_aggregation_state c)
                 (default VNull (fork_join_aggregation_state c)) other in
  let other := insert_changed "hook_execution_context" (hook_execution_context p)
                 (hook_execution_context c) (default VNull (hook_execution_context c)) other in
  let other := insert_changed "error_suspend" (error_suspend p) (error_suspend c)
                 (option_to_value to_value (error_suspend c)) other in
  non_empty_map other.

(** [calculate_diff] *)
Definition workflow_diff (previous current : WorkflowExecutionStateSnapshot) :
    result CheckpointError WorkflowCheckpointDelta :=
  let '(added, modified, deleted) := diff_messages (messages previous) (messages current) in
  let '(added_vars, modified_vars) :=
    diff_variables (variable_state previous) (variable_state current) in
  let '(added_results, modified_results) :=
    diff_node_results (node_results previous) (node_results current) in
  Ok {| added_messages := added;
        modified_messages := modified;
        deleted_message_indices := deleted;
        added_variables := added_vars;
        modified_variables := modified_vars;
        delta_message_contexts :=
          diff_message_contexts (message_contexts current) (message_contexts previous);
        added_node_results := added_results;
        modified_node_results := modified_results;
        status_change :=
          if decide (status current = status previous) then None
          else Some {| from := Some (status previous); to := Some (status current) |};
        current_node_change :=
          if decide (current_node_id current = current_node_id previous) then None
          else Some {| from := current_node_id previous; to := current_node_id current |};
        other_changes := diff_other_changes previous current |}.

(** [if let Some(idx) = messages.iter().position(..) { messages[idx] = .. }] *)
Definition replace_message (msgs : list Message) (message : Message) : list Message :=
  match list_find (λ m, message_id m = message_id message) msgs with
  | Some (idx, _) => <[idx := message]> msgs
  | None => msgs
  end.

(** The message part of [apply_delta]; [Vec::remove] behind its bounds check
    is [delete]. *)
Definition apply_messages (base added modified : option (list Message)) (deleted : option (list Z)) :
    option (list Message) :=
  match added, modified, deleted with
  | None, None, None => base
  | _, _, _ =>
      let msgs := default [] base ++ default [] added in
      let msgs := foldl replace_message msgs (default [] modified) in
      let indices := merge_sort (flip le) (Z.to_nat <$> default [] deleted) in
      Some (foldl (λ l idx, delete idx l) msgs indices)
  end.

(** [entry.messages.push(message)] unless the id is there already. *)
Definition push_missing (l : list Message) (m : Message) : list Message :=
  if decide (message_id m ∈ message_id <$> l) then l else l ++ [m].
Definition apply_context (o : option MessageContextSnapshot) (d : MessageContextDelta) :
    MessageContextSnapshot :=
  let entry := default {| ctx_messages := []; version := 0 |} o in
  {| ctx_messages := foldl push_missing (ctx_messages entry) (ctx_added_messages d);
     version := version entry |}.
Definition apply_contexts (base : option (gmap string MessageContextSnapshot))
    (d : option (gmap string MessageContextDelta)) : option (gmap string MessageContextSnapshot) :=
  match d with
  | None => base
  | Some contexts =>
      let m := default ∅ base in
      Some (map_imap (λ x d, Some (apply_context (m !! x) d)) contexts ∪ m)
  end.

(** The node results: a wholesale replacement, then the keyed changes. *)
Definition apply_node_results (base : option (gmap string value)) (added : option value)
    (modified : option (gmap string value)) :
    result CheckpointError (option (gmap string value)) :=
  replaced ← (match added with
           | None => Ok base
           | Some v =>
               match as_map v with
               | Some parsed => Ok (Some parsed)
               | None => Err (Corrupted "" "node results deserialization failed while applying delta")
               end
           end);
  Ok (match modified with
      | None => replaced
      | Some m => Some (m ∪ default ∅ replaced)
      end).

(** The variables: additions, then modifications with deletion markers. *)
Definition apply_variables (base : gmap string value) (added modified : option (gmap string value)) :
    gmap string value :=
  let vars := default ∅ added ∪ base in
  match modified with
  | None => vars
  | Some m =>
      map_fold (λ name v vars, if is_variable_deleted_marker v then delete name vars
                               else <[name := v]> vars) vars m
  end.

(** [(!v.is_null()).then(|| v.clone())] *)
Definition non_null (v : value) : option value := if is_null v then None else Some v.

(** [if other.contains_key(key) { field = f(other.get(key)) }] *)
Definition apply_other {A} (other : option (gmap string value)) (key : string) (base : A)
    (f : value → A) : A :=
  match other with
  | None => base
  | Some m => match m !! key with None => base | Some v => f v end
  end.

(** [apply_delta] *)
Definition workflow_apply (base : WorkflowExecutionStateSnapshot) (d : WorkflowCheckpointDelta) :
    result CheckpointError WorkflowExecutionStateSnapshot :=
  let other := other_changes d in
  results ← apply_node_results (node_results base) (added_node_results d) (modified_node_results d);
  Ok {| execution_id := execution_id base;
        status := match status_change d with
                  | Some c => default (status base) (to c)
                  | None => status base
                  end;
        current_node_id := match current_node_change d with
                           | Some c => match to c with Some n => Some n | None => current_node_id base end
                           | None => current_node_id base
                           end;
        node_results := results;
        variable_state := apply_variables (variable_state base) (added_variables d) (modified_variables d);
        message_contexts := apply_contexts (message_contexts base) (delta_message_contexts d);
        input := apply_other other "input" (input base) non_null;
        output := apply_other other "output" (output base) non_null;
        messages := apply_messages (messages base) (added_messages d) (modified_messages d)
                      (deleted_message_indices d);
        fork_join_context := apply_other other "fork_join_context" (fork_join_context base) non_null;
        active_operations :=
          apply_other other "active_operations" (active_operations base)
            (λ v, if is_null v then None else vec_from_value from_value v);
        node_execution_records := node_execution_records base;
        conversation_state :=
          apply_other other "conversation_state" (conversation_state base) non_null;
        trigger_states := apply_other other "trigger_states" (trigger_states base) non_null;
        error_records :=
          apply_other other "error_records" (error_records base)
            (λ v, non_null v ≫= as_array);
        interruption_records :=
          apply_other other "interruption_records" (interruption_records base)
            (λ v, non_null v ≫= as_array);
        event_records :=
          apply_other other "event_records" (event_records base) (λ v, non_null v ≫= as_array);
        hierarchy :=
          apply_other other "hierarchy" (hierarchy base) (λ v, non_null v ≫= from_value);
        execution_config := apply_other other "execution_config" (execution_config base) non_null;
        fork_join_aggregation_state :=
          apply_other other "fork_join_aggregation_state" (fork_join_aggregation_state base) non_null;
        hook_execution_context :=
          apply_other other "hook_execution_context" (hook_execution_context base) non_null;
        error_suspend :=
          apply_other other "error_suspend" (error_suspend base) (λ v, non_null v ≫= from_value) |}.

(** [impl DiffCalculator for WorkflowDiffCalculator] *)
#[export] Instance workflow_calculator :
    DiffCalculator WorkflowExecutionStateSnapshot WorkflowCheckpointDelta :=
  {| calculate_diff := workflow_diff; apply_delta := workflow_apply |}.

(** * Messages *)

(** [kept] is [prev] with some messages dropped and some replaced in place. *)
Inductive evolves : list Message → list Message → Prop :=
| evolves_nil : evolves [] []
| evolves_drop m p k : evolves p k → evolves (m :: p) k
| evolves_keep m c p k : message_id m = message_id c → evolves p k → evolves (m :: p) (c :: k).

Definition replayable_messages (previous current : option (list Message)) : Prop :=
  match previous, current with
  | None, _ => True
  | Some _, None => False
  | Some prev, Some curr =>
      ∃ kept new, curr = kept ++ new ∧ evolves prev kept ∧
        NoDup (message_id <$> prev) ∧ NoDup (message_id <$> curr) ∧
        (∀ m, m ∈ new → message_id m ∉ message_id <$> prev) ∧
        (Z.of_nat (length prev) <= u32_max)%Z
  end.

Lemma find_message_None x l : find_message x l = None ↔ x ∉ message_id <$> l.
Proof.
  unfold find_message. rewrite fmap_None, list_find_None, Forall_forall.
  rewrite list_elem_of_fmap. naive_solver.
Qed.

Lemma find_message_id x l m : find_message x l = Some m → m ∈ l ∧ message_id m = x.
Proof.
  unfold find_message. intros ([i m'] & (Hi & Hm & _)%list_find_Some & ->)%fmap_Some.
  split; [by eapply list_elem_of_lookup_2|done].
Qed.

Lemma find_message_nodup l m :
  NoDup (message_id <$> l) → m ∈ l → find_message (message_id m) l = Some m.
Proof.
  intros Hnd [i Hi]%list_elem_of_lookup. unfold find_message.
  assert (list_find (λ m', message_id m' = message_id m) l = Some (i, m)) as ->; [|done].
  apply list_find_Some. split_and!; [done..|]. intros j m' Hj Hlt Heq.
  assert (i = j); [|lia].
  apply (NoDup_lookup _ i j (message_id m) Hnd); rewrite list_lookup_fmap; [by rewrite Hi|].
  by rewrite Hj, <-Heq.
Qed.

(** Replacing by id, one message at a time, is replacing in every position. *)
Lemma replace_message_map l c :
  NoDup (message_id <$> l) →
  replace_message l c = (λ m, if decide (message_id m = message_id c) then c else m) <$> l.
Proof.
  unfold replace_message. induction l as [|m l IH]; [done|].
  rewrite fmap_cons, NoDup_cons. intros [Hm Hnd]. csimpl.
  destruct (decide (message_id m = message_id c)) as [Heq|Hne].
  - simpl. f_equal. symmetry. rewrite <-(list_fmap_id l) at 2. apply list_fmap_ext.
    intros i m' Hi. simpl. rewrite decide_False; [done|].
    intros Hc. apply Hm. rewrite Heq, <-Hc.
    apply list_elem_of_fmap_2. by eapply list_elem_of_lookup_2.
  - specialize (IH Hnd). destruct (list_find _ l) as [[i m']|]; csimpl; by rewrite <-IH.
Qed.

Definition update_from (mods : list Message) (m : Message) : Message :=
  default m (find_message (message_id m) mods).

Lemma replace_all l mods :
  NoDup (message_id <$> l) → NoDup (message_id <$> mods) →
  foldl replace_message l mods = update_from mods <$> l.
Proof.
  revert l. induction mods as [|c mods IH]; intros l Hl; cbn [foldl].
  { intros _. rewrite <-(list_fmap_id l) at 1. by apply list_fmap_ext. }
  rewrite fmap_cons, NoDup_cons. intros [Hc Hm]. rewrite replace_message_map by done.
  assert (Hids : message_id <$> ((λ m, if decide (message_id m = message_id c) then c else m) <$> l)
    = message_id <$> l).
  { rewrite <-list_fmap_compose. apply list_fmap_ext. intros i m _. simpl. by case_decide. }
  rewrite IH; [|by rewrite Hids|done]. rewrite <-list_fmap_compose. apply list_fmap_ext.
  intros i m _. simpl. unfold update_from, find_message. csimpl.
  case_decide as Hmc.
  - rewrite (decide_True (P := message_id c = message_id m)) by done. simpl.
    change (default c (find_message (message_id c) mods) = c).
    apply find_message_None in Hc. by rewrite Hc.
  - rewrite decide_False by congruence. by destruct (list_find _ mods) as [[]|].
Qed.

(** Deleting the scanned indices from the back keeps the messages that are
    still there. *)
Lemma delete_scanned curr (upd : Message → Message) pre l tail :
  (Z.of_nat (length pre + length l) <= u32_max)%Z →
  foldr (λ idx acc, delete idx acc) (pre ++ (upd <$> l) ++ tail)
    (Z.to_nat <$> (scan_previous curr (length pre) l).2) =
  pre ++ (upd <$> filter (λ m, find_message (message_id m) curr ≠ None) l) ++ tail.
Proof.
  revert pre. induction l as [|m l IH]; intros pre Hlen; [done|]. cbn [scan_previous].
  specialize (IH (pre ++ [upd m])). rewrite length_app in IH. simpl in IH, Hlen.
  replace (length pre + 1) with (S (length pre)) in IH by lia.
  specialize (IH ltac:(lia)). rewrite <-!app_assoc in IH. simpl in IH.
  destruct (scan_previous curr (S (length pre)) l) as [modified deleted]. simpl in IH.
  rewrite filter_cons. destruct (find_message (message_id m) curr) as [c|]; csimpl.
  - done.
  - rewrite wrap32_small by mlia. rewrite Nat2Z.id, IH. by rewrite delete_middle.
Qed.

Lemma scan_deleted_bounds curr k l i :
  (Z.of_nat (k + length l) <= u32_max)%Z →
  i ∈ Z.to_nat <$> (scan_previous curr k l).2 → k ≤ i.
Proof.
  revert k. induction l as [|m l IH]; intros k Hlen; cbn [scan_previous]; [by rewrite elem_of_nil|].
  simpl in Hlen. specialize (IH (S k) ltac:(lia)).
  destruct (scan_previous curr (S k) l) as [modified deleted]. simpl in *.
  destruct (find_message _ curr); simpl; [intros; specialize (IH ltac:(done)); lia|].
  rewrite wrap32_small, Nat2Z.id by mlia. intros [->|Hi]%elem_of_cons; [done|].
  specialize (IH Hi). lia.
Qed.

(** The indices come out ascending, so sorting them in descending order
    reverses them. *)
Lemma scan_deleted_sorted curr k l :
  (Z.of_nat (k + length l) <= u32_max)%Z →
  StronglySorted lt (Z.to_nat <$> (scan_previous curr k l).2).
Proof.
  revert k. induction l as [|m l IH]; intros k Hlen; cbn [scan_previous]; [constructor|].
  simpl in Hlen. pose proof (IH (S k) ltac:(lia)) as Hs.
  pose proof (λ i, scan_deleted_bounds curr (S k) l i ltac:(lia)) as Hb.
  destruct (scan_previous curr (S k) l) as [modified deleted]. simpl in *.
  destruct (find_message _ curr); simpl; [done|].
  rewrite wrap32_small, Nat2Z.id by mlia. constructor; [done|].
  apply Forall_forall. intros i Hi. specialize (Hb i Hi). lia.
Qed.

Lemma scan_modified curr k l :
  (scan_previous curr k l).1 =
  omap (λ m, match find_message (message_id m) curr with
             | Some c => if decide (c = m) then None else Some c
             | None => None
             end) l.
Proof.
  revert k. induction l as [|m l IH]; intros k; [done|]. cbn [scan_previous]. csimpl.
  specialize (IH (S k)). destruct (scan_previous curr (S k) l) as [modified deleted]. simpl in IH. subst.
  destruct (find_message _ curr); simpl; [by case_decide|done].
Qed.

Lemma scan_modified_ids curr k l x :
  x ∈ message_id <$> (scan_previous curr k l).1 → x ∈ message_id <$> l.
Proof.
  rewrite scan_modified, list_elem_of_fmap. intros (c & -> & (m & Hm & Hc)%list_elem_of_omap).
  destruct (find_message (message_id m) curr) as [c'|] eqn:Hf; [|done].
  apply find_message_id in Hf as [_ Hid]. case_decide; simplify_eq. rewrite Hid.
  by apply list_elem_of_fmap_2.
Qed.

Lemma scan_modified_nodup curr k l :
  NoDup (message_id <$> l) → NoDup (message_id <$> (scan_previous curr k l).1).
Proof.
  revert k. induction l as [|m l IH]; intros k; [done|]. rewrite fmap_cons, NoDup_cons.
  intros [Hm Hnd]. specialize (IH (S k) Hnd).
  pose proof (scan_modified_ids curr (S k) l (message_id m)) as Hids. cbn [scan_previous].
  destruct (scan_previous curr (S k) l) as [modified deleted].
  destruct (find_message (message_id m) curr) as [c|] eqn:Hf; [|done]. case_decide; [done|].
  cbn [fst] in *. rewrite fmap_cons, NoDup_cons. apply find_message_id in Hf as [_ ->]. auto.
Qed.

(** Updating from the scanned modifications installs the current version of
    every message that is still there. *)
Lemma update_scanned curr k l m :
  NoDup (message_id <$> l) → m ∈ l →
  update_from (scan_previous curr k l).1 m = default m (find_message (message_id m) curr).
Proof.
  intros Hnd Hm. unfold update_from.
  destruct (find_message (message_id m) curr) as [c|] eqn:Hf; simpl.
  - pose proof (find_message_id _ _ _ Hf) as [_ Hid].
    destruct (decide (c = m)) as [->|Hne].
    + destruct (find_message (message_id m) (scan_previous curr k l).1) as [c|] eqn:Hs; [|done].
      apply find_message_id in Hs as [Hc Hcid]. simpl.
      rewrite scan_modified in Hc. apply list_elem_of_omap in Hc as (m' & Hm' & Hc).
      destruct (find_message (message_id m') curr) as [c'|] eqn:Hf'; [|done].
      case_decide; simplify_eq. pose proof (find_message_id _ _ _ Hf') as [_ Hid'].
      congruence.
    + assert (Hc : c ∈ (scan_previous curr k l).1).
      { rewrite scan_modified. apply list_elem_of_omap. exists m. rewrite Hf. by rewrite decide_False. }
      rewrite <-Hid, (find_message_nodup _ c); [done|by apply scan_modified_nodup|done].
  - destruct (find_message (message_id m) (scan_previous curr k l).1) as [c|] eqn:Hs; [|done].
    apply find_message_id in Hs as [Hc Hcid]. rewrite scan_modified in Hc.
    apply list_elem_of_omap in Hc as (m' & Hm' & Hc).
    destruct (find_message (message_id m') curr) as [c'|] eqn:Hf'; [|done].
    case_decide; simplify_eq. apply find_message_id in Hf' as Hid'. destruct Hid' as [_ Hid'].
    congruence.
Qed.

(** The messages of [prev] still in [curr], in their current versions. *)
Lemma evolves_omap curr p k :
  evolves p k → NoDup (message_id <$> p) →
  (∀ c, c ∈ k → find_message (message_id c) curr = Some c) →
  (∀ m, m ∈ p → message_id m ∉ message_id <$> k → find_message (message_id m) curr = None) →
  (λ m, default m (find_message (message_id m) curr)) <$>
    filter (λ m, find_message (message_id m) curr ≠ None) p = k.
Proof.
  induction 1 as [|m p k He IH|m c p k Hid He IH]; rewrite ?fmap_cons, ?NoDup_cons; [done|..].
  - intros [Hm Hnd] Hk Hp. rewrite filter_cons_False.
    + apply IH; [done..|]. intros m' Hm'. apply Hp. by right.
    + intros Hn. apply Hn, Hp; [left|]. intros Hin. apply Hm.
      clear -Hin He. induction He as [|m' p k _ IH|m' c p k Hid _ IH]; [done|right; auto|].
      rewrite fmap_cons in *. apply elem_of_cons in Hin as [->|?]; [rewrite Hid; left|right; auto].
  - intros [Hm Hnd] Hk Hp. pose proof (Hk c ltac:(left)) as Hc. rewrite filter_cons_True by (rewrite Hid; congruence).
    rewrite fmap_cons, Hid, Hc. simpl. f_equal. apply IH; [done|intros; apply Hk; by right|].
    intros m' Hm' Hno. apply Hp; [by right|]. rewrite not_elem_of_cons. split; [|done].
    intros Heq. apply Hm. rewrite Hid, <-Heq. by apply list_elem_of_fmap_2.
Qed.

Lemma apply_messages_default base added modified deleted :
  is_Some base →
  apply_messages base (non_empty added) (non_empty modified) (non_empty deleted) =
  Some (foldl (λ l idx, delete idx l)
    (foldl replace_message (default [] base ++ added) modified)
    (merge_sort (flip le) (Z.to_nat <$> deleted))).
Proof.
  intros [b ->]. destruct added, modified, deleted; simpl; rewrite ?app_nil_r; done.
Qed.

Lemma apply_diff_messages p c :
  replayable_messages p c →
  apply_messages p (diff_messages p c).1.1 (diff_messages p c).1.2 (diff_messages p c).2 = c.
Proof.
  destruct p as [prev|], c as [curr|]; try done.
  intros (kept & new & -> & Hev & Hp & Hc & Hnew & Hlen). unfold diff_messages.
  set (curr := kept ++ new) in *.
  pose proof (delete_scanned curr (update_from (scan_previous curr 0 prev).1) [] prev) as Hdel.
  pose proof (scan_deleted_sorted curr 0 prev ltac:(simpl; lia)) as Hsorted.
  pose proof (scan_modified_nodup curr 0 prev Hp) as Hmnd.
  pose proof (scan_modified_ids curr 0 prev) as Hmids.
  pose proof (update_scanned curr 0 prev) as Hupd. simpl in Hdel.
  destruct (scan_previous curr 0 prev) as [modified deleted]. cbn [fst snd] in *.
  rewrite apply_messages_default by done. cbn [default from_option].
  assert (Hkids : ∀ m, m ∈ kept → message_id m ∈ message_id <$> prev).
  { clear -Hev. induction Hev as [|m p k _ IH|m c p k Hid _ IH]; [by intros ??%not_elem_of_nil|..].
    - intros. right. auto.
    - intros m' [->|?]%elem_of_cons; [rewrite <-Hid; left|right; auto]. }
  assert (Hadded : filter (λ m, find_message (message_id m) prev = None) curr = new).
  { subst curr. rewrite filter_app. rewrite list_filter_none, list_filter_all; [done| |].
    - intros m Hm. by apply find_message_None, Hnew.
    - intros m Hm Hn%find_message_None. by apply Hn, Hkids. }
  rewrite Hadded. f_equal.
  rewrite sort_descending, foldl_reverse by done.
  assert (Hnd : NoDup (message_id <$> prev ++ new)).
  { rewrite fmap_app. apply NoDup_app. split_and!; [done| |].
    - intros x Hx (m & -> & Hm)%list_elem_of_fmap. by apply (Hnew m Hm).
    - subst curr. rewrite fmap_app in Hc. by apply NoDup_app in Hc as (_ & _ & ?). }
  rewrite replace_all, fmap_app by done.
  assert (Hn2 : update_from modified <$> new = new).
  { rewrite <-(list_fmap_id new) at 2. apply list_fmap_ext. intros i m Hi. unfold update_from. simpl.
    assert (find_message (message_id m) modified = None) as ->; [|done].
    apply find_message_None. intros Hin%Hmids. eapply Hnew; [|done]. by eapply list_elem_of_lookup_2. }
  rewrite Hn2, Hdel by lia. subst curr. f_equal.
  etrans; [|apply (evolves_omap (kept ++ new) prev kept Hev Hp)].
  - apply list_fmap_ext. intros i m Hi%list_elem_of_lookup_2.
    apply list_elem_of_filter in Hi as [_ Hi]. by apply Hupd.
  - intros m Hm. apply find_message_nodup; [done|]. apply elem_of_app. by left.
  - intros m Hm Hk. apply find_message_None. rewrite fmap_app, elem_of_app. intros [?|Hn]; [done|].
    apply list_elem_of_fmap in Hn as (m' & Heq & Hm'). apply (Hnew m' Hm'). rewrite <-Heq.
    by apply list_elem_of_fmap_2.
Qed.

(** * Variables and node results *)

Lemma lookup_apply_modified (m vars : gmap string value) k :
  map_fold (λ name v vars, if is_variable_deleted_marker v then delete name vars
                           else <[name := v]> vars) vars m !! k =
  match m !! k with
  | None => vars !! k
  | Some v => if is_variable_deleted_marker v then None else Some v
  end.
Proof.
  apply (map_fold_weak_ind (λ (r : gmap string value) m, r !! k = match m !! k with
    | None => vars !! k | Some v => if is_variable_deleted_marker v then None else Some v end)).
  - by rewrite lookup_empty.
  - intros x v m' r Hx IH. destruct (decide (x = k)) as [->|Hne].
    + rewrite lookup_insert_eq. destruct (is_variable_deleted_marker v);
        [by rewrite lookup_delete_eq|by rewrite lookup_insert_eq].
    + rewrite lookup_insert_ne by done. destruct (is_variable_deleted_marker v);
        [by rewrite lookup_delete_ne|by rewrite lookup_insert_ne].
Qed.

Lemma default_non_empty_map {A} (m : gmap string A) : default ∅ (non_empty_map m) = m.
Proof. unfold non_empty_map. by case_decide. Qed.

(** No changed variable has the deletion marker as its new value. *)
Definition replayable_variables (p c : gmap string value) : Prop :=
  ∀ k v, c !! k = Some v → is_Some (p !! k) → p !! k ≠ Some v → is_variable_deleted_marker v = false.

Lemma apply_diff_variables p c :
  replayable_variables p c →
  apply_variables p (diff_variables p c).1 (diff_variables p c).2 = c.
Proof.
  intros Hmark. unfold diff_variables, apply_variables. cbn [fst snd].
  rewrite default_non_empty_map.
  set (changed := filter _ c). set (deleted := _ <$> filter _ p). set (added := filter _ c).
  assert (Hfold : match non_empty_map (deleted ∪ changed) with
    | None => added ∪ p
    | Some m => map_fold (λ name v vars, if is_variable_deleted_marker v then delete name vars
                                         else <[name := v]> vars) (added ∪ p) m end =
    map_fold (λ name v vars, if is_variable_deleted_marker v then delete name vars
                             else <[name := v]> vars) (added ∪ p) (deleted ∪ changed)).
  { unfold non_empty_map. case_decide as He; [|done]. by rewrite He, map_fold_empty. }
  rewrite Hfold. apply map_eq. intros k. rewrite lookup_apply_modified.
  destruct (c !! k) as [v|] eqn:Hc, (p !! k) as [v'|] eqn:Hp.
  - assert (Hd : deleted !! k = None).
    { subst deleted. rewrite lookup_fmap, map_lookup_filter, Hp. simpl. by rewrite Hc. }
    assert (Ha : added !! k = None).
    { subst added. rewrite map_lookup_filter, Hc. simpl. by rewrite Hp. }
    rewrite lookup_union_r by done. subst changed. rewrite map_lookup_filter, Hc. simpl. rewrite Hp.
    destruct (decide (v' = v)) as [->|Hne].
    + rewrite bool_decide_eq_false_2 by naive_solver. simpl. by rewrite lookup_union_r.
    + rewrite bool_decide_eq_true_2 by done. simpl.
      rewrite (Hmark k v Hc); [done|by rewrite Hp|congruence].
  - assert (Hd : deleted !! k = None).
    { subst deleted. rewrite lookup_fmap, map_lookup_filter, Hp. done. }
    rewrite lookup_union_r by done. subst changed. rewrite map_lookup_filter, Hc. simpl. rewrite Hp. simpl.
    apply lookup_union_Some_l. subst added. rewrite map_lookup_filter, Hc. simpl. by rewrite Hp.
  - assert (Hd : deleted !! k = Some variable_deleted_marker).
    { subst deleted. rewrite lookup_fmap, map_lookup_filter, Hp. simpl. by rewrite Hc. }
    rewrite (lookup_union_Some_l _ _ _ _ Hd). by vm_compute.
  - assert (Hd : deleted !! k = None).
    { subst deleted. rewrite lookup_fmap, map_lookup_filter, Hp. done. }
    rewrite lookup_union_r by done. subst changed. rewrite map_lookup_filter, Hc. simpl.
    rewrite lookup_union_r; [done|]. subst added. by rewrite map_lookup_filter, Hc.
Qed.

(** Node results are never withdrawn. *)
Definition replayable_results (p c : option (gmap string value)) : Prop :=
  match p, c with
  | None, _ => True
  | Some _, None => False
  | Some prev, Some curr => dom prev ⊆ dom curr
  end.

Lemma apply_diff_results p c :
  replayable_results p c →
  apply_node_results p (diff_node_results p c).1 (diff_node_results p c).2 = Ok c.
Proof.
  destruct p as [prev|], c as [curr|]; intros Hr; try done.
  - cbn [diff_node_results fst snd]. unfold apply_node_results. simpl. f_equal.
    set (m := filter _ curr).
    assert (Hm : m ∪ prev = curr).
    { apply map_eq. intros k. destruct (curr !! k) as [v|] eqn:Hc.
      - destruct (decide (prev !! k = Some v)) as [Hp|Hp].
        + rewrite lookup_union_r; [done|]. subst m. rewrite map_lookup_filter, Hc. simpl.
          by rewrite option_guard_False by (intros Hn; by apply Hn).
        + apply lookup_union_Some_l. subst m. rewrite map_lookup_filter, Hc. simpl.
          by rewrite option_guard_True.
      - apply lookup_union_None. subst m. rewrite map_lookup_filter, Hc. split; [done|].
        apply not_elem_of_dom. intros Hk%Hr. by apply not_elem_of_dom in Hc. }
    unfold non_empty_map. case_decide as He; [|by simpl; rewrite Hm].
    rewrite He in Hm. by rewrite <-Hm, (left_id_L ∅ (∪)).
  - unfold apply_node_results, diff_node_results. cbn [fst snd]. by rewrite as_map_object_of.
Qed.

(** * Message contexts *)

(** A context only grows, by messages with new ids; its version is kept, and is
    zero for a context that appears.  Contexts do not disappear, and an empty
    one does not appear. *)
Definition replayable_context (o : option MessageContextSnapshot) (c : MessageContextSnapshot) : Prop :=
  NoDup (message_id <$> ctx_messages c) ∧
  match o with
  | Some p => version c = version p ∧ ∃ new, ctx_messages c = ctx_messages p ++ new
  | None => version c = 0%Z ∧ ctx_messages c ≠ []
  end.
Definition replayable_contexts (p c : option (gmap string MessageContextSnapshot)) : Prop :=
  match c with
  | None => p = None
  | Some curr =>
      (∀ x ctx, curr !! x = Some ctx → replayable_context (default ∅ p !! x) ctx) ∧
      (∀ x, curr !! x = None → default ∅ p !! x = None) ∧
      (curr = ∅ → is_Some p)
  end.

Lemma push_missing_fresh l new :
  NoDup (message_id <$> l ++ new) → foldl push_missing l new = l ++ new.
Proof.
  revert l. induction new as [|m new IH]; intros l Hnd; cbn [foldl]; [by rewrite app_nil_r|].
  assert (Hm : message_id m ∉ message_id <$> l).
  { rewrite fmap_app in Hnd. apply NoDup_app in Hnd as (_ & Hd & _). intros Hin.
    apply (Hd _ Hin). rewrite fmap_cons. left. }
  unfold push_missing at 2. rewrite decide_False by done.
  replace (l ++ m :: new) with ((l ++ [m]) ++ new) in * by by rewrite <-app_assoc.
  by apply IH.
Qed.

Lemma context_added_new previous x c :
  replayable_context (previous !! x) c →
  ctx_messages c = match previous !! x with Some p => ctx_messages p | None => [] end ++
                   context_added previous x c.
Proof.
  unfold replayable_context, context_added. intros [Hnd Hc]. destruct (previous !! x) as [p|].
  - destruct Hc as [_ [new Hnew]]. rewrite Hnew in Hnd |- *. f_equal. symmetry.
    rewrite fmap_app in Hnd. apply NoDup_app in Hnd as (_ & Hd & _).
    rewrite filter_app, list_filter_none, list_filter_all; [done| |].
    + intros m Hm Hin. apply (Hd _ Hin). by apply list_elem_of_fmap_2.
    + intros m Hm Hn. apply Hn. by apply list_elem_of_fmap_2.
  - simpl. rewrite list_filter_all; [done|]. intros m _. apply not_elem_of_nil.
Qed.

Lemma apply_context_diff previous x c :
  replayable_context (previous !! x) c →
  apply_context (previous !! x) {| ctx_added_messages := context_added previous x c |} = c.
Proof.
  intros Hr. pose proof (context_added_new previous x c Hr) as Heq. destruct Hr as [Hnd Hc].
  unfold apply_context. cbn [ctx_added_messages]. destruct (previous !! x) as [p|], c as [msgs v]; simpl in *.
  - destruct Hc as [-> _]. rewrite push_missing_fresh by by rewrite <-Heq. by rewrite <-Heq.
  - destruct Hc as [-> _]. rewrite push_missing_fresh by by rewrite <-Heq. by rewrite Heq at 2.
Qed.

Lemma apply_diff_contexts p c :
  replayable_contexts p c → apply_contexts p (diff_message_contexts c p) = c.
Proof.
  destruct c as [curr|]; [|by intros ->]. cbn [diff_message_contexts]. intros (Hctx & Hnone & Hempty).
  set (pm := default ∅ p) in *. set (d := map_imap _ curr).
  assert (Hunion : map_imap (λ x d, Some (apply_context (pm !! x) d)) d ∪ pm = curr).
  { apply map_eq. intros x. unfold d. rewrite lookup_union, !map_lookup_imap.
    destruct (curr !! x) as [c|] eqn:Hc; simpl; [|rewrite Hnone by done; done].
    specialize (Hctx x c Hc). pose proof (context_added_new pm x c Hctx) as Heq.
    pose proof (apply_context_diff pm x c Hctx) as Happ.
    destruct (context_added pm x c) as [|m l] eqn:Ha; simpl.
    - rewrite app_nil_r in Heq. destruct Hctx as [_ Hctx]. destruct (pm !! x) as [q|] eqn:Hq; simpl.
      + destruct Hctx as [Hv _]. rewrite (left_id_L None (∪)). f_equal. destruct c, q; simpl in *; congruence.
      + by destruct Hctx as [_ []].
    - rewrite Happ. by destruct (pm !! x). }
  unfold non_empty_map. case_decide as Hd; simpl; [|by fold pm; rewrite Hunion].
  rewrite Hd in Hunion. rewrite map_imap_empty, (left_id_L ∅ (∪)) in Hunion.
  destruct p as [q|]; [by rewrite <-Hunion|]. simpl in *.
  by destruct (Hempty (eq_sym Hunion)) as [? [=]].
Qed.

(** * Other fields *)

Lemma lookup_insert_changed_ne {A} `{EqDecision A} key (p c : A) v other k :
  key ≠ k → insert_changed key p c v other !! k = other !! k.
Proof. intros Hne. unfold insert_changed. case_decide; [done|]. by rewrite lookup_insert_ne. Qed.

Lemma lookup_insert_changed_eq {A} `{EqDecision A} key (p c : A) v (other : gmap string value) :
  other !! key = None →
  insert_changed key p c v other !! key = if decide (c = p) then None else Some v.
Proof. intros Ho. unfold insert_changed. case_decide; [done|]. by rewrite lookup_insert_eq. Qed.

(** Writing a changed field and reading it back. *)
Lemma apply_other_lookup {A} `{EqDecision A} (m : gmap string value) key (p c : A) v (f : value → A) :
  m !! key = (if decide (c = p) then None else Some v) → (c ≠ p → f v = c) →
  apply_other (non_empty_map m) key p f = c.
Proof.
  intros Hm Hf. unfold apply_other, non_empty_map. destruct (decide (m = ∅)) as [He|He].
  - rewrite He, lookup_empty in Hm. by case_decide.
  - rewrite Hm. case_decide; auto.
Qed.

Lemma non_null_default (o : option value) : o ≠ Some VNull → non_null (default VNull o) = o.
Proof. by destruct o as [[]|]. Qed.

Lemma as_array_option (o : option (list value)) :
  non_null (option_to_value VArray o) ≫= as_array = o.
Proof. by destruct o. Qed.

Lemma field_roundtrip {A} `{Serde A} (o : option A) :
  (∀ a, o = Some a → from_value (to_value a) = Some a ∧ is_null (to_value a) = false) →
  non_null (option_to_value to_value o) ≫= from_value = o.
Proof.
  destruct o as [a|]; [|done]. intros Ha. destruct (Ha a eq_refl) as [H1 H2]. unfold non_null. cbn [option_to_value]. rewrite H2. exact H1.
Qed.
Lemma serde_option {A} `{Serde A, !SerdeLaws A} (o : option A) : non_null (option_to_value to_value o) ≫= from_value = o.
Proof. apply field_roundtrip. intros a _. split; [apply from_to_value|apply to_value_not_null]. Qed.

Lemma operations_roundtrip (o : option (list OperationState)) :
  Forall operation_kept (default [] o) →
  (if is_null (option_to_value (vec_to_value to_value) o) then None
   else vec_from_value from_value (option_to_value (vec_to_value to_value) o)) = o.
Proof.
  destruct o as [l|]; [|done]. cbn. intros Hl. apply mapM_fmap_Forall_Some.
  eapply Forall_impl; [exact Hl|]. apply operation_roundtrip.
Qed.

Lemma hierarchy_read (o : option ExecutionHierarchy) : non_null (option_to_value hierarchy_to_value o) ≫= hierarchy_from_value = o.
Proof. exact (serde_option o). Qed.
Lemma suspend_read (o : option ErrorSuspendState) :
  (∀ s, o = Some s → suspend_typed s) → non_null (option_to_value suspend_to_value o) ≫= suspend_from_value = o.
Proof. intros Ho. refine (field_roundtrip o _). intros s Hs. by apply suspend_roundtrip, Ho. Qed.

(** A JSON field that changes does not change to an explicit [null]. *)
Definition replayable_json (p c : option value) : Prop := c ≠ p → c ≠ Some VNull.

(** * Replayable changes *)

Record replayable (p c : WorkflowExecutionStateSnapshot) : Prop := {
  r_execution_id : execution_id c = execution_id p;
  r_current_node : current_node_id c = None → current_node_id p = None;
  r_results : replayable_results (node_results p) (node_results c);
  r_variables : replayable_variables (variable_state p) (variable_state c);
  r_contexts : replayable_contexts (message_contexts p) (message_contexts c);
  r_messages : replayable_messages (messages p) (messages c);
  r_operations :
    active_operations c ≠ active_operations p → Forall operation_kept (default [] (active_operations c));
  r_node_records : node_execution_records c = node_execution_records p;
  r_suspend : ∀ s, error_suspend c = Some s → suspend_typed s;
  r_input : replayable_json (input p) (input c);
  r_output : replayable_json (output p) (output c);
  r_fork_join : replayable_json (fork_join_context p) (fork_join_context c);
  r_conversation : replayable_json (conversation_state p) (conversation_state c);
  r_triggers : replayable_json (trigger_states p) (trigger_states c);
  r_config : replayable_json (execution_config p) (execution_config c);
  r_aggregation :
    replayable_json (fork_join_aggregation_state p) (fork_join_aggregation_state c);
  r_hook : replayable_json (hook_execution_context p) (hook_execution_context c);
}.

Ltac other_field :=
  eapply apply_other_lookup;
  [repeat (rewrite lookup_insert_changed_ne by discriminate); apply lookup_insert_changed_eq;
   repeat (rewrite lookup_insert_changed_ne by discriminate); apply lookup_empty
  |first [by intros; apply non_null_default; auto | by intros; apply as_array_option
         |by intros; apply hierarchy_read | by intros; apply suspend_read | by intros; apply operations_roundtrip; auto]].

Lemma workflow_replay p c d :
  replayable p c → workflow_diff p c = Ok d → workflow_apply p d = Ok c.
Proof.
  intros Hr. unfold workflow_diff.
  pose proof (apply_diff_messages _ _ (r_messages _ _ Hr)) as Hmsg.
  pose proof (apply_diff_variables _ _ (r_variables _ _ Hr)) as Hvar.
  pose proof (apply_diff_results _ _ (r_results _ _ Hr)) as Hres.
  pose proof (apply_diff_contexts _ _ (r_contexts _ _ Hr)) as Hctx.
  destruct (diff_messages _ _) as [[added modified] deleted].
  destruct (diff_variables _ _) as [avars mvars]. destruct (diff_node_results _ _) as [ares mres].
  cbn [fst snd] in *. intros [= <-]. unfold workflow_apply. simpl. rewrite Hres. simpl.
  destruct Hr, c; simpl in *. f_equal. f_equal; try done.
  1: by case_decide.
  1: { case_decide as Hn; [done|]. simpl.
       match goal with |- match ?o with _ => _ end = _ => destruct o; [done|by auto] end. }
  all: unfold diff_other_changes; cbv zeta; simpl; other_field.
Qed.


Lemma workflow_diff_ok p c : ∃ d, workflow_diff p c = Ok d.
Proof.
  unfold workflow_diff. destruct (diff_messages _ _) as [[? ?] ?], (diff_variables _ _),
    (diff_node_results _ _). eauto.
Qed.

(** The calculator meets the contract of the restorer. *)
#[export] Instance workflow_lawful :
  LawfulDiff WorkflowExecutionStateSnapshot WorkflowCheckpointDelta replayable.
Proof. intros s t d Hr Hd. by apply workflow_replay. Qed.


Lemma non_empty_map_lookup {A} (m : gmap string A) k v :
  m !! k = Some v → ∃ m', non_empty_map m = Some m' ∧ m' !! k = Some v.
Proof.
  intros Hk. unfold non_empty_map. rewrite decide_False by (intros ->; by rewrite lookup_empty in Hk).
  eauto.
Qed.

Lemma diff_other_records p c :
  node_execution_records c ≠ node_execution_records p →
  ∃ m v, diff_other_changes p c = Some m ∧ m !! "node_execution_records" = Some v.
Proof.
  intros Hne. unfold diff_other_changes. cbv zeta.
  edestruct (non_empty_map_lookup (A := value)) as (m & Hm & Hv); [|exists m; eauto].
  repeat (rewrite lookup_insert_changed_ne by discriminate).
  rewrite lookup_insert_changed_eq; [by rewrite decide_False|].
  repeat (rewrite lookup_insert_changed_ne by discriminate). apply lookup_empty.
Qed.

(** Replay loses the node execution records: a change of them is written
    into the delta, but no delta applies it, so the replayed snapshot keeps the
    old records. *)
Theorem node_execution_records_lost p c d :
  workflow_diff p c = Ok d → node_execution_records c ≠ node_execution_records p →
  (∃ m v, other_changes d = Some m ∧ m !! "node_execution_records" = Some v) ∧
  (∀ r, workflow_apply p d = Ok r →
     node_execution_records r = node_execution_records p ∧ r ≠ c).
Proof.
  unfold workflow_diff. intros Hd Hne.
  destruct (diff_messages _ _) as [[? ?] ?], (diff_variables _ _), (diff_node_results _ _).
  injection Hd as <-. split; [by apply diff_other_records|].
  intros r (results & _ & [= <-])%result_bind_Ok. simpl. split; [done|]. intros Heq. apply Hne. by rewrite <-Heq.
Qed.

(** What no delta can express: clearing the current node or the messages,
    and changing the version of a context that is already there. *)
Theorem workflow_apply_limits base d r :
  workflow_apply base d = Ok r →
  (is_Some (current_node_id base) → is_Some (current_node_id r)) ∧
  (is_Some (messages base) → is_Some (messages r)) ∧
  (∀ x ctx, default ∅ (message_contexts base) !! x = Some ctx →
     ∃ ctx', default ∅ (message_contexts r) !! x = Some ctx' ∧ version ctx' = version ctx ∧
       ctx_messages ctx `prefix_of` ctx_messages ctx').
Proof.
  intros (results & _ & [= <-])%result_bind_Ok. simpl. split_and!.
  - intros Hn. destruct (current_node_change d) as [ch|]; [|done]. by destruct (to ch).
  - intros [m ->]. by destruct (added_messages d), (modified_messages d), (deleted_message_indices d).
  - intros x ctx Hx. destruct (delta_message_contexts d) as [contexts|]; simpl; [|by exists ctx].
    rewrite lookup_union, map_lookup_imap, Hx.
    destruct (contexts !! x) as [cd|]; simpl; [|by exists ctx].
    eexists. split; [done|]. split; [done|]. simpl. generalize (ctx_messages ctx).
    induction (ctx_added_messages cd) as [|m l IH]; intros msgs; cbn [foldl]; [done|].
    etrans; [|apply IH]. unfold push_missing. case_decide; [done|]. by apply prefix_app_r.
Qed.
End workflow.

(** * Witnesses *)

(** Messages as id and text; flags for the node execution records. *)
#[export] Instance bool_serde : Serde bool := {| to_value := VBool; from_value := as_bool |}.
#[export] Instance bool_serde_laws : SerdeLaws bool.
Proof. by split. Qed.

Definition TestMessage : Type := string * string.
Definition TestSnapshot : Type :=
  WorkflowExecutionStateSnapshot (Message := TestMessage)
    (NodeExecutionRecord := bool).

Definition mk_snapshot (st : string) (node : option string) (vars : gmap string value)
    (results : option (gmap string value)) (msgs : list TestMessage) (out : option value)
    (records : option (list bool)) (ops : option (list OperationState)) : TestSnapshot :=
  {| execution_id := "e"; status := st; current_node_id := node; node_results := results;
     variable_state := vars; message_contexts := None; input := None; output := out;
     messages := Some msgs; fork_join_context := None; active_operations := ops;
     node_execution_records := records; conversation_state := None; trigger_states := None;
     error_records := None; interruption_records := None; event_records := None; hierarchy := None;
     execution_config := None; fork_join_aggregation_state := None; hook_execution_context := None;
     error_suspend := None |}.

Definition running_op : OperationState :=
  {| op_type := "llm"; op_operation_id := "o1"; op_node_id := Some "a"; op_started_at := -5; op_progress := Some (VBool true);
     op_partial_result := None |}.
(** One message dropped, one edited, one appended; a variable set, one deleted; an
    operation started. *)
Definition snap1 : TestSnapshot :=
  mk_snapshot "RUNNING" (Some "a") {["x" := VBool true; "y" := VNull]} None
    [("m1", "hi"); ("m2", "there")] None None None.
Definition snap2 : TestSnapshot :=
  mk_snapshot "COMPLETED" (Some "b") {["x" := VBool false]} (Some {["a" := VBool true]})
    [("m2", "THERE"); ("m3", "bye")] (Some (VString "done")) None (Some [running_op]).

Lemma snap_replayable : replayable (fst (A := string)) snap1 snap2.
Proof.
  split; simpl; try done.
  - intros k v Hk _ _. apply lookup_singleton_Some in Hk as [_ <-]. by vm_compute.
  - exists [("m2", "THERE")], [("m3", "bye")].
    split; [done|]. split; [by apply evolves_drop, evolves_keep, evolves_nil|].
    split; [by apply (bool_decide_eq_true_1 _); vm_compute|].
    split; [by apply (bool_decide_eq_true_1 _); vm_compute|]. split; [|done].
    intros m ->%list_elem_of_singleton. by apply (bool_decide_eq_true_1 _); vm_compute.
  - intros _. repeat constructor; vm_compute; discriminate.
Qed.

(** An explicit [null] in a field of an operation does not come back: the delta
    carries the change, the replayed operation has no progress at all. *)
Definition waiting_op (progress : option value) : OperationState :=
  {| op_type := "llm"; op_operation_id := "o1"; op_node_id := None; op_started_at := 0; op_progress := progress;
     op_partial_result := None |}.
Definition waiting (progress : option value) : TestSnapshot :=
  mk_snapshot "RUNNING" None ∅ None [] None None (Some [waiting_op progress]).
Example null_progress_lost :
  match workflow_diff (fst (A := string)) (waiting (Some (VBool true))) (waiting (Some VNull)) with
  | Ok d => workflow_apply (fst (A := string)) (waiting (Some (VBool true))) d = Ok (waiting None)
  | Err _ => False
  end.
Proof. vm_compute. reflexivity. Qed.


Definition snap3 : TestSnapshot :=
  mk_snapshot "RUNNING" (Some "a") {["x" := VBool true; "y" := VNull]} None
    [("m1", "hi"); ("m2", "there")] None (Some [true]) None.

Lemma node_execution_records_lost_witness :
  ∃ d, workflow_diff (fst (A := string)) snap1 snap3 = Ok d ∧
    (∃ m v, other_changes d = Some m ∧ m !! "node_execution_records" = Some v) ∧
    (∀ r, workflow_apply (fst (A := string)) snap1 d = Ok r →
       node_execution_records r = node_execution_records snap1 ∧ r ≠ snap3).
Proof.
  destruct (workflow_diff_ok (fst (A := string)) snap1 snap3) as [d Hd].
  exists d. split; [exact Hd|].
  apply (node_execution_records_lost (fst (A := string)) snap1 snap3 d Hd). discriminate.
Defined.

Lemma workflow_apply_limits_witness :
  ∃ d, workflow_apply (fst (A := string)) snap1 d = Ok snap2 ∧
    (is_Some (current_node_id snap1) → is_Some (current_node_id snap2)).
Proof.
  destruct (workflow_diff_ok (fst (A := string)) snap1 snap2) as [d Hd]. exists d.
  assert (Ha := workflow_replay (fst (A := string)) snap1 snap2 d snap_replayable Hd).
  split; [exact Ha|]. apply (workflow_apply_limits (fst (A := string)) snap1 d snap2 Ha).
Defined.

(** A chain of a snapshot and a delta, restored. *)
Definition test_delta :=
  match workflow_diff (fst (A := string)) snap1 snap2 with Ok d => Some d | Err _ => None end.
Definition core {DS SS} (x : string) (d : option DS) (s : option SS) : BaseCheckpointCore DS SS :=
  {| core_id := x; core_type := None; core_base_checkpoint_id := None;
     core_previous_checkpoint_id := None; delta := d; snapshot := s; core_timestamp := None;
     core_metadata := None; format_version := None |}.
Definition test_loader :=
  row_loader two_generations (λ x,
    if bool_decide (x = "f2") then Some (core "f2" None (Some snap1))
    else if bool_decide (x = "d2") then Some (core "d2" test_delta None) else None).

Lemma restore_full_state_correct_witness :
  restore_full_state (H := workflow_calculator (fst (A := string))) test_loader Ok "d2" = Ok snap2.
Proof.
  eapply (restore_full_state_correct (replayable (fst (A := string))) test_loader Ok "d2").
  - vm_compute. reflexivity.
  - apply (records_delta _ _ _ [_] _ (core "d2" test_delta None) snap1 snap2
      (default (Build_WorkflowCheckpointDelta None None None None None None None None None None None)
         test_delta)).
    + apply (records_base _ _ _ _ (core "f2" None (Some snap1))); reflexivity.
    + reflexivity.
    + reflexivity.
    + exact snap_replayable.
    + reflexivity.
Defined.
