(* ===== verification/DeltaAgent.v ===== *)
(** Diffs of agent snapshots: checkpoint-base/src/delta/calculator/agent.rs,
    with the types of wf-types/src/checkpoint/agent/.

    The second calculator behind [DiffCalculator].  [agent_replayable] is
    exactly the set of changes its deltas carry: the theorem
    [agent_delta_exact] is an equivalence.  Types that are only compared and
    serialised are parameters with [Serde], as in [DeltaWorkflow]. *)

From S2P Require Import Prelude Strings Json Numbers CheckpointGraph CleanupPolicy DeltaChain DeltaWorkflow.

(** [serde_json] writes an [i64] by its sign. *)
Definition strings_to_value (l : list string) : value := VArray (VString <$> l).
Definition strings_from_value (v : value) : option (list string) := as_array v ≫= mapM as_str.

Section agent.
  Context {Message : Type} `{!EqDecision Message, !Serde Message} (message_id : Message → string).
  Context {MessageView : Type} `{!EqDecision MessageView, !Serde MessageView}.
  Context {TokenLedger : Type} `{!EqDecision TokenLedger, !Serde TokenLedger}.
  Context {CompactionState : Type} `{!EqDecision CompactionState, !Serde CompactionState}.
  Context {VariableSnapshots : Type} `{!EqDecision VariableSnapshots, !Serde VariableSnapshots}.
  Context {RetryTotals : Type} `{!EqDecision RetryTotals, !Serde RetryTotals}.
  Context {ExecutionHierarchy : Type} `{!EqDecision ExecutionHierarchy, !Serde ExecutionHierarchy}.
  Context {AgentLoopConfig : Type}.

(** [AgentStateSnapshot] *)
Record AgentStateSnapshot : Type := {
  agent_loop_id : string;
  status : string;
  current_iteration : Z;
  tool_call_count : Z;
  conversation_snapshot : option (list Message);
  conversation_view : option MessageView;
  message_seq_start : option Z;
  message_seq_end : option Z;
  message_next_seq : option Z;
  conversation_ledger : option TokenLedger;
  conversation_tracker : option value;
  conversation_compaction : option CompactionState;
  tool_call_history : option (list value);
  is_streaming : option bool;
  variable_snapshots : option VariableSnapshots;
  error : option string;
  started_at : option Z;
  completed_at : option Z;
  error_records : option (list value);
  retry_totals : option RetryTotals;
  interruption_records : option (list value);
  event_records : option (list value);
  iteration_history : option (list value);
  current_iteration_record : option value;
  stream_message : option string;
  pending_tool_call_ids : option (list string);
  trigger_state : option value;
  hierarchy : option ExecutionHierarchy;
  messages : option (list Message);
  tool_discovery_state : option value;
  permanently_failed_tools : option (list string);
  loop_config : option AgentLoopConfig;
}.

(** [AgentCheckpointDelta] *)
Record AgentCheckpointDelta : Type := {
  added_messages : option (list Message);
  added_message_base_seq : option Z;
  added_iterations : option (list Z);
  status_change : option FieldChange;
  other_changes : option (gmap string value);
}.

(** The loop that counts the common prefix by id. *)
Fixpoint common_ids (prev curr : list Message) : nat :=
  match prev, curr with
  | p :: prev', c :: curr' => if decide (message_id p = message_id c) then S (common_ids prev' curr') else 0
  | _, _ => 0
  end.
(** [diff_messages_append_only] *)
Definition diff_history (start : option Z) (previous current : option (list Message)) :
    option (list Message) * option Z :=
  let prev := default [] previous in
  let curr := default [] current in
  if decide (prev = curr) then (None, None)
  else
    let common := common_ids prev curr in
    if decide (0 < common ∨ prev = []) then
      let base_seq := sat_add u64_max (default 0%Z start) (Z.of_nat common) in
      match drop common curr with [] => (None, None) | suffix => (Some suffix, Some base_seq) end
    else (Some curr, None).
(** The message part of [apply_delta]. *)
Definition apply_history (start : option Z) (base : option (list Message)) (added : option (list Message))
    (base_seq : option Z) : result CheckpointError (option (list Message)) :=
  match added, base_seq with
  | None, _ => Ok base
  | Some messages, None => Ok (Some messages)
  | Some messages, Some base_seq =>
      let base_start := default 0%Z start in
      if decide (base_seq < base_start)%Z then
        Err (Corrupted "" ("agent delta base_seq " +:+ show_int base_seq +:+ " precedes base start " +:+ show_int base_start +:+
                           "; refusing suffix merge"))
      else
        let keep := Z.to_nat (base_seq - base_start) in
        let merged := default [] base in
        if decide (List.length merged < keep) then
          Err (Corrupted "" ("agent delta base_seq " +:+ show_int base_seq +:+ " exceeds base history length " +:+
                             show_int (Z.of_nat (List.length merged)) +:+ "; refusing suffix merge"))
        else Ok (Some (take keep merged ++ messages))
  end.

(** [if current.f != previous.f { other.insert(key, to_value(&current.f)) }] and the
    comparison of the serialised values *)
Definition insert_field {A} `{EqDecision A} (p c : AgentStateSnapshot) (key : string) (f : AgentStateSnapshot → option A)
    (to : A → value) : gmap string value → gmap string value :=
  insert_changed key (f p) (f c) (option_to_value to (f c)).
Definition insert_json {A} (p c : AgentStateSnapshot) (key : string) (f : AgentStateSnapshot → option A) (to : A → value) :
    gmap string value → gmap string value :=
  insert_changed key (option_to_value to (f p)) (option_to_value to (f c)) (option_to_value to (f c)).
(** [diff_other_changes]; the last six fields are compared as JSON. *)
Definition agent_other_map (p c : AgentStateSnapshot) : gmap string value :=
  let other : gmap string value := ∅ in
  let other := insert_changed "tool_call_count" (tool_call_count p) (tool_call_count c)
                 (u64_to_value (tool_call_count c)) other in
  let other := insert_field p c "tool_call_history" tool_call_history VArray other in
  let other := insert_field p c "is_streaming" is_streaming VBool other in
  let other := insert_field p c "variable_snapshots" variable_snapshots to_value other in
  let other := insert_field p c "error" error VString other in
  let other := insert_field p c "started_at" started_at i64_to_value other in
  let other := insert_field p c "completed_at" completed_at i64_to_value other in
  let other := insert_field p c "error_records" error_records VArray other in
  let other := insert_field p c "retry_totals" retry_totals to_value other in
  let other := insert_field p c "interruption_records" interruption_records VArray other in
  let other := insert_field p c "event_records" event_records VArray other in
  let other := insert_field p c "iteration_history" iteration_history VArray other in
  let other := insert_field p c "current_iteration_record" current_iteration_record id other in
  let other := insert_field p c "stream_message" stream_message VString other in
  let other := insert_field p c "pending_tool_call_ids" pending_tool_call_ids strings_to_value other in
  let other := insert_field p c "trigger_state" trigger_state id other in
  let other := insert_field p c "hierarchy" hierarchy to_value other in
  let other := insert_field p c "messages" messages (vec_to_value to_value) other in
  let other := insert_field p c "conversation_view" conversation_view to_value other in
  let other := insert_json p c "message_seq_start" message_seq_start u64_to_value other in
  let other := insert_json p c "message_seq_end" message_seq_end u64_to_value other in
  let other := insert_json p c "message_next_seq" message_next_seq u64_to_value other in
  let other := insert_json p c "conversation_ledger" conversation_ledger to_value other in
  let other := insert_json p c "conversation_tracker" conversation_tracker id other in
  let other := insert_json p c "conversation_compaction" conversation_compaction to_value other in
  other.
Definition agent_other_changes (p c : AgentStateSnapshot) : option (gmap string value) := non_empty_map (agent_other_map p c).

(** [calculate_diff] *)
Definition agent_diff (previous current : AgentStateSnapshot) : result CheckpointError AgentCheckpointDelta :=
  let history := diff_history (message_seq_start previous) (conversation_snapshot previous) (conversation_snapshot current) in
  Ok {| added_messages := history.1;
        added_message_base_seq := history.2;
        added_iterations := if decide (current_iteration current = current_iteration previous) then None
                            else Some [current_iteration current];
        status_change := if decide (status current = status previous) then None
                         else Some {| from := Some (status previous); to := Some (status current) |};
        other_changes := agent_other_changes previous current |}.

(** [other.get(key).and_then(non-null).and_then(f)] *)
Definition parsed {A} (f : value → option A) (v : value) : option A := non_null v ≫= f.
(** [apply_delta] *)
Definition agent_apply (base : AgentStateSnapshot) (d : AgentCheckpointDelta) : result CheckpointError AgentStateSnapshot :=
  let other := other_changes d in
  history ← apply_history (message_seq_start base) (conversation_snapshot base) (added_messages d) (added_message_base_seq d);
  Ok {| agent_loop_id := agent_loop_id base;
        status := match status_change d with Some c => default (status base) (to c) | None => status base end;
        current_iteration := default (current_iteration base) (added_iterations d ≫= last);
        tool_call_count := apply_other other "tool_call_count" (tool_call_count base)
                             (λ v, match as_u64 v with Some z => wrap32 z | None => tool_call_count base end);
        conversation_snapshot := history;
        conversation_view := apply_other other "conversation_view" (conversation_view base) (parsed from_value);
        message_seq_start := apply_other other "message_seq_start" (message_seq_start base) (parsed as_u64);
        message_seq_end := apply_other other "message_seq_end" (message_seq_end base) (parsed as_u64);
        message_next_seq := apply_other other "message_next_seq" (message_next_seq base) (parsed as_u64);
        conversation_ledger := apply_other other "conversation_ledger" (conversation_ledger base) (parsed from_value);
        conversation_tracker := apply_other other "conversation_tracker" (conversation_tracker base) (parsed Some);
        conversation_compaction := apply_other other "conversation_compaction" (conversation_compaction base) (parsed from_value);
        tool_call_history := apply_other other "tool_call_history" (tool_call_history base) (parsed as_array);
        is_streaming := apply_other other "is_streaming" (is_streaming base) as_bool;
        variable_snapshots := apply_other other "variable_snapshots" (variable_snapshots base) (parsed from_value);
        error := apply_other other "error" (error base) (parsed as_str);
        started_at := apply_other other "started_at" (started_at base) (parsed as_i64);
        completed_at := apply_other other "completed_at" (completed_at base) (parsed as_i64);
        error_records := apply_other other "error_records" (error_records base) (parsed as_array);
        retry_totals := apply_other other "retry_totals" (retry_totals base) (parsed from_value);
        interruption_records := apply_other other "interruption_records" (interruption_records base) (parsed as_array);
        event_records := apply_other other "event_records" (event_records base) (parsed as_array);
        iteration_history := apply_other other "iteration_history" (iteration_history base) (parsed as_array);
        current_iteration_record := apply_other other "current_iteration_record" (current_iteration_record base) (parsed Some);
        stream_message := apply_other other "stream_message" (stream_message base) (parsed as_str);
        pending_tool_call_ids := apply_other other "pending_tool_call_ids" (pending_tool_call_ids base) (parsed strings_from_value);
        trigger_state := apply_other other "trigger_state" (trigger_state base) (parsed Some);
        hierarchy := apply_other other "hierarchy" (hierarchy base) (parsed from_value);
        messages := apply_other other "messages" (messages base) (parsed (vec_from_value from_value));
        tool_discovery_state := tool_discovery_state base;
        permanently_failed_tools := permanently_failed_tools base;
        loop_config := loop_config base |}.

(** [impl DiffCalculator for AgentDiffCalculator] *)
#[export] Instance agent_calculator : DiffCalculator AgentStateSnapshot AgentCheckpointDelta :=
  {| calculate_diff := agent_diff; apply_delta := agent_apply |}.

(** * What a delta carries *)

(** The history: unchanged, or extended past a common prefix that is itself
    unchanged, or replaced by one with another first message. *)
Definition replayable_history (p c : option (list Message)) : Prop :=
  let prev := default [] p in
  let curr := default [] c in
  let common := common_ids prev curr in
  p = c ∨
  prev ≠ curr ∧ is_Some c ∧ take common prev = take common curr ∧
  (common < List.length curr ∨ common = 0 ∧ prev ≠ []).

Record agent_replayable (p c : AgentStateSnapshot) : Prop := {
  a_loop_id : agent_loop_id c = agent_loop_id p;
  a_history : replayable_history (conversation_snapshot p) (conversation_snapshot c);
  a_iteration_record : replayable_json (current_iteration_record p) (current_iteration_record c);
  a_trigger_state : replayable_json (trigger_state p) (trigger_state c);
  a_tracker : conversation_tracker c ≠ conversation_tracker p →
    conversation_tracker c ≠ Some VNull ∧ ¬ (conversation_tracker c = None ∧ conversation_tracker p = Some VNull);
  a_tool_discovery : tool_discovery_state c = tool_discovery_state p;
  a_failed_tools : permanently_failed_tools c = permanently_failed_tools p;
  a_loop_config : loop_config c = loop_config p;
}.

(** The integers of the snapshots have their widths. *)
Definition i64_ok (o : option Z) : Prop := ∀ z, o = Some z → (i64_min ≤ z ≤ i64_max)%Z.
Record agent_typed (p c : AgentStateSnapshot) : Prop := {
  t_count : (0 ≤ tool_call_count c ≤ u32_max)%Z;
  t_started : i64_ok (started_at c);
  t_completed : i64_ok (completed_at c);
  t_start : (0 ≤ default 0 (message_seq_start p))%Z;
  t_end : (default 0 (message_seq_start p) + Z.of_nat (List.length (default [] (conversation_snapshot p))) ≤ u64_max)%Z;
}.

(** * History *)

Lemma common_ids_le prev curr : common_ids prev curr ≤ List.length prev ∧ common_ids prev curr ≤ List.length curr.
Proof.
  revert curr. induction prev as [|p prev IH]; intros [|c curr]; simpl; [lia..|]. case_decide; [|lia].
  destruct (IH curr). lia.
Qed.
Lemma app_take_drop_eq (prev curr : list Message) k :
  k ≤ List.length prev → k ≤ List.length curr → take k prev ++ drop k curr = curr ↔ take k prev = take k curr.
Proof.
  intros Hp Hc. split.
  - intros Heq. rewrite <-Heq, take_app_length' by (rewrite length_take; lia). done.
  - intros ->. apply take_drop.
Qed.
(** A diffed history always applies, to the new history exactly in the
    replayable cases. *)
Lemma apply_diff_history start p c :
  (0 ≤ default 0 start)%Z → (default 0 start + Z.of_nat (List.length (default [] p)) ≤ u64_max)%Z →
  ∃ r, apply_history start p (diff_history start p c).1 (diff_history start p c).2 = Ok r ∧ (r = c ↔ replayable_history p c).
Proof.
  intros Hs He. unfold diff_history, replayable_history. set (prev := default [] p) in *. set (curr := default [] c).
  assert (Hc : ∀ l, Some l = c ↔ is_Some c ∧ l = curr).
  { intros l. subst curr. destruct c; simpl; [|naive_solver]. split; [by intros [= ->]|by intros [_ ->]]. }
  destruct (common_ids_le prev curr) as [Hkp Hkc]. set (k := common_ids prev curr) in *.
  case_decide as Heq; [eexists; split; [done|naive_solver]|].
  assert (Hpc : p ≠ c) by (subst prev curr; congruence).
  case_decide as Hk.
  - destruct (drop k curr) as [|m suffix] eqn:Hd.
    + exists p. split; [done|]. assert (List.length curr ≤ k) by (by apply drop_nil_inv in Hd). naive_solver lia.
    + assert (k < List.length curr) by (apply Nat.nle_gt; intros ?%drop_ge; congruence).
      cbn [fst snd apply_history]. cbv zeta. fold prev. unfold sat_add. rewrite Z.min_r by mlia.
      rewrite decide_False by lia.
      replace (Z.to_nat _) with k by lia. rewrite decide_False by lia. eexists. split; [done|]. rewrite <-Hd, Hc, app_take_drop_eq by done.
      naive_solver.
  - exists (Some curr). split; [done|]. rewrite Hc. assert (Hk0 : k = 0) by lia. rewrite Hk0.
    assert (prev ≠ []) by naive_solver. naive_solver.
Qed.

(** * Fields *)

Lemma apply_other_iff {A} `{EqDecision A} (m : gmap string value) key (p c : A) v (f : value → A) :
  m !! key = (if decide (c = p) then None else Some v) →
  apply_other (non_empty_map m) key p f = c ↔ (c ≠ p → f v = c).
Proof.
  intros Hm. unfold apply_other, non_empty_map. destruct (decide (m = ∅)) as [He|He].
  - rewrite He, lookup_empty in Hm. case_decide; [|done]. naive_solver.
  - rewrite Hm. case_decide; naive_solver.
Qed.
Context `{!SerdeLaws Message, !SerdeLaws MessageView, !SerdeLaws TokenLedger, !SerdeLaws CompactionState,
  !SerdeLaws VariableSnapshots, !SerdeLaws RetryTotals, !SerdeLaws ExecutionHierarchy}.

(** How a field is written and read: [parsed rd] undoes [option_to_value to]. *)
Definition reads {A} (to : A → value) (rd : value → option A) (o : option A) : Prop :=
  parsed rd (option_to_value to o) = o.
Lemma reads_serde {A} `{Serde A, !SerdeLaws A} (o : option A) : reads to_value from_value o.
Proof. apply serde_option. Qed.
Lemma reads_array o : reads VArray as_array o.
Proof. by destruct o. Qed.
Lemma reads_str o : reads VString as_str o.
Proof. by destruct o. Qed.
Lemma reads_strings o : reads strings_to_value strings_from_value o.
Proof.
  destruct o as [l|]; [|done]. unfold reads, parsed, strings_from_value. simpl. by apply mapM_fmap_Some.
Qed.
Lemma reads_vec {A} `{Serde A, !SerdeLaws A} (o : option (list A)) : reads (vec_to_value to_value) (vec_from_value from_value) o.
Proof. destruct o as [l|]; [|done]. unfold reads, parsed. simpl. apply mapM_fmap_Some. intros. apply from_to_value. Qed.
Lemma reads_u64 o : reads u64_to_value as_u64 o.
Proof. by destruct o. Qed.
Lemma reads_i64 o : i64_ok o → reads i64_to_value as_i64 o.
Proof.
  destruct o as [z|]; [|done]. intros Hz. specialize (Hz z eq_refl). unfold reads, parsed, i64_to_value. simpl.
  case_decide; simpl; [done|]. rewrite decide_True by lia. done.
Qed.
Lemma reads_inj {A} (to : A → value) rd (o o' : option A) :
  (∀ x, reads to rd x) → option_to_value to o = option_to_value to o' → o = o'.
Proof. intros Hr Heq. by rewrite <-(Hr o), <-(Hr o'), Heq. Qed.

(** A field is replayed when its value reads back. *)
Lemma replay_field {A} `{EqDecision A} (m : gmap string value) key (p c : option A) to rd :
  m !! key = (if decide (c = p) then None else Some (option_to_value to c)) → reads to rd c →
  apply_other (non_empty_map m) key p (parsed rd) = c.
Proof. intros Hm Hr. by eapply apply_other_iff. Qed.
Lemma replay_json_field {A} `{EqDecision A} (m : gmap string value) key (p c : option A) to rd :
  m !! key = (if decide (option_to_value to c = option_to_value to p) then None else Some (option_to_value to c)) →
  (∀ x, reads to rd x) → apply_other (non_empty_map m) key p (parsed rd) = c.
Proof.
  intros Hm Hr. apply (replay_field m key p c to rd); [|done]. rewrite Hm.
  destruct (decide (c = p)) as [->|Hne]; [by rewrite decide_True|]. rewrite decide_False; [done|].
  intros Heq. by apply Hne, (reads_inj to rd).
Qed.
Lemma parsed_value (o : option value) : parsed Some (option_to_value id o) = o ↔ o ≠ Some VNull.
Proof. destruct o as [v|]; [|done]. by destruct v. Qed.
Lemma replay_value (m : gmap string value) key (p c : option value) :
  m !! key = (if decide (c = p) then None else Some (option_to_value id c)) →
  apply_other (non_empty_map m) key p (parsed Some) = c ↔ replayable_json p c.
Proof. intros Hm. rewrite (apply_other_iff m key p c) by done. unfold replayable_json. by rewrite parsed_value. Qed.

Ltac other_value :=
  unfold agent_other_map, insert_field, insert_json; cbv zeta;
  repeat (rewrite lookup_insert_changed_ne by discriminate); apply lookup_insert_changed_eq;
  repeat (rewrite lookup_insert_changed_ne by discriminate); apply lookup_empty.
Ltac plain_field :=
  first [eapply replay_field; [other_value|] | eapply replay_json_field; [other_value|intros ?]];
  first [apply reads_serde | apply reads_array | apply reads_str | apply reads_strings | apply reads_vec | apply reads_u64
        |by apply reads_i64].

Lemma snapshot_eq (r c : AgentStateSnapshot) :
  agent_loop_id r = agent_loop_id c →
  status r = status c →
  current_iteration r = current_iteration c →
  tool_call_count r = tool_call_count c →
  conversation_snapshot r = conversation_snapshot c →
  conversation_view r = conversation_view c →
  message_seq_start r = message_seq_start c →
  message_seq_end r = message_seq_end c →
  message_next_seq r = message_next_seq c →
  conversation_ledger r = conversation_ledger c →
  conversation_tracker r = conversation_tracker c →
  conversation_compaction r = conversation_compaction c →
  tool_call_history r = tool_call_history c →
  is_streaming r = is_streaming c →
  variable_snapshots r = variable_snapshots c →
  error r = error c →
  started_at r = started_at c →
  completed_at r = completed_at c →
  error_records r = error_records c →
  retry_totals r = retry_totals c →
  interruption_records r = interruption_records c →
  event_records r = event_records c →
  iteration_history r = iteration_history c →
  current_iteration_record r = current_iteration_record c →
  stream_message r = stream_message c →
  pending_tool_call_ids r = pending_tool_call_ids c →
  trigger_state r = trigger_state c →
  hierarchy r = hierarchy c →
  messages r = messages c →
  tool_discovery_state r = tool_discovery_state c →
  permanently_failed_tools r = permanently_failed_tools c →
  loop_config r = loop_config c → r = c.
Proof. destruct r, c. simpl. intros. by subst. Qed.
(** The tracker is compared as JSON, so absence and an explicit null are the same. *)
Lemma replayed_tracker (m : gmap string value) key (p c : option value) :
  m !! key = (if decide (option_to_value id c = option_to_value id p) then None else Some (option_to_value id c)) →
  apply_other (non_empty_map m) key p (parsed Some) = c ↔
  (c ≠ p → c ≠ Some VNull ∧ ¬ (c = None ∧ p = Some VNull)).
Proof.
  intros Hm. assert (Hv : ∀ o o' : option value, option_to_value id o = option_to_value id o' →
    o = o' ∨ (o = Some VNull ∧ o' = None) ∨ (o = None ∧ o' = Some VNull)).
  { intros [v|] [w|]; simpl; unfold id; intros ?; subst; eauto. }
  unfold apply_other, non_empty_map. destruct (decide (m = ∅)) as [He|He].
  - rewrite He, lookup_empty in Hm. case_decide as Hd; [|done]. apply Hv in Hd. naive_solver.
  - rewrite Hm. case_decide as Hd; [apply Hv in Hd; naive_solver|]. rewrite parsed_value. split; [|naive_solver].
    intros Hc _. split; [done|]. intros [-> ->]. by apply Hd.
Qed.

Lemma agent_delta_spec (p c : AgentStateSnapshot) :
  agent_typed p c → ∃ d r, agent_diff p c = Ok d ∧ agent_apply p d = Ok r ∧ (r = c ↔ agent_replayable p c).
Proof.
  intros [Hcount Hst Hco Hs He].
  destruct (apply_diff_history _ _ (conversation_snapshot c) Hs He) as (history & Hh & Hiff).
  eexists. unfold agent_diff, agent_apply. eexists. split; [done|].
  cbn [added_messages added_message_base_seq added_iterations status_change other_changes]. rewrite Hh. cbn [mbind result_bind].
  split; [done|].
  pose proof (replay_value (agent_other_map p c) "current_iteration_record" (current_iteration_record p) (current_iteration_record c) ltac:(other_value)) as Hrec.
  pose proof (replay_value (agent_other_map p c) "trigger_state" (trigger_state p) (trigger_state c) ltac:(other_value)) as Htrig.
  pose proof (replayed_tracker (agent_other_map p c) "conversation_tracker" (conversation_tracker p) (conversation_tracker c) ltac:(other_value)) as Htrack.
  unfold agent_other_changes. split.
  - intros Heq. split.
    + by apply (f_equal agent_loop_id) in Heq.
    + by apply (f_equal conversation_snapshot), Hiff in Heq.
    + by apply (f_equal current_iteration_record), Hrec in Heq.
    + by apply (f_equal trigger_state), Htrig in Heq.
    + apply Htrack. by apply (f_equal conversation_tracker) in Heq.
    + by apply (f_equal tool_discovery_state) in Heq.
    + by apply (f_equal permanently_failed_tools) in Heq.
    + by apply (f_equal loop_config) in Heq.
  - intros [? Hhist%Hiff Hr1%Hrec Hr2%Htrig Hr3%Htrack ???]. apply snapshot_eq; simpl; try done; try (by plain_field).
    + by case_decide.
    + by case_decide.
    + eapply apply_other_iff; [other_value|]. intros _. simpl. by rewrite wrap32_small.
    + eapply apply_other_iff; [other_value|]. intros _. by destruct (is_streaming c).
Qed.

(** C3: the delta between two agent snapshots always applies to the older
    one, and the result is the newer one exactly for the changes a delta carries: a history that is
    extended past an unchanged common prefix or replaced from its first message on, JSON fields that
    do not become an explicit null, and no change of the identity, of the tool discovery state, of
    the failed tools or of the loop configuration. *)
Theorem agent_delta_exact (p c : AgentStateSnapshot) (Htyped : agent_typed p c) :
  ∃ d r, agent_diff p c = Ok d ∧ agent_apply p d = Ok r ∧ (r = c ↔ agent_replayable p c).
Proof.
  by apply agent_delta_spec.
Qed.

(** The agent calculator meets the contract of the restorer. *)
#[export] Instance agent_lawful :
  LawfulDiff AgentStateSnapshot AgentCheckpointDelta (λ p c, agent_typed p c ∧ agent_replayable p c).
Proof.
  intros p c d [Ht Hr] Hd. destruct (agent_delta_spec p c Ht) as (d' & r & Hd' & Ha & Hiff).
  cbn in Hd. assert (d' = d) as -> by congruence. cbn. rewrite Ha. f_equal. by apply Hiff.
Qed.
End agent.

(** * Witness and examples *)

Definition TestMessage : Type := string * string.
#[export] Instance test_message_serde : Serde TestMessage :=
  {| to_value m := VArray [VString m.1; VString m.2];
     from_value v := match v with VArray [VString i; VString t] => Some (i, t) | _ => None end |}.
#[export] Instance test_message_laws : SerdeLaws TestMessage.
Proof. split; [by intros []|done]. Qed.
Definition TestAgent : Type :=
  AgentStateSnapshot (Message := TestMessage) (MessageView := bool) (TokenLedger := bool) (CompactionState := bool)
    (VariableSnapshots := bool) (RetryTotals := bool) (ExecutionHierarchy := bool) (AgentLoopConfig := bool).
Definition mk_agent (iteration : Z) (history : list TestMessage) (discovery : option value) : TestAgent :=
  {| agent_loop_id := "a"; status := "RUNNING"; current_iteration := iteration; tool_call_count := iteration;
     conversation_snapshot := Some history; conversation_view := None; message_seq_start := Some 5%Z; message_seq_end := None;
     message_next_seq := Some 9%Z; conversation_ledger := Some true; conversation_tracker := None; conversation_compaction := None;
     tool_call_history := None; is_streaming := Some false; variable_snapshots := None; error := None; started_at := Some (-1)%Z;
     completed_at := None; error_records := None; retry_totals := None; interruption_records := None; event_records := None;
     iteration_history := None; current_iteration_record := None; stream_message := Some "x"; pending_tool_call_ids := Some ["t"];
     trigger_state := None; hierarchy := None; messages := Some history; tool_discovery_state := discovery;
     permanently_failed_tools := None; loop_config := None |}.
Definition agent_replay (p c : TestAgent) : result CheckpointError TestAgent :=
  agent_diff fst p c ≫= agent_apply p.

Lemma agent_typed_test i h x j k y : (0 ≤ j ≤ 100)%Z → List.length h ≤ 100 → agent_typed (mk_agent i h x) (mk_agent j k y).
Proof. intros Hj Hh. split; simpl; [mlia|intros z [= <-]; mlia|done|lia|mlia]. Qed.
Lemma agent_delta_exact_witness :
  ∃ d, agent_diff fst (mk_agent 1 [("m1", "hi")] None) (mk_agent 2 [("m1", "hi"); ("m2", "yo")] None) = Ok d ∧
    agent_apply (mk_agent 1 [("m1", "hi")] None) d = Ok (mk_agent 2 [("m1", "hi"); ("m2", "yo")] None).
Proof.
  destruct (agent_delta_exact fst (mk_agent 1 [("m1", "hi")] None) (mk_agent 2 [("m1", "hi"); ("m2", "yo")] None)) as (d & r & Hd & Hr & Hiff).
  - apply agent_typed_test; [lia|simpl; lia].
  - exists d. split; [exact Hd|]. assert (r = mk_agent 2 [("m1", "hi"); ("m2", "yo")] None) as <-; [|exact Hr].
    apply Hiff. split; try done.
    right. split; [done|]. split; [done|]. split; [done|]. left. apply (bool_decide_eq_true_1 _). reflexivity.
Defined.

(** What a replay drops silently: an edit of a message under its id, the
    removal of the last messages, and the tool discovery state. *)
Definition replayed_history (p c : TestAgent) : option (list TestMessage) :=
  match agent_replay p c with Ok r => conversation_snapshot r | Err _ => None end.
Example edited_message_lost :
  replayed_history (mk_agent 1 [("m1", "hi")] None) (mk_agent 2 [("m1", "HI"); ("m2", "yo")] None) = Some [("m1", "hi"); ("m2", "yo")].
Proof. reflexivity. Qed.
Example removed_message_returns :
  replayed_history (mk_agent 1 [("m1", "hi"); ("m2", "yo")] None) (mk_agent 2 [("m1", "hi")] None) = Some [("m1", "hi"); ("m2", "yo")].
Proof. reflexivity. Qed.
Example tool_discovery_lost :
  agent_replay (mk_agent 1 [] None) (mk_agent 2 [] (Some (VBool true))) = Ok (mk_agent 2 [] None).
Proof. reflexivity. Qed.
