(* ===== verification/AgentErrors.v ===== *)
(** The agent engine's errors: wf-agent/src/error.rs and error_analysis.rs, the
    error records of wf-common/src/error_chain.rs, the kinds of
    wf-types/src/errors.rs and the retry budget of wf-core/src/failure_policy.rs.

    The errors of the LLM codec belong to a crate outside the repository: an
    [LlmError] is the variant the engine matches on and the answers of the two
    predicates it asks. *)

From S2P Require Import Prelude Strings Numbers GraphTypes ErrorBranch LoopState Entity ToolErrors.

(** * wf-types/src/errors.rs *)

Inductive RecoveryAction : Type := Retry | ManualIntervention | Abort.
Definition is_retry (a : RecoveryAction) : bool := match a with Retry => true | _ => false end.

Inductive ErrorKind : Type :=
| KValidation | KExecution | KNotFound | KAgentCheckpoint | KStateManagement | KTool | KNetwork
| KResource | KTimeout | KRateLimited | KAuthError | KServiceUnavailable | KGeneral.
#[export] Instance RecoveryAction_eq_dec : EqDecision RecoveryAction.
Proof. solve_decision. Defined.
#[export] Instance ErrorKind_eq_dec : EqDecision ErrorKind.
Proof. solve_decision. Defined.
#[export] Instance ErrorType_eq_dec : EqDecision ErrorType.
Proof. solve_decision. Defined.
Definition kind_tag (k : ErrorKind) : nat :=
  match k with
  | KValidation => 0 | KExecution => 1 | KNotFound => 2 | KAgentCheckpoint => 3 | KStateManagement => 4 | KTool => 5
  | KNetwork => 6 | KResource => 7 | KTimeout => 8 | KRateLimited => 9 | KAuthError => 10 | KServiceUnavailable => 11
  | KGeneral => 12
  end.
Definition kind_of_tag (n : nat) : option ErrorKind :=
  [KValidation; KExecution; KNotFound; KAgentCheckpoint; KStateManagement; KTool; KNetwork; KResource; KTimeout;
   KRateLimited; KAuthError; KServiceUnavailable; KGeneral] !! n.
#[export] Instance ErrorKind_countable : Countable ErrorKind.
Proof. apply (inj_countable kind_tag kind_of_tag). by intros []. Defined.

Definition is_non_retryable (k : ErrorKind) : bool :=
  match k with KValidation | KNotFound | KStateManagement | KAuthError => true | _ => false end.

(** [NodeErrorCategory::error_kind] *)
Definition error_kind (c : NodeErrorCategory) : ErrorKind :=
  match c with
  | TransportTimeout => KTimeout
  | Resource => KResource
  | BusinessFailure | CancelledInterrupted | CompressionFailure => KExecution
  end.

(** * Errors *)

(** The variants of the codec's error the engine tells apart. *)
Inductive LlmVariant : Type :=
| LTimeout | LHttpError (http_status : option Z) | LProviderError | LStreamError | LAuthError | LProfileNotFound
| LCancelled | LConfigError | LOther.
Record LlmError : Type := {
  llm_variant : LlmVariant;
  llm_is_retryable : bool;
  is_context_length_exceeded : bool;
  llm_display : string;
}.

Inductive InterruptionKind : Type := IStop | IPause | IAbort.
Definition display_interruption_kind (k : InterruptionKind) : string :=
  match k with IStop => "stop" | IPause => "pause" | IAbort => "abort" end.
Inductive ExecutionSharedError : Type :=
| InterruptionError (kind : InterruptionKind) (detail : string)
| TimeoutError (detail : string)
| StateError (detail : string)
| HookError (detail : string)
| GateError (detail : string)
| ConditionError (detail : string)
| VariableError (detail : string)
| SharedToolError (e : ToolErrors.ToolError)
| HandlerError (detail : string)
| NodeFailure (node_id : string) (category : NodeErrorCategory) (detail : string) (failure_source : NodeFailureSource)
| SharedCoreError (detail : string)
| SharedInternal (detail : string).
Definition display_shared (e : ExecutionSharedError) : string :=
  match e with
  | InterruptionError k d => "Interruption (" +:+ display_interruption_kind k +:+ "): " +:+ d
  | TimeoutError d => "Timeout error: " +:+ d
  | StateError d => "State error: " +:+ d
  | HookError d => "Hook error: " +:+ d
  | GateError d => "Gate error: " +:+ d
  | ConditionError d => "Condition error: " +:+ d
  | VariableError d => "Variable error: " +:+ d
  | SharedToolError e => "Tool error: " +:+ display_tool_error e
  | HandlerError d => "Handler error: " +:+ d
  | NodeFailure id c d _ => "Node failure [" +:+ category_str c +:+ "] " +:+ id +:+ ": " +:+ d
  | SharedCoreError d => "Core error: " +:+ d
  | SharedInternal d => "Internal error: " +:+ d
  end.

Inductive AgentError : Type :=
| IllegalStateTransition (detail : string)
| AValidation (detail : string)
| AExecutionTimeout (detail : string)
| ACancelled (detail : string)
| ConcurrencySaturated (detail : string)
| HierarchyLimitReached (detail : string)
| ErrorPatternTripped (detail : string)
| ContextBudgetExhausted (detail : string)
| ALlmError (e : LlmError)
| ACheckpointError (detail : string)
| ASharedError (e : ExecutionSharedError)
| AInternal (detail : string).
Definition display_agent_error (e : AgentError) : string :=
  match e with
  | IllegalStateTransition d => "Illegal state transition: " +:+ d
  | AValidation d => "Validation error: " +:+ d
  | AExecutionTimeout d => "Execution timeout: " +:+ d
  | ACancelled d => "Execution cancelled: " +:+ d
  | ConcurrencySaturated d => "Concurrency saturated: " +:+ d
  | HierarchyLimitReached d => "Sub-agent hierarchy limit reached: " +:+ d
  | ErrorPatternTripped d => "Repeated error pattern: " +:+ d
  | ContextBudgetExhausted d => "Context budget exhausted: " +:+ d
  | ALlmError e => "LLM error: " +:+ llm_display e
  | ACheckpointError d => "Checkpoint error: " +:+ d
  | ASharedError e => "Shared error: " +:+ display_shared e
  | AInternal d => "Internal error: " +:+ d
  end.

(** * error_analysis.rs *)

Record ErrorAnalysis : Type := {
  analysis_kind : ErrorKind;
  analysis_type : ErrorType;
  retryable : bool;
  recovery_action : RecoveryAction;
  analysis_message : string;
}.
Definition analysis (k : ErrorKind) (t : ErrorType) (r : bool) (a : RecoveryAction) (m : string) : ErrorAnalysis :=
  {| analysis_kind := k; analysis_type := t; retryable := r; recovery_action := a; analysis_message := m |}.

Definition is_server_status (s : Z) : bool := bool_decide (500 ≤ s ∧ s ≤ 599)%Z.
Definition http_status_to_kind (s : Z) : ErrorKind :=
  if decide (s = 400)%Z then KValidation
  else if decide (s = 401 ∨ s = 403)%Z then KAuthError
  else if decide (s = 404)%Z then KNotFound
  else if decide (s = 429)%Z then KRateLimited
  else if is_server_status s then KServiceUnavailable
  else KNetwork.
Definition http_status_retryable (s : Z) : bool := bool_decide (s = 429)%Z || is_server_status s.
Definition http_error_type (s : Z) (plain : ErrorType) : ErrorType :=
  if decide (s = 429)%Z then RateLimited else if is_server_status s then ServiceUnavailable else plain.
Definition retry_or_manual (r : bool) : RecoveryAction := if r then Retry else ManualIntervention.
Definition http_analysis (s : Z) (plain : ErrorType) (m : string) : ErrorAnalysis :=
  let r := http_status_retryable s in analysis (http_status_to_kind s) (http_error_type s plain) r (retry_or_manual r) m.

Definition tool_error_analysis (e : ToolErrors.ToolError) : ErrorAnalysis :=
  let m := display_tool_error e in
  match e with
  | NotFound _ => analysis KNotFound Entity.ToolError false Abort m
  | ValidationFailed _ => analysis KValidation Validation false Abort m
  | ToolTimeout _ _ => analysis KTimeout Timeout true Retry m
  | RestError _ s => http_analysis s Entity.ToolError m
  | ToolHttpError (Some s) _ => http_analysis s Entity.ToolError m
  | ToolHttpError None _ => analysis KNetwork Entity.ToolError true Retry m
  | ConnectionFailed _ _ | TransportError _ => analysis KNetwork Entity.ToolError true Retry m
  | ToolCancelled _ => analysis KExecution Interruption false Abort m
  | McpError _ | Io _ => analysis KNetwork Entity.ToolError true Retry m
  | _ => analysis KTool Entity.ToolError false Abort m
  end.

Definition llm_error_analysis (e : LlmError) : ErrorAnalysis :=
  let m := llm_display e in
  let r := llm_is_retryable e in
  if is_context_length_exceeded e then analysis KResource Entity.LlmError true Retry m
  else match llm_variant e with
  | LTimeout => analysis KTimeout Timeout true Retry m
  | LHttpError (Some s) => http_analysis s Entity.LlmError m
  | LHttpError None | LProviderError | LStreamError => analysis KNetwork Entity.LlmError r (retry_or_manual r) m
  | LAuthError => analysis KAuthError Entity.LlmError false ManualIntervention m
  | LProfileNotFound => analysis KNotFound Validation false Abort m
  | LCancelled => analysis KExecution Interruption false Abort m
  | LConfigError => analysis KValidation Validation false ManualIntervention m
  | LOther => analysis KGeneral Entity.LlmError r (retry_or_manual r) m
  end.

Definition shared_error_analysis (e : ExecutionSharedError) : ErrorAnalysis :=
  let m := display_shared e in
  match e with
  | StateError _ => analysis KStateManagement Internal false Abort m
  | InterruptionError _ _ => analysis (error_kind CancelledInterrupted) (error_type CancelledInterrupted) false Abort m
  | TimeoutError _ => analysis (error_kind TransportTimeout) (error_type TransportTimeout) false Abort m
  | VariableError _ => analysis KValidation Validation false Abort m
  | NodeFailure _ c _ _ => analysis (error_kind c) (error_type c) false Abort m
  | SharedToolError te => tool_error_analysis te
  | _ => analysis KExecution Internal false Abort m
  end.

Definition analyze_error (e : AgentError) : ErrorAnalysis :=
  let m := display_agent_error e in
  match e with
  | IllegalStateTransition _ => analysis KStateManagement Internal false Abort m
  | AValidation _ => analysis KValidation Validation false Abort m
  | AExecutionTimeout _ => analysis KExecution Timeout false Abort m
  | ACancelled _ => analysis KExecution Interruption false Abort m
  | ConcurrencySaturated _ => analysis KResource Internal true Retry m
  | HierarchyLimitReached _ => analysis KResource Internal false ManualIntervention m
  | ErrorPatternTripped _ => analysis KExecution Internal false Abort m
  | ContextBudgetExhausted _ => analysis KResource ServiceUnavailable false Abort m
  | ALlmError le => llm_error_analysis le
  | ACheckpointError _ => analysis KAgentCheckpoint Internal false ManualIntervention m
  | ASharedError se => shared_error_analysis se
  | AInternal _ => analysis KGeneral Internal false Abort m
  end.

(** * Error records *)

(** wf-common/src/error_chain.rs; [caused_by] is its reason. *)
Record ErrorRecord : Type := {
  record_id : string;
  record_execution : string;
  record_error : string;
  record_type : option ErrorType;
  record_timestamp : Z;
  record_node : option string;
  parent_error_id : option string;
  error_chain : list string;
  root_cause_id : string;
  caused_by : option string;
  is_recoverable : bool;
  record_action : option RecoveryAction;
}.
(** [ErrorRecord::new]; the id and the time are the runtime's. *)
Definition new_record (id : string) (now : Z) (execution error : string) (t : option ErrorType) (node : option string)
    (action : option RecoveryAction) : ErrorRecord :=
  {| record_id := id; record_execution := execution; record_error := error; record_type := t; record_timestamp := now;
     record_node := node; parent_error_id := None; error_chain := [id]; root_cause_id := id; caused_by := None;
     is_recoverable := match action with Some a => is_retry a | None => false end; record_action := action |}.
Definition to_error_record (id : string) (now : Z) (a : ErrorAnalysis) (execution : string) (node : option string) : ErrorRecord :=
  new_record id now execution (analysis_message a) (Some (analysis_type a)) node (Some (recovery_action a)).

(** [find_root_cause]: the first of the earliest records. *)
Definition find_root_cause (records : list ErrorRecord) : option ErrorRecord :=
  foldl (λ best r, match best with
    | None => Some r
    | Some b => if decide (record_timestamp r < record_timestamp b)%Z then Some r else Some b
    end) None records.
(** [get_error_chain]: from the last record along the parent links, the earliest
    first.  [None]: the links are still being followed when the fuel is spent. *)
Fixpoint chain_from (fuel : nat) (records : list ErrorRecord) (current : option string) (chain : list ErrorRecord) :
    option (list ErrorRecord) :=
  match current with
  | None => Some chain
  | Some id =>
      match list_find (λ r, record_id r = id) records with
      | None => Some chain
      | Some (_, r) =>
          match fuel with
          | 0 => None
          | S fuel' => chain_from fuel' records (parent_error_id r) (r :: chain)
          end
      end
  end.
Definition get_error_chain (fuel : nat) (records : list ErrorRecord) : option (list ErrorRecord) :=
  match last records with None => Some [] | Some r => chain_from fuel records (Some (record_id r)) [] end.

(** [type_distribution] of [analyze_error_pattern], as [repeat_count] reads it. *)
Definition repeat_count (records : list ErrorRecord) (t : ErrorType) : nat :=
  List.length (filter (λ r, record_type r = Some t) records).
(** The other figures of the pattern. *)
Definition affected_nodes (records : list ErrorRecord) : list string :=
  foldl (λ ns r, match record_node r with Some n => if decide (n ∈ ns) then ns else ns ++ [n] | None => ns end) [] records.
Definition has_recoverable (records : list ErrorRecord) : bool := existsb is_recoverable records.

(** * Retrying *)

Inductive RetryDecision : Type := Grant | StopRetrying | Trip (repeats : nat) (tripped : ErrorType).
Definition decide_retry (records : list ErrorRecord) (a : ErrorAnalysis) (kind_retries : nat) (per_call_allowed : bool) (limit : nat) :
    RetryDecision :=
  if negb (retryable a) then StopRetrying
  else
    let repeats := repeat_count records (analysis_type a) in
    if decide (2 ≤ repeats ∧ limit ≤ repeats) then Trip repeats (analysis_type a)
    else if negb per_call_allowed || bool_decide (limit ≤ kind_retries) then StopRetrying
    else Grant.

(** [FailurePolicyManager], over the retry policy of its configuration. *)
Record RetryPolicy : Type := { policy_enabled : bool; max_retries : nat }.
Definition should_retry (p : option RetryPolicy) (k : ErrorKind) (attempt : nat) : bool :=
  match p with
  | None => false
  | Some p => policy_enabled p && negb (bool_decide (max_retries p ≤ attempt)) && negb (is_non_retryable k)
  end.
Definition default_retry_policy : RetryPolicy := {| policy_enabled := true; max_retries := 3 |}.
Definition RETRY_LIMIT_FALLBACK : nat := 3.
Definition error_retry_limit (p : option RetryPolicy) : nat :=
  match p with Some p => max_retries p | None => RETRY_LIMIT_FALLBACK end.

(** * Lemmas *)

Lemma http_analysis_coherent s t m : retryable (http_analysis s t m) = is_retry (recovery_action (http_analysis s t m)).
Proof. unfold http_analysis, retry_or_manual. cbn. by destruct (http_status_retryable s). Qed.
Lemma http_kind_retryable s : http_status_retryable s = true → is_non_retryable (http_status_to_kind s) = false.
Proof.
  unfold http_status_retryable, http_status_to_kind, is_server_status. rewrite orb_true_iff, !bool_decide_eq_true. intros H.
  repeat (case_decide; [lia || done|]). destruct H as [|H]; [done|]. by rewrite bool_decide_eq_true_2.
Qed.
Ltac classify :=
  repeat match goal with
  | |- context [match ?x with _ => _ end] => destruct x; cbn; try done
  | |- context [retry_or_manual ?b] => unfold retry_or_manual
  end.

(** Every error is classified coherently: it is retryable exactly when the recommended action is
    to retry, as the debug assertions state, and a retryable error never has a kind that the failure
    policy refuses to retry. *)
Theorem analyze_error_coherent (e : AgentError) :
  retryable (analyze_error e) = is_retry (recovery_action (analyze_error e)) ∧
  (retryable (analyze_error e) = true → is_non_retryable (analysis_kind (analyze_error e)) = false).
Proof.
  destruct e as [| | | | | | | |le| |se|]; try done; cbn [analyze_error].
  - unfold llm_error_analysis. destruct (is_context_length_exceeded le); [done|].
    destruct (llm_variant le) as [|[s|]| | | | | | |]; try done;
      try (split; [apply http_analysis_coherent|apply http_kind_retryable]);
      by destruct (llm_is_retryable le).
  - destruct se; try done; cbn [shared_error_analysis]. destruct e; try done; cbn [tool_error_analysis].
    + split; [apply http_analysis_coherent|apply http_kind_retryable].
    + destruct http_status; [|done]. split; [apply http_analysis_coherent|apply http_kind_retryable].
Qed.

(** The types of errors that can be retried. *)
Definition retryable_types : list ErrorType :=
  [Entity.ToolError; Entity.LlmError; Timeout; RateLimited; ServiceUnavailable; Internal].
Lemma http_type_retryable s t m : t ∈ retryable_types → analysis_type (http_analysis s t m) ∈ retryable_types.
Proof. intros Ht. cbn [http_analysis analysis analysis_type]. unfold http_error_type. case_decide; [set_solver|]. destruct (is_server_status s); [set_solver|done]. Qed.
Lemma retryable_type e : retryable (analyze_error e) = true → analysis_type (analyze_error e) ∈ retryable_types.
Proof.
  destruct e as [| | | | | | | |le| |se|]; try done; cbn [analyze_error]; [intros _; cbn; set_solver| |].
  - unfold llm_error_analysis. destruct (is_context_length_exceeded le); [cbn; set_solver|].
    destruct (llm_variant le) as [|[s|]| | | | | | |]; try done; intros _; try (apply http_type_retryable); cbn; set_solver.
  - destruct se; try done; cbn [shared_error_analysis]. destruct e; try done; cbn [tool_error_analysis]; intros _;
      try (apply http_type_retryable); try (destruct http_status; [apply http_type_retryable|]); cbn; set_solver.
Qed.

Lemma repeat_count_app rs rs' t : repeat_count (rs ++ rs') t = repeat_count rs t + repeat_count rs' t.
Proof. unfold repeat_count. by rewrite filter_app, length_app. Qed.
Lemma repeat_count_prefix rs rs' t : rs `prefix_of` rs' → repeat_count rs t ≤ repeat_count rs' t.
Proof. intros [k ->]. rewrite repeat_count_app. lia. Qed.

Lemma decide_retry_grant rs a n allowed limit :
  decide_retry rs a n allowed limit = Grant ↔
  retryable a = true ∧ repeat_count rs (analysis_type a) < max 2 limit ∧ allowed = true ∧ n < limit.
Proof.
  unfold decide_retry. destruct (retryable a); cbn [negb]; [|split; [done|by intros []]].
  case_decide; [split; [done|intros (_ & ? & _); lia]|].
  destruct allowed; cbn [negb orb]; [|split; [done|by intros (_ & _ & ? & _)]].
  case_bool_decide; split; try done; [intros (_ & _ & _ & ?); lia|]. intros _. repeat split; lia.
Qed.

(** The retries a history still leaves room for, over all types. *)
Definition room_for (limit : nat) (rs : list ErrorRecord) (t : ErrorType) : nat := max 2 limit - 1 - repeat_count rs t.
Definition room (limit : nat) (rs : list ErrorRecord) : nat := sum_list (room_for limit rs <$> retryable_types).
Lemma sum_list_le {A} (f g : A → nat) l : (∀ x, f x ≤ g x) → sum_list (f <$> l) ≤ sum_list (g <$> l).
Proof.
  intros H. induction l as [|x l IH]; [done|]. specialize (H x).
  change (f x + sum_list (f <$> l) ≤ g x + sum_list (g <$> l)). lia.
Qed.
Lemma sum_list_lt {A} (f g : A → nat) l x : (∀ y, f y ≤ g y) → x ∈ l → f x < g x → sum_list (f <$> l) < sum_list (g <$> l).
Proof.
  intros H Hx Hlt. induction Hx as [x l|x y l Hx IH].
  - pose proof (sum_list_le f g l H). change (f x + sum_list (f <$> l) < g x + sum_list (g <$> l)). lia.
  - specialize (IH Hlt). specialize (H y). change (f y + sum_list (f <$> l) < g y + sum_list (g <$> l)). lia.
Qed.
Lemma room_prefix limit rs rs' : rs `prefix_of` rs' → room limit rs' ≤ room limit rs.
Proof. intros H. apply sum_list_le. intros t. unfold room_for. pose proof (repeat_count_prefix _ _ t H). lia. Qed.
Lemma room_granted limit rs rs' r e n allowed :
  rs `prefix_of` rs' → record_type r = Some (analysis_type (analyze_error e)) →
  decide_retry (rs' ++ [r]) (analyze_error e) n allowed limit = Grant → room limit (rs' ++ [r]) < room limit rs.
Proof.
  intros Hp Hr (Hret & Hlt & _)%decide_retry_grant. set (t := analysis_type (analyze_error e)) in *.
  assert (Hc : repeat_count rs t < repeat_count (rs' ++ [r]) t).
  { rewrite repeat_count_app. pose proof (repeat_count_prefix _ _ t Hp). unfold repeat_count at 3. rewrite filter_cons_True by done. simpl. lia. }
  apply (sum_list_lt _ _ _ t); [|by apply retryable_type|unfold room_for; lia].
  intros t'. unfold room_for. assert (H : rs `prefix_of` rs' ++ [r]) by by apply prefix_app_r.
  pose proof (repeat_count_prefix rs (rs' ++ [r]) t' H). lia.
Qed.
Lemma room_bound limit rs : room limit rs ≤ 6 * (max 2 limit - 1).
Proof. unfold room, retryable_types. rewrite !fmap_cons. unfold room_for. simpl. lia. Qed.

Lemma analyze_error_coherent_witness :
  let e := ALlmError {| llm_variant := LHttpError (Some 503%Z); llm_is_retryable := true; is_context_length_exceeded := false; llm_display := "down" |} in
  retryable (analyze_error e) = true ∧ is_non_retryable (analysis_kind (analyze_error e)) = false.
Proof.
  cbv zeta. split; [reflexivity|].
  apply (analyze_error_coherent (ALlmError {| llm_variant := LHttpError (Some 503%Z); llm_is_retryable := true;
    is_context_length_exceeded := false; llm_display := "down" |})). reflexivity.
Defined.
