(* ===== verification/AgentState.v ===== *)
(** The state of an agent loop: wf-agent/src/state.rs.

    The state is changed through its methods only: [agent_runs] composes the
    [AgentOp]s of the loop with clean-ups and snapshots restored into other
    states.  Counters are naturals that wrap at 32 bits; clock readings are
    arguments.  The payloads the loop only stores
    (arguments, results, summaries, protocols) are JSON values. *)

From S2P Require Import Prelude Strings Json Numbers GraphTypes ErrorBranch LoopState Entity ToolErrors AgentErrors.

(** * Records *)

Record ToolCallRecord : Type := {
  call_name : string;
  call_arguments : value;
  call_result : option value;
  call_error : option string;
  tool_call_id : option string;
  call_duration_ms : Z;
  call_success : bool;
}.
(** wf-types/src/agent_execution/record.rs *)
Record LlmCallRecord : Type := {
  seq_no : nat;
  profile_id : string;
  llm_model : option string;
  request_summary : option value;
  response_summary : option value;
  prompt_tokens : Z;
  completion_tokens : Z;
  started_at : Z;
  completed_at : option Z;
  llm_duration_ms : Z;
  first_token_ms : option Z;
  generation_ms : option Z;
  llm_error : option string;
}.
Record IterationRecord : Type := {
  iteration : nat;
  it_start_time : Z;
  it_end_time : option Z;
  it_tool_call_count : nat;
  tool_calls : list ToolCallRecord;
  response_content : option string;
  llm_calls : list LlmCallRecord;
}.
Definition iteration_tag (n : nat) : string := "iteration-" +:+ show_nat (Z.of_nat n).
Record ToolDiscoveryState : Type := { activated_tools : gset string; discovered_via_general : gset string }.
Record VariableHistoryEntry : Type := { history_value : value; history_timestamp : Z; history_source : string }.

(** * The state *)

Record AgentLoopState : Type := {
  status : ExecutionStatus;
  current_iteration : nat;
  tool_call_count : nat;
  iteration_history : list IterationRecord;
  start_time : Z;
  end_time : option Z;
  error : option string;
  error_records : list ErrorRecord;
  retry_totals : gmap ErrorKind nat;
  interruption_records : list value;
  event_records : list value;
  variable_snapshots : gmap string value;
  variable_history : gmap string (list VariableHistoryEntry);
  tool_discovery : ToolDiscoveryState;
  pending_tool_calls : gset string;
  completed_tool_results : gmap string value;
  locked_tool_call_protocol : option value;
  timeout_count : nat;
  permanently_failed_tools : gset string;
  scope_violation_streak : nat;
  streaming_message_buffer : option string;
  is_streaming : bool;
}.
Definition set_machine (status' : ExecutionStatus) (start_time' : Z) (end_time' : option Z) (s : AgentLoopState) : AgentLoopState :=
  {|
    status := status'; current_iteration := current_iteration s; tool_call_count := tool_call_count s;
    iteration_history := iteration_history s; start_time := start_time'; end_time := end_time'; error := error s;
    error_records := error_records s; retry_totals := retry_totals s;
    interruption_records := interruption_records s; event_records := event_records s;
    variable_snapshots := variable_snapshots s; variable_history := variable_history s;
    tool_discovery := tool_discovery s; pending_tool_calls := pending_tool_calls s;
    completed_tool_results := completed_tool_results s; locked_tool_call_protocol := locked_tool_call_protocol s;
    timeout_count := timeout_count s; permanently_failed_tools := permanently_failed_tools s;
    scope_violation_streak := scope_violation_streak s; streaming_message_buffer := streaming_message_buffer s;
    is_streaming := is_streaming s
  |}.
Definition set_error (error' : option string) (s : AgentLoopState) : AgentLoopState :=
  {|
    status := status s; current_iteration := current_iteration s; tool_call_count := tool_call_count s;
    iteration_history := iteration_history s; start_time := start_time s; end_time := end_time s; error := error';
    error_records := error_records s; retry_totals := retry_totals s;
    interruption_records := interruption_records s; event_records := event_records s;
    variable_snapshots := variable_snapshots s; variable_history := variable_history s;
    tool_discovery := tool_discovery s; pending_tool_calls := pending_tool_calls s;
    completed_tool_results := completed_tool_results s; locked_tool_call_protocol := locked_tool_call_protocol s;
    timeout_count := timeout_count s; permanently_failed_tools := permanently_failed_tools s;
    scope_violation_streak := scope_violation_streak s; streaming_message_buffer := streaming_message_buffer s;
    is_streaming := is_streaming s
  |}.
Definition set_iterations (current_iteration' : nat) (tool_call_count' : nat) (iteration_history' : list IterationRecord) (s : AgentLoopState) : AgentLoopState :=
  {|
    status := status s; current_iteration := current_iteration'; tool_call_count := tool_call_count';
    iteration_history := iteration_history'; start_time := start_time s; end_time := end_time s; error := error s;
    error_records := error_records s; retry_totals := retry_totals s;
    interruption_records := interruption_records s; event_records := event_records s;
    variable_snapshots := variable_snapshots s; variable_history := variable_history s;
    tool_discovery := tool_discovery s; pending_tool_calls := pending_tool_calls s;
    completed_tool_results := completed_tool_results s; locked_tool_call_protocol := locked_tool_call_protocol s;
    timeout_count := timeout_count s; permanently_failed_tools := permanently_failed_tools s;
    scope_violation_streak := scope_violation_streak s; streaming_message_buffer := streaming_message_buffer s;
    is_streaming := is_streaming s
  |}.
Definition set_errors (error_records' : list ErrorRecord) (retry_totals' : gmap ErrorKind nat) (s : AgentLoopState) : AgentLoopState :=
  {|
    status := status s; current_iteration := current_iteration s; tool_call_count := tool_call_count s;
    iteration_history := iteration_history s; start_time := start_time s; end_time := end_time s; error := error s;
    error_records := error_records'; retry_totals := retry_totals'; interruption_records := interruption_records s;
    event_records := event_records s; variable_snapshots := variable_snapshots s;
    variable_history := variable_history s; tool_discovery := tool_discovery s;
    pending_tool_calls := pending_tool_calls s; completed_tool_results := completed_tool_results s;
    locked_tool_call_protocol := locked_tool_call_protocol s; timeout_count := timeout_count s;
    permanently_failed_tools := permanently_failed_tools s; scope_violation_streak := scope_violation_streak s;
    streaming_message_buffer := streaming_message_buffer s; is_streaming := is_streaming s
  |}.
Definition set_events (interruption_records' : list value) (event_records' : list value) (timeout_count' : nat) (s : AgentLoopState) : AgentLoopState :=
  {|
    status := status s; current_iteration := current_iteration s; tool_call_count := tool_call_count s;
    iteration_history := iteration_history s; start_time := start_time s; end_time := end_time s; error := error s;
    error_records := error_records s; retry_totals := retry_totals s; interruption_records := interruption_records';
    event_records := event_records'; variable_snapshots := variable_snapshots s;
    variable_history := variable_history s; tool_discovery := tool_discovery s;
    pending_tool_calls := pending_tool_calls s; completed_tool_results := completed_tool_results s;
    locked_tool_call_protocol := locked_tool_call_protocol s; timeout_count := timeout_count';
    permanently_failed_tools := permanently_failed_tools s; scope_violation_streak := scope_violation_streak s;
    streaming_message_buffer := streaming_message_buffer s; is_streaming := is_streaming s
  |}.
Definition set_variables (variable_snapshots' : gmap string value) (variable_history' : gmap string (list VariableHistoryEntry)) (s : AgentLoopState) : AgentLoopState :=
  {|
    status := status s; current_iteration := current_iteration s; tool_call_count := tool_call_count s;
    iteration_history := iteration_history s; start_time := start_time s; end_time := end_time s; error := error s;
    error_records := error_records s; retry_totals := retry_totals s;
    interruption_records := interruption_records s; event_records := event_records s;
    variable_snapshots := variable_snapshots'; variable_history := variable_history';
    tool_discovery := tool_discovery s; pending_tool_calls := pending_tool_calls s;
    completed_tool_results := completed_tool_results s; locked_tool_call_protocol := locked_tool_call_protocol s;
    timeout_count := timeout_count s; permanently_failed_tools := permanently_failed_tools s;
    scope_violation_streak := scope_violation_streak s; streaming_message_buffer := streaming_message_buffer s;
    is_streaming := is_streaming s
  |}.
Definition set_tools (tool_discovery' : ToolDiscoveryState) (permanently_failed_tools' : gset string) (scope_violation_streak' : nat) (s : AgentLoopState) : AgentLoopState :=
  {|
    status := status s; current_iteration := current_iteration s; tool_call_count := tool_call_count s;
    iteration_history := iteration_history s; start_time := start_time s; end_time := end_time s; error := error s;
    error_records := error_records s; retry_totals := retry_totals s;
    interruption_records := interruption_records s; event_records := event_records s;
    variable_snapshots := variable_snapshots s; variable_history := variable_history s;
    tool_discovery := tool_discovery'; pending_tool_calls := pending_tool_calls s;
    completed_tool_results := completed_tool_results s; locked_tool_call_protocol := locked_tool_call_protocol s;
    timeout_count := timeout_count s; permanently_failed_tools := permanently_failed_tools';
    scope_violation_streak := scope_violation_streak'; streaming_message_buffer := streaming_message_buffer s;
    is_streaming := is_streaming s
  |}.
Definition set_calls (pending_tool_calls' : gset string) (completed_tool_results' : gmap string value) (s : AgentLoopState) : AgentLoopState :=
  {|
    status := status s; current_iteration := current_iteration s; tool_call_count := tool_call_count s;
    iteration_history := iteration_history s; start_time := start_time s; end_time := end_time s; error := error s;
    error_records := error_records s; retry_totals := retry_totals s;
    interruption_records := interruption_records s; event_records := event_records s;
    variable_snapshots := variable_snapshots s; variable_history := variable_history s;
    tool_discovery := tool_discovery s; pending_tool_calls := pending_tool_calls';
    completed_tool_results := completed_tool_results'; locked_tool_call_protocol := locked_tool_call_protocol s;
    timeout_count := timeout_count s; permanently_failed_tools := permanently_failed_tools s;
    scope_violation_streak := scope_violation_streak s; streaming_message_buffer := streaming_message_buffer s;
    is_streaming := is_streaming s
  |}.
Definition set_protocol (locked_tool_call_protocol' : option value) (s : AgentLoopState) : AgentLoopState :=
  {|
    status := status s; current_iteration := current_iteration s; tool_call_count := tool_call_count s;
    iteration_history := iteration_history s; start_time := start_time s; end_time := end_time s; error := error s;
    error_records := error_records s; retry_totals := retry_totals s;
    interruption_records := interruption_records s; event_records := event_records s;
    variable_snapshots := variable_snapshots s; variable_history := variable_history s;
    tool_discovery := tool_discovery s; pending_tool_calls := pending_tool_calls s;
    completed_tool_results := completed_tool_results s; locked_tool_call_protocol := locked_tool_call_protocol';
    timeout_count := timeout_count s; permanently_failed_tools := permanently_failed_tools s;
    scope_violation_streak := scope_violation_streak s; streaming_message_buffer := streaming_message_buffer s;
    is_streaming := is_streaming s
  |}.
Definition set_stream (streaming_message_buffer' : option string) (is_streaming' : bool) (s : AgentLoopState) : AgentLoopState :=
  {|
    status := status s; current_iteration := current_iteration s; tool_call_count := tool_call_count s;
    iteration_history := iteration_history s; start_time := start_time s; end_time := end_time s; error := error s;
    error_records := error_records s; retry_totals := retry_totals s;
    interruption_records := interruption_records s; event_records := event_records s;
    variable_snapshots := variable_snapshots s; variable_history := variable_history s;
    tool_discovery := tool_discovery s; pending_tool_calls := pending_tool_calls s;
    completed_tool_results := completed_tool_results s; locked_tool_call_protocol := locked_tool_call_protocol s;
    timeout_count := timeout_count s; permanently_failed_tools := permanently_failed_tools s;
    scope_violation_streak := scope_violation_streak s; streaming_message_buffer := streaming_message_buffer';
    is_streaming := is_streaming'
  |}.
Definition new_agent_state (now : Z) : AgentLoopState :=
  {|
    status := SCreated; current_iteration := 0; tool_call_count := 0; iteration_history := []; start_time := now;
    end_time := None; error := None; error_records := []; retry_totals := ∅; interruption_records := [];
    event_records := []; variable_snapshots := ∅; variable_history := ∅;
    tool_discovery := {| activated_tools := ∅; discovered_via_general := ∅ |}; pending_tool_calls := ∅;
    completed_tool_results := ∅; locked_tool_call_protocol := None; timeout_count := 0;
    permanently_failed_tools := ∅; scope_violation_streak := 0; streaming_message_buffer := None;
    is_streaming := false
  |}.
(** [activate_tool] and [record_general_discovery] of the discovery state, and
    whether they changed it. *)
Definition activate_tool (name : string) (d : ToolDiscoveryState) : ToolDiscoveryState * bool :=
  ({| activated_tools := {[name]} ∪ activated_tools d; discovered_via_general := discovered_via_general d |},
   bool_decide (name ∉ activated_tools d)).
Definition record_general_discovery (name : string) (d : ToolDiscoveryState) : ToolDiscoveryState * bool :=
  ({| activated_tools := activated_tools d; discovered_via_general := {[name]} ∪ discovered_via_general d |},
   bool_decide (name ∉ discovered_via_general d)).

(** * Operations *)

Implicit Types s : AgentLoopState.

(** Adding one to a 32-bit counter, and a length taken as one. *)
Definition bump32 (n : nat) : nat := Z.to_nat (wrap32 (Z.of_nat n + 1)).
Definition as_u32 (n : nat) : nat := Z.to_nat (wrap32 (Z.of_nat n)).
Lemma bump32_small n : (Z.of_nat n < u32_max)%Z → bump32 n = S n.
Proof. intros Hn. unfold bump32. rewrite wrap32_small by mlia. lia. Qed.
Lemma bump32_le n : bump32 n ≤ S n.
Proof. destruct (decide (Z.of_nat n < u32_max)%Z) as [Hn|Hn]; [by rewrite bump32_small|]. pose proof (wrap32_u32 (Z.of_nat n + 1)). unfold bump32. mlia. Qed.
Lemma as_u32_small n : (Z.of_nat n ≤ u32_max)%Z → as_u32 n = n.
Proof. intros Hn. unfold as_u32. rewrite wrap32_small by mlia. lia. Qed.

Definition retry_total (k : ErrorKind) s : nat := default 0 (retry_totals s !! k).
Definition record_retry (k : ErrorKind) s : AgentLoopState :=
  set_errors (error_records s) (<[k := bump32 (retry_total k s)]> (retry_totals s)) s.
Definition record_error (r : ErrorRecord) s : AgentLoopState := set_errors (error_records s ++ [r]) (retry_totals s) s.
Definition record_permanently_failed_tool (tool : string) s : AgentLoopState :=
  set_tools (tool_discovery s) ({[tool]} ∪ permanently_failed_tools s) (scope_violation_streak s) s.
Definition record_scope_violation_round (all_violations : bool) s : AgentLoopState :=
  set_tools (tool_discovery s) (permanently_failed_tools s) (if all_violations then bump32 (scope_violation_streak s) else 0) s.
Definition on_tool_discovery (f : ToolDiscoveryState → ToolDiscoveryState) s : AgentLoopState :=
  set_tools (f (tool_discovery s)) (permanently_failed_tools s) (scope_violation_streak s) s.

(** [Vec::last_mut] *)
Definition start_iteration (now : Z) s : AgentLoopState :=
  set_iterations (bump32 (current_iteration s)) (tool_call_count s)
    (iteration_history s ++ [{| iteration := bump32 (current_iteration s); it_start_time := now; it_end_time := None;
       it_tool_call_count := 0; tool_calls := []; response_content := None; llm_calls := [] |}]) s.
Definition end_iteration_with_content (content : option string) (now : Z) s : AgentLoopState :=
  set_iterations (current_iteration s) (tool_call_count s)
    (on_last (λ r, {| iteration := iteration r; it_start_time := it_start_time r; it_end_time := Some now;
       it_tool_call_count := it_tool_call_count r; tool_calls := tool_calls r; response_content := content;
       llm_calls := llm_calls r |}) (iteration_history s)) s.
Definition end_iteration (now : Z) s : AgentLoopState := end_iteration_with_content None now s.
Definition push_call (counted : bool) (c : ToolCallRecord) (r : IterationRecord) : IterationRecord :=
  {| iteration := iteration r; it_start_time := it_start_time r; it_end_time := it_end_time r;
     it_tool_call_count := if counted then bump32 (it_tool_call_count r) else it_tool_call_count r; tool_calls := tool_calls r ++ [c];
     response_content := response_content r; llm_calls := llm_calls r |}.
Definition record_tool_call_with_details (c : ToolCallRecord) s : AgentLoopState :=
  set_iterations (current_iteration s) (bump32 (tool_call_count s)) (on_last (push_call true c) (iteration_history s)) s.
Definition record_tool_call (name : string) (duration_ms : Z) (success : bool) s : AgentLoopState :=
  record_tool_call_with_details {| call_name := name; call_arguments := VNull; call_result := None; call_error := None;
    tool_call_id := None; call_duration_ms := duration_ms; call_success := success |} s.
Definition record_routing_call (c : ToolCallRecord) s : AgentLoopState :=
  set_iterations (current_iteration s) (tool_call_count s) (on_last (push_call false c) (iteration_history s)) s.
Definition number_llm_call (n : nat) (c : LlmCallRecord) : LlmCallRecord :=
  {| seq_no := n; profile_id := profile_id c; llm_model := llm_model c; request_summary := request_summary c;
     response_summary := response_summary c; prompt_tokens := prompt_tokens c; completion_tokens := completion_tokens c;
     started_at := started_at c; completed_at := completed_at c; llm_duration_ms := llm_duration_ms c;
     first_token_ms := first_token_ms c; generation_ms := generation_ms c; llm_error := llm_error c |}.
Definition record_llm_call (c : LlmCallRecord) s : AgentLoopState :=
  set_iterations (current_iteration s) (tool_call_count s)
    (on_last (λ r, {| iteration := iteration r; it_start_time := it_start_time r; it_end_time := it_end_time r;
       it_tool_call_count := it_tool_call_count r; tool_calls := tool_calls r; response_content := response_content r;
       llm_calls := llm_calls r ++ [number_llm_call (as_u32 (List.length (llm_calls r))) c] |}) (iteration_history s)) s.
Definition begin_tool_call (id : string) s : AgentLoopState := set_calls ({[id]} ∪ pending_tool_calls s) (completed_tool_results s) s.
Definition finish_tool_call (id : string) (res : option value) s : AgentLoopState :=
  set_calls (pending_tool_calls s ∖ {[id]})
    (match res with Some v => <[id := v]> (completed_tool_results s) | None => completed_tool_results s end) s.
Definition has_completed_tool_call (id : string) s : bool := bool_decide (is_Some (completed_tool_results s !! id)).
Definition completed_tool_result (id : string) s : option value := completed_tool_results s !! id.
Definition set_variable_snapshot (name : string) (v : value) s : AgentLoopState :=
  set_variables (<[name := v]> (variable_snapshots s)) (variable_history s) s.
Definition set_variable_snapshot_with_history (name : string) (v : value) (source : string) (now : Z) s : AgentLoopState :=
  set_variables (<[name := v]> (variable_snapshots s))
    (<[name := default [] (variable_history s !! name) ++ [{| history_value := v; history_timestamp := now; history_source := source |}]]>
      (variable_history s)) s.
Definition get_variable_history (name : string) s : list VariableHistoryEntry := default [] (variable_history s !! name).
Definition prune_variable_history (max_entries : nat) s : AgentLoopState :=
  set_variables (variable_snapshots s) ((λ es, drop (List.length es - max_entries) es) <$> variable_history s) s.
Definition set_locked_tool_call_protocol (p : value) s : AgentLoopState := set_protocol (Some p) s.
Definition increment_timeout_count s : AgentLoopState :=
  set_events (interruption_records s) (event_records s) (bump32 (timeout_count s)) s.
Definition record_interruption (r : value) s : AgentLoopState :=
  set_events (interruption_records s ++ [r]) (event_records s) (timeout_count s) s.
Definition record_event (r : value) s : AgentLoopState :=
  set_events (interruption_records s) (event_records s ++ [r]) (timeout_count s) s.
Definition start_streaming s : AgentLoopState := set_stream (Some "") true s.
Definition update_stream_message (delta : string) s : AgentLoopState :=
  set_stream (Some (match streaming_message_buffer s with Some buf => buf +:+ delta | None => delta end)) (is_streaming s) s.
Definition end_streaming s : AgentLoopState := set_stream (streaming_message_buffer s) false s.
Definition take_streaming_message s : AgentLoopState * option string := (set_stream None (is_streaming s) s, streaming_message_buffer s).

(** * Status *)

Definition agent_transition_allowed (source target : ExecutionStatus) : bool :=
  match source, target with
  | SCreated, (SRunning | SPaused | SCancelled | SStopped) => true
  | SRunning, (SRunning | SPaused | SCompleted | SFailed | SCancelled | SStopped | STimeout) => true
  | SPaused, (SRunning | SFailed | SCancelled | SStopped | STimeout) => true
  | _, _ => false
  end.
Definition agent_apply (target : ExecutionStatus) (now : Z) s : AgentLoopState :=
  match target with
  | SRunning => set_machine SRunning (if decide (status s = SCreated) then now else start_time s) (end_time s) s
  | SPaused => set_machine SPaused (start_time s) (end_time s) s
  | SCompleted | SFailed | SCancelled | SStopped | STimeout => set_machine target (start_time s) (Some now) s
  | SCreated => s
  end.
(** The [Debug] form of a status. *)
Definition debug_status (x : ExecutionStatus) : string :=
  match x with
  | SCreated => "Created" | SRunning => "Running" | SPaused => "Paused" | SCompleted => "Completed" | SFailed => "Failed"
  | SCancelled => "Cancelled" | SStopped => "Stopped" | STimeout => "Timeout"
  end.
Definition agent_transition (target : ExecutionStatus) (now : Z) : SE AgentLoopState AgentError () := λ s,
  if agent_transition_allowed (status s) target then (agent_apply target now s, Ok tt)
  else (s, Err (IllegalStateTransition (debug_status (status s) +:+ " -> " +:+ debug_status target))).
Definition agent_start := agent_transition SRunning.
Definition agent_pause := agent_transition SPaused.
Definition agent_resume := agent_transition SRunning.
Definition agent_complete := agent_transition SCompleted.
Definition agent_cancel := agent_transition SCancelled.
Definition agent_timeout := agent_transition STimeout.
Definition agent_fail (e : string) (now : Z) : SE AgentLoopState AgentError () :=
  _ ← agent_transition SFailed now; modify (set_error (Some e)).
Definition agent_cancel_with_error (e : string) (now : Z) : SE AgentLoopState AgentError () :=
  _ ← agent_transition SCancelled now; modify (set_error (Some e)).

(** * Snapshots *)

Record AgentLoopStateSnapshot : Type := {
  snap_status : ExecutionStatus;
  snap_current_iteration : nat;
  snap_tool_call_count : nat;
  snap_iteration_history : list IterationRecord;
  snap_start_time : Z;
  snap_end_time : option Z;
  snap_error : option string;
  snap_error_records : list ErrorRecord;
  snap_retry_totals : gmap ErrorKind nat;
  snap_interruption_records : list value;
  snap_event_records : list value;
  snap_variable_snapshots : gmap string value;
  snap_tool_discovery : ToolDiscoveryState;
  snap_pending_tool_calls : gset string;
  snap_completed_tool_results : gmap string value;
  snap_locked_tool_call_protocol : option value;
  snap_timeout_count : nat;
  snap_permanently_failed_tools : gset string;
  snap_scope_violation_streak : nat;
}.
Definition create_snapshot (s : AgentLoopState) : AgentLoopStateSnapshot :=
  {|
    snap_status := status s; snap_current_iteration := current_iteration s;
    snap_tool_call_count := tool_call_count s; snap_iteration_history := iteration_history s;
    snap_start_time := start_time s; snap_end_time := end_time s; snap_error := error s;
    snap_error_records := error_records s; snap_retry_totals := retry_totals s;
    snap_interruption_records := interruption_records s; snap_event_records := event_records s;
    snap_variable_snapshots := variable_snapshots s; snap_tool_discovery := tool_discovery s;
    snap_pending_tool_calls := pending_tool_calls s; snap_completed_tool_results := completed_tool_results s;
    snap_locked_tool_call_protocol := locked_tool_call_protocol s; snap_timeout_count := timeout_count s;
    snap_permanently_failed_tools := permanently_failed_tools s;
    snap_scope_violation_streak := scope_violation_streak s
  |}.
Definition restore_from_snapshot (snapshot : AgentLoopStateSnapshot) (s : AgentLoopState) : AgentLoopState :=
  {|
    status := snap_status snapshot; current_iteration := snap_current_iteration snapshot;
    tool_call_count := snap_tool_call_count snapshot; iteration_history := snap_iteration_history snapshot;
    start_time := snap_start_time snapshot; end_time := snap_end_time snapshot; error := snap_error snapshot;
    error_records := snap_error_records snapshot; retry_totals := snap_retry_totals snapshot;
    interruption_records := snap_interruption_records snapshot; event_records := snap_event_records snapshot;
    variable_snapshots := snap_variable_snapshots snapshot; variable_history := variable_history s;
    tool_discovery := snap_tool_discovery snapshot; pending_tool_calls := snap_pending_tool_calls snapshot;
    completed_tool_results := snap_completed_tool_results snapshot;
    locked_tool_call_protocol := snap_locked_tool_call_protocol snapshot;
    timeout_count := snap_timeout_count snapshot;
    permanently_failed_tools := snap_permanently_failed_tools snapshot;
    scope_violation_streak := snap_scope_violation_streak snapshot;
    streaming_message_buffer := streaming_message_buffer s; is_streaming := is_streaming s
  |}.
Definition cleanup s : AgentLoopState :=
  set_error None (set_errors [] ∅ (set_variables ∅ (variable_history s)
    (set_iterations (current_iteration s) (tool_call_count s) [] s))).

(** * Runs *)

(** A call of one of the methods above. *)
Inductive AgentOp : Type :=
| OpStartIteration (now : Z)
| OpEndIteration (content : option string) (now : Z)
| OpToolCall (c : ToolCallRecord)
| OpRoutingCall (c : ToolCallRecord)
| OpLlmCall (c : LlmCallRecord)
| OpBeginCall (id : string)
| OpFinishCall (id : string) (res : option value)
| OpError (r : ErrorRecord)
| OpRetry (k : ErrorKind)
| OpFailedTool (tool : string)
| OpScopeRound (all_violations : bool)
| OpActivate (name : string)
| OpDiscover (name : string)
| OpVariable (name : string) (v : value)
| OpVariableWithHistory (name : string) (v : value) (source : string) (now : Z)
| OpPruneHistory (max_entries : nat)
| OpProtocol (p : value)
| OpTimeoutCount
| OpInterruption (r : value)
| OpEvent (r : value)
| OpStartStreaming
| OpUpdateStream (delta : string)
| OpEndStreaming
| OpTakeStream
| OpStatus (target : ExecutionStatus) (now : Z)
| OpFail (e : string) (now : Z)
| OpCancelWithError (e : string) (now : Z).
Definition run_op (o : AgentOp) s : AgentLoopState :=
  match o with
  | OpStartIteration now => start_iteration now s
  | OpEndIteration content now => end_iteration_with_content content now s
  | OpToolCall c => record_tool_call_with_details c s
  | OpRoutingCall c => record_routing_call c s
  | OpLlmCall c => record_llm_call c s
  | OpBeginCall id => begin_tool_call id s
  | OpFinishCall id res => finish_tool_call id res s
  | OpError r => record_error r s
  | OpRetry k => record_retry k s
  | OpFailedTool tool => record_permanently_failed_tool tool s
  | OpScopeRound b => record_scope_violation_round b s
  | OpActivate name => on_tool_discovery (λ d, (activate_tool name d).1) s
  | OpDiscover name => on_tool_discovery (λ d, (record_general_discovery name d).1) s
  | OpVariable name v => set_variable_snapshot name v s
  | OpVariableWithHistory name v source now => set_variable_snapshot_with_history name v source now s
  | OpPruneHistory n => prune_variable_history n s
  | OpProtocol p => set_locked_tool_call_protocol p s
  | OpTimeoutCount => increment_timeout_count s
  | OpInterruption r => record_interruption r s
  | OpEvent r => record_event r s
  | OpStartStreaming => start_streaming s
  | OpUpdateStream delta => update_stream_message delta s
  | OpEndStreaming => end_streaming s
  | OpTakeStream => (take_streaming_message s).1
  | OpStatus target now => (agent_transition target now s).1
  | OpFail e now => (agent_fail e now s).1
  | OpCancelWithError e now => (agent_cancel_with_error e now s).1
  end.
Definition run_ops (os : list AgentOp) s : AgentLoopState := foldl (λ s o, run_op o s) s os.
(** A step of a run that may be stopped, snapshotted and restored into another
    process. *)
Inductive agent_step : AgentLoopState → AgentLoopState → Prop :=
| step_op s o : agent_step s (run_op o s)
| step_restored s t : agent_step s (restore_from_snapshot (create_snapshot s) t).

(** The states after a number of calls, and the iteration counter when the state was
    last cleaned up. *)
Inductive agent_runs (now : Z) : nat → nat → AgentLoopState → Prop :=
| runs_new : agent_runs now 0 0 (new_agent_state now)
| runs_op n cleared s o : agent_runs now n cleared s → agent_runs now (S n) cleared (run_op o s)
| runs_restored n cleared s t : agent_runs now n cleared s → agent_runs now n cleared (restore_from_snapshot (create_snapshot s) t)
| runs_cleanup n cleared s : agent_runs now n cleared s → agent_runs now (S n) (current_iteration s) (cleanup s).

(** * What holds of every state of a run *)

Record consistent (cleared : nat) s : Prop := {
  con_numbered : ∀ i r, iteration_history s !! i = Some r → iteration r = cleared + S i;
  con_current : cleared + List.length (iteration_history s) = current_iteration s;
  con_calls : sum_list (it_tool_call_count <$> iteration_history s) ≤ tool_call_count s;
  con_counted : Forall (λ r, it_tool_call_count r ≤ List.length (tool_calls r)) (iteration_history s);
  con_seqs : Forall (λ r, ∀ j c, llm_calls r !! j = Some c → seq_no c = j) (iteration_history s);
  con_ended : is_Some (end_time s) ↔ status_is_terminal (status s) = true;
}.
(** No counter is beyond the number of calls. *)
Record counted (n : nat) s : Prop := {
  cnt_iterations : current_iteration s ≤ n;
  cnt_calls : tool_call_count s ≤ n;
  cnt_llm : Forall (λ r, List.length (llm_calls r) ≤ n) (iteration_history s);
}.

Lemma lookup_snoc_cases {A} (l : list A) x i y : (l ++ [x]) !! i = Some y → l !! i = Some y ∨ (i = List.length l ∧ y = x).
Proof.
  intros [?|[? Hx]]%lookup_app_Some; [by left|]. right. apply list_lookup_singleton_Some in Hx as [? <-]. split; [lia|done].
Qed.
(** Changing the last iteration keeps a state consistent when it keeps the
    iteration's number, its own counts and its numbering. *)
Lemma consistent_on_last (f : IterationRecord → IterationRecord) (n k : nat) cleared s :
  consistent cleared s → Forall (λ r, List.length (llm_calls r) ≤ k) (iteration_history s) →
  (∀ r, iteration (f r) = iteration r ∧ it_tool_call_count (f r) ≤ n + it_tool_call_count r) →
  (∀ r, it_tool_call_count r ≤ List.length (tool_calls r) → it_tool_call_count (f r) ≤ List.length (tool_calls (f r))) →
  (∀ r, List.length (llm_calls r) ≤ k → (∀ j c, llm_calls r !! j = Some c → seq_no c = j) → ∀ j c, llm_calls (f r) !! j = Some c → seq_no c = j) →
  consistent cleared (set_iterations (current_iteration s) (n + tool_call_count s) (on_last f (iteration_history s)) s).
Proof.
  intros [Hn Hc Hs Ht Hq He] Hk Hf Hcnt Hseq.
  destruct (on_last_cases f (iteration_history s)) as [[Hnil ->]|(l & r & Hl & ->)].
  { split; cbn; [done|by rewrite <-Hc, Hnil|simpl; lia|constructor|constructor|done]. }
  rewrite Hl in Hn, Hc, Hs, Ht, Hq, Hk. apply Forall_app in Ht as [Ht [Htr _]%Forall_cons]. apply Forall_app in Hq as [Hq [Hqr _]%Forall_cons].
  apply Forall_app in Hk as [_ [Hkr _]%Forall_cons]. destruct (Hf r) as [Hfi Hft].
  split; cbn [set_iterations iteration_history current_iteration tool_call_count end_time status].
  - intros i x [Hi|[-> ->]]%lookup_snoc_cases; [apply Hn; by apply lookup_app_l_Some|].
    rewrite Hfi. apply Hn. by apply list_lookup_middle.
  - rewrite length_app in *. done.
  - rewrite fmap_app, sum_list_with_app in *. simpl in *. lia.
  - apply Forall_app. split; [done|]. repeat constructor. auto.
  - apply Forall_app. split; [done|]. repeat constructor. by apply Hseq.
  - done.
Qed.
Lemma counted_on_last (f : IterationRecord → IterationRecord) (n k : nat) s : counted k s → n ≤ S k → (∀ r, List.length (llm_calls (f r)) ≤ S (List.length (llm_calls r))) →
  counted (S k) (set_iterations (current_iteration s) n (on_last f (iteration_history s)) s).
Proof.
  intros [H1 H2 H3] Hn Hf. split; cbn [set_iterations iteration_history current_iteration tool_call_count]; [lia|done|].
  destruct (on_last_cases f (iteration_history s)) as [[_ ->]|(l & r & Hl & ->)]; [constructor|]. rewrite Hl in H3. apply Forall_app in H3 as [H3 [Hr _]%Forall_cons].
  apply Forall_app. split; [eapply Forall_impl; [exact H3|]; intros; cbn in *; lia|]. apply Forall_singleton. specialize (Hf r). lia.
Qed.

(** The fields consistency is about. *)
Definition core_of s : list IterationRecord * nat * nat * option Z * ExecutionStatus :=
  (iteration_history s, current_iteration s, tool_call_count s, end_time s, status s).
Lemma consistent_ext cleared s t : core_of s = core_of t → consistent cleared s → consistent cleared t.
Proof. intros [= H1 H2 H3 H4 H5] [A B C D E F]. by split; rewrite <-?H1, <-?H2, <-?H3, <-?H4, <-?H5. Qed.
Lemma counted_ext n m s t : n ≤ m → (iteration_history s, current_iteration s, tool_call_count s) = (iteration_history t, current_iteration t, tool_call_count t) →
  counted n s → counted m t.
Proof.
  intros Hnm [= H1 H2 H3] [A B C]. split; rewrite <-?H1, <-?H2, <-?H3; [lia|lia|]. eapply Forall_impl; [exact C|]. intros; cbn in *; lia.
Qed.
Lemma transition_core target now s : (iteration_history s, current_iteration s, tool_call_count s) =
  (iteration_history (agent_transition target now s).1, current_iteration (agent_transition target now s).1, tool_call_count (agent_transition target now s).1).
Proof. unfold agent_transition. destruct (agent_transition_allowed _ _); [|done]. by destruct target. Qed.
Lemma transition_consistent cleared target now s : consistent cleared s → consistent cleared (agent_transition target now s).1.
Proof.
  intros H. unfold agent_transition. destruct (agent_transition_allowed (status s) target) eqn:Ha; [|done].
  destruct H as [A B C D E F]. destruct target; cbn [fst agent_apply]; try done;
    (split; cbn [set_machine iteration_history current_iteration tool_call_count end_time status]; try done).
  all: assert (Hs : status_is_terminal (status s) = false) by (by destruct (status s)); rewrite Hs in F; done.
Qed.
(** A status change that also writes the error. *)
Lemma fallible_core target e now s (t := (_ ← agent_transition target now; modify (set_error (Some e))) s) : core_of t.1 = core_of (agent_transition target now s).1.
Proof. subst t. cbv [mbind M_bind modify]. by destruct (agent_transition target now s) as [t [[]|]]. Qed.
Lemma counted_core n s t : core_of s = core_of t → counted n s → counted n t.
Proof. intros [= H1 H2 H3 _ _]. apply counted_ext; [lia|congruence]. Qed.
Lemma transition_counted n target now s : counted n s → counted (S n) (agent_transition target now s).1.
Proof. apply counted_ext; [lia|apply transition_core]. Qed.
Lemma start_iteration_consistent n now cleared s : consistent cleared s → counted n s → (Z.of_nat n < u32_max)%Z → consistent cleared (start_iteration now s).
Proof.
  intros [A B C D E F] [Hi _ _] Hn. unfold start_iteration. rewrite bump32_small by lia.
  split; cbn [set_iterations iteration_history current_iteration tool_call_count end_time status].
  - intros i r [Hr|[-> ->]]%lookup_snoc_cases; [by apply A|]. cbn. lia.
  - rewrite length_app. simpl. lia.
  - rewrite fmap_app, sum_list_with_app. simpl. lia.
  - apply Forall_app. split; [done|]. by repeat constructor.
  - apply Forall_app. split; [done|]. repeat constructor. by intros j c.
  - done.
Qed.
Lemma start_iteration_counted n now s : counted n s → counted (S n) (start_iteration now s).
Proof.
  intros [A B C]. split; cbn [start_iteration set_iterations iteration_history current_iteration tool_call_count].
  - pose proof (bump32_le (current_iteration s)). lia.
  - lia.
  - apply Forall_app. split; [eapply Forall_impl; [exact C|]; intros; cbn in *; lia|]. apply Forall_singleton. cbn. lia.
Qed.
Lemma run_op_counted n o s : counted n s → counted (S n) (run_op o s).
Proof.
  intros H. pose proof (cnt_calls _ _ H) as Hc. pose proof (bump32_le (tool_call_count s)).
  destruct o; cbn [run_op]; try (by apply (counted_ext n (S n) s); [lia|..]).
  - by apply start_iteration_counted.
  - apply (counted_on_last _ _ n s H); [lia|]. intros r. cbn. lia.
  - apply (counted_on_last _ _ n s H); [lia|]. intros r. cbn. lia.
  - apply (counted_on_last _ _ n s H); [lia|]. intros r. cbn. lia.
  - apply (counted_on_last _ _ n s H); [lia|]. intros r. cbn. rewrite length_app. simpl. lia.
  - by apply transition_counted.
  - eapply counted_core; [symmetry; apply (fallible_core SFailed)|by apply transition_counted].
  - eapply counted_core; [symmetry; apply (fallible_core SCancelled)|by apply transition_counted].
Qed.
Lemma run_op_consistent n o cleared s : consistent cleared s → counted n s → (Z.of_nat n < u32_max)%Z → consistent cleared (run_op o s).
Proof.
  intros H Hcn Hn. pose proof (cnt_llm _ _ Hcn) as Hl. pose proof (cnt_calls _ _ Hcn).
  destruct o; cbn [run_op]; try (by apply (consistent_ext _ s)).
  - by apply (start_iteration_consistent n).
  - apply (consistent_on_last _ 0 n _ s H Hl); [split; cbn; lia|done|done].
  - unfold record_tool_call_with_details. rewrite (bump32_small (tool_call_count s)) by lia. apply (consistent_on_last _ 1 n _ s H Hl); [|intros r Hr|done].
    + intros r. split; [done|apply bump32_le].
    + cbn. rewrite length_app. simpl. pose proof (bump32_le (it_tool_call_count r)). lia.
  - apply (consistent_on_last _ 0 n _ s H Hl); [split; cbn; lia|intros r Hr; cbn; rewrite length_app; simpl; lia|done].
  - apply (consistent_on_last _ 0 n _ s H Hl); [split; cbn; lia|done|]. intros r Hk Hr j x. cbn.
    intros [Hj|[-> ->]]%lookup_snoc_cases; [by apply Hr|]. cbn. apply as_u32_small. mlia.
  - by apply transition_consistent.
  - eapply consistent_ext; [symmetry; apply (fallible_core SFailed)|by apply transition_consistent].
  - eapply consistent_ext; [symmetry; apply (fallible_core SCancelled)|by apply transition_consistent].
Qed.
Lemma runs_counted now n cleared s : agent_runs now n cleared s → counted n s.
Proof.
  induction 1 as [|n cleared s o _ IH|n cleared s t _ IH|n cleared s _ IH]; [by split|by apply run_op_counted|by eapply counted_ext; [..|exact IH]|].
  destruct IH. split; cbn; [lia|lia|constructor].
Qed.

(** C23: in every state an agent loop reaches through fewer than 2^32 - 1 calls of its methods, with
    snapshots restored elsewhere and clean-ups in between, the iterations are numbered without gaps,
    from 1 or from where the last clean-up left the counter, and the last number is the counter; the
    calls counted per iteration are among its recorded calls, and together no more than the run's
    counter; the LLM calls of an iteration are numbered from 0; and the run has an end time exactly
    when its status is terminal. *)
Theorem agent_state_consistent (now : Z) n cleared s : agent_runs now n cleared s → (Z.of_nat n < u32_max)%Z → consistent cleared s.
Proof.
  induction 1 as [|n cleared s o Hr IH|n cleared s t _ IH|n cleared s _ IH]; intros Hn.
  - split; cbn; [done|done|lia|constructor|constructor|]. by split; [intros []|].
  - apply (run_op_consistent n); [apply IH; lia|by eapply runs_counted|lia].
  - eapply consistent_ext; [|by apply IH]. done.
  - destruct IH as [A B C D E F]; [lia|]. split; cbn; [done|lia|lia|constructor|constructor|done].
Qed.

(** * What a run never gives back *)

Record kept s t : Prop := {
  kept_errors : error_records s `prefix_of` error_records t;
  kept_results : dom (completed_tool_results s) ⊆ dom (completed_tool_results t);
  kept_settled : status_is_terminal (status s) = true → status t = status s ∧ end_time t = end_time s ∧ error t = error s;
  kept_started : status s ≠ SCreated → status t ≠ SCreated;
}.
#[export] Instance kept_preorder : PreOrder kept.
Proof.
  split; [split; done|]. intros s t u [A1 A5 A6 A7] [B1 B5 B6 B7]. split.
  - by transitivity (error_records t).
  - set_solver.
  - intros Hs. destruct (A6 Hs) as (E1 & E2 & E3). destruct B6 as (F1 & F2 & F3); [by rewrite E1|]. by rewrite F1, F2, F3.
  - auto.
Qed.
(** Operations away from what is kept. *)
Lemma kept_ext s t :
  error_records s = error_records t → completed_tool_results s = completed_tool_results t →
  status s = status t → end_time s = end_time t → error s = error t → kept s t.
Proof. intros H1 H5 H6 H7 H8. by split; rewrite <-?H1, <-?H5, <-?H6, <-?H7, <-?H8. Qed.
Lemma transition_kept target now s : kept s (agent_transition target now s).1.
Proof.
  unfold agent_transition. destruct (agent_transition_allowed (status s) target) eqn:Ha; [|done].
  destruct (status_is_terminal (status s)) eqn:Ht; [by destruct (status s)|].
  destruct target; cbn [fst agent_apply]; (split; [done|done|congruence|by destruct (status s)]).
Qed.
Lemma fallible_kept target e now s (m := _ ← agent_transition target now; modify (set_error (Some e))) : kept s (m s).1.
Proof.
  subst m. unfold mbind, M_bind, modify. destruct (agent_transition target now s) as [t [[]|]] eqn:Ht; cbn [fst].
  - destruct (status_is_terminal (status s)) eqn:Hs.
    { unfold agent_transition in Ht. by destruct (agent_transition_allowed (status s) target) eqn:Ha; [destruct (status s)|]. }
    pose proof (transition_kept target now s) as Hk. rewrite Ht in Hk. destruct Hk as [A1 A5 _ A7].
    split; [done|done|congruence|done].
  - pose proof (transition_kept target now s) as Hk. by rewrite Ht in Hk.
Qed.
Lemma run_op_kept o s : kept s (run_op o s).
Proof.
  destruct o; cbn [run_op]; try (by apply kept_ext).
  - split; cbn; try done. destruct res; set_solver.
  - split; cbn; try done. by apply prefix_app_r.
  - apply transition_kept.
  - apply (fallible_kept SFailed).
  - apply (fallible_kept SCancelled).
Qed.
Lemma run_ops_kept os s : kept s (run_ops os s).
Proof. revert s. induction os as [|o os IH]; intros s; [done|]. cbn. etrans; [apply (run_op_kept o)|apply IH]. Qed.
(** Along a run, through restores as well, nothing recorded is lost: the error records only grow,
    a tool call once completed stays
    answered from its result, a settled run keeps its status, end time and error, and a started
    one is never unstarted. *)
Theorem agent_progress_kept s t : rtc agent_step s t → kept s t.
Proof.
  induction 1 as [|s t u [|] _ IH]; [done| |].
  - by etrans; [apply run_op_kept|].
  - etrans; [|exact IH]. by apply kept_ext.
Qed.

(** * Witnesses *)

Lemma rtc_ops os s : rtc agent_step s (run_ops os s).
Proof. revert s. induction os as [|o os IH]; intros s; [constructor|]. cbn. eapply rtc_l; [apply (step_op s o)|apply IH]. Qed.
Definition sample_call : ToolCallRecord :=
  {| call_name := "read_file"; call_arguments := VNull; call_result := Some (VString "text"); call_error := None;
     tool_call_id := Some "c1"; call_duration_ms := 4; call_success := true |}.
Definition sample_ops : list AgentOp :=
  [OpStatus SRunning 5; OpStartIteration 6; OpBeginCall "c1"; OpRoutingCall sample_call; OpToolCall sample_call;
   OpFinishCall "c1" (Some (VString "text")); OpEndIteration (Some "done") 8].
Definition sample_state : AgentLoopState :=
  restore_from_snapshot (create_snapshot (run_ops sample_ops (new_agent_state 1))) (new_agent_state 20).
Lemma runs_ops now os n cleared s : agent_runs now n cleared s → agent_runs now (List.length os + n) cleared (run_ops os s).
Proof.
  revert n s. induction os as [|o os IH]; intros n s Hs; [done|]. cbn [List.length run_ops foldl]. rewrite Nat.add_succ_comm. by apply IH, runs_op.
Qed.
Lemma agent_state_consistent_witness :
  let s := run_ops [OpStartIteration 30; OpStatus SCompleted 31] (cleanup sample_state) in
  current_iteration s = 2 ∧ (iteration <$> iteration_history s) = [2] ∧ tool_call_count s = 1 ∧ end_time s = Some 31%Z ∧ consistent 1 s.
Proof.
  split; [reflexivity|]. split; [reflexivity|]. split; [reflexivity|]. split; [reflexivity|].
  apply (agent_state_consistent 1 10 1); [|reflexivity].
  exact (runs_ops 1 [OpStartIteration 30; OpStatus SCompleted 31] 8 1 (cleanup sample_state) (runs_cleanup 1 7 0 _ (runs_restored 1 7 0 _ (new_agent_state 20) (runs_ops 1 sample_ops 0 0 _ (runs_new 1))))).
Defined.
Lemma agent_progress_kept_witness :
  completed_tool_result "c1" sample_state = Some (VString "text") ∧
  kept sample_state (run_ops [OpStatus SCompleted 31; OpStatus SRunning 32; OpFail "late" 33] sample_state) ∧
  status (run_ops [OpStatus SCompleted 31; OpStatus SRunning 32; OpFail "late" 33] sample_state) = SCompleted.
Proof.
  split; [reflexivity|]. split; [|reflexivity].
  exact (agent_progress_kept sample_state _ (rtc_ops [OpStatus SCompleted 31; OpStatus SRunning 32; OpFail "late" 33] sample_state)).
Defined.
