(* ===== verification/ExecutionBudgets.v ===== *)
(** Wall-clock budgets across suspension: wf-workflow/src/execution_budgets.rs,
    with the resume of wf-workflow/src/coordinator/lifecycle/resume.rs and the
    guard of wf-workflow/src/coordinator/workflow/persistence.rs.

    The state is the variable map of the execution: the totals, the active time
    of earlier segments and the human-approval waits are reserved variables.
    The clock is an argument. *)

From S2P Require Import Prelude Strings Json Numbers DeltaAgent Entity.

Definition BUDGETS_VAR : string := "__execution_budgets".
Definition ELAPSED_VAR : string := "__execution_elapsed_ms".
Definition APPROVAL_WAIT_VAR : string := "__approval_wait_ms".
Definition APPROVAL_WAITING_VAR : string := "__approval_wait_started_ms".

(** [VariableStore] *)
Notation VariableStore := (gmap string value) (only parsing).

(** [WorkflowExecutionOptions] (wf-types/src/workflow_execution/execution.rs);
    the file scope is carried as JSON. *)
Record WorkflowExecutionOptions : Type := {
  input : option value;
  max_steps : option Z;
  timeout : option Z;
  max_execution_time : option Z;
  enable_checkpoints : option bool;
  node_timeout : option Z;
  max_pause_duration : option Z;
  max_navigation_multiplier : option Z;
  loop_max_iterations_cap : option Z;
  file_scope : option value;
}.
Definition unbudgeted : WorkflowExecutionOptions :=
  {| input := None; max_steps := None; timeout := None; max_execution_time := None; enable_checkpoints := Some true;
     node_timeout := None; max_pause_duration := None; max_navigation_multiplier := None; loop_max_iterations_cap := None;
     file_scope := None |}.
Definition with_execution_time (t : option Z) (o : WorkflowExecutionOptions) : WorkflowExecutionOptions :=
  {| input := input o; max_steps := max_steps o; timeout := timeout o; max_execution_time := t;
     enable_checkpoints := enable_checkpoints o; node_timeout := node_timeout o; max_pause_duration := max_pause_duration o;
     max_navigation_multiplier := max_navigation_multiplier o; loop_max_iterations_cap := loop_max_iterations_cap o;
     file_scope := file_scope o |}.
Definition without_steps (o : WorkflowExecutionOptions) : WorkflowExecutionOptions :=
  {| input := input o; max_steps := None; timeout := timeout o; max_execution_time := max_execution_time o;
     enable_checkpoints := enable_checkpoints o; node_timeout := node_timeout o; max_pause_duration := max_pause_duration o;
     max_navigation_multiplier := max_navigation_multiplier o; loop_max_iterations_cap := loop_max_iterations_cap o;
     file_scope := file_scope o |}.

Definition with_input (i : option value) (o : WorkflowExecutionOptions) : WorkflowExecutionOptions :=
  {| input := i; max_steps := max_steps o; timeout := timeout o; max_execution_time := max_execution_time o;
     enable_checkpoints := enable_checkpoints o; node_timeout := node_timeout o; max_pause_duration := max_pause_duration o;
     max_navigation_multiplier := max_navigation_multiplier o; loop_max_iterations_cap := loop_max_iterations_cap o;
     file_scope := file_scope o |}.

(** [persist_totals] *)
Definition budget_totals (o : WorkflowExecutionOptions) : value :=
  let num := option_to_value u64_to_value in
  VObject [("loop_max_iterations_cap", num (loop_max_iterations_cap o)); ("max_execution_time", num (max_execution_time o));
           ("max_navigation_multiplier", num (max_navigation_multiplier o)); ("max_pause_duration", num (max_pause_duration o));
           ("node_timeout", num (node_timeout o))].
Definition persist_totals (o : WorkflowExecutionOptions) (vars : VariableStore) : VariableStore :=
  <[BUDGETS_VAR := budget_totals o]> vars.

(** [approval_wait_ms], [approval_wait_started_ms], [accumulated_ms] *)
Definition approval_wait_ms (vars : VariableStore) : Z := default 0%Z (vars !! APPROVAL_WAIT_VAR ≫= as_u64).
Definition approval_wait_started_ms (vars : VariableStore) : option Z := vars !! APPROVAL_WAITING_VAR ≫= as_i64.
Definition accumulated_ms (vars : VariableStore) : Z := default 0%Z (vars !! ELAPSED_VAR ≫= as_u64).

(** [(now - start).max(0) as u64] *)
Definition elapsed_since (start now : Z) : Z := Z.max 0 (now - start).
(** [active_elapsed_ms] *)
Definition active_elapsed_ms (vars : VariableStore) (start now : Z) : Z :=
  let in_progress := match approval_wait_started_ms vars with Some t0 => elapsed_since t0 now | None => 0%Z end in
  sat_sub (sat_sub (elapsed_since start now) (approval_wait_ms vars)) in_progress.

(** [begin_approval_wait], [end_approval_wait] *)
Definition begin_approval_wait (now : Z) (vars : VariableStore) : VariableStore :=
  <[APPROVAL_WAITING_VAR := i64_to_value now]> vars.
Definition end_approval_wait (now : Z) (vars : VariableStore) : VariableStore :=
  match approval_wait_started_ms vars with
  | Some started =>
      let vars := delete APPROVAL_WAITING_VAR vars in
      <[APPROVAL_WAIT_VAR := u64_to_value (sat_add u64_max (approval_wait_ms vars) (elapsed_since started now))]> vars
  | None => vars
  end.

(** [snapshot_config] *)
Definition snapshot_config (segment_start now : Z) (vars : VariableStore) : option value :=
  budgets ← vars !! BUDGETS_VAR;
  Some (VObject [("budgets", budgets);
                 ("elapsed_ms", u64_to_value (sat_add u64_max (accumulated_ms vars) (elapsed_since segment_start now)))]).

(** The remainder of a budget; zero means no budget. *)
Definition budget_spent (execution_id : string) (total : Z) : WorkflowError :=
  StateTransitionError ("execution " +:+ execution_id +:+ " already spent its " +:+ show_int total +:+
    "ms wall-clock budget before the checkpoint; refusing to resume with no remaining budget").
Definition remaining_time (execution_id : string) (total : option Z) (spent : Z) : result WorkflowError (option Z) :=
  match total with
  | Some total =>
      if decide (0 < total)%Z then
        let remaining := sat_sub total spent in
        if decide (remaining = 0%Z) then Err (budget_spent execution_id total) else Ok (Some remaining)
      else Ok (Some total)
  | None => Ok None
  end.

Section continuation.
  (** the derived deserialisation of the options *)
  Context (parse_options : value → option WorkflowExecutionOptions).

(** [continuation_options] *)
Definition continuation_options (execution_id : string) (execution_config : option value) :
    result WorkflowError WorkflowExecutionOptions :=
  match execution_config with
  | None => Ok unbudgeted
  | Some config =>
      match get config "options", get config "executed_ms" ≫= as_u64 with
      | Some nested, Some spent =>
          let options := without_steps (default unbudgeted (parse_options nested)) in
          t ← remaining_time execution_id (max_execution_time options) spent;
          Ok (with_execution_time t options)
      | _, _ =>
          let budgets := default config (get config "budgets") in
          let elapsed_ms := default 0%Z (get config "elapsed_ms" ≫= as_u64) in
          let field key := get budgets key ≫= as_u64 in
          t ← remaining_time execution_id (field "max_execution_time") elapsed_ms;
          Ok {| input := None; max_steps := None; timeout := None; max_execution_time := t; enable_checkpoints := Some true;
                node_timeout := field "node_timeout"; max_pause_duration := field "max_pause_duration";
                max_navigation_multiplier := wrap32 <$> field "max_navigation_multiplier";
                loop_max_iterations_cap := wrap32 <$> field "loop_max_iterations_cap"; file_scope := None |}
      end
  end.
(** [snapshot_elapsed_ms] *)
Definition snapshot_elapsed_ms (execution_config : option value) : Z :=
  match execution_config with
  | None => 0%Z
  | Some config =>
      let raw := match get config "elapsed_ms" with Some v => Some v | None => get config "executed_ms" end in
      default 0%Z (raw ≫= as_u64)
  end.

(** * A run and its segments *)

(** What the engine keeps of a run: its variables, the start of the present
    segment and its options. *)
Record Run : Type := { variables : VariableStore; segment_start : Z; options : WorkflowExecutionOptions }.
(** [execute] (lifecycle.rs) *)
Definition start_run (o : WorkflowExecutionOptions) (vars : VariableStore) (now : Z) : Run :=
  {| variables := persist_totals o vars; segment_start := now; options := o |}.
(** The wall-clock guard of [check_interruption]. *)
Definition budget_exhausted (r : Run) (now : Z) : bool :=
  match max_execution_time (options r) with
  | Some m => bool_decide (0 < m)%Z && bool_decide (m ≤ active_elapsed_ms (variables r) (segment_start r) now)%Z
  | None => false
  end.
(** A checkpoint at [suspended], restored at [resumed] (resume.rs): the
    variables are restored, the options are rebuilt, the spent time is reseeded. *)
Definition resume_run (execution_id : string) (suspended resumed : Z) (r : Run) : result WorkflowError Run :=
  let config := snapshot_config (segment_start r) suspended (variables r) in
  o ← continuation_options execution_id config;
  Ok {| variables := <[ELAPSED_VAR := u64_to_value (snapshot_elapsed_ms config)]> (variables r);
        segment_start := resumed; options := with_input (variables r !! "input") o |}.

(** Work, an approval wait and a stay in storage, each with its duration. *)
Inductive activity : Type := Work (d : Z) | Approval (d : Z) | Parked (d : Z).
Definition duration (a : activity) : Z := match a with Work d | Approval d | Parked d => d end.
Definition run_activity (execution_id : string) (st : Run * Z) (a : activity) : result WorkflowError (Run * Z) :=
  let (r, now) := st in
  match a with
  | Work d => Ok (r, now + d)%Z
  | Approval d =>
      Ok ({| variables := end_approval_wait (now + d) (begin_approval_wait now (variables r));
             segment_start := segment_start r; options := options r |}, now + d)%Z
  | Parked d => r' ← resume_run execution_id now (now + d) r; Ok (r', now + d)%Z
  end.
Fixpoint run_activities (execution_id : string) (st : Run * Z) (l : list activity) : result WorkflowError (Run * Z) :=
  match l with
  | [] => Ok st
  | a :: l' => st' ← run_activity execution_id st a; run_activities execution_id st' l'
  end.
(** The time a run was active, and the time it was not in storage. *)
Definition active_time (l : list activity) : Z := foldr (λ a t, match a with Work d => d | _ => 0 end + t)%Z 0%Z l.
Definition wall_time (l : list activity) : Z := foldr (λ a t, match a with Parked _ => 0 | _ => duration a end + t)%Z 0%Z l.

(** The bookkeeping: earlier segments are in [ELAPSED_VAR] with their waits, all
    waits in [APPROVAL_WAIT_VAR], and the present segment runs on the remainder. *)
Record accounted (total : Z) (r : Run) (now active wall : Z) : Prop := {
  acc_clock : (0 ≤ segment_start r ≤ now)%Z ∧ (now ≤ i64_max)%Z;
  acc_times : (0 ≤ active ≤ wall)%Z ∧ (wall ≤ now)%Z;
  acc_elapsed : accumulated_ms (variables r) = (wall - (now - segment_start r))%Z ∧ (now - segment_start r ≤ wall)%Z;
  acc_waits : approval_wait_ms (variables r) = (wall - active)%Z;
  acc_marker : approval_wait_started_ms (variables r) = None;
  acc_remaining : max_execution_time (options r) = Some (total - accumulated_ms (variables r))%Z ∧
    (accumulated_ms (variables r) < total)%Z;
  acc_totals : ∃ o, variables r !! BUDGETS_VAR = Some (budget_totals o) ∧ max_execution_time o = Some total;
}.

Lemma accounted_work total r now active wall d :
  accounted total r now active wall → (0 ≤ d)%Z → (now + d ≤ i64_max)%Z → accounted total r (now + d) (active + d) (wall + d).
Proof. intros [? ? [He ?] Hw ? ? ?] Hd Hn. split; [lia|lia| | |done|done|done]; rewrite ?He, ?Hw; [split; lia|lia]. Qed.
Lemma accounted_approval total r now active wall d :
  accounted total r now active wall → (0 ≤ d)%Z → (now + d ≤ i64_max)%Z →
  accounted total {| variables := end_approval_wait (now + d) (begin_approval_wait now (variables r));
                     segment_start := segment_start r; options := options r |} (now + d) active (wall + d).
Proof.
  intros [Hc Ht [He ?] Hw Hm Hr Hb] Hd Hn.
  assert (Hv : end_approval_wait (now + d) (begin_approval_wait now (variables r)) =
    <[APPROVAL_WAIT_VAR := u64_to_value (wall + d - active)]> (delete APPROVAL_WAITING_VAR (<[APPROVAL_WAITING_VAR := i64_to_value now]> (variables r)))).
  { unfold end_approval_wait, begin_approval_wait, approval_wait_started_ms. rewrite lookup_insert_eq. simpl.
    rewrite decide_False by lia. simpl. rewrite decide_True by mlia. unfold approval_wait_ms in *.
    rewrite lookup_delete_ne, lookup_insert_ne by done. rewrite Hw. unfold elapsed_since. do 2 f_equal. mlia. }
  rewrite Hv, delete_insert_eq.
  assert (Hel : accumulated_ms (<[APPROVAL_WAIT_VAR := u64_to_value (wall + d - active)]> (delete APPROVAL_WAITING_VAR (variables r)))
    = accumulated_ms (variables r)) by (unfold accumulated_ms; by rewrite lookup_insert_ne, lookup_delete_ne by done).
  split; cbn [variables segment_start options]; rewrite ?Hel; [lia|lia|lia| | |done|].
  - unfold approval_wait_ms. by rewrite lookup_insert_eq.
  - unfold approval_wait_started_ms. by rewrite lookup_insert_ne, lookup_delete_eq.
  - destruct Hb as (o & Ho & ?). exists o. by rewrite lookup_insert_ne, lookup_delete_ne.
Qed.
(** A resume is refused exactly when the stored time has used up the total. *)
Lemma accounted_parked id total r now active wall d :
  accounted total r now active wall → (0 < total)%Z → (0 ≤ d)%Z → (now + d ≤ i64_max)%Z →
  if decide (total ≤ wall)%Z then resume_run id now (now + d) r = Err (budget_spent id total)
  else ∃ r', resume_run id now (now + d) r = Ok r' ∧ accounted total r' (now + d) active wall.
Proof.
  intros [Hc Ht [He Hle] Hw Hm Hr (o & Ho & Hmax)] Hpos Hd Hn.
  assert (Hcfg : snapshot_config (segment_start r) now (variables r) =
    Some (VObject [("budgets", budget_totals o); ("elapsed_ms", u64_to_value wall)])).
  { unfold snapshot_config. rewrite Ho, He. simpl. unfold elapsed_since.
    assert (sat_add u64_max (wall - (now - segment_start r)) (Z.max 0 (now - segment_start r)) = wall) as -> by mlia.
    done. }
  unfold resume_run. rewrite Hcfg. unfold continuation_options. simpl.
  rewrite Hmax. simpl. rewrite (decide_True (P := (0 < total)%Z)) by done.
  case_decide as Hw'.
  - rewrite decide_True by mlia. done.
  - rewrite decide_False by mlia. simpl. eexists. split; [done|].
    assert (Hel : accumulated_ms (<[ELAPSED_VAR := u64_to_value wall]> (variables r)) = wall)
      by (unfold accumulated_ms; by rewrite lookup_insert_eq).
    split; simpl; rewrite ?Hel; [lia|lia|lia| | | |].
    + unfold approval_wait_ms in *. by rewrite lookup_insert_ne.
    + unfold approval_wait_started_ms in *. by rewrite lookup_insert_ne.
    + split; [f_equal; mlia|lia].
    + exists o. by rewrite lookup_insert_ne.
Qed.
Definition total_duration (l : list activity) : Z := foldr (λ a t, duration a + t)%Z 0%Z l.
Lemma run_accounted id total l r now active wall r' now' :
  accounted total r now active wall → (0 < total)%Z → Forall (λ a, 0 ≤ duration a)%Z l →
  (now + total_duration l ≤ i64_max)%Z → run_activities id (r, now) l = Ok (r', now') →
  accounted total r' now' (active + active_time l) (wall + wall_time l) ∧ now' = (now + total_duration l)%Z.
Proof.
  revert r now active wall. induction l as [|a l IH]; intros r now active wall Hacc Hpos Hl Hn; cbn [run_activities].
  { intros [= <- <-]. simpl. by rewrite !Z.add_0_r. }
  apply Forall_cons in Hl as [Ha Hl]. assert (Hdur : (0 ≤ total_duration l)%Z).
  { clear -Hl. induction l as [|b l IH]; [done|]. apply Forall_cons in Hl as [Hb Hl]. simpl. specialize (IH Hl). lia. }
  intros ([r1 now1] & Hstep & Hrun)%result_bind_Ok. simpl in Hn.
  assert (Hacc1 : accounted total r1 now1 (active + match a with Work d => d | _ => 0 end)
    (wall + match a with Parked _ => 0 | _ => duration a end) ∧ now1 = (now + duration a)%Z).
  { destruct a as [d|d|d]; simpl in *.
    - injection Hstep as <- <-. split; [|done]. apply accounted_work; [done|lia|lia].
    - injection Hstep as <- <-. rewrite Z.add_0_r. split; [|done]. apply accounted_approval; [done|lia|lia].
    - rewrite !Z.add_0_r. pose proof (accounted_parked id total r now active wall d Hacc Hpos Ha ltac:(lia)) as Hp.
      apply result_bind_Ok in Hstep as (r2 & Hres & [= <- <-]). case_decide; [congruence|].
      destruct Hp as (r3 & Hok & Hacc'). split; [congruence|done]. }
  destruct Hacc1 as [Hacc1 ->].
  destruct (IH _ _ _ _ Hacc1 Hpos Hl ltac:(lia) Hrun) as [Hacc' ->]. simpl. rewrite !Z.add_assoc. split; [|done].
  by rewrite <-!Z.add_assoc in Hacc' |- *.
Qed.

(** What the guard measures in a bookkept run, while it works and while it
    waits for an approval. *)
Lemma accounted_guard total r now active wall d :
  accounted total r now active wall → (0 ≤ d)%Z → (now + d ≤ i64_max)%Z →
  (budget_exhausted r (now + d) = true ↔ (total ≤ active + d)%Z) ∧
  (budget_exhausted {| variables := begin_approval_wait now (variables r); segment_start := segment_start r; options := options r |}
     (now + d) = true ↔ (total ≤ active)%Z).
Proof.
  intros [Hc Ht [He ?] Hw Hm [Hr ?] _] Hd Hn. unfold budget_exhausted, active_elapsed_ms. cbn [variables segment_start options].
  assert (Hwait : approval_wait_ms (begin_approval_wait now (variables r)) = (wall - active)%Z)
    by (unfold approval_wait_ms, begin_approval_wait in *; by rewrite lookup_insert_ne).
  assert (Hmark : approval_wait_started_ms (begin_approval_wait now (variables r)) = Some now).
  { unfold approval_wait_started_ms, begin_approval_wait. rewrite lookup_insert_eq. simpl.
    rewrite decide_False by lia. simpl. by rewrite decide_True by mlia. }
  rewrite Hr, Hm, Hw, Hwait, Hmark, !andb_true_iff, !bool_decide_eq_true. unfold elapsed_since. split; mlia.
Qed.
Lemma accounted_start o vars now total :
  max_execution_time o = Some total → (0 < total)%Z → (0 ≤ now ≤ i64_max)%Z →
  vars !! ELAPSED_VAR = None → vars !! APPROVAL_WAIT_VAR = None → vars !! APPROVAL_WAITING_VAR = None →
  accounted total (start_run o vars now) now 0 0.
Proof.
  intros Ho Hpos Hn He Hw Hm. unfold start_run, persist_totals.
  assert (Hel : accumulated_ms (<[BUDGETS_VAR := budget_totals o]> vars) = 0%Z)
    by (unfold accumulated_ms; by rewrite lookup_insert_ne, He).
  split; cbn [variables segment_start options]; rewrite ?Hel; [lia|lia|lia| | | |].
  - unfold approval_wait_ms. by rewrite lookup_insert_ne, Hw.
  - unfold approval_wait_started_ms. by rewrite lookup_insert_ne, Hm.
  - split; [rewrite Ho; f_equal; lia|done].
  - exists o. by rewrite lookup_insert_eq.
Qed.

(** Through any sequence of work, approval waits and stays in storage the
    wall-clock guard measures exactly the active time of the whole run: it fires when the work done
    reaches the total, never during an approval wait for the wait's sake; and a resume is refused
    exactly when the time outside storage, approval waits included, has reached the total. *)
Theorem budget_carried_over (id : string) (o : WorkflowExecutionOptions) (vars : VariableStore) (t0 total : Z) (l : list activity)
    (r : Run) (now d : Z) :
  max_execution_time o = Some total → (0 < total)%Z → (0 ≤ t0)%Z →
  vars !! ELAPSED_VAR = None → vars !! APPROVAL_WAIT_VAR = None → vars !! APPROVAL_WAITING_VAR = None →
  Forall (λ a, 0 ≤ duration a)%Z l → (0 ≤ d)%Z → (t0 + total_duration l + d ≤ i64_max)%Z →
  run_activities id (start_run o vars t0, t0) l = Ok (r, now) →
  (budget_exhausted r (now + d) = true ↔ (total ≤ active_time l + d)%Z) ∧
  (budget_exhausted {| variables := begin_approval_wait now (variables r); segment_start := segment_start r; options := options r |}
     (now + d) = true ↔ (total ≤ active_time l)%Z) ∧
  ((∃ r', resume_run id now (now + d) r = Ok r') ↔ (wall_time l < total)%Z).
Proof.
  intros Ho Hpos Ht He Hw Hm Hl Hd Hn Hrun.
  assert (Hdur : (0 ≤ total_duration l)%Z).
  { clear -Hl. induction l as [|b l IH]; [done|]. apply Forall_cons in Hl as [Hb Hl]. simpl. specialize (IH Hl). lia. }
  destruct (run_accounted id total l (start_run o vars t0) t0 0 0 r now) as [Hacc ->];
    [apply accounted_start; [done|done|lia|done..]|done|done|lia|done|].
  rewrite !Z.add_0_l in Hacc. split; [|split]; [apply accounted_guard with (wall_time l); done..|].
  pose proof (accounted_parked id total r _ _ _ d Hacc Hpos Hd Hn) as Hp. case_decide.
  - rewrite Hp. split; [by intros [??]|lia].
  - destruct Hp as (r' & -> & _). split; [lia|by eexists].
Qed.
End continuation.

(** * Witness and examples *)

Definition limited (total : Z) : WorkflowExecutionOptions := with_execution_time (Some total) unbudgeted.
Definition no_options : value → option WorkflowExecutionOptions := λ _, None.
Definition sample_activities : list activity := [Work 300; Approval 200; Parked 5000; Work 100].
Definition sample_run : Run :=
  match run_activities no_options "e" (start_run (limited 1000) ∅ 0, 0%Z) sample_activities with
  | Ok st => st.1 | Err _ => start_run (limited 1000) ∅ 0
  end.
Lemma budget_carried_over_witness :
  run_activities no_options "e" (start_run (limited 1000) ∅ 0, 0%Z) sample_activities = Ok (sample_run, 5600%Z) ∧
  (∀ d, (0 ≤ d ≤ 1000)%Z → budget_exhausted sample_run (5600 + d) = true ↔ (1000 ≤ 400 + d)%Z).
Proof.
  assert (Hrun : run_activities no_options "e" (start_run (limited 1000) ∅ 0, 0%Z) sample_activities = Ok (sample_run, 5600%Z))
    by (vm_compute; reflexivity).
  split; [exact Hrun|]. intros d Hd.
  refine (proj1 (budget_carried_over no_options "e" (limited 1000) ∅ 0 1000 sample_activities sample_run 5600 d
    eq_refl _ _ eq_refl eq_refl eq_refl _ _ _ Hrun)); try lia.
  - repeat constructor; simpl; lia.
  - simpl. unfold i64_max. lia.
Defined.

(** A run that only waited for an approval is refused at its resume, although
    approval waits are said never to consume the budget. *)
Example approval_wait_refuses_resume :
  run_activities no_options "e" (start_run (limited 1000) ∅ 0, 0%Z) [Approval 1000; Parked 1] = Err (budget_spent "e" 1000) ∧
  active_time [Approval 1000; Parked 1] = 0%Z.
Proof. vm_compute. done. Qed.
(** The guard of a node subtracts all earlier waits of the run from the time of
    that node: after 200 ms of approvals a node with 50 ms may run for 249. *)
Example node_timeout_inflated :
  let vars := end_approval_wait 200 (begin_approval_wait 0 ∅) in
  active_elapsed_ms vars 1000 1249 = 49%Z.
Proof. reflexivity. Qed.
(** A checkpoint taken during an approval wait keeps the marker; the resumed run
    is never charged for its time until another approval ends. *)
Example stale_marker_stops_clock (vars : VariableStore) (t0 start now : Z) :
  approval_wait_started_ms vars = Some t0 → (t0 ≤ start ≤ now)%Z → (0 ≤ approval_wait_ms vars)%Z → active_elapsed_ms vars start now = 0%Z.
Proof. intros Hm Ht Hw. unfold active_elapsed_ms. rewrite Hm. unfold elapsed_since. mlia. Qed.
