(* ===== verification/Coordinator.v ===== *)
(** The execution loop: wf-workflow/src/coordinator/workflow.rs and its parts
    navigation.rs, routing.rs, error_branch_flow.rs, node_exec.rs,
    persistence.rs (the interruption check) and variable_injection.rs.

    The coordinator walks the graph node by node.  What happens outside it (the
    clock, other tasks pausing or stopping the execution, injections and
    signals arriving) enters an iteration as its [Input]; the node itself (its
    handler with hooks, timeout and panic isolation) is a parameter that may
    change the variables and the interruption state.  Events, metrics,
    checkpoints, persistence and the fork registry observe the coordinator and
    do not change the state below; they are left out.

    [ctx.variables] is a shared map.  On the main path it is the entity's map;
    inside an error branch it is an overlay, and the entity's map waits in the
    scope.  The model keeps the one shared map in [main_variables] and the
    overlay in the scope, so both views of the shared map stay one object. *)

From S2P Require Import Prelude Strings Json GraphTypes ErrorBranch Graph LoopState Entity.

(** [InternalSignal]; the result signals are left to the agent loop. *)
Inductive InternalSignal : Type :=
| StopWorkflow (target_execution_id : string)
| PauseWorkflow (target_execution_id : string)
| ResumeWorkflow (target_execution_id : string)
| SkipNode (target_execution_id id : string)
| ResultSignal (target_execution_id : string).
Definition target_execution_id (s : InternalSignal) : string :=
  match s with
  | StopWorkflow t | PauseWorkflow t | ResumeWorkflow t | SkipNode t _ | ResultSignal t => t
  end.

(** [NodeInputShape] *)
Inductive NodeInputShape : Type := ShapeNone | Single | Merged.

(** [ErrorFailureAction] *)
Inductive ErrorFailureAction : Type :=
| Continue
| Suspended (e : WorkflowError)
| InterruptRun.

(** [ErrorBranchScope], with the overlay that [ctx.variables] is while the scope
    is set. *)
Record ErrorBranchScope : Type := {
  scope_summary : ErrorBranchSummary;
  scope_snapshot : Store;
  scope_overlay : Store;
}.

(** [WorkflowExecutionOptions], what the loop reads of it. *)
Record WorkflowExecutionOptions : Type := {
  opt_input : option value;
  opt_max_steps : option Z;
  opt_max_execution_time : option Z;
  opt_max_navigation_multiplier : option Z;
  opt_loop_max_iterations_cap : option Z;
}.

(** [WorkflowCoordinator] *)
Record WorkflowCoordinator : Type := {
  options : WorkflowExecutionOptions;
  entity : WorkflowExecutionEntity;
  traversal : GraphTraversal;
  current_node_id : option string;
  completed_nodes : list string;
  node_outputs : gmap string value;
  navigation_count : Z;
  loop_navigation_count : Z;
  in_loop_body : bool;
  total_node_count : Z;
  max_navigation_multiplier : Z;
  main_variables : Store;
  inbox : list InternalSignal;
  skipped_nodes : gset string;
  error_scope : option ErrorBranchScope;
}.

(** What an iteration meets: the changes other tasks made to the interruption
    and to the injection buffer before it, the signals that arrived, the active
    time of the execution and the clock; and the same again for the check that
    follows a failure. *)
Record Input : Type := {
  ext_interruption : InterruptionState → InterruptionState;
  ext_injections : gmap string PendingVariableInjection → gmap string PendingVariableInjection;
  ext_signals : list InternalSignal;
  active_ms : Z;
  now : Z;
  late_interruption : InterruptionState → InterruptionState;
  late_active_ms : Z;
  node_end : Z;
}.
Definition quiet : Input :=
  {| ext_interruption := id; ext_injections := id; ext_signals := []; active_ms := 0; now := 0;
     late_interruption := id; late_active_ms := 0; node_end := 0 |}.

(** * Field updates *)

Definition set_entity (x : WorkflowExecutionEntity) (c : WorkflowCoordinator) : WorkflowCoordinator :=
  {| options := options c; entity := x; traversal := traversal c;
     current_node_id := current_node_id c; completed_nodes := completed_nodes c;
     node_outputs := node_outputs c; navigation_count := navigation_count c;
     loop_navigation_count := loop_navigation_count c; in_loop_body := in_loop_body c;
     total_node_count := total_node_count c;
     max_navigation_multiplier := max_navigation_multiplier c; main_variables := main_variables c;
     inbox := inbox c; skipped_nodes := skipped_nodes c; error_scope := error_scope c |}.
Definition set_current (x : option string) (c : WorkflowCoordinator) : WorkflowCoordinator :=
  {| options := options c; entity := entity c; traversal := traversal c; current_node_id := x;
     completed_nodes := completed_nodes c; node_outputs := node_outputs c;
     navigation_count := navigation_count c; loop_navigation_count := loop_navigation_count c;
     in_loop_body := in_loop_body c; total_node_count := total_node_count c;
     max_navigation_multiplier := max_navigation_multiplier c; main_variables := main_variables c;
     inbox := inbox c; skipped_nodes := skipped_nodes c; error_scope := error_scope c |}.
Definition set_completed (x : list string) (c : WorkflowCoordinator) : WorkflowCoordinator :=
  {| options := options c; entity := entity c; traversal := traversal c;
     current_node_id := current_node_id c; completed_nodes := x; node_outputs := node_outputs c;
     navigation_count := navigation_count c; loop_navigation_count := loop_navigation_count c;
     in_loop_body := in_loop_body c; total_node_count := total_node_count c;
     max_navigation_multiplier := max_navigation_multiplier c; main_variables := main_variables c;
     inbox := inbox c; skipped_nodes := skipped_nodes c; error_scope := error_scope c |}.
Definition set_outputs (x : gmap string value) (c : WorkflowCoordinator) : WorkflowCoordinator :=
  {| options := options c; entity := entity c; traversal := traversal c;
     current_node_id := current_node_id c; completed_nodes := completed_nodes c; node_outputs := x;
     navigation_count := navigation_count c; loop_navigation_count := loop_navigation_count c;
     in_loop_body := in_loop_body c; total_node_count := total_node_count c;
     max_navigation_multiplier := max_navigation_multiplier c; main_variables := main_variables c;
     inbox := inbox c; skipped_nodes := skipped_nodes c; error_scope := error_scope c |}.
Definition set_main (x : Store) (c : WorkflowCoordinator) : WorkflowCoordinator :=
  {| options := options c; entity := entity c; traversal := traversal c;
     current_node_id := current_node_id c; completed_nodes := completed_nodes c;
     node_outputs := node_outputs c; navigation_count := navigation_count c;
     loop_navigation_count := loop_navigation_count c; in_loop_body := in_loop_body c;
     total_node_count := total_node_count c;
     max_navigation_multiplier := max_navigation_multiplier c; main_variables := x;
     inbox := inbox c; skipped_nodes := skipped_nodes c; error_scope := error_scope c |}.
Definition set_inbox (x : list InternalSignal) (c : WorkflowCoordinator) : WorkflowCoordinator :=
  {| options := options c; entity := entity c; traversal := traversal c;
     current_node_id := current_node_id c; completed_nodes := completed_nodes c;
     node_outputs := node_outputs c; navigation_count := navigation_count c;
     loop_navigation_count := loop_navigation_count c; in_loop_body := in_loop_body c;
     total_node_count := total_node_count c;
     max_navigation_multiplier := max_navigation_multiplier c; main_variables := main_variables c;
     inbox := x; skipped_nodes := skipped_nodes c; error_scope := error_scope c |}.
Definition set_skipped (x : gset string) (c : WorkflowCoordinator) : WorkflowCoordinator :=
  {| options := options c; entity := entity c; traversal := traversal c;
     current_node_id := current_node_id c; completed_nodes := completed_nodes c;
     node_outputs := node_outputs c; navigation_count := navigation_count c;
     loop_navigation_count := loop_navigation_count c; in_loop_body := in_loop_body c;
     total_node_count := total_node_count c;
     max_navigation_multiplier := max_navigation_multiplier c; main_variables := main_variables c;
     inbox := inbox c; skipped_nodes := x; error_scope := error_scope c |}.
Definition set_scope (x : option ErrorBranchScope) (c : WorkflowCoordinator) : WorkflowCoordinator :=
  {| options := options c; entity := entity c; traversal := traversal c;
     current_node_id := current_node_id c; completed_nodes := completed_nodes c;
     node_outputs := node_outputs c; navigation_count := navigation_count c;
     loop_navigation_count := loop_navigation_count c; in_loop_body := in_loop_body c;
     total_node_count := total_node_count c;
     max_navigation_multiplier := max_navigation_multiplier c; main_variables := main_variables c;
     inbox := inbox c; skipped_nodes := skipped_nodes c; error_scope := x |}.
Definition set_navigation (n l : Z) (b : bool) (c : WorkflowCoordinator) : WorkflowCoordinator :=
  {| options := options c; entity := entity c; traversal := traversal c;
     current_node_id := current_node_id c; completed_nodes := completed_nodes c;
     node_outputs := node_outputs c; navigation_count := n; loop_navigation_count := l;
     in_loop_body := b; total_node_count := total_node_count c;
     max_navigation_multiplier := max_navigation_multiplier c; main_variables := main_variables c;
     inbox := inbox c; skipped_nodes := skipped_nodes c; error_scope := error_scope c |}.

(** * Access to the parts *)

Notation Coord := (SE WorkflowCoordinator WorkflowError).

(** [ctx.variables] *)
Definition variables (c : WorkflowCoordinator) : Store :=
  match error_scope c with Some s => scope_overlay s | None => main_variables c end.
Definition set_variables (st : Store) (c : WorkflowCoordinator) : WorkflowCoordinator :=
  match error_scope c with
  | Some s => set_scope (Some {| scope_summary := scope_summary s; scope_snapshot := scope_snapshot s;
                                 scope_overlay := st |}) c
  | None => set_main st c
  end.

Definition with_state (f : WorkflowExecutionState → WorkflowExecutionState) (e : WorkflowExecutionEntity) :
    WorkflowExecutionEntity :=
  {| entity_id := entity_id e; state := f (state e); interruption := interruption e;
     node_results := node_results e; pending_injections := pending_injections e |}.
Definition with_interruption (i : InterruptionState) (e : WorkflowExecutionEntity) :
    WorkflowExecutionEntity :=
  {| entity_id := entity_id e; state := state e; interruption := i;
     node_results := node_results e; pending_injections := pending_injections e |}.
Definition with_pending (p : gmap string PendingVariableInjection) (e : WorkflowExecutionEntity) :
    WorkflowExecutionEntity :=
  {| entity_id := entity_id e; state := state e; interruption := interruption e;
     node_results := node_results e; pending_injections := p |}.
Definition set_node_result (x : string) (v : value) (e : WorkflowExecutionEntity) :
    WorkflowExecutionEntity :=
  {| entity_id := entity_id e; state := state e; interruption := interruption e;
     node_results := <[x := v]> (node_results e); pending_injections := pending_injections e |}.

(** An operation on the execution state, and one on the interruption whose
    error is dropped ([let _ = ..]). *)
Definition on_state (f : WorkflowExecutionState → WorkflowExecutionState) : Coord () :=
  modify (λ c, set_entity (with_state f (entity c)) c).
Definition run_state (m : SE WorkflowExecutionState WorkflowError ()) : Coord () := λ c,
  let r := m (state (entity c)) in
  (set_entity (with_state (λ _, r.1) (entity c)) c, r.2).
Definition interrupt (m : SE InterruptionState string ()) (c : WorkflowCoordinator) :
    WorkflowCoordinator :=
  set_entity (with_interruption (m (interruption (entity c))).1 (entity c)) c.
Definition set_current_node (x : option string) : Coord () := modify (set_current x).

(** * Navigation *)

Definition is_loop_control (c : WorkflowCoordinator) (x : string) : bool :=
  match get_node (traversal c) x with
  | Some n => bool_decide (node_type n = "LOOP_START" ∨ node_type n = "LOOP_END")
  | None => false
  end.

(** [check_navigation_backstop] *)
Definition max_navigations (c : WorkflowCoordinator) : Z :=
  wrap32 (total_node_count c * max_navigation_multiplier c).
Definition enter_node (x : string) (c : WorkflowCoordinator) : WorkflowCoordinator :=
  match node_type <$> get_node (traversal c) x with
  | Some "LOOP_START" => set_navigation (navigation_count c) 0 true c
  | Some "LOOP_END" => set_navigation (navigation_count c) 0 false c
  | _ => c
  end.
Definition check_navigation_backstop (x : string) : Coord () :=
  _ ← modify (enter_node x);
  c ← get_state;
  if in_loop_body c then
    let n := wrap32 (loop_navigation_count c + 1) in
    _ ← modify (set_navigation (navigation_count c) n true);
    if decide (max_navigations c < n ∧ 0 < max_navigations c)%Z
    then throw (CoordinatorError "Loop body exceeded navigation limit") else mret tt
  else
    let n := wrap32 (navigation_count c + 1) in
    _ ← modify (set_navigation n (loop_navigation_count c) false);
    if decide (max_navigations c < n ∧ 0 < max_navigations c)%Z
    then throw (CoordinatorError "Infinite loop detected") else mret tt.

(** * What surrounds the loop

    Conditions, node handlers and texts reach the coordinator through
    interfaces. *)
Class Environment : Type := {
  (** [ConditionEvaluator::evaluate]; an error is not told apart. *)
  evaluate_condition : string → Store → option bool;
  (** [execute_node_once]: the node's handler, a trait object, with its hooks,
      timeout and panic isolation. *)
  execute_node_once : NodeExecutionContext → NodeInputShape → string → Store →
    InterruptionState → Store * InterruptionState * result WorkflowError NodeExecutionResult;
  (** [timeout::node_checkpoint_config]: only its failure matters here. *)
  node_checkpoint_config : string → value → result WorkflowError ();
  (** The analysis of shared errors, error texts, and the caps on audit payloads. *)
  shared_error_type : SharedError → ErrorType;
  error_text : WorkflowError → string;
  cap_node_payload : value → value;
  cap_metadata : gmap string value → value;
}.

Section coordinator.
  Context `{Env : Environment}.

(** The edge loop of [determine_next_node]: an edge without a condition is
    taken, one with a condition when it evaluates to true; a condition that
    fails to evaluate is skipped. *)
Definition edge_open (st : Store) (e : WorkflowEdge) : bool :=
  match condition e with
  | Some cond => default false (evaluate_condition cond st)
  | None => true
  end.
Definition pick_edge (st : Store) (es : list WorkflowEdge) : option string :=
  (λ r, target_node_id r.2) <$> list_find (λ e, edge_open st e = true) es.

(** [determine_next_node_without_output] *)
Definition determine_next_node_without_output (c : WorkflowCoordinator) : option string :=
  current ← current_node_id c;
  match get_outgoing_edges (traversal c) current with
  | [] => None
  | [e] => Some (target_node_id e)
  | es => pick_edge (variables c) es
  end.

(** [determine_next_node] *)
Definition determine_next_node (r : NodeExecutionResult) (c : WorkflowCoordinator) : option string :=
  match next_node_ids r with
  | x :: _ => Some x
  | [] =>
      current ← current_node_id c;
      match get_outgoing_edges (traversal c) current with
      | [] => None
      | es =>
          if is_end_node (traversal c) current then None
          else match es with [e] => Some (target_node_id e) | _ => pick_edge (variables c) es end
      end
  end.

(** [skip_completed_node] *)
Definition active_loop (st : Store) : result WorkflowError (option LoopState) :=
  match (current_loop st).2 with
  | Ok (Some s) => Ok (if decide (loop_id s = "") then None else Some s)
  | Ok None => Ok None
  | Err e => Err (LoopError e)
  end.
Definition reexec_in_loop (c : WorkflowCoordinator) (top : option LoopState) (x : string) : bool :=
  match top with
  | Some s => is_loop_control c x || bool_decide (x ∉ iteration_nodes s)
  | None => false
  end.
Definition skip_completed_node (x : string) : Coord bool :=
  c ← get_state;
  top ← lift (active_loop (variables c));
  if decide (x ∈ completed_nodes c ∧ reexec_in_loop c top x = false) then
    _ ← set_current_node (determine_next_node_without_output c);
    mret true
  else mret false.

(** * Inputs and outputs *)

(** [compute_node_input] *)
Definition compute_node_input (c : WorkflowCoordinator) (x : string) : value * NodeInputShape :=
  match get_incoming_edges (traversal c) x with
  | [] => (default VNull (opt_input (options c)), ShapeNone)
  | es =>
      let inputs : gmap string value :=
        foldl (λ m e, match node_outputs c !! source_node_id e with
                      | Some output => <[default (source_node_id e) (label e) := output]> m
                      | None => m
                      end) ∅ es in
      if decide (size inputs = 1) then (default VNull (snd <$> head (map_to_list inputs)), Single)
      else (object_of inputs, Merged)
  end.

(** [build_node_context] *)
Definition build_node_context (c : WorkflowCoordinator) (x : string) :
    NodeExecutionContext * NodeInputShape :=
  let input := compute_node_input c x in
  ({| ctx_node_id := x; node_config := inner <$> get_node (traversal c) x; ctx_input := input.1;
      graph_structure := Some (graph (traversal c)) |}, input.2).

(** [compute_final_output] *)
Definition compute_final_output (c : WorkflowCoordinator) : value :=
  let outputs : gmap string value :=
    foldl (λ m x, match node_outputs c !! x with Some o => <[x := o]> m | None => m end)
      ∅ (end_node_ids (graph (traversal c))) in
  if decide (size outputs = 1) then default VNull (snd <$> head (map_to_list outputs))
  else if decide (size outputs = 0) then VNull else object_of outputs.

(** * Error branches *)

Definition insert_all (kvs : list (string * value)) (st : Store) : Store :=
  foldl (λ st kv, <[kv.1 := kv.2]> st) st kvs.

(** [enter_error_branch] *)
Definition enter_error_branch (summary : ErrorBranchSummary) (c : WorkflowCoordinator) :
    WorkflowCoordinator :=
  match error_scope c with
  | Some s =>
      set_scope (Some {| scope_summary := summary; scope_snapshot := scope_snapshot s;
                         scope_overlay := insert_all (summary_variables summary) (scope_overlay s) |}) c
  | None =>
      set_scope (Some {| scope_summary := summary; scope_snapshot := main_variables c;
                         scope_overlay := insert_all (summary_variables summary) (main_variables c) |}) c
  end.

(** [merge_error_scope] *)
Definition merge_error_scope (c : WorkflowCoordinator) : WorkflowCoordinator :=
  match error_scope c with
  | None => c
  | Some s =>
      let merged := filter (λ kv : string * value, is_machinery_key kv.1 = false ∧
                              scope_snapshot s !! kv.1 ≠ Some kv.2) (scope_overlay s) in
      set_scope None (set_main (merged ∪ main_variables c) c)
  end.

(** [discard_error_scope] *)
Definition discard_error_scope (c : WorkflowCoordinator) : WorkflowCoordinator :=
  match error_scope c with None => c | Some _ => set_scope None c end.

(** [restore_suspended_error_branch] *)
Definition restore_suspended_error_branch (c : WorkflowCoordinator) : WorkflowCoordinator :=
  match error_scope c, error_suspend (state (entity c)) with
  | None, Some s =>
      enter_error_branch (suspend_summary s)
        (set_entity (with_state (set_error_suspend None) (entity c)) c)
  | _, _ => c
  end.

(** * Interruption *)

Definition interruption_entry (kind : string) (recovered : bool) (t : Z) : value :=
  VObject [("recovered", VBool recovered); ("timestamp", VNumber (PosInt t)); ("type", VString kind)].
Definition timeout_entry (limit t : Z) : value :=
  VObject [("max_execution_time", VNumber (PosInt limit)); ("reason", VString "max_execution_time");
           ("recovered", VBool false); ("timestamp", VNumber (PosInt t)); ("type", VString "timeout")].

(** [check_interruption_and_timeout] *)
Definition check_timeout (active t : Z) : Coord () :=
  c ← get_state;
  match opt_max_execution_time (options c) with
  | Some limit =>
      if decide (0 < limit ∧ limit <= active)%Z then
        _ ← on_state increment_timeout_count;
        _ ← on_state (record_interruption (timeout_entry limit t));
        _ ← run_state (state_timeout "Workflow execution exceeded max_execution_time" t);
        throw (ExecutionTimeout "Workflow execution exceeded max_execution_time")
      else mret tt
  | None => mret tt
  end.
Definition check_interruption_and_timeout (active t : Z) (x : string) : Coord () :=
  c ← get_state;
  match check (interruption (entity c)) with
  | Some Stop =>
      _ ← on_state (record_interruption (interruption_entry "stop" false t));
      throw (NodeFailure x CancelledInterrupted "Execution stopped by interruption" Handler)
  | Some Pause =>
      _ ← on_state (record_interruption (interruption_entry "pause" true t));
      throw (ExecutionPaused "Execution paused")
  | _ => check_timeout active t
  end.

(** [apply_pending_variable_injections] with [apply_drained_injections] *)
Definition apply_drained_injections (drained : list PendingVariableInjection) (st : Store) : Store :=
  let winning : gmap string PendingVariableInjection :=
    foldl (λ m i, <[inj_name i := i]> m) ∅ drained in
  (inj_value <$> winning) ∪ st.
Definition apply_pending_variable_injections (c : WorkflowCoordinator) : WorkflowCoordinator :=
  if status_is_terminal (status (state (entity c))) then c
  else match error_scope c with
       | Some _ => c
       | None =>
           let r := drain_variable_injections NextBoundary (pending_injections (entity c)) in
           set_main (apply_drained_injections r.1 (main_variables c))
             (set_entity (with_pending r.2 (entity c)) c)
       end.

(** [apply_on_resume_variable_injections]: on the resume path there is no scope
    check, so an overlay receives the values as well. *)
Definition apply_on_resume_variable_injections (c : WorkflowCoordinator) : WorkflowCoordinator :=
  if status_is_terminal (status (state (entity c))) then c
  else
    let r := drain_variable_injections OnResume (pending_injections (entity c)) in
    set_variables (apply_drained_injections r.1 (variables c))
      (set_main (apply_drained_injections r.1 (main_variables c))
        (set_entity (with_pending r.2 (entity c)) c)).

(** [process_trigger_effects]: a stop leaves the rest of the inbox for later. *)
Fixpoint process_signals (id : string) (signals : list InternalSignal) (c : WorkflowCoordinator) :
    WorkflowCoordinator :=
  match signals with
  | [] => set_inbox [] c
  | s :: rest =>
      if decide (target_execution_id s ≠ id) then process_signals id rest c
      else match s with
           | StopWorkflow _ => set_inbox rest (interrupt stop c)
           | PauseWorkflow _ => process_signals id rest (interrupt pause c)
           | ResumeWorkflow _ => process_signals id rest (interrupt resume c)
           | SkipNode _ x => process_signals id rest (set_skipped ({[x]} ∪ skipped_nodes c) c)
           | ResultSignal _ => process_signals id rest c
           end
  end.
Definition process_trigger_effects (c : WorkflowCoordinator) : WorkflowCoordinator :=
  process_signals (entity_id (entity c)) (inbox c) c.

(** * Failures *)

(** The resume cursor and the scope of a branch that runs on. *)
Definition continue_on_branch (summary : ErrorBranchSummary) (target : string) : Coord ErrorFailureAction :=
  _ ← modify (enter_error_branch summary);
  _ ← set_current_node (Some target);
  mret Continue.

(** The check at the end of [suspend_error_branch]: when the pause was cleared
    meanwhile, the run continues on the branch. *)
Definition suspended_or_resumed (i : Input) (summary : ErrorBranchSummary) (target : string) :
    Coord ErrorFailureAction := λ c,
  match check_interruption_and_timeout (late_active_ms i) (node_end i) target c with
  | (c', Err paused) => (c', Ok (Suspended paused))
  | (c', Ok _) => (_ ← on_state (set_error_suspend None); continue_on_branch summary target) c'
  end.

(** [suspend_error_branch]; [late_interruption] is what other tasks did between
    the pause and the check. *)
Definition suspend_error_branch (i : Input) (summary : ErrorBranchSummary) (target : string) :
    Coord ErrorFailureAction :=
  _ ← on_state (set_error_suspend (Some {| suspend_summary := summary; suspend_target := target;
                                           suspended_at := node_end i |}));
  _ ← on_state (set_state_node (Some target));
  _ ← modify (interrupt pause);
  _ ← modify (interrupt (modify (late_interruption i)));
  suspended_or_resumed i summary target.

(** [route_node_failure] *)
Definition attempts_of (c : WorkflowCoordinator) (x : string) : Z :=
  Z.max 1 (Z.of_nat (length (filter (λ r, error_node_id r = Some x) (error_records (state (entity c)))))).
Definition route_node_failure (i : Input) (failed : string) (e : WorkflowError) :
    Coord ErrorFailureAction :=
  c ← get_state;
  let category := classify_error shared_error_type e in
  if decide (check (interruption (entity c)) = Some Stop) then mret InterruptRun
  else match resolve (error_table (traversal c)) failed category with
       | None => mret InterruptRun
       | Some target =>
           match get_node (traversal c) (jump_target target) with
           | None => throw (ConfigError failed "error_route" "error route target does not exist in the graph")
           | Some _ =>
               let summary := new_summary (error_text e) category failed (attempts_of c failed)
                                (failure_source_of e) in
               if jump_suspend target then suspend_error_branch i summary (jump_target target)
               else
                 _ ← (if decide (check (interruption (entity c)) = Some Pause)
                      then modify (interrupt resume) else mret tt);
                 continue_on_branch summary (jump_target target)
           end
       end.

(** * One node *)

(** [record_loop_iteration_completion] *)
Definition record_loop_iteration_completion (x : string) : Coord () := λ c,
  if is_loop_control c x then (c, Ok tt)
  else match record_iteration_completion x (variables c) with
       | (st, Ok _) => (set_variables st c, Ok tt)
       | (st, Err e) => (set_variables st c, Err (LoopError e))
       end.

(** [record_node_execution] *)
Definition execution_record (c : WorkflowCoordinator) (i : Input) (x : string) (success : bool)
    (error : option string) (input : value) (res : option value) (meta : option value) :
    NodeExecutionRecord :=
  {| rec_node_id := x; rec_node_name := default x (get_node (traversal c) x ≫= node_name);
     rec_node_type := default "" (node_type <$> get_node (traversal c) x);
     rec_start_time := now i; rec_end_time := Some (node_end i); rec_success := success;
     rec_error := error; rec_input := Some (cap_node_payload input);
     rec_result := cap_node_payload <$> res; rec_branch_id := None; rec_metadata := meta |}.

(** [record_node_success] *)
Definition at_merge_point (c : WorkflowCoordinator) (x : string) : bool :=
  match get_node (traversal c) x with Some n => is_merge_point (inner n) | None => false end.
Definition record_node_success (i : Input) (x : string) (input : value) (r : NodeExecutionResult) :
    Coord () :=
  _ ← modify (λ c, set_outputs (<[x := output r]> (node_outputs c)) c);
  _ ← modify (λ c, set_completed (completed_nodes c ++ [x]) c);
  _ ← record_loop_iteration_completion x;
  _ ← modify (λ c, set_entity (set_node_result x (output r) (entity c)) c);
  _ ← on_state (mark_node_completed x);
  c ← get_state;
  _ ← on_state (add_execution (execution_record c i x true None input (Some (output r))
                  (if decide (metadata r = ∅) then None else Some (cap_metadata (metadata r)))));
  modify (λ c, if at_merge_point c x then merge_error_scope c else c).

(** [record_node_failure] *)
Definition record_node_failure (i : Input) (x : string) (input : value) (e : WorkflowError) : Coord () :=
  c ← get_state;
  _ ← on_state (add_error_record {| error_node_id := Some x; error_cause := e |});
  on_state (add_execution (execution_record c i x false (Some (error_text e)) input None None)).

(** [execute_node_once] on the coordinator's variables and interruption. *)
Definition execute_node (x : string) (n : WorkflowNode) :
    Coord (value * result WorkflowError NodeExecutionResult) := λ c,
  let ctx := build_node_context c x in
  let r := execute_node_once ctx.1 ctx.2 (node_type n) (variables c) (interruption (entity c)) in
  (set_variables r.1.1 (set_entity (with_interruption r.1.2 (entity c)) c), Ok (ctx_input ctx.1, r.2)).

(** The error arm of the loop: a failure that is not routed ends the run, as
    paused when the handler paused it. *)
Definition handle_failure (i : Input) (x : string) (e : WorkflowError) : Coord () :=
  action ← route_node_failure i x e;
  match action with
  | Continue => mret tt
  | Suspended suspend_err => throw suspend_err
  | InterruptRun =>
      c ← get_state;
      _ ← (if decide (check (interruption (entity c)) = Some Pause) then
             _ ← modify (interrupt (modify (late_interruption i)));
             check_interruption_and_timeout (late_active_ms i) (node_end i) x
           else mret tt);
      throw e
  end.

(** The dispatch of one node, to the end of the loop body. *)
Definition dispatch (i : Input) (x : string) : Coord () :=
  _ ← on_state (set_state_node (Some x));
  c ← get_state;
  n ← lift (ok_or (GraphErrorAt "Node not found in graph") (get_node (traversal c) x));
  _ ← lift (node_checkpoint_config x (inner n));
  r ← execute_node x n;
  _ ← match r.2 with
      | Ok out =>
          _ ← record_node_success i x r.1 out;
          modify (λ c, set_current (determine_next_node out c) c)
      | Err e =>
          _ ← record_node_failure i x r.1 e;
          handle_failure i x e
      end;
  _ ← modify (λ c, set_inbox (inbox c ++ ext_signals i) c);
  modify process_trigger_effects.

(** * The loop *)

(** What other tasks did before the iteration. *)
Definition arrive (i : Input) (c : WorkflowCoordinator) : WorkflowCoordinator :=
  let e := entity c in
  set_entity (with_pending (ext_injections i (pending_injections e))
                (with_interruption (ext_interruption i (interruption e)) e)) c.

(** The body of the loop of [execute_inner]; [false] breaks out of it. *)
Definition steps_used_up (c : WorkflowCoordinator) : bool :=
  match opt_max_steps (options c) with
  | Some max => bool_decide (max <= wrap32 (Z.of_nat (length (completed_nodes c))))%Z
  | None => false
  end.
Definition iteration (i : Input) (x : string) : Coord bool :=
  _ ← modify (arrive i);
  _ ← check_interruption_and_timeout (active_ms i) (now i) x;
  _ ← modify apply_pending_variable_injections;
  c ← get_state;
  if steps_used_up c then mret false
  else
    _ ← check_navigation_backstop x;
    skipped ← skip_completed_node x;
    if skipped : bool then mret true
    else
      c ← get_state;
      if decide (x ∈ skipped_nodes c) then
        _ ← modify (set_skipped (skipped_nodes c ∖ {[x]}));
        _ ← modify (λ c, set_current (determine_next_node_without_output c) c);
        mret true
      else
        _ ← dispatch i x;
        mret true.

(** The loop over the inputs it meets; [None]: the inputs ran out first. *)
Fixpoint main_loop (inputs : list Input) (c : WorkflowCoordinator) :
    option (WorkflowCoordinator * result WorkflowError ()) :=
  match current_node_id c with
  | None => Some (c, Ok tt)
  | Some x =>
      match inputs with
      | [] => None
      | i :: rest =>
          match iteration i x c with
          | (c', Ok true) => main_loop rest c'
          | (c', Ok false) => Some (c', Ok tt)
          | (c', Err e) => Some (c', Err e)
          end
      end
  end.

(** [execute_inner] from the start of the entity to its completion; [t0] and
    [t1] are the clock at both ends. *)
Definition execute_inner (t0 t1 : Z) (inputs : list Input) (c : WorkflowCoordinator) :
    option (WorkflowCoordinator * result WorkflowError value) :=
  match run_state (state_start t0) c with
  | (c', Err e) => Some (c', Err e)
  | (c', Ok _) =>
      r ← main_loop inputs c';
      match r with
      | (c'', Err e) => Some (c'', Err e)
      | (c'', Ok _) =>
          let final := compute_final_output c'' in
          match run_state (state_complete t1) (discard_error_scope c'') with
          | (d, Err e) => Some (d, Err e)
          | (d, Ok _) => Some (d, Ok final)
          end
      end
  end.

(** [new_preprocessed] and [with_entity], over the variable map [vars] that the
    entity and the context share. *)
Definition new_coordinator (opts : WorkflowExecutionOptions) (g : WorkflowGraphStructure)
    (e : WorkflowExecutionEntity) (vars : Store) : result WorkflowError WorkflowCoordinator :=
  match Graph.new g with
  | Err _ => Err (GraphErrorAt "invalid graph")
  | Ok t =>
      match start_node_id (graph t) with
      | None => Err (GraphErrorAt "Start node not found")
      | Some start =>
          Ok {| options := opts; entity := e; traversal := t; current_node_id := Some start;
                completed_nodes := state_completed (state e); node_outputs := ∅;
                navigation_count := 0; loop_navigation_count := 0; in_loop_body := false;
                total_node_count := wrap32 (Z.of_nat (length (nodes (graph t))));
                max_navigation_multiplier := default 5%Z (opt_max_navigation_multiplier opts);
                main_variables := match opt_loop_max_iterations_cap opts with
                                  | Some cap => <[LOOP_MAX_ITERATIONS_CAP_KEY := VNumber (PosInt cap)]> vars
                                  | None => vars
                                  end;
                inbox := []; skipped_nodes := ∅; error_scope := None |}
      end
  end.

(** [resume_from] a snapshot's node results, in the order the map lists them,
    and its current node. *)
Definition resume_result (c : WorkflowCoordinator) (kv : string * value) : WorkflowCoordinator :=
  let c' := set_outputs (<[kv.1 := kv.2]> (node_outputs c)) c in
  if decide (kv.1 ∈ completed_nodes c) then c' else set_completed (completed_nodes c ++ [kv.1]) c'.
Definition resume_from (results : list (string * value)) (current : option string)
    (c : WorkflowCoordinator) : WorkflowCoordinator :=
  let c' := foldl resume_result c results in
  match current with
  | Some x => if decide (x ∈ completed_nodes c') then c' else set_current (Some x) c'
  | None => c'
  end.
End coordinator.
