(* ===== verification/AgentLoop.v ===== *)
(** The agent loop: wf-agent/src/entity.rs, coordinator/iteration.rs (blocking
    runs) with iteration/outcome.rs, coordinator/execution.rs,
    coordinator/state_transitor.rs and the run and settlement of
    coordinator/lifecycle/run.rs and settle.rs.

    What the loop does not compute itself (the model's answers, the results of
    tools, compression, the clock) enters an iteration as its [Attempt], and
    what other tasks do to the shared entity (pause, resume, stop, timeouts
    firing, inputs appended) as the [Event]s that fall into it.  Hooks, metrics,
    checkpoints, published events and the streaming sink observe the loop and do
    not change the state below; they are left out. *)

From S2P Require Import Prelude Strings Json Numbers GraphTypes ErrorBranch LoopState Entity ToolErrors AgentErrors AgentState Coordinator.

(** * The entity *)

Inductive AgentAppendMode : Type := Followup | Steering.
Record RuntimeInput : Type := { input_text : string; input_source : string; submitted_at : Z }.

(** A tool call of the model, and a message as far as the loop looks into it. *)
Record ToolCall : Type := { tc_id : string; tc_name : string; tc_arguments : string }.
Inductive Message : Type :=
| UserText (text : string)
| Assistant (text : string) (tool_calls : list ToolCall)
| ToolResult (id : string) (content : string) (scope_violation : bool)
| OtherMessage (m : value).

(** [AgentLoopEntity], without the immutable configuration; the timers are the
    registered handles, the permit is whether one is held. *)
Record AgentLoopEntity : Type := {
  loop_id : string;
  agent_state : AgentLoopState;
  interruption : InterruptionState;
  conversation : list Message;
  cancelled : bool;
  timeout_expired : bool;
  max_pause_duration : option Z;
  pause_timer : bool;
  wall_clock_timer : bool;
  gate_permit : bool;
  append_mode : AgentAppendMode;
  steering_inputs : list RuntimeInput;
  followup_inputs : list RuntimeInput;
}.
Implicit Types e : AgentLoopEntity.
Definition set_agent (x : AgentLoopState) e : AgentLoopEntity :=
  {| loop_id := loop_id e; agent_state := x; interruption := interruption e; conversation := conversation e;
     cancelled := cancelled e; timeout_expired := timeout_expired e; max_pause_duration := max_pause_duration e;
     pause_timer := pause_timer e; wall_clock_timer := wall_clock_timer e; gate_permit := gate_permit e;
     append_mode := append_mode e; steering_inputs := steering_inputs e; followup_inputs := followup_inputs e |}.
Definition set_interruption (x : InterruptionState) (c : bool) e : AgentLoopEntity :=
  {| loop_id := loop_id e; agent_state := agent_state e; interruption := x; conversation := conversation e;
     cancelled := c; timeout_expired := timeout_expired e; max_pause_duration := max_pause_duration e;
     pause_timer := pause_timer e; wall_clock_timer := wall_clock_timer e; gate_permit := gate_permit e;
     append_mode := append_mode e; steering_inputs := steering_inputs e; followup_inputs := followup_inputs e |}.
Definition set_timers (expired pause wall : bool) e : AgentLoopEntity :=
  {| loop_id := loop_id e; agent_state := agent_state e; interruption := interruption e; conversation := conversation e;
     cancelled := cancelled e; timeout_expired := expired; max_pause_duration := max_pause_duration e;
     pause_timer := pause; wall_clock_timer := wall; gate_permit := gate_permit e;
     append_mode := append_mode e; steering_inputs := steering_inputs e; followup_inputs := followup_inputs e |}.
Definition release_gate_permit e : AgentLoopEntity :=
  {| loop_id := loop_id e; agent_state := agent_state e; interruption := interruption e; conversation := conversation e;
     cancelled := cancelled e; timeout_expired := timeout_expired e; max_pause_duration := max_pause_duration e;
     pause_timer := pause_timer e; wall_clock_timer := wall_clock_timer e; gate_permit := false;
     append_mode := append_mode e; steering_inputs := steering_inputs e; followup_inputs := followup_inputs e |}.
Definition set_inputs (mode : AgentAppendMode) (steering followup : list RuntimeInput) e : AgentLoopEntity :=
  {| loop_id := loop_id e; agent_state := agent_state e; interruption := interruption e; conversation := conversation e;
     cancelled := cancelled e; timeout_expired := timeout_expired e; max_pause_duration := max_pause_duration e;
     pause_timer := pause_timer e; wall_clock_timer := wall_clock_timer e; gate_permit := gate_permit e;
     append_mode := mode; steering_inputs := steering; followup_inputs := followup |}.
Definition add_message (m : Message) e : AgentLoopEntity :=
  {| loop_id := loop_id e; agent_state := agent_state e; interruption := interruption e; conversation := conversation e ++ [m];
     cancelled := cancelled e; timeout_expired := timeout_expired e; max_pause_duration := max_pause_duration e;
     pause_timer := pause_timer e; wall_clock_timer := wall_clock_timer e; gate_permit := gate_permit e;
     append_mode := append_mode e; steering_inputs := steering_inputs e; followup_inputs := followup_inputs e |}.
Definition on_agent (f : AgentLoopState → AgentLoopState) e : AgentLoopEntity := set_agent (f (agent_state e)) e.
Definition new_entity (id : string) (now : Z) : AgentLoopEntity :=
  {| loop_id := id; agent_state := new_agent_state now; interruption := new_interruption; conversation := [];
     cancelled := false; timeout_expired := false; max_pause_duration := None; pause_timer := false; wall_clock_timer := false;
     gate_permit := false; append_mode := Followup; steering_inputs := []; followup_inputs := [] |}.

(** An operation of the shared state or of the interruption, on the entity. *)
Definition run_agent {A} (m : SE AgentLoopState AgentError A) : SE AgentLoopEntity AgentError A := λ e,
  let '(s, r) := m (agent_state e) in (set_agent s e, r).
Definition run_interruption (m : SE InterruptionState string ()) : SE AgentLoopEntity AgentError () := λ e,
  let '(i, r) := m (interruption e) in
  (set_interruption i (cancelled e) e, match r with Ok x => Ok x | Err d => Err (ASharedError (StateError d)) end).

(** state_transitor.rs *)
Definition start_agent_loop (now : Z) : SE AgentLoopEntity AgentError () := run_agent (agent_start now).
Definition pause_agent_loop (now : Z) : SE AgentLoopEntity AgentError () := run_agent (agent_pause now).
Definition resume_agent_loop (now : Z) : SE AgentLoopEntity AgentError () := run_agent (agent_resume now).
Definition settle_with (m : SE AgentLoopState AgentError ()) : SE AgentLoopEntity AgentError () :=
  _ ← run_agent m; modify release_gate_permit.
Definition complete_agent_loop (now : Z) := settle_with (agent_complete now).
Definition fail_agent_loop (error : string) (now : Z) := settle_with (agent_fail error now).
Definition cancel_agent_loop (now : Z) := settle_with (agent_cancel now).
Definition cancel_agent_loop_with_error (error : string) (now : Z) := settle_with (agent_cancel_with_error error now).
Definition timeout_agent_loop (now : Z) := settle_with (agent_timeout now).

(** [ExecutionEntity::pause], [resume], [stop] and [abort] *)
Definition start_pause_timeout e : AgentLoopEntity :=
  match max_pause_duration e with
  | Some n => if decide (n = 0)%Z then e else set_timers (timeout_expired e) true (wall_clock_timer e) e
  | None => e
  end.
Definition cancel_pause_timeout e : AgentLoopEntity := set_timers (timeout_expired e) false (wall_clock_timer e) e.
Definition entity_pause (now : Z) : SE AgentLoopEntity AgentError () :=
  _ ← pause_agent_loop now; _ ← run_interruption pause; modify start_pause_timeout.
Definition entity_resume (now : Z) : SE AgentLoopEntity AgentError () :=
  _ ← modify cancel_pause_timeout; _ ← resume_agent_loop now; run_interruption resume.
Definition entity_abort e : AgentLoopEntity := set_interruption (interruption e) true e.
Definition entity_stop (now : Z) : SE AgentLoopEntity AgentError () := λ e,
  if status_is_terminal (status (agent_state e)) then (e, Ok tt)
  else (_ ← cancel_agent_loop now; _ ← run_interruption stop; modify entity_abort) e.

(** A timer that fires stops the execution. *)
Definition fire_timeout e : AgentLoopEntity :=
  (run_interruption stop (set_timers true (pause_timer e) (wall_clock_timer e) e)).1.

Definition append_runtime_input (mode : option AgentAppendMode) (i : RuntimeInput) e : AgentLoopEntity :=
  match default (append_mode e) mode with
  | Steering => set_inputs (append_mode e) (steering_inputs e ++ [i]) (followup_inputs e) e
  | Followup => set_inputs (append_mode e) (steering_inputs e) (followup_inputs e ++ [i]) e
  end.
Definition convert_pending_to_steering e : AgentLoopEntity :=
  set_inputs (append_mode e) (steering_inputs e ++ followup_inputs e) [] e.
Definition drain_steering_inputs e : AgentLoopEntity * list RuntimeInput :=
  (set_inputs (append_mode e) [] (followup_inputs e) e, steering_inputs e).
Definition drain_followup_inputs e : AgentLoopEntity * list RuntimeInput :=
  (set_inputs (append_mode e) (steering_inputs e) [] e, followup_inputs e).

(** What happens to the entity while the loop runs or waits. *)
Inductive Event : Type :=
| EvState (o : AgentOp)
| EvMessage (m : Message)
| EvPause (now : Z)
| EvResume (now : Z)
| EvStop (now : Z)
| EvAbort
| EvWallClock
| EvPauseTimeout
| EvAppend (mode : option AgentAppendMode) (i : RuntimeInput)
| EvSetMode (mode : AgentAppendMode)
| EvConvert.
Definition happens (ev : Event) e : AgentLoopEntity :=
  match ev with
  | EvState o => on_agent (run_op o) e
  | EvMessage m => add_message m e
  | EvPause now => (entity_pause now e).1
  | EvResume now => (entity_resume now e).1
  | EvStop now => (entity_stop now e).1
  | EvAbort => entity_abort e
  | EvWallClock => if wall_clock_timer e then fire_timeout e else e
  | EvPauseTimeout => if pause_timer e then fire_timeout e else e
  | EvAppend mode i => append_runtime_input mode i e
  | EvSetMode mode => set_inputs mode (steering_inputs e) (followup_inputs e) e
  | EvConvert => convert_pending_to_steering e
  end.
Definition happen (evs : list Event) e : AgentLoopEntity := foldl (λ e ev, happens ev e) e evs.

(** * An iteration *)

Inductive LoopFinishReason : Type := FCompleted | FMaxIterationsReached | FInterrupted.
Record IterationResult : Type := {
  should_continue : bool;
  content : value;
  completion_data : option value;
  result_tool_calls : nat;
  finish_reason : LoopFinishReason;
}.

(** What an iteration is given from outside: the events of each of its phases,
    the outcome of waiting for a compression in flight (a park, an error, or
    none), of assembling the request, of the model's call, of the tools' and
    of the ingestion of their messages; and the times and ids it takes. *)
Record Attempt : Type := {
  at_begin : Z;
  at_end : Z;
  at_record_id : string;
  before_call : list Event;
  compression : result AgentError (option (list Event * IterationResult));
  request : result AgentError ();
  during_call : list Event;
  llm_answer : result AgentError (string * list ToolCall);
  during_tools : list Event;
  tool_results : result AgentError (list Message);
  before_retry : list Event;
}.
Definition AgentM (A : Type) : Type := SE AgentLoopEntity AgentError A.

Definition ATTEMPT_COMPLETION : string := "attempt_completion".
Definition MAX_CONSECUTIVE_SCOPE_VIOLATION_ROUNDS : nat := 3.

(** [interrupted] of outcome.rs *)
Definition interrupted (now : Z) (tool_call_count : nat) : AgentM (option IterationResult) := λ e,
  match check (interruption e) with
  | None | Some Active => (e, Ok None)
  | Some _ =>
      (on_agent (end_iteration now) e,
       Ok (Some {| should_continue := false; content := VString "Execution interrupted"; completion_data := None;
                   result_tool_calls := tool_call_count; finish_reason := FInterrupted |}))
  end.
(** [finish_iteration] *)
Definition finish_iteration (now : Z) (text : string) (completion : option value) (tool_call_count : nat) (continue : bool) :
    AgentM IterationResult :=
  _ ← modify (on_agent (end_iteration_with_content (Some text) now));
  mret {| should_continue := continue; content := VString text; completion_data := completion;
          result_tool_calls := tool_call_count; finish_reason := FCompleted |}.
Definition unless_interrupted (now : Z) (tool_call_count : nat) (k : AgentM IterationResult) : AgentM IterationResult :=
  o ← interrupted now tool_call_count;
  match o with Some res => mret res | None => k end.

Definition is_scope_violation_message (m : Message) : bool := match m with ToolResult _ _ v => v | _ => false end.
(** The arguments of the last completion call. *)
Definition completion_of (tool_calls : list ToolCall) : option value :=
  (λ tc, VString (tc_arguments tc)) <$> last (filter (λ tc, tc_name tc = ATTEMPT_COMPLETION) tool_calls).
(** The end of a round of tool calls. *)
Definition take_tool_messages (now : Z) (text : string) (tool_calls : list ToolCall) (ms : list Message) : AgentM IterationResult :=
  let all_violations := bool_decide (ms ≠ []) && forallb is_scope_violation_message ms in
  _ ← modify (λ e, foldl (λ e m, add_message m e) e ms);
  _ ← modify (on_agent (record_scope_violation_round all_violations));
  e ← get_state;
  let streak := scope_violation_streak (agent_state e) in
  if all_violations && bool_decide (MAX_CONSECUTIVE_SCOPE_VIOLATION_ROUNDS ≤ streak) then
    throw (AValidation ("Tool calls violated the execution file scope " +:+ show_nat (Z.of_nat streak) +:+
      " times in a row; staying inside the allowed read and write prefixes is required"))
  else
    let completion := completion_of tool_calls in
    finish_iteration now text completion (List.length tool_calls) (bool_decide (completion = None)).

(** [execute_iteration] of a blocking run *)
Definition execute_iteration (a : Attempt) : AgentM IterationResult :=
  _ ← modify (on_agent (start_iteration (at_begin a)));
  _ ← modify (happen (before_call a));
  unless_interrupted (at_end a) 0 (
    park ← lift (compression a);
    match park with
    | Some (evs, res) => _ ← modify (happen evs); mret res
    | None =>
        _ ← lift (request a);
        _ ← modify (happen (during_call a));
        answer ← lift (llm_answer a);
        unless_interrupted (at_end a) 0 (
          _ ← modify (add_message (Assistant answer.1 answer.2));
          match answer.2 with
          | [] => finish_iteration (at_end a) answer.1 None 0 false
          | tool_calls =>
              _ ← modify (happen (during_tools a));
              ms ← lift (tool_results a);
              unless_interrupted (at_end a) (List.length tool_calls)
                (take_tool_messages (at_end a) answer.1 tool_calls ms)
          end)
    end).

(** * Everything an iteration does keeps the record of the run *)

Definition keeps e e' : Prop := kept (agent_state e) (agent_state e').
#[export] Instance keeps_preorder : PreOrder keeps.
Proof. split; [intros e; unfold keeps; done|intros e1 e2 e3 H1 H2; unfold keeps in *; by etrans]. Qed.
Definition grows {A} (m : AgentM A) : Prop := ∀ e, keeps e (m e).1.

Lemma grows_ret {A} (x : A) : grows (mret x).
Proof. by intros e. Qed.
Lemma grows_lift {A} (r : result AgentError A) : grows (lift r).
Proof. by intros e. Qed.
Lemma grows_throw {A} err : grows (throw err : AgentM A).
Proof. by intros e. Qed.
Lemma grows_get : grows get_state.
Proof. by intros e. Qed.
Lemma grows_modify f : (∀ e, keeps e (f e)) → grows (modify f).
Proof. intros H e. apply H. Qed.
Lemma grows_bind {A B} (m : AgentM A) (f : A → AgentM B) : grows m → (∀ x, grows (f x)) → grows (m ≫= f).
Proof.
  intros Hm Hf e. unfold mbind, M_bind. specialize (Hm e). destruct (m e) as [e1 [x|err]]; [|done]. by etrans; [|apply Hf].
Qed.
Lemma on_agent_keeps f e : kept (agent_state e) (f (agent_state e)) → keeps e (on_agent f e).
Proof. done. Qed.
Lemma run_agent_grows target now : grows (run_agent (agent_transition target now)).
Proof.
  intros e. unfold run_agent. pose proof (transition_kept target now (agent_state e)) as H.
  by destruct (agent_transition target now (agent_state e)) as [s r].
Qed.
Lemma run_interruption_agent m e : agent_state (run_interruption m e).1 = agent_state e.
Proof. unfold run_interruption. by destruct (m (interruption e)). Qed.
Lemma run_interruption_grows m : grows (run_interruption m).
Proof. intros e. unfold keeps. by rewrite run_interruption_agent. Qed.
Lemma start_pause_timeout_keeps e : keeps e (start_pause_timeout e).
Proof. unfold start_pause_timeout. destruct (max_pause_duration e); [|done]. by case_decide. Qed.
Lemma entity_pause_grows now : grows (entity_pause now).
Proof.
  apply grows_bind; [apply (run_agent_grows SPaused)|intros _]. apply grows_bind; [apply run_interruption_grows|intros _].
  apply grows_modify, start_pause_timeout_keeps.
Qed.
Lemma entity_resume_grows now : grows (entity_resume now).
Proof.
  apply grows_bind; [by apply grows_modify|intros _]. apply grows_bind; [apply (run_agent_grows SRunning)|intros _].
  apply run_interruption_grows.
Qed.
Lemma entity_stop_grows now : grows (entity_stop now).
Proof.
  intros e. unfold entity_stop. destruct (status_is_terminal _); [done|]. revert e.
  apply grows_bind; [|intros _; apply grows_bind; [apply run_interruption_grows|intros _; by apply grows_modify]].
  apply grows_bind; [apply (run_agent_grows SCancelled)|intros _; by apply grows_modify].
Qed.
Lemma fire_timeout_keeps e : keeps e (fire_timeout e).
Proof. unfold fire_timeout, keeps. by rewrite run_interruption_agent. Qed.
Lemma happens_keeps ev e : keeps e (happens ev e).
Proof.
  destruct ev; cbn [happens]; try done.
  - apply run_op_kept.
  - apply entity_pause_grows.
  - apply entity_resume_grows.
  - apply entity_stop_grows.
  - destruct (wall_clock_timer e); [apply fire_timeout_keeps|done].
  - destruct (pause_timer e); [apply fire_timeout_keeps|done].
  - unfold append_runtime_input. by destruct (default _ _).
Qed.
Lemma happen_keeps evs e : keeps e (happen evs e).
Proof. revert e. induction evs as [|ev evs IH]; intros e; [done|]. cbn. etrans; [apply (happens_keeps ev)|apply IH]. Qed.
Lemma add_messages_keeps ms e : keeps e (foldl (λ e m, add_message m e) e ms).
Proof. revert e. induction ms as [|m ms IH]; intros e; [done|]. cbn. by etrans; [|apply IH]. Qed.
Lemma interrupted_grows now n : grows (interrupted now n).
Proof.
  intros e. unfold interrupted. destruct (check (interruption e)) as [[]|]; try done;
    apply (run_op_kept (OpEndIteration None now)).
Qed.
Lemma unless_interrupted_grows now n k : grows k → grows (unless_interrupted now n k).
Proof. intros Hk. apply grows_bind; [apply interrupted_grows|]. intros [res|]; [apply grows_ret|done]. Qed.
Lemma finish_iteration_grows now text c n b : grows (finish_iteration now text c n b).
Proof. apply grows_bind; [|intros _; apply grows_ret]. apply grows_modify. intros e. apply (run_op_kept (OpEndIteration (Some text) now)). Qed.
Lemma take_tool_messages_grows now text tcs ms : grows (take_tool_messages now text tcs ms).
Proof.
  unfold take_tool_messages. set (v := _ && _). apply grows_bind; [apply grows_modify; intros e; apply add_messages_keeps|intros _].
  apply grows_bind; [apply grows_modify; intros e; apply (run_op_kept (OpScopeRound v))|intros _].
  apply grows_bind; [apply grows_get|intros e]. cbv zeta. destruct (v && _); [apply grows_throw|apply finish_iteration_grows].
Qed.
Lemma execute_iteration_grows a : grows (execute_iteration a).
Proof.
  unfold execute_iteration.
  apply grows_bind; [apply grows_modify; intros e; apply (run_op_kept (OpStartIteration (at_begin a)))|intros _].
  apply grows_bind; [apply grows_modify, happen_keeps|intros _]. apply unless_interrupted_grows.
  apply grows_bind; [apply grows_lift|intros [[evs res]|]].
  { apply grows_bind; [apply grows_modify, happen_keeps|intros _; apply grows_ret]. }
  apply grows_bind; [apply grows_lift|intros _]. apply grows_bind; [apply grows_modify, happen_keeps|intros _].
  apply grows_bind; [apply grows_lift|intros [text tcs]]. apply unless_interrupted_grows.
  apply grows_bind; [by apply grows_modify|intros _]. cbn [snd fst].
  destruct tcs as [|tc tcs]; [apply finish_iteration_grows|].
  apply grows_bind; [apply grows_modify, happen_keeps|intros _]. apply grows_bind; [apply grows_lift|intros ms].
  apply unless_interrupted_grows, take_tool_messages_grows.
Qed.

(** * The loop *)

(** What happens between two iterations: the internal signals received, and the
    events of a wait. *)
Record Boundary : Type := { signals : list InternalSignal; waits : list Event }.

Section loop.
  (** The attempts in the order of the calls, the boundaries per iteration, and
      the process-wide shutdown marker. *)
  Context (attempts : nat → Attempt) (boundaries : nat → Boundary) (active_shutdown : bool).

(** [drain_internal_signals] *)
Definition take_signal (e : AgentLoopEntity) (s : InternalSignal) : AgentLoopEntity :=
  if decide (target_execution_id s = loop_id e) then
    match s with
    | StopWorkflow _ => (run_interruption stop e).1
    | PauseWorkflow _ => (run_interruption pause e).1
    | ResumeWorkflow _ => (run_interruption resume e).1
    | _ => e
    end
  else e.
Definition drain_internal_signals (ss : list InternalSignal) e : AgentLoopEntity := foldl take_signal e ss.

(** [wait_for_resume]; [None]: still waiting when the events are over. *)
Fixpoint wait_own (evs : list Event) e : option AgentLoopEntity :=
  match signal (interruption e) with
  | Active | Stop => Some e
  | Pause => match evs with [] => None | ev :: evs' => wait_own evs' (happens ev e) end
  end.
Definition wait_for_resume (evs : list Event) e : option AgentLoopEntity :=
  if decide (check (interruption e) = Some Pause) then wait_own evs e else Some e.

Definition is_stopped e : bool := bool_decide (check (interruption e) = Some Stop).
Definition stopped_error e : AgentError :=
  let st := status (agent_state e) in
  if status_is_terminal st then ACancelled ("Agent loop stopped with status " +:+ debug_status st)
  else if active_shutdown then ACancelled "Agent loop cancelled by runtime shutdown"
  else if timeout_expired e then AExecutionTimeout "Agent loop execution time exceeded"
  else ACancelled "Agent loop force-stopped".

(** Buffered inputs enter the conversation as one user message. *)
Definition joined (inputs : list RuntimeInput) : string :=
  String.concat (String "010" (String "010" "")) (input_text <$> inputs).
Definition inject (inputs : list RuntimeInput) e : AgentLoopEntity :=
  match inputs with [] => e | _ => add_message (UserText (joined inputs)) e end.
Definition inject_steering e : AgentLoopEntity := let '(e', inputs) := drain_steering_inputs e in inject inputs e'.

Definition debug_error_type (t : ErrorType) : string :=
  match t with
  | Entity.ToolError => "ToolError" | Entity.LlmError => "LlmError" | Timeout => "Timeout" | RateLimited => "RateLimited"
  | ServiceUnavailable => "ServiceUnavailable" | Validation => "Validation" | Internal => "Internal"
  | Interruption => "Interruption"
  end.
Definition tripped_error (err : AgentError) (repeats : nat) (t : ErrorType) (limit : nat) : AgentError :=
  let n z := show_nat (Z.of_nat z) in
  match err with
  | ALlmError le =>
      if is_context_length_exceeded le then
        ContextBudgetExhausted ("context-length rejection recurred " +:+ n repeats +:+ " times after compression (limit " +:+
          n limit +:+ "); stopping retries: " +:+ display_agent_error err)
      else ErrorPatternTripped ("error type " +:+ debug_error_type t +:+ " recurred " +:+ n repeats +:+ " times (limit " +:+
          n limit +:+ "); stopping retries: " +:+ display_agent_error err)
  | _ => ErrorPatternTripped ("error type " +:+ debug_error_type t +:+ " recurred " +:+ n repeats +:+ " times (limit " +:+
          n limit +:+ "); stopping retries: " +:+ display_agent_error err)
  end.

(** [execute_iteration_with_retry], from the [calls]-th call of the executor;
    it also returns the number of calls made so far. *)
Fixpoint retry_loop (fuel : nat) (policy : option RetryPolicy) (attempt calls : nat) e :
    option (nat * AgentLoopEntity * result AgentError IterationResult) :=
  match fuel with
  | 0 => None
  | S fuel' =>
      let a := attempts calls in
      match execute_iteration a e with
      | (e', Ok res) => Some (S calls, e', Ok res)
      | (e', Err err) =>
          let an := analyze_error err in
          let kind := analysis_kind an in
          let limit := error_retry_limit policy in
          let r := to_error_record (at_record_id a) (at_end a) an (loop_id e')
            (Some (iteration_tag (current_iteration (agent_state e')))) in
          let e'' := on_agent (record_error r) e' in
          match decide_retry (error_records (agent_state e'')) an (retry_total kind (agent_state e''))
                  (should_retry policy kind attempt) limit with
          | Grant => retry_loop fuel' policy (S attempt) (S calls) (happen (before_retry a) (on_agent (record_retry kind) e''))
          | StopRetrying => Some (S calls, e'', Err err)
          | Trip repeats t => Some (S calls, e'', Err (tripped_error err repeats t limit))
          end
      end
  end.
Definition execute_iteration_with_retry (policy : option RetryPolicy) (calls : nat) e :
    option (nat * AgentLoopEntity * result AgentError IterationResult) :=
  retry_loop (S (error_retry_limit policy)) policy 0 calls e.

(** [run_iterations]: [left] iterations of the budget are left. *)
Definition max_iterations_result : IterationResult :=
  {| should_continue := false; content := VString "Max iterations reached"; completion_data := None; result_tool_calls := 0;
     finish_reason := FMaxIterationsReached |}.
(** What the loop waits for before an iteration. *)
Definition at_boundary (iteration : nat) e : option AgentLoopEntity :=
  wait_for_resume (waits (boundaries iteration)) (drain_internal_signals (signals (boundaries iteration)) e).
(** The body of the loop; a result ends it, [Ok None] goes on to the next iteration. *)
Definition run_iteration (policy : option RetryPolicy) (iteration calls : nat) e :
    option (nat * AgentLoopEntity * result AgentError (option (IterationResult * nat))) :=
  match at_boundary iteration e with
  | None => None
  | Some e1 =>
      if is_stopped e1 then Some (calls, e1, Err (stopped_error e1))
      else
        match execute_iteration_with_retry policy calls (inject_steering e1) with
        | None => None
        | Some (calls', e2, Err err) => Some (calls', e2, Err err)
        | Some (calls', e2, Ok res) =>
            if should_continue res then Some (calls', e2, Ok None)
            else
              match check (interruption e2) with
              | Some Pause => Some (calls', e2, Ok None)
              | Some Stop => Some (calls', e2, Err (stopped_error e2))
              | _ =>
                  let '(e3, followups) := drain_followup_inputs e2 in
                  match followups with
                  | [] => Some (calls', e3, Ok (Some (res, S iteration)))
                  | _ => Some (calls', inject followups e3, Ok None)
                  end
              end
        end
  end.
Fixpoint run_iterations (policy : option RetryPolicy) (left iteration calls : nat) e :
    option (nat * AgentLoopEntity * result AgentError (IterationResult * nat)) :=
  match left with
  | 0 => Some (calls, e, Ok (max_iterations_result, iteration))
  | S left' =>
      match run_iteration policy iteration calls e with
      | None => None
      | Some (calls', e', Ok None) => run_iterations policy left' (S iteration) calls' e'
      | Some (calls', e', Ok (Some out)) => Some (calls', e', Ok out)
      | Some (calls', e', Err err) => Some (calls', e', Err err)
      end
  end.

(** [execute]: the loop under its wall clock. *)
Definition arm_wall_clock (max_execution_time : option Z) e : AgentLoopEntity :=
  let armed := match max_execution_time with Some n => bool_decide (0 < n)%Z | None => false end in
  set_timers (timeout_expired e) (pause_timer e) armed e.
Definition execute (max_iterations : nat) (max_execution_time : option Z) e :
    option (nat * AgentLoopEntity * result AgentError (IterationResult * nat)) :=
  match run_iterations (Some default_retry_policy) max_iterations 0 0 (arm_wall_clock max_execution_time e) with
  | Some (calls, e', r) => Some (calls, set_timers (timeout_expired e') (pause_timer e') false e', r)
  | None => None
  end.

(** * The run: execute_inner of lifecycle/run.rs *)

Inductive SettleKind : Type := SettleTimeout | SettleCancel | SettleFail.
Definition settle_kind (err : AgentError) : SettleKind :=
  if active_shutdown then SettleCancel
  else match err with
  | AExecutionTimeout _ => SettleTimeout
  | ACancelled _ => SettleCancel
  | ALlmError le => match llm_variant le with LCancelled => SettleCancel | _ => SettleFail end
  | _ => SettleFail
  end.
Definition settle_error (err : AgentError) (now : Z) e : AgentLoopEntity :=
  if status_is_terminal (status (agent_state e)) then e
  else match settle_kind err with
  | SettleTimeout => (timeout_agent_loop now e).1
  | SettleCancel => (cancel_agent_loop_with_error (display_agent_error err) now e).1
  | SettleFail => (fail_agent_loop (display_agent_error err) now e).1
  end.
(** [preparation]: what the resolution of the file scope and the opening of the
    checkpoint session come to; an error is returned before the loop runs. *)
Record RunConfig : Type := { preparation : result AgentError (); max_iterations : nat; max_iterations_cap : nat; max_execution_time : option Z }.
Definition execute_inner (cfg : RunConfig) (t0 t1 : Z) e :
    option (nat * AgentLoopEntity * result AgentError (IterationResult * nat)) :=
  match start_agent_loop t0 e with
  | (e', Err err) => Some (0, e', Err err)
  | (e', Ok _) =>
      match preparation cfg with
      | Err err => Some (0, e', Err err)
      | Ok _ =>
      if decide (max_iterations_cap cfg < max_iterations cfg) then
        Some (0, e', Err (AValidation ("max_iterations (" +:+ show_nat (Z.of_nat (max_iterations cfg)) +:+
          ") exceeds the configured hard limit (" +:+ show_nat (Z.of_nat (max_iterations_cap cfg)) +:+ ")")))
      else
        match execute (max_iterations cfg) (max_execution_time cfg) e' with
        | None => None
        | Some (calls, e'', Ok (res, iterations)) =>
            if bool_decide (is_Some (completion_data res)) || negb (should_continue res) then
              match complete_agent_loop t1 e'' with
              | (e3, Ok _) => Some (calls, e3, Ok (res, iterations))
              | (e3, Err err) => Some (calls, e3, Err err)
              end
            else Some (calls, e'', Ok (res, iterations))
        | Some (calls, e'', Err err) => Some (calls, settle_error err t1 e'', Err err)
        end
      end
  end.

(** * The budget of a run *)

Notation records e := (error_records (agent_state e)).
Lemma keeps_room limit e e' : keeps e e' → room limit (records e') ≤ room limit (records e).
Proof. intros [H _ _ _]. by apply room_prefix. Qed.
Lemma should_retry_bound policy kind attempt : should_retry policy kind attempt = true → attempt < error_retry_limit policy.
Proof.
  destruct policy as [p|]; [|done]. cbn. rewrite !andb_true_iff. intros [[_ H%negb_true_iff] _]. apply bool_decide_eq_false in H. lia.
Qed.
(** One iteration with its retries: it is over within its fuel, and its calls
    beyond the first are paid from the room the history leaves. *)
Lemma retry_loop_spec policy fuel attempt calls e :
  0 < fuel → error_retry_limit policy < fuel + attempt →
  ∃ calls' e' r, retry_loop fuel policy attempt calls e = Some (calls', e', r) ∧ keeps e e' ∧
    calls' + room (error_retry_limit policy) (records e') ≤ S calls + room (error_retry_limit policy) (records e).
Proof.
  set (limit := error_retry_limit policy). revert attempt calls e. induction fuel as [|fuel IH]; intros attempt calls e Hpos Hfuel; [lia|].
  cbn [retry_loop]. fold limit. pose proof (execute_iteration_grows (attempts calls) e) as Hit.
  destruct (execute_iteration (attempts calls) e) as [e1 [res|err]]; cbn [fst] in Hit.
  { pose proof (keeps_room limit _ _ Hit). eexists _, _, _. split; [done|]. split; [done|]. lia. }
  cbv zeta. set (r := to_error_record _ _ _ _ _). set (e2 := on_agent (record_error r) e1).
  assert (H12 : keeps e1 e2) by apply (run_op_kept (OpError r)).
  assert (H2 : keeps e e2) by (by etrans). pose proof (keeps_room limit _ _ H2).
  destruct (decide_retry _ _ _ _ _) eqn:Hd; [|eexists _, _, _; split; [done|]; split; [done|]; lia..].
  assert (Hroom : room limit (records e2) < room limit (records e)).
  { apply (room_granted _ _ (records e1) r err _ _ (kept_errors _ _ Hit) eq_refl Hd). }
  apply decide_retry_grant in Hd as (_ & _ & Hallowed & _). apply should_retry_bound in Hallowed. fold limit in Hallowed.
  set (e3 := happen _ _).
  assert (H23 : keeps e2 e3) by (transitivity (on_agent (record_retry (analysis_kind (analyze_error err))) e2); [|apply happen_keeps];
      exact (run_op_kept (OpRetry (analysis_kind (analyze_error err))) (agent_state e2))).
  destruct (IH (S attempt) (S calls) e3) as (c & e' & res & -> & Hk & Hc); [lia|lia|].
  eexists _, _, _. split; [done|]. split; [by do 2 etrans|]. pose proof (keeps_room limit _ _ H23). lia.
Qed.

Lemma take_signals_keeps ss e : keeps e (drain_internal_signals ss e).
Proof.
  revert e. induction ss as [|s ss IH]; intros e; [done|]. cbn. etrans; [|apply IH]. unfold take_signal. case_decide; [|done].
  destruct s; try done; apply run_interruption_grows.
Qed.
Lemma wait_own_keeps evs e e' : wait_own evs e = Some e' → keeps e e'.
Proof.
  revert e. induction evs as [|ev evs IH]; intros e; cbn [wait_own]; destruct (signal (interruption e)); try (by intros [= <-]); try done.
  intros H. etrans; [apply (happens_keeps ev)|by apply IH].
Qed.
Lemma wait_keeps evs e e' : wait_for_resume evs e = Some e' → keeps e e'.
Proof. unfold wait_for_resume. case_decide; [apply wait_own_keeps|by intros [= <-]]. Qed.
Lemma inject_keeps inputs e : keeps e (inject inputs e).
Proof. by destruct inputs. Qed.
Lemma inject_steering_keeps e : keeps e (inject_steering e).
Proof. unfold inject_steering, drain_steering_inputs. etrans; [|apply inject_keeps]. done. Qed.

(** The loop, from an iteration on, comes to a later one. *)
Inductive arrives (policy : option RetryPolicy) : nat → nat → AgentLoopEntity → nat → nat → AgentLoopEntity → Prop :=
| arrives_here iteration calls e : arrives policy iteration calls e iteration calls e
| arrives_next iteration calls e calls1 e1 k calls2 e2 :
    run_iteration policy iteration calls e = Some (calls1, e1, Ok None) → arrives policy (S iteration) calls1 e1 k calls2 e2 →
    arrives policy iteration calls e k calls2 e2.
(** The loop comes to a boundary of its budget in a state that is paused and stays so
    after all that happens there. *)
Definition suspended (policy : option RetryPolicy) (left iteration calls : nat) e : Prop :=
  ∃ k calls' e', k < iteration + left ∧ arrives policy iteration calls e k calls' e' ∧
    signal (interruption (drain_internal_signals (signals (boundaries k)) e')) = Pause ∧ at_boundary k e' = None.
Definition within (policy : option RetryPolicy) (left iteration calls : nat) e
    (o : option (nat * AgentLoopEntity * result AgentError (IterationResult * nat))) : Prop :=
  let limit := error_retry_limit policy in
  match o with
  | Some (calls', e', r) =>
      keeps e e' ∧ calls' + room limit (records e') ≤ calls + left + room limit (records e) ∧
      (∀ res n, r = Ok (res, n) → should_continue res = false ∧ n ≤ iteration + left)
  | None => suspended policy left iteration calls e
  end.
Lemma within_later policy left iteration calls calls' e e' o :
  keeps e e' → calls' + room (error_retry_limit policy) (records e') ≤ S calls + room (error_retry_limit policy) (records e) →
  run_iteration policy iteration calls e = Some (calls', e', Ok None) →
  within policy left (S iteration) calls' e' o → within policy (S left) iteration calls e o.
Proof.
  intros Hk Hc Hrun. destruct o as [[[c e2] r]|]; cbn [within].
  - intros (Hk2 & Hc2 & Hr). split; [by etrans|]. split; [lia|]. intros res n Heq. destruct (Hr _ _ Heq). split; [done|lia].
  - intros (k & c1 & e1 & Hle & Ha & H). exists k, c1, e1. split; [lia|]. split; [by eapply arrives_next|done].
Qed.
Lemma within_done policy left iteration calls calls' e e' r :
  keeps e e' → calls' + room (error_retry_limit policy) (records e') ≤ S calls + room (error_retry_limit policy) (records e) →
  (∀ res n, r = Ok (res, n) → should_continue res = false ∧ n ≤ iteration + S left) →
  within policy (S left) iteration calls e (Some (calls', e', r)).
Proof. intros. split; [done|]. split; [lia|done]. Qed.
Lemma wait_None evs e : wait_for_resume evs e = None → signal (interruption e) = Pause ∧ wait_own evs e = None.
Proof.
  unfold wait_for_resume. case_decide; [|done]. intros Hw. split; [|done].
  destruct evs; cbn [wait_own] in Hw; by destruct (signal (interruption e)).
Qed.
Lemma run_iteration_spec policy iteration calls e :
  match run_iteration policy iteration calls e with
  | Some (c, e', r) => keeps e e' ∧ c + room (error_retry_limit policy) (records e') ≤ S calls + room (error_retry_limit policy) (records e) ∧
      ∀ res n, r = Ok (Some (res, n)) → should_continue res = false ∧ n = S iteration
  | None => signal (interruption (drain_internal_signals (signals (boundaries iteration)) e)) = Pause ∧ at_boundary iteration e = None
  end.
Proof.
  unfold run_iteration. destruct (at_boundary iteration e) as [e1|] eqn:Hb; unfold at_boundary in Hb.
  2: { split; [|done]. by apply wait_None in Hb as [? _]. }
  pose proof (take_signals_keeps (signals (boundaries iteration)) e) as H0.
  assert (H1 : keeps e e1) by (etrans; [done|by eapply wait_keeps]). pose proof (keeps_room (error_retry_limit policy) _ _ H1).
  destruct (is_stopped e1); [split; [done|]; split; [lia|done]|].
  destruct (retry_loop_spec policy (S (error_retry_limit policy)) 0 calls (inject_steering e1)) as (c & e2 & r & Hrun & H2 & Hc); [lia|lia|].
  unfold execute_iteration_with_retry. rewrite Hrun. pose proof (inject_steering_keeps e1) as Hinj.
  pose proof (keeps_room (error_retry_limit policy) _ _ Hinj). assert (H02 : keeps e e2) by (by do 2 (etrans; [done|])).
  assert (Hc' : c + room (error_retry_limit policy) (records e2) ≤ S calls + room (error_retry_limit policy) (records e)) by lia.
  assert (Hagain : ∀ e3 (r' : result AgentError (option (IterationResult * nat))), keeps e2 e3 → records e3 = records e2 → (∀ res n, r' = Ok (Some (res, n)) → should_continue res = false ∧ n = S iteration) →
    keeps e e3 ∧ c + room (error_retry_limit policy) (records e3) ≤ S calls + room (error_retry_limit policy) (records e) ∧
    ∀ res n, r' = Ok (Some (res, n)) → should_continue res = false ∧ n = S iteration).
  { intros e3 r' Hk3 Hrec Hr. split; [by etrans|]. split; [by rewrite Hrec|done]. }
  destruct r as [res|err]; [|by apply Hagain]. destruct (should_continue res) eqn:Hcont; [by apply Hagain|].
  assert (Hdone : ∀ res' n, Ok (E := AgentError) (Some (res, S iteration)) = Ok (Some (res', n)) → should_continue res' = false ∧ n = S iteration) by by intros ? ? [= <- <-].
  destruct (check (interruption e2)) as [[]|]; cbn [drain_followup_inputs]; try (destruct (followup_inputs e2)); by apply Hagain.
Qed.
Lemma run_iterations_spec policy left iteration calls e :
  within policy left iteration calls e (run_iterations policy left iteration calls e).
Proof.
  revert iteration calls e. induction left as [|left IH]; intros iteration calls e; cbn [run_iterations].
  { split; [done|]. split; [lia|]. intros res n [= <- <-]. split; [done|lia]. }
  pose proof (run_iteration_spec policy iteration calls e) as Hs. destruct (run_iteration policy iteration calls e) as [[[c e'] r]|] eqn:Hrun.
  - destruct Hs as (Hk & Hc & Hr). destruct r as [[[res n]|]|err]; [|by eapply within_later|by apply within_done].
    apply within_done; [done|done|]. intros ? ? [= <- <-]. destruct (Hr res n eq_refl). split; [done|lia].
  - exists iteration, calls, e. split; [lia|]. split; [apply arrives_here|done].
Qed.

(** C21: a run of the agent loop ends.  Whatever the model, the tools and other tasks do, it returns
    unless it comes to a boundary paused and nothing that happens there ends the pause; it calls the model at most once
    per iteration of its budget plus 12 retries over the whole run (two per type of retryable error);
    and a result that ends the loop asks for no further iteration and comes within the budget. *)
Theorem agent_run_bounded (max_iterations : nat) (max_execution_time : option Z) e :
  match execute max_iterations max_execution_time e with
  | Some (calls, e', r) =>
      calls ≤ max_iterations + 12 ∧ keeps e e' ∧
      (∀ res n, r = Ok (res, n) → should_continue res = false ∧ n ≤ max_iterations)
  | None => suspended (Some default_retry_policy) max_iterations 0 0 (arm_wall_clock max_execution_time e)
  end.
Proof.
  unfold execute. set (e0 := arm_wall_clock _ e).
  pose proof (run_iterations_spec (Some default_retry_policy) max_iterations 0 0 e0) as H.
  destruct (run_iterations _ _ _ _ e0) as [[[c e'] r]|]; [|done]. destruct H as (Hk & Hc & Hr).
  pose proof (room_bound 3 (records e0)). simpl in *. split; [lia|done].
Qed.

(** * Settlement *)

Lemma execute_ends n limit e :
  match execute n limit e with
  | Some (_, e', r) => keeps e e' ∧ ∀ res m, r = Ok (res, m) → should_continue res = false
  | None => True
  end.
Proof.
  unfold execute. set (e0 := arm_wall_clock _ e). pose proof (run_iterations_spec (Some default_retry_policy) n 0 0 e0) as H.
  destruct (run_iterations _ _ _ _ e0) as [[[c e'] r]|]; [|done]. destruct H as (Hk & _ & Hr). split; [done|].
  intros res m Heq. by destruct (Hr _ _ Heq).
Qed.

Lemma settle_target target now e :
  (status (agent_state e) = SRunning ∨ status (agent_state e) = SPaused) → target ≠ SCreated → target ≠ SCompleted → target ≠ SPaused →
  target ≠ SRunning → ∀ m, m = agent_transition target now ∨ (∃ x, m = (_ ← agent_transition target now; modify (set_error (Some x)))) →
  status_is_terminal (status (agent_state (settle_with m e).1)) = true.
Proof.
  intros Hs ? ? ? ? m Hm. assert (Ha : agent_transition_allowed (status (agent_state e)) target = true).
  { destruct Hs as [-> | ->]; by destruct target. }
  destruct Hm as [->|[x ->]]; unfold settle_with, mbind, M_bind, run_agent, modify, agent_transition; cbv beta;
    rewrite Ha; cbn; by destruct target.
Qed.
Lemma settle_error_terminal err now e :
  status (agent_state e) ≠ SCreated → status_is_terminal (status (agent_state (settle_error err now e))) = true.
Proof.
  intros Hne. unfold settle_error. destruct (status_is_terminal (status (agent_state e))) eqn:Ht; [done|].
  assert (Hs : status (agent_state e) = SRunning ∨ status (agent_state e) = SPaused).
  { destruct (status (agent_state e)); try done; [by left|by right]. }
  destruct (settle_kind err).
  - apply (settle_target STimeout now); try done. by left.
  - apply (settle_target SCancelled now); try done. right. by eexists.
  - apply (settle_target SFailed now); try done. right. by eexists.
Qed.

(** C22: how a run leaves its entity.  A run that returns a result is completed and has released its
    concurrency permit.  A run that returns an error has settled in a terminal status, with four
    exceptions: it could not be started; its file scope or checkpoint session is refused, or its budget
    exceeds the cap, which leaves it running; or it was paused during its last iteration, which leaves
    it paused. *)
Theorem agent_run_settles (cfg : RunConfig) (t0 t1 : Z) e calls e' r :
  execute_inner cfg t0 t1 e = Some (calls, e', r) →
  match r with
  | Ok _ => status (agent_state e') = SCompleted ∧ gate_permit e' = false
  | Err err =>
      status_is_terminal (status (agent_state e')) = true ∨
      agent_transition_allowed (status (agent_state e)) SRunning = false ∧ agent_state e' = agent_state e ∨
      preparation cfg = Err err ∧ status (agent_state e') = SRunning ∨
      max_iterations_cap cfg < max_iterations cfg ∧ status (agent_state e') = SRunning ∨
      status (agent_state e') = SPaused ∧ err = IllegalStateTransition "Paused -> Completed"
  end.
Proof.
  unfold execute_inner, start_agent_loop, run_agent, agent_start, agent_transition.
  destruct (agent_transition_allowed (status (agent_state e)) SRunning) eqn:Ha.
  2: { intros [= <- <- <-]. by right; left. }
  set (e1 := set_agent _ e). assert (Hs1 : status (agent_state e1) = SRunning) by done.
  destruct (preparation cfg) as [[]|perr]; [|intros [= <- <- <-]; by right; right; left].
  case_decide as Hcap; [intros [= <- <- <-]; by right; right; right; left|].
  pose proof (execute_ends (max_iterations cfg) (max_execution_time cfg) e1) as Hrun.
  destruct (execute _ _ e1) as [[[c e2] r2]|]; [|done]. destruct Hrun as [Hk Hr].
  assert (Hne : status (agent_state e2) ≠ SCreated) by (apply (kept_started _ _ Hk); by rewrite Hs1).
  destruct r2 as [[res n]|err]; [|intros [= <- <- <-]; left; by apply settle_error_terminal].
  rewrite (Hr _ _ eq_refl). cbn [negb]. rewrite orb_true_r.
  unfold complete_agent_loop, settle_with, mbind, M_bind, run_agent, agent_complete, agent_transition, modify.
  destruct (agent_transition_allowed (status (agent_state e2)) SCompleted) eqn:Hc; cbn [fst agent_apply]; intros [= <- <- <-]; [done|].
  cbn [set_agent agent_state]. destruct (status (agent_state e2)) eqn:He2; try done; [|by left..]. by do 4 right.
Qed.
End loop.

(** * Witnesses and examples *)

Definition sample_attempt (answer : result AgentError (string * list ToolCall)) (during : list Event) : Attempt :=
  {| at_begin := 10; at_end := 20; at_record_id := "r"; before_call := []; compression := Ok None; request := Ok tt;
     during_call := []; llm_answer := answer; during_tools := during;
     tool_results := Ok [ToolResult "c1" "text" false]; before_retry := [] |}.
Definition read_call : ToolCall := {| tc_id := "c1"; tc_name := "read_file"; tc_arguments := "{}" |}.
Definition quiet_boundary : Boundary := {| signals := []; waits := [] |}.
Definition llm_timeout : AgentError :=
  ALlmError {| llm_variant := LTimeout; llm_is_retryable := true; is_context_length_exceeded := false; llm_display := "timeout" |}.
(** A tool call, a failure that is retried, then the answer. *)
Definition sample_attempts (n : nat) : Attempt :=
  match n with
  | 0 => sample_attempt (Ok ("let me look", [read_call])) []
  | 1 => sample_attempt (Err llm_timeout) []
  | _ => sample_attempt (Ok ("done", [])) []
  end.
Definition sample_cfg (n : nat) : RunConfig := {| preparation := Ok tt; max_iterations := n; max_iterations_cap := 1000; max_execution_time := None |}.
Definition Outcome : Type := nat * AgentLoopEntity * result AgentError (IterationResult * nat).
Definition calls_of (x : Outcome) : nat := x.1.1.
Definition entity_of (x : Outcome) : AgentLoopEntity := x.1.2.
Definition answer_of (x : Outcome) : result AgentError (value * LoopFinishReason * nat) :=
  match x.2 with Ok (res, n) => Ok (content res, finish_reason res, n) | Err err => Err err end.
Definition outcome (o : option Outcome) : option (nat * ExecutionStatus * result AgentError (value * LoopFinishReason * nat)) :=
  (λ x, (calls_of x, status (agent_state (entity_of x)), answer_of x)) <$> o.

Lemma agent_run_settles_witness :
  outcome (execute_inner sample_attempts (λ _, quiet_boundary) false (sample_cfg 5) 1 30 (new_entity "a" 0)) =
    Some (3, SCompleted, Ok (VString "done", FCompleted, 2)) ∧
  ∀ calls e' r, execute_inner sample_attempts (λ _, quiet_boundary) false (sample_cfg 5) 1 30 (new_entity "a" 0) = Some (calls, e', r) →
    match r with
    | Ok _ => status (agent_state e') = SCompleted ∧ gate_permit e' = false
    | Err err =>
        status_is_terminal (status (agent_state e')) = true ∨
        agent_transition_allowed SCreated SRunning = false ∧ agent_state e' = new_agent_state 0 ∨
        Ok tt = Err err ∧ status (agent_state e') = SRunning ∨
        1000 < 5 ∧ status (agent_state e') = SRunning ∨
        status (agent_state e') = SPaused ∧ err = IllegalStateTransition "Paused -> Completed"
    end.
Proof.
  split; [vm_compute; reflexivity|]. intros calls e' r H.
  exact (agent_run_settles sample_attempts (λ _, quiet_boundary) false (sample_cfg 5) 1 30 (new_entity "a" 0) calls e' r H).
Defined.
Lemma agent_run_bounded_witness :
  calls_of <$> execute sample_attempts (λ _, quiet_boundary) false 5 None (new_entity "a" 0) = Some 3 ∧
  match execute sample_attempts (λ _, quiet_boundary) false 5 None (new_entity "a" 0) with
  | Some (calls, e', r) =>
      calls ≤ 17 ∧ keeps (new_entity "a" 0) e' ∧ (∀ res n, r = Ok (res, n) → should_continue res = false ∧ n ≤ 5)
  | None => suspended sample_attempts (λ _, quiet_boundary) false (Some default_retry_policy) 5 0 0 (arm_wall_clock None (new_entity "a" 0))
  end.
Proof.
  split; [vm_compute; reflexivity|].
  exact (agent_run_bounded sample_attempts (λ _, quiet_boundary) false 5 None (new_entity "a" 0)).
Defined.

(** A pause during the last iteration is met by no boundary: the run ends, the
    paused entity cannot be completed, and it stays paused with its permit.
    The results of the tools that had run are dropped: the conversation keeps
    the model's call without an answer. *)
Definition with_permit e : AgentLoopEntity :=
  {| loop_id := loop_id e; agent_state := agent_state e; interruption := interruption e; conversation := conversation e;
     cancelled := cancelled e; timeout_expired := timeout_expired e; max_pause_duration := max_pause_duration e;
     pause_timer := pause_timer e; wall_clock_timer := wall_clock_timer e; gate_permit := true;
     append_mode := append_mode e; steering_inputs := steering_inputs e; followup_inputs := followup_inputs e |}.
Definition paused_attempts (_ : nat) : Attempt := sample_attempt (Ok ("let me look", [read_call])) [EvPause 15].
Example pause_in_last_iteration :
  (λ x, (status (agent_state (entity_of x)), gate_permit (entity_of x), conversation (entity_of x), answer_of x)) <$>
    execute_inner paused_attempts (λ _, quiet_boundary) false (sample_cfg 1) 1 30 (with_permit (new_entity "a" 0)) =
  Some (SPaused, true, [Assistant "let me look" [read_call]], Err (IllegalStateTransition "Paused -> Completed")).
Proof. vm_compute. reflexivity. Qed.
(** A budget over the cap is refused after the loop was started, and nothing settles it. *)
Example over_cap_left_running :
  (λ x, (status (agent_state (entity_of x)), gate_permit (entity_of x))) <$>
    execute_inner sample_attempts (λ _, quiet_boundary) false (sample_cfg 1001) 1 30 (with_permit (new_entity "a" 0)) =
  Some (SRunning, true).
Proof. vm_compute. reflexivity. Qed.
(** So is a file scope that cannot be resolved. *)
Example refused_scope_left_running :
  (λ x, (status (agent_state (entity_of x)), gate_permit (entity_of x))) <$>
    execute_inner sample_attempts (λ _, quiet_boundary) false
      {| preparation := Err (AValidation "invalid execution file scope: escapes the workspace"); max_iterations := 5; max_iterations_cap := 1000; max_execution_time := None |}
      1 30 (with_permit (new_entity "a" 0)) =
  Some (SRunning, true).
Proof. vm_compute. reflexivity. Qed.
(** A follow-up taken up after the last iteration is never answered, and the
    answer the model had given is replaced. *)
Example followup_after_last_iteration :
  outcome (execute_inner (λ _, sample_attempt (Ok ("done", [])) []) (λ _, quiet_boundary) false (sample_cfg 1) 1 30
    (append_runtime_input None {| input_text := "and now?"; input_source := "api"; submitted_at := 5 |} (new_entity "a" 0))) =
  Some (1, SCompleted, Ok (VString "Max iterations reached", FMaxIterationsReached, 1)).
Proof. vm_compute. reflexivity. Qed.
(** The policy allows three retries, and the breaker trips on the third failure:
    an error that repeats is retried twice. *)
Example third_retry_never_granted :
  (λ x, (calls_of x, answer_of x)) <$> execute (λ _, sample_attempt (Err llm_timeout) []) (λ _, quiet_boundary) false 5 None (new_entity "a" 0) =
  Some (3, Err (ErrorPatternTripped "error type Timeout recurred 3 times (limit 3); stopping retries: LLM error: timeout")).
Proof. vm_compute. reflexivity. Qed.
(** A pause signal that follows a stop signal takes the stop back. *)
Example pause_signal_undoes_stop :
  execute sample_attempts (λ _, {| signals := [StopWorkflow "a"; PauseWorkflow "a"]; waits := [] |}) false 5 None (new_entity "a" 0) = None.
Proof. vm_compute. reflexivity. Qed.
(** A loop connected to a paused parent does not wait: it spends its budget on
    iterations that stop before the model is called. *)
Definition under_paused_parent e : AgentLoopEntity :=
  set_interruption (connect_to_parent (pause new_interruption).1 (interruption e)) false e.
Example paused_parent_burns_budget :
  (λ x, (calls_of x, conversation (entity_of x), answer_of x)) <$>
    execute sample_attempts (λ _, quiet_boundary) false 5 None (under_paused_parent (new_entity "a" 0)) =
  Some (5, [], Ok (VString "Max iterations reached", FMaxIterationsReached, 5)).
Proof. vm_compute. reflexivity. Qed.
