(* ===== verification/ForkJoin.v ===== *)
(** Fork: wf-workflow/src/barrier.rs, handler/fork_join/branch.rs and
    handler/fork_join/fork.rs.

    A fork registers its branches, runs them one after another or side by side,
    and hands their results to the JOIN through the registry and an internal
    variable.  What the scheduler decides (the order in which tasks finish and
    are joined, timeouts, cancellation) is an argument; the child coordinator of
    a branch is an interface.  Events are left out, and so are the estimate that
    reading a message context recomputes in the parent and the second
    registration of a branch by [derive_child]. *)

From S2P Require Import Prelude Strings Hierarchy Json Numbers Expression GraphTypes ErrorBranch LoopState VariableMapping MessageContext ForkRegistry ForkGraph Entity Coordinator.

(** * Results of branches *)

Record BranchFailed : Type := { failure_category : NodeErrorCategory; failure_detail : string }.
Record BranchResult : Type := {
  branch_id : string;
  success : bool;
  branch_output : value;
  failure : option BranchFailed;
  branch_variables : option Vars;
  message_contexts : option Vars;
  message_histories : option Vars;
}.
Definition succeed (id : string) (output : value) : BranchResult :=
  {| branch_id := id; success := true; branch_output := output; failure := None; branch_variables := None;
     message_contexts := None; message_histories := None |}.
Definition success_with_variables (id : string) (output : value) (vs : Vars) : BranchResult :=
  {| branch_id := id; success := true; branch_output := output; failure := None; branch_variables := Some vs;
     message_contexts := None; message_histories := None |}.
Definition with_message_contexts (contexts histories : Vars) (r : BranchResult) : BranchResult :=
  {| branch_id := branch_id r; success := success r; branch_output := branch_output r; failure := failure r;
     branch_variables := branch_variables r;
     message_contexts := if decide (contexts = ∅) then None else Some contexts;
     message_histories := if decide (histories = ∅) then None else Some histories |}.
Definition fail_with (category : NodeErrorCategory) (id detail : string) : BranchResult :=
  {| branch_id := id; success := false; branch_output := VNull;
     failure := Some {| failure_category := category; failure_detail := detail |};
     branch_variables := None; message_contexts := None; message_histories := None |}.
(** [BranchResult::failure]; [with_category] is [fail_with]. *)
Definition fail_branch : string → string → BranchResult := fail_with BusinessFailure.
Definition error_message (r : BranchResult) : option string := failure_detail <$> failure r.
Definition error_category (r : BranchResult) : option NodeErrorCategory := failure_category <$> failure r.

(** The derived text forms; absent optional fields are left out. *)
Definition category_from (s : string) : option NodeErrorCategory :=
  find (λ c, bool_decide (category_str c = s))
    [TransportTimeout; BusinessFailure; CancelledInterrupted; CompressionFailure; Resource].
Definition failure_to_value (f : BranchFailed) : value :=
  VObject [("category", VString (category_str (failure_category f))); ("detail", VString (failure_detail f))].
Definition failure_from_value (v : value) : option BranchFailed :=
  category ← (get v "category" ≫= as_str) ≫= category_from;
  detail ← get v "detail" ≫= as_str;
  Some {| failure_category := category; failure_detail := detail |}.
Definition optional {A} (key : string) (f : A → value) (o : option A) : list (string * value) :=
  match o with Some a => [(key, f a)] | None => [] end.
Definition optional_from {A} (f : value → option A) (o : option value) : option (option A) :=
  match o with None | Some VNull => Some None | Some v => Some <$> f v end.
Definition result_to_value (r : BranchResult) : value :=
  VObject ([("branch_id", VString (branch_id r))]
    ++ optional "failure" failure_to_value (failure r)
    ++ optional "message_contexts" object_of (message_contexts r)
    ++ optional "message_histories" object_of (message_histories r)
    ++ [("output", branch_output r); ("success", VBool (success r))]
    ++ optional "variables" object_of (branch_variables r)).
Definition result_from_value (v : value) : option BranchResult :=
  id ← get v "branch_id" ≫= as_str;
  ok ← get v "success" ≫= as_bool;
  out ← get v "output";
  failed ← optional_from failure_from_value (get v "failure");
  vars ← optional_from as_map (get v "variables");
  contexts ← optional_from as_map (get v "message_contexts");
  histories ← optional_from as_map (get v "message_histories");
  Some {| branch_id := id; success := ok; branch_output := out; failure := failed; branch_variables := vars;
          message_contexts := contexts; message_histories := histories |}.

(** [FailureStrategy] and its [evaluate] *)
Inductive FailureStrategy : Type := FailFast | ContinueOnError | FailOnThreshold (threshold : f64).
Inductive ForkOutcome : Type := Succeeded | OutcomeFailed | Partial | Detached.
Definition is_failure (r : BranchResult) : bool := negb (success r).
Definition evaluate_strategy (s : FailureStrategy) (results : list BranchResult) : ForkOutcome :=
  let total := List.length results in
  let failures := List.length (filter (λ r, is_failure r = true) results) in
  let partial := if decide (0 < failures) then Partial else Succeeded in
  match s with
  | FailFast => if decide (0 < failures) then OutcomeFailed else Succeeded
  | ContinueOnError => partial
  | FailOnThreshold threshold =>
      if decide (total = 0) then Succeeded
      else
        let rate := f64_div (f64_of_Z (Z.of_nat failures)) (f64_of_Z (Z.of_nat total)) in
        if decide (f64_compare rate threshold = Some Gt) then OutcomeFailed else partial
  end.
Definition outcome_name (o : ForkOutcome) : string :=
  match o with Succeeded => "Succeeded" | OutcomeFailed => "Failed" | Partial => "Partial" | Detached => "Detached" end.

(** * The configuration of a fork *)

Record ForkConfig : Type := {
  paths : list value;
  failure_strategy : FailureStrategy;
  serial : bool;
  child_execution_timeout : Z;
  total_branch_timeout : Z;
  wait_for_completion : bool;
  message_inputs : option value;
}.
Definition str_of (config : value) (key : string) : option string := get config key ≫= as_str.
Definition u64_of (config : value) (key : string) : option Z := get config key ≫= as_u64.
Definition parse_failure_strategy (config : value) : FailureStrategy :=
  match str_of config "failure_strategy" with
  | Some s =>
      if decide (s = "continue_on_error") then ContinueOnError
      else if decide (s = "fail_on_threshold")
      then FailOnThreshold (default (f64_div (f64_of_Z 1) (f64_of_Z 2)) (get config "failure_threshold" ≫= as_f64))
      else FailFast
  | None => FailFast
  end.
(** [parse_fork_config] *)
Definition parse_fork_config (node_config : option value) : result WorkflowError ForkConfig :=
  let config := default VNull node_config in
  match default [] (get config "fork_paths" ≫= as_array) with
  | [] => Err (ForkJoinError "No fork_paths defined for fork node")
  | ps =>
      Ok {| paths := ps;
            failure_strategy := parse_failure_strategy config;
            serial := bool_decide (default "parallel" (str_of config "fork_strategy") = "serial");
            child_execution_timeout := default 0%Z (u64_of config "child_execution_timeout");
            total_branch_timeout := default 0%Z (u64_of config "total_branch_timeout");
            wait_for_completion := default true (get config "wait_for_completion" ≫= as_bool);
            message_inputs := get config "message_inputs" |}
  end.
(** [path_id_of] *)
Definition path_id_of (path : value) : string := default "path" (str_of path "path_id").

(** * Running a branch *)

Class BranchRunner : Type := {
  (** A new child coordinator on the branch's part of the graph, with the
      identity, input and variables of the branch: its result and what its
      variables are then. *)
  run_child : string → value → WorkflowGraphStructure → Vars → result WorkflowError value * Vars;
  (** The text of a [CoreError], and of what a task panicked with. *)
  core_error_text : HierarchyError → string;
  panic_text : nat → string;
}.

(** What a fork gives to each of its branches. *)
Record BranchContext : Type := {
  graph : option WorkflowGraphStructure;
  fork_node : string;
  join_node_id : option string;
  branch_input : value;
  child_timeout : Z;
  parent_manager : HierarchyInner;
  parent_variables : Vars;
  fork_message_inputs : option value;
  created : Z;
}.

Section fork.
  Context {Message : Type} `{Serde Message, Serde TokenLedger} (message_id : Message → string)
    (estimate_messages : list Message → Z).
  Context `{Env : Environment, Runner : BranchRunner}.

(** The variables a branch starts with. *)
Definition branch_scope (ctx : BranchContext) : result WorkflowError Vars :=
  let parent := parent_variables ctx in
  vars ← match fork_message_inputs ctx with
         | Some mappings =>
             match seed_message_inputs message_id estimate_messages mappings ("FORK node '" +:+ fork_node ctx +:+ "'")
                     parent (inherit_all_variables parent ∅) with
             | (_, child, _, Ok _) => Ok child
             | (_, Err e) => Err (ForkJoinError e)
             end
         | None => Ok (inherit_all_variables parent ∅)
         end;
  Ok (match parent !! LOOP_MAX_ITERATIONS_CAP_KEY with
      | Some cap => <[LOOP_MAX_ITERATIONS_CAP_KEY := cap]> vars
      | None => vars
      end).
Definition public_variables (vars : Vars) : Vars := filter (λ kv, is_internal_variable kv.1 = false) vars.

(** [execute_branch]; [cancelled]: the parent's token strikes before the branch
    ends. *)
Definition execute_branch (ctx : BranchContext) (execution id : string) (sub : WorkflowGraphStructure)
    (cancelled : bool) : result WorkflowError BranchResult :=
  match derive_child (parent_manager ctx) execution Workflow
          (Some {| fork_node_id := fork_node ctx; branch_path_id := id |}) (created ctx) with
  | Err e => Err (ForkJoinError (core_error_text e))
  | Ok _ =>
      vars ← branch_scope ctx;
      let run := run_child execution (branch_input ctx) sub vars in
      let ended := if cancelled then Err (NodeFailure id CancelledInterrupted "fork branch cancelled by parent" Handler)
                   else run.1 in
      match ended with
      | Ok output =>
          let messages := snapshot_branch_messages run.2 in
          Ok (with_message_contexts messages.1 messages.2 (success_with_variables id output (public_variables run.2)))
      | Err e => Ok (fail_with (classify_error shared_error_type e) id (error_text e))
      end
  end.

(** [run_branch_inner] *)
Definition choose_edge (g : WorkflowGraphStructure) (ctx : BranchContext) (idx : nat) (path : value) : option WorkflowEdge :=
  let outgoing := branch_edges g (fork_node ctx) in
  let child := default "" (str_of path "child_node_id") in
  match list_find (λ e, label e = Some (path_id_of path) ∨ target_node_id e = child) outgoing with
  | Some (_, e) => Some e
  | None => match outgoing !! idx with Some e => Some e | None => head outgoing end
  end.
Definition run_branch_inner (ctx : BranchContext) (idx : nat) (path : value) (execution : string) (cancelled : bool) :
    BranchResult :=
  let id := path_id_of path in
  let sub := g ← graph ctx;
             edge ← choose_edge g ctx idx path;
             sub ← extract_branch_subgraph g edge (default "" (join_node_id ctx));
             if decide (nodes sub = []) then None else Some sub in
  match sub with
  | None => succeed id (branch_input ctx)
  | Some sub =>
      match execute_branch ctx execution id sub cancelled with
      | Ok r => r
      | Err e => fail_with (classify_error shared_error_type e) id (error_text e)
      end
  end.

(** What the scheduler does to a branch. *)
Record branch_fate : Type := { times_out : bool; is_cancelled : bool }.
(** [run_branch]: the result, which a positive timeout bounds, and its
    settlement in the registry. *)
Definition branch_result (ctx : BranchContext) (idx : nat) (branch : value * string) (fate : branch_fate) : BranchResult :=
  let id := path_id_of branch.1 in
  if bool_decide (0 < child_timeout ctx)%Z && times_out fate then
    fail_with TransportTimeout id
      ("fork branch '" +:+ id +:+ "' exceeded child_execution_timeout (" +:+ show_int (child_timeout ctx) +:+ "ms)")
  else run_branch_inner ctx idx branch.1 branch.2 (is_cancelled fate).
Definition settle_branch (r : BranchResult) (path : string) : ForkRegistry → ForkRegistry :=
  settle_with_messages path (success r) (branch_output r) (error_message r) (branch_variables r)
    (message_contexts r) (message_histories r).
End fork.

Lemma branch_result_id {Message} `{Serde Message, Serde TokenLedger, Env : Environment, Runner : BranchRunner}
    (message_id : Message → string) (estimate : list Message → Z) ctx idx branch fate :
  branch_id (branch_result message_id estimate ctx idx branch fate) = path_id_of branch.1.
Proof.
  unfold branch_result. case_match; [done|]. unfold run_branch_inner. cbv zeta.
  destruct (graph ctx ≫= _) as [sub|]; [|done]. destruct (execute_branch _ _ _ _ _ _ _) as [r|e] eqn:He; [|done].
  unfold execute_branch in He. destruct (derive_child _ _ _ _ _); [|done].
  destruct (branch_scope _ _ _) as [vars|]; [|done]. cbn in He. destruct (if is_cancelled fate then _ else _); naive_solver.
Qed.

(** * Running the branches

    [run] is [branch_result] at the fate of each branch. *)

Section strategies.
  Context (run : nat → value * string → BranchResult) (fail_fast : bool).

(** [run_serial]; [is_cancelled idx]: the token is cancelled after the branch
    [idx]. *)
Definition skip_branches (skipped : list (value * string)) (reg : ForkRegistry) : list BranchResult * ForkRegistry :=
  ((λ b, fail_with CancelledInterrupted (path_id_of b.1) "fork branch skipped after fail_fast") <$> skipped,
   foldl (λ reg b, cancel (path_id_of b.1) reg) reg skipped).
Fixpoint run_serial (token : nat → bool) (idx : nat) (branches : list (value * string)) (reg : ForkRegistry) :
    list BranchResult * ForkRegistry :=
  match branches with
  | [] => ([], reg)
  | b :: rest =>
      let r := run idx b in
      let reg := settle_branch r (path_id_of b.1) reg in
      if token idx then ([r], reg)
      else
        let p := if fail_fast && is_failure r then skip_branches rest reg else run_serial token (S idx) rest reg in
        (r :: p.1, p.2)
  end.

(** [run_parallel] as a machine: tasks finish (settling their branch) or panic,
    and are then joined; with a join goes whether the token is cancelled by
    then.  The total timeout can strike at any time. *)
Inductive task : Type := TaskRunning | TaskFinished | TaskPanicked | TaskJoined (panicked : bool).
Inductive fork_event : Type := EFinish (idx : nat) | EPanic (idx : nat) | EJoin (idx : nat) (is_cancelled : bool) | ETimeout.
Record fork_state : Type := {
  tasks : list task;
  results : list BranchResult;
  fork_registry : ForkRegistry;
  (** [abort_detail] *)
  stopped : option string;
}.
Definition set_task (idx : nat) (t : task) (s : fork_state) : fork_state :=
  {| tasks := <[idx := t]> (tasks s); results := results s; fork_registry := fork_registry s; stopped := stopped s |}.
Definition push_result (r : BranchResult) (stop : option string) (s : fork_state) : fork_state :=
  {| tasks := tasks s; results := results s ++ [r]; fork_registry := fork_registry s; stopped := stop |}.
Definition stop_with (detail : string) (s : fork_state) : fork_state :=
  {| tasks := tasks s; results := results s; fork_registry := fork_registry s; stopped := Some detail |}.

Context `{Runner : BranchRunner} (total_branch_timeout : Z).
(** One event; [None]: it cannot happen. *)
Definition fork_step (branches : list (value * string)) (s : fork_state) (e : fork_event) : option fork_state :=
  match stopped s, e with
  | Some _, _ => None
  | None, EFinish idx =>
      match tasks s !! idx, branches !! idx with
      | Some TaskRunning, Some b =>
          Some {| tasks := <[idx := TaskFinished]> (tasks s); results := results s; stopped := None;
                  fork_registry := settle_branch (run idx b) (path_id_of b.1) (fork_registry s) |}
      | _, _ => None
      end
  | None, EPanic idx =>
      match tasks s !! idx with Some TaskRunning => Some (set_task idx TaskPanicked s) | _ => None end
  | None, EJoin idx is_cancelled =>
      match tasks s !! idx, branches !! idx with
      | Some TaskFinished, Some b =>
          let s := set_task idx (TaskJoined false) s in
          if is_cancelled then Some (stop_with "fork branch cancelled by parent" s)
          else
            let r := run idx b in
            Some (push_result r (if fail_fast && is_failure r then Some "fork branch aborted after fail_fast" else None) s)
      | Some TaskPanicked, _ =>
          let s := set_task idx (TaskJoined true) s in
          if is_cancelled then Some (stop_with "fork branch cancelled by parent" s)
          else Some (push_result (fail_branch "branch" ("fork branch panicked: " +:+ panic_text idx)) None s)
      | _, _ => None
      end
  | None, ETimeout =>
      if decide (0 < total_branch_timeout)%Z
      then Some (stop_with "fork branch aborted after total_branch_timeout" s) else None
  end.
Definition fork_start (branches : list (value * string)) (reg : ForkRegistry) : fork_state :=
  {| tasks := replicate (List.length branches) TaskRunning; results := []; fork_registry := reg; stopped := None |}.
Fixpoint fork_run (branches : list (value * string)) (s : fork_state) (trace : list fork_event) : option fork_state :=
  match trace with [] => Some s | e :: trace' => s' ← fork_step branches s e; fork_run branches s' trace' end.
Definition joined (t : task) : bool := match t with TaskJoined _ => true | _ => false end.
(** With a total timeout the loop selects between the next task, when there is one,
    and the deadline: once every task is joined only the deadline ends it. *)
Definition fork_done (s : fork_state) : bool :=
  bool_decide (is_Some (stopped s)) || (forallb joined (tasks s) && bool_decide (total_branch_timeout ≤ 0)%Z).
Definition fill_missing_results (branches : list (value * string)) (rs : list BranchResult) (detail : string) :
    list BranchResult :=
  rs ++ ((λ b, fail_with CancelledInterrupted (path_id_of b.1) detail) <$>
         filter (λ b, path_id_of b.1 ∉ branch_id <$> rs) branches).
Definition conclude (branches : list (value * string)) (s : fork_state) : list BranchResult * ForkRegistry :=
  match stopped s with
  | Some detail => (fill_missing_results branches (results s) detail, abort_all (fork_registry s))
  | None => (results s, fork_registry s)
  end.
(** [None]: the trace is not one of a whole run. *)
Definition run_parallel (branches : list (value * string)) (trace : list fork_event) (reg : ForkRegistry) :
    option (list BranchResult * ForkRegistry) :=
  s ← fork_run branches (fork_start branches reg) trace;
  if fork_done s then Some (conclude branches s) else None.
End strategies.

(** [spawn_non_blocking]: the handles are stored; a task settles its branch, a
    panicked one as well. *)
Definition spawn_non_blocking (branches : list (value * string)) (reg : ForkRegistry) : ForkRegistry :=
  foldl (λ reg b, register_handle (path_id_of b.1) reg) reg branches.
Definition detached_task `{Runner : BranchRunner} (run : nat → value * string → BranchResult) (panics : bool) (idx : nat)
    (b : value * string) (reg : ForkRegistry) : ForkRegistry :=
  let id := path_id_of b.1 in
  let r := if panics then fail_branch id ("fork branch panicked: " +:+ panic_text idx) else run idx b in
  let reg := if panics then reg else settle_branch r id reg in
  settle id (success r) (branch_output r) (error_message r) None reg.

(** * The handler *)

(** [fork_output_key] *)
Definition fork_output_key (fork_id : string) : string := "__fork_outputs_" +:+ fork_id.

(** What the handler reads, beyond the context of its node, and what it
    changes. *)
Record ForkEnvironment : Type := {
  fork_execution_id : string;
  fork_clock : Z;
  (** the identifier generated for the branch of each path *)
  fresh_id : nat → string;
  resolve_handlers : result WorkflowError ();
  (** the order in which a hash set of common nodes is searched *)
  set_order : list string → list string;
  fates : nat → branch_fate;
  token : nat → bool;
  trace : list fork_event;
}.
Record ForkScope : Type := {
  scope_registry : option ForkRegistry;
  scope_manager : option HierarchyInner;
  scope_variables : Vars;
}.
Definition register_branches (branches : list (value * string)) (reg : ForkRegistry) : ForkRegistry :=
  foldl (λ reg b, register (path_id_of b.1) b.2 reg) reg branches.
Definition register_children (node : string) (now : Z) (branches : list (value * string)) (m : HierarchyInner) :
    HierarchyInner :=
  foldl (λ m b, add_child m {| child_type := Workflow; child_id := b.2; created_at := now;
    child_fork_path := Some {| fork_node_id := node; branch_path_id := path_id_of b.1 |} |}) m branches.

Section handler.
  Context {Message : Type} `{Serde Message, Serde TokenLedger} (message_id : Message → string)
    (estimate_messages : list Message → Z).
  Context `{Env : Environment, Runner : BranchRunner}.

(** The results of the branches; [None]: [trace] is not one of a whole run. *)
Definition run_branches (cfg : ForkConfig) (ctx : BranchContext) (env : ForkEnvironment) (branches : list (value * string))
    (reg : ForkRegistry) : option (list BranchResult * ForkRegistry) :=
  let run idx b := branch_result message_id estimate_messages ctx idx b (fates env idx) in
  let fail_fast := match failure_strategy cfg with FailFast => true | _ => false end in
  if serial cfg then Some (run_serial run fail_fast (token env) 0 branches reg)
  else if negb (wait_for_completion cfg) then Some ([], spawn_non_blocking branches reg)
  else run_parallel run fail_fast (total_branch_timeout cfg) branches (trace env) reg.

Definition failure_line (r : BranchResult) : string :=
  branch_id r +:+ "[" +:+ default "business_failure" (category_str <$> error_category r) +:+ "]: "
    +:+ default "" (error_message r).
Definition fork_failures (rs : list BranchResult) : string :=
  String.concat "; " (failure_line <$> filter (λ r, is_failure r = true) rs).
Definition legacy_output (r : BranchResult) : value :=
  VObject [("branch_id", VString (branch_id r)); ("output", branch_output r); ("success", VBool (success r))].
Definition fork_output (rs : list BranchResult) (o : ForkOutcome) : value :=
  VObject [("outcome", VString (outcome_name o)); ("outputs", VArray (legacy_output <$> rs));
           ("results", VArray (result_to_value <$> rs))].
Definition successes (rs : list BranchResult) : nat := List.length (filter (λ r, success r = true) rs).
Definition fork_metadata (cfg : ForkConfig) (rs : list BranchResult) (o : ForkOutcome) : gmap string value :=
  <["branch_count" := VNumber (PosInt (Z.of_nat (List.length (paths cfg))))]>
  (<["success_count" := VNumber (PosInt (Z.of_nat (successes rs)))]>
   {["outcome" := VString (outcome_name o)]}).

(** What follows the branches. *)
Definition fork_finish (cfg : ForkConfig) (node : string) (join : option string) (rs : list BranchResult) (vars : Vars) :
    Vars * result WorkflowError NodeExecutionResult :=
  let o := if serial cfg || wait_for_completion cfg then evaluate_strategy (failure_strategy cfg) rs else Detached in
  match o with
  | OutcomeFailed => (vars, Err (ForkJoinError ("fork '" +:+ node +:+ "' failed: " +:+ fork_failures rs)))
  | _ =>
      (<[fork_output_key node := fork_output rs o]> vars,
       Ok {| output := fork_output rs o; next_node_ids := option_list join; metadata := fork_metadata cfg rs o |})
  end.

(** [ForkHandler::execute] *)
Definition fork_execute (node : NodeExecutionContext) (env : ForkEnvironment) (s : ForkScope) :
    option (ForkScope * result WorkflowError NodeExecutionResult) :=
  let id := ctx_node_id node in
  match (cfg ← parse_fork_config (node_config node); _ ← resolve_handlers env; Ok cfg) with
  | Err e => Some (s, Err e)
  | Ok cfg =>
      let join := g ← graph_structure node; find_join_node (set_order env) g id in
      let branches := imap (λ i p, (p, fresh_id env i)) (paths cfg) in
      let registered := register_branches branches <$> scope_registry s in
      match scope_manager s with
      | None =>
          Some ({| scope_registry := registered; scope_manager := None; scope_variables := scope_variables s |},
                Err (ForkJoinError "fork requires a parent hierarchy manager"))
      | Some manager =>
          let manager := register_children id (fork_clock env) branches manager in
          let ctx := {| graph := graph_structure node; fork_node := id; join_node_id := join;
                        branch_input := ctx_input node; child_timeout := child_execution_timeout cfg;
                        parent_manager := manager; parent_variables := scope_variables s;
                        fork_message_inputs := message_inputs cfg; created := fork_clock env |} in
          p ← run_branches cfg ctx env branches (default new_registry registered);
          let (vars, r) := fork_finish cfg id join p.1 (scope_variables s) in
          Some ({| scope_registry := (λ _, p.2) <$> registered; scope_manager := Some manager;
                   scope_variables := vars |}, r)
      end
  end.
End handler.

(** * Every branch ends with a result *)

Section results.
  Context (run : nat → value * string → BranchResult)
    (Hid : ∀ idx b, branch_id (run idx b) = path_id_of b.1).

Definition path_ids_of (branches : list (value * string)) : list string := (λ b, path_id_of b.1) <$> branches.
Lemma settle_branch_op r path reg :
  settle_branch r path reg = apply_op (OSettle path (success r) (branch_output r) (error_message r) (branch_variables r)
    (message_contexts r) (message_histories r)) reg.
Proof. done. Qed.
Lemma settled_by_settle path ok out err vs cs hs reg :
  path_settled (apply_op (OSettle path ok out err vs cs hs) reg) path = true.
Proof.
  unfold path_settled, get_record. cbn [apply_op]. unfold settle_with_messages, with_records. cbn [records_of].
  case_decide as Hs; rewrite lookup_insert_eq; [by apply bool_decide_eq_true|by destruct ok].
Qed.
Lemma settled_by_cancel path reg : path_settled (cancel path reg) path = true.
Proof.
  unfold path_settled, get_record, cancel, with_records, cancelled. cbn [records_of]. rewrite lookup_insert_eq.
  case_decide as Hs; [by apply bool_decide_eq_true|done].
Qed.
Lemma settled_by_abort path reg : is_Some (get_record path reg) → path_settled (abort_all reg) path = true.
Proof.
  unfold path_settled, get_record, abort_all. cbn [records_of]. rewrite lookup_fmap. intros [rec ->]. cbn.
  unfold cancelled. case_decide as Hs; [by apply bool_decide_eq_true|done].
Qed.
Lemma op_other reg path path' :
  path ≠ path' → get_record path' (apply_op (OCancel path) reg) = get_record path' reg ∧
  ∀ ok out err vs cs hs, get_record path' (apply_op (OSettle path ok out err vs cs hs) reg) = get_record path' reg.
Proof.
  intros Hne. unfold get_record. cbn [apply_op]. unfold cancel, settle_with_messages, with_records. cbn [records_of].
  split; [by rewrite lookup_insert_ne|]. intros. case_decide; by rewrite !lookup_insert_ne.
Qed.
Lemma skip_settles l reg :
  (∀ b, b ∈ l → path_settled (skip_branches l reg).2 (path_id_of b.1) = true) ∧
  ∀ x, path_settled reg x = true → path_settled (skip_branches l reg).2 x = true.
Proof.
  unfold skip_branches. cbn [snd]. revert reg. induction l as [|b l IH]; intros reg; [by split; [set_solver|]|].
  cbn [foldl]. destruct (IH (cancel (path_id_of b.1) reg)) as [Hl Hx]. split.
  - intros b' [->|Hb]%elem_of_cons; [apply Hx, settled_by_cancel|by apply Hl].
  - intros x Hs. by apply Hx, (path_settled_op (OCancel (path_id_of b.1))).
Qed.

(** A serial fork that is not cancelled ends with one result per path, in the order of the
    paths, and with every branch settled, whether or not it stops at the first failure. *)
Theorem serial_results_complete (fail_fast : bool) (token : nat → bool) (branches : list (value * string))
    (reg : ForkRegistry) (Htoken : ∀ idx, token idx = false) :
  let (rs, reg') := run_serial run fail_fast token 0 branches reg in
  branch_id <$> rs = path_ids_of branches ∧
  ∀ b, b ∈ branches → path_settled reg' (path_id_of b.1) = true.
Proof.
  assert (∀ idx reg, let (rs, reg') := run_serial run fail_fast token idx branches reg in
    branch_id <$> rs = path_ids_of branches ∧
    (∀ b, b ∈ branches → path_settled reg' (path_id_of b.1) = true) ∧
    ∀ x, path_settled reg x = true → path_settled reg' x = true) as Hgen.
  { clear reg. induction branches as [|b l IH]; intros idx reg; [split; [done|split; [set_solver|done]]|].
    cbn [run_serial]. rewrite Htoken. set (reg1 := settle_branch _ _ _).
    assert (path_settled reg1 (path_id_of b.1) = true) as Hb by (unfold reg1; rewrite settle_branch_op; apply settled_by_settle).
    assert (∀ x, path_settled reg x = true → path_settled reg1 x = true) as Hmono.
    { intros x Hx. unfold reg1. rewrite settle_branch_op. by apply path_settled_op. }
    destruct (fail_fast && is_failure (run idx b)).
    - destruct (skip_settles l reg1) as [Hl Hx]. split; [|split; [|auto]].
      + unfold skip_branches, path_ids_of. cbn [fst fmap list_fmap]. f_equal; [apply Hid|].
        rewrite <-list_fmap_compose. by apply list_fmap_ext.
      + intros b' [->|Hb']%elem_of_cons; [by apply Hx|by apply Hl].
    - specialize (IH (S idx) reg1). destruct (run_serial run fail_fast token (S idx) l reg1) as [rs reg'].
      destruct IH as (Hrs & Hl & Hx). cbn [fst snd]. split; [|split; [|auto]].
      + unfold path_ids_of in *. cbn [fmap list_fmap]. by rewrite Hid, <-Hrs.
      + intros b' [->|Hb']%elem_of_cons; [by apply Hx|by apply Hl]. }
  specialize (Hgen 0 reg). destruct (run_serial run fail_fast token 0 branches reg) as [rs reg']. tauto.
Qed.

(** ** Side by side *)

Context `{Runner : BranchRunner} (fail_fast : bool) (total_timeout : Z) (branches : list (value * string)).
Notation step := (fork_step run fail_fast total_timeout branches).
Notation steps := (fork_run run fail_fast total_timeout branches).

(** What is left to happen. *)
Definition task_work (t : task) : nat := match t with TaskRunning => 2 | TaskFinished | TaskPanicked => 1 | TaskJoined _ => 0 end.
Definition work_left (s : fork_state) : nat :=
  sum_list (task_work <$> tasks s) + match stopped s with None => 1 | Some _ => 0 end.
Lemma work_insert (l : list task) i t t' :
  l !! i = Some t → sum_list (task_work <$> <[i := t']> l) + task_work t = sum_list (task_work <$> l) + task_work t'.
Proof.
  revert i. induction l as [|x l IH]; intros [|i] Hi; simplify_eq/=; [lia|]. specialize (IH i Hi). lia.
Qed.
(** The events by the task they change. *)
Inductive step_spec (s : fork_state) : fork_event → fork_state → Prop :=
| finish_spec i b reg : tasks s !! i = Some TaskRunning → branches !! i = Some b →
    reg = settle_branch (run i b) (path_id_of b.1) (fork_registry s) →
    step_spec s (EFinish i)
      {| tasks := <[i := TaskFinished]> (tasks s); results := results s; stopped := None; fork_registry := reg |}
| panic_spec i : tasks s !! i = Some TaskRunning →
    step_spec s (EPanic i)
      {| tasks := <[i := TaskPanicked]> (tasks s); results := results s; stopped := None; fork_registry := fork_registry s |}
| join_spec i c b rs stop : tasks s !! i = Some TaskFinished → branches !! i = Some b →
    rs = results s ++ [run i b] ∨ rs = results s ∧ is_Some stop →
    step_spec s (EJoin i c)
      {| tasks := <[i := TaskJoined false]> (tasks s); results := rs; stopped := stop; fork_registry := fork_registry s |}
| join_panic_spec i c rs stop : tasks s !! i = Some TaskPanicked →
    step_spec s (EJoin i c)
      {| tasks := <[i := TaskJoined true]> (tasks s); results := rs; stopped := stop; fork_registry := fork_registry s |}
| timeout_spec detail :
    step_spec s ETimeout
      {| tasks := tasks s; results := results s; stopped := Some detail; fork_registry := fork_registry s |}.
Lemma step_inv s e s' : step s e = Some s' → stopped s = None ∧ step_spec s e s'.
Proof.
  unfold fork_step. destruct (stopped s) eqn:Hst; [done|]. split; [done|].
  destruct e as [i|i|i c|]; repeat case_match; simplify_eq/=; try done.
  all: unfold set_task, push_result, stop_with; cbn; rewrite ?Hst.
  all: try (by econstructor; eauto).
Qed.

Definition panicked (t : task) : bool := match t with TaskPanicked | TaskJoined true => true | _ => false end.
Definition settled_task (t : task) : bool := match t with TaskFinished | TaskJoined false => true | _ => false end.
Record fork_inv (s : fork_state) : Prop := {
  inv_length : List.length (tasks s) = List.length branches;
  inv_registered i b : branches !! i = Some b → is_Some (get_record (path_id_of b.1) (fork_registry s));
  inv_settled i b t : branches !! i = Some b → tasks s !! i = Some t → settled_task t = true →
    path_settled (fork_registry s) (path_id_of b.1) = true;
}.
Lemma registered_op op reg path : is_Some (get_record path reg) → is_Some (get_record path (apply_op op reg)).
Proof.
  unfold get_record. intros [rec Hr]. destruct op as [p i|p vs|p cs hs|p ok out err vs cs hs|p|p|]; cbn [apply_op].
  1-6: unfold register, update_variables, update_message_contexts, settle_with_messages, cancel, register_handle,
         with_records; cbn [records_of]; destruct (decide (p = path)) as [->|];
       rewrite ?lookup_insert_eq, ?lookup_alter_eq, ?lookup_insert_ne, ?lookup_alter_ne, ?Hr by done; eauto.
  1-2: case_decide; rewrite ?lookup_insert_eq, ?lookup_insert_ne, ?Hr by done; eauto.
  unfold abort_all. cbn. rewrite lookup_fmap, Hr. eauto.
Qed.
Lemma step_fork_inv s e s' : step s e = Some s' → fork_inv s → fork_inv s'.
Proof.
  intros [_ Hs]%step_inv [Hlen Hreg Hset].
  assert (Hother : ∀ i t' reg, settled_task t' = true → (∀ x, path_settled (fork_registry s) x = true → path_settled reg x = true) →
    (∀ b, branches !! i = Some b → path_settled reg (path_id_of b.1) = true) →
    ∀ j b t, branches !! j = Some b → <[i := t']> (tasks s) !! j = Some t → settled_task t = true →
      path_settled reg (path_id_of b.1) = true).
  { intros i t' reg _ Hmono Hi j b t Hb Ht Hst. destruct (decide (i = j)) as [->|]; [by apply Hi|].
    rewrite list_lookup_insert_ne in Ht by done. eauto. }
  destruct Hs; split; cbn; rewrite ?length_insert; try done.
  - intros j b' Hb. subst reg. rewrite settle_branch_op. by eapply registered_op, Hreg.
  - apply (Hother i TaskFinished); [done| |]; subst reg; rewrite settle_branch_op.
    + intros x. apply path_settled_op.
    + intros b' Hb'. simplify_eq. apply settled_by_settle.
  - intros j b t Hb Ht Hst. destruct (decide (i = j)) as [->|].
    + apply list_lookup_insert_Some in Ht as [(_ & <- & _)|[? _]]; done.
    + rewrite list_lookup_insert_ne in Ht by done. eauto.
  - apply (Hother i (TaskJoined false)); [done..|]. intros b' Hb'. simplify_eq. by eapply Hset.
  - intros j b t Hb Ht Hst. destruct (decide (i = j)) as [->|].
    + apply list_lookup_insert_Some in Ht as [(_ & <- & _)|[? _]]; done.
    + rewrite list_lookup_insert_ne in Ht by done. eauto.
Qed.
Lemma steps_panicked trace s s' i t :
  steps s trace = Some s' → tasks s' !! i = Some t → panicked t = true →
  EPanic i ∈ trace ∨ ∃ t0, tasks s !! i = Some t0 ∧ panicked t0 = true.
Proof.
  revert s. induction trace as [|e trace IH]; intros s Hrun Ht Hp; [simplify_eq/=; eauto|].
  cbn [fork_run] in Hrun. destruct (step s e) as [s1|] eqn:He; [|done]. cbn in Hrun.
  destruct (IH s1 Hrun Ht Hp) as [Hin|(t1 & Ht1 & Hp1)]; [left; by right|].
  apply step_inv in He as [_ He]. destruct He as [j b reg Hj|j Hj|j c b rs stop Hj|j c rs stop Hj|]; cbn in Ht1.
  1-4: destruct (decide (j = i)) as [->|]; [|rewrite list_lookup_insert_ne in Ht1 by done; eauto].
  1-4: apply list_lookup_insert_Some in Ht1 as [(_ & <- & _)|[? _]]; try done.
  - left. by left.
  - right. eauto.
  - eauto.
Qed.
Lemma steps_keep (P : fork_state → Prop) (E : fork_event → Prop) trace s s' :
  (∀ s e s', step s e = Some s' → E e → P s → P s') → Forall E trace → steps s trace = Some s' → P s → P s'.
Proof.
  intros Hstep. revert s. induction trace as [|e trace IH]; intros s HE Hrun HP; [by simplify_eq/=|].
  apply Forall_cons in HE as [He HE]. cbn [fork_run] in Hrun. destruct (step s e) as [s1|] eqn:Hs; [|done]. eauto.
Qed.

(** The results of a run in which nothing panics. *)
Definition is_panic (e : fork_event) : Prop := match e with EPanic _ => True | _ => False end.
Record results_inv (s : fork_state) : Prop := {
  res_calm i t : tasks s !! i = Some t → panicked t = false;
  res_nodup : NoDup (branch_id <$> results s);
  res_joined x : x ∈ branch_id <$> results s →
    ∃ i b, branches !! i = Some b ∧ tasks s !! i = Some (TaskJoined false) ∧ x = path_id_of b.1;
  res_complete i b : stopped s = None → branches !! i = Some b → tasks s !! i = Some (TaskJoined false) →
    path_id_of b.1 ∈ branch_id <$> results s;
}.
Context (Hids : NoDup (path_ids_of branches)).
Lemma same_branch i j b b' :
  branches !! i = Some b → branches !! j = Some b' → path_id_of b.1 = path_id_of b'.1 → i = j.
Proof.
  intros Hi Hj Heq. eapply (NoDup_lookup (path_ids_of branches) i j); [done|..]; unfold path_ids_of; rewrite list_lookup_fmap.
  - by rewrite Hi.
  - by rewrite Hj, Heq.
Qed.
Lemma step_results_inv s e s' : step s e = Some s' → ¬ is_panic e → results_inv s → results_inv s'.
Proof.
  intros [Hst Hs]%step_inv Hnp [Hcalm Hnd Hj Hc].
  assert (Hset : ∀ i t t0, tasks s !! i = Some t0 → panicked t = false → ∀ j u, <[i := t]> (tasks s) !! j = Some u → panicked u = false).
  { intros i t t0 Hi Ht j u Hu. apply list_lookup_insert_Some in Hu as [(_ & <- & _)|[_ Hu]]; [done|eauto]. }
  assert (Hold : ∀ i t t0, tasks s !! i = Some t0 → t0 ≠ TaskJoined false → ∀ x, x ∈ branch_id <$> results s →
    ∃ j b, branches !! j = Some b ∧ <[i := t]> (tasks s) !! j = Some (TaskJoined false) ∧ x = path_id_of b.1).
  { intros i t t0 Hi Ht0 x Hx. destruct (Hj x Hx) as (j & b & Hb & Htj & ->). exists j, b. split; [done|]. split; [|done].
    rewrite list_lookup_insert_ne; [done|]. intros ->. congruence. }
  assert (Hkeep : ∀ i t, t ≠ TaskJoined false → ∀ j b, branches !! j = Some b → <[i := t]> (tasks s) !! j = Some (TaskJoined false) →
    path_id_of b.1 ∈ branch_id <$> results s).
  { intros i t Ht j b Hb Htj. apply list_lookup_insert_Some in Htj as [(_ & -> & _)|[_ Htj]]; [done|eauto]. }
  destruct Hs as [i b reg Hi Hb Hr|i Hi|i c b rs stop Hi Hb Hrs|i c rs stop Hi|detail]; try done.
  - split; cbn; [by eapply Hset|done|by eapply Hold|intros j b0 _; by apply (Hkeep i TaskFinished)].
  - assert (path_id_of b.1 ∉ branch_id <$> results s) as Hnew.
    { intros (j & b' & Hb' & Htj & Heq)%Hj. pose proof (same_branch i j b b' Hb Hb' Heq) as ->. congruence. }
    assert (Hi' : <[i := TaskJoined false]> (tasks s) !! i = Some (TaskJoined false)).
    { apply list_lookup_insert_eq. by eapply lookup_lt_Some. }
    split; cbn; [by eapply Hset| | |].
    + destruct Hrs as [->|[-> _]]; [|done]. rewrite fmap_app. apply NoDup_app. split; [done|]. cbn. rewrite Hid.
      split; [set_solver|apply NoDup_singleton].
    + intros x Hx. assert (x ∈ branch_id <$> results s ∨ x = path_id_of b.1) as [Hx'| ->];
        [|by eapply Hold|by exists i, b].
      destruct Hrs as [->|[-> _]]; [|by left]. rewrite fmap_app in Hx. cbn in Hx. rewrite Hid in Hx. set_solver.
    + intros j b' -> Hb' Htj. destruct Hrs as [->|[_ [? ?]]]; [|done]. rewrite fmap_app. cbn. rewrite Hid.
      apply list_lookup_insert_Some in Htj as [(<- & _ & _)|[_ Htj]]; [simplify_eq; set_solver|].
      apply elem_of_app. left. by eapply Hc.
  - exfalso. by pose proof (Hcalm i TaskPanicked Hi).
Qed.
Lemma start_inv reg :
  (∀ b, b ∈ branches → is_Some (get_record (path_id_of b.1) reg)) →
  fork_inv (fork_start branches reg) ∧ results_inv (fork_start branches reg).
Proof.
  intros Hreg. split; split; cbn.
  - apply length_replicate.
  - intros i b Hb. by eapply Hreg, list_elem_of_lookup_2.
  - intros i b t _ [-> _]%lookup_replicate. done.
  - intros i t [-> _]%lookup_replicate. done.
  - constructor.
  - set_solver.
  - intros i b _ _ [? _]%lookup_replicate. done.
Qed.

Lemma joined_ids s x : results_inv s → x ∈ branch_id <$> results s → x ∈ path_ids_of branches.
Proof.
  intros [_ _ Hj _] (i & b & Hb & _ & ->)%Hj. apply (list_elem_of_fmap_2 (λ b, path_id_of b.1)).
  by eapply list_elem_of_lookup_2.
Qed.
Lemma fill_missing_ids rs detail :
  NoDup (branch_id <$> rs) → (∀ x, x ∈ branch_id <$> rs → x ∈ path_ids_of branches) →
  branch_id <$> fill_missing_results branches rs detail ≡ₚ path_ids_of branches.
Proof.
  intros Hnd Hsub. unfold fill_missing_results. rewrite fmap_app, <-list_fmap_compose.
  assert (∀ l, (branch_id ∘ (λ b : value * string, fail_with CancelledInterrupted (path_id_of b.1) detail)) <$>
    filter (λ b, path_id_of b.1 ∉ branch_id <$> rs) l = filter (λ x, x ∉ branch_id <$> rs) (path_ids_of l)) as ->.
  { induction l as [|b l IH]; [done|]. unfold path_ids_of in *. cbn [fmap list_fmap]. rewrite !filter_cons.
    case_decide; [cbn [fmap list_fmap]; by f_equal|done]. }
  apply NoDup_Permutation; [|done|].
  - apply NoDup_app. split; [done|]. split; [|by apply NoDup_filter]. intros x Hx [? _]%list_elem_of_filter. done.
  - intros x. rewrite elem_of_app, list_elem_of_filter. destruct (decide (x ∈ branch_id <$> rs)); naive_solver.
Qed.
Lemma all_joined s i b :
  fork_inv s → forallb joined (tasks s) = true → branches !! i = Some b → ∃ p, tasks s !! i = Some (TaskJoined p).
Proof.
  intros [Hlen _ _] Hall Hb.
  destruct (lookup_lt_is_Some_2 (tasks s) i) as [t Ht]; [rewrite Hlen; by eapply lookup_lt_Some|].
  rewrite forallb_forall in Hall. specialize (Hall t). rewrite <-list_elem_of_In in Hall.
  destruct t as [| | |p]; try (by specialize (Hall (list_elem_of_lookup_2 _ _ _ Ht))). eauto.
Qed.

(** C29: a parallel fork over distinct paths that ran to its end, in whatever order its tasks finished
    and were joined and whether a failure, the total timeout or a cancellation stopped it, has
    exactly one result per path if no task panicked, and has settled in the registry every
    branch whose task did not panic. *)
Theorem parallel_results_complete (reg : ForkRegistry) (trace : list fork_event) (rs : list BranchResult) (reg' : ForkRegistry)
    (Hreg : ∀ b, b ∈ branches → is_Some (get_record (path_id_of b.1) reg))
    (Hrun : run_parallel run fail_fast total_timeout branches trace reg = Some (rs, reg')) :
  (Forall (λ e, ¬ is_panic e) trace → branch_id <$> rs ≡ₚ path_ids_of branches) ∧
  ∀ i b, branches !! i = Some b → path_settled reg' (path_id_of b.1) = true ∨ EPanic i ∈ trace.
Proof.
  unfold run_parallel in Hrun. destruct (steps _ trace) as [s|] eqn:Hs; [|done]. cbn in Hrun.
  destruct (fork_done _ s) eqn:Hd; [|done]. injection Hrun as Hc.
  destruct (start_inv reg Hreg) as [Hf0 Hr0].
  assert (fork_inv s) as Hf.
  { eapply (steps_keep fork_inv (λ _, True)); [intros; by eapply step_fork_inv|by apply Forall_true|done|done]. }
  assert (Forall (λ e, ¬ is_panic e) trace → results_inv s) as Hr.
  { intros Hcalm. by eapply (steps_keep results_inv (λ e, ¬ is_panic e)); [apply step_results_inv|..]. }
  unfold fork_done in Hd. apply orb_true_iff in Hd. unfold conclude in Hc.
  destruct (stopped s) as [detail|] eqn:Hst; injection Hc as <- <-.
  - split.
    + intros Hcalm. specialize (Hr Hcalm). apply fill_missing_ids; [apply Hr|]. intros x. by apply joined_ids.
    + intros i b Hb. left. by eapply settled_by_abort, inv_registered.
  - destruct Hd as [Hd|[Hall _]%andb_true_iff]; [by apply bool_decide_eq_true in Hd as [? ?]|]. split.
    + intros Hcalm. specialize (Hr Hcalm). apply NoDup_Permutation; [apply Hr|done|]. intros x.
      split; [by apply joined_ids|].
      intros (b & -> & [i Hb]%list_elem_of_lookup_1)%list_elem_of_fmap. destruct (all_joined s i b Hf Hall Hb) as [p Hp].
      eapply res_complete; [done..|]. pose proof (res_calm s Hr i _ Hp). by destruct p.
    + intros i b Hb. destruct (all_joined s i b Hf Hall Hb) as [[] Hp]; [|left; by eapply inv_settled].
      right. destruct (steps_panicked trace (fork_start branches reg) s i _ Hs Hp eq_refl) as [|(t0 & Ht0 & Hp0)]; [done|].
      cbn in Ht0. apply lookup_replicate in Ht0 as [-> _]. done.
Qed.

(** The join loop of a parallel fork neither runs on nor gets stuck: a run has at most two events
    per branch and one more, and until it is over some task can finish or be joined, or the total timeout
    can strike. *)
Theorem parallel_terminates (reg : ForkRegistry) (trace : list fork_event) (s : fork_state)
    (Hrun : steps (fork_start branches reg) trace = Some s) :
  List.length trace ≤ 2 * List.length branches + 1 ∧
  (fork_done total_timeout s = false → ∃ e s', step s e = Some s').
Proof.
  assert (∀ s0, steps s0 trace = Some s → work_left s + List.length trace ≤ work_left s0 ∧
    (List.length (tasks s0) = List.length branches → List.length (tasks s) = List.length branches)) as Hwork.
  { clear Hrun. induction trace as [|e trace IH]; intros s0 Hs; [simplify_eq/=; split; [lia|done]|].
    cbn [fork_run] in Hs. destruct (step s0 e) as [s1|] eqn:He; [|done]. cbn in Hs.
    destruct (IH s1 Hs) as [Hw Hl]. apply step_inv in He as [Hst He]. unfold work_left in *. rewrite Hst.
    destruct He as [i b reg' Hi|i Hi|i c b rs stop Hi|i c rs stop Hi|]; cbn in *; rewrite ?length_insert in Hl;
      (split; [|done]); try (pose proof (work_insert _ _ _ TaskFinished Hi); pose proof (work_insert _ _ _ TaskPanicked Hi);
        pose proof (work_insert _ _ _ (TaskJoined false) Hi); pose proof (work_insert _ _ _ (TaskJoined true) Hi);
        cbn in *; repeat case_match; lia).
    repeat case_match; lia. }
  destruct (Hwork _ Hrun) as [Hw Hl]. split.
  - unfold work_left in Hw. cbn in Hw.
    assert (∀ n, sum_list (task_work <$> replicate n TaskRunning) = 2 * n) as Hs
      by (induction n as [|n IH]; cbn; [done|]; cbn in IH; lia).
    rewrite Hs in Hw. lia.
  - specialize (Hl (length_replicate _ _)). unfold fork_done. intros [Hst Hall]%orb_false_iff.
    assert (stopped s = None) as Hst' by (destruct (stopped s); [by apply bool_decide_eq_false in Hst; destruct Hst|done]).
    apply andb_false_iff in Hall as [Hall|Hpos%bool_decide_eq_false].
    2: { exists ETimeout. unfold fork_step. rewrite Hst', decide_True by lia. eauto. }
    assert (∃ i t, tasks s !! i = Some t ∧ joined t = false) as (i & t & Ht & Hj).
    { clear -Hall. induction (tasks s) as [|t l IH]; [done|]. cbn in Hall. destruct (joined t) eqn:Ht.
      - destruct (IH Hall) as (i & t' & ? & ?). by exists (S i), t'.
      - by exists 0, t. }
    destruct (lookup_lt_is_Some_2 branches i) as [b Hb]; [rewrite <-Hl; by eapply lookup_lt_Some|].
    destruct t; try done; [exists (EFinish i)|exists (EJoin i true)..]; unfold fork_step; rewrite Hst', Ht, ?Hb; eauto.
Qed.
End results.

(** * Concrete forks

    Three branches, of which the second fails. *)
#[export] Instance demo_runner : BranchRunner :=
  {| run_child := λ _ input _ vars, (Ok input, vars); core_error_text := λ _, "rejected"; panic_text := λ _, "boom" |}.
Definition demo_branch (i : nat) (id : string) : value * string := (VObject [("path_id", VString id)], show_int (Z.of_nat i)).
Definition demo_branches : list (value * string) := imap demo_branch ["a"; "b"; "c"].
Definition demo_run (idx : nat) (b : value * string) : BranchResult :=
  if decide (idx = 1) then fail_branch (path_id_of b.1) "refused" else succeed (path_id_of b.1) (VBool true).
Definition demo_registry : ForkRegistry := register_branches demo_branches new_registry.
Definition demo_trace : list fork_event := [EFinish 1; EFinish 0; EJoin 1 false].
Lemma demo_run_id idx b : branch_id (demo_run idx b) = path_id_of b.1.
Proof. unfold demo_run. by case_decide. Qed.
Definition status_of (reg : ForkRegistry) (path : string) : option BranchStatus := rec_status <$> get_record path reg.

Lemma serial_results_complete_witness :
  let (rs, reg') := run_serial demo_run true (λ _, false) 0 demo_branches demo_registry in
  success <$> rs = [true; false; false] ∧ branch_id <$> rs = ["a"; "b"; "c"] ∧ path_settled reg' "c" = true.
Proof.
  pose proof (serial_results_complete demo_run demo_run_id true (λ _, false) demo_branches demo_registry (λ _, eq_refl)) as H.
  destruct (run_serial demo_run true (λ _, false) 0 demo_branches demo_registry) as [rs reg'] eqn:Hrun.
  destruct H as [Hids Hset]. split; [|split; [exact Hids|]].
  - change rs with ((rs, reg').1). rewrite <-Hrun. by vm_compute.
  - apply (Hset (demo_branch 2 "c")). by right; right; left.
Defined.
Lemma parallel_results_complete_witness :
  ∃ rs reg', run_parallel demo_run true 0 demo_branches demo_trace demo_registry = Some (rs, reg') ∧
    branch_id <$> rs ≡ₚ ["a"; "b"; "c"] ∧ path_settled reg' "c" = true.
Proof.
  destruct (run_parallel demo_run true 0 demo_branches demo_trace demo_registry) as [[rs reg']|] eqn:Hrun;
    [|by vm_compute in Hrun].
  exists rs, reg'. split; [done|].
  assert (NoDup (path_ids_of demo_branches)) as Hids by (apply (bool_decide_eq_true_1 _); by vm_compute).
  assert (∀ b, b ∈ demo_branches → is_Some (get_record (path_id_of b.1) demo_registry)) as Hreg.
  { apply Forall_forall, (bool_decide_eq_true_1 _). by vm_compute. }
  destruct (parallel_results_complete demo_run demo_run_id true 0 demo_branches Hids demo_registry demo_trace rs reg' Hreg Hrun)
    as [Hperm Hset]. split; [apply Hperm; repeat constructor; by intros []|].
  destruct (Hset 2 (demo_branch 2 "c") eq_refl) as [|Hin]; [done|].
  exfalso. repeat (apply elem_of_cons in Hin as [Hin|Hin]; [done|]). by apply not_elem_of_nil in Hin.
Defined.
Lemma parallel_terminates_witness :
  ∃ s, fork_run demo_run true 0 demo_branches (fork_start demo_branches demo_registry) [EFinish 1; EFinish 0] = Some s ∧
    fork_done 0 s = false ∧ ∃ e s', fork_step demo_run true 0 demo_branches s e = Some s'.
Proof.
  destruct (fork_run demo_run true 0 demo_branches (fork_start demo_branches demo_registry) [EFinish 1; EFinish 0])
    as [s|] eqn:Hrun; [|by vm_compute in Hrun].
  assert (fork_done 0 s = false) as Hd by (vm_compute in Hrun; injection Hrun as <-; reflexivity).
  exists s. split; [done|]. split; [done|].
  by apply (parallel_terminates demo_run true 0 demo_branches demo_registry _ s Hrun).
Defined.

(** The first branch finished before the failure of the second was joined: the
    registry has it completed, the results of the fork have it cancelled. *)
Example finished_branch_reported_cancelled :
  option_map (λ p : list BranchResult * ForkRegistry, (status_of p.2 "a", success <$> p.1))
    (run_parallel demo_run true 0 demo_branches demo_trace demo_registry)
    = Some (Some BranchCompleted, [false; false; false]).
Proof. by vm_compute. Qed.
(** A fork with a total timeout whose branches are all joined goes on until the
    timeout strikes. *)
Example joined_fork_waits_for_deadline :
  let joins := [EFinish 0; EJoin 0 false] in
  option_map (λ p : list BranchResult * ForkRegistry, success <$> p.1)
    (run_parallel demo_run false 5000 (take 1 demo_branches) joins demo_registry) = None ∧
  option_map (λ p : list BranchResult * ForkRegistry, success <$> p.1)
    (run_parallel demo_run false 5000 (take 1 demo_branches) (joins ++ [ETimeout]) demo_registry) = Some [true].
Proof. by vm_compute. Qed.
(** A task that panicked is joined under the name "branch" and leaves the record
    of its branch running. *)
Example panicked_branch_never_settles :
  option_map (λ p : list BranchResult * ForkRegistry, (status_of p.2 "a", branch_id <$> p.1))
    (run_parallel demo_run false 0 (take 1 demo_branches) [EPanic 0; EJoin 0 false] demo_registry)
    = Some (Some Running, ["branch"]).
Proof. by vm_compute. Qed.
