(* ===== verification/JoinNode.v ===== *)
(** Join: wf-workflow/src/handler/fork_join/merge.rs and join.rs.

    A JOIN waits through the registry of its fork until enough branches have
    settled and merges what they hand over; without a registry it reads the
    results the fork left in a variable.  How the wait ends, with the registry
    it leaves, is an argument ([ForkRegistry.wait_for_count_correct] is about
    the wait); degradation events are left out. *)

From S2P Require Import Prelude Strings Hierarchy Json Numbers Expression GraphTypes ErrorBranch LoopState VariableMapping MessageContext ForkRegistry ForkGraph Entity Coordinator ForkJoin.

(** * Merging outputs *)

Definition overwrote (key : string) : string := "merge overwrote key '" +:+ key +:+ "'; later branch output won".
(** One entry of an output that is an object. *)
Definition merge_entry (st : list (string * value) * list string) (kv : string * value) :
    list (string * value) * list string :=
  let (m, conflicts) := st in
  let (key, v) := kv in
  match get (VObject m) key, v with
  | Some (VArray prev), VArray items => (insert_entry key (VArray (prev ++ items)) m, conflicts)
  | Some prev, _ => (insert_entry key v m, if value_eq prev v then conflicts else conflicts ++ [overwrote key])
  | None, _ => (insert_entry key v m, conflicts)
  end.
Fixpoint merge_loop (outputs : list value) (st : list (string * value) * list string) : value * list string :=
  match outputs with
  | [] => (VObject st.1, st.2)
  | VObject entries :: rest => merge_loop rest (foldl merge_entry st entries)
  | other :: _ => (other, st.2)
  end.
(** [merge_outputs_with_conflicts], [merge_outputs] *)
Definition merge_outputs_with_conflicts (outputs : list value) : value * list string := merge_loop outputs ([], []).
Definition merge_outputs (outputs : list value) : value := (merge_outputs_with_conflicts outputs).1.

(** * Reading recorded results *)

Class ResultText : Type := { serde_error : value → string }.

Section join.
  Context {Message : Type} `{Serde Message, Serde TokenLedger} (message_id : Message → string)
    (estimate_messages : list Message → Z).
  Context `{Text : ResultText}.

(** [parse_branch_records] *)
Definition parse_branch_records (entries : list value) (shape : string) : list BranchResult * list string :=
  (omap result_from_value entries,
   omap (λ v, match result_from_value v with
              | Some _ => None
              | None => Some ("fork output entry (" +:+ shape +:+ ") unparseable: " +:+ serde_error v)
              end) entries).
(** [collect_branch_records] *)
Definition legacy_record (entry : value) : BranchResult :=
  let id := default "branch" (str_of entry "branch_id") in
  if default true (get entry "success" ≫= as_bool)
  then succeed id (default VNull (get entry "output"))
  else fail_branch id (default "branch failed" (str_of entry "error")).
Definition collect_branch_records (input : value) : list BranchResult * list string :=
  match get input "results" ≫= as_array, get input "outputs" ≫= as_array with
  | Some rs, _ => parse_branch_records rs "results"
  | None, Some outputs => (legacy_record <$> outputs, [])
  | None, None =>
      match as_array input with Some l => parse_branch_records l "array" | None => ([], []) end
  end.

(** * What the branches hand over *)

(** [aggregate_branch_variables] *)
Definition mapping_str (mapping : value) (key : string) : string := default "" (str_of mapping key).
Definition branch_variable (vs : Vars) (mapping : value) : W () :=
  let internal_name := mapping_str mapping "internal_name" in
  let target_path := mapping_str mapping "target_path" in
  if decide (internal_name = "" ∨ target_path = "") then mret tt
  else match vs !! internal_name with Some v => set_variable_path target_path v | None => mret tt end.
Definition aggregate_branch_variables (config : value) (records : list BranchResult) : W () :=
  match get config "variable_outputs" ≫= as_array with
  | None => mret tt
  | Some mappings =>
      for_each (λ r, match branch_variables r with Some vs => for_each (branch_variable vs) mappings | None => mret tt end)
        records
  end.

(** [aggregate_branch_messages] *)
Definition branch_messages (r : BranchResult) (vars : Vars) (mapping : value) : Vars :=
  let context_id := mapping_str mapping "context_id" in
  let target := default context_id (str_of mapping "target_context_id") in
  if decide (context_id = "" ∨ target = "") then vars
  else
    let at_contexts := cs ← message_contexts r; cs !! context_id in
    let at_variables := vs ← branch_variables r; vs !! (CONTEXT_PREFIX +:+ context_id) in
    let found := match at_contexts with Some v => Some v | None => at_variables end in
    let vars :=
      match (hs ← message_histories r; hs !! context_id) ≫= vec_from_value from_value with
      | Some history => merge_archived_history message_id target history vars
      | None => vars
      end in
    match found ≫= vec_from_value from_value with
    | Some messages => append_context estimate_messages target messages vars
    | None => vars
    end.
Definition aggregate_branch_messages (config : option value) (records : list BranchResult) (vars : Vars) : Vars :=
  match (c ← config; get c "message_outputs") ≫= as_array with
  | None => vars
  | Some mappings => foldl (λ vars r, foldl (branch_messages r) vars mappings) vars records
  end.

(** [aggregate_branch_data_outputs] *)
Definition data_output (vs : Vars) (aggregated mapping : value) : value :=
  let internal_name := mapping_str mapping "internal_name" in
  let output_key := mapping_str mapping "output_key" in
  if decide (internal_name = "" ∨ output_key = "") then aggregated
  else
    match vs !! internal_name with
    | None => aggregated
    | Some v => VObject (insert_entry output_key v match aggregated with VObject m => m | _ => [] end)
    end.
Definition main_last (main : string) (records : list BranchResult) : list BranchResult :=
  filter (λ r, branch_id r ≠ main) records ++
  option_list (snd <$> list_find (λ r, branch_id r = main) records).
Definition aggregate_branch_data_outputs (config : value) (records : list BranchResult) (aggregated : value) : value :=
  match get config "data_outputs" ≫= as_array with
  | None => aggregated
  | Some mappings =>
      foldl (λ agg r, match branch_variables r with Some vs => foldl (data_output vs) agg mappings | None => agg end)
        aggregated (main_last (mapping_str config "main_path_id") records)
  end.

(** * Waiting *)

Inductive JoinStrategy : Type := WaitForAny | WaitForN | WaitForAll.
Definition join_strategy (config : value) : JoinStrategy :=
  let s := default "wait_for_all" (str_of config "join_strategy") in
  if decide (s = "wait_for_any" ∨ s = "WaitForAny") then WaitForAny
  else if decide (s = "wait_for_n" ∨ s = "WaitForN") then WaitForN else WaitForAll.
Definition required_count (config : value) (paths : list string) : nat :=
  match join_strategy config with
  | WaitForAny => 1
  | WaitForN => Z.to_nat (default 1%Z (u64_of config "threshold"))
  | WaitForAll => List.length paths
  end.
(** How [wait_for_count] ended, with the registry it left. *)
Inductive wait_end : Type := Waited (reg : ForkRegistry) | WaitTimedOut (reg : ForkRegistry) | WaitCancelled (reg : ForkRegistry).
Definition record_result (p : string * BranchRecord) : BranchResult :=
  let (path, rec) := p in
  match rec_status rec with
  | BranchCompleted =>
      with_message_contexts (rec_message_contexts rec) (rec_message_histories rec)
        (success_with_variables path (default VNull (ForkRegistry.rec_output rec)) (rec_variables rec))
  | ForkRegistry.BranchFailed => fail_branch path (default "branch failed" (ForkRegistry.rec_error rec))
  | BranchCancelled => fail_with CancelledInterrupted path "branch cancelled"
  | Running => fail_with TransportTimeout path "branch still running"
  end.
(** [collect_from_registry], with the registry after it *)
Definition collect_from_registry (node : string) (paths : list string) (w : wait_end) :
    ForkRegistry * result WorkflowError (list BranchResult) :=
  match w with
  | Waited reg => (reg, Ok (record_result <$> records paths reg))
  | WaitTimedOut reg =>
      (reg, Err (NodeFailure node TransportTimeout
                   ("JOIN node '" +:+ node +:+ "' timed out waiting for fork branches to settle") Handler))
  | WaitCancelled reg =>
      (abort_all reg, Err (NodeFailure node CancelledInterrupted ("JOIN node '" +:+ node +:+ "' wait cancelled") Handler))
  end.

(** * The handler *)

Definition join_output (config : value) (raw : list BranchResult) (input : value) : value :=
  let ok := filter (λ r, success r = true) raw in
  match raw, join_strategy config with
  | [], _ => input
  | _, WaitForAny => default input (branch_output <$> head ok)
  | _, WaitForN =>
      let threshold := default (Z.of_nat (List.length ok)) (u64_of config "threshold") in
      merge_outputs (branch_output <$> take (Z.to_nat (Z.max threshold 1)) ok)
  | _, WaitForAll => merge_outputs (branch_output <$> ok)
  end.
Definition failed_branch (r : BranchResult) : value :=
  VObject [("branch_id", VString (branch_id r)); ("error", VString (default "" (error_message r)));
           ("error_category", option_to_value (λ c, VString (category_str c)) (error_category r))].
Definition variable_error_text (e : VariableMapping.VariableError) : string :=
  match e with
  | ReservedVariable root => "refusing to write reserved variable '" +:+ root +:+ "' through the public path writer"
  | RequiredInput source name =>
      "Required variable input '" +:+ source +:+ "' (mapped to '" +:+ name +:+ "') is missing"
  end.
(** The results of the branches; the registries by fork, and the wait on the one
    of this JOIN. *)
Definition join_results (node : NodeExecutionContext) (shape : NodeInputShape) (set_order : list string → list string)
    (wait : list string → ForkRegistry → wait_end) (registries : gmap string ForkRegistry) (vars : Vars) :
    gmap string ForkRegistry * result WorkflowError (list BranchResult) :=
  let config := default VNull (node_config node) in
  let fork_id := g ← graph_structure node; find_fork_node (node_config node) g in
  match fork_id, fork_id ≫= (registries !!.) with
  | Some id, Some reg =>
      let configured := default [] (string_array (get config "fork_path_ids")) in
      let paths := match configured with [] => path_ids set_order reg | _ => configured end in
      let (reg', r) := collect_from_registry (ctx_node_id node) paths (wait paths reg) in
      (<[id := reg']> registries, r)
  | _, _ =>
      (registries,
       Ok (match fork_id ≫= (λ id, vars !! fork_output_key id) with
           | Some output => (collect_branch_records output).1
           | None => match shape with Merged => (collect_branch_records (ctx_input node)).1 | _ => [] end
           end))
  end.
(** What follows, on the variables. *)
Definition join_finish (node : NodeExecutionContext) (raw : list BranchResult) (vars : Vars) :
    Vars * result WorkflowError NodeExecutionResult :=
  let config := default VNull (node_config node) in
  let ok := filter (λ r, success r = true) raw in
  match aggregate_branch_variables config ok vars with
  | (vars, Err e) => (vars, Err (Entity.VariableError (variable_error_text e)))
  | (vars, Ok _) =>
      (aggregate_branch_messages (node_config node) ok vars,
       Ok {| output := aggregate_branch_data_outputs config ok (join_output config raw (ctx_input node));
             next_node_ids := [];
             metadata := {["failed_branches" := VArray (failed_branch <$> filter (λ r, success r = false) raw)]} |})
  end.
(** [JoinHandler::execute] *)
Definition join_execute (node : NodeExecutionContext) (shape : NodeInputShape) (set_order : list string → list string)
    (wait : list string → ForkRegistry → wait_end) (registries : gmap string ForkRegistry) (vars : Vars) :
    gmap string ForkRegistry * Vars * result WorkflowError NodeExecutionResult :=
  match join_results node shape set_order wait registries vars with
  | (registries, Err e) => (registries, vars, Err e)
  | (registries, Ok raw) => let (vars, r) := join_finish node raw vars in (registries, vars, r)
  end.
End join.

(** * Merging is key by key *)

(** What the outputs leave under one key, and whether one of them was
    overwritten. *)
Definition combine (st : option value * bool) (v : value) : option value * bool :=
  match st.1, v with
  | Some (VArray prev), VArray items => (Some (VArray (prev ++ items)), st.2)
  | Some prev, _ => (Some v, st.2 || negb (value_eq prev v))
  | None, _ => (Some v, st.2)
  end.
Definition combined (key : string) (outputs : list value) : option value * bool :=
  foldl combine (None, false) (omap (λ o, get o key) outputs).
Definition plain_object (o : value) : Prop := match o with VObject m => NoDup m.*1 | _ => False end.
(** The merged object agrees with a table of what each key holds. *)
Definition agrees (m : list (string * value)) (conflicts : list string) (st : string → option value * bool) : Prop :=
  (∀ key, get (VObject m) key = (st key).1) ∧ (conflicts = [] ↔ ∀ key, (st key).2 = false).
Lemma get_None_fresh m key : key ∉ m.*1 → get (VObject m) key = None.
Proof.
  induction m as [|[k v] m IH]; [done|]. cbn [fmap list_fmap]. intros Hn. rewrite get_cons, decide_False by set_solver.
  apply IH. set_solver.
Qed.
Lemma agrees_ext m conflicts st st' : (∀ key, st key = st' key) → agrees m conflicts st → agrees m conflicts st'.
Proof. intros Heq [Hg Hc]. split; [intros key|rewrite Hc; split; intros Hf key; specialize (Hf key)]; by rewrite ?Hg, Heq in *. Qed.
Lemma agrees_entry m conflicts st k v :
  agrees m conflicts st →
  let p := merge_entry (m, conflicts) (k, v) in
  agrees p.1 p.2 (λ key, if decide (key = k) then combine (st k) v else st key).
Proof.
  intros [Hg Hc]. cbn [merge_entry]. rewrite Hg. unfold combine. destruct (st k) as [o flag] eqn:Hk. cbn [fst snd].
  assert (Hput : ∀ x key, get (VObject (insert_entry k x m)) key = if decide (key = k) then Some x else (st key).1).
  { intros x key. rewrite get_insert, Hg. repeat case_decide; congruence. }
  assert (Hsame : ∀ x, conflicts = [] ↔ ∀ key, (if decide (key = k) then (Some x : option value, flag) else st key).2 = false).
  { intros x. rewrite Hc. split; intros Hf key; specialize (Hf key); case_decide; subst; rewrite ?Hk in *; done. }
  assert (Hnew : ∀ prev,
    agrees (insert_entry k v m) (if value_eq prev v then conflicts else conflicts ++ [overwrote k])
      (λ key, if decide (key = k) then (Some v, flag || negb (value_eq prev v)) else st key)).
  { intros prev. split; [intros key; rewrite Hput; by case_decide|]. destruct (value_eq prev v); cbn.
    - rewrite orb_false_r. apply Hsame.
    - rewrite orb_true_r. split; [by intros [_ ?]%app_nil|]. intros Hf. specialize (Hf k). by rewrite decide_True in Hf. }
  destruct o as [prev|]; [|split; cbn [fst snd]; [intros key; rewrite Hput; by case_decide|apply Hsame]].
  destruct prev; try apply Hnew. destruct v; try apply Hnew.
  split; cbn [fst snd]; [intros key; rewrite Hput; by case_decide|apply Hsame].
Qed.
Lemma agrees_entries es m conflicts st :
  NoDup es.*1 → agrees m conflicts st →
  let p := foldl merge_entry (m, conflicts) es in
  agrees p.1 p.2 (λ key, match get (VObject es) key with Some v => combine (st key) v | None => st key end).
Proof.
  revert m conflicts st. induction es as [|[k v] es IH]; intros m conflicts st Hnd Hag; [done|].
  cbn [fmap list_fmap fst] in Hnd. apply NoDup_cons in Hnd as [Hk Hnd]. cbn [foldl].
  pose proof (agrees_entry m conflicts st k v Hag) as H1. destruct (merge_entry (m, conflicts) (k, v)) as [m1 c1].
  cbn [fst snd] in H1. eapply agrees_ext; [|by apply (IH m1 c1)]. intros key. cbn beta. rewrite get_cons.
  destruct (decide (key = k)) as [->|Hne].
  - rewrite (decide_True _ _ (eq_refl k)), get_None_fresh by done. done.
  - by rewrite (decide_False (P := k = key)) by congruence.
Qed.
Lemma merge_loop_agrees outputs m conflicts st :
  Forall plain_object outputs → agrees m conflicts st →
  ∃ m' conflicts', (∀ rest, merge_loop (outputs ++ rest) (m, conflicts) = merge_loop rest (m', conflicts')) ∧
    agrees m' conflicts' (λ key, foldl combine (st key) (omap (λ o, get o key) outputs)).
Proof.
  revert m conflicts st. induction outputs as [|o outputs IH]; intros m conflicts st Hok Hag; [by exists m, conflicts|].
  apply Forall_cons in Hok as [Ho Hok]. destruct o as [| | | | |es]; try done. cbn [plain_object] in Ho.
  pose proof (agrees_entries es m conflicts st Ho Hag) as H1. cbn zeta in H1.
  destruct (foldl merge_entry (m, conflicts) es) as [m1 c1] eqn:Hf.
  destruct (IH m1 c1 _ Hok H1) as (m2 & c2 & Hrun & H2). exists m2, c2. split.
  - intros rest. rewrite <-Hrun. cbn [app merge_loop]. by rewrite Hf.
  - eapply agrees_ext; [|done]. intros key. cbn [omap list_omap]. by destruct (get (VObject es) key).
Qed.

(** Merging objects is key by key: under each key arrays are concatenated and anything else is
    replaced by the later output, and a conflict is reported exactly when some value was replaced by
    a different one; an output that is no object ends the merge and is the result. *)
Theorem merge_outputs_correct (outputs : list value) (Hok : Forall plain_object outputs) :
  (∃ m conflicts, merge_outputs_with_conflicts outputs = (VObject m, conflicts) ∧
     (∀ key, get (VObject m) key = (combined key outputs).1) ∧
     (conflicts = [] ↔ ∀ key, (combined key outputs).2 = false)) ∧
  ∀ v rest, is_object v = false → merge_outputs (outputs ++ v :: rest) = v.
Proof.
  assert (agrees [] [] (λ _, (None, false))) as H0 by (by split).
  destruct (merge_loop_agrees outputs [] [] _ Hok H0) as (m & conflicts & Hrun & Hag). split.
  - exists m, conflicts. split; [|exact Hag]. specialize (Hrun []). by rewrite app_nil_r in Hrun.
  - intros v rest Hv. unfold merge_outputs, merge_outputs_with_conflicts. rewrite Hrun. by destruct v.
Qed.
Lemma merge_outputs_correct_witness :
  let outputs := [VObject [("l", VArray [VBool true]); ("x", VString "a")]; VObject [("l", VArray [VNull]); ("x", VString "b")]] in
  merge_outputs_with_conflicts outputs
    = (VObject [("l", VArray [VBool true; VNull]); ("x", VString "b")], [overwrote "x"]) ∧
  merge_outputs (outputs ++ [VString "only"; VObject []]) = VString "only".
Proof.
  intros outputs. split; [by vm_compute|].
  assert (Forall plain_object outputs) as Hok.
  { repeat constructor; cbn; set_solver. }
  by apply (proj2 (merge_outputs_correct outputs Hok)).
Defined.

(** * From the fork to the JOIN *)

Lemma category_roundtrip c : category_from (category_str c) = Some c.
Proof. by destruct c. Qed.
Lemma result_roundtrip r : result_from_value (result_to_value r) = Some r.
Proof.
  assert (Hm : ∀ m, optional_from as_map (Some (object_of m)) = Some (Some m)).
  { intros m. change (optional_from as_map (Some (object_of m))) with (Some <$> as_map (object_of m)).
    by rewrite as_map_object_of. }
  assert (Hf : ∀ f, optional_from failure_from_value (Some (failure_to_value f)) = Some (Some f)).
  { intros [c d]. by destruct c. }
  destruct r as [i ok out f vs cs hs]. unfold result_from_value.
  set (v := result_to_value _).
  assert (Hget : get v "branch_id" = Some (VString i) ∧ get v "success" = Some (VBool ok) ∧ get v "output" = Some out ∧
    get v "failure" = failure_to_value <$> f ∧ get v "variables" = object_of <$> vs ∧
    get v "message_contexts" = object_of <$> cs ∧ get v "message_histories" = object_of <$> hs).
  { unfold v. destruct f, cs, hs, vs; split_and!; reflexivity. }
  destruct Hget as (-> & -> & -> & -> & -> & -> & ->). cbn [mbind option_bind as_str as_bool].
  assert (Hopt : ∀ o, optional_from as_map (object_of <$> o) = Some o) by (intros [m|]; [apply Hm|done]).
  assert (optional_from failure_from_value (failure_to_value <$> f) = Some f) as -> by (destruct f; [apply Hf|done]).
  by rewrite !Hopt.
Qed.

Lemma fork_output_records `{Text : ResultText} (rs : list BranchResult) (o : ForkOutcome) :
  collect_branch_records (fork_output rs o) = (rs, []).
Proof.
  unfold collect_branch_records, fork_output, parse_branch_records.
  change (get (VObject _) "results") with (Some (VArray (result_to_value <$> rs))).
  change (get (VObject _) "outputs") with (Some (VArray (legacy_output <$> rs))).
  cbn [mbind option_bind as_array]. induction rs as [|r rs IH]; [done|]. cbn [fmap list_fmap omap list_omap].
  rewrite result_roundtrip. injection IH as IH1 IH2. by rewrite IH1, IH2.
Qed.

(** A fork that succeeds leaves its results where a JOIN that has no registry any more, as after a
    restart, reads back exactly these results, text forms and all; and it never hands over a
    result set its failure strategy rejects. *)
Theorem fork_hands_over {Message : Type} `{Serde Message, Serde TokenLedger} (message_id : Message → string)
    (estimate : list Message → Z) `{Env : Environment, Runner : BranchRunner, Text : ResultText}
    (node : NodeExecutionContext) (env : ForkEnvironment) (s s' : ForkScope) (res : NodeExecutionResult)
    (Hrun : fork_execute message_id estimate node env s = Some (s', Ok res)) :
  ∃ rs o, output res = fork_output rs o ∧ o ≠ OutcomeFailed ∧
    ∀ join shape set_order wait registries,
      (g ← graph_structure join; find_fork_node (node_config join) g) = Some (ctx_node_id node) →
      registries !! ctx_node_id node = None →
      join_results join shape set_order wait registries (scope_variables s') = (registries, Ok rs).
Proof.
  unfold fork_execute in Hrun. destruct (cfg ← _; _) as [cfg|e]; [|done].
  destruct (scope_manager s) as [m|]; [|done]. destruct (run_branches _ _ _ _ _ _ _) as [p|]; [|done]. cbn in Hrun.
  unfold fork_finish in Hrun. set (o := if _ || _ then _ else _) in *.
  assert (o ≠ OutcomeFailed) as Ho by (intros Ho; by rewrite Ho in Hrun).
  exists p.1, o. assert (scope_variables s' !! fork_output_key (ctx_node_id node) = Some (fork_output p.1 o) ∧
    output res = fork_output p.1 o) as [Hv Hout].
  { destruct o; try done; injection Hrun as <- <-; cbn [scope_variables output]; by rewrite lookup_insert_eq. }
  split; [done|]. split; [done|]. intros join shape set_order wait registries Hfork Hnone.
  unfold join_results. rewrite Hfork. cbn [mbind option_bind]. by rewrite Hnone, Hv, fork_output_records.
Qed.

(** What a JOIN goes by: who succeeded, and with what. *)
Definition summary (r : BranchResult) : string * option value :=
  (branch_id r, if success r then Some (branch_output r) else None).

(** What the registry holds for a branch with a given result. *)
Definition recorded (reg : ForkRegistry) (path : string) (r : BranchResult) : Prop :=
  ∃ rec, get_record path reg = Some rec ∧ is_settled rec = true ∧
    summary (record_result (path, rec)) = summary r.
Lemma summary_outcome path rec rec' :
  outcome rec' = outcome rec → summary (record_result (path, rec')) = summary (record_result (path, rec)).
Proof. intros [= Hs Ho _]. unfold record_result. rewrite Hs. destruct (rec_status rec); [done| |done..]. unfold summary. cbn. by rewrite Ho. Qed.
Lemma recorded_op op reg path r : recorded reg path r → recorded (apply_op op reg) path r.
Proof.
  intros (rec & Hrec & Hset & Hsum). destruct (op_outcome op reg path rec Hrec Hset) as (rec' & Hrec' & Hout).
  exists rec'. split; [done|]. split; [by rewrite (outcome_settled _ _ Hout)|]. by rewrite (summary_outcome path _ _ Hout).
Qed.
Lemma recorded_settle reg path r :
  branch_id r = path → path_settled reg path = false → recorded (settle_branch r path reg) path r.
Proof.
  intros Hid Hun. unfold path_settled in Hun. unfold recorded, settle_branch, settle_with_messages, get_record, with_records in *.
  cbn [records_of].
  assert (rec_status (default (fresh_record None) (records_of reg !! path)) = Running) as Hr.
  { destruct (records_of reg !! path) as [rec|]; [|done]. unfold is_settled in Hun.
    apply bool_decide_eq_false in Hun. cbn. by destruct (rec_status rec); [|destruct Hun..]. }
  rewrite decide_False by (rewrite Hr; tauto). eexists. rewrite lookup_insert_eq. split; [done|].
  unfold is_settled, summary, record_result. cbn. subst path. by destruct (success r).
Qed.
Lemma recorded_cancel reg path detail :
  path_settled reg path = false → recorded (cancel path reg) path (fail_with CancelledInterrupted path detail).
Proof.
  intros Hun. unfold path_settled in Hun. unfold recorded, cancel, get_record, with_records in *. cbn [records_of].
  rewrite lookup_insert_eq. eexists. split; [done|]. unfold cancelled. destruct (records_of reg !! path) as [rec|]; cbn in *; [|done].
  unfold is_settled in Hun. apply bool_decide_eq_false in Hun.
  rewrite decide_False by tauto. done.
Qed.

Section serial.
  Context (run : nat → value * string → BranchResult) (Hid : ∀ idx b, branch_id (run idx b) = path_id_of b.1).

(** The operations of a serial fork settle branches, and only those it has. *)
Lemma skip_ops l reg : ∃ ops, (skip_branches l reg).2 = run_ops ops reg.
Proof.
  unfold skip_branches. cbn [snd]. revert reg. induction l as [|b l IH]; intros r; [by exists []|].
  destruct (IH (cancel (path_id_of b.1) r)) as [ops Hops]. by exists (OCancel (path_id_of b.1) :: ops).
Qed.
Lemma serial_ops fail_fast token idx branches reg :
  ∃ ops, (run_serial run fail_fast token idx branches reg).2 = run_ops ops reg.
Proof.
  revert idx reg. induction branches as [|b l IH]; intros idx reg; [by exists []|]. cbn [run_serial].
  rewrite settle_branch_op. set (op := OSettle _ _ _ _ _ _ _). destruct (token idx); [by exists [op]|].
  destruct (fail_fast && _); cbn [snd].
  - destruct (skip_ops l (apply_op op reg)) as [ops ->]. by exists (op :: ops).
  - destruct (IH (S idx) (apply_op op reg)) as [ops ->]. by exists (op :: ops).
Qed.
Lemma recorded_ops ops reg path r : recorded reg path r → recorded (ForkRegistry.run_ops ops reg) path r.
Proof. revert reg. induction ops as [|op ops IH]; intros reg Hr; [done|]. by apply (IH (apply_op op reg)), recorded_op. Qed.
Lemma still_unsettled path op reg l :
  path ∉ path_ids_of l → (∀ b, b ∈ l → path_settled reg (path_id_of b.1) = false) →
  (∀ path', path ≠ path' → get_record path' (apply_op op reg) = get_record path' reg) →
  ∀ b, b ∈ l → path_settled (apply_op op reg) (path_id_of b.1) = false.
Proof.
  intros Hn Hun Hop b Hb. unfold path_settled. rewrite Hop; [by apply Hun|]. intros ->.
  apply Hn, (list_elem_of_fmap_2 (λ b, path_id_of b.1)), Hb.
Qed.
Lemma skip_recorded l reg :
  NoDup (path_ids_of l) → (∀ b, b ∈ l → path_settled reg (path_id_of b.1) = false) →
  Forall2 (λ b r, recorded (skip_branches l reg).2 (path_id_of b.1) r) l (skip_branches l reg).1.
Proof.
  unfold skip_branches. cbn [fst snd]. revert reg. induction l as [|b l IH]; intros reg Hnd Hun; [constructor|].
  unfold path_ids_of in Hnd. cbn [fmap list_fmap] in Hnd. apply NoDup_cons in Hnd as [Hb Hnd].
  set (detail := "fork branch skipped after fail_fast") in *. cbn [fmap list_fmap foldl]. constructor.
  - destruct (skip_ops l (cancel (path_id_of b.1) reg)) as [ops Hops]. unfold skip_branches in Hops. cbn [snd] in Hops.
    rewrite Hops.
    apply recorded_ops, recorded_cancel. apply Hun. by left.
  - apply IH; [done|]. apply (still_unsettled (path_id_of b.1) (OCancel (path_id_of b.1))); [done| |].
    + intros b' Hb'. apply Hun. by right.
    + intros path' Hne. by apply op_other.
Qed.
Lemma serial_recorded fail_fast token idx l reg :
  (∀ i, token i = false) → NoDup (path_ids_of l) → (∀ b, b ∈ l → path_settled reg (path_id_of b.1) = false) →
  let (rs, reg') := run_serial run fail_fast token idx l reg in
  Forall2 (λ b r, recorded reg' (path_id_of b.1) r) l rs.
Proof.
  intros Htoken. revert idx reg. induction l as [|b l IH]; intros idx reg Hnd Hun; [constructor|].
  unfold path_ids_of in Hnd. cbn [fmap list_fmap] in Hnd. apply NoDup_cons in Hnd as [Hb Hnd].
  cbn [run_serial]. rewrite Htoken. set (reg1 := settle_branch _ _ _).
  assert (recorded reg1 (path_id_of b.1) (run idx b)) as Hr1 by (apply recorded_settle; [apply Hid|apply Hun; by left]).
  assert (∀ b', b' ∈ l → path_settled reg1 (path_id_of b'.1) = false) as Hun1.
  { unfold reg1. rewrite settle_branch_op. eapply (still_unsettled (path_id_of b.1)); [done| |].
    - intros b' Hb'. apply Hun. by right.
    - intros path' Hne. by apply op_other. }
  destruct (fail_fast && is_failure (run idx b)); cbn [fst snd].
  - constructor; [|by apply skip_recorded].
    destruct (skip_ops l reg1) as [ops ->]. by apply recorded_ops.
  - destruct (serial_ops fail_fast token (S idx) l reg1) as [ops Hops]. specialize (IH (S idx) reg1 Hnd Hun1).
    destruct (run_serial run fail_fast token (S idx) l reg1) as [rs reg']. cbn [fst snd] in *. subst reg'.
    constructor; [by apply recorded_ops|done].
Qed.
Lemma recorded_records reg l rs :
  Forall2 (λ b r, recorded reg (path_id_of b.1) r) l rs →
  summary <$> (record_result <$> records (path_ids_of l) reg) = summary <$> rs ∧
  settled_count (path_ids_of l) reg = List.length l.
Proof.
  unfold records, settled_count, path_ids_of. induction 1 as [|b r l rs (rec & Hrec & Hset & Hsum) Hall [IH1 IH2]]; [done|].
  cbn [fmap list_fmap omap list_omap]. rewrite filter_cons. unfold path_settled in *. rewrite Hrec.
  cbn [fmap option_fmap option_map list_fmap List.length]. rewrite Hset, decide_True by done. cbn [List.length].
  split; [by rewrite Hsum, IH1|by rewrite IH2].
Qed.

(** C30: after a serial fork over distinct paths that was never cancelled, in a registry where none of them had
    settled before, a JOIN over its paths need not wait and reads from the registry exactly what the fork
    reports: for every path, in order, whether the branch succeeded and with what output. *)
Theorem join_reads_serial_fork (fail_fast : bool) (token : nat → bool) (branches : list (value * string))
    (reg : ForkRegistry) (node : string)
    (Htoken : ∀ i, token i = false) (Hids : NoDup (path_ids_of branches))
    (Hfresh : ∀ b, b ∈ branches → path_settled reg (path_id_of b.1) = false) :
  let (rs, reg') := run_serial run fail_fast token 0 branches reg in
  let paths := path_ids_of branches in
  enough paths (List.length paths) reg' = true ∧
  ∃ raw, collect_from_registry node paths (Waited reg') = (reg', Ok raw) ∧ summary <$> raw = summary <$> rs.
Proof.
  pose proof (serial_recorded fail_fast token 0 branches reg Htoken Hids Hfresh) as Hall.
  destruct (run_serial run fail_fast token 0 branches reg) as [rs reg']. cbv zeta.
  destruct (recorded_records reg' branches rs Hall) as [Hsum Hcount]. split.
  - unfold enough. apply bool_decide_eq_true. rewrite Hcount. unfold path_ids_of. by rewrite length_fmap.
  - eexists. split; [reflexivity|done].
Qed.
End serial.

Lemma join_reads_serial_fork_witness :
  let (rs, reg') := run_serial demo_run true (λ _, false) 0 demo_branches demo_registry in
  summary <$> rs = [("a", Some (VBool true)); ("b", None); ("c", None)] ∧
  ∃ raw, collect_from_registry "j" (path_ids_of demo_branches) (Waited reg') = (reg', Ok raw) ∧ summary <$> raw = summary <$> rs.
Proof.
  assert (NoDup (path_ids_of demo_branches)) as Hids by (apply (bool_decide_eq_true_1 _); by vm_compute).
  assert (∀ b, b ∈ demo_branches → path_settled demo_registry (path_id_of b.1) = false) as Hfresh.
  { apply Forall_forall, (bool_decide_eq_true_1 _). by vm_compute. }
  pose proof (join_reads_serial_fork demo_run demo_run_id true (λ _, false) demo_branches demo_registry "j" (λ _, eq_refl) Hids Hfresh) as H.
  destruct (run_serial demo_run true (λ _, false) 0 demo_branches demo_registry) as [rs reg'] eqn:Hrun.
  split; [|by apply H]. change rs with ((rs, reg').1). rewrite <-Hrun. by vm_compute.
Defined.

(** The registry keeps only the text of a failure: a branch that timed out is a
    business failure for the JOIN. *)
Example timed_out_branch_category :
  let r := fail_with TransportTimeout "a" "too slow" in
  (error_category <$> (record_result <$> records ["a"] (settle_branch r "a" demo_registry))) = [Some BusinessFailure] ∧
  error_category r = Some TransportTimeout.
Proof. by vm_compute. Qed.

(** A serial fork of two branches that run nothing, and its JOIN after a
    restart. *)
Definition plain_environment : Environment :=
  {| evaluate_condition := λ _ _, None; execute_node_once := λ _ _ _ st int, (st, int, Ok (simple VNull));
     node_checkpoint_config := λ _ _, Ok tt; shared_error_type := λ _, Internal; error_text := λ _, "";
     cap_node_payload := id; cap_metadata := object_of |}.
#[export] Instance demo_text : ResultText := {| serde_error := λ _, "unreadable" |}.
Definition demo_fork_config : value :=
  VObject [("fork_paths", VArray [VObject [("path_id", VString "a")]; VObject [("path_id", VString "b")]]);
           ("fork_strategy", VString "serial")].
Definition demo_fork_graph : WorkflowGraphStructure :=
  {| nodes := [{| node_id := "f"; node_name := None; node_type := "FORK"; inner := demo_fork_config |}]; edges := [];
     start_node_id := Some "f"; end_node_ids := []; error_default := None |}.
Definition demo_fork_node : NodeExecutionContext :=
  {| ctx_node_id := "f"; node_config := Some demo_fork_config; ctx_input := VString "in"; graph_structure := Some demo_fork_graph |}.
Definition demo_join_node : NodeExecutionContext :=
  {| ctx_node_id := "j"; node_config := Some (VObject [("fork_path_ids", VArray [VString "b"; VString "a"])]);
     ctx_input := VNull; graph_structure := Some demo_fork_graph |}.
Definition demo_fork_environment : ForkEnvironment :=
  {| fork_execution_id := "e"; fork_clock := 0; fresh_id := λ i, show_int (Z.of_nat i); resolve_handlers := Ok tt;
     set_order := id; fates := λ _, {| times_out := false; is_cancelled := false |}; token := λ _, false; trace := [] |}.
Definition demo_scope : ForkScope :=
  {| scope_registry := Some new_registry; scope_manager := Some root_manager; scope_variables := ∅ |}.
Lemma fork_hands_over_witness :
  ∃ s' res, fork_execute (Message := string) id text_estimate (Env := plain_environment) demo_fork_node demo_fork_environment
      demo_scope = Some (s', Ok res) ∧ next_node_ids res = [] ∧
    ∃ rs o, output res = fork_output rs o ∧ o ≠ OutcomeFailed ∧
      join_results demo_join_node ShapeNone id (λ _ reg, Waited reg) ∅ (scope_variables s') = (∅, Ok rs).
Proof.
  destruct (fork_execute (Message := string) id text_estimate (Env := plain_environment) demo_fork_node demo_fork_environment
    demo_scope) as [[s' [res|e]]|] eqn:Hrun; [|by vm_compute in Hrun..].
  exists s', res. split; [done|]. split; [vm_compute in Hrun; by injection Hrun as _ <-|].
  destruct (fork_hands_over id text_estimate (Env := plain_environment) demo_fork_node demo_fork_environment demo_scope s' res Hrun)
    as (rs & o & Hout & Ho & Hjoin).
  exists rs, o. split; [done|]. split; [done|]. apply Hjoin; by vm_compute.
Defined.
