(* ===== verification/CoordExample.v ===== *)
(** A small workflow for the witnesses: [a -> b -> c], where [b] fails on
    business grounds and an ERROR edge leads to [h], which sets a variable and
    goes on to [c]. *)

From S2P Require Import Prelude Strings Json Template Conditions GraphTypes ErrorBranch Graph LoopState Entity Coordinator.

Definition demo_edge (route : ErrorRouteConfig) (s d : string) : WorkflowEdge :=
  {| edge_id := s +:+ "!" +:+ d; source_node_id := s; target_node_id := d; edge_type := EError;
     condition := None; label := None; description := None; error_route := Some route |}.
Definition demo_graph (suspend : bool) : WorkflowGraphStructure :=
  mk_graph [mk_node "a" "START"; mk_node "b" "SCRIPT"; mk_node "h" "SCRIPT"; mk_node "c" "END"]
    [mk_edge EDefault "a" "b"; mk_edge EDefault "b" "c";
     demo_edge {| categories := None; route_suspend := Some suspend |} "b" "h"; mk_edge EDefault "h" "c"]
    (Some "a") ["c"].

Definition demo_failure : WorkflowError := NodeFailure "b" BusinessFailure "rejected" Handler.
#[export] Instance demo_environment : Environment :=
  {| evaluate_condition := λ condition variables,
       match evaluate (Json_text := example_text) 100 variables condition with Ok b => Some b | Err _ => None end;
     execute_node_once := λ ctx _ _ st int,
       if decide (ctx_node_id ctx = "b") then (st, int, Err demo_failure)
       else if decide (ctx_node_id ctx = "h") then (<["handled" := VBool true]> st, int, Ok (simple VNull))
       else (st, int, Ok (simple (VString (ctx_node_id ctx))));
     node_checkpoint_config := λ _ _, Ok tt;
     shared_error_type := λ _, Internal;
     error_text := λ _, "rejected";
     cap_node_payload := id;
     cap_metadata := λ m, object_of m |}.

Definition demo_options : WorkflowExecutionOptions :=
  {| opt_input := None; opt_max_steps := None; opt_max_execution_time := None;
     opt_max_navigation_multiplier := None; opt_loop_max_iterations_cap := None |}.
Definition demo_entity : WorkflowExecutionEntity :=
  {| entity_id := "e"; state := new_state 0; interruption := new_interruption; node_results := ∅;
     pending_injections := ∅ |}.
Definition demo_traversal (suspend : bool) : GraphTraversal :=
  {| graph := demo_graph suspend; error_table := build (demo_graph suspend) |}.
Definition demo (suspend : bool) : WorkflowCoordinator :=
  {| options := demo_options; entity := demo_entity; traversal := demo_traversal suspend;
     current_node_id := Some "a"; completed_nodes := []; node_outputs := ∅; navigation_count := 0;
     loop_navigation_count := 0; in_loop_body := false; total_node_count := 4;
     max_navigation_multiplier := 5; main_variables := {[ "x" := VNull ]}; inbox := [];
     skipped_nodes := ∅; error_scope := None |}.

Lemma demo_built suspend :
  new_coordinator demo_options (demo_graph suspend) demo_entity {[ "x" := VNull ]} = Ok (demo suspend).
Proof. destruct suspend; by vm_compute. Qed.

(** Every node of the demo, for properties checked node by node. *)
Lemma demo_get_node suspend x n :
  get_node (demo_traversal suspend) x = Some n → n ∈ nodes (demo_graph suspend) ∧ node_id n = x.
Proof.
  unfold get_node. intros ([i n'] & Hn & [= ->])%fmap_Some. cbn [snd].
  apply list_find_Some in Hn as (Hi & Hid & _). split; [|done]. by eapply list_elem_of_lookup_2.
Qed.
