(* ===== verification/CoordFrame.v ===== *)
(** Frames of the execution loop: what its steps leave alone.  A property that
    is [Framed] survives everything a step does around the node itself; the
    lemmas lift it through the failure path, the dispatch of a node, an
    iteration and a whole run. *)

From S2P Require Import Prelude Strings Json GraphTypes ErrorBranch Graph LoopState Entity Coordinator.

Section frames.
  Context `{Env : Environment}.

(** A property of the coordinator that looks at none of the parts every step
    may change. *)
Class Framed (Q : WorkflowCoordinator → Prop) : Prop := {
  framed_entity e c :
    pending_injections e = pending_injections (entity c) → Q c → Q (set_entity e c);
  framed_current x c : Q c → Q (set_current x c);
  framed_inbox l c : Q c → Q (set_inbox l c);
  framed_skipped X c : Q c → Q (set_skipped X c);
  framed_enter s c : Q c → Q (enter_error_branch s c);
}.

Section framed.
  Context (Q : WorkflowCoordinator → Prop) `{!Framed Q}.

Lemma framed_on_state f : stable Q (on_state f).
Proof. intros c. by apply framed_entity. Qed.
Lemma framed_run_state m : stable Q (run_state m).
Proof. intros c. by apply framed_entity. Qed.
Lemma framed_interrupt m c : Q c → Q (interrupt m c).
Proof. by apply framed_entity. Qed.
Lemma framed_current_node x : stable Q (set_current_node x).
Proof. intros c. apply framed_current. Qed.
Hint Extern 2 (Q _) => first
  [ apply framed_entity; [done|] | apply framed_current | apply framed_inbox | apply framed_skipped
  | apply framed_enter | apply framed_interrupt ] : stable.
Hint Resolve framed_on_state framed_run_state framed_current_node : stable.

Lemma framed_check a t x : stable Q (check_interruption_and_timeout a t x).
Proof. unfold check_interruption_and_timeout, check_timeout. solve_stable. Qed.
Lemma framed_signals id l c : Q c → Q (process_signals id l c).
Proof.
  revert c. induction l as [|s l IH]; intros c Hc; cbn [process_signals]; [auto with stable|].
  case_decide; [by apply IH|]. destruct s; auto with stable.
Qed.
Lemma framed_continue s x : stable Q (continue_on_branch s x).
Proof. unfold continue_on_branch. solve_stable. Qed.
Hint Extern 2 (Q _) => apply framed_signals : stable.
Hint Resolve framed_check framed_continue : stable.
Lemma framed_late i s x : stable Q (suspended_or_resumed i s x).
Proof.
  intros c Hc. unfold suspended_or_resumed.
  pose proof (framed_check (late_active_ms i) (node_end i) x c Hc) as H.
  destruct (check_interruption_and_timeout _ _ _ c) as [c' [[]|e]]; [|done].
  revert H. generalize c'. change (stable Q (_ ← on_state (set_error_suspend None); continue_on_branch s x)).
  solve_stable.
Qed.
Hint Resolve framed_late : stable.
Lemma framed_route i x e : stable Q (route_node_failure i x e).
Proof. unfold route_node_failure, suspend_error_branch. solve_stable. Qed.
Hint Resolve framed_route : stable.
Lemma framed_handle i x e : stable Q (handle_failure i x e).
Proof. unfold handle_failure. solve_stable. Qed.
Lemma framed_failure i x v e : stable Q (record_node_failure i x v e).
Proof. unfold record_node_failure. solve_stable. Qed.
Hint Resolve framed_handle framed_failure : stable.

(** A node is dispatched from [P] to [Q] when its success is. *)
Lemma framed_dispatch (P : WorkflowCoordinator → Prop) i x :
  (∀ e c, pending_injections e = pending_injections (entity c) → P c → P (set_entity e c)) →
  (∀ n c, get_node (traversal c) x = Some n → P c → P (execute_node x n c).1) →
  (∀ c, P c → Q c) →
  (∀ v r c, P c → Q (record_node_success i x v r c).1) →
  ∀ c, P c → Q (dispatch i x c).1.
Proof.
  intros Pe Px PQ Hs c Hc. unfold dispatch, on_state.
  apply (hoare_state (F := Q) P _ (λ _, Q)); [|done|done].
  apply hoare_bind with (λ _, P); [apply hoare_modify; auto|intros _].
  apply hoare_bind with (λ c0 c, P c ∧ c = c0); [by intros d Hd|intros c0].
  apply hoare_bind with (λ n c, P c ∧ get_node (traversal c) x = Some n).
  { apply hoare_lift; [intros d [Hd _]; auto|]. by intros n d Hn%ok_or_Ok [Hd ->]. }
  intros n. apply hoare_bind with (λ _ c, P c ∧ get_node (traversal c) x = Some n).
  { apply hoare_lift; [intros d [Hd _]; auto|done]. }
  intros _. apply hoare_bind with (λ _, P).
  { intros d [Hd Hn]. by apply (Px n d Hn). }
  intros r.
  apply hoare_bind with (λ _, Q); [|intros _; apply hoare_stable; [solve_stable|done]].
  destruct r.2 as [out|e].
  - apply hoare_bind with (λ _, Q); [|intros _; apply hoare_stable; [solve_stable|done]].
    intros s H. specialize (Hs r.1 out s H). by destruct (record_node_success _ _ _ _ s) as [? [|]].
  - apply hoare_weaken with (P' := Q) (Q' := λ _, Q); [|done|done].
    apply hoare_stable; [solve_stable|done].
Qed.

End framed.

(** The steps whose frame is the variables'. *)
Section variables_frame.
  Context (Q : WorkflowCoordinator → Prop) `{!Framed Q}.
  Context (Qvars : ∀ st c, Q c → Q (set_variables st c)).
  Context (Qoutputs : ∀ x c, Q c → Q (set_outputs x c)) (Qcompleted : ∀ l c, Q c → Q (set_completed l c)).
  Context (Qmerge : ∀ x c, at_merge_point c x = true → Q c → Q (merge_error_scope c)).
  Context (Qarrive : ∀ i c, Q c → Q (arrive i c)).
  Context (Qinj : ∀ c, Q c → Q (apply_pending_variable_injections c)).
  Context (Qnav : ∀ x, stable Q (check_navigation_backstop x)).

Lemma vars_iterations x : stable Q (record_loop_iteration_completion x).
Proof.
  intros c Hc. unfold record_loop_iteration_completion. case_match; [done|].
  destruct (record_iteration_completion x (variables c)) as [st [a|e]]; simpl; auto.
Qed.
Lemma vars_success i x input r : stable Q (record_node_success i x input r).
Proof.
  unfold record_node_success. solve_stable; try eauto; try apply vars_iterations.
  all: try apply framed_on_state; try done. all: by apply framed_entity.
Qed.
Lemma vars_execute x n : stable Q (execute_node x n).
Proof. intros c Hc. unfold execute_node. simpl. by apply Qvars, framed_entity. Qed.
Lemma vars_dispatch i x : stable Q (dispatch i x).
Proof.
  intros d. apply (framed_dispatch Q Q); try done.
  - intros e c. apply framed_entity.
  - intros n c _. apply vars_execute.
  - intros v r c. apply vars_success.
Qed.
Hint Resolve vars_dispatch : stable.
Lemma vars_iteration i x : stable Q (iteration i x).
Proof.
  unfold iteration, skip_completed_node.
  solve_stable; try apply framed_check; try apply framed_current_node; auto.
  all: try by apply framed_entity. all: try by apply framed_skipped. all: try by apply framed_current.
Qed.
Lemma vars_main_loop inputs c c' r : Q c → main_loop inputs c = Some (c', r) → Q c'.
Proof.
  revert c. induction inputs as [|i inputs IH]; intros c Hc; cbn [main_loop];
    destruct (current_node_id c) as [x|]; try done; try by intros [= <- <-].
  pose proof (vars_iteration i x c Hc) as Hi.
  destruct (iteration i x c) as [d [[]|e]]; [by apply IH|by intros [= <- <-]..].
Qed.
End variables_frame.

End frames.
