(* ===== verification/Navigation.v ===== *)
(** The navigation backstop: how many nodes a run can visit, and why a run
    without loops ends. *)

From S2P Require Import Prelude Strings Json GraphTypes ErrorBranch Graph LoopState Entity Coordinator CoordExample CoordFrame.

Section navigation.
  Context `{Env : Environment}.

(** The nodes a run visits, up to the iteration that ends it. *)
Fixpoint visits (inputs : list Input) (c : WorkflowCoordinator) : list string :=
  match current_node_id c, inputs with
  | Some x, i :: rest =>
      match iteration i x c with (c', Ok true) => x :: visits rest c' | _ => [] end
  | _, _ => []
  end.
Definition of_type (t : GraphTraversal) (ty : string) (x : string) : bool :=
  bool_decide (node_type <$> get_node t x = Some ty).

(** The backstop's counters and everything they depend on. *)
Definition nav (c : WorkflowCoordinator) : GraphTraversal * Z * Z * Z * Z * bool :=
  (traversal c, total_node_count c, max_navigation_multiplier c, navigation_count c,
   loop_navigation_count c, in_loop_body c).

Lemma nav_set_variables st c : nav (set_variables st c) = nav c.
Proof. unfold set_variables. by case_match. Qed.
Lemma nav_merge c : nav (merge_error_scope c) = nav c.
Proof. unfold merge_error_scope. by case_match. Qed.
Lemma nav_injections c : nav (apply_pending_variable_injections c) = nav c.
Proof. unfold apply_pending_variable_injections. by repeat case_match. Qed.
#[local] Instance nav_framed v : Framed (λ c, nav c = v).
Proof. split; try done. intros s c <-. unfold enter_error_branch. by case_match. Qed.

Lemma nav_iterations v x : stable (λ c, nav c = v) (record_loop_iteration_completion x).
Proof.
  intros c Hc. unfold record_loop_iteration_completion. case_match; [done|].
  destruct (record_iteration_completion x (variables c)) as [st [a|e]]; simpl;
    by rewrite nav_set_variables.
Qed.
Lemma nav_execute v x n : stable (λ c, nav c = v) (execute_node x n).
Proof. intros c Hc. unfold execute_node. simpl. by rewrite nav_set_variables. Qed.
Lemma nav_success v i x input r : stable (λ c, nav c = v) (record_node_success i x input r).
Proof.
  unfold record_node_success, on_state. solve_stable; try done.
  - apply nav_iterations.
  - by rewrite nav_merge.
Qed.
Lemma nav_dispatch v i x c : nav c = v → nav (dispatch i x c).1 = v.
Proof.
  apply (framed_dispatch (λ c, nav c = v) (λ c, nav c = v)); try done.
  - intros n d _. apply nav_execute.
  - intros input r d. apply nav_success.
Qed.
Lemma nav_skip v x : stable (λ c, nav c = v) (skip_completed_node x).
Proof. unfold skip_completed_node, set_current_node. solve_stable; done. Qed.

(** What a visit does to the counters. *)
Definition counted (x : string) (c c' : WorkflowCoordinator) : Prop :=
  let d := enter_node x c in
  nav c' = (traversal c, total_node_count c, max_navigation_multiplier c,
            if in_loop_body d then navigation_count d else wrap32 (navigation_count d + 1),
            if in_loop_body d then wrap32 (loop_navigation_count d + 1) else loop_navigation_count d,
            in_loop_body d) ∧
  ((0 < max_navigations c)%Z →
     if in_loop_body d then (loop_navigation_count c' <= max_navigations c)%Z
     else (navigation_count c' <= max_navigations c)%Z).

Lemma nav_enter x c :
  nav (enter_node x c) = (traversal c, total_node_count c, max_navigation_multiplier c, navigation_count c,
                          loop_navigation_count (enter_node x c), in_loop_body (enter_node x c)).
Proof. unfold enter_node, nav. destruct (_ <$> _) as [ty|]; [|done]. repeat case_match; done. Qed.
Lemma backstop_counted x c :
  match check_navigation_backstop x c with (c', Ok _) => counted x c c' | _ => True end.
Proof.
  unfold counted. pose proof (nav_enter x c) as Hn.
  unfold check_navigation_backstop, mbind, M_bind, modify, get_state, throw. revert Hn.
  cbn beta iota. generalize (enter_node x c). intros d Hn.
  injection Hn as Ht Hk Hm Hc. unfold max_navigations. rewrite <-Hk, <-Hm.
  destruct (in_loop_body d) eqn:Hin; case_decide as Hlt; cbn in *; try done.
  all: split; [unfold nav; cbn; congruence|lia].
Qed.

Lemma counted_nav x c d c' : nav d = nav c → counted x d c' → counted x c c'.
Proof.
  intros Hd. assert (nav (enter_node x d) = nav (enter_node x c)) as He.
  { injection Hd as Ht Hk Hm Hc Hl Hb. unfold enter_node. rewrite Ht.
    destruct (_ <$> _) as [ty|]; [|unfold nav; congruence]. repeat case_match; unfold nav; cbn; congruence. }
  injection Hd as Ht Hk Hm Hc Hl Hb. injection He as _ _ _ Hc' Hl' Hb'.
  unfold counted, max_navigations. by rewrite Ht, Hk, Hm, Hc', Hl', Hb'.
Qed.
Lemma counted_stable x c : ∀ A (m : Coord A), (∀ v, stable (λ c, nav c = v) m) → stable (counted x c) m.
Proof.
  intros A m Hm d [H1 H2]. specialize (Hm (nav d) d eq_refl). simpl in Hm.
  split; [by rewrite Hm|]. by injection Hm as _ _ _ -> -> _.
Qed.
Lemma iteration_counted i x c :
  match iteration i x c with (c', Ok true) => counted x c c' | _ => True end.
Proof.
  assert (hoare (λ _, True) (λ d, nav d = nav c) (iteration i x) (λ b c', b = true → counted x c c')) as H.
  { unfold iteration.
    apply hoare_bind with (λ _ d, nav d = nav c); [by apply hoare_modify|intros _].
    apply hoare_bind with (λ _ d, nav d = nav c); [apply hoare_stable; [apply framed_check, _|done]|intros _].
    apply hoare_bind with (λ _ d, nav d = nav c);
      [apply hoare_modify; intros d; by rewrite nav_injections|intros _].
    apply hoare_bind with (λ _ d, nav d = nav c); [apply hoare_get|intros d0].
    destruct (steps_used_up d0); [by apply hoare_ret|].
    apply hoare_bind with (λ _, counted x c).
    { intros d Hd. pose proof (backstop_counted x d) as H.
      destruct (check_navigation_backstop x d) as [d' [[]|e]]; [|done]. by apply counted_nav with d. }
    intros _. apply hoare_weaken with (P' := counted x c) (Q' := λ _, counted x c); [|done|done].
    apply hoare_stable; [apply counted_stable; intros v|done].
    pose proof (nav_skip v x). pose proof (nav_dispatch v i x : stable _ _).
    solve_stable; done. }
  specialize (H c eq_refl). destruct (iteration i x c) as [c' [[]|e]]; auto.
Qed.

(** The visits the counters still allow. *)
Definition counters_in_range (c : WorkflowCoordinator) : Prop :=
  (0 < max_navigations c < u32_max)%Z ∧ (0 <= navigation_count c <= max_navigations c)%Z ∧
  (0 <= loop_navigation_count c <= max_navigations c)%Z.
Definition allowance (c : WorkflowCoordinator) : Z :=
  (max_navigations c - navigation_count c) +
  (if in_loop_body c then max_navigations c - loop_navigation_count c else 0).

Lemma enter_node_cases x c :
  (of_type (traversal c) "LOOP_START" x = true ∧ of_type (traversal c) "LOOP_END" x = false ∧
     enter_node x c = set_navigation (navigation_count c) 0 true c) ∨
  (of_type (traversal c) "LOOP_START" x = false ∧ of_type (traversal c) "LOOP_END" x = true ∧
     enter_node x c = set_navigation (navigation_count c) 0 false c) ∨
  (of_type (traversal c) "LOOP_START" x = false ∧ of_type (traversal c) "LOOP_END" x = false ∧
     enter_node x c = c).
Proof.
  unfold of_type, enter_node. destruct (_ <$> _) as [ty|]; [|by right; right].
  destruct (decide (ty = "LOOP_START")) as [->|Hs]; [by left|right].
  destruct (decide (ty = "LOOP_END")) as [->|He]; [by left|right].
  split; [by apply bool_decide_eq_false_2; intros [= ->]|].
  split; [by apply bool_decide_eq_false_2; intros [= ->]|].
  repeat (case_match; try done).
Qed.

Lemma counted_cases x c c' :
  counters_in_range c → counted x c c' →
  traversal c' = traversal c ∧ max_navigations c' = max_navigations c ∧ counters_in_range c' ∧
  (allowance c' + 1 <= allowance c +
     if of_type (traversal c) "LOOP_START" x then max_navigations c else 0)%Z ∧
  (navigation_count c + (if of_type (traversal c) "LOOP_END" x then 1 else 0) <= navigation_count c')%Z.
Proof.
  intros (HM & Hn & Hl) [Hnav Hle]. injection Hnav as Ht Hk Hm Hn' Hl' Hb'.
  assert (max_navigations c' = max_navigations c) as HM' by (unfold max_navigations; congruence).
  specialize (Hle (proj1 HM)). unfold counters_in_range, allowance.
  rewrite HM', Hn', Hl', Hb' in *.
  assert (∀ z, (0 <= z <= max_navigations c)%Z → wrap32 (z + 1) = z + 1)%Z as Hw.
  { intros z Hz. apply wrap32_small. unfold u32. mlia. }
  pose proof (Hw 0%Z ltac:(lia)) as H0. pose proof (Hw _ Hn) as H1. pose proof (Hw _ Hl) as H2. clear Hw.
  destruct (enter_node_cases x c) as [(-> & -> & He)|[(-> & -> & He)|(-> & -> & He)]];
    rewrite He in *; simpl in *; [| |destruct (in_loop_body c)]; repeat split; try done;
    try destruct (in_loop_body c); lia.
Qed.

Definition visits_of (t : GraphTraversal) (ty : string) (vs : list string) : Z :=
  Z.of_nat (length (filter (λ x, of_type t ty x = true) vs)).

Lemma visits_of_cons t ty x vs :
  visits_of t ty (x :: vs) = ((if of_type t ty x then 1 else 0) + visits_of t ty vs)%Z.
Proof.
  unfold visits_of. rewrite filter_cons. destruct (of_type t ty x); case_decide; cbn [length]; lia.
Qed.

Lemma visits_allowed inputs c :
  counters_in_range c →
  let t := traversal c in let M := max_navigations c in
  let vs := visits inputs c in
  (Z.of_nat (length vs) <= allowance c + M * visits_of t "LOOP_START" vs ∧
   navigation_count c + visits_of t "LOOP_END" vs <= M)%Z.
Proof.
  revert c. induction inputs as [|i inputs IH]; intros c Hc; cbn [visits].
  { destruct (current_node_id c); unfold visits_of, allowance, counters_in_range in *; simpl;
      case_match; lia. }
  assert (0 <= allowance c ∧ navigation_count c <= max_navigations c)%Z as Hnil.
  { unfold allowance, counters_in_range in *. case_match; lia. }
  destruct (current_node_id c) as [x|]; [|unfold visits_of; simpl; lia].
  pose proof (iteration_counted i x c) as Hi.
  destruct (iteration i x c) as [c' [[]|e]]; [|unfold visits_of; simpl; lia..].
  destruct (counted_cases x c c' Hc Hi) as (Ht & HM & Hc' & Ha & Hn).
  specialize (IH c' Hc'). simpl in IH. rewrite Ht, HM in IH.
  cbv zeta. rewrite !visits_of_cons. cbn [length].
  destruct (of_type _ "LOOP_START" x), (of_type _ "LOOP_END" x); lia.
Qed.

(** A coordinator before its first node. *)
Definition fresh (c : WorkflowCoordinator) : Prop :=
  navigation_count c = 0%Z ∧ loop_navigation_count c = 0%Z ∧ in_loop_body c = false.

Lemma fresh_in_range c :
  fresh c → (0 < max_navigations c < u32_max)%Z → counters_in_range c ∧ allowance c = max_navigations c.
Proof. intros (Hn & Hl & Hb) HM. unfold counters_in_range, allowance. rewrite Hn, Hl, Hb. lia. Qed.

Lemma main_loop_visits inputs c :
  main_loop inputs c = None → length (visits inputs c) = length inputs.
Proof.
  revert c. induction inputs as [|i inputs IH]; intros c; cbn [main_loop visits].
  { by destruct (current_node_id c). }
  destruct (current_node_id c) as [x|]; [|done].
  destruct (iteration i x c) as [c' [[]|e]]; try done. intros H. cbn [length]. by rewrite (IH c' H).
Qed.

(** The navigation backstop bounds every run: a fresh coordinator with navigation budget [M]
    visits at most [M] nodes and [M] more for every visit to a LOOP_START, and it visits
    LOOP_END nodes at most [M] times in all. *)
Theorem visits_bounded (inputs : list Input) (c : WorkflowCoordinator)
    (Hfresh : fresh c) (HM : (0 < max_navigations c < u32_max)%Z) :
  let M := max_navigations c in
  let vs := visits inputs c in
  (Z.of_nat (length vs) <= M + M * visits_of (traversal c) "LOOP_START" vs ∧
   visits_of (traversal c) "LOOP_END" vs <= M)%Z.
Proof.
  destruct (fresh_in_range c Hfresh HM) as [Hr Ha]. destruct Hfresh as (Hn & _ & _).
  pose proof (visits_allowed inputs c Hr) as H. simpl in *. rewrite Ha, Hn in H. lia.
Qed.

(** C20: a workflow without LOOP_START nodes runs to an end, whatever its graph, its conditions and
    its handlers do: after at most as many iterations as the navigation budget the loop has
    left with a result, and the whole execution has one. *)
Theorem loop_free_terminates (t0 t1 : Z) (inputs : list Input) (c : WorkflowCoordinator)
    (Hfresh : fresh c) (HM : (0 < max_navigations c < u32_max)%Z)
    (Hfree : ∀ x, of_type (traversal c) "LOOP_START" x = false)
    (Hlen : (max_navigations c < Z.of_nat (length inputs))%Z) :
  is_Some (execute_inner t0 t1 inputs c).
Proof.
  unfold execute_inner. destruct (run_state (state_start t0) c) as [d [[]|e]] eqn:Hd; [|done].
  assert (nav d = nav c) as Hnav by (by injection Hd as <- _).
  injection Hnav as Ht Hk Hm Hn Hl Hb. destruct Hfresh as (Hn0 & Hl0 & Hb0).
  destruct (main_loop inputs d) as [[d' [[]|e]]|] eqn:Hr; simpl; [by repeat case_match|done|exfalso].
  apply main_loop_visits in Hr.
  assert (max_navigations d = max_navigations c) as HMd by (unfold max_navigations; congruence).
  assert (counters_in_range d ∧ allowance d = max_navigations d) as [Hrange Ha].
  { apply fresh_in_range; [unfold fresh; split; [|split]; congruence|by rewrite HMd]. }
  destruct (visits_allowed inputs d Hrange) as [H _].
  assert (visits_of (traversal d) "LOOP_START" (visits inputs d) = 0%Z) as H0.
  { rewrite Ht. generalize (visits inputs d). induction l as [|x vs IH]; [done|].
    rewrite visits_of_cons, Hfree. exact IH. }
  rewrite H0, Ha, HMd, Hr in H. lia.
Qed.

End navigation.

(** * Witnesses *)

Lemma demo_loop_free suspend x : of_type (traversal (demo suspend)) "LOOP_START" x = false.
Proof.
  unfold of_type. apply bool_decide_eq_false_2.
  intros (n & [Hn _]%demo_get_node & Hty)%fmap_Some. revert Hty. simpl in Hn.
  repeat (apply elem_of_cons in Hn as [->|Hn]; [done|]). by apply not_elem_of_nil in Hn.
Qed.

Lemma visits_bounded_witness :
  let c := demo false in let vs := visits (replicate 25 quiet) c in
  vs = ["a"; "b"; "h"; "c"] ∧ max_navigations c = 20%Z ∧
  (Z.of_nat (length vs) <= max_navigations c + max_navigations c * visits_of (traversal c) "LOOP_START" vs)%Z.
Proof.
  cbv zeta. split; [by vm_compute|]. split; [by vm_compute|].
  assert (0 < max_navigations (demo false) < u32_max)%Z as HM by (by vm_compute).
  assert (fresh (demo false)) as Hf by done.
  exact (proj1 (visits_bounded (replicate 25 quiet) (demo false) Hf HM)).
Defined.
Lemma loop_free_terminates_witness :
  is_Some (execute_inner 0 1 (replicate 21 quiet) (demo false)).
Proof.
  apply (loop_free_terminates 0 1); [done|by vm_compute|apply demo_loop_free|by vm_compute].
Defined.
