(* ===== verification/BranchScope.v ===== *)
(** Error branches at run time: the branch's variables are an overlay of the
    main path's, merged back at merge points only, and a suspended branch is
    resumed from its record. *)

From S2P Require Import Prelude Strings Json GraphTypes ErrorBranch Graph LoopState Entity Coordinator CoordExample CoordFrame.

Section scopes.
  Context `{Env : Environment}.

(** * Error branches *)

(** The main path waits in [v] while a branch runs, in a graph without merge
    points. *)
Definition isolated (t : GraphTraversal) (v : Store) (c : WorkflowCoordinator) : Prop :=
  traversal c = t ∧ main_variables c = v ∧ is_Some (error_scope c).

#[local] Instance isolated_framed t v : Framed (isolated t v).
Proof.
  split; unfold isolated; try done. intros s c (? & ? & [sc Hs]). unfold enter_error_branch.
  rewrite Hs. simpl. eauto.
Qed.
Lemma isolated_variables t v st c : isolated t v c → isolated t v (set_variables st c).
Proof. unfold isolated, set_variables. intros (? & ? & [sc Hs]). rewrite Hs. simpl. eauto. Qed.

(** The snapshot of a scope is the main path's variables. *)
Definition scope_ok (c : WorkflowCoordinator) : Prop :=
  ∀ s, error_scope c = Some s → scope_snapshot s = main_variables c.

#[local] Instance scope_ok_framed : Framed scope_ok.
Proof.
  split; try done. intros s c Hc. unfold enter_error_branch, scope_ok in *.
  destruct (error_scope c) as [sc|] eqn:Hs; simpl; intros s' [= <-]; simpl; auto.
Qed.
Lemma scope_ok_variables st c : scope_ok c → scope_ok (set_variables st c).
Proof.
  unfold scope_ok, set_variables. intros Hc. destruct (error_scope c) as [sc|] eqn:Hs; simpl.
  - intros s' [= <-]. simpl. auto.
  - by rewrite Hs.
Qed.
Lemma scope_ok_merge c : scope_ok c → scope_ok (merge_error_scope c).
Proof. unfold merge_error_scope. by case_match. Qed.
Lemma scope_ok_injections c : scope_ok c → scope_ok (apply_pending_variable_injections c).
Proof.
  unfold apply_pending_variable_injections. repeat case_match; try done. unfold scope_ok. simpl. congruence.
Qed.

Lemma scope_ok_nav x : stable scope_ok (check_navigation_backstop x).
Proof.
  unfold check_navigation_backstop. solve_stable; try done.
  unfold enter_node. destruct (_ <$> _) as [ty|]; [|done]. by repeat case_match.
Qed.
Lemma isolated_nav t v x : stable (isolated t v) (check_navigation_backstop x).
Proof.
  unfold check_navigation_backstop. solve_stable; try done.
  unfold enter_node. destruct (_ <$> _) as [ty|]; [|done]. by repeat case_match.
Qed.
Lemma scope_ok_main_loop inputs c c' r :
  scope_ok c → main_loop inputs c = Some (c', r) → scope_ok c'.
Proof.
  apply vars_main_loop; try done; auto using scope_ok_variables, scope_ok_injections, scope_ok_nav.
  - apply _.
  - intros x d _. apply scope_ok_merge.
Qed.
Lemma isolated_main_loop t v inputs c c' r :
  (∀ d x, traversal d = t → at_merge_point d x = false) →
  isolated t v c → main_loop inputs c = Some (c', r) → isolated t v c'.
Proof.
  intros Ht. apply vars_main_loop; try done; auto using isolated_variables, isolated_nav.
  - apply _.
  - intros x d Hm Hd. rewrite Ht in Hm by apply Hd. done.
  - intros d (? & ? & [s Hs]). unfold apply_pending_variable_injections. rewrite Hs.
    case_match; unfold isolated; rewrite ?Hs; eauto.
Qed.

(** C35: an error branch is isolated: in a graph without merge points, a run that is inside an error
    branch never changes the variables of the main path, however long it runs and however
    it ends, and dropping the scope at its end gives them back. *)
Theorem error_branch_isolated (inputs : list Input) (c c' : WorkflowCoordinator)
    (r : result WorkflowError ())
    (Hscope : is_Some (error_scope c))
    (Hmerge : ∀ x n, get_node (traversal c) x = Some n → is_merge_point (inner n) = false)
    (Hrun : main_loop inputs c = Some (c', r)) :
  main_variables c' = main_variables c ∧
  variables (discard_error_scope c') = main_variables c.
Proof.
  destruct (isolated_main_loop (traversal c) (main_variables c) inputs c c' r) as (_ & Hv & _); try done.
  - intros d x Hd. unfold at_merge_point. rewrite Hd. destruct (get_node _ x) eqn:Hx; [by eapply Hmerge|done].
  - split; [done|]. unfold discard_error_scope. by case_match; rewrite <-Hv; unfold variables;
      simpl; [|rewrite H].
Qed.

(** While an error branch is open the main path is frozen: after any run that began outside a
    branch, merge points included, the snapshot of an open scope is exactly the main path's
    variables. *)
Theorem error_scope_snapshot_current (inputs : list Input) (c c' : WorkflowCoordinator)
    (r : result WorkflowError ()) (s : ErrorBranchScope)
    (Hscope : error_scope c = None) (Hrun : main_loop inputs c = Some (c', r))
    (Hs : error_scope c' = Some s) :
  scope_snapshot s = main_variables c'.
Proof.
  refine (scope_ok_main_loop inputs c c' r _ Hrun s Hs). intros s' Hs'. by rewrite Hscope in Hs'.
Qed.

(** Merging a branch gives each variable the branch's value if the branch has one and the
    variable is not of the error namespace, and the main path's value otherwise; the branch is
    closed. *)
Theorem merge_error_scope_correct (c : WorkflowCoordinator) (s : ErrorBranchScope)
    (Hs : error_scope c = Some s) (Hok : scope_snapshot s = main_variables c) (k : string) :
  error_scope (merge_error_scope c) = None ∧
  variables (merge_error_scope c) !! k =
    if is_machinery_key k then main_variables c !! k
    else match scope_overlay s !! k with Some v => Some v | None => main_variables c !! k end.
Proof.
  unfold merge_error_scope. rewrite Hs. split; [done|]. unfold variables. simpl.
  set (P := λ kv : string * value, _). rewrite lookup_union.
  destruct (filter P (scope_overlay s) !! k) as [v|] eqn:Hf.
  - apply map_lookup_filter_Some in Hf as [Hk [Hm _]]. simpl in Hm. rewrite Hm, Hk.
    by destruct (main_variables c !! k).
  - rewrite (left_id_L None _). destruct (is_machinery_key k) eqn:Hm; [done|].
    destruct (scope_overlay s !! k) as [v|] eqn:Hk; [|done].
    rewrite <-Hok. destruct (decide (scope_snapshot s !! k = Some v)) as [|Hne]; [done|].
    apply map_lookup_filter_None in Hf as [Hf|Hf]; [by rewrite Hf in Hk|].
    exfalso. by apply (Hf v).
Qed.

(** The gate adds to the interruption records, the timeouts and the status, and
    to nothing else. *)
Definition gate_view (c : WorkflowCoordinator) :=
  (error_scope c, main_variables c, current_node_id c, error_suspend (state (entity c)),
   state_node (state (entity c))).
Lemma gate_keeps v a t x : stable (λ c, gate_view c = v) (check_interruption_and_timeout a t x).
Proof.
  unfold check_interruption_and_timeout, check_timeout, on_state. solve_stable; try done.
  all: intros c <-; unfold run_state, state_timeout, status_transition, gate_view, mbind, M_bind, modify.
  all: by destruct (transition_allowed _ _).
Qed.

(** A failure routed to a suspending branch leaves a record from which the run resumes where it
    would have continued: the variables are untouched, the resume cursor is the branch's
    target, and restoring the record opens the same branch over the same variables as
    continuing at once does, consuming the record. *)
Theorem suspended_branch_resumes (i : Input) (failed : string) (e p : WorkflowError)
    (c c1 : WorkflowCoordinator)
    (Hscope : error_scope c = None)
    (Hsuspend : route_node_failure i failed e c = (c1, Ok (Suspended p))) :
  let category := classify_error shared_error_type e in
  ∃ target, resolve (error_table (traversal c)) failed category = Some target ∧
    jump_suspend target = true ∧
    state_node (state (entity c1)) = Some (jump_target target) ∧
    let summary := new_summary (error_text e) category failed (attempts_of c failed)
                     (failure_source_of e) in
    let resumed := restore_suspended_error_branch c1 in
    variables c1 = variables c ∧
    error_scope resumed = error_scope (enter_error_branch summary c) ∧
    main_variables resumed = main_variables c ∧
    error_suspend (state (entity resumed)) = None.
Proof.
  intros category. revert Hsuspend. unfold route_node_failure.
  change (mbind (M := SE WorkflowCoordinator WorkflowError) ?f get_state c) with (f c c). cbv zeta beta.
  case_decide as Hstop; [done|]. fold category.
  destruct (resolve _ failed category) as [target|] eqn:Hr; [|done].
  destruct (get_node _ _) as [n|]; [|done]. destruct (jump_suspend target) eqn:Hj.
  2: { destruct (decide _); unfold continue_on_branch; by intros [= <- ?]. }
  set (summary := new_summary _ _ _ _ _). intros Hs. exists target. do 2 (split; [done|]).
  assert (∃ d, suspended_or_resumed i summary (jump_target target) d = (c1, Ok (Suspended p)) ∧
    gate_view d = (None, main_variables c, current_node_id c,
      Some {| suspend_summary := summary; suspend_target := jump_target target;
              suspended_at := node_end i |}, Some (jump_target target))) as (d & Hd & Hview).
  { eexists. split; [exact Hs|]. unfold gate_view. cbn. by rewrite Hscope. }
  unfold suspended_or_resumed in Hd.
  pose proof (gate_keeps _ (late_active_ms i) (node_end i) (jump_target target) d Hview) as Hg.
  destruct (check_interruption_and_timeout _ _ _ d) as [d' [[]|e']]; [by injection Hd as _ ?|].
  injection Hd as <- <-. unfold gate_view in Hg. cbn in Hg. injection Hg as H1 H2 H3 H4 H5.
  unfold restore_suspended_error_branch, variables, enter_error_branch.
  rewrite H1, H4, Hscope. cbn. by rewrite H1, H2.
Qed.

End scopes.

(** * Witnesses *)

(** The demo after its failure, on the error branch. *)
Definition demo_branch : WorkflowCoordinator := (iteration quiet "b" (iteration quiet "a" (demo false)).1).1.
Definition demo_summary : ErrorBranchSummary := new_summary "rejected" BusinessFailure "b" 1 Handler.
Definition demo_scope : ErrorBranchScope :=
  {| scope_summary := demo_summary; scope_snapshot := {[ "x" := VNull ]};
     scope_overlay := insert_all (summary_variables demo_summary) {[ "x" := VNull ]} |}.
Lemma demo_branch_scope : error_scope demo_branch = Some demo_scope.
Proof. by vm_compute. Qed.
Lemma demo_no_merge x n :
  get_node (demo_traversal false) x = Some n → is_merge_point (inner n) = false.
Proof.
  intros [Hn _]%demo_get_node. simpl in Hn.
  repeat (apply elem_of_cons in Hn as [->|Hn]; [done|]). by apply not_elem_of_nil in Hn.
Qed.

Lemma error_branch_isolated_witness :
  ∃ c r, main_loop (replicate 2 quiet) demo_branch = Some (c, r) ∧
    (variables c !! "handled" = Some (VBool true)) ∧ main_variables c = main_variables demo_branch.
Proof.
  eexists _, _. split; [by vm_compute|]. split; [by vm_compute|].
  eapply (error_branch_isolated (replicate 2 quiet) demo_branch).
  - by rewrite demo_branch_scope.
  - exact demo_no_merge.
  - by vm_compute.
Defined.
Lemma error_scope_snapshot_current_witness :
  ∃ c r s, main_loop (replicate 25 quiet) (demo false) = Some (c, r) ∧ error_scope c = Some s ∧
    scope_snapshot s = main_variables c.
Proof.
  eexists _, _, _. split; [by vm_compute|]. split; [by vm_compute|].
  by eapply (error_scope_snapshot_current (replicate 25 quiet) (demo false)); vm_compute.
Defined.
Lemma merge_error_scope_correct_witness :
  variables (merge_error_scope (set_variables {[ "handled" := VBool true; "error.message" := VNull ]} demo_branch))
    !! "handled" = Some (VBool true).
Proof.
  rewrite (proj2 (merge_error_scope_correct
    (set_variables {[ "handled" := VBool true; "error.message" := VNull ]} demo_branch)
    {| scope_summary := demo_summary; scope_snapshot := {[ "x" := VNull ]};
       scope_overlay := {[ "handled" := VBool true; "error.message" := VNull ]} |}
    ltac:(by vm_compute) ltac:(by vm_compute) "handled")).
  by vm_compute.
Defined.
Lemma suspended_branch_resumes_witness :
  ∃ c p, route_node_failure quiet "b" demo_failure (demo true) = (c, Ok (Suspended p)) ∧
    ∃ target, resolve (error_table (traversal (demo true))) "b" BusinessFailure = Some target ∧
      jump_suspend target = true ∧ state_node (state (entity c)) = Some (jump_target target).
Proof.
  eexists _, _. split; [by vm_compute|].
  edestruct (suspended_branch_resumes quiet "b" demo_failure (ExecutionPaused "Execution paused") (demo true))
    as (target & Hr & Hj & Hn & _); [by vm_compute|by vm_compute|].
  exists target. split; [exact Hr|]. by split; [|exact Hn].
Defined.
