(* ===== verification/NodeRuns.v ===== *)
(** What a run does with its nodes: outside loops none completes twice, a
    stopped run executes none, and a node's input is made of the outputs that
    reached it. *)

From S2P Require Import Prelude Strings Json GraphTypes ErrorBranch Graph LoopState Entity Coordinator CoordExample CoordFrame Navigation.

Section runs.
  Context `{Env : Environment}.

(** * Each node at most once *)

(** What waits in the injection buffer does not name the loop stack. *)
Definition plain_names (p : gmap string PendingVariableInjection) : Prop :=
  ∀ id j, p !! id = Some j → inj_name j ≠ LOOP_STATE_STACK_KEY.

(** No loop is active on any path nor waits to be injected, and no node is
    completed twice. *)
Definition no_stack (st : Store) : Prop := st !! LOOP_STATE_STACK_KEY = None.
Definition no_loop (c : WorkflowCoordinator) : Prop :=
  (no_stack (main_variables c) ∧ plain_names (pending_injections (entity c))) ∧ ∀ s, error_scope c = Some s → no_stack (scope_overlay s).
Definition once (t : GraphTraversal) (c : WorkflowCoordinator) : Prop :=
  traversal c = t ∧ no_loop c ∧ NoDup (completed_nodes c).

Lemma no_stack_summary s st : no_stack st → no_stack (insert_all (summary_variables s) st).
Proof.
  assert (Hkeys : LOOP_STATE_STACK_KEY ∉ (summary_variables s).*1).
  { intros ((k & v) & Hkv & Hk)%list_elem_of_fmap. apply summary_variables_machinery in Hk.
    cbn in Hkv. by rewrite <-Hkv in Hk. }
  revert st Hkeys. induction (summary_variables s) as [|[k v] l IH]; intros st Hk Hst; [done|].
  cbn in Hk. apply not_elem_of_cons in Hk as [? ?].
  apply IH; [done|]. unfold no_stack in *. by rewrite lookup_insert_ne.
Qed.
Lemma no_loop_variables c : no_loop c → no_stack (variables c).
Proof. intros [Hm Ho]. unfold variables. destruct (error_scope c) as [s|]; [by apply Ho|apply Hm]. Qed.
Lemma once_set_variables t st c : no_stack st → once t c → once t (set_variables st c).
Proof.
  intros Hst (Ht & [Hm Ho] & Hd). unfold once, no_loop, set_variables.
  destruct (error_scope c) as [s|] eqn:Hs; cbn;
    [|rewrite Hs; split; [done|]; split; [|done]; by split; [split; [|apply Hm]|]].
  split; [done|]. split; [|done]. split; [done|]. by intros s' [= <-].
Qed.
#[local] Instance once_framed t : Framed (once t).
Proof.
  split; try done.
  { intros e c He (Ht & [Hm Ho] & Hd). unfold once, no_loop in *. cbn. by rewrite He. }
  intros s c (Ht & [Hm Ho] & Hd). unfold enter_error_branch.
  destruct (error_scope c) as [sc|] eqn:Hs; cbn;
    (split; [done|]; split; [|done]; split; [done|]; intros s' [= <-]; cbn; apply no_stack_summary; first [apply Hm|auto]).
Qed.
Lemma active_loop_none st : no_stack st → active_loop st = Ok None.
Proof. intros H. unfold active_loop, current_loop, mbind, M_bind, try_stack. by rewrite H. Qed.
Lemma no_stack_iterations x st :
  no_stack st → record_iteration_completion x st = (st, Ok tt).
Proof. intros H. unfold record_iteration_completion, mbind, M_bind, try_stack. by rewrite H. Qed.

Section once.
  Context (t : GraphTraversal).
  Context (t_free : ∀ x, of_type t "LOOP_START" x = false).
  Context (handlers_plain : ∀ ctx shape ty st int, ty ≠ "LOOP_START" → no_stack st →
             no_stack (execute_node_once ctx shape ty st int).1.1).

Lemma once_execute x n c :
  get_node (traversal c) x = Some n → once t c → once t (execute_node x n c).1.
Proof.
  intros Hn Hc. unfold execute_node. cbn. apply once_set_variables; [|done].
  apply handlers_plain; [|by apply no_loop_variables, Hc].
  intros Hty. pose proof (t_free x) as Hx. unfold of_type in Hx. destruct Hc as [<- _].
  rewrite Hn in Hx. by apply bool_decide_eq_false_1 in Hx; rewrite <-Hty in Hx.
Qed.
Lemma once_merge c : once t c → once t (merge_error_scope c).
Proof.
  intros (Ht & [Hm Ho] & Hd). unfold merge_error_scope.
  destruct (error_scope c) as [s|] eqn:Hs; [|unfold once, no_loop; by rewrite Hs].
  split; [done|]. split; [|done]. split; [|done]. split; [|apply Hm]. cbn. unfold no_stack.
  rewrite lookup_union_r; [apply Hm|].
  apply map_lookup_filter_None. left. by apply Ho.
Qed.
Lemma once_iterations x : stable (once t) (record_loop_iteration_completion x).
Proof.
  intros c Hc. unfold record_loop_iteration_completion. case_match; [done|].
  rewrite no_stack_iterations by apply no_loop_variables, Hc.
  apply once_set_variables; [by apply no_loop_variables, Hc|done].
Qed.
Lemma once_success i x input r c :
  once t c ∧ x ∉ completed_nodes c → once t (record_node_success i x input r c).1.
Proof.
  revert c. apply (hoare_state _ _ (λ _, once t)); [|done].
  unfold record_node_success.
  apply hoare_bind with (λ _ c, once t c ∧ x ∉ completed_nodes c); [by apply hoare_modify|intros _].
  apply hoare_bind with (λ _, once t).
  { apply hoare_modify. intros c [(Ht & Hl & Hd) Hx]. split; [done|]. split; [done|]. cbn.
    apply NoDup_app. split; [done|]. split; [|apply NoDup_singleton].
    by intros y Hy ->%list_elem_of_singleton. }
  intros _. apply hoare_stable; [|done].
  solve_stable; try apply once_iterations; try apply framed_on_state; try apply once_framed; try done.
  by apply once_merge.
Qed.
Lemma once_dispatch i x c : once t c ∧ x ∉ completed_nodes c → once t (dispatch i x c).1.
Proof.
  apply (framed_dispatch (once t) (λ c, once t c ∧ x ∉ completed_nodes c)); try done.
  - intros e d He [Hd Hx]. split; [|done]. by apply (framed_entity (Q := once t)).
  - intros n d Hn [Hd Hx]. split; [by apply once_execute|].
    unfold execute_node. cbn. unfold set_variables. by case_match.
  - by intros d [].
  - intros v r d. apply once_success.
Qed.

(** With no loop active a completed node is skipped. *)
Lemma skip_decides c x :
  no_loop c →
  match skip_completed_node x c with
  | (c', Ok b) => b = bool_decide (x ∈ completed_nodes c) ∧ (b = false → c' = c)
  | (c', Err _) => False
  end.
Proof.
  intros Hl. unfold skip_completed_node, mbind, M_bind, get_state, lift.
  rewrite active_loop_none by by apply no_loop_variables. cbn.
  destruct (decide (x ∈ completed_nodes c)) as [Hx|Hx].
  - rewrite decide_True by done. cbn. split; [by rewrite bool_decide_eq_true_2|done].
  - rewrite decide_False by tauto. cbn. split; [by rewrite bool_decide_eq_false_2|done].
Qed.

Lemma plain_winning (l : list PendingVariableInjection) (m : gmap string PendingVariableInjection) :
  Forall (λ j, inj_name j ≠ LOOP_STATE_STACK_KEY) l → m !! LOOP_STATE_STACK_KEY = None →
  foldl (λ m j, <[inj_name j := j]> m) m l !! LOOP_STATE_STACK_KEY = None.
Proof.
  intros Hl. revert m. induction Hl as [|j l Hj Hl IH]; intros m Hm; [done|].
  cbn [foldl]. apply IH. by rewrite lookup_insert_ne.
Qed.
Lemma plain_drained policy p : plain_names p → plain_names (drain_variable_injections policy p).2.
Proof.
  intros Hp. unfold drain_variable_injections. cbn [snd].
  generalize (filter (λ i, inj_policy i = policy) (snd <$> map_to_list p)). intros l. revert p Hp.
  induction l as [|j l IH]; intros p Hp; [done|]. cbn [foldl]. apply IH.
  intros id k [_ Hk]%lookup_delete_Some. by eapply Hp.
Qed.
Lemma once_injections c :
  once t c → once t (apply_pending_variable_injections c).
Proof.
  intros (Ht & [[Hm Hp] Ho] & Hd). unfold apply_pending_variable_injections.
  case_match; [done|]. destruct (error_scope c) eqn:Hs; [by unfold once, no_loop; rewrite Hs|].
  split; [done|]. split; [|done]. split; [split|cbn; by rewrite Hs]; [|by apply plain_drained].
  cbn. unfold no_stack, apply_drained_injections. apply lookup_union_None. split; [|done].
  rewrite lookup_fmap, plain_winning; [done| |done].
  unfold drain_variable_injections. cbn [fst]. rewrite Forall_forall. intros j.
  rewrite merge_sort_Permutation. intros [_ ((id & j') & -> & Hj)%list_elem_of_fmap]%list_elem_of_filter.
  apply elem_of_map_to_list in Hj. by eapply Hp.
Qed.

Lemma once_backstop x : stable (once t) (check_navigation_backstop x).
Proof.
  unfold check_navigation_backstop. solve_stable; try done.
  unfold enter_node. destruct (_ <$> _) as [ty|]; [|done]. by repeat case_match.
Qed.
Lemma once_skip x : stable (once t) (skip_completed_node x).
Proof. unfold skip_completed_node. solve_stable; try apply framed_current_node; try apply once_framed; done. Qed.
Lemma once_arrive i c :
  (∀ p, plain_names p → plain_names (ext_injections i p)) → once t c → once t (arrive i c).
Proof.
  intros Hp (Ht & [[Hm Hn] Ho] & Hd). split; [done|]. split; [|done]. split; [|done].
  split; [done|]. by apply Hp.
Qed.
Lemma once_iteration i x :
  (∀ p, plain_names p → plain_names (ext_injections i p)) → stable (once t) (iteration i x).
Proof.
  intros Hp. unfold iteration.
  refine (hoare_state (F := once t) (once t) _ (λ _, once t) _ _); [|done].
  apply hoare_bind with (λ _, once t); [apply hoare_modify; intros c; by apply once_arrive|intros _].
  apply hoare_bind with (λ _, once t).
  { apply hoare_stable; [|done]. apply framed_check, once_framed. }
  intros _. apply hoare_bind with (λ _, once t); [apply hoare_modify, once_injections|].
  intros _. apply hoare_bind with (λ _, once t); [apply hoare_get|intros c0].
  destruct (steps_used_up c0); [by apply hoare_ret|].
  apply hoare_bind with (λ _, once t); [by apply hoare_stable; [apply once_backstop|]|intros _].
  apply hoare_bind with (λ (b : bool) c, once t c ∧ (b = false → x ∉ completed_nodes c)).
  { intros c Hc. pose proof (skip_decides c x (proj1 (proj2 Hc))) as Hs.
    pose proof (once_skip x c Hc) as Hc'.
    destruct (skip_completed_node x c) as [c' [b|e]]; [|done]. destruct Hs as [-> Hs].
    split; [done|]. intros Hb. rewrite (Hs Hb). by apply bool_decide_eq_false in Hb. }
  intros [].
  { apply hoare_ret. by intros c []. }
  apply hoare_bind with (λ _ c, once t c ∧ x ∉ completed_nodes c); [intros c []; cbn; auto|intros d].
  case_decide.
  { apply hoare_bind with (λ _, once t); [apply hoare_modify; by intros c []|intros _].
    apply hoare_bind with (λ _, once t); [by apply hoare_modify|intros _]. by apply hoare_ret. }
  apply hoare_bind with (λ _, once t); [|intros _; by apply hoare_ret].
  intros c Hc. pose proof (once_dispatch i x c Hc). by destruct (dispatch i x c) as [c' [|]].
Qed.
Lemma once_main_loop inputs c c' r :
  Forall (λ i, ∀ p, plain_names p → plain_names (ext_injections i p)) inputs →
  once t c → main_loop inputs c = Some (c', r) → once t c'.
Proof.
  intros Hp. revert c. induction Hp as [|i inputs Hi Hp IH]; intros c Hc; cbn [main_loop];
    destruct (current_node_id c) as [x|]; try done; try by intros [= <- <-].
  pose proof (once_iteration i x Hi c Hc) as Ho.
  destruct (iteration i x c) as [d [[]|e]]; [by apply IH|by intros [= <- <-]..].
Qed.
End once.

(** C40: outside loops a node completes at most once: in a workflow without LOOP_START nodes, whose
    handlers and injections leave the loop stack alone, a run never completes a node it has
    completed before, so cycles in the edges and resumed runs do not repeat effects. *)
Theorem nodes_run_once (inputs : list Input) (c c' : WorkflowCoordinator) (r : result WorkflowError ())
    (Hfree : ∀ x, of_type (traversal c) "LOOP_START" x = false)
    (Hhandlers : ∀ ctx shape ty st int, ty ≠ "LOOP_START" → no_stack st →
       no_stack (execute_node_once ctx shape ty st int).1.1)
    (Hinputs : Forall (λ i, ∀ p, plain_names p → plain_names (ext_injections i p)) inputs)
    (Hloop : no_loop c) (Hdup : NoDup (completed_nodes c))
    (Hrun : main_loop inputs c = Some (c', r)) :
  NoDup (completed_nodes c').
Proof. by apply (once_main_loop (traversal c) Hfree Hhandlers inputs c c' r). Qed.

(** A stop or a pause ends the run before another node executes: when other tasks have stopped
    or paused the execution, the iteration does nothing but record the interruption and fail,
    a stop with a cancellation and a pause with the paused error. *)
Theorem interrupted_run_ends (i : Input) (rest : list Input) (c : WorkflowCoordinator) (x : string)
    (s : InterruptionSignal) (Hx : current_node_id c = Some x)
    (Hs : check (ext_interruption i (interruption (entity c))) = Some s) :
  s ≠ Active ∧
  main_loop (i :: rest) c =
    let recorded kind recovered :=
      set_entity (with_state (record_interruption (interruption_entry kind recovered (now i)))
                    (entity (arrive i c))) (arrive i c) in
    Some match s with
         | Stop => (recorded "stop" false,
                    Err (NodeFailure x CancelledInterrupted "Execution stopped by interruption" Handler))
         | _ => (recorded "pause" true, Err (ExecutionPaused "Execution paused"))
         end.
Proof.
  assert (s ≠ Active) as Hact by (by intros ->; apply check_not_active in Hs).
  split; [done|]. cbn [main_loop]. rewrite Hx. unfold iteration.
  rewrite (bind_Ok _ _ _ (arrive i c) tt) by done.
  assert (interruption (entity (arrive i c)) = ext_interruption i (interruption (entity c))) as Hi by done.
  unfold check_interruption_and_timeout, get_state, mbind, M_bind. rewrite Hi, Hs. by destruct s.
Qed.

(** The outputs that reach a node, in the order of its incoming edges, each
    under its edge's label or else its source. *)
Definition arrived (c : WorkflowCoordinator) (x : string) : list (string * value) :=
  omap (λ e, (default (source_node_id e) (label e),.) <$> node_outputs c !! source_node_id e)
    (get_incoming_edges (traversal c) x).

Lemma arrived_inputs c x :
  foldl (λ (m : gmap string value) e, match node_outputs c !! source_node_id e with
                | Some output => <[default (source_node_id e) (label e) := output]> m
                | None => m
                end) ∅ (get_incoming_edges (traversal c) x) = list_to_map (reverse (arrived c x)).
Proof.
  unfold arrived. induction (get_incoming_edges (traversal c) x) as [|e es IH] using rev_ind; [done|].
  rewrite foldl_snoc, omap_app, reverse_app, IH. cbn.
  by destruct (node_outputs c !! source_node_id e).
Qed.

(** A node's input is decided by the outputs that reached it, not by the number of its edges:
    without incoming edges it is the workflow's input; when the arrived outputs have one name
    among them it is the last of them, bare; otherwise it is the object of them all, the last
    output of each name winning, and the object is empty when none arrived. *)
Theorem node_input_by_arrived (c : WorkflowCoordinator) (x : string) :
  let m : gmap string value := list_to_map (reverse (arrived c x)) in
  let input := compute_node_input c x in
  match input.2 with
  | ShapeNone => get_incoming_edges (traversal c) x = [] ∧ input.1 = default VNull (opt_input (options c))
  | Single => get_incoming_edges (traversal c) x ≠ [] ∧
      ∃ k, m = {[ k := input.1 ]} ∧ last (arrived c x) = Some (k, input.1)
  | Merged => get_incoming_edges (traversal c) x ≠ [] ∧ as_map input.1 = Some m ∧
      (∀ k v, m ≠ {[ k := v ]})
  end.
Proof.
  cbv zeta. unfold compute_node_input.
  destruct (get_incoming_edges (traversal c) x) as [|e es] eqn:He; [done|].
  rewrite <-He, arrived_inputs. assert (get_incoming_edges (traversal c) x ≠ []) as Hne; [by rewrite He|].
  set (m := list_to_map (reverse (arrived c x)) : gmap string value).
  case_decide as Hsz; cbn [fst snd].
  - split; [done|]. apply map_size_1_inv in Hsz as (k & v & Hm).
    exists k. rewrite Hm, map_to_list_singleton. cbn. split; [done|].
    subst m. destruct (arrived c x) as [|kv l _] using rev_ind; [by destruct (map_non_empty_singleton k v (eq_sym Hm))|].
    rewrite reverse_snoc in Hm. destruct kv as [k' v']. cbn in Hm. rewrite last_snoc.
    apply (f_equal (lookup k')) in Hm. rewrite lookup_insert_eq in Hm.
    symmetry in Hm. by apply lookup_singleton_Some in Hm as [-> ->].
  - split; [done|]. split; [apply as_map_object_of|]. intros k v Hm. apply Hsz. by rewrite Hm, map_size_singleton.
Qed.

End runs.

(** * Witnesses *)

Lemma nodes_run_once_witness :
  ∃ c r, main_loop (replicate 25 quiet) (demo false) = Some (c, r) ∧ NoDup (completed_nodes c).
Proof.
  eexists _, _. split; [by vm_compute|].
  eapply (nodes_run_once (replicate 25 quiet) (demo false)).
  - apply demo_loop_free.
  - intros ctx shape ty st int _ Hst. cbn. repeat case_decide; try done.
    cbn. unfold no_stack. by rewrite lookup_insert_ne.
  - by apply Forall_replicate.
  - split; [split|]; done.
  - apply NoDup_nil_2.
  - by vm_compute.
Defined.
Definition stopped_input : Input :=
  {| ext_interruption := λ s, (stop s).1; ext_injections := id; ext_signals := []; active_ms := 0; now := 7;
     late_interruption := id; late_active_ms := 0; node_end := 7 |}.
Lemma interrupted_run_ends_witness :
  ∃ c, main_loop [stopped_input] (demo false) =
         Some (c, Err (NodeFailure "a" CancelledInterrupted "Execution stopped by interruption" Handler)) ∧
       completed_nodes c = [].
Proof.
  destruct (interrupted_run_ends stopped_input [] (demo false) "a" Stop) as [_ H]; [done|done|].
  eexists. split; [exact H|done].
Defined.
